(* ===== verification/_CoqProject ===== *)
-Q . S2P
Prelude.v
Errors.v
Lua.v
ErrorModules.v
StringView.v
CoreErrors.v
ByteSpan.v
ByteSpanFacts.v
ByteSpanSafety.v
ByteSpanSpec.v
Vm.v
Sync.v
FiberOps.v
Scheduler.v
SchedulerInv.v
SchedulerFibers.v
SchedulerJoin.v
SchedulerEnd.v
SchedulerCalls.v
SchedulerSpec.v
SyncSpec.v
IpcMessage.v
IpcSpec.v
Inbox.v
InboxSpec.v
MonotonicAllocator.v
LuaTable.v
ActorValue.v
ActorValueSpec.v
ActorTransfer.v
ActorReceive.v
JsonCodec.v
JsonDecodeSpec.v
JsonEncodeSpec.v
JsonSpec.v
Scope.v
ScopeSpec.v
ScopePromises.v
Shim.v
ShimSpec.v
ShimPromises.v
Double.v
Clock.v
Timer.v
TimerSpec.v
TimePromises.v
SpawnArgs.v
SpawnChild.v
SpawnSpec.v
SpawnMoves.v
SpawnPromises.v
SpawnParent.v
Subprocess.v
SubprocessSpec.v
SubprocessPromises.v
Io.v
IoObjects.v
IoOperations.v
IoSteps.v
IoSpec.v
IoCalls.v
IoHandlers.v
IoInvariant.v
IoPromises.v
Path.v
RdfCategory.v
Modules.v
ModulesSpec.v
ModulePromises.v
ModuleStack.v
Regex.v
RegexSpec.v
ErrorObjects.v
Stream.v
TransferSpec.v
ScannerSpec.v
Supervisor.v
SupervisorSpec.v
SpawnModule.v
SpawnVm.v
