(* ===== verification/Prelude.v ===== *)
(** * Emilua, verified parts

    Emilua is a Lua runtime (LuaJIT under Boost.Asio): a program is a set of
    actors; an actor is a Lua VM, a [vm_context], whose fibers run one at a
    time on a strand; fibers synchronise with mutexes, condition variables and
    futures; actors exchange messages through inboxes, also between processes;
    octets are kept in byte spans.  This development translates the C++ code
    of those parts into Rocq functions, keeping names, guards, the order of
    checks and the error codes, and proves what makes them correct.

    ** Parts, files, sources

    - [Prelude]: machine widths, octets, windows of lists, the tactics and the
      hint database [emilua].
    - [Errors], [Lua]: the error enumerations ([src/include/emilua/core.hpp],
      [json.hpp]) and what handlers see of Lua: values, arguments, how a C
      function ends.  LuaJIT is not in the sources; its two number conversions
      are the class [LuaApi], whose laws hold for the instance [Ieee754.api].
    - [StringView]: the members of [std::string_view] the sources use.
    - [ErrorModules]: the name tables of [src/src/generic_error.cpp],
      [src/src/asio_error.cpp] and [src/tool/errno_sed.cpp].
    - [CoreErrors]: error objects, module-defined categories and logging of
      [src/src/core.cpp].
    - [ByteSpan] ([src/src/byte_span.cpp]): every operation over a heap of
      buffers that spans share; the allocator of new buffers is the class
      [Allocator].  Out-of-bounds accesses and overlapping [memcpy] are the
      outcome [Undefined].  [ByteSpanFacts], [ByteSpanSafety] and
      [ByteSpanSpec] hold its lemmas and theorems.
    - [Vm]: a VM and its fibers ([vm_context] of [core.hpp], [core.cpp]): the
      fiber table, coroutine states, the strand as a list of tasks, the
      interruption system, [fiber_resume], [fiber_epilogue], [close].
    - [Sync] ([mutex.cpp], [recursive_mutex.cpp], [condition_variable.cpp],
      [future.cpp]) and [FiberOps] ([fiber.cpp]): the handlers, each a
      function of the call's arguments and the VM.
    - [Scheduler]: the step relation of a VM (a call of the running fiber, its
      end, a task, a finalizer, a request to end) and the abstract scheduler,
      which only knows the one place each fiber waits in.  [SchedulerInv],
      [SchedulerFibers], [SchedulerJoin], [SchedulerEnd] and [SchedulerCalls]
      prove that every step keeps the invariant that ties both, one lemma per
      operation; [SchedulerSpec] states the theorems.
    - [SyncSpec]: what the primitives promise to programs.
    - [IpcMessage]: the message format of [src/include/emilua/actor.hpp], its
      encoder ([ipc_actor_chan_send], [src/src/actor.ypp]) and its two
      decoders ([src/src/ipc_actor.cpp]); [IpcSpec] its theorems.
    - [Inbox]: the inbox of an actor, its receivers, senders and services
      ([core.hpp], [actor.ypp], [ipc_actor.cpp]); [InboxSpec] its theorems.
    - [MonotonicAllocator]: the allocator of the Lua state that runs hooks
      before [exec] ([ipc_actor.cpp]), with its theorem.
    - [LuaTable]: a heap of Lua tables and userdata, with the functions of the
      C API on them.  The length of a table with holes is up to LuaJIT: the
      class [LuaTables], with the instance [FirstBorder.lua_tables].
    - [ActorValue]: the values actors of one process send each other, the copy
      [chan_send] makes and the copy [deserializer_closure] makes of it
      ([actor.ypp]), with explicit stacks as in the code; [dup] is the class
      [Dup].  [ActorValueSpec] relates the loop to a recursive copy,
      [ActorTransfer] says what plain data is and what its copy holds,
      [ActorReceive] has the theorems.
    - [JsonCodec] ([src/src/json.cpp], [src/bytecode/json_encode.lua]): the
      decoder over the symbols of the library's reader, the encoder over its
      writer.  [JsonDecodeSpec] and [JsonEncodeSpec] say what documents are in
      a heap and relate them to the code; [JsonSpec] has the theorems.
    - [Scope] ([src/src/scope_cleanup.cpp], [src/bytecode/scope.lua],
      [pcall.lua], [xpcall.lua], [scope_cleanup_pop.lua], the functions fibers
      start with): an interpreter for the calls of the scope family a program
      makes.  [ScopeSpec]: it ends, and the interruption counter; [ScopePromises]: the
      order of the handlers, and the theorems.
    - [Shim] ([src/src/lua_shim.cpp], [src/bytecode/coroutine_create.lua],
      [coroutine_resume.lua], [coroutine_wrap.lua]): coroutines that yield,
      suspend their fiber and resume others, as steps of a VM with many
      fibers.  [ShimSpec]: the invariant; [ShimPromises]: the flag that tells
      yields apart, and the theorems.
    - [Double]: Lua's numbers as doubles, exact multiples of 2^-1074, with the
      conversions, products and comparisons durations need, rounded to nearest.
    - [Clock] ([src/src/time.cpp]): durations as [<chrono>] converts them, the
      time points of the three clocks, and what the conversions give.
    - [Timer] (the same file): [sleep], [steady_timer] and [system_timer] over
      [Vm], with the steps of the reactor; Asio's timer is the class
      [WaitableTimer].  [TimerSpec]: the invariant; [TimePromises]: the
      theorems on time points and timers.
    - [SpawnArgs] ([src/src/linux/system/spawn.cpp] and
      [src/src/freebsd/system/spawn.cpp]): how [system.spawn] reads its table,
      one definition per field.  [SpawnChild]: the child up to [exec], over its
      table of file descriptors; what the kernel refuses is the class [Kernel].
      [SpawnSpec] and [SpawnMoves] follow the table phase by phase, with
      triples; [SpawnPromises] has the theorems on the arguments and the child.
      [SpawnParent]: the pipe to the child and what the parent makes of it.
    - [Subprocess] (the file of Linux): the [subprocess] userdata, its waits
      and its finalizer over [Vm], with processes that end and pids that are
      used again, and what the program does with [SIGCHLD] (ignored, the kernel
      waits for the children itself).  [SubprocessSpec]: the invariant; [SubprocessPromises]: the
      theorems.
    - [Io]: the state of a VM that does I/O: the descriptors of the process
      with the files they are open on, the [file_descriptor] userdata, the
      userdata that hold an object of Asio (sockets, acceptors, pipes, serial
      ports, files), one operation per fiber that waits.  [IoObjects] and
      [IoOperations] ([src/src/file_descriptor.cpp], [ip.cpp], [unix.cpp], [pipe.cpp], [serial_port.cpp],
      [file.cpp]) have the functions: those that return, those that suspend
      the fiber, and the handlers that end an operation.  The sources repeat
      each function for each class; the names of the sources are instances of
      one function of the class.  [IoSteps]: the calls, the reactor, the
      strand, the end of the VM and the rest of the process as steps.
      [IoSpec]: the invariant; [IoCalls], [IoHandlers], [IoInvariant]: calls,
      handlers and steps keep it; [IoPromises]: the theorems.
    - [Path]: the paths of the standard library on POSIX, as strings, and the
      elements by which they are compared.
    - [RdfCategory] ([load_rdf_error_category] of [src/src/state.ypp]): the error
      category a document describes, with its theorem.  The library that reads
      the document is the class [Sord].
    - [Modules] ([require] and what it calls in the same file, what [make_vm]
      records of the entry point, [src/include/emilua/modules.re],
      [src/bytecode/require.lua], [module_start_fn.lua]): the names of modules,
      where they are looked for, the caches of the process, native modules, the
      fiber that runs a module, and the steps of a VM that imports.  The compiler
      of Lua, the plugins and the tables of the built-in modules are classes; the
      files are an argument.  [ModulesSpec]: what names
      stand for, and the cases of [require]; [ModulePromises] and [ModuleStack]: the theorems.
    - [Regex] ([src/src/regex.cpp]): the functions of the module over strings and
      spans, with the iterators of the standard library they use.  What an
      expression matches is the class [StdRegex], whose functions take the flags
      they are given and may throw; its laws [RegexLaws] say, for the flags of the
      standard, that matches are inside of the text.  [RegexSpec]: the theorems.
    - [ErrorObjects] ([init_state] of [src/src/state.ypp]): the metatables of
      error codes, of categories and of modules that are categories.
    - [Stream] ([src/src/stream.cpp], and [read_all.lua], [write_all.lua], the
      versions with a minimum or an offset, [scanner_*.lua] of [src/bytecode/]):
      the loops that transfer octets and the scanner, which cuts records from a
      stream.  [TransferSpec]: that the functions on handles are the methods
      of [ByteSpan], and the theorems on the loops; [ScannerSpec]: those on the
      scanner.
    - [Supervisor] ([ipc_actor_service_main] and [child_main] of
      [src/src/ipc_actor.cpp]): the process that makes the processes of actors,
      request by request, and what such a process does before it is a VM, over
      the tables of descriptors of [SpawnChild]; with the functions of
      [src/src/system.cpp] and [src/src/filesystem.cpp] that change the identity
      of a process and have the supervisor follow.  The kernel, the library of
      capabilities and the archive of the first message are classes.
      [SupervisorSpec]: the theorems.
    - [SpawnModule] and [SpawnVm] ([spawn_vm] of [src/src/actor.ypp]): the VM in
      the same process, with the file its name stands for, and the VM in another
      process, with the parameters, the exchange with the supervisor and the
      message to the child; each with its theorems.

    ** What the theorems show

    - Scheduler: every reachable VM is explained by moves of the abstract
      scheduler; no assertion fails; a suspended fiber is registered at one
      place exactly, so that no wake-up is lost or doubled; tasks run in
      order; [interrupt] reaches a fiber where it waits.
    - Primitives: their fields stay consistent; mutexes are handed over in
      order of arrival; [wait] is atomic; recursive locks balance and do not
      overflow; futures deliver once; [join] does not depend on who is first;
      the switches of [this_fiber] nest; a collected promise breaks its future
      even when it was fulfilled.
    - Byte spans: memory safety, the contents after [append], [copy], stores
      and slices, the results of the searches, and the one undefined case.
    - IPC messages: hostile messages are read within bounds and depend on the
      octets received only; what is sent is received; nothing uninitialised is
      sent; descriptors are given back, unless one is sent twice.
    - Inbox: every sender and receiver is answered once; no receiver is left
      behind; messages keep their order; the service of a VM's own inbox is
      not started while a fiber receives.  [InboxSpec.Examples] has the receiver
      that is interrupted after the inbox was closed: a null fiber is resumed.
    - Allocator of the hooks: blocks are aligned, disjoint and keep their
      octets.
    - Values between actors: the copy ends for every heap, with what a
      recursive copy gives; a cycle is reported only where there is one; the
      descriptors of a message are new and a failed send leaves none; every
      message is well formed and can be received; plain data that is sent
      arrives.
    - JSON: a text becomes its document, or the first fault with its path;
      truncated texts are refused; encoding ends; a document without reals that
      is encoded is decoded to the same document.
    - Scopes: fibers end; handlers that leave the scope they are called in alone
      are called or dropped once, newest first, in fibers that [spawn] starts;
      they are not interrupted and the counter is restored, but for one per
      coroutine that ended.  [ScopePromises.Examples] has the programs that
      show where the code does something else.
    - Coroutines: a suspension inside of coroutines is transparent to them,
      for programs whose cleanup handlers neither suspend nor resume;
      [ShimPromises.Examples] shows what happens to the others.
    - Time: seconds become the nearest nanosecond, or the next one for a wait;
      differences of time points add up again; a sleep does not end early; no
      wake-up of a timer is lost or given twice; an interruption ends a wait.
      [TimePromises.Examples] has the sums that overflow and the fiber that is
      interrupted although it disabled interruption.
    - Subprocesses: only arguments that fit together are accepted; the program
      finds the descriptors that were asked for and no other; the child executes
      the program that is named, or a failure before [exec] is reported to the
      parent, which leaks no descriptor; as long as the program does not ignore
      [SIGCHLD], no signal reaches a process that got the pid of a child that is
      gone ([SubprocessPromises.Examples] has one that ignores it); every
      child is waited for once; a fiber that waits is told how the child ended.
      [SpawnPromises] shows that a program named by a descriptor does not
      start when the number is 12 or more, and that the pipe is executed in its
      place when the descriptor is [displaced].
    - I/O, when the program keeps the handles it sends and makes no call that
      fails an assertion: every descriptor of a VM has one owner and none that is
      another's is closed; the operations that wait are the ones the strand and the reactor
      know; a handler ends its operation once, and the end of a VM closes
      everything; closing or interrupting ends what waits; a message carries
      the files of the handles it was given, which are lent meanwhile, and
      what is received becomes handles or is closed.  [IoPromises.Examples]
      has the handle that is collected while it is lent, the path that does
      not fit and the interruptions that are lost.
    - Modules: imports do not leave the directory they are confined to, when that
      is absolute and ends in no separator; no file
      is started twice by relative imports, nor a package by its name; modules
      run like calls, on a stack of importers that wait.  The examples of
      [ModuleStack] have what the code does otherwise: cycles through names that
      start with a slash, places for packages that end in one, packages that were
      known by their path, modules that failed, names with zeros.  A category
      that is loaded has a text for each of its errors.
    - Regular expressions: unless the engine throws, the parts of [split] and the
      matches between them are the text again, and the parts of a span are spans
      of its buffer; every function ends and stays inside of its text, when its
      flags are those of the standard and promise no character before the text.
      [RegexSpec.Examples] has the flag that reads before the text, the engine
      that gives up and the character [patsplit] skips.
    - Streams: [write_all] writes and [read_all] reads every octet once, in order,
      and [read_all] changes no other; for separators that are non-empty strings
      the records of a scanner that neither trims nor splits are the parts of the
      stream between the separators, whatever the pieces it arrives in and however
      the buffer grows.
      [ScannerSpec.Examples] shows what is otherwise: the last record when it is
      trimmed or split, separators that are empty, errors taken for the end.
    - Actors in processes: the supervisor serves every request and keeps its
      descriptors, and ends after its children, but for requests whose files were
      lost, at which it dies; a process it makes has the descriptors of the request and no
      other; a process and its supervisor change their identity together, or the
      process exits; when [spawn_vm] returns, the child that starts is the one
      that was asked for, and when it raises the caller has its descriptors back and no
      child becomes a VM.  A VM that is
      spawned in the process stays in the directory of its creator and finds the
      modules [require] finds.  [SupervisorSpec.Examples],
      [SpawnModule.Examples] and [SpawnVm.Examples] have what is otherwise: the
      arguments of a child, an empty script, names with directories, an entry
      point that spawns itself.
    - Errors and logs: tables without duplicates, round trips of error
      objects, messages of categories, the shape of a log line.

    ** Bounds and conventions

    Definitions are structurally recursive, but for the loops that follow
    references: [send_loop], [receive_loop], [json_encode_recur] and
    [Scope.run] take fuel and give [None] without it; the theorems say how much
    is enough (the number of tables for the encoder, [weight] for programs) or
    that some is.  [drain] runs as many tasks as it is given answers of the
    kernel; the length of the strand is enough to empty it.  [Shim.wake] takes the number of coroutines, which is always
    enough.  The loops of [Regex] have two more than the characters of the text,
    [get_line] the octets and answers of the stream: each round takes one.
    [lua_Integer] and [size_t] are integers with their 64-bit ranges written
    out; doubles are 64-bit patterns.  The number of members of an IPC message
    is a parameter greater than 2, as its [static_assert] says.  Addresses are
    natural numbers.

    ** What is not modelled

    Lua code runs between the calls of a fiber: a step lets it make any call
    with any arguments.  An allocation failure ends a VM through
    [notify_errmem], a step that may happen at any time; where in a handler it
    strikes is not modelled.  Of a fiber's row, the stack trace and the cached
    default interrupter are left out, as is the text [close] prints.  The
    interpreter of [Scope] runs one fiber, whose coroutines run to their end;
    those of [Shim] have no scopes but their root.  Of JSON, the userdata of a
    writer and the library's reader and writer are left out.  Of subprocesses,
    the strings of the program are those of [std::string], which [exec] reads up
    to the first zero; what the kernel does besides the table of descriptors is
    only recorded as a list of calls.  Of I/O,
    Asio and the kernel are arguments: the answer of a call, and what a
    [.._allowed] predicate says of it.  The octets that travel between
    processes, socket options, terminals and the name resolver are left out,
    and the handles of a message that is being sent are taken to stay
    reachable ([reachable true]); without it they dangle.
    Of modules, the locks of the caches and the other
    tables [make_vm] fills are left out; what other fibers and VMs do is the
    relation [other_step].  Of actors in processes,
    the script of the hook with the system calls it may make
    ([sys_bindings.cpp]) is a class, and the signals and the end of a process
    are left out; the text of capabilities is taken to be there.  The other
    functions of [filesystem.cpp] and [system.cpp], and TLS, are not modelled:
    they are bindings of the C++ library, of system calls or of libraries outside
    of the repository.  The tables of functions that each [init_] function fills
    are left out, as are the texts of the category of [std::regex_error].

    ** Next

    The options of sockets, addresses as values, the reapers of processes. *)
From stdpp Require Export gmap strings list fin_maps sorting.

(** * Machine widths *)

Coercion Z.of_nat : nat >-> Z.

(** [lua_Integer] is a [ptrdiff_t]: 64 bits, signed, on the 64-bit targets. *)
Definition int64_min : Z := - 2 ^ 63.
Definition int64_max : Z := 2 ^ 63 - 1.
Definition in_int64 (z : Z) : Prop := (int64_min ≤ z ≤ int64_max)%Z.

(** [std::size_t] on the same targets. *)
Definition size_max : Z := 2 ^ 64 - 1.
Definition in_size (z : Z) : Prop := (0 ≤ z ≤ size_max)%Z.

(** An octet of a buffer or of a Lua string. *)
Definition is_byte (z : Z) : Prop := (0 ≤ z < 256)%Z.
Abbreviation bytes := (list Z) (only parsing).

#[export] Instance in_int64_dec z : Decision (in_int64 z).
Proof. unfold in_int64. apply _. Defined.
#[export] Instance in_size_dec z : Decision (in_size z).
Proof. unfold in_size. apply _. Defined.
#[export] Instance is_byte_dec z : Decision (is_byte z).
Proof. unfold is_byte. apply _. Defined.

Ltac unfold_widths :=
  unfold in_int64, in_size, is_byte, int64_min, int64_max, size_max in *.
(** [width] closes the linear side conditions about machine widths. *)
Ltac width := unfold_widths; lia.

(** The octets of a C string literal. *)
Definition lit (s : string) : bytes :=
  map (λ c, Z.of_N (Ascii.N_of_ascii c)) (String.list_ascii_of_string s).

(** * Automation shared by the components *)

(** Case analysis on the next [match] or [if] of a hypothesis, keeping the
    equation. *)
Ltac case_hyp H :=
  match type of H with
  | context [match ?x with _ => _ end] =>
      lazymatch x with
      | context [match _ with _ => _ end] => fail
      | _ => let E := fresh "E" in destruct x eqn:E
      end
  end.
Ltac case_hyps H := repeat (case_hyp H; simplify_eq/=).

Ltac case_goal :=
  match goal with
  | |- context [match ?x with _ => _ end] =>
      lazymatch x with
      | context [match _ with _ => _ end] => fail
      | _ => let E := fresh "E" in destruct x eqn:E
      end
  end.
Ltac case_goals := repeat (case_goal; simplify_eq/=).

Create HintDb emilua discriminated.
Create Rewrite HintDb emilua_rw.

(** * Lists *)

Section lists.
Context {A : Type}.
Implicit Types (l k : list A).

(** The sub-list of [n] elements that starts at [i]. *)
Definition window (i n : nat) l : list A := take n (drop i l).

Lemma length_window i n l :
  i + n ≤ length l → length (window i n l) = n.
Proof. intros H. unfold window. rewrite length_take, length_drop. lia. Qed.

Lemma window_full l : window 0 (length l) l = l.
Proof. unfold window. rewrite drop_0. apply take_ge. lia. Qed.

(** A list is what is before a window, the window and what is after. *)
Lemma window_split i n l :
  take i l ++ window i n l ++ drop (i + n) l = l.
Proof. unfold window. by rewrite <- drop_drop, !take_drop. Qed.

Lemma window_lookup i n l j :
  j < n → window i n l !! j = l !! (i + j).
Proof.
  intros H. unfold window. rewrite lookup_take_lt by done. apply lookup_drop.
Qed.

Lemma window_window i n j m l :
  j + m ≤ n → window j m (window i n l) = window (i + j) m l.
Proof.
  intros H. unfold window.
  apply list_eq; intros x. destruct (decide (x < m)).
  - rewrite !lookup_take_lt by lia. rewrite !lookup_drop.
    rewrite lookup_take_lt by lia. rewrite lookup_drop. f_equal; lia.
  - rewrite !lookup_take_ge by lia. done.
Qed.

(** Overwrite [length k] elements of [l] from position [i]: what a
    [memcpy] or [memmove] of [k] into a buffer does. *)
Definition blit (i : nat) k l : list A :=
  take i l ++ k ++ drop (i + length k) l.

Lemma length_blit i k l :
  i + length k ≤ length l → length (blit i k l) = length l.
Proof.
  intros H. unfold blit. rewrite !length_app, length_take, length_drop. lia.
Qed.

Lemma blit_nil i l : i ≤ length l → blit i [] l = l.
Proof.
  intros H. unfold blit. simpl. rewrite Nat.add_0_r. apply take_drop.
Qed.

Lemma window_blit_same i k l :
  i + length k ≤ length l → window i (length k) (blit i k l) = k.
Proof.
  intros H. unfold window, blit.
  rewrite drop_app_length' by (rewrite length_take; lia).
  apply take_app_length.
Qed.

Lemma blit_lookup i k l j :
  i + length k ≤ length l →
  blit i k l !! j =
    (if decide (i ≤ j < i + length k) then k !! (j - i) else l !! j).
Proof.
  intros H. unfold blit. case_decide.
  - rewrite lookup_app_r by (rewrite length_take; lia).
    rewrite length_take, Nat.min_l by lia. apply lookup_app_l. lia.
  - destruct (decide (j < i)).
    + rewrite lookup_app_l by (rewrite length_take; lia).
      by rewrite lookup_take_lt.
    + rewrite lookup_app_r by (rewrite length_take; lia).
      rewrite length_take, Nat.min_l by lia.
      rewrite lookup_app_r by lia. rewrite lookup_drop. f_equal; lia.
Qed.

(** Two writes side by side are one. *)
Lemma blit_app i k1 k2 l :
  i + length k1 + length k2 ≤ length l →
  blit (i + length k1) k2 (blit i k1 l) = blit i (k1 ++ k2) l.
Proof.
  intros H. apply list_eq; intros j.
  rewrite !blit_lookup by (rewrite ?length_blit, ?length_app; lia).
  rewrite length_app. repeat case_decide; try lia; try done.
  - rewrite lookup_app_r by lia. f_equal; lia.
  - by rewrite lookup_app_l by lia.
Qed.

(** A write just after a window makes it longer. *)
Lemma window_blit_after i n k l :
  i + n + length k ≤ length l →
  window i (n + length k) (blit (i + n) k l) = window i n l ++ k.
Proof.
  intros H. apply list_eq; intros j. destruct (decide (j < n + length k)).
  - rewrite window_lookup, blit_lookup by lia.
    pose proof (length_window i n l) as Hw. case_decide.
    + rewrite lookup_app_r by (rewrite Hw; lia). f_equal. rewrite Hw; lia.
    + rewrite lookup_app_l by (rewrite Hw; lia). by rewrite window_lookup by lia.
  - rewrite !lookup_ge_None_2; [done|rewrite length_app|];
      rewrite ?length_window; rewrite ?length_blit; lia.
Qed.

(** A write at the front of a window. *)
Lemma window_blit_front i n k l :
  length k ≤ n → i + n ≤ length l →
  window i n (blit i k l) = k ++ drop (length k) (window i n l).
Proof.
  intros Hk H. apply list_eq; intros j. destruct (decide (j < n)).
  - rewrite window_lookup, blit_lookup by lia. case_decide.
    + rewrite lookup_app_l by lia. f_equal; lia.
    + rewrite lookup_app_r, lookup_drop by lia.
      rewrite window_lookup by lia. f_equal; lia.
  - rewrite !lookup_ge_None_2; [done|rewrite length_app, length_drop|];
      rewrite ?length_window; rewrite ?length_blit; lia.
Qed.

(** A write leaves every window it does not touch as it was. *)
Lemma window_blit_disjoint i k l j m :
  i + length k ≤ length l → (j + m ≤ i ∨ i + length k ≤ j) →
  window j m (blit i k l) = window j m l.
Proof.
  intros H Hd. apply list_eq; intros x. destruct (decide (x < m)).
  - rewrite !window_lookup by done. rewrite blit_lookup by done.
    case_decide; [lia | done].
  - unfold window. rewrite !lookup_take_ge by lia. done.
Qed.
End lists.

Lemma mapM_ext_elem {A B} (f g : A → option B) (l : list A) :
  (∀ x, x ∈ l → f x = g x) → mapM f l = mapM g l.
Proof.
  induction l as [|x l IH]; intros H; [done|]. simpl.
  rewrite H by set_solver. rewrite IH by set_solver. done.
Qed.

Lemma elem_of_concat {A} (x : A) (ls : list (list A)) :
  x ∈ concat ls ↔ ∃ l, x ∈ l ∧ l ∈ ls.
Proof. induction ls as [|l ls IH]; simpl; [set_solver|]. rewrite elem_of_app, IH. set_solver. Qed.

(** * Computations with fuel that may fail

    [None] when the fuel runs out, otherwise an error or a result. *)
Definition fbind {E A B} (x : option (E + A)) (f : A → option (E + B)) : option (E + B) :=
  match x with
  | Some (inr a) => f a
  | Some (inl e) => Some (inl e)
  | None => None
  end.
Notation "'let*' x ':=' e 'in' k" := (fbind e (λ x, k))
  (at level 200, x pattern, e at level 100, k at level 200).

Section fallible.
Context {E A B : Type}.
Implicit Types (x : option (E + A)) (f : A → option (E + B)).
Lemma fbind_inr x f b : fbind x f = Some (inr b) ↔ ∃ a, x = Some (inr a) ∧ f a = Some (inr b).
Proof. destruct x as [[]|]; simpl; naive_solver. Qed.
Lemma fbind_inl x f e :
  fbind x f = Some (inl e) ↔ x = Some (inl e) ∨ ∃ a, x = Some (inr a) ∧ f a = Some (inl e).
Proof. destruct x as [[]|]; simpl; naive_solver. Qed.
Lemma fbind_total x f : is_Some x → (∀ a, is_Some (f a)) → is_Some (fbind x f).
Proof. intros [[e|a] ->] Hf; simpl; [done|apply Hf]. Qed.
End fallible.

(** * Tables of names

    [EMILUA_GPERF_BEGIN/PAIR/END] are expanded, by a generated perfect hash,
    into a lookup by exact key with a default value; [gperf] is that lookup. *)
Fixpoint gperf {A} (pairs : list (bytes * A)) (key : bytes) : option A :=
  match pairs with
  | [] => None
  | (k, a) :: rest => if decide (key = k) then Some a else gperf rest key
  end.

Lemma gperf_elem_of {A} (pairs : list (bytes * A)) key a :
  gperf pairs key = Some a → (key, a) ∈ pairs.
Proof.
  induction pairs as [|[k b] rest IH]; simpl; [done|].
  case_decide; intros; simplify_eq; set_solver.
Qed.

Lemma gperf_complete {A} (pairs : list (bytes * A)) key a :
  NoDup pairs.*1 → (key, a) ∈ pairs → gperf pairs key = Some a.
Proof.
  induction pairs as [|[k b] rest IH]; simpl; [set_solver|].
  intros [Hk Hnd]%NoDup_cons [Heq|Hin]%elem_of_cons.
  - simplify_eq. by rewrite decide_True.
  - rewrite decide_False; [by apply IH|].
    intros ->. apply Hk. apply list_elem_of_fmap. by exists (k, a).
Qed.

Lemma gperf_None {A} (pairs : list (bytes * A)) key :
  gperf pairs key = None ↔ key ∉ pairs.*1.
Proof.
  induction pairs as [|[k b] rest IH]; simpl; [set_solver|].
  case_decide; set_solver.
Qed.

Lemma NoDup_snd_inj {A B} (pairs : list (A * B)) a1 a2 b :
  NoDup pairs.*2 → (a1, b) ∈ pairs → (a2, b) ∈ pairs → a1 = a2.
Proof.
  intros Hnd [i Hi]%list_elem_of_lookup [j Hj]%list_elem_of_lookup.
  assert (i = j) as ->.
  { apply (NoDup_lookup pairs.*2 i j b); [done|..];
      by rewrite list_lookup_fmap, ?Hi, ?Hj. }
  congruence.
Qed.

Lemma StronglySorted_lookup_lt {A} (R : A → A → Prop) l i j x y :
  StronglySorted R l → l !! i = Some x → l !! j = Some y → i < j → R x y.
Proof.
  intros Hs. revert i j. induction Hs as [|z l Hs IH Hz]; intros i j Hi Hj Hij.
  { done. }
  destruct i as [|i], j as [|j]; simplify_eq/=; [lia| |lia|].
  - by apply (Forall_lookup_1 _ _ _ _ Hz Hj).
  - apply (IH i j); [done|done|lia].
Qed.

#[export] Hint Resolve length_window length_blit : emilua.
