(* ===== verification/Errors.v ===== *)
(** The error enumerations of the runtime and the error codes handlers raise.

    - [std_errc]: the [std::errc] enumerators the sources name;
    - [Core]: [emilua::errc] ([src/include/emilua/core.hpp]) and the messages
      of its category ([src/src/core.cpp]);
    - [Asio]: the Boost.Asio error enumerators [src/src/asio_error.cpp] names;
    - [Json]: [json_errc] ([src/include/emilua/json.hpp], [src/src/json.cpp]);
    - [error_code]: a value of one of those categories. *)
From S2P Require Import Prelude.

(** * [std::errc]

    The enumerators of the C++ library the sources name; their numeric values
    are the platform's [errno] constants, which are not zero. *)
Inductive std_errc : Set :=
| address_family_not_supported
| address_in_use
| address_not_available
| already_connected
| argument_list_too_long
| argument_out_of_domain
| bad_address
| bad_file_descriptor
| bad_message
| broken_pipe
| connection_aborted
| connection_already_in_progress
| connection_refused
| connection_reset
| cross_device_link
| destination_address_required
| device_or_resource_busy
| directory_not_empty
| executable_format_error
| file_exists
| file_too_large
| filename_too_long
| function_not_supported
| host_unreachable
| identifier_removed
| illegal_byte_sequence
| inappropriate_io_control_operation
| interrupted
| invalid_argument
| invalid_seek
| io_error
| is_a_directory
| message_size
| network_down
| network_reset
| network_unreachable
| no_buffer_space
| no_child_process
| no_link
| no_lock_available
| no_message
| no_protocol_option
| no_space_on_device
| no_such_device_or_address
| no_such_device
| no_such_file_or_directory
| no_such_process
| not_a_directory
| not_a_socket
| not_connected
| not_enough_memory
| not_supported
| operation_canceled
| operation_in_progress
| operation_not_permitted
| operation_not_supported
| operation_would_block
| owner_dead
| permission_denied
| protocol_error
| protocol_not_supported
| read_only_file_system
| resource_deadlock_would_occur
| resource_unavailable_try_again
| result_out_of_range
| state_not_recoverable
| text_file_busy
| timed_out
| too_many_files_open_in_system
| too_many_files_open
| too_many_links
| too_many_symbolic_link_levels
| value_too_large
| wrong_protocol_type.

#[export] Instance std_errc_eq_dec : EqDecision std_errc.
Proof. solve_decision. Defined.

(** * [emilua::errc] *)
Module Core.
Inductive errc : Set :=
| invalid_module_name
| module_not_found
| root_cannot_import_parent
| cyclic_import
| leaf_cannot_import_child
| only_main_fiber_may_import
| bad_root_context
| bad_index
| bad_coroutine
| suspension_already_allowed
| interruption_already_allowed
| forbid_suspend_block
| interrupted
| unmatched_scope_cleanup
| channel_closed
| no_senders
| internal_module
| raise_error
| bad_rdf
| bad_rdf_module
| bad_rdf_error_category
| broken_promise
| promise_already_satisfied
| current_module_not_known.

#[global] Instance errc_eq_dec : EqDecision errc.
Proof. solve_decision. Defined.

(** The first enumerator is 1 and the others follow. *)
Definition errc_value (e : errc) : Z :=
  match e with
  | invalid_module_name => 1
  | module_not_found => 2
  | root_cannot_import_parent => 3
  | cyclic_import => 4
  | leaf_cannot_import_child => 5
  | only_main_fiber_may_import => 6
  | bad_root_context => 7
  | bad_index => 8
  | bad_coroutine => 9
  | suspension_already_allowed => 10
  | interruption_already_allowed => 11
  | forbid_suspend_block => 12
  | interrupted => 13
  | unmatched_scope_cleanup => 14
  | channel_closed => 15
  | no_senders => 16
  | internal_module => 17
  | raise_error => 18
  | bad_rdf => 19
  | bad_rdf_module => 20
  | bad_rdf_error_category => 21
  | broken_promise => 22
  | promise_already_satisfied => 23
  | current_module_not_known => 24
  end.

Definition all_errc : list errc :=
  [ invalid_module_name; module_not_found; root_cannot_import_parent; cyclic_import; leaf_cannot_import_child; only_main_fiber_may_import; bad_root_context; bad_index; bad_coroutine; suspension_already_allowed; interruption_already_allowed; forbid_suspend_block; interrupted; unmatched_scope_cleanup; channel_closed; no_senders; internal_module; raise_error; bad_rdf; bad_rdf_module; bad_rdf_error_category; broken_promise; promise_already_satisfied; current_module_not_known ].

(** [static_cast<int>(e)] in a [case] label: the enumerator an [int] is. *)
Definition errc_of_value (value : Z) : option errc :=
  list_find (λ e, errc_value e = value) all_errc ≫= λ p, Some p.2.

(** [category_impl::message]: a [switch] over the values, the empty string
    for any other. *)
Definition message (value : Z) : string :=
  match errc_of_value value with
  | Some invalid_module_name => "Cannot have a module with this name"
  | Some module_not_found => "Module not found"
  | Some root_cannot_import_parent => "The root module doesn't have a parent and can't reference one"
  | Some cyclic_import => "The module you're trying to import has a dependency on the current module (and it is partially loaded already)"
  | Some leaf_cannot_import_child => "A leaf module cannot import child modules"
  | Some only_main_fiber_may_import => "You can only import modules from the main fiber"
  | Some bad_root_context => "Bad root context"
  | Some bad_index => "Requested key wasn't found in the table/userdata"
  | Some bad_coroutine => "The fiber coroutine is reserved to the scheduler"
  | Some suspension_already_allowed => "Suspension already allowed"
  | Some interruption_already_allowed => "Interrupt-ability already allowed"
  | Some forbid_suspend_block => "EPERM within a forbid-suspend block"
  | Some interrupted => "Fiber interrupted"
  | Some unmatched_scope_cleanup => "scope_cleanup_pop() called w/o a matching scope_cleanup_push()"
  | Some channel_closed => "Channel closed"
  | Some no_senders => "Broadcast the address before attempting to receive on it"
  | Some internal_module => "Lua code cannot import this module directly"
  | Some raise_error => "std::raise() failed"
  | Some bad_rdf => "Failed to parse RDF"
  | Some bad_rdf_module => "Parsed RDF doesn't contain a recognized Emilua module"
  | Some bad_rdf_error_category => "Parsed RDF module contains an invalid error category"
  | Some broken_promise => "Broken promise"
  | Some promise_already_satisfied => "Promise already satisfied"
  | Some current_module_not_known => "Global _FILE is missing or invalid"
  | None => ""
  end.
Definition name : string := "emilua.core".
End Core.

(** * Boost.Asio error enumerators *)
Module Asio.
Module basic_errors.
Inductive t : Set :=
| access_denied
| address_family_not_supported
| address_in_use
| already_connected
| already_started
| broken_pipe
| connection_aborted
| connection_refused
| connection_reset
| bad_descriptor
| fault
| host_unreachable
| in_progress
| interrupted
| invalid_argument
| message_size
| name_too_long
| network_down
| network_reset
| network_unreachable
| no_descriptors
| no_buffer_space
| no_memory
| no_permission
| no_protocol_option
| no_such_device
| not_connected
| not_socket
| operation_aborted
| operation_not_supported
| shut_down
| timed_out
| try_again
| would_block.
#[global] Instance eq_dec : EqDecision t.
Proof. solve_decision. Defined.
End basic_errors.

Module netdb_errors.
Inductive t : Set :=
| host_not_found
| host_not_found_try_again
| no_data
| no_recovery.
#[global] Instance eq_dec : EqDecision t.
Proof. solve_decision. Defined.
End netdb_errors.

Module addrinfo_errors.
Inductive t : Set :=
| service_not_found
| socket_type_not_supported.
#[global] Instance eq_dec : EqDecision t.
Proof. solve_decision. Defined.
End addrinfo_errors.

Module misc_errors.
Inductive t : Set :=
| already_open
| eof
| not_found
| fd_set_failure.
#[global] Instance eq_dec : EqDecision t.
Proof. solve_decision. Defined.
End misc_errors.

End Asio.

(** * [json_errc] *)
Module Json.
Inductive json_errc : Set :=
| result_out_of_range
| too_many_levels
| array_too_long
| cycle_exists.
#[global] Instance json_errc_eq_dec : EqDecision json_errc.
Proof. solve_decision. Defined.

Definition json_errc_value (e : json_errc) : Z :=
  match e with
  | result_out_of_range => 1
  | too_many_levels => 2
  | array_too_long => 3
  | cycle_exists => 4
  end.
Definition all_json_errc : list json_errc :=
  [result_out_of_range; too_many_levels; array_too_long; cycle_exists].
Definition json_errc_of_value (value : Z) : option json_errc :=
  list_find (λ e, json_errc_value e = value) all_json_errc ≫= λ p, Some p.2.

(** [json_category_impl::message]. *)
Definition message (value : Z) : string :=
  match json_errc_of_value value with
  | Some result_out_of_range => "ERANGE on json"
  | Some too_many_levels => "Too many levels"
  | Some array_too_long => "Array too long"
  | Some cycle_exists => "Reference cycle exists"
  | None => ""
  end.
End Json.

(** * Error codes

    An [std::error_code] is a value and the category it belongs to.  System
    error numbers ([errno]) and the codes of Boost.SafeNumerics stay as the
    number or the name the library gives. *)
Inductive error_code : Set :=
| Generic_code (e : std_errc)
| Core_code (e : Core.errc)
| Json_code (e : Json.json_errc)
| Basic_code (e : Asio.basic_errors.t)
| Netdb_code (e : Asio.netdb_errors.t)
| Addrinfo_code (e : Asio.addrinfo_errors.t)
| Misc_code (e : Asio.misc_errors.t)
| System_code (value : Z)
| Iostream_code                   (* [std::io_errc::stream] *)
| Regex_code (value : Z)
| Safe_numerics_overflow.

#[export] Instance error_code_eq_dec : EqDecision error_code.
Proof. solve_decision. Defined.

Coercion Generic_code : std_errc >-> error_code.
Coercion Core_code : Core.errc >-> error_code.
Coercion Json_code : Json.json_errc >-> error_code.
