(* ===== verification/Lua.v ===== *)
(** What the handlers see of Lua.

    A handler is a C function [int f(lua_State* L)]: it reads arguments from
    the Lua stack, changes the state its component keeps, and ends in one of
    four ways, an [outcome].  The Lua virtual machine itself is LuaJIT, which
    is not part of the sources: the numbers it stores are doubles, and the two
    conversions the handlers ask of it are the class [LuaApi]. *)
From stdpp Require Import pretty.
From S2P Require Import Prelude Errors.

(** * Values *)

(** The identity of an object: a userdata, a table, a coroutine, a buffer. *)
Abbreviation loc := nat (only parsing).

(** A double, as its 64-bit pattern. *)
Abbreviation lua_Number := Z (only parsing).

Inductive lua_value : Set :=
| LNil
| LBoolean (b : bool)
| LNumber (n : lua_Number)
| LString (s : bytes)
| LTable (t : loc)
| LFunction (f : loc)
| LUserdata (u : loc)
| LThread (t : loc)
| LLightuserdata (p : loc).

#[export] Instance lua_value_eq_dec : EqDecision lua_value.
Proof. solve_decision. Defined.

(** [lua_type], whose values are the tags [LUA_T*]. *)
Inductive lua_tag : Set :=
| TNONE | TNIL | TBOOLEAN | TNUMBER | TSTRING
| TTABLE | TFUNCTION | TUSERDATA | TTHREAD | TLIGHTUSERDATA.

Definition type_of (v : lua_value) : lua_tag :=
  match v with
  | LNil => TNIL
  | LBoolean _ => TBOOLEAN
  | LNumber _ => TNUMBER
  | LString _ => TSTRING
  | LTable _ => TTABLE
  | LFunction _ => TFUNCTION
  | LUserdata _ => TUSERDATA
  | LThread _ => TTHREAD
  | LLightuserdata _ => TLIGHTUSERDATA
  end.

(** The arguments of a call; index 1 is the first. *)
Abbreviation lua_args := (list lua_value) (only parsing).
Definition arg (L : lua_args) (i : nat) : option lua_value := L !! (i - 1).

(** [lua_settop(L, n)]: drop what is above, fill with [nil] below. *)
Definition settop (n : nat) (L : lua_args) : lua_args :=
  take n L ++ replicate (n - length L) LNil.

(** * Errors and outcomes *)

(** What an error table carries beside its code: [push(L, ec, "arg", 1)]. *)
Inductive err_info : Set :=
| Arg (i : Z)
| ArgName (s : string)
| Index (i : Z)
| ModuleId (id : bytes).          (* [push(L, ec, "module", id)] *)

Inductive lua_error : Set :=
| EString (s : string)                                   (* a plain string *)
| ECode (ec : error_code) (info : option err_info)       (* [push(L, ec, ..)] *)
| EValue (v : lua_value).                                (* a user's object *)

Inductive outcome : Set :=
| Returns (vs : list lua_value)     (* [return n] *)
| Raises (e : lua_error)            (* [return lua_error(L)] *)
| Yields                            (* [return lua_yield(L, 0)] *)
| Undefined.                        (* the C++ call has undefined behaviour *)

Definition raise (ec : error_code) : outcome := Raises (ECode ec None).
Definition raise_arg (ec : error_code) (i : Z) : outcome :=
  Raises (ECode ec (Some (Arg i))).
(** [push(L, errc::bad_index, "index", 2); return lua_error(L);] *)
Definition raise_bad_index : outcome :=
  Raises (ECode Core.bad_index (Some (Index 2))).

(** A step of a handler that may return early, in [err], or go on. *)
Abbreviation early A := (outcome + A)%type (only parsing).
Definition early_bind {S A} (e : early A) (s : S) (k : A → S * outcome) :
    S * outcome :=
  match e with inl o => (s, o) | inr a => k a end.
Notation "'check' x ':=' e 'in' s ';' k" := (early_bind e s (λ x, k))
  (at level 10, x pattern, e at level 200, s at level 0, k at level 200,
   format "'[v' 'check'  x  ':='  e  'in'  s ';' '/' k ']'").

(** A handler over the state [S] of its component. *)
Definition handler (S : Type) : Type := lua_args → S → S * outcome.

(** * LuaJIT's number conversions *)

(** [lua_tointeger], [lua_pushinteger] and the text [lua_tolstring] gives for a
    number.  The first always gives a [lua_Integer]; the round trip is exact for
    the integers a double can hold. *)
Class LuaApi := {
  lua_tointeger : lua_Number → Z;
  lua_pushinteger : Z → lua_Number;
  lua_number_text : lua_Number → bytes;
  lua_tointeger_range : ∀ n, in_int64 (lua_tointeger n);
  lua_pushinteger_exact :
    ∀ z, (- 2 ^ 53 ≤ z ≤ 2 ^ 53)%Z → lua_tointeger (lua_pushinteger z) = z;
}.

(** [tostringview(L, i)]: [lua_tolstring] gives no characters for a value that
    is neither a string nor a number. *)
Definition tostringview `{LuaApi} (v : option lua_value) : bytes :=
  match v with
  | Some (LString s) => s
  | Some (LNumber n) => lua_number_text n
  | _ => []
  end.

(** A concrete instance: numbers are kept as IEEE-754 binary64 patterns,
    integers are truncated towards zero and saturate on overflow. *)
Module Ieee754.
Definition exponent (bits : Z) : Z := (Z.shiftr bits 52) `mod` 2 ^ 11.
Definition mantissa (bits : Z) : Z := bits `mod` 2 ^ 52.
Definition negative (bits : Z) : bool := Z.testbit bits 63.

(** The magnitude of the integer part of a finite number. *)
Definition magnitude (bits : Z) : Z :=
  (let e := exponent bits in
   if decide (e < 1023) then 0
   else ((2 ^ 52 + mantissa bits) * 2 ^ (e - 1023)) `div` 2 ^ 52)%Z.

Definition clamp (z : Z) : Z := Z.max int64_min (Z.min int64_max z).

Definition tointeger (bits : Z) : Z :=
  clamp (if negative bits then - magnitude bits else magnitude bits).

Definition pushinteger (z : Z) : Z :=
  (if decide (z = 0) then 0
   else
     let a := Z.abs z in
     let e := Z.log2 a in
     (if decide (z < 0) then 2 ^ 63 else 0)
     + (e + 1023) * 2 ^ 52 + ((a * 2 ^ 52) `div` 2 ^ e - 2 ^ 52))%Z.

Open Scope Z_scope.

Lemma clamp_range z : in_int64 (clamp z).
Proof. unfold clamp. width. Qed.

Lemma clamp_id z : in_int64 z → clamp z = z.
Proof. unfold clamp. width. Qed.

(** The fields of a pattern put together from a sign, an exponent and a
    mantissa. *)
Lemma fields (s : bool) E M :
  0 ≤ E < 2 ^ 11 → 0 ≤ M < 2 ^ 52 →
  let bits := (if s then 2 ^ 63 else 0) + E * 2 ^ 52 + M in
  exponent bits = E ∧ mantissa bits = M ∧ negative bits = s.
Proof.
  intros HE HM bits. subst bits. unfold exponent, mantissa, negative.
  rewrite Z.shiftr_div_pow2 by lia.
  rewrite <- (Z.mul_1_l (2 ^ 52)) in HM.
  repeat split.
  - replace ((if s then 2 ^ 63 else 0) + E * 2 ^ 52 + M)
      with (M + ((if s then 2 ^ 11 else 0) + E) * 2 ^ 52) by (destruct s; lia).
    rewrite Z.div_add, Z.div_small, Z.add_0_l by lia.
    destruct s.
    + replace (2 ^ 11 + E) with (E + 1 * 2 ^ 11) by lia.
      rewrite Z.mod_add by lia. apply Z.mod_small; lia.
    + apply Z.mod_small; lia.
  - replace ((if s then 2 ^ 63 else 0) + E * 2 ^ 52 + M)
      with (M + ((if s then 2 ^ 11 else 0) + E) * 2 ^ 52) by (destruct s; lia).
    rewrite Z.mod_add by lia. apply Z.mod_small; lia.
  - destruct s.
    + apply Z.testbit_true; [lia|].
      replace (2 ^ 63 + E * 2 ^ 52 + M) with ((E * 2 ^ 52 + M) + 1 * 2 ^ 63) by lia.
      rewrite Z.div_add, Z.div_small by lia. done.
    + apply Z.testbit_false; [lia|]. rewrite Z.div_small by lia. done.
Qed.

Lemma tointeger_pushinteger z :
  - 2 ^ 53 ≤ z ≤ 2 ^ 53 → tointeger (pushinteger z) = z.
Proof.
  intros Hz. unfold pushinteger. case_decide as H0; [subst; reflexivity|].
  cbv zeta. set (a := Z.abs z). set (e := Z.log2 a).
  assert (Ha : 2 ^ e ≤ a < 2 ^ Z.succ e) by (apply Z.log2_spec; lia).
  assert (He : 0 ≤ e ≤ 53).
  { split; [apply Z.log2_nonneg|].
    change 53 with (Z.log2 (2 ^ 53)). apply Z.log2_le_mono. lia. }
  assert (∃ q, a * 2 ^ 52 = q * 2 ^ e) as [q Hq].
  { destruct (decide (e ≤ 52)).
    - exists (a * 2 ^ (52 - e)). rewrite <- Z.mul_assoc, <- Z.pow_add_r by lia.
      do 2 f_equal. lia.
    - assert (e = 53) as Hee by lia. exists (2 ^ 52). rewrite Hee in *. lia. }
  rewrite Z.pow_succ_r in Ha by lia.
  assert (0 < 2 ^ e) by (apply Z.pow_pos_nonneg; lia).
  assert ((a * 2 ^ 52) `div` 2 ^ e = q) as -> by (rewrite Hq; apply Z.div_mul; lia).
  assert (0 ≤ q - 2 ^ 52 < 2 ^ 52) by nia.
  destruct (fields (bool_decide (z < 0)) (e + 1023) (q - 2 ^ 52))
    as (HE & HM & HN); [lia..|].
  replace (if decide (z < 0) then 2 ^ 63 else 0)
    with (if bool_decide (z < 0) then 2 ^ 63 else 0)
    by (repeat case_bool_decide; repeat case_decide; lia).
  unfold tointeger, magnitude. rewrite HE, HM, HN.
  rewrite decide_False by lia.
  replace ((2 ^ 52 + (q - 2 ^ 52)) * 2 ^ (e + 1023 - 1023)) with (a * 2 ^ 52)
    by (rewrite Hq; f_equal; [lia | f_equal; lia]).
  rewrite Z.div_mul by lia. rewrite clamp_id; [case_bool_decide; lia|].
  case_bool_decide; width.
Qed.
Close Scope Z_scope.

#[export] Instance api : LuaApi.
Proof.
  refine {| lua_tointeger := tointeger; lua_pushinteger := pushinteger;
            lua_number_text := λ n, lit (pretty (tointeger n)) |}.
  - intros n. apply clamp_range.
  - exact tointeger_pushinteger.
Defined.
End Ieee754.
