(* ===== verification/ErrorModules.v ===== *)
(** The modules that name error codes for Lua programs, and the build tool
    that goes from messages back to names.

    - [Generic]: [src/src/generic_error.cpp], POSIX names;
    - [AsioNames]: [src/src/asio_error.cpp], four tables;
    - [ErrnoSed]: [src/tool/errno_sed.cpp]. *)
From S2P Require Import Prelude Errors Lua.

(** * [generic_error] *)
Module Generic.
Definition posix_names : list (bytes * std_errc) :=
  [
    (lit "EAFNOSUPPORT", address_family_not_supported);
    (lit "EADDRINUSE", address_in_use);
    (lit "EADDRNOTAVAIL", address_not_available);
    (lit "EISCONN", already_connected);
    (lit "E2BIG", argument_list_too_long);
    (lit "EDOM", argument_out_of_domain);
    (lit "EFAULT", bad_address);
    (lit "EBADF", bad_file_descriptor);
    (lit "EBADMSG", bad_message);
    (lit "EPIPE", broken_pipe);
    (lit "ECONNABORTED", connection_aborted);
    (lit "EALREADY", connection_already_in_progress);
    (lit "ECONNREFUSED", connection_refused);
    (lit "ECONNRESET", connection_reset);
    (lit "EXDEV", cross_device_link);
    (lit "EDESTADDRREQ", destination_address_required);
    (lit "EBUSY", device_or_resource_busy);
    (lit "ENOTEMPTY", directory_not_empty);
    (lit "ENOEXEC", executable_format_error);
    (lit "EEXIST", file_exists);
    (lit "EFBIG", file_too_large);
    (lit "ENAMETOOLONG", filename_too_long);
    (lit "ENOSYS", function_not_supported);
    (lit "EHOSTUNREACH", host_unreachable);
    (lit "EIDRM", identifier_removed);
    (lit "EILSEQ", illegal_byte_sequence);
    (lit "ENOTTY", inappropriate_io_control_operation);
    (lit "EINTR", interrupted);
    (lit "EINVAL", invalid_argument);
    (lit "ESPIPE", invalid_seek);
    (lit "EIO", io_error);
    (lit "EISDIR", is_a_directory);
    (lit "EMSGSIZE", message_size);
    (lit "ENETDOWN", network_down);
    (lit "ENETRESET", network_reset);
    (lit "ENETUNREACH", network_unreachable);
    (lit "ENOBUFS", no_buffer_space);
    (lit "ECHILD", no_child_process);
    (lit "ENOLINK", no_link);
    (lit "ENOLCK", no_lock_available);
    (lit "ENOMSG", no_message);
    (lit "ENOPROTOOPT", no_protocol_option);
    (lit "ENOSPC", no_space_on_device);
    (lit "ENXIO", no_such_device_or_address);
    (lit "ENODEV", no_such_device);
    (lit "ENOENT", no_such_file_or_directory);
    (lit "ESRCH", no_such_process);
    (lit "ENOTDIR", not_a_directory);
    (lit "ENOTSOCK", not_a_socket);
    (lit "ENOTCONN", not_connected);
    (lit "ENOMEM", not_enough_memory);
    (lit "ENOTSUP", not_supported);
    (lit "ECANCELED", operation_canceled);
    (lit "EINPROGRESS", operation_in_progress);
    (lit "EPERM", operation_not_permitted);
    (lit "EOPNOTSUPP", operation_not_supported);
    (lit "EWOULDBLOCK", operation_would_block);
    (lit "EOWNERDEAD", owner_dead);
    (lit "EACCES", permission_denied);
    (lit "EPROTO", protocol_error);
    (lit "EPROTONOSUPPORT", protocol_not_supported);
    (lit "EROFS", read_only_file_system);
    (lit "EDEADLK", resource_deadlock_would_occur);
    (lit "EAGAIN", resource_unavailable_try_again);
    (lit "ERANGE", result_out_of_range);
    (lit "ENOTRECOVERABLE", state_not_recoverable);
    (lit "ETXTBSY", text_file_busy);
    (lit "ETIMEDOUT", timed_out);
    (lit "ENFILE", too_many_files_open_in_system);
    (lit "EMFILE", too_many_files_open);
    (lit "EMLINK", too_many_links);
    (lit "ELOOP", too_many_symbolic_link_levels);
    (lit "EOVERFLOW", value_too_large);
    (lit "EPROTOTYPE", wrong_protocol_type)
  ].

(** [posix_errno_code_from_name]; [None] is its [std::errc{}], that is 0. *)
Definition posix_errno_code_from_name (name : bytes) : option std_errc :=
  gperf posix_names name.

(** [generic_error.<name>]: the code of the name, [bad_index] for others. *)
Definition generic_error_mt_index `{LuaApi} (L : lua_args) : outcome + error_code :=
  match posix_errno_code_from_name (tostringview (arg L 2)) with
  | None => inl raise_bad_index
  | Some ge => inr (Generic_code ge)
  end.
End Generic.

(** * [asio_error] *)
Module AsioNames.
Import Asio.
Definition basic_errors_names : list (bytes * basic_errors.t) :=
  [
    (lit "access_denied", basic_errors.access_denied);
    (lit "address_family_not_supported", basic_errors.address_family_not_supported);
    (lit "address_in_use", basic_errors.address_in_use);
    (lit "already_connected", basic_errors.already_connected);
    (lit "already_started", basic_errors.already_started);
    (lit "broken_pipe", basic_errors.broken_pipe);
    (lit "connection_aborted", basic_errors.connection_aborted);
    (lit "connection_refused", basic_errors.connection_refused);
    (lit "connection_reset", basic_errors.connection_reset);
    (lit "bad_descriptor", basic_errors.bad_descriptor);
    (lit "fault", basic_errors.fault);
    (lit "host_unreachable", basic_errors.host_unreachable);
    (lit "in_progress", basic_errors.in_progress);
    (lit "interrupted", basic_errors.interrupted);
    (lit "invalid_argument", basic_errors.invalid_argument);
    (lit "message_size", basic_errors.message_size);
    (lit "name_too_long", basic_errors.name_too_long);
    (lit "network_down", basic_errors.network_down);
    (lit "network_reset", basic_errors.network_reset);
    (lit "network_unreachable", basic_errors.network_unreachable);
    (lit "no_descriptors", basic_errors.no_descriptors);
    (lit "no_buffer_space", basic_errors.no_buffer_space);
    (lit "no_memory", basic_errors.no_memory);
    (lit "no_permission", basic_errors.no_permission);
    (lit "no_protocol_option", basic_errors.no_protocol_option);
    (lit "no_such_device", basic_errors.no_such_device);
    (lit "not_connected", basic_errors.not_connected);
    (lit "not_socket", basic_errors.not_socket);
    (lit "operation_aborted", basic_errors.operation_aborted);
    (lit "operation_not_supported", basic_errors.operation_not_supported);
    (lit "shut_down", basic_errors.shut_down);
    (lit "timed_out", basic_errors.timed_out);
    (lit "try_again", basic_errors.try_again);
    (lit "would_block", basic_errors.would_block)
  ].

Definition netdb_errors_names : list (bytes * netdb_errors.t) :=
  [
    (lit "host_not_found", netdb_errors.host_not_found);
    (lit "host_not_found_try_again", netdb_errors.host_not_found_try_again);
    (lit "no_data", netdb_errors.no_data);
    (lit "no_recovery", netdb_errors.no_recovery)
  ].

Definition addrinfo_errors_names : list (bytes * addrinfo_errors.t) :=
  [
    (lit "service_not_found", addrinfo_errors.service_not_found);
    (lit "socket_type_not_supported", addrinfo_errors.socket_type_not_supported)
  ].

Definition misc_errors_names : list (bytes * misc_errors.t) :=
  [
    (lit "already_open", misc_errors.already_open);
    (lit "eof", misc_errors.eof);
    (lit "not_found", misc_errors.not_found);
    (lit "fd_set_failure", misc_errors.fd_set_failure)
  ].

(** The four tables are looked up the same way: the code of the name, and
    [bad_index] for the default value 0. *)
Section mt_index.
Context `{LuaApi}.

Definition basic_mt_index (L : lua_args) : outcome + error_code :=
  match gperf basic_errors_names (tostringview (arg L 2)) with
  | None => inl raise_bad_index
  | Some code => inr (Basic_code code)
  end.
Definition netdb_mt_index (L : lua_args) : outcome + error_code :=
  match gperf netdb_errors_names (tostringview (arg L 2)) with
  | None => inl raise_bad_index
  | Some code => inr (Netdb_code code)
  end.
Definition addrinfo_mt_index (L : lua_args) : outcome + error_code :=
  match gperf addrinfo_errors_names (tostringview (arg L 2)) with
  | None => inl raise_bad_index
  | Some code => inr (Addrinfo_code code)
  end.
Definition misc_mt_index (L : lua_args) : outcome + error_code :=
  match gperf misc_errors_names (tostringview (arg L 2)) with
  | None => inl raise_bad_index
  | Some code => inr (Misc_code code)
  end.
End mt_index.
End AsioNames.

(** * [errno_sed] *)
Module ErrnoSed.
(** The table [errors] of the tool, each POSIX name with the enumerator whose
    message it stands for. *)
Definition errors : list (bytes * std_errc) :=
  [
    (lit "EAFNOSUPPORT", address_family_not_supported);
    (lit "EADDRINUSE", address_in_use);
    (lit "EADDRNOTAVAIL", address_not_available);
    (lit "EISCONN", already_connected);
    (lit "E2BIG", argument_list_too_long);
    (lit "EDOM", argument_out_of_domain);
    (lit "EFAULT", bad_address);
    (lit "EBADF", bad_file_descriptor);
    (lit "EBADMSG", bad_message);
    (lit "EPIPE", broken_pipe);
    (lit "ECONNABORTED", connection_aborted);
    (lit "EALREADY", connection_already_in_progress);
    (lit "ECONNREFUSED", connection_refused);
    (lit "ECONNRESET", connection_reset);
    (lit "EXDEV", cross_device_link);
    (lit "EDESTADDRREQ", destination_address_required);
    (lit "EBUSY", device_or_resource_busy);
    (lit "ENOTEMPTY", directory_not_empty);
    (lit "ENOEXEC", executable_format_error);
    (lit "EEXIST", file_exists);
    (lit "EFBIG", file_too_large);
    (lit "ENAMETOOLONG", filename_too_long);
    (lit "ENOSYS", function_not_supported);
    (lit "EHOSTUNREACH", host_unreachable);
    (lit "EIDRM", identifier_removed);
    (lit "EILSEQ", illegal_byte_sequence);
    (lit "ENOTTY", inappropriate_io_control_operation);
    (lit "EINTR", interrupted);
    (lit "EINVAL", invalid_argument);
    (lit "ESPIPE", invalid_seek);
    (lit "EIO", io_error);
    (lit "EISDIR", is_a_directory);
    (lit "EMSGSIZE", message_size);
    (lit "ENETDOWN", network_down);
    (lit "ENETRESET", network_reset);
    (lit "ENETUNREACH", network_unreachable);
    (lit "ENOBUFS", no_buffer_space);
    (lit "ECHILD", no_child_process);
    (lit "ENOLINK", no_link);
    (lit "ENOLCK", no_lock_available);
    (lit "ENOMSG", no_message);
    (lit "ENOPROTOOPT", no_protocol_option);
    (lit "ENOSPC", no_space_on_device);
    (lit "ENXIO", no_such_device_or_address);
    (lit "ENODEV", no_such_device);
    (lit "ENOENT", no_such_file_or_directory);
    (lit "ESRCH", no_such_process);
    (lit "ENOTDIR", not_a_directory);
    (lit "ENOTSOCK", not_a_socket);
    (lit "ENOTCONN", not_connected);
    (lit "ENOMEM", not_enough_memory);
    (lit "ENOTSUP", not_supported);
    (lit "ECANCELED", operation_canceled);
    (lit "EINPROGRESS", operation_in_progress);
    (lit "EPERM", operation_not_permitted);
    (lit "EOPNOTSUPP", operation_not_supported);
    (lit "EWOULDBLOCK", operation_would_block);
    (lit "EOWNERDEAD", owner_dead);
    (lit "EACCES", permission_denied);
    (lit "EPROTO", protocol_error);
    (lit "EPROTONOSUPPORT", protocol_not_supported);
    (lit "EROFS", read_only_file_system);
    (lit "EDEADLK", resource_deadlock_would_occur);
    (lit "EAGAIN", resource_unavailable_try_again);
    (lit "ERANGE", result_out_of_range);
    (lit "ENOTRECOVERABLE", state_not_recoverable);
    (lit "ETXTBSY", text_file_busy);
    (lit "ETIMEDOUT", timed_out);
    (lit "ENFILE", too_many_files_open_in_system);
    (lit "EMFILE", too_many_files_open);
    (lit "EMLINK", too_many_links);
    (lit "ELOOP", too_many_symbolic_link_levels);
    (lit "EOVERFLOW", value_too_large);
    (lit "EPROTOTYPE", wrong_protocol_type)
  ].

(** "The meaning is key may be an alias for value". *)
Definition aliases : list (bytes * bytes) :=
  [(lit "EWOULDBLOCK", lit "EAGAIN"); (lit "EOPNOTSUPP", lit "ENOTSUP")].

Definition resolve_alias (name : bytes) : bytes :=
  default name (gperf aliases name).

(** [std::sort] by decreasing message size. *)
Definition longer (a b : bytes * bytes) : Prop := length b.2 ≤ length a.2.
#[global] Instance longer_dec a b : Decision (longer a b).
Proof. unfold longer. apply _. Defined.

(** The names and messages the tool prints, in order.  The messages are those
    of [generic_category()]. *)
Definition main (message : std_errc → bytes) : list (bytes * bytes) :=
  merge_sort longer
    (map (λ x, (resolve_alias x.1, message x.2)) errors).
End ErrnoSed.

(** * Properties *)
Ltac table_nodup := apply (bool_decide_unpack _); vm_compute; exact I.

Lemma posix_names_nodup : NoDup Generic.posix_names.*1.
Proof. table_nodup. Qed.
Lemma posix_codes_nodup : NoDup Generic.posix_names.*2.
Proof. table_nodup. Qed.

(** Every POSIX name the library knows is a different error code, and
    [generic_error.<name>] is that code exactly for the names of the table;
    any other key raises [bad_index]. *)
Theorem generic_error_index_spec `{LuaApi} (L : lua_args) :
  let name := tostringview (arg L 2) in
  (∀ e, Generic.generic_error_mt_index L = inr (Generic_code e)
        ↔ (name, e) ∈ Generic.posix_names) ∧
  (Generic.generic_error_mt_index L = inl raise_bad_index
        ↔ name ∉ Generic.posix_names.*1) ∧
  (∀ n1 n2 e, Generic.posix_errno_code_from_name n1 = Some e →
     Generic.posix_errno_code_from_name n2 = Some e → n1 = n2).
Proof.
  intros name. unfold Generic.generic_error_mt_index. fold name.
  unfold Generic.posix_errno_code_from_name. split_and!.
  - intros e. destruct (gperf Generic.posix_names name) as [e'|] eqn:E; split.
    + intros [= ->]. by apply gperf_elem_of.
    + intros Hin. apply (gperf_complete _ _ _ posix_names_nodup) in Hin. congruence.
    + done.
    + intros Hin. apply (gperf_complete _ _ _ posix_names_nodup) in Hin. congruence.
  - rewrite <- gperf_None. by destruct (gperf Generic.posix_names name).
  - intros n1 n2 e H1%gperf_elem_of H2%gperf_elem_of.
    by apply (NoDup_snd_inj _ _ _ _ posix_codes_nodup H1).
Qed.

(** [a] occurs in [b]. *)
Definition infix (a b : bytes) : Prop := ∃ front back, b = front ++ a ++ back.

Lemma main_sorted message :
  StronglySorted ErrnoSed.longer (ErrnoSed.main message).
Proof.
  unfold ErrnoSed.main. apply Sorted_StronglySorted.
  - intros a b c. unfold ErrnoSed.longer. lia.
  - apply Sorted_merge_sort. intros a b. unfold ErrnoSed.longer. lia.
Qed.

(** The table of the [errno_sed] tool is the one of the runtime: every name
    it prints for an enumerator is a name [generic_error] resolves, to that
    enumerator or, for the two aliases, to the one it may be an alias of; and
    no message comes after a different message it contains, so that the
    generated substitution never replaces part of a longer message. *)
Theorem errno_sed_consistent (message : std_errc → bytes) :
  (∀ name e, (name, e) ∈ ErrnoSed.errors →
     Generic.posix_errno_code_from_name name = Some e ∧
     is_Some (Generic.posix_errno_code_from_name (ErrnoSed.resolve_alias name))) ∧
  ErrnoSed.main message ≡ₚ
    map (λ x, (ErrnoSed.resolve_alias x.1, message x.2)) ErrnoSed.errors ∧
  (∀ i j x y, ErrnoSed.main message !! i = Some x →
     ErrnoSed.main message !! j = Some y → i < j →
     infix x.2 y.2 → x.2 = y.2).
Proof.
  split_and!.
  - intros name e Hin.
    assert (Forall (λ x, Generic.posix_errno_code_from_name x.1 = Some x.2 ∧
      is_Some (Generic.posix_errno_code_from_name (ErrnoSed.resolve_alias x.1)))
      ErrnoSed.errors) as Hall by table_nodup.
    by eapply Forall_forall in Hall; [|exact Hin].
  - unfold ErrnoSed.main. apply merge_sort_Permutation.
  - intros i j x y Hx Hy Hij (front & back & Heq).
    pose proof (StronglySorted_lookup_lt _ _ _ _ _ _ (main_sorted message) Hx Hy Hij)
      as Hle. unfold ErrnoSed.longer in Hle. rewrite Heq, !length_app in Hle.
    destruct front, back; simpl in *; try lia. by rewrite app_nil_r in Heq.
Qed.
