(* ===== verification/StringView.v ===== *)
(** [std::string_view]: the searching members the sources call, on octets.

    A position is a [nat]; [None] is [std::string_view::npos].  Each search
    scans the candidate positions in the order the standard prescribes, and
    the lemmas say which position is found. *)
From S2P Require Import Prelude.

(** The first [j] of [i, i+1, .., i+n-1] that satisfies [p]. *)
Fixpoint find_up (p : nat → bool) (i n : nat) : option nat :=
  match n with
  | O => None
  | S n' => if p i then Some i else find_up p (S i) n'
  end.

(** The last [j] of [0, .., n-1] that satisfies [p]. *)
Fixpoint find_down (p : nat → bool) (n : nat) : option nat :=
  match n with
  | O => None
  | S n' => if p n' then Some n' else find_down p n'
  end.

Lemma find_up_Some p i n j :
  find_up p i n = Some j ↔
  i ≤ j < i + n ∧ p j = true ∧ ∀ k, i ≤ k < j → p k = false.
Proof.
  revert i. induction n as [|n IH]; intros i; simpl; [naive_solver lia|].
  destruct (p i) eqn:Hp; [|rewrite IH]; split.
  - intros [= <-]. naive_solver lia.
  - intros (? & ? & H). f_equal. destruct (decide (i = j)); [done|].
    rewrite H in Hp by lia. done.
  - intros (? & ? & H). repeat split; [lia..|done|]. intros k ?.
    destruct (decide (k = i)) as [->|]; [done|]. apply H; lia.
  - intros (? & Hj & H). assert (i ≠ j) by congruence.
    repeat split; [lia..|done|]. intros. apply H; lia.
Qed.

Lemma find_up_None p i n :
  find_up p i n = None ↔ ∀ k, i ≤ k < i + n → p k = false.
Proof.
  revert i. induction n as [|n IH]; intros i; simpl; [naive_solver lia|].
  destruct (p i) eqn:Hp; [|rewrite IH]; split.
  - done.
  - intros H. rewrite H in Hp by lia. done.
  - intros H k ?. destruct (decide (k = i)) as [->|]; [done|]. apply H; lia.
  - intros H k ?. apply H; lia.
Qed.

Lemma find_down_Some p n j :
  find_down p n = Some j ↔
  j < n ∧ p j = true ∧ ∀ k, j < k < n → p k = false.
Proof.
  induction n as [|n IH]; simpl; [naive_solver lia|].
  destruct (p n) eqn:Hp; [|rewrite IH]; split.
  - intros [= <-]. naive_solver lia.
  - intros (? & ? & H). f_equal. destruct (decide (n = j)); [done|].
    rewrite H in Hp by lia. done.
  - intros (? & ? & H). repeat split; [lia|done|]. intros k ?.
    destruct (decide (k = n)) as [->|]; [done|]. apply H; lia.
  - intros (? & Hj & H). assert (n ≠ j) by congruence.
    repeat split; [lia|done|]. intros. apply H; lia.
Qed.

Lemma find_down_None p n :
  find_down p n = None ↔ ∀ k, k < n → p k = false.
Proof.
  induction n as [|n IH]; simpl; [naive_solver lia|].
  destruct (p n) eqn:Hp; [|rewrite IH]; split.
  - done.
  - intros H. rewrite H in Hp by lia. done.
  - intros H k ?. destruct (decide (k = n)) as [->|]; [done|]. apply H; lia.
  - intros H k ?. apply H; lia.
Qed.

(** * The members *)
Section members.
Implicit Types sv pat : bytes.

Definition starts_with sv pat : bool := bool_decide (take (length pat) sv = pat).
Definition ends_with sv pat : bool :=
  bool_decide (length pat ≤ length sv
               ∧ drop (length sv - length pat) sv = pat).

(** [pat] occurs in [sv] at [i]. *)
Definition occurs_at sv pat (i : nat) : bool :=
  bool_decide (window i (length pat) sv = pat).
(** The octet at [i] is in the set [pat], is not in it. *)
Definition in_at sv pat (i : nat) : bool :=
  match sv !! i with Some c => bool_decide (c ∈ pat) | None => false end.
Definition not_in_at sv pat (i : nat) : bool :=
  match sv !! i with Some c => bool_decide (c ∉ pat) | None => false end.

Definition find sv pat (pos : nat) : option nat :=
  find_up (occurs_at sv pat) pos (length sv + 1 - pos).
Definition rfind sv pat (pos : nat) : option nat :=
  find_down (occurs_at sv pat) (S (min pos (length sv))).
Definition find_first_of sv pat (pos : nat) : option nat :=
  find_up (in_at sv pat) pos (length sv - pos).
Definition find_last_of sv pat (pos : nat) : option nat :=
  find_down (in_at sv pat) (min (S pos) (length sv)).
Definition find_first_not_of sv pat (pos : nat) : option nat :=
  find_up (not_in_at sv pat) pos (length sv - pos).
Definition find_last_not_of sv pat (pos : nat) : option nat :=
  find_down (not_in_at sv pat) (min (S pos) (length sv)).

Lemma starts_with_spec sv pat :
  starts_with sv pat = true ↔ ∃ rest, sv = pat ++ rest.
Proof.
  unfold starts_with. rewrite bool_decide_eq_true. split.
  - intros H. exists (drop (length pat) sv).
    rewrite <- H at 1. symmetry. apply take_drop.
  - intros [rest ->]. apply take_app_length.
Qed.

Lemma ends_with_spec sv pat :
  ends_with sv pat = true ↔ ∃ front, sv = front ++ pat.
Proof.
  unfold ends_with. rewrite bool_decide_eq_true. split.
  - intros [? H]. exists (take (length sv - length pat) sv).
    rewrite <- H at 2. symmetry. apply take_drop.
  - intros [front ->]. rewrite length_app. split; [lia|].
    apply drop_app_length'. lia.
Qed.

Lemma occurs_at_spec sv pat i :
  i ≤ length sv →
  occurs_at sv pat i = true ↔
    ∃ front back, sv = front ++ pat ++ back ∧ length front = i.
Proof.
  intros Hi. unfold occurs_at, window. rewrite bool_decide_eq_true. split.
  - intros H. exists (take i sv), (drop (length pat) (drop i sv)).
    rewrite <- H at 1. rewrite !take_drop, length_take. split; [done|lia].
  - intros (front & back & -> & <-). rewrite drop_app_length.
    apply take_app_length.
Qed.

Lemma not_in_at_true sv pat i :
  not_in_at sv pat i = true ↔ ∃ c, sv !! i = Some c ∧ c ∉ pat.
Proof.
  unfold not_in_at. destruct (sv !! i); [rewrite bool_decide_eq_true|];
    naive_solver.
Qed.
Lemma not_in_at_false sv pat i c :
  sv !! i = Some c → not_in_at sv pat i = false ↔ c ∈ pat.
Proof.
  unfold not_in_at. intros ->. rewrite bool_decide_eq_false.
  destruct (decide (c ∈ pat)); naive_solver.
Qed.
Lemma in_at_true sv pat i :
  in_at sv pat i = true ↔ ∃ c, sv !! i = Some c ∧ c ∈ pat.
Proof.
  unfold in_at. destruct (sv !! i); [rewrite bool_decide_eq_true|];
    naive_solver.
Qed.

(** What lies before the first octet not in [pat] and after the last one is
    in [pat]: the two searches cut [sv] in three. *)
Lemma first_last_not_of_split sv pat i :
  find_first_not_of sv pat 0 = Some i →
  ∃ j, find_last_not_of sv pat (length sv) = Some j ∧ i ≤ j < length sv ∧
    Forall (.∈ pat) (take i sv) ∧ Forall (.∈ pat) (drop (S j) sv).
Proof.
  intros (Hi & Hp & Hmin)%find_up_Some.
  destruct (find_last_not_of sv pat (length sv)) as [j|] eqn:Hj.
  - exists j. apply find_down_Some in Hj as (Hj & Hpj & Hmax).
    assert (i ≤ j).
    { destruct (decide (i ≤ j)); [done|]. rewrite Hmax in Hp by lia. done. }
    split_and!; [done|done|lia|..]; apply Forall_lookup; intros k c Hk.
    + apply lookup_take_Some in Hk as [Hk ?].
      apply (not_in_at_false sv pat k); [done|]. apply Hmin. lia.
    + rewrite lookup_drop in Hk. apply (not_in_at_false sv pat (S j + k)).
      { done. }
      apply Hmax. apply lookup_lt_Some in Hk. lia.
  - exfalso. unfold find_last_not_of in Hj. rewrite find_down_None in Hj.
    rewrite Hj in Hp by lia. done.
Qed.

Lemma find_first_not_of_None sv pat :
  find_first_not_of sv pat 0 = None ↔ Forall (.∈ pat) sv.
Proof.
  unfold find_first_not_of. rewrite find_up_None, Forall_lookup. split.
  - intros H k c Hk. apply (not_in_at_false sv pat k); [done|].
    apply H. apply lookup_lt_Some in Hk. lia.
  - intros H k Hk. destruct (lookup_lt_is_Some_2 sv k) as [c Hc]; [lia|].
    eapply not_in_at_false; eauto.
Qed.
End members.
