(* ===== verification/CoreErrors.v ===== *)
(** The error objects and the log lines of [src/src/core.cpp].

    - [push] and [inspect_errobj] put an [std::error_code] in a Lua table and
      take it back; [errobj_to_string] renders it;
    - [rdf_error_category] is a category whose messages come from a module;
    - [init_log_domain] reads a log level from the environment, [vlog] writes
      a line. *)
From S2P Require Import Prelude Errors Lua StringView.

(** * Error objects *)
Module ErrObj.
(** The fields of a Lua table [inspect_errobj] reads with [lua_rawget]. *)
Inductive field : Set :=
| FNumber (n : lua_Number)
| FCategory (cat : loc)           (* a userdata with [error_category_mt_key] *)
| FUserdata (mt : option loc)     (* a userdata with another metatable, or none *)
| FOther.                         (* anything else, [nil] included *)

Record table : Set := Table { code : field; category : field }.

(** What is on top of the stack. *)
Inductive object : Set :=
| OString (s : bytes)
| OTable (t : table)
| ONil
| OOther.

(** An [std::error_code]: an [int] and a category, here its address. *)
Record code_value : Set := CodeValue { value : Z; cat : loc }.

Section errobj.
Context `{LuaApi}.

(** [static_cast<int>] of a [lua_Integer]: 32 bits, two's complement. *)
Definition to_int (z : Z) : Z := (z + 2 ^ 31) `mod` 2 ^ 32 - 2 ^ 31.

Definition push (ec : code_value) : object :=
  if decide (value ec = 0)%Z then ONil
  else OTable (Table (FNumber (lua_pushinteger (value ec))) (FCategory (cat ec))).

(** A variant of a string and an error code; [inl []] when it is neither. *)
Definition inspect_errobj (o : object) : bytes + code_value :=
  match o with
  | OString s => inl s
  | OTable t =>
      match code t with
      | FNumber n =>
          let ev := to_int (lua_tointeger n) in
          match category t with
          | FCategory c => inr (CodeValue ev c)
          | _ => inl []
          end
      | _ => inl []
      end
  | _ => inl []
  end.

Definition errobj_to_string (message : loc → Z → bytes)
    (o : bytes + code_value) : bytes :=
  match o with
  | inl s => s
  | inr ec => message (cat ec) (value ec)
  end.

Lemma to_int_id z : (- 2 ^ 31 ≤ z < 2 ^ 31)%Z → to_int z = z.
Proof. intros Hz. unfold to_int. rewrite Z.mod_small; lia. Qed.

(** An error code survives the trip through a Lua table: for every [int]
    but 0, which stands for success and is pushed as [nil], [inspect_errobj]
    gives back the code and the category [push] was given, and its text is
    the category's message. *)
Theorem push_inspect_roundtrip message ec :
  (- 2 ^ 31 ≤ value ec < 2 ^ 31)%Z →
  (inspect_errobj (push ec) = inr ec ∧
   errobj_to_string message (inspect_errobj (push ec)) = message (cat ec) (value ec))
  ∨ (value ec = 0%Z ∧ push ec = ONil).
Proof.
  intros Hv. unfold push. case_decide; [by right|]. left. simpl.
  rewrite lua_pushinteger_exact by lia. rewrite to_int_id by done.
  by destruct ec.
Qed.
End errobj.

Lemma push_inspect_roundtrip_witness :
  (inspect_errobj (H := Ieee754.api) (push (H := Ieee754.api) (CodeValue (-7) 3))
     = inr (CodeValue (-7) 3) ∧
   errobj_to_string (λ _ _, lit "x")
     (inspect_errobj (H := Ieee754.api) (push (H := Ieee754.api) (CodeValue (-7) 3)))
     = lit "x")
  ∨ ((-7)%Z = 0%Z ∧ push (H := Ieee754.api) (CodeValue (-7) 3) = ONil).
Proof.
  apply (push_inspect_roundtrip (H := Ieee754.api)
           (λ _ _, lit "x") (CodeValue (-7) 3)).
  simpl. lia.
Defined.
End ErrObj.

(** * [core]'s category *)

(** The values of [errc] are different from each other and none is 0,
    reading a value back gives the enumerator, and the category has a message
    for a value exactly when it is that of an enumerator. *)
Theorem core_category_spec e value :
  Core.errc_of_value (Core.errc_value e) = Some e ∧
  Core.errc_value e ≠ 0%Z ∧
  (Core.message value ≠ EmptyString ↔ ∃ e', value = Core.errc_value e').
Proof.
  split_and!; [by destruct e|by destruct e|]. unfold Core.message. split.
  - destruct (Core.errc_of_value value) as [e'|] eqn:E; [|done]. intros _.
    exists e'. unfold Core.errc_of_value in E.
    apply bind_Some in E as ([i x] & Hf & Hx). injection Hx as <-.
    by apply list_find_Some in Hf as (_ & Hv & _).
  - intros [e' ->]. by destruct e'.
Qed.

(** * [rdf_error_category] *)
Module Rdf.
(** [messages] and [generic_errors] of the category: for a code, the messages
    by locale prefix, in the map's order; the empty prefix is the default. *)
Record rdf_error_category : Set := Category {
  name_ : bytes;
  messages : gmap Z (list (bytes * bytes));
  generic_errors : gmap Z std_errc;
}.

Definition name (c : rdf_error_category) : bytes := name_ c.

(** The locale's name with what precedes [LC_MESSAGES=] cut off. *)
Definition curloc (locale_name : bytes) : bytes :=
  let tgt := lit "LC_MESSAGES=" in
  match find locale_name tgt 0 with
  | Some idx => drop (idx + length tgt) locale_name
  | None => locale_name
  end.

(** [None]: [at] throws, which ends the program as [message] is [noexcept]. *)
Definition message (c : rdf_error_category) (locale_name : bytes) (value : Z) :
    option bytes :=
  match messages c !! value with
  | Some ms =>
      match list_find (λ m, m.1 ≠ [] ∧ starts_with (curloc locale_name) m.1 = true) ms with
      | Some (_, m) => Some m.2
      | None => gperf ms []
      end
  | None => Some (lit "Unknown")
  end.

(** The condition of a code: the one the module gives, or the code itself in
    the category ([std::error_category::default_error_condition]). *)
Definition default_error_condition (c : rdf_error_category) (code : Z) :
    std_errc + Z :=
  match generic_errors c !! code with
  | Some e => inl e
  | None => inr code
  end.

(** Every message of a category whose codes all have a default text is
    defined, and is either a text the module gives for the code, for a prefix
    of the locale or by default, or ["Unknown"] for a code it does not have. *)
Theorem message_defined c locale_name value :
  (∀ v ms, messages c !! v = Some ms → [] ∈ ms.*1) →
  ∃ m, message c locale_name value = Some m ∧
    match messages c !! value with
    | None => m = lit "Unknown"
    | Some ms => ∃ prefix, (prefix, m) ∈ ms ∧
        ∃ rest, curloc locale_name = prefix ++ rest
    end.
Proof.
  intros Hdef. unfold message.
  destruct (messages c !! value) as [ms|] eqn:E; [|by eauto].
  destruct (list_find _ ms) as [[i [prefix m]]|] eqn:Hf.
  - exists m. split; [done|]. apply list_find_Some in Hf as (Hi & [_ Hs] & _).
    exists prefix. split; [by apply (list_elem_of_lookup_2 _ i)|].
    by apply starts_with_spec.
  - destruct (gperf ms []) as [m|] eqn:Hg.
    + exists m. split; [done|]. exists []. split; [by apply gperf_elem_of|by eexists].
    + apply gperf_None in Hg. by apply Hdef in E.
Qed.

Lemma message_defined_witness :
  let c := Category (lit "cat")
    {[1%Z := [([], lit "broken"); (lit "pt", lit "quebrado")]]} ∅ in
  ∃ m, message c (lit "LC_CTYPE=C;LC_MESSAGES=pt_BR") 1 = Some m ∧
    match messages c !! 1%Z with
    | None => m = lit "Unknown"
    | Some ms => ∃ prefix, (prefix, m) ∈ ms ∧
        ∃ rest, curloc (lit "LC_CTYPE=C;LC_MESSAGES=pt_BR") = prefix ++ rest
    end.
Proof.
  apply message_defined. intros v ms Hv. simpl in Hv.
  apply lookup_singleton_Some in Hv as [_ <-]. simpl. by apply list_elem_of_here.
Defined.
End Rdf.

(** * Logging *)
Module Log.
(** [std::from_chars] to an [int] in base 10: an optional minus sign, digits;
    [None] when there is no digit or the value does not fit. *)
Definition digit (c : Z) : option Z :=
  if decide (48 ≤ c ≤ 57)%Z then Some (c - 48)%Z else None.
Fixpoint digits (acc : Z) (s : bytes) : Z :=
  match s with
  | c :: s' => match digit c with Some d => digits (acc * 10 + d) s' | None => acc end
  | [] => acc
  end.
Definition from_chars (s : bytes) : option Z :=
  let '(negative, s) :=
    match s with c :: s' => if decide (c = 45)%Z then (true, s') else (false, s)
               | [] => (false, s) end in
  match s with
  | c :: _ =>
      if digit c is Some _ then
        let n := if (negative : bool) then (- digits 0 s)%Z else digits 0 s in
        if decide (- 2 ^ 31 ≤ n < 2 ^ 31)%Z then Some n else None
      else None
  | [] => None
  end.

(** The new level; [None] when [remove_prefix] takes more characters than
    there are, which is undefined. *)
Definition init_log_domain (env : option bytes) (name : bytes) (log_level : Z) :
    option Z :=
  match env with
  | None => Some log_level
  | Some env =>
      match find env name 0 with
      | None => Some log_level
      | Some pos =>
          let range := drop pos env in
          if decide (length name + 1 ≤ length range) then
            match from_chars (drop (length name + 1) range) with
            | None => Some log_level
            | Some level => Some level
            end
          else None
      end
  end.

Definition escape (s : string) : bytes := 27%Z :: lit s.

(** The line [vlog] writes for a formatted message. *)
Definition vlog (stdout_has_color : bool) (priority : Z) (domain message : bytes) :
    bytes :=
  let head :=
    if decide (0 ≤ priority ≤ 3 ∧ stdout_has_color = true)%Z then
      [60; 48 + priority; 62]%Z ++ escape "[31;1m[" ++ domain ++ lit "] "
    else if decide (0 ≤ priority ≤ 4 ∧ stdout_has_color = true)%Z then
      lit "<4>" ++ escape "[93;1m[" ++ domain ++ lit "] "
    else [60; 48 + priority; 62]%Z ++ lit "[" ++ domain ++ lit "] " in
  let tail :=
    if decide (stdout_has_color = true ∧ priority ≤ 4)%Z
    then escape "[22;39m" ++ [10]%Z else [10]%Z in
  head ++ message ++ tail.

(** A log line starts with its syslog priority between angle brackets,
    contains the domain in square brackets and then the message, and ends its
    line; a domain whose name ends the environment's text, with nothing after
    it, is where [init_log_domain] is undefined, and nowhere else. *)
Theorem log_spec (color : bool) priority domain message env name level :
  (0 ≤ priority ≤ 7)%Z →
  (∃ rest, vlog color priority domain message = [60; 48 + priority; 62]%Z ++ rest) ∧
  (∃ front back, vlog color priority domain message
     = front ++ lit "[" ++ domain ++ lit "] " ++ message ++ back) ∧
  last (vlog color priority domain message) = Some 10%Z ∧
  (init_log_domain (Some env) name level = None ↔
     ∃ pos, find env name 0 = Some pos ∧ pos + length name = length env).
Proof.
  intros Hp. split_and!.
  - unfold vlog. case_decide as H1; [by eexists|]. case_decide as H2; [|by eexists].
    assert (priority = 4)%Z as -> by (destruct H2; naive_solver lia).
    by eexists.
  - unfold vlog. case_decide.
    { eexists ([_; _; _] ++ escape "[31;1m"), _. simpl. by rewrite <- !app_assoc. }
    case_decide.
    { eexists (lit "<4>" ++ escape "[93;1m"), _. simpl. by rewrite <- !app_assoc. }
    eexists [_; _; _], _. simpl. by rewrite <- !app_assoc.
  - unfold vlog. rewrite !last_app. by case_decide.
  - unfold init_log_domain. destruct (find env name 0) as [pos|] eqn:E; [|naive_solver].
    assert (pos + length name ≤ length env) as Hle.
    { apply find_up_Some in E as (? & Ho & _).
      apply occurs_at_spec in Ho as (f & b & -> & <-); [|lia].
      rewrite !length_app. lia. }
    rewrite length_drop. case_decide; [case_match|]; split; try done; try naive_solver lia.
Qed.

Lemma log_spec_witness :
  (∃ rest, vlog true 3 (lit "d") (lit "m") = [60; 51; 62]%Z ++ rest) ∧
  (∃ front back, vlog true 3 (lit "d") (lit "m")
     = front ++ lit "[" ++ lit "d" ++ lit "] " ++ lit "m" ++ back) ∧
  last (vlog true 3 (lit "d") (lit "m")) = Some 10%Z ∧
  (init_log_domain (Some (lit "emilua")) (lit "emilua") 0 = None ↔
     ∃ pos, find (lit "emilua") (lit "emilua") 0 = Some pos ∧
            pos + length (lit "emilua") = length (lit "emilua")).
Proof. apply (log_spec true 3). lia. Defined.
End Log.
