(* ===== verification/ByteSpan.v ===== *)
(** [byte_span]: [src/include/emilua/byte_span.hpp], [src/src/byte_span.cpp].

    A byte span is a view of a reference-counted buffer: several spans may
    share one.  The state is the heap of buffers and the userdata of the Lua
    state; the handlers are the functions of the source, one definition each.
    An access outside a buffer, through a null pointer, or a [memcpy] between
    overlapping ranges is the outcome [Undefined]. *)
From S2P Require Import Prelude Errors Lua StringView.

(** * State *)

(** [data] points into a buffer, at an offset, or is null. *)
Record byte_span_handle : Set := Handle {
  data : option (loc * Z);
  size : Z;
  capacity : Z;
}.
Definition null_handle : byte_span_handle := Handle None 0 0.

(** A userdata is a byte span when its metatable is [byte_span_mt_key]. *)
Inductive udata : Set :=
| Span (bs : byte_span_handle)
| OtherUserdata.

Record store : Set := Store {
  buffers : list bytes;
  userdata : list udata;
}.

(** The octets of [make_shared_for_overwrite] have indeterminate values. *)
Class Allocator := {
  uninitialized : list bytes → nat → bytes;
  length_uninitialized : ∀ bufs n, length (uninitialized bufs n) = n;
  is_byte_uninitialized : ∀ bufs n, Forall is_byte (uninitialized bufs n);
}.

(** A [std::string_view]: the characters of a Lua string, which no handler
    changes, or a range of a buffer. *)
Inductive string_view : Set :=
| Chars (s : bytes)
| Region (b : loc) (off len : Z).

Definition sv_size (v : string_view) : Z :=
  match v with Chars s => length s | Region _ _ len => len end.

(** [explicit operator std::string_view()]. *)
Definition as_string_view (bs : byte_span_handle) : string_view :=
  match data bs with
  | None => Chars []
  | Some (b, off) => Region b off (size bs)
  end.

(** * Memory *)

Definition in_bounds (off len : Z) (buf : bytes) : Prop :=
  (0 ≤ off ∧ 0 ≤ len ∧ off + len ≤ length buf)%Z.
#[export] Instance in_bounds_dec off len buf : Decision (in_bounds off len buf).
Proof. unfold in_bounds. apply _. Defined.

Definition load (st : store) (v : string_view) : option bytes :=
  match v with
  | Chars s => Some s
  | Region b off len =>
      buf ← buffers st !! b;
      if decide (in_bounds off len buf)
      then Some (window (Z.to_nat off) (Z.to_nat len) buf) else None
  end.

(** Overwrite the octets at [off] of the buffer [b]. *)
Definition write (st : store) (b : loc) (off : Z) (bs : bytes) : option store :=
  buf ← buffers st !! b;
  if decide (in_bounds off (length bs) buf)
  then Some (Store (<[b := blit (Z.to_nat off) bs buf]> (buffers st)) (userdata st))
  else None.

Definition first_chars (v : string_view) (n : Z) : string_view :=
  match v with
  | Chars s => Chars (take (Z.to_nat n) s)
  | Region b off _ => Region b off n
  end.

(** [std::memmove(dst, src.data(), n)]. *)
Definition memmove (st : store) (dst : option (loc * Z)) (src : string_view)
    (n : Z) : option store :=
  bs ← load st (first_chars src n);
  '(b, off) ← dst;
  write st b off bs.

Definition overlap (b : loc) (off : Z) (src : string_view) : Prop :=
  match src with
  | Chars _ => False
  | Region b' off' len => b = b' ∧ (off < off' + len ∧ off' < off + len)%Z
  end.
#[export] Instance overlap_dec b off src : Decision (overlap b off src).
Proof. destruct src; apply _. Defined.

(** [std::memcpy(dst, src.data(), src.size())]: the ranges must not overlap. *)
Definition memcpy (st : store) (b : loc) (off : Z) (src : string_view) :
    option store :=
  if decide (overlap b off src) then None
  else memmove st (Some (b, off)) src (sv_size src).

Definition store_byte (st : store) (bs : byte_span_handle) (i v : Z) : option store :=
  '(b, off) ← data bs; write st b (off + i) [v].
Definition load_byte (st : store) (bs : byte_span_handle) (i : Z) : option Z :=
  '(b, off) ← data bs; l ← load st (Region b (off + i) 1); head l.

(** [lua_newuserdata] with the span's metatable, the value on the stack. *)
Definition push_span (bs : byte_span_handle) (st : store) : store * outcome :=
  (Store (buffers st) (userdata st ++ [Span bs]),
   Returns [LUserdata (length (userdata st))]).

(** * Arguments *)

(** The span at index [i]: a userdata with the right metatable. *)
Definition span_of (st : store) (v : option lua_value) : option byte_span_handle :=
  match v with
  | Some (LUserdata u) =>
      match userdata st !! u with Some (Span bs) => Some bs | _ => None end
  | _ => None
  end.

Definition self_arg (L : lua_args) (st : store) : early byte_span_handle :=
  match span_of st (arg L 1) with
  | Some bs => inr bs
  | None => inl (raise_arg invalid_argument 1)
  end.

(** A string or a byte span; anything else is an error. *)
Definition text_arg (L : lua_args) (i : nat) (st : store) : early string_view :=
  match arg L i with
  | Some (LString s) => inr (Chars s)
  | Some (LUserdata u) =>
      match span_of st (arg L i) with
      | Some bs => inr (as_string_view bs)
      | None => inl (raise_arg invalid_argument i)
      end
  | _ => inl (raise_arg invalid_argument i)
  end.

(** The same, where [nil] is the empty view. *)
Definition pattern_arg (L : lua_args) (i : nat) (st : store) : early string_view :=
  match arg L i with
  | Some LNil => inr (Chars [])
  | _ => text_arg L i st
  end.

(** A view's characters; reading them may be undefined. *)
Definition read (st : store) (v : string_view) : early bytes :=
  match load st v with Some s => inr s | None => inl Undefined end.

(** The span a metamethod is called on: its type is not looked at. *)
Definition unchecked_arg (L : lua_args) (i : nat) (st : store) :
    early byte_span_handle :=
  match span_of st (arg L i) with Some bs => inr bs | None => inl Undefined end.

Section byte_span.
Context `{LuaApi} `{Allocator}.

(** A number, or [nil]/none for the default. *)
Definition integer_arg (L : lua_args) (i : nat) (default_value : Z)
    (error : outcome) : early Z :=
  match arg L i with
  | Some (LNumber n) => inr (lua_tointeger n)
  | Some LNil | None => inr default_value
  | Some _ => inl error
  end.

Definition push_integer (z : Z) : outcome :=
  Returns [LNumber (lua_pushinteger z)].

(** [byte_span_handle(size, capacity)]: the span and its new buffer. *)
Definition new_handle (size capacity : Z) (st : store) : store * byte_span_handle :=
  (Store (buffers st ++ [uninitialized (buffers st) (Z.to_nat capacity)])
     (userdata st),
   Handle (Some (length (buffers st), 0%Z)) size capacity).

(** * Construction and metamethods *)

Definition byte_span_new (L : lua_args) (st : store) : store * outcome :=
  check length :=
    match arg L 1 with
    | Some (LNumber n) => inr (lua_tointeger n)
    | _ => inl (raise invalid_argument)
    end in st;
  check capacity := integer_arg L 2 length (raise invalid_argument) in st;
  if decide (length < 0 ∨ capacity < 0 ∨ length > capacity)%Z then
    (st, raise invalid_argument)
  else if decide (capacity = 0)%Z then push_span null_handle st
  else
    let '(st, bs) := new_handle length capacity st in
    push_span bs st.

Definition byte_span_mt_len (L : lua_args) (st : store) : store * outcome :=
  check bs := unchecked_arg L 1 st in st;
  (st, push_integer (size bs)).

Definition byte_span_mt_eq (L : lua_args) (st : store) : store * outcome :=
  check bs1 := unchecked_arg L 1 st in st;
  check bs2 := unchecked_arg L 2 st in st;
  check s1 := read st (as_string_view bs1) in st;
  check s2 := read st (as_string_view bs2) in st;
  (st, Returns [LBoolean (bool_decide (s1 = s2))]).

Definition byte_span_mt_tostring (L : lua_args) (st : store) : store * outcome :=
  check bs := unchecked_arg L 1 st in st;
  check s := read st (as_string_view bs) in st;
  (st, Returns [LString s]).

(** * Slices and copies *)

Definition byte_span_slice (L : lua_args) (st : store) : store * outcome :=
  let L := settop 3 L in
  check bs := self_arg L st in st;
  check start := integer_arg L 2 1 (raise_arg invalid_argument 2) in st;
  check end_ := integer_arg L 3 (size bs) (raise_arg invalid_argument 3) in st;
  if decide (start < 1 ∨ start - 1 > end_ ∨ end_ > capacity bs)%Z then
    (st, raise result_out_of_range)
  else
    let new_capacity := (capacity bs - start + 1)%Z in
    if decide (new_capacity = 0)%Z then push_span null_handle st
    else
      match data bs with
      | None => (st, Undefined)
      | Some (b, off) =>
          push_span (Handle (Some (b, off + start - 1)%Z) (end_ - start + 1)
                       new_capacity) st
      end.

Definition byte_span_copy (L : lua_args) (st : store) : store * outcome :=
  let L := settop 2 L in
  check bs := self_arg L st in st;
  check src := text_arg L 2 st in st;
  let count := Z.min (sv_size src) (size bs) in
  if decide (count = 0)%Z then (st, push_integer count)
  else
    match memmove st (data bs) src count with
    | Some st => (st, push_integer count)
    | None => (st, Undefined)
    end.

(** * Appending *)

(** The arguments from index [i] on, as views; [nil] is an empty one. *)
Fixpoint slice_args (i : nat) (L : lua_args) (st : store) :
    early (list string_view) :=
  match L with
  | [] => inr []
  | v :: L' =>
      let slice :=
        match v with
        | LNil => inr (Chars [])
        | LString s => inr (Chars s)
        | LUserdata _ =>
            match span_of st (Some v) with
            | Some bs => inr (as_string_view bs)
            | None => inl (raise_arg invalid_argument i)
            end
        | _ => inl (raise_arg invalid_argument i)
        end in
      match slice with
      | inl err => inl err
      | inr s =>
          match slice_args (S i) L' st with
          | inl err => inl err
          | inr slices => inr (s :: slices)
          end
      end
  end.

(** [for (const auto& s: slices) total_size += s.size()] on a
    [safe<lua_Integer>], which raises when the sum does not fit. *)
Fixpoint add_sizes (total_size : Z) (slices : list string_view) : early Z :=
  match slices with
  | [] => inr total_size
  | s :: slices' =>
      let total_size := (total_size + sv_size s)%Z in
      if decide (in_int64 total_size) then add_sizes total_size slices'
      else inl (raise Safe_numerics_overflow)
  end.

(** The loop of [memcpy]s at [idx], [idx + s.size()], ... *)
Fixpoint copy_slices (st : store) (b : loc) (off idx : Z)
    (slices : list string_view) : option store :=
  match slices with
  | [] => Some st
  | s :: slices' =>
      if decide (sv_size s = 0)%Z then copy_slices st b off idx slices'
      else
        st ← memcpy st b (off + idx) s;
        copy_slices st b off (idx + sv_size s) slices'
  end.

(** The new span of an append, its characters copied. *)
Definition finish_append (dst_bs : byte_span_handle) (idx : Z)
    (slices : list string_view) (st : store) : store * outcome :=
  let '(st', result) := push_span dst_bs st in
  match data dst_bs with
  | None => (st', Undefined)
  | Some (b, off) =>
      match copy_slices st' b off idx slices with
      | None => (st', Undefined)
      | Some st'' => (st'', result)
      end
  end.

Definition byte_span_member_append (L : lua_args) (st : store) : store * outcome :=
  let nargs := length L in
  check bs := self_arg L st in st;
  if decide (nargs = 1) then
    (st, Returns (option_list (arg L 1)))
  else
    check tail_slices := slice_args 2 (drop 1 L) st in st;
    check total_size := add_sizes (size bs) tail_slices in st;
    if decide (total_size = 0)%Z then push_span null_handle st
    else if decide (capacity bs >= total_size)%Z then
      finish_append (Handle (data bs) total_size (capacity bs)) (size bs)
        tail_slices st
    else
      let '(st, dst_bs) := new_handle total_size total_size st in
      let copied :=
        if decide (size bs > 0)%Z then
          '(b, off) ← data dst_bs;
          memcpy st b off (as_string_view bs)
        else Some st in
      match copied with
      | None => (st, Undefined)
      | Some st => finish_append dst_bs (size bs) tail_slices st
      end.

Definition byte_span_non_member_append (L : lua_args) (st : store) : store * outcome :=
  let nargs := length L in
  if decide (nargs = 0) then push_span null_handle st
  else
    check slices := slice_args 1 L st in st;
    check total_size := add_sizes 0 slices in st;
    if decide (total_size = 0)%Z then push_span null_handle st
    else
      let '(st, dst_bs) := new_handle total_size total_size st in
      finish_append dst_bs 0 slices st.

(** * Queries *)

Definition byte_span_starts_with (L : lua_args) (st : store) : store * outcome :=
  let L := settop 2 L in
  check bs := self_arg L st in st;
  check src := text_arg L 2 st in st;
  check self := read st (as_string_view bs) in st;
  check src := read st src in st;
  (st, Returns [LBoolean (starts_with self src)]).

Definition byte_span_ends_with (L : lua_args) (st : store) : store * outcome :=
  let L := settop 2 L in
  check bs := self_arg L st in st;
  check src := text_arg L 2 st in st;
  check self := read st (as_string_view bs) in st;
  check src := read st src in st;
  (st, Returns [LBoolean (ends_with self src)]).

(** [npos] is [nil]; a position is one more, as Lua counts from 1. *)
Definition push_position (ret : option nat) : outcome :=
  match ret with
  | None => Returns [LNil]
  | Some ret => push_integer (ret + 1)
  end.

(** The four searches that start at [start], 1 by default, ... *)
Definition search_forward (op : bytes → bytes → nat → option nat)
    (L : lua_args) (st : store) : store * outcome :=
  let L := settop 3 L in
  check bs := self_arg L st in st;
  check pat := pattern_arg L 2 st in st;
  check start := integer_arg L 3 1 (raise_arg invalid_argument 3) in st;
  if decide (start < 1 ∨ start - 1 > size bs)%Z then
    (st, raise result_out_of_range)
  else if decide (start > size bs)%Z then (st, Returns [LNil])
  else
    check self := read st (as_string_view bs) in st;
    check pat := read st pat in st;
    (st, push_position (op self pat (Z.to_nat (start - 1)))).

(** ... and those that go back from [end], the size by default. *)
Definition search_backward (op : bytes → bytes → nat → option nat)
    (L : lua_args) (st : store) : store * outcome :=
  let L := settop 3 L in
  check bs := self_arg L st in st;
  check pat := pattern_arg L 2 st in st;
  check end_ := integer_arg L 3 (size bs) (raise_arg invalid_argument 3) in st;
  if decide (end_ < 0 ∨ end_ > size bs)%Z then
    (st, raise result_out_of_range)
  else if decide (end_ = 0)%Z then (st, Returns [LNil])
  else
    check self := read st (as_string_view bs) in st;
    check pat := read st pat in st;
    (st, push_position (op self pat (Z.to_nat (end_ - 1)))).

Definition byte_span_find := search_forward find.
Definition byte_span_rfind := search_backward rfind.
Definition byte_span_find_first_of := search_forward find_first_of.
Definition byte_span_find_last_of := search_backward find_last_of.
Definition byte_span_find_first_not_of := search_forward find_first_not_of.
Definition byte_span_find_last_not_of := search_backward find_last_not_of.

(** The default of [trimmed]: space, form feed, line feed, carriage return,
    the two tabs. *)
Definition lws_default : bytes := [32; 12; 10; 13; 9; 11]%Z.

Definition byte_span_trimmed (L : lua_args) (st : store) : store * outcome :=
  let L := settop 2 L in
  check bs := self_arg L st in st;
  check lws :=
    match arg L 2 with
    | Some LNil | None => inr (Chars lws_default)
    | _ => text_arg L 2 st
    end in st;
  check self := read st (as_string_view bs) in st;
  check lws := read st lws in st;
  match find_first_not_of self lws 0 with
  | None => push_span null_handle st
  | Some start =>
      match find_last_not_of self lws (length self), data bs with
      | Some end_, Some (b, off) =>
          push_span (Handle (Some (b, off + start)%Z) (end_ - start + 1)
                       (capacity bs - start)) st
      | _, _ => (st, Undefined)
      end
  end.

Definition byte_span_capacity (L : lua_args) (st : store) : store * outcome :=
  check bs := unchecked_arg L 1 st in st;
  (st, push_integer (capacity bs)).

(** * Indexing *)

Inductive method : Set :=
| slice | copy | append | m_starts_with | m_ends_with | m_find | m_rfind
| m_find_first_of | m_find_last_of | m_find_first_not_of | m_find_last_not_of
| trimmed.

(** The C functions [__index] pushes. *)
Definition byte_span_method (m : method) : lua_args → store → store * outcome :=
  match m with
  | slice => byte_span_slice
  | copy => byte_span_copy
  | append => byte_span_member_append
  | m_starts_with => byte_span_starts_with
  | m_ends_with => byte_span_ends_with
  | m_find => byte_span_find
  | m_rfind => byte_span_rfind
  | m_find_first_of => byte_span_find_first_of
  | m_find_last_of => byte_span_find_last_of
  | m_find_first_not_of => byte_span_find_first_not_of
  | m_find_last_not_of => byte_span_find_last_not_of
  | trimmed => byte_span_trimmed
  end.

(** What is done for a name: push a function, or call [byte_span_capacity]. *)
Definition index_actions : list (bytes * option method) :=
  [(lit "slice", Some slice); (lit "copy", Some copy);
   (lit "append", Some append); (lit "starts_with", Some m_starts_with);
   (lit "ends_with", Some m_ends_with); (lit "find", Some m_find);
   (lit "rfind", Some m_rfind); (lit "find_first_of", Some m_find_first_of);
   (lit "find_last_of", Some m_find_last_of);
   (lit "find_first_not_of", Some m_find_first_not_of);
   (lit "find_last_not_of", Some m_find_last_not_of);
   (lit "trimmed", Some trimmed); (lit "capacity", None)].

(** The function objects of the Lua state, by method. *)
Context (pushcfunction : method → loc).

Definition byte_span_mt_index (L : lua_args) (st : store) : store * outcome :=
  match arg L 2 with
  | Some (LNumber n) =>
      check bs := unchecked_arg L 1 st in st;
      let idx := lua_tointeger n in
      if decide (idx < 1 ∨ idx > size bs)%Z then
        (st, raise result_out_of_range)
      else
        match load_byte st bs (idx - 1) with
        | Some b => (st, push_integer b)
        | None => (st, Undefined)
        end
  | key =>
      match gperf index_actions (tostringview key) with
      | None => (st, raise_bad_index)
      | Some (Some m) => (st, Returns [LFunction (pushcfunction m)])
      | Some None => byte_span_capacity L st
      end
  end.

Definition byte_span_mt_newindex (L : lua_args) (st : store) : store * outcome :=
  match arg L 2, arg L 3 with
  | Some (LNumber i), Some (LNumber v) =>
      check bs := unchecked_arg L 1 st in st;
      let idx := lua_tointeger i in
      let newvalue := lua_tointeger v in
      if decide (idx < 1 ∨ idx > size bs ∨ newvalue < 0 ∨ newvalue > 255)%Z then
        (st, raise result_out_of_range)
      else
        match store_byte st bs (idx - 1) newvalue with
        | Some st => (st, Returns [])
        | None => (st, Undefined)
        end
  | Some (LNumber _), _ => (st, raise_arg invalid_argument 3)
  | _, _ => (st, raise operation_not_permitted)
  end.
End byte_span.
