(* ===== verification/ByteSpanFacts.v ===== *)
(** Well-formedness and memory safety of [byte_span].

    A heap is well formed when every span lies inside its buffer; every
    operation keeps it so, and no operation touches memory outside a buffer.
    The lemmas of this file are those the properties of [ByteSpanSpec] use. *)
From S2P Require Import Prelude Errors Lua StringView ByteSpan.

(** * The invariant *)

Definition handle_wf (bufs : list bytes) (bs : byte_span_handle) : Prop :=
  match data bs with
  | None => size bs = 0%Z ∧ capacity bs = 0%Z
  | Some (b, off) =>
      (0 ≤ off ∧ 0 ≤ size bs ≤ capacity bs ∧ capacity bs ≤ int64_max)%Z
      ∧ ∃ buf, bufs !! b = Some buf ∧ (off + capacity bs ≤ length buf)%Z
  end.

Record wf (st : store) : Prop := {
  wf_spans u bs : userdata st !! u = Some (Span bs) → handle_wf (buffers st) bs;
  wf_bytes : Forall (Forall is_byte) (buffers st);
}.

(** Lua strings are made of octets. *)
Definition args_ok (L : lua_args) : Prop :=
  Forall (λ v, match v with LString s => Forall is_byte s | _ => True end) L.

(** Buffers keep their lengths and userdata are only added. *)
Definition grows (st st' : store) : Prop :=
  (∃ new, length <$> buffers st' = (length <$> buffers st) ++ new)
  ∧ userdata st `prefix_of` userdata st'.

#[export] Instance grows_preorder : PreOrder grows.
Proof.
  split.
  - intros st. split; [exists []; by rewrite app_nil_r|done].
  - intros s1 s2 s3 [[n1 E1] P1] [[n2 E2] P2]. split.
    + exists (n1 ++ n2). by rewrite E2, E1, app_assoc.
    + by transitivity (userdata s2).
Qed.

Lemma grows_buffer st st' b buf :
  grows st st' → buffers st !! b = Some buf →
  ∃ buf', buffers st' !! b = Some buf' ∧ length buf' = length buf.
Proof.
  intros [[new E] _] Hb.
  assert ((length <$> buffers st') !! b = Some (length buf)) as Hl.
  { rewrite E. apply lookup_app_l_Some. by rewrite list_lookup_fmap, Hb. }
  rewrite list_lookup_fmap in Hl. apply fmap_Some in Hl as (buf' & ? & ?). eauto.
Qed.

Lemma handle_wf_grows st st' bs :
  grows st st' → handle_wf (buffers st) bs → handle_wf (buffers st') bs.
Proof.
  unfold handle_wf. intros G. destruct (data bs) as [[b off]|]; [|done].
  intros (? & buf & Hb & ?). split; [done|].
  destruct (grows_buffer _ _ _ _ G Hb) as (buf' & ? & E).
  exists buf'. by rewrite E.
Qed.

Lemma null_handle_wf bufs : handle_wf bufs null_handle.
Proof. done. Qed.
#[export] Hint Resolve null_handle_wf handle_wf_grows : emilua.

Lemma span_of_wf st v bs :
  wf st → span_of st v = Some bs → handle_wf (buffers st) bs.
Proof.
  intros Hwf. unfold span_of. intros E. case_hyps E. eapply wf_spans; eauto.
Qed.

(** A view that can be read: inside a buffer. *)
Definition view_ok (bufs : list bytes) (v : string_view) : Prop :=
  match v with
  | Chars s => Forall is_byte s
  | Region b off len => ∃ buf, bufs !! b = Some buf ∧ in_bounds off len buf
  end.

Lemma as_string_view_ok bufs bs :
  handle_wf bufs bs → view_ok bufs (as_string_view bs).
Proof.
  unfold handle_wf, as_string_view, view_ok, in_bounds.
  destruct (data bs) as [[b off]|]; [|constructor].
  intros (? & buf & ? & ?). exists buf. split; [done|lia].
Qed.

Lemma sv_size_as_string_view bufs bs :
  handle_wf bufs bs → sv_size (as_string_view bs) = size bs.
Proof.
  unfold handle_wf, as_string_view. destruct (data bs) as [[b off]|]; simpl; lia.
Qed.

Lemma load_ok st v :
  Forall (Forall is_byte) (buffers st) → view_ok (buffers st) v →
  ∃ s, load st v = Some s ∧ Z.of_nat (length s) = sv_size v ∧ Forall is_byte s.
Proof.
  intros Hb Hv. destruct v as [s|b off len]; simpl in *; [by eauto|].
  destruct Hv as (buf & Hbuf & Hin). rewrite Hbuf. simpl.
  rewrite decide_True by done. eexists. split; [done|].
  destruct Hin as (? & ? & ?). split; [rewrite length_window; lia|].
  apply Forall_take, Forall_drop. by eapply Forall_lookup_1.
Qed.

Lemma first_chars_ok bufs v n :
  view_ok bufs v → (0 ≤ n ≤ sv_size v)%Z →
  view_ok bufs (first_chars v n) ∧ sv_size (first_chars v n) = n.
Proof.
  destruct v as [s|b off len]; simpl.
  - intros ? ?. rewrite length_take. split; [by apply Forall_take|lia].
  - intros (buf & ? & ? & ? & ?) ?. split; [|done].
    exists buf. unfold in_bounds. split; [done|lia].
Qed.

Lemma view_ok_grows st st' v :
  grows st st' → view_ok (buffers st) v → view_ok (buffers st') v.
Proof.
  intros G. destruct v as [s|b off len]; simpl; [done|].
  intros (buf & Hb & Hin). destruct (grows_buffer _ _ _ _ G Hb) as (buf' & ? & E).
  exists buf'. unfold in_bounds in *. rewrite E. done.
Qed.

(** * Writing *)

Lemma write_ok st b off bs buf :
  wf st → buffers st !! b = Some buf → in_bounds off (length bs) buf →
  Forall is_byte bs →
  ∃ st', write st b off bs = Some st' ∧ wf st' ∧ grows st st' ∧
    userdata st' = userdata st ∧
    buffers st' = <[b := blit (Z.to_nat off) bs buf]> (buffers st).
Proof.
  intros Hwf Hb Hin Hbs. unfold write. rewrite Hb. simpl.
  rewrite decide_True by done.
  destruct Hin as (? & ? & ?).
  assert (length (blit (Z.to_nat off) bs buf) = length buf) as Hlen.
  { apply length_blit. lia. }
  assert (grows st (Store (<[b:=blit (Z.to_nat off) bs buf]> (buffers st))
                      (userdata st))) as G.
  { split; [|done]. exists []. rewrite app_nil_r. simpl.
    rewrite <- (list_insert_id (length <$> buffers st) b (length buf)) at 1.
    - rewrite <- Hlen at 1. by rewrite list_fmap_insert.
    - by rewrite list_lookup_fmap, Hb. }
  eexists. split; [done|]. split_and!; [|done..]. split; simpl.
  - intros u h Hu. apply (handle_wf_grows _ _ _ G). by eapply wf_spans.
  - apply Forall_insert; [apply wf_bytes, Hwf|].
    assert (Forall is_byte buf) by (eapply Forall_lookup_1; [apply wf_bytes, Hwf|done]).
    unfold blit. rewrite !Forall_app. auto using Forall_take, Forall_drop.
Qed.

Lemma memmove_ok st b off src n buf :
  wf st → view_ok (buffers st) src → (0 ≤ n ≤ sv_size src)%Z →
  buffers st !! b = Some buf → in_bounds off n buf →
  ∃ s st', load st (first_chars src n) = Some s ∧ Z.of_nat (length s) = n ∧
    memmove st (Some (b, off)) src n = Some st' ∧ wf st' ∧ grows st st' ∧
    userdata st' = userdata st ∧
    buffers st' = <[b := blit (Z.to_nat off) s buf]> (buffers st).
Proof.
  intros Hwf Hv Hn Hb Hin.
  destruct (first_chars_ok _ _ _ Hv Hn) as [Hv' Hsz].
  destruct (load_ok st _ (wf_bytes _ Hwf) Hv') as (s & Hs & Hlen & Hbytes).
  rewrite Hsz in Hlen.
  destruct (write_ok st b off s buf) as (st' & Hw & ?); [done..|by rewrite Hlen|done|].
  exists s, st'. split_and!; try done; [|naive_solver..].
  unfold memmove. rewrite Hs. simpl. done.
Qed.

Lemma first_chars_all v :
  first_chars v (sv_size v) = v.
Proof.
  destruct v as [s|b off len]; simpl; [|done]. by rewrite Nat2Z.id, take_ge.
Qed.

Lemma memcpy_ok st b off src buf :
  wf st → view_ok (buffers st) src → ¬ overlap b off src →
  buffers st !! b = Some buf → in_bounds off (sv_size src) buf →
  ∃ s st', load st src = Some s ∧ Z.of_nat (length s) = sv_size src ∧
    memcpy st b off src = Some st' ∧ wf st' ∧ grows st st' ∧
    userdata st' = userdata st ∧
    buffers st' = <[b := blit (Z.to_nat off) s buf]> (buffers st).
Proof.
  intros Hwf Hv Ho Hb Hin.
  destruct (memmove_ok st b off src (sv_size src) buf) as (s & st' & Hs & ?);
    [done..| |done|done|].
  { destruct Hin as (? & ? & ?). lia. }
  rewrite first_chars_all in Hs. exists s, st'.
  unfold memcpy. rewrite decide_False by done. done.
Qed.

(** * New userdata and new buffers *)

Lemma push_span_ok st bs :
  wf st → handle_wf (buffers st) bs →
  wf (push_span bs st).1 ∧ grows st (push_span bs st).1.
Proof.
  intros Hwf Hbs. split; simpl.
  - split; simpl; [|apply Hwf]. intros u h [Hu|[_ Hu]]%lookup_app_Some.
    + eapply wf_spans; eauto.
    + by apply list_lookup_singleton_Some in Hu as [_ [= ->]].
  - split; simpl; [exists []; by rewrite app_nil_r|by apply prefix_app_r].
Qed.

Section alloc.
Context `{Allocator}.

Lemma new_handle_ok st sz cap :
  wf st → (0 ≤ sz ≤ cap)%Z → (0 < cap ≤ int64_max)%Z →
  let r := new_handle sz cap st in
  wf r.1 ∧ grows st r.1 ∧ handle_wf (buffers r.1) r.2 ∧
  userdata r.1 = userdata st.
Proof.
  intros Hwf Hsz Hcap r.
  assert (grows st r.1) as G.
  { split; simpl; [|done].
    exists [length (uninitialized (buffers st) (Z.to_nat cap))].
    by rewrite fmap_app. }
  split_and!; [|done| |done].
  - split; simpl.
    + intros u bs Hu. apply (handle_wf_grows _ _ _ G). by eapply wf_spans.
    + rewrite Forall_app, Forall_singleton.
      split; [apply Hwf|apply is_byte_uninitialized].
  - unfold handle_wf. simpl. split; [lia|].
    exists (uninitialized (buffers st) (Z.to_nat cap)).
    rewrite list_lookup_middle by done. split; [done|].
    rewrite length_uninitialized. lia.
Qed.
End alloc.

(** * Arguments *)

Lemma arg_ok L i s :
  args_ok L → arg L i = Some (LString s) → Forall is_byte s.
Proof. intros HL Hs. apply (Forall_lookup_1 _ _ _ _ HL Hs). Qed.

Lemma settop_ok n L : args_ok L → args_ok (settop n L).
Proof.
  intros HL. unfold settop. apply Forall_app. split; [by apply Forall_take|].
  by apply Forall_replicate.
Qed.
#[export] Hint Resolve settop_ok : emilua.

(** An early return of an argument check is an error that is defined. *)
Definition raises (o : outcome) : Prop := ∃ e, o = Raises e.

Lemma self_arg_inv L st :
  wf st → match self_arg L st with
          | inl o => raises o
          | inr bs => handle_wf (buffers st) bs
          end.
Proof.
  intros Hwf. unfold self_arg. destruct (span_of st (arg L 1)) eqn:E.
  - by eapply span_of_wf.
  - by eexists.
Qed.

Lemma text_arg_inv L i st :
  wf st → args_ok L → match text_arg L i st with
                      | inl o => raises o
                      | inr v => view_ok (buffers st) v
                      end.
Proof.
  intros Hwf HL. unfold text_arg.
  destruct (arg L i) as [[]|] eqn:Harg; try (by eexists).
  - by eapply arg_ok.
  - destruct (span_of st (Some (LUserdata u))) eqn:E; [|by eexists].
    eapply as_string_view_ok, span_of_wf; eauto.
Qed.

Lemma pattern_arg_inv L i st :
  wf st → args_ok L → match pattern_arg L i st with
                      | inl o => raises o
                      | inr v => view_ok (buffers st) v
                      end.
Proof.
  intros Hwf HL. unfold pattern_arg.
  destruct (arg L i) as [[]|] eqn:E; try by apply text_arg_inv.
  simpl. constructor.
Qed.

Lemma read_inv st v :
  wf st → view_ok (buffers st) v →
  ∃ s, read st v = inr s ∧ Z.of_nat (length s) = sv_size v ∧ Forall is_byte s.
Proof.
  intros Hwf Hv. destruct (load_ok st v (wf_bytes _ Hwf) Hv) as (s & Hs & ?).
  exists s. unfold read. by rewrite Hs.
Qed.

(** * Loops of copies *)

Lemma slice_args_inv i L st :
  wf st → args_ok L → match slice_args i L st with
                      | inl o => raises o
                      | inr slices => Forall (view_ok (buffers st)) slices
                      end.
Proof.
  intros Hwf. revert i. induction L as [|v L IH]; intros i; simpl; [by constructor|].
  intros [Hv HL]%Forall_cons. specialize (IH (S i) HL).
  destruct v as [| | | | | | u | |]; try (by eexists); simpl;
    try (destruct (slice_args (S i) L st); [done|constructor; [first [done|constructor]|done]]).
  destruct (userdata st !! u) as [[bs|]|] eqn:E; try (by eexists).
  destruct (slice_args (S i) L st); [done|]. constructor; [|done].
  eapply as_string_view_ok, wf_spans; eauto.
Qed.

Definition total (slices : list string_view) : Z :=
  foldr (λ s n, sv_size s + n)%Z 0%Z slices.

Lemma view_size_nonneg bufs v : view_ok bufs v → (0 ≤ sv_size v)%Z.
Proof. destruct v; simpl; [lia|]. intros (? & ? & ?). unfold in_bounds in *. lia. Qed.

Lemma total_nonneg bufs slices :
  Forall (view_ok bufs) slices → (0 ≤ total slices)%Z.
Proof.
  induction 1 as [|v l Hv _ IH]; simpl; [lia|].
  pose proof (view_size_nonneg _ _ Hv). lia.
Qed.

(** The checked sum is the sum, or an error when it does not fit. *)
Lemma add_sizes_spec bufs n slices :
  Forall (view_ok bufs) slices → (0 ≤ n ≤ int64_max)%Z →
  add_sizes n slices =
    if decide (n + total slices ≤ int64_max)%Z then inr (n + total slices)%Z
    else inl (raise Safe_numerics_overflow).
Proof.
  intros Hs. revert n. induction Hs as [|v l Hv Hl IH]; intros n Hn; simpl.
  - rewrite decide_True by lia. f_equal. lia.
  - pose proof (view_size_nonneg _ _ Hv). pose proof (total_nonneg _ _ Hl).
    case_decide as Hin.
    + rewrite IH by (unfold in_int64 in Hin; lia).
      repeat case_decide; (done || (f_equal; lia)).
    + rewrite decide_False; [done|]. revert Hin. width.
Qed.

(** Some slice is read from where it is to be written. *)
Fixpoint overlapping (b : loc) (off : Z) (slices : list string_view) : Prop :=
  match slices with
  | [] => False
  | s :: slices' =>
      (sv_size s ≠ 0%Z ∧ overlap b off s)
      ∨ overlapping b (off + sv_size s) slices'
  end.
#[export] Instance overlapping_dec b off slices :
  Decision (overlapping b off slices).
Proof. revert off. induction slices; simpl; apply _. Defined.

Lemma copy_slices_safe st b off idx slices buf :
  wf st → Forall (view_ok (buffers st)) slices →
  ¬ overlapping b (off + idx) slices →
  buffers st !! b = Some buf → in_bounds (off + idx) (total slices) buf →
  ∃ st', copy_slices st b off idx slices = Some st' ∧ wf st' ∧ grows st st' ∧
    userdata st' = userdata st.
Proof.
  revert st idx buf. induction slices as [|s l IH]; intros st idx buf Hwf Hs Ho Hb Hin.
  { by exists st. }
  apply Forall_cons in Hs as [Hs Hl]. simpl in *.
  pose proof (view_size_nonneg _ _ Hs). pose proof (total_nonneg _ _ Hl).
  unfold in_bounds in Hin.
  case_decide as Hz.
  - rewrite Hz in *. rewrite Z.add_0_r in Ho.
    eapply IH; [done|done|tauto|done|]. unfold in_bounds. lia.
  - destruct (memcpy_ok st b (off + idx) s buf)
      as (s' & st' & _ & Hlen & Hcpy & Hwf' & G & Hu & Hbufs);
      [done|done|tauto|done|unfold in_bounds; lia|].
    rewrite Hcpy. simpl.
    destruct (IH st' (idx + sv_size s)%Z (blit (Z.to_nat (off + idx)) s' buf))
      as (st'' & ? & ? & ? & ?); [done| | | | |].
    + eapply Forall_impl; [done|]. intros v. by apply view_ok_grows.
    + rewrite Z.add_assoc. tauto.
    + rewrite Hbufs. apply list_lookup_insert_eq. by eapply lookup_lt_Some.
    + unfold in_bounds. rewrite length_blit by lia. lia.
    + exists st''. split_and!; [done|done|by etrans|congruence].
Qed.

Lemma copy_slices_overlapping st b off idx slices :
  overlapping b (off + idx) slices → copy_slices st b off idx slices = None.
Proof.
  revert st idx. induction slices as [|s l IH]; intros st idx; simpl; [done|].
  intros [[Hz Ho]|Ho].
  - rewrite decide_False by done. unfold memcpy. by rewrite decide_True.
  - case_decide as Hz.
    + apply IH. by rewrite Hz, Z.add_0_r in Ho.
    + destruct (memcpy st b (off + idx) s); [|done]. simpl. apply IH.
      by rewrite Z.add_assoc.
Qed.

(** A view that does not meet the octets [lo, hi) of the buffer [b]. *)
Definition apart (b : loc) (lo hi : Z) (v : string_view) : Prop :=
  match v with
  | Chars _ => True
  | Region b' off len => b = b' → len = 0%Z ∨ (hi ≤ off ∨ off + len ≤ lo)%Z
  end.

Lemma apart_not_overlap b lo hi off v :
  apart b lo hi v → (lo ≤ off ∧ off + sv_size v ≤ hi)%Z → sv_size v ≠ 0%Z →
  ¬ overlap b off v.
Proof. destruct v; simpl; [tauto|]. intros Ha ? ? [-> ?]. naive_solver lia. Qed.

Lemma load_apart st st' b lo hi v buf buf' :
  buffers st !! b = Some buf → buffers st' = <[b := buf']> (buffers st) →
  length buf' = length buf →
  (∀ i n, (Z.of_nat i + Z.of_nat n ≤ lo ∨ hi ≤ Z.of_nat i)%Z →
          window i n buf' = window i n buf) →
  apart b lo hi v → load st' v = load st v.
Proof.
  intros Hb Hb' Hlen Hw. destruct v as [s|b' off len]; simpl; [done|].
  intros Ha. rewrite Hb'. destruct (decide (b = b')) as [<-|Hne].
  - rewrite list_lookup_insert_eq by (by eapply lookup_lt_Some). rewrite Hb. simpl.
    assert (in_bounds off len buf' ↔ in_bounds off len buf) as E.
    { unfold in_bounds. by rewrite Hlen. }
    destruct (decide (in_bounds off len buf)) as [Hin|];
      [rewrite decide_True by tauto|by rewrite decide_False by tauto].
    f_equal. destruct (Ha eq_refl) as [->|Hd]; [done|].
    unfold in_bounds in Hin. apply Hw. lia.
  - by rewrite list_lookup_insert_ne.
Qed.

(** What a loop of copies leaves when no slice meets the target: the texts of
    the slices, one after the other. *)
Lemma copy_slices_contents st b off idx slices lo hi buf :
  wf st → Forall (view_ok (buffers st)) slices →
  Forall (apart b lo hi) slices →
  (lo ≤ off + idx ∧ off + idx + total slices ≤ hi)%Z →
  buffers st !! b = Some buf → in_bounds (off + idx) (total slices) buf →
  ∃ st' texts, copy_slices st b off idx slices = Some st' ∧
    mapM (load st) slices = Some texts ∧
    Z.of_nat (length (concat texts)) = total slices ∧
    buffers st' = <[b := blit (Z.to_nat (off + idx)) (concat texts) buf]> (buffers st).
Proof.
  revert st idx buf.
  induction slices as [|s l IH]; intros st idx buf Hwf Hs Ha Hr Hb Hin.
  { exists st, []. split_and!; [done..|]. unfold in_bounds in Hin. simpl.
    rewrite blit_nil by lia. by rewrite list_insert_id. }
  apply Forall_cons in Hs as [Hs Hl]. apply Forall_cons in Ha as [Ha Hal].
  cbn [total foldr] in Hr, Hin |- *. fold (total l) in *. unfold in_bounds in Hin.
  pose proof (view_size_nonneg _ _ Hs). pose proof (total_nonneg _ _ Hl).
  simpl. case_decide as Hz.
  - destruct (load_ok st s (wf_bytes _ Hwf) Hs) as (t & Ht & Hlen & _).
    destruct t; [|simpl in Hlen; lia].
    destruct (IH st idx buf) as (st' & texts & ? & Hm & ? & ?);
      [done..|lia|done|unfold in_bounds; lia|].
    exists st', ([] :: texts). rewrite Ht. simpl. rewrite Hm. simpl.
    split_and!; [done|done|lia|done].
  - assert (¬ overlap b (off + idx) s) as Ho
      by (eapply apart_not_overlap; [done|lia|done]).
    destruct (memcpy_ok st b (off + idx) s buf)
      as (t & st1 & Ht & Hlen & Hcpy & Hwf1 & G & _ & Hbufs);
      [done..|unfold in_bounds; lia|].
    rewrite Hcpy. simpl.
    set (buf1 := blit (Z.to_nat (off + idx)) t buf) in *.
    assert (length buf1 = length buf) as Hl1 by (apply length_blit; lia).
    destruct (IH st1 (idx + sv_size s)%Z buf1) as (st' & texts & Hc & Hm & Hlt & Hb');
      [done| |done|lia| |unfold in_bounds; lia|].
    { eapply Forall_impl; [exact Hl|]. intros v. by apply view_ok_grows. }
    { rewrite Hbufs. apply list_lookup_insert_eq. by eapply lookup_lt_Some. }
    exists st', (t :: texts). rewrite Ht. simpl.
    assert (mapM (load st) l = Some texts) as ->.
    { rewrite <- Hm. apply mapM_ext_elem. intros v [i Hv]%list_elem_of_lookup.
      symmetry.
      apply (load_apart _ _ b (off + idx) (off + idx + sv_size s) _ buf buf1);
        [done..| |].
      - intros j n Hd. apply window_blit_disjoint; lia.
      - pose proof (Forall_lookup_1 _ _ _ _ Hal Hv) as Hav.
        destruct v; simpl in *; [done|]. intros E. specialize (Hav E). lia. }
    simpl. split_and!; [done|done|rewrite length_app; lia|].
    rewrite Hb', Hbufs, list_insert_insert_eq. f_equal. unfold buf1.
    replace (Z.to_nat (off + (idx + sv_size s)))
      with (Z.to_nat (off + idx) + length t) by lia.
    by rewrite blit_app by lia.
Qed.
