(* ===== verification/ByteSpanSafety.v ===== *)
(** Every operation of [byte_span] keeps the heap well formed and is defined.

    [operation] names the entry points; [safe] is what is promised of a call
    of each. *)
From S2P Require Import Prelude Errors Lua StringView ByteSpan ByteSpanFacts.

(** What a call leaves: a well-formed heap that extends the old one, and an
    outcome the C++ language defines. *)
Definition safe (st : store) (r : store * outcome) : Prop :=
  wf r.1 ∧ grows st r.1 ∧ r.2 ≠ Undefined.

Lemma safe_same st o : wf st → o ≠ Undefined → safe st (st, o).
Proof. intros ? ?. split; [done|]. by split; [reflexivity|]. Qed.

Lemma safe_push_span st bs :
  wf st → handle_wf (buffers st) bs → safe st (push_span bs st).
Proof.
  intros Hwf Hbs. destruct (push_span_ok st bs Hwf Hbs). by split_and!.
Qed.

(** A step of argument checking: it raises, or gives a value with [P]. *)
Lemma safe_early {A} (P : A → Prop) (e : early A) st k :
  wf st →
  match e with inl o => raises o | inr a => P a end →
  (∀ a, P a → safe st (k a)) →
  safe st (early_bind e st k).
Proof.
  intros Hwf He Hk. destruct e as [o|a]; simpl; [|by apply Hk].
  destruct He as [? ->]. by apply safe_same.
Qed.

Lemma safe_read v st k :
  wf st → view_ok (buffers st) v →
  (∀ s, Z.of_nat (length s) = sv_size v → safe st (k s)) →
  safe st (early_bind (read st v) st k).
Proof.
  intros Hwf Hv Hk. destruct (read_inv st v Hwf Hv) as (s & -> & Hlen & _).
  by apply Hk.
Qed.

Section safety.
Context `{LuaApi} `{Allocator}.

Lemma integer_arg_inv L i d o :
  raises o →
  match integer_arg L i d o with
  | inl o => raises o
  | inr z => z = d ∨ in_int64 z
  end.
Proof.
  intros Ho. unfold integer_arg. destruct (arg L i) as [[]|]; auto.
  right. apply lua_tointeger_range.
Qed.

Local Lemma raises_raise ec : raises (raise ec).
Proof. by eexists. Qed.
Local Lemma raises_raise_arg ec i : raises (raise_arg ec i).
Proof. by eexists. Qed.
Hint Resolve raises_raise raises_raise_arg : emilua.

(** The argument checks of a method, one after the other. *)
Ltac next_check :=
  match goal with
  | |- safe ?st (early_bind (self_arg _ _) _ _) =>
      apply (safe_early (handle_wf (buffers st)));
      [done|by apply self_arg_inv|intros bs Hbs]
  | |- safe ?st (early_bind (text_arg _ _ _) _ _) =>
      apply (safe_early (view_ok (buffers st)));
      [done|apply text_arg_inv; eauto with emilua|intros v Hv]
  | |- safe ?st (early_bind (pattern_arg _ _ _) _ _) =>
      apply (safe_early (view_ok (buffers st)));
      [done|apply pattern_arg_inv; eauto with emilua|intros v Hv]
  | |- safe ?st (early_bind (integer_arg _ _ ?d _) _ _) =>
      apply (safe_early (λ z, z = d ∨ in_int64 z));
      [done|apply integer_arg_inv; eauto with emilua
      |let z := fresh "z" in let Hz := fresh "Hz" in intros z Hz]
  | |- safe ?st (early_bind (slice_args _ _ _) _ _) =>
      apply (safe_early (Forall (view_ok (buffers st))));
      [done|by apply slice_args_inv|intros slices Hslices]
  | Hbs : handle_wf _ ?bs |- safe _ (early_bind (read _ (as_string_view ?bs)) _ _) =>
      apply safe_read; [done|by eapply as_string_view_ok|intros self Hself]
  | |- safe _ (early_bind (read _ _) _ _) =>
      apply safe_read; [done|done|intros s Hs]
  end.
Ltac arg_checks := repeat next_check.
Ltac same := by apply safe_same.

Lemma new_safe L st : wf st → safe st (byte_span_new L st).
Proof.
  intros Hwf. unfold byte_span_new.
  apply (safe_early in_int64); [done| |intros len Hlen].
  { destruct (arg L 1) as [[]|]; eauto with emilua. apply lua_tointeger_range. }
  next_check.
  case_decide; [same|]. case_decide; [by apply safe_push_span|].
  destruct (new_handle_ok st len z) as (? & G & ? & ?);
    [done|lia|unfold in_int64 in *; lia|].
  destruct (new_handle len z st) as [st' bs]; simpl in *.
  destruct (push_span_ok st' bs) as [? ?]; [done..|].
  split; [done|]. split; [by etrans|done].
Qed.

Lemma slice_safe L st : wf st → args_ok L → safe st (byte_span_slice L st).
Proof.
  intros Hwf HL. unfold byte_span_slice. arg_checks.
  case_decide; [same|]. case_decide; [by apply safe_push_span|].
  unfold handle_wf in Hbs. destruct (data bs) as [[b off]|] eqn:Hd; [|lia].
  apply safe_push_span; [done|]. destruct Hbs as (? & buf & ? & ?).
  unfold handle_wf. simpl. split; [lia|]. exists buf. split; [done|lia].
Qed.

Lemma copy_safe L st : wf st → args_ok L → safe st (byte_span_copy L st).
Proof.
  intros Hwf HL. unfold byte_span_copy. arg_checks.
  pose proof (view_size_nonneg _ _ Hv).
  case_decide as Hc; [same|]. unfold handle_wf in Hbs.
  destruct (data bs) as [[b off]|] eqn:Hd; [|lia].
  destruct Hbs as (? & buf & Hb & ?).
  destruct (memmove_ok st b off v (Z.min (sv_size v) (size bs)) buf)
    as (s & st' & _ & _ & -> & ? & ? & _);
    [done..|lia|done|unfold in_bounds; lia|]. done.
Qed.

Lemma search_forward_safe op L st :
  wf st → args_ok L → safe st (search_forward op L st).
Proof.
  intros Hwf HL. unfold search_forward. arg_checks.
  case_decide; [same|]. case_decide; [same|]. arg_checks.
  unfold push_position. case_match; same.
Qed.

Lemma search_backward_safe op L st :
  wf st → args_ok L → safe st (search_backward op L st).
Proof.
  intros Hwf HL. unfold search_backward. arg_checks.
  case_decide; [same|]. case_decide; [same|]. arg_checks.
  unfold push_position. case_match; same.
Qed.

Lemma starts_with_safe L st : wf st → args_ok L → safe st (byte_span_starts_with L st).
Proof. intros Hwf HL. unfold byte_span_starts_with. arg_checks. same. Qed.
Lemma ends_with_safe L st : wf st → args_ok L → safe st (byte_span_ends_with L st).
Proof. intros Hwf HL. unfold byte_span_ends_with. arg_checks. same. Qed.

Lemma trimmed_safe L st : wf st → args_ok L → safe st (byte_span_trimmed L st).
Proof.
  intros Hwf HL. unfold byte_span_trimmed. next_check.
  apply (safe_early (view_ok (buffers st))); [done| |intros v Hv].
  { destruct (arg (settop 2 L) 2) as [[]|] eqn:E;
      try (by eexists); try (by repeat constructor);
      apply text_arg_inv; eauto with emilua. }
  arg_checks. rewrite (sv_size_as_string_view (buffers st)) in Hself by done.
  destruct (find_first_not_of self s 0) as [i|] eqn:Hi; [|by apply safe_push_span].
  destruct (first_last_not_of_split _ _ _ Hi) as (j & -> & ? & _).
  unfold handle_wf in Hbs. destruct (data bs) as [[b off]|]; [|lia].
  destruct Hbs as (? & buf & ? & ?). apply safe_push_span; [done|].
  unfold handle_wf; simpl. split; [lia|]. exists buf. split; [done|lia].
Qed.

(** * Appending *)

(** A call of [append] that writes in place over one of its own sources. *)
Definition append_overlaps (L : lua_args) (st : store) : Prop :=
  match self_arg L st, slice_args 2 (drop 1 L) st with
  | inr bs, inr slices =>
      match data bs with
      | Some (b, off) =>
          (0 < size bs + total slices ≤ capacity bs)%Z
          ∧ overlapping b (off + size bs) slices
      | None => False
      end
  | _, _ => False
  end.

#[export] Instance append_overlaps_dec L st : Decision (append_overlaps L st).
Proof. unfold append_overlaps. repeat case_match; apply _. Defined.

Lemma finish_append_safe st bs idx slices b off buf :
  wf st → handle_wf (buffers st) bs → data bs = Some (b, off) →
  Forall (view_ok (buffers st)) slices →
  ¬ overlapping b (off + idx) slices →
  buffers st !! b = Some buf → in_bounds (off + idx) (total slices) buf →
  safe st (finish_append bs idx slices st).
Proof.
  intros Hwf Hbs Hd Hs Ho Hb Hin. unfold finish_append.
  destruct (push_span_ok st bs Hwf Hbs) as [Hwf' G].
  destruct (push_span bs st) as [st' r] eqn:E. rewrite Hd. simpl in *.
  unfold push_span in E. simplify_eq. simpl in *.
  destruct (copy_slices_safe _ b off idx slices buf Hwf')
    as (st'' & -> & ? & G' & _); [done..|].
  split; [done|]. split; [by etrans|done].
Qed.

Lemma safe_trans st st' r : grows st st' → safe st' r → safe st r.
Proof. intros G (? & ? & ?). split_and!; [done|by etrans|done]. Qed.

(** Slices read before a buffer was made do not meet it. *)
Lemma old_slices_apart (bufs : list bytes) slices lo hi :
  Forall (view_ok bufs) slices → Forall (apart (length bufs) lo hi) slices.
Proof.
  intros Hs. eapply Forall_impl; [exact Hs|]. intros [s|b off len]; simpl; [done|].
  intros (buf & Hb & _) <-. apply lookup_lt_Some in Hb. lia.
Qed.

Lemma apart_not_overlapping b lo hi off slices :
  Forall (apart b lo hi) slices → Forall (λ v, 0 ≤ sv_size v)%Z slices →
  (lo ≤ off ∧ off + total slices ≤ hi)%Z → ¬ overlapping b off slices.
Proof.
  intros Ha. revert off. induction Ha as [|v l Hv Hl IH]; intros off Hn Hr; [by intros []|].
  apply Forall_cons in Hn as [Hn Hnl]. cbn [total foldr] in Hr. fold (total l) in Hr.
  assert (0 ≤ total l)%Z.
  { clear -Hnl. induction Hnl; simpl; [done|lia]. }
  simpl. intros [[Hz Hov]|Hov].
  - by apply (apart_not_overlap b lo hi off v) in Hov; [|done|lia|].
  - by apply IH in Hov; [|done|lia].
Qed.

Lemma old_slices_no_overlap (bufs : list bytes) slices off :
  Forall (view_ok bufs) slices → ¬ overlapping (length bufs) off slices.
Proof.
  intros Hs. apply (apart_not_overlapping _ off (off + total slices)).
  - by apply old_slices_apart.
  - eapply Forall_impl; [done|]. apply view_size_nonneg.
  - lia.
Qed.

Lemma new_buffer_lookup st sz cap :
  buffers (new_handle sz cap st).1 !! length (buffers st)
    = Some (uninitialized (buffers st) (Z.to_nat cap)).
Proof. simpl. by rewrite list_lookup_middle. Qed.

(** The new buffer of [append], once the span's characters are copied. *)
Definition copy_self (bs : byte_span_handle) (r : store * byte_span_handle) :
    option store :=
  if decide (size bs > 0)%Z then
    '(b, off) ← data r.2;
    memcpy r.1 b off (as_string_view bs)
  else Some r.1.

Lemma copy_self_ok st bs self n :
  wf st → handle_wf (buffers st) bs → load st (as_string_view bs) = Some self →
  (size bs ≤ n ∧ 0 < n ≤ int64_max)%Z →
  ∃ st2 buf, copy_self bs (new_handle n n st) = Some st2 ∧ wf st2 ∧
    grows st st2 ∧ userdata st2 = userdata st ∧
    buffers st2 = buffers st ++ [buf] ∧ Z.of_nat (length buf) = n ∧
    window 0 (Z.to_nat (size bs)) buf = self.
Proof.
  intros Hwf Hbs Hself Hn.
  pose proof (as_string_view_ok _ _ Hbs) as Hv.
  pose proof (sv_size_as_string_view _ _ Hbs) as Hlen.
  pose proof (view_size_nonneg _ _ Hv).
  destruct (new_handle_ok st n n) as (Hwf1 & G1 & _ & Hu); [done|lia|lia|].
  pose proof (new_buffer_lookup st n n) as Hb. unfold copy_self.
  assert (length self = Z.to_nat (size bs)) as Hls.
  { destruct (load_ok st _ (wf_bytes _ Hwf) Hv) as (s & Hs & ? & _). 
    simplify_eq. lia. }
  case_decide.
  - set (buf0 := uninitialized (buffers st) (Z.to_nat n)) in *.
    assert (length buf0 = Z.to_nat n) as Hl0 by apply length_uninitialized.
    destruct (memcpy_ok (new_handle n n st).1 (length (buffers st)) 0
                (as_string_view bs) buf0)
      as (s & st2 & Hs & Hls' & Hm & ? & ? & ? & Hbufs);
      [done|by apply (view_ok_grows st)| |done|unfold in_bounds; lia|].
    { pose proof (old_slices_apart (buffers st) [as_string_view bs] 0 n) as Ha.
      rewrite !Forall_singleton in Ha.
      apply (apart_not_overlap _ 0 n); [by apply Ha|lia|lia]. }
    assert (s = self) as ->.
    { enough (load (new_handle n n st).1 (as_string_view bs) = Some self) by congruence.
      rewrite <- Hself. unfold as_string_view. unfold handle_wf in Hbs.
      destruct (data bs) as [[b off]|]; [|done]. simpl.
      destruct Hbs as (_ & buf & Hbuf & _). by rewrite (lookup_app_l_Some _ _ _ _ Hbuf), Hbuf. }
    exists st2, (blit 0 self buf0). split_and!; [exact Hm|done|by etrans|done| | |].
    + rewrite Hbufs. simpl.
      by rewrite insert_app_r_alt, Nat.sub_diag by lia.
    + rewrite length_blit; lia.
    + rewrite <- Hls. apply window_blit_same. lia.
  - eexists _, (uninitialized (buffers st) (Z.to_nat n)).
    split_and!; [done|done|done|done|done|rewrite length_uninitialized; lia|].
    replace (size bs) with 0%Z in * by lia. by destruct self.
Qed.

(** The branch of [append] that copies into a new buffer. *)
Lemma fresh_append_safe st bs slices n :
  wf st → handle_wf (buffers st) bs → Forall (view_ok (buffers st)) slices →
  n = (size bs + total slices)%Z → (0 < n ≤ int64_max)%Z →
  safe st
    match copy_self bs (new_handle n n st) with
    | None => ((new_handle n n st).1, Undefined)
    | Some st' => finish_append (new_handle n n st).2 (size bs) slices st'
    end.
Proof.
  intros Hwf Hbs Hs -> Hn. pose proof (total_nonneg _ _ Hs).
  set (n := (size bs + total slices)%Z) in *.
  destruct (load_ok st _ (wf_bytes _ Hwf) (as_string_view_ok _ _ Hbs))
    as (self & Hself & Hlen & _).
  rewrite (sv_size_as_string_view (buffers st)) in Hlen by done.
  destruct (copy_self_ok st bs self n)
    as (st2 & buf & -> & Hwf2 & G2 & _ & Hb2 & Hl2 & _); [done..|lia|].
  eapply safe_trans; [exact G2|].
  assert (buffers st2 !! length (buffers st) = Some buf) as Hb
    by (rewrite Hb2; by apply list_lookup_middle).
  apply (finish_append_safe _ _ _ _ (length (buffers st)) 0 buf);
    [done| |done| | |done|unfold in_bounds; lia].
  - unfold handle_wf. simpl. split; [lia|]. exists buf. split; [done|lia].
  - eapply Forall_impl; [exact Hs|]. intros v. by apply view_ok_grows.
  - by apply old_slices_no_overlap.
Qed.

Lemma member_append_safe L st :
  wf st → args_ok L → ¬ append_overlaps L st →
  safe st (byte_span_member_append L st).
Proof.
  intros Hwf HL Ho. unfold byte_span_member_append, append_overlaps in *.
  pose proof (self_arg_inv L st Hwf) as Hself.
  destruct (self_arg L st) as [o|bs]; simpl.
  { destruct Hself as [? ->]. same. }
  case_decide; [same|].
  pose proof (slice_args_inv 2 (drop 1 L) st Hwf (Forall_drop _ _ _ HL)) as Hs.
  destruct (slice_args 2 (drop 1 L) st) as [o|slices]; simpl.
  { destruct Hs as [? ->]. same. }
  pose proof (total_nonneg _ _ Hs).
  assert (0 ≤ size bs ≤ int64_max)%Z as Hsz.
  { unfold handle_wf in Hself. destruct (data bs) as [[]|]; [lia|]. width. }
  rewrite (add_sizes_spec (buffers st)) by done.
  case_decide; simpl; [|same].
  case_decide; [by apply safe_push_span|].
  case_decide.
  - unfold handle_wf in Hself. destruct (data bs) as [[b off]|] eqn:Hd; [|lia].
    destruct Hself as (? & buf & Hb & ?).
    apply (finish_append_safe _ _ _ _ b off buf); [done| |done|done| |done|].
    + unfold handle_wf. simpl. split; [lia|]. exists buf. split; [done|lia].
    + intros Hov. apply Ho. split; [lia|done].
    + unfold in_bounds. lia.
  - apply fresh_append_safe; done || lia.
Qed.

Lemma non_member_append_safe L st :
  wf st → args_ok L → safe st (byte_span_non_member_append L st).
Proof.
  intros Hwf HL. unfold byte_span_non_member_append.
  case_decide; [by apply safe_push_span|]. next_check.
  pose proof (total_nonneg _ _ Hslices).
  rewrite (add_sizes_spec (buffers st)) by (done || width).
  case_decide; simpl; [|same].
  case_decide; [by apply safe_push_span|].
  destruct (new_handle_ok st (total slices) (total slices)) as (? & G & ? & ?);
    [done|lia|lia|].
  eapply safe_trans; [exact G|].
  apply (finish_append_safe _ _ _ _ (length (buffers st)) 0
           (uninitialized (buffers st) (Z.to_nat (total slices)))); try done.
  - eapply Forall_impl; [done|]. intros v. by apply view_ok_grows.
  - by apply old_slices_no_overlap.
  - apply new_buffer_lookup.
  - unfold in_bounds. rewrite length_uninitialized. lia.
Qed.
End safety.
