(* ===== verification/ByteSpanSpec.v ===== *)
(** What the operations of [byte_span] compute: the properties of the
    component, with a witness at a concrete heap for each. *)
From S2P Require Import Prelude Errors Lua StringView ByteSpan ByteSpanFacts.
From S2P Require Import ByteSpanSafety.

(** * The entry points *)

Inductive operation : Set :=
| New | NonMemberAppend | Method (m : method)
| Len | Eq | Tostring | Index | Newindex.

Definition call `{LuaApi} `{Allocator} (pushcfunction : method → loc)
    (op : operation) : lua_args → store → store * outcome :=
  match op with
  | New => byte_span_new
  | NonMemberAppend => byte_span_non_member_append
  | Method m => byte_span_method m
  | Len => byte_span_mt_len
  | Eq => byte_span_mt_eq
  | Tostring => byte_span_mt_tostring
  | Index => byte_span_mt_index pushcfunction
  | Newindex => byte_span_mt_newindex
  end.

(** Lua calls a metamethod on the userdata it belongs to; only [append] in
    place has a condition of its own. *)
Definition callable (op : operation) (L : lua_args) (st : store) : Prop :=
  match op with
  | New | NonMemberAppend => True
  | Method append => ¬ append_overlaps L st
  | Method _ => True
  | Len | Tostring | Index | Newindex => is_Some (span_of st (arg L 1))
  | Eq => is_Some (span_of st (arg L 1)) ∧ is_Some (span_of st (arg L 2))
  end.

(** Indeterminate octets, as a concrete allocator may leave them. *)
Module FilledAllocator.
#[global] Instance api : Allocator.
Proof.
  refine {| uninitialized := λ _ n, replicate n 205%Z |}.
  - intros. apply length_replicate.
  - intros. apply Forall_replicate. width.
Defined.
End FilledAllocator.

(** The characters of a span, and those of its whole capacity. *)
Definition text (st : store) (bs : byte_span_handle) : option bytes :=
  load st (as_string_view bs).
Definition whole_text (st : store) (bs : byte_span_handle) : option bytes :=
  text st (Handle (data bs) (capacity bs) (capacity bs)).

(** * What a search looks for *)
Inductive search : Set := Substring | AnyOf | NoneOf.

Definition hits (k : search) (self pat : bytes) (i : nat) : Prop :=
  match k with
  | Substring => ∃ front back, self = front ++ pat ++ back ∧ length front = i
  | AnyOf => ∃ c, self !! i = Some c ∧ c ∈ pat
  | NoneOf => ∃ c, self !! i = Some c ∧ c ∉ pat
  end.

(** [r] is the least, the greatest, position that hits. *)
Definition first_hit k self pat (pos : nat) (r : option nat) : Prop :=
  match r with
  | Some i => pos ≤ i < length self ∧ hits k self pat i ∧
      ∀ j, pos ≤ j < i → ¬ hits k self pat j
  | None => ∀ j, pos ≤ j < length self → ¬ hits k self pat j
  end.
Definition last_hit k self pat (end_ : nat) (r : option nat) : Prop :=
  match r with
  | Some i => i < end_ ∧ hits k self pat i ∧
      ∀ j, i < j < end_ → ¬ hits k self pat j
  | None => ∀ j, j < end_ → ¬ hits k self pat j
  end.

Definition forward_op (k : search) : bytes → bytes → nat → option nat :=
  match k with
  | Substring => find | AnyOf => find_first_of | NoneOf => find_first_not_of
  end.
Definition backward_op (k : search) : bytes → bytes → nat → option nat :=
  match k with
  | Substring => rfind | AnyOf => find_last_of | NoneOf => find_last_not_of
  end.
Definition hit_test (k : search) : bytes → bytes → nat → bool :=
  match k with
  | Substring => occurs_at | AnyOf => in_at | NoneOf => not_in_at
  end.

Lemma hit_test_spec k self pat i :
  i ≤ length self → hit_test k self pat i = true ↔ hits k self pat i.
Proof.
  intros Hi. destruct k; simpl.
  - by apply occurs_at_spec.
  - apply in_at_true.
  - apply not_in_at_true.
Qed.

Lemma hit_test_false k self pat i :
  i ≤ length self → hit_test k self pat i = false → ¬ hits k self pat i.
Proof. intros Hi Hf Hh%hit_test_spec; [congruence|done]. Qed.

Lemma forward_op_spec k self pat pos :
  pos < length self → first_hit k self pat pos (forward_op k self pat pos).
Proof.
  intros Hpos.
  assert (∃ n, forward_op k self pat pos = find_up (hit_test k self pat) pos n ∧
    length self - pos ≤ n ≤ length self + 1 - pos ∧
    (n = length self - pos ∨ k = Substring)) as (n & -> & Hn & Hk).
  { destruct k; eexists; (split; [done|lia || (split; [lia|by auto])]). }
  destruct (find_up _ pos n) as [i|] eqn:E; simpl.
  - apply find_up_Some in E as (Hi & Hp & Hmin).
    assert (∀ j, pos ≤ j < i → ¬ hits k self pat j) as Hno.
    { intros j Hj. apply hit_test_false; [lia|]. by apply Hmin. }
    split_and!; [lia| |by apply hit_test_spec; [lia|]|done].
    destruct (decide (i < length self)) as [|Hge]; [done|].
    destruct Hk as [->| ->]; [lia|]. assert (i = length self) as -> by lia.
    apply hit_test_spec in Hp as (front & back & Heq & Hl); [|done].
    assert (length pat = 0).
    { apply (f_equal length) in Heq. rewrite !length_app in Heq. lia. }
    destruct pat; [|done]. exfalso. apply (Hno pos); [lia|].
    exists (take pos self), (drop pos self). simpl.
    rewrite take_drop, length_take. split; [done|lia].
  - rewrite find_up_None in E. intros j Hj. apply hit_test_false; [lia|].
    apply E. lia.
Qed.

Lemma backward_op_spec k self pat pos :
  pos < length self → last_hit k self pat (S pos) (backward_op k self pat pos).
Proof.
  intros Hpos.
  assert (backward_op k self pat pos = find_down (hit_test k self pat) (S pos)) as ->.
  { destruct k; cbn [backward_op hit_test]; unfold rfind, find_last_of, find_last_not_of;
      f_equal; lia. }
  destruct (find_down _ (S pos)) as [i|] eqn:E.
  - apply find_down_Some in E as (Hi & Hp & Hmax). unfold last_hit.
    split_and!; [done|apply hit_test_spec; [lia|done]|].
    intros j Hj. apply hit_test_false; [lia|]. by apply Hmax.
  - rewrite find_down_None in E. intros j Hj. apply hit_test_false; [lia|].
    apply E. lia.
Qed.

Section spec.
Context `{LuaApi} `{Allocator}.
Implicit Types (st : store) (bs : byte_span_handle).

Lemma unchecked_arg_Some L i st bs :
  span_of st (arg L i) = Some bs → unchecked_arg L i st = inr bs.
Proof. unfold unchecked_arg. by intros ->. Qed.

Lemma load_byte_ok st bs i :
  wf st → handle_wf (buffers st) bs → (0 ≤ i < size bs)%Z →
  ∃ v, load_byte st bs i = Some v ∧ is_byte v.
Proof.
  intros Hwf Hbs Hi. unfold handle_wf in Hbs. unfold load_byte.
  destruct (data bs) as [[b off]|]; [|lia]. destruct Hbs as (? & buf & Hb & ?).
  destruct (load_ok st (Region b (off + i) 1)) as (s & Hs & Hlen & Hbytes).
  { apply Hwf. } { exists buf. unfold in_bounds. split; [done|lia]. }
  cbn -[load]. rewrite Hs. simpl in *.
  destruct s as [|c s]; simpl in *; [lia|]. inversion Hbytes. eauto.
Qed.

Lemma store_byte_ok st bs i v :
  wf st → handle_wf (buffers st) bs → (0 ≤ i < size bs)%Z → is_byte v →
  ∃ st', store_byte st bs i v = Some st' ∧ wf st' ∧ grows st st'.
Proof.
  intros Hwf Hbs Hi Hv. unfold handle_wf in Hbs. unfold store_byte.
  destruct (data bs) as [[b off]|]; [|lia]. destruct Hbs as (? & buf & Hb & ?).
  destruct (write_ok st b (off + i) [v] buf) as (st' & ? & ? & ? & _);
    [done|done|unfold in_bounds; simpl; lia|by constructor|]. by exists st'.
Qed.

Lemma mt_index_safe f L st :
  wf st → is_Some (span_of st (arg L 1)) → safe st (byte_span_mt_index f L st).
Proof.
  intros Hwf [bs Hbs]. pose proof (span_of_wf _ _ _ Hwf Hbs).
  unfold byte_span_mt_index, byte_span_capacity.
  rewrite (unchecked_arg_Some _ _ _ _ Hbs). simpl.
  destruct (arg L 2) as [[| |n| | | | | |]|];
    try (repeat case_match; by apply safe_same).
  case_decide; [by apply safe_same|].
  destruct (load_byte_ok st bs (lua_tointeger n - 1)) as (v & -> & _);
    [done|done|lia|]. by apply safe_same.
Qed.

Lemma mt_newindex_safe L st :
  wf st → is_Some (span_of st (arg L 1)) → safe st (byte_span_mt_newindex L st).
Proof.
  intros Hwf [bs Hbs]. pose proof (span_of_wf _ _ _ Hwf Hbs).
  unfold byte_span_mt_newindex. rewrite (unchecked_arg_Some _ _ _ _ Hbs). simpl.
  destruct (arg L 2) as [[| |i| | | | | |]|]; try by apply safe_same.
  destruct (arg L 3) as [[| |v| | | | | |]|]; try by apply safe_same.
  case_decide; [by apply safe_same|].
  destruct (store_byte_ok st bs (lua_tointeger i - 1) (lua_tointeger v))
    as (st' & -> & ? & ?); [done|done|lia|width|]. done.
Qed.

Lemma mt_eq_safe L st :
  wf st → is_Some (span_of st (arg L 1)) → is_Some (span_of st (arg L 2)) →
  safe st (byte_span_mt_eq L st).
Proof.
  intros Hwf [bs1 H1] [bs2 H2]. unfold byte_span_mt_eq.
  rewrite (unchecked_arg_Some _ _ _ _ H1), (unchecked_arg_Some _ _ _ _ H2). simpl.
  apply safe_read; [done| |intros s1 _].
  { eapply as_string_view_ok, span_of_wf; eauto. }
  apply safe_read; [done| |intros s2 _; by apply safe_same].
  eapply as_string_view_ok, span_of_wf; eauto.
Qed.

(** C40 Memory safety: on a well-formed heap every operation, called on the
    values Lua calls it on, keeps the heap well formed, leaves the length of
    every buffer and every userdata as they are, and never reads or writes
    outside a buffer; the one exception is an [append] in place whose source
    overlaps the octets it writes. *)
Theorem byte_span_memory_safe pushcfunction op L st :
  wf st → args_ok L → callable op L st →
  safe st (call pushcfunction op L st).
Proof.
  intros Hwf HL Hc. destruct op as [| |m| | | | |]; simpl in *.
  - by apply new_safe.
  - by apply non_member_append_safe.
  - destruct m; simpl; eauto using slice_safe, copy_safe, member_append_safe,
      starts_with_safe, ends_with_safe, search_forward_safe,
      search_backward_safe, trimmed_safe.
  - destruct Hc as [bs Hbs]. unfold byte_span_mt_len.
    rewrite (unchecked_arg_Some _ _ _ _ Hbs). by apply safe_same.
  - destruct Hc. by apply mt_eq_safe.
  - destruct Hc as [bs Hbs]. unfold byte_span_mt_tostring.
    rewrite (unchecked_arg_Some _ _ _ _ Hbs). simpl.
    apply safe_read; [done| |intros; by apply safe_same].
    eapply as_string_view_ok, span_of_wf; eauto.
  - by apply mt_index_safe.
  - by apply mt_newindex_safe.
Qed.

(** * Slices *)

Lemma slice_text st b off sz cap start end_ t :
  (1 ≤ start ∧ start - 1 ≤ end_ ∧ end_ ≤ cap)%Z →
  whole_text st (Handle (Some (b, off)) sz cap) = Some t →
  text st (Handle (Some (b, off + start - 1)%Z) (end_ - start + 1) (cap - start + 1))
    = Some (window (Z.to_nat (start - 1)) (Z.to_nat (end_ - start + 1)) t).
Proof.
  unfold whole_text, text. simpl. intros Hr.
  destruct (buffers st !! b) as [buf|]; simpl; [|done].
  case_decide as Hin; [|done]. intros [= <-]. unfold in_bounds in *.
  rewrite decide_True by lia. f_equal. rewrite window_window by lia. f_equal. lia.
Qed.

(** [slice] either raises [result_out_of_range], exactly when the range is
    not within the capacity, or gives a span of the range that shares the
    octets: at every later time its characters are those of the range in the
    whole capacity of the sliced span. *)
Theorem slice_spec L st bs e2 e3 start end_ :
  wf st → self_arg (settop 3 L) st = inr bs →
  integer_arg (settop 3 L) 2 1 e2 = inr start →
  integer_arg (settop 3 L) 3 (size bs) e3 = inr end_ →
  if decide (1 ≤ start ∧ start - 1 ≤ end_ ∧ end_ ≤ capacity bs)%Z then
    ∃ bs', byte_span_slice L st = push_span bs' st ∧
      size bs' = (end_ - start + 1)%Z ∧
      capacity bs' = (capacity bs - (start - 1))%Z ∧
      ∀ st' t, whole_text st' bs = Some t →
        text st' bs' =
          Some (window (Z.to_nat (start - 1)) (Z.to_nat (end_ - start + 1)) t)
  else byte_span_slice L st = (st, raise result_out_of_range).
Proof.
  intros Hwf Hself Hstart Hend.
  assert (∀ e, integer_arg (settop 3 L) 2 1 e = inr start) as Hs.
  { revert Hstart. unfold integer_arg. intros E e. case_hyps E; done. }
  assert (∀ e, integer_arg (settop 3 L) 3 (size bs) e = inr end_) as He.
  { revert Hend. unfold integer_arg. intros E e. case_hyps E; done. }
  unfold byte_span_slice. rewrite Hself. simpl. rewrite Hs. simpl. rewrite He. simpl.
  case_decide as Hr; [rewrite decide_False by lia|by rewrite decide_True by lia].
  pose proof (self_arg_inv (settop 3 L) st Hwf) as Hbs. rewrite Hself in Hbs.
  unfold handle_wf in Hbs. destruct bs as [[[b off]|] sz cap]; simpl in *.
  - destruct (decide (cap - start + 1 = 0)%Z) as [Hz|Hz].
    + exists null_handle. simpl. split_and!; [done|lia|lia|].
      intros st' t Ht. replace (end_ - start + 1)%Z with 0%Z by lia. done.
    + eexists. split; [done|]. simpl. split_and!; [done|lia|].
      intros st' t. by apply slice_text.
  - rewrite decide_True by lia. exists null_handle.
    split_and!; [done|simpl; lia|simpl; lia|].
    intros st' t [= <-]. unfold window. by rewrite drop_nil, take_nil.
Qed.

(** * Indexing *)

Lemma store_byte_alias bs1 bs2 st st' i j v b1 off1 b2 off2 :
  wf st → handle_wf (buffers st) bs1 → handle_wf (buffers st) bs2 →
  data bs1 = Some (b1, off1) → data bs2 = Some (b2, off2) →
  (0 ≤ i < size bs1)%Z → (0 ≤ j < size bs2)%Z → is_byte v →
  store_byte st bs1 i v = Some st' →
  load_byte st' bs2 j =
    if decide (b1 = b2 ∧ off1 + i = off2 + j)%Z then Some v
    else load_byte st bs2 j.
Proof.
  unfold handle_wf, store_byte, load_byte, write. intros Hwf H1 H2 Hd1 Hd2 Hi Hj Hv.
  rewrite Hd1 in H1. rewrite Hd2 in H2. rewrite Hd1, Hd2. destruct H1 as (? & buf1 & Hb1 & ?).
  destruct H2 as (? & buf2 & Hb2 & ?). simpl. rewrite Hb1. simpl.
  rewrite decide_True by (unfold in_bounds; simpl; lia). intros [= <-].
  destruct (decide (b1 = b2)) as [<-|Hne]; cbn -[window].
  - rewrite list_lookup_insert_eq by (by eapply lookup_lt_Some).
    assert (buf2 = buf1) as -> by congruence. rewrite Hb1. cbn -[window].
    rewrite !decide_True by (unfold in_bounds; rewrite ?length_blit; simpl; lia).
    cbn -[window]. case_decide as Hc.
    + destruct Hc as [_ <-].
      by rewrite (window_blit_same _ [v]) by (simpl; lia).
    + assert (off1 + i ≠ off2 + j)%Z by (intros E; by apply Hc).
      rewrite (window_blit_disjoint _ [v]) by (simpl; lia).
      by rewrite decide_True by (unfold in_bounds; lia).
  - rewrite (decide_False (P := (b1 = b2 ∧ _))) by naive_solver.
    by rewrite list_lookup_insert_ne.
Qed.

(** A store through one span is what every span of the same buffer reads
    at the octet stored, and nothing else changes. *)
Theorem newindex_index_alias bs1 bs2 st st' i j v b1 off1 b2 off2 :
  wf st → handle_wf (buffers st) bs1 → handle_wf (buffers st) bs2 →
  data bs1 = Some (b1, off1) → data bs2 = Some (b2, off2) →
  (0 ≤ i < size bs1)%Z → (0 ≤ j < size bs2)%Z → is_byte v →
  store_byte st bs1 i v = Some st' →
  load_byte st' bs2 j =
    if decide (b1 = b2 ∧ off1 + i = off2 + j)%Z then Some v
    else load_byte st bs2 j.
Proof. apply store_byte_alias. Qed.

(** [span[k] = x] then [span[k]] through the Lua metamethods gives [x]
    back for every valid index and octet; outside [1..#span], or for a value
    that is no octet, both raise [result_out_of_range] and change nothing. *)
Theorem newindex_index f u bs st k x :
  wf st → userdata st !! u = Some (Span bs) →
  (- 2 ^ 53 ≤ k ≤ 2 ^ 53)%Z → (- 2 ^ 53 ≤ x ≤ 2 ^ 53)%Z →
  let self := LUserdata u in
  let key := LNumber (lua_pushinteger k) in
  let '(st', r) :=
    byte_span_mt_newindex [self; key; LNumber (lua_pushinteger x)] st in
  if decide (1 ≤ k ≤ size bs ∧ 0 ≤ x ≤ 255)%Z then
    r = Returns [] ∧
    byte_span_mt_index f [self; key] st' = (st', push_integer x)
  else st' = st ∧ r = raise result_out_of_range.
Proof.
  intros Hwf Hu Hk Hx. cbn -[Z.pow decide].
  unfold byte_span_mt_newindex, byte_span_mt_index, unchecked_arg.
  cbn -[Z.pow decide]. rewrite Hu. cbn -[Z.pow decide].
  rewrite !lua_pushinteger_exact by done.
  pose proof (wf_spans _ Hwf _ _ Hu) as Hbs.
  destruct (decide (1 ≤ k ≤ size bs ∧ 0 ≤ x ≤ 255)%Z) as [Hr|Hr].
  - rewrite decide_False by lia.
    destruct (store_byte_ok st bs (k - 1) x) as (st' & Hst & Hwf' & G);
      [done|done|lia|width|]. rewrite Hst.
    destruct G as [G [tail Htail]]. rewrite Htail.
    rewrite (lookup_app_l_Some _ _ _ _ Hu). simpl. rewrite decide_False by lia.
    destruct (data bs) as [[b off]|] eqn:Hd.
    + rewrite (store_byte_alias bs bs st st' (k - 1) (k - 1) x b off b off);
        [|done..|lia|lia|width|done].
      by rewrite decide_True.
    + unfold handle_wf in Hbs. rewrite Hd in Hbs. lia.
  - by rewrite decide_True by lia.
Qed.

(** * Appending *)

Lemma copy_slices_userdata st st' b off idx slices :
  copy_slices st b off idx slices = Some st' → userdata st' = userdata st.
Proof.
  revert st idx. induction slices as [|s l IH]; intros st idx; simpl; [congruence|].
  case_decide; [by apply IH|].
  destruct (memcpy st b (off + idx) s) as [st1|] eqn:E; [|done]. simpl.
  intros ->%IH. unfold memcpy, memmove in E.
  case_decide; [done|]. destruct (load _ _); [|done]. simpl in E.
  unfold write in E. destruct (buffers st !! b); [|done]. simpl in E.
  case_decide; by simplify_eq.
Qed.

Lemma finish_append_contents st dst idx slices b off buf :
  wf st → handle_wf (buffers st) dst → data dst = Some (b, off) →
  buffers st !! b = Some buf → (0 ≤ idx ∧ size dst = idx + total slices)%Z →
  Forall (view_ok (buffers st)) slices →
  Forall (apart b (off + idx) (off + size dst)) slices →
  ∃ st' texts, finish_append dst idx slices st =
      (st', Returns [LUserdata (length (userdata st))]) ∧
    userdata st' = userdata st ++ [Span dst] ∧
    (∀ b', b' ≠ b → buffers st' !! b' = buffers st !! b') ∧
    mapM (load st) slices = Some texts ∧
    text st' dst =
      Some (window (Z.to_nat off) (Z.to_nat idx) buf ++ concat texts).
Proof.
  intros Hwf Hh Hd Hb Hr Hs Ha. pose proof (total_nonneg _ _ Hs).
  destruct (push_span_ok st dst Hwf Hh) as [Hwf1 _].
  unfold handle_wf in Hh. rewrite Hd in Hh. destruct Hh as (? & buf0 & Hb0 & ?).
  assert (buf0 = buf) as -> by congruence.
  destruct (copy_slices_contents _ b off idx slices (off + idx) (off + size dst) buf
              Hwf1) as (st2 & texts & Hc & Hm & Hlt & Hb2);
    [done..|lia|done|unfold in_bounds; lia|].
  exists st2, texts. unfold finish_append.
  pose proof (copy_slices_userdata _ _ _ _ _ _ Hc) as Hu.
  unfold push_span in *. simpl in *. rewrite Hd, Hc.
  split_and!; [done|done|..].
  - intros b' Hne. by rewrite Hb2, list_lookup_insert_ne.
  - rewrite <- Hm. apply mapM_ext_elem. by intros [].
  - unfold text, as_string_view. rewrite Hd. simpl.
    rewrite Hb2, list_lookup_insert_eq by (by eapply lookup_lt_Some). simpl.
    rewrite decide_True by (unfold in_bounds; rewrite length_blit; lia). f_equal.
    replace (Z.to_nat (size dst)) with (Z.to_nat idx + length (concat texts)) by lia.
    rewrite Z2Nat.inj_add by lia. by rewrite window_blit_after by lia.
Qed.

Lemma first_chars_load st v n s t :
  load st v = Some s → n ≤ length s → load st (first_chars v n) = Some t →
  t = take n s.
Proof.
  destruct v as [c|b off len]; simpl.
  - intros [= ->] ? [= <-]. by rewrite Nat2Z.id.
  - destruct (buffers st !! b) as [buf|]; simpl; [|done].
    case_decide as Hin; [|done]. intros [= <-] Hn. case_decide; [|done].
    intros [= <-]. unfold in_bounds in *. rewrite length_window in Hn by lia.
    unfold window. rewrite take_take. f_equal. lia.
Qed.

Lemma append_target_size bs st :
  handle_wf (buffers st) bs → (0 ≤ size bs ≤ int64_max)%Z ∧ (size bs ≤ capacity bs)%Z.
Proof. unfold handle_wf. destruct (data bs) as [[]|]; [lia|width]. Qed.

Lemma append_in_place st bs self slices :
  wf st → handle_wf (buffers st) bs → text st bs = Some self →
  Forall (view_ok (buffers st)) slices →
  (0 < size bs + total slices ≤ capacity bs)%Z →
  (∀ b off, data bs = Some (b, off) →
     Forall (apart b (off + size bs) (off + (size bs + total slices))) slices) →
  ∃ st' bs' texts,
    finish_append (Handle (data bs) (size bs + total slices) (capacity bs))
      (size bs) slices st = (st', Returns [LUserdata (length (userdata st))]) ∧
    userdata st' = userdata st ++ [Span bs'] ∧
    mapM (load st) slices = Some texts ∧
    text st' bs' = Some (self ++ concat texts) ∧
    (∀ b, fst <$> data bs' ≠ Some b → buffers st' !! b = buffers st !! b) ∧
    data bs' = data bs ∧ capacity bs' = capacity bs.
Proof.
  intros Hwf Hbs Ht Hs Hr Ha. pose proof (total_nonneg _ _ Hs).
  unfold handle_wf in Hbs. destruct (data bs) as [[b off]|] eqn:Hd; [|lia].
  destruct Hbs as (? & buf & Hb & ?).
  destruct (finish_append_contents st
    (Handle (Some (b, off)) (size bs + total slices) (capacity bs))
    (size bs) slices b off buf) as (st' & texts & -> & Hu & Hbufs & Hm & Htext);
    [done| |done|done|simpl; lia|done|by apply Ha|].
  { unfold handle_wf. simpl. split; [lia|]. by exists buf. }
  eexists st', _, texts. split_and!; [done|done|done| | |done|done].
  - rewrite Htext. do 2 f_equal. unfold text, as_string_view in Ht.
    rewrite Hd in Ht. simpl in Ht. rewrite Hb in Ht. simpl in Ht. by case_decide; simplify_eq.
  - simpl. intros b' Hne. apply Hbufs. congruence.
Qed.

Lemma append_fresh st bs self slices n :
  wf st → handle_wf (buffers st) bs → text st bs = Some self →
  Forall (view_ok (buffers st)) slices →
  n = (size bs + total slices)%Z → (0 < n ≤ int64_max)%Z →
  ∃ st' bs' texts,
    match copy_self bs (new_handle n n st) with
    | None => ((new_handle n n st).1, Undefined)
    | Some st' => finish_append (new_handle n n st).2 (size bs) slices st'
    end = (st', Returns [LUserdata (length (userdata st))]) ∧
    userdata st' = userdata st ++ [Span bs'] ∧
    mapM (load st) slices = Some texts ∧
    text st' bs' = Some (self ++ concat texts) ∧
    (∀ b, fst <$> data bs' ≠ Some b → buffers st' !! b = buffers st !! b) ∧
    data bs' = Some (length (buffers st), 0%Z) ∧ capacity bs' = n.
Proof.
  intros Hwf Hbs Ht Hs -> Hn. pose proof (total_nonneg _ _ Hs).
  set (n := (size bs + total slices)%Z) in *.
  destruct (append_target_size bs st Hbs) as [? _].
  destruct (copy_self_ok st bs self n)
    as (st2 & buf & -> & Hwf2 & G2 & Hu2 & Hb2 & Hl2 & Hw); [done..|lia|].
  assert (buffers st2 !! length (buffers st) = Some buf) as Hb
    by (rewrite Hb2; by apply list_lookup_middle).
  destruct (finish_append_contents st2 (new_handle n n st).2 (size bs) slices
              (length (buffers st)) 0 buf)
    as (st3 & texts & -> & Hu3 & Hb3 & Hm & Htext);
    [done| |done|done|simpl; lia| |by apply old_slices_apart|].
  { unfold handle_wf. simpl. split; [lia|]. exists buf. split; [done|lia]. }
  { eapply Forall_impl; [exact Hs|]. intros v. by apply view_ok_grows. }
  assert (∀ b, b ≠ length (buffers st) → buffers st2 !! b = buffers st !! b) as Hold.
  { intros b Hne. rewrite Hb2. destruct (decide (b < length (buffers st))).
    - by apply lookup_app_l.
    - rewrite !lookup_ge_None_2; [done|lia|rewrite length_app; simpl; lia]. }
  eexists st3, _, texts. rewrite Hu3, Hu2.
  split_and!; [done|done| | | |done|done].
  - rewrite <- Hm. apply mapM_ext_elem. intros v Hv.
    apply list_elem_of_lookup in Hv as [k Hv].
    pose proof (Forall_lookup_1 _ _ _ _ Hs Hv) as Hok.
    destruct v as [|b off len]; simpl in *; [done|].
    destruct Hok as (buf0 & Hbuf0 & _). apply lookup_lt_Some in Hbuf0.
    by rewrite Hold by lia.
  - by rewrite Htext, <- Hw.
  - simpl. intros b Hne. rewrite Hb3, Hold; congruence.
Qed.

(** When no slice meets the octets to be written, [append] returns a span
    of the old characters followed by those of the slices.  With room in the
    capacity it is the same buffer, and no other buffer changes; without, it
    is a new one, and no existing buffer changes. *)
Theorem append_contents L st bs self slices n :
  wf st → args_ok L → length L ≠ 1 →
  self_arg L st = inr bs → text st bs = Some self →
  slice_args 2 (drop 1 L) st = inr slices →
  n = (size bs + total slices)%Z → (0 < n ≤ int64_max)%Z →
  ((n ≤ capacity bs)%Z → ∀ b off, data bs = Some (b, off) →
     Forall (apart b (off + size bs) (off + n)) slices) →
  ∃ st' bs' texts,
    byte_span_member_append L st =
      (st', Returns [LUserdata (length (userdata st))]) ∧
    userdata st' = userdata st ++ [Span bs'] ∧
    mapM (load st) slices = Some texts ∧
    text st' bs' = Some (self ++ concat texts) ∧
    (∀ b, fst <$> data bs' ≠ Some b → buffers st' !! b = buffers st !! b) ∧
    (if decide (n ≤ capacity bs)%Z
     then data bs' = data bs ∧ capacity bs' = capacity bs
     else data bs' = Some (length (buffers st), 0%Z) ∧ capacity bs' = n).
Proof.
  intros Hwf HL Hn Hself Htext Hs -> Hr Ha.
  pose proof (self_arg_inv L st Hwf) as Hbs. rewrite Hself in Hbs.
  pose proof (slice_args_inv 2 (drop 1 L) st Hwf (Forall_drop _ _ _ HL)) as Hv.
  rewrite Hs in Hv. pose proof (total_nonneg _ _ Hv).
  unfold byte_span_member_append. rewrite Hself, Hs. simpl.
  rewrite decide_False by done.
  destruct (append_target_size bs st Hbs) as [Hsz _].
  rewrite (add_sizes_spec (buffers st)) by (done || lia).
  rewrite decide_True by lia. simpl. rewrite decide_False by lia.
  destruct (decide (size bs + total slices ≤ capacity bs)%Z);
    [rewrite decide_True by lia|rewrite decide_False by lia].
  - apply append_in_place; auto; lia.
  - by apply append_fresh.
Qed.

(** An [append] in place whose source overlaps the octets it is copied to
    is a [memcpy] between overlapping ranges: the call has undefined behaviour,
    and this is the only case in which a call of [append] has. *)
Theorem append_undefined_iff L st :
  wf st → args_ok L →
  (byte_span_member_append L st).2 = Undefined ↔ append_overlaps L st.
Proof.
  intros Hwf HL. split.
  - intros Hu. destruct (decide (append_overlaps L st)) as [|Hn]; [done|].
    by destruct (member_append_safe L st Hwf HL Hn) as (_ & _ & []).
  - intros Ho. unfold append_overlaps, byte_span_member_append in *.
    pose proof (self_arg_inv L st Hwf) as Hself.
    destruct (self_arg L st) as [|bs]; [done|]. simpl.
    pose proof (slice_args_inv 2 (drop 1 L) st Hwf (Forall_drop _ _ _ HL)) as Hs.
    destruct (slice_args 2 (drop 1 L) st) as [|slices] eqn:Hsl; [done|].
    destruct (append_target_size _ _ Hself) as [? _]. unfold handle_wf in Hself.
    destruct (data bs) as [[b off]|] eqn:Hd; [|done]. destruct Ho as [? Hov].
    rewrite decide_False.
    2:{ intros Hlen. destruct L as [|? []]; simplify_eq/=. done. }
    simpl. rewrite (add_sizes_spec (buffers st)) by (done || lia).
    rewrite decide_True by lia. simpl. rewrite decide_False by lia.
    rewrite decide_True by lia. unfold finish_append. simpl.
    by rewrite copy_slices_overlapping.
Qed.

(** * Copies *)

(** [copy] moves the first [min(#src, #dst)] characters of the source, as
    they were before the call even when the two overlap, into the span, and
    leaves its other characters, and every other buffer, as they were. *)
Theorem copy_contents L st bs src s d b off :
  wf st → args_ok L → self_arg (settop 2 L) st = inr bs →
  text_arg (settop 2 L) 2 st = inr src →
  load st src = Some s → text st bs = Some d → data bs = Some (b, off) →
  let n := min (length s) (length d) in
  ∃ st', byte_span_copy L st = (st', push_integer n) ∧
    text st' bs = Some (take n s ++ drop n d) ∧
    ∀ b', b' ≠ b → buffers st' !! b' = buffers st !! b'.
Proof.
  intros Hwf HL Hself Hsrc Hs Hd Hdata n.
  pose proof (self_arg_inv (settop 2 L) st Hwf) as Hbs. rewrite Hself in Hbs.
  pose proof (text_arg_inv (settop 2 L) 2 st Hwf (settop_ok _ _ HL)) as Hv.
  rewrite Hsrc in Hv.
  destruct (load_ok _ _ (wf_bytes _ Hwf) Hv) as (s' & Hs' & Hls & _).
  assert (s' = s) as -> by congruence.
  destruct (load_ok _ _ (wf_bytes _ Hwf) (as_string_view_ok _ _ Hbs))
    as (d' & Hd' & Hld & _). unfold text in Hd. assert (d' = d) as -> by congruence.
  rewrite (sv_size_as_string_view (buffers st)) in Hld by done.
  unfold byte_span_copy. rewrite Hself, Hsrc. simpl.
  rewrite <- Hls, <- Hld. replace (Z.min (length s) (length d)) with (Z.of_nat n) by lia.
  case_decide as Hn.
  { exists st. split_and!; [done| |done].
    replace n with 0 by lia. rewrite take_0, drop_0. done. }
  unfold handle_wf in Hbs. rewrite Hdata in *. destruct Hbs as (? & buf & Hb & ?).
  destruct (memmove_ok st b off src n buf) as (t & st' & Ht & Hlt & -> & _ & _ & _ & Hbufs);
    [done..|lia|done|unfold in_bounds; lia|].
  assert (t = take n s) as ->.
  { eapply first_chars_load; [exact Hs| |exact Ht]. lia. }
  exists st'. split_and!; [done| |intros b' Hne; by rewrite Hbufs, list_lookup_insert_ne].
  unfold text, as_string_view in *. rewrite Hdata in *. simpl in *.
  rewrite Hb in Hd. simpl in Hd. case_decide; [|done]. simplify_eq.
  rewrite Hbufs, list_lookup_insert_eq by (by eapply lookup_lt_Some). simpl.
  rewrite decide_True by (unfold in_bounds; rewrite length_blit; lia). f_equal.
  rewrite window_blit_front by lia. do 2 f_equal. lia.
Qed.

(** * Searches *)

Definition byte_span_search_forward (k : search) :=
  match k with
  | Substring => byte_span_find
  | AnyOf => byte_span_find_first_of
  | NoneOf => byte_span_find_first_not_of
  end.
Definition byte_span_search_backward (k : search) :=
  match k with
  | Substring => byte_span_rfind
  | AnyOf => byte_span_find_last_of
  | NoneOf => byte_span_find_last_not_of
  end.

Lemma byte_span_search_forward_eq k :
  byte_span_search_forward k = search_forward (forward_op k).
Proof. by destruct k. Qed.
Lemma byte_span_search_backward_eq k :
  byte_span_search_backward k = search_backward (backward_op k).
Proof. by destruct k. Qed.

Lemma text_length L st bs self :
  wf st → self_arg L st = inr bs → text st bs = Some self →
  Z.of_nat (length self) = size bs.
Proof.
  intros Hwf Hself Ht. pose proof (self_arg_inv L st Hwf) as Hbs.
  rewrite Hself in Hbs.
  destruct (load_ok _ _ (wf_bytes _ Hwf) (as_string_view_ok _ _ Hbs))
    as (s & Hs & Hl & _).
  rewrite (sv_size_as_string_view (buffers st)) in Hl by done.
  unfold text in Ht. by simplify_eq.
Qed.

(** The forward searches: within range, [find], [find_first_of] and
    [find_first_not_of] give the least position from [start] on, counted from
    1, at which the text has the pattern, an octet of it, an octet not in it,
    and [nil] if there is none; [start] outside [1..#span+1] raises. *)
Theorem forward_search_spec k L st bs v pat self start :
  wf st → self_arg (settop 3 L) st = inr bs → text st bs = Some self →
  pattern_arg (settop 3 L) 2 st = inr v → load st v = Some pat →
  integer_arg (settop 3 L) 3 1 (raise_arg invalid_argument 3) = inr start →
  if decide (1 ≤ start ≤ length self + 1)%Z then
    ∃ r, byte_span_search_forward k L st = (st, push_position r) ∧
      first_hit k self pat (Z.to_nat (start - 1)) r
  else byte_span_search_forward k L st = (st, raise result_out_of_range).
Proof.
  intros Hwf Hself Htext Hv Hpat Hstart.
  pose proof (text_length _ _ _ _ Hwf Hself Htext) as Hlen.
  rewrite byte_span_search_forward_eq.
  unfold search_forward. rewrite Hself, Hv. simpl. rewrite Hstart. simpl.
  rewrite <- Hlen.
  destruct (decide (1 ≤ start ≤ length self + 1)%Z);
    [rewrite decide_False by lia|by rewrite decide_True by lia].
  case_decide.
  - exists None. split; [done|]. simpl. lia.
  - unfold read. unfold text in Htext. rewrite Htext, Hpat. simpl.
    eexists. split; [done|]. apply forward_op_spec. lia.
Qed.

(** The backward searches: within range, [rfind], [find_last_of] and
    [find_last_not_of] give the greatest such position up to [end], and [nil]
    if there is none; [end] outside [0..#span] raises. *)
Theorem backward_search_spec k L st bs v pat self end_ :
  wf st → self_arg (settop 3 L) st = inr bs → text st bs = Some self →
  pattern_arg (settop 3 L) 2 st = inr v → load st v = Some pat →
  integer_arg (settop 3 L) 3 (size bs) (raise_arg invalid_argument 3) = inr end_ →
  if decide (0 ≤ end_ ≤ length self)%Z then
    ∃ r, byte_span_search_backward k L st = (st, push_position r) ∧
      last_hit k self pat (Z.to_nat end_) r
  else byte_span_search_backward k L st = (st, raise result_out_of_range).
Proof.
  intros Hwf Hself Htext Hv Hpat Hend.
  pose proof (text_length _ _ _ _ Hwf Hself Htext) as Hlen.
  rewrite byte_span_search_backward_eq.
  unfold search_backward. rewrite Hself, Hv. simpl. rewrite Hend. simpl.
  rewrite <- Hlen.
  destruct (decide (0 ≤ end_ ≤ length self)%Z);
    [rewrite decide_False by lia|by rewrite decide_True by lia].
  case_decide.
  - exists None. split; [done|]. simpl. lia.
  - unfold read. unfold text in Htext. rewrite Htext, Hpat. simpl.
    eexists. split; [done|].
    replace (Z.to_nat end_) with (S (Z.to_nat (end_ - 1))) by lia.
    apply backward_op_spec. lia.
Qed.

(** * Trimming *)

(** [trimmed] cuts the text in three: the two outer parts are made of the
    white space given, the middle one, which starts and ends with an octet
    that is not, is the result and shares the octets; a text of white space
    alone gives the empty span. *)
Theorem trimmed_spec L st bs v lws self :
  wf st → self_arg (settop 2 L) st = inr bs → text st bs = Some self →
  match arg (settop 2 L) 2 with
  | Some LNil | None => v = Chars lws_default
  | _ => text_arg (settop 2 L) 2 st = inr v
  end → load st v = Some lws →
  ∃ bs', byte_span_trimmed L st = push_span bs' st ∧
    match data bs' with
    | None => bs' = null_handle ∧ Forall (.∈ lws) self
    | Some _ =>
        ∃ front middle back, self = front ++ middle ++ back ∧
          Forall (.∈ lws) front ∧ Forall (.∈ lws) back ∧
          (∃ c, head middle = Some c ∧ c ∉ lws) ∧
          (∃ c, last middle = Some c ∧ c ∉ lws) ∧
          text st bs' = Some middle ∧
          fst <$> data bs' = fst <$> data bs
    end.
Proof.
  intros Hwf Hself Htext Hv Hlws.
  pose proof (text_length _ _ _ _ Hwf Hself Htext) as Hlen.
  unfold byte_span_trimmed. rewrite Hself. simpl.
  assert (match arg (settop 2 L) 2 with
          | Some LNil | None => inr (Chars lws_default)
          | _ => text_arg (settop 2 L) 2 st
          end = inr v) as ->.
  { by destruct (arg (settop 2 L) 2) as [[]|]; subst. }
  simpl. unfold read. unfold text in Htext. rewrite Htext, Hlws. simpl.
  destruct (find_first_not_of self lws 0) as [i|] eqn:Hi.
  2:{ exists null_handle. split; [done|]. simpl.
      split; [done|]. by apply find_first_not_of_None. }
  destruct (first_last_not_of_split _ _ _ Hi) as (j & Hj & Hij & Hfront & Hback).
  rewrite Hj. pose proof (self_arg_inv (settop 2 L) st Hwf) as Hbs.
  rewrite Hself in Hbs. unfold handle_wf in Hbs.
  destruct (data bs) as [[b off]|] eqn:Hd; [|lia].
  eexists. split; [done|]. simpl.
  exists (take i self), (window i (j - i + 1) self), (drop (S j) self).
  split_and!; [|done|done| | | |done].
  - symmetry. replace (S j) with (i + (j - i + 1)) by lia. apply window_split.
  - apply find_up_Some in Hi as (_ & Hp & _).
    apply not_in_at_true in Hp as (c & Hc & ?). exists c. split; [|done].
    by rewrite head_lookup, window_lookup, Nat.add_0_r by lia.
  - apply find_down_Some in Hj as (_ & Hp & _).
    apply not_in_at_true in Hp as (c & Hc & ?). exists c. split; [|done].
    rewrite last_lookup, length_window by lia.
    rewrite window_lookup by lia. rewrite <- Hc. f_equal. lia.
  - unfold as_string_view in Htext. rewrite Hd in Htext. unfold text. simpl in *.
    destruct (buffers st !! b) as [buf|]; [|done]. simpl in *.
    case_decide as Hin; [|done]. unfold in_bounds in *. simplify_eq.
    rewrite decide_True by lia. f_equal.
    rewrite window_window by lia. f_equal; lia.
Qed.

(** * Construction *)

(** [byte_span.new] makes a span of the given length over a new buffer of
    the given capacity (the length by default), a null one for capacity 0,
    and raises [invalid_argument] exactly when a number is negative or the
    length exceeds the capacity; no existing span or buffer changes. *)
Theorem new_spec L st n len cap :
  arg L 1 = Some (LNumber n) → lua_tointeger n = len →
  integer_arg L 2 len (raise invalid_argument) = inr cap →
  if decide (0 ≤ len ≤ cap)%Z then
    ∃ st' bs buf, byte_span_new L st =
        (st', Returns [LUserdata (length (userdata st))]) ∧
      userdata st' = userdata st ++ [Span bs] ∧
      size bs = len ∧ capacity bs = cap ∧
      (if decide (cap = 0)%Z then buffers st' = buffers st ∧ data bs = None
       else buffers st' = buffers st ++ [buf] ∧ Z.of_nat (length buf) = cap ∧
            data bs = Some (length (buffers st), 0%Z))
  else byte_span_new L st = (st, raise invalid_argument).
Proof.
  intros Harg Hlen Hcap. unfold byte_span_new. rewrite Harg. simpl.
  rewrite Hlen, Hcap. simpl.
  destruct (decide (0 ≤ len ≤ cap)%Z);
    [rewrite decide_False by lia|by rewrite decide_True by lia].
  destruct (decide (cap = 0)%Z) as [->|Hz].
  - eexists _, null_handle, []. unfold push_span. simpl.
    split_and!; [done|done|lia|done|done|done].
  - eexists _, _, _. unfold push_span. simpl.
    split_and!; [done|done|done|done|done| |done].
    rewrite length_uninitialized. lia.
Qed.
End spec.

(** * Witnesses: a heap with two spans of one buffer *)
Section witnesses.
#[local] Existing Instance Ieee754.api.
#[local] Existing Instance FilledAllocator.api.

(** ["  hello "]: a span of all of it with one octet of room, a span of
    ["hello"], and a userdata of another kind. *)
Definition heap0 : store :=
  Store [lit "  hello ?"]
    [Span (Handle (Some (0, 0%Z)) 8 9); Span (Handle (Some (0, 2%Z)) 5 7);
     OtherUserdata].

Local Definition int_result (z : Z) : outcome := push_integer z.
Local Definition int (z : Z) : lua_value := LNumber (lua_pushinteger z).

Lemma heap0_wf : wf heap0.
Proof.
  split.
  - intros u bs Hu. destruct u as [|[|[|]]]; simplify_eq/=.
    + unfold handle_wf; simpl. split; [width|by eexists].
    + unfold handle_wf; simpl. split; [width|by eexists].
  - repeat constructor; width.
Qed.

Lemma byte_span_memory_safe_witness :
  safe heap0 (call (λ _, 0) (Method append)
                [LUserdata 1; LString (lit "!")] heap0).
Proof.
  apply byte_span_memory_safe; [exact heap0_wf| |].
  - repeat constructor; width.
  - vm_compute. tauto.
Defined.

Lemma slice_spec_witness :
  ∃ bs', byte_span_slice [LUserdata 0; int 3; int 7] heap0 = push_span bs' heap0 ∧
    size bs' = 5%Z ∧ capacity bs' = 7%Z ∧
    ∀ st' t, whole_text st' (Handle (Some (0, 0%Z)) 8 9) = Some t →
      text st' bs' = Some (window 2 5 t).
Proof.
  refine (slice_spec [LUserdata 0; int 3; int 7] heap0 (Handle (Some (0, 0%Z)) 8 9)
            Undefined Undefined 3 7 heap0_wf _ _ _); vm_compute; reflexivity.
Defined.

Lemma newindex_index_alias_witness :
  ∃ st', store_byte heap0 (Handle (Some (0, 0%Z)) 8 9) 2 106 = Some st' ∧
    load_byte st' (Handle (Some (0, 2%Z)) 5 7) 0 = Some 106%Z.
Proof.
  eexists. split; [reflexivity|].
  refine (newindex_index_alias (Handle (Some (0, 0%Z)) 8 9)
    (Handle (Some (0, 2%Z)) 5 7) heap0 _ 2 0 106 0 0 0 2
    heap0_wf (wf_spans _ heap0_wf 0 _ eq_refl) (wf_spans _ heap0_wf 1 _ eq_refl)
    eq_refl eq_refl _ _ _ eq_refl); width || (simpl; lia).
Defined.

Lemma newindex_index_witness :
  let '(st', r) := byte_span_mt_newindex [LUserdata 1; int 5; int 48] heap0 in
  r = Returns [] ∧
  byte_span_mt_index (λ _, 0) [LUserdata 1; int 5] st' = (st', int_result 48).
Proof.
  pose proof (newindex_index (λ _, 0) 1 (Handle (Some (0, 2%Z)) 5 7) heap0 5 48
                heap0_wf eq_refl ltac:(lia) ltac:(lia)) as Hindex.
  vm_compute in Hindex |- *. exact Hindex.
Defined.

Lemma append_contents_witness :
  ∃ st' bs' texts,
    byte_span_member_append [LUserdata 1; LUserdata 1; LString (lit "!")] heap0 =
      (st', Returns [LUserdata 3]) ∧
    userdata st' = userdata heap0 ++ [Span bs'] ∧
    mapM (load heap0) [Region 0 2 5; Chars (lit "!")] = Some texts ∧
    text st' bs' = Some (lit "hello" ++ concat texts) ∧
    (∀ b, fst <$> data bs' ≠ Some b → buffers st' !! b = buffers heap0 !! b) ∧
    data bs' = Some (1, 0%Z) ∧ capacity bs' = 11%Z.
Proof.
  refine (append_contents [LUserdata 1; LUserdata 1; LString (lit "!")] heap0
    (Handle (Some (0, 2%Z)) 5 7) (lit "hello") [Region 0 2 5; Chars (lit "!")] 11
    heap0_wf _ _ eq_refl eq_refl eq_refl eq_refl _ _).
  - repeat constructor; width.
  - discriminate.
  - width.
  - simpl. lia.
Defined.

Lemma append_undefined_iff_witness :
  (byte_span_member_append [LUserdata 1; LUserdata 0] (Store [lit "abcdef"]
     [Span (Handle (Some (0, 3%Z)) 1 3); Span (Handle (Some (0, 1%Z)) 1 5)])).2
    = Undefined ↔
  append_overlaps [LUserdata 1; LUserdata 0] (Store [lit "abcdef"]
     [Span (Handle (Some (0, 3%Z)) 1 3); Span (Handle (Some (0, 1%Z)) 1 5)]).
Proof.
  apply append_undefined_iff; [|repeat constructor]. split.
  - intros u bs Hu. destruct u as [|[|]]; simplify_eq/=;
      (unfold handle_wf; simpl; split; [width|by eexists]).
  - repeat constructor; width.
Defined.

Lemma copy_contents_witness :
  ∃ st', byte_span_copy [LUserdata 0; LUserdata 1] heap0 = (st', int_result 5) ∧
    text st' (Handle (Some (0, 0%Z)) 8 9) = Some (lit "hellolo ") ∧
    ∀ b', b' ≠ 0 → buffers st' !! b' = buffers heap0 !! b'.
Proof.
  refine (copy_contents [LUserdata 0; LUserdata 1] heap0
    (Handle (Some (0, 0%Z)) 8 9) (Region 0 2 5) (lit "hello") (lit "  hello ") 0 0
    heap0_wf _ eq_refl eq_refl eq_refl eq_refl eq_refl).
  repeat constructor.
Defined.

Lemma forward_search_spec_witness :
  ∃ r, byte_span_find [LUserdata 0; LString (lit "l"); int 2] heap0
         = (heap0, push_position r) ∧
    first_hit Substring (lit "  hello ") (lit "l") 1 r.
Proof.
  refine (forward_search_spec Substring [LUserdata 0; LString (lit "l"); int 2] heap0
    (Handle (Some (0, 0%Z)) 8 9) (Chars (lit "l")) (lit "l") (lit "  hello ") 2
    heap0_wf eq_refl eq_refl eq_refl eq_refl _). vm_compute. reflexivity.
Defined.

Lemma backward_search_spec_witness :
  ∃ r, byte_span_find_last_not_of [LUserdata 0; LString (lit " o")] heap0
         = (heap0, push_position r) ∧
    last_hit NoneOf (lit "  hello ") (lit " o") 8 r.
Proof.
  refine (backward_search_spec NoneOf [LUserdata 0; LString (lit " o")] heap0
    (Handle (Some (0, 0%Z)) 8 9) (Chars (lit " o")) (lit " o") (lit "  hello ") 8
    heap0_wf eq_refl eq_refl eq_refl eq_refl eq_refl).
Defined.

Lemma trimmed_spec_witness :
  ∃ bs', byte_span_trimmed [LUserdata 0] heap0 = push_span bs' heap0 ∧
    match data bs' with
    | None => bs' = null_handle ∧ Forall (.∈ lws_default) (lit "  hello ")
    | Some _ =>
        ∃ front middle back, lit "  hello " = front ++ middle ++ back ∧
          Forall (.∈ lws_default) front ∧ Forall (.∈ lws_default) back ∧
          (∃ c, head middle = Some c ∧ c ∉ lws_default) ∧
          (∃ c, last middle = Some c ∧ c ∉ lws_default) ∧
          text heap0 bs' = Some middle ∧ fst <$> data bs' = Some 0
    end.
Proof.
  exact (trimmed_spec [LUserdata 0] heap0 (Handle (Some (0, 0%Z)) 8 9)
    (Chars lws_default) lws_default (lit "  hello ")
    heap0_wf eq_refl eq_refl eq_refl eq_refl).
Defined.

Lemma new_spec_witness :
  ∃ st' bs buf, byte_span_new [int 2; int 4] heap0 =
      (st', Returns [LUserdata 3]) ∧
    userdata st' = userdata heap0 ++ [Span bs] ∧
    size bs = 2%Z ∧ capacity bs = 4%Z ∧
    buffers st' = buffers heap0 ++ [buf] ∧ Z.of_nat (length buf) = 4%Z ∧
    data bs = Some (1, 0%Z).
Proof.
  refine (new_spec [int 2; int 4] heap0 (lua_pushinteger 2) 2 4 eq_refl _ _);
    vm_compute; reflexivity.
Defined.
End witnesses.
