(* ===== verification/Vm.v ===== *)
(** A Lua VM and its fibers: [src/include/emilua/core.hpp] ([vm_context],
    [fiber_resume]) and [src/src/core.cpp] ([fiber_epilogue], [close],
    [set_interrupter], [unsafe_can_suspend], ...).

    A fiber is a Lua thread with a row in the table at [fiber_list_key].  A
    fiber that suspends is remembered by whatever will wake it up: the pending
    list of an object, the row of the fiber it joins, or a task posted to the
    VM's strand, whose tasks run one after the other, in order.  The lambdas
    the sources post or set as interrupters are the constructors of [task] and
    [interrupter_t], with their captures. *)
From S2P Require Import Prelude Errors Lua.

(** * Data *)

(** A value of a coroutine's stack: a Lua value or an error object. *)
Inductive rvalue : Set :=
| RV (v : lua_value)
| RE (ec : error_code).

#[export] Instance rvalue_eq_dec : EqDecision rvalue.
Proof. solve_decision. Defined.

(** How a coroutine ended. *)
Inductive result : Set :=
| Finished (vs : list rvalue)     (* 0 *)
| Failed (e : rvalue).            (* LUA_ERRRUN *)

(** [lua_status] of a fiber's thread; a running one keeps the values it was
    resumed with. *)
Inductive co_status : Set :=
| CoReady
| CoSuspended
| CoRunning (args : list rvalue)
| CoDead (r : result).

(** The fields of a row: [enum FiberDataIndex]. *)
Inductive joiner_t : Set :=
| JNone                    (* nil *)
| JDetached                (* false *)
| JThread (f : loc).

Inductive fiber_status : Set := FINISHED_SUCCESSFULLY | FINISHED_WITH_ERROR.

Inductive disabled_t : Set :=
| DBoolean (b : bool)
| DNumber (n : Z).

(** The closures given to [set_interrupter], with their upvalues. *)
Inductive interrupter_t : Set :=
| ICond (handle current_fiber : loc)
| IFuture (state current_fiber : loc)
| IJoin (handle current_fiber fiber : loc)
| IEmitSignal (signal : loc)
| ITimer (handle : loc)
| ISubprocess (p : loc)
| ICancel (object : loc).

Record fiber_data : Set := FiberData {
  joiner : joiner_t;
  status : option fiber_status;
  suspension_disallowed : Z;
  local_storage : option loc;
  interruption_disabled : disabled_t;
  interrupted : bool;
  interrupter : option interrupter_t;
  asio_cancellation_signal : option loc;
  user_handle : option loc;
  module_path : bool;       (* whether there is one *)
}.

(** The userdata of the fiber modules. *)
Inductive future_state_t : Set := empty | broken | value_ready | error_ready.

#[export] Instance future_state_eq_dec : EqDecision future_state_t.
Proof. solve_decision. Defined.

Inductive object : Set :=
| Mutex (pending : list loc) (locked : bool)
| RecursiveMutex (pending : list loc) (nlocked : Z) (owner : option loc)
| Cond (pending : list loc)
| FutureState (waiters : list loc) (state : future_state_t) (value_ref : Z)
| Promise (env : loc)             (* its environment holds the shared state *)
| Future (env : loc)
| Fiber (fiber : option loc) (join_in_progress : bool)
    (interruption_caught : option bool).

(** The fibers an object will wake up. *)
Definition pending (o : object) : list loc :=
  match o with
  | Mutex p _ | RecursiveMutex p _ _ | Cond p | FutureState p _ _ => p
  | Promise _ | Future _ | Fiber _ _ _ => []
  end.

(** [options::arguments]: the values a lambda resumes a fiber with; [ARef] is
    the [push_value] of a future, which reads the registry, [AValue] a number or
    what a pusher of an I/O module pushes. *)
Inductive argument : Set :=
| ABool (b : bool)
| AError (ec : error_code)
| ANil
| ARef (ref : Z)
| AValue (v : lua_value).

(** The set of options of a call of [fiber_resume]. *)
Record options : Set := Options {
  skip_clear_interrupter : bool;
  auto_detect_interrupt : bool;
  fast_auto_detect_interrupt : bool;
  arguments : list argument;
}.
Definition no_options : options := Options false false false [].
Definition skip_clear : options := Options true false false [].
Definition with_arguments (args : list argument) : options :=
  Options false false false args.

(** A posted lambda: [vm_ctx->fiber_resume(fiber, opts)]. *)
Record task : Set := FiberResume { task_fiber : loc; task_options : options }.

Record vm_context : Set := Vm {
  valid_ : bool;
  L_ : loc;
  current_fiber_ : loc;
  async_event_thread_ : loc;
  lua_errmem : bool;
  exit_request : bool;
  failed_cleanup_handler_coro : option loc;
  suppress_tail_errors : bool;
  deadlock_errors : list loc;     (* the objects the messages are about *)
  panics : list loc;              (* the fibers [print_panic] reported *)
  inbox_open : bool;
  inbox_imported : bool;
  threads : gmap loc co_status;
  fiber_list : gmap loc fiber_data;
  objects : gmap loc object;
  strand : list task;
  registry : gmap Z lua_value;
  next_loc : loc;                 (* the address of the next object *)
}.

(** * Field updates *)
Definition with_joiner (f : joiner_t → joiner_t) (d : fiber_data) : fiber_data
    :=
  FiberData (f (joiner d)) (status d) (suspension_disallowed d) (local_storage
    d) (interruption_disabled d) (interrupted d) (interrupter d)
    (asio_cancellation_signal d) (user_handle d) (module_path d).
Definition with_status (f : option fiber_status → option fiber_status) (d :
    fiber_data) : fiber_data :=
  FiberData (joiner d) (f (status d)) (suspension_disallowed d) (local_storage
    d) (interruption_disabled d) (interrupted d) (interrupter d)
    (asio_cancellation_signal d) (user_handle d) (module_path d).
Definition with_suspension_disallowed (f : Z → Z) (d : fiber_data) : fiber_data
    :=
  FiberData (joiner d) (status d) (f (suspension_disallowed d)) (local_storage
    d) (interruption_disabled d) (interrupted d) (interrupter d)
    (asio_cancellation_signal d) (user_handle d) (module_path d).
Definition with_local_storage (f : option loc → option loc) (d : fiber_data) :
    fiber_data :=
  FiberData (joiner d) (status d) (suspension_disallowed d) (f (local_storage
    d)) (interruption_disabled d) (interrupted d) (interrupter d)
    (asio_cancellation_signal d) (user_handle d) (module_path d).
Definition with_interruption_disabled (f : disabled_t → disabled_t) (d :
    fiber_data) : fiber_data :=
  FiberData (joiner d) (status d) (suspension_disallowed d) (local_storage d)
    (f (interruption_disabled d)) (interrupted d) (interrupter d)
    (asio_cancellation_signal d) (user_handle d) (module_path d).
Definition with_interrupted (f : bool → bool) (d : fiber_data) : fiber_data :=
  FiberData (joiner d) (status d) (suspension_disallowed d) (local_storage d)
    (interruption_disabled d) (f (interrupted d)) (interrupter d)
    (asio_cancellation_signal d) (user_handle d) (module_path d).
Definition with_interrupter (f : option interrupter_t → option interrupter_t)
    (d : fiber_data) : fiber_data :=
  FiberData (joiner d) (status d) (suspension_disallowed d) (local_storage d)
    (interruption_disabled d) (interrupted d) (f (interrupter d))
    (asio_cancellation_signal d) (user_handle d) (module_path d).
Definition with_user_handle (f : option loc → option loc) (d : fiber_data) :
    fiber_data :=
  FiberData (joiner d) (status d) (suspension_disallowed d) (local_storage d)
    (interruption_disabled d) (interrupted d) (interrupter d)
    (asio_cancellation_signal d) (f (user_handle d)) (module_path d).
Definition with_valid (f : bool → bool) (vm : vm_context) : vm_context :=
  Vm (f (valid_ vm)) (L_ vm) (current_fiber_ vm) (async_event_thread_ vm)
    (lua_errmem vm) (exit_request vm) (failed_cleanup_handler_coro vm)
    (suppress_tail_errors vm) (deadlock_errors vm) (panics vm) (inbox_open vm)
    (inbox_imported vm) (threads vm) (fiber_list vm) (objects vm) (strand vm)
    (registry vm) (next_loc vm).
Definition with_current_fiber (f : loc → loc) (vm : vm_context) : vm_context :=
  Vm (valid_ vm) (L_ vm) (f (current_fiber_ vm)) (async_event_thread_ vm)
    (lua_errmem vm) (exit_request vm) (failed_cleanup_handler_coro vm)
    (suppress_tail_errors vm) (deadlock_errors vm) (panics vm) (inbox_open vm)
    (inbox_imported vm) (threads vm) (fiber_list vm) (objects vm) (strand vm)
    (registry vm) (next_loc vm).
Definition with_lua_errmem (f : bool → bool) (vm : vm_context) : vm_context :=
  Vm (valid_ vm) (L_ vm) (current_fiber_ vm) (async_event_thread_ vm) (f
    (lua_errmem vm)) (exit_request vm) (failed_cleanup_handler_coro vm)
    (suppress_tail_errors vm) (deadlock_errors vm) (panics vm) (inbox_open vm)
    (inbox_imported vm) (threads vm) (fiber_list vm) (objects vm) (strand vm)
    (registry vm) (next_loc vm).
Definition with_exit_request (f : bool → bool) (vm : vm_context) : vm_context
    :=
  Vm (valid_ vm) (L_ vm) (current_fiber_ vm) (async_event_thread_ vm)
    (lua_errmem vm) (f (exit_request vm)) (failed_cleanup_handler_coro vm)
    (suppress_tail_errors vm) (deadlock_errors vm) (panics vm) (inbox_open vm)
    (inbox_imported vm) (threads vm) (fiber_list vm) (objects vm) (strand vm)
    (registry vm) (next_loc vm).
Definition with_failed_cleanup_handler_coro (f : option loc → option loc) (vm :
    vm_context) : vm_context :=
  Vm (valid_ vm) (L_ vm) (current_fiber_ vm) (async_event_thread_ vm)
    (lua_errmem vm) (exit_request vm) (f (failed_cleanup_handler_coro vm))
    (suppress_tail_errors vm) (deadlock_errors vm) (panics vm) (inbox_open vm)
    (inbox_imported vm) (threads vm) (fiber_list vm) (objects vm) (strand vm)
    (registry vm) (next_loc vm).
Definition with_suppress_tail_errors (f : bool → bool) (vm : vm_context) :
    vm_context :=
  Vm (valid_ vm) (L_ vm) (current_fiber_ vm) (async_event_thread_ vm)
    (lua_errmem vm) (exit_request vm) (failed_cleanup_handler_coro vm) (f
    (suppress_tail_errors vm)) (deadlock_errors vm) (panics vm) (inbox_open vm)
    (inbox_imported vm) (threads vm) (fiber_list vm) (objects vm) (strand vm)
    (registry vm) (next_loc vm).
Definition with_deadlock_errors (f : list loc → list loc) (vm : vm_context) :
    vm_context :=
  Vm (valid_ vm) (L_ vm) (current_fiber_ vm) (async_event_thread_ vm)
    (lua_errmem vm) (exit_request vm) (failed_cleanup_handler_coro vm)
    (suppress_tail_errors vm) (f (deadlock_errors vm)) (panics vm) (inbox_open
    vm) (inbox_imported vm) (threads vm) (fiber_list vm) (objects vm) (strand
    vm) (registry vm) (next_loc vm).
Definition with_panics (f : list loc → list loc) (vm : vm_context) : vm_context
    :=
  Vm (valid_ vm) (L_ vm) (current_fiber_ vm) (async_event_thread_ vm)
    (lua_errmem vm) (exit_request vm) (failed_cleanup_handler_coro vm)
    (suppress_tail_errors vm) (deadlock_errors vm) (f (panics vm)) (inbox_open
    vm) (inbox_imported vm) (threads vm) (fiber_list vm) (objects vm) (strand
    vm) (registry vm) (next_loc vm).
Definition with_inbox_open (f : bool → bool) (vm : vm_context) : vm_context :=
  Vm (valid_ vm) (L_ vm) (current_fiber_ vm) (async_event_thread_ vm)
    (lua_errmem vm) (exit_request vm) (failed_cleanup_handler_coro vm)
    (suppress_tail_errors vm) (deadlock_errors vm) (panics vm) (f (inbox_open
    vm)) (inbox_imported vm) (threads vm) (fiber_list vm) (objects vm) (strand
    vm) (registry vm) (next_loc vm).
Definition with_threads (f : gmap loc co_status → gmap loc co_status) (vm :
    vm_context) : vm_context :=
  Vm (valid_ vm) (L_ vm) (current_fiber_ vm) (async_event_thread_ vm)
    (lua_errmem vm) (exit_request vm) (failed_cleanup_handler_coro vm)
    (suppress_tail_errors vm) (deadlock_errors vm) (panics vm) (inbox_open vm)
    (inbox_imported vm) (f (threads vm)) (fiber_list vm) (objects vm) (strand
    vm) (registry vm) (next_loc vm).
Definition with_fiber_list (f : gmap loc fiber_data → gmap loc fiber_data) (vm
    : vm_context) : vm_context :=
  Vm (valid_ vm) (L_ vm) (current_fiber_ vm) (async_event_thread_ vm)
    (lua_errmem vm) (exit_request vm) (failed_cleanup_handler_coro vm)
    (suppress_tail_errors vm) (deadlock_errors vm) (panics vm) (inbox_open vm)
    (inbox_imported vm) (threads vm) (f (fiber_list vm)) (objects vm) (strand
    vm) (registry vm) (next_loc vm).
Definition with_objects (f : gmap loc object → gmap loc object) (vm :
    vm_context) : vm_context :=
  Vm (valid_ vm) (L_ vm) (current_fiber_ vm) (async_event_thread_ vm)
    (lua_errmem vm) (exit_request vm) (failed_cleanup_handler_coro vm)
    (suppress_tail_errors vm) (deadlock_errors vm) (panics vm) (inbox_open vm)
    (inbox_imported vm) (threads vm) (fiber_list vm) (f (objects vm)) (strand
    vm) (registry vm) (next_loc vm).
Definition with_strand (f : list task → list task) (vm : vm_context) :
    vm_context :=
  Vm (valid_ vm) (L_ vm) (current_fiber_ vm) (async_event_thread_ vm)
    (lua_errmem vm) (exit_request vm) (failed_cleanup_handler_coro vm)
    (suppress_tail_errors vm) (deadlock_errors vm) (panics vm) (inbox_open vm)
    (inbox_imported vm) (threads vm) (fiber_list vm) (objects vm) (f (strand
    vm)) (registry vm) (next_loc vm).
Definition with_registry (f : gmap Z lua_value → gmap Z lua_value) (vm :
    vm_context) : vm_context :=
  Vm (valid_ vm) (L_ vm) (current_fiber_ vm) (async_event_thread_ vm)
    (lua_errmem vm) (exit_request vm) (failed_cleanup_handler_coro vm)
    (suppress_tail_errors vm) (deadlock_errors vm) (panics vm) (inbox_open vm)
    (inbox_imported vm) (threads vm) (fiber_list vm) (objects vm) (strand vm)
    (f (registry vm)) (next_loc vm).
Definition with_next_loc (f : loc → loc) (vm : vm_context) : vm_context :=
  Vm (valid_ vm) (L_ vm) (current_fiber_ vm) (async_event_thread_ vm)
    (lua_errmem vm) (exit_request vm) (failed_cleanup_handler_coro vm)
    (suppress_tail_errors vm) (deadlock_errors vm) (panics vm) (inbox_open vm)
    (inbox_imported vm) (threads vm) (fiber_list vm) (objects vm) (strand vm)
    (registry vm) (f (next_loc vm)).

Definition set_row (f : loc) (g : fiber_data → fiber_data) (vm : vm_context) :
    vm_context :=
  with_fiber_list (alter g f) vm.
Definition set_object (o : loc) (x : object) (vm : vm_context) : vm_context :=
  with_objects <[o := x]> vm.
Definition set_thread (f : loc) (s : co_status) (vm : vm_context) : vm_context :=
  with_threads <[f := s]> vm.

Definition running (vm : vm_context) (f : loc) : Prop :=
  ∃ args, threads vm !! f = Some (CoRunning args).

(** [strand().post(..)]: the task runs after those posted before. *)
Definition post (f : loc) (opts : options) (vm : vm_context) : vm_context :=
  with_strand (λ q, q ++ [FiberResume f opts]) vm.

(** [lua_newuserdata] and its metatable. *)
Definition new_object (x : object) (vm : vm_context) : vm_context * loc :=
  (with_next_loc S (set_object (next_loc vm) x vm), next_loc vm).

(** The object at index [i], when it is a userdata. *)
Definition object_at (L : lua_args) (i : nat) (vm : vm_context) :
    option (loc * object) :=
  match arg L i with
  | Some (LUserdata u) => (λ o, (u, o)) <$> objects vm !! u
  | _ => None
  end.

(** The answer of a handler: the values it returns, or an error. *)
Inductive answer : Set :=
| Return (vs : list rvalue)
| Error (e : rvalue) (info : option err_info)
| ErrorString (s : string)
| Yield
| Stuck.                          (* a failed [assert], a dangling pointer *)

Definition error (ec : error_code) : answer := Error (RE ec) None.
Definition error_arg (ec : error_code) (i : Z) : answer := Error (RE ec) (Some (Arg i)).
Definition error_index : answer := Error (RE Core.bad_index) (Some (Index 2)).

(** * Suspension and interruption *)

Definition is_disabled (d : disabled_t) : bool :=
  match d with DBoolean b => b | DNumber n => bool_decide (n > 0)%Z end.

(** [detail::unsafe_can_suspend]: [None] when the current fiber may. *)
Definition unsafe_can_suspend (vm : vm_context) : option answer :=
  let current_fiber := current_fiber_ vm in
  if decide (current_fiber = async_event_thread_ vm) then
    Some (ErrorString "attempt to suspend a system fiber")
  else
    match fiber_list vm !! current_fiber with
    | None => Some Stuck
    | Some row =>
        if decide (suspension_disallowed row ≠ 0)%Z then
          Some (error Core.forbid_suspend_block)
        else if is_disabled (interruption_disabled row) then None
        else if interrupted row then Some (error Core.interrupted)
        else None
    end.

(** [detail::unsafe_can_suspend2]: the same, assuming interruption is
    disabled. *)
Definition unsafe_can_suspend2 (vm : vm_context) : option answer :=
  let current_fiber := current_fiber_ vm in
  if decide (current_fiber = async_event_thread_ vm) then
    Some (ErrorString "attempt to suspend a system fiber")
  else
    match fiber_list vm !! current_fiber with
    | None => Some Stuck
    | Some row =>
        if decide (suspension_disallowed row ≠ 0)%Z then
          Some (error Core.forbid_suspend_block)
        else None
    end.

(** [EMILUA_CHECK_SUSPEND_ALLOWED(vm_ctx, L)] and its variant. *)
Notation "'check_suspend_allowed' vm ';' k" :=
  (match unsafe_can_suspend vm with Some e => (vm, e) | None => k end)
  (at level 10, vm at level 0, k at level 200).
Notation "'check_suspend_allowed2' vm ';' k" :=
  (match unsafe_can_suspend2 vm with Some e => (vm, e) | None => k end)
  (at level 10, vm at level 0, k at level 200).

(** [set_interrupter]: nothing is set while interruption is disabled. *)
Definition set_interrupter (i : option interrupter_t) (vm : vm_context) : vm_context :=
  set_row (current_fiber_ vm)
    (λ row, if is_disabled (interruption_disabled row) then row
            else with_interrupter (λ _, i) row) vm.

(** [set_default_interrupter]: the slot of the fiber's signal. *)
Definition set_default_interrupter (vm : vm_context) : vm_context * option loc :=
  match fiber_list vm !! current_fiber_ vm with
  | Some row =>
      if is_disabled (interruption_disabled row) then (vm, None)
      else
        (set_row (current_fiber_ vm)
           (with_interrupter (λ _, IEmitSignal <$> asio_cancellation_signal row)) vm,
         asio_cancellation_signal row)
  | None => (vm, None)
  end.

(** * Life and death *)

Definition notify_errmem (vm : vm_context) : vm_context := with_lua_errmem (λ _, true) vm.
Definition notify_exit_request (vm : vm_context) : vm_context :=
  with_exit_request (λ _, true) vm.
Definition notify_deadlock (o : loc) (vm : vm_context) : vm_context :=
  with_deadlock_errors (λ l, l ++ [o]) vm.
Definition notify_cleanup_error (coro : loc) (vm : vm_context) : vm_context :=
  with_failed_cleanup_handler_coro (λ _, Some coro) vm.

Definition is_closing (vm : vm_context) : bool :=
  lua_errmem vm || bool_decide (is_Some (failed_cleanup_handler_coro vm))
  || exit_request vm.

(** [close], after which nothing of the Lua state is left. *)
Definition close (vm : vm_context) : vm_context :=
  with_inbox_open (λ _, false)
    (with_objects (λ _, ∅) (with_fiber_list (λ _, ∅) (with_threads (λ _, ∅)
      (with_valid (λ _, false) vm)))).

(** [fiber_epilogue(LUA_YIELD)], and the checks before every epilogue. *)
Definition epilogue_yield (vm : vm_context) : vm_context :=
  if is_closing vm then close vm else vm.

Definition is_interrupted (r : result) : bool :=
  match r with
  | Failed e => bool_decide (e = RE Core.interrupted)
  | Finished _ => false
  end.

(** What a joiner is resumed with: [true] and the values, [false] and the
    error, or [true] alone when the fiber was interrupted. *)
Definition join_values (r : result) : list rvalue :=
  match r with
  | Finished vs => RV (LBoolean true) :: vs
  | Failed e =>
      if is_interrupted r then [RV (LBoolean true)]
      else [RV (LBoolean false); e]
  end.

Definition status_of (r : result) : fiber_status :=
  match r with Finished _ => FINISHED_SUCCESSFULLY | Failed _ => FINISHED_WITH_ERROR end.

Definition panic_unless_interrupted (f : loc) (r : result) (is_main : bool)
    (vm : vm_context) : vm_context :=
  match r with
  | Failed _ =>
      if negb (is_interrupted r) || is_main
      then with_panics (λ l, l ++ [f]) vm else vm
  | Finished _ => vm
  end.

(** [fiber_epilogue(0)] and [fiber_epilogue(LUA_ERRRUN)]: the current fiber
    ended.  The last call of the joined case, [lua_resume(joiner, ..)], leaves
    the joiner running. *)
Definition fiber_epilogue (r : result) (vm : vm_context) : vm_context :=
  if is_closing vm then close vm
  else
    let f := current_fiber_ vm in
    let vm := set_thread f (CoDead r) vm in
    match fiber_list vm !! f with
    | None => vm
    | Some row =>
        match joiner row with
        | JDetached =>
            let is_main := bool_decide (L_ vm = f) in
            let vm :=
              if is_main && negb (inbox_imported vm)
              then with_inbox_open (λ _, false) vm else vm in
            let vm := panic_unless_interrupted f r is_main vm in
            if is_main && (match r with Failed _ => true | Finished _ => false end)
            then close (with_suppress_tail_errors (λ _, true) vm)
            else with_fiber_list (delete f) vm
        | JThread j =>
            let vm := set_row f (with_status (λ _, Some (status_of r))) vm in
            let vm :=
              match user_handle row with
              | Some h =>
                  match objects vm !! h with
                  | Some (Fiber _ jip _) =>
                      set_object h (Fiber None jip (Some (is_interrupted r))) vm
                  | _ => vm
                  end
              | None => vm
              end in
            let vm := with_current_fiber (λ _, j) vm in
            let vm := set_interrupter None vm in
            set_thread j (CoRunning (join_values r)) vm
        | JNone =>
            set_row f (with_status (λ _, Some (status_of r))) vm
        end
    end.

(** The value an argument of a resumption pushes. *)
Definition push_argument (f : loc) (opts : options) (vm : vm_context)
    (a : argument) : rvalue :=
  match a with
  | ABool b => RV (LBoolean b)
  | ANil => RV LNil
  | ARef ref => RV (default LNil (registry vm !! ref))
  | AValue v => RV v
  | AError ec =>
      let aborted := bool_decide (ec = Basic_code Asio.basic_errors.operation_aborted) in
      let was_interrupted :=
        match fiber_list vm !! f with Some row => interrupted row | None => false end in
      if auto_detect_interrupt opts then
        if aborted && was_interrupted then RE Core.interrupted else RE ec
      else if fast_auto_detect_interrupt opts then
        if aborted then RE Core.interrupted else RE ec
      else RE ec
  end.

(** [fiber_resume]: [None] when its assertion on the thread's status fails. *)
Definition fiber_resume (f : loc) (opts : options) (vm : vm_context) :
    option vm_context :=
  if valid_ vm then
    match threads vm !! f with
    | Some CoReady | Some CoSuspended =>
        let vm := with_current_fiber (λ _, f) vm in
        let args := push_argument f opts vm <$> arguments opts in
        let vm :=
          if skip_clear_interrupter opts then vm else set_interrupter None vm in
        Some (set_thread f (CoRunning args) vm)
    | _ => None
    end
  else Some vm.
