(* ===== verification/Sync.v ===== *)
(** The synchronisation primitives: [src/src/mutex.cpp],
    [src/src/recursive_mutex.cpp], [src/src/condition_variable.cpp] and
    [src/src/future.cpp], one module each.  Every handler takes the arguments
    of the Lua call and the VM, and gives the new VM and its answer. *)
From S2P Require Import Prelude Errors Lua Vm.

(** * [mutex] *)
Module Mutex.
Definition mutex_new (vm : vm_context) : vm_context * answer :=
  let '(vm, u) := new_object (Mutex [] false) vm in
  (vm, Return [RV (LUserdata u)]).

Definition mutex_lock (L : lua_args) (vm : vm_context) : vm_context * answer :=
  match object_at L 1 vm with
  | Some (u, Mutex pending locked) =>
      check_suspend_allowed2 vm;
      if locked : bool then
        (set_object u (Mutex (pending ++ [current_fiber_ vm]) locked) vm, Yield)
      else (set_object u (Mutex pending true) vm, Return [])
  | _ => (vm, error_arg invalid_argument 1)
  end.

Definition mutex_try_lock (L : lua_args) (vm : vm_context) : vm_context * answer :=
  match object_at L 1 vm with
  | Some (u, Mutex pending locked) =>
      if locked : bool then (vm, Return [RV (LBoolean false)])
      else (set_object u (Mutex pending true) vm, Return [RV (LBoolean true)])
  | _ => (vm, error_arg invalid_argument 1)
  end.

(** What [unlock] does to a locked mutex: the first pending fiber gets it, and
    is resumed later. *)
Definition release (u : loc) (pending : list loc) (vm : vm_context) : vm_context :=
  match pending with
  | [] => set_object u (Mutex [] false) vm
  | next :: pending => post next skip_clear (set_object u (Mutex pending true) vm)
  end.

Definition mutex_unlock (L : lua_args) (vm : vm_context) : vm_context * answer :=
  match object_at L 1 vm with
  | Some (u, Mutex pending locked) =>
      if locked : bool then (release u pending vm, Return [])
      else (vm, error operation_not_permitted)
  | _ => (vm, error_arg invalid_argument 1)
  end.

(** [~mutex_handle]. *)
Definition mutex_gc (u : loc) (vm : vm_context) : vm_context :=
  match objects vm !! u with
  | Some (Mutex pending _) =>
      let vm := if decide (length pending ≠ 0) then notify_deadlock u vm else vm in
      with_objects (delete u) vm
  | _ => vm
  end.

Inductive method : Set := unlock | lock | try_lock.
Definition mutex_mt_index `{LuaApi} (L : lua_args) : answer + method :=
  match gperf [(lit "unlock", unlock); (lit "lock", lock);
               (lit "try_lock", try_lock)] (tostringview (arg L 2)) with
  | Some m => inr m
  | None => inl error_index
  end.
End Mutex.

(** * [recursive_mutex] *)
Module RecursiveMutex.
Definition recursive_mutex_new (vm : vm_context) : vm_context * answer :=
  let '(vm, u) := new_object (RecursiveMutex [] 0 None) vm in
  (vm, Return [RV (LUserdata u)]).

Definition recursive_mutex_lock (L : lua_args) (vm : vm_context) :
    vm_context * answer :=
  match object_at L 1 vm with
  | Some (u, RecursiveMutex pending nlocked owner) =>
      let current_fiber := current_fiber_ vm in
      check_suspend_allowed2 vm;
      match owner with
      | Some f =>
          if decide (f = current_fiber) then
            if decide (nlocked = size_max) then (vm, error value_too_large)
            else (set_object u (RecursiveMutex pending (nlocked + 1) owner) vm,
                  Return [])
          else
            (set_object u
               (RecursiveMutex (pending ++ [current_fiber]) nlocked owner) vm,
             Yield)
      | None =>
          (set_object u (RecursiveMutex pending 1 (Some current_fiber)) vm, Return [])
      end
  | _ => (vm, error_arg invalid_argument 1)
  end.

Definition recursive_mutex_try_lock (L : lua_args) (vm : vm_context) :
    vm_context * answer :=
  match object_at L 1 vm with
  | Some (u, RecursiveMutex pending nlocked owner) =>
      let current_fiber := current_fiber_ vm in
      match owner with
      | Some f =>
          if decide (f = current_fiber) then
            if decide (nlocked = size_max) then (vm, error value_too_large)
            else (set_object u (RecursiveMutex pending (nlocked + 1) owner) vm,
                  Return [RV (LBoolean true)])
          else (vm, Return [RV (LBoolean false)])
      | None =>
          (set_object u (RecursiveMutex pending 1 (Some current_fiber)) vm,
           Return [RV (LBoolean true)])
      end
  | _ => (vm, error_arg invalid_argument 1)
  end.

Definition recursive_mutex_unlock (L : lua_args) (vm : vm_context) :
    vm_context * answer :=
  match object_at L 1 vm with
  | Some (u, RecursiveMutex pending nlocked owner) =>
      if decide (owner = Some (current_fiber_ vm)) then
        let nlocked := (nlocked - 1)%Z in
        if decide (nlocked ≠ 0)%Z then
          (set_object u (RecursiveMutex pending nlocked owner) vm, Return [])
        else
          match pending with
          | [] => (set_object u (RecursiveMutex [] nlocked None) vm, Return [])
          | next :: pending =>
              (post next skip_clear
                 (set_object u (RecursiveMutex pending 1 (Some next)) vm),
               Return [])
          end
      else (vm, error operation_not_permitted)
  | _ => (vm, error_arg invalid_argument 1)
  end.

Inductive method : Set := lock | try_lock | unlock.
Definition recursive_mutex_mt_index `{LuaApi} (L : lua_args) : answer + method :=
  match gperf [(lit "lock", lock); (lit "try_lock", try_lock);
               (lit "unlock", unlock)] (tostringview (arg L 2)) with
  | Some m => inr m
  | None => inl error_index
  end.
End RecursiveMutex.

(** * [condition_variable] *)
Module ConditionVariable.
Definition cond_new (vm : vm_context) : vm_context * answer :=
  let '(vm, u) := new_object (Cond []) vm in
  (vm, Return [RV (LUserdata u)]).

(** The error for a bad second argument carries the index 1 when the value is
    no userdata, 2 when it is a userdata with another metatable. *)
Definition bad_mutex_arg (L : lua_args) : answer :=
  match arg L 2 with
  | Some (LUserdata _) => error_arg invalid_argument 2
  | _ => error_arg invalid_argument 1
  end.

Definition cond_wait (L : lua_args) (vm : vm_context) : vm_context * answer :=
  match object_at L 1 vm with
  | Some (c, Cond pending) =>
      match object_at L 2 vm with
      | Some (m, Mutex mutex_pending locked) =>
          if locked : bool then
            check_suspend_allowed vm;
            let current_fiber := current_fiber_ vm in
            let vm := set_interrupter (Some (ICond c current_fiber)) vm in
            let vm := set_object c (Cond (pending ++ [current_fiber])) vm in
            (Mutex.release m mutex_pending vm, Yield)
          else (vm, error operation_not_permitted)
      | _ => (vm, bad_mutex_arg L)
      end
  | _ => (vm, error_arg invalid_argument 1)
  end.

(** Take out the first [f], as [erase(std::find(..))] does. *)
Fixpoint erase (f : loc) (l : list loc) : list loc :=
  match l with
  | [] => []
  | g :: l' => if decide (f = g) then l' else g :: erase f l'
  end.

(** The interrupter of [cond_wait]. *)
Definition cond_interrupter (handle current_fiber : loc) (vm : vm_context) :
    vm_context :=
  match objects vm !! handle with
  | Some (Cond pending) =>
      if decide (current_fiber ∈ pending) then
        post current_fiber (with_arguments [AError Core.interrupted])
          (set_object handle (Cond (erase current_fiber pending)) vm)
      else vm
  | _ => vm
  end.

Definition cond_notify_one (L : lua_args) (vm : vm_context) : vm_context * answer :=
  match object_at L 1 vm with
  | Some (u, Cond []) => (vm, Return [])
  | Some (u, Cond (next :: pending)) =>
      (post next no_options (set_object u (Cond pending) vm), Return [])
  | _ => (vm, error_arg invalid_argument 1)
  end.

(** [for (auto& p: pending) post(..)]. *)
Definition post_all (fs : list loc) (opts : options) (vm : vm_context) : vm_context :=
  with_strand (λ q, q ++ ((λ f, FiberResume f opts) <$> fs)) vm.

Definition cond_notify_all (L : lua_args) (vm : vm_context) : vm_context * answer :=
  match object_at L 1 vm with
  | Some (u, Cond pending) =>
      (set_object u (Cond []) (post_all pending no_options vm), Return [])
  | _ => (vm, error_arg invalid_argument 1)
  end.

Inductive method : Set := notify_all | wait | notify_one.
Definition cond_mt_index `{LuaApi} (L : lua_args) : answer + method :=
  match gperf [(lit "notify_all", notify_all); (lit "wait", wait);
               (lit "notify_one", notify_one)] (tostringview (arg L 2)) with
  | Some m => inr m
  | None => inl error_index
  end.
End ConditionVariable.

(** * [future] *)
Module Future.
Import ConditionVariable.

Definition LUA_NOREF : Z := -2.
Definition LUA_REFNIL : Z := -1.

(** [luaL_ref]: the reference of [nil] is [LUA_REFNIL], others are new. *)
Definition luaL_ref (v : lua_value) (vm : vm_context) : vm_context * Z :=
  if decide (v = LNil) then (vm, LUA_REFNIL)
  else
    let ref := (fold_right Z.max 0 (map_to_list (registry vm)).*1 + 1)%Z in
    (with_registry <[ref := v]> vm, ref).
Definition luaL_unref (ref : Z) (vm : vm_context) : vm_context :=
  if decide (0 ≤ ref)%Z then with_registry (delete ref) vm else vm.

Definition future_new (vm : vm_context) : vm_context * answer :=
  let '(vm, s) := new_object (FutureState [] empty LUA_NOREF) vm in
  let '(vm, p) := new_object (Promise s) vm in
  let '(vm, f) := new_object (Future s) vm in
  (vm, Return [RV (LUserdata p); RV (LUserdata f)]).

Definition promise_set_value (L : lua_args) (vm : vm_context) : vm_context * answer :=
  let L := settop 2 L in
  match object_at L 1 vm with
  | Some (_, Promise s) =>
      match objects vm !! s with
      | Some (FutureState waiters state _) =>
          if decide (state ≠ empty) then (vm, error Core.promise_already_satisfied)
          else
            let '(vm, value_ref) := luaL_ref (default LNil (arg L 2)) vm in
            let vm := post_all waiters (with_arguments [ANil; ARef value_ref]) vm in
            (set_object s (FutureState [] value_ready value_ref) vm, Return [])
      | _ => (vm, Stuck)
      end
  | _ => (vm, error_arg invalid_argument 1)
  end.

Definition promise_set_error (L : lua_args) (vm : vm_context) : vm_context * answer :=
  let L := settop 2 L in
  match object_at L 1 vm with
  | Some (_, Promise s) =>
      if decide (default LNil (arg L 2) = LNil) then
        (vm, error_arg invalid_argument 2)
      else
        match objects vm !! s with
        | Some (FutureState waiters state _) =>
            if decide (state ≠ empty) then (vm, error Core.promise_already_satisfied)
            else
              let '(vm, value_ref) := luaL_ref (default LNil (arg L 2)) vm in
              let vm := post_all waiters (with_arguments [ARef value_ref]) vm in
              (set_object s (FutureState [] error_ready value_ref) vm, Return [])
        | _ => (vm, Stuck)
        end
  | _ => (vm, error_arg invalid_argument 1)
  end.

(** [promise_mt_gc] while the VM lives: the state becomes [broken] whatever it
    was. *)
Definition promise_mt_gc (p : loc) (vm : vm_context) : vm_context :=
  match objects vm !! p with
  | Some (Promise s) =>
      match objects vm !! s with
      | Some (FutureState waiters _ value_ref) =>
          let vm := post_all waiters (with_arguments [AError Core.broken_promise]) vm in
          with_objects (delete p) (set_object s (FutureState [] broken value_ref) vm)
      | _ => vm
      end
  | _ => vm
  end.

Definition future_get (L : lua_args) (vm : vm_context) : vm_context * answer :=
  match object_at L 1 vm with
  | Some (_, Future s) =>
      let current_fiber := current_fiber_ vm in
      check_suspend_allowed vm;
      match objects vm !! s with
      | Some (FutureState waiters state value_ref) =>
          let value := RV (default LNil (registry vm !! value_ref)) in
          match state with
          | broken => (vm, error Core.broken_promise)
          | value_ready => (vm, Return [RV LNil; value])
          | error_ready => (vm, Error value None)
          | empty =>
              let vm := set_interrupter (Some (IFuture s current_fiber)) vm in
              (set_object s
                 (FutureState (waiters ++ [current_fiber]) state value_ref) vm,
               Yield)
          end
      | _ => (vm, Stuck)
      end
  | _ => (vm, error_arg invalid_argument 1)
  end.

(** The interrupter of [future_get]. *)
Definition future_interrupter (s current_fiber : loc) (vm : vm_context) : vm_context :=
  match objects vm !! s with
  | Some (FutureState waiters state value_ref) =>
      if decide (current_fiber ∈ waiters) then
        post current_fiber (with_arguments [AError Core.interrupted])
          (set_object s (FutureState (erase current_fiber waiters) state value_ref) vm)
      else vm
  | _ => vm
  end.

(** [future_mt_gc]: a future collected while fibers wait on it. *)
Definition future_mt_gc (f : loc) (vm : vm_context) : vm_context :=
  match objects vm !! f with
  | Some (Future s) =>
      let vm :=
        match objects vm !! s with
        | Some (FutureState waiters _ _) =>
            if decide (length waiters ≠ 0) then notify_deadlock f vm else vm
        | _ => vm
        end in
      with_objects (delete f) vm
  | _ => vm
  end.

(** [future_shared_state_mt_gc]. *)
Definition future_shared_state_mt_gc (s : loc) (vm : vm_context) : vm_context :=
  match objects vm !! s with
  | Some (FutureState _ state value_ref) =>
      let vm :=
        match state with
        | empty | broken => vm
        | value_ready | error_ready => luaL_unref value_ref vm
        end in
      with_objects (delete s) vm
  | _ => vm
  end.

Inductive method : Set := set_value | set_error.
Definition promise_mt_index `{LuaApi} (L : lua_args) : answer + method :=
  match gperf [(lit "set_value", set_value); (lit "set_error", set_error)]
          (tostringview (arg L 2)) with
  | Some m => inr m
  | None => inl error_index
  end.
Definition future_mt_index `{LuaApi} (L : lua_args) : answer + unit :=
  match gperf [(lit "get", tt)] (tostringview (arg L 2)) with
  | Some m => inr m
  | None => inl error_index
  end.
End Future.
