(* ===== verification/FiberOps.v ===== *)
(** The fiber module: [src/src/fiber.cpp] and [src/include/emilua/fiber.hpp].

    [spawn], the methods of a fiber handle and the functions of [this_fiber].
    A handle is the only way to a fiber from Lua; [join], [detach] and the
    handle's finalizer let go of it. *)
From S2P Require Import Prelude Errors Lua Vm Sync.

(** * Handles *)

(** The handle at index 1. *)
Definition fiber_arg (L : lua_args) (vm : vm_context) :
    option (loc * (option loc * bool * option bool)) :=
  match object_at L 1 vm with
  | Some (h, Fiber fiber jip caught) => Some (h, (fiber, jip, caught))
  | _ => None
  end.

(** [join]: wait for a running fiber, or take the values of a finished one. *)
Definition fiber_join (L : lua_args) (vm : vm_context) : vm_context * answer :=
  check_suspend_allowed vm;
  match fiber_arg L vm with
  | None => (vm, error_arg invalid_argument 1)
  | Some (h, (None, _, _)) => (vm, error_arg invalid_argument 1)
  | Some (h, (Some fiber, join_in_progress, caught)) =>
      let current_fiber := current_fiber_ vm in
      if join_in_progress : bool then (vm, error_arg invalid_argument 1)
      else if decide (fiber = current_fiber) then
        (vm, error resource_deadlock_would_occur)
      else
        match fiber_list vm !! fiber with
        | None => (vm, Stuck)
        | Some row =>
            match status row with
            | None =>
                let vm :=
                  set_row fiber
                    (λ row, with_user_handle (λ _, Some h)
                              (with_joiner (λ _, JThread current_fiber) row)) vm in
                let vm := set_interrupter (Some (IJoin h current_fiber fiber)) vm in
                (set_object h (Fiber (Some fiber) true caught) vm, Yield)
            | Some _ =>
                match threads vm !! fiber with
                | Some (CoDead r) =>
                    let vm := with_fiber_list (delete fiber) vm in
                    let vm := set_object h (Fiber None false (Some (is_interrupted r))) vm in
                    match r with
                    | Finished vs => (vm, Return (RV (LBoolean true) :: vs))
                    | Failed e =>
                        if is_interrupted r then (vm, Return [RV (LBoolean true)])
                        else (vm, Error e None)
                    end
                | _ => (vm, Stuck)
                end
            end
        end
  end.

(** The interrupter of [join]. *)
Definition join_interrupter (handle current_fiber fiber : loc) (vm : vm_context) :
    vm_context :=
  let vm :=
    set_row fiber
      (λ row, with_user_handle (λ _, None) (with_joiner (λ _, JNone) row)) vm in
  let vm :=
    match objects vm !! handle with
    | Some (Fiber fb _ caught) => set_object handle (Fiber fb false caught) vm
    | _ => vm
    end in
  post current_fiber (with_arguments [ABool false; AError Core.interrupted]) vm.

(** What [detach] and the finalizer do with the handle's fiber: a running one
    goes on without a joiner; a finished one is forgotten, and reported if it
    failed. *)
Definition let_go (h fiber : loc) (join_in_progress : bool) (caught : option bool)
    (vm : vm_context) : vm_context * bool :=
  match fiber_list vm !! fiber with
  | None => (vm, false)
  | Some row =>
      let vm :=
        match status row with
        | None => set_row fiber (with_joiner (λ _, JDetached)) vm
        | Some _ =>
            let vm :=
              match threads vm !! fiber with
              | Some (CoDead r) => panic_unless_interrupted fiber r false vm
              | _ => vm
              end in
            with_fiber_list (delete fiber) vm
        end in
      (set_object h (Fiber None join_in_progress caught) vm, true)
  end.

Definition fiber_detach (L : lua_args) (vm : vm_context) : vm_context * answer :=
  match fiber_arg L vm with
  | None => (vm, error_arg invalid_argument 1)
  | Some (h, (None, _, _)) => (vm, error_arg invalid_argument 1)
  | Some (h, (Some fiber, join_in_progress, caught)) =>
      if join_in_progress : bool then (vm, error_arg invalid_argument 1)
      else
        let '(vm, ok) := let_go h fiber join_in_progress caught vm in
        (vm, if ok : bool then Return [] else Stuck)
  end.

(** [__gc]: the handle is no longer reachable. *)
Definition fiber_mt_gc (h : loc) (vm : vm_context) : vm_context * answer :=
  match objects vm !! h with
  | Some (Fiber (Some fiber) join_in_progress caught) =>
      if join_in_progress : bool then
        (vm, if is_closing vm then Return [] else Stuck)
      else
        let '(vm, ok) := let_go h fiber join_in_progress caught vm in
        (vm, if ok : bool then Return [] else Stuck)
  | _ => (vm, Return [])
  end.

(** Call an interrupter.  The signal of an I/O operation is emitted, a timer,
    the wait for a process and the operations of a pipe are cancelled outside of
    the VM. *)
Definition call_interrupter (i : interrupter_t) (vm : vm_context) : vm_context :=
  match i with
  | ICond handle current_fiber => ConditionVariable.cond_interrupter handle current_fiber vm
  | IFuture state current_fiber => Future.future_interrupter state current_fiber vm
  | IJoin handle current_fiber fiber => join_interrupter handle current_fiber fiber vm
  | IEmitSignal _ | ITimer _ | ISubprocess _ | ICancel _ => vm
  end.

(** The interrupter [fiber_interrupt] calls, if it calls one. *)
Definition called_interrupter (L : lua_args) (vm : vm_context) : option interrupter_t :=
  match fiber_arg L vm with
  | Some (_, (Some fiber, _, _)) =>
      if decide (fiber = current_fiber_ vm) then None
      else fiber_list vm !! fiber ≫= interrupter
  | _ => None
  end.

Definition fiber_interrupt (L : lua_args) (vm : vm_context) : vm_context * answer :=
  match fiber_arg L vm with
  | None => (vm, error_arg invalid_argument 1)
  | Some (h, (None, _, _)) => (vm, Return [])
  | Some (h, (Some fiber, _, _)) =>
      match fiber_list vm !! fiber with
      | None => (vm, Stuck)
      | Some row =>
          let vm := set_row fiber (with_interrupted (λ _, true)) vm in
          if decide (fiber = current_fiber_ vm) then (vm, Return [])
          else
            match interrupter row with
            | None => (vm, Return [])
            | Some i =>
                (set_row fiber (with_interrupter (λ _, None)) (call_interrupter i vm),
                 Return [])
            end
      end
  end.

Definition fiber_interruption_caught (L : lua_args) (vm : vm_context) :
    vm_context * answer :=
  match fiber_arg L vm with
  | None => (vm, Stuck)
  | Some (_, (_, _, None)) => (vm, error invalid_argument)
  | Some (_, (_, _, Some caught)) => (vm, Return [RV (LBoolean caught)])
  end.

Definition fiber_joinable (L : lua_args) (vm : vm_context) : vm_context * answer :=
  match fiber_arg L vm with
  | None => (vm, Stuck)
  | Some (_, (fiber, join_in_progress, _)) =>
      (vm, Return [RV (LBoolean (bool_decide (is_Some fiber) && negb join_in_progress))])
  end.

(** [__index]: two methods are pushed for later, two properties are computed. *)
Inductive method : Set := join | detach | interrupt.
Inductive index_action : Set := Push (m : method) | InterruptionCaught | Joinable.
Definition fiber_mt_index `{LuaApi} (L : lua_args) (vm : vm_context) :
    (vm_context * answer) + method :=
  match gperf [(lit "join", Push join); (lit "detach", Push detach);
               (lit "interrupt", Push interrupt);
               (lit "interruption_caught", InterruptionCaught);
               (lit "joinable", Joinable)] (tostringview (arg L 2)) with
  | Some (Push m) => inr m
  | Some InterruptionCaught => inl (fiber_interruption_caught L vm)
  | Some Joinable => inl (fiber_joinable L vm)
  | None => inl (vm, error_index)
  end.

(** * [spawn] *)
Definition spawn (L : lua_args) (vm : vm_context) : vm_context * answer :=
  match arg L 1 with
  | Some (LFunction _) =>
      let new_fiber := next_loc vm in
      let signal := S new_fiber in
      let vm := with_next_loc (λ _, S (S new_fiber)) vm in
      let row :=
        FiberData JNone None 0 None (DNumber 0) false None (Some signal) None false in
      let vm := with_fiber_list <[new_fiber := row]> vm in
      let vm := set_thread new_fiber CoReady vm in
      let vm := post new_fiber skip_clear vm in
      let '(vm, h) := new_object (Fiber (Some new_fiber) false None) vm in
      (vm, Return [RV (LUserdata h)])
  | _ => (vm, ErrorString "bad argument #1 to 'spawn' (function expected)")
  end.

(** * [this_fiber] *)
Definition this_fiber_yield (vm : vm_context) : vm_context * answer :=
  check_suspend_allowed vm;
  (post (current_fiber_ vm) skip_clear vm, Yield).

(** The two counters of a row. *)
Inductive counter_t : Set := INTERRUPTION_DISABLED | SUSPENSION_DISALLOWED.

(** [lua_tointeger] of a counter: 0 for a boolean. *)
Definition counter_value (counter : counter_t) (row : fiber_data) : Z :=
  match counter with
  | INTERRUPTION_DISABLED =>
      match interruption_disabled row with DBoolean _ => 0 | DNumber n => n end
  | SUSPENSION_DISALLOWED => suspension_disallowed row
  end.
Definition set_counter (counter : counter_t) (n : Z) (row : fiber_data) : fiber_data :=
  match counter with
  | INTERRUPTION_DISABLED => with_interruption_disabled (λ _, DNumber n) row
  | SUSPENSION_DISALLOWED => with_suspension_disallowed (λ _, n) row
  end.

Definition increment_this_fiber_counter (counter : counter_t) (vm : vm_context) :
    vm_context * answer :=
  let current_fiber := current_fiber_ vm in
  if decide (current_fiber = async_event_thread_ vm) then (vm, Return [])
  else
    (set_row current_fiber
       (λ row, set_counter counter (counter_value counter row + 1) row) vm,
     Return []).

Definition decrement_this_fiber_counter (counter : counter_t) (e : Core.errc)
    (vm : vm_context) : vm_context * answer :=
  let current_fiber := current_fiber_ vm in
  if decide (current_fiber = async_event_thread_ vm) then (vm, Return [])
  else
    match fiber_list vm !! current_fiber with
    | None => (vm, Stuck)
    | Some row =>
        let count := counter_value counter row in
        if decide (count > 0)%Z then
          (set_row current_fiber (set_counter counter (count - 1)) vm, Return [])
        else (vm, error e)
    end.

Definition this_fiber_disable_interruption :=
  increment_this_fiber_counter INTERRUPTION_DISABLED.
Definition this_fiber_restore_interruption :=
  decrement_this_fiber_counter INTERRUPTION_DISABLED Core.interruption_already_allowed.
Definition this_fiber_forbid_suspend :=
  increment_this_fiber_counter SUSPENSION_DISALLOWED.
Definition this_fiber_allow_suspend :=
  decrement_this_fiber_counter SUSPENSION_DISALLOWED Core.suspension_already_allowed.

(** The fiber's own table, made on first use. *)
Definition this_fiber_local (vm : vm_context) : vm_context * answer :=
  match fiber_list vm !! current_fiber_ vm with
  | None => (vm, Stuck)
  | Some row =>
      match local_storage row with
      | Some t => (vm, Return [RV (LTable t)])
      | None =>
          let t := next_loc vm in
          (set_row (current_fiber_ vm) (with_local_storage (λ _, Some t))
             (with_next_loc S vm),
           Return [RV (LTable t)])
      end
  end.

Definition this_fiber_is_main (vm : vm_context) : vm_context * answer :=
  match fiber_list vm !! current_fiber_ vm with
  | None => (vm, Stuck)
  | Some row => (vm, Return [RV (LBoolean (module_path row))])
  end.

(** The identity behind the text [this_fiber.id] returns. *)
Definition this_fiber_id (vm : vm_context) : option loc :=
  (λ row, if module_path row then L_ vm else current_fiber_ vm) <$>
    fiber_list vm !! current_fiber_ vm.

Inductive this_fiber_method : Set :=
| m_yield | m_restore_interruption | m_disable_interruption
| m_allow_suspend | m_forbid_suspend.
Inductive this_fiber_action : Set :=
| PushM (m : this_fiber_method) | Local | IsMain | Id.
Definition this_fiber_mt_index `{LuaApi} (L : lua_args) : answer + this_fiber_action :=
  match gperf [(lit "yield", PushM m_yield);
               (lit "restore_interruption", PushM m_restore_interruption);
               (lit "disable_interruption", PushM m_disable_interruption);
               (lit "allow_suspend", PushM m_allow_suspend);
               (lit "forbid_suspend", PushM m_forbid_suspend);
               (lit "local_", Local); (lit "is_main", IsMain); (lit "id", Id)]
          (tostringview (arg L 2)) with
  | Some a => inr a
  | None => inl error_index
  end.
