(* ===== verification/Scheduler.v ===== *)
(** The scheduler: what a VM does, as a step relation, and what it promises.

    Fibers run one at a time.  A step is a call the running fiber makes, its
    end, a task taken from the strand, or an object collected by Lua.  The
    promise is stated over an abstract scheduler that only knows, for each
    fiber, the one place it waits in: [Schedule.move]. *)
From S2P Require Import Prelude Errors Lua Vm Sync FiberOps.

(** * The calls of a fiber *)
Inductive operation : Set :=
| MutexNew | MutexLock | MutexTryLock | MutexUnlock
| RecursiveMutexNew | RecursiveMutexLock | RecursiveMutexTryLock
| RecursiveMutexUnlock
| CondNew | CondWait | CondNotifyOne | CondNotifyAll
| FutureNew | PromiseSetValue | PromiseSetError | FutureGet
| FiberJoin | FiberDetach | FiberInterrupt | FiberInterruptionCaught
| FiberJoinable | Spawn
| ThisYield | ThisDisableInterruption | ThisRestoreInterruption
| ThisForbidSuspend | ThisAllowSuspend | ThisLocal | ThisIsMain.

Definition call (op : operation) (L : lua_args) (vm : vm_context) :
    vm_context * answer :=
  match op with
  | MutexNew => Mutex.mutex_new vm
  | MutexLock => Mutex.mutex_lock L vm
  | MutexTryLock => Mutex.mutex_try_lock L vm
  | MutexUnlock => Mutex.mutex_unlock L vm
  | RecursiveMutexNew => RecursiveMutex.recursive_mutex_new vm
  | RecursiveMutexLock => RecursiveMutex.recursive_mutex_lock L vm
  | RecursiveMutexTryLock => RecursiveMutex.recursive_mutex_try_lock L vm
  | RecursiveMutexUnlock => RecursiveMutex.recursive_mutex_unlock L vm
  | CondNew => ConditionVariable.cond_new vm
  | CondWait => ConditionVariable.cond_wait L vm
  | CondNotifyOne => ConditionVariable.cond_notify_one L vm
  | CondNotifyAll => ConditionVariable.cond_notify_all L vm
  | FutureNew => Future.future_new vm
  | PromiseSetValue => Future.promise_set_value L vm
  | PromiseSetError => Future.promise_set_error L vm
  | FutureGet => Future.future_get L vm
  | FiberJoin => fiber_join L vm
  | FiberDetach => fiber_detach L vm
  | FiberInterrupt => fiber_interrupt L vm
  | FiberInterruptionCaught => fiber_interruption_caught L vm
  | FiberJoinable => fiber_joinable L vm
  | Spawn => spawn L vm
  | ThisYield => this_fiber_yield vm
  | ThisDisableInterruption => this_fiber_disable_interruption vm
  | ThisRestoreInterruption => this_fiber_restore_interruption vm
  | ThisForbidSuspend => this_fiber_forbid_suspend vm
  | ThisAllowSuspend => this_fiber_allow_suspend vm
  | ThisLocal => this_fiber_local vm
  | ThisIsMain => this_fiber_is_main vm
  end.

(** The properties of a handle are computed on a handle: [__index] is only
    called on one. *)
Definition callable (op : operation) (L : lua_args) (vm : vm_context) : Prop :=
  match op with
  | FiberInterruptionCaught | FiberJoinable => is_Some (fiber_arg L vm)
  | _ => True
  end.

Definition is_running (vm : vm_context) : Prop :=
  ∃ args, threads vm !! current_fiber_ vm = Some (CoRunning args).
Definition idle (vm : vm_context) : Prop :=
  ∀ f args, threads vm !! f ≠ Some (CoRunning args).

(** A call that yields suspends the fiber that made it. *)
Definition settle (r : vm_context * answer) : vm_context :=
  match r.2 with
  | Yield => set_thread (current_fiber_ r.1) CoSuspended r.1
  | _ => r.1
  end.
Definition after_call (r : vm_context * answer) : vm_context :=
  match r.2 with Yield => epilogue_yield (settle r) | _ => settle r end.

(** A mutex, a condition variable or a future that a fiber waits on is on the
    stack of that fiber, which the fiber table keeps alive: such objects are
    collected only with the VM.  A promise can be collected while fibers wait
    for its future. *)
Inductive step (vm : vm_context) : vm_context → Prop :=
| step_call op L :
    valid_ vm = true → is_running vm → callable op L vm →
    (call op L vm).2 ≠ Stuck →
    step vm (after_call (call op L vm))
| step_finish r :
    valid_ vm = true → is_running vm → step vm (fiber_epilogue r vm)
| step_task f opts ts vm' :
    idle vm → strand vm = FiberResume f opts :: ts →
    fiber_resume f opts (with_strand (λ _, ts) vm) = Some vm' →
    step vm vm'
| step_collect_promise p :
    valid_ vm = true → step vm (Future.promise_mt_gc p vm)
| step_collect_fiber h f caught :
    valid_ vm = true → objects vm !! h = Some (Fiber (Some f) false caught) →
    step vm (fiber_mt_gc h vm).1
| step_notify_errmem : step vm (notify_errmem vm)
| step_notify_exit_request : step vm (notify_exit_request vm)
| step_notify_cleanup_error coro : step vm (notify_cleanup_error coro vm).

(** A VM that just started: its main fiber [f] runs, detached. *)
Definition initial_row : fiber_data :=
  FiberData JDetached None 0 None (DNumber 0) false None None None true.
Definition initial (vm : vm_context) : Prop :=
  valid_ vm = true ∧ current_fiber_ vm = L_ vm ∧
  async_event_thread_ vm ≠ L_ vm ∧
  threads vm = {[L_ vm := CoRunning []]} ∧
  fiber_list vm = {[L_ vm := initial_row]} ∧
  objects vm = ∅ ∧ strand vm = [] ∧
  L_ vm < next_loc vm ∧ async_event_thread_ vm < next_loc vm.

(** * The abstract scheduler *)
Module Schedule.
(** Where a fiber that does not run waits: in the pending list of an object,
    for a fiber it joins to end, or for its turn. *)
Inductive place : Set :=
| InObject (o : loc)
| Joining (f : loc)
| Queued.

Record t : Type := Sched {
  place_of : loc → option place;
  running : option loc;
}.

Definition put (f : loc) (p : option place) (s : loc → option place) :
    loc → option place :=
  λ g, if decide (g = f) then p else s g.

(** What may happen to a fiber.  There is no move from nowhere to running but
    through the queue, and none out of a place but into the queue. *)
Inductive move : t → t → Prop :=
| Park P f p :
    P f = None → move (Sched P (Some f)) (Sched (put f (Some p) P) None)
| Wake P r f p :
    P f = Some p → p ≠ Queued →
    move (Sched P r) (Sched (put f (Some Queued) P) r)
| Spawned P r f :
    P f = None → r ≠ Some f → move (Sched P r) (Sched (put f (Some Queued) P) r)
| Dispatch P f :
    P f = Some Queued → move (Sched P None) (Sched (put f None P) (Some f))
| Finish P f :
    move (Sched P (Some f)) (Sched P None)
| Handoff P f j :
    P j = Some (Joining f) →
    move (Sched P (Some f)) (Sched (put j None P) (Some j)).
End Schedule.
