(* ===== verification/SchedulerInv.v ===== *)
(** The invariant of the scheduler, and the lemmas that preserve it.

    [inv vm P] relates a VM to the place [P f] every fiber [f] waits in.  The
    operations of the components are made of a few updates: a fiber is parked,
    woken up, resumed or ends, an object is made or changes a field that has
    nothing to do with waiting.  There is one lemma for each. *)
From S2P Require Import Prelude Errors Lua Vm Sync FiberOps Scheduler.
Import Schedule.

(** * Views of a VM *)
Definition pending_at (vm : vm_context) (o : loc) : list loc :=
  match objects vm !! o with Some x => pending x | None => [] end.

(** The fiber that joins [f], while [f] has not ended. *)
Definition joiner_at (vm : vm_context) (f : loc) : option loc :=
  match fiber_list vm !! f with
  | Some row =>
      match status row, joiner row with None, JThread j => Some j | _, _ => None end
  | None => None
  end.

Definition waiting (s : option co_status) : Prop :=
  s = Some CoReady ∨ s = Some CoSuspended.
Definition dead (s : co_status) : Prop := ∃ r, s = CoDead r.

(** A fiber is at most once in a queue that clears its interrupter. *)
Definition queued_clearing (vm : vm_context) (f : loc) : Prop :=
  ∀ opts, FiberResume f opts ∈ strand vm → skip_clear_interrupter opts = false.

(** What the interrupter of a suspended fiber [f] may be. *)
Definition interrupter_ok (vm : vm_context) (P : loc → option place) (f : loc)
    (i : interrupter_t) : Prop :=
  match i with
  | ICond c g => g = f ∧
      ((P f = Some (InObject c) ∧ ∃ p, objects vm !! c = Some (Cond p))
       ∨ (P f = Some Queued ∧ queued_clearing vm f))
  | IFuture s g => g = f ∧
      ((P f = Some (InObject s) ∧ ∃ w st r, objects vm !! s = Some (FutureState w st r))
       ∨ (P f = Some Queued ∧ queued_clearing vm f))
  | IJoin h g t => g = f ∧ P f = Some (Joining t) ∧
      ∃ c, objects vm !! h = Some (Fiber (Some t) true c)
  | IEmitSignal _ | ITimer _ | ISubprocess _ | ICancel _ => False
  end.

(** * The invariant *)

(** Every fiber that can still run has one place if it waits, none if not. *)
Record places_inv (vm : vm_context) (P : loc → option place) : Prop := {
  inv_pending o f : f ∈ pending_at vm o ↔ P f = Some (InObject o);
  inv_pending_nodup o : NoDup (pending_at vm o);
  inv_queue f : f ∈ task_fiber <$> strand vm ↔ P f = Some Queued;
  inv_queue_nodup : NoDup (task_fiber <$> strand vm);
  inv_join f j : joiner_at vm f = Some j ↔ P j = Some (Joining f);
  inv_waiting f : is_Some (P f) ↔ waiting (threads vm !! f);
}.

(** Rows, threads and handles fit together. *)
Record tables_inv (vm : vm_context) : Prop := {
  inv_current f args :
    threads vm !! f = Some (CoRunning args) → f = current_fiber_ vm;
  inv_system f s : threads vm !! f = Some s → f ≠ async_event_thread_ vm;
  inv_alive f s : threads vm !! f = Some s → ¬ dead s →
    ∃ row, fiber_list vm !! f = Some row ∧ status row = None;
  inv_row f row : fiber_list vm !! f = Some row →
    ∃ s, threads vm !! f = Some s ∧ (status row = None ↔ ¬ dead s);
  inv_handle h f jip c : objects vm !! h = Some (Fiber (Some f) jip c) →
    ∃ row, fiber_list vm !! f = Some row ∧
      if jip then status row = None ∧ user_handle row = Some h ∧
                  ∃ j, joiner row = JThread j
      else joiner row = JNone;
  inv_handle_inj h1 h2 f b1 b2 c1 c2 :
    objects vm !! h1 = Some (Fiber (Some f) b1 c1) →
    objects vm !! h2 = Some (Fiber (Some f) b2 c2) → h1 = h2;
  inv_joined f row j : fiber_list vm !! f = Some row →
    status row = None → joiner row = JThread j →
    ∃ h c, user_handle row = Some h ∧ objects vm !! h = Some (Fiber (Some f) true c);
  inv_env p s : objects vm !! p = Some (Promise s) ∨ objects vm !! p = Some (Future s) →
    ∃ w st r, objects vm !! s = Some (FutureState w st r);
  inv_fresh l : next_loc vm ≤ l →
    objects vm !! l = None ∧ threads vm !! l = None ∧ fiber_list vm !! l = None;
  inv_fresh_system : async_event_thread_ vm < next_loc vm;
}.

(** A fiber has an interrupter only while it is suspended and can be
    interrupted. *)
Definition interrupters_inv (vm : vm_context) (P : loc → option place) : Prop :=
  ∀ f row i, fiber_list vm !! f = Some row → interrupter row = Some i →
    threads vm !! f = Some CoSuspended ∧
    is_disabled (interruption_disabled row) = false ∧
    interrupter_ok vm P f i.

Record inv (vm : vm_context) (P : loc → option place) : Prop := {
  inv_places : places_inv vm P;
  inv_tables : tables_inv vm;
  inv_interrupters : interrupters_inv vm P;
}.

Lemma in_strand f opts (q : list task) :
  FiberResume f opts ∈ q → f ∈ task_fiber <$> q.
Proof. intros Hin. apply list_elem_of_fmap. by exists (FiberResume f opts). Qed.

(** * Facts *)
Section facts.
Context {vm : vm_context} {P : loc → option place} (I : inv vm P).

Lemma running_no_place f args : threads vm !! f = Some (CoRunning args) → P f = None.
Proof.
  intros Hf. destruct (P f) as [p|] eqn:E; [|done].
  destruct (proj1 (inv_waiting _ _ (inv_places _ _ I) f)) as [Hw|Hw]; [by rewrite E|..];
    congruence.
Qed.

Lemma running_row f args :
  threads vm !! f = Some (CoRunning args) →
  ∃ row, fiber_list vm !! f = Some row ∧ status row = None ∧ interrupter row = None.
Proof.
  intros Hf. destruct (inv_alive _ (inv_tables _ _ I) f _ Hf) as (row & Hrow & Hs).
  { by intros [? [=]]. }
  exists row. split_and!; [done|done|].
  destruct (interrupter row) as [i|] eqn:Hi; [|done].
  destruct (inv_interrupters _ _ I f row i Hrow Hi) as (? & _). congruence.
Qed.

(** A fiber whose place is not a queue's has no interrupter that clears. *)
Lemma plain_place_no_interrupter f o x row :
  P f = Some (InObject o) → objects vm !! o = Some x →
  match x with Mutex _ _ | RecursiveMutex _ _ _ => True | _ => False end →
  fiber_list vm !! f = Some row → interrupter row = None.
Proof.
  intros HP Hx Hk Hrow. destruct (interrupter row) as [i|] eqn:Hi; [|done].
  destruct (inv_interrupters _ _ I f row i Hrow Hi) as (_ & _ & Hok).
  destruct i as [c g|s g|h g t|s|h|h|h]; simpl in Hok; [| | |done..].
  - destruct Hok as (_ & [(HP' & p & Hc)|(HP' & _)]); [|congruence].
    assert (c = o) as -> by congruence. rewrite Hx in Hc. by simplify_eq.
  - destruct Hok as (_ & [(HP' & w & ? & ? & Hc)|(HP' & _)]); [|congruence].
    assert (s = o) as -> by congruence. rewrite Hx in Hc. by simplify_eq.
  - destruct Hok as (_ & HP' & _). congruence.
Qed.

Lemma place_waiting f p : P f = Some p → waiting (threads vm !! f).
Proof. intros Hp. apply (inv_waiting _ _ (inv_places _ _ I)). by rewrite Hp. Qed.

Lemma in_pending o x f :
  objects vm !! o = Some x → f ∈ pending x → P f = Some (InObject o).
Proof.
  intros Hx Hf. apply (inv_pending _ _ (inv_places _ _ I)).
  unfold pending_at. by rewrite Hx.
Qed.

Lemma pending_nodup o x : objects vm !! o = Some x → NoDup (pending x).
Proof.
  intros Hx. pose proof (inv_pending_nodup _ _ (inv_places _ _ I) o) as Hn.
  unfold pending_at in Hn. by rewrite Hx in Hn.
Qed.
End facts.

(** * Objects *)

(** Two states of one object fibers may wait in. *)
Definition same_kind (x x' : object) : Prop :=
  match x, x' with
  | Mutex _ _, Mutex _ _ | RecursiveMutex _ _ _, RecursiveMutex _ _ _
  | Cond _, Cond _ | FutureState _ _ _, FutureState _ _ _ => True
  | _, _ => False
  end.

Lemma lookup_set_object vm u x o :
  objects (set_object u x vm) !! o = if decide (u = o) then Some x else objects vm !! o.
Proof.
  simpl. case_decide; [subst; apply lookup_insert_eq|by apply lookup_insert_ne].
Qed.

Lemma pending_at_set_object vm u x o :
  pending_at (set_object u x vm) o = if decide (u = o) then pending x else pending_at vm o.
Proof. unfold pending_at. rewrite lookup_set_object. by case_decide. Qed.

Lemma set_object_other vm u x x' o y :
  objects vm !! u = Some x → same_kind x x' →
  match y with Fiber _ _ _ | Promise _ | Future _ => True | _ => False end →
  objects (set_object u x' vm) !! o = Some y ↔ objects vm !! o = Some y.
Proof.
  intros Hu Hk Hy. rewrite lookup_set_object. case_decide; [subst|done].
  rewrite Hu. destruct x, x'; try done; split; by intros [= <-].
Qed.

Lemma tables_set_object vm u x x' :
  tables_inv vm → objects vm !! u = Some x → same_kind x x' →
  tables_inv (set_object u x' vm).
Proof.
  intros T Hu Hk. destruct T.
  assert (∀ o y, match y with Fiber _ _ _ | Promise _ | Future _ => True | _ => False end →
    objects (set_object u x' vm) !! o = Some y ↔ objects vm !! o = Some y) as E
    by (intros; by eapply set_object_other).
  split; try done.
  - intros h f jip c. rewrite E by done. apply inv_handle0.
  - intros h1 h2 f b1 b2 c1 c2. rewrite !E by done. apply inv_handle_inj0.
  - intros f row j Hr Hs Hj. destruct (inv_joined0 f row j Hr Hs Hj) as (h & c & ? & ?).
    exists h, c. by rewrite E.
  - intros p s. rewrite !E by done. intros (w & st & r & Hs)%inv_env0.
    rewrite lookup_set_object. case_decide; [subst|by eauto].
    assert (x = FutureState w st r) as -> by congruence. destruct x'; [done..| |done|done|done].
    by eauto.
  - intros l Hl. destruct (inv_fresh0 l Hl) as (Ho & ? & ?).
    rewrite lookup_set_object. case_decide; [congruence|done].
Qed.

(** Interrupters survive when every fiber keeps its place or goes to a queue
    that clears, and objects keep their kinds. *)
Lemma interrupter_ok_set_object vm P u x x' f i :
  objects vm !! u = Some x → same_kind x x' →
  interrupter_ok vm P f i → interrupter_ok (set_object u x' vm) P f i.
Proof.
  intros Hu Hk. destruct i as [c g|s g|h g t|s|h|h|h]; cbn -[set_object]; [| | |done..].
  - intros (-> & [(HP & p & Hc)|Hq]); (split; [done|]); [|by right]. left.
    split; [done|]. rewrite lookup_set_object. case_decide; [subst|by eauto].
    assert (x = Cond p) as -> by congruence. destruct x'; try done. by eauto.
  - intros (-> & [(HP & w & st & r & Hc)|Hq]); (split; [done|]); [|by right]. left.
    split; [done|]. rewrite lookup_set_object. case_decide; [subst|by eauto].
    assert (x = FutureState w st r) as -> by congruence. destruct x'; try done. by eauto.
  - intros (-> & HP & c & Hh). split_and!; [done..|]. exists c.
    by rewrite (set_object_other _ _ x).
Qed.

(** An object changes in a way fibers do not see. *)
Lemma inv_set_object vm P u x x' :
  inv vm P → objects vm !! u = Some x → same_kind x x' → pending x' = pending x →
  inv (set_object u x' vm) P.
Proof.
  intros I Hu Hk Hp.
  assert (∀ o, pending_at (set_object u x' vm) o = pending_at vm o) as E.
  { intros o. rewrite pending_at_set_object. case_decide; [subst|done].
    unfold pending_at. by rewrite Hu. }
  split.
  - destruct I as [[] _ _]. split; try done; intros o; by rewrite E.
  - eapply tables_set_object; [apply I|done..].
  - intros f row i Hr Hi. destruct (inv_interrupters _ _ I f row i Hr Hi) as (? & ? & ?).
    split_and!; [done|done|]. by eapply interrupter_ok_set_object.
Qed.

(** * Waking up *)
Definition put_all (fs : list loc) (P : loc → option place) : loc → option place :=
  foldr (λ f, put f (Some Queued)) P fs.

Lemma put_all_lookup fs P g :
  put_all fs P g = if decide (g ∈ fs) then Some Queued else P g.
Proof.
  induction fs as [|f fs IH]; simpl; [done|]. unfold put. rewrite IH.
  repeat case_decide; set_solver.
Qed.

Lemma strand_post_all vm fs opts :
  task_fiber <$> strand (ConditionVariable.post_all fs opts vm)
    = (task_fiber <$> strand vm) ++ fs.
Proof.
  simpl. rewrite fmap_app, <- list_fmap_compose. f_equal. simpl.
  rewrite <- (list_fmap_id fs) at 2. done.
Qed.

(** Fibers [ws] leave the pending list of an object and are posted.  Tasks
    that do not clear interrupters are for fibers that have none. *)
Section wake.
Context (vm : vm_context) (P : loc → option place) (I : inv vm P).
Context (u : loc) (x x' : object) (ws : list loc) (opts : options).
Context (Hu : objects vm !! u = Some x) (Hk : same_kind x x').
Context (Hp : pending x ≡ₚ ws ++ pending x').
Context (Hskip : skip_clear_interrupter opts = true →
     match x with Mutex _ _ | RecursiveMutex _ _ _ => True | _ => False end).
#[local] Notation woken := (ConditionVariable.post_all ws opts (set_object u x' vm)).

Lemma wake_nodup : NoDup ws ∧ (∀ f, f ∈ ws → f ∉ pending x') ∧ NoDup (pending x').
Proof.
  pose proof (pending_nodup I u x Hu) as Hnd. rewrite Hp in Hnd. by apply NoDup_app in Hnd.
Qed.
Lemma wake_place f : f ∈ ws → P f = Some (InObject u).
Proof using I Hu Hp.
  clear Hskip Hk opts. intros Hf. apply (in_pending I u x); [done|]. rewrite Hp. set_solver.
Qed.

Lemma places_wake : places_inv woken (put_all ws P).
Proof.
  destruct wake_nodup as (Hndw & Hdisj & Hndp). pose proof (inv_places _ _ I) as PL. split.
  - intros o f. rewrite put_all_lookup.
    change (f ∈ pending_at (set_object u x' vm) o ↔
      (if decide (f ∈ ws) then Some Queued else P f) = Some (InObject o)).
    rewrite pending_at_set_object.
    pose proof (inv_pending _ _ PL o f) as Ho. case_decide as Huo.
    + subst o. unfold pending_at in Ho. rewrite Hu, Hp, elem_of_app in Ho.
      case_decide; [|set_solver]. split; [|done]. intros Hf. by destruct (Hdisj f).
    + rewrite Ho. case_decide as Hf; [|done]. split; [|done].
      intros HP. rewrite (wake_place _ Hf) in HP. congruence.
  - intros o. change (NoDup (pending_at (set_object u x' vm) o)).
    rewrite pending_at_set_object. case_decide; [done|]. apply PL.
  - intros f. rewrite strand_post_all, elem_of_app, put_all_lookup.
    change (task_fiber <$> strand (set_object u x' vm)) with (task_fiber <$> strand vm).
    rewrite (inv_queue _ _ PL f). case_decide; naive_solver.
  - rewrite strand_post_all. apply NoDup_app. split_and!; [apply PL| |done].
    intros f Hf Hw. apply (inv_queue _ _ PL) in Hf. rewrite wake_place in Hf by done. done.
  - intros f j. change (joiner_at _ f) with (joiner_at vm f).
    rewrite (inv_join _ _ PL f j), put_all_lookup. case_decide as Hj; [|done].
    rewrite (wake_place _ Hj). naive_solver.
  - intros f. rewrite put_all_lookup. change (threads _ !! f) with (threads vm !! f).
    rewrite <- (inv_waiting _ _ PL f). case_decide as Hf; [|done].
    rewrite (wake_place _ Hf). naive_solver.
Qed.

(** The interrupter of a fiber that is woken up will be cleared. *)
Lemma woken_clearing f row i :
  f ∈ ws → fiber_list vm !! f = Some row → interrupter row = Some i →
  queued_clearing woken f.
Proof.
  intros Hf Hr Hi opts' [Hin|Hin]%elem_of_app.
  - assert (P f = Some Queued) as HP.
    { apply (inv_queue _ _ (inv_places _ _ I)). by eapply in_strand. }
    rewrite (wake_place _ Hf) in HP. done.
  - apply list_elem_of_fmap in Hin as (g & [= <- ->] & _).
    destruct (skip_clear_interrupter opts) eqn:E; [|done].
    pose proof (plain_place_no_interrupter I f u x row (wake_place _ Hf) Hu (Hskip eq_refl) Hr).
    congruence.
Qed.
Lemma still_clearing f : f ∉ ws → queued_clearing vm f → queued_clearing woken f.
Proof.
  intros Hf Hqc opts' [Hin|Hin]%elem_of_app; [by apply Hqc|].
  by apply list_elem_of_fmap in Hin as (g & [= -> ->] & ?).
Qed.

Lemma interrupters_wake : interrupters_inv woken (put_all ws P).
Proof.
  intros f row i Hr Hi. change (fiber_list vm !! f = Some row) in Hr.
  destruct (inv_interrupters _ _ I f row i Hr Hi) as (? & ? & Hok).
  split_and!; [done|done|].
  apply (interrupter_ok_set_object _ _ u x x') in Hok; [|done..].
  destruct (decide (f ∈ ws)) as [Hf|Hf].
  - pose proof (woken_clearing f row i Hf Hr Hi). pose proof (wake_place _ Hf) as HPf.
    destruct i as [c g|s g|h g t|s|h|h|h]; simpl in Hok |- *; [| | |done..];
      rewrite put_all_lookup, decide_True by done.
    + destruct Hok as [-> _]. by split; [|right].
    + destruct Hok as [-> _]. by split; [|right].
    + destruct Hok as (_ & HP' & _). congruence.
  - destruct i as [c g|s g|h g t|s|h|h|h]; cbn -[set_object] in Hok |- *; [| | |done..];
      rewrite put_all_lookup, decide_False by done.
    + destruct Hok as (-> & [?|[HP Hqc]]); (split; [done|]); [by left|right].
      split; [done|]. by apply still_clearing.
    + destruct Hok as (-> & [?|[HP Hqc]]); (split; [done|]); [by left|right].
      split; [done|]. by apply still_clearing.
    + done.
Qed.

Lemma inv_wake_all : inv woken (put_all ws P).
Proof.
  split; [apply places_wake| |apply interrupters_wake].
  apply (tables_set_object _ _ _ x') in Hu as T; [|apply I|done]. destruct T. by split.
Qed.
End wake.

(** * Rows *)

(** An update that leaves alone what other tables depend on. *)
Definition keeps (g : fiber_data → fiber_data) : Prop :=
  ∀ row, status (g row) = status row ∧ joiner (g row) = joiner row ∧
         user_handle (g row) = user_handle row.

Lemma lookup_set_row vm f g k :
  fiber_list (set_row f g vm) !! k =
    if decide (f = k) then g <$> fiber_list vm !! k else fiber_list vm !! k.
Proof.
  simpl. case_decide; [subst; apply lookup_alter_eq|by apply lookup_alter_ne].
Qed.

(** A row after the update comes from a row before. *)
Lemma set_row_inv vm f g k row :
  keeps g → fiber_list (set_row f g vm) !! k = Some row →
  ∃ row0, fiber_list vm !! k = Some row0 ∧ status row = status row0 ∧
    joiner row = joiner row0 ∧ user_handle row = user_handle row0.
Proof.
  intros Hg. rewrite lookup_set_row. case_decide; [|by eauto].
  intros (row0 & -> & ->)%fmap_Some. exists row0. split; [done|]. apply Hg.
Qed.
Lemma set_row_fwd vm f g k row0 :
  keeps g → fiber_list vm !! k = Some row0 →
  ∃ row, fiber_list (set_row f g vm) !! k = Some row ∧ status row = status row0 ∧
    joiner row = joiner row0 ∧ user_handle row = user_handle row0.
Proof.
  intros Hg Hk. rewrite lookup_set_row. case_decide; [|by eauto].
  rewrite Hk. exists (g row0). split; [done|]. apply Hg.
Qed.

Lemma joiner_at_set_row vm f g k :
  keeps g → joiner_at (set_row f g vm) k = joiner_at vm k.
Proof.
  intros Hg. unfold joiner_at. rewrite lookup_set_row. case_decide; [subst|done].
  destruct (fiber_list vm !! k) as [row|]; [|done]. simpl.
  destruct (Hg row) as (Es & Ej & _). by rewrite Es, Ej.
Qed.

Lemma places_set_row vm P f g :
  keeps g → places_inv vm P → places_inv (set_row f g vm) P.
Proof.
  intros Hg []. split; try done. intros k j. by rewrite joiner_at_set_row.
Qed.

Lemma tables_set_row vm f g :
  keeps g → tables_inv vm → tables_inv (set_row f g vm).
Proof.
  intros Hg []. split; try done.
  - intros k s Hk Hd. destruct (inv_alive0 k s Hk Hd) as (row0 & Hr & Hs).
    destruct (set_row_fwd vm f g k row0 Hg Hr) as (row & ? & E & _).
    exists row. by rewrite E.
  - intros k row Hk. destruct (set_row_inv vm f g k row Hg Hk) as (row0 & Hr & E & _).
    destruct (inv_row0 k row0 Hr) as (s & ? & ?). exists s. by rewrite E.
  - intros h k jip c Hh. destruct (inv_handle0 h k jip c Hh) as (row0 & Hr & Hj).
    destruct (set_row_fwd vm f g k row0 Hg Hr) as (row & ? & E1 & E2 & E3).
    exists row. by rewrite E1, E2, E3.
  - intros k row j Hk. destruct (set_row_inv vm f g k row Hg Hk) as (row0 & Hr & E1 & E2 & E3).
    rewrite E1, E2, E3. by apply inv_joined0.
  - intros l Hl. destruct (inv_fresh0 l Hl) as (? & ? & Hn). split_and!; [done..|].
    rewrite lookup_set_row, Hn. by case_decide.
Qed.

Lemma interrupter_ok_set_row vm P f g k i :
  interrupter_ok (set_row f g vm) P k i ↔ interrupter_ok vm P k i.
Proof. by destruct i. Qed.

(** An update of a row that waiting does not depend on; interruption may only
    be disabled in a row without an interrupter. *)
Lemma inv_set_row vm P f g :
  inv vm P → keeps g →
  (∀ row, fiber_list vm !! f = Some row → interrupter (g row) = None ∨
     (interrupter (g row) = interrupter row ∧
      (is_disabled (interruption_disabled row) = false →
       is_disabled (interruption_disabled (g row)) = false))) →
  inv (set_row f g vm) P.
Proof.
  intros I Hg Hi. split.
  - apply places_set_row; [done|apply I].
  - apply tables_set_row; [done|apply I].
  - intros k row i. rewrite lookup_set_row. case_decide; [subst k|apply I].
    intros (row0 & Hr & ->)%fmap_Some Hint.
    destruct (Hi row0 Hr) as [Hn|[Heq Hd]]; [congruence|].
    rewrite Heq in Hint. destruct (inv_interrupters _ _ I f row0 i Hr Hint) as (?&?&?).
    split_and!; [done|by apply Hd|done].
Qed.

(** * Threads *)
Lemma lookup_set_thread vm f s k :
  threads (set_thread f s vm) !! k = if decide (f = k) then Some s else threads vm !! k.
Proof.
  simpl. case_decide; [subst; apply lookup_insert_eq|by apply lookup_insert_ne].
Qed.

Lemma tables_set_thread vm f s0 s :
  tables_inv vm → threads vm !! f = Some s0 → ¬ dead s0 → ¬ dead s →
  ((∃ args, s = CoRunning args) → f = current_fiber_ vm) →
  tables_inv (set_thread f s vm).
Proof.
  intros [] Hf Hd0 Hd Hrun. split; try done.
  - intros k args. rewrite lookup_set_thread. case_decide; [subst k|apply inv_current0].
    intros [= ->]. apply Hrun. by eexists.
  - intros k s'. rewrite lookup_set_thread. case_decide; [subst k|apply inv_system0].
    intros _. by eapply inv_system0.
  - intros k s'. rewrite lookup_set_thread. case_decide; [subst k|apply inv_alive0].
    intros _ _. by eapply inv_alive0.
  - intros k row Hk. rewrite lookup_set_thread.
    destruct (inv_row0 k row Hk) as (s' & Hs' & E).
    case_decide; [subst k|by eauto]. exists s. split; [done|].
    assert (s' = s0) as -> by congruence. tauto.
  - intros l Hl. destruct (inv_fresh0 l Hl) as (? & Hn & ?).
    rewrite lookup_set_thread. case_decide; [congruence|done].
Qed.

(** * Parking *)

(** The running fiber suspends, last in the list of an object. *)
Lemma places_park vm P f args u x x' :
  places_inv vm P → threads vm !! f = Some (CoRunning args) → P f = None →
  objects vm !! u = Some x → pending x' = pending x ++ [f] →
  places_inv (set_thread f CoSuspended (set_object u x' vm))
    (put f (Some (InObject u)) P).
Proof.
  intros PL Hf HP Hu Hp.
  assert (∀ o, pending_at vm o = (if decide (u = o) then pending x else pending_at vm o))
    as Eo.
  { intros o. case_decide; [subst|done]. unfold pending_at. by rewrite Hu. }
  split.
  - intros o k. change (pending_at (set_thread _ _ ?v) o) with (pending_at v o).
    change (k ∈ pending_at (set_object u x' vm) o ↔
      put f (Some (InObject u)) P k = Some (InObject o)).
    rewrite pending_at_set_object. unfold put.
    pose proof (inv_pending _ _ PL o k) as Ho. rewrite Eo in Ho.
    case_decide; [subst o|].
    + rewrite Hp, elem_of_app, list_elem_of_singleton.
      case_decide; [naive_solver|]. rewrite Ho. naive_solver.
    + case_decide; [subst k|done]. rewrite Ho, HP. naive_solver.
  - intros o. change (NoDup (pending_at (set_object u x' vm) o)).
    rewrite pending_at_set_object. pose proof (inv_pending_nodup _ _ PL o) as Hn.
    rewrite Eo in Hn. case_decide; [subst o|done]. rewrite Hp.
    apply NoDup_app. split_and!; [done| |apply NoDup_singleton].
    intros k Hk ->%list_elem_of_singleton.
    assert (f ∈ pending_at vm u) as Hin by (unfold pending_at; by rewrite Hu).
    apply (inv_pending _ _ PL) in Hin. congruence.
  - intros k. change (strand _) with (strand vm). rewrite (inv_queue _ _ PL k).
    unfold put. case_decide; [subst; rewrite HP|done]. naive_solver.
  - apply PL.
  - intros k j. change (joiner_at _ k) with (joiner_at vm k).
    rewrite (inv_join _ _ PL k j). unfold put.
    case_decide; [subst; rewrite HP|done]. naive_solver.
  - intros k. rewrite lookup_set_thread. unfold put. case_decide.
    + subst k. rewrite decide_True by done. unfold waiting. naive_solver.
    + rewrite decide_False by done. apply PL.
Qed.

Definition park_interrupter (i : option interrupter_t) (vm : vm_context) : vm_context :=
  match i with Some _ => set_interrupter i vm | None => vm end.

(** The interrupter given when waiting in the object [u]. *)
Definition interrupter_for (u : loc) (x : object) (f : loc)
    (i : option interrupter_t) : Prop :=
  match i, x with
  | None, (Mutex _ _ | RecursiveMutex _ _ _) => True
  | Some (ICond c g), Cond _ => c = u ∧ g = f
  | Some (IFuture s g), FutureState _ _ _ => s = u ∧ g = f
  | _, _ => False
  end.

Lemma keeps_interrupter i :
  keeps (λ row, if is_disabled (interruption_disabled row) then row
                else with_interrupter (λ _, i) row).
Proof. intros row. by case_match. Qed.

Lemma inv_park vm P u x x' i :
  inv vm P → is_running vm → objects vm !! u = Some x → same_kind x x' →
  pending x' = pending x ++ [current_fiber_ vm] →
  interrupter_for u x (current_fiber_ vm) i →
  inv (set_thread (current_fiber_ vm) CoSuspended
        (set_object u x' (park_interrupter i vm)))
    (put (current_fiber_ vm) (Some (InObject u)) P).
Proof.
  intros I [args Hf] Hu Hk Hp Hi. set (f := current_fiber_ vm) in *.
  pose proof (running_no_place I f args Hf) as HP.
  destruct (running_row I f args Hf) as (row0 & Hrow0 & Hs0 & Hi0).
  assert (places_inv (park_interrupter i vm) P ∧ tables_inv (park_interrupter i vm))
    as [PL T].
  { destruct i; simpl; [|split; apply I].
    split; [apply places_set_row|apply tables_set_row];
      (apply keeps_interrupter || apply I). }
  assert (objects (park_interrupter i vm) = objects vm) as Eo by by destruct i.
  assert (threads (park_interrupter i vm) = threads vm) as Et by by destruct i.
  split.
  - apply (places_park _ _ _ args _ x); [done|by rewrite Et|done|by rewrite Eo|done].
  - eapply tables_set_thread; [|simpl; by rewrite Et|..].
    + eapply tables_set_object; [done|by rewrite Eo|done].
    + by intros [? ?].
    + by intros [? ?].
    + intros [? ?]. done.
  - intros k row j Hrow Hj. rewrite lookup_set_thread.
    change (threads (set_object _ _ ?v)) with (threads v). rewrite Et.
    change (fiber_list _) with (fiber_list (park_interrupter i vm)) in Hrow.
    destruct (decide (f = k)) as [<-|Hne].
    + destruct i as [i'|]; simpl in Hrow.
      2:{ congruence. }
      fold f in Hrow. rewrite lookup_alter_eq, Hrow0 in Hrow. simpl in Hrow.
      destruct (is_disabled (interruption_disabled row0)) eqn:Hd; simplify_eq.
      simpl in Hj. simplify_eq. split_and!; [done|done|].
      unfold put. destruct j as [c g|s g| | | | |], x, x'; try done; destruct Hi as [-> ->];
        simpl; (split; [done|]); left; rewrite decide_True by done;
        (split; [done|]); rewrite lookup_insert_eq; by eauto.
    + assert (fiber_list vm !! k = Some row) as Hrow'.
      { destruct i; simpl in Hrow; [|done]. fold f in Hrow. by rewrite lookup_alter_ne in Hrow by done. }
      destruct (inv_interrupters _ _ I k row j Hrow' Hj) as (? & ? & Hok).
      split_and!; [done|done|].
      apply (interrupter_ok_set_object _ _ u x x') in Hok; [|done..].
      assert (put f (Some (InObject u)) P k = P k) as EP
        by (unfold put; by rewrite decide_False by done).
      destruct i, j; cbn -[put] in Hok |- *; rewrite ?EP; done.
Qed.
