(* ===== verification/SchedulerFibers.v ===== *)
(** More updates that preserve the scheduler's invariant: those by which
    objects and fibers come to be, join each other, run and end. *)
From S2P Require Import Prelude Errors Lua Vm Sync FiberOps Scheduler SchedulerInv.
Import Schedule.

(** * New objects *)
Definition env_ok (vm : vm_context) (x : object) : Prop :=
  match x with
  | Promise s | Future s => ∃ w st r, objects vm !! s = Some (FutureState w st r)
  | Fiber (Some _) _ _ => False
  | _ => True
  end.

Lemma fresh_object vm P : inv vm P → objects vm !! next_loc vm = None.
Proof. intros I. by apply (inv_fresh _ (inv_tables _ _ I)). Qed.

Lemma lookup_new_object vm P x o y :
  inv vm P → objects vm !! o = Some y →
  objects (new_object x vm).1 !! o = Some y.
Proof.
  intros I Ho. simpl. rewrite lookup_insert_ne; [done|].
  intros <-. pose proof (fresh_object vm P I). congruence.
Qed.

Lemma interrupter_ok_new vm P x f i :
  inv vm P → interrupter_ok vm P f i → interrupter_ok (new_object x vm).1 P f i.
Proof.
  intros I. destruct i as [c g|s g|h g t|s|h|h|h]; cbn -[new_object]; [| | |done..].
  - intros (-> & [(HP & p & Hc)|Hq]); (split; [done|]); [left|by right].
    split; [done|]. exists p. by eapply lookup_new_object.
  - intros (-> & [(HP & w & st & r & Hc)|Hq]); (split; [done|]); [left|by right].
    split; [done|]. exists w, st, r. by eapply lookup_new_object.
  - intros (-> & HP & c & Hh). split_and!; [done..|]. exists c.
    by eapply lookup_new_object.
Qed.

Lemma tables_new_object vm P x :
  inv vm P → env_ok vm x → tables_inv (new_object x vm).1.
Proof.
  intros I Hx. pose proof (fresh_object vm P I) as Hn.
  assert (∀ o y, objects (new_object x vm).1 !! o = Some y →
    (o = next_loc vm ∧ y = x) ∨ objects vm !! o = Some y) as Hinv.
  { intros o y. simpl. rewrite lookup_insert_Some. naive_solver. }
  pose proof (λ o y, lookup_new_object vm P x o y I) as Hfwd.
  destruct (inv_tables _ _ I). split; try done.
  - intros h f jip c [[-> <-]|Hh]%Hinv; [done|by eapply inv_handle].
  - intros h1 h2 f b1 b2 c1 c2 [[-> <-]|H1]%Hinv [[-> E]|H2]%Hinv;
      [done|done|by subst x|].
    by eapply inv_handle_inj.
  - intros f row j Hr Hs Hj. destruct (inv_joined f row j Hr Hs Hj) as (h & c & ? & ?).
    exists h, c. split; [done|]. by apply Hfwd.
  - intros p s Hps.
    assert (∃ w st r, objects vm !! s = Some (FutureState w st r)) as (w & st & r & Hs).
    { destruct Hps as [[[-> <-]|H1]%Hinv|[[-> <-]|H1]%Hinv]; [done|eauto|done|eauto]. }
    exists w, st, r. by apply Hfwd.
  - intros l Hl. simpl in Hl. destruct (inv_fresh l) as (? & ? & ?); [lia|].
    split_and!; [|done|done]. simpl. rewrite lookup_insert_ne by lia. done.
  - simpl. lia.
Qed.

Lemma inv_new_object vm P x :
  inv vm P → env_ok vm x → pending x = [] → inv (new_object x vm).1 P.
Proof.
  intros I Hx Hp. pose proof (fresh_object vm P I) as Hn.
  assert (∀ o, pending_at (new_object x vm).1 o = pending_at vm o) as E.
  { intros o. change (pending_at (set_object (next_loc vm) x vm) o = pending_at vm o).
    rewrite pending_at_set_object. case_decide; [subst o|done].
    unfold pending_at. by rewrite Hn. }
  split.
  - destruct (inv_places _ _ I). split; try done; intros o; by rewrite E.
  - by eapply tables_new_object.
  - intros f row i Hr Hi. destruct (inv_interrupters _ _ I f row i Hr Hi) as (? & ? & ?).
    split_and!; [done|done|]. by apply interrupter_ok_new.
Qed.

(** * Posting *)

Lemma queued_clearing_post vm f opts g :
  f ≠ g → queued_clearing vm g → queued_clearing (post f opts vm) g.
Proof.
  intros Hne Hq o [Hin|Hin]%elem_of_app; [by apply Hq|].
  apply list_elem_of_singleton in Hin. congruence.
Qed.

Lemma interrupter_ok_put vm P f p g i :
  f ≠ g → interrupter_ok vm P g i → interrupter_ok vm (put f p P) g i.
Proof.
  intros Hne. assert (put f p P g = P g) as E
    by (unfold put; by rewrite decide_False by done).
  destruct i; simpl; rewrite ?E; done.
Qed.

Lemma interrupter_ok_post vm P f opts g i :
  f ≠ g → interrupter_ok vm P g i → interrupter_ok (post f opts vm) P g i.
Proof.
  intros Hne. destruct i; simpl; [..|done|done];
    pose proof (queued_clearing_post vm f opts g Hne); naive_solver.
Qed.

(** A task for the running fiber, which suspends. *)
Lemma inv_yield vm P :
  inv vm P → is_running vm →
  inv (set_thread (current_fiber_ vm) CoSuspended (post (current_fiber_ vm) skip_clear vm))
    (put (current_fiber_ vm) (Some Queued) P).
Proof.
  intros I [args Hf]. set (f := current_fiber_ vm) in *.
  pose proof (running_no_place I f args Hf) as HP.
  destruct (running_row I f args Hf) as (row0 & Hrow0 & Hs0 & Hi0).
  pose proof (inv_places _ _ I) as PL. split.
  - split.
    + intros o k. change (pending_at _ o) with (pending_at vm o). unfold put.
      rewrite (inv_pending _ _ PL o k). case_decide; [subst; rewrite HP|]; naive_solver.
    + apply PL.
    + intros k. simpl. rewrite fmap_app, elem_of_app. simpl.
      rewrite (inv_queue _ _ PL k), list_elem_of_singleton. unfold put.
      case_decide; naive_solver.
    + simpl. rewrite fmap_app. apply NoDup_app. split_and!; [apply PL| |apply NoDup_singleton].
      intros k Hk Hk'%list_elem_of_singleton. simpl in Hk'. subst k.
      apply (inv_queue _ _ PL) in Hk. congruence.
    + intros k j. change (joiner_at _ k) with (joiner_at vm k).
      rewrite (inv_join _ _ PL k j). unfold put.
      case_decide; [subst; rewrite HP|]; naive_solver.
    + intros k. rewrite lookup_set_thread. unfold put.
      case_decide; [subst; rewrite decide_True by done; unfold waiting; naive_solver|].
      rewrite decide_False by done. apply PL.
  - eapply (tables_set_thread (post f skip_clear vm)); [|exact Hf|..].
    + destruct (inv_tables _ _ I). by split.
    + by intros [].
    + by intros [].
    + by intros [].
  - intros k row i Hrow Hi. change (fiber_list _) with (fiber_list vm) in Hrow.
    assert (f ≠ k) as Hne by congruence.
    destruct (inv_interrupters _ _ I k row i Hrow Hi) as (Ht & ? & Hok).
    rewrite lookup_set_thread, decide_False by done. split_and!; [done|done|].
    apply (interrupter_ok_put _ _ f); [done|].
    apply (interrupter_ok_post vm P f skip_clear) in Hok; [|done].
    by destruct i.
Qed.

(** * Spawning *)
Definition new_row (signal : loc) : fiber_data :=
  FiberData JNone None 0 None (DNumber 0) false None (Some signal) None false.

Definition add_fiber (vm : vm_context) : vm_context :=
  post (next_loc vm) skip_clear
    (set_thread (next_loc vm) CoReady
      (with_fiber_list <[next_loc vm := new_row (S (next_loc vm))]>
        (with_next_loc (λ _, S (S (next_loc vm))) vm))).

Lemma no_place_new vm P : inv vm P → P (next_loc vm) = None.
Proof.
  intros I. destruct (P (next_loc vm)) as [p|] eqn:E; [|done].
  destruct (inv_fresh _ (inv_tables _ _ I) (next_loc vm)) as (_ & Hn & _); [done|].
  destruct (place_waiting I _ _ E); congruence.
Qed.

Lemma places_spawn vm P :
  inv vm P → places_inv (add_fiber vm) (put (next_loc vm) (Some Queued) P).
Proof.
  intros I. pose proof (no_place_new vm P I) as HP. set (f := next_loc vm) in *.
  destruct (inv_fresh _ (inv_tables _ _ I) f) as (Hno & Hnt & Hnf); [done|].
  pose proof (inv_places _ _ I) as PL.
  assert (∀ k, joiner_at (add_fiber vm) k = joiner_at vm k) as Ej.
  { intros k. unfold joiner_at. simpl. fold f. destruct (decide (f = k)) as [<-|].
    - by rewrite lookup_insert_eq, Hnf.
    - by rewrite lookup_insert_ne. }
  split.
  - intros o k. change (pending_at _ o) with (pending_at vm o). unfold put.
    rewrite (inv_pending _ _ PL o k). case_decide; [subst; rewrite HP|]; naive_solver.
  - apply PL.
  - intros k. simpl. rewrite fmap_app, elem_of_app. simpl.
    rewrite (inv_queue _ _ PL k), list_elem_of_singleton. unfold put. fold f.
    case_decide; naive_solver.
  - simpl. rewrite fmap_app. apply NoDup_app. split_and!; [apply PL| |apply NoDup_singleton].
    intros k Hk Hk'%list_elem_of_singleton. simpl in Hk'. fold f in Hk'. subst k.
    apply (inv_queue _ _ PL) in Hk. congruence.
  - intros k j. rewrite Ej, (inv_join _ _ PL k j). unfold put.
    case_decide; [subst; rewrite HP|]; naive_solver.
  - intros k. simpl. fold f. unfold put. case_decide.
    + subst k. rewrite lookup_insert_eq. unfold waiting. naive_solver.
    + rewrite lookup_insert_ne by done. apply PL.
Qed.

Lemma tables_spawn vm P : inv vm P → tables_inv (add_fiber vm).
Proof.
  intros I. set (f := next_loc vm).
  destruct (inv_fresh _ (inv_tables _ _ I) f) as (Hno & Hnt & Hnf); [done|].
  destruct (inv_tables _ _ I).
  assert (∀ k row, fiber_list vm !! k = Some row →
    fiber_list (add_fiber vm) !! k = Some row) as Hfwd.
  { intros k row Hk. simpl. fold f. rewrite lookup_insert_ne; [done|congruence]. }
  split.
  - intros k args. simpl. fold f. rewrite lookup_insert_Some. naive_solver.
  - intros k s. simpl. fold f. rewrite lookup_insert_Some.
    intros [[<- _]|[_ Hk]]; [unfold f; lia|by eapply inv_system].
  - intros k s. simpl. fold f. rewrite lookup_insert_Some.
    intros [[<- _]|[_ Hk]] Hd.
    + exists (new_row (S f)). by rewrite lookup_insert_eq.
    + destruct (inv_alive k s Hk Hd) as (row & ? & ?). exists row.
      split; [by apply Hfwd|done].
  - intros k row. simpl. fold f. rewrite lookup_insert_Some. intros [[<- <-]|[Hne Hk]].
    + exists CoReady. rewrite lookup_insert_eq. split; [done|].
      split; [by intros _ []|done].
    + rewrite lookup_insert_ne by done. by apply inv_row.
  - intros h k jip c Hh. destruct (inv_handle h k jip c Hh) as (row & Hr & ?).
    exists row. split; [by apply Hfwd|done].
  - apply inv_handle_inj.
  - intros k row j. simpl. fold f. rewrite lookup_insert_Some.
    intros [[<- <-]|[Hne Hk]]; [done|by apply inv_joined].
  - apply inv_env.
  - intros l Hl. simpl in *. fold f in Hl |- *.
    rewrite !lookup_insert_ne by lia. apply inv_fresh. unfold f in *. lia.
  - simpl. lia.
Qed.

Lemma inv_spawn vm P :
  inv vm P → inv (add_fiber vm) (put (next_loc vm) (Some Queued) P).
Proof.
  intros I. split; [by apply places_spawn|by eapply tables_spawn|].
  intros k row i. simpl. rewrite lookup_insert_Some. intros [[<- <-]|[Hne Hk]]; [done|].
  intros Hi. destruct (inv_interrupters _ _ I k row i Hk Hi) as (? & ? & Hok).
  rewrite lookup_insert_ne by done. split_and!; [done|done|].
  apply interrupter_ok_put; [done|].
  apply (interrupter_ok_post vm P (next_loc vm) skip_clear) in Hok; [|done].
  by destruct i.
Qed.

(** The handle of a new fiber. *)
Lemma inv_new_handle vm P f row :
  inv vm P → fiber_list vm !! f = Some row → joiner row = JNone →
  (∀ h b c, objects vm !! h ≠ Some (Fiber (Some f) b c)) →
  inv (new_object (Fiber (Some f) false None) vm).1 P.
Proof.
  intros I Hr Hj Hno.
  assert (inv (new_object (Fiber None false None) vm).1 P) as I'
    by (by apply inv_new_object).
  destruct I' as [PL T IT]. split.
  - destruct PL. split; try done; intros o; specialize (inv_pending o);
      specialize (inv_pending_nodup o); unfold pending_at in *; simpl in *;
      destruct (decide (next_loc vm = o)) as [<-|];
      rewrite ?lookup_insert_eq, ?lookup_insert_ne in * by done; done.
  - pose proof (fresh_object vm P I) as Hn.
    assert (∀ o y, objects (new_object (Fiber (Some f) false None) vm).1 !! o = Some y →
      (o = next_loc vm ∧ y = Fiber (Some f) false None) ∨ objects vm !! o = Some y) as Hinv.
    { intros o y. simpl. rewrite lookup_insert_Some. naive_solver. }
    pose proof (λ o y, lookup_new_object vm P (Fiber (Some f) false None) o y I) as Hfwd.
    destruct T. split; try done.
    + intros h k jip c [[-> [= -> -> ->]]|Hh]%Hinv; [by exists row|].
      by eapply (SchedulerInv.inv_handle _ (inv_tables _ _ I)).
    + intros h1 h2 k b1 b2 c1 c2 [[-> [= -> -> ->]]|H1]%Hinv [[-> [=]]|H2]%Hinv; subst;
        [done|by apply Hno in H2|by apply Hno in H1|].
      by eapply (SchedulerInv.inv_handle_inj _ (inv_tables _ _ I)).
    + intros k row' j Hk Hs Hj'.
      destruct (SchedulerInv.inv_joined _ (inv_tables _ _ I) k row' j Hk Hs Hj') as (h & c & ? & ?).
      exists h, c. split; [done|]. by apply Hfwd.
    + intros p s Hps.
      destruct (SchedulerInv.inv_env _ (inv_tables _ _ I) p s) as (w & st & r & Hs).
      { destruct Hps as [[[_ [=]]|?]%Hinv|[[_ [=]]|?]%Hinv]; eauto. }
      exists w, st, r. by apply Hfwd.
    + intros l Hl. destruct (inv_fresh l Hl) as (? & ? & ?). simpl in *.
      rewrite lookup_insert_ne in * by lia. done.
  - intros k r i Hk Hi. destruct (inv_interrupters _ _ I k r i Hk Hi) as (? & ? & ?).
    split_and!; [done|done|]. by apply interrupter_ok_new.
Qed.

(** * Collected promises *)
Lemma inv_delete_promise vm P p s :
  inv vm P → objects vm !! p = Some (Promise s) → inv (with_objects (delete p) vm) P.
Proof.
  intros I Hp.
  assert (∀ o y, objects (with_objects (delete p) vm) !! o = Some y →
    objects vm !! o = Some y) as Hinv.
  { intros o y. simpl. rewrite lookup_delete_Some. naive_solver. }
  assert (∀ o y, (∀ s', y ≠ Promise s') → objects vm !! o = Some y →
    objects (with_objects (delete p) vm) !! o = Some y) as Hfwd.
  { intros o y Hy Ho. simpl. rewrite lookup_delete_ne; [done|]. intros <-.
    apply (Hy s). congruence. }
  assert (∀ o, pending_at (with_objects (delete p) vm) o = pending_at vm o) as Ep.
  { intros o. unfold pending_at. simpl. destruct (decide (p = o)) as [<-|].
    - by rewrite lookup_delete_eq, Hp.
    - by rewrite lookup_delete_ne. }
  split.
  - destruct (inv_places _ _ I). split; try done; intros o; by rewrite Ep.
  - destruct (inv_tables _ _ I). split; try done.
    + intros h f jip c Hh%Hinv. by eapply inv_handle.
    + intros h1 h2 f b1 b2 c1 c2 H1%Hinv H2%Hinv. by eapply inv_handle_inj.
    + intros f row j Hr Hs Hj. destruct (inv_joined f row j Hr Hs Hj) as (h & c & ? & ?).
      exists h, c. split; [done|]. by apply Hfwd.
    + intros q s' Hq. destruct (inv_env q s') as (w & st & r & Hs).
      { destruct Hq as [?%Hinv|?%Hinv]; auto. }
      exists w, st, r. by apply Hfwd.
    + intros l Hl. destruct (inv_fresh l Hl) as (Hn & ? & ?). split_and!; [|done|done].
      simpl. rewrite lookup_delete_None. by right.
  - intros f row i Hr Hi. destruct (inv_interrupters _ _ I f row i Hr Hi) as (? & ? & Hok).
    split_and!; [done|done|].
    destruct i as [c g|s' g|h g t| | | |]; cbn -[with_objects] in Hok |- *; [| | |done..].
    + destruct Hok as (-> & [(HP & q & Hc)|Hq]); (split; [done|]); [left|by right].
      split; [done|]. exists q. by apply Hfwd.
    + destruct Hok as (-> & [(HP & w & st & r & Hc)|Hq]); (split; [done|]); [left|by right].
      split; [done|]. exists w, st, r. by apply Hfwd.
    + destruct Hok as (-> & HP & c & Hc). split_and!; [done|done|]. exists c. by apply Hfwd.
Qed.
