(* ===== verification/SchedulerJoin.v ===== *)
(** The last updates that preserve the scheduler's invariant: a task is run, a
    fiber is joined, let go of, ends. *)
From S2P Require Import Prelude Errors Lua Vm Sync FiberOps Scheduler SchedulerInv.
From S2P Require Import SchedulerFibers.
Import Schedule.

Lemma put_eq f p P : put f p P f = p.
Proof. unfold put. by rewrite decide_True. Qed.
Lemma put_ne f g p P : f ≠ g → put f p P g = P g.
Proof. intros. unfold put. by rewrite decide_False by congruence. Qed.

(** * Running a task *)
Section resume.
Context (vm : vm_context) (P : loc → option place) (f : loc) (opts : options)
  (ts : list task) (I : inv vm P) (Hidle : idle vm)
  (Hq : strand vm = FiberResume f opts :: ts).

Let vm0 := with_current_fiber (λ _, f) (with_strand (λ _, ts) vm).

Lemma head_queued : P f = Some Queued.
Proof.
  apply (inv_queue _ _ (inv_places _ _ I)). rewrite Hq. simpl. by left.
Qed.

Lemma tail_no_head opts' : FiberResume f opts' ∉ ts.
Proof.
  intros Hin%in_strand. pose proof (inv_queue_nodup _ _ (inv_places _ _ I)) as Hn.
  rewrite Hq in Hn. simpl in Hn. by apply NoDup_cons in Hn as [? _].
Qed.

Lemma places_resume args g :
  keeps g → places_inv (set_thread f (CoRunning args) (set_row f g vm0)) (put f None P).
Proof.
  intros Hg. pose proof head_queued as HP. pose proof (inv_places _ _ I) as PL.
  pose proof (inv_queue_nodup _ _ PL) as Hn. rewrite Hq in Hn. simpl in Hn.
  apply NoDup_cons in Hn as [Hnotin Hn].
  split.
  - intros o k. change (pending_at _ o) with (pending_at vm o).
    rewrite (inv_pending _ _ PL o k). unfold put. case_decide; [subst; rewrite HP|]; naive_solver.
  - apply PL.
  - intros k. change (strand _) with ts. pose proof (inv_queue _ _ PL k) as E.
    rewrite Hq in E. simpl in E. rewrite elem_of_cons in E. unfold put.
    case_decide; naive_solver.
  - done.
  - intros k j. change (joiner_at _ k) with (joiner_at (set_row f g vm) k).
    rewrite joiner_at_set_row by done. rewrite (inv_join _ _ PL k j).
    unfold put. case_decide; [subst; rewrite HP|]; naive_solver.
  - intros k. rewrite lookup_set_thread. change (threads _ !! k) with (threads vm !! k).
    unfold put. case_decide.
    + subst k. rewrite decide_True by done. split; [by intros []|by intros [?|?]].
    + rewrite decide_False by done. apply PL.
Qed.

Lemma tables_resume args g :
  keeps g → tables_inv (set_thread f (CoRunning args) (set_row f g vm0)).
Proof.
  intros Hg.
  assert (tables_inv (set_row f g vm0)) as T.
  { apply tables_set_row; [done|]. destruct (inv_tables _ _ I). split; try done.
    intros k args' Hk. exfalso. by eapply Hidle. }
  destruct (place_waiting I _ _ head_queued) as [Hf|Hf];
    (eapply (tables_set_thread (set_row f g vm0)); [done|exact Hf|..]; by try intros []).
Qed.

Lemma interrupters_resume args g :
  keeps g →
  (∀ row i, fiber_list vm !! f = Some row → interrupter (g row) = Some i →
     is_disabled (interruption_disabled row) = true ∨
     (interrupter row = Some i ∧ skip_clear_interrupter opts = true)) →
  (∀ row i, fiber_list vm !! f = Some row → interrupter (g row) = Some i →
     interrupter row = Some i) →
  interrupters_inv (set_thread f (CoRunning args) (set_row f g vm0)) (put f None P).
Proof.
  intros Hg Hi Hsame k row i Hrow Hint.
  change (fiber_list (set_row f g vm) !! k = Some row) in Hrow.
  rewrite lookup_set_row in Hrow. case_decide as Hk.
  - subst k. apply fmap_Some in Hrow as (row0 & Hrow0 & ->).
    pose proof (Hsame row0 i Hrow0 Hint) as Hint0.
    destruct (inv_interrupters _ _ I f row0 i Hrow0 Hint0) as (_ & Hd & Hok).
    destruct (Hi row0 i Hrow0 Hint) as [?|[_ Hskip]]; [congruence|]. exfalso.
    pose proof head_queued as HP.
    assert (queued_clearing vm f → False) as Hno.
    { intros Hqc. rewrite (Hqc opts) in Hskip; [done|]. rewrite Hq. by left. }
    destruct i as [c g'|s g'|h g' t| | | |]; simpl in Hok; [| | |done..]; naive_solver congruence.
  - destruct (inv_interrupters _ _ I k row i Hrow Hint) as (Ht & Hd & Hok).
    rewrite lookup_set_thread, decide_False by done. split_and!; [done|done|].
    apply interrupter_ok_put; [done|].
    assert (queued_clearing vm k → queued_clearing vm0 k) as Hqc.
    { intros Hc o Ho. apply Hc. rewrite Hq. by right. }
    destruct i as [c g'|s g'|h g' t| | | |]; simpl in Hok |- *; [| | |done..];
      unfold queued_clearing in *; simpl in *; naive_solver.
Qed.
End resume.

(** A task finds its fiber suspended, and sets it running. *)
Lemma inv_resume vm P f opts ts :
  inv vm P → valid_ vm = true → idle vm → strand vm = FiberResume f opts :: ts →
  ∃ vm', fiber_resume f opts (with_strand (λ _, ts) vm) = Some vm' ∧
    inv vm' (put f None P) ∧ current_fiber_ vm' = f ∧ is_running vm' ∧
    P f = Some Queued ∧ valid_ vm' = true.
Proof.
  intros I Hv Hidle Hq. pose proof (head_queued vm P f opts ts I Hq) as HP.
  set (g := λ row : fiber_data,
    if skip_clear_interrupter opts then row
    else if is_disabled (interruption_disabled row) then row
         else with_interrupter (λ _, None) row).
  assert (keeps g) as Hg.
  { intros row. unfold g. by repeat case_match. }
  set (args := push_argument f opts (with_current_fiber (λ _, f)
                 (with_strand (λ _, ts) vm)) <$> arguments opts).
  exists (set_thread f (CoRunning args) (set_row f g
    (with_current_fiber (λ _, f) (with_strand (λ _, ts) vm)))).
  split_and!; [| |done| |done|done].
  - unfold fiber_resume. simpl. rewrite Hv.
    assert (threads vm !! f = Some CoReady ∨ threads vm !! f = Some CoSuspended) as Hw
      by exact (place_waiting I _ _ HP).
    unfold g. destruct (skip_clear_interrupter opts).
    + assert (alter (λ row : fiber_data, row) f (fiber_list vm) = fiber_list vm) as E.
      { by apply alter_id. }
      unfold set_row, set_thread, with_threads, with_fiber_list, args; simpl.
      rewrite E. by destruct Hw as [-> | ->].
    + by destruct Hw as [-> | ->].
  - split.
    + by eapply places_resume.
    + by eapply tables_resume.
    + eapply interrupters_resume; [done|done|done| |]; intros row i Hrow; unfold g.
      * destruct (skip_clear_interrupter opts); [by right|].
        destruct (is_disabled _); [by left|done].
      * destruct (skip_clear_interrupter opts); [done|].
        destruct (is_disabled _); [done|done].
  - exists args. simpl. apply lookup_insert_eq.
Qed.

(** * Handles *)

(** The object of a handle is not one fibers wait in. *)
Lemma pending_at_handle vm h x x' o :
  objects vm !! h = Some x → pending x = [] → pending x' = [] →
  pending_at (set_object h x' vm) o = pending_at vm o.
Proof.
  intros Hh Hp Hp'. rewrite pending_at_set_object. case_decide; [subst o|done].
  unfold pending_at. by rewrite Hh, Hp.
Qed.

Lemma interrupter_ok_handle vm P h y y' f i :
  objects vm !! h = Some y →
  (∀ p, y ≠ Cond p) → (∀ w st r, y ≠ FutureState w st r) →
  (∀ g t, i = IJoin h g t → ∃ c, y' = Fiber (Some t) true c) →
  interrupter_ok vm P f i → interrupter_ok (set_object h y' vm) P f i.
Proof.
  intros Hh Hn1 Hn2 Hj. destruct i as [c g|s g|h' g t| | | |]; cbn -[set_object]; [| | |done..].
  - intros (-> & [(HP & p & Hc)|Hq]); (split; [done|]); [left|by right].
    split; [done|]. exists p. rewrite lookup_set_object.
    case_decide; [subst|done]. exfalso. apply (Hn1 p). congruence.
  - intros (-> & [(HP & w & st & r & Hc)|Hq]); (split; [done|]); [left|by right].
    split; [done|]. exists w, st, r. rewrite lookup_set_object.
    case_decide; [subst|done]. exfalso. apply (Hn2 w st r). congruence.
  - intros (-> & HP & c & Hc). split_and!; [done|done|].
    destruct (decide (h = h')) as [<-|].
    + destruct (Hj _ _ eq_refl) as [c' ->]. exists c'.
      rewrite lookup_set_object. by rewrite decide_True.
    + exists c. rewrite lookup_set_object. by rewrite decide_False.
Qed.

(** Tables survive a change at one handle [h] and the row of its fiber [t]:
    the handle may start or stop a join, or let go of the fiber, whose row may
    be dropped if it has ended. *)
Lemma tables_update vm vm' h t jip caught ft jip' caught' :
  tables_inv vm →
  current_fiber_ vm' = current_fiber_ vm →
  async_event_thread_ vm' = async_event_thread_ vm →
  next_loc vm' = next_loc vm →
  (∀ k s', threads vm' !! k = Some s' → ∃ s, threads vm !! k = Some s ∧
     (dead s' ↔ dead s) ∧ ((∃ args, s' = CoRunning args) → k = current_fiber_ vm)) →
  (∀ k s, threads vm !! k = Some s → is_Some (threads vm' !! k)) →
  (∀ k r', fiber_list vm' !! k = Some r' → ∃ r, fiber_list vm !! k = Some r ∧
     status r' = status r ∧
     (k ≠ t → joiner r' = joiner r ∧ user_handle r' = user_handle r)) →
  (∀ k r, fiber_list vm !! k = Some r → (k = t → status r = None ∨ ft = Some t) →
     is_Some (fiber_list vm' !! k)) →
  objects vm !! h = Some (Fiber (Some t) jip caught) →
  (∀ o, o ≠ h → objects vm' !! o = objects vm !! o) →
  objects vm' !! h = Some (Fiber ft jip' caught') →
  match ft with
  | Some t' => t' = t ∧ ∃ r', fiber_list vm' !! t = Some r' ∧
      (if jip' then status r' = None ∧ user_handle r' = Some h ∧
                    ∃ j, joiner r' = JThread j else joiner r' = JNone)
  | None => True
  end →
  (∀ r' j, fiber_list vm' !! t = Some r' → status r' = None → joiner r' = JThread j →
     ft = Some t ∧ jip' = true ∧ user_handle r' = Some h) →
  tables_inv vm'.
Proof.
  intros T Ec Ea En Ht Ht' Hr Hr' Hh Ho Hh' Hft Hj.
  assert (∀ h' t' b c, h' ≠ h → objects vm !! h' = Some (Fiber (Some t') b c) → t' ≠ t)
    as Hother.
  { intros h' t' b c Hne Hc ->. apply Hne. by eapply (inv_handle_inj _ T). }
  split.
  - intros k args Hk. destruct (Ht _ _ Hk) as (s & _ & _ & Hc). rewrite Ec. eauto.
  - intros k s Hk. destruct (Ht _ _ Hk) as (s' & Hs & _). rewrite Ea.
    by eapply (inv_system _ T).
  - intros k s Hk Hd. destruct (Ht _ _ Hk) as (s' & Hs & E & _).
    destruct (inv_alive _ T k s' Hs) as (r & Hrk & Hst); [tauto|].
    destruct (Hr' k r Hrk) as [r' Hrk']; [by left|]. exists r'. split; [done|].
    destruct (Hr k r' Hrk') as (r1 & ? & -> & _). congruence.
  - intros k r' Hk. destruct (Hr k r' Hk) as (r & Hrk & -> & _).
    destruct (inv_row _ T k r Hrk) as (s & Hs & E). destruct (Ht' k s Hs) as [s' Hs'].
    exists s'. split; [done|]. destruct (Ht k s' Hs') as (s1 & ? & E' & _).
    assert (s1 = s) as -> by congruence. rewrite E. tauto.
  - intros h' k b c Hk. destruct (decide (h' = h)) as [->|Hne].
    + rewrite Hh' in Hk. injection Hk as -> -> ->. by destruct Hft as [-> ?].
    + rewrite Ho in Hk by done. pose proof (Hother h' k b c Hne Hk) as Hkt.
      destruct (inv_handle _ T h' k b c Hk) as (r & Hrk & Hjr).
      destruct (Hr' k r Hrk) as [r' Hrk']; [done|]. exists r'. split; [done|].
      destruct (Hr k r' Hrk') as (r1 & ? & -> & E).
      assert (r1 = r) as -> by congruence. by destruct (E Hkt) as [-> ->].
  - intros h1 h2 k b1 b2 c1 c2 H1 H2.
    destruct (decide (h1 = h)) as [->|N1], (decide (h2 = h)) as [->|N2]; [done|..];
      rewrite ?Ho in * by done.
    + rewrite Hh' in H1. injection H1 as -> -> ->. destruct Hft as [-> _].
      by destruct (Hother h2 t b2 c2).
    + rewrite Hh' in H2. injection H2 as -> -> ->. destruct Hft as [-> _].
      by destruct (Hother h1 t b1 c1).
    + by eapply (inv_handle_inj _ T).
  - intros k r' j Hk Hs Hjk. destruct (decide (k = t)) as [->|Hkt].
    + destruct (Hj r' j Hk Hs Hjk) as (-> & -> & ?). by exists h, caught'.
    + destruct (Hr k r' Hk) as (r & Hrk & Es & E). destruct (E Hkt) as [Ej Eu].
      destruct (inv_joined _ T k r j Hrk) as (h' & c & ? & Hc); [congruence..|].
      exists h', c. split; [congruence|]. rewrite Ho; [done|congruence].
  - intros p s Hps.
    assert (∃ w st r, objects vm !! s = Some (FutureState w st r)) as (w & st & r & Hs).
    { apply (inv_env _ T p s). destruct (decide (p = h)) as [->|].
      - rewrite Hh' in Hps. by destruct Hps.
      - by rewrite Ho in Hps. }
    exists w, st, r. rewrite Ho; [done|congruence].
  - intros l Hl. rewrite En in Hl. destruct (inv_fresh _ T l Hl) as (Hn1 & Hn2 & Hn3).
    split_and!.
    + rewrite Ho; [done|congruence].
    + destruct (threads vm' !! l) eqn:E; [|done]. apply Ht in E as (? & ? & _). congruence.
    + destruct (fiber_list vm' !! l) eqn:E; [|done]. apply Hr in E as (? & ? & _). congruence.
  - rewrite Ea, En. apply T.
Qed.

Section handle.
Context (vm : vm_context) (P : loc → option place) (I : inv vm P).
Context (h t : loc) (caught : option bool) (row : fiber_data).
Hypothesis (Hrow : fiber_list vm !! t = Some row).

(** ** Joining a running fiber *)
Definition start_join : vm_context :=
  set_thread (current_fiber_ vm) CoSuspended
    (set_object h (Fiber (Some t) true caught)
      (set_interrupter (Some (IJoin h (current_fiber_ vm) t))
        (set_row t
           (λ row, with_user_handle (λ _, Some h)
                     (with_joiner (λ _, JThread (current_fiber_ vm)) row)) vm))).

Section start_join.
Hypothesis (Hh : objects vm !! h = Some (Fiber (Some t) false caught)).
Hypothesis (Hrun : is_running vm).
Hypothesis (Hst : status row = None).
Hypothesis (Hne : t ≠ current_fiber_ vm).

Lemma joinable_row : joiner row = JNone.
Proof.
  destruct (inv_handle _ (inv_tables _ _ I) h t false caught Hh) as (row' & Hr & Hj).
  congruence.
Qed.

Lemma start_join_row k r :
  fiber_list start_join !! k = Some r →
  ∃ r0, fiber_list vm !! k = Some r0 ∧ status r = status r0 ∧
    (if decide (k = t) then joiner r = JThread (current_fiber_ vm) ∧ user_handle r = Some h
     else joiner r = joiner r0 ∧ user_handle r = user_handle r0) ∧
    (if decide (k = current_fiber_ vm) then
       ∀ i, interrupter r = Some i → is_disabled (interruption_disabled r) = false ∧
         i = IJoin h (current_fiber_ vm) t
     else interrupter r = interrupter r0 ∧
          interruption_disabled r = interruption_disabled r0).
Proof.
  destruct Hrun as [args Hf]. set (f := current_fiber_ vm) in *.
  destruct (running_row I f args Hf) as (row0 & Hrow0 & Hs0 & Hi0).
  unfold start_join. simpl. fold f.
  destruct (decide (k = f)) as [->|Hkf].
  - rewrite lookup_alter_eq, lookup_alter_ne by done.
    rewrite Hrow0. simpl. intros [= <-]. exists row0. split; [done|].
    rewrite decide_False by done.
    destruct (is_disabled (interruption_disabled row0)) eqn:Hd; simpl; rewrite ?Hd;
      split_and!; [done|done|done|congruence|done|done|done|].
    intros i [= <-]. done.
  - rewrite lookup_alter_ne by done. case_decide.
    + subst k. rewrite lookup_alter_eq, Hrow. simpl. intros [= <-]. by exists row.
    + rewrite lookup_alter_ne by done. intros Hk. by exists r.
Qed.

Lemma start_join_row_fwd k r0 :
  fiber_list vm !! k = Some r0 → ∃ r, fiber_list start_join !! k = Some r.
Proof.
  intros Hk. unfold start_join. simpl.
  destruct (decide (current_fiber_ vm = k)) as [<-|].
  - rewrite lookup_alter_eq, lookup_alter_ne by done. rewrite Hk. by eexists.
  - rewrite lookup_alter_ne by done. destruct (decide (t = k)) as [<-|].
    + rewrite lookup_alter_eq, Hk. by eexists.
    + rewrite lookup_alter_ne by done. by eexists.
Qed.

Lemma joiner_at_start_join k :
  joiner_at start_join k = if decide (k = t) then Some (current_fiber_ vm) else joiner_at vm k.
Proof.
  unfold joiner_at. destruct (fiber_list start_join !! k) as [r|] eqn:E.
  - destruct (start_join_row k r E) as (r0 & Hr0 & Hs & Hj & _). rewrite Hr0, Hs.
    case_decide.
    + subst k. destruct Hj as [-> _]. assert (r0 = row) as -> by congruence. by rewrite Hst.
    + by destruct Hj as [-> _].
  - destruct (fiber_list vm !! k) as [r0|] eqn:E0.
    + destruct (start_join_row_fwd k r0 E0). congruence.
    + case_decide; [subst|done]. congruence.
Qed.

Lemma places_start_join :
  places_inv start_join (put (current_fiber_ vm) (Some (Joining t)) P).
Proof.
  destruct Hrun as [args Hf]. pose proof (running_no_place I _ args Hf) as HP.
  pose proof (inv_places _ _ I) as PL. split.
  - intros o k. change (pending_at _ o) with
      (pending_at (set_object h (Fiber (Some t) true caught) vm) o).
    rewrite (pending_at_handle _ _ _ _ _ Hh), (inv_pending _ _ PL o k) by done.
    unfold put. case_decide; [subst; rewrite HP|]; naive_solver.
  - intros o. change (pending_at _ o) with
      (pending_at (set_object h (Fiber (Some t) true caught) vm) o).
    rewrite (pending_at_handle _ _ _ _ _ Hh) by done. apply PL.
  - intros k. change (strand _) with (strand vm). rewrite (inv_queue _ _ PL k).
    unfold put. case_decide; [subst; rewrite HP|]; naive_solver.
  - apply PL.
  - intros k j. rewrite joiner_at_start_join.
    pose proof (inv_join _ _ PL k j) as E. unfold put.
    assert (joiner_at vm t = None) as Ht.
    { unfold joiner_at. by rewrite Hrow, Hst, joinable_row. }
    repeat case_decide; subst; naive_solver.
  - intros k. unfold start_join. rewrite lookup_set_thread. unfold put. case_decide.
    + subst k. rewrite decide_True by done. unfold waiting. naive_solver.
    + rewrite decide_False by done. apply PL.
Qed.

Lemma tables_start_join : tables_inv start_join.
Proof.
  destruct Hrun as [args Hf].
  destruct (start_join_row_fwd t row Hrow) as [rt Hrt].
  destruct (start_join_row t rt Hrt) as (r0 & Hr0 & Hs & Hj & _).
  rewrite decide_True in Hj by done. destruct Hj as [Hj Hu].
  assert (r0 = row) as -> by congruence.
  apply (tables_update vm start_join h t false caught (Some t) true caught);
    [apply I|done|done|done|..].
  - intros k s. unfold start_join. rewrite lookup_set_thread.
    case_decide; [subst k; intros [= <-]|intros Hk].
    + exists (CoRunning args). split_and!; [done|by split; intros []|done].
    + exists s. split_and!; [done|done|]. intros [a ->].
      by apply (inv_current _ (inv_tables _ _ I)) in Hk.
  - intros k s Hk. unfold start_join. rewrite lookup_set_thread. by case_decide.
  - intros k r Hk. destruct (start_join_row k r Hk) as (r1 & ? & ? & Hjk & _).
    exists r1. split_and!; [done|done|]. intros Hkt. by rewrite decide_False in Hjk.
  - intros k r Hk _. by destruct (start_join_row_fwd k r Hk) as [? ->].
  - done.
  - intros o Ho. change (objects start_join) with
      (objects (set_object h (Fiber (Some t) true caught) vm)).
    rewrite lookup_set_object. by rewrite decide_False by done.
  - apply lookup_insert_eq.
  - split; [done|]. exists rt. split; [done|].
    rewrite Hs, Hj, Hu. split_and!; [done|done|by eexists].
  - intros r j Hr _ _. assert (r = rt) as -> by congruence. done.
Qed.

Lemma inv_start_join : inv start_join (put (current_fiber_ vm) (Some (Joining t)) P).
Proof.
  split; [apply places_start_join|apply tables_start_join|].
  intros k r i Hr Hi. destruct Hrun as [args Hf].
  destruct (start_join_row k r Hr) as (r0 & Hr0 & _ & _ & Hint).
  unfold start_join. rewrite lookup_set_thread. case_decide.
  - subst k. destruct (Hint i Hi) as [Hd ->]. rewrite decide_True by done.
    split_and!; [done|done|]. simpl. split_and!; [done|by rewrite put_eq|].
    exists caught. apply lookup_insert_eq.
  - destruct Hint as [Ei Ed]. rewrite Ei in Hi.
    destruct (inv_interrupters _ _ I k r0 i Hr0 Hi) as (? & ? & Hok).
    rewrite decide_False by done. split_and!; [done|by rewrite Ed|].
    apply interrupter_ok_put; [done|].
    apply (interrupter_ok_handle vm P h (Fiber (Some t) false caught)
             (Fiber (Some t) true caught)) in Hok.
    + by destruct i.
    + exact Hh.
    + done.
    + done.
    + intros g t' ->. simpl in Hok. destruct Hok as (_ & _ & c & Hc). congruence.
Qed.
End start_join.
End handle.

(** ** Interrupting a join *)
Section interrupt_join.
Context (vm : vm_context) (P : loc → option place) (I : inv vm P).
Context (h f t : loc) (row : fiber_data).
Hypothesis (Hrow : fiber_list vm !! f = Some row).
Hypothesis (Hint : interrupter row = Some (IJoin h f t)).

Definition interrupted_join : vm_context :=
  set_row f (with_interrupter (λ _, None)) (join_interrupter h f t vm).

Lemma join_interrupter_facts :
  threads vm !! f = Some CoSuspended ∧ P f = Some (Joining t) ∧
  joiner_at vm t = Some f ∧ ∃ c, objects vm !! h = Some (Fiber (Some t) true c).
Proof.
  destruct (inv_interrupters _ _ I f row _ Hrow Hint) as (? & _ & _ & HP & Hc).
  split_and!; [done|done| |done]. by apply (inv_join _ _ (inv_places _ _ I)).
Qed.

Lemma interrupted_join_row k :
  fiber_list interrupted_join !! k =
    (λ r, let r := if decide (k = t) then with_user_handle (λ _, None)
                                            (with_joiner (λ _, JNone) r) else r in
          if decide (k = f) then with_interrupter (λ _, None) r else r)
      <$> fiber_list vm !! k.
Proof.
  unfold interrupted_join, join_interrupter. rewrite lookup_set_row.
  match goal with |- context [fiber_list (post f _ ?v)] =>
    change (fiber_list (post f _ v)) with (fiber_list v) end.
  assert (∀ v : vm_context,
    fiber_list match objects v !! h with
               | Some (Fiber fb _ caught) => set_object h (Fiber fb false caught) v
               | _ => v end = fiber_list v) as ->
    by (intros v; by repeat case_match).
  rewrite lookup_set_row.
  destruct (fiber_list vm !! k) as [r|]; simpl; repeat case_decide; simpl; congruence.
Qed.

Lemma interrupted_join_eq c :
  objects vm !! h = Some (Fiber (Some t) true c) →
  objects interrupted_join = <[h := Fiber (Some t) false c]> (objects vm) ∧
  threads interrupted_join = threads vm ∧
  strand interrupted_join = strand vm ++
    [FiberResume f (with_arguments [ABool false; AError Core.interrupted])].
Proof. intros Hc. unfold interrupted_join, join_interrupter. simpl. by rewrite Hc. Qed.

Lemma joiner_at_interrupted_join k :
  joiner_at interrupted_join k = if decide (k = t) then None else joiner_at vm k.
Proof.
  unfold joiner_at. rewrite interrupted_join_row.
  destruct (fiber_list vm !! k) as [r|]; simpl; repeat case_decide; simpl;
    (done || by destruct (status r)).
Qed.

Lemma places_interrupted_join : places_inv interrupted_join (put f (Some Queued) P).
Proof.
  destruct join_interrupter_facts as (Hf & HP & Hj & c & Hc).
  destruct (interrupted_join_eq c Hc) as (Eo & Et & Es).
  pose proof (inv_places _ _ I) as PL.
  assert (∀ o, pending_at interrupted_join o = pending_at vm o) as Ep.
  { intros o. unfold pending_at. rewrite Eo. destruct (decide (h = o)) as [<-|].
    - by rewrite lookup_insert_eq, Hc.
    - by rewrite lookup_insert_ne. }
  split.
  - intros o k. rewrite Ep, (inv_pending _ _ PL o k). unfold put.
    case_decide; [subst; rewrite HP|]; naive_solver.
  - intros o. rewrite Ep. apply PL.
  - intros k. rewrite Es, fmap_app, elem_of_app. simpl.
    rewrite (inv_queue _ _ PL k), list_elem_of_singleton. unfold put.
    case_decide; naive_solver.
  - rewrite Es, fmap_app. apply NoDup_app. split_and!; [apply PL| |apply NoDup_singleton].
    intros k Hk Hk'%list_elem_of_singleton. simpl in Hk'. subst k.
    apply (inv_queue _ _ PL) in Hk. congruence.
  - intros k j. rewrite joiner_at_interrupted_join.
    pose proof (inv_join _ _ PL k j) as E. unfold put.
    repeat case_decide; subst; naive_solver.
  - intros k. rewrite Et. unfold put. case_decide.
    + subst k. rewrite Hf. unfold waiting. naive_solver.
    + apply PL.
Qed.

Lemma tables_interrupted_join : tables_inv interrupted_join.
Proof.
  destruct join_interrupter_facts as (Hf & HP & Hj & c & Hc).
  destruct (interrupted_join_eq c Hc) as (Eo & Et & Es).
  pose proof (inv_tables _ _ I) as T.
  destruct (inv_handle _ T h t true c Hc) as (rt & Hrt & Hst & _).
  apply (tables_update vm interrupted_join h t true c (Some t) false c); try done.
  1-3: unfold interrupted_join, join_interrupter; simpl; by rewrite Hc.
  - rewrite Et. intros k s Hk. exists s. split_and!; [done|done|]. intros [a ->].
    by eapply (inv_current _ T).
  - rewrite Et. by eexists.
  - intros k r. rewrite interrupted_join_row. intros (r0 & Hk & ->)%fmap_Some.
    exists r0. split; [done|]. repeat case_decide; subst; done.
  - intros k r Hk _. rewrite interrupted_join_row, Hk. by eexists.
  - intros o Ho. rewrite Eo. by rewrite lookup_insert_ne.
  - rewrite Eo. apply lookup_insert_eq.
  - split; [done|]. rewrite interrupted_join_row, Hrt. simpl. eexists. split; [done|].
    by repeat case_decide.
  - intros r j. rewrite interrupted_join_row, Hrt. simpl. intros [= <-].
    by repeat case_decide.
Qed.

Lemma inv_interrupted_join : inv interrupted_join (put f (Some Queued) P).
Proof.
  split; [apply places_interrupted_join|apply tables_interrupted_join|].
  destruct join_interrupter_facts as (Hf & HP & Hj & c & Hc).
  destruct (interrupted_join_eq c Hc) as (Eo & Et & Es).
  intros k r i. rewrite interrupted_join_row. intros (r0 & Hr0 & ->)%fmap_Some Hi.
  rewrite Et. destruct (decide (k = f)) as [->|Hkf]; [done|].
  assert (interrupter r0 = Some i) as Hi0 by (revert Hi; case_decide; done).
  destruct (inv_interrupters _ _ I k r0 i Hr0 Hi0) as (? & ? & Hok).
  split_and!; [done|by case_decide|].
  apply interrupter_ok_put; [done|].
  apply (interrupter_ok_handle vm P h (Fiber (Some t) true c)
           (Fiber (Some t) false c)) in Hok;
    [|exact Hc|done|done|].
  - assert (queued_clearing vm k → queued_clearing interrupted_join k) as Hqc.
    { intros Hq o. rewrite Es. intros [?|Hin]%elem_of_app; [by apply Hq|].
      apply list_elem_of_singleton in Hin. congruence. }
    destruct i as [c' g|s g|h' g t'| | | |]; cbn -[interrupted_join] in Hok |- *; rewrite ?Eo;
      [| |done..];
      destruct Hok as (-> & [[??]|[??]]); (split; [done|]);
      first [by left|right; split; [done|by apply Hqc]].
  - intros g t' ->. exfalso. simpl in Hok. destruct Hok as (<- & HPk & c' & Hc').
    assert (t' = t) as -> by congruence.
    apply (inv_join _ _ (inv_places _ _ I)) in HPk. congruence.
Qed.
End interrupt_join.

(** ** Letting go of a handle *)
Section let_go.
Context (vm : vm_context) (P : loc → option place) (I : inv vm P).
Context (h t : loc) (caught caught' : option bool) (row : fiber_data).
Hypothesis (Hh : objects vm !! h = Some (Fiber (Some t) false caught)).
Hypothesis (Hrow : fiber_list vm !! t = Some row).

Lemma inv_detach :
  inv (set_object h (Fiber None false caught') (set_row t (with_joiner (λ _, JDetached)) vm)) P.
Proof.
  pose proof (inv_tables _ _ I) as T. pose proof (inv_places _ _ I) as PL.
  destruct (inv_handle _ T h t false caught Hh) as (row' & Hr' & Hj).
  assert (row' = row) as -> by congruence.
  set (vm' := set_object _ _ _).
  assert (∀ k, joiner_at vm' k = joiner_at vm k) as Ej.
  { intros k. unfold joiner_at.
    change (fiber_list vm') with (fiber_list (set_row t (with_joiner (λ _, JDetached)) vm)).
    rewrite lookup_set_row. case_decide; [subst k|done].
    rewrite Hrow. simpl. rewrite Hj. by destruct (status row). }
  assert (∀ o, pending_at vm' o = pending_at vm o) as Ep.
  { intros o. by apply (pending_at_handle (set_row t (with_joiner (λ _, JDetached)) vm)
      h (Fiber (Some t) false caught)). }
  split.
  - destruct PL. split; try done; intros; rewrite ?Ep, ?Ej; done.
  - apply (tables_update vm vm' h t false caught None false caught'); try done.
    + intros k s Hk. exists s. split_and!; [done|done|]. intros [a ->].
      by eapply (inv_current _ T).
    + intros k r. change (fiber_list vm') with
        (fiber_list (set_row t (with_joiner (λ _, JDetached)) vm)).
      rewrite lookup_set_row. case_decide; [|by eauto].
      intros (r0 & -> & ->)%fmap_Some. exists r0. subst. done.
    + intros k r Hk _. change (fiber_list vm') with
        (fiber_list (set_row t (with_joiner (λ _, JDetached)) vm)).
      rewrite lookup_set_row, Hk. by case_decide.
    + intros o Ho. unfold vm'. rewrite lookup_set_object. by rewrite decide_False by done.
    + apply lookup_insert_eq.
    + intros r j. change (fiber_list vm') with
        (fiber_list (set_row t (with_joiner (λ _, JDetached)) vm)).
      rewrite lookup_set_row, decide_True, Hrow by done. by intros [= <-].
  - intros k r i Hk Hi.
    assert (∃ r0, fiber_list vm !! k = Some r0 ∧ interrupter r = interrupter r0 ∧
      interruption_disabled r = interruption_disabled r0) as (r0 & Hr0 & Ei & Ed).
    { change (fiber_list vm') with
        (fiber_list (set_row t (with_joiner (λ _, JDetached)) vm)) in Hk.
      rewrite lookup_set_row in Hk. case_decide; [|by eauto].
      apply fmap_Some in Hk as (r0 & ? & ->). by exists r0. }
    rewrite Ei in Hi. destruct (inv_interrupters _ _ I k r0 i Hr0 Hi) as (? & ? & Hok).
    rewrite Ed. split_and!; [done|done|].
    apply (interrupter_ok_handle vm P h (Fiber (Some t) false caught)
             (Fiber None false caught')) in Hok;
      [by destruct i|exact Hh|done|done|].
    intros g t' ->. simpl in Hok. destruct Hok as (_ & _ & c & Hc). congruence.
Qed.

Lemma inv_forget :
  status row ≠ None →
  inv (set_object h (Fiber None false caught') (with_fiber_list (delete t) vm)) P.
Proof.
  intros Hst. pose proof (inv_tables _ _ I) as T. pose proof (inv_places _ _ I) as PL.
  set (vm' := set_object _ _ _).
  assert (∀ k r, fiber_list vm' !! k = Some r → k ≠ t ∧ fiber_list vm !! k = Some r) as Hl.
  { intros k r. change (fiber_list vm') with (delete t (fiber_list vm)).
    rewrite lookup_delete_Some. naive_solver. }
  assert (∀ k, joiner_at vm' k = joiner_at vm k) as Ej.
  { intros k. unfold joiner_at. change (fiber_list vm') with (delete t (fiber_list vm)).
    destruct (decide (t = k)) as [<-|].
    - rewrite lookup_delete_eq, Hrow. by destruct (status row).
    - by rewrite lookup_delete_ne. }
  assert (∀ o, pending_at vm' o = pending_at vm o) as Ep.
  { intros o. by apply (pending_at_handle (with_fiber_list (delete t) vm)
      h (Fiber (Some t) false caught)). }
  split.
  - destruct PL. split; try done; intros; rewrite ?Ep, ?Ej; done.
  - apply (tables_update vm vm' h t false caught None false caught'); try done.
    + intros k s Hk. exists s. split_and!; [done|done|]. intros [a ->].
      by eapply (inv_current _ T).
    + intros k r [_ Hk]%Hl. by exists r.
    + intros k r Hk Hne. change (fiber_list vm') with (delete t (fiber_list vm)).
      destruct (decide (t = k)) as [<-|]; [|by rewrite lookup_delete_ne].
      assert (r = row) as -> by congruence. by destruct (Hne eq_refl).
    + intros o Ho. unfold vm'. rewrite lookup_set_object. by rewrite decide_False by done.
    + apply lookup_insert_eq.
    + by intros r j [? _]%Hl.
  - intros k r i [_ Hk]%Hl Hi.
    destruct (inv_interrupters _ _ I k r i Hk Hi) as (? & ? & Hok).
    split_and!; [done|done|].
    apply (interrupter_ok_handle vm P h (Fiber (Some t) false caught)
             (Fiber None false caught')) in Hok;
      [by destruct i|exact Hh|done|done|].
    intros g t' ->. simpl in Hok. destruct Hok as (_ & _ & c & Hc). congruence.
Qed.
End let_go.
