(* ===== verification/SchedulerEnd.v ===== *)
(** The end of a fiber preserves the scheduler's invariant: with its handle
    still around, detached, or joined, in which case the joiner runs next. *)
From S2P Require Import Prelude Errors Lua Vm Sync FiberOps Scheduler SchedulerInv.
From S2P Require Import SchedulerFibers SchedulerJoin.
Import Schedule.

(** Tables survive the end of the fiber [f]. *)
Lemma tables_end vm vm' f :
  tables_inv vm →
  async_event_thread_ vm' = async_event_thread_ vm →
  next_loc vm' = next_loc vm →
  (∀ k args, threads vm' !! k = Some (CoRunning args) → k = current_fiber_ vm') →
  (∃ r, threads vm' !! f = Some (CoDead r)) →
  (∀ k s', k ≠ f → threads vm' !! k = Some s' →
     ∃ s, threads vm !! k = Some s ∧ (dead s' ↔ dead s)) →
  (∀ k, threads vm !! k = None ↔ threads vm' !! k = None) →
  (∀ k r', fiber_list vm' !! k = Some r' → ∃ r, fiber_list vm !! k = Some r ∧
     joiner r' = joiner r ∧ user_handle r' = user_handle r ∧
     (if decide (k = f) then status r' ≠ None else status r' = status r)) →
  (∀ k r, k ≠ f → fiber_list vm !! k = Some r → is_Some (fiber_list vm' !! k)) →
  (∀ o t b c, objects vm' !! o = Some (Fiber (Some t) b c) →
     objects vm !! o = Some (Fiber (Some t) b c) ∧
     (t = f → b = false ∧ is_Some (fiber_list vm' !! f))) →
  (∀ o y, objects vm !! o = Some y →
     objects vm' !! o = Some y ∨ ∃ b c, y = Fiber (Some f) b c) →
  (∀ o y, objects vm' !! o = Some y →
     objects vm !! o = Some y ∨ (∃ b c, y = Fiber None b c) ∧ is_Some (objects vm !! o)) →
  tables_inv vm'.
Proof.
  intros T Ea En Hc [rd Hf] Ht Ht' Hr Hr' Ho Ho' Ho''. split.
  - done.
  - intros k s Hk. rewrite Ea. destruct (threads vm !! k) eqn:E.
    + by eapply (inv_system _ T).
    + apply Ht' in E. congruence.
  - intros k s Hk Hd. destruct (decide (k = f)) as [->|Hne].
    { exfalso. apply Hd. exists rd. congruence. }
    destruct (Ht k s Hne Hk) as (s' & Hs & E).
    destruct (inv_alive _ T k s' Hs) as (r & Hrk & Hst); [tauto|].
    destruct (Hr' k r Hne Hrk) as [r' Hrk']. exists r'. split; [done|].
    destruct (Hr k r' Hrk') as (r1 & ? & _ & _ & Es).
    rewrite decide_False in Es by done. congruence.
  - intros k r' Hk. destruct (Hr k r' Hk) as (r & Hrk & _ & _ & Es).
    destruct (decide (k = f)) as [->|Hne].
    + exists (CoDead rd). split; [done|]. unfold dead. naive_solver.
    + destruct (threads vm' !! k) as [s'|] eqn:E.
      2:{ destruct (inv_row _ T k r Hrk) as (s & Hs & _). apply Ht' in E. congruence. }
      exists s'. split; [done|]. destruct (Ht k s' Hne E) as (s & Hs & E').
      destruct (inv_row _ T k r Hrk) as (s1 & ? & E1).
      assert (s1 = s) as -> by congruence. rewrite Es, E1. tauto.
  - intros h k b c Hk. destruct (Ho h k b c Hk) as [Hk' Hkf].
    destruct (inv_handle _ T h k b c Hk') as (r & Hrk & Hj).
    assert (is_Some (fiber_list vm' !! k)) as [r' Hr'k].
    { destruct (decide (k = f)) as [->|Hne]; [by apply Hkf|by eapply Hr']. }
    exists r'. split; [done|]. destruct (Hr k r' Hr'k) as (r1 & ? & Ej & Eu & Es).
    assert (r1 = r) as -> by congruence. rewrite Ej, Eu.
    destruct b; [|done]. case_decide; [by destruct Hkf|]. by rewrite Es.
  - intros h1 h2 k b1 b2 c1 c2 H1%Ho H2%Ho.
    eapply (inv_handle_inj _ T); [apply H1|apply H2].
  - intros k r' j Hk Hs Hj. destruct (Hr k r' Hk) as (r & Hrk & Ej & Eu & Es).
    case_decide; [done|]. rewrite Ej in Hj. rewrite Es in Hs.
    destruct (inv_joined _ T k r j Hrk Hs Hj) as (h & c & ? & Hh).
    exists h, c. split; [congruence|]. destruct (Ho' _ _ Hh) as [?|(? & ? & ?)]; [done|].
    congruence.
  - intros p s Hps.
    assert (∃ w st r, objects vm !! s = Some (FutureState w st r)) as (w & st & r & Hs).
    { apply (inv_env _ T p s). destruct Hps as [Hp|Hp]; apply Ho'' in Hp as
        [?|[(? & ? & ?) _]]; auto; done. }
    exists w, st, r. by destruct (Ho' _ _ Hs) as [?|(? & ? & ?)].
  - intros l Hl. rewrite En in Hl. destruct (inv_fresh _ T l Hl) as (Hn1 & Hn2 & Hn3).
    split_and!.
    + destruct (objects vm' !! l) eqn:E; [|done].
      apply Ho'' in E as [?|[_ [? ?]]]; congruence.
    + by apply Ht'.
    + destruct (fiber_list vm' !! l) eqn:E; [|done]. apply Hr in E as (? & ? & _). congruence.
  - rewrite Ea, En. apply T.
Qed.

Section fiber_end.
Context (vm : vm_context) (P : loc → option place) (I : inv vm P).
Context (r : result) (args : list rvalue) (row : fiber_data).
Let f := current_fiber_ vm.
Hypothesis (Hf : threads vm !! f = Some (CoRunning args)).
Hypothesis (Hrow : fiber_list vm !! f = Some row).

Lemma end_row : status row = None ∧ interrupter row = None ∧ P f = None.
Proof.
  destruct (running_row I f args Hf) as (row' & Hr & ? & ?).
  assert (row' = row) as -> by congruence.
  split_and!; [done|done|by eapply running_no_place].
Qed.

Lemma end_current k args' : threads vm !! k = Some (CoRunning args') → k = f.
Proof. apply (inv_current _ (inv_tables _ _ I)). Qed.

(** ** Not joined *)
Definition ended : vm_context :=
  set_row f (with_status (λ _, Some (status_of r))) (set_thread f (CoDead r) vm).
Definition gone : vm_context :=
  with_fiber_list (delete f) (set_thread f (CoDead r) vm).

Lemma places_not_joined vm' :
  objects vm' = objects vm → strand vm' = strand vm →
  threads vm' = <[f := CoDead r]> (threads vm) →
  (∀ k, joiner_at vm' k = joiner_at vm k) →
  places_inv vm' P.
Proof.
  intros Eo Es Et Ej. pose proof (inv_places _ _ I) as PL.
  destruct end_row as (_ & _ & HP).
  assert (∀ o, pending_at vm' o = pending_at vm o) as Ep
    by (intros; unfold pending_at; by rewrite Eo).
  split; intros; rewrite ?Ep, ?Es, ?Ej; try apply PL.
  rewrite Et. destruct (decide (f = f0)) as [<-|].
  - rewrite lookup_insert_eq, HP. split; [by intros []|by intros [|]].
  - rewrite lookup_insert_ne by done. apply PL.
Qed.

Lemma joiner_at_dead vm' k :
  joiner_at vm f = None → joiner_at vm' f = None →
  (f ≠ k → fiber_list vm' !! k = fiber_list vm !! k) →
  joiner_at vm' k = joiner_at vm k.
Proof.
  intros H1 H2 H3. destruct (decide (f = k)) as [<-|Hne]; [congruence|].
  unfold joiner_at. by rewrite H3.
Qed.

Lemma interrupters_not_joined vm' :
  objects vm' = objects vm → strand vm' = strand vm →
  threads vm' = <[f := CoDead r]> (threads vm) →
  (∀ k row', fiber_list vm' !! k = Some row' →
     (k = f ∧ interrupter row' = None) ∨ (k ≠ f ∧ fiber_list vm !! k = Some row')) →
  interrupters_inv vm' P.
Proof.
  intros Eo Es Et Hr k row' i Hk Hi. destruct (Hr k row' Hk) as [[_ ?]|[Hne Hk']]; [congruence|].
  destruct (inv_interrupters _ _ I k row' i Hk' Hi) as (? & ? & Hok).
  rewrite Et, lookup_insert_ne by done. split_and!; [done|done|].
  destruct i; simpl in *; rewrite ?Eo; [| |done..];
    unfold queued_clearing in *; rewrite Es; done.
Qed.

Lemma threads_end vm' :
  threads vm' = <[f := CoDead r]> (threads vm) → current_fiber_ vm' = f →
  (∀ k args, threads vm' !! k = Some (CoRunning args) → k = current_fiber_ vm') ∧
  (∃ r, threads vm' !! f = Some (CoDead r)) ∧
  (∀ k s', k ≠ f → threads vm' !! k = Some s' →
     ∃ s, threads vm !! k = Some s ∧ (dead s' ↔ dead s)) ∧
  (∀ k, threads vm !! k = None ↔ threads vm' !! k = None).
Proof.
  intros -> ->. split_and!.
  - intros k a. rewrite lookup_insert_Some. intros [[_ [=]]|[_ Hk]]. by eapply end_current.
  - exists r. by rewrite lookup_insert_eq.
  - intros k s' Hne. rewrite lookup_insert_ne by done. by exists s'.
  - intros k. rewrite lookup_insert_None. split; [|by intros []].
    intros Hk. split; [done|]. congruence.
Qed.

Lemma inv_ended : joiner row = JNone → inv ended P.
Proof.
  intros Hj. destruct end_row as (Hs & Hi & HP).
  assert (∀ k, fiber_list ended !! k =
    if decide (f = k) then Some (with_status (λ _, Some (status_of r)) row)
    else fiber_list vm !! k) as El.
  { intros k. unfold ended. rewrite lookup_set_row. case_decide; [subst k|done].
    change (fiber_list (set_thread _ _ ?v)) with (fiber_list v). by rewrite Hrow. }
  split.
  - apply places_not_joined; [done..|]. intros k. apply joiner_at_dead.
    + unfold joiner_at. by rewrite Hrow, Hs, Hj.
    + unfold joiner_at. by rewrite El, decide_True.
    + intros Hne. by rewrite El, decide_False.
  - destruct (threads_end ended eq_refl eq_refl) as (? & ? & ? & ?).
    apply (tables_end vm ended f); try done.
    + apply I.
    + intros k r'. rewrite El. case_decide; [subst k|].
      * intros [= <-]. exists row. by rewrite decide_True.
      * intros Hk. exists r'. by rewrite decide_False by done.
    + intros k r' Hne Hk. rewrite El, decide_False by done. by eexists.
    + intros o t b c Ho. split; [done|]. intros ->.
      destruct (inv_handle _ (inv_tables _ _ I) o f b c Ho) as (row' & Hr' & Hjj).
      assert (row' = row) as -> by congruence. destruct b.
      * destruct Hjj as (_ & _ & ? & ?). congruence.
      * split; [done|]. rewrite El, decide_True by done. by eexists.
    + auto.
    + auto.
  - apply interrupters_not_joined; [done..|]. intros k row'. rewrite El.
    case_decide; [subst k; intros [= <-]; by left|by right].
Qed.

Lemma inv_gone : joiner row = JDetached → inv gone P.
Proof.
  intros Hj. destruct end_row as (Hs & Hi & HP).
  assert (∀ k, fiber_list gone !! k = if decide (f = k) then None else fiber_list vm !! k)
    as El.
  { intros k. simpl. case_decide; [subst; apply lookup_delete_eq|by apply lookup_delete_ne]. }
  split.
  - apply places_not_joined; [done..|]. intros k. apply joiner_at_dead.
    + unfold joiner_at. by rewrite Hrow, Hs, Hj.
    + unfold joiner_at. by rewrite El, decide_True.
    + intros Hne. by rewrite El, decide_False.
  - destruct (threads_end gone eq_refl eq_refl) as (? & ? & ? & ?).
    apply (tables_end vm gone f); try done.
    + apply I.
    + intros k r'. rewrite El. case_decide; [done|].
      intros Hk. exists r'. by rewrite decide_False by done.
    + intros k r' Hne Hk. rewrite El, decide_False by done. by eexists.
    + intros o t b c Ho. split; [done|]. intros ->. exfalso.
      destruct (inv_handle _ (inv_tables _ _ I) o f b c Ho) as (row' & Hr' & Hjj).
      assert (row' = row) as -> by congruence. destruct b; [|congruence].
      destruct Hjj as (_ & _ & ? & ?). congruence.
    + auto.
    + auto.
  - apply interrupters_not_joined; [done..|]. intros k row'. rewrite El.
    case_decide; [done|by right].
Qed.

(** ** Joined *)
Section joined.
Context (j h : loc) (c : option bool) (vals : list rvalue).
Hypothesis (Hj : joiner row = JThread j).
Hypothesis (Hh : objects vm !! h = Some (Fiber (Some f) true c)).
Hypothesis (Hu : user_handle row = Some h).

Definition clear_row (row : fiber_data) : fiber_data :=
  if is_disabled (interruption_disabled row) then row
  else with_interrupter (λ _, None) row.

Definition handed_over : vm_context :=
  set_thread j (CoRunning vals)
    (set_row j clear_row
      (with_current_fiber (λ _, j)
        (set_object h (Fiber None true (Some (is_interrupted r))) ended))).

Lemma joiner_facts :
  P j = Some (Joining f) ∧ waiting (threads vm !! j) ∧ j ≠ f.
Proof.
  destruct end_row as (Hs & Hi & HP).
  assert (P j = Some (Joining f)) as HPj.
  { apply (inv_join _ _ (inv_places _ _ I)). unfold joiner_at. by rewrite Hrow, Hs, Hj. }
  split_and!; [done|by eapply place_waiting|congruence].
Qed.

Lemma handed_over_row k :
  fiber_list handed_over !! k =
    if decide (j = k) then clear_row <$> fiber_list vm !! k
    else if decide (f = k) then Some (with_status (λ _, Some (status_of r)) row)
    else fiber_list vm !! k.
Proof.
  destruct joiner_facts as (_ & _ & Hjf). unfold handed_over.
  change (fiber_list (set_thread _ _ ?v)) with (fiber_list v). rewrite lookup_set_row.
  change (fiber_list (with_current_fiber _ (set_object _ _ ?v))) with (fiber_list v).
  assert (∀ k, fiber_list ended !! k =
    if decide (f = k) then Some (with_status (λ _, Some (status_of r)) row)
    else fiber_list vm !! k) as El.
  { intros k'. unfold ended. rewrite lookup_set_row. case_decide; [subst k'|done].
    change (fiber_list (set_thread _ _ ?v)) with (fiber_list v). by rewrite Hrow. }
  rewrite El. by repeat (case_decide; subst).
Qed.

Lemma handed_over_thread k :
  threads handed_over !! k =
    if decide (j = k) then Some (CoRunning vals)
    else if decide (f = k) then Some (CoDead r) else threads vm !! k.
Proof.
  unfold handed_over, ended. rewrite lookup_set_thread. case_decide; [done|].
  change (threads (set_row _ _ ?v)) with (threads v).
  change (threads (with_current_fiber _ ?v)) with (threads v).
  change (threads (set_object _ _ ?v)) with (threads v).
  change (threads (set_row _ _ ?v)) with (threads v).
  apply lookup_set_thread.
Qed.

Lemma handed_over_row_inv k r' :
  fiber_list handed_over !! k = Some r' →
  ∃ r0, fiber_list vm !! k = Some r0 ∧ joiner r' = joiner r0 ∧
    user_handle r' = user_handle r0 ∧
    (if decide (k = f) then status r' ≠ None else status r' = status r0) ∧
    interruption_disabled r' = interruption_disabled r0 ∧
    (∀ i, interrupter r' = Some i → interrupter r0 = Some i) ∧
    (k = j → interrupter r' = None).
Proof.
  destruct joiner_facts as (_ & _ & Hjf). rewrite handed_over_row. case_decide.
  - subst k. intros (r0 & Hr0 & ->)%fmap_Some. exists r0. rewrite decide_False by done.
    unfold clear_row. destruct (is_disabled (interruption_disabled r0)) eqn:Hd; [|done].
    split_and!; try done. intros _. destruct (interrupter r0) as [i|] eqn:Hi; [|done].
    destruct (inv_interrupters _ _ I j r0 i Hr0 Hi) as (_ & ? & _). congruence.
  - case_decide; [subst k; intros [= <-]|].
    + exists row. rewrite decide_True by done. split_and!; done.
    + intros Hk. exists r'. rewrite decide_False by done. split_and!; done.
Qed.

Lemma joiner_at_handed_over k :
  joiner_at handed_over k = if decide (k = f) then None else joiner_at vm k.
Proof.
  unfold joiner_at. destruct (fiber_list handed_over !! k) as [r'|] eqn:E.
  - destruct (handed_over_row_inv k r' E) as (r0 & -> & -> & _ & Es & _).
    case_decide; [by destruct (status r')|by rewrite Es].
  - case_decide; [done|]. rewrite handed_over_row in E.
    repeat case_decide; [|congruence|by rewrite E].
    destruct (fiber_list vm !! k); [done|done].
Qed.

Lemma places_handed_over : places_inv handed_over (put j None P).
Proof.
  destruct joiner_facts as (HPj & Hw & Hjf). destruct end_row as (_ & _ & HP).
  pose proof (inv_places _ _ I) as PL.
  assert (∀ o, pending_at handed_over o = pending_at vm o) as Ep.
  { intros o. exact (pending_at_handle vm h (Fiber (Some f) true c)
      (Fiber None true (Some (is_interrupted r))) o Hh eq_refl eq_refl). }
  split.
  - intros o k. rewrite Ep, (inv_pending _ _ PL o k). unfold put.
    case_decide; [subst; rewrite HPj|]; naive_solver.
  - intros o. rewrite Ep. apply PL.
  - intros k. change (strand handed_over) with (strand vm). rewrite (inv_queue _ _ PL k).
    unfold put. case_decide; [subst; rewrite HPj|]; naive_solver.
  - apply PL.
  - intros k k'. rewrite joiner_at_handed_over.
    pose proof (inv_join _ _ PL k k') as E. unfold put.
    pose proof (proj2 (inv_join _ _ PL f j) HPj) as Hjj.
    destruct (decide (k = f)) as [->|Hkf], (decide (k' = j)) as [->|Hkj];
      (split; intros Hk); try congruence; try apply E in Hk; congruence.
  - intros k. rewrite handed_over_thread. unfold put.
    destruct (decide (k = j)) as [->|Hne].
    + rewrite decide_True by done. split; [by intros []|by intros [|]].
    + rewrite decide_False by done. case_decide; [subst k|apply PL].
      rewrite HP. split; [by intros []|by intros [|]].
Qed.

Lemma tables_handed_over : tables_inv handed_over.
Proof.
  destruct joiner_facts as (HPj & Hw & Hjf).
  assert (∀ o, objects handed_over !! o =
    if decide (h = o) then Some (Fiber None true (Some (is_interrupted r)))
    else objects vm !! o) as Eo by (intros o; exact (lookup_set_object vm h _ o)).
  apply (tables_end vm handed_over f); try done.
  - apply I.
  - intros k a. rewrite handed_over_thread. change (current_fiber_ handed_over) with j.
    repeat case_decide; [done|done|]. intros Hk. apply end_current in Hk. by subst k.
  - exists r. rewrite handed_over_thread, decide_False by done. by rewrite decide_True.
  - intros k s' Hne. rewrite handed_over_thread. case_decide.
    + subst k. intros [= <-]. destruct Hw as [Hw|Hw]; eexists; (split; [exact Hw|]);
        by split; intros [].
    + rewrite decide_False by done. by exists s'.
  - intros k. rewrite handed_over_thread.
    destruct (decide (j = k)) as [<-|]; [destruct Hw; split; congruence|].
    destruct (decide (f = k)) as [<-|]; [rewrite Hf; split; congruence|done].
  - intros k r' Hk. destruct (handed_over_row_inv k r' Hk) as (r0 & ? & ? & ? & ? & _).
    by exists r0.
  - intros k r' Hne Hk. rewrite handed_over_row. repeat case_decide; [|done|by eexists].
    rewrite Hk. by eexists.
  - intros o t b c'. rewrite Eo. case_decide as Ho; [done|]. intros Ht. split; [done|].
    intros ->. exfalso. apply Ho. by eapply (inv_handle_inj _ (inv_tables _ _ I)).
  - intros o y Hy. rewrite Eo. case_decide; [right|by left].
    subst o. rewrite Hh in Hy. simplify_eq. by eexists _, _.
  - intros o y. rewrite Eo. case_decide; [right|by left].
    subst o. simplify_eq. split; [by eexists _, _|by eexists].
Qed.

Lemma inv_handed_over : inv handed_over (put j None P).
Proof.
  split; [apply places_handed_over|apply tables_handed_over|].
  destruct joiner_facts as (HPj & Hw & Hjf). destruct end_row as (_ & Hi0 & _).
  intros k r' i Hk Hi.
  destruct (handed_over_row_inv k r' Hk) as (r0 & Hr0 & _ & _ & _ & Ed & Ei & Hkj).
  pose proof (Ei i Hi) as Hi'.
  destruct (inv_interrupters _ _ I k r0 i Hr0 Hi') as (Ht & ? & Hok).
  destruct (decide (k = j)) as [->|Hne]; [rewrite Hkj in Hi; done|].
  assert (k ≠ f) by congruence.
  rewrite handed_over_thread, !decide_False by done.
  split_and!; [done|by rewrite Ed|]. apply interrupter_ok_put; [done|].
  apply (interrupter_ok_handle vm P h (Fiber (Some f) true c)
    (Fiber None true (Some (is_interrupted r)))) in Hok; [by destruct i|done|done|done|].
  intros g t ->. exfalso. simpl in Hok. destruct Hok as (_ & HPk & c' & Hc').
  assert (t = f) as -> by congruence.
  apply (inv_join _ _ (inv_places _ _ I)) in HPk, HPj. congruence.
Qed.
End joined.
End fiber_end.
