(* ===== verification/SchedulerCalls.v ===== *)
(** Every call of a fiber keeps the scheduler's invariant and is explained by
    moves of the abstract scheduler: one lemma for each operation. *)
From S2P Require Import Prelude Errors Lua Vm Sync FiberOps Scheduler SchedulerInv.
From S2P Require Import SchedulerFibers SchedulerJoin SchedulerEnd.
Import Schedule.

(** * The abstraction relation *)
Definition runs (vm : vm_context) (r : option loc) : Prop :=
  match r with
  | Some f => f = current_fiber_ vm ∧ is_running vm
  | None => idle vm
  end.

Definition abstracts (vm : vm_context) (A : Schedule.t) : Prop :=
  inv vm (place_of A) ∧ runs vm (running A).

(** The invariant only looks at some of the fields. *)
Lemma inv_ext vm vm' P :
  current_fiber_ vm' = current_fiber_ vm →
  async_event_thread_ vm' = async_event_thread_ vm →
  threads vm' = threads vm → fiber_list vm' = fiber_list vm →
  objects vm' = objects vm → strand vm' = strand vm → next_loc vm' = next_loc vm →
  inv vm P → inv vm' P.
Proof.
  destruct vm, vm'. simpl. intros -> -> -> -> -> -> -> [[] [] ?].
  split; [by split|by split|done].
Qed.

(** * Moves *)
Lemma moves_put_all P r fs u :
  NoDup fs → (∀ f, f ∈ fs → P f = Some (InObject u)) →
  rtc move (Sched P r) (Sched (put_all fs P) r).
Proof.
  induction fs as [|f fs IH]; intros Hn HP; simpl; [done|].
  apply NoDup_cons in Hn as [Hf Hn]. eapply rtc_r; [apply IH; [done|set_solver]|].
  apply (Wake _ _ _ (InObject u)); [|done].
  rewrite put_all_lookup, decide_False by done. apply HP. set_solver.
Qed.

Lemma erase_Permutation f l :
  f ∈ l → l ≡ₚ [f] ++ ConditionVariable.erase f l.
Proof.
  induction l as [|g l IH]; simpl; [set_solver|]. case_decide; [by subst|].
  intros [?|Hin]%elem_of_cons; [congruence|]. rewrite (IH Hin) at 1. simpl.
  by rewrite Permutation_swap.
Qed.

(** * The shape of a call *)
Definition call_ok (vm : vm_context) (P : loc → option place)
    (r : vm_context * answer) : Prop :=
  r.2 ≠ Stuck ∧ valid_ r.1 = valid_ vm ∧
  ∃ A', rtc move (Sched P (Some (current_fiber_ vm))) A' ∧ abstracts (settle r) A'.

Lemma idle_set_suspended vm vm0 :
  tables_inv vm0 → threads vm = <[current_fiber_ vm0 := CoSuspended]> (threads vm0) →
  idle vm.
Proof.
  intros T Et f args. rewrite Et, lookup_insert_Some. intros [[_ [=]]|[Hne Hf]].
  by apply (inv_current _ T) in Hf.
Qed.

Section calls.
Context (vm : vm_context) (P : loc → option place) (I : inv vm P) (Hrun : is_running vm).

(** The call goes on running, after some moves of other fibers. *)
Lemma call_ok_return vm' a P' :
  a ≠ Stuck → a ≠ Yield → valid_ vm' = valid_ vm →
  current_fiber_ vm' = current_fiber_ vm → threads vm' = threads vm →
  rtc move (Sched P (Some (current_fiber_ vm))) (Sched P' (Some (current_fiber_ vm))) →
  inv vm' P' → call_ok vm P (vm', a).
Proof.
  intros Hs Hy Hv Hc Ht Hm I'. split_and!; [done|done|].
  eexists. split; [exact Hm|]. unfold settle. simpl. destruct a; try done;
    (split; [done|]); simpl; rewrite Hc; (split; [done|]);
    destruct Hrun as [args Hf]; exists args; by rewrite Ht, Hc.
Qed.

Lemma call_ok_same a : a ≠ Stuck → a ≠ Yield → call_ok vm P (vm, a).
Proof. intros. by eapply call_ok_return. Qed.

(** The answers of [unsafe_can_suspend]. *)
Lemma can_suspend_answer a : unsafe_can_suspend vm = Some a → call_ok vm P (vm, a).
Proof.
  intros Ha. destruct Hrun as [args Hf]. destruct (running_row I _ _ Hf) as (row & Hrow & _).
  unfold unsafe_can_suspend in Ha. rewrite Hrow in Ha.
  case_hyps Ha; by apply call_ok_same.
Qed.
Lemma can_suspend2_answer a : unsafe_can_suspend2 vm = Some a → call_ok vm P (vm, a).
Proof.
  intros Ha. destruct Hrun as [args Hf]. destruct (running_row I _ _ Hf) as (row & Hrow & _).
  unfold unsafe_can_suspend2 in Ha. rewrite Hrow in Ha.
  case_hyps Ha; by apply call_ok_same.
Qed.

Lemma object_at_Some L i u x : object_at L i vm = Some (u, x) → objects vm !! u = Some x.
Proof.
  unfold object_at. destruct (arg L i) as [[]|]; try done.
  intros (y & ? & ?)%fmap_Some. by simplify_eq.
Qed.

(** A new object. *)
Lemma new_call_ok x a :
  env_ok vm x → pending x = [] → a ≠ Stuck → a ≠ Yield →
  call_ok vm P ((new_object x vm).1, a).
Proof.
  intros Hx Hp Hs Hy. eapply call_ok_return; try done.
  by apply inv_new_object.
Qed.

(** An object's fields change, its pending list does not. *)
Lemma set_call_ok u x x' a :
  objects vm !! u = Some x → same_kind x x' → pending x' = pending x →
  a ≠ Stuck → a ≠ Yield → call_ok vm P (set_object u x' vm, a).
Proof.
  intros. eapply call_ok_return; try done. by eapply inv_set_object.
Qed.

(** Fibers are woken up. *)
Lemma wake_moves u x ws r rest :
  objects vm !! u = Some x → pending x ≡ₚ ws ++ rest →
  rtc move (Sched P r) (Sched (put_all ws P) r).
Proof using I.
  clear Hrun. intros Hu Hp. apply (moves_put_all _ _ _ u).
  - pose proof (pending_nodup I u x Hu) as Hn. rewrite Hp in Hn.
    by apply NoDup_app in Hn as (? & _).
  - intros f Hf. apply (in_pending I u x); [done|]. rewrite Hp. set_solver.
Qed.

Lemma wake_call_ok u x x' ws opts a :
  objects vm !! u = Some x → same_kind x x' → pending x ≡ₚ ws ++ pending x' →
  (skip_clear_interrupter opts = true →
     match x with Mutex _ _ | RecursiveMutex _ _ _ => True | _ => False end) →
  a ≠ Stuck → a ≠ Yield →
  call_ok vm P (ConditionVariable.post_all ws opts (set_object u x' vm), a).
Proof.
  intros Hu Hk Hp Hs ? ?. apply (call_ok_return _ a (put_all ws P)); try done.
  - by eapply wake_moves.
  - by eapply inv_wake_all.
Qed.

(** The fiber waits in an object. *)
Lemma park_call_ok u x x' i :
  objects vm !! u = Some x → same_kind x x' →
  pending x' = pending x ++ [current_fiber_ vm] →
  interrupter_for u x (current_fiber_ vm) i →
  call_ok vm P (set_object u x' (park_interrupter i vm), Yield).
Proof.
  intros Hu Hk Hp Hi. split_and!; [done|by destruct i|].
  assert (current_fiber_ (set_object u x' (park_interrupter i vm)) = current_fiber_ vm)
    as Ec by by destruct i.
  eexists. split.
  - apply rtc_once, Park. destruct Hrun as [args Hf]. by eapply running_no_place.
  - unfold settle. cbn [fst snd]. rewrite Ec. split; [by apply (inv_park vm P u x)|].
    apply (idle_set_suspended _ vm); [apply I|by destruct i].
Qed.

(** * Mutexes *)
Lemma mutex_lock_ok L : call_ok vm P (Mutex.mutex_lock L vm).
Proof.
  unfold Mutex.mutex_lock.
  destruct (object_at L 1 vm) as [[u []]|] eqn:Ho; try by apply call_ok_same.
  apply object_at_Some in Ho.
  destruct (unsafe_can_suspend2 vm) eqn:Hc; [by apply can_suspend2_answer|].
  destruct locked.
  - by apply (park_call_ok u _ _ None Ho).
  - by eapply set_call_ok.
Qed.

Lemma mutex_try_lock_ok L : call_ok vm P (Mutex.mutex_try_lock L vm).
Proof.
  unfold Mutex.mutex_try_lock.
  destruct (object_at L 1 vm) as [[u []]|] eqn:Ho; try by apply call_ok_same.
  apply object_at_Some in Ho.
  destruct locked; [by apply call_ok_same|by eapply set_call_ok].
Qed.

Lemma mutex_unlock_ok L : call_ok vm P (Mutex.mutex_unlock L vm).
Proof.
  unfold Mutex.mutex_unlock.
  destruct (object_at L 1 vm) as [[u []]|] eqn:Ho; try by apply call_ok_same.
  apply object_at_Some in Ho.
  destruct locked; [|by apply call_ok_same]. unfold Mutex.release.
  destruct pending as [|next rest].
  - by eapply set_call_ok.
  - by apply (wake_call_ok u (Mutex (next :: rest) true) (Mutex rest true) [next]).
Qed.

Lemma recursive_mutex_lock_ok L : call_ok vm P (RecursiveMutex.recursive_mutex_lock L vm).
Proof.
  unfold RecursiveMutex.recursive_mutex_lock.
  destruct (object_at L 1 vm) as [[u []]|] eqn:Ho; try by apply call_ok_same.
  apply object_at_Some in Ho.
  destruct (unsafe_can_suspend2 vm) eqn:Hc; [by apply can_suspend2_answer|].
  destruct owner as [f|]; [|by eapply set_call_ok].
  case_decide; [case_decide; [by apply call_ok_same|by eapply set_call_ok]|].
  by apply (park_call_ok u _ _ None Ho).
Qed.

Lemma recursive_mutex_try_lock_ok L :
  call_ok vm P (RecursiveMutex.recursive_mutex_try_lock L vm).
Proof.
  unfold RecursiveMutex.recursive_mutex_try_lock.
  destruct (object_at L 1 vm) as [[u []]|] eqn:Ho; try by apply call_ok_same.
  apply object_at_Some in Ho.
  destruct owner as [f|]; [|by eapply set_call_ok].
  case_decide; [|by apply call_ok_same].
  case_decide; [by apply call_ok_same|by eapply set_call_ok].
Qed.

Lemma recursive_mutex_unlock_ok L :
  call_ok vm P (RecursiveMutex.recursive_mutex_unlock L vm).
Proof.
  unfold RecursiveMutex.recursive_mutex_unlock.
  destruct (object_at L 1 vm) as [[u []]|] eqn:Ho; try by apply call_ok_same.
  apply object_at_Some in Ho.
  case_decide; [|by apply call_ok_same]. case_decide; [by eapply set_call_ok|].
  destruct pending as [|next rest].
  - by eapply set_call_ok.
  - by apply (wake_call_ok u (RecursiveMutex (next :: rest) nlocked owner)
                (RecursiveMutex rest 1 (Some next)) [next]).
Qed.

(** * Condition variables *)
Lemma notify_one_ok L : call_ok vm P (ConditionVariable.cond_notify_one L vm).
Proof.
  unfold ConditionVariable.cond_notify_one.
  destruct (object_at L 1 vm) as [[u []]|] eqn:Ho; try by apply call_ok_same.
  apply object_at_Some in Ho. destruct pending as [|next rest]; [by apply call_ok_same|].
  by apply (wake_call_ok u (Cond (next :: rest)) (Cond rest) [next]).
Qed.

Lemma notify_all_ok L : call_ok vm P (ConditionVariable.cond_notify_all L vm).
Proof.
  unfold ConditionVariable.cond_notify_all.
  destruct (object_at L 1 vm) as [[u []]|] eqn:Ho; try by apply call_ok_same.
  apply object_at_Some in Ho.
  apply (wake_call_ok u (Cond pending) (Cond []) pending); try done. simpl.
  by rewrite app_nil_r.
Qed.
End calls.

(** [wait] parks the fiber, then releases the mutex for the next one. *)
Lemma cond_wait_ok vm P L :
  inv vm P → is_running vm → call_ok vm P (ConditionVariable.cond_wait L vm).
Proof.
  intros I Hrun. unfold ConditionVariable.cond_wait.
  destruct (object_at L 1 vm) as [[c []]|] eqn:Ho; try by apply call_ok_same.
  destruct (object_at L 2 vm) as [[m []]|] eqn:Hm;
    try (apply call_ok_same; try done; unfold ConditionVariable.bad_mutex_arg;
         by repeat case_match).
  apply object_at_Some in Ho, Hm.
  destruct locked; [|by apply call_ok_same].
  destruct (unsafe_can_suspend vm) eqn:Hc; [by apply can_suspend_answer|].
  set (f := current_fiber_ vm).
  destruct (park_call_ok vm P I Hrun c _ (Cond (pending ++ [f])) (Some (ICond c f)) Ho)
    as (_ & Hv & A & Hmoves & [IA HrA]); [done..|].
  unfold settle in IA, HrA. simpl in IA, HrA.
  set (vm1 := set_object c (Cond (pending ++ [f])) (set_interrupter (Some (ICond c f)) vm)) in *.
  assert (objects vm1 !! m = Some (Mutex pending0 true)) as Hm1.
  { unfold vm1. rewrite lookup_set_object. rewrite decide_False by congruence. done. }
  destruct pending0 as [|next rest]; unfold Mutex.release.
  - split_and!; [done|done|]. exists A. split; [done|]. split; [|done].
    exact (inv_set_object _ _ m (Mutex [] true) (Mutex [] false) IA Hm1 Logic.I eq_refl).
  - split_and!; [done|done|]. exists (Sched (put_all [next] (place_of A)) (running A)).
    split.
    + etrans; [exact Hmoves|]. destruct A as [PA rA].
      apply (wake_moves (set_thread f CoSuspended vm1) PA IA m (Mutex (next :: rest) true)
               [next] rA rest); done.
    + split; [|done].
      exact (inv_wake_all _ _ IA m (Mutex (next :: rest) true) (Mutex rest true) [next]
               skip_clear Hm1 Logic.I (reflexivity _) (λ _, Logic.I)).
Qed.

(** * Futures *)
Section futures.
Context (vm : vm_context) (P : loc → option place) (I : inv vm P) (Hrun : is_running vm).

Lemma future_new_ok : call_ok vm P (Future.future_new vm).
Proof.
  unfold Future.future_new.
  set (v1 := (new_object (FutureState [] empty Future.LUA_NOREF) vm).1).
  set (s := next_loc vm).
  assert (inv v1 P) as I1 by by apply inv_new_object.
  assert (objects v1 !! s = Some (FutureState [] empty Future.LUA_NOREF)) as H1
    by apply lookup_insert_eq.
  set (v2 := (new_object (Promise s) v1).1).
  assert (inv v2 P) as I2 by (apply inv_new_object; [done|by repeat eexists|done]).
  assert (objects v2 !! s = Some (FutureState [] empty Future.LUA_NOREF)) as H2
    by by eapply lookup_new_object.
  assert (inv (new_object (Future s) v2).1 P) as I3
    by (apply inv_new_object; [done|by repeat eexists|done]).
  by apply (call_ok_return vm P Hrun _ _ P).
Qed.

(** Setting a promise: the waiters of its state are posted. *)
Lemma settle_promise_ok s waiters state ref state' ref' opts reg :
  objects vm !! s = Some (FutureState waiters state ref) →
  skip_clear_interrupter opts = false →
  call_ok vm P
    (set_object s (FutureState [] state' ref')
       (ConditionVariable.post_all waiters opts (with_registry reg vm)), Return []).
Proof.
  intros Hs Hk.
  apply (call_ok_return vm P Hrun _ _ (put_all waiters P)); try done.
  - apply (wake_moves vm P I s (FutureState waiters state ref) waiters _ []); [done|].
    by rewrite app_nil_r.
  - apply (inv_ext (ConditionVariable.post_all waiters opts
      (set_object s (FutureState [] state' ref') vm))); try done.
    apply (inv_wake_all vm P I s (FutureState waiters state ref)); try done.
    + by rewrite app_nil_r.
    + congruence.
Qed.

Lemma with_registry_id : with_registry (λ r, r) vm = vm.
Proof. by destruct vm. Qed.

Lemma promise_set_value_ok L : call_ok vm P (Future.promise_set_value L vm).
Proof.
  unfold Future.promise_set_value.
  destruct (object_at (settop 2 L) 1 vm) as [[p []]|] eqn:Ho; try by apply call_ok_same.
  apply object_at_Some in Ho.
  destruct (inv_env _ (inv_tables _ _ I) p env) as (w & st & r & Hs); [by left|].
  rewrite Hs. case_decide; [by apply call_ok_same|]. unfold Future.luaL_ref.
  case_decide.
  - rewrite <- with_registry_id at 2. by eapply settle_promise_ok.
  - by eapply settle_promise_ok.
Qed.

Lemma promise_set_error_ok L : call_ok vm P (Future.promise_set_error L vm).
Proof.
  unfold Future.promise_set_error.
  destruct (object_at (settop 2 L) 1 vm) as [[p []]|] eqn:Ho; try by apply call_ok_same.
  apply object_at_Some in Ho. case_decide as Hnil; [by apply call_ok_same|].
  destruct (inv_env _ (inv_tables _ _ I) p env) as (w & st & r & Hs); [by left|].
  rewrite Hs. case_decide; [by apply call_ok_same|]. unfold Future.luaL_ref.
  rewrite decide_False by done. by eapply settle_promise_ok.
Qed.

Lemma future_get_ok L : call_ok vm P (Future.future_get L vm).
Proof.
  unfold Future.future_get.
  destruct (object_at L 1 vm) as [[u []]|] eqn:Ho; try by apply call_ok_same.
  apply object_at_Some in Ho.
  destruct (unsafe_can_suspend vm) eqn:Hc; [by apply can_suspend_answer|].
  destruct (inv_env _ (inv_tables _ _ I) u env) as (w & st & r & Hs); [by right|].
  rewrite Hs. destruct st; try by apply call_ok_same.
  by apply (park_call_ok vm P I Hrun env _ (FutureState (w ++ [current_fiber_ vm]) empty r)
              (Some (IFuture env (current_fiber_ vm))) Hs).
Qed.
End futures.

(** * Fibers *)
Section fibers.
Context (vm : vm_context) (P : loc → option place) (I : inv vm P) (Hrun : is_running vm).

Lemma fiber_arg_Some L h fb jip c :
  fiber_arg L vm = Some (h, (fb, jip, c)) → objects vm !! h = Some (Fiber fb jip c).
Proof.
  unfold fiber_arg. destruct (object_at L 1 vm) as [[u x]|] eqn:Ho; [|done].
  apply object_at_Some in Ho. by destruct x; intros [= <- <- <- <-].
Qed.

Lemma handle_row h f jip c :
  objects vm !! h = Some (Fiber (Some f) jip c) → ∃ row, fiber_list vm !! f = Some row.
Proof.
  intros Hh. destruct (inv_handle _ (inv_tables _ _ I) h f jip c Hh) as (row & ? & _).
  by exists row.
Qed.

(** Dropping a finished fiber does not change the panics reported before. *)
Lemma panic_ext f r b (v : vm_context) :
  panic_unless_interrupted f r b v = with_panics (λ l, l) v ∨
  panic_unless_interrupted f r b v = with_panics (λ l, l ++ [f]) v.
Proof. unfold panic_unless_interrupted. destruct v. repeat case_match; auto. Qed.

Lemma fiber_status_dead f row r :
  fiber_list vm !! f = Some row → threads vm !! f = Some r →
  status row ≠ None → ∃ d, r = CoDead d.
Proof.
  intros Hr Ht Hs. destruct (inv_row _ (inv_tables _ _ I) f row Hr) as (s & ? & E).
  assert (s = r) as -> by congruence.
  destruct r; try by (exfalso; apply Hs, E; intros []). by eexists.
Qed.

Lemma fiber_join_ok L : call_ok vm P (fiber_join L vm).
Proof.
  unfold fiber_join.
  destruct (unsafe_can_suspend vm) eqn:Hc; [by apply can_suspend_answer|].
  destruct (fiber_arg L vm) as [[h [[[t|] jip] c]]|] eqn:Ha; try by apply call_ok_same.
  apply fiber_arg_Some in Ha.
  destruct jip; [by apply call_ok_same|]. case_decide as Ht; [by apply call_ok_same|].
  destruct (handle_row h t false c Ha) as [row Hrow]. rewrite Hrow.
  destruct (status row) eqn:Hst.
  - destruct (inv_row _ (inv_tables _ _ I) t row Hrow) as (s & Hs & _).
    destruct (fiber_status_dead t row s Hrow Hs) as [r ->]; [congruence|]. rewrite Hs.
    assert (inv (set_object h (Fiber None false (Some (is_interrupted r)))
                   (with_fiber_list (delete t) vm)) P) as I'
      by (eapply inv_forget; [done|done|done|congruence]).
    destruct r as [vs|e]; [|destruct (is_interrupted (Failed e))];
      by apply (call_ok_return vm P Hrun _ _ P).
  - split_and!; [done|done|]. eexists. split.
    + apply rtc_once, (Park _ _ (Joining t)). destruct Hrun as [args Hf].
      by eapply running_no_place.
    + split.
      * exact (inv_start_join vm P I h t c row Hrow Ha Hrun Hst Ht).
      * apply (idle_set_suspended _ vm); [apply I|done].
Qed.

Lemma let_go_ok h t c caught' :
  objects vm !! h = Some (Fiber (Some t) false c) →
  (let_go h t false caught' vm).2 = true ∧ inv (let_go h t false caught' vm).1 P ∧
  current_fiber_ (let_go h t false caught' vm).1 = current_fiber_ vm ∧
  threads (let_go h t false caught' vm).1 = threads vm ∧
  valid_ (let_go h t false caught' vm).1 = valid_ vm.
Proof.
  intros Hh. unfold let_go. destruct (handle_row h t false c Hh) as [row Hrow].
  rewrite Hrow. destruct (status row) eqn:Hst.
  - destruct (inv_row _ (inv_tables _ _ I) t row Hrow) as (s & Hs & _).
    destruct (fiber_status_dead t row s Hrow Hs) as [r ->]; [congruence|]. rewrite Hs.
    assert (inv (set_object h (Fiber None false caught')
                   (with_fiber_list (delete t) vm)) P) as I'
      by (eapply inv_forget; [done|done|done|congruence]).
    destruct (panic_ext t r false vm) as [-> | ->]; (split_and!; [done| |done..]);
      by eapply inv_ext; [..|exact I'].
  - split_and!; [done| |done..]. by eapply inv_detach.
Qed.

Lemma fiber_detach_ok L : call_ok vm P (fiber_detach L vm).
Proof.
  unfold fiber_detach.
  destruct (fiber_arg L vm) as [[h [[[t|] jip] c]]|] eqn:Ha; try by apply call_ok_same.
  apply fiber_arg_Some in Ha. destruct jip; [by apply call_ok_same|].
  destruct (let_go_ok h t c c Ha) as (Hok & I' & Hc & Ht & Hv).
  destruct (let_go h t false c vm) as [vm' ok]. simpl in *. rewrite Hok.
  by apply (call_ok_return vm P Hrun _ _ P).
Qed.

Lemma keeps_with_interrupted b : keeps (with_interrupted b).
Proof. done. Qed.
Lemma keeps_with_interrupter i : keeps (with_interrupter i).
Proof. done. Qed.
End fibers.

(** An interrupter takes its fiber out of the place it waits in, if it still
    waits there, and is forgotten. *)
Lemma call_interrupter_ok vm P f row i r :
  inv vm P → fiber_list vm !! f = Some row → interrupter row = Some i →
  let vm' := set_row f (with_interrupter (λ _, None)) (call_interrupter i vm) in
  ∃ P', inv vm' P' ∧ rtc move (Sched P r) (Sched P' r) ∧
    valid_ vm' = valid_ vm ∧ current_fiber_ vm' = current_fiber_ vm ∧
    threads vm' = threads vm.
Proof.
  intros I Hrow Hi vm'.
  destruct (inv_interrupters _ _ I f row i Hrow Hi) as (Hs & Hd & Hok).
  assert (∀ v Q, inv v Q → inv (set_row f (with_interrupter (λ _, None)) v) Q) as Hclear.
  { intros v Q Iv. apply inv_set_row; [done|done|]. intros. by left. }
  destruct i as [c g|s g|h g t|s|h|h|h]; simpl in Hok; [| | |done..].
  - destruct Hok as [-> _]. unfold vm'. simpl. unfold ConditionVariable.cond_interrupter.
    destruct (objects vm !! c) as [[| |p| | | |]|] eqn:Hc;
      try (exists P; split_and!; [by apply Hclear|done..]).
    case_decide as Hf; [|exists P; split_and!; [by apply Hclear|done..]].
    exists (put_all [f] P). split_and!; try done.
    + apply Hclear. apply (inv_wake_all vm P I c (Cond p) _ [f]); try done.
      simpl. by apply erase_Permutation.
    + apply (wake_moves vm P I c (Cond p) [f] r (ConditionVariable.erase f p)); [done|].
      by apply erase_Permutation.
  - destruct Hok as [-> _]. unfold vm'. simpl. unfold Future.future_interrupter.
    destruct (objects vm !! s) as [[| | |w st ref| | |]|] eqn:Hc;
      try (exists P; split_and!; [by apply Hclear|done..]).
    case_decide as Hf; [|exists P; split_and!; [by apply Hclear|done..]].
    exists (put_all [f] P). split_and!; try done.
    + apply Hclear. apply (inv_wake_all vm P I s (FutureState w st ref) _ [f]); try done.
      simpl. by apply erase_Permutation.
    + apply (wake_moves vm P I s (FutureState w st ref) [f] r (ConditionVariable.erase f w));
        [done|]. by apply erase_Permutation.
  - destruct Hok as (-> & HP & c & Hc). exists (put f (Some Queued) P). split_and!.
    + by apply (inv_interrupted_join vm P I h f t row).
    + by apply rtc_once, (Wake _ _ _ (Joining t)).
    + unfold vm'. simpl. unfold join_interrupter. simpl. by rewrite Hc.
    + unfold vm'. simpl. unfold join_interrupter. simpl. by rewrite Hc.
    + unfold vm'. simpl. unfold join_interrupter. simpl. by rewrite Hc.
Qed.

Lemma fiber_interrupt_ok vm P L :
  inv vm P → is_running vm → call_ok vm P (fiber_interrupt L vm).
Proof.
  intros I Hrun. unfold fiber_interrupt.
  destruct (fiber_arg L vm) as [[h [[[t|] jip] c]]|] eqn:Ha; try by apply call_ok_same.
  apply fiber_arg_Some in Ha. destruct (handle_row vm P I h t jip c Ha) as [row Hrow].
  rewrite Hrow. set (vm1 := set_row t (with_interrupted (λ _, true)) vm).
  assert (inv vm1 P) as I1.
  { apply inv_set_row; [done|done|]. intros row' _. by right. }
  case_decide; [by apply (call_ok_return vm P Hrun _ _ P)|].
  destruct (interrupter row) as [i|] eqn:Hi; [|by apply (call_ok_return vm P Hrun _ _ P)].
  assert (fiber_list vm1 !! t = Some (with_interrupted (λ _, true) row)) as Hrow1.
  { unfold vm1. by rewrite lookup_set_row, decide_True, Hrow. }
  destruct (call_interrupter_ok vm1 P t _ i (Some (current_fiber_ vm)) I1 Hrow1 Hi)
    as (P' & I' & Hm & ? & ? & ?).
  by apply (call_ok_return vm P Hrun _ _ P').
Qed.

(** * [spawn] and [this_fiber] *)
Section this_fiber.
Context (vm : vm_context) (P : loc → option place) (I : inv vm P) (Hrun : is_running vm).

Lemma spawn_ok L : call_ok vm P (spawn L vm).
Proof.
  unfold spawn. destruct (arg L 1) as [[]|]; try by apply call_ok_same.
  set (n := next_loc vm). pose proof (inv_spawn vm P I) as I1. fold n in I1.
  pose proof (no_place_new vm P I) as Hn.
  destruct (inv_fresh _ (inv_tables _ _ I) n) as (_ & Hnt & _); [done|].
  destruct Hrun as [args Hf].
  assert (n ≠ current_fiber_ vm) as Hne by (intros E; rewrite E in Hnt; congruence).
  assert (inv (new_object (Fiber (Some n) false None) (add_fiber vm)).1
            (put n (Some Queued) P)) as I2.
  { apply (inv_new_handle _ _ n (new_row (S n))); [done| |done|].
    - apply lookup_insert_eq.
    - intros h b c Hh.
      destruct (inv_handle _ (inv_tables _ _ I) h n b c Hh) as (row & Hr & _).
      destruct (inv_row _ (inv_tables _ _ I) n row Hr) as (s & ? & _). congruence. }
  split_and!; [done|done|]. eexists. split.
  - apply rtc_once, (Spawned _ _ n); [done|]. congruence.
  - split; [exact I2|]. split; [done|]. exists args. simpl.
    by rewrite lookup_insert_ne.
Qed.

Lemma this_fiber_yield_ok : call_ok vm P (this_fiber_yield vm).
Proof.
  unfold this_fiber_yield.
  destruct (unsafe_can_suspend vm) eqn:Hc; [by apply can_suspend_answer|].
  split_and!; [done|done|]. eexists. split.
  - apply rtc_once, (Park _ _ Queued). destruct Hrun as [args Hf].
    by eapply running_no_place.
  - split; [exact (inv_yield vm P I Hrun)|]. apply (idle_set_suspended _ vm); [apply I|done].
Qed.

(** An update of the row of the running fiber, which has no interrupter. *)
Lemma own_row_ok g a :
  keeps g → (∀ row, interrupter (g row) = interrupter row) →
  a ≠ Stuck → a ≠ Yield → call_ok vm P (set_row (current_fiber_ vm) g vm, a).
Proof.
  intros Hg Hi Hs Hy. apply (call_ok_return vm P Hrun _ _ P); try done.
  destruct Hrun as [args Hf]. destruct (running_row I _ _ Hf) as (row & Hrow & _ & Hn).
  apply inv_set_row; [done|done|]. intros row' Hrow'. left. rewrite Hi. congruence.
Qed.

Lemma increment_ok counter : call_ok vm P (increment_this_fiber_counter counter vm).
Proof.
  unfold increment_this_fiber_counter. case_decide; [by apply call_ok_same|].
  apply own_row_ok; try done; by destruct counter.
Qed.

Lemma decrement_ok counter e : call_ok vm P (decrement_this_fiber_counter counter e vm).
Proof.
  unfold decrement_this_fiber_counter. case_decide; [by apply call_ok_same|].
  destruct Hrun as [args Hf]. destruct (running_row I _ _ Hf) as (row & Hrow & _ & _).
  rewrite Hrow. case_decide; [|by apply call_ok_same].
  apply own_row_ok; try done; by destruct counter.
Qed.

Lemma this_fiber_local_ok : call_ok vm P (this_fiber_local vm).
Proof.
  unfold this_fiber_local.
  destruct Hrun as [args Hf]. destruct (running_row I _ _ Hf) as (row & Hrow & _ & Hn).
  rewrite Hrow. destruct (local_storage row); [by apply call_ok_same|].
  apply (call_ok_return vm P Hrun _ _ P); try done.
  assert (inv (with_next_loc S vm) P) as I1.
  { destruct I as [PL T IT]. split; [by destruct PL|destruct T|done].
    split; try done; simpl.
    - intros l Hl. apply inv_fresh. lia.
    - lia. }
  apply (inv_set_row (with_next_loc S vm)); [done|done|].
  intros row' Hrow'. left. simpl in *. congruence.
Qed.
End this_fiber.

Lemma call_ok_all op L vm P :
  inv vm P → is_running vm → callable op L vm → call_ok vm P (call op L vm).
Proof.
  intros I Hrun Hc. destruct op; simpl in *;
    try by (apply (new_call_ok vm P I Hrun); done).
  - by apply mutex_lock_ok.
  - by apply mutex_try_lock_ok.
  - by apply mutex_unlock_ok.
  - by apply recursive_mutex_lock_ok.
  - by apply recursive_mutex_try_lock_ok.
  - by apply recursive_mutex_unlock_ok.
  - by apply cond_wait_ok.
  - by apply notify_one_ok.
  - by apply notify_all_ok.
  - by apply future_new_ok.
  - by apply promise_set_value_ok.
  - by apply promise_set_error_ok.
  - by apply future_get_ok.
  - by apply fiber_join_ok.
  - by apply fiber_detach_ok.
  - by apply fiber_interrupt_ok.
  - unfold fiber_interruption_caught.
    destruct (fiber_arg L vm) as [[h [[fb jip] [b|]]]|];
      by (apply call_ok_same || destruct Hc).
  - unfold fiber_joinable.
    destruct (fiber_arg L vm) as [[h [[fb jip] c]]|];
      by (apply call_ok_same || destruct Hc).
  - by apply spawn_ok.
  - by apply this_fiber_yield_ok.
  - by apply increment_ok.
  - by apply decrement_ok.
  - by apply increment_ok.
  - by apply decrement_ok.
  - by apply this_fiber_local_ok.
  - unfold this_fiber_is_main. pose proof Hrun as [args Hf].
    destruct (running_row I _ _ Hf) as (row & -> & _). by apply call_ok_same.
Qed.
