(* ===== verification/SchedulerSpec.v ===== *)
(** The promises of the scheduler, for every VM a program can reach.

    - it implements the abstract scheduler: every step is explained by moves
      of fibers between the places they wait in;
    - no assertion about the status of a fiber fails;
    - no wake-up is lost or doubled: a fiber that waits has one place;
    - tasks run in the order they are posted. *)
From S2P Require Import Prelude Errors Lua Vm Sync FiberOps Scheduler SchedulerInv.
From S2P Require Import SchedulerFibers SchedulerJoin SchedulerEnd SchedulerCalls.
Import Schedule.

(** * Steps *)
Lemma runs_Some vm A :
  abstracts vm A → is_running vm → running A = Some (current_fiber_ vm).
Proof.
  intros [_ Hr] [args Hf]. unfold runs in Hr. destruct (running A) as [f|].
  - by destruct Hr as [-> _].
  - by apply Hr in Hf.
Qed.
Lemma runs_None vm A : abstracts vm A → idle vm → running A = None.
Proof.
  intros [_ Hr] Hi. unfold runs in Hr. destruct (running A) as [f|]; [|done].
  destruct Hr as [_ [args Hf]]. by apply Hi in Hf.
Qed.

Lemma abstracts_ext vm vm' A :
  current_fiber_ vm' = current_fiber_ vm →
  async_event_thread_ vm' = async_event_thread_ vm →
  threads vm' = threads vm → fiber_list vm' = fiber_list vm →
  objects vm' = objects vm → strand vm' = strand vm → next_loc vm' = next_loc vm →
  abstracts vm A → abstracts vm' A.
Proof.
  intros Ec Ea Et Ef Eo Es En [I Hr]. split; [by eapply inv_ext|].
  unfold runs, is_running, idle in *. rewrite Ec, Et. done.
Qed.

(** The end of a fiber. *)
Lemma finish_moves vm A r :
  abstracts vm A → is_running vm → valid_ (fiber_epilogue r vm) = true →
  ∃ A', rtc move A A' ∧ abstracts (fiber_epilogue r vm) A'.
Proof.
  intros HA Hrun Hv. pose proof (runs_Some vm A HA Hrun) as HrA.
  destruct HA as [I _]. destruct A as [P rA]. simpl in *. subst rA.
  destruct Hrun as [args Hf]. set (f := current_fiber_ vm) in *.
  destruct (running_row I f args Hf) as (row & Hrow & Hst & Hint).
  unfold fiber_epilogue in *. destruct (is_closing vm); [done|].
  change (fiber_list (set_thread _ _ ?v)) with (fiber_list v) in *.
  fold f in Hv |- *. rewrite Hrow in *.
  assert (∀ vm', threads vm' = <[f := CoDead r]> (threads vm) → idle vm') as Hidle.
  { intros vm' Et k a. rewrite Et, lookup_insert_Some. intros [[_ [=]]|[Hne Hk]].
    by apply (inv_current _ (inv_tables _ _ I)) in Hk. }
  destruct (joiner row) as [| |j] eqn:Hj.
  - exists (Sched P None). split; [apply rtc_once, Finish|].
    split; [exact (inv_ended vm P I r args row Hf Hrow Hj)|by apply Hidle].
  - exists (Sched P None). split; [apply rtc_once, Finish|].
    pose proof (inv_gone vm P I r args row Hf Hrow Hj) as I'.
    assert (abstracts (gone vm r) (Sched P None)) as HA' by (split; [done|by apply Hidle]).
    revert Hv. unfold panic_unless_interrupted. simpl.
    repeat case_match; try done; intros _;
      (eapply abstracts_ext; [..|exact HA']; done).
  - destruct (inv_joined _ (inv_tables _ _ I) f row j Hrow Hst Hj) as (h & c & Hu & Hh).
    change (objects (set_row _ _ (set_thread _ _ ?v))) with (objects v) in *.
    rewrite Hu, Hh in *.
    exists (Sched (put j None P) (Some j)). split.
    + apply rtc_once, Handoff. apply (inv_join _ _ (inv_places _ _ I)).
      unfold joiner_at. by rewrite Hrow, Hst, Hj.
    + split.
      * exact (inv_handed_over vm P I r args row Hf Hrow j h c (join_values r) Hj Hh).
      * split; [done|]. exists (join_values r). apply lookup_insert_eq.
Qed.

Lemma step_moves vm vm' A :
  valid_ vm = true → abstracts vm A → step vm vm' → valid_ vm' = true →
  ∃ A', rtc move A A' ∧ abstracts vm' A'.
Proof.
  intros Hval HA Hstep Hv'. destruct Hstep as [op L _ Hrun Hc _|r _ Hrun|f opts ts vm' Hidle Hq Hres
    |p _|h f caught _ Hh| | |coro].
  - pose proof (runs_Some vm A HA Hrun) as HrA. destruct HA as [I _], A as [P rA].
    simpl in *. subst rA.
    destruct (call_ok_all op L vm P I Hrun Hc) as (_ & _ & A' & Hm & HA').
    exists A'. split; [done|]. unfold after_call in *.
    destruct (call op L vm).2; try done. unfold epilogue_yield in *.
    destruct (is_closing _); [done|done].
  - by apply finish_moves.
  - pose proof (runs_None vm A HA Hidle) as HrA. destruct HA as [I _], A as [P rA].
    simpl in *. subst rA.
    destruct (inv_resume vm P f opts ts I Hval Hidle Hq)
      as (vm'' & Hr & I' & Hcur & Hrun & HP & _).
    assert (vm'' = vm') as -> by congruence.
    exists (Sched (put f None P) (Some f)). split; [by apply rtc_once, Dispatch|].
    split; [done|]. split; [done|done].
  - unfold Future.promise_mt_gc in *.
    destruct (objects vm !! p) as [[| | | |s| |]|] eqn:Hp; try by exists A.
    destruct HA as [I HrA], A as [P rA]. simpl in *.
    destruct (inv_env _ (inv_tables _ _ I) p s) as (w & st & ref & Hs); [by left|].
    rewrite Hs in *. exists (Sched (put_all w P) rA). split.
    + apply (wake_moves vm P I s (FutureState w st ref) w rA []); [done|].
      by rewrite app_nil_r.
    + split; [|done]. eapply inv_delete_promise.
      * apply (inv_wake_all vm P I s (FutureState w st ref) (FutureState [] broken ref));
          try done. simpl. by rewrite app_nil_r.
      * simpl. rewrite lookup_insert_ne by congruence. exact Hp.
  - destruct HA as [I HrA], A as [P rA]. simpl in *.
    unfold fiber_mt_gc in *. rewrite Hh in *.
    destruct (let_go_ok vm P I h f caught caught Hh) as (_ & I' & Hc & Ht & Hv).
    destruct (let_go h f false caught vm) as [vm1 ok]. simpl in *.
    exists (Sched P rA). split; [done|]. split; [done|].
    unfold runs, is_running, idle in *. simpl. by rewrite Hc, Ht.
  - exists A. split; [done|]. by eapply abstracts_ext; [..|exact HA].
  - exists A. split; [done|]. by eapply abstracts_ext; [..|exact HA].
  - exists A. split; [done|]. by eapply abstracts_ext; [..|exact HA].
Qed.

(** * Reachable machines *)
Definition reachable (vm : vm_context) : Prop := ∃ vm0, initial vm0 ∧ rtc step vm0 vm.

Lemma step_valid vm vm' : step vm vm' → valid_ vm' = true → valid_ vm = true.
Proof.
  intros Hstep Hv. destruct Hstep as [| |f opts ts vm' _ _ Hr| | | | |]; try done.
  destruct (valid_ vm) eqn:E; [done|]. unfold fiber_resume in Hr. simpl in Hr.
  rewrite E in Hr. injection Hr as <-. simpl in Hv. congruence.
Qed.

Lemma initial_abstracts vm :
  initial vm → abstracts vm (Sched (λ _, None) (Some (L_ vm))).
Proof.
  intros (Hv & Hc & Ha & Ht & Hf & Ho & Hs & Hl & Hal). split; simpl.
  2:{ split; [done|]. exists []. rewrite Hc, Ht. apply lookup_singleton_eq. }
  assert (∀ k row, fiber_list vm !! k = Some row → k = L_ vm ∧ row = initial_row) as Hr.
  { intros k row. rewrite Hf. by intros [-> ->]%lookup_singleton_Some. }
  split.
  - split.
    + intros o k. unfold pending_at. rewrite Ho. simpl. set_solver.
    + intros o. unfold pending_at. rewrite Ho. simpl. apply NoDup_nil_2.
    + intros k. rewrite Hs. simpl. set_solver.
    + rewrite Hs. apply NoDup_nil_2.
    + intros k j. unfold joiner_at. destruct (fiber_list vm !! k) as [row|] eqn:E; [|done].
      by apply Hr in E as [_ ->].
    + intros k. split; [by intros []|]. rewrite Ht. unfold waiting.
      rewrite !lookup_singleton_Some. naive_solver.
  - split; rewrite ?Ho, ?Ht; try done.
    + intros k args [<- _]%lookup_singleton_Some. done.
    + intros k s [<- _]%lookup_singleton_Some. done.
    + intros k s [<- _]%lookup_singleton_Some _. exists initial_row. rewrite Hf.
      by rewrite lookup_singleton_eq.
    + intros k row [-> ->]%Hr. exists (CoRunning []). rewrite lookup_singleton_eq.
      split; [done|]. split; [by intros _ []|done].
    + by intros k row j [-> ->]%Hr.
    + intros p s [Hp|Hp]; done.
    + intros l Hl'. rewrite Hf, !lookup_singleton_ne by lia. done.
  - by intros k row i [-> ->]%Hr.
Qed.

Lemma reachable_abstracts vm :
  reachable vm → valid_ vm = true → ∃ A, abstracts vm A.
Proof.
  intros (vm0 & Hinit & Hsteps). revert vm Hsteps.
  apply (rtc_ind_r (λ vm, valid_ vm = true → ∃ A, abstracts vm A)).
  - intros _. eexists. by apply initial_abstracts.
  - intros vm vm' _ Hstep IH Hv'. pose proof (step_valid _ _ Hstep Hv') as Hv.
    destruct (IH Hv) as [A HA]. destruct (step_moves vm vm' A Hv HA Hstep Hv') as (A' & _ & ?).
    by exists A'.
Qed.

(** * The abstract scheduler is implemented *)

(** C1 Refinement: whatever a program does, the VM it reaches is one the
    abstract scheduler explains: there is a sequence of moves, from the state
    where only the main fiber runs, to a state that gives every fiber the
    place it waits in and tells which one runs. *)
Theorem scheduler_refines vm0 vm :
  initial vm0 → rtc step vm0 vm → valid_ vm = true →
  ∃ A, rtc move (Sched (λ _, None) (Some (L_ vm0))) A ∧ abstracts vm A.
Proof.
  intros Hinit Hsteps. revert vm Hsteps.
  apply (rtc_ind_r (λ vm, valid_ vm = true →
    ∃ A, rtc move (Sched (λ _, None) (Some (L_ vm0))) A ∧ abstracts vm A)).
  - intros _. eexists. split; [done|]. by apply initial_abstracts.
  - intros vm vm' _ Hstep IH Hv'. pose proof (step_valid _ _ Hstep Hv') as Hv.
    destruct (IH Hv) as (A & Hm & HA).
    destruct (step_moves vm vm' A Hv HA Hstep Hv') as (A' & Hm' & ?).
    exists A'. split; [by etrans|done].
Qed.

(** C2 No assertion fails: in every VM a program reaches, no call of a fiber
    finds a dangling handle, row or shared state, and [fiber_resume] finds the
    fiber of the next task ready or suspended. *)
Theorem never_stuck vm :
  reachable vm → valid_ vm = true →
  (∀ op L, is_running vm → callable op L vm → (call op L vm).2 ≠ Stuck) ∧
  (∀ f opts ts, idle vm → strand vm = FiberResume f opts :: ts →
     is_Some (fiber_resume f opts (with_strand (λ _, ts) vm))).
Proof.
  intros Hr Hv. destruct (reachable_abstracts vm Hr Hv) as [A [I _]]. split.
  - intros op L Hrun Hc. by destruct (call_ok_all op L vm _ I Hrun Hc) as (? & _).
  - intros f opts ts Hidle Hq.
    destruct (inv_resume vm _ f opts ts I Hv Hidle Hq) as (vm' & -> & _). by eexists.
Qed.

(** A fiber is registered at a place. *)
Definition waits_at (vm : vm_context) (f : loc) (p : place) : Prop :=
  match p with
  | InObject o => f ∈ pending_at vm o
  | Joining t => joiner_at vm t = Some f
  | Queued => f ∈ task_fiber <$> strand vm
  end.

Lemma waits_at_place vm P f p : inv vm P → waits_at vm f p ↔ P f = Some p.
Proof.
  intros I. pose proof (inv_places _ _ I) as PL.
  destruct p; [apply PL|apply PL|apply PL].
Qed.

(** C3 No wake-up is lost and none is doubled: a fiber that is suspended or
    was just spawned is registered, once, at exactly one place that will
    resume it; one that runs or has ended is registered nowhere. *)
Theorem waits_at_one_place vm f :
  reachable vm → valid_ vm = true →
  (waiting (threads vm !! f) →
     ∃ p, waits_at vm f p ∧ ∀ p', waits_at vm f p' → p' = p) ∧
  (¬ waiting (threads vm !! f) → ∀ p, ¬ waits_at vm f p) ∧
  (∀ o, NoDup (pending_at vm o)) ∧ NoDup (task_fiber <$> strand vm).
Proof.
  intros Hr Hv. destruct (reachable_abstracts vm Hr Hv) as [A [I _]].
  pose proof (inv_places _ _ I) as PL. split_and!; [| |apply PL|apply PL].
  - intros [p Hp]%(inv_waiting _ _ PL). exists p.
    setoid_rewrite (waits_at_place vm _ f _ I). split; [done|]. intros. congruence.
  - intros Hw p Hp%(waits_at_place vm _ f _ I). apply Hw, (inv_waiting _ _ PL).
    by eexists.
Qed.

(** * Order *)

(** A handler only adds tasks, at the end. *)
Definition appends (vm vm' : vm_context) : Prop := ∃ new, strand vm' = strand vm ++ new.
#[export] Instance appends_preorder : PreOrder appends.
Proof.
  split.
  - intros vm. exists []. by rewrite app_nil_r.
  - intros a b c [n1 E1] [n2 E2]. exists (n1 ++ n2). by rewrite E2, E1, app_assoc.
Qed.
Lemma appends_nil vm vm' : strand vm' = strand vm → appends vm vm'.
Proof. intros E. exists []. by rewrite app_nil_r. Qed.
Lemma appends_some vm vm' ts : strand vm' = strand vm ++ ts → appends vm vm'.
Proof. intros E. by exists ts. Qed.
#[local] Hint Resolve appends_nil appends_some : emilua.

Ltac appends :=
  repeat (case_match; simplify_eq/=);
  first [by apply appends_nil | by eapply appends_some].

Lemma interrupter_appends i vm : appends vm (call_interrupter i vm).
Proof.
  destruct i; simpl; unfold ConditionVariable.cond_interrupter,
    Future.future_interrupter, join_interrupter; appends.
Qed.

Lemma interrupt_appends L vm : appends vm (fiber_interrupt L vm).1.
Proof.
  unfold fiber_interrupt.
  destruct (fiber_arg L vm) as [[h [[[t|] jip] c]]|]; try by apply appends_nil.
  destruct (fiber_list vm !! t) as [row|]; [|by apply appends_nil].
  case_decide; [by apply appends_nil|].
  destruct (interrupter row) as [i|]; [|by apply appends_nil].
  destruct (interrupter_appends i (set_row t (with_interrupted (λ _, true)) vm)) as [n E].
  exists n. simpl. rewrite E. done.
Qed.

Lemma call_appends op L vm : appends vm (call op L vm).1.
Proof.
  destruct op; try apply interrupt_appends; cbn [call];
    unfold Mutex.mutex_new, Mutex.mutex_lock, Mutex.mutex_try_lock, Mutex.mutex_unlock,
      RecursiveMutex.recursive_mutex_new, RecursiveMutex.recursive_mutex_lock,
      RecursiveMutex.recursive_mutex_try_lock, RecursiveMutex.recursive_mutex_unlock,
      ConditionVariable.cond_new, ConditionVariable.cond_wait,
      ConditionVariable.cond_notify_one, ConditionVariable.cond_notify_all,
      Future.future_new, Future.promise_set_value, Future.promise_set_error,
      Future.future_get, Future.luaL_ref, fiber_join, fiber_detach, let_go,
      panic_unless_interrupted, fiber_interruption_caught, fiber_joinable, spawn,
      this_fiber_yield, this_fiber_disable_interruption,
      this_fiber_restore_interruption, this_fiber_forbid_suspend,
      this_fiber_allow_suspend, increment_this_fiber_counter,
      decrement_this_fiber_counter, this_fiber_local, this_fiber_is_main,
      Mutex.release;
      first [by apply appends_nil | appends].
Qed.

Lemma epilogue_strand r vm : strand (fiber_epilogue r vm) = strand vm.
Proof.
  unfold fiber_epilogue, panic_unless_interrupted. repeat case_match; simplify_eq/=; done.
Qed.

Lemma let_go_strand h f jip c vm : strand (let_go h f jip c vm).1 = strand vm.
Proof. unfold let_go, panic_unless_interrupted. repeat case_match; simplify_eq/=; done. Qed.

Lemma settled_strand r : strand (after_call r) = strand r.1.
Proof.
  unfold after_call, settle, epilogue_yield. destruct r as [vm []]; simpl; try done.
  by case_match.
Qed.

(** A step posts tasks after the others, or takes the first one. *)
Lemma step_strand vm vm' :
  step vm vm' →
  appends vm vm' ∨
  ∃ t, strand vm = t :: strand vm' ∧ idle vm ∧
    fiber_resume (task_fiber t) (task_options t) (with_strand (λ _, strand vm') vm) =
      Some vm'.
Proof.
  destruct 1 as [op L _ _ _ _|r _ _|f opts ts vm' Hi Hq Hr|p _|h f c _ Hh| | |coro].
  - left. destruct (call_appends op L vm) as [n E]. exists n.
    by rewrite settled_strand.
  - left. apply appends_nil, epilogue_strand.
  - right. exists (FiberResume f opts). simpl.
    assert (strand vm' = ts) as ->; [|done].
    unfold fiber_resume in Hr. repeat case_match; by simplify_eq/=.
  - left. unfold Future.promise_mt_gc. repeat case_match;
      first [by apply appends_nil|eapply appends_some; reflexivity].
  - left. apply appends_nil. unfold fiber_mt_gc. rewrite Hh.
    pose proof (let_go_strand h f false c vm) as E.
    by destruct (let_go h f false c vm).
  - left. by apply appends_nil.
  - left. by apply appends_nil.
  - left. by apply appends_nil.
Qed.

(** Tasks run in the order they were posted: a task that is [n]th in the
    strand stays behind the tasks that were before it and no others, until it
    is the first one and [fiber_resume] is called for it, between two fibers. *)
Theorem strand_fifo vm vm' n t :
  rtc step vm vm' → strand vm !! n = Some t →
  (∃ n', n' ≤ n ∧ strand vm' !! n' = Some t ∧
     take n' (strand vm') = drop (n - n') (take n (strand vm))) ∨
  (∃ vm1 vm2 ts, rtc step vm vm1 ∧ idle vm1 ∧ strand vm1 = t :: ts ∧
     fiber_resume (task_fiber t) (task_options t) (with_strand (λ _, ts) vm1) = Some vm2 ∧
     rtc step vm2 vm').
Proof.
  intros Hsteps. revert n. induction Hsteps as [vm|vm vm1 vm' Hstep Hsteps IH]; intros n Hn.
  { left. exists n. rewrite Nat.sub_diag. by rewrite drop_0. }
  destruct (step_strand _ _ Hstep) as [[new E]|(t0 & E & Hi & Hr)].
  - pose proof (lookup_lt_Some _ _ _ Hn) as Hlt.
    destruct (IH n) as [(n' & Hle & Ht & Htake)|(va & vb & ts & H1 & H2 & H3 & H4 & H5)].
    + by rewrite E, lookup_app_l.
    + left. exists n'. split_and!; [done|done|].
      by rewrite Htake, E, take_app_le by lia.
    + right. exists va, vb, ts. split_and!; try done. by eapply rtc_l.
  - rewrite E in Hn. destruct n as [|n]; simpl in Hn.
    + injection Hn as ->. right. by exists vm, vm1, (strand vm1).
    + destruct (IH n Hn) as [(n' & Hle & Ht & Htake)|(va & vb & ts & H1 & H2 & H3 & H4 & H5)].
      * left. exists n'. split_and!; [lia|done|]. rewrite E, Htake.
        replace (S n - n') with (S (n - n')) by lia. done.
      * right. exists va, vb, ts. split_and!; try done. by eapply rtc_l.
Qed.

(** * A program *)

(** The main fiber spawns another and yields. *)
Definition boot : vm_context :=
  Vm true 0 0 1 false false None false [] [] true false
    {[0 := CoRunning []]} {[0 := initial_row]} ∅ [] ∅ 2.
Definition spawned : vm_context := after_call (call Spawn [LFunction 0] boot).
Definition yielded : vm_context := after_call (call ThisYield [] spawned).

Lemma initial_boot : initial boot.
Proof. unfold initial. simpl. split_and!; by try lia. Qed.
Lemma boot_spawned : step boot spawned.
Proof. apply step_call; [done|by exists []|done|done]. Qed.
Lemma spawned_yielded : step spawned yielded.
Proof. apply step_call; [done|by exists []|done|done]. Qed.
Lemma boot_yielded : rtc step boot yielded.
Proof. eapply rtc_l; [apply boot_spawned|]. apply rtc_once, spawned_yielded. Qed.

Lemma scheduler_refines_witness :
  ∃ A, rtc move (Sched (λ _, None) (Some 0)) A ∧ abstracts yielded A.
Proof.
  exact (scheduler_refines boot yielded initial_boot boot_yielded eq_refl).
Defined.

Lemma never_stuck_witness : (call Spawn [LFunction 0] spawned).2 ≠ Stuck.
Proof.
  refine (proj1 (never_stuck spawned _ eq_refl) Spawn [LFunction 0] _ I).
  - exists boot. split; [apply initial_boot|]. apply rtc_once, boot_spawned.
  - by exists [].
Defined.

Lemma waits_at_one_place_witness :
  waits_at yielded 2 Queued ∧ ∃ p, waits_at yielded 2 p ∧ ∀ p', waits_at yielded 2 p' → p' = p.
Proof.
  split; [by left|].
  refine (proj1 (waits_at_one_place yielded 2 _ eq_refl) _); [|by left].
  exists boot. split; [apply initial_boot|apply boot_yielded].
Defined.

Lemma strand_fifo_witness :
  strand spawned !! 0 = Some (FiberResume 2 skip_clear) ∧
  ((∃ n', n' ≤ 0 ∧ strand yielded !! n' = Some (FiberResume 2 skip_clear) ∧
     take n' (strand yielded) = drop (0 - n') (take 0 (strand spawned))) ∨
  (∃ vm1 vm2 ts, rtc step spawned vm1 ∧ idle vm1 ∧
     strand vm1 = FiberResume 2 skip_clear :: ts ∧
     fiber_resume 2 skip_clear (with_strand (λ _, ts) vm1) = Some vm2 ∧
     rtc step vm2 yielded)).
Proof.
  split; [reflexivity|].
  exact (strand_fifo spawned yielded 0 _ (rtc_once _ _ spawned_yielded) eq_refl).
Defined.
