(* ===== verification/SyncSpec.v ===== *)
(** What the synchronisation primitives and the fiber handles promise to Lua
    programs: the consistency of their fields in every VM a program reaches,
    hand-over in the order of arrival, single assignment and delivery of
    futures, the results of [join], interruption. *)
From S2P Require Import Prelude Errors Lua Vm Sync FiberOps Scheduler SchedulerInv.
From S2P Require Import SchedulerFibers SchedulerJoin SchedulerEnd SchedulerCalls.
From S2P Require Import SchedulerSpec.

(** * The fields of the objects *)

(** A mutex nobody holds has no pending fiber, the count of a recursive one is
    positive exactly while it has an owner and fits in a [size_t], a future
    that is settled has no waiter. *)
Definition object_ok (x : object) : Prop :=
  match x with
  | Mutex p locked => locked = false → p = []
  | RecursiveMutex p n None => n = 0%Z ∧ p = []
  | RecursiveMutex p n (Some _) => (1 ≤ n ≤ size_max)%Z
  | FutureState w st _ => st ≠ empty → w = []
  | Fiber None jip _ | Fiber (Some _) jip _ => True
  | _ => True
  end.
Definition objects_ok (vm : vm_context) : Prop :=
  map_Forall (λ _ x, object_ok x) (objects vm).

Lemma objects_ok_at vm L i u x : objects_ok vm → object_at L i vm = Some (u, x) → object_ok x.
Proof. intros H Hx%object_at_Some. by apply (H u). Qed.
Lemma objects_ok_set vm u x : objects_ok vm → object_ok x → objects_ok (set_object u x vm).
Proof. intros H Hx. by apply map_Forall_insert_2. Qed.
Lemma objects_ok_ext vm vm' : objects vm' = objects vm → objects_ok vm → objects_ok vm'.
Proof. unfold objects_ok. by intros ->. Qed.
Lemma objects_ok_delete vm u : objects_ok vm → objects_ok (with_objects (delete u) vm).
Proof. intros H. by apply map_Forall_delete. Qed.

(** Peel the updates of the VM off. *)
Ltac objects_ok :=
  repeat first
    [ assumption
    | apply objects_ok_delete
    | apply objects_ok_set
    | match goal with
      | |- objects_ok (with_strand _ ?v) => change (objects_ok v)
      | |- objects_ok (with_threads _ ?v) => change (objects_ok v)
      | |- objects_ok (with_fiber_list _ ?v) => change (objects_ok v)
      | |- objects_ok (with_registry _ ?v) => change (objects_ok v)
      | |- objects_ok (with_next_loc _ ?v) => change (objects_ok v)
      | |- objects_ok (with_current_fiber _ ?v) => change (objects_ok v)
      | |- objects_ok (with_panics _ ?v) => change (objects_ok v)
      | |- objects_ok (with_inbox_open _ ?v) => change (objects_ok v)
      | |- objects_ok (post _ _ ?v) => change (objects_ok v)
      | |- objects_ok (ConditionVariable.post_all _ _ ?v) => change (objects_ok v)
      | |- objects_ok (set_row _ _ ?v) => change (objects_ok v)
      | |- objects_ok (set_thread _ _ ?v) => change (objects_ok v)
      | |- objects_ok (set_interrupter _ ?v) => change (objects_ok v)
      end ].

(** What the object of a call's argument gives. *)
Ltac object_facts :=
  repeat match goal with
  | H : objects_ok ?vm, E : object_at _ _ ?vm = Some (_, _) |- _ =>
      let F := fresh "F" in
      pose proof (objects_ok_at _ _ _ _ _ H E) as F; revert E
  | H : objects_ok ?vm, E : objects ?vm !! _ = Some _ |- _ =>
      let F := fresh "F" in pose proof (H _ _ E) as F; revert E
  end; intros; simpl in *.

Lemma interrupter_objects_ok i vm : objects_ok vm → objects_ok (call_interrupter i vm).
Proof.
  intros H. destruct i as [c f|s f|h f t| | | |]; simpl; [| | |done..].
  - unfold ConditionVariable.cond_interrupter. repeat case_match; try done. by objects_ok.
  - unfold Future.future_interrupter. repeat case_match; try done. objects_ok.
    object_facts. intros Hst. by rewrite (F Hst).
  - unfold join_interrupter. simpl. repeat case_match; objects_ok; by destruct fiber.
Qed.

Lemma interrupt_objects_ok L vm : objects_ok vm → objects_ok (fiber_interrupt L vm).1.
Proof.
  intros H. unfold fiber_interrupt. repeat case_match; try done; simpl; objects_ok.
  by apply interrupter_objects_ok.
Qed.

Lemma future_new_objects_ok vm : objects_ok vm → objects_ok (Future.future_new vm).1.
Proof. intros H. unfold Future.future_new. simpl. by objects_ok. Qed.

Lemma settle_objects_ok r : objects_ok r.1 → objects_ok (after_call r).
Proof.
  intros H. unfold after_call, settle, epilogue_yield. destruct r as [vm []]; simpl; try done.
  case_match; [apply map_Forall_empty|done].
Qed.

Lemma release_objects_ok u p vm : objects_ok vm → objects_ok (Mutex.release u p vm).
Proof. intros H. destruct p; simpl; by objects_ok. Qed.

Lemma cond_wait_objects_ok L vm :
  objects_ok vm → objects_ok (ConditionVariable.cond_wait L vm).1.
Proof.
  intros H. unfold ConditionVariable.cond_wait. repeat case_match; try done. simpl.
  apply release_objects_ok. by objects_ok.
Qed.

Lemma call_objects_ok op L vm : objects_ok vm → objects_ok (call op L vm).1.
Proof.
  intros H. destruct op; try (by apply interrupt_objects_ok);
    try (by apply future_new_objects_ok); try (by apply cond_wait_objects_ok); cbn [call];
    unfold Mutex.mutex_new, Mutex.mutex_lock, Mutex.mutex_try_lock, Mutex.mutex_unlock,
      RecursiveMutex.recursive_mutex_new, RecursiveMutex.recursive_mutex_lock,
      RecursiveMutex.recursive_mutex_try_lock, RecursiveMutex.recursive_mutex_unlock,
      ConditionVariable.cond_new,
      ConditionVariable.cond_notify_one, ConditionVariable.cond_notify_all,
      Future.promise_set_value, Future.promise_set_error,
      Future.future_get, Future.luaL_ref, fiber_join, fiber_detach, let_go,
      panic_unless_interrupted, fiber_interruption_caught, fiber_joinable, spawn,
      this_fiber_yield, this_fiber_disable_interruption,
      this_fiber_restore_interruption, this_fiber_forbid_suspend,
      this_fiber_allow_suspend, increment_this_fiber_counter,
      decrement_this_fiber_counter, this_fiber_local, this_fiber_is_main.
  all: try (by simpl; objects_ok).
  all: repeat (case_match; simplify_eq/=); objects_ok.
  all: try done.
  all: try (by apply release_objects_ok).
  all: object_facts; try naive_solver lia.
Qed.

Lemma epilogue_objects_ok r vm : objects_ok vm → objects_ok (fiber_epilogue r vm).
Proof.
  intros H. unfold fiber_epilogue, panic_unless_interrupted.
  repeat (case_match; simplify_eq/=); objects_ok; try done; apply map_Forall_empty.
Qed.

Lemma resume_objects_ok f opts vm vm' :
  fiber_resume f opts vm = Some vm' → objects_ok vm → objects_ok vm'.
Proof.
  unfold fiber_resume. intros Hr H. repeat case_match; simplify_eq; by objects_ok.
Qed.

Lemma step_objects_ok vm vm' : step vm vm' → objects_ok vm → objects_ok vm'.
Proof.
  destruct 1 as [op L _ _ _ _|r _ _|f opts ts vm' _ _ Hr|p _|h f c _ Hh| | |coro]; intros H.
  - by apply settle_objects_ok, call_objects_ok.
  - by apply epilogue_objects_ok.
  - eapply resume_objects_ok; [exact Hr|done].
  - unfold Future.promise_mt_gc. repeat case_match; try done. by objects_ok.
  - unfold fiber_mt_gc. rewrite Hh. unfold let_go, panic_unless_interrupted.
    repeat (case_match; simplify_eq/=); by objects_ok.
  - done.
  - done.
  - done.
Qed.

(** C35 The fields of every mutex, recursive mutex and future fit together in
    every VM a program reaches: a free mutex keeps no fiber waiting, a
    recursive mutex has an owner exactly while its count is positive, the
    count never overflows, and no fiber waits on a future that is settled. *)
Theorem sync_objects_consistent vm :
  reachable vm → ∀ u x, objects vm !! u = Some x → object_ok x.
Proof.
  intros (vm0 & Hinit & Hsteps). change (objects_ok vm). revert vm Hsteps.
  apply (rtc_ind_r (λ vm, objects_ok vm)).
  - destruct Hinit as (_ & _ & _ & _ & _ & Ho & _). unfold objects_ok. rewrite Ho.
    apply map_Forall_empty.
  - intros vm vm' _ Hstep H. by eapply step_objects_ok.
Qed.

(** * Mutexes *)
Lemma object_at_intro L i u x vm :
  arg L i = Some (LUserdata u) → objects vm !! u = Some x → object_at L i vm = Some (u, x).
Proof. unfold object_at. by intros -> ->. Qed.
Lemma object_at_arg L i u x vm :
  object_at L i vm = Some (u, x) → arg L i = Some (LUserdata u).
Proof. unfold object_at. destruct (arg L i) as [[]|]; try done. by intros (? & _ & [= -> _])%fmap_Some. Qed.

(** The object an argument designates is read from the table. *)
Lemma object_at_set L i u x x' vm :
  object_at L i vm = Some (u, x) → object_at L i (set_object u x' vm) = Some (u, x').
Proof. intros H%object_at_arg. apply object_at_intro; [done|]. apply lookup_insert_eq. Qed.
Lemma object_at_post L i f opts vm : object_at L i (post f opts vm) = object_at L i vm.
Proof. done. Qed.

Lemma set_set_object u x y vm : set_object u x (set_object u y vm) = set_object u x vm.
Proof. destruct vm. unfold set_object, with_objects. simpl. by rewrite insert_insert_eq. Qed.
Lemma set_object_id u x vm : objects vm !! u = Some x → set_object u x vm = vm.
Proof. destruct vm. unfold set_object, with_objects. simpl. intros H. by rewrite insert_id. Qed.

(** The calls of a handler, one after the other. *)
Definition calls (h : vm_context → vm_context * answer) (n : nat) (vm : vm_context) :
    vm_context :=
  Nat.iter n (λ v, (h v).1) vm.
Lemma calls_S h n vm : calls h (S n) vm = (h (calls h n vm)).1.
Proof. done. Qed.

(** A mutex is handed over in the order its fibers came: [k] calls of
    [unlock] resume the first [k] pending fibers, in order, and leave the mutex
    locked, with the others pending; once there are none, the next one frees
    it. *)
Theorem mutex_fifo L u p k vm :
  object_at L 1 vm = Some (u, Mutex p true) → k ≤ length p →
  let vm' := calls (Mutex.mutex_unlock L) k vm in
  strand vm' = strand vm ++ ((λ f, FiberResume f skip_clear) <$> take k p) ∧
  object_at L 1 vm' = Some (u, Mutex (drop k p) true) ∧
  (Mutex.mutex_unlock L vm').2 = Return [] ∧
  (k = length p →
     object_at L 1 (Mutex.mutex_unlock L vm').1 = Some (u, Mutex [] false)).
Proof.
  intros Hu Hk. simpl.
  assert (strand (calls (Mutex.mutex_unlock L) k vm) =
            strand vm ++ ((λ f, FiberResume f skip_clear) <$> take k p) ∧
          object_at L 1 (calls (Mutex.mutex_unlock L) k vm) = Some (u, Mutex (drop k p) true))
    as [Hs Ho].
  { induction k as [|k IH]; simpl.
    - by rewrite app_nil_r.
    - destruct IH as [Hs Ho]; [lia|]. fold (calls (Mutex.mutex_unlock L) k vm).
      unfold Mutex.mutex_unlock at 1 3. rewrite Ho. simpl.
      destruct (lookup_lt_is_Some_2 p k) as [f Hf]; [lia|].
      rewrite (drop_S _ _ _ Hf). simpl. split.
      + rewrite Hs, (take_S_r _ _ _ Hf), fmap_app. by rewrite app_assoc.
      + rewrite object_at_post. by eapply object_at_set. }
  split_and!; [done|done|..]; unfold Mutex.mutex_unlock at 1; rewrite Ho; simpl; [done|].
  intros ->. rewrite drop_all. simpl. by eapply object_at_set.
Qed.

Lemma can_suspend2_set u x vm :
  unsafe_can_suspend2 (set_object u x vm) = unsafe_can_suspend2 vm.
Proof. done. Qed.

Section recursive.
Context (L : lua_args) (u : loc) (vm : vm_context).
Context (Hu : object_at L 1 vm = Some (u, RecursiveMutex [] 0 None)).
Context (Hs : unsafe_can_suspend2 vm = None).

Definition held (n : nat) : vm_context :=
  match n with
  | 0 => vm
  | _ => set_object u (RecursiveMutex [] n (Some (current_fiber_ vm))) vm
  end.

Lemma lock_held (n : nat) :
  (n < size_max)%Z →
  RecursiveMutex.recursive_mutex_lock L (held n) = (held (S n), Return []).
Proof.
  intros Hn. unfold RecursiveMutex.recursive_mutex_lock. destruct n as [|n]; simpl.
  - by rewrite Hu, Hs.
  - rewrite (object_at_set _ _ _ _ _ _ Hu), can_suspend2_set, Hs. simpl.
    rewrite decide_True, decide_False by (done || lia). rewrite set_set_object.
    do 3 f_equal. lia.
Qed.

Lemma unlock_held n :
  RecursiveMutex.recursive_mutex_unlock L (held (S n)) = (held n, Return []).
Proof.
  unfold RecursiveMutex.recursive_mutex_unlock. simpl.
  rewrite (object_at_set _ _ _ _ _ _ Hu). simpl. rewrite decide_True by done.
  destruct n as [|n]; simpl.
  - rewrite set_set_object, set_object_id; [done|].
    by apply object_at_Some in Hu.
  - rewrite decide_True by lia. rewrite set_set_object. do 3 f_equal. lia.
Qed.

Lemma locks_held (n : nat) :
  (n ≤ size_max)%Z → calls (RecursiveMutex.recursive_mutex_lock L) n vm = held n.
Proof.
  induction n as [|n IH]; intros Hn; [done|].
  rewrite calls_S, IH by lia.
  by rewrite lock_held by lia.
Qed.

Lemma unlocks_held n m :
  calls (RecursiveMutex.recursive_mutex_unlock L) n (held (n + m)) = held m.
Proof.
  revert m. induction n as [|n IH]; intros m; [done|].
  rewrite calls_S, Nat.add_succ_comm, IH. by rewrite unlock_held.
Qed.
End recursive.

(** A recursive mutex counts: [n] calls of [lock] by a fiber make it the
    owner, with count [n], and as many calls of [unlock] give the VM back as it
    was; [lock] fails with [value_too_large], and changes nothing, when the
    count is the greatest [size_t]; another fiber cannot unlock it. *)
Theorem recursive_mutex_balanced L u vm (n : nat) :
  object_at L 1 vm = Some (u, RecursiveMutex [] 0 None) →
  unsafe_can_suspend2 vm = None → (1 ≤ n ≤ size_max)%Z →
  let locked := calls (RecursiveMutex.recursive_mutex_lock L) n vm in
  object_at L 1 locked = Some (u, RecursiveMutex [] n (Some (current_fiber_ vm))) ∧
  calls (RecursiveMutex.recursive_mutex_unlock L) n locked = vm ∧
  (Z.of_nat n = size_max →
     RecursiveMutex.recursive_mutex_lock L locked = (locked, error value_too_large)) ∧
  (∀ g, g ≠ current_fiber_ vm →
     let other := with_current_fiber (λ _, g) locked in
     RecursiveMutex.recursive_mutex_unlock L other = (other, error operation_not_permitted)).
Proof.
  intros Hu Hs Hn. simpl. rewrite (locks_held L u vm Hu Hs) by lia.
  destruct n as [|n]; [lia|].
  pose proof (object_at_set L 1 u _
    (RecursiveMutex [] (S n) (Some (current_fiber_ vm))) vm Hu) as Ho.
  split_and!.
  - exact Ho.
  - pose proof (unlocks_held L u vm Hu (S n) 0) as E. by rewrite Nat.add_0_r in E.
  - intros E. unfold RecursiveMutex.recursive_mutex_lock. simpl in *.
    rewrite Ho, can_suspend2_set, Hs. simpl. by rewrite decide_True, decide_True.
  - intros g Hg. unfold RecursiveMutex.recursive_mutex_unlock.
    change (object_at L 1 (with_current_fiber _ ?v)) with (object_at L 1 v).
    simpl in *. rewrite Ho. by rewrite decide_False by congruence.
Qed.

(** * Condition variables *)

(** [wait] releases the mutex and starts to wait in one step: the fiber
    cannot miss a notification sent once the mutex is free.  The next
    [notify_all] resumes every fiber that waits, this one last, after the
    fiber the mutex was handed to. *)
Theorem cond_wait_notify L L' c p m q vm :
  object_at L 1 vm = Some (c, Cond p) → object_at L 2 vm = Some (m, Mutex q true) →
  unsafe_can_suspend vm = None → arg L' 1 = Some (LUserdata c) →
  let '(vm1, a) := ConditionVariable.cond_wait L vm in
  a = Yield ∧
  objects vm1 !! m = Some (match q with [] => Mutex [] false | _ :: q' => Mutex q' true end) ∧
  let '(vm2, a2) := ConditionVariable.cond_notify_all L' vm1 in
  a2 = Return [] ∧ objects vm2 !! c = Some (Cond []) ∧
  strand vm2 = strand vm ++ ((λ f, FiberResume f skip_clear) <$> take 1 q) ++
    ((λ f, FiberResume f no_options) <$> p ++ [current_fiber_ vm]).
Proof.
  intros Hc Hm Hs HL'. pose proof (object_at_Some _ _ _ _ _ Hc) as Oc.
  pose proof (object_at_Some _ _ _ _ _ Hm) as Om.
  assert (c ≠ m) as Hne by (intros ->; congruence).
  unfold ConditionVariable.cond_wait. rewrite Hc, Hm, Hs.
  unfold ConditionVariable.cond_notify_all, object_at. rewrite HL'.
  destruct q as [|f q]; simpl; rewrite lookup_insert_eq, lookup_insert_ne by done;
    rewrite lookup_insert_eq; simpl; split_and!; try done.
  - apply lookup_insert_eq.
  - apply lookup_insert_eq.
  - by rewrite <- app_assoc.
Qed.

(** * Futures *)
Lemma luaL_ref_lookup v vm :
  registry vm !! Future.LUA_REFNIL = None →
  default LNil (registry (Future.luaL_ref v vm).1 !! (Future.luaL_ref v vm).2) = v.
Proof.
  intros Hnil. unfold Future.luaL_ref. case_decide as Hv; simpl.
  - by rewrite Hnil, Hv.
  - by rewrite lookup_insert_eq.
Qed.

Lemma arg_settop L i n : 1 ≤ i ≤ length L → i ≤ n → arg (settop n L) i = arg L i.
Proof.
  intros Hi Hn. unfold arg, settop. rewrite lookup_app_l.
  - apply lookup_take_lt. lia.
  - rewrite length_take. lia.
Qed.

(** A promise is fulfilled once and its future delivers the value: after
    [set_value(v)] every fiber that waited resumes with [nil, v], a later [get]
    returns [nil, v] at once, and a second [set_value] or [set_error] fails and
    changes nothing. *)
Theorem future_delivers p v s w ref vm :
  objects vm !! p = Some (Promise s) → objects vm !! s = Some (FutureState w empty ref) →
  registry vm !! Future.LUA_REFNIL = None →
  let '(vm1, a) := Future.promise_set_value [LUserdata p; v] vm in
  a = Return [] ∧
  (∃ opts, strand vm1 = strand vm ++ ((λ f, FiberResume f opts) <$> w) ∧
     ∀ f, push_argument f opts vm1 <$> arguments opts = [RV LNil; RV v]) ∧
  (∀ L f, object_at L 1 vm1 = Some (f, Future s) → unsafe_can_suspend vm1 = None →
     Future.future_get L vm1 = (vm1, Return [RV LNil; RV v])) ∧
  (∀ v', Future.promise_set_value [LUserdata p; v'] vm1 =
           (vm1, error Core.promise_already_satisfied) ∧
         (v' ≠ LNil → Future.promise_set_error [LUserdata p; v'] vm1 =
           (vm1, error Core.promise_already_satisfied))).
Proof.
  intros Hp Hs Hnil. assert (p ≠ s) as Hne by (intros ->; congruence).
  pose proof (luaL_ref_lookup v vm Hnil) as Hv.
  assert (objects (Future.luaL_ref v vm).1 = objects vm ∧
          strand (Future.luaL_ref v vm).1 = strand vm) as [Ho Hq].
  { unfold Future.luaL_ref. by case_decide. }
  unfold Future.promise_set_value at 1. simpl. unfold object_at. simpl.
  rewrite Hp. simpl. rewrite Hs. simpl.
  destruct (Future.luaL_ref v vm) as [vm0 r]. simpl in *. split_and!; [done|..].
  - eexists. split; [by rewrite Hq|]. intros f. simpl. by rewrite Hv.
  - intros L f Hf Hc. unfold Future.future_get. unfold object_at in Hf. simpl in Hf.
    unfold object_at. simpl. rewrite Hf, Hc. simpl. rewrite lookup_insert_eq. by rewrite Hv.
  - assert (∀ v', object_at (settop 2 [LUserdata p; v']) 1
        (set_object s (FutureState [] value_ready r)
           (ConditionVariable.post_all w (with_arguments [ANil; ARef r]) vm0)) =
        Some (p, Promise s)) as Hat.
    { intros v'. unfold object_at. simpl. by rewrite lookup_insert_ne, Ho, Hp by done. }
    intros v'. split; [|intros Hv'];
      [unfold Future.promise_set_value|unfold Future.promise_set_error]; rewrite Hat; simpl.
    + by rewrite lookup_insert_eq.
    + rewrite decide_False by done. by rewrite lookup_insert_eq.
Qed.

(** A promise that is collected after it was fulfilled breaks its future:
    the finalizer stores [broken] over any state, so that the value is lost to
    every later [get], which fails with [broken_promise]. *)
Theorem promise_gc_breaks p s w st ref vm L f :
  objects vm !! p = Some (Promise s) → objects vm !! s = Some (FutureState w st ref) →
  object_at L 1 vm = Some (f, Future s) → unsafe_can_suspend vm = None →
  let vm1 := Future.promise_mt_gc p vm in
  Future.future_get L vm1 = (vm1, error Core.broken_promise).
Proof.
  intros Hp Hs Hf Hc. assert (p ≠ s) as Hne by (intros ->; congruence).
  pose proof (object_at_Some _ _ _ _ _ Hf) as Hof.
  assert (p ≠ f ∧ s ≠ f) as [Hpf Hsf] by (split; intros ->; congruence).
  unfold Future.promise_mt_gc. rewrite Hp, Hs. simpl.
  unfold Future.future_get.
  rewrite (object_at_intro L 1 f (Future s)); [|by eapply object_at_arg|].
  2:{ simpl. by rewrite lookup_delete_ne, lookup_insert_ne by done. }
  change (unsafe_can_suspend (with_objects _ _)) with (unsafe_can_suspend vm).
  rewrite Hc. simpl. by rewrite lookup_delete_ne, lookup_insert_eq by done.
Qed.

(** * Fibers *)

(** [src/bytecode/fiber_join.lua], what the Lua function [join] does with the
    values the native one returns or is resumed with. *)
Definition join_wrapper (a : answer) : answer :=
  match a with
  | Return (RV (LBoolean false) :: e :: _) => Error e None
  | Return (RV (LBoolean false) :: []) | Return (RV LNil :: []) | Return [] =>
      Error (RV LNil) None
  | Return (RV LNil :: e :: _) => Error e None
  | Return (_ :: vs) => Return vs
  | _ => a
  end.

(** What [join] promises for a fiber that ended. *)
Definition join_result (r : result) : answer :=
  match r with
  | Finished vs => Return vs
  | Failed e => if is_interrupted r then Return [] else Error e None
  end.

Lemma join_wrapper_values r : join_wrapper (Return (join_values r)) = join_result r.
Proof. destruct r as [vs|e]; simpl; [done|]. by case_bool_decide. Qed.

(** [join] does not depend on who is first: a fiber that joins before the
    other ends is resumed, by the epilogue of the other, with the values that
    [join] returns once the other has ended, and in both cases the handle
    forgets the fiber and remembers whether it was interrupted. *)
Theorem join_early_late_agree r vm :
  is_closing vm = false →
  (∀ f row j h fb jip c, current_fiber_ vm = f → fiber_list vm !! f = Some row →
     joiner row = JThread j → user_handle row = Some h →
     objects vm !! h = Some (Fiber fb jip c) →
     let vm' := fiber_epilogue r vm in
     current_fiber_ vm' = j ∧
     (∃ args, threads vm' !! j = Some (CoRunning args) ∧
        join_wrapper (Return args) = join_result r) ∧
     objects vm' !! h = Some (Fiber None jip (Some (is_interrupted r)))) ∧
  (∀ h t row c, objects vm !! h = Some (Fiber (Some t) false c) →
     fiber_list vm !! t = Some row → status row ≠ None →
     threads vm !! t = Some (CoDead r) → t ≠ current_fiber_ vm →
     unsafe_can_suspend vm = None →
     let '(vm', a) := fiber_join [LUserdata h] vm in
     join_wrapper a = join_result r ∧ fiber_list vm' !! t = None ∧
     objects vm' !! h = Some (Fiber None false (Some (is_interrupted r)))).
Proof.
  intros Hcl. split.
  - intros f row j h fb jip c Hf Hrow Hj Hh Hoh. unfold fiber_epilogue.
    rewrite Hcl, Hf. simpl. rewrite Hrow, Hj, Hh. simpl. rewrite Hoh. simpl.
    split_and!; [done| |apply lookup_insert_eq].
    exists (join_values r). split; [apply lookup_insert_eq|apply join_wrapper_values].
  - intros h t row c Hh Hrow Hst Ht Hne Hs. unfold fiber_join, fiber_arg, object_at.
    rewrite Hs. simpl. rewrite Hh. simpl. rewrite decide_False by done.
    rewrite Hrow. destruct (status row); [|done]. rewrite Ht.
    destruct r as [vs|e]; simpl; [|case_bool_decide; simpl];
      rewrite lookup_delete_eq, lookup_insert_eq; done.
Qed.

(** * Counters *)
Lemma disabled_set_interrupter vm row i :
  fiber_list vm !! current_fiber_ vm = Some row →
  is_disabled (interruption_disabled row) = true → set_interrupter i vm = vm.
Proof.
  intros Hrow Hd. unfold set_interrupter, set_row, with_fiber_list. rewrite alter_id.
  - by destruct vm.
  - intros r Hr. assert (r = row) as -> by congruence. by rewrite Hd.
Qed.
Section counters.
Context (counter : counter_t) (e : Core.errc) (vm : vm_context) (row : fiber_data).
Context (Hrow : fiber_list vm !! current_fiber_ vm = Some row).
Context (Hsys : current_fiber_ vm ≠ async_event_thread_ vm).

Lemma counter_set n r : counter_value counter (set_counter counter n r) = n.
Proof. by destruct counter. Qed.
Lemma set_counter_twice n m r :
  set_counter counter n (set_counter counter m r) = set_counter counter n r.
Proof. by destruct counter. Qed.

Lemma row_set v g r :
  fiber_list v !! current_fiber_ v = Some r →
  fiber_list (set_row (current_fiber_ v) g v) !! current_fiber_ v = Some (g r).
Proof. intros H. simpl. by rewrite lookup_alter_eq, H. Qed.

Definition counted (n : nat) : vm_context :=
  calls (increment_this_fiber_counter counter) n vm.

Lemma counted_facts n :
  current_fiber_ (counted n) = current_fiber_ vm ∧
  async_event_thread_ (counted n) = async_event_thread_ vm ∧
  fiber_list (counted n) !! current_fiber_ vm =
    Some (match n with
          | 0 => row
          | _ => set_counter counter (counter_value counter row + n) row end).
Proof.
  induction n as [|n (Hc & Ha & Hr)]; [done|]. unfold counted in *. rewrite calls_S.
  unfold increment_this_fiber_counter at 1 3 5. rewrite Hc, Ha, decide_False by done. simpl.
  split_and!; [done|done|]. rewrite lookup_alter_eq, Hr. simpl. f_equal. destruct n as [|n].
  - done.
  - rewrite counter_set, set_counter_twice. f_equal. lia.
Qed.

Lemma decrement_counted m n :
  counter_value counter row = 0%Z → m ≤ n →
  let down := calls (decrement_this_fiber_counter counter e) m (counted n) in
  current_fiber_ down = current_fiber_ vm ∧
  async_event_thread_ down = async_event_thread_ vm ∧
  ∃ r, fiber_list down !! current_fiber_ vm = Some r ∧
    counter_value counter r = (n - m)%Z ∧
    set_counter counter 0 r = set_counter counter 0 row.
Proof.
  intros H0. induction m as [|m IH]; intros Hm.
  - destruct (counted_facts n) as (Hc & Ha & Hr). simpl. split_and!; [done|done|].
    eexists. split; [exact Hr|]. destruct n; [rewrite H0; split; [lia|done]|].
    rewrite counter_set, set_counter_twice. split; [lia|done].
  - destruct IH as (Hc & Ha & r & Hr & Hv & Hsame); [lia|]. rewrite calls_S. simpl.
    unfold decrement_this_fiber_counter at 1 3 5. rewrite Hc, Ha, decide_False, Hr by done.
    rewrite decide_True by lia. simpl. split_and!; [done|done|].
    rewrite lookup_alter_eq, Hr. simpl. eexists. split; [done|].
    rewrite counter_set, set_counter_twice. split; [lia|done].
Qed.
End counters.

(** The switches of [this_fiber] nest: after [n] calls of
    [disable_interruption] (or [forbid_suspend]), as many calls of
    [restore_interruption] ([allow_suspend]) put the fiber back, and one more
    fails with the given error.  Between them every suspension point of the
    fiber is refused ([forbid_suspend]), or ignores a pending interruption and
    leaves no interrupter behind ([disable_interruption]). *)
Theorem counters_nest counter e vm row n :
  fiber_list vm !! current_fiber_ vm = Some row →
  current_fiber_ vm ≠ async_event_thread_ vm → counter_value counter row = 0%Z →
  let up := calls (increment_this_fiber_counter counter) n vm in
  let down := calls (decrement_this_fiber_counter counter e) n up in
  (∃ row', fiber_list down !! current_fiber_ vm = Some row' ∧
     counter_value counter row' = 0%Z ∧
     set_counter counter 0 row' = set_counter counter 0 row) ∧
  decrement_this_fiber_counter counter e down = (down, error e) ∧
  (n ≠ 0 →
     match counter with
     | SUSPENSION_DISALLOWED => unsafe_can_suspend up = Some (error Core.forbid_suspend_block)
     | INTERRUPTION_DISABLED =>
         unsafe_can_suspend up = unsafe_can_suspend2 up ∧ ∀ i, set_interrupter i up = up
     end).
Proof.
  intros Hrow Hsys H0. simpl.
  destruct (decrement_counted counter e vm row Hrow Hsys n n H0 (le_n n))
    as (Hc & Ha & r & Hr & Hv & Hsame). fold (counted counter vm n).
  rewrite Z.sub_diag in Hv. split_and!; [by exists r|..].
  - unfold decrement_this_fiber_counter at 1. rewrite Hc, Ha, decide_False, Hr by done.
    by rewrite decide_False by lia.
  - intros Hn. destruct (counted_facts counter vm row Hrow Hsys n) as (Hc' & Ha' & Hr').
    destruct n as [|n]; [done|].
    rewrite H0, Z.add_0_l in Hr'. destruct counter; simpl in H0.
    + split.
      * unfold unsafe_can_suspend, unsafe_can_suspend2.
        rewrite Hc', Ha', decide_False, Hr' by done. simpl.
        by repeat case_decide.
      * intros i. eapply disabled_set_interrupter; [by rewrite Hc'|].
        apply bool_decide_true. lia.
    + unfold unsafe_can_suspend. rewrite Hc', Ha', decide_False, Hr' by done. done.
Qed.

(** * Interruption *)

(** The task an interrupter posts. *)
Definition interruption (i : interrupter_t) : list argument :=
  match i with
  | IJoin _ _ _ => [ABool false; AError Core.interrupted]
  | _ => [AError Core.interrupted]
  end.

Lemma interrupter_posts vm A f i :
  inv vm A → interrupter_ok vm A f i →
  strand (call_interrupter i vm) = strand vm ++
    (if decide (f ∈ task_fiber <$> strand vm) then []
     else [FiberResume f (with_arguments (interruption i))]).
Proof.
  intros I Hok. pose proof (inv_places _ _ I) as PL.
  assert (A f ≠ Some Schedule.Queued → f ∉ task_fiber <$> strand vm) as Hnq.
  { intros Hn Hin. by apply Hn, (inv_queue _ _ PL). }
  destruct i as [c g|s g|h g t|s|h|h|h]; simpl in Hok; [| | |done..].
  - destruct Hok as [-> [[HP [p Hp]]|[HP _]]]; simpl;
      unfold ConditionVariable.cond_interrupter.
    + rewrite Hp. assert (f ∈ p) as Hin.
      { apply (inv_pending _ _ PL) in HP. unfold pending_at in HP. by rewrite Hp in HP. }
      by rewrite decide_True, decide_False by (done || (apply Hnq; congruence)).
    + rewrite (decide_True (P := f ∈ task_fiber <$> _)) by by apply (inv_queue _ _ PL).
      rewrite app_nil_r. destruct (objects vm !! c) as [[| |p| | | |]|] eqn:Hc; try done.
      rewrite decide_False; [done|]. intros Hin.
      apply (in_pending I c (Cond p)) in Hin; [congruence|done].
  - destruct Hok as [-> [[HP (w & st & r & Hp)]|[HP _]]]; simpl;
      unfold Future.future_interrupter.
    + rewrite Hp. assert (f ∈ w) as Hin.
      { apply (inv_pending _ _ PL) in HP. unfold pending_at in HP. by rewrite Hp in HP. }
      by rewrite decide_True, decide_False by (done || (apply Hnq; congruence)).
    + rewrite (decide_True (P := f ∈ task_fiber <$> _)) by by apply (inv_queue _ _ PL).
      rewrite app_nil_r. destruct (objects vm !! s) as [[| | |w st r| | |]|] eqn:Hc; try done.
      rewrite decide_False; [done|]. intros Hin.
      apply (in_pending I s (FutureState w st r)) in Hin; [congruence|done].
  - destruct Hok as (-> & HP & c & Hh). unfold call_interrupter, join_interrupter. simpl.
    rewrite Hh. rewrite decide_False by (apply Hnq; congruence). done.
Qed.

Lemma call_interrupter_rows vm i f row :
  fiber_list vm !! f = Some row →
  ∃ row', fiber_list (call_interrupter i vm) !! f = Some row' ∧
    interrupted row' = interrupted row.
Proof.
  intros Hrow. destruct i as [c g|s g|h g t|s|h|h|h]; simpl.
  - unfold ConditionVariable.cond_interrupter. repeat case_match; by exists row.
  - unfold Future.future_interrupter. repeat case_match; by exists row.
  - unfold join_interrupter. simpl.
    assert (∃ row', alter (λ row, with_user_handle (λ _, None)
        (with_joiner (λ _, JNone) row)) t (fiber_list vm) !! f = Some row' ∧
        interrupted row' = interrupted row) as H.
    { rewrite lookup_alter. case_decide; subst; rewrite Hrow; by eexists. }
    by repeat case_match.
  - by exists row.
  - by exists row.
  - by exists row.
  - by exists row.
Qed.

(** [interrupt] reaches a fiber that can be interrupted where it waits: it
    leaves the condition variable, the future or the [join] and is resumed,
    after the tasks that were posted before, with the error [interrupted]; when
    it was already woken up, it is resumed once all the same.  Either way the
    interrupter is gone and the fiber knows it was interrupted. *)
Theorem interrupt_wakes vm L h f jip c row i :
  reachable vm → valid_ vm = true → fiber_arg L vm = Some (h, (Some f, jip, c)) →
  fiber_list vm !! f = Some row → interrupter row = Some i → f ≠ current_fiber_ vm →
  let '(vm', a) := fiber_interrupt L vm in
  a = Return [] ∧
  (∃ row', fiber_list vm' !! f = Some row' ∧ interrupted row' = true ∧
     interrupter row' = None) ∧
  strand vm' = strand vm ++
    (if decide (f ∈ task_fiber <$> strand vm) then []
     else [FiberResume f (with_arguments (interruption i))]).
Proof.
  intros Hreach Hv Harg Hrow Hi Hne.
  destruct (reachable_abstracts vm Hreach Hv) as [A [I _]].
  destruct (inv_interrupters _ _ I f row i Hrow Hi) as (_ & _ & Hok).
  unfold fiber_interrupt. rewrite Harg, Hrow. simpl. rewrite decide_False, Hi by done.
  set (vm0 := set_row f (with_interrupted (λ _, true)) vm).
  split_and!; [done| |].
  - destruct (call_interrupter_rows vm0 i f (with_interrupted (λ _, true) row))
      as (row' & Hr' & Hint).
    { simpl. by rewrite lookup_alter_eq, Hrow. }
    simpl. rewrite lookup_alter_eq, Hr'. by eexists.
  - simpl. apply (interrupter_posts vm0 (Schedule.place_of A)).
    + apply inv_set_row; [done|by eapply keeps_with_interrupted|]. by right.
    + by apply interrupter_ok_set_row.
Qed.

(** * Examples *)
Lemma idle_intro vm :
  forallb (λ kv, match kv.2 with CoRunning _ => false | _ => true end)
    (map_to_list (threads vm)) = true → idle vm.
Proof.
  intros H f args Hf%elem_of_map_to_list. rewrite forallb_forall in H.
  apply list_elem_of_In in Hf. by apply H in Hf.
Qed.

(** The main fiber spawns another, makes a future and yields; the other waits
    on the future; the main fiber runs again. *)
Definition with_future : vm_context := after_call (call FutureNew [] spawned).
Definition main_yields : vm_context := after_call (call ThisYield [] with_future).
Definition other_runs : vm_context :=
  default boot (fiber_resume 2 skip_clear
    (with_strand (λ _, [FiberResume 0 skip_clear]) main_yields)).
Definition other_waits : vm_context := after_call (call FutureGet [LUserdata 7] other_runs).
Definition main_runs : vm_context :=
  default boot (fiber_resume 0 skip_clear (with_strand (λ _, []) other_waits)).

Lemma reachable_main_runs : reachable main_runs.
Proof.
  exists boot. split; [apply initial_boot|].
  eapply rtc_l; [apply boot_spawned|].
  eapply (rtc_l _ _ with_future); [apply step_call; [done|by exists []|done|done]|].
  eapply (rtc_l _ _ main_yields); [apply step_call; [done|by exists []|done|done]|].
  eapply (rtc_l _ _ other_runs).
  { eapply step_task; [by apply idle_intro; vm_compute|reflexivity|reflexivity]. }
  eapply (rtc_l _ _ other_waits); [apply step_call; [done|by exists []|done|done]|].
  apply rtc_once.
  eapply step_task; [by apply idle_intro; vm_compute|reflexivity|reflexivity].
Qed.

Lemma sync_objects_consistent_witness : object_ok (FutureState [2] empty Future.LUA_NOREF).
Proof. exact (sync_objects_consistent main_runs reachable_main_runs 5 _ eq_refl). Defined.

Lemma interrupt_wakes_witness :
  let '(vm', a) := fiber_interrupt [LUserdata 4] main_runs in
  a = Return [] ∧
  (∃ row', fiber_list vm' !! 2 = Some row' ∧ interrupted row' = true ∧
     interrupter row' = None) ∧
  strand vm' = [FiberResume 2 (with_arguments [AError Core.interrupted])].
Proof.
  exact (interrupt_wakes main_runs [LUserdata 4] 4 2 false None _ (IFuture 5 2)
    reachable_main_runs eq_refl eq_refl eq_refl eq_refl ltac:(done)).
Defined.

Definition with_mutex (x : object) : vm_context :=
  with_objects (λ _, {[10 := x; 11 := Cond [3]]}) boot.

Lemma mutex_fifo_witness :
  strand (calls (Mutex.mutex_unlock [LUserdata 10]) 2 (with_mutex (Mutex [2; 3; 4] true))) =
    [FiberResume 2 skip_clear; FiberResume 3 skip_clear].
Proof.
  apply (mutex_fifo [LUserdata 10] 10 [2; 3; 4] 2 (with_mutex (Mutex [2; 3; 4] true)));
    [reflexivity|simpl; lia].
Defined.

Lemma recursive_mutex_balanced_witness :
  let vm := with_mutex (RecursiveMutex [] 0 None) in
  calls (RecursiveMutex.recursive_mutex_unlock [LUserdata 10]) 3
    (calls (RecursiveMutex.recursive_mutex_lock [LUserdata 10]) 3 vm) = vm.
Proof.
  apply (recursive_mutex_balanced [LUserdata 10] 10 (with_mutex (RecursiveMutex [] 0 None)) 3);
    [reflexivity|reflexivity|vm_compute; intuition discriminate].
Defined.

Lemma cond_wait_notify_witness :
  let vm := with_mutex (Mutex [2] true) in
  let '(vm1, a) := ConditionVariable.cond_wait [LUserdata 11; LUserdata 10] vm in
  a = Yield ∧ objects vm1 !! 10 = Some (Mutex [] true) ∧
  let '(vm2, a2) := ConditionVariable.cond_notify_all [LUserdata 11] vm1 in
  a2 = Return [] ∧ objects vm2 !! 11 = Some (Cond []) ∧
  strand vm2 = [FiberResume 2 skip_clear; FiberResume 3 no_options; FiberResume 0 no_options].
Proof.
  exact (cond_wait_notify [LUserdata 11; LUserdata 10] [LUserdata 11] 11 [3] 10 [2]
    (with_mutex (Mutex [2] true)) eq_refl eq_refl eq_refl eq_refl).
Defined.

Lemma future_delivers_witness :
  (Future.promise_set_value [LUserdata 6; LBoolean true] main_runs).2 = Return [].
Proof.
  pose proof (future_delivers 6 (LBoolean true) 5 [2] Future.LUA_NOREF main_runs
    eq_refl eq_refl eq_refl) as H.
  destruct (Future.promise_set_value _ _) as [vm1 a]. exact (proj1 H).
Defined.

(** The promise is fulfilled, then collected. *)
Definition fulfilled : vm_context :=
  (Future.promise_set_value [LUserdata 6; LBoolean true] with_future).1.

Lemma promise_gc_breaks_witness :
  objects fulfilled !! 5 = Some (FutureState [] value_ready 1) ∧
  (Future.future_get [LUserdata 7] fulfilled).2 = Return [RV LNil; RV (LBoolean true)] ∧
  (Future.future_get [LUserdata 7] (Future.promise_mt_gc 6 fulfilled)).2 =
    error Core.broken_promise.
Proof.
  split_and!; [reflexivity|reflexivity|].
  by rewrite (promise_gc_breaks 6 5 [] value_ready 1 fulfilled [LUserdata 7] 7
    eq_refl eq_refl eq_refl eq_refl).
Defined.

(** A finished fiber 2, with its handle 4. *)
Definition other_ended : vm_context :=
  with_current_fiber (λ _, 0) (fiber_epilogue (Finished [RV (LBoolean true)]) other_runs).

Lemma join_early_late_agree_witness :
  join_wrapper (fiber_join [LUserdata 4] other_ended).2 = Return [RV (LBoolean true)].
Proof.
  pose proof (proj2 (join_early_late_agree (Finished [RV (LBoolean true)]) other_ended eq_refl)
    4 2 (with_status (λ _, Some FINISHED_SUCCESSFULLY) (new_row 3)) None
    eq_refl eq_refl ltac:(done) eq_refl ltac:(done) eq_refl) as H.
  destruct (fiber_join _ _) as [vm' a]. exact (proj1 H).
Defined.

Lemma counters_nest_witness :
  unsafe_can_suspend (calls (increment_this_fiber_counter SUSPENSION_DISALLOWED) 2 boot) =
    Some (error Core.forbid_suspend_block).
Proof.
  refine (proj2 (proj2 (counters_nest SUSPENSION_DISALLOWED Core.suspension_already_allowed
    boot initial_row 2 eq_refl _ eq_refl)) _); done.
Defined.
