(* ===== verification/IpcMessage.v ===== *)
(** The messages of IPC actors: [src/include/emilua/actor.hpp]
    ([ipc_actor_message]), the sender [ipc_actor_chan_send] and
    [ipc_actor_send_op] of [src/src/actor.ypp], and the two decoders in
    [ipc_actor_inbox_op::on_wait] of [src/src/ipc_actor.cpp].

    A message is an array of NaN-boxed members followed by a buffer of
    counted strings; file descriptors travel beside it.  The receiver trusts
    neither the octets nor their number: what it was not sent is whatever its
    stack held before. *)
From S2P Require Import Prelude Errors Lua.

(** * NaN boxing *)
Definition DOUBLE_SIGN_BIT : Z := 0x8000000000000000.
Definition EXPONENT_MASK : Z := 0x7FF0000000000000.
Definition MANTISSA_MASK : Z := 0x000FFFFFFFFFFFFF.
Definition QNAN_BIT : Z := 0x0008000000000000.

Inductive kind : Set :=
| boolean_true | boolean_false | string | file_descriptor | actor_address | nil.

Definition kind_value (k : kind) : Z :=
  match k with
  | boolean_true => 1
  | boolean_false => 2
  | string => 3
  | file_descriptor => 4
  | actor_address => 5
  | nil => 6
  end.

Definition boxed (k : kind) : Z := Z.lor EXPONENT_MASK (kind_value k).

Definition is_snan (as_i : Z) : bool :=
  bool_decide (Z.land as_i EXPONENT_MASK = EXPONENT_MASK) &&
  bool_decide (Z.land as_i MANTISSA_MASK ≠ 0)%Z &&
  bool_decide (Z.land as_i QNAN_BIT = 0)%Z.

(** The cases of [switch (as_int & MANTISSA_MASK)]; [nil] is not one. *)
Definition switch_kind (as_i : Z) : option kind :=
  list_find (λ k, kind_value k = Z.land as_i MANTISSA_MASK)
    [boolean_true; boolean_false; string; file_descriptor; actor_address]
  ≫= λ '(_, k), Some k.

(** * The message *)

(** The members, as 64-bit patterns, and the strings. *)
Record ipc_actor_message : Set := Message { members : list Z; strbuf : bytes }.

(** [INVALID_FILE_DESCRIPTOR]. *)
Definition INVALID_FILE_DESCRIPTOR : Z := -1.

Section message.
(** [EMILUA_CONFIG_IPC_ACTOR_MESSAGE_MAX_MEMBERS_NUMBER]. *)
Context (max_members : nat).

(** [sizeof(message.members)] and [sizeof(message)]. *)
Definition members_size : nat := 8 * max_members.
Definition message_sizeof : nat := members_size + 512 * max_members.

(** The memory of a message: the arrays have their sizes, octets are octets. *)
Definition message_wf (m : ipc_actor_message) : Prop :=
  length (members m) = max_members ∧ length (strbuf m) = 512 * max_members ∧
  Forall is_byte (strbuf m).

(** * The receiver *)

(** What a Lua program receives. *)
Inductive value : Set :=
| VBoolean (b : bool)
| VNumber (n : lua_Number)
| VString (s : bytes)
| VFileDescriptor (fd : Z)
| VActorAddress (fd : Z).

Inductive received : Set :=
| Flat (v : value)
| Dict (d : gmap bytes value).

(** How decoding ends: a value and the descriptors nothing took, which the
    scope closes; a bad message; a read outside of the message. *)
Inductive decoded : Set :=
| Good (r : received) (unused : list Z)
| BadMessage
| OutOfBounds.

(** A string view into [strbuf]: offset of its first octet, and size. *)
Definition view : Set := nat * nat.

(** The offset of the octet after the view is within the [nread] octets. *)
Definition boundsvalid (nread : nat) (v : view) : bool :=
  bool_decide (members_size + v.1 + v.2 ≤ nread).

(** The octets of a view; [None] when it leaves the buffer. *)
Definition view_text (m : ipc_actor_message) (v : view) : option bytes :=
  if decide (v.1 + v.2 ≤ length (strbuf m)) then Some (window v.1 v.2 (strbuf m))
  else None.

(** [nextstr]: the view at [strit], and [strit] after it. *)
Definition nextstr (m : ipc_actor_message) (strit : nat) : option (view * nat) :=
  match strbuf m !! strit with
  | Some size => Some ((S strit, Z.to_nat size), S strit + Z.to_nat size)
  | None => None
  end.

(** A string that is read, checked and copied. *)
Definition take_string (m : ipc_actor_message) (nread strit : nat)
    (k : bytes → nat → decoded) : decoded :=
  match nextstr m strit with
  | None => OutOfBounds
  | Some (v, strit) =>
      if boundsvalid nread v then
        match view_text m v with Some s => k s strit | None => OutOfBounds end
      else BadMessage
  end.

(** A flat message: the value of [members[1]]. *)
Definition decode_flat (m : ipc_actor_message) (nread : nat) (fds : list Z) : decoded :=
  match members m !! 1 with
  | None => OutOfBounds
  | Some as_int =>
      if is_snan as_int then
        match switch_kind as_int with
        | Some boolean_true => Good (Flat (VBoolean true)) fds
        | Some boolean_false => Good (Flat (VBoolean false)) fds
        | Some string =>
            take_string m nread 0 (λ s _, Good (Flat (VString s)) fds)
        | Some file_descriptor =>
            match fds with
            | [fd] => Good (Flat (VFileDescriptor fd)) []
            | _ => BadMessage
            end
        | Some actor_address =>
            match fds with
            | [fd] => Good (Flat (VActorAddress fd)) []
            | _ => BadMessage
            end
        | Some nil | None => BadMessage
        end
      else Good (Flat (VNumber as_int)) fds
  end.

(** [std::map::emplace] keeps the value of a key it has; [lua_rawset]
    replaces it. *)
Definition emplace (key : bytes) (v : value) (dict : gmap bytes value) :
    gmap bytes value :=
  match dict !! key with Some _ => dict | None => <[key := v]> dict end.
Definition rawset (key : bytes) (v : value) (dict : gmap bytes value) :
    gmap bytes value := <[key := v]> dict.

(** The value of a member, given to [k] with [strit] and the descriptors that
    are left. *)
Definition decode_value (m : ipc_actor_message) (nread : nat) (as_int : Z) (strit : nat)
    (fds : list Z) (k : value → nat → list Z → decoded) : decoded :=
  if is_snan as_int then
    match switch_kind as_int with
    | Some boolean_true => k (VBoolean true) strit fds
    | Some boolean_false => k (VBoolean false) strit fds
    | Some string => take_string m nread strit (λ s strit, k (VString s) strit fds)
    | Some file_descriptor =>
        match fds with
        | [] => BadMessage
        | fd :: fds => k (VFileDescriptor fd) strit fds
        end
    | Some actor_address =>
        match fds with
        | [] => BadMessage
        | fd :: fds => k (VActorAddress fd) strit fds
        end
    | Some nil | None => BadMessage
    end
  else k (VNumber as_int) strit fds.

(** The loop over the members. *)
Fixpoint decode_members (put : bytes → value → gmap bytes value → gmap bytes value)
    (m : ipc_actor_message) (nread : nat) (ms : list Z) (strit : nat) (fds : list Z)
    (dict : gmap bytes value) : decoded :=
  match ms with
  | [] => Good (Dict dict) fds
  | as_int :: ms =>
      if decide (as_int = boxed nil) then Good (Dict dict) fds
      else
        take_string m nread strit (λ key strit,
          decode_value m nread as_int strit fds (λ v strit fds,
            decode_members put m nread ms strit fds (put key v dict)))
  end.

Definition decode_dict (put : bytes → value → gmap bytes value → gmap bytes value)
    (m : ipc_actor_message) (nread : nat) (fds : list Z) : decoded :=
  if decide (nread < members_size) then BadMessage
  else decode_members put m nread (members m) 0 fds ∅.

(** The two decoders: into the queue of the inbox, and onto the stack of the
    fiber that receives. *)
Definition decode (put : bytes → value → gmap bytes value → gmap bytes value)
    (m : ipc_actor_message) (nread : nat) (fds : list Z) : decoded :=
  match members m !! 0 with
  | None => OutOfBounds
  | Some as_int =>
      if decide (as_int = boxed nil) then decode_flat m nread fds
      else decode_dict put m nread fds
  end.
Definition decode_queued := decode emplace.
Definition deserializer := decode rawset.

(** * The sender *)

(** What a Lua program may send: [PUnsupported] stands for the types the
    sender refuses (nil, functions, threads, other userdata, and tables inside
    of a table); a channel has its VM if that is still alive. *)
Inductive payload : Set :=
| PUnsupported
| PBoolean (b : bool)
| PNumber (n : lua_Number)
| PString (s : bytes)
| PFileDescriptor (handle : loc)
| PTxChan (dest : option loc)
| PInbox.

(** The argument of [send]: a table may have a metatable, and keys that are
    not strings ([None]), in the order [lua_next] gives. *)
Inductive send_arg : Set :=
| Scalar (v : payload)
| Table (has_metatable : bool) (entries : list (option bytes * payload)).

(** What sending touches: the file descriptor handles, the inbox of the
    sender, the VMs a channel leads to, and the descriptors of the process. *)
Record sender : Set := Sender {
  handles : gmap loc Z;
  npairs : nat;                       (* calls of [socketpair] *)
  nsenders : Z;                       (* [vm_ctx.inbox.nsenders] *)
  services : list Z;                  (* the inbox services of the VM *)
  posted : list (loc * Z);            (* services to add to other VMs *)
  closed : list Z;
}.

(** [socketpair], by the number of the call: an [errno] or two descriptors. *)
Context (socketpair : nat → Z + Z * Z).

(** [file_descriptor_lock]. *)
Inductive fd_lock : Set :=
| ByReference (handle : loc)
| ByValue (fd : Z).

Inductive send_error : Set :=
| InvalidArgument                     (* for argument 2 *)
| Busy
| SystemError (errno : Z).

Definition close_fds (fds : list Z) (st : sender) : sender :=
  Sender (handles st) (npairs st) (nsenders st) (services st) (posted st)
    (closed st ++ fds).
Definition set_handle (h : loc) (fd : Z) (st : sender) : sender :=
  Sender (<[h := fd]> (handles st)) (npairs st) (nsenders st) (services st)
    (posted st) (closed st).

(** A new channel; its first end goes to the inbox of the destination. *)
Definition open_channel (st : sender) : sender * (Z + Z * Z) :=
  (Sender (handles st) (S (npairs st)) (nsenders st) (services st) (posted st)
     (closed st), socketpair (npairs st)).
Definition give_to (dest : option loc) (inboxfd : Z) (st : sender) : sender :=
  match dest with
  | Some d =>
      Sender (handles st) (npairs st) (nsenders st) (services st)
        (posted st ++ [(d, inboxfd)]) (closed st)
  | None => close_fds [inboxfd] st
  end.
Definition keep_inbox (inboxfd : Z) (st : sender) : sender :=
  Sender (handles st) (npairs st) (nsenders st + 1) (services st ++ [inboxfd])
    (posted st) (closed st).

(** One value: its member, what it adds to [strbuf], its descriptor. *)
Definition encode_value (v : payload) (st : sender) :
    sender * (send_error + Z * bytes * list fd_lock) :=
  match v with
  | PUnsupported => (st, inl InvalidArgument)
  | PBoolean b => (st, inr (boxed (if b : bool then boolean_true else boolean_false), [], []))
  | PNumber n => (st, inr (n, [], []))
  | PString s =>
      if decide (255 < length s) then (st, inl InvalidArgument)
      else (st, inr (boxed string, Z.of_nat (length s) :: s, []))
  | PTxChan dest =>
      match open_channel st with
      | (st, inl errno) => (st, inl (SystemError errno))
      | (st, inr (inboxfd, fd)) =>
          (give_to dest inboxfd st, inr (boxed actor_address, [], [ByValue fd]))
      end
  | PInbox =>
      match open_channel st with
      | (st, inl errno) => (st, inl (SystemError errno))
      | (st, inr (inboxfd, fd)) =>
          (keep_inbox inboxfd st, inr (boxed actor_address, [], [ByValue fd]))
      end
  | PFileDescriptor h =>
      match handles st !! h with
      | None => (st, inl InvalidArgument)
      | Some fd =>
          if decide (fd = INVALID_FILE_DESCRIPTOR) then (st, inl Busy)
          else (st, inr (boxed file_descriptor, [], [ByReference h]))
      end
  end.

(** What was written so far. *)
Record partial : Set := Partial {
  written : list Z;
  strings : bytes;
  descriptors : list fd_lock;
}.

(** The loop over the table. *)
Fixpoint encode_entries (entries : list (option bytes * payload)) (p : partial)
    (st : sender) : sender * partial * option send_error :=
  match entries with
  | [] => (st, p, None)
  | (None, _) :: entries => encode_entries entries p st
  | (Some key, v) :: entries =>
      if decide (length (written p) = max_members) then (st, p, Some InvalidArgument)
      else if decide (255 < length key) then (st, p, Some InvalidArgument)
      else
        let strs := strings p ++ Z.of_nat (length key) :: key in
        match encode_value v st with
        | (st, inl e) => (st, Partial (written p) strs (descriptors p), Some e)
        | (st, inr (as_int, s, ds)) =>
            encode_entries entries
              (Partial (written p ++ [as_int]) (strs ++ s) (descriptors p ++ ds)) st
        end
  end.

(** The scope's exit, when the operation did not start. *)
Definition abandon (p : partial) (st : sender) : sender :=
  close_fds (omap (λ d, match d with ByValue fd => Some fd | ByReference _ => None end)
               (descriptors p)) st.

(** A message ready to send: its memory, which was [uninit] before, the octets
    to send and the descriptors. *)
Record outgoing : Set := Outgoing {
  message : ipc_actor_message;
  message_size : nat;
  locks : list fd_lock;
}.

(** The memory once the given members and strings are stored. *)
Definition store_message (uninit : ipc_actor_message) (ms : list Z) (strs : bytes) :
    ipc_actor_message :=
  Message (ms ++ drop (length ms) (members uninit))
    (strs ++ drop (length strs) (strbuf uninit)).

Definition encode (uninit : ipc_actor_message) (v : send_arg) (st : sender) :
    sender * (send_error + outgoing) :=
  match v with
  | Scalar v =>
      match encode_value v st with
      | (st, inl e) => (st, inl e)
      | (st, inr (as_int, strs, ds)) =>
          match v with
          | PString _ =>
              (st, inr (Outgoing
                 (store_message uninit (boxed nil :: as_int :: replicate (max_members - 2) 0%Z)
                    strs) (members_size + length strs) ds))
          | _ =>
              (st, inr (Outgoing (store_message uninit [boxed nil; as_int] []) 16 ds))
          end
      end
  | Table true _ => (st, inl InvalidArgument)
  | Table false entries =>
      match encode_entries entries (Partial [] [] []) st with
      | (st, p, Some e) => (abandon p st, inl e)
      | (st, p, None) =>
          if decide (length (written p) = 0) then (abandon p st, inl InvalidArgument)
          else
            (st, inr (Outgoing
               (store_message uninit
                  (written p ++ replicate (max_members - length (written p)) (boxed nil))
                  (strings p))
               (members_size + length (strings p)) (descriptors p)))
      end
  end.

(** Before the operation starts, the handles are emptied. *)
Fixpoint lock_all (ds : list fd_lock) (st : sender) : sender * list (option loc * Z) :=
  match ds with
  | [] => (st, [])
  | ByReference h :: ds =>
      let fd := default INVALID_FILE_DESCRIPTOR (handles st !! h) in
      let '(st, vs) := lock_all ds (set_handle h INVALID_FILE_DESCRIPTOR st) in
      (st, (Some h, fd) :: vs)
  | ByValue fd :: ds =>
      let '(st, vs) := lock_all ds st in (st, (None, fd) :: vs)
  end.

(** [ipc_actor_send_op::on_wait], once the message is sent or has failed: the
    handles get their descriptors back, the others are closed. *)
Fixpoint release_all (vs : list (option loc * Z)) (st : sender) : sender :=
  match vs with
  | [] => st
  | (Some h, fd) :: vs => release_all vs (set_handle h fd st)
  | (None, fd) :: vs => release_all vs (close_fds [fd] st)
  end.
End message.
