(* ===== verification/IpcSpec.v ===== *)
(** What the messages of IPC actors promise: a hostile message is never read
    outside of what was received, a message sent is received as it was, and
    nothing of the sender's memory leaves with it. *)
From S2P Require Import Prelude Errors Lua IpcMessage.

(** * Boxes *)
Lemma is_snan_boxed k : is_snan (boxed k) = true.
Proof. by destruct k; vm_compute. Qed.
Lemma switch_kind_boxed k : k ≠ nil → switch_kind (boxed k) = Some k.
Proof. by destruct k; vm_compute. Qed.
Lemma number_not_nil n : is_snan n = false → n ≠ boxed nil.
Proof. intros Hn ->. by rewrite is_snan_boxed in Hn. Qed.

Lemma window_app_inv {A} i (a b l : list A) :
  window i (length (a ++ b)) l = a ++ b →
  window i (length a) l = a ∧ window (i + length a) (length b) l = b.
Proof.
  unfold window. rewrite length_app, <- (take_take_drop _ (length a)), <- (drop_drop l).
  intros H. assert (length (take (length a) (drop i l)) = length a) as Hl.
  { apply (f_equal length) in H. rewrite !length_app, !length_take, !length_drop in *. lia. }
  by apply app_inj_1 in H.
Qed.

(** * Reading *)
Section reading.
Context (max_members : nat).
#[local] Notation members_size := (members_size max_members).
#[local] Notation message_wf := (message_wf max_members).
#[local] Notation take_string := (take_string max_members).

(** Two messages have the same first [nread] octets. *)
Record agree (nread : nat) (m m' : ipc_actor_message) : Prop := {
  agree_members i : 8 * (i + 1) ≤ nread → members m !! i = members m' !! i;
  agree_strings p : members_size + p < nread → strbuf m !! p = strbuf m' !! p;
}.

(** Decodings that end the same way, and not out of bounds. *)
Definition same (r r' : decoded) : Prop := r = r' ∧ r ≠ OutOfBounds.

Lemma strbuf_octet m p :
  message_wf m → p < 512 * max_members → ∃ c, strbuf m !! p = Some c ∧ (0 ≤ c < 256)%Z.
Proof.
  intros (_ & Hl & Hb) Hp. destruct (lookup_lt_is_Some_2 (strbuf m) p) as [c Hc]; [lia|].
  exists c. split; [done|]. rewrite Forall_lookup in Hb. specialize (Hb p c Hc).
  unfold is_byte in Hb. lia.
Qed.

Section two.
Context (m m' : ipc_actor_message) (nread : nat).
Context (Hm : message_wf m) (Hm' : message_wf m') (Ha : agree nread m m').
Context (Hn : nread ≤ message_sizeof max_members).

Lemma view_same v :
  members_size + v.1 + v.2 ≤ nread →
  ∃ s, view_text m v = Some s ∧ view_text m' v = Some s.
Proof.
  intros Hv. unfold message_sizeof in Hn. unfold view_text.
  destruct Hm as (_ & Hl & _), Hm' as (_ & Hl' & _).
  rewrite !decide_True by lia. eexists. split; [done|]. f_equal. apply list_eq. intros i.
  destruct (decide (i < v.2)).
  - rewrite !window_lookup by done. symmetry. apply (agree_strings _ _ _ Ha). lia.
  - rewrite !lookup_ge_None_2; [done|rewrite length_window; lia..].
Qed.

Lemma take_string_same strit k k' :
  strit < 512 * max_members →
  (∀ s strit', strit' ≤ strit + 256 → same (k s strit') (k' s strit')) →
  same (take_string m nread strit k) (take_string m' nread strit k').
Proof.
  intros Hs Hk. unfold IpcMessage.take_string, nextstr.
  destruct (strbuf_octet m strit Hm Hs) as (c & Hc & Hb).
  destruct (strbuf_octet m' strit Hm' Hs) as (c' & Hc' & Hb').
  rewrite Hc, Hc'. unfold boundsvalid. simpl.
  destruct (decide (members_size + strit < nread)) as [Hin|Hout].
  - assert (c' = c) as -> by (pose proof (agree_strings _ _ _ Ha strit Hin); congruence).
    case_bool_decide as Hv; [|by split].
    destruct (view_same (S strit, Z.to_nat c) Hv) as (s & -> & ->). apply Hk. lia.
  - rewrite !bool_decide_false by lia. by split.
Qed.

Lemma decode_value_same w strit fds k k' :
  strit < 512 * max_members →
  (∀ v strit' fds', strit' ≤ strit + 256 → same (k v strit' fds') (k' v strit' fds')) →
  same (decode_value max_members m nread w strit fds k)
       (decode_value max_members m' nread w strit fds k').
Proof.
  intros Hs Hk. unfold decode_value. destruct (is_snan w); [|apply Hk; lia].
  destruct (switch_kind w) as [[]|]; try (by split); try (apply Hk; lia).
  - apply take_string_same; [lia|]. intros. by apply Hk.
  - destruct fds; [by split|apply Hk; lia].
  - destruct fds; [by split|apply Hk; lia].
Qed.

Lemma decode_members_same put ms strit fds dict :
  strit + 512 * length ms ≤ 512 * max_members →
  same (decode_members max_members put m nread ms strit fds dict)
       (decode_members max_members put m' nread ms strit fds dict).
Proof.
  revert strit fds dict. induction ms as [|w ms IH]; intros strit fds dict Hs;
    cbn [decode_members length] in *.
  { by split. }
  case_decide; [by split|]. apply take_string_same; [lia|]. intros key strit1 H1.
  apply decode_value_same; [lia|]. intros v strit2 fds' H2. apply IH. lia.
Qed.

Lemma decode_same put fds :
  2 < max_members → 16 ≤ nread →
  same (decode max_members put m nread fds) (decode max_members put m' nread fds).
Proof.
  intros Hmax Hr. unfold decode, decode_flat, decode_dict.
  rewrite <- (agree_members _ _ _ Ha 0), <- (agree_members _ _ _ Ha 1) by lia.
  destruct Hm as (Hl & _), Hm' as (Hl' & _).
  destruct (lookup_lt_is_Some_2 (members m) 0) as [w0 ->]; [lia|].
  destruct (lookup_lt_is_Some_2 (members m) 1) as [w1 ->]; [lia|].
  case_decide.
  - destruct (is_snan w1); [|by split].
    destruct (switch_kind w1) as [[]|]; try by split.
    + apply take_string_same; [lia|]. by split.
    + destruct fds as [|? []]; by split.
    + destruct fds as [|? []]; by split.
  - case_decide as Hlt; [by split|].
    assert (members m' = members m) as ->.
    { apply list_eq. intros i. destruct (decide (i < max_members)) as [Hi|Hi].
      - symmetry. apply (agree_members _ _ _ Ha). unfold IpcMessage.members_size in *. lia.
      - rewrite !lookup_ge_None_2; [done|lia..]. }
    apply decode_members_same. lia.
Qed.
End two.
End reading.

(** * Sending *)

(** Lua values: strings of octets, and numbers that are no signalling NaN,
    which the sender asserts. *)
Definition payload_ok (v : payload) : Prop :=
  match v with
  | PNumber n => is_snan n = false
  | PString s => Forall is_byte s
  | _ => True
  end.
Definition entry_ok (e : option bytes * payload) : Prop :=
  payload_ok e.2 ∧ from_option (Forall is_byte) True e.1.
Definition send_arg_ok (v : send_arg) : Prop :=
  match v with
  | Scalar v => payload_ok v
  | Table _ es => Forall entry_ok es
  end.

(** What the receiver is to get, the descriptors being [fds] on its side. *)
Definition delivered_value (v : payload) (fds : list Z) : option (value * list Z) :=
  match v, fds with
  | PBoolean b, _ => Some (VBoolean b, fds)
  | PNumber n, _ => Some (VNumber n, fds)
  | PString s, _ => Some (VString s, fds)
  | PFileDescriptor _, fd :: fds => Some (VFileDescriptor fd, fds)
  | (PTxChan _ | PInbox), fd :: fds => Some (VActorAddress fd, fds)
  | _, _ => None
  end.
Fixpoint delivered (es : list (option bytes * payload)) (fds : list Z) :
    list (bytes * value) :=
  match es with
  | [] => []
  | (None, _) :: es => delivered es fds
  | (Some k, v) :: es =>
      match delivered_value v fds with
      | Some (x, fds) => (k, x) :: delivered es fds
      | None => []
      end
  end.

Section sending.
Context (max_members : nat) (socketpair : nat → Z + Z * Z).
#[local] Notation members_size := (members_size max_members).
#[local] Notation message_wf := (message_wf max_members).
#[local] Notation take_string := (take_string max_members).
#[local] Notation decode_members := (decode_members max_members).

(** A counted string that is where the decoder looks for it. *)
Lemma take_string_read m nread strit (s : bytes) k :
  message_wf m → length s ≤ 255 →
  window strit (S (length s)) (strbuf m) = Z.of_nat (length s) :: s →
  members_size + strit + S (length s) ≤ nread →
  take_string m nread strit k = k s (strit + S (length s)).
Proof.
  intros Hm Hs Hw Hn. unfold IpcMessage.take_string, nextstr, boundsvalid, view_text.
  assert (strit + S (length s) ≤ length (strbuf m)) as Hl.
  { apply (f_equal length) in Hw. unfold window in Hw.
    rewrite length_take, length_drop in Hw. cbn [length] in Hw. lia. }
  assert (strbuf m !! strit = Some (Z.of_nat (length s))) as ->.
  { rewrite <- (Nat.add_0_r strit) at 1. rewrite <- (window_lookup _ (S (length s))) by lia.
    by rewrite Hw. }
  cbn [fst snd]. rewrite Nat2Z.id. rewrite bool_decide_true, decide_True by lia.
  assert (window (S strit) (length s) (strbuf m) = s) as ->.
  { destruct (window_app_inv strit [Z.of_nat (length s)] s (strbuf m) Hw) as [_ H].
    simpl in H. by replace (strit + 1) with (S strit) in H by lia. }
  f_equal. lia.
Qed.

(** One member and its strings, as [encode_value] writes them, are read back. *)
Lemma encode_value_read v st st' w s ds :
  payload_ok v → encode_value socketpair v st = (st', inr (w, s, ds)) →
  w ≠ boxed nil ∧ length s ≤ 256 ∧ Forall is_byte s ∧
  ∀ fds, length fds = length ds → ∃ x,
    (∀ rest, delivered_value v (fds ++ rest) = Some (x, rest)) ∧
    ∀ m nread strit rest k,
      message_wf m → window strit (length s) (strbuf m) = s →
      members_size + strit + length s ≤ nread →
      decode_value max_members m nread w strit (fds ++ rest) k =
      k x (strit + length s) rest.
Proof.
  intros Hv He. destruct v as [|b|n|str|h|dest|]; simpl in *.
  - done.
  - injection He as <- <- <- <-. split_and!; [by destruct b|simpl; lia|done|].
    intros [|] Hf; [|done]. eexists. split; [done|]. intros. unfold decode_value. rewrite is_snan_boxed.
    rewrite switch_kind_boxed by by destruct b. simpl. rewrite Nat.add_0_r. by destruct b.
  - injection He as <- <- <- <-. split_and!; [by apply number_not_nil|simpl; lia|done|].
    intros [|] Hf; [|done]. eexists. split; [done|]. intros. unfold decode_value. rewrite Hv. simpl.
    by rewrite Nat.add_0_r.
  - case_decide; [done|]. injection He as <- <- <- <-.
    split_and!; [done|simpl; lia|constructor; [unfold is_byte; lia|done]|].
    intros [|] Hf; [|done]. eexists. split; [done|]. intros m nread strit rest k Hm Hw Hn.
    unfold decode_value.
    rewrite is_snan_boxed, switch_kind_boxed by done. simpl in *.
    by rewrite (take_string_read _ _ _ str) by (done || lia).
  - destruct (handles st !! h) as [fd|]; [|done]. case_decide; [done|].
    injection He as <- <- <- <-. split_and!; [done|simpl; lia|done|].
    intros [|fd' [|]] Hf; try done. eexists. split; [done|]. intros. unfold decode_value.
    rewrite is_snan_boxed, switch_kind_boxed by done. simpl. by rewrite Nat.add_0_r.
  - destruct (socketpair (npairs st)) as [|[a fd]]; [done|].
    injection He as <- <- <- <-. split_and!; [done|simpl; lia|done|].
    intros [|fd' [|]] Hf; try done. eexists. split; [done|]. intros. unfold decode_value.
    rewrite is_snan_boxed, switch_kind_boxed by done. simpl. by rewrite Nat.add_0_r.
  - destruct (socketpair (npairs st)) as [|[a fd]]; [done|].
    injection He as <- <- <- <-. split_and!; [done|simpl; lia|done|].
    intros [|fd' [|]] Hf; try done. eexists. split; [done|]. intros. unfold decode_value.
    rewrite is_snan_boxed, switch_kind_boxed by done. simpl. by rewrite Nat.add_0_r.
Qed.

(** The entries of a table, as [encode_entries] writes them, are read back. *)
Lemma encode_entries_read es p st st' p' :
  Forall entry_ok es → length (written p) ≤ max_members →
  encode_entries max_members socketpair es p st = (st', p', None) →
  ∃ ms strs ds,
    written p' = written p ++ ms ∧ strings p' = strings p ++ strs ∧
    descriptors p' = descriptors p ++ ds ∧ length (written p') ≤ max_members ∧
    length strs ≤ 512 * length ms ∧ Forall is_byte strs ∧
    Forall (λ w, w ≠ boxed nil) ms ∧
    ∀ fds put m nread rest strit fds' dict,
      length fds = length ds → message_wf m →
      window strit (length strs) (strbuf m) = strs →
      members_size + strit + length strs ≤ nread →
      decode_members put m nread (ms ++ rest) strit (fds ++ fds') dict =
      decode_members put m nread rest (strit + length strs) fds'
        (foldl (λ d e, put e.1 e.2 d) dict (delivered es (fds ++ fds'))).
Proof.
  revert p st. induction es as [|[[key|] v] es IH]; intros p st Hok Hp He;
    cbn [encode_entries] in He.
  - injection He as <- <-. exists [], [], []. rewrite !app_nil_r.
    split_and!; [done..|simpl; lia|done|done|]. intros [|] * Hf; [|done]. intros. simpl.
    by rewrite Nat.add_0_r.
  - apply Forall_cons in Hok as [[Hv Hkey] Hok]. case_decide; [done|]. case_decide; [done|].
    destruct (encode_value socketpair v st) as [st1 [e|[[w s] ds1]]] eqn:Hev; [done|].
    destruct (encode_value_read v st st1 w s ds1 Hv Hev) as (Hw & Hs & Hb & Hread).
    apply IH in He as (ms & strs & ds & E1 & E2 & E3 & Hle & Hlen & Hbs & Hnil & Hrest);
      [|done|cbn [written]; rewrite length_app; simpl; lia].
    cbn [written strings descriptors] in *.
    exists (w :: ms), ((Z.of_nat (length key) :: key) ++ s ++ strs), (ds1 ++ ds).
    split_and!.
    + by rewrite E1, <- app_assoc.
    + by rewrite E2, <- !app_assoc.
    + by rewrite E3, <- app_assoc.
    + done.
    + rewrite !length_app. cbn [length]. lia.
    + repeat apply Forall_app_2; [constructor|..]; try done. unfold is_byte. lia.
    + by constructor.
    + intros fds put m nread rest strit fds' dict Hf Hm Hwin Hn.
      rewrite length_app in Hf.
      rewrite <- (take_drop (length ds1) fds), <- app_assoc.
      apply window_app_inv in Hwin as [Hwk Hwin]. apply window_app_inv in Hwin as [Hws Hwr].
      rewrite !length_app in Hn |- *. cbn [length] in *.
      cbn [app IpcMessage.decode_members delivered]. rewrite decide_False by done.
      rewrite (take_string_read _ _ _ key) by (done || lia).
      destruct (Hread (take (length ds1) fds)) as (x & Hx & Hdec).
      { rewrite length_take. lia. }
      rewrite Hdec by (done || lia). rewrite Hx. cbn [foldl fst snd].
      rewrite Hrest; [|rewrite length_drop; lia|done|done|lia].
      f_equal. lia.
  - apply Forall_cons in Hok as [_ Hok]. by apply IH in He.
Qed.
End sending.

(** * The promises *)
Section promises.
Context (max_members : nat) (socketpair : nat → Z + Z * Z).
#[local] Notation members_size := (members_size max_members).
#[local] Notation message_wf := (message_wf max_members).
#[local] Notation encode := (encode max_members socketpair).

Lemma store_message_wf uninit ms strs :
  message_wf uninit → length ms ≤ max_members → length strs ≤ 512 * max_members →
  Forall is_byte strs → message_wf (store_message uninit ms strs).
Proof.
  intros (Hl & Hs & Hb) Hms Hstrs Hbs. unfold store_message. split_and!; simpl.
  - rewrite length_app, length_drop. lia.
  - rewrite length_app, length_drop. lia.
  - apply Forall_app_2; [done|]. by apply Forall_drop.
Qed.

(** What [encode] makes: members and strings over uninitialised memory, with
    the octets to send among them. *)
Definition layout (ms : list Z) (strs : bytes) (size : nat) : Prop :=
  length ms ≤ max_members ∧ length strs ≤ 512 * max_members ∧ Forall is_byte strs ∧
  16 ≤ size ∧ size ≤ members_size + length strs ∧
  (size ≤ 8 * length ms ∨ length ms = max_members).

Lemma encode_layout v st st' out uninit :
  2 < max_members → send_arg_ok v → encode uninit v st = (st', inr out) →
  ∃ ms strs, layout ms strs (message_size out) ∧
    ∀ u, encode u v st =
      (st', inr (Outgoing (store_message u ms strs) (message_size out) (locks out))).
Proof.
  intros Hmax Hok He. assert (16 ≤ members_size) as H16 by (unfold IpcMessage.members_size; lia).
  destruct v as [v|[] es]; cbn [IpcMessage.encode] in *; [| done|].
  - destruct (encode_value socketpair v st) as [st1 [e|[[w s] ds1]]] eqn:Hev; [done|].
    destruct (encode_value_read max_members socketpair v st st1 w s ds1 Hok Hev)
      as (_ & Hs & Hb & _).
    destruct v; try done; injection He as <- <-; cbn [message_size locks].
    all: try (eexists _, _; split; [|reflexivity]; split_and!; simpl; lia || done || by left; lia).
    eexists _, _. split; [|reflexivity].
    split_and!; cbn [length]; rewrite ?length_replicate; try done; try lia.
  - destruct (encode_entries _ _ es _ st) as [[st1 p] [e|]] eqn:Hes; [done|].
    case_decide; [done|]. injection He as <- <-.
    destruct (encode_entries_read max_members socketpair es (Partial [] [] []) st st1 p Hok
      (Nat.le_0_l _) Hes) as (ms & strs & ds & E1 & E2 & E3 & Hle & Hlen & Hb & _).
    simpl in E1, E2. subst ms strs. eexists _, _. split; [|reflexivity].
    split_and!; rewrite ?length_app, ?length_replicate; try done; simpl; lia.
Qed.

Lemma store_agree u u' ms strs size :
  message_wf u → message_wf u' → layout ms strs size →
  agree max_members size (store_message u ms strs) (store_message u' ms strs).
Proof.
  intros (Hu & _) (Hu' & _) (Hms & _ & _ & _ & Hsz & Hcase). split; simpl.
  - intros i Hi. destruct (decide (i < length ms)); [by rewrite !lookup_app_l|].
    rewrite !lookup_ge_None_2; [done|rewrite length_app, length_drop; lia..].
  - intros p Hp. by rewrite !lookup_app_l by lia.
Qed.

(** The octets of a message are fixed by the value sent: two senders that
    differ in the memory the message was built over, which nothing
    initialised, send the same octets; there are enough of them for the
    receiver to look at, and not more than the message has. *)
Theorem ipc_no_leak v st u u' st1 st2 out out' :
  2 < max_members → send_arg_ok v → message_wf u → message_wf u' →
  encode u v st = (st1, inr out) → encode u' v st = (st2, inr out') →
  message_size out = message_size out' ∧
  agree max_members (message_size out) (message out) (message out') ∧
  16 ≤ message_size out ≤ message_sizeof max_members.
Proof.
  intros Hmax Hok Hu Hu' He He'.
  destruct (encode_layout v st st1 out u Hmax Hok He) as (ms & strs & Hlay & Hall).
  pose proof (Hall u) as E1. pose proof (Hall u') as E2. rewrite He in E1.
  rewrite He' in E2. destruct out, out'. simplify_eq/=.
  split; [done|]. split; [by apply store_agree|].
  destruct Hlay as (_ & ? & _ & ? & ? & _). unfold message_sizeof. lia.
Qed.

(** C36 A hostile message is harmless: whatever the octets received and the
    descriptors, the decoders never read outside of the message, and what they
    make depends on the octets received only, not on what the receiver's
    memory held after them. *)
Theorem ipc_decode_safe m m' nread fds :
  2 < max_members → message_wf m → message_wf m' →
  16 ≤ nread ≤ message_sizeof max_members → agree max_members nread m m' →
  decode_queued max_members m nread fds ≠ OutOfBounds ∧
  deserializer max_members m nread fds ≠ OutOfBounds ∧
  decode_queued max_members m nread fds = decode_queued max_members m' nread fds ∧
  deserializer max_members m nread fds = deserializer max_members m' nread fds.
Proof.
  intros Hmax Hm Hm' [Hlo Hhi] Ha.
  destruct (decode_same max_members m m' nread Hm Hm' Ha Hhi emplace fds Hmax Hlo) as [E1 N1].
  destruct (decode_same max_members m m' nread Hm Hm' Ha Hhi rawset fds Hmax Hlo) as [E2 N2].
  done.
Qed.

(** The keys of the entries that are sent. *)
Definition keys (es : list (option bytes * payload)) : list bytes := omap fst es.

Lemma delivered_keys es fds : (delivered es fds).*1 `prefix_of` keys es.
Proof.
  revert fds. induction es as [|[[k|] v] es IH]; intros fds; simpl; [done| |apply IH].
  destruct (delivered_value v fds) as [[x fds']|]; simpl; [|apply prefix_nil].
  by apply prefix_cons.
Qed.

Lemma fold_puts (l : list (bytes * value)) (d : gmap bytes value) :
  NoDup l.*1 → (∀ k, k ∈ l.*1 → d !! k = None) →
  foldl (λ d e, emplace e.1 e.2 d) d l = list_to_map l ∪ d ∧
  foldl (λ d e, rawset e.1 e.2 d) d l = list_to_map l ∪ d.
Proof.
  revert d. induction l as [|[k v] l IH]; intros d Hn Hd; simpl.
  { by rewrite map_empty_union. }
  apply NoDup_cons in Hn as [Hk Hn].
  assert (d !! k = None) as Hdk by (apply Hd; simpl; set_solver).
  unfold emplace at 2, rawset at 2. rewrite Hdk.
  destruct (IH (<[k := v]> d)) as [-> ->]; [done| |].
  - intros k' Hk'. rewrite lookup_insert_ne by (intros ->; done). apply Hd. simpl. set_solver.
  - assert (list_to_map l !! k = (None : option value)) as Hl
      by by apply not_elem_of_list_to_map.
    split; by rewrite <- insert_union_r, insert_union_l by done.
Qed.

(** What the receiver is to make of an argument. *)
Definition expected (v : send_arg) (fds : list Z) (r : received) : Prop :=
  match v with
  | Scalar v => ∃ x, delivered_value v fds = Some (x, []) ∧ r = Flat x
  | Table _ es => r = Dict (list_to_map (delivered es fds))
  end.

Lemma decode_table put es p st st' uninit fds :
  2 < max_members → Forall entry_ok es → message_wf uninit →
  encode_entries max_members socketpair es (Partial [] [] []) st = (st', p, None) →
  length (written p) ≠ 0 → length fds = length (descriptors p) →
  decode max_members put
    (store_message uninit
       (written p ++ replicate (max_members - length (written p)) (boxed nil)) (strings p))
    (members_size + length (strings p)) fds =
  Good (Dict (foldl (λ d e, put e.1 e.2 d) ∅ (delivered es fds))) [].
Proof.
  intros Hmax Hok Hu Hes Hne Hf.
  destruct (encode_entries_read max_members socketpair es (Partial [] [] []) st st' p Hok
    (Nat.le_0_l _) Hes) as (ms & strs & ds & E1 & E2 & E3 & Hle & Hlen & Hb & Hnil & Hread).
  simpl in E1, E2, E3. subst ms strs ds.
  assert (message_wf (store_message uninit
    (written p ++ replicate (max_members - length (written p)) (boxed nil)) (strings p))) as Hwf.
  { apply store_message_wf; try done; [rewrite length_app, length_replicate|]; lia. }
  unfold decode, decode_dict. 
  rewrite (decide_False (P := members_size + length (strings p) < members_size)) by lia.
  cbn [members store_message]. rewrite <- app_assoc, lookup_app_l by lia.
  destruct (lookup_lt_is_Some_2 (written p) 0) as [w Hw]; [lia|]. rewrite Hw.
  rewrite Forall_lookup in Hnil. rewrite decide_False by by eapply Hnil.
  rewrite <- (app_nil_r fds) at 1. rewrite Hread; [|done|done| |lia].
  - rewrite app_nil_r. destruct (max_members - length (written p)) eqn:Hrest;
      cbn [replicate app IpcMessage.decode_members]; [|by rewrite decide_True].
    rewrite drop_ge; [done|]. rewrite length_app. destruct Hu. lia.
  - unfold window. rewrite drop_0. apply take_app_length.
Qed.

Lemma decode_scalar v st st' w s ds m nread fds :
  payload_ok v → encode_value socketpair v st = (st', inr (w, s, ds)) → message_wf m →
  length fds = length ds → members m !! 0 = Some (boxed nil) → members m !! 1 = Some w →
  window 0 (length s) (strbuf m) = s → (s ≠ [] → members_size + length s ≤ nread) →
  ∃ x, delivered_value v fds = Some (x, []) ∧
    ∀ put, decode max_members put m nread fds = Good (Flat x) [].
Proof.
  intros Hv He Hm Hf H0 H1 Hw Hn. unfold decode, decode_flat. rewrite H0, H1.
  destruct (decide (boxed nil = boxed nil)) as [_|]; [|done].
  destruct v as [|b|n|str|h|dest|]; simpl in He.
  - done.
  - injection He as <- <- <- <-. destruct fds; [|done]. eexists. split; [done|]. intros _.
    rewrite is_snan_boxed, switch_kind_boxed by by destruct b. by destruct b.
  - injection He as <- <- <- <-. destruct fds; [|done]. eexists. split; [done|]. intros _.
    by rewrite Hv.
  - case_decide; [done|]. injection He as <- <- <- <-. destruct fds; [|done].
    eexists. split; [done|]. intros _. rewrite is_snan_boxed, switch_kind_boxed by done.
    cbn [length] in *. rewrite (take_string_read _ _ _ _ str); [done|done|lia|done|].
    rewrite Nat.add_0_r. by apply Hn.
  - destruct (handles st !! h) as [fd|]; [|done]. case_decide; [done|].
    injection He as <- <- <- <-. destruct fds as [|fd' []]; try done.
    eexists. split; [done|]. intros _. by rewrite is_snan_boxed, switch_kind_boxed.
  - destruct (socketpair (npairs st)) as [|[a fd]]; [done|].
    injection He as <- <- <- <-. destruct fds as [|fd' []]; try done.
    eexists. split; [done|]. intros _. by rewrite is_snan_boxed, switch_kind_boxed.
  - destruct (socketpair (npairs st)) as [|[a fd]]; [done|].
    injection He as <- <- <- <-. destruct fds as [|fd' []]; try done.
    eexists. split; [done|]. intros _. by rewrite is_snan_boxed, switch_kind_boxed.
Qed.

(** C37 What is sent is what is received: a message [encode] accepted, decoded
    from the octets sent and the descriptors the kernel passed on, gives the
    value back, whether it is queued or given to a fiber that waits, and takes
    every descriptor. *)
Theorem ipc_roundtrip v st st' uninit out m fds :
  2 < max_members → send_arg_ok v → message_wf uninit → message_wf m →
  match v with Table _ es => NoDup (keys es) | Scalar _ => True end →
  encode uninit v st = (st', inr out) →
  agree max_members (message_size out) (message out) m →
  length fds = length (locks out) →
  ∃ r, decode_queued max_members m (message_size out) fds = Good r [] ∧
       deserializer max_members m (message_size out) fds = Good r [] ∧ expected v fds r.
Proof.
  intros Hmax Hok Hu Hm Hnd He Ha Hf.
  destruct (encode_layout v st st' out uninit Hmax Hok He) as (ms & strs & Hlay & Hall).
  pose proof (Hall uninit) as E1. rewrite He in E1.
  destruct Hlay as (Hms & Hstrs & Hb & Hlo & Hhi & _).
  assert (message_wf (message out)) as Hout.
  { replace (message out) with (store_message uninit ms strs) by by destruct out; simplify_eq/=.
    by apply store_message_wf. }
  assert (message_size out ≤ message_sizeof max_members) as Hsz
    by (unfold message_sizeof; lia).
  unfold decode_queued, deserializer.
  destruct (decode_same max_members _ _ _ Hout Hm Ha Hsz emplace fds Hmax Hlo) as [<- _].
  destruct (decode_same max_members _ _ _ Hout Hm Ha Hsz rawset fds Hmax Hlo) as [<- _].
  destruct v as [v|[] es]; cbn [IpcMessage.encode] in He; [|done|].
  - destruct (encode_value socketpair v st) as [st1 [e|[[w s] ds]]] eqn:Hev; [done|].
    assert (message out = store_message uninit (boxed nil :: w ::
        match v with PString _ => replicate (max_members - 2) 0%Z | _ => [] end) s ∧
      locks out = ds ∧ (s ≠ [] → members_size + length s ≤ message_size out)) as (Em & El & Es).
    { destruct v; simplify_eq/=; repeat case_match; by simplify_eq/=. }
    rewrite El in Hf. destruct (decode_scalar v st st1 w s ds (message out)
      (message_size out) fds Hok Hev Hout) as (x & Hx & Hdec); try done.
    + by rewrite Em.
    + by rewrite Em.
    + rewrite Em. unfold window. simpl. rewrite drop_0. apply take_app_length.
    + eexists. rewrite !Hdec. split_and!; [done|done|]. by exists x.
  - destruct (encode_entries _ _ es _ st) as [[st1 p] [e|]] eqn:Hes; [done|].
    case_decide as Hne; [done|]. injection He as <- <-. cbn [message message_size locks] in *.
    destruct (fold_puts (delivered es fds) ∅) as [F1 F2].
    { destruct (delivered_keys es fds) as [k Ek]. rewrite Ek in Hnd.
      by apply NoDup_app in Hnd as (? & _). }
    { done. }
    eexists. rewrite !(decode_table _ es p st st1) by done. rewrite F1, F2, map_union_empty.
    done.
Qed.
End promises.

(** * Descriptors in flight *)
Definition references (ds : list fd_lock) : list loc :=
  omap (λ d, match d with ByReference h => Some h | ByValue _ => None end) ds.
Definition by_value (ds : list fd_lock) : list Z :=
  omap (λ d, match d with ByValue fd => Some fd | ByReference _ => None end) ds.

Lemma release_ext vs st st' :
  handles st = handles st' → handles (release_all vs st) = handles (release_all vs st').
Proof.
  revert st st'. induction vs as [|[[g|] v] vs IH]; intros st st' E; simpl; [done| |];
    apply IH; simpl; by rewrite E.
Qed.
Lemma release_set vs h fd st :
  h ∉ omap fst vs →
  handles (release_all vs (set_handle h fd st)) = <[h := fd]> (handles (release_all vs st)).
Proof.
  revert st. induction vs as [|[[g|] v] vs IH]; intros st Hh; simpl in *; [done| |].
  - apply not_elem_of_cons in Hh as [Hne Hh]. rewrite <- IH by done. apply release_ext.
    simpl. by rewrite insert_insert_ne.
  - rewrite <- IH by done. by apply release_ext.
Qed.
Lemma release_closed vs st :
  closed (release_all vs st) =
  closed st ++ omap (λ v, match v with (None, fd) => Some fd | _ => None end) vs.
Proof.
  revert st. induction vs as [|[[g|] v] vs IH]; intros st; simpl.
  - by rewrite app_nil_r.
  - by rewrite IH.
  - rewrite IH. simpl. by rewrite <- app_assoc.
Qed.

Lemma lock_all_facts ds st :
  let '(st1, vs) := lock_all ds st in
  omap fst vs = references ds ∧ closed st1 = closed st ∧
  omap (λ v, match v with (None, fd) => Some fd | _ => None end) vs = by_value ds ∧
  ∀ h, handles st1 !! h =
    if decide (h ∈ references ds) then Some INVALID_FILE_DESCRIPTOR else handles st !! h.
Proof.
  revert st. induction ds as [|[h|fd] ds IH]; intros st; cbn [lock_all references omap].
  - split_and!; [done..|]. intros h. rewrite decide_False; [done|]. by apply not_elem_of_nil.
  - specialize (IH (set_handle h INVALID_FILE_DESCRIPTOR st)).
    destruct (lock_all ds _) as [st1 vs]. destruct IH as (Ev & Ec & Eb & Eh). split_and!.
    + cbn. by rewrite Ev.
    + done.
    + done.
    + intros g. rewrite Eh. cbn. fold (references ds).
      destruct (decide (g ∈ references ds)) as [Hg|Hg].
      * rewrite decide_True; [done|set_solver].
      * simpl. destruct (decide (g = h)) as [->|Hne].
        -- rewrite lookup_insert_eq, decide_True by set_solver. done.
        -- rewrite lookup_insert_ne, decide_False by set_solver. done.
  - specialize (IH st). destruct (lock_all ds st) as [st1 vs]. destruct IH as (Ev & Ec & Eb & Eh).
    split_and!; [done|done| |done]. cbn. by rewrite Eb.
Qed.

Lemma handles_given_back ds st :
  NoDup (references ds) → (∀ h, h ∈ references ds → is_Some (handles st !! h)) →
  handles (release_all (lock_all ds st).2 (lock_all ds st).1) = handles st.
Proof.
  revert st. induction ds as [|[h|fd] ds IH]; intros st Hn Hs;
    cbn [lock_all references omap] in *; [done| |].
  - apply NoDup_cons in Hn as [Hh Hn]. fold (references ds) in *.
    pose proof (lock_all_facts ds (set_handle h INVALID_FILE_DESCRIPTOR st)) as Hf.
    specialize (IH (set_handle h INVALID_FILE_DESCRIPTOR st) Hn).
    destruct (lock_all ds _) as [st2 ws]. destruct Hf as (Ev & _). simpl in *.
    destruct (Hs h) as [fd Hfd]; [by apply elem_of_cons; left|].
    rewrite Hfd. simpl. rewrite release_set by (by rewrite Ev). rewrite IH.
    + simpl. by rewrite insert_insert_eq, insert_id.
    + intros g Hg. rewrite lookup_insert_ne by (intros ->; done). apply Hs.
      by apply elem_of_cons; right.
  - specialize (IH st Hn Hs). destruct (lock_all ds st) as [st2 ws]. simpl in *.
    rewrite <- IH. by apply release_ext.
Qed.

(** The file descriptors of a message are held while it is sent and given
    back after: in between every handle of the message is busy, and at the end
    every handle has the descriptor it had and exactly the ends of the channels
    made for the message are closed, provided no handle is in it twice. *)
Theorem descriptors_given_back ds st :
  NoDup (references ds) → (∀ h, h ∈ references ds → is_Some (handles st !! h)) →
  let '(st1, vs) := lock_all ds st in
  (∀ h, h ∈ references ds → handles st1 !! h = Some INVALID_FILE_DESCRIPTOR) ∧
  handles (release_all vs st1) = handles st ∧
  closed (release_all vs st1) = closed st ++ by_value ds.
Proof.
  intros Hn Hs. pose proof (lock_all_facts ds st) as Hf.
  pose proof (handles_given_back ds st Hn Hs) as Hg.
  destruct (lock_all ds st) as [st1 vs]. destruct Hf as (_ & Hc & Hv & Hh). split_and!.
  - intros h Hin. by rewrite Hh, decide_True.
  - done.
  - by rewrite release_closed, Hc, Hv.
Qed.

(** A descriptor sent twice in a table is lost: the second lock finds the
    handle already emptied, and giving it back last leaves the handle without
    a descriptor although nothing closed it. *)
Theorem descriptor_twice_lost max_members socketpair uninit st h fd k k' :
  2 < max_members → handles st !! h = Some fd → fd ≠ INVALID_FILE_DESCRIPTOR →
  length k ≤ 255 → length k' ≤ 255 →
  ∃ out, encode max_members socketpair uninit
      (Table false [(Some k, PFileDescriptor h); (Some k', PFileDescriptor h)]) st =
      (st, inr out) ∧
    let '(st1, vs) := lock_all (locks out) st in
    handles (release_all vs st1) !! h = Some INVALID_FILE_DESCRIPTOR ∧
    closed (release_all vs st1) = closed st.
Proof.
  intros Hmax Hh Hfd Hk Hk'. cbn [encode encode_entries written length encode_value].
  do 2 (rewrite decide_False by (cbn [length app]; lia)).
  rewrite Hh, (decide_False (P := fd = _)) by done.
  do 2 (rewrite decide_False by (cbn [length app written]; lia)).
  rewrite Hh, (decide_False (P := fd = _)) by done. cbn [length app written].
  eexists. split; [done|]. simpl. rewrite Hh. simpl. by rewrite !lookup_insert_eq.
Qed.

(** * An example *)
Section example.
Definition pair_0 : nat → Z + Z * Z := λ n, inr (100 + n, 200 + n)%Z.
Definition memory (word octet : Z) : ipc_actor_message :=
  Message (replicate 3 word) (replicate (512 * 3) octet).
Definition sender_0 : sender := Sender {[4 := 5%Z]} 0 0 [] [] [].
Definition table_0 : send_arg :=
  Table false [(Some (lit "a"), PBoolean true); (None, PUnsupported);
               (Some (lit "fd"), PFileDescriptor 4)].
Definition sent (u : ipc_actor_message) : outgoing :=
  match encode 3 pair_0 u table_0 sender_0 with
  | (_, inr out) => out
  | _ => Outgoing u 0 []
  end.

Lemma memory_wf word octet : is_byte octet → message_wf 3 (memory word octet).
Proof.
  intros Ho. split_and!; [done|apply length_replicate|]. by apply Forall_replicate.
Qed.
Lemma table_0_ok : send_arg_ok table_0.
Proof. repeat constructor; simpl; unfold is_byte; lia. Qed.
Lemma encode_sent u :
  encode 3 pair_0 u table_0 sender_0 = (sender_0, inr (sent u)).
Proof. reflexivity. Qed.
Lemma sent_agree : agree 3 (message_size (sent (memory 0 0)))
  (message (sent (memory 0 0))) (message (sent (memory 7 9))).
Proof.
  split.
  - intros i Hi. change (8 * (i + 1) ≤ 29) in Hi.
    destruct i as [|[|[|i]]]; [reflexivity..|lia].
  - intros p Hp. change (24 + p < 29) in Hp. do 5 (destruct p as [|p]; [reflexivity|]). lia.
Qed.

Lemma ipc_no_leak_witness :
  message_size (sent (memory 0 0)) = message_size (sent (memory 7 9)) ∧
  agree 3 (message_size (sent (memory 0 0))) (message (sent (memory 0 0)))
    (message (sent (memory 7 9))) ∧
  16 ≤ message_size (sent (memory 0 0)) ≤ message_sizeof 3.
Proof.
  eapply (ipc_no_leak 3 pair_0 table_0 sender_0 (memory 0 0) (memory 7 9));
    [lia|apply table_0_ok|by apply memory_wf|by apply memory_wf|apply encode_sent..].
Defined.

Lemma sent_wf u : message_wf 3 u → message_wf 3 (message (sent u)).
Proof.
  intros Hu. apply (store_message_wf 3 u [boxed boolean_true; boxed file_descriptor; boxed nil]
    ([1; 97] ++ [2; 102; 100])%Z Hu); [simpl; lia|simpl; lia|].
  repeat constructor; unfold is_byte; lia.
Qed.

Lemma ipc_decode_safe_witness :
  decode_queued 3 (message (sent (memory 0 0))) 29 [77%Z] ≠ OutOfBounds.
Proof.
  apply (ipc_decode_safe 3 _ (message (sent (memory 7 9))) 29 [77%Z]);
    [lia|by apply sent_wf, memory_wf|by apply sent_wf, memory_wf|unfold message_sizeof, members_size; lia|apply sent_agree].
Defined.

Lemma ipc_roundtrip_witness : ∃ r,
  decode_queued 3 (message (sent (memory 7 9))) 29 [77%Z] = Good r [] ∧
  deserializer 3 (message (sent (memory 7 9))) 29 [77%Z] = Good r [] ∧
  r = Dict (list_to_map [(lit "a", VBoolean true); (lit "fd", VFileDescriptor 77)]).
Proof.
  apply (ipc_roundtrip 3 pair_0 table_0 sender_0 sender_0 (memory 0 0) (sent (memory 0 0))
    (message (sent (memory 7 9))) [77%Z]);
    [lia|apply table_0_ok|by apply memory_wf|by apply sent_wf, memory_wf| |apply encode_sent
    |apply sent_agree|done].
  apply (bool_decide_unpack _). vm_compute. done.
Defined.

Lemma descriptors_given_back_witness :
  let '(st1, vs) := lock_all [ByReference 4; ByValue 9] sender_0 in
  handles (release_all vs st1) = {[4 := 5%Z]} ∧ closed (release_all vs st1) = [9%Z].
Proof.
  apply (descriptors_given_back [ByReference 4; ByValue 9] sender_0).
  - apply (bool_decide_unpack _). vm_compute. done.
  - intros h [->|H]%elem_of_cons; [by eexists|]. by apply not_elem_of_nil in H.
Defined.

Lemma descriptor_twice_lost_witness : ∃ out,
  encode 3 pair_0 (memory 0 0)
    (Table false [(Some (lit "a"), PFileDescriptor 4); (Some (lit "b"), PFileDescriptor 4)])
    sender_0 = (sender_0, inr out) ∧
  let '(st1, vs) := lock_all (locks out) sender_0 in
  handles (release_all vs st1) !! 4 = Some INVALID_FILE_DESCRIPTOR ∧
  closed (release_all vs st1) = closed sender_0.
Proof.
  apply (descriptor_twice_lost 3 pair_0 (memory 0 0) sender_0 4 5%Z); try done; simpl; lia.
Defined.
End example.
