(* ===== verification/Inbox.v ===== *)
(** The inbox of an actor: [inbox_t], [actor_address] and [sender_state] of
    [src/include/emilua/core.hpp], the receiving half of [src/src/actor.ypp]
    ([chan_receive], [inbox_close], [inbox_gc] and the lambdas
    [tx_chan_send] posts) and [ipc_actor_inbox_op::on_wait] of
    [src/src/ipc_actor.cpp].

    Messages arrive in two ways: another VM posts a task with the sender's
    fiber, which waits for an answer, and a process writes to a socket an
    inbox service reads.  The VM's own fibers are those of [Vm]; here they are
    only resumed. *)
From S2P Require Import Prelude Errors Lua IpcMessage.

(** A fiber of a VM, as a sender names itself. *)
Abbreviation fiber_id := (loc * loc)%type (only parsing).

(** What [fiber_resume] is given. *)
Inductive arguments (Msg : Type) : Type :=
| NoArguments
| Nil
| Code (e : Core.errc)
| NilAnd (m : Msg).                   (* [nil] and the message *)
Arguments NoArguments {_}.
Arguments Nil {_}.
Arguments Code {_} _.
Arguments NilAnd {_} _.

(** What an operation does besides changing the inbox. *)
Inductive effect (Msg : Type) : Type :=
| Resume (f : loc) (args : arguments Msg)          (* on the VM's strand *)
| PostSender (s : fiber_id) (args : arguments Msg) (* on the sender's strand *)
| CloseFd (fd : Z).
Arguments Resume {_} _ _.
Arguments PostSender {_} _ _.
Arguments CloseFd {_} _.

(** [sender_state] in the queue; a message of a process has no sender. *)
Record entry (Msg : Type) : Type := Entry { from : option fiber_id; msg : Msg }.
Arguments Entry {_} _ _.
Arguments from {_} _.
Arguments msg {_} _.

(** The tasks on the VM's strand that are about the inbox; the pointer to the
    fiber to resume may be null. *)
Inductive task (Msg : Type) : Type :=
| Deliver (s : fiber_id) (m : Msg)
| InterruptSend (s : fiber_id)
| CheckSenders
| WakeUp (f : option loc) (e : Core.errc).
Arguments Deliver {_} _ _.
Arguments InterruptSend {_} _.
Arguments CheckSenders {_}.
Arguments WakeUp {_} _ _.

Record inbox (Msg : Type) : Type := Inbox {
  recv_fiber : option loc;
  incoming : list (entry Msg);
  open : bool;
  nsenders : Z;
  work_guard : bool;
  services : gmap loc bool;           (* the inbox services, whether running *)
  armed : gset loc;                   (* the fibers whose interrupter is that of [receive] *)
}.
Arguments Inbox {_} _ _ _ _ _ _ _.
Arguments recv_fiber {_} _.
Arguments incoming {_} _.
Arguments open {_} _.
Arguments nsenders {_} _.
Arguments work_guard {_} _.
Arguments services {_} _.
Arguments armed {_} _.

(** The answer of a call. *)
Inductive answer (Msg : Type) : Type :=
| Returns (m : option Msg)            (* [nil, message], or nothing *)
| Raises (e : error_code)
| Yields.
Arguments Returns {_} _.
Arguments Raises {_} _.
Arguments Yields {_}.

Section inbox.
Context {Msg : Type} (of_process : received → Msg) (max_members : nat).
Implicit Types (b : inbox Msg).

Definition set_recv (f : option loc) (b : inbox Msg) : inbox Msg :=
  Inbox f (incoming b) (open b) (nsenders b) (bool_decide (is_Some f)) (services b)
    (armed b).
Definition set_incoming (q : list (entry Msg)) (b : inbox Msg) : inbox Msg :=
  Inbox (recv_fiber b) q (open b) (nsenders b) (work_guard b) (services b) (armed b).
Definition set_nsenders (n : Z) (b : inbox Msg) : inbox Msg :=
  Inbox (recv_fiber b) (incoming b) (open b) n (work_guard b) (services b) (armed b).
Definition set_services (s : gmap loc bool) (b : inbox Msg) : inbox Msg :=
  Inbox (recv_fiber b) (incoming b) (open b) (nsenders b) (work_guard b) s (armed b).
Definition shut (b : inbox Msg) : inbox Msg :=
  Inbox (recv_fiber b) [] false (nsenders b) (work_guard b) (services b) (armed b).

Definition set_armed (a : gset loc) (b : inbox Msg) : inbox Msg :=
  Inbox (recv_fiber b) (incoming b) (open b) (nsenders b) (work_guard b) (services b) a.

(** [fiber_resume] of a fiber of this VM, as far as the inbox goes: the fiber
    loses its interrupter and runs. *)
Definition resume_fiber (f : loc) (args : arguments Msg) (b : inbox Msg) :
    inbox Msg * list (effect Msg) :=
  (set_armed (armed b ∖ {[f]}) b, [Resume f args]).

(** A task that resumes a fiber; it reads the thread, which must not be null. *)
Definition wake_up (f : option loc) (e : Core.errc) (b : inbox Msg) :
    option (inbox Msg * list (effect Msg)) :=
  match f with Some f => Some (resume_fiber f (Code e) b) | None => None end.

(** * Addresses *)

(** The constructors of [actor_address]. *)
Definition new_address (b : inbox Msg) : inbox Msg := set_nsenders (nsenders b + 1) b.

(** [~actor_address]: the last sender to go posts a check. *)
Definition drop_address (b : inbox Msg) : inbox Msg * list (task Msg) :=
  let n := (nsenders b - 1)%Z in
  (set_nsenders n b, if decide (n ≠ 0)%Z then [] else [CheckSenders]).

Definition check_senders (b : inbox Msg) : inbox Msg * list (effect Msg) :=
  if decide (nsenders b ≠ 0)%Z then (b, [])
  else
    match recv_fiber b with
    | None => (b, [])
    | Some f => resume_fiber f (Code Core.no_senders) (set_recv None b)
    end.

(** * Senders of other VMs *)

(** [~sender_state] with [wake_on_destruct]. *)
Definition wake (e : entry Msg) : list (effect Msg) :=
  match from e with
  | Some s => [PostSender s (Code Core.channel_closed)]
  | None => []
  end.

(** The task [tx_chan_send] posts. *)
Definition deliver (s : fiber_id) (m : Msg) (b : inbox Msg) :
    inbox Msg * list (effect Msg) :=
  if open b then
    match recv_fiber b with
    | None => (set_incoming (incoming b ++ [Entry (Some s) m]) b, [])
    | Some f =>
        let '(b, es) := resume_fiber f (NilAnd m) (set_recv None b) in
        (b, es ++ [PostSender s Nil])
    end
  else (b, wake (Entry (Some s) m)).

(** The task the interrupter of [tx_chan_send] posts: [std::find] by the
    sender, [erase]. *)
Fixpoint erase_sender (s : fiber_id) (q : list (entry Msg)) : option (list (entry Msg)) :=
  match q with
  | [] => None
  | e :: q =>
      if decide (from e = Some s) then Some q else cons e <$> erase_sender s q
  end.
Definition interrupt_send (s : fiber_id) (b : inbox Msg) : inbox Msg * list (effect Msg) :=
  match erase_sender s (incoming b) with
  | None => (b, [])
  | Some q => (set_incoming q b, [PostSender s (Code Core.interrupted)])
  end.

(** * The receiver *)

(** [chan_receive], once its arguments and the right to suspend are checked; a
    fiber that has disabled interruption gets no interrupter. *)
Definition chan_receive (current_fiber : loc) (disabled : bool) (b : inbox Msg) :
    inbox Msg * list (effect Msg) * answer Msg :=
  if open b then
    if decide (is_Some (recv_fiber b)) then (b, [], Raises device_or_resource_busy)
    else
      match incoming b with
      | e :: q =>
          (set_incoming q b,
           match from e with Some s => [PostSender s NoArguments] | None => [] end,
           Returns (Some (msg e)))
      | [] =>
          if decide (nsenders b = 0)%Z then (b, [], Raises Core.no_senders)
          else
            let b :=
              set_armed (if disabled then armed b else {[current_fiber]} ∪ armed b) b in
            (set_recv (Some current_fiber)
               (set_services ((λ _, true) <$> services b) b), [], Yields)
      end
  else (b, [], Raises Core.channel_closed).

(** Its interrupter: it posts [fiber_resume] of the fiber that waits now,
    whether or not there is one. *)
Definition receive_interrupter (b : inbox Msg) : inbox Msg * list (task Msg) :=
  (set_recv None b, [WakeUp (recv_fiber b) Core.interrupted]).

(** [fiber_interrupt] of a fiber whose interrupter it is. *)
Definition interrupt_receiver (f : loc) (b : inbox Msg) : inbox Msg * list (task Msg) :=
  let '(b, new) := receive_interrupter b in (set_armed (armed b ∖ {[f]}) b, new).

Definition inbox_close (b : inbox Msg) :
    inbox Msg * list (effect Msg) * list (task Msg) :=
  if open b then
    let '(b, new) :=
      match recv_fiber b with
      | Some f => (set_recv None b, [WakeUp (Some f) Core.channel_closed])
      | None => (b, [])
      end in
    (shut b, concat (wake <$> incoming b), new)
  else (b, [], []).

Definition inbox_gc (b : inbox Msg) : inbox Msg * list (effect Msg) :=
  if open b then (shut (set_recv None b), concat (wake <$> incoming b)) else (b, []).

(** * Services *)

(** The service for a channel that leads to the VM, which a VM sent to a
    process: the sender was counted when it was sent, a task registers the
    service and starts it if a fiber receives. *)
Definition register_service (id : loc) (b : inbox Msg) : inbox Msg :=
  set_services (<[id := bool_decide (is_Some (recv_fiber b))]> (services b)) b.

(** The service for the VM's own inbox, when it sends that; it is not started. *)
Definition add_own_service (id : loc) (b : inbox Msg) : inbox Msg :=
  set_services (<[id := false]> (services b)) (set_nsenders (nsenders b + 1) b).

(** The event [on_wait] is called for, and what [recvmsg] gives then. *)
Inductive event : Type :=
| WaitError
| WouldBlock
| ReceiveError
| Received (m : ipc_actor_message) (nread : nat) (truncated : bool) (fds : list Z).

(** [pending_operations.erase(..); delete service; --nsenders]. *)
Definition remove_service (id : loc) (b : inbox Msg) : inbox Msg :=
  set_services (delete id (services b)) (set_nsenders (nsenders b - 1) b).

(** The service ends; a receiver that nobody else can write to is told so. *)
Definition lose_service (id : loc) (b : inbox Msg) : inbox Msg * list (effect Msg) :=
  let b := remove_service id b in
  match recv_fiber b with
  | Some f =>
      if decide (nsenders b = 0)%Z
      then resume_fiber f (Code Core.no_senders) (set_recv None b) else (b, [])
  | None => (b, [])
  end.

(** [on_wait], for a VM that is valid; the boolean says whether it waits again.  The descriptors of a
    message that turns out bad are closed, now or with the values made of them. *)
Definition on_wait (id : loc) (ev : event) (b : inbox Msg) :
    inbox Msg * list (effect Msg) * bool :=
  if open b then
    match ev with
    | WouldBlock => (b, [], true)
    | WaitError | ReceiveError => (lose_service id b, false)
    | Received m nread truncated fds =>
        let fds := filter (λ fd, fd ≠ INVALID_FILE_DESCRIPTOR) fds in
        let closed (l : list Z) := CloseFd (Msg := Msg) <$> l in
        if decide (nread < 16 ∨ truncated = true) then
          let '(b, es) := lose_service id b in (b, es ++ closed fds, false)
        else
          let b := set_services (<[id := false]> (services b)) b in
          match recv_fiber b with
          | None =>
              match decode_queued max_members m nread fds with
              | Good r unused =>
                  (set_incoming (incoming b ++ [Entry None (of_process r)]) b,
                   closed unused, false)
              | BadMessage | OutOfBounds => (remove_service id b, closed fds, false)
              end
          | Some f =>
              match deserializer max_members m nread fds with
              | Good r unused =>
                  let '(b, es) := resume_fiber f (NilAnd (of_process r)) (set_recv None b) in
                  (b, es ++ closed unused, false)
              | BadMessage | OutOfBounds =>
                  let b := remove_service id b in
                  if decide (nsenders b = 0)%Z
                  then
                    let '(b, es) := resume_fiber f (Code Core.no_senders) (set_recv None b) in
                    (b, es ++ closed fds, false)
                  else (b, closed fds, false)
              end
          end
    end
  else (remove_service id b, [], false).
End inbox.
