(* ===== verification/InboxSpec.v ===== *)
(** What the inbox promises: senders and receivers are answered exactly once,
    a receiver is not left behind when the last sender goes, messages are
    received in the order they arrive. *)
From S2P Require Import Prelude Errors Lua IpcMessage IpcSpec Inbox.

Section spec.
Context {Msg : Type} (of_process : received → Msg) (max_members : nat).
#[local] Notation inbox := (inbox Msg).
#[local] Notation task := (task Msg).
#[local] Notation effect := (effect Msg).

(** * Steps *)

(** What a step does, for those outside: the fibers that start to send and to
    receive, the messages that arrive and that are received, the effects. *)
Record label : Type := Label {
  sends : list fiber_id;
  waits : list loc;
  arrived : list Msg;
  got : list Msg;
  effects : list effect;
}.

Definition got_of (es : list effect) : list Msg :=
  omap (λ e, match e with Resume _ (NilAnd m) => Some m | _ => None end) es.
Definition quiet (es : list effect) : label := Label [] [] [] (got_of es) es.

(** The inbox and the tasks on the strand. *)
Abbreviation state := (inbox * list task)%type (only parsing).

(** What a process sent, when it is a message. *)
Definition process_message (ev : event) (b : inbox) : list Msg :=
  match ev with
  | Received m nread truncated fds =>
      if decide (nread < 16 ∨ truncated = true) then []
      else
        match decode max_members
                (if recv_fiber b is Some _ then rawset else emplace) m nread
                (filter (λ fd, fd ≠ INVALID_FILE_DESCRIPTOR) fds) with
        | Good r _ => [of_process r]
        | _ => []
        end
  | _ => []
  end.

Inductive step : state → label → state → Prop :=
| step_send s m b ts :
    step (b, ts) (Label [s] [] [] [] []) (b, ts ++ [Deliver s m])
| step_interrupt_send s b ts :
    step (b, ts) (quiet []) (b, ts ++ [InterruptSend s])
| step_deliver s m b ts b' es :
    deliver s m b = (b', es) →
    step (b, Deliver s m :: ts)
      (Label [] [] (if open b then [m] else []) (got_of es) es) (b', ts)
| step_interrupted_send s b ts b' es :
    interrupt_send s b = (b', es) → step (b, InterruptSend s :: ts) (quiet es) (b', ts)
| step_check b ts b' es :
    check_senders b = (b', es) → step (b, CheckSenders :: ts) (quiet es) (b', ts)
| step_new_address b ts :
    step (b, ts) (quiet []) (new_address b, ts)
| step_drop_address b ts b' new :
    (size (services b) < nsenders b)%Z → drop_address b = (b', new) →
    step (b, ts) (quiet []) (b', ts ++ new)
| step_receive f disabled b ts b' es a :
    chan_receive f disabled b = (b', es, a) →
    step (b, ts)
      (Label [] (if a is Yields then [f] else []) []
         (if a is Returns (Some m) then [m] else []) es) (b', ts)
| step_receive_interrupted f b ts b' new :
    f ∈ armed b → interrupt_receiver f b = (b', new) →
    step (b, ts) (quiet []) (b', ts ++ new)
| step_wake_up f e b ts b' es :
    wake_up f e b = Some (b', es) → step (b, WakeUp f e :: ts) (quiet es) (b', ts)
| step_close b ts b' es new :
    inbox_close b = (b', es, new) → step (b, ts) (quiet es) (b', ts ++ new)
| step_gc b ts b' es :                (* a fiber that receives holds the inbox *)
    recv_fiber b = None → inbox_gc b = (b', es) → step (b, ts) (quiet es) (b', ts)
| step_register_service id b ts :
    services b !! id = None → (size (services b) < nsenders b)%Z →
    step (b, ts) (quiet []) (register_service id b, ts)
| step_add_own_service id b ts :
    services b !! id = None → step (b, ts) (quiet []) (add_own_service id b, ts)
| step_wait id ev b ts b' es again :
    services b !! id = Some true →
    on_wait of_process max_members id ev b = (b', es, again) →
    step (b, ts)
      (Label [] [] (if open b then process_message ev b else []) (got_of es) es) (b', ts).

(** * The invariant *)
Record inbox_inv (b : inbox) (ts : list task) : Prop := {
  inv_receiving : is_Some (recv_fiber b) → incoming b = [] ∧ open b = true;
  inv_guard : work_guard b = bool_decide (is_Some (recv_fiber b));
  inv_closed : open b = false → incoming b = [];
  inv_count : (size (services b) ≤ nsenders b)%Z;
  inv_check : is_Some (recv_fiber b) → nsenders b = 0%Z → CheckSenders ∈ ts;
  inv_armed : open b = true → ∀ f, f ∈ armed b → recv_fiber b = Some f;
  inv_null : open b = true → ∀ e, WakeUp None e ∉ ts;
}.

Lemma resume_inv f args b ts :
  recv_fiber b = Some f → inbox_inv b ts →
  inbox_inv (resume_fiber f args (set_recv None b)).1 ts.
Proof.
  intros Hf [Hr Hg Hc Hn Hk Ha Hz]. split; simpl; try done; try by intros [].
  intros Ho f' (Hin & Hne)%elem_of_difference. specialize (Ha Ho f' Hin). set_solver.
Qed.

Lemma size_delete_service id (m : gmap loc bool) x :
  m !! id = Some x → Z.of_nat (size (delete id m)) = (size m - 1)%Z.
Proof.
  intros H. rewrite map_size_delete_Some by eauto.
  assert (size m ≠ 0); [|lia]. intros E%map_size_empty_inv. set_solver.
Qed.

(** Losing a service, up to the check of the senders that comes with it. *)
Lemma remove_service_inv id b ts x :
  services b !! id = Some x → inbox_inv b ts →
  (nsenders b ≠ 1%Z ∨ recv_fiber b = None) → inbox_inv (remove_service id b) ts.
Proof.
  intros Hs [Hr Hg Hc Hn Hk Ha Hz] H1. split; simpl; try done.
  - rewrite (size_delete_service _ _ _ Hs). lia.
  - intros Hf H0. destruct H1 as [H1|H1]; [lia|]. rewrite H1 in Hf. by destruct Hf.
Qed.
Lemma remove_resume_inv id f args b ts x :
  services b !! id = Some x → inbox_inv b ts → recv_fiber b = Some f →
  inbox_inv (resume_fiber f args (set_recv None (remove_service id b))).1 ts.
Proof.
  intros Hs I Hf. pose proof (resume_inv f args b ts Hf I) as I'.
  refine (remove_service_inv id _ ts x _ I' _); [exact Hs|by right].
Qed.

Lemma lose_service_inv id b ts x :
  services b !! id = Some x → inbox_inv b ts → inbox_inv (lose_service id b).1 ts.
Proof.
  intros Hs I. unfold lose_service. cbn [remove_service recv_fiber set_services set_nsenders].
  destruct (recv_fiber b) as [f|] eqn:Hf.
  - case_decide as H0; [by eapply remove_resume_inv|].
    eapply remove_service_inv; [done|done|]. simpl in H0. left. lia.
  - eapply remove_service_inv; [done|done|]. by right.
Qed.

Lemma stop_service_inv id b ts x :
  services b !! id = Some x → inbox_inv b ts →
  inbox_inv (set_services (<[id := false]> (services b)) b) ts.
Proof.
  intros Hs []. split; simpl; try done. by rewrite map_size_insert_Some by eauto.
Qed.

Lemma on_wait_inv id ev b ts x :
  services b !! id = Some x → inbox_inv b ts →
  inbox_inv (on_wait of_process max_members id ev b).1.1 ts.
Proof.
  intros Hs I. unfold on_wait. destruct (open b) eqn:Ho; simpl.
  2:{ eapply remove_service_inv; [done|done|]. right.
      destruct (recv_fiber b) eqn:Hf; [|done].
      destruct (inv_receiving _ _ I) as [_ ?]; [by rewrite Hf|congruence]. }
  destruct ev as [| | |m nread truncated fds]; try done; try by eapply lose_service_inv.
  case_decide.
  { pose proof (lose_service_inv id b ts x Hs I). by destruct (lose_service id b). }
  pose proof (stop_service_inv id b ts x Hs I) as I'.
  assert (services (set_services (<[id := false]> (services b)) b) !! id = Some false) as Hs'
    by apply lookup_insert_eq.
  destruct (recv_fiber _) as [f|] eqn:Hf.
  - destruct (deserializer _ _ _ _); simpl; [by apply (resume_inv f NoArguments) in I'|case_decide; simpl..].
    1, 3: by apply (remove_resume_inv id f NoArguments _ ts false Hs') in I'.
    all: eapply remove_service_inv; [done|done|]; left; simpl in *; lia.
  - destruct (decode_queued _ _ _ _); simpl.
    + destruct I' as [Hr Hg Hc Hn Hk Ha Hz]. split; try done; simpl in *; rewrite ?Hf, ?Ho;
        try done; try (by intros []); intros _; rewrite <- Hf; by apply Ha.
    + eapply remove_service_inv; [done|done|by right].
    + eapply remove_service_inv; [done|done|by right].
Qed.

Lemma erase_sender_elem (s : fiber_id) (q q' : list (entry Msg)) :
  erase_sender s q = Some q' → omap from q ≡ₚ s :: omap from q'.
Proof.
  revert q'. induction q as [|e q IH]; intros q'; simpl; [done|].
  case_decide as He; [intros [= <-]; simpl; by rewrite He|].
  intros (q1 & Hq & ->)%fmap_Some. simpl. destruct (from e); [|by apply IH].
  rewrite (IH q1 Hq). by rewrite Permutation_swap.
Qed.

(** A closed inbox may keep an interrupter and a null pointer. *)
Lemma shut_inv b ts ts' :
  inbox_inv b ts → inbox_inv (set_recv None (shut b)) ts'.
Proof. intros []. split; simpl; try done; by intros []. Qed.
Lemma close_inv b ts b' es new :
  inbox_close b = (b', es, new) → inbox_inv b ts → inbox_inv b' (ts ++ new).
Proof.
  intros He I. unfold inbox_close in He. destruct (open b).
  2:{ simplify_eq. by rewrite app_nil_r. }
  pose proof (shut_inv b ts (ts ++ new) I) as I'.
  destruct (recv_fiber b) as [f|] eqn:Hf; simplify_eq; [done|].
  pose proof (inv_guard _ _ I) as Hg. rewrite Hf in Hg.
  by destruct I' as []; split; simpl in *; rewrite ?Hf.
Qed.

Lemma receive_inv f disabled b ts :
  inbox_inv b ts → inbox_inv (chan_receive f disabled b).1.1 ts.
Proof.
  intros I. unfold chan_receive. destruct (open b) eqn:Ho; [|done]. case_decide as Hf; [done|].
  destruct I as [Hr Hg Hc Hn Hk Ha Hz].
  destruct (incoming b) as [|e q] eqn:Hq; simpl.
  - case_decide; simpl; [by split; rewrite ?Hq|].
    split; simpl; rewrite ?Hq, ?Ho; try done; [by rewrite map_size_fmap| |by intros _; apply Hz].
    assert (∀ f', f' ∉ armed b) as Hnone.
    { intros f' Hin. apply Hf. rewrite (Ha Ho f' Hin). eauto. }
    intros _ f'. destruct disabled; set_solver.
  - split; simpl; rewrite ?Ho; try done; eauto.
Qed.

Lemma deliver_inv s m b ts : inbox_inv b ts → inbox_inv (deliver s m b).1 ts.
Proof.
  intros I. unfold deliver. destruct (open b) eqn:Ho; [|done].
  destruct (recv_fiber b) as [f|] eqn:Hf; simpl; [by apply (resume_inv f NoArguments) in I|].
  destruct I as [Hr Hg Hc Hn Hk Ha Hz].
  split; simpl; rewrite ?Hf, ?Ho in *; try done; by intros [].
Qed.

Lemma interrupt_send_inv s b ts : inbox_inv b ts → inbox_inv (interrupt_send s b).1 ts.
Proof.
  intros I. unfold interrupt_send. destruct (erase_sender s (incoming b)) as [q|] eqn:E; [|done].
  destruct I as [Hr Hg Hc Hn Hk Ha Hz]. split; simpl; try done.
  - intros Hf. by destruct (Hr Hf) as [Hq _]; rewrite Hq in E.
  - intros Ho. by rewrite (Hc Ho) in E.
Qed.

Lemma interrupt_receiver_inv f b ts b' new :
  f ∈ armed b → interrupt_receiver f b = (b', new) → inbox_inv b ts →
  inbox_inv b' (ts ++ new).
Proof.
  unfold interrupt_receiver, receive_interrupter. intros Hin He [Hr Hg Hc Hn Hk Ha Hz].
  simplify_eq/=. split; simpl; try done; try (by intros []); intros Ho.
  - intros f' (Hin' & Hne)%elem_of_difference. exfalso.
    pose proof (Ha Ho f Hin). pose proof (Ha Ho f' Hin'). set_solver.
  - intros e [Hz'|Hw]%elem_of_app; [by eapply Hz|]. rewrite (Ha Ho f Hin) in Hw. set_solver.
Qed.

Lemma inv_tasks b ts ts' :
  (CheckSenders ∈ ts → CheckSenders ∈ ts') →
  (∀ e, WakeUp None e ∈ ts' → WakeUp None e ∈ ts) → inbox_inv b ts → inbox_inv b ts'.
Proof. intros Ht Hw []. split; eauto. intros Ho e He. by eapply inv_null0, Hw. Qed.

(** A check is only taken off the strand once it has been made. *)
Lemma check_inv b ts : inbox_inv b (CheckSenders :: ts) → inbox_inv (check_senders b).1 ts.
Proof.
  intros I. assert (open b = true → ∀ e, WakeUp None e ∉ ts) as Hz.
  { intros Ho e He. eapply (inv_null _ _ I Ho e). by right. }
  unfold check_senders. case_decide; simpl.
  { destruct I. split; try done. }
  destruct (recv_fiber b) as [f|] eqn:Hf; simpl.
  - apply (resume_inv f NoArguments) in I; [|done]. destruct I; split; try done; by intros [].
  - destruct I. split; rewrite ?Hf in *; try done; by intros [].
Qed.

Lemma step_inv b ts l b' ts' : step (b, ts) l (b', ts') → inbox_inv b ts → inbox_inv b' ts'.
Proof.
  assert (∀ (t : task) (q : list task) x, inbox_inv x (t :: q) → t ≠ CheckSenders →
    inbox_inv x q) as Hpop.
  { intros t q x I Ht. eapply inv_tasks, I; set_solver. }
  remember (b, ts) as x. remember (b', ts') as y.
  intros Hstep. destruct Hstep as [| |s m ? ? ? es He|s ? ? ? es He|? ? ? es He| |? ? ? new Hn He
    |f ? ? ? ? es a He|f ? ? ? new Hf He|f e ? ? ? es He|? ? ? es new He|? ? ? es Hf He
    |id ? ? Hid Hn|id ? ? Hid|id ev ? ? ? es again Hid He]; simplify_eq; intros I.
  - eapply inv_tasks, I; set_solver.
  - eapply inv_tasks, I; set_solver.
  - apply Hpop, (deliver_inv s m) in I; [|done]. by rewrite He in I.
  - apply Hpop, (interrupt_send_inv s) in I; [|done]. by rewrite He in I.
  - apply check_inv in I. by rewrite He in I.
  - destruct I as [Hr Hg Hc Hn Hk Ha Hz]. split; simpl; try done; lia.
  - unfold drop_address in He. injection He as <- <-. destruct I as [Hr Hg Hc Hn' Hk Ha Hz].
    split; simpl; try done; [lia| |].
    + intros _ H0. rewrite decide_False by lia. set_solver.
    + intros Ho e [He|He]%elem_of_app; [by eapply Hz|]. case_decide; [by apply not_elem_of_nil in He|].
      by apply list_elem_of_singleton in He.
  - apply (receive_inv f disabled) in I. by rewrite He in I.
  - by eapply interrupt_receiver_inv.
  - apply Hpop in I; [|done]. destruct f as [f|]; [|done]. injection He as <- <-.
    destruct I as [Hr Hg Hc Hn Hk Ha Hz]. split; simpl; try done.
    intros Ho f' [Hin _]%elem_of_difference. by apply Ha.
  - by eapply close_inv.
  - unfold inbox_gc in He. destruct (open b); simplify_eq; [|done].
    by eapply (shut_inv b) in I.
  - destruct I as [Hr Hg Hc Hn' Hk Ha Hz]. split; simpl; try done.
    rewrite map_size_insert_None by done. lia.
  - destruct I as [Hr Hg Hc Hn Hk Ha Hz]. split; simpl; try done; [|lia].
    rewrite map_size_insert_None by done. lia.
  - apply (on_wait_inv id ev _ _ true Hid) in I. by rewrite He in I.
Qed.

(** * Accounts *)

(** The senders that wait for an answer, and who waits to receive. *)
Definition pending_sends (b : inbox) (ts : list task) : list fiber_id :=
  omap (λ t, match t with Deliver s _ => Some s | _ => None end) ts ++
  omap from (incoming b).
Definition receiver (b : inbox) : list loc := option_list (recv_fiber b).
Definition waking (ts : list task) : list loc :=
  omap (λ t, match t with WakeUp f _ => f | _ => None end) ts.

(** Those an effect answers. *)
Definition answered (es : list effect) : list fiber_id :=
  omap (λ e, match e with PostSender s _ => Some s | _ => None end) es.
Definition resumed (es : list effect) : list loc :=
  omap (λ e, match e with Resume f _ => Some f | _ => None end) es.

Lemma answered_app es es' : answered (es ++ es') = answered es ++ answered es'.
Proof. apply omap_app. Qed.
Lemma resumed_app es es' : resumed (es ++ es') = resumed es ++ resumed es'.
Proof. apply omap_app. Qed.
Lemma got_of_app es es' : got_of (es ++ es') = got_of es ++ got_of es'.
Proof. apply omap_app. Qed.
Lemma closing_effects (l : list Z) :
  answered (CloseFd <$> l) = [] ∧ resumed (CloseFd <$> l) = [] ∧ got_of (CloseFd <$> l) = [].
Proof. induction l; [done|]. done. Qed.
Lemma waking_effects (q : list (entry Msg)) :
  answered (concat (wake <$> q)) = omap from q ∧ resumed (concat (wake <$> q)) = [].
Proof.
  induction q as [|e q [IH1 IH2]]; [done|]. rewrite fmap_cons. cbn [concat].
  rewrite answered_app, resumed_app, IH1, IH2. unfold wake. simpl. by destruct (from e).
Qed.

(** The balance of a step: what waited or starts to wait, still waits or is
    answered. *)
Definition balanced (b : inbox) (ts : list task) (l : label) (b' : inbox) (ts' : list task) :
    Prop :=
  pending_sends b ts ++ sends l ≡ₚ pending_sends b' ts' ++ answered (effects l) ∧
  (receiver b ++ waits l) ++ waking ts ≡ₚ (receiver b' ++ resumed (effects l)) ++ waking ts'.

Lemma on_wait_balanced id ev b ts :
  let r := on_wait of_process max_members id ev b in
  pending_sends b ts ++ [] ≡ₚ pending_sends r.1.1 ts ++ answered r.1.2 ∧
  receiver b ++ [] ≡ₚ receiver r.1.1 ++ resumed r.1.2.
Proof.
  assert (∀ b', (let r := lose_service id b' in
    incoming r.1 = incoming b' ∧ answered r.2 = [] ∧
    receiver b' = receiver r.1 ++ resumed r.2)) as Hlose.
  { intros b'. unfold lose_service, receiver. simpl.
    destruct (recv_fiber b') as [f|] eqn:Hf; simpl; [case_decide; simpl|]; by rewrite ?Hf. }
  unfold on_wait, pending_sends. simpl. rewrite !app_nil_r.
  destruct (open b); simpl; [|by rewrite !app_nil_r].
  destruct ev as [| | |m nread truncated fds]; simpl; rewrite ?app_nil_r; try done.
  - destruct (Hlose b) as (-> & -> & <-). by rewrite app_nil_r.
  - destruct (Hlose b) as (-> & -> & <-). by rewrite app_nil_r.
  - set (fds' := filter _ fds). case_decide.
    { specialize (Hlose b). destruct (lose_service id b) as [b' es]. simpl in *.
      destruct (closing_effects fds') as (E1 & E2 & _). destruct Hlose as (-> & E3 & ->).
      rewrite answered_app, resumed_app, E1, E2, E3. by rewrite !app_nil_r. }
    unfold receiver. destruct (recv_fiber b) as [f|] eqn:Hf.
    + destruct (deserializer _ _ _ fds') as [r unused| |]; simpl; [|case_decide..]; simpl;
        rewrite ?Hf; match goal with |- context[CloseFd <$> ?l] =>
          destruct (closing_effects l) as (E1 & E2 & _) end;
        unfold answered, resumed in *; simpl; rewrite ?E1, ?E2, ?app_nil_r; done.
    + destruct (decode_queued _ _ _ fds') as [r unused| |]; simpl; rewrite ?Hf, ?omap_app;
        match goal with |- context[CloseFd <$> ?l] =>
          destruct (closing_effects l) as (E1 & E2 & _) end;
        unfold answered, resumed in *; simpl; rewrite ?E1, ?E2, ?app_nil_r; done.
Qed.

Lemma step_balanced b ts l b' ts' :
  step (b, ts) l (b', ts') → balanced b ts l b' ts'.
Proof.
  remember (b, ts) as x. remember (b', ts') as y.
  intros Hstep. destruct Hstep as [| |s m ? ? ? es He|s ? ? ? es He|? ? ? es He| |? ? ? new Hn He
    |f ? ? ? ? es a He|f ? ? ? new Hf He|f e ? ? ? es He|? ? ? es new He|? ? ? es Hf He
    |id ? ? Hid Hn|id ? ? Hid|id ev ? ? ? es again Hid He]; simplify_eq;
    unfold balanced, pending_sends, receiver, waking; simpl;
    rewrite ?app_nil_r, ?omap_app; simpl.
  - split; [|by rewrite app_nil_r]. solve_Permutation.
  - by rewrite ?app_nil_r.
  - unfold deliver in He. destruct (open b).
    + destruct (recv_fiber b) as [f|] eqn:Hf; simplify_eq/=; split; try done.
      * solve_Permutation.
      * rewrite omap_app, app_nil_r. simpl. solve_Permutation.
      * by rewrite Hf.
    + simplify_eq/=. split; [|by rewrite app_nil_r]. solve_Permutation.
  - unfold interrupt_send in He.
    destruct (erase_sender s (incoming b)) as [q|] eqn:Hq; simplify_eq/=.
    + apply erase_sender_elem in Hq. split; [|by rewrite app_nil_r]. rewrite Hq.
      solve_Permutation.
    + by rewrite !app_nil_r.
  - unfold check_senders, resume_fiber in He. case_decide; simplify_eq/=; [by rewrite !app_nil_r|].
    destruct (recv_fiber b) as [f|] eqn:Hf; simplify_eq/=; by rewrite ?Hf, ?app_nil_r.
  - done.
  - unfold drop_address in He. simplify_eq/=. by case_decide; simpl; rewrite !app_nil_r.
  - unfold chan_receive in He. destruct (open b); [|simplify_eq/=; by rewrite !app_nil_r].
    case_decide as Hf; [simplify_eq/=; by rewrite !app_nil_r|].
    destruct (incoming b) as [|e q] eqn:Hq.
    + case_decide; simplify_eq/=; rewrite ?Hq, !app_nil_r; split; try done.
      destruct (recv_fiber b); [|done]. by destruct Hf.
    + simplify_eq/=. split; [|by destruct (from e); simpl; rewrite !app_nil_r].
      destruct (from e); simpl; [solve_Permutation|by rewrite app_nil_r].
  - unfold interrupt_receiver, receive_interrupter in He. simplify_eq/=.
    rewrite !app_nil_r. split; [done|]. destruct (recv_fiber b); simpl; [|by rewrite app_nil_r].
    by rewrite Permutation_cons_append.
  - destruct f as [f|]; [|done]. injection He as <- <-. simpl. rewrite app_nil_r.
    split; [done|]. solve_Permutation.
  - unfold inbox_close in He. destruct (open b); [|simplify_eq/=; by rewrite !app_nil_r].
    destruct (waking_effects (incoming b)) as [E1 E2].
    destruct (recv_fiber b) as [f|] eqn:Hf; simplify_eq/=; rewrite E1, E2, ?Hf, ?app_nil_r; simpl.
    + split; [done|]. solve_Permutation.
    + done.
  - unfold inbox_gc in He. destruct (open b); simplify_eq/=; [|by rewrite !app_nil_r].
    destruct (waking_effects (incoming b)) as [E1 E2]. rewrite E1, E2, Hf.
    rewrite ?app_nil_r. by split.
  - done.
  - done.
  - match goal with |- context[(omap _ ?q ++ omap from (incoming b)) ≡ₚ _] =>
      pose proof (on_wait_balanced id ev b q) as H end. rewrite He in H.
    unfold pending_sends, receiver in H. simpl in H. rewrite !app_nil_r in H.
    destruct H as [-> H]. split; [done|]. by rewrite H.
Qed.

(** * Runs *)
Inductive run : state → list label → state → Prop :=
| run_nil x : run x [] x
| run_cons x l y ls z : step x l y → run y ls z → run x (l :: ls) z.

(** A new inbox. *)
Definition initial : inbox := Inbox None [] true 0 false ∅ ∅.

Lemma initial_inv : inbox_inv initial [].
Proof. split; simpl; try done; try (by intros []); set_solver. Qed.

Lemma run_inv x ls y : run x ls y → inbox_inv x.1 x.2 → inbox_inv y.1 y.2.
Proof.
  induction 1 as [|[b ts] l [b' ts'] ls z Hstep _ IH]; [done|]. intros I.
  apply IH. by eapply step_inv.
Qed.

Lemma run_balanced x ls y :
  run x ls y →
  pending_sends x.1 x.2 ++ concat (sends <$> ls) ≡ₚ
    pending_sends y.1 y.2 ++ concat (answered ∘ effects <$> ls) ∧
  (receiver x.1 ++ concat (waits <$> ls)) ++ waking x.2 ≡ₚ
    (receiver y.1 ++ concat (resumed ∘ effects <$> ls)) ++ waking y.2.
Proof.
  induction 1 as [x|[b1 ts1] l [b2 ts2] ls z Hstep _ [IH1 IH2]]; [done|].
  destruct (step_balanced _ _ _ _ _ Hstep) as [B1 B2]. simpl in *. split.
  - rewrite app_assoc, B1, <- app_assoc, (Permutation_app_comm (answered _)), app_assoc, IH1.
    simpl. solve_Permutation.
  - transitivity (((receiver b1 ++ waits l) ++ waking ts1) ++ concat (waits <$> ls));
      [solve_Permutation|]. rewrite B2.
    transitivity (((receiver b2 ++ concat (waits <$> ls)) ++ waking ts2) ++ resumed (effects l));
      [solve_Permutation|]. rewrite IH2. simpl. solve_Permutation.
Qed.

(** C38 No one is forgotten and no one is answered twice: in every run, the
    fibers that sent a message are, each as often as it did, those that got
    exactly one answer (taken, closed or interrupted) and those that still
    wait in the queue or on the strand; the fibers that started to receive are
    those that were resumed, the one that still waits and those whose wake-up
    is on the strand.  While the inbox is open an interrupter wakes its own
    fiber, so that no null pointer is on the strand; once it is closed there
    may be one ([Examples.null_fiber_woken]). *)
Theorem inbox_accounts ls b ts :
  run (initial, []) ls (b, ts) →
  concat (sends <$> ls) ≡ₚ pending_sends b ts ++ concat (answered ∘ effects <$> ls) ∧
  concat (waits <$> ls) ≡ₚ
    receiver b ++ waking ts ++ concat (resumed ∘ effects <$> ls) ∧
  (open b = true →
    (∀ e, WakeUp None e ∉ ts) ∧
    ∀ f, f ∈ armed b →
      (interrupt_receiver f b).2 = [WakeUp (Some f) Core.interrupted]).
Proof.
  intros Hrun. destruct (run_balanced _ _ _ Hrun) as [H1 H2].
  pose proof (run_inv _ _ _ Hrun initial_inv) as I. simpl in *. split_and!.
  - done.
  - rewrite app_nil_r in H2. rewrite H2. solve_Permutation.
  - intros Ho. split; [by apply (inv_null _ _ I)|]. intros f Hf.
    simpl. by rewrite (inv_armed _ _ I Ho f Hf).
Qed.

(** C39 A receiver is not left behind: in every state a run reaches, a fiber
    that waits to receive finds the inbox open and its queue empty, and when
    the count of senders is 0 the check that will resume it with [no_senders]
    is on the strand. *)
Theorem receiver_not_left_behind ls b ts f :
  run (initial, []) ls (b, ts) → recv_fiber b = Some f →
  incoming b = [] ∧ open b = true ∧ work_guard b = true ∧
  (size (services b) ≤ nsenders b)%Z ∧
  (nsenders b = 0%Z → CheckSenders ∈ ts ∧
     check_senders b = resume_fiber f (Code Core.no_senders) (set_recv None b)).
Proof.
  intros Hrun Hf. pose proof (run_inv _ _ _ Hrun initial_inv) as I. simpl in I.
  assert (is_Some (recv_fiber b)) as Hs by by rewrite Hf.
  destruct (inv_receiving _ _ I Hs) as [Hq Ho]. split_and!; [done|done| |apply I|].
  - rewrite (inv_guard _ _ I). by apply bool_decide_true.
  - intros H0. split; [by apply (inv_check _ _ I)|]. unfold check_senders.
    by rewrite decide_False, Hf by lia.
Qed.

(** * Order *)
Definition clean (l : label) : Prop := ∀ s c, PostSender s (Code c) ∉ effects l.

Lemma step_open x l y : step x l y → open y.1 = true → open x.1 = true.
Proof.
  intros Hstep. destruct Hstep as [| |s m ? ? ? es He|s ? ? ? es He|? ? ? es He| |? ? ? new Hn He
    |f ? ? ? ? es a He|f ? ? ? new Hf He|f e ? ? ? es He|? ? ? es new He|? ? ? es Hf He
    |id ? ? Hid Hn|id ? ? Hid|id ev ? ? ? es again Hid He]; simpl; try done.
  all: destruct (open b) eqn:Ho; [done|].
  - unfold deliver in He. rewrite Ho in He. simplify_eq/=; congruence.
  - unfold interrupt_send in He. destruct (erase_sender _ _); simplify_eq/=; congruence.
  - unfold check_senders, resume_fiber in He. repeat case_match; simplify_eq/=; congruence.
  - unfold drop_address in He. simplify_eq/=; congruence.
  - unfold chan_receive in He. rewrite Ho in He. simplify_eq/=; congruence.
  - unfold interrupt_receiver in He. simplify_eq/=. congruence.
  - destruct f; [|done]. injection He as <- <-. simpl. congruence.
  - unfold inbox_close in He. rewrite Ho in He. simplify_eq/=; congruence.
  - unfold inbox_gc in He. rewrite Ho in He. simplify_eq/=; congruence.
  - unfold on_wait in He. rewrite Ho in He. simplify_eq/=; congruence.
Qed.

Lemma on_wait_order id ev b :
  let r := on_wait of_process max_members id ev b in
  open b = true →
  (is_Some (recv_fiber b) → incoming b = []) →
  got_of r.1.2 ++ (msg <$> incoming r.1.1) =
    (msg <$> incoming b) ++ process_message ev b.
Proof.
  assert (∀ b', got_of (lose_service id b').2 = [] ∧
    incoming (lose_service id b').1 = incoming b') as Hlose.
  { intros b'. unfold lose_service. simpl. by repeat case_match. }
  simpl. intros Ho Hr. unfold on_wait. rewrite Ho.
  destruct ev as [| | |m nread truncated fds]; simpl; rewrite ?app_nil_r; try done.
  - by destruct (Hlose b) as [-> ->].
  - by destruct (Hlose b) as [-> ->].
  - set (fds' := filter _ fds). destruct (decide (nread < 16 ∨ truncated = true)).
    { specialize (Hlose b). destruct (lose_service id b) as [b' es]. simpl in *.
      destruct Hlose as [E1 ->]. destruct (closing_effects fds') as (_ & _ & E2).
      by rewrite got_of_app, E1, E2, !app_nil_r. }
    destruct (recv_fiber b) as [f|] eqn:Hf.
    + rewrite Hr by done. unfold deserializer.
      destruct (decode _ _ _ _ fds') as [r unused| |]; simpl; [|case_decide..]; simpl;
        rewrite ?(Hr (mk_is_Some _ _ Hf)), ?Hr by done;
        match goal with |- context[CloseFd <$> ?l] =>
          destruct (closing_effects l) as (_ & _ & E2) end;
        unfold got_of in *; simpl; rewrite ?E2; done.
    + unfold decode_queued. destruct (decode _ _ _ _ fds') as [r unused| |]; simpl;
        match goal with |- context[CloseFd <$> ?l] =>
          destruct (closing_effects l) as (_ & _ & E2) end;
        rewrite E2, ?fmap_app, ?app_nil_r; done.
Qed.

Lemma step_order b ts l b' ts' :
  inbox_inv b ts → step (b, ts) l (b', ts') → open b' = true → clean l →
  got l ++ (msg <$> incoming b') = (msg <$> incoming b) ++ arrived l.
Proof.
  intros I Hstep Ho' Hclean. pose proof (step_open _ _ _ Hstep Ho') as Ho. simpl in Ho.
  remember (b, ts) as x. remember (b', ts') as y.
  destruct Hstep as [| |s m ? ? ? es He|s ? ? ? es He|? ? ? es He| |? ? ? new Hn He
    |f ? ? ? ? es a He|f ? ? ? new Hf He|f e ? ? ? es He|? ? ? es new He|? ? ? es Hf He
    |id ? ? Hid Hn|id ? ? Hid|id ev ? ? ? es again Hid He]; simplify_eq; simpl; rewrite ?app_nil_r; try done.
  - unfold deliver in He. rewrite Ho in *. destruct (recv_fiber b) as [f|] eqn:Hf; simplify_eq/=.
    + destruct (inv_receiving _ _ I) as [Hq _]; [by rewrite Hf|]. by rewrite Hq.
    + by rewrite fmap_app.
  - unfold interrupt_send in He. destruct (erase_sender _ _); simplify_eq/=; [|done].
    exfalso. eapply Hclean. by left.
  - unfold check_senders, resume_fiber in He. repeat case_match; by simplify_eq/=.
  - unfold drop_address in He. by simplify_eq/=.
  - unfold chan_receive in He. rewrite Ho in He.
    case_decide; simplify_eq/=; [done|]. destruct (incoming b) as [|e q] eqn:Hq; simplify_eq/=.
    + case_decide; simplify_eq/=; by rewrite Hq.
    + done.
  - unfold interrupt_receiver in He. by simplify_eq/=.
  - destruct f; [|done]. by injection He as <- <-.
  - unfold inbox_close in He. rewrite Ho in He. by destruct (recv_fiber b); simplify_eq/=.
  - unfold inbox_gc in He. rewrite Ho in He. by simplify_eq/=.
  - pose proof (on_wait_order id ev b Ho) as H. rewrite He in H. simpl in H. rewrite Ho.
    apply H. intros Hs. by apply (inv_receiving _ _ I).
Qed.

(** Messages are received in the order they arrive: while the inbox is open
    and no sender gave up, what the receivers got, one after the other, and
    what is still in the queue are the messages that arrived, from other VMs
    and from processes, in order. *)
Theorem messages_in_order ls b ts :
  run (initial, []) ls (b, ts) → open b = true → Forall clean ls →
  concat (got <$> ls) ++ (msg <$> incoming b) = concat (arrived <$> ls).
Proof.
  assert (∀ x ls y, run x ls y → inbox_inv x.1 x.2 → open y.1 = true → Forall clean ls →
    concat (got <$> ls) ++ (msg <$> incoming y.1) =
    (msg <$> incoming x.1) ++ concat (arrived <$> ls) ∧ open x.1 = true) as Hall.
  { induction 1 as [x|[b1 ts1] l [b2 ts2] ls' z Hstep Hrun IH]; intros I Ho Hc.
    { simpl. by rewrite app_nil_r. }
    apply Forall_cons in Hc as [Hl Hc]. pose proof (step_inv _ _ _ _ _ Hstep I) as I2.
    destruct (IH I2 Ho Hc) as [IH1 Ho2]. split; [|by eapply step_open].
    rewrite !fmap_cons. cbn [concat fst]. rewrite <- app_assoc, IH1. cbn [fst].
    rewrite !app_assoc. f_equal. by eapply step_order. }
  intros Hrun Ho Hc. by destruct (Hall _ _ _ Hrun initial_inv Ho Hc) as [H _].
Qed.

(** * Services *)

(** A service can be left unread: when a fiber sends the inbox of its VM to
    another process while a fiber of the VM receives, the service made for it
    is not started, and no event of it reaches the receiver before the next
    call of [receive]; a service made for the address of a VM is started. *)
Theorem own_service_not_started ls b ts f id :
  run (initial, []) ls (b, ts) → recv_fiber b = Some f → services b !! id = None →
  services (add_own_service id b) !! id = Some false ∧
  recv_fiber (add_own_service id b) = Some f ∧
  services (register_service id b) !! id = Some true ∧
  ∀ f' d b' es a, chan_receive f' d (set_recv None (add_own_service id b)) = (b', es, a) →
    services b' !! id = Some true ∧ a = Yields.
Proof.
  intros Hrun Hf Hid. pose proof (run_inv _ _ _ Hrun initial_inv) as I. simpl in I.
  destruct (inv_receiving _ _ I) as [Hq Ho]; [by rewrite Hf|].
  simpl. rewrite !lookup_insert_eq. split_and!; [done|done|by rewrite Hf|].
  intros f' d b' es a He. unfold chan_receive in He. simpl in He. rewrite Ho, Hq in He.
  pose proof (inv_count _ _ I).
  rewrite decide_False in He by lia. simplify_eq/=.
  by rewrite lookup_fmap, lookup_insert_eq.
Qed.
End spec.

(** * Examples *)
Module Examples.
#[local] Notation step := (step (λ _ : received, 0) 3).
#[local] Notation run := (run (λ _ : received, 0) 3).

(** A sender appears, fiber 7 receives, fiber 2 of VM 1 sends 5, then 6. *)
Definition receiving : inbox nat := Inbox (Some 7) [] true 1 true ∅ {[7]}.
Definition queued : inbox nat := Inbox None [Entry (Some (1, 2)) 6] true 1 false ∅ ∅.
Definition first_labels : list (label (Msg := nat)) :=
  [quiet []; Label [] [7] [] [] []].
Definition labels : list (label (Msg := nat)) :=
  first_labels ++
  [Label [(1, 2)] [] [] [] [];
   Label [] [] [5] [5] [Resume 7 (NilAnd 5); PostSender (1, 2) Nil];
   Label [(1, 2)] [] [] [] []; Label [] [] [6] [] []].

Lemma run_receiving : run (initial, []) first_labels (receiving, []).
Proof.
  eapply run_cons; [apply step_new_address|].
  eapply run_cons; [|apply run_nil].
  eapply (step_receive _ _ 7 false _ _ _ [] Yields). reflexivity.
Qed.

Lemma run_queued : run (initial, []) labels (queued, []).
Proof.
  eapply run_cons; [apply step_new_address|].
  eapply (run_cons _ _ _ _ (receiving, [])).
  { by eapply (step_receive _ _ 7 false _ _ _ [] Yields). }
  eapply (run_cons _ _ _ _ (receiving, [Deliver (1, 2) 5])).
  { exact (step_send _ _ (1, 2) 5 receiving []). }
  eapply (run_cons _ _ _ _ (set_armed ∅ (set_recv None receiving), [])).
  { exact (step_deliver _ _ (1, 2) 5 receiving [] _ _ eq_refl). }
  eapply (run_cons _ _ _ _ (set_armed ∅ (set_recv None receiving), [Deliver (1, 2) 6])).
  { exact (step_send _ _ (1, 2) 6 _ []). }
  eapply (run_cons _ _ _ _ (queued, [])); [|apply run_nil].
  exact (step_deliver _ _ (1, 2) 6 (set_armed ∅ (set_recv None receiving)) [] _ _ eq_refl).
Qed.

(** A fiber closes the inbox fiber 7 receives from and, before the strand
    runs the wake-up, interrupts it: the interrupter is still the one of
    [receive], finds no receiver and posts a null pointer, which [fiber_resume]
    then reads. *)
Lemma null_fiber_woken : ∃ ls b,
  run (initial, []) ls
    (b, [WakeUp (Some 7) Core.channel_closed; WakeUp None Core.interrupted]) ∧
  wake_up None Core.interrupted b = None.
Proof.
  eexists _, _. split; [|done].
  eapply run_cons; [apply step_new_address|].
  eapply (run_cons _ _ _ _ (receiving, [])).
  { by eapply (step_receive _ _ 7 false _ _ _ [] Yields). }
  eapply run_cons; [by eapply (step_close _ _ receiving [])|].
  eapply run_cons; [|apply run_nil].
  refine (step_receive_interrupted _ _ 7 (shut (set_recv None receiving))
    [WakeUp (Some 7) Core.channel_closed] _ _ _ eq_refl).
  by apply elem_of_singleton.
Qed.

Lemma inbox_accounts_witness :
  [(1, 2); (1, 2)] ≡ₚ [(1, 2)] ++ [(1, 2)] ∧ [7] ≡ₚ [] ++ [7].
Proof.
  destruct (inbox_accounts (λ _, 0) 3 labels queued [] run_queued) as (H1 & H2 & _).
  exact (conj H1 H2).
Defined.

Lemma receiver_not_left_behind_witness : incoming receiving = [].
Proof.
  exact (proj1 (receiver_not_left_behind (λ _, 0) 3 first_labels receiving [] 7
    run_receiving eq_refl)).
Defined.

Lemma messages_in_order_witness : [5] ++ [6] = [5; 6].
Proof.
  refine (messages_in_order (λ _, 0) 3 labels queued [] run_queued eq_refl _).
  repeat constructor; intros s c; simpl; rewrite ?elem_of_cons; set_solver.
Defined.

Lemma own_service_not_started_witness :
  services (add_own_service 9 receiving) !! 9 = Some false ∧
  recv_fiber (add_own_service 9 receiving) = Some 7 ∧
  services (register_service 9 receiving) !! 9 = Some true.
Proof.
  destruct (own_service_not_started (λ _, 0) 3 first_labels receiving [] 7 9 run_receiving
    eq_refl eq_refl) as (H1 & H2 & H3 & _). auto.
Defined.
End Examples.
