(* ===== verification/MonotonicAllocator.v ===== *)
(** [monotonic_allocator] of [src/src/ipc_actor.cpp]: the [lua_Alloc] of the
    Lua state that runs a hook between [fork] and [exec].  It only moves
    forward in a buffer; what was given out is never given out again. *)
From S2P Require Import Prelude.

(** The buffer's octets, its address, and the offset of [next] from it. *)
Record monotonic_allocator : Set := Allocator {
  buffer : list Z;
  address : Z;
  next : nat;
}.

(** Pointers are offsets into the buffer, [None] is [NULL]; [Exit] is the end
    of the program when the buffer is exhausted. *)
Inductive allocation : Set :=
| Pointer (p : option nat)
| Exit.

(** A [std::size_t] or an address after an addition. *)
Definition size_wrap (z : Z) : Z := (z `mod` (size_max + 1))%Z.

Section allocator.
(** [alignof(std::max_align_t)]. *)
Context (step_size : Z).

Definition pad (nsize : Z) : Z :=
  let remainder := (nsize `mod` step_size)%Z in
  if decide (0 < remainder)%Z then size_wrap (nsize + (step_size - remainder)) else nsize.

Definition alloc (a : monotonic_allocator) (ptr : option nat) (osize : nat) (nsize : Z) :
    monotonic_allocator * allocation :=
  if decide (nsize = 0)%Z then (a, Pointer None)
  else if decide (nsize < osize)%Z then (a, Pointer ptr)
  else
    let end_ := (address a + length (buffer a))%Z in
    let nsize := pad nsize in
    if decide (end_ < size_wrap (address a + next a + nsize))%Z then (a, Exit)
    else
      let ret := next a in
      let next' := Z.to_nat (size_wrap (address a + next a + nsize) - address a) in
      let copied :=
        match ptr with
        | Some p => blit ret (window p osize (buffer a)) (buffer a)
        | None => buffer a
        end in
      (Allocator copied (address a) next', Pointer (Some ret)).

(** * Facts *)

(** [next] is in the buffer, which ends within the address space, and keeps
    the alignment of its start. *)
Definition allocator_wf (a : monotonic_allocator) : Prop :=
  next a ≤ length (buffer a) ∧ (0 ≤ address a)%Z ∧
  (address a + length (buffer a) ≤ size_max)%Z ∧ (step_size | next a)%Z.

(** A block that was given out: before [next], from an aligned offset. *)
Definition block (a : monotonic_allocator) (p : nat) (n : Z) : Prop :=
  (p + n ≤ next a)%Z ∧ (step_size | p)%Z.

(** A request that, rounded up, does not leave the address space. *)
Definition in_reach (a : monotonic_allocator) (nsize : Z) : Prop :=
  (0 ≤ nsize ∧ address a + next a + nsize + step_size ≤ size_max)%Z.

Lemma pad_spec n :
  (0 < step_size)%Z → (0 ≤ n)%Z → (n + step_size ≤ size_max)%Z →
  (n ≤ pad n < n + step_size)%Z ∧ (step_size | pad n)%Z.
Proof.
  intros Hs Hn Hmax. unfold pad, size_wrap.
  pose proof (Z.div_mod n step_size ltac:(lia)) as E.
  pose proof (Z.mod_pos_bound n step_size Hs) as Hr. case_decide.
  - rewrite Z.mod_small by lia. split; [lia|]. exists (Z.succ (n `div` step_size)). lia.
  - split; [lia|]. exists (n `div` step_size)%Z. lia.
Qed.

(** The address after a block. *)
Lemma end_of_block a n :
  (0 < step_size)%Z → allocator_wf a → in_reach a n →
  size_wrap (address a + next a + pad n) = (address a + next a + pad n)%Z.
Proof.
  intros Hs (? & ? & ? & _) [? ?]. destruct (pad_spec n Hs) as [? _]; [lia..|].
  unfold size_wrap. apply Z.mod_small. lia.
Qed.

(** The allocator is a [realloc]: it ends the program when the rounded
    size does not fit, and otherwise gives an aligned block of the size asked
    for, within the buffer and apart from every block given out before, which
    keep their octets; a block that grows keeps its octets in the new one, one
    that shrinks stays where it is.  For requests that, rounded up, stay in
    the address space. *)
Theorem alloc_spec a ptr (osize : nat) nsize :
  (0 < step_size)%Z → allocator_wf a → in_reach a nsize →
  match ptr with Some p => block a p osize | None => osize = 0 end →
  let '(a', r) := alloc a ptr osize nsize in
  allocator_wf a' ∧ length (buffer a') = length (buffer a) ∧ next a ≤ next a' ∧
  (∀ p (n : nat), block a p n →
     block a' p n ∧ window p n (buffer a') = window p n (buffer a)) ∧
  match r with
  | Exit => (length (buffer a) < next a + pad nsize)%Z ∧ a' = a
  | Pointer None => nsize = 0%Z
  | Pointer (Some q) =>
      block a' q nsize ∧
      ((nsize < osize)%Z ∧ ptr = Some q ∨
       next a ≤ q ∧ ∀ p, ptr = Some p → window q osize (buffer a') = window p osize (buffer a))
  end.
Proof.
  intros Hs Hwf Hreach Hptr. pose proof (end_of_block a nsize Hs Hwf Hreach) as Hend.
  destruct Hreach as [H0 Hmax], Hwf as (Hn & Ha & He & Hd).
  destruct (pad_spec nsize Hs H0) as [Hle Hdiv]; [lia|].
  unfold alloc. rewrite Hend. case_decide as Hz; [by split_and!|]. case_decide as Hsh.
  { destruct ptr as [p|]; [|simpl in *; lia]. destruct Hptr as [Hp Hdp].
    split_and!; try done; [|by left]. split; [lia|done]. }
  case_decide as Hex; [split_and!; try done; lia|].
  replace (address a + next a + pad nsize - address a)%Z
    with (next a + pad nsize)%Z by lia.
  assert (∀ p, ptr = Some p → length (window p osize (buffer a)) = osize) as Hw.
  { intros p ->. destruct Hptr. apply length_window. lia. }
  assert (∀ p, ptr = Some p →
    next a + length (window p osize (buffer a)) ≤ length (buffer a)) as Hfit.
  { intros p Hp. rewrite (Hw p Hp). lia. }
  set (copied := match ptr with Some _ => _ | None => _ end).
  assert (length copied = length (buffer a)) as Hlen.
  { subst copied. destruct ptr; [|done]. by apply length_blit, Hfit. }
  unfold allocator_wf, block; simpl. rewrite Hlen. split_and!; try lia.
  - rewrite Z2Nat.id by lia. by apply Z.divide_add_r.
  - intros p n [Hb Hdp]. split; [split; [lia|done]|].
    subst copied. destruct ptr as [p0|]; [|done].
    apply window_blit_disjoint; [by apply Hfit|lia].
  - done.
  - right. split; [done|]. intros p ->. subst copied. simpl.
    rewrite <- (Hw p eq_refl) at 1. apply window_blit_same. by apply Hfit.
Qed.
End allocator.

(** A block of four octets grows to six: it moves behind the old one. *)
Lemma alloc_spec_witness :
  let a := Allocator ([1; 2; 3; 4] ++ replicate 12 0)%Z 4096 4 in
  let '(a', r) := alloc 4 a (Some 0) 4 6 in
  allocator_wf 4 a' ∧ r = Pointer (Some 4) ∧ next a' = 12 ∧
  window 4 4 (buffer a') = [1; 2; 3; 4]%Z.
Proof.
  pose proof (alloc_spec 4 (Allocator ([1; 2; 3; 4] ++ replicate 12 0)%Z 4096 4) (Some 0) 4 6
    ltac:(lia)
    ltac:(unfold allocator_wf, size_max; simpl; split_and!; [lia..|by exists 1%Z])
    ltac:(unfold in_reach, size_max; simpl; lia)
    ltac:(split; [simpl; lia|by exists 0%Z])) as H.
  destruct H as (Hwf & _). split; [exact Hwf|]. split_and!; vm_compute; reflexivity.
Defined.
