(* ===== verification/LuaTable.v ===== *)
(** Lua tables and the userdata the sources tell apart, as the C API shows
    them: [lua_rawget], [lua_rawset], [lua_next], [lua_objlen],
    [lua_newtable], [lua_getmetatable].

    A table keeps its slots in the order [lua_next] gives them.  The length of
    a table with holes is up to LuaJIT: any border, the class [LuaTables]. *)
From S2P Require Import Prelude Errors Lua.

Record table : Set := Table {
  slots : list (lua_value * lua_value);
  metatable : option loc;
}.

(** The userdata of the actor modules, by their metatables; a closed file
    descriptor handle holds none. *)
Inductive userdata : Set :=
| UAddress (vm : loc)                        (* [tx_chan_mt_key] *)
| UInbox                                     (* [inbox_mt_key] *)
| UFileDescriptor (fd : option Z)            (* [file_descriptor_mt_key] *)
| UIpcChannel (fd : Z)                       (* [ipc_actor_chan_mt_key] *)
| UOther (* another metatable *)
| UPlain. (* none *)

Record lua_heap : Set := Heap {
  tables : gmap loc table;
  udata : gmap loc userdata;
  next_loc : loc;
}.

Definition empty_table : table := Table [] None.

(** * Operations on a table *)

Fixpoint slot (k : lua_value) (l : list (lua_value * lua_value)) : option lua_value :=
  match l with
  | [] => None
  | (k', v) :: l => if decide (k = k') then Some v else slot k l
  end.
Definition rawget (tb : table) (k : lua_value) : lua_value := default LNil (slot k (slots tb)).

(** An assignment to a key that is there keeps its place; [nil] frees it. *)
Fixpoint set_slot (k v : lua_value) (l : list (lua_value * lua_value)) :
    list (lua_value * lua_value) :=
  match l with
  | [] => if decide (v = LNil) then [] else [(k, v)]
  | (k', v') :: l =>
      if decide (k = k') then if decide (v = LNil) then l else (k, v) :: l
      else (k', v') :: set_slot k v l
  end.
Definition rawset (k v : lua_value) (tb : table) : table :=
  Table (set_slot k v (slots tb)) (metatable tb).

(** The slot after [k], the first one for [nil]. *)
Fixpoint after (k : lua_value) (l : list (lua_value * lua_value)) :
    option (lua_value * lua_value) :=
  match l with
  | [] => None
  | (k', _) :: l => if decide (k = k') then head l else after k l
  end.
Definition lua_next (tb : table) (k : lua_value) : option (lua_value * lua_value) :=
  if decide (k = LNil) then head (slots tb) else after k (slots tb).

Section integer_keys.
Context `{LuaApi}.
Definition rawgeti (tb : table) (i : Z) : lua_value := rawget tb (LNumber (lua_pushinteger i)).
Definition rawseti (i : Z) (v : lua_value) (tb : table) : table :=
  rawset (LNumber (lua_pushinteger i)) v tb.

(** The elements [ipairs] gives: those before the first [nil]. *)
Fixpoint elements_from (tb : table) (fuel i : nat) : list lua_value :=
  match fuel with
  | 0 => []
  | S fuel =>
      let v := rawgeti tb (S i) in
      if decide (v = LNil) then [] else v :: elements_from tb fuel (S i)
  end.
Definition ipairs (tb : table) : list lua_value :=
  elements_from tb (S (length (slots tb))) 0.
End integer_keys.

Definition table_wf (tb : table) : Prop :=
  NoDup (slots tb).*1 ∧ Forall (λ s, s.1 ≠ LNil ∧ s.2 ≠ LNil) (slots tb) ∧
  (length (slots tb) < 2 ^ 53)%Z.

(** [lua_objlen] of a table: a border. *)
Class LuaTables `{LuaApi} := {
  objlen : table → nat;
  objlen_some : ∀ tb, table_wf tb → objlen tb ≠ 0 → rawgeti tb (objlen tb) ≠ LNil;
  objlen_none : ∀ tb, table_wf tb → rawgeti tb (S (objlen tb)) = LNil;
}.

(** * Operations on the heap *)
Definition new_table (h : lua_heap) : lua_heap * loc :=
  (Heap (<[next_loc h := empty_table]> (tables h)) (udata h) (S (next_loc h)), next_loc h).
Definition new_userdata (u : userdata) (h : lua_heap) : lua_heap * loc :=
  (Heap (tables h) (<[next_loc h := u]> (udata h)) (S (next_loc h)), next_loc h).
Definition update_table (t : loc) (f : table → table) (h : lua_heap) : lua_heap :=
  Heap (alter f t (tables h)) (udata h) (next_loc h).

Definition heap_wf (h : lua_heap) : Prop :=
  map_Forall (λ t tb, t < next_loc h ∧ table_wf tb) (tables h) ∧
  map_Forall (λ u _, u < next_loc h) (udata h).

(** * Facts *)

Lemma slot_elem_of k v l : slot k l = Some v → (k, v) ∈ l.
Proof. induction l as [|[k' v'] l IH]; simpl; [done|]. case_decide; set_solver. Qed.

Lemma slot_complete k v l : NoDup l.*1 → (k, v) ∈ l → slot k l = Some v.
Proof.
  induction l as [|[k' v'] l IH]; simpl; [set_solver|].
  intros [Hk Hnd]%NoDup_cons [Heq|Hin]%elem_of_cons.
  - simplify_eq. by rewrite decide_True.
  - rewrite decide_False; [by apply IH|]. intros ->. apply Hk.
    apply list_elem_of_fmap. by exists (k', v).
Qed.

Lemma slot_None k l : slot k l = None ↔ k ∉ l.*1.
Proof. induction l as [|[k' v'] l IH]; simpl; [set_solver|]. case_decide; set_solver. Qed.

Lemma rawget_elem_of tb k v :
  table_wf tb → v ≠ LNil → rawget tb k = v ↔ (k, v) ∈ slots tb.
Proof.
  intros (Hnd & _ & _) Hv. unfold rawget. split.
  - destruct (slot k (slots tb)) eqn:E; simpl; [intros <-; by apply slot_elem_of|done].
  - intros Hin. by rewrite (slot_complete _ _ _ Hnd Hin).
Qed.

Lemma rawget_nil tb k : table_wf tb → rawget tb k = LNil ↔ k ∉ (slots tb).*1.
Proof.
  intros (Hnd & Hf & _). rewrite <- slot_None. unfold rawget.
  destruct (slot k (slots tb)) eqn:E; simpl; [|done].
  apply slot_elem_of in E. rewrite Forall_forall in Hf.
  destruct (Hf _ E) as [_ Hv]. naive_solver.
Qed.

Lemma slot_set_eq k v l : v ≠ LNil → slot k (set_slot k v l) = Some v.
Proof.
  intros Hv. induction l as [|[k' v'] l IH]; simpl.
  - rewrite decide_False by done. simpl. by rewrite decide_True.
  - case_decide; [subst; rewrite decide_False by done; simpl; by rewrite decide_True|].
    simpl. by rewrite decide_False.
Qed.
Lemma slot_set_ne k k' v l : k ≠ k' → slot k' (set_slot k v l) = slot k' l.
Proof.
  intros Hk. induction l as [|[k1 v1] l IH]; simpl.
  - case_decide; [done|]. simpl. by rewrite decide_False.
  - repeat case_decide; simplify_eq/=; rewrite ?decide_True, ?decide_False by done; try done.
Qed.

Lemma rawget_rawset_eq k v tb : v ≠ LNil → rawget (rawset k v tb) k = v.
Proof. intros Hv. unfold rawget. simpl. by rewrite slot_set_eq. Qed.
Lemma rawget_rawset_ne k k' v tb : k ≠ k' → rawget (rawset k v tb) k' = rawget tb k'.
Proof. intros Hk. unfold rawget. simpl. by rewrite slot_set_ne. Qed.

(** A new key goes to the end. *)
Lemma set_slot_new k v l : v ≠ LNil → k ∉ l.*1 → set_slot k v l = l ++ [(k, v)].
Proof.
  intros Hv. induction l as [|[k' v'] l IH]; simpl; intros Hk.
  - by rewrite decide_False.
  - rewrite decide_False by set_solver. f_equal. apply IH. set_solver.
Qed.

Lemma empty_table_wf : table_wf empty_table.
Proof. split; [constructor|]. split; [constructor|]. simpl. lia. Qed.

Lemma rawset_new_wf k v tb :
  table_wf tb → k ≠ LNil → v ≠ LNil → k ∉ (slots tb).*1 →
  (length (slots tb) + 1 < 2 ^ 53)%Z →
  table_wf (rawset k v tb) ∧ slots (rawset k v tb) = slots tb ++ [(k, v)].
Proof.
  intros (Hnd & Hf & Hl) Hk Hv Hin Hlen. unfold rawset. simpl.
  rewrite set_slot_new by done. split; [|done]. unfold table_wf. simpl. split_and!.
  - rewrite fmap_app. simpl. apply NoDup_app. split_and!; [done|set_solver|].
    apply NoDup_singleton.
  - apply Forall_app. split; [done|]. by repeat constructor.
  - rewrite length_app. simpl. lia.
Qed.

(** An assignment keeps a table well formed. *)
Lemma set_slot_keys k v l :
  v ≠ LNil → (set_slot k v l).*1 = if decide (k ∈ l.*1) then l.*1 else l.*1 ++ [k].
Proof.
  intros Hv. destruct (decide (k ∈ l.*1)) as [Hk|Hk].
  - induction l as [|[k' v'] l IH]; [set_solver|]. cbn [set_slot].
    case_decide; [subst; by rewrite decide_False|]. rewrite !fmap_cons. f_equal. apply IH.
    set_solver.
  - rewrite set_slot_new by done. by rewrite fmap_app.
Qed.

Lemma set_slot_elem k v l s : s ∈ set_slot k v l → s = (k, v) ∨ s ∈ l.
Proof.
  induction l as [|[k' v'] l IH]; simpl; [case_decide; set_solver|].
  repeat case_decide; set_solver.
Qed.

Lemma rawset_wf k v tb :
  table_wf tb → k ≠ LNil → v ≠ LNil → (length (slots tb) + 1 < 2 ^ 53)%Z →
  table_wf (rawset k v tb).
Proof.
  intros (Hnd & Hf & Hl) Hk Hv Hlen.
  assert (NoDup (set_slot k v (slots tb)).*1 ∧ length (set_slot k v (slots tb)).*1 ≤ length (slots tb) + 1)
    as [Hnd' Hl'].
  { rewrite set_slot_keys by done. case_decide; [rewrite length_fmap; split; [done|lia]|].
    rewrite length_app, length_fmap. simpl. split; [|lia].
    apply NoDup_app. split_and!; [done|set_solver|apply NoDup_singleton]. }
  rewrite length_fmap in Hl'. split_and!; simpl; [done| |lia].
  rewrite Forall_forall in *. intros s Hs. apply set_slot_elem in Hs as [->|Hs]; [done|by apply Hf].
Qed.

Lemma after_split k v l1 l2 : k ∉ l1.*1 → after k (l1 ++ (k, v) :: l2) = head l2.
Proof.
  induction l1 as [|[k' v'] l1 IH]; simpl; intros Hk.
  - by rewrite decide_True.
  - rewrite decide_False by set_solver. apply IH. set_solver.
Qed.

(** The key [lua_next] is at, and what is left after it. *)
Definition at_cursor (tb : table) (k : lua_value) (rest : list (lua_value * lua_value)) : Prop :=
  (k = LNil ∧ slots tb = rest) ∨
  (k ≠ LNil ∧ ∃ l v, slots tb = l ++ (k, v) :: rest).

Lemma next_at_cursor tb k rest :
  table_wf tb → at_cursor tb k rest → lua_next tb k = head rest.
Proof.
  intros (Hnd & _) [[-> <-]|(Hk & l & v & Hs)]; unfold lua_next.
  - by rewrite decide_True.
  - rewrite decide_False by done. rewrite Hs. apply after_split.
    rewrite Hs, fmap_app in Hnd. simpl in Hnd.
    apply NoDup_app in Hnd as (_ & Hnd & _). intros Hin. apply (Hnd _ Hin). set_solver.
Qed.

Lemma at_cursor_step tb k k' v rest :
  table_wf tb → at_cursor tb k ((k', v) :: rest) → at_cursor tb k' rest.
Proof.
  intros (_ & Hf & _) Hc. right. destruct Hc as [[-> Hs]|(Hk & l & w & Hs)].
  - rewrite Hs, Forall_cons in Hf. split; [naive_solver|]. by exists [], v.
  - rewrite Hs in Hf. apply Forall_app in Hf as [_ Hf].
    rewrite !Forall_cons in Hf. split; [naive_solver|].
    exists (l ++ [(k, w)]), v. by rewrite <- app_assoc.
Qed.

(** ** Heaps that grow *)

(** [h'] has what [h] has, but for the table [t]. *)
Definition grown (t : loc) (h h' : lua_heap) : Prop :=
  next_loc h ≤ next_loc h' ∧
  ∀ x, x < next_loc h →
    udata h' !! x = udata h !! x ∧ (x ≠ t → tables h' !! x = tables h !! x).

Lemma grown_refl t h : grown t h h.
Proof. by split. Qed.
Lemma grown_trans t h1 h2 h3 : grown t h1 h2 → grown t h2 h3 → grown t h1 h3.
Proof.
  intros [Hl1 H1] [Hl2 H2]. split; [lia|]. intros x Hx.
  destruct (H1 x Hx) as [Hu1 Ht1], (H2 x ltac:(lia)) as [Hu2 Ht2].
  split; [congruence|]. intros Hne. rewrite Ht2, Ht1 by done. done.
Qed.

Lemma grown_update t f h : grown t h (update_table t f h).
Proof. split; [done|]. intros x _. split; [done|]. intros. by apply lookup_alter_ne. Qed.

Lemma new_userdata_wf u h : heap_wf h → heap_wf (new_userdata u h).1.
Proof.
  intros [Ht Hu]. split; simpl.
  - eapply map_Forall_impl; [done|]. intros x tb [? ?]. split; [lia|done].
  - apply map_Forall_insert_2; [lia|]. eapply map_Forall_impl; [done|]. simpl. lia.
Qed.
Lemma new_table_wf h : heap_wf h → heap_wf (new_table h).1.
Proof.
  intros [Ht Hu]. split; simpl.
  - apply map_Forall_insert_2; [split; [lia|apply empty_table_wf]|].
    eapply map_Forall_impl; [done|]. intros x tb [? ?]. split; [lia|done].
  - eapply map_Forall_impl; [done|]. simpl. lia.
Qed.
Lemma fresh_table h : heap_wf h → tables h !! next_loc h = None.
Proof.
  intros [Ht _]. destruct (tables h !! next_loc h) eqn:E; [|done].
  destruct (Ht _ _ E). lia.
Qed.
Lemma update_table_wf t tb f h :
  heap_wf h → tables h !! t = Some tb → table_wf (f tb) → heap_wf (update_table t f h).
Proof.
  intros [Ht Hu] Htb Hf. split; [|done]. simpl. intros x tb'.
  destruct (decide (x = t)) as [->|Hne].
  - rewrite lookup_alter_eq, Htb. intros [= <-]. split; [apply (Ht _ _ Htb)|done].
  - rewrite lookup_alter_ne by done. apply Ht.
Qed.

(** ** Tables inside of tables *)

(** A table that is in a slot of another. *)
Definition child (h : lua_heap) (t t' : loc) : Prop :=
  ∃ tb k, tables h !! t = Some tb ∧ (k, LTable t') ∈ slots tb.

Lemma acc_not_inside h t : Acc (flip (child h)) t → ¬ tc (child h) t t.
Proof.
  assert (∀ x y, Acc (flip (child h)) x → tc (child h) x y → Acc (flip (child h)) y) as Hdown.
  { intros x y Hx Htc. induction Htc as [x y Hc|x y z Hc _ IH]; [by apply Hx|by apply IH, Hx]. }
  induction 1 as [x Hx IH]. intros Htc. inversion Htc as [? y Hc|? y z Hc Hr]; subst.
  - by apply (IH x); [|apply tc_once].
  - apply (IH y Hc). by eapply tc_r.
Qed.

Section indices.
Context `{LuaApi}.

Lemma pushinteger_inj i j :
  (- 2 ^ 53 ≤ i ≤ 2 ^ 53)%Z → (- 2 ^ 53 ≤ j ≤ 2 ^ 53)%Z →
  lua_pushinteger i = lua_pushinteger j → i = j.
Proof.
  intros Hi Hj Heq. rewrite <- (lua_pushinteger_exact i), <- (lua_pushinteger_exact j) by done.
  by rewrite Heq.
Qed.

(** The keys [1 .. n]. *)
Definition index_keys (n : nat) : list lua_value :=
  (λ i, LNumber (lua_pushinteger (Z.of_nat (S i)))) <$> seq 0 n.

Lemma index_keys_NoDup (n : nat) : (n ≤ 2 ^ 53)%Z → NoDup (index_keys n).
Proof.
  intros Hn. unfold index_keys. apply NoDup_fmap_2_strong; [|apply NoDup_ListNoDup, seq_NoDup].
  intros i j Hi%elem_of_seq Hj%elem_of_seq Heq. simplify_eq.
  apply pushinteger_inj in Heq; lia.
Qed.

(** A table that has the keys [1 .. n] has at least [n] slots. *)
Lemma index_keys_fit tb (n : nat) :
  table_wf tb → (n ≤ 2 ^ 53)%Z →
  (∀ i, i < n → rawgeti tb (S i) ≠ LNil) → n ≤ length (slots tb).
Proof.
  intros Hwf Hn Hi. rewrite <- (length_fmap fst (slots tb)).
  replace n with (length (index_keys n)) by (unfold index_keys; by rewrite length_fmap, length_seq).
  apply submseteq_length, NoDup_submseteq; [by apply index_keys_NoDup|].
  intros k (i & -> & Hin%elem_of_seq)%list_elem_of_fmap.
  destruct (decide (LNumber (lua_pushinteger (Z.of_nat (S i))) ∈ (slots tb).*1)) as [|Hno];
    [done|].
  exfalso. apply (Hi i); [lia|]. unfold rawgeti. by apply rawget_nil.
Qed.

Lemma length_index_keys n : length (index_keys n) = n.
Proof. unfold index_keys. by rewrite length_fmap, length_seq. Qed.
Lemma index_keys_length tb n : (slots tb).*1 = index_keys n → length (slots tb) = n.
Proof. intros Hk. by rewrite <- (length_fmap fst), Hk, length_index_keys. Qed.
Lemma index_keys_new (n : nat) :
  (n + 1 < 2 ^ 53)%Z → LNumber (lua_pushinteger (Z.of_nat (S n))) ∉ index_keys n.
Proof.
  intros Hn (i & Hk & Hi%elem_of_seq)%list_elem_of_fmap. simplify_eq.
  apply pushinteger_inj in Hk; lia.
Qed.

(** An array of [n] elements gets the next one. *)
Lemma rawseti_append tb (n : nat) v :
  table_wf tb → (slots tb).*1 = index_keys n → v ≠ LNil → (n + 1 < 2 ^ 53)%Z →
  let tb' := rawseti (Z.of_nat (S n)) v tb in
  table_wf tb' ∧ (slots tb').*1 = index_keys (S n) ∧ rawgeti tb' (Z.of_nat (S n)) = v ∧
  ∀ i, i < n → rawgeti tb' (Z.of_nat (S i)) = rawgeti tb (Z.of_nat (S i)).
Proof.
  intros Hwf Hk Hv Hn tb'. pose proof (index_keys_new n Hn) as Hnew. rewrite <- Hk in Hnew.
  split_and!.
  - apply rawset_wf; [done..|]. by rewrite (index_keys_length _ _ Hk).
  - simpl. rewrite set_slot_new, fmap_app, Hk by done. unfold index_keys.
    by rewrite (seq_S n), fmap_app.
  - by apply rawget_rawset_eq.
  - intros i Hi. apply rawget_rawset_ne. intros [= Heq]. apply pushinteger_inj in Heq; lia.
Qed.
Lemma rawgeti_in_slots tb i v : table_wf tb → rawgeti tb i = v → v ≠ LNil →
  (LNumber (lua_pushinteger i), v) ∈ slots tb.
Proof. intros Hwf Hr Hv. by apply rawget_elem_of. Qed.

(** The slots of an array are its elements. *)
Lemma array_slots tb k v :
  table_wf tb → (∀ i, i < length (slots tb) → rawgeti tb (S i) ≠ LNil) →
  (k, v) ∈ slots tb →
  ∃ i, i < length (slots tb) ∧ k = LNumber (lua_pushinteger (S i)) ∧ rawgeti tb (S i) = v.
Proof.
  intros Hwf Hi Hin. destruct (Hwf) as (Hnd & Hf & Hl).
  assert (index_keys (length (slots tb)) ≡ₚ (slots tb).*1) as Hp.
  { apply submseteq_length_Permutation.
    - apply NoDup_submseteq; [apply index_keys_NoDup; lia|].
      intros k' (i & -> & Hi'%elem_of_seq)%list_elem_of_fmap.
      destruct (decide (LNumber (lua_pushinteger (Z.of_nat (S i))) ∈ (slots tb).*1)) as [|Hno];
        [done|]. exfalso. apply (Hi i); [lia|]. by apply rawget_nil.
    - unfold index_keys. by rewrite !length_fmap, length_seq. }
  assert (k ∈ index_keys (length (slots tb))) as Hk.
  { rewrite Hp. apply list_elem_of_fmap. by exists (k, v). }
  apply list_elem_of_fmap in Hk as (i & -> & Hi'%elem_of_seq). exists i. split_and!; [lia|done|].
  apply rawget_elem_of; [done| |done]. rewrite Forall_forall in Hf. by destruct (Hf _ Hin).
Qed.


Lemma elements_plain tb :
  table_wf tb → (∀ i, i < length (slots tb) → rawgeti tb (S i) ≠ LNil) →
  ipairs tb = (λ i, rawgeti tb (Z.of_nat (S i))) <$> seq 0 (length (slots tb)).
Proof.
  intros Hwf Hi. unfold ipairs.
  assert (rawgeti tb (S (length (slots tb))) = LNil) as Hend.
  { destruct (decide (rawgeti tb (S (length (slots tb))) = LNil)) as [|Hne]; [done|].
    exfalso. destruct (Hwf) as (_ & _ & Hl).
    assert (S (length (slots tb)) ≤ length (slots tb)); [|lia].
    apply index_keys_fit; [done|lia|]. intros i Hlt.
    destruct (decide (i = length (slots tb))) as [->|]; [done|apply Hi; lia]. }
  assert (∀ n i, n + i = length (slots tb) →
    elements_from tb (S n) i = (λ i, rawgeti tb (Z.of_nat (S i))) <$> seq i n) as Hgo.
  { induction n as [|n IH]; intros i Hn; cbn [elements_from seq fmap list_fmap].
    - simpl in Hn. subst. by rewrite decide_True.
    - rewrite decide_False by (apply Hi; lia). f_equal. apply IH. lia. }
  by apply Hgo; lia.
Qed.

Lemma elements_in_slots tb v : v ∈ ipairs tb → ∃ k, (k, v) ∈ slots tb.
Proof.
  unfold ipairs. generalize 0. induction (S (length (slots tb))) as [|n IH]; intros i; simpl; [set_solver|].
  case_decide as Hd; [set_solver|]. intros [->|Hin]%elem_of_cons; [|by eapply IH].
  unfold rawgeti, rawget in *. destruct (slot _ (slots tb)) eqn:E; [|done].
  eexists. by apply slot_elem_of.
Qed.
End indices.

(** A concrete length: the first border. *)
Module FirstBorder.
Section border.
Context `{LuaApi}.

Fixpoint count (tb : table) (fuel i : nat) : nat :=
  match fuel with
  | 0 => i
  | S fuel => if decide (rawgeti tb (S i) = LNil) then i else count tb fuel (S i)
  end.

Lemma count_spec tb fuel i :
  (∀ j, j < i → rawgeti tb (S j) ≠ LNil) →
  let n := count tb fuel i in
  (∀ j, j < n → rawgeti tb (S j) ≠ LNil) ∧ (rawgeti tb (S n) = LNil ∨ n = i + fuel).
Proof.
  revert i. induction fuel as [|fuel IH]; intros i Hi; simpl.
  - split; [done|right; lia].
  - case_decide as Hd; [by auto|].
    destruct (IH (S i)) as [H1 H2].
    { intros j Hj. destruct (decide (j = i)) as [->|]; [done|apply Hi; lia]. }
    split; [done|]. destruct H2; [by left|right; lia].
Qed.

Definition objlen (tb : table) : nat := count tb (S (length (slots tb))) 0.

Lemma objlen_border tb :
  table_wf tb →
  (∀ j, j < objlen tb → rawgeti tb (S j) ≠ LNil) ∧ rawgeti tb (S (objlen tb)) = LNil.
Proof.
  intros Hwf. unfold objlen.
  destruct (count_spec tb (S (length (slots tb))) 0) as [H1 H2]; [lia|].
  split; [done|]. destruct H2 as [|H2]; [done|]. exfalso.
  rewrite H2 in H1. destruct (Hwf) as (_ & _ & Hl).
  assert (S (length (slots tb)) ≤ length (slots tb)); [|lia].
  apply index_keys_fit; [done|lia|]. intros i Hi. apply H1. lia.
Qed.

#[export] Instance lua_tables : LuaTables.
Proof.
  refine {| LuaTable.objlen := objlen |}.
  - intros tb Hwf Hn. destruct (objlen_border tb Hwf) as [H1 _].
    specialize (H1 (pred (objlen tb))). replace (S (pred (objlen tb))) with (objlen tb) in H1 by lia.
    apply H1. lia.
  - intros tb Hwf. by apply objlen_border.
Defined.
End border.
End FirstBorder.
