(* ===== verification/ActorValue.v ===== *)
(** The values actors send each other: [inbox_t::value_type] of
    [src/include/emilua/core.hpp], the copy [chan_send] makes of a Lua value
    and the copy [deserializer_closure] makes of the message in the VM that
    receives it ([src/src/actor.ypp]).

    Both walk a tree with explicit stacks; one iteration of their loops is
    [send_step] and [receive_step].  In [chan_send] a reference of
    [dom_stack] leads to a container inside of the one below it: here a
    container is on the stack alone, the one below holds the placeholder it
    was emplaced in, and closing it stores it there. *)
From S2P Require Import Prelude Errors Lua LuaTable.

(** * Values *)

(** The alternatives of the variant.  An object is a [std::map], kept in the
    order of its keys. *)
Inductive value : Set :=
| VBool (b : bool)
| VNumber (n : lua_Number)
| VString (s : bytes)
| VDescriptor (fd : Z)
| VIpcAddress (fd : Z)
| VObject (o : list (bytes * value))
| VArray (a : list value)
| VAddress (vm : loc).

(** [std::string::operator<]: octets are compared as unsigned. *)
Fixpoint string_lt (a b : bytes) : bool :=
  match a, b with
  | _, [] => false
  | [], _ :: _ => true
  | x :: a, y :: b => bool_decide (x < y)%Z || bool_decide (x = y) && string_lt a b
  end.

(** [map::emplace], [it->second = v], [map::erase]. *)
Fixpoint emplace (k : bytes) (v : value) (o : list (bytes * value)) : list (bytes * value) :=
  match o with
  | [] => [(k, v)]
  | (k', v') :: o' =>
      if decide (k = k') then o
      else if string_lt k k' then (k, v) :: o else (k', v') :: emplace k v o'
  end.
Fixpoint assign (k : bytes) (v : value) (o : list (bytes * value)) : list (bytes * value) :=
  match o with
  | [] => []
  | (k', v') :: o => if decide (k = k') then (k, v) :: o else (k', v') :: assign k v o
  end.
Fixpoint erase (k : bytes) (o : list (bytes * value)) : list (bytes * value) :=
  match o with
  | [] => []
  | (k', v') :: o => if decide (k = k') then o else (k', v') :: erase k o
  end.

(** [array_key_max] of both functions: [lua_rawgeti] takes an [int]. *)
Definition array_key_max : Z := 2 ^ 31 - 1.

(** * File descriptors *)

(** The open descriptors of the process, by the file they refer to. *)
Abbreviation fdtable := (gmap Z loc) (only parsing).

(** [dup]: a descriptor that was not open, or an [errno]. *)
Class Dup := {
  dup : fdtable → Z → Z + Z;
  dup_new : ∀ files fd newfd,
    dup files fd = inr newfd → files !! newfd = None ∧ is_Some (files !! fd);
}.

(** The descriptors a value owns: those of its [file_descriptor_box]es. *)
Fixpoint descriptors (v : value) : list Z :=
  match v with
  | VDescriptor fd => [fd]
  | VObject o => concat (map (λ e, descriptors e.2) o)
  | VArray a => concat (map descriptors a)
  | _ => []
  end.

(** [~file_descriptor_box] of each. *)
Definition close_all (fds : list Z) (files : fdtable) : fdtable := foldr delete files fds.

(** * Sending *)
Section send.
Context `{LuaTables} `{Dup} (self : loc) (h : lua_heap).

(** What [chan_send] makes of a value in a table: the [switch] on its type.
    A file descriptor is duplicated. *)
Inductive item : Type :=
| Leaf (v : value) (files : fdtable)
| Ignore
| Nested (t : loc) (tb : table)
| Fails (ec : error_code).

Definition dup_item (files : fdtable) (fd : Z) : item :=
  match dup files fd, files !! fd with
  | inr newfd, Some file => Leaf (VDescriptor newfd) (<[newfd := file]> files)
  | inr _, None => Ignore                        (* [dup] does not succeed *)
  | inl errno, _ => Fails (System_code errno)
  end.

Definition make_item (v : lua_value) (files : fdtable) : item :=
  match v with
  | LNumber n => Leaf (VNumber n) files
  | LBoolean b => Leaf (VBool b) files
  | LString s => Leaf (VString s) files
  | LTable t =>
      match tables h !! t with
      | Some tb => if metatable tb is Some _ then Ignore else Nested t tb
      | None => Ignore
      end
  | LUserdata u =>
      match udata h !! u with
      | Some (UAddress vm) => Leaf (VAddress vm) files
      | Some UInbox => Leaf (VAddress self) files
      | Some (UFileDescriptor (Some fd)) => dup_item files fd
      | _ => Ignore
      end
  | LNil | LFunction _ | LThread _ | LLightuserdata _ => Ignore
  end.

(** [dom_reference], with what its container holds so far. *)
Inductive dom_node : Type :=
| DArray (a : list value)
| DObject (o : list (bytes * value)).
Definition is_array (d : dom_node) : bool := if d is DArray _ then true else false.
Definition to_value (d : dom_node) : value :=
  match d with DArray a => VArray a | DObject o => VObject o end.

(** A work item of the iterators stack: [NODE_IDX] and [ITER_IDX]. *)
Record work_item : Type := Item { node : loc; iter : lua_value }.

(** What the C++ stack and the Lua stack hold between two iterations; the
    stacks have their top first.  The key is on the Lua stack only while an
    object is iterated. *)
Record send_state : Type := Sending {
  dom_stack : list dom_node;
  iterators : list work_item;
  visited : gset loc;
  cur_table : loc;
  cur_key : lua_value;
  current_array_idx : Z;
  files : fdtable;
}.

Inductive send_result : Type :=
| Sent (m : value) (files : fdtable)
| Failed (ec : error_code) (files : fdtable).

(** An error unwinds the message, whose descriptors are closed. *)
Definition fail (ec : error_code) (s : send_state) : send_state + send_result :=
  inr (Failed ec (close_all (concat (map (λ d, descriptors (to_value d)) (dom_stack s))) (files s))).

(** [cur_value->emplace<..>(..)]: the last element of an array, or what the
    key of an object leads to. *)
Definition store (k : lua_value) (v : value) (d : dom_node) : dom_node :=
  match d, k with
  | DArray a, _ => DArray (take (pred (length a)) a ++ [v])
  | DObject o, LString k => DObject (assign k v o)
  | DObject o, _ => d
  end.
(** [pop_back] and [erase]. *)
Definition discard (k : lua_value) (d : dom_node) : dom_node :=
  match d, k with
  | DArray a, _ => DArray (take (pred (length a)) a)
  | DObject o, LString k => DObject (erase k o)
  | DObject o, _ => d
  end.

(** The current node is complete; [update_lua_ctx_on_level_popped]. *)
Definition close_node (s : send_state) : send_state + send_result :=
  match dom_stack s, iterators s with
  | d :: p :: dom, _ :: Item n it :: iters =>
      inl (Sending (store it (to_value d) p :: dom) (Item n it :: iters)
             (visited s ∖ {[cur_table s]}) n it
             (if is_array p then (if it is LNumber i then lua_tointeger i else 0)
              else current_array_idx s)%Z
             (files s))
  | [d], _ => inr (Sent (to_value d) (files s))
  | _, _ => inr (Failed Core.channel_closed (files s))       (* not reached *)
  end.

Definition with_node (d : dom_node) (key : lua_value) (idx : Z) (files : fdtable)
    (s : send_state) : send_state :=
  Sending (d :: tail (dom_stack s)) (iterators s) (visited s) (cur_table s) key idx files.

(** A container for a table that is entered, and its iterator. *)
Definition open_node (t : loc) (tb : table) (s : send_state) : send_state :=
  Sending ((if decide (0 < objlen tb) then DArray [] else DObject []) :: dom_stack s)
    (Item t LNil :: iterators s) (visited s) t LNil
    (if decide (0 < objlen tb) then 0%Z else current_array_idx s) (files s).

(** The value [v] at [key], for which [d] holds a placeholder. *)
Definition handle_item (d : dom_node) (key : lua_value) (idx : Z) (v : lua_value)
    (s : send_state) : send_state + send_result :=
  match make_item v (files s) with
  | Leaf m files => inl (with_node (store key m d) key idx files s)
  | Ignore =>
      let s := with_node (discard key d) key idx (files s) s in
      if is_array d then close_node s else inl s
  | Fails ec => fail ec s
  | Nested t _ =>
      if decide (t ∈ visited s) then fail Json.cycle_exists s
      else
        if decide (Z.of_nat (length (dom_stack s)) = array_key_max)
        then fail Json.too_many_levels s
        else
          match tables h !! t, iterators s with
          | Some tb, Item n _ :: iters =>
              let iter := if is_array d then LNumber (lua_pushinteger idx) else key in
              inl (open_node t tb
                     (Sending (d :: tail (dom_stack s)) (Item n iter :: iters)
                        ({[t]} ∪ visited s) (cur_table s) key idx (files s)))
          | _, _ => fail Core.channel_closed s               (* not reached *)
          end
  end.

(** One iteration of [while (dom_stack.size() > 0)]. *)
Definition send_step (s : send_state) : send_state + send_result :=
  match dom_stack s, tables h !! cur_table s with
  | DArray a :: _, Some tb =>
      if decide (current_array_idx s = array_key_max) then fail Json.array_too_long s
      else
        let idx := (current_array_idx s + 1)%Z in
        let v := rawgeti tb idx in
        if decide (v = LNil) then close_node (with_node (DArray a) LNil idx (files s) s)
        else handle_item (DArray (a ++ [VBool false])) LNil idx v s
  | DObject o :: _, Some tb =>
      match lua_next tb (cur_key s) with
      | None => close_node s
      | Some (LString k, v) =>
          handle_item (DObject (emplace k (VBool false) o)) (LString k)
            (current_array_idx s) v s
      | Some (k, _) => inl (with_node (DObject o) k (current_array_idx s) (files s) s)
      end
  | _, _ => inr (Failed Core.channel_closed (files s))       (* not reached *)
  end.

Fixpoint send_loop (fuel : nat) (s : send_state) : option send_result :=
  match fuel with
  | 0 => None
  | S fuel =>
      match send_step s with
      | inl s => send_loop fuel s
      | inr r => Some r
      end
  end.

(** The state before the loop, for the table [t] without a metatable. *)
Definition send_start (t : loc) (tb : table) (files : fdtable) : send_state :=
  open_node t tb (Sending [] [] {[t]} t LNil 0 files).

(** A message that is a userdata. *)
Definition make_userdata_message (u : loc) (files : fdtable) : send_result :=
  match udata h !! u with
  | Some (UAddress vm) => Sent (VAddress vm) files
  | Some UInbox => Sent (VAddress self) files
  | Some (UFileDescriptor None) => Failed device_or_resource_busy files
  | Some (UFileDescriptor (Some fd)) =>
      match dup_item files fd with
      | Leaf m files => Sent m files
      | Fails ec => Failed ec files
      | _ => Failed not_supported files                      (* not reached *)
      end
  | Some (UIpcChannel _) | Some UOther => Failed not_supported files
  | Some UPlain | None => Failed invalid_argument files
  end.

(** The [switch] on the message's type. *)
Definition make_message (fuel : nat) (v : lua_value) (files : fdtable) : option send_result :=
  match v with
  | LNil | LFunction _ | LThread _ | LLightuserdata _ =>
      Some (Failed invalid_argument files)
  | LNumber n => Some (Sent (VNumber n) files)
  | LBoolean b => Some (Sent (VBool b) files)
  | LString s => Some (Sent (VString s) files)
  | LTable t =>
      match tables h !! t with
      | Some tb =>
          if metatable tb is Some _ then Some (Failed invalid_argument files)
          else send_loop fuel (send_start t tb files)
      | None => Some (Failed invalid_argument files)
      end
  | LUserdata u => Some (make_userdata_message u files)
  end.

(** [chan_send]: what it raises, or the VM whose strand the message is posted
    to, with the interrupter set.  The sender may suspend when [can_suspend]
    is [None]; [lock] says whether the destination is alive. *)
Definition chan_send (fuel : nat) (can_suspend : option lua_error) (lock : loc → bool)
    (L : lua_args) (files : fdtable) : option (fdtable * (lua_error + loc * value)) :=
  match L with
  | chan :: v :: _ =>
      match chan with
      | LUserdata u =>
          match udata h !! u with
          | Some (UAddress dest) =>
              match can_suspend with
              | Some e => Some (files, inl e)
              | None =>
                  if lock dest then
                    (λ r, match r with
                          | Sent m files => (files, inr (dest, m))
                          | Failed ec files => (files, inl (ECode ec None))
                          end) <$> make_message fuel v files
                  else Some (files, inl (ECode Core.channel_closed None))
              end
          | _ => Some (files, inl (ECode invalid_argument (Some (Arg 1))))
          end
      | _ => Some (files, inl (ECode invalid_argument (Some (Arg 1))))
      end
  | _ => Some (files, inl (ECode invalid_argument None))
  end.
End send.

(** * Receiving *)
Section receive.
Context `{LuaApi}.

(** [object_range] and [array_range], with what is left of them. *)
Inductive range : Type :=
| ObjectRange (o : list (bytes * value))
| ArrayRange (idx : nat) (a : list value).

(** The heap, the stack of ranges, and the Lua stack: the tree stack and the
    current work item, its top. *)
Record receive_state : Type := Receiving {
  heap : lua_heap;
  path : list range;
  tree : list loc;
}.

(** [push_leaf_or_append_path_and_return_true_on_leaf]. *)
Definition push_leaf (v : value) (h : lua_heap) : (lua_heap * lua_value) + range :=
  let userdata u := let '(h, p) := new_userdata u h in inl (h, LUserdata p) in
  match v with
  | VBool b => inl (h, LBoolean b)
  | VNumber n => inl (h, LNumber n)
  | VString s => inl (h, LString s)
  | VAddress vm => userdata (UAddress vm)
  | VDescriptor fd => userdata (UFileDescriptor (Some fd))
  | VIpcAddress fd => userdata (UIpcChannel fd)
  | VObject o => inr (ObjectRange o)
  | VArray a => inr (ArrayRange 0 a)
  end.

(** The next element of a range: its key, its value, what is left. *)
Definition next_element (r : range) : option (lua_value * value * range) :=
  match r with
  | ObjectRange [] | ArrayRange _ [] => None
  | ObjectRange ((k, v) :: o) => Some (LString k, v, ObjectRange o)
  | ArrayRange idx (v :: a) =>
      Some (LNumber (lua_pushinteger (Z.of_nat idx + 1)), v, ArrayRange (S idx) a)
  end.

(** One iteration of [for (;;)]. *)
Definition receive_step (s : receive_state) : receive_state + (lua_heap * lua_value) :=
  match path s, tree s with
  | r :: path, t :: tree =>
      match next_element r with
      | None =>
          if path is [] then inr (heap s, LTable t)
          else inl (Receiving (heap s) path tree)
      | Some (k, v, r) =>
          match push_leaf v (heap s) with
          | inl (h, leaf) => inl (Receiving (update_table t (rawset k leaf) h) (r :: path) (t :: tree))
          | inr r' =>
              let '(h, t') := new_table (heap s) in
              inl (Receiving (update_table t (rawset k (LTable t')) h) (r' :: r :: path)
                     (t' :: t :: tree))
          end
      end
  | _, _ => inr (heap s, LNil)                               (* not reached *)
  end.

Fixpoint receive_loop (fuel : nat) (s : receive_state) : option (lua_heap * lua_value) :=
  match fuel with
  | 0 => None
  | S fuel =>
      match receive_step s with
      | inl s => receive_loop fuel s
      | inr r => Some r
      end
  end.

Definition deserializer_closure (fuel : nat) (v : value) (h : lua_heap) :
    option (lua_heap * lua_value) :=
  match push_leaf v h with
  | inl r => Some r
  | inr r => let '(h, t) := new_table h in receive_loop fuel (Receiving h [r] [t])
  end.
End receive.
