(* ===== verification/ActorValueSpec.v ===== *)
(** What sending a value does: the loop of [chan_send] always ends and copies
    the tree a value unfolds to, an error closes what it had duplicated, and
    what is received reads as what was sent. *)
From S2P Require Import Prelude Errors Lua LuaTable ActorValue.

(** * The copy, as a recursive function *)

Section copy.
Context `{LuaTables} `{Dup} (self : loc) (h : lua_heap).

(** A computation that may run out of fuel or fail. *)
Abbreviation copied A := (option (error_code + A)) (only parsing).
Section node.
(** The copy of a value in a table; [None] for one that is not sent. *)
Context (copy_item : lua_value → fdtable → copied (option value * fdtable)).

Fixpoint copy_elements (idx : Z) (vs : list lua_value) (files : fdtable) :
    copied (list value * fdtable) :=
  if decide (idx = array_key_max) then Some (inl (Json.array_too_long : error_code))
  else
    match vs with
    | [] => Some (inr ([], files))
    | v :: vs =>
        let* (m, files) := copy_item v files in
        match m with
        | None => Some (inr ([], files))
        | Some m =>
            let* (ms, files) := copy_elements (idx + 1) vs files in
            Some (inr (m :: ms, files))
        end
    end.

Fixpoint copy_fields (ss : list (lua_value * lua_value)) (o : list (bytes * value))
    (files : fdtable) : copied (list (bytes * value) * fdtable) :=
  match ss with
  | [] => Some (inr (o, files))
  | (LString k, v) :: ss =>
      let* (m, files) := copy_item v files in
      copy_fields ss (if m is Some m then emplace k m o else o) files
  | _ :: ss => copy_fields ss o files
  end.

Definition copy_node (tb : table) (files : fdtable) : copied (value * fdtable) :=
  if decide (0 < objlen tb) then
    let* (ms, files) := copy_elements 0 (ipairs tb) files in
    Some (inr (VArray ms, files))
  else
    let* (o, files) := copy_fields (slots tb) [] files in
    Some (inr (VObject o, files)).
End node.

(** The copy of a table inside of those of [path]. *)
Definition copy_item_with
    (copy : gset loc → table → fdtable → copied (value * fdtable)) (path : gset loc)
    (v : lua_value) (files : fdtable) : copied (option value * fdtable) :=
  match make_item self h v files with
  | Leaf m files => Some (inr (Some m, files))
  | Ignore => Some (inr (None, files))
  | Fails ec => Some (inl ec)
  | Nested t tb =>
      if decide (t ∈ path) then Some (inl (Json.cycle_exists : error_code))
      else if decide (Z.of_nat (size path) = array_key_max)
      then Some (inl (Json.too_many_levels : error_code))
      else
        let* (m, files) := copy ({[t]} ∪ path) tb files in
        Some (inr (Some m, files))
  end.

Fixpoint copy (fuel : nat) (path : gset loc) (tb : table) (files : fdtable) :
    copied (value * fdtable) :=
  match fuel with
  | 0 => None
  | S fuel => copy_node (copy_item_with (copy fuel) path) tb files
  end.
End copy.

(** * Maps *)

Lemma elem_of_emplace k v o x : x ∈ (emplace k v o).*1 ↔ x = k ∨ x ∈ o.*1.
Proof.
  induction o as [|[k' v'] o IH]; simpl; [set_solver|].
  case_decide; [subst; set_solver|]. case_match; set_solver.
Qed.

Lemma assign_emplace k v w o : k ∉ o.*1 → assign k v (emplace k w o) = emplace k v o.
Proof.
  induction o as [|[k' v'] o IH]; simpl; intros Hk; [by rewrite decide_True|].
  rewrite !decide_False by set_solver. case_match; simpl.
  - by rewrite decide_True.
  - rewrite decide_False by set_solver. f_equal. apply IH. set_solver.
Qed.

Lemma erase_emplace k w o : k ∉ o.*1 → erase k (emplace k w o) = o.
Proof.
  induction o as [|[k' v'] o IH]; simpl; intros Hk; [by rewrite decide_True|].
  rewrite !decide_False by set_solver. case_match; simpl.
  - by rewrite decide_True.
  - rewrite decide_False by set_solver. f_equal. apply IH. set_solver.
Qed.

Lemma emplace_Permutation k v o : k ∉ o.*1 → emplace k v o ≡ₚ (k, v) :: o.
Proof.
  induction o as [|[k' v'] o IH]; simpl; intros Hk; [done|].
  rewrite decide_False by set_solver. case_match; [done|].
  rewrite IH by set_solver. apply Permutation_swap.
Qed.

Lemma concat_Permutation {A} (l1 l2 : list (list A)) : l1 ≡ₚ l2 → concat l1 ≡ₚ concat l2.
Proof.
  induction 1; simpl; [done|by f_equiv| |by etrans].
  rewrite !(assoc_L (++)). by rewrite (comm (++) y x).
Qed.

Lemma descriptors_emplace k v o :
  k ∉ o.*1 → descriptors (VObject (emplace k v o)) ≡ₚ descriptors v ++ descriptors (VObject o).
Proof.
  intros Hk. simpl. rewrite (concat_Permutation _ _ (Permutation_map _ (emplace_Permutation k v o Hk))).
  done.
Qed.

Lemma descriptors_snoc a v :
  descriptors (VArray (a ++ [v])) = descriptors (VArray a) ++ descriptors v.
Proof. simpl. rewrite map_app, concat_app. simpl. by rewrite app_nil_r. Qed.

(** * Descriptors *)

Lemma lookup_close_all fds files x :
  close_all fds files !! x = if decide (x ∈ fds) then None else files !! x.
Proof.
  unfold close_all. induction fds as [|fd fds IH]; [done|]. cbn [foldr].
  destruct (decide (x = fd)) as [->|Hne].
  - rewrite lookup_delete_eq. by rewrite decide_True by set_solver.
  - rewrite lookup_delete_ne by done. rewrite IH.
    destruct (decide (x ∈ fds)); [by rewrite decide_True by set_solver|].
    by rewrite decide_False by set_solver.
Qed.

(** [fds] are open in [files], different, and were not in [before]; but for
    them the tables agree. *)
Definition opened (before : fdtable) (fds : list Z) (files : fdtable) : Prop :=
  NoDup fds ∧ (∀ fd, fd ∈ fds → is_Some (files !! fd) ∧ before !! fd = None) ∧
  close_all fds files = before.

#[local] Instance opened_proper before : Proper ((≡ₚ) ==> (=) ==> iff) (opened before).
Proof.
  assert (∀ l1 l2 files, l1 ≡ₚ l2 → opened before l1 files → opened before l2 files) as Hgo.
  { intros l1 l2 files Hp (Hnd & Hin & <-). split_and!.
    - by rewrite <- Hp.
    - intros fd Hfd. apply Hin. by rewrite Hp.
    - apply map_eq. intros x. rewrite !lookup_close_all.
      by rewrite (decide_ext _ _ _ _ (elem_of_Permutation_proper x _ _ Hp)). }
  intros l1 l2 Hp files ? <-. split; apply Hgo; [done|by symmetry].
Qed.

Lemma opened_nil files : opened files [] files.
Proof. split_and!; [constructor|set_solver|done]. Qed.

Lemma opened_subseteq before fds files : opened before fds files → before ⊆ files.
Proof.
  intros (_ & _ & <-). apply map_subseteq_spec. intros x f.
  rewrite lookup_close_all. by case_decide.
Qed.

Lemma opened_dup `{Dup} before fds files fd newfd file :
  opened before fds files → dup files fd = inr newfd →
  opened before (newfd :: fds) (<[newfd := file]> files).
Proof.
  intros Ho Hd. destruct (dup_new _ _ _ Hd) as [Hnew _].
  pose proof (opened_subseteq _ _ _ Ho) as Hsub. destruct Ho as (Hnd & Hin & Hcl).
  assert (newfd ∉ fds) as Hni.
  { intros Hi. destruct (Hin _ Hi) as [[f Hf] _]. congruence. }
  split_and!.
  - by constructor.
  - intros x [->|Hx]%elem_of_cons.
    + rewrite lookup_insert_eq. split; [done|].
      destruct (before !! newfd) eqn:E; [|done].
      pose proof (lookup_weaken _ _ _ _ E Hsub). congruence.
    + destruct (Hin _ Hx). rewrite lookup_insert_ne by (intros ->; done). done.
  - rewrite <- Hcl. apply map_eq. intros x. rewrite !lookup_close_all.
    destruct (decide (x = newfd)) as [->|Hne].
    + rewrite decide_True by set_solver. by rewrite decide_False.
    + rewrite lookup_insert_ne by done.
      destruct (decide (x ∈ fds)); [by rewrite decide_True by set_solver|].
      by rewrite decide_False by set_solver.
Qed.

Lemma make_item_opened `{LuaTables} `{Dup} self h v before fds files m files' :
  opened before fds files → make_item self h v files = Leaf m files' →
  opened before (descriptors m ++ fds) files'.
Proof.
  intros Ho Hm. unfold make_item, dup_item in Hm. case_hyps Hm; try done.
  by eapply opened_dup.
Qed.

(** * The copy is total and accounts for its descriptors *)

(** The keys of the slots that are left are not in the object yet. *)
Definition new_keys (ss : list (lua_value * lua_value)) (o : list (bytes * value)) : Prop :=
  NoDup ss.*1 ∧ ∀ k, LString k ∈ ss.*1 → k ∉ o.*1.

Lemma new_keys_tail s ss o : new_keys (s :: ss) o → new_keys ss o.
Proof. intros [Hnd Hk]. apply NoDup_cons in Hnd as [_ Hnd]. split; [done|set_solver]. Qed.
Lemma new_keys_emplace k v ss o m :
  new_keys ((LString k, v) :: ss) o → k ∉ o.*1 ∧ new_keys ss (emplace k m o).
Proof.
  intros [Hnd Hk]. apply NoDup_cons in Hnd as [Hni Hnd]. split; [set_solver|].
  split; [done|]. intros k' Hk'. rewrite elem_of_emplace. intros [->|Hin]; [done|].
  by apply (Hk k'); [set_solver|].
Qed.

Section facts.
Context `{LuaTables} `{Dup} (self : loc) (h : lua_heap).
#[local] Abbreviation copied A := (option (error_code + A)) (only parsing).

Section node.
Context (copy_item : lua_value → fdtable → copied (option value * fdtable)).

Lemma copy_node_total tb files :
  (∀ v files, is_Some (copy_item v files)) → is_Some (copy_node copy_item tb files).
Proof.
  intros Hi. unfold copy_node. case_decide; apply fbind_total; try (intros []; done).
  - generalize 0%Z. revert files. induction (ipairs tb) as [|v vs IH]; intros files idx; simpl.
    { by case_decide. }
    case_decide; [done|]. apply fbind_total; [done|]. intros [[m|] files']; [|done].
    apply fbind_total; [apply IH|]. by intros [].
  - generalize (@nil (bytes * value)). revert files.
    induction (slots tb) as [|[k v] ss IH]; intros files o; simpl; [done|].
    destruct k; try apply IH. apply fbind_total; [done|]. by intros [].
Qed.

Context (before : fdtable).
Definition item_opened : Prop := ∀ v files m files' fds,
  copy_item v files = Some (inr (m, files')) → opened before fds files →
  opened before (from_option descriptors [] m ++ fds) files'.
Context (Hitem : item_opened).

Lemma copy_elements_opened idx vs files ms files' fds :
  copy_elements copy_item idx vs files = Some (inr (ms, files')) → opened before fds files →
  opened before (descriptors (VArray ms) ++ fds) files'.
Proof using Hitem.
  revert idx files ms files' fds. induction vs as [|v vs IH]; intros idx files ms files' fds; simpl.
  { case_decide; [done|]. by intros [= <- <-]. }
  case_decide; [done|]. intros [[m files1] [Hm Hc]]%fbind_inr Ho.
  pose proof (Hitem _ _ _ _ _ Hm Ho) as Ho1.
  destruct m as [m|]; [|by simplify_eq].
  apply fbind_inr in Hc as [[ms1 files2] [Hms [= <- <-]]]. simpl.
  rewrite <- app_assoc, Permutation_app_swap_app. by eapply IH.
Qed.

Lemma copy_fields_opened ss o files o' files' fds :
  new_keys ss o →
  copy_fields copy_item ss o files = Some (inr (o', files')) →
  opened before (descriptors (VObject o) ++ fds) files →
  opened before (descriptors (VObject o') ++ fds) files'.
Proof using Hitem.
  revert o files. induction ss as [|[k v] ss IH]; intros o files Hk; simpl.
  { by intros [= <- <-]. }
  destruct k; try (apply IH; by eapply new_keys_tail).
  intros [[m files1] [Hm Hc]]%fbind_inr Ho. pose proof (Hitem _ _ _ _ _ Hm Ho) as Ho1.
  destruct m as [m|]; simpl in Ho1.
  - destruct (new_keys_emplace _ _ _ _ m Hk) as [Hn Hk'].
    eapply IH; [done|done|]. rewrite descriptors_emplace by done. by rewrite <- app_assoc.
  - eapply IH; [by eapply new_keys_tail|done|done].
Qed.

Lemma copy_node_opened tb files m files' fds :
  table_wf tb → copy_node copy_item tb files = Some (inr (m, files')) →
  opened before fds files → opened before (descriptors m ++ fds) files'.
Proof using Hitem.
  intros (Hnd & _) Hc Ho. unfold copy_node in Hc. case_decide.
  - apply fbind_inr in Hc as [[ms files1] [Hc [= <- <-]]]. by eapply copy_elements_opened.
  - apply fbind_inr in Hc as [[ms files1] [Hc [= <- <-]]].
    eapply copy_fields_opened; [|done|done]. split; [done|]. simpl. set_solver.
Qed.
End node.

Lemma copy_item_opened copy path before :
  (∀ path tb files m files' fds, table_wf tb → copy path tb files = Some (inr (m, files')) →
     opened before fds files → opened before (descriptors m ++ fds) files') →
  heap_wf h → item_opened (copy_item_with self h copy path) before.
Proof.
  intros Hcopy [Hwf _] v files m files' fds Hi Ho. unfold copy_item_with in Hi.
  destruct (make_item self h v files) as [m' files1| |t tb|ec] eqn:Em; try done.
  - simplify_eq. simpl. by eapply make_item_opened.
  - by simplify_eq.
  - repeat case_decide; try done. apply fbind_inr in Hi as [[m1 files1] [Hc [= <- <-]]].
    eapply Hcopy; [|done|done]. unfold make_item, dup_item in Em. case_hyps Em; try done.
    by apply (Hwf t).
Qed.

Lemma copy_opened fuel path tb files m files' before fds :
  heap_wf h → table_wf tb → copy self h fuel path tb files = Some (inr (m, files')) →
  opened before fds files → opened before (descriptors m ++ fds) files'.
Proof.
  intros Hh. revert path tb files m files' fds.
  induction fuel as [|fuel IH]; intros path tb files m files' fds Htb; [done|]. simpl.
  apply copy_node_opened; [|done]. apply copy_item_opened; [|done]. intros. by eapply IH.
Qed.

(** Tables that are not on the path yet are fuel enough. *)
Lemma copy_total fuel path tb files :
  size (dom (tables h) ∖ path) < fuel → is_Some (copy self h fuel path tb files).
Proof.
  revert path tb files. induction fuel as [|fuel IH]; intros path tb files Hf; [lia|]. simpl.
  apply copy_node_total. intros v files'. unfold copy_item_with.
  destruct (make_item self h v files') as [| |t tb'|] eqn:Em; try done.
  repeat case_decide; try done. apply fbind_total; [|by intros []].
  apply IH. assert (t ∈ dom (tables h) ∖ path) as Ht.
  { apply elem_of_difference. split; [|done]. unfold make_item, dup_item in Em.
    case_hyps Em; try done. by apply elem_of_dom. }
  assert (size (dom (tables h) ∖ ({[t]} ∪ path)) < size (dom (tables h) ∖ path)); [|lia].
  apply subset_size. set_solver.
Qed.
End facts.

(** * The loop computes the copy *)

Lemma store_snoc k m a v : store k m (DArray (a ++ [v])) = DArray (a ++ [m]).
Proof. simpl. rewrite length_app, Nat.add_1_r. cbn [pred]. by rewrite take_app_length. Qed.
Lemma discard_snoc k a v : discard k (DArray (a ++ [v])) = DArray a.
Proof. simpl. rewrite length_app, Nat.add_1_r. cbn [pred]. by rewrite take_app_length. Qed.

Lemma visited_back (t : loc) (path : gset loc) : t ∉ path → ({[t]} ∪ path) ∖ {[t]} = path.
Proof. intros Ht. apply set_eq. intros x. destruct (decide (x = t)); set_solver. Qed.

Section loop.
Context `{LuaTables} `{Dup} (self : loc) (h : lua_heap).
Context (before : fdtable) (R : send_result).
#[local] Notation send_step := (send_step self h).
#[local] Notation send_loop := (send_loop self h).
#[local] Notation open_descriptors s :=
  (concat (map (λ d, descriptors (to_value d)) (dom_stack s))).

(** The loop ends with [R]. *)
Definition leads (x : send_state + send_result) : Prop :=
  match x with
  | inl s => ∃ n, send_loop n s = Some R
  | inr r => r = R
  end.

Lemma leads_step s : leads (send_step s) → leads (inl s).
Proof.
  destruct (send_step s) as [s'|r] eqn:E; simpl.
  - intros [n Hn]. exists (S n). simpl. by rewrite E.
  - intros <-. exists 1. simpl. by rewrite E.
Qed.

Lemma fail_opened ec s fds :
  opened before fds (files s) → fds ≡ₚ open_descriptors s →
  fail ec s = inr (Failed ec before).
Proof. intros Ho Hp. rewrite Hp in Ho. destruct Ho as (_ & _ & <-). done. Qed.

(** What follows when the copy [m] of the table [t] is complete. *)
Definition resume (m : value) (t : loc) (files : fdtable) (s : send_state) :
    send_state + send_result :=
  match dom_stack s, iterators s with
  | [], _ => inr (Sent m files)
  | p :: dom, Item n it :: iters =>
      inl (Sending (store it m p :: dom) (Item n it :: iters) (visited s ∖ {[t]}) n it
             (if is_array p then (if it is LNumber i then lua_tointeger i else 0)
              else current_array_idx s)%Z files)
  | _, [] => inr (Failed Core.channel_closed files)
  end.

(** What a copy that ended with [r] leads to. *)
Definition ends (r : error_code + value * fdtable) (t : loc) (s : send_state) : Prop :=
  match r with
  | inl ec => R = Failed ec before
  | inr (m, files') =>
      ∀ idx, leads (resume m t files' (Sending (dom_stack s) (iterators s) (visited s)
                                         (cur_table s) (cur_key s) idx (files s)))
  end.

(** The loop at the table [t] inside of the containers of [s]. *)
Definition at_node (d : dom_node) (t : loc) (it key : lua_value) (idx : Z)
    (files : fdtable) (s : send_state) : send_state :=
  Sending (d :: dom_stack s) (Item t it :: iterators s) (visited s) t key idx files.

Lemma close_at_node d t it key idx files s :
  close_node (at_node d t it key idx files s) =
  resume (to_value d) t files (Sending (dom_stack s) (iterators s) (visited s)
                                 (cur_table s) (cur_key s) idx files).
Proof. unfold close_node, resume, at_node. simpl. by destruct (dom_stack s), (iterators s) as [|[]]. Qed.

(** The tables that contain the current one, and it, are visited. *)
Definition inside (path : gset loc) (t : loc) (s : send_state) : Prop :=
  visited s = path ∧ size path = S (length (dom_stack s)) ∧
  length (iterators s) = length (dom_stack s).

(** What is shown of tables that are copied with less fuel. *)
Definition simulated (copy : gset loc → table → fdtable → option (error_code + value * fdtable)) :
    Prop :=
  ∀ path t tb s r,
    tables h !! t = Some tb → inside path t s → opened before (open_descriptors s) (files s) →
    copy path tb (files s) = Some r → ends r t s → leads (inl (open_node t tb s)).

Section node.
Context (copy : gset loc → table → fdtable → option (error_code + value * fdtable)).
Context (Hcopy : simulated copy) (Hheap : heap_wf h).
Context (Hcopy_opened : ∀ path tb files m files' fds,
  table_wf tb → copy path tb files = Some (inr (m, files')) →
  opened before fds files → opened before (descriptors m ++ fds) files').
Context (path : gset loc) (t : loc) (tb : table) (s : send_state).
Context (Ht : tables h !! t = Some tb) (Hin : inside path t s).
#[local] Notation item := (copy_item_with self h copy path).

(** One value of the table: when its copy succeeds the loop goes on with it
    stored, or without it. *)
Lemma item_simulated d it key idx0 d' key' idx v files r :
  item v files = Some r →
  opened before (open_descriptors (at_node d t it key idx0 files s)) files →
  descriptors (to_value d') ≡ₚ descriptors (to_value d) →
  (is_array d' = true → (0 ≤ idx ≤ array_key_max)%Z) →
  match r with
  | inl ec => R = Failed ec before
  | inr (Some m, files1) =>
      ∀ it1 key1 idx1, (if is_array d' then idx1 = idx else key1 = key') →
      leads (inl (at_node (store key' m d') t it1 key1 idx1 files1 s))
  | inr (None, files1) =>
      leads (let s2 := at_node (discard key' d') t it key' idx files1 s in
             if is_array d' then close_node s2 else inl s2)
  end →
  leads (handle_item self h d' key' idx v (at_node d t it key idx0 files s)).
Proof using All.
  intros Hi Ho Hp Hidx Hr. destruct Hin as (<- & Hsz & Hlen).
  assert (∀ ec, fail ec (at_node d t it key idx0 files s) = inr (Failed ec before)) as Hfail.
  { intros ec. by apply fail_opened with (1 := Ho). }
  unfold handle_item, copy_item_with in *. rewrite !Hfail. simpl.
  destruct (make_item self h v files) as [m files1| |t' tb'|ec] eqn:Em; simplify_eq.
  - apply Hr. by destruct d'.
  - done.
  - rewrite Hsz in Hi. revert Hi.
    case_decide as Hpath; [by intros [= <-]|].
    case_decide as Hdepth; [by intros [= <-]|]. intros Hi.
    assert (tables h !! t' = Some tb') as Ht'.
    { unfold make_item, dup_item in Em. case_hyps Em; done. }
    rewrite Ht'. destruct (copy ({[t']} ∪ visited s) tb' files) as [r'|] eqn:Ec; [|done].
    eapply Hcopy; [done| | |exact Ec|].
    + split_and!; simpl; [done| |lia]. rewrite size_union by set_solver.
      rewrite size_singleton. lia.
    + simpl in *. by rewrite Hp.
    + destruct r' as [ec|[m files1]]; simplify_eq/=; [done|]. intros idx1. unfold resume. simpl.
      rewrite (visited_back t' (visited s)) by done.
      destruct d' as [a|o]; simpl in *; unfold at_node in Hr.
      * rewrite lua_pushinteger_exact by (unfold array_key_max in *; lia). by apply Hr.
      * by apply Hr.
  - rewrite Hfail. by symmetry.
Qed.

(** The elements of an array from the index [idx] on. *)
Lemma elements_simulated fuel ms it key (idx : nat) files r :
  idx = length ms → length (slots tb) < fuel + idx →
  opened before (open_descriptors (at_node (DArray ms) t it key idx files s)) files →
  copy_elements item idx (elements_from tb fuel idx) files = Some r →
  (idx ≤ array_key_max)%Z →
  ends (match r with
        | inl ec => inl ec
        | inr (ms', files') => inr (VArray (ms ++ ms'), files')
        end) t s →
  (∀ i, i < idx → rawgeti tb (S i) ≠ LNil) →
  leads (inl (at_node (DArray ms) t it key idx files s)).
Proof using All.
  revert ms it key idx files r. induction fuel as [|fuel IH];
    intros ms it key idx files r Hidx Hf Ho Hc Hmax Hr Hbelow.
  { destruct (proj1 Hheap _ _ Ht) as [_ Htb]. pose proof (index_keys_fit tb idx Htb) as Hfit.
    exfalso. destruct Htb as (_ & _ & Hl).
    assert (idx ≤ length (slots tb)); [|lia]. apply Hfit; [unfold array_key_max in *; lia|done]. }
  apply leads_step. unfold send_step. simpl. rewrite Ht. simpl in Hc.
  replace (Z.of_nat (S idx)) with (Z.of_nat idx + 1)%Z in Hc by lia.
  assert (∀ ec, fail ec (at_node (DArray ms) t it key idx files s) = inr (Failed ec before)) as Hfail.
  { intros ec. by apply fail_opened with (1 := Ho). }
  revert Hc. destruct (decide (rawgeti tb (Z.of_nat idx + 1) = LNil)) as [Hnil|Hsome]; simpl.
  { case_decide; intros [= <-]; [by rewrite Hfail|].
    change (close_node _) with (close_node (at_node (DArray ms) t it LNil (idx + 1) files s)).
    rewrite close_at_node. simpl in Hr. rewrite app_nil_r in Hr. apply Hr. }
  case_decide as Hlong; [intros [= <-]; by rewrite Hfail|].
  destruct (item (rawgeti tb (Z.of_nat idx + 1)) files) as [[ec|[m files1]]|] eqn:Ei; [| |done]; intros Hc.
  - eapply item_simulated; [exact Ei|done| |simpl; lia|by simplify_eq/=].
    simpl. by rewrite map_app, concat_app, app_nil_r.
  - eapply item_simulated; [exact Ei|done| |simpl; lia|].
    { simpl. by rewrite map_app, concat_app, app_nil_r. }
    simpl in Hc. rewrite discard_snoc. destruct m as [m|].
    + simpl is_array. intros it1 key1 idx1 ->. rewrite store_snoc. replace (idx + 1)%Z with (Z.of_nat (S idx)) in * by lia.
      destruct (copy_elements item (S idx) _ files1) as [r'|] eqn:Ec; [|done].
      assert (opened before (open_descriptors (at_node (DArray (ms ++ [m])) t it1 key1 (S idx)
        files1 s)) files1) as Ho1.
      { simpl. change (concat (map descriptors ?a)) with (descriptors (VArray a)).
        rewrite descriptors_snoc, <- app_assoc, Permutation_app_swap_app.
        exact (copy_item_opened self h copy path before Hcopy_opened Hheap _ _ _ _ _ Ei Ho). }
      eapply IH; [by rewrite length_app; simpl; lia|lia|done|exact Ec|lia| |].
      * destruct r' as [ec|[ms' files2]]; simplify_eq/=; [done|].
        by rewrite <- app_assoc.
      * intros i Hi. destruct (decide (i = idx)) as [->|]; [done|apply Hbelow; lia].
    + simpl is_array. cbv zeta match. rewrite close_at_node.
      simplify_eq/=. rewrite app_nil_r in Hr. apply Hr.
Qed.

(** The slots of an object from the key [key] on. *)
Lemma fields_simulated ss o it key idx files r :
  at_cursor tb key ss → new_keys ss o →
  opened before (open_descriptors (at_node (DObject o) t it key idx files s)) files →
  copy_fields item ss o files = Some r →
  ends (match r with
        | inl ec => inl ec
        | inr (o', files') => inr (VObject o', files')
        end) t s →
  leads (inl (at_node (DObject o) t it key idx files s)).
Proof using All.
  destruct (proj1 Hheap _ _ Ht) as [_ Htb]. revert o it key idx files.
  induction ss as [|[k v] ss IH]; intros o it key idx files Hcur Hnew Ho Hc Hr.
  all: apply leads_step; unfold send_step; simpl; rewrite Ht, (next_at_cursor _ _ _ Htb Hcur); simpl.
  { rewrite close_at_node. simplify_eq/=. apply Hr. }
  apply at_cursor_step in Hcur; [|done]. simpl in Hc.
  destruct k; try (by eapply IH; [|eapply new_keys_tail| | |]).
  destruct (item v files) as [[ec|[m files1]]|] eqn:Ei; [| |done].
  - eapply item_simulated; [exact Ei|done| |done|by simplify_eq/=].
    destruct (new_keys_emplace _ _ _ _ (VBool false) Hnew) as [Hk _].
    by apply (descriptors_emplace s0 (VBool false)).
  - destruct (new_keys_emplace _ _ _ _ (VBool false) Hnew) as [Hk _].
    eapply item_simulated; [exact Ei|done| |done|].
    { by apply (descriptors_emplace s0 (VBool false)). }
    pose proof (copy_item_opened self h copy path before Hcopy_opened Hheap _ _ _ _ _ Ei Ho) as Ho1.
    simpl in Hc, Ho1. destruct m as [m|]; simpl.
    + intros it1 key1 idx1 ->. rewrite assign_emplace by done.
      eapply IH; [done|by eapply new_keys_emplace| |exact Hc|done]. simpl.
      change (concat (map (λ e, descriptors e.2) ?a)) with (descriptors (VObject a)).
      rewrite descriptors_emplace by done. by rewrite <- app_assoc.
    + rewrite erase_emplace by done. by eapply IH; [|eapply new_keys_tail| | |].
Qed.

Lemma node_simulated r :
  opened before (open_descriptors s) (files s) → copy_node item tb (files s) = Some r →
  ends r t s → leads (inl (open_node t tb s)).
Proof using All.
  intros Ho Hc Hr. unfold copy_node in Hc. unfold open_node. revert Hc.
  case_decide; intros Hc.
  - destruct (copy_elements item 0 _ _) as [r'|] eqn:Ec; [|done].
    change (leads (inl (at_node (DArray []) t LNil LNil 0%nat (files s) s))).
    eapply elements_simulated; [done| |done|exact Ec|done| |lia]; [lia|].
    by destruct r' as [ec|[ms files1]]; simplify_eq/=.
  - destruct (copy_fields item _ _ _) as [r'|] eqn:Ec; [|done].
    change (leads (inl (at_node (DObject []) t LNil LNil (current_array_idx s) (files s) s))).
    eapply fields_simulated; [by left| |done|exact Ec|].
    + split; [apply (proj1 Hheap _ _ Ht)|]. simpl. set_solver.
    + by destruct r' as [ec|[ms files1]]; simplify_eq/=.
Qed.
End node.

Lemma copy_simulated fuel : heap_wf h → simulated (copy self h fuel).
Proof.
  intros Hh. induction fuel as [|fuel IH]; intros path t tb s r Ht Hin Ho Hc Hr; [done|].
  eapply node_simulated; try done.
  intros. by eapply copy_opened.
Qed.
End loop.
