(* ===== verification/ActorTransfer.v ===== *)
(** Values that travel between VMs: what a message says about the value it
    was made of and about the value it becomes, plain data, and that the copy
    of plain data is the data. *)
From S2P Require Import Prelude Errors Lua LuaTable ActorValue ActorValueSpec.

(** * Plain data

    Numbers, booleans, strings, addresses, open descriptors, and tables of
    plain data without metatables: arrays without holes, and objects. *)
Section plain.
Context `{LuaTables}.

Inductive plain (files : fdtable) (h : lua_heap) : lua_value → Prop :=
| plain_boolean b : plain files h (LBoolean b)
| plain_number n : plain files h (LNumber n)
| plain_string s : plain files h (LString s)
| plain_address u vm : udata h !! u = Some (UAddress vm) → plain files h (LUserdata u)
| plain_inbox u : udata h !! u = Some UInbox → plain files h (LUserdata u)
| plain_descriptor u fd :
    udata h !! u = Some (UFileDescriptor (Some fd)) → is_Some (files !! fd) →
    plain files h (LUserdata u)
| plain_array t tb :
    tables h !! t = Some tb → metatable tb = None → slots tb ≠ [] →
    (∀ i, i < length (slots tb) → rawgeti tb (S i) ≠ LNil) →
    (∀ i, i < length (slots tb) → plain files h (rawgeti tb (S i))) →
    plain files h (LTable t)
| plain_object t tb :
    tables h !! t = Some tb → metatable tb = None →
    (∀ k v, (k, v) ∈ slots tb → ∃ s, k = LString s) →
    (∀ k v, (k, v) ∈ slots tb → plain files h v) →
    plain files h (LTable t).

(** What a value is, read from the heap of a VM whose address is [self]: the
    objects it is made of are not older than [lo]. *)
Inductive reads (lo : loc) (self : loc) (files : fdtable) (h : lua_heap) :
    lua_value → value → Prop :=
| reads_boolean b : reads lo self files h (LBoolean b) (VBool b)
| reads_number n : reads lo self files h (LNumber n) (VNumber n)
| reads_string s : reads lo self files h (LString s) (VString s)
| reads_address u vm :
    lo ≤ u → udata h !! u = Some (UAddress vm) →
    reads lo self files h (LUserdata u) (VAddress vm)
| reads_inbox u :
    lo ≤ u → udata h !! u = Some UInbox → reads lo self files h (LUserdata u) (VAddress self)
| reads_descriptor u fd fd' f :
    lo ≤ u → udata h !! u = Some (UFileDescriptor (Some fd)) →
    files !! fd = Some f → files !! fd' = Some f →
    reads lo self files h (LUserdata u) (VDescriptor fd')
| reads_ipc_address u fd :
    lo ≤ u → udata h !! u = Some (UIpcChannel fd) →
    reads lo self files h (LUserdata u) (VIpcAddress fd)
| reads_array t tb a :
    lo ≤ t → tables h !! t = Some tb → metatable tb = None →
    length (slots tb) = length a →
    (∀ i m, a !! i = Some m → reads lo self files h (rawgeti tb (S i)) m) →
    reads lo self files h (LTable t) (VArray a)
| reads_object t tb o :
    lo ≤ t → tables h !! t = Some tb → metatable tb = None →
    length (slots tb) = length o → NoDup o.*1 →
    (∀ k m, (k, m) ∈ o → reads lo self files h (rawget tb (LString k)) m) →
    reads lo self files h (LTable t) (VObject o).

(** A message as the copy makes it. *)
Inductive value_wf : value → Prop :=
| wf_leaf v :
    match v with VArray _ | VObject _ => False | _ => True end → value_wf v
| wf_object o :
    NoDup o.*1 → (length o < 2 ^ 53)%Z → (∀ k m, (k, m) ∈ o → value_wf m) →
    value_wf (VObject o)
| wf_array a :
    (length a < 2 ^ 53)%Z → (∀ i m, a !! i = Some m → value_wf m) → value_wf (VArray a).

Lemma reads_mono lo lo' self files files' h v m :
  lo' ≤ lo → files ⊆ files' → reads lo self files h v m → reads lo' self files' h v m.
Proof.
  intros Hlo Hf. induction 1.
  1-3: constructor.
  - eapply reads_address; [lia|done].
  - eapply reads_inbox; [lia|done].
  - eapply reads_descriptor; eauto using lookup_weaken. lia.
  - eapply reads_ipc_address; [lia|done].
  - eapply reads_array; eauto. lia.
  - eapply reads_object; eauto. lia.
Qed.

(** Later changes to other objects do not matter. *)
Lemma reads_frame lo self files h h' v m :
  heap_wf h →
  (∀ x, lo ≤ x → x < next_loc h → tables h' !! x = tables h !! x ∧ udata h' !! x = udata h !! x) →
  reads lo self files h v m → reads lo self files h' v m.
Proof.
  intros [Ht Hu] Hsame. induction 1 as [| | |u ? ? Hl|u ? Hl|u ? ? ? ? Hl|u ? ? Hl|t ? ? ? Hl|t ? ? ? Hl].
  1-3: constructor.
  1-4: destruct (Hsame u) as [_ Hs]; [done|by eapply Hu|]; rewrite <- Hs in Hl.
  5-6: destruct (Hsame t) as [Hs _]; [done|by apply (Ht t _ Hl)|]; rewrite <- Hs in Hl.
  - by eapply reads_address.
  - by eapply reads_inbox.
  - by eapply reads_descriptor.
  - by eapply reads_ipc_address.
  - by eapply reads_array.
  - by eapply reads_object.
Qed.
End plain.

(** * Plain data is copied *)
Section copies.
Context `{LuaTables} `{Dup} (self : loc) (h : lua_heap) (Hheap : heap_wf h).
(** [dup] does not fail for lack of resources. *)
Context (Hdup : ∀ files fd, is_Some (files !! fd) → ∃ newfd, dup files fd = inr newfd).
Context (Htables : (Z.of_nat (size (tables h)) < array_key_max)%Z).
Context (Hslots : ∀ t tb, tables h !! t = Some tb → (Z.of_nat (length (slots tb)) < array_key_max)%Z).

(** A table of plain data is not inside of itself. *)
Lemma plain_acc files v t : plain files h v → v = LTable t → Acc (flip (child h)) t.
Proof using All.
  intros Hp. revert t. induction Hp as [| | | | | |t tb Ht Hm Hne Hi _ IH|t tb Ht Hm Hk _ IH];
    intros t0 [= ->]; constructor; intros t' (tb' & k & Ht' & Hin); simplify_eq.
  - assert (table_wf tb) as Htb by (by eapply (proj1 Hheap)).
    destruct (array_slots tb k (LTable t') Htb) as (i & Hlt & _ & Hr); [done|done|].
    by apply (IH i).
  - by apply (IH k (LTable t')).
Qed.

(** What an item that is plain data becomes. *)
Definition item_reads (files : fdtable) (v : lua_value) (r : error_code + option value * fdtable) :
    Prop :=
  ∃ m files', r = inr (Some m, files') ∧ files ⊆ files' ∧ reads 0 self files' h v m.

Section node.
Context (copy_item : lua_value → fdtable → option (error_code + option value * fdtable)).
Context (files0 : fdtable).
Definition items_read (vs : list lua_value) : Prop :=
  ∀ v files r, v ∈ vs → files0 ⊆ files → copy_item v files = Some r → item_reads files v r.

Lemma copy_elements_plain vs idx files r :
  items_read vs → files0 ⊆ files → (idx + length vs < array_key_max)%Z →
  copy_elements copy_item idx vs files = Some r →
  ∃ ms files', r = inr (ms, files') ∧ files ⊆ files' ∧
    Forall2 (reads 0 self files' h) vs ms.
Proof.
  revert idx files r. induction vs as [|v vs IH]; intros idx files r Hi Hf Hlen; simpl in *.
  all: rewrite decide_False by lia.
  { intros [= <-]. by exists [], files. }
  destruct (copy_item v files) as [r1|] eqn:E1; [|done].
  destruct (Hi v files r1) as (m & files1 & -> & Hf1 & Hm); [set_solver|done|done|]. simpl.
  destruct (copy_elements copy_item (idx + 1) vs files1) as [r2|] eqn:E2; [|done].
  destruct (IH (idx + 1)%Z files1 r2) as (ms & files2 & -> & Hf2 & Hms); [| | |exact E2|].
  { intros ????. apply Hi. set_solver. }
  { by etrans. }
  { lia. }
  intros [= <-]. exists (m :: ms), files2. split_and!; [done|by etrans|].
  constructor; [by eapply reads_mono|done].
Qed.

Lemma copy_fields_plain ss o files r :
  items_read ss.*2 → files0 ⊆ files → (∀ k, k ∈ ss.*1 → ∃ s, k = LString s) →
  new_keys ss o → NoDup o.*1 →
  copy_fields copy_item ss o files = Some r →
  ∃ o' files', r = inr (o', files') ∧ files ⊆ files' ∧
    length o' = length o + length ss ∧ NoDup o'.*1 ∧
    (∀ k m, (k, m) ∈ o' → (k, m) ∈ o ∨
       ∃ v, (LString k, v) ∈ ss ∧ reads 0 self files' h v m).
Proof.
  revert o files r. induction ss as [|[k v] ss IH]; intros o files r Hi Hf Hs Hnew Hnd; simpl in *.
  { intros [= <-]. exists o, files. split_and!; auto. }
  destruct (Hs k) as [s ->]; [set_solver|].
  destruct (copy_item v files) as [r1|] eqn:E1; [|done].
  destruct (Hi v files r1) as (m & files1 & -> & Hf1 & Hm); [set_solver|done|done|]. simpl.
  destruct (new_keys_emplace _ _ _ _ m Hnew) as [Hk Hnew'].
  pose proof (emplace_Permutation s m o Hk) as Hp. intros Hc.
  destruct (IH (emplace s m o) files1 r) as (o' & files' & -> & Hf' & Hl & Hnd' & Ho'); try done.
  { intros ????. apply Hi. set_solver. }
  { by etrans. }
  { set_solver. }
  { rewrite Hp. by constructor. }
  exists o', files'. split_and!; [done|by etrans|rewrite Hl, Hp; simpl; lia|done|].
  intros k m' [Hin|(v' & Hin & Hr)]%Ho'.
  - rewrite Hp in Hin. apply elem_of_cons in Hin as [[= -> ->]|Hin]; [|by left].
    right. exists v. split; [set_solver|]. by eapply reads_mono.
  - right. exists v'. split; [set_solver|done].
Qed.
End node.


Definition path_above (path : gset loc) (v : lua_value) : Prop :=
  path ⊆ dom (tables h) ∧ ∀ t p, v = LTable t → p ∈ path → tc (child h) p t.

Lemma path_above_child path t tb k v :
  path_above path (LTable t) → tables h !! t = Some tb → (k, v) ∈ slots tb →
  path_above ({[t]} ∪ path) v.
Proof.
  intros [Hd Ha] Ht Hin. split.
  - apply union_subseteq. split; [|done]. apply singleton_subseteq_l, elem_of_dom. by exists tb.
  - intros t' p -> [->%elem_of_singleton|Hp]%elem_of_union.
    + apply tc_once. by exists tb, k.
    + eapply tc_r; [by apply Ha|]. by exists tb, k.
Qed.

(** A table of plain data is entered. *)
Lemma plain_nested files0 t tb fuel path files r :
  plain files0 h (LTable t) → tables h !! t = Some tb → metatable tb = None →
  path_above path (LTable t) →
  copy_item_with self h (copy self h fuel) path (LTable t) files = Some r →
  ∃ fuel', fuel = S fuel' ∧
    fbind (copy_node (copy_item_with self h (copy self h fuel') ({[t]} ∪ path)) tb files)
      (λ '(m, files), Some (inr (Some m, files))) = Some r.
Proof using All.
  intros Hp Ht Hm [Hd Ha]. unfold copy_item_with at 1. simpl. rewrite Ht, Hm.
  rewrite decide_False.
  2: { intros Hin. apply (acc_not_inside h t); [by eapply plain_acc|by apply Ha]. }
  rewrite decide_False.
  2: { apply subseteq_size in Hd. rewrite size_dom in Hd. lia. }
  destruct fuel as [|fuel]; [done|]. by exists fuel.
Qed.

(** What the copy of a table of plain data is, if those of its values are. *)
Definition node_reads (t : loc) (files : fdtable) (r : error_code + value * fdtable) : Prop :=
  ∃ m files', r = inr (m, files') ∧ files ⊆ files' ∧ reads 0 self files' h (LTable t) m.

Lemma array_node copy_item t tb files r :
  tables h !! t = Some tb → metatable tb = None → slots tb ≠ [] →
  (∀ i, i < length (slots tb) → rawgeti tb (S i) ≠ LNil) →
  items_read copy_item files (slots tb).*2 →
  copy_node copy_item tb files = Some r → node_reads t files r.
Proof using All.
  intros Ht Hm Hne Hi Hitems Hn. assert (table_wf tb) as Htb by (by eapply (proj1 Hheap)).
  unfold copy_node in Hn. rewrite (elements_plain tb) in Hn by done.
  rewrite decide_True in Hn.
  2: { destruct (decide (objlen tb = 0)) as [Hz|]; [|lia]. pose proof (objlen_none tb Htb) as Hb.
       rewrite Hz in Hb. exfalso. apply (Hi 0); [|done]. destruct (slots tb); [done|simpl; lia]. }
  destruct (copy_elements _ _ _ _) as [r'|] eqn:Ec; [|done].
  eapply (copy_elements_plain copy_item files) in Ec as (ms & files' & -> & Hf' & Hms); [|
    |done|rewrite length_fmap, length_seq; specialize (Hslots _ _ Ht); lia].
  - injection Hn as <-. eexists _, files'. split_and!; [done..|].
    pose proof (Forall2_length _ _ _ Hms) as Hl. rewrite length_fmap, length_seq in Hl.
    eapply reads_array; [lia|done|done|done|]. intros i m Hin.
    eapply Forall2_lookup_r in Hin as (v & Hv & Hr); [|done].
    rewrite list_lookup_fmap in Hv.
    destruct (seq 0 (length (slots tb)) !! i) eqn:Es; [|done].
    apply lookup_seq in Es as [-> _]. by injection Hv as <-.
  - intros v files1 r1 (i & -> & Hin%elem_of_seq)%list_elem_of_fmap. apply Hitems.
    apply list_elem_of_fmap. eexists (_, _). split; [done|].
    apply rawgeti_in_slots; [done|done|]. apply Hi. lia.
Qed.

Lemma object_node copy_item t tb files r :
  tables h !! t = Some tb → metatable tb = None →
  (∀ k v, (k, v) ∈ slots tb → ∃ s, k = LString s) →
  items_read copy_item files (slots tb).*2 →
  copy_node copy_item tb files = Some r → node_reads t files r.
Proof using All.
  intros Ht Hm Hk Hitems Hn. assert (table_wf tb) as Htb by (by eapply (proj1 Hheap)).
  unfold copy_node in Hn. rewrite decide_False in Hn.
  2: { intros Hlen. pose proof (objlen_some tb Htb ltac:(lia)) as Hb.
       destruct (Hk (LNumber (lua_pushinteger (objlen tb))) (rawgeti tb (objlen tb)));
         [|done]. by apply rawgeti_in_slots. }
  destruct (copy_fields _ _ _ _) as [r'|] eqn:Ec; [|done].
  eapply (copy_fields_plain copy_item files) in Ec as (o & files' & -> & Hf' & Hl & Hnd & Ho).
  - injection Hn as <-. eexists _, files'. split_and!; [done..|].
    eapply reads_object; [lia|done|done|by rewrite Hl|done|].
    intros k m [Hin|(v & Hin & Hr)]%Ho; [set_solver|].
    rewrite (proj2 (rawget_elem_of tb (LString k) v Htb ltac:(intros ->; inversion Hr))); done.
  - done.
  - done.
  - intros k ((k' & v) & -> & Hin)%list_elem_of_fmap. by apply (Hk k' v).
  - split; [apply Htb|]. simpl. set_solver.
  - constructor.
Qed.

Lemma plain_item files0 v fuel path files r :
  plain files0 h v → files0 ⊆ files → path_above path v →
  copy_item_with self h (copy self h fuel) path v files = Some r →
  item_reads files v r.
Proof using All.
  intros Hp. revert fuel path files r.
  induction Hp as [b|n|s|u vm Hu|u Hu|u fd Hu Hfd|t tb Ht Hm Hne Hi Hsub IH|t tb Ht Hm Hk Hsub IH];
    intros fuel path files r Hf Hpath Hc.
  1-3: injection Hc as <-; eexists _, files; split_and!; [done|done|constructor].
  1-3: unfold copy_item_with in Hc; simpl in Hc; rewrite Hu in Hc.
  - injection Hc as <-. eexists _, files. split_and!; [done..|by eapply reads_address; [lia|]].
  - injection Hc as <-. eexists _, files. split_and!; [done..|by eapply reads_inbox; [lia|]].
  - destruct Hfd as [f Hfd]. pose proof (lookup_weaken _ _ _ _ Hfd Hf) as Hfd'.
    destruct (Hdup files fd) as [newfd Hd]; [by exists f|]. destruct (dup_new _ _ _ Hd) as [Hnew _].
    unfold dup_item in Hc. rewrite Hd, Hfd' in Hc. injection Hc as <-.
    eexists _, _. split_and!; [done|by apply insert_subseteq|].
    eapply reads_descriptor; [lia|done| |apply lookup_insert_eq].
    rewrite lookup_insert_ne by congruence. done.
  - destruct (plain_nested files0 t tb fuel path files r) as (fuel' & -> & Hn); try done.
    { by eapply plain_array. }
    destruct (copy_node _ tb files) as [r'|] eqn:Ec; [|done].
    eapply array_node in Ec as (m & files' & -> & Hf' & Hr); try done.
    + injection Hn as <-. by exists m, files'.
    + intros v files1 r1 ((k & v') & -> & Hin)%list_elem_of_fmap Hf1.
      destruct (array_slots tb k v') as (i & Hlt & -> & <-); [by eapply (proj1 Hheap)|done..|].
      apply IH; [done|by etrans|]. by eapply path_above_child.
  - destruct (plain_nested files0 t tb fuel path files r) as (fuel' & -> & Hn); try done.
    { by eapply plain_object. }
    destruct (copy_node _ tb files) as [r'|] eqn:Ec; [|done].
    eapply object_node in Ec as (m & files' & -> & Hf' & Hr); try done.
    + injection Hn as <-. by exists m, files'.
    + intros v files1 r1 ((k & v') & -> & Hin)%list_elem_of_fmap Hf1.
      apply (IH k); [done|by etrans|]. by eapply path_above_child.
Qed.
End copies.

(** * A copy is a message *)
Section copy_wf.
Context `{LuaTables} `{Dup} (self : loc) (h : lua_heap).

Section node.
Context (copy_item : lua_value → fdtable → option (error_code + option value * fdtable)).
Context (Hitem : ∀ v files m files', copy_item v files = Some (inr (Some m, files')) → value_wf m).

Lemma copy_elements_wf idx vs files ms files' :
  copy_elements copy_item idx vs files = Some (inr (ms, files')) → (idx ≤ array_key_max)%Z →
  (idx + length ms ≤ array_key_max)%Z ∧ Forall value_wf ms.
Proof using Hitem.
  revert idx files ms files'. induction vs as [|v vs IH]; intros idx files ms files'; simpl;
    case_decide; try done.
  { intros [= <- <-] Hidx. simpl. split; [lia|constructor]. }
  intros [[m files1] [Hm Hc]]%fbind_inr Hidx. destruct m as [m|]; [|simplify_eq/=; split; [lia|constructor]].
  apply fbind_inr in Hc as [[ms1 files2] [Hms [= <- <-]]].
  destruct (IH _ _ _ _ Hms) as [Hl Hf]; [lia|]. split; [simpl; lia|].
  constructor; [by eapply Hitem|done].
Qed.

Lemma copy_fields_wf ss o files o' files' :
  new_keys ss o → NoDup o.*1 → Forall (value_wf ∘ snd) o →
  copy_fields copy_item ss o files = Some (inr (o', files')) →
  length o' ≤ length o + length ss ∧ NoDup o'.*1 ∧ Forall (value_wf ∘ snd) o'.
Proof using Hitem.
  revert o files. induction ss as [|[k v] ss IH]; intros o files Hk Hnd Hf; simpl.
  { intros [= <- <-]. split_and!; [lia|done|done]. }
  destruct k as [| | |s| | | | |];
    try (intros Hc; destruct (IH _ _ (new_keys_tail _ _ _ Hk) Hnd Hf Hc) as [? [? ?]];
         split_and!; [lia|done|done]).
  intros [[m files1] [Hm Hc]]%fbind_inr. destruct m as [m|].
  - destruct (new_keys_emplace _ _ _ _ m Hk) as [Hn Hk'].
    pose proof (emplace_Permutation s m o Hn) as Hp.
    apply IH in Hc as (Hl & Hc); [|done|rewrite Hp; by constructor|].
    + rewrite Hp in Hl. split; [simpl in *; lia|done].
    + rewrite Hp. constructor; [by eapply Hitem|done].
  - apply IH in Hc as (Hl & Hc); [split; [lia|done]|by eapply new_keys_tail|done|done].
Qed.

Lemma copy_node_wf tb files m files' :
  table_wf tb → copy_node copy_item tb files = Some (inr (m, files')) → value_wf m.
Proof using Hitem.
  intros (Hnd & _ & Hl) Hc. unfold copy_node in Hc. case_decide.
  - apply fbind_inr in Hc as [[ms files1] [Hc [= <- <-]]].
    apply copy_elements_wf in Hc as [Hlen Hf]; [|done].
    apply wf_array; [unfold array_key_max in *; lia|]. intros i m Hi. by eapply Forall_lookup_1.
  - apply fbind_inr in Hc as [[o files1] [Hc [= <- <-]]].
    apply copy_fields_wf in Hc as (Hlen & Hnd' & Hf); [|split; [done|simpl; set_solver]|constructor..].
    apply wf_object; [done|simpl in *; lia|]. rewrite Forall_forall in Hf. intros k v. apply (Hf (k, v)).
Qed.
End node.

Lemma copy_value_wf fuel path tb files m files' :
  heap_wf h → table_wf tb → copy self h fuel path tb files = Some (inr (m, files')) → value_wf m.
Proof.
  intros Hh. revert path tb files m files'. induction fuel as [|fuel IH]; [done|].
  intros path tb files m files' Htb. simpl. apply copy_node_wf; [|done].
  intros v files1 m1 files2. unfold copy_item_with.
  destruct (make_item self h v files1) as [m' files3| |t tb'|ec] eqn:Em; try done.
  - intros [= <- <-]. apply wf_leaf. unfold make_item, dup_item in Em. by case_hyps Em.
  - repeat case_decide; try done. intros [[m2 files3] [Hc [= <- <-]]]%fbind_inr.
    eapply IH; [|done]. unfold make_item, dup_item in Em. case_hyps Em; try done.
    by eapply (proj1 Hh).
Qed.
End copy_wf.
