(* ===== verification/ActorReceive.v ===== *)
(** The loop of [deserializer_closure], and the theorems on values that are
    sent and received. *)
From S2P Require Import Prelude Errors Lua LuaTable ActorValue ActorValueSpec ActorTransfer.

(** * Receiving *)
Section receive.
Context `{LuaTables} (self : loc) (files : fdtable) (Q : lua_heap * lua_value → Prop).

(** The loop ends with a result that is as [Q] says. *)
Definition receives (x : receive_state + lua_heap * lua_value) : Prop :=
  match x with
  | inl s => ∃ n r, receive_loop n s = Some r ∧ Q r
  | inr r => Q r
  end.

Lemma receives_step s : receives (receive_step s) → receives (inl s).
Proof.
  destruct (receive_step s) as [s'|r] eqn:E; simpl.
  - intros (n & r & Hn & Hr). exists (S n), r. simpl. by rewrite E.
  - intros Hr. exists 1, r. simpl. by rewrite E.
Qed.

Lemma reads_not_nil lo h v m : reads lo self files h v m → v ≠ LNil.
Proof. by inversion 1. Qed.

Definition range_of (m : value) : option range :=
  match m with
  | VArray a => Some (ArrayRange 0 a)
  | VObject o => Some (ObjectRange o)
  | _ => None
  end.
Lemma push_leaf_range m h r : push_leaf m h = inr r → range_of m = Some r.
Proof. destruct m; simpl; naive_solver. Qed.
Definition descriptors_open (m : value) : Prop :=
  ∀ fd, fd ∈ descriptors m → is_Some (files !! fd).

(** The state that fills the empty table [t] with [m]. *)
Definition fills (m : value) : Prop :=
  ∀ h t path tree r,
    heap_wf h → tables h !! t = Some empty_table → range_of m = Some r →
    (∀ h', heap_wf h' → grown t h h' → reads t self files h' (LTable t) m →
       receives (if path is [] then inr (h', LTable t) else inl (Receiving h' path tree))) →
    receives (inl (Receiving h (r :: path) (t :: tree))).

Lemma push_leaf_reads v h h1 lv :
  heap_wf h → descriptors_open v → push_leaf v h = inl (h1, lv) →
  heap_wf h1 ∧ tables h1 = tables h ∧ (∀ t, grown t h h1) ∧
  reads (next_loc h) self files h1 lv v.
Proof.
  intros Hh Hfds Hp.
  assert (∀ u t, grown t h (new_userdata u h).1) as Hg.
  { intros u t. split; simpl; [lia|]. intros x Hx. split; [|done].
    apply lookup_insert_ne. lia. }
  destruct v; simpl in Hp; simplify_eq; (split_and!; [by apply new_userdata_wf || done|done|by try apply Hg|]).
  1-3: constructor.
  - destruct (Hfds fd) as [f Hf]; [simpl; set_solver|].
    eapply reads_descriptor; [done|apply lookup_insert_eq|done..].
  - by eapply reads_ipc_address, lookup_insert_eq.
  - by eapply reads_address, lookup_insert_eq.
Qed.

(** One element is added to the table [t]. *)
Lemma element_received h t tb r path tree k v r' :
  heap_wf h → tables h !! t = Some tb → next_element r = Some (k, v, r') →
  k ≠ LNil → k ∉ (slots tb).*1 → (length (slots tb) + 1 < 2 ^ 53)%Z →
  descriptors_open v → fills v →
  (∀ h' lv, heap_wf h' → grown t h h' → tables h' !! t = Some (rawset k lv tb) →
     reads (S t) self files h' lv v →
     receives (inl (Receiving h' (r' :: path) (t :: tree)))) →
  receives (inl (Receiving h (r :: path) (t :: tree))).
Proof.
  intros Hh Ht Hr Hk Hnew Hlen Hfds Hfill Hcont.
  destruct (proj1 Hh _ _ Ht) as [Hlt Htb].
  assert (∀ h1 lv, heap_wf h1 → tables h1 !! t = Some tb → grown t h h1 → lv ≠ LNil →
    let h2 := update_table t (rawset k lv) h1 in
    heap_wf h2 ∧ grown t h h2 ∧ tables h2 !! t = Some (rawset k lv tb)) as Hset.
  { intros h1 lv Hh1 Ht1 Hg Hlv h2. split_and!.
    - eapply update_table_wf; [done..|]. by apply rawset_new_wf.
    - eapply grown_trans; [done|apply grown_update].
    - simpl. by rewrite lookup_alter_eq, Ht1. }
  apply receives_step. unfold receive_step. simpl. rewrite Hr.
  destruct (push_leaf v h) as [[h1 lv]|r1] eqn:Ep.
  - destruct (push_leaf_reads _ _ _ _ Hh Hfds Ep) as (Hh1 & Htb1 & Hg & Hlv).
    destruct (Hset h1 lv) as (Hh2 & Hg2 & Ht2); [done|by rewrite Htb1|done|by eapply reads_not_nil|].
    eapply Hcont; [done..|]. eapply reads_frame; [exact Hh1| |by eapply reads_mono; [|done..]].
    intros x Hx _. split; [|done]. apply lookup_alter_ne. lia.
  - destruct (Hset (new_table h).1 (LTable (next_loc h))) as (Hh2 & Hg2 & Ht2); [by apply new_table_wf| | |done|].
    { simpl. by rewrite lookup_insert_ne by lia. }
    { split; simpl; [lia|]. intros x Hx. split; [done|]. intros _. apply lookup_insert_ne. lia. }
    eapply Hfill; [done| |by eapply push_leaf_range|].
    + simpl. rewrite lookup_alter_ne by lia. apply lookup_insert_eq.
    + intros h' Hh' Hg' Hreads. eapply (Hcont h' (LTable (next_loc h))); [done| | |].
      * destruct Hg2 as [Hl2 Hg2], Hg' as [Hl' Hg']. split; [simpl in *; lia|]. intros x Hx.
        destruct (Hg2 x Hx) as [Hu Hxt], (Hg' x) as [Hu' Hxt']; [simpl; lia|].
        split; [etrans; [exact Hu'|exact Hu]|]. intros Hne.
        etrans; [apply Hxt'; simpl; lia|by apply Hxt].
      * destruct Hg' as [_ Hg']. destruct (Hg' t) as [_ Hsame]; [simpl; lia|].
        etrans; [apply Hsame|exact Ht2]. lia.
      * eapply reads_mono; [|done..]. lia.
Qed.

(** What is left of an array: the elements from [idx] on. *)
Lemma array_received a done h t tb path tree :
  heap_wf h → tables h !! t = Some tb → metatable tb = None →
  (slots tb).*1 = index_keys (length done) → (length (done ++ a) < 2 ^ 53)%Z →
  (∀ i m, done !! i = Some m → reads (S t) self files h (rawgeti tb (S i)) m) →
  (∀ m, m ∈ a → descriptors_open m ∧ fills m) →
  (∀ h', heap_wf h' → grown t h h' → reads t self files h' (LTable t) (VArray (done ++ a)) →
     receives (if path is [] then inr (h', LTable t) else inl (Receiving h' path tree))) →
  receives (inl (Receiving h (ArrayRange (length done) a :: path) (t :: tree))).
Proof.
  revert done h tb. induction a as [|v a IH]; intros done h tb Hh Ht Hmt Hkeys Hlen Hdone Ha Hcont.
  { apply receives_step. unfold receive_step. simpl. apply (Hcont h); [done|apply grown_refl|].
    rewrite app_nil_r in *. pose proof (index_keys_length _ _ Hkeys).
    eapply reads_array; [done..|]. intros i m Hi. eapply reads_mono; [| |by apply Hdone]; [lia|done]. }
  rewrite length_app in Hlen. simpl in Hlen. destruct (proj1 Hh _ _ Ht) as [_ Htb].
  pose proof (index_keys_length _ _ Hkeys) as Hls.
  pose proof (index_keys_new (length done) ltac:(lia)) as Hnew. rewrite <- Hkeys in Hnew.
  destruct (Ha v) as [Hfds Hfill]; [set_solver|].
  eapply element_received; [done|done|simpl; by replace (length done + 1)%Z with (Z.of_nat (S (length done))) by lia
    |done|done|lia|done|done|].
  intros h' lv Hh' Hg Ht' Hlv.
  destruct (rawseti_append tb (length done) lv Htb Hkeys) as (_ & Hk' & Hnth & Hsame);
    [by eapply reads_not_nil|lia|]. unfold rawseti in *.
  assert (S (length done) = length (done ++ [v])) as Hl by (rewrite length_app; simpl; lia).
  rewrite Hl. eapply (IH (done ++ [v])); [done|done|done|by rewrite <- Hl| | |set_solver|].
  - rewrite <- app_assoc, length_app. simpl. lia.
  - intros i m [Hi|[Hle Hi]]%lookup_app_Some.
    + apply lookup_lt_Some in Hi as Hlt. rewrite Hsame by done. eapply reads_frame; [exact Hh| |by apply Hdone]. intros x Hx Hx'.
      destruct Hg as [_ Hg]. destruct (Hg x Hx') as [Hu Hxt]. split; [apply Hxt; lia|done].
    + apply list_lookup_singleton_Some in Hi as [Hi <-].
      assert (i = length done) as -> by lia. by rewrite Hnth.
  - intros h'' Hh'' Hg'' Hr. apply Hcont; [done|by eapply grown_trans|].
    by rewrite <- app_assoc in Hr.
Qed.

(** What is left of an object. *)
Lemma object_received o done h t tb path tree :
  heap_wf h → tables h !! t = Some tb → metatable tb = None →
  (slots tb).*1 = LString <$> done.*1 → NoDup (done ++ o).*1 → (length (done ++ o) < 2 ^ 53)%Z →
  (∀ k m, (k, m) ∈ done → reads (S t) self files h (rawget tb (LString k)) m) →
  (∀ k m, (k, m) ∈ o → descriptors_open m ∧ fills m) →
  (∀ h', heap_wf h' → grown t h h' → reads t self files h' (LTable t) (VObject (done ++ o)) →
     receives (if path is [] then inr (h', LTable t) else inl (Receiving h' path tree))) →
  receives (inl (Receiving h (ObjectRange o :: path) (t :: tree))).
Proof.
  revert done h tb. induction o as [|[k v] o IH];
    intros done h tb Hh Ht Hmt Hkeys Hnd Hlen Hdone Ho Hcont.
  all: assert (length (slots tb) = length done) as Hls
         by (by rewrite <- (length_fmap fst), Hkeys, !length_fmap).
  { apply receives_step. unfold receive_step. simpl. apply (Hcont h); [done|apply grown_refl|].
    rewrite app_nil_r in *.
    eapply reads_object; [done..|]. intros k m Hi. eapply reads_mono; [| |by apply Hdone]; [lia|done]. }
  rewrite length_app in Hlen. simpl in Hlen.
  assert (k ∉ done.*1) as Hnk.
  { rewrite fmap_app in Hnd. apply NoDup_app in Hnd as (_ & Hnd & _). intros Hin.
    apply (Hnd k Hin). set_solver. }
  assert (LString k ∉ (slots tb).*1) as Hnew by (rewrite Hkeys; set_solver).
  destruct (Ho k v) as [Hfds Hfill]; [set_solver|].
  eapply element_received; [done|done|reflexivity|done|done|lia|done|done|].
  intros h' lv Hh' Hg Ht' Hlv.
  eapply (IH (done ++ [(k, v)])); [done|done|done| | | | |set_solver|].
  - simpl. rewrite set_slot_new by (done || by eapply reads_not_nil).
    by rewrite !fmap_app, Hkeys.
  - by rewrite <- app_assoc.
  - rewrite <- app_assoc, length_app. simpl. lia.
  - intros k' m [Hi|Hi]%elem_of_app.
    + rewrite rawget_rawset_ne.
      * eapply reads_frame; [exact Hh| |by apply Hdone]. intros x Hx Hx'.
        destruct Hg as [_ Hg]. destruct (Hg x Hx') as [Hu Hxt]. split; [apply Hxt; lia|done].
      * intros [= ->]. apply Hnk. apply list_elem_of_fmap. by exists (k', m).
    + apply list_elem_of_singleton in Hi as [= -> ->].
      by rewrite rawget_rawset_eq by (by eapply reads_not_nil).
  - intros h'' Hh'' Hg'' Hr. apply Hcont; [done|by eapply grown_trans|].
    by rewrite <- app_assoc in Hr.
Qed.

Lemma container_received m : value_wf m → descriptors_open m → fills m.
Proof.
  induction 1 as [v Hv|o Hnd Hlen _ IH|a Hlen _ IH]; intros Hfds h t path tree r Hh Ht Hr Hcont.
  - by destruct v.
  - injection Hr as <-. eapply (object_received o []); try done; [set_solver|].
    intros k m Hin. assert (descriptors_open m) as Hm.
    { intros fd Hfd. apply Hfds. simpl. apply elem_of_concat. exists (descriptors m).
      split; [done|]. apply list_elem_of_fmap. by exists (k, m). }
    split; [done|by eapply IH].
  - injection Hr as <-. eapply (array_received a []); try done.
    intros m Hin. apply list_elem_of_lookup in Hin as [i Hi]. assert (descriptors_open m) as Hm.
    { intros fd Hfd. apply Hfds. simpl. apply elem_of_concat. exists (descriptors m).
      split; [done|]. apply list_elem_of_fmap. exists m. split; [done|]. by eapply list_elem_of_lookup_2. }
    split; [done|by eapply IH].
Qed.
End receive.

(** A message is received whole, in new objects. *)
Lemma receive_total `{LuaTables} self files m h :
  heap_wf h → value_wf m → descriptors_open files m →
  ∃ n h' lv, deserializer_closure n m h = Some (h', lv) ∧ heap_wf h' ∧
    (∀ x, x < next_loc h → tables h' !! x = tables h !! x ∧ udata h' !! x = udata h !! x) ∧
    reads (next_loc h) self files h' lv m.
Proof.
  intros Hh Hm Hfds. unfold deserializer_closure. destruct (push_leaf m h) as [[h1 lv]|r] eqn:Ep.
  - destruct (push_leaf_reads self files m h h1 lv) as (Hh1 & Ht & Hg & Hr); [done..|].
    exists 0, h1, lv. split_and!; [done|done| |done]. intros x Hx.
    destruct (Hg 0) as [_ Hsame]. destruct (Hsame x Hx). by rewrite Ht.
  - destruct (container_received self files
      (λ R, heap_wf R.1 ∧ grown (next_loc h) (new_table h).1 R.1 ∧
            reads (next_loc h) self files R.1 R.2 m) m Hm Hfds
      (new_table h).1 (next_loc h) [] [] r) as (n & [h' lv] & Hn & Hh' & [_ Hg] & Hr).
    + by apply new_table_wf.
    + apply lookup_insert_eq.
    + by eapply push_leaf_range.
    + by intros h' Hh' Hg Hr.
    + exists n, h', lv. split_and!; [done|done| |done]. intros x Hx.
      destruct (Hg x) as [Hu Ht]; [simpl; lia|]. simpl in Hu, Ht. rewrite Hu, Ht by lia. split; [|done].
      apply lookup_insert_ne. lia.
Qed.

(** * Theorems *)

Lemma send_loop_det `{LuaTables} `{Dup} self h n1 n2 s r1 r2 :
  send_loop self h n1 s = Some r1 → send_loop self h n2 s = Some r2 → r1 = r2.
Proof.
  revert n2 s. induction n1 as [|n1 IH]; intros [|n2] s; simpl; try done.
  destruct (send_step self h s); [apply IH|]. congruence.
Qed.

(** The loop from a table, and the copy that says what it ends with. *)
Lemma table_copied `{LuaTables} `{Dup} self h t tb files :
  heap_wf h → tables h !! t = Some tb → metatable tb = None →
  ∃ r, copy self h (S (size (tables h))) {[t]} tb files = Some r ∧
    ∃ n, make_message self h n (LTable t) files =
      Some match r with inl ec => Failed ec files | inr (m, files') => Sent m files' end.
Proof.
  intros Hh Ht Hm. destruct (copy_total self h (S (size (tables h))) {[t]} tb files) as [r Hr].
  { apply Nat.lt_succ_r. rewrite <- size_dom. apply subseteq_size. set_solver. }
  exists r. split; [done|]. simpl. rewrite Ht, Hm.
  eapply (copy_simulated self h files _ _ Hh {[t]} t tb (Sending [] [] {[t]} t LNil 0 files) r);
    [done| |apply opened_nil|exact Hr|].
  - split_and!; [done| |done]. apply size_singleton.
  - by destruct r as [ec|[m files']].
Qed.

Lemma failed_descriptors `{LuaTables} `{Dup} self h n v files R :
  heap_wf h → make_message self h n v files = Some R →
  match R with
  | Sent m files' => opened files (descriptors m) files' ∧ value_wf m
  | Failed _ files' => files' = files
  end.
Proof.
  intros Hh. assert (∀ m, descriptors m = [] → opened files (descriptors m) files) as Hnil.
  { intros m ->. apply opened_nil. }
  destruct v as [|b|x|s|t|f|u|t|p]; simpl; try (intros [= <-]; done).
  1-3: intros [= <-]; split; [by apply Hnil|by apply wf_leaf].
  - destruct (tables h !! t) as [tb|] eqn:Ht; [|by intros [= <-]].
    destruct (metatable tb) eqn:Hm; [by intros [= <-]|]. intros Hl.
    destruct (table_copied self h t tb files Hh Ht Hm) as (r & Hc & n' & Hn').
    simpl in Hn'. rewrite Ht, Hm in Hn'.
    rewrite (send_loop_det _ _ _ _ _ _ _ Hl Hn'). destruct r as [ec|[m files']]; [done|].
    destruct (proj1 Hh _ _ Ht) as [_ Htb]. split; [|by eapply copy_value_wf].
    rewrite <- (app_nil_r (descriptors m)). eapply copy_opened; [done..|apply opened_nil].
  - intros [= <-]. unfold make_userdata_message.
    destruct (udata h !! u) as [[vm| |[fd|]|fd| |]|] eqn:Eu; try done.
    1-2: split; [by apply Hnil|by apply wf_leaf].
    destruct (dup_item files fd) as [m files'| |t tb|ec] eqn:Ed; try done.
    unfold dup_item in Ed. case_hyps Ed; try done. simpl.
    split; [by eapply (opened_dup files []); [apply opened_nil|]|by apply wf_leaf].
Qed.

(** A message, seen as an item that is in no table. *)
Lemma item_message `{LuaTables} `{Dup} self h v files m files' :
  heap_wf h →
  copy_item_with self h (copy self h (S (size (tables h)))) ∅ v files = Some (inr (Some m, files')) →
  ∃ n, make_message self h n v files = Some (Sent m files').
Proof.
  intros Hh. unfold copy_item_with.
  destruct (make_item self h v files) as [m' files1| |t tb|ec] eqn:Em; try done.
  - intros [= <- <-]. exists 0. unfold make_item in Em.
    destruct v as [|b|x|s|t|f|u|t|p]; simplify_eq/=; try done.
    + by case_hyps Em.
    + unfold make_userdata_message.
      destruct (udata h !! u) as [[vm| |[fd|]|fd| |]|]; simplify_eq; try done. by rewrite Em.
  - assert (v = LTable t ∧ tables h !! t = Some tb ∧ metatable tb = None) as (-> & Ht & Hm).
    { unfold make_item, dup_item in Em. case_hyps Em; done. }
    repeat (case_decide; [done|]). rewrite (right_id_L ∅ (∪)).
    destruct (table_copied self h t tb files Hh Ht Hm) as (r & -> & n & Hn).
    destruct r as [ec|[m1 files1]]; [done|]. intros [= <- <-]. by exists n.
Qed.

Lemma item_total `{LuaTables} `{Dup} self h v files :
  is_Some (copy_item_with self h (copy self h (S (size (tables h)))) ∅ v files).
Proof.
  unfold copy_item_with. destruct (make_item self h v files); try done.
  repeat (case_decide; [done|]). apply fbind_total; [|by intros []].
  apply copy_total, Nat.lt_succ_r. rewrite <- size_dom. apply subseteq_size. set_solver.
Qed.

(** * Cycles *)
Section cycles.
Context `{LuaTables} `{Dup} (self : loc) (h : lua_heap).


Section node.
Context (copy_item : lua_value → fdtable → option (error_code + option value * fdtable)).

(** An error is that of a value in a slot, or of a long array. *)
Lemma copy_node_error tb files ec :
  copy_node copy_item tb files = Some (inl ec) →
  ec = Json.array_too_long ∨
  ∃ k v files', (k, v) ∈ slots tb ∧ copy_item v files' = Some (inl ec).
Proof.
  unfold copy_node. case_decide.
  - intros [Hc|[[] [_ ?]]]%fbind_inl; [|done].
    assert (∀ vs idx files, copy_elements copy_item idx vs files = Some (inl ec) →
      ec = Json.array_too_long ∨ ∃ v files', v ∈ vs ∧ copy_item v files' = Some (inl ec)) as Hgo.
    { intros vs. induction vs as [|v vs IH]; intros idx files1; simpl; case_decide; try naive_solver.
      intros [Hv|[[m files2] [_ Hm]]]%fbind_inl.
      - right. exists v, files1. split; [set_solver|done].
      - destruct m as [m|]; [|done]. apply fbind_inl in Hm as [Hm|[[] [_ ?]]]; [|done].
        destruct (IH _ _ Hm) as [->|(v' & files' & Hin & Hv)]; [by left|].
        right. exists v', files'. split; [set_solver|done]. }
    destruct (Hgo _ _ _ Hc) as [->|(v & files' & [k Hin]%elements_in_slots & Hv)]; [by left|].
    right. by exists k, v, files'.
  - intros [Hc|[[] [_ ?]]]%fbind_inl; [|done]. right.
    assert (∀ ss o files, copy_fields copy_item ss o files = Some (inl ec) →
      ∃ k v files', (k, v) ∈ ss ∧ copy_item v files' = Some (inl ec)) as Hgo.
    { intros ss. induction ss as [|[k v] ss IH]; intros o files1; simpl; [done|].
      assert (∀ o files2, copy_fields copy_item ss o files2 = Some (inl ec) →
        ∃ k' v' files', (k', v') ∈ (k, v) :: ss ∧ copy_item v' files' = Some (inl ec)) as Htail.
      { intros o1 files2 Hc1. destruct (IH _ _ Hc1) as (k' & v' & files' & Hin & Hv).
        exists k', v', files'. split; [set_solver|done]. }
      destruct k; try apply Htail. intros [Hv|[[m files2] [_ Hm]]]%fbind_inl; [|by eapply Htail].
      eexists (LString _), v, files1. split; [by left|done]. }
    by eapply Hgo.
Qed.
End node.

Lemma copy_cycle fuel path t tb files :
  (∀ p, p ∈ path → rtc (child h) p t) → tables h !! t = Some tb →
  copy self h fuel path tb files = Some (inl (Json.cycle_exists : error_code)) →
  ∃ t', rtc (child h) t t' ∧ tc (child h) t' t'.
Proof.
  revert path t tb files. induction fuel as [|fuel IH]; intros path t tb files Hp Ht; [done|]. simpl.
  intros [?|(k & v & files' & Hin & Hv)]%copy_node_error; [done|].
  unfold copy_item_with in Hv. destruct (make_item self h v files') as [| |t' tb'|] eqn:Em; try done.
  2: { unfold make_item, dup_item in Em. by case_hyps Em; simplify_eq. }
  assert (v = LTable t' ∧ tables h !! t' = Some tb') as [-> Ht'].
  { unfold make_item, dup_item in Em. case_hyps Em; done. }
  assert (child h t t') as Hc by (by exists tb, k).
  case_decide as Hpath.
  { exists t'. split; [by apply rtc_once|]. eapply tc_rtc_l; [by apply Hp|by apply tc_once]. }
  case_decide; [done|]. apply fbind_inl in Hv as [Hv|[[] [_ ?]]]; [|done].
  destruct (IH ({[t']} ∪ path) t' tb' files') as (c & Hrc & Htc); [|done|done|].
  - intros p [->%elem_of_singleton|Hin']%elem_of_union; [done|].
    eapply rtc_r; [by apply Hp|done].
  - exists c. split; [by eapply rtc_l|done].
Qed.
End cycles.

(** * What sending and receiving promise *)
Section promises.
Context `{LuaTables} `{Dup} (self : loc) (h : lua_heap).

(** C10 The loop that copies a table ends, for every heap, with what the
    recursive copy gives: the message, or the first error, after which the
    descriptors are as they were.  A cycle is only reported when a table that
    can be reached is inside of itself. *)
Theorem chan_send_copies t tb files :
  heap_wf h → tables h !! t = Some tb → metatable tb = None →
  ∃ n R, make_message self h n (LTable t) files = Some R ∧
    (∀ n' R', make_message self h n' (LTable t) files = Some R' → R' = R) ∧
    match copy self h (S (size (tables h))) {[t]} tb files with
    | Some (inr (m, files')) => R = Sent m files' ∧ value_wf m
    | Some (inl ec) =>
        R = Failed ec files ∧
        (ec = Json.cycle_exists → ∃ t', rtc (child h) t t' ∧ tc (child h) t' t')
    | None => False
    end.
Proof.
  intros Hh Ht Hm. destruct (table_copied self h t tb files Hh Ht Hm) as (r & Hc & n & Hn).
  exists n. eexists. split; [exact Hn|]. split.
  - intros n' R' Hn'. simpl in Hn, Hn'. rewrite Ht, Hm in Hn, Hn'. by eapply send_loop_det.
  - rewrite Hc. destruct r as [ec|[m files']].
    + split; [done|]. intros ->. eapply copy_cycle; [|exact Ht|exact Hc].
      by intros p ->%elem_of_singleton.
    + split; [done|]. eapply copy_value_wf; [done| |exact Hc]. by apply (proj1 Hh t).
Qed.

(** The descriptors a message owns are new, different from each other, and
    are all that changes in the table of descriptors; when sending fails, none
    is left. *)
Theorem chan_send_descriptors n can_suspend lock L files files' r :
  heap_wf h → chan_send self h n can_suspend lock L files = Some (files', r) →
  match r with
  | inr (_, m) => opened files (descriptors m) files'
  | inl _ => files' = files
  end.
Proof.
  intros Hh. unfold chan_send. destruct L as [|chan [|v L]]; try by intros [= <- <-].
  destruct chan as [| | | | | |u| |]; try by intros [= <- <-].
  destruct (udata h !! u) as [[dest| | | | |]|]; try by intros [= <- <-].
  destruct can_suspend; [by intros [= <- <-]|]. destruct (lock dest); [|by intros [= <- <-]].
  intros (R & Hm & Hr)%fmap_Some. pose proof (failed_descriptors self h n v files R Hh Hm) as Hf.
  destruct R as [m files1|ec files1]; simplify_eq; [by destruct Hf|done].
Qed.

(** C9 Plain data that is sent arrives: the sender's value and the receiver's
    read as the message, the receiver's is made of new objects only, and its
    descriptors refer to the files of the sender's.  For heaps of fewer
    tables, with fewer slots, than [array_key_max], while [dup] succeeds. *)
Theorem sent_is_received chan v L dest lock files dst :
  heap_wf h → heap_wf dst → plain files h v →
  (Z.of_nat (size (tables h)) < array_key_max)%Z →
  (∀ t tb, tables h !! t = Some tb → (Z.of_nat (length (slots tb)) < array_key_max)%Z) →
  (∀ files fd, is_Some (files !! fd) → ∃ newfd, dup files fd = inr newfd) →
  udata h !! chan = Some (UAddress dest) → lock dest = true →
  ∃ n m files', chan_send self h n None lock (LUserdata chan :: v :: L) files = Some (files', inr (dest, m)) ∧
    reads 0 self files' h v m ∧
    ∃ n' dst' v', deserializer_closure n' m dst = Some (dst', v') ∧ heap_wf dst' ∧
      reads (next_loc dst) self files' dst' v' m ∧
      ∀ x, x < next_loc dst → tables dst' !! x = tables dst !! x ∧ udata dst' !! x = udata dst !! x.
Proof.
  intros Hh Hdst Hp Hts Hss Hdup Hchan Hlock. unfold chan_send. rewrite Hchan, Hlock.
  assert (∃ n m files', make_message self h n v files = Some (Sent m files') ∧
    reads 0 self files' h v m) as (n & m & files' & Hm & Hr).
  { destruct (item_total self h v files) as [r Hr].
    destruct (plain_item self h Hh Hdup Hts Hss files v (S (size (tables h))) ∅ files r Hp) as (m & files' & -> & _ & Hm);
      [done|by split; [set_solver|]|exact Hr|].
    destruct (item_message self h v files m files' Hh Hr) as [n Hn]. by exists n, m, files'. }
  exists n, m, files'. rewrite Hm. split; [done|]. split; [done|].
  destruct (failed_descriptors self h n v files _ Hh Hm) as [Ho Hwf].
  destruct (receive_total self files' m dst Hdst Hwf) as (n' & dst' & v' & Hd & Hdst' & Hsame & Hr').
  { intros fd Hfd. by apply Ho. }
  by exists n', dst', v'.
Qed.

(** Whatever table or value was sent, its message is well formed (the keys
    of an object differ, sizes fit), and the receiving VM makes of it a well
    formed heap with a value that reads as the message, leaving its older
    objects alone. *)
Theorem message_well_formed n can_suspend lock L files files' dest m dst :
  heap_wf h → heap_wf dst →
  chan_send self h n can_suspend lock L files = Some (files', inr (dest, m)) →
  value_wf m ∧
  ∃ n' dst' v', deserializer_closure n' m dst = Some (dst', v') ∧ heap_wf dst' ∧
    reads (next_loc dst) self files' dst' v' m ∧
    ∀ x, x < next_loc dst → tables dst' !! x = tables dst !! x ∧ udata dst' !! x = udata dst !! x.
Proof.
  intros Hh Hdst. unfold chan_send. destruct L as [|chan [|v L]]; try done.
  destruct chan as [| | | | | |u| |]; try done.
  destruct (udata h !! u) as [[dest'| | | | |]|]; try done.
  destruct can_suspend; [done|]. destruct (lock dest'); [|done].
  intros (R & Hm & Hr)%fmap_Some. destruct R as [m1 files1|]; simplify_eq.
  destruct (failed_descriptors self h n v files _ Hh Hm) as [Ho Hwf]. split; [done|].
  destruct (receive_total self files1 m1 dst Hdst Hwf) as (n' & dst' & v' & Hd & Hdst' & Hsame & Hr').
  { intros fd Hfd. by apply Ho. }
  by exists n', dst', v'.
Qed.
End promises.

(** * A heap to try it on: an address, an open descriptor, and a table
    [{name = "a", list = {1, true, fd}}] *)
Module Examples.
#[local] Existing Instance FirstBorder.lua_tables.
#[local] Existing Instance Ieee754.api.

(** [dup] gives the descriptor after the greatest. *)
#[export] Instance next_dup : Dup.
Proof.
  refine {| dup := λ files fd,
    if decide (is_Some (files !! fd))
    then inr (1 + foldr Z.max 0 (elements (dom files : gset Z)))%Z else inl 9%Z |}.
  intros files fd newfd. case_decide as Hfd; [|done]. intros [= <-]. split; [|done].
  apply eq_None_not_Some. intros Hs. apply elem_of_dom, elem_of_elements in Hs.
  assert (∀ l x, x ∈ l → (x ≤ foldr Z.max 0 l)%Z) as Hmax.
  { induction l as [|y l IH]; simpl; intros x; [set_solver|].
    intros [->|Hin]%elem_of_cons; [lia|]. specialize (IH _ Hin). lia. }
  apply Hmax in Hs. lia.
Defined.

Definition num (i : Z) : lua_value := LNumber (lua_pushinteger i).
Definition list_table : table :=
  Table [(num 1, num 1); (num 2, LBoolean true); (num 3, LUserdata 2)] None.
Definition root_table : table :=
  Table [(LString (lit "name"), LString (lit "a")); (LString (lit "list"), LTable 4)] None.
Definition sender : lua_heap :=
  Heap {[4 := list_table; 5 := root_table]}
    {[1 := UAddress 7; 2 := UFileDescriptor (Some 3%Z)]} 6.
Definition receiver : lua_heap := Heap ∅ ∅ 10.
Definition descriptors_table : gmap Z loc := {[3%Z := 100]}.
(** [t.t = t]. *)
Definition knot : lua_heap := Heap {[1 := Table [(LString (lit "t"), LTable 1)] None]} ∅ 2.

#[local] Instance heap_wf_dec h : Decision (heap_wf h).
Proof. unfold heap_wf, table_wf. apply _. Defined.

Lemma sender_wf : heap_wf sender.
Proof. apply (bool_decide_unpack _). vm_compute. exact I. Qed.
Lemma receiver_wf : heap_wf receiver.
Proof. apply (bool_decide_unpack _). vm_compute. exact I. Qed.
Lemma knot_wf : heap_wf knot.
Proof. apply (bool_decide_unpack _). vm_compute. exact I. Qed.

Lemma list_plain : plain descriptors_table sender (LTable 4).
Proof.
  apply plain_array with (tb := list_table); [reflexivity|reflexivity|discriminate|..].
  - intros [|[|[|i]]] Hi; [vm_compute; discriminate..|simpl in Hi; lia].
  - intros [|[|[|i]]] Hi; [..|simpl in Hi; lia].
    + apply plain_number.
    + apply plain_boolean.
    + apply plain_descriptor with (fd := 3%Z); [reflexivity|by exists 100].
Qed.
Lemma root_plain : plain descriptors_table sender (LTable 5).
Proof.
  apply plain_object with (tb := root_table); [reflexivity|reflexivity|..].
  all: intros k v [[= -> ->]|[[= -> ->]|[]%elem_of_nil]%elem_of_cons]%elem_of_cons.
  - by eexists.
  - by eexists.
  - apply plain_string.
  - apply list_plain.
Qed.

Lemma chan_send_copies_witness :
  ∃ n, make_message 7 knot n (LTable 1) ∅ = Some (Failed Json.cycle_exists ∅).
Proof.
  destruct (chan_send_copies 7 knot 1 (Table [(LString (lit "t"), LTable 1)] None) ∅
              knot_wf eq_refl eq_refl) as (n & R & Hn & _ & Hc).
  exists n. rewrite Hn. vm_compute in Hc. destruct Hc as [-> _]. reflexivity.
Defined.

Lemma chan_send_descriptors_witness :
  ∃ files' dest m,
    chan_send 7 sender 20 None (λ _, true) [LUserdata 1; LTable 5] descriptors_table
      = Some (files', inr (dest, m)) ∧ opened descriptors_table [4%Z] files'.
Proof.
  destruct (chan_send 7 sender 20 None (λ _, true) [LUserdata 1; LTable 5] descriptors_table)
    as [[files' r]|] eqn:E; [|vm_compute in E; discriminate].
  pose proof (chan_send_descriptors 7 sender 20 None (λ _, true) [LUserdata 1; LTable 5]
                descriptors_table files' r sender_wf E) as Ho.
  vm_compute in E. injection E as <- <-. eexists _, 7, _. split; [reflexivity|exact Ho].
Defined.

Lemma message_well_formed_witness :
  ∃ files' dest m,
    chan_send 7 sender 20 None (λ _, true) [LUserdata 1; LTable 5] descriptors_table
      = Some (files', inr (dest, m)) ∧ value_wf m.
Proof.
  destruct (chan_send 7 sender 20 None (λ _, true) [LUserdata 1; LTable 5] descriptors_table)
    as [[files' [e|[dest m]]]|] eqn:E; [vm_compute in E; discriminate| |vm_compute in E; discriminate].
  exists files', dest, m. split; [reflexivity|].
  apply (message_well_formed 7 sender 20 None (λ _, true) [LUserdata 1; LTable 5]
           descriptors_table files' dest m receiver sender_wf receiver_wf E).
Defined.

Lemma sent_is_received_witness :
  ∃ n m files', chan_send 7 sender n None (λ _, true) [LUserdata 1; LTable 5] descriptors_table
    = Some (files', inr (7, m)).
Proof.
  destruct (sent_is_received 7 sender 1 (LTable 5) [] 7 (λ _, true) descriptors_table receiver
    sender_wf receiver_wf root_plain) as (n & m & files' & Hs & _).
  - vm_compute. reflexivity.
  - change (map_Forall (λ _ tb, (Z.of_nat (length (slots tb)) < array_key_max)%Z) (tables sender)).
    apply (bool_decide_unpack _). vm_compute. exact I.
  - intros files fd Hfd. unfold dup. simpl. rewrite decide_True by done. by eexists.
  - reflexivity.
  - reflexivity.
  - by exists n, m, files'.
Defined.
End Examples.
