(* ===== verification/JsonCodec.v ===== *)
(** JSON ([src/src/json.cpp], [src/bytecode/json_encode.lua]): the decoder
    over the symbols of a reader, the encoder over a writer, and the functions
    on arrays.

    The reader and the writer are those of a library outside of the
    repository.  A reader is the sequence of symbols it gives; a writer is
    what was written, and may refuse a symbol. *)
From S2P Require Import Prelude Errors Lua LuaTable.

(** * Symbols *)

(** Why [reader.value] throws. *)
Inductive value_error : Set :=
| invalid_value
| other_error (ec : Z).

(** The symbols of a document; the numbers are converted when they are asked
    for. *)
Inductive symbol : Set :=
| SNull
| SBoolean (b : bool)
| SInteger (v : value_error + Z)
| SReal (v : value_error + lua_Number)
| SString (s : bytes)
| SKey (s : bytes)
| SBeginArray
| SEndArray
| SBeginObject
| SEndObject.

(** What is left of the symbols, and how the text ends: [end], or a lexer
    error. *)
Record reader : Set := Reader { pending : list symbol; ending : option Z }.
Definition next (r : reader) : option reader :=
  match pending r with
  | _ :: (_ :: _) as p => Some (Reader (tail p) (ending r))
  | _ => None
  end.

(** * Errors *)

(** What [decode] raises; a path is the keys and the indices that lead to the
    value at fault, outermost first. *)
Inductive path_item : Set :=
| Key (s : bytes)
| ArrayKey (n : Z).
Inductive decode_error : Set :=
| InvalidArgument                           (* [EINVAL], [arg = 1] *)
| LexerError (ec : Z)
| InsufficientTokens
| DomError (e : Json.json_errc) (path : list path_item)
| TooManyLevels
| ValueError (ec : Z) (path : list path_item).

Inductive decode_result : Type :=
| Decoded (h : lua_heap) (v : lua_value)
| DecodeFails (e : decode_error)
| DecodeUndefined.                          (* [path.back()] of an empty path *)

Section json.
Context `{LuaTables}.
(** The table at [json_null_key], the metatable of arrays, and the greatest
    [int]. *)
Context (json_null array_mt : loc) (array_key_max : Z).

(** * Arrays *)
Definition metatable_of (h : lua_heap) (v : lua_value) : option loc :=
  match v with
  | LTable t => tables h !! t ≫= metatable
  | _ => None
  end.
Definition is_array (h : lua_heap) (v : lua_value) : bool :=
  bool_decide (metatable_of h v = Some array_mt).

Definition set_metatable (mt : loc) (tb : table) : table := Table (slots tb) (Some mt).

(** [into_array]: [None] stands for no argument. *)
Definition into_array (arg : option lua_value) (h : lua_heap) :
    lua_heap * (decode_error + lua_value) :=
  match arg with
  | None =>
      let '(h, t) := new_table h in (update_table t (set_metatable array_mt) h, inr (LTable t))
  | Some (LTable t) =>
      match metatable_of h (LTable t) with
      | Some mt =>
          if decide (mt = array_mt) then (h, inr (LTable t)) else (h, inl InvalidArgument)
      | None => (update_table t (set_metatable array_mt) h, inr (LTable t))
      end
  | Some _ => (h, inl InvalidArgument)
  end.

(** * Decoding *)

(** The path, the tree stack (both with their top first) and the work item. *)
Record decode_state : Type := Decoding {
  heap : lua_heap;
  path : list path_item;
  tree : list loc;
  item : lua_value;
}.

(** [append_path_info_to_exception]. *)
Definition path_info (p : list path_item) : list path_item :=
  (λ i, match i with Key s => Key s | ArrayKey n => ArrayKey (n + 1) end) <$> rev p.

(** One symbol: what it leads to, or how decoding ends. *)
Definition decode_step_result : Type := decode_state + decode_result.
Definition raise_error (e : decode_error) : decode_step_result := inr (DecodeFails e).

(** The key a value is stored at in the current item, and the path after
    that: what both [std::visit]s do first. *)
Inductive place : Type :=
| Top
| At (k : lua_value) (p : list path_item)
| TooLong.
Definition next_place (p : list path_item) : place :=
  match p with
  | [] => Top
  | Key s :: _ => At (LString s) p
  | ArrayKey n :: p' =>
      if decide (n = array_key_max) then TooLong
      else At (LNumber (lua_pushinteger (n + 1))) (ArrayKey (n + 1) :: p')
  end.

Definition too_long (s : decode_state) : decode_step_result :=
  raise_error (DomError Json.array_too_long (path_info (tail (path s)))).

(** [lua_rawset] on the current item, which is a table. *)
Definition store (s : decode_state) (k v : lua_value) (h : lua_heap) : option lua_heap :=
  match item s with
  | LTable t => Some (update_table t (rawset k v) h)
  | _ => None
  end.

Definition on_leaf (v : lua_value) (s : decode_state) : decode_step_result :=
  match next_place (path s) with
  | Top => inl (Decoding (heap s) [] (tree s) v)
  | At k p =>
      match store s k v (heap s) with
      | Some h => inl (Decoding h p (tree s) (item s))
      | None => inr DecodeUndefined
      end
  | TooLong => too_long s
  end.

Definition value_fails (e : value_error) (s : decode_state) : decode_step_result :=
  raise_error match e with
              | invalid_value => DomError Json.result_out_of_range (path_info (path s))
              | other_error ec => ValueError ec (path_info (path s))
              end.

Definition on_begin (array : bool) (s : decode_state) : decode_step_result :=
  if decide (Z.of_nat (length (path s)) = array_key_max) then raise_error TooManyLevels
  else
    let '(h, t) := new_table (heap s) in
    let enter (h : lua_heap) (p : list path_item) : decode_step_result :=
      inl (Decoding
             (if array then update_table t (set_metatable array_mt) h else h)
             ((if array then ArrayKey 0 else Key []) :: p) (t :: tree s) (LTable t)) in
    match next_place (path s) with
    | Top => enter h []
    | At k p =>
        match store s k (LTable t) h with
        | Some h => enter h p
        | None => inr DecodeUndefined
        end
    | TooLong => too_long s
    end.

Definition on_end (s : decode_state) : decode_step_result :=
  match path s, tree s with
  | [], _ => inr DecodeUndefined
  | [_], tree => inl (Decoding (heap s) [] tree (item s))
  | _ :: p, _ :: t :: tree => inl (Decoding (heap s) p (t :: tree) (LTable t))
  | _, _ => inr DecodeUndefined
  end.

Definition on_symbol (sym : symbol) (s : decode_state) : decode_step_result :=
  match sym with
  | SNull => on_leaf (LTable json_null) s
  | SBoolean b => on_leaf (LBoolean b) s
  | SInteger (inr v) => on_leaf (LNumber (lua_pushinteger v)) s
  | SReal (inr v) => on_leaf (LNumber v) s
  | SInteger (inl e) | SReal (inl e) => value_fails e s
  | SString v => on_leaf (LString v) s
  | SKey k =>
      match path s with
      | _ :: p => inl (Decoding (heap s) (Key k :: p) (tree s) (item s))
      | [] => inr DecodeUndefined
      end
  | SBeginArray => on_begin true s
  | SBeginObject => on_begin false s
  | SEndArray | SEndObject => on_end s
  end.

(** [do .. while (reader.next())] from the symbol the reader is at. *)
Fixpoint decode_symbols (syms : list symbol) (s : decode_state) : decode_step_result :=
  match syms with
  | [] => inl s
  | sym :: syms =>
      match on_symbol sym s with
      | inl s => decode_symbols syms s
      | inr r => inr r
      end
  end.

Definition decode_reader (r : reader) (h : lua_heap) : decode_result :=
  match pending r, ending r with
  | [], Some ec => DecodeFails (LexerError ec)
  | [], None => DecodeFails InsufficientTokens
  | syms, ending =>
      match decode_symbols syms (Decoding h [] [] LNil) with
      | inl s => if ending is Some ec then DecodeFails (LexerError ec) else Decoded (heap s) (item s)
      | inr r => r
      end
  end.

Definition decode (read : bytes → reader) (arg : lua_value) (h : lua_heap) : decode_result :=
  match arg with
  | LString s => decode_reader (read s) h
  | _ => DecodeFails InvalidArgument
  end.

(** * Encoding *)

(** What the encoder writes. *)
Inductive written : Set :=
| WNull
| WBoolean (b : bool)
| WInteger (v : Z)
| WReal (v : lua_Number)
| WString (s : bytes)
| WBeginArray
| WEndArray
| WBeginObject
| WEndObject.

Inductive encode_error : Type :=
| EEinval
| EEcycle
| EEnotsup
| EArg (i : Z)
| EWriter (ec : Z)
| EUser (e : lua_value)
| EUndefined.                  (* the conversion of a double to [std::int64_t] *)

(** [writer.error()] for a symbol the writer does not take after the others. *)
Context (refuse : list written → written → option Z).
Definition write (w : written) (out : list written) : encode_error + list written :=
  match refuse out w with
  | Some ec => inl (EWriter ec)
  | None => inr (out ++ [w])
  end.

(** [writer_value]: a number that is an integer is written as one.
    [double_to_int64] is [std::int64_t as_int = v], which is undefined when
    [v] is not a number of that range; it is exact when nothing is left. *)
Context (double_to_int64 : lua_Number → option (Z * bool)).
Definition writer_value (v : lua_value) (out : list written) : encode_error + list written :=
  match v with
  | LTable t => if decide (t = json_null) then write WNull out else inl (EArg 2)
  | LNil | LFunction _ | LUserdata _ | LThread _ | LLightuserdata _ => inl (EArg 2)
  | LNumber n =>
      match double_to_int64 n with
      | None => inl EUndefined
      | Some (i, exact) => write (if exact then WInteger i else WReal n) out
      end
  | LBoolean b => write (WBoolean b) out
  | LString s => write (WString s) out
  end.

(** The [__tojson] of a value's metatable, a function of the program: it
    writes with the writer and may encode other values. *)
Context (tojson : lua_heap → lua_value →
  option (list lua_value → list written → encode_error + list written)).

(** What [type] calls ['userdata']. *)
Definition is_userdata (v : lua_value) : bool :=
  match v with LUserdata _ | LLightuserdata _ => true | _ => false end.
Definition is_scalar (v : lua_value) : bool :=
  match v with
  | LBoolean _ | LNumber _ | LString _ => true
  | LTable t => bool_decide (t = json_null)
  | _ => false
  end.
Definition is_unsupported (v : lua_value) : bool :=
  match v with LNil | LFunction _ | LThread _ => true | _ => false end.

Section encode.
Context (h : lua_heap).

(** The elements [ipairs] gives. *)
Fixpoint encode_elements (rec : lua_value → list written → option (encode_error + list written))
    (vs : list lua_value) (out : list written) : option (encode_error + list written) :=
  match vs with
  | [] => Some (inr out)
  | v :: vs => let* out := rec v out in encode_elements rec vs out
  end.

(** One slot of an object. *)
Definition encode_field (rec : lua_value → list written → option (encode_error + list written))
    (visited : list lua_value) (k v : lua_value) (out : list written) :
    option (encode_error + list written) :=
  match k with
  | LString _ =>
      if is_unsupported v then Some (inr out)
      else if is_scalar v then
        let* out := Some (writer_value k out) in Some (writer_value v out)
      else if is_userdata v then
        match tojson h v with
        | Some user =>
            if decide (v ∈ visited) then Some (inl EEcycle)
            else let* out := Some (writer_value k out) in Some (user (v :: visited) out)
        | None => Some (inr out)
        end
      else let* out := Some (writer_value k out) in rec v out
  | _ => Some (inr out)
  end.

(** The slots [pairs] gives. *)
Fixpoint encode_fields (rec : lua_value → list written → option (encode_error + list written))
    (visited : list lua_value) (ss : list (lua_value * lua_value)) (out : list written) :
    option (encode_error + list written) :=
  match ss with
  | [] => Some (inr out)
  | (k, v) :: ss =>
      let* out := encode_field rec visited k v out in encode_fields rec visited ss out
  end.

(** [json_encode_recur]; [visited] holds the values it is inside of. *)
Fixpoint json_encode_recur (fuel : nat) (visited : list lua_value) (value : lua_value)
    (out : list written) : option (encode_error + list written) :=
  match fuel with
  | 0 => None
  | S fuel =>
      if is_unsupported value then Some (inl EEinval)
      else if is_scalar value then Some (writer_value value out)
      else
        match tojson h value with
        | Some user =>
            if decide (value ∈ visited) then Some (inl EEcycle)
            else Some (user (value :: visited) out)
        | None =>
            match value with
            | LTable t =>
                if decide (value ∈ visited) then Some (inl EEcycle)
                else
                  let tb := default empty_table (tables h !! t) in
                  let rec := json_encode_recur fuel (value :: visited) in
                  if is_array h value || bool_decide (0 < objlen tb) then
                    let* out := Some (write WBeginArray out) in
                    let* out := encode_elements rec (ipairs tb) out in
                    Some (write WEndArray out)
                  else
                    let* out := Some (write WBeginObject out) in
                    let* out := encode_fields rec (value :: visited) (slots tb) out in
                    Some (write WEndObject out)
            | _ => Some (inl EEinval)
            end
        end
  end.
End encode.

(** [json.encode(value, opts)] without a state: a new writer, whose text is
    the result; [indent] is not supported. *)
Definition json_encode (generate : list written → bytes) (fuel : nat) (h : lua_heap)
    (value : lua_value) (indent : bool) : option (encode_error + bytes) :=
  if indent then Some (inl EEnotsup)
  else
    let* out := json_encode_recur h fuel [] value [] in
    Some (inr (generate out)).
End json.
