(* ===== verification/JsonDecodeSpec.v ===== *)
(** What the JSON decoder does with the symbols of a document: it builds the
    document, or reports the first value at fault with the path to it. *)
From S2P Require Import Prelude Errors Lua LuaTable JsonCodec.

(** * Documents *)
#[local] Unset Elimination Schemes.
Inductive json : Set :=
| JNull
| JBoolean (b : bool)
| JInteger (v : value_error + Z)
| JReal (v : value_error + lua_Number)
| JString (s : bytes)
| JArray (a : list json)
| JObject (o : list (bytes * json)).
#[local] Set Elimination Schemes.

Section json_ind.
Context (P : json → Prop).
Context (Hleaf : ∀ j, match j with JArray _ | JObject _ => False | _ => True end → P j).
Context (Harray : ∀ a, Forall P a → P (JArray a)).
Context (Hobject : ∀ o, Forall (P ∘ snd) o → P (JObject o)).
Fixpoint json_ind (j : json) : P j :=
  match j with
  | JArray a =>
      Harray a ((fix go a := match a return Forall P a with
                             | [] => Forall_nil_2 _
                             | j :: a => Forall_cons_2 _ _ _ (json_ind j) (go a)
                             end) a)
  | JObject o =>
      Hobject o ((fix go o := match o return Forall (P ∘ snd) o with
                              | [] => Forall_nil_2 _
                              | (k, j) :: o => Forall_cons_2 (P ∘ snd) (k, j) o (json_ind j) (go o)
                              end) o)
  | JNull => Hleaf JNull I
  | JBoolean b => Hleaf (JBoolean b) I
  | JInteger v => Hleaf (JInteger v) I
  | JReal v => Hleaf (JReal v) I
  | JString s => Hleaf (JString s) I
  end.
End json_ind.

(** The symbols of a document. *)
Fixpoint as_symbols (j : json) : list symbol :=
  match j with
  | JNull => [SNull]
  | JBoolean b => [SBoolean b]
  | JInteger v => [SInteger v]
  | JReal v => [SReal v]
  | JString s => [SString s]
  | JArray a => SBeginArray :: concat (map as_symbols a) ++ [SEndArray]
  | JObject o =>
      SBeginObject :: concat (map (λ f, SKey f.1 :: as_symbols f.2) o) ++ [SEndObject]
  end.

Section fault.
Context `{LuaApi} (array_key_max : Z).
#[local] Notation next_place := (next_place array_key_max).

(** The first value at fault in a document that is at [p]: a number out of
    range, a value that an array has no room for, a container too deep. *)
Definition value_fault (p : list path_item) (e : value_error) : decode_error :=
  match e with
  | invalid_value => DomError Json.result_out_of_range (path_info p)
  | other_error ec => ValueError ec (path_info p)
  end.
Definition room_fault (p : list path_item) : option decode_error :=
  if next_place p is TooLong
  then Some (DomError Json.array_too_long (path_info (tail p))) else None.
Definition path_inside (p : list path_item) : list path_item :=
  if next_place p is At _ p' then p' else [].

Fixpoint fault (p : list path_item) (j : json) : option decode_error :=
  let inside (f : list path_item → option decode_error) :=
    if decide (Z.of_nat (length p) = array_key_max) then Some TooManyLevels
    else match room_fault p with Some e => Some e | None => f (path_inside p) end in
  match j with
  | JInteger (inl e) | JReal (inl e) => Some (value_fault p e)
  | JArray a =>
      inside (λ p,
        (fix go i a :=
           match a with
           | [] => None
           | j :: a =>
               match fault (ArrayKey i :: p) j with
               | Some e => Some e
               | None => go (i + 1)%Z a
               end
           end) 0%Z a)
  | JObject o =>
      inside (λ p,
        (fix go o :=
           match o with
           | [] => None
           | (k, j) :: o =>
               match fault (Key k :: p) j with
               | Some e => Some e
               | None => go o
               end
           end) o)
  | _ => room_fault p
  end.
Definition faults_array (p : list path_item) : Z → list json → option decode_error :=
  fix go i a :=
    match a with
    | [] => None
    | j :: a =>
        match fault (ArrayKey i :: p) j with
        | Some e => Some e
        | None => go (i + 1)%Z a
        end
    end.
Definition faults_object (p : list path_item) : list (bytes * json) → option decode_error :=
  fix go o :=
    match o with
    | [] => None
    | (k, j) :: o =>
        match fault (Key k :: p) j with
        | Some e => Some e
        | None => go o
        end
    end.

Lemma fault_array p a :
  fault p (JArray a) =
  if decide (Z.of_nat (length p) = array_key_max) then Some TooManyLevels
  else match room_fault p with Some e => Some e | None => faults_array (path_inside p) 0 a end.
Proof. done. Qed.
Lemma fault_object p o :
  fault p (JObject o) =
  if decide (Z.of_nat (length p) = array_key_max) then Some TooManyLevels
  else match room_fault p with Some e => Some e | None => faults_object (path_inside p) o end.
Proof. done. Qed.
End fault.

(** * What a document is in a heap

    The tables are not older than [lo]; of the fields with the same key the
    last counts. *)
Fixpoint last_field (k : bytes) (o : list (bytes * json)) : option json :=
  match o with
  | [] => None
  | (k', j) :: o =>
      match last_field k o with
      | Some j' => Some j'
      | None => if decide (k = k') then Some j else None
      end
  end.

Section denotes.
(** Arrays are marked, unless the document is not [strict] about it. *)
Context `{LuaTables} (json_null array_mt : loc) (strict : bool).

Inductive denotes (lo : loc) (h : lua_heap) : lua_value → json → Prop :=
| denotes_null : denotes lo h (LTable json_null) JNull
| denotes_boolean b : denotes lo h (LBoolean b) (JBoolean b)
| denotes_integer z : denotes lo h (LNumber (lua_pushinteger z)) (JInteger (inr z))
| denotes_real n : denotes lo h (LNumber n) (JReal (inr n))
| denotes_string s : denotes lo h (LString s) (JString s)
| denotes_array t tb a :
    lo ≤ t → t ≠ json_null → tables h !! t = Some tb →
    metatable tb = Some array_mt ∨ strict = false ∧ metatable tb = None ∧ slots tb ≠ [] →
    length (slots tb) = length a →
    (∀ i j, a !! i = Some j → denotes lo h (rawgeti tb (S i)) j) →
    denotes lo h (LTable t) (JArray a)
| denotes_object t tb o :
    lo ≤ t → t ≠ json_null → tables h !! t = Some tb → metatable tb = None →
    (∀ k v, (k, v) ∈ slots tb → ∃ s, k = LString s ∧ is_Some (last_field s o)) →
    (∀ s j, last_field s o = Some j → denotes lo h (rawget tb (LString s)) j) →
    denotes lo h (LTable t) (JObject o).

Lemma denotes_not_nil lo h v j : denotes lo h v j → v ≠ LNil.
Proof. by inversion 1. Qed.

Lemma denotes_mono lo lo' h v j : lo' ≤ lo → denotes lo h v j → denotes lo' h v j.
Proof.
  intros Hlo. induction 1; [constructor..| |].
  - eapply denotes_array; eauto. lia.
  - eapply denotes_object; eauto. lia.
Qed.

Lemma denotes_frame lo h h' v j :
  heap_wf h → (∀ x, lo ≤ x → x < next_loc h → tables h' !! x = tables h !! x) →
  denotes lo h v j → denotes lo h' v j.
Proof.
  intros [Ht _] Hsame. induction 1 as [| | | | |t tb a Hlo Hn Htb|t tb o Hlo Hn Htb]; [constructor..| |].
  all: rewrite <- Hsame in Htb by (done || by apply (Ht t _ Htb)).
  - by eapply denotes_array.
  - by eapply denotes_object.
Qed.
End denotes.

(** * Decoding a document *)
Section decode.
Context `{LuaTables} (json_null array_mt : loc) (array_key_max : Z).
Context (Hmax : (0 <= array_key_max < 2 ^ 53 - 1)%Z).
#[local] Notation next_place := (next_place array_key_max).
#[local] Notation fault := (fault array_key_max).
#[local] Notation faults_array := (faults_array array_key_max).
#[local] Notation faults_object := (faults_object array_key_max).
#[local] Notation path_inside := (path_inside array_key_max).
#[local] Notation room_fault := (room_fault array_key_max).
#[local] Notation decode_symbols := (decode_symbols json_null array_mt array_key_max).
#[local] Notation on_begin := (on_begin array_mt array_key_max).
#[local] Notation on_leaf := (on_leaf array_key_max).
#[local] Notation denotes := (denotes json_null array_mt true).

(** Between two values: the work item is the container on top of the stack,
    unless there is none yet. *)
Definition ready (s : decode_state) : Prop :=
  heap_wf (heap s) ∧ json_null < next_loc (heap s) ∧
  (path s = [] ∨
   ∃ t tb, item s = LTable t ∧ head (tree s) = Some t ∧ tables (heap s) !! t = Some tb ∧
     (length (slots tb) + 1 < 2 ^ 53)%Z).

(** A value was stored where [s] says, in a heap that became [h]. *)
Definition kept (s : decode_state) (v : lua_value) (h : lua_heap) : Prop :=
  match next_place (path s), item s with
  | At k _, LTable t =>
      grown t (heap s) h ∧ tables h !! t = rawset k v <$> tables (heap s) !! t
  | At _ _, _ => False
  | _, _ => grown (next_loc (heap s)) (heap s) h
  end.
Definition value_done (s : decode_state) (h : lua_heap) (v : lua_value) (tr : list loc) :
    decode_state :=
  match next_place (path s) with
  | At _ p => Decoding h p (tree s) (item s)
  | _ => Decoding h [] tr v
  end.

(** The decoder reads the document [j] whatever follows. *)
Definition decodes (j : json) : Prop :=
  ∀ s rest, ready s → (length (as_symbols j) < 2 ^ 53)%Z →
  match fault (path s) j with
  | Some e => decode_symbols (as_symbols j ++ rest) s = inr (DecodeFails e)
  | None =>
      ∃ h v tr, heap_wf h ∧ denotes (next_loc (heap s)) h v j ∧ kept s v h ∧
        decode_symbols (as_symbols j ++ rest) s = decode_symbols rest (value_done s h v tr)
  end.

Lemma next_place_key p k p' : next_place p = At k p' → k ≠ LNil.
Proof. destruct p as [|[s|n] p]; simpl; [done| |case_decide]; naive_solver. Qed.

Lemma leaf_stored s v :
  ready s → v ≠ LNil → room_fault (path s) = None →
  ∃ h, on_leaf v s = inl (value_done s h v (tree s)) ∧ heap_wf h ∧ kept s v h.
Proof.
  intros (Hh & _ & Hr) Hv Hroom. unfold on_leaf, value_done, kept, room_fault in *.
  destruct (next_place (path s)) as [|k p|] eqn:Ep; [..|done].
  { exists (heap s). split_and!; [done|done|apply grown_refl]. }
  destruct Hr as [Hp|(t & tb & Hi & _ & Ht & Hl)]; [by rewrite Hp in Ep|].
  unfold store. rewrite Hi. eexists. split; [done|]. split.
  - eapply update_table_wf; [done..|]. apply rawset_wf; [by apply (proj1 Hh t)| |done|done].
    by eapply next_place_key.
  - split; [apply grown_update|]. apply lookup_alter_eq.
Qed.

Lemma leaf_decodes j v :
  as_symbols j = [match as_symbols j with [x] => x | _ => SNull end] →
  (∀ s, on_symbol json_null array_mt array_key_max (match as_symbols j with [x] => x | _ => SNull end) s
        = on_leaf v s) →
  (∀ p, fault p j = room_fault p) → (∀ lo h, denotes lo h v j) → decodes j.
Proof.
  intros Hs Hon Hf Hd s rest Hr _. rewrite Hs, Hf. simpl. rewrite Hon.
  destruct (room_fault (path s)) as [e|] eqn:Er.
  - unfold room_fault, on_leaf in *. destruct (next_place (path s)); by simplify_eq.
  - destruct (leaf_stored s v Hr) as (h & -> & Hh & Hk); [by eapply denotes_not_nil, (Hd 0 (heap s))|done|].
    by exists h, v, (tree s).
Qed.

Lemma begin_value array s :
  ready s → Z.of_nat (length (path s)) ≠ array_key_max → room_fault (path s) = None →
  let t := next_loc (heap s) in
  ∃ h, on_begin array s =
      inl (Decoding h ((if array then ArrayKey 0 else Key []) :: path_inside (path s))
             (t :: tree s) (LTable t)) ∧
    heap_wf h ∧ json_null < next_loc h ∧
    tables h !! t = Some (Table [] (if array then Some array_mt else None)) ∧
    kept s (LTable t) h.
Proof.
  intros (Hh & Hnull & Hr) Hlen Hroom t.
  assert (∀ h, heap_wf h → tables h !! t = Some empty_table →
    let h' := if array then update_table t (set_metatable array_mt) h else h in
    heap_wf h' ∧ tables h' !! t = Some (Table [] (if array then Some array_mt else None)) ∧
    next_loc h' = next_loc h ∧ udata h' = udata h ∧ ∀ x, x ≠ t → tables h' !! x = tables h !! x) as Hset.
  { intros h Hwf Ht. destruct array; [|done]. simpl. split_and!; try done.
    - eapply update_table_wf; [done..|]. apply empty_table_wf.
    - by rewrite lookup_alter_eq, Ht.
    - intros x Hx. by apply lookup_alter_ne. }
  assert (grown t (heap s) (new_table (heap s)).1) as Hg.
  { split; simpl; [lia|]. intros x Hx. split; [done|]. intros. by apply lookup_insert_ne. }
  unfold on_begin. rewrite decide_False by done. cbn [new_table]. unfold room_fault in Hroom.
  unfold kept, path_inside. destruct (next_place (path s)) as [|k p|] eqn:Ep; [..|done].
  - destruct (Hset (new_table (heap s)).1) as (H1 & H2 & H3 & H4 & H5);
      [by apply new_table_wf|apply lookup_insert_eq|].
    exists (if array then update_table t (set_metatable array_mt) (new_table (heap s)).1
            else (new_table (heap s)).1).
    split; [done|]. split; [exact H1|]. split; [rewrite H3; simpl; lia|].
    split; [exact H2|]. destruct Hg as [Hl Hg]. split; [rewrite H3; simpl; lia|].
    intros x Hx. rewrite H4. destruct (Hg x Hx) as [? Hx']. split; [done|].
    intros Hne. rewrite H5 by done. by apply Hx'.
  - destruct Hr as [Hp|(tp & tb & Hi & _ & Ht & Hl)]; [by rewrite Hp in Ep|].
    unfold store. rewrite Hi. destruct (proj1 Hh _ _ Ht) as [Htp Htbwf].
    set (h1 := update_table tp (rawset k (LTable t)) (new_table (heap s)).1).
    assert (tables (new_table (heap s)).1 !! tp = Some tb) as Ht1
      by (simpl; rewrite lookup_insert_ne by (unfold t; lia); done).
    destruct (Hset h1) as (H1 & H2 & H3 & H4 & H5).
    { eapply update_table_wf; [by apply new_table_wf|done|].
      apply rawset_wf; [done|by eapply next_place_key|done|done]. }
    { simpl. rewrite lookup_alter_ne by (unfold t; lia). apply lookup_insert_eq. }
    exists (if array then update_table t (set_metatable array_mt) h1 else h1).
    split; [done|]. split; [exact H1|]. split; [rewrite H3; simpl; lia|].
    split; [exact H2|]. split; [split; [rewrite H3; simpl; lia|]|].
    + intros x Hx. rewrite H4. split; [done|]. intros Hne.
      rewrite H5 by (unfold t; lia). simpl. rewrite lookup_alter_ne by done.
      apply lookup_insert_ne. unfold t. lia.
    + rewrite H5 by (unfold t; lia). simpl. rewrite lookup_alter_eq.
      f_equal. apply lookup_insert_ne. unfold t. lia.
Qed.

Lemma next_place_index n p :
  (n ≤ array_key_max)%Z → room_fault (ArrayKey n :: p) = None →
  next_place (ArrayKey n :: p) = At (LNumber (lua_pushinteger (n + 1))) (ArrayKey (n + 1) :: p) ∧
  (n + 1 ≤ array_key_max)%Z.
Proof. unfold room_fault. simpl. case_decide; [done|]. intros. split; [done|lia]. Qed.

(** A document that is not at fault leaves room. *)
Lemma fault_room p j : fault p j = None → room_fault p = None.
Proof.
  destruct j as [| |[]|[]| | |]; simpl; try done; case_decide; try done; by destruct (room_fault p).
Qed.

Lemma ready_inside h p t tb tr :
  heap_wf h → json_null < next_loc h → tables h !! t = Some tb →
  (length (slots tb) + 1 < 2 ^ 53)%Z → ready (Decoding h p (t :: tr) (LTable t)).
Proof. intros. split; [done|]. split; [done|]. right. by exists t, tb. Qed.

(** The elements of the array [t] from the [i]th on, after those of [done]. *)
Lemma elements_decoded a done h t tb p tr rest :
  Forall decodes a → heap_wf h → json_null < next_loc h → tables h !! t = Some tb →
  (slots tb).*1 = index_keys (length done) → (Z.of_nat (length done) ≤ array_key_max)%Z →
  (∀ n j, done !! n = Some j → denotes (S t) h (rawgeti tb (S n)) j) →
  (length (concat (map as_symbols a)) < 2 ^ 53)%Z →
  let s i h := Decoding h (ArrayKey i :: p) (t :: tr) (LTable t) in
  match faults_array p (length done) a with
  | Some e =>
      decode_symbols (concat (map as_symbols a) ++ rest) (s (length done) h) = inr (DecodeFails e)
  | None => ∃ h' tb' n,
      heap_wf h' ∧ grown t h h' ∧ tables h' !! t = Some tb' ∧ metatable tb' = metatable tb ∧
      length (slots tb') = length (done ++ a) ∧
      (∀ n j, (done ++ a) !! n = Some j → denotes (S t) h' (rawgeti tb' (S n)) j) ∧
      decode_symbols (concat (map as_symbols a) ++ rest) (s (length done) h)
        = decode_symbols rest (s n h')
  end.
Proof.
  intros Ha. revert done h tb. induction Ha as [|j a Hj Ha IH];
    intros done h tb Hh Hnull Ht Hkeys Hlen Hdone Hsmall s; simpl.
  { exists h, tb, (length done). rewrite app_nil_r.
    split_and!; [done|apply grown_refl|done|done|by apply index_keys_length|done|done]. }
  simpl in Hsmall. rewrite length_app in Hsmall. destruct (proj1 Hh _ _ Ht) as [Hlt Htb].
  pose proof (index_keys_length _ _ Hkeys) as Hls.
  specialize (Hj (s (length done) h) (concat (map as_symbols a) ++ rest)
    ltac:(apply ready_inside with tb; [done..|lia]) ltac:(lia)).
  rewrite <- app_assoc. simpl in Hj.
  destruct (fault (ArrayKey (length done) :: p) j) as [e|] eqn:Ef; [done|].
  destruct Hj as (h1 & v & tr1 & Hh1 & Hv & Hk & ->).
  destruct (next_place_index _ _ Hlen (fault_room _ _ Ef)) as [Ep Hlen'].
  unfold kept, value_done in *. simpl path in *. rewrite Ep in *. simpl item in *. simpl tree.
  destruct Hk as [Hg Ht1]. simpl heap in *. rewrite Ht in Ht1. simpl in Ht1.
  replace (length done + 1)%Z with (Z.of_nat (S (length done))) in * by lia.
  destruct (rawseti_append tb (length done) v Htb Hkeys) as (_ & Hk1 & Hnth & Hsame);
    [by eapply denotes_not_nil|lia|]. unfold rawseti in *.
  assert (S (length done) = length (done ++ [j])) as Hl by (rewrite length_app; simpl; lia).
  rewrite Hl in *.
  assert (∀ n j', (done ++ [j]) !! n = Some j' → denotes (S t) h1
    (rawgeti (rawset (LNumber (lua_pushinteger (length (done ++ [j])))) v tb) (S n)) j') as Hd1.
  { intros n j' [Hn|[Hle Hn]]%lookup_app_Some.
    - apply lookup_lt_Some in Hn as Hltn. rewrite Hsame by done.
      eapply denotes_frame; [exact Hh| |by apply Hdone]. intros x Hx Hx'.
      destruct Hg as [_ Hg]. destruct (Hg x Hx') as [_ Hxt]. apply Hxt. lia.
    - apply list_lookup_singleton_Some in Hn as [Hn <-].
      replace (S n) with (length (done ++ [j])) by lia.
      rewrite Hnth. by eapply denotes_mono; [|exact Hv]. }
  specialize (IH (done ++ [j]) h1 _ Hh1 ltac:(destruct Hg; lia) Ht1 Hk1 Hlen' Hd1 ltac:(lia)).
  rewrite <- app_assoc in IH. cbn zeta in IH. cbn [app metatable rawset] in IH.
  destruct (faults_array p (length (done ++ [j])) a) as [e|]; [apply IH|].
  destruct IH as (h' & tb' & n & Hh' & Hg' & IH).
  exists h', tb', n. split; [done|]. split; [by eapply grown_trans|done].
Qed.

Lemma last_field_app k o1 o2 :
  last_field k (o1 ++ o2) = match last_field k o2 with Some j => Some j | None => last_field k o1 end.
Proof.
  induction o1 as [|[k' j] o1 IH]; simpl; [by destruct (last_field k o2)|].
  rewrite IH. by destruct (last_field k o2).
Qed.

(** The fields of the object [t], after those of [done]. *)
Lemma fields_decoded o done h t tb k0 p tr rest :
  Forall (decodes ∘ snd) o → heap_wf h → json_null < next_loc h → tables h !! t = Some tb →
  length (slots tb) ≤ length done →
  (∀ k v, (k, v) ∈ slots tb → ∃ s, k = LString s ∧ is_Some (last_field s done)) →
  (∀ s j, last_field s done = Some j → denotes (S t) h (rawget tb (LString s)) j) →
  (length done + length (concat (map (λ f, SKey f.1 :: as_symbols f.2) o)) < 2 ^ 53)%Z →
  let s k h := Decoding h (Key k :: p) (t :: tr) (LTable t) in
  match faults_object p o with
  | Some e =>
      decode_symbols (concat (map (λ f, SKey f.1 :: as_symbols f.2) o) ++ rest) (s k0 h)
        = inr (DecodeFails e)
  | None => ∃ h' tb' k,
      heap_wf h' ∧ grown t h h' ∧ tables h' !! t = Some tb' ∧ metatable tb' = metatable tb ∧
      (∀ k v, (k, v) ∈ slots tb' → ∃ s, k = LString s ∧ is_Some (last_field s (done ++ o))) ∧
      (∀ s j, last_field s (done ++ o) = Some j → denotes (S t) h' (rawget tb' (LString s)) j) ∧
      decode_symbols (concat (map (λ f, SKey f.1 :: as_symbols f.2) o) ++ rest) (s k0 h)
        = decode_symbols rest (s k h')
  end.
Proof.
  intros Ho. revert done h tb k0. induction Ho as [|[k j] o Hj Ho IH];
    intros done h tb k0 Hh Hnull Ht Hlen Hkeys Hdone Hsmall s; simpl.
  { exists h, tb, k0. rewrite app_nil_r.
    split_and!; [done|apply grown_refl|done|done|done|done|done]. }
  simpl in Hsmall, Hj. rewrite length_app in Hsmall. destruct (proj1 Hh _ _ Ht) as [Hlt Htb].
  specialize (Hj (s k h) (concat (map (λ f, SKey f.1 :: as_symbols f.2) o) ++ rest)
    ltac:(apply ready_inside with tb; [done..|lia]) ltac:(lia)).
  rewrite <- app_assoc. subst s. simpl in Hj |- *.
  destruct (fault (Key k :: p) j) as [e|] eqn:Ef; [done|].
  destruct Hj as (h1 & v & tr1 & Hh1 & Hv & [Hg Ht1] & ->). simpl in Hg, Ht1.
  rewrite Ht in Ht1. simpl in Ht1. unfold value_done. simpl.
  assert (v ≠ LNil) as Hvn by (by eapply denotes_not_nil).
  assert (∀ s, last_field s (done ++ [(k, j)]) = if decide (s = k) then Some j else last_field s done) as Hlast.
  { intros s. rewrite last_field_app. simpl. by case_decide. }
  assert (length (slots (rawset (LString k) v tb)) ≤ length (done ++ [(k, j)])) as Hlen1.
  { rewrite length_app. simpl. rewrite <- (length_fmap fst), set_slot_keys by done.
    case_decide; rewrite ?length_app, length_fmap; simpl; lia. }
  assert (∀ k' v', (k', v') ∈ slots (rawset (LString k) v tb) →
    ∃ s, k' = LString s ∧ is_Some (last_field s (done ++ [(k, j)]))) as Hk1.
  { intros k' v' [[= -> ->]|Hin]%set_slot_elem.
    - exists k. split; [done|]. by rewrite Hlast, decide_True.
    - destruct (Hkeys _ _ Hin) as (s & -> & Hs). exists s. split; [done|].
      rewrite Hlast. by case_decide. }
  assert (∀ s j', last_field s (done ++ [(k, j)]) = Some j' →
    denotes (S t) h1 (rawget (rawset (LString k) v tb) (LString s)) j') as Hd1.
  { intros s j'. rewrite Hlast. case_decide as Hsk.
    - intros [= <-]. subst. rewrite rawget_rawset_eq by done. by eapply denotes_mono; [|exact Hv].
    - intros Hs. rewrite rawget_rawset_ne by congruence.
      eapply denotes_frame; [exact Hh| |by apply Hdone]. intros x Hx Hx'.
      destruct Hg as [_ Hg]. destruct (Hg x Hx') as [_ Hxt]. apply Hxt. lia. }
  specialize (IH (done ++ [(k, j)]) h1 (rawset (LString k) v tb) k Hh1 ltac:(destruct Hg; lia) Ht1
    Hlen1 Hk1 Hd1 ltac:(rewrite length_app; simpl; lia)).
  rewrite <- app_assoc in IH. cbn zeta in IH. cbn [app metatable rawset] in IH.
  destruct (faults_object p o) as [e|]; [apply IH|].
  destruct IH as (h' & tb' & k' & Hh' & Hg' & IH).
  exists h', tb', k'. split; [done|]. split; [by eapply grown_trans|done].
Qed.

(** A container, once its contents are read: the table [t], new, holds them. *)
Lemma container_done s h1 h' x t :
  ready s → t = next_loc (heap s) → kept s (LTable t) h1 → grown t h1 h' →
  next_loc (heap s) < next_loc h1 →
  kept s (LTable t) h' ∧
  ∃ tr, on_end (Decoding h' (x :: path_inside (path s)) (t :: tree s) (LTable t)) =
    inl (value_done s h' (LTable t) tr).
Proof.
  intros (Hh & _ & Hr) -> Hk Hg Hlt. unfold kept, value_done, path_inside in *. simpl.
  assert (∀ t', t' < next_loc (heap s) → grown t' (heap s) h1 →
    grown t' (heap s) h' ∧ tables h' !! t' = tables h1 !! t') as Hgo.
  { intros t' Ht' [Hl1 Hg1]. destruct Hg as [Hl Hg]. split.
    - split; [lia|]. intros y Hy. destruct (Hg1 y Hy) as [Hu1 Ht1], (Hg y) as [Hu Ht]; [lia|].
      split; [congruence|]. intros Hne. rewrite Ht by lia. by apply Ht1.
    - destruct (Hg t') as [_ Ht]; [lia|]. apply Ht. lia. }
  destruct (next_place (path s)) as [|k p|] eqn:Ep.
  - split; [by eapply grown_trans|]. by eexists.
  - destruct Hr as [Hp|(tp & tb & Hi & Htree & Ht & _)]; [by rewrite Hp in Ep|].
    rewrite Hi in *. destruct Hk as [Hg1 Ht1]. destruct (proj1 Hh _ _ Ht) as [Hltp _].
    destruct (Hgo tp Hltp Hg1) as [Hg' Ht']. split; [by rewrite Ht'|].
    assert (p ≠ []) as Hp by (destruct (path s) as [|[]]; simpl in Ep; [done| |case_decide]; by simplify_eq).
    exists []. destruct p; [done|]. destruct (tree s) as [|t0 tr]; simplify_eq/=. done.
  - split; [by eapply grown_trans|]. by eexists.
Qed.

Lemma document_decodes j : decodes j.
Proof.
  induction j as [j Hj|a Ha|o Ho] using json_ind.
  - destruct j as [|b|[e|z]|[e|n]|str| |]; [..|done|done].
    + by apply (leaf_decodes _ (LTable json_null)); try constructor.
    + by apply (leaf_decodes _ (LBoolean b)); try constructor.
    + intros s rest _ _. by destruct e.
    + by apply (leaf_decodes _ (LNumber (lua_pushinteger z))); try constructor.
    + intros s rest _ _. by destruct e.
    + by apply (leaf_decodes _ (LNumber n)); try constructor.
    + by apply (leaf_decodes _ (LString str)); try constructor.
  - intros s rest Hr Hsmall. simpl in Hsmall. rewrite length_app in Hsmall. simpl in Hsmall.
    rewrite fault_array. simpl. case_decide as Hlen.
    { unfold on_begin. by rewrite decide_True. }
    destruct (room_fault (path s)) as [e|] eqn:Eroom.
    { unfold on_begin, room_fault in *. rewrite decide_False by done.
      cbn [new_table]. destruct (next_place (path s)); by simplify_eq. }
    destruct (begin_value true s Hr Hlen Eroom) as (h1 & Hb & Hh1 & Hn1 & Ht1 & Hk1). rewrite Hb.
    destruct (proj1 Hh1 _ _ Ht1) as [Hlt _].
    pose proof (elements_decoded a [] h1 _ _ (path_inside (path s)) (tree s) (SEndArray :: rest)
      Ha Hh1 Hn1 Ht1 eq_refl ltac:(simpl; lia) ltac:(by intros n j) ltac:(lia)) as Hel.
    cbn zeta in Hel. rewrite <- app_assoc. cbn [app length] in Hel |- *.
    change (Z.of_nat 0) with 0%Z in Hel.
    destruct (faults_array (path_inside (path s)) 0 a) as [e|]; [exact Hel|].
    destruct Hel as (h' & tb' & n & Hh' & Hg & Ht' & Hm & Hl & Hd & ->).
    destruct (container_done s h1 h' (ArrayKey n) _ Hr eq_refl Hk1 Hg Hlt) as [Hk' [tr Hend]].
    exists h', (LTable (next_loc (heap s))), tr. split; [done|]. split; [|split; [done|]].
    + eapply denotes_array; [done|destruct Hr as (_ & ? & _); lia|done|left; by rewrite Hm|done|].
      intros i j Hi. eapply denotes_mono; [|by apply Hd]. lia.
    + cbn [JsonCodec.decode_symbols]. simpl on_symbol. by rewrite Hend.
  - intros s rest Hr Hsmall. simpl in Hsmall. rewrite length_app in Hsmall. simpl in Hsmall.
    rewrite fault_object. simpl. case_decide as Hlen.
    { unfold on_begin. by rewrite decide_True. }
    destruct (room_fault (path s)) as [e|] eqn:Eroom.
    { unfold on_begin, room_fault in *. rewrite decide_False by done.
      cbn [new_table]. destruct (next_place (path s)); by simplify_eq. }
    destruct (begin_value false s Hr Hlen Eroom) as (h1 & Hb & Hh1 & Hn1 & Ht1 & Hk1). rewrite Hb.
    destruct (proj1 Hh1 _ _ Ht1) as [Hlt _].
    pose proof (fields_decoded o [] h1 _ _ [] (path_inside (path s)) (tree s) (SEndObject :: rest)
      Ho Hh1 Hn1 Ht1 ltac:(simpl; lia) ltac:(simpl; set_solver) ltac:(done) ltac:(simpl; lia)) as Hel.
    cbn zeta in Hel. rewrite <- app_assoc. cbn [app] in Hel |- *.
    destruct (faults_object (path_inside (path s)) o) as [e|]; [exact Hel|].
    destruct Hel as (h' & tb' & k & Hh' & Hg & Ht' & Hm & Hl & Hd & ->).
    destruct (container_done s h1 h' (Key k) _ Hr eq_refl Hk1 Hg Hlt) as [Hk' [tr Hend]].
    exists h', (LTable (next_loc (heap s))), tr. split; [done|]. split; [|split; [done|]].
    + eapply denotes_object; [done|destruct Hr as (_ & ? & _); lia|done|by rewrite Hm|done|].
      intros str j Hi. eapply denotes_mono; [|by apply Hd]. lia.
    + cbn [JsonCodec.decode_symbols]. simpl on_symbol. by rewrite Hend.
Qed.
End decode.
