(* ===== verification/JsonEncodeSpec.v ===== *)
(** What the JSON encoder does: it ends for every heap, it writes the document
    a value is, and what it writes is decoded to the same document. *)
From S2P Require Import Prelude Errors Lua LuaTable JsonCodec JsonDecodeSpec.

(** What is written for a document, and what a reader makes of that. *)
Fixpoint as_written (j : json) : list written :=
  match j with
  | JNull => [WNull]
  | JBoolean b => [WBoolean b]
  | JInteger (inr v) => [WInteger v]
  | JReal (inr v) => [WReal v]
  | JInteger (inl _) | JReal (inl _) => []
  | JString s => [WString s]
  | JArray a => WBeginArray :: concat (map as_written a) ++ [WEndArray]
  | JObject o =>
      WBeginObject :: concat (map (λ f, WString f.1 :: as_written f.2) o) ++ [WEndObject]
  end.

Lemma as_written_array a :
  as_written (JArray a) = WBeginArray :: concat (map as_written a) ++ [WEndArray].
Proof. done. Qed.
Lemma as_written_object o :
  as_written (JObject o) =
  WBeginObject :: concat (map (λ f, WString f.1 :: as_written f.2) o) ++ [WEndObject].
Proof. done. Qed.

Section encode.
Context `{lua_tables : LuaTables} (json_null array_mt : loc).
Context (refuse : list written → written → option Z).
Context (double_to_int64 : lua_Number → option (Z * bool)).
Context (tojson : lua_heap → lua_value →
  option (list lua_value → list written → encode_error + list written)).
Context (h : lua_heap).
#[local] Abbreviation write := (write refuse).
#[local] Abbreviation encode_recur :=
  (json_encode_recur json_null array_mt refuse double_to_int64 tojson h).

(** What is done with a table. *)
Definition encode_table (fuel : nat) (visited : list lua_value) (t : loc) (tb : table)
    (out : list written) : option (encode_error + list written) :=
  let rec := encode_recur fuel (LTable t :: visited) in
  if is_array array_mt h (LTable t) || bool_decide (0 < objlen tb) then
    let* out := Some (write WBeginArray out) in
    let* out := encode_elements rec (ipairs tb) out in
    Some (write WEndArray out)
  else
    let* out := Some (write WBeginObject out) in
    let* out := encode_fields json_null refuse double_to_int64 tojson h rec (LTable t :: visited)
                  (slots tb) out in
    Some (write WEndObject out).
Lemma encode_recur_table fuel visited t out :
  t ≠ json_null → tojson h (LTable t) = None → LTable t ∉ visited →
  encode_recur (S fuel) visited (LTable t) out =
  encode_table fuel visited t (default empty_table (tables h !! t)) out.
Proof.
  intros Hn Hto Hv. cbn [json_encode_recur is_unsupported is_scalar].
  by rewrite bool_decide_eq_false_2, Hto, decide_False.
Qed.

(** * It ends *)

Lemma encode_elements_total rec vs out :
  (∀ v out, v ∈ vs → is_Some (rec v out)) → is_Some (encode_elements rec vs out).
Proof.
  revert out. induction vs as [|v vs IH]; intros out Hrec; simpl; [done|].
  apply fbind_total; [apply Hrec; set_solver|]. intros. apply IH. set_solver.
Qed.

Lemma encode_fields_total rec visited ss out :
  (∀ v out, v ∈ ss.*2 → is_Some (rec v out)) →
  is_Some (encode_fields json_null refuse double_to_int64 tojson h rec visited ss out).
Proof.
  revert out. induction ss as [|[k v] ss IH]; intros out Hrec; simpl in *; [done|].
  apply fbind_total; [|intros; apply IH; set_solver].
  unfold encode_field. destruct k; try done. repeat case_match; try done; apply fbind_total; try done.
  intros. apply Hrec. set_solver.
Qed.

(** The tables it is not inside of yet are fuel enough. *)
Definition tables_left (visited : list lua_value) : gset loc :=
  filter (λ t, LTable t ∉ visited) (dom (tables h)).

Lemma tables_left_enough visited : size (tables_left visited) < S (size (dom (tables h))).
Proof. apply le_n_S, subseteq_size. by intros t [_ Ht]%elem_of_filter. Qed.

Lemma encode_total fuel visited value out :
  size (tables_left visited) < fuel → is_Some (encode_recur fuel visited value out).
Proof.
  revert visited value out. induction fuel as [|fuel IH]; intros visited value out Hf; [lia|]. simpl.
  destruct (is_unsupported value); [done|]. destruct (is_scalar json_null value); [done|].
  destruct (tojson h value); [by case_decide|]. destruct value as [| | | |t| | | |]; try done.
  case_decide as Hv; [done|]. destruct (tables h !! t) as [tb|] eqn:Ht; simpl.
  - assert (size (tables_left (LTable t :: visited)) < size (tables_left visited)).
    { apply subset_size. unfold tables_left. apply strict_spec_alt. split.
      - intros x. rewrite !elem_of_filter. set_solver.
      - intros Heq. assert (t ∈ tables_left visited) as Hin.
        { apply elem_of_filter. split; [done|]. by apply elem_of_dom. }
        unfold tables_left in Hin. rewrite <- Heq in Hin. apply elem_of_filter in Hin as [Hno _].
        set_solver. }
    assert (∀ v out, is_Some (encode_recur fuel (LTable t :: visited) v out)) as Hrec
      by (intros; apply IH; lia).
    case_match; (destruct (write _ _) as [|out1]; [done|]); (apply fbind_total; [|done]).
    + by apply encode_elements_total.
    + by apply encode_fields_total.
  - case_match; (destruct (write _ _); done).
Qed.

(** * A reference cycle is reported only where there is one *)
Lemma writer_value_cycle v out :
  writer_value json_null refuse double_to_int64 v out ≠ inl EEcycle.
Proof. destruct v; simpl; repeat case_match; unfold JsonCodec.write; by repeat case_match. Qed.

Lemma write_cycle w out : write w out ≠ inl EEcycle.
Proof. unfold JsonCodec.write. by case_match. Qed.

Lemma elements_cycle rec vs out :
  encode_elements rec vs out = Some (inl EEcycle) →
  ∃ v out', v ∈ vs ∧ rec v out' = Some (inl EEcycle).
Proof.
  revert out. induction vs as [|v vs IH]; intros out; simpl; [done|]. unfold fbind.
  destruct (rec v out) as [[e|out1]|] eqn:E; [|intros Hr|done].
  - intros [= ->]. exists v, out. split; [set_solver|done].
  - destruct (IH _ Hr) as (v' & o & Hin & Hv). exists v', o. split; [set_solver|done].
Qed.

Section cycle.
Context (Hno : ∀ v, tojson h v = None).

Lemma field_cycle rec visited k v out :
  encode_field json_null refuse double_to_int64 tojson h rec visited k v out = Some (inl EEcycle) →
  ∃ out', rec v out' = Some (inl EEcycle).
Proof using Hno.
  unfold encode_field. rewrite Hno. pose proof (writer_value_cycle k) as Hk.
  pose proof (writer_value_cycle v) as Hv.
  destruct k; try done. repeat case_match; try done; unfold fbind;
    destruct (writer_value _ _ _ (LString s) out) as [e|o] eqn:E; try (intros [= ->]; by destruct (Hk out)).
  - intros [= Hc]. by destruct (Hv o).
  - eauto.
Qed.
Lemma fields_cycle rec visited ss out :
  encode_fields json_null refuse double_to_int64 tojson h rec visited ss out = Some (inl EEcycle) →
  ∃ k v out', (k, v) ∈ ss ∧ rec v out' = Some (inl EEcycle).
Proof using Hno.
  revert out. induction ss as [|[k v] ss IH]; intros out; cbn [encode_fields]; [done|]. unfold fbind.
  destruct (encode_field _ _ _ _ _ _ _ _ _ _) as [[e|out1]|] eqn:E; [|intros Hr|done].
  - intros [= ->]. apply field_cycle in E as [o E]. exists k, v, o. split; [set_solver|done].
  - destruct (IH _ Hr) as (k' & v' & o & Hin & Hv). exists k', v', o. split; [set_solver|done].
Qed.

Lemma cycle_found fuel visited value out :
  (∀ v, v ∈ visited → ∃ t, v = LTable t ∧ ∀ t', value = LTable t' → tc (child h) t t') →
  encode_recur fuel visited value out = Some (inl EEcycle) → ∃ t, tc (child h) t t.
Proof using Hno.
  revert visited value out. induction fuel as [|fuel IH]; intros visited value out Hv; [done|].
  cbn [json_encode_recur]. rewrite Hno. destruct (is_unsupported value); [done|].
  destruct (is_scalar json_null value) eqn:Hs.
  { intros [= Hc]. by apply writer_value_cycle in Hc. }
  destruct value as [| | | |t| | | |]; try done. case_decide as Hin.
  { intros _. destruct (Hv _ Hin) as (t' & [= ->] & Ht). exists t'. by apply Ht. }
  assert (∀ k v out, (k, v) ∈ slots (default empty_table (tables h !! t)) →
    encode_recur fuel (LTable t :: visited) v out = Some (inl EEcycle) → ∃ t, tc (child h) t t) as Hrec.
  { intros k v out' Hkv. apply IH. intros w Hw. destruct (tables h !! t) as [tb|] eqn:Ht; [|set_solver].
    assert (∀ t', v = LTable t' → child h t t') as Hc by (intros t' ->; by exists tb, k).
    apply elem_of_cons in Hw as [->|Hw].
    - exists t. split; [done|]. intros t' ->. by apply tc_once, Hc.
    - destruct (Hv _ Hw) as (t0 & -> & Ht0). exists t0. split; [done|]. intros t' ->.
      eapply tc_r; [by apply Ht0|by apply Hc]. }
  case_match; unfold fbind.
  - destruct (write WBeginArray out) eqn:E; [intros [= ->]; by apply write_cycle in E|].
    destruct (encode_elements _ _ _) as [[e|o]|] eqn:E1; [..|done].
    + intros [= ->]. apply elements_cycle in E1 as (v & o & [k Hk]%elements_in_slots & Hc).
      by eapply Hrec.
    + intros [= Hc]. by apply write_cycle in Hc.
  - destruct (write WBeginObject out) eqn:E; [intros [= ->]; by apply write_cycle in E|].
    destruct (encode_fields _ _ _ _ _ _ _ _ _) as [[e|o]|] eqn:E1; [..|done].
    + intros [= ->]. apply fields_cycle in E1 as (k & v & o & Hk & Hc). by eapply Hrec.
    + intros [= Hc]. by apply write_cycle in Hc.
Qed.
End cycle.

(** * It writes the document *)

(** The value [v] is the document [j], field by field in the order of
    [pairs]; its integers are exact. *)
Inductive encodes : lua_value → json → Prop :=
| encodes_null : encodes (LTable json_null) JNull
| encodes_boolean b : encodes (LBoolean b) (JBoolean b)
| encodes_integer z :
    (- 2 ^ 53 ≤ z ≤ 2 ^ 53)%Z → encodes (LNumber (lua_pushinteger z)) (JInteger (inr z))
| encodes_string s : encodes (LString s) (JString s)
| encodes_array t tb a :
    t ≠ json_null → tables h !! t = Some tb → tojson h (LTable t) = None →
    metatable tb = Some array_mt ∨ metatable tb = None ∧ slots tb ≠ [] →
    length (slots tb) = length a →
    (∀ i j, a !! i = Some j → encodes (rawgeti tb (S i)) j) →
    encodes (LTable t) (JArray a)
| encodes_object t tb o :
    t ≠ json_null → tables h !! t = Some tb → tojson h (LTable t) = None →
    metatable tb = None → (slots tb).*1 = LString <$> o.*1 →
    (∀ i v j, (slots tb).*2 !! i = Some v → o.*2 !! i = Some j → encodes v j) →
    encodes (LTable t) (JObject o).

Lemma encodes_not_nil v j : encodes v j → v ≠ LNil.
Proof. by inversion 1. Qed.

Lemma encodes_supported v j : encodes v j → is_unsupported v = false ∧ is_userdata v = false.
Proof. by inversion 1. Qed.

Context (Hheap : heap_wf h).

(** The keys of an array are [1 .. n]. *)
Lemma array_elements t tb a :
  tables h !! t = Some tb → length (slots tb) = length a →
  (∀ i j, a !! i = Some j → encodes (rawgeti tb (S i)) j) →
  table_wf tb ∧ ipairs tb = (λ i, rawgeti tb (Z.of_nat (S i))) <$> seq 0 (length a).
Proof using lua_tables Hheap.
  intros Ht Hl Hi. destruct (proj1 Hheap _ _ Ht) as [_ Hwf]. split; [done|]. rewrite <- Hl.
  apply elements_plain; [done|]. intros i Hlt. rewrite Hl in Hlt.
  apply lookup_lt_is_Some in Hlt as [j Hj]. by eapply encodes_not_nil, Hi.
Qed.

(** An array is taken for one, an object is not. *)
Lemma array_taken t tb a :
  tables h !! t = Some tb →
  metatable tb = Some array_mt ∨ metatable tb = None ∧ slots tb ≠ [] →
  length (slots tb) = length a → (∀ i j, a !! i = Some j → encodes (rawgeti tb (S i)) j) →
  is_array array_mt h (LTable t) || bool_decide (0 < objlen tb) = true.
Proof using lua_tables Hheap.
  intros Ht Hm Hl Hi. destruct (proj1 Hheap _ _ Ht) as [_ Hwf]. apply orb_true_iff.
  unfold is_array, metatable_of. rewrite Ht. simpl.
  destruct Hm as [Hm|[_ Hne]]; [left; by apply bool_decide_eq_true_2|right].
  apply bool_decide_eq_true_2. destruct (decide (objlen tb = 0)) as [Hz|]; [|lia].
  exfalso. pose proof (objlen_none tb Hwf) as Hno. rewrite Hz in Hno.
  destruct a as [|j a]; [by destruct (slots tb)|].
  exact (encodes_not_nil _ j (Hi 0 j eq_refl) Hno).
Qed.
Lemma object_not_taken t tb ks :
  tables h !! t = Some tb → metatable tb = None → (slots tb).*1 = LString <$> ks →
  is_array array_mt h (LTable t) || bool_decide (0 < objlen tb) = false.
Proof using lua_tables Hheap.
  intros Ht Hm Hk. destruct (proj1 Hheap _ _ Ht) as [_ Hwf]. apply orb_false_iff.
  unfold is_array, metatable_of. rewrite Ht. simpl. split; [by rewrite Hm|].
  apply bool_decide_eq_false_2. intros Hlt. apply (objlen_some tb Hwf); [lia|].
  unfold rawgeti. apply rawget_nil; [done|]. rewrite Hk. by intros (? & ? & _)%list_elem_of_fmap.
Qed.

(** A value is one document. *)
Lemma encodes_unique j v j' : encodes v j → encodes v j' → j = j'.
Proof using lua_tables Hheap.
  revert v j'. induction j as [j Hj|a Ha|o Ho] using json_ind; intros v j' He He'.
  - destruct He as [| |z Hz| | |]; inversion He'; simplify_eq; try done.
    do 2 f_equal. by apply pushinteger_inj.
  - inversion He as [| | | |t tb a0 Hn Ht _ Hm Hl Hi|]; simplify_eq.
    inversion He' as [| | | |t1 tb1 a1 _ Ht1 _ Hm1 Hl1 Hi1|t1 tb1 o1 _ Ht1 _ Hm1 Hk1 Hi1];
      simplify_eq.
    + f_equal. apply list_eq_same_length with (length a); [by rewrite <- Hl1|done|].
      intros i x y _ Hx Hy. rewrite Forall_lookup in Ha. by eapply Ha; eauto.
    + pose proof (array_taken _ _ _ Ht Hm Hl Hi). by rewrite (object_not_taken _ _ _ Ht Hm1 Hk1) in *.
  - inversion He as [| | | | |t tb o0 Hn Ht _ Hm Hk Hi]; simplify_eq.
    inversion He' as [| | | |t1 tb1 a1 _ Ht1 _ Hm1 Hl1 Hi1|t1 tb1 o1 _ Ht1 _ Hm1 Hk1 Hi1];
      simplify_eq.
    + pose proof (array_taken _ _ _ Ht Hm1 Hl1 Hi1). by rewrite (object_not_taken _ _ _ Ht Hm Hk) in *.
    + rewrite Hk in Hk1. apply (list_fmap_eq_inj LString) in Hk1; [|by intros ?? [= ->]]. f_equal.
      assert (length o = length (slots tb)) as Hlo
        by (rewrite <- (length_fmap fst (slots tb)), Hk; by rewrite !length_fmap).
      apply list_eq_same_length with (length o); [|done|].
      { by rewrite <- (length_fmap fst o1), <- Hk1, length_fmap. }
      intros i [k x] [k1 y] Hlt Hx Hy.
      assert (is_Some ((slots tb).*2 !! i)) as [w Hw]
        by (apply lookup_lt_is_Some; rewrite length_fmap; lia).
      f_equal.
      * apply (f_equal (.!! i)) in Hk1. rewrite !list_lookup_fmap, Hx, Hy in Hk1. by simplify_eq/=.
      * rewrite Forall_lookup in Ho. apply (Ho i _ Hx w).
        -- eapply Hi; [done|]. by rewrite list_lookup_fmap, Hx.
        -- eapply Hi1; [done|]. by rewrite list_lookup_fmap, Hy.
Qed.

(** The values the encoder is inside of are larger documents. *)
Definition inside_of (visited : list lua_value) (j : json) : Prop :=
  ∀ v j', v ∈ visited → encodes v j' → length (as_written j) < length (as_written j').

Lemma inside_not_visited visited v j : encodes v j → inside_of visited j → v ∉ visited.
Proof. intros He Hv Hin. specialize (Hv v j Hin He). lia. Qed.

Lemma inside_cons visited v j jc :
  encodes v j → inside_of visited j → length (as_written jc) < length (as_written j) →
  inside_of (v :: visited) jc.
Proof using lua_tables Hheap.
  intros He Hv Hlt v' j' [->|Hin]%elem_of_cons He'.
  - by rewrite (encodes_unique _ _ _ He' He).
  - specialize (Hv v' j' Hin He'). lia.
Qed.

(** The writer takes [ws] after [out]. *)
Definition accepts (out ws : list written) : Prop :=
  ∀ ws1 w ws2, ws = ws1 ++ w :: ws2 → refuse (out ++ ws1) w = None.

Lemma accepts_app out ws1 ws2 :
  accepts out (ws1 ++ ws2) → accepts out ws1 ∧ accepts (out ++ ws1) ws2.
Proof.
  intros Ha. split.
  - intros w1 w w2 ->. apply (Ha _ _ (w2 ++ ws2)). by rewrite <- app_assoc.
  - intros w1 w w2 ->. rewrite <- app_assoc. eapply Ha. by rewrite <- app_assoc.
Qed.
Lemma accepts_cons out w ws : accepts out (w :: ws) → write w out = inr (out ++ [w]) ∧ accepts (out ++ [w]) ws.
Proof.
  intros [H1 H2]%(accepts_app out [w] ws). split; [|done]. unfold JsonCodec.write.
  by rewrite <- (app_nil_r out) at 1; rewrite (H1 [] w []).
Qed.

(** * The document a value is *)
Lemma last_field_elem s o j : last_field s o = Some j → (s, j) ∈ o.
Proof.
  induction o as [|[k j'] o IH]; simpl; [done|].
  destruct (last_field s o); [intros [= ->]; set_solver|]. case_decide; [intros [= ->]; set_solver|done].
Qed.
Lemma last_field_some s o : s ∈ o.*1 → is_Some (last_field s o).
Proof.
  induction o as [|[k j'] o IH]; simpl; [set_solver|]. intros [->|Hin]%elem_of_cons.
  - destruct (last_field k o); [done|]. by rewrite decide_True.
  - by destruct (IH Hin) as [? ->].
Qed.

Lemma encodes_denotes v j : encodes v j → denotes json_null array_mt false 0 h v j.
Proof using Hheap.
  induction 1 as [| | | |t tb a Hn Ht _ Hm Hl Hi IH|t tb o Hn Ht _ Hm Hk Hi IH]; try constructor.
  - eapply denotes_array; [lia|done|done| |done|done]. destruct Hm as [?|[? ?]]; auto.
  - destruct (proj1 Hheap _ _ Ht) as [_ Hwf].
    assert (∀ s j, (s, j) ∈ o → ∃ v, (LString s, v) ∈ slots tb ∧ denotes json_null array_mt false 0 h v j) as Hf.
    { intros s j [i Hij]%list_elem_of_lookup.
      apply (f_equal (.!! i)) in Hk. rewrite !list_lookup_fmap, Hij in Hk.
      destruct (slots tb !! i) as [[k v]|] eqn:Hs; simplify_eq/=. exists v.
      split; [by eapply list_elem_of_lookup_2|].
      apply (IH i); by rewrite list_lookup_fmap, ?Hs, ?Hij. }
    eapply denotes_object; [lia|done|done|done|..].
    + intros k v Hin. assert (k ∈ (slots tb).*1) as Hin1 by (apply list_elem_of_fmap; by exists (k, v)).
      rewrite Hk in Hin1. apply list_elem_of_fmap in Hin1 as (s & -> & Hs).
      exists s. split; [done|]. by apply last_field_some.
    + intros s j Hs. apply last_field_elem in Hs. destruct (Hf _ _ Hs) as (v & Hin & Hv).
      assert (rawget tb (LString s) = v) as ->; [|done].
      apply rawget_elem_of; [done|by eapply denotes_not_nil|done].
Qed.
(** * Writing it *)

Context (Hexact : ∀ z, (- 2 ^ 53 ≤ z ≤ 2 ^ 53)%Z → double_to_int64 (lua_pushinteger z) = Some (z, true)).

Lemma scalar_written v j out :
  encodes v j → is_scalar json_null v = true → accepts out (as_written j) →
  writer_value json_null refuse double_to_int64 v out = inr (out ++ as_written j).
Proof using Hexact.
  intros He Hs Ha. destruct He as [| |z Hz| |t tb a Hn|t tb o Hn]; simpl in *.
  1: rewrite decide_True by done. 3: rewrite Hexact by done.
  1-4: by apply accepts_cons in Ha as [-> _].
  all: by rewrite bool_decide_eq_false_2 in Hs.
Qed.

(** The encoder writes [j], from a value that is not inside of itself. *)
Definition writes (rec : lua_value → list written → option (encode_error + list written))
    (v : lua_value) (j : json) : Prop :=
  ∀ out r, accepts out (as_written j) → rec v out = Some r → r = inr (out ++ as_written j).

Lemma elements_written rec vs a out r :
  Forall2 (writes rec) vs a → accepts out (concat (map as_written a)) →
  encode_elements rec vs out = Some r → r = inr (out ++ concat (map as_written a)).
Proof.
  intros Hva. revert out. induction Hva as [|v j vs a Hv _ IH]; intros out Ha; simpl in *.
  { intros [= <-]. by rewrite app_nil_r. }
  apply accepts_app in Ha as [Hj Ha]. unfold fbind. destruct (rec v out) as [r1|] eqn:E; [|done].
  rewrite (Hv _ _ Hj E). intros Hr. apply IH in Hr as ->; [|done]. by rewrite app_assoc.
Qed.

(** A slot holds a field. *)
Definition field_is (P : lua_value → json → Prop) (s : lua_value * lua_value) (f : bytes * json) : Prop :=
  s.1 = LString f.1 ∧ P s.2 f.2.

Lemma field_written rec visited k v j out r :
  encodes v j → writes rec v j → accepts out (WString k :: as_written j) →
  encode_field json_null refuse double_to_int64 tojson h rec visited (LString k) v out = Some r →
  r = inr (out ++ WString k :: as_written j).
Proof using Hexact.
  intros He Hw Ha. destruct (encodes_supported _ _ He) as [Hu Hd].
  apply accepts_cons in Ha as [Hk Ha]. unfold encode_field. rewrite Hu, Hd.
  simpl writer_value. rewrite Hk. destruct (is_scalar json_null v) eqn:Hs; unfold fbind.
  - rewrite (scalar_written v j) by done. intros [= <-]. by rewrite <- app_assoc.
  - intros Hr. rewrite (Hw _ _ Ha Hr). by rewrite <- app_assoc.
Qed.

Lemma fields_written rec visited ss o out r :
  Forall2 (field_is (λ v j, encodes v j ∧ writes rec v j)) ss o →
  accepts out (concat (map (λ f, WString f.1 :: as_written f.2) o)) →
  encode_fields json_null refuse double_to_int64 tojson h rec visited ss out = Some r →
  r = inr (out ++ concat (map (λ f, WString f.1 :: as_written f.2) o)).
Proof using Hexact.
  intros Hva. revert out.
  induction Hva as [|[k v] [k' j] ss o [Hk [He Hv]] _ IH]; intros out Ha; simpl in *; subst.
  { intros [= <-]. by rewrite app_nil_r. }
  change (accepts out ((WString k' :: as_written j) ++
    concat (map (λ f, WString f.1 :: as_written f.2) o))) in Ha.
  apply accepts_app in Ha as [Hj Ha]. unfold fbind.
  destruct (encode_field _ _ _ _ _ _ _ _ _ _) as [r1|] eqn:E; [|done].
  rewrite (field_written _ _ _ _ _ _ _ He Hv Hj E). intros Hr. apply IH in Hr as ->; [|done].
  by rewrite <- app_assoc.
Qed.

Lemma length_concat_elem {A} (l : list A) (ls : list (list A)) : l ∈ ls → length l ≤ length (concat ls).
Proof. induction 1; simpl; rewrite length_app; lia. Qed.

Lemma document_written j : ∀ v fuel visited,
  encodes v j → inside_of visited j → writes (encode_recur fuel visited) v j.
Proof using Hexact Hheap lua_tables.
  induction j as [j Hj|a Ha|o Ho] using json_ind; intros v [|fuel] visited He Hin out r Hacc Hr; try done.
  - assert (is_scalar json_null v = true) as Hs.
    { destruct He; try done. by apply bool_decide_eq_true_2. }
    simpl in Hr. destruct (encodes_supported _ _ He) as [Hu _]. rewrite Hu, Hs in Hr.
    rewrite (scalar_written v j) in Hr by done. by simplify_eq.
  - pose proof (inside_not_visited _ _ _ He Hin) as Hv.
    inversion He as [| | | |t tb a0 Hn Ht Hto Hm Hl Hi|]; simplify_eq.
    rewrite encode_recur_table, Ht in Hr by done. unfold encode_table in Hr. cbn [default from_option id] in Hr.
    rewrite (array_taken _ _ _ Ht Hm Hl Hi) in Hr.
    rewrite as_written_array in Hacc |- *.
    apply accepts_cons in Hacc as [Hb Hacc]. rewrite Hb in Hr. cbn [fbind] in Hr.
    apply accepts_app in Hacc as [Hacc Hend]. apply accepts_cons in Hend as [Hend _].
    destruct (array_elements _ _ _ Ht Hl Hi) as [_ Hip].
    destruct (encode_elements _ _ _) as [r1|] eqn:E; [|done].
    apply (elements_written _ _ a) in E as ->; [|rewrite Hip|done].
    + cbn [fbind] in Hr. rewrite Hend in Hr. simplify_eq. by rewrite <- !app_assoc.
    + apply Forall2_fmap_l, Forall2_same_length_lookup. rewrite length_seq. split; [done|].
      intros i i' jc [-> Hlt]%lookup_seq Hjc. rewrite Forall_lookup in Ha.
      apply (Ha _ _ Hjc); [by apply Hi|]. eapply inside_cons; [exact He|done|].
      simpl. rewrite length_app. simpl.
      assert (as_written jc ∈ map as_written a) as Hel
        by (apply list_elem_of_fmap; exists jc; split; [done|by eapply list_elem_of_lookup_2]).
      apply length_concat_elem in Hel. lia.
  - pose proof (inside_not_visited _ _ _ He Hin) as Hv.
    inversion He as [| | | | |t tb o0 Hn Ht Hto Hm Hk Hi]; simplify_eq.
    rewrite encode_recur_table, Ht in Hr by done. unfold encode_table in Hr. cbn [default from_option id] in Hr.
    rewrite (object_not_taken _ _ _ Ht Hm Hk) in Hr.
    rewrite as_written_object in Hacc |- *.
    apply accepts_cons in Hacc as [Hb Hacc]. rewrite Hb in Hr. cbn [fbind] in Hr.
    apply accepts_app in Hacc as [Hacc Hend]. apply accepts_cons in Hend as [Hend _].
    destruct (encode_fields _ _ _ _ _ _ _ _ _) as [r1|] eqn:E; [|done].
    apply (fields_written _ _ _ o) in E as ->; [| |done].
    + cbn [fbind] in Hr. rewrite Hend in Hr. simplify_eq. by rewrite <- !app_assoc.
    + apply Forall2_same_length_lookup. split.
      { by rewrite <- (length_fmap fst (slots tb)), Hk, !length_fmap. }
      intros i [k v] [k' jc] Hs Hf.
      apply (f_equal (.!! i)) in Hk. rewrite !list_lookup_fmap, Hs, Hf in Hk. simplify_eq/=.
      assert (encodes v jc) as Hvj by (apply (Hi i); by rewrite list_lookup_fmap, ?Hs, ?Hf).
      split; [done|]. split; [done|]. rewrite Forall_lookup in Ho.
      apply (Ho _ _ Hf); [done|]. eapply inside_cons; [exact He|done|].
      simpl. rewrite length_app. simpl.
      assert (WString k' :: as_written jc ∈ map (λ f, WString f.1 :: as_written f.2) o) as Hel
        by (apply list_elem_of_fmap; exists (k', jc); split; [done|by eapply list_elem_of_lookup_2]).
      apply length_concat_elem in Hel. simpl in Hel. lia.
Qed.

End encode.
