(* ===== verification/JsonSpec.v ===== *)
(** What [src/src/json.cpp] and [src/bytecode/json_encode.lua] promise: a text
    is decoded to its document or to its first fault, encoding ends, and what
    was encoded is decoded to the same document. *)
From S2P Require Import Prelude Errors Lua LuaTable JsonCodec JsonDecodeSpec JsonEncodeSpec.

(** * Decoding *)
Section decode.
Context `{LuaTables} (json_null array_mt : loc) (array_key_max : Z).
#[local] Abbreviation decode_symbols := (decode_symbols json_null array_mt array_key_max).
#[local] Abbreviation decode_reader := (decode_reader json_null array_mt array_key_max).

Lemma as_symbols_cons j : ∃ x l, as_symbols j = x :: l.
Proof. destruct j; simpl; eauto. Qed.

Lemma decode_symbols_app l1 l2 s :
  decode_symbols (l1 ++ l2) s =
  match decode_symbols l1 s with inl s => decode_symbols l2 s | inr r => inr r end.
Proof.
  revert s. induction l1 as [|x l1 IH]; intros s; simpl; [done|].
  by destruct (on_symbol _ _ _ x s).
Qed.

(** Nothing but [DecodeFails] ends the symbols. *)
Lemma on_symbol_ends x s r :
  on_symbol json_null array_mt array_key_max x s = inr r → r = DecodeUndefined ∨ ∃ e, r = DecodeFails e.
Proof.
  assert (∀ e, raise_error e = inr r → r = DecodeUndefined ∨ ∃ e, r = DecodeFails e) as Hr
    by (intros e [= <-]; eauto).
  destruct x; simpl; unfold on_leaf, on_begin, on_end, value_fails, too_long;
    repeat case_match; try done; eauto; naive_solver.
Qed.
Lemma decode_symbols_ends l s r :
  decode_symbols l s = inr r → r = DecodeUndefined ∨ ∃ e, r = DecodeFails e.
Proof.
  revert s. induction l as [|x l IH]; intros s; simpl; [done|].
  destruct (on_symbol _ _ _ x s) eqn:E; [apply IH|]. intros [= <-]. by eapply on_symbol_ends.
Qed.

(** A document without faults. *)
Lemma faultless_decoded h j :
  (0 <= array_key_max < 2 ^ 53 - 1)%Z → heap_wf h → json_null < next_loc h →
  (length (as_symbols j) < 2 ^ 53)%Z → fault array_key_max [] j = None →
  ∃ h' v, decode_reader (Reader (as_symbols j) None) h = Decoded h' v ∧
    denotes json_null array_mt true (next_loc h) h' v j ∧ heap_wf h' ∧ grown (next_loc h) h h'.
Proof.
  intros Hmax Hh Hnull Hsmall Ef.
  assert (ready json_null (Decoding h [] [] LNil)) as Hr by (split_and!; auto).
  pose proof (document_decodes json_null array_mt array_key_max Hmax j _ [] Hr Hsmall) as Hd.
  destruct (as_symbols_cons j) as (x & l & Hj). rewrite app_nil_r in Hd. simpl path in Hd.
  unfold decode_reader. cbn [pending ending]. rewrite Hj, Ef in *.
  destruct Hd as (h' & v & tr & Hh' & Hv & Hk & ->). by exists h', v.
Qed.

(** C18 A text whose symbols are those of a document is decoded to that
    document, in new tables, every array marked, the last of two fields with
    one key kept, or it is refused at the first fault of the document, with
    the path to it. *)
Theorem json_decode_spec h j :
  (0 <= array_key_max < 2 ^ 53 - 1)%Z → heap_wf h → json_null < next_loc h →
  (length (as_symbols j) < 2 ^ 53)%Z →
  match fault array_key_max [] j with
  | Some e => decode_reader (Reader (as_symbols j) None) h = DecodeFails e
  | None =>
      ∃ h' v, decode_reader (Reader (as_symbols j) None) h = Decoded h' v ∧
        denotes json_null array_mt true (next_loc h) h' v j ∧
        heap_wf h' ∧ grown (next_loc h) h h'
  end.
Proof.
  intros Hmax Hh Hnull Hsmall.
  destruct (fault array_key_max [] j) as [e|] eqn:Ef; [|by apply faultless_decoded].
  assert (ready json_null (Decoding h [] [] LNil)) as Hr by (split_and!; auto).
  pose proof (document_decodes json_null array_mt array_key_max Hmax j _ [] Hr Hsmall) as Hd.
  destruct (as_symbols_cons j) as (x & l & Hj). rewrite app_nil_r in Hd. simpl path in Hd.
  unfold decode_reader. cbn [pending ending]. rewrite Hj, Ef in *. by rewrite Hd.
Qed.

(** A text that stops inside of a document, with an error of the lexer, is
    refused: decoding neither gives a value nor reads the path where it is
    empty. *)
Theorem json_decode_cut h j l1 l2 ec :
  (0 <= array_key_max < 2 ^ 53 - 1)%Z → heap_wf h → json_null < next_loc h →
  (length (as_symbols j) < 2 ^ 53)%Z → as_symbols j = l1 ++ l2 →
  ∃ e, decode_reader (Reader l1 (Some ec)) h = DecodeFails e ∧
    (fault array_key_max [] j = None → e = LexerError ec).
Proof.
  intros Hmax Hh Hnull Hsmall Hj.
  assert (ready json_null (Decoding h [] [] LNil)) as Hr by (split_and!; auto).
  pose proof (document_decodes json_null array_mt array_key_max Hmax j _ [] Hr Hsmall) as Hd.
  rewrite app_nil_r, Hj, decode_symbols_app in Hd. simpl path in Hd.
  unfold decode_reader. cbn [pending ending]. destruct l1 as [|x l1]; [by exists (LexerError ec)|].
  destruct (decode_symbols (x :: l1) _) as [s|r] eqn:E; [by exists (LexerError ec)|].
  destruct (fault array_key_max [] j) as [e|].
  - exists e. by simplify_eq.
  - by destruct Hd as (? & ? & ? & _ & _ & _ & [=]).
Qed.
End decode.

(** * Encoding *)
Section encode.
Context `{LuaTables} (json_null array_mt : loc).
Context (refuse : list written → written → option Z).
Context (double_to_int64 : lua_Number → option (Z * bool)).
Context (tojson : lua_heap → lua_value →
  option (list lua_value → list written → encode_error + list written)).
#[local] Abbreviation json_encode :=
  (json_encode json_null array_mt refuse double_to_int64 tojson).

(** Encoding ends for every value, with as many nested calls as there are
    tables and one more; without [__tojson] it reports a cycle only if some
    table is inside of itself. *)
Theorem json_encode_ends generate h value indent :
  ∃ r, json_encode generate (S (size (dom (tables h)))) h value indent = Some r ∧
    (r = inl EEcycle → (∀ v, tojson h v = None) → ∃ t, tc (child h) t t).
Proof.
  unfold JsonCodec.json_encode. destruct indent; [by eexists|].
  destruct (encode_total json_null array_mt refuse double_to_int64 tojson h
    (S (size (dom (tables h)))) [] value []) as [r Hr]; [apply tables_left_enough|].
  rewrite Hr. destruct r as [e|out]; simpl; eexists; (split; [done|]); [|done].
  intros [= ->] Hno. eapply cycle_found; [exact Hno| |exact Hr]. set_solver.
Qed.

(** C19 Round trip for documents whose numbers are integers from [-2^53] to [2^53],
    without reals: a value that is such a document ([encodes], fields in the order
    of [pairs]) is encoded, when the writer does not refuse it and the decoder finds
    no fault with it, and the text is
    decoded to the same document in new tables, where the reader of the library
    gives the symbols of what its writer wrote. *)
Theorem json_round_trip generate read array_key_max h value j h0 :
  (0 <= array_key_max < 2 ^ 53 - 1)%Z → heap_wf h →
  encodes json_null array_mt tojson h value j →
  (∀ z, (- 2 ^ 53 ≤ z ≤ 2 ^ 53)%Z → double_to_int64 (lua_pushinteger z) = Some (z, true)) →
  accepts refuse [] (as_written j) →
  read (generate (as_written j)) = Reader (as_symbols j) None →
  heap_wf h0 → json_null < next_loc h0 → (length (as_symbols j) < 2 ^ 53)%Z →
  fault array_key_max [] j = None →
  denotes json_null array_mt false 0 h value j ∧
  ∃ text h' value',
    json_encode generate (S (size (dom (tables h)))) h value false = Some (inr text) ∧
    decode json_null array_mt array_key_max read (LString text) h0 = Decoded h' value' ∧
    denotes json_null array_mt true (next_loc h0) h' value' j.
Proof.
  intros Hmax Hh He Hexact Hacc Hread Hh0 Hnull Hsmall Hfault.
  split; [by eapply encodes_denotes|].
  pose proof (faultless_decoded json_null array_mt array_key_max h0 j Hmax Hh0 Hnull Hsmall Hfault) as Hd.
  destruct Hd as (h' & v' & Hd & Hv & _ & _).
  exists (generate (as_written j)), h', v'. split; [|split; [|done]].
  - unfold JsonCodec.json_encode.
    destruct (encode_total json_null array_mt refuse double_to_int64 tojson h
      (S (size (dom (tables h)))) [] value []) as [r Hr]; [apply tables_left_enough|].
    rewrite Hr. eapply document_written in Hr as ->; try done. intros v j' Hv'. set_solver.
  - unfold decode. by rewrite Hread.
Qed.
End encode.

(** * A concrete library and heap *)
Module Examples.
#[local] Existing Instance FirstBorder.lua_tables.
#[local] Existing Instance Ieee754.api.

(** A binary text: a tag, and the length of a string. *)
Definition token (w : written) : bytes :=
  match w with
  | WNull => [0]%Z
  | WBoolean b => [1; Z.b2z b]%Z
  | WInteger z | WReal z => [2; z]%Z
  | WString s => 3%Z :: Z.of_nat (length s) :: s
  | WBeginArray => [4]%Z
  | WEndArray => [5]%Z
  | WBeginObject => [6]%Z
  | WEndObject => [7]%Z
  end.
Definition generate (ws : list written) : bytes := concat (map token ws).

(** [levels] tells the objects, with whether a key comes next, from the
    arrays. *)
Definition value_read (levels : list (option bool)) : list (option bool) :=
  match levels with Some false :: levels => Some true :: levels | _ => levels end.
Fixpoint read_symbols (fuel : nat) (levels : list (option bool)) (text : bytes) : list symbol :=
  match fuel, text with
  | S fuel, (0 :: text)%Z => SNull :: read_symbols fuel (value_read levels) text
  | S fuel, (1 :: b :: text)%Z =>
      SBoolean (b =? 1)%Z :: read_symbols fuel (value_read levels) text
  | S fuel, (2 :: z :: text)%Z =>
      SInteger (inr z) :: read_symbols fuel (value_read levels) text
  | S fuel, (3 :: n :: text)%Z =>
      let s := take (Z.to_nat n) text in
      let text := drop (Z.to_nat n) text in
      match levels with
      | Some true :: levels => SKey s :: read_symbols fuel (Some false :: levels) text
      | _ => SString s :: read_symbols fuel (value_read levels) text
      end
  | S fuel, (4 :: text)%Z => SBeginArray :: read_symbols fuel (None :: levels) text
  | S fuel, (5 :: text)%Z => SEndArray :: read_symbols fuel (value_read (tail levels)) text
  | S fuel, (6 :: text)%Z => SBeginObject :: read_symbols fuel (Some true :: levels) text
  | S fuel, (7 :: text)%Z => SEndObject :: read_symbols fuel (value_read (tail levels)) text
  | _, _ => []
  end.
Definition read (text : bytes) : reader := Reader (read_symbols (length text) [] text) None.

Definition refuse (_ : list written) (_ : written) : option Z := None.
Definition tojson (_ : lua_heap) (_ : lua_value) :
  option (list lua_value → list written → encode_error + list written) := None.
Definition double_to_int64 (n : lua_Number) : option (Z * bool) :=
  Some (lua_tointeger n, bool_decide (lua_pushinteger (lua_tointeger n) = n)).

Definition num (i : Z) : lua_value := LNumber (lua_pushinteger i).
Definition array_table : table := Table [(num 1, num 5); (num 2, LBoolean true)] None.
Definition object_table : table :=
  Table [(LString (lit "a"), LTable 2); (LString (lit "b"), LTable 0)] None.
(** [json.null] and the metatable of arrays come first. *)
Definition json_heap : lua_heap :=
  Heap {[0 := empty_table; 1 := empty_table; 2 := array_table; 3 := object_table]} ∅ 4.
Definition document : json :=
  JObject [(lit "a", JArray [JInteger (inr 5%Z); JBoolean true]); (lit "b", JNull)].
(** [[[1]]] with room for one element and one level. *)
Definition deep : json := JArray [JArray [JInteger (inr 1%Z)]].

#[local] Instance heap_wf_dec h : Decision (heap_wf h).
Proof. unfold heap_wf, table_wf. apply _. Defined.
Lemma json_heap_wf : heap_wf json_heap.
Proof. apply (bool_decide_unpack _). vm_compute. exact I. Qed.

Lemma document_encodes : encodes 0 1 tojson json_heap (LTable 3) document.
Proof.
  apply encodes_object with (tb := object_table); try reflexivity; [discriminate|].
  intros [|[|i]] v j Hv Hj; simplify_eq/=; [|constructor].
  apply encodes_array with (tb := array_table); try reflexivity; [discriminate|by right|].
  intros [|[|i]] j' Hj'; [injection Hj' as <-..|discriminate].
  - change (encodes 0 1 tojson json_heap (num 5) (JInteger (inr 5%Z))). constructor. lia.
  - change (encodes 0 1 tojson json_heap (LBoolean true) (JBoolean true)). constructor.
Qed.

Lemma json_decode_spec_witness :
  decode_reader 0 1 1 (Reader (as_symbols deep) None) json_heap = DecodeFails TooManyLevels ∧
  match fault 1 [] deep with
  | Some e => decode_reader 0 1 1 (Reader (as_symbols deep) None) json_heap = DecodeFails e
  | None =>
      ∃ h' v, decode_reader 0 1 1 (Reader (as_symbols deep) None) json_heap = Decoded h' v ∧
        denotes 0 1 true 4 h' v deep ∧ heap_wf h' ∧ grown 4 json_heap h'
  end.
Proof.
  split; [reflexivity|]. apply (json_decode_spec 0 1 1 json_heap deep);
    [lia|apply json_heap_wf|vm_compute; lia|vm_compute; reflexivity].
Defined.

Lemma json_decode_cut_witness :
  ∃ e, decode_reader 0 1 10 (Reader (take 4 (as_symbols document)) (Some 3%Z)) json_heap = DecodeFails e ∧
    (fault 10 [] document = None → e = LexerError 3).
Proof.
  apply (json_decode_cut 0 1 10 json_heap document _ (drop 4 (as_symbols document)));
    [lia|apply json_heap_wf|vm_compute; lia|vm_compute; reflexivity|reflexivity].
Defined.

Lemma json_round_trip_witness :
  denotes 0 1 false 0 json_heap (LTable 3) document ∧
  ∃ text h' value',
    json_encode 0 1 refuse double_to_int64 tojson generate (S (size (dom (tables json_heap))))
      json_heap (LTable 3) false = Some (inr text) ∧
    decode 0 1 2147483647 read (LString text) json_heap = Decoded h' value' ∧
    denotes 0 1 true 4 h' value' document.
Proof.
  apply (json_round_trip 0 1 refuse double_to_int64 tojson generate read 2147483647 json_heap
    (LTable 3) document json_heap);
    [lia|apply json_heap_wf|apply document_encodes| | |reflexivity|apply json_heap_wf
    |vm_compute; lia|vm_compute; reflexivity|vm_compute; reflexivity].
  - intros z Hz. unfold double_to_int64. rewrite lua_pushinteger_exact by exact Hz.
    rewrite bool_decide_true by reflexivity. reflexivity.
  - intros ws1 w ws2 _. reflexivity.
Defined.
End Examples.
