(* ===== verification/Scope.v ===== *)
(** Scopes and their cleanup handlers ([src/src/scope_cleanup.cpp]), the
    [pcall], [xpcall] and [coroutine.create] that are scopes themselves
    ([src/src/lua_shim.cpp], [src/bytecode/]), and the functions a fiber
    starts with.

    What a program does with them is a tree of their calls, [prog]; [run] is
    what the calls do, with fuel, since a handler is called long after it was
    registered.  A program runs in one fiber; its coroutines run to their end
    when they are resumed ([Shim.v] has those that yield). *)
From S2P Require Import Prelude Errors Lua Vm.

(** * Programs *)

(** [Suspend] is a call that suspends the fiber; [arrives] says whether
    [interrupt] is called on it meanwhile.  A handler that is no function is
    [None].  The calls that catch errors go on in one of two ways. *)
Inductive prog : Type :=
| Return
| Raise (e : lua_error)
| Emit (n : nat) (k : prog)
| Suspend (arrives : bool) (k : prog)
| DisableInterruption (k : prog)
| RestoreInterruption (k : prog)
| CleanupPush (h : option prog) (k : prog)
| CleanupPop (execute : bool) (k : prog)
| Scope (f : prog) (k : prog)
| Pcall (f : prog) (k_ok k_err : prog)
| Coroutine (f : prog) (k_ok k_err : prog).

(** * State *)

(** What can be seen of a program. *)
Inductive event : Type :=
| Emitted (n : nat)
| Pushed (id : nat)          (* a handler is registered *)
| Began (id : nat)           (* a handler is called *)
| Ended (id : nat)           (* and returns *)
| Dropped (id : nat)         (* [scope_cleanup_pop(false)] *)
| Interrupted                (* an interruption point raises *)
| CoroutineEnded.

Definition handler : Type := nat * prog.

(** The scopes of the running coroutine, at [scope_cleanup_handlers_key],
    innermost first, each with its newest handler first; the fiber's
    INTERRUPTION_DISABLED and INTERRUPTED; how many handlers were registered. *)
Record state : Type := State {
  scopes : list (list handler);
  counter : disabled_t;
  was_interrupted : bool;
  registered : nat;
  trace : list event;
}.

Inductive ended : Type :=
| Done
| Raised (e : lua_error)
| VmTerminated.                            (* [terminate_vm_with_cleanup_error] *)
Definition result : Type := option (state * ended).

Definition with_scopes (s : list (list handler)) (st : state) : state :=
  State s (counter st) (was_interrupted st) (registered st) (trace st).
Definition with_counter (c : disabled_t) (st : state) : state :=
  State (scopes st) c (was_interrupted st) (registered st) (trace st).
Definition log (e : event) (st : state) : state :=
  State (scopes st) (counter st) (was_interrupted st) (registered st) (trace st ++ [e]).

(** [lua_tointeger] of the field. *)
Definition count (st : state) : Z :=
  match counter st with DBoolean _ => 0 | DNumber n => n end.
Definition disable_interruption (st : state) : state := with_counter (DNumber (count st + 1)) st.
Definition restore_interruption (st : state) : lua_error + state :=
  if decide (count st > 0)%Z then inr (with_counter (DNumber (count st - 1)) st)
  else inl (ECode Core.interruption_already_allowed None).

(** [check_not_interrupted]; the calls that suspend check the same. *)
Definition check_not_interrupted (st : state) : option lua_error :=
  if is_disabled (counter st) then None
  else if was_interrupted st then Some (ECode Core.interrupted None) else None.

Definition scope_cleanup_push (h : option prog) (st : state) : lua_error + state :=
  match h with
  | None => inl (ECode invalid_argument None)
  | Some body =>
      let id := registered st in
      inr (State match scopes st with
                 | hs :: rest => ((id, body) :: hs) :: rest
                 | [] => []
                 end
             (counter st) (was_interrupted st) (S id) (trace st ++ [Pushed id]))
  end.

(** [scope_cleanup_pop] of [scope_cleanup.cpp]. *)
Definition scope_cleanup_pop (st : state) : lua_error + handler * state :=
  match scopes st with
  | (h :: hs) :: rest => inr (h, disable_interruption (with_scopes (hs :: rest) st))
  | _ => inl (ECode Core.unmatched_scope_cleanup None)
  end.

Definition unsafe_scope_push (st : state) : state := with_scopes ([] :: scopes st) st.
Definition unsafe_scope_pop (st : state) : list handler * state :=
  (default [] (head (scopes st)), with_scopes (tail (scopes st)) (disable_interruption st)).

(** The root scope is not taken from the table. *)
Definition root_handlers (st : state) : list handler := default [] (last (scopes st)).
Definition root_scope (st : state) : state := disable_interruption st.

(** * Cleanup *)
Section cleanup.
Context (run : prog → state → result).

(** A handler under [pcall]: its error ends the VM. *)
Definition call_handler (h : handler) (st : state) : result :=
  match run h.2 (log (Began h.1) st) with
  | Some (st, Done) => Some (log (Ended h.1) st, Done)
  | Some (st, Raised _) => Some (st, VmTerminated)
  | r => r
  end.

Definition then_ (r : result) (k : state → result) : result :=
  match r with Some (st, Done) => k st | _ => r end.

(** [while i > 0 do .. end] over the handlers of a scope that was left. *)
Fixpoint run_handlers (hs : list handler) (st : state) : result :=
  match hs with
  | [] => Some (st, Done)
  | h :: hs => then_ (call_handler h st) (run_handlers hs)
  end.

(** The same over the table of the root scope, where a handler still
    registers and removes others; [nil] cannot be called. *)
Fixpoint run_root_handlers (i : nat) (st : state) : result :=
  match i with
  | 0 => Some (st, Done)
  | S i =>
      match reverse (root_handlers st) !! i with
      | Some h => then_ (call_handler h st) (run_root_handlers i)
      | None => Some (st, VmTerminated)
      end
  end.

Definition restored (st : state) (k : state → result) : result :=
  match restore_interruption st with
  | inr st => k st
  | inl e => Some (st, Raised e)
  end.

(** Leaving a scope, and then [k], with how its function ended. *)
Definition leave_scope (r : result) (k : option lua_error → state → result) : result :=
  let leave e st :=
    let '(hs, st) := unsafe_scope_pop st in
    then_ (run_handlers hs st) (λ st, restored st (k e)) in
  match r with
  | Some (st, Done) => leave None st
  | Some (st, Raised e) => leave (Some e) st
  | _ => r
  end.

(** Leaving the root scope. *)
Definition leave_root (r : result) (k : option lua_error → state → result) : result :=
  let leave e st :=
    let st := root_scope st in
    then_ (run_root_handlers (length (root_handlers st)) st) (k e) in
  match r with
  | Some (st, Done) => leave None st
  | Some (st, Raised e) => leave (Some e) st
  | _ => r
  end.
End cleanup.

(** * Running *)

Definition checked (st : state) (k : result) : result :=
  match check_not_interrupted st with
  | Some e => Some (log Interrupted st, Raised e)
  | None => k
  end.
Definition arrive (arrives : bool) (st : state) : state :=
  State (scopes st) (counter st) (was_interrupted st || arrives) (registered st) (trace st).

(** A call of C code that may raise. *)
Definition may_raise (r : lua_error + state) (st : state) (k : state → result) : result :=
  match r with inr st => k st | inl e => Some (st, Raised e) end.

(** [coroutine.create]: a new table of scopes, until the coroutine ends. *)
Definition init_new_coro_or_fiber_scope (st : state) : state := with_scopes [[]] st.

Fixpoint run (fuel : nat) (p : prog) (st : state) : result :=
  match fuel with
  | 0 => None
  | S fuel =>
      let run := run fuel in
      match p with
      | Return => Some (st, Done)
      | Raise e => Some (st, Raised e)
      | Emit n k => run k (log (Emitted n) st)
      | Suspend arrives k => let st := arrive arrives st in checked st (run k st)
      | DisableInterruption k => run k (disable_interruption st)
      | RestoreInterruption k => may_raise (restore_interruption st) st (run k)
      | CleanupPush h k => may_raise (scope_cleanup_push h st) st (run k)
      | CleanupPop execute k =>
          match scope_cleanup_pop st with
          | inl e => Some (st, Raised e)
          | inr (h, st) =>
              if execute then
                then_ (call_handler run h st) (λ st, restored st (run k))
              else restored (log (Dropped h.1) st) (run k)
          end
      | Scope f k =>
          leave_scope run (run f (unsafe_scope_push st))
            (λ e st, match e with Some e => Some (st, Raised e) | None => run k st end)
      | Pcall f k_ok k_err =>
          checked st
            (leave_scope run (run f (unsafe_scope_push st))
               (λ e st, run (if e is Some _ then k_err else k_ok) st))
      | Coroutine f k_ok k_err =>
          checked st
            (leave_root run (run f (init_new_coro_or_fiber_scope st))
               (λ e st', run (if e is Some _ then k_err else k_ok)
                           (log CoroutineEnded (with_scopes (scopes st) st'))))
      end
  end.

(** How a fiber ends: the value of [start_fn] or its error. *)
Definition end_fiber (e : option lua_error) (st : state) : result :=
  Some (st, match e with Some e => Raised e | None => Done end).

(** A fiber of [spawn], a fiber that loads a module, and the main fiber. *)
Definition spawn_start_fn (fuel : nat) (start_fn : prog) (st : state) : result :=
  leave_root (run fuel) (run fuel start_fn (init_new_coro_or_fiber_scope st)) end_fiber.
Definition module_start_fn (mark_module_as_loaded : state → state) (fuel : nat)
    (start_fn : prog) (st : state) : result :=
  leave_root (run fuel) (run fuel start_fn (init_new_coro_or_fiber_scope st))
    (λ e st, end_fiber e (if e is Some _ then st else mark_module_as_loaded st)).
Definition start_fn (fuel : nat) (start_fn : prog) (st : state) : result :=
  match run fuel start_fn (init_new_coro_or_fiber_scope st) with
  | Some (st, Raised e) => Some (st, Raised e)
  | r => leave_root (run fuel) r end_fiber
  end.
