(* ===== verification/ScopeSpec.v ===== *)
(** What scopes promise of a run: a program ends, and interruption is disabled
    while cleanup handlers run and restored afterwards. *)
From S2P Require Import Prelude Errors Lua Vm Scope.

(** * Programs end *)

(** Fuel that is enough: a handler counts where it is registered; the handlers
    of a root scope may register others, but each of the slots that are there
    when the coroutine ends is called once. *)
Fixpoint weight (p : prog) : nat :=
  match p with
  | Return | Raise _ => 1
  | Emit _ k | Suspend _ k | DisableInterruption k | RestoreInterruption k
  | CleanupPush None k | CleanupPop _ k => S (weight k)
  | CleanupPush (Some h) k => S (S (weight h) + weight k)
  | Scope f k => S (weight f + weight k)
  | Pcall f k_ok k_err => S (weight f + weight k_ok + weight k_err)
  | Coroutine f k_ok k_err =>
      S (2 ^ weight f * weight f + weight k_ok + weight k_err)
  end.
Definition handlers_weight (hs : list handler) : nat := sum_list_with (λ h, S (weight h.2)) hs.
Definition scopes_weight (st : state) : nat := sum_list_with handlers_weight (scopes st).

Lemma weight_pos p : 0 < weight p.
Proof. induction p as [| | | | | |[]| | | |]; simpl; lia. Qed.

(** A computation ends, and what it leaves in the scopes is not more than [n]. *)
Definition ends (n : nat) (r : result) : Prop :=
  ∃ st o, r = Some (st, o) ∧ scopes_weight st ≤ n.

Lemma ends_mono n n' r : n ≤ n' → ends n r → ends n' r.
Proof. intros Hn (st & o & -> & Hst). exists st, o. split; [done|lia]. Qed.
Lemma ends_then n n' r k :
  ends n r → n ≤ n' → (∀ st, scopes_weight st ≤ n → ends n' (k st)) → ends n' (then_ r k).
Proof.
  intros (st & o & -> & Hst) Hn Hk. destruct o; simpl; [by apply Hk| |]; (eexists _, _; split; [done|lia]).
Qed.
Lemma ends_restored n st k :
  scopes_weight st ≤ n → (∀ st', scopes_weight st' ≤ scopes_weight st → ends n (k st')) →
  ends n (restored st k).
Proof.
  intros Hst Hk. unfold restored, restore_interruption. case_decide; [by apply Hk|].
  by exists st; eexists.
Qed.
Lemma ends_here n st o : scopes_weight st ≤ n → ends n (Some (st, o)).
Proof. intros. by eexists _, _. Qed.

Section handlers.
Context (run : prog → state → result) (m : nat).
Context (Hrun : ∀ p st, weight p + scopes_weight st ≤ m → ends (weight p + scopes_weight st) (run p st)).

Lemma call_handler_ends h st :
  weight h.2 + scopes_weight st ≤ m → ends (weight h.2 + scopes_weight st) (call_handler run h st).
Proof using Hrun.
  intros Hm. destruct (Hrun h.2 (log (Began h.1) st) Hm) as (st' & o & E & Hst).
  unfold call_handler. rewrite E. destruct o; by eexists _, _.
Qed.

Lemma run_handlers_ends hs st :
  handlers_weight hs + scopes_weight st ≤ m →
  ends (handlers_weight hs + scopes_weight st) (run_handlers run hs st).
Proof using Hrun.
  revert st. induction hs as [|h hs IH]; intros st Hm; [by exists st, Done|].
  cbn [run_handlers]. unfold handlers_weight in *. simpl in *.
  eapply ends_then; [apply call_handler_ends; lia|lia|]. intros st' Hst'.
  eapply ends_mono; [|apply IH; lia]. lia.
Qed.

Lemma root_handlers_weight st h : h ∈ root_handlers st → S (weight h.2) ≤ scopes_weight st.
Proof.
  unfold root_handlers, scopes_weight. destruct (last (scopes st)) as [hs|] eqn:E; [|set_solver].
  apply last_Some in E as [l ->]. intros Hin. cbn in Hin. rewrite sum_list_with_app. simpl.
  assert (S (weight h.2) ≤ handlers_weight hs); [|lia].
  unfold handlers_weight. clear l. induction Hin; simpl; lia.
Qed.

(** The root scope may grow while it is left. *)
Lemma run_root_handlers_ends i st :
  2 ^ i * scopes_weight st ≤ m → ends (2 ^ i * scopes_weight st) (run_root_handlers run i st).
Proof using Hrun.
  revert st. induction i as [|i IH]; intros st Hm; cbn [run_root_handlers].
  { exists st, Done. split; [done|]. simpl. lia. }
  assert (0 < 2 ^ i) by (apply Nat.neq_0_lt_0, Nat.pow_nonzero; lia).
  assert (∀ st', scopes_weight st' ≤ 2 * scopes_weight st → 2 ^ i * scopes_weight st' ≤ 2 ^ S i * scopes_weight st)
    as Hdouble by (intros st' Hst'; simpl; nia).
  assert (2 * scopes_weight st ≤ m) by (simpl in Hm; nia).
  destruct (reverse (root_handlers st) !! i) as [h|] eqn:Eh.
  - apply list_elem_of_lookup_2, elem_of_reverse, root_handlers_weight in Eh.
    eapply (ends_then (2 * scopes_weight st)); [|simpl; nia|].
    + eapply ends_mono; [|apply call_handler_ends]; lia.
    + intros st' Hst'. eapply ends_mono; [by apply Hdouble|]. apply IH.
      specialize (Hdouble st' Hst'). lia.
  - eexists _, _. split; [done|]. simpl. nia.
Qed.

Lemma leave_scope_ends n n' r k :
  ends n r → n ≤ m → n ≤ n' → (∀ e st, scopes_weight st ≤ n → ends n' (k e st)) →
  ends n' (leave_scope run r k).
Proof using Hrun.
  intros (st & o & -> & Hst) Hm Hn Hk.
  assert (∀ e, ends n' (let '(hs, st) := unsafe_scope_pop st in
    then_ (run_handlers run hs st) (λ st, restored st (k e)))) as Hleave.
  { intros e. destruct (unsafe_scope_pop st) as [hs st1] eqn:E.
    assert (handlers_weight hs + scopes_weight st1 = scopes_weight st) as Hw.
    { unfold unsafe_scope_pop in E. simplify_eq. unfold scopes_weight. simpl.
      by destruct (scopes st). }
    eapply ends_then; [apply run_handlers_ends; lia|lia|]. intros st2 Hst2.
    apply ends_restored; [lia|]. intros st3 Hst3. apply Hk. lia. }
  destruct o; simpl; [apply Hleave|apply Hleave|eexists _, _; split; [done|lia]].
Qed.

Lemma leave_root_ends n n' r k :
  (∃ st o, r = Some (st, o) ∧ length (root_handlers st) ≤ n ∧ scopes_weight st ≤ n) →
  2 ^ n * n ≤ m → 2 ^ n * n ≤ n' →
  (∀ e st, scopes_weight st ≤ 2 ^ n * n → ends n' (k e st)) → ends n' (leave_root run r k).
Proof using Hrun.
  intros (st & o & -> & Hl & Hst) Hm Hn Hk.
  assert (2 ^ length (root_handlers st) ≤ 2 ^ n) by (apply Nat.pow_le_mono_r; lia).
  assert (2 ^ length (root_handlers st) * scopes_weight st ≤ 2 ^ n * n) by nia.
  assert (∀ e, ends n' (then_ (run_root_handlers run (length (root_handlers st)) (root_scope st)) (k e)))
    as Hleave.
  { intros e. eapply ends_then; [by apply run_root_handlers_ends; unfold scopes_weight in *; simpl; lia| |].
    - unfold scopes_weight in *. simpl. lia.
    - intros st1 Hst1. apply Hk. unfold scopes_weight in *. simpl in *. lia. }
  assert (0 < 2 ^ n) by (apply Nat.neq_0_lt_0, Nat.pow_nonzero; lia).
  destruct o; simpl; [apply Hleave|apply Hleave|eexists _, _; split; [done|nia]].
Qed.
End handlers.

Lemma root_handlers_length st : length (root_handlers st) ≤ scopes_weight st.
Proof.
  unfold root_handlers, scopes_weight. destruct (last (scopes st)) as [hs|] eqn:E; simpl; [|lia].
  apply last_Some in E as [l ->]. rewrite sum_list_with_app. simpl.
  assert (length hs ≤ handlers_weight hs); [|lia].
  unfold handlers_weight. clear. induction hs; simpl; lia.
Qed.

Lemma push_weight h st st' :
  scope_cleanup_push h st = inr st' →
  ∃ body, h = Some body ∧ scopes_weight st' ≤ S (weight body) + scopes_weight st.
Proof.
  unfold scope_cleanup_push. destruct h as [body|]; [|done]. intros [= <-].
  exists body. split; [done|]. unfold scopes_weight. simpl. destruct (scopes st); simpl; [lia|].
  unfold handlers_weight. simpl. lia.
Qed.
Lemma pop_weight st h st' :
  scope_cleanup_pop st = inr (h, st') → S (weight h.2) + scopes_weight st' = scopes_weight st.
Proof.
  unfold scope_cleanup_pop, scopes_weight. destruct (scopes st) as [|[|h' hs] rest]; try done.
  intros [= <- <-]. simpl. unfold handlers_weight. simpl. lia.
Qed.

Lemma run_ends fuel p st :
  weight p + scopes_weight st ≤ fuel → ends (weight p + scopes_weight st) (run fuel p st).
Proof.
  revert p st. induction fuel as [|fuel IH]; intros p st Hf; [pose proof (weight_pos p); lia|].
  assert (∀ k st' n, weight k + scopes_weight st' ≤ n → n ≤ fuel → ends (S n) (run fuel k st')) as Hgo.
  { intros k st' n Hn Hnf. eapply ends_mono; [|apply IH]; lia. }
  destruct p as [|e|n k|arrives k|k|k|h k|execute k|f k|f k_ok k_err|f k_ok k_err]; simpl in Hf |- *.
  - apply ends_here. lia.
  - apply ends_here. lia.
  - apply (Hgo k (log (Emitted n) st)); [done|lia].
  - unfold checked. case_match; [apply ends_here; unfold scopes_weight; simpl; lia|].
    apply (Hgo k (arrive arrives st)); [done|lia].
  - apply (Hgo k (disable_interruption st)); [done|lia].
  - unfold may_raise, restore_interruption. case_decide; [|apply ends_here; lia].
    apply (Hgo k (with_counter _ st)); [done|lia].
  - destruct (scope_cleanup_push h st) as [e|st'] eqn:E; simpl; [apply ends_here; lia|].
    apply push_weight in E as (body & -> & Hw). eapply ends_mono; [|apply IH]; lia.
  - destruct (scope_cleanup_pop st) as [e|[h st']] eqn:E; [apply ends_here; lia|].
    apply pop_weight in E. pose proof (weight_pos k).
    destruct execute.
    + eapply ends_then; [eapply call_handler_ends; [exact IH|lia]|lia|]. intros st1 Hst1.
      apply ends_restored; [lia|]. intros st2 Hst2. eapply ends_mono; [|apply IH]; lia.
    + apply ends_restored; [unfold scopes_weight in *; simpl; lia|]. intros st1 Hst1.
      unfold scopes_weight in Hst1 at 2. simpl in Hst1. fold (scopes_weight st') in Hst1.
      eapply ends_mono; [|apply IH]; lia.
  - eapply leave_scope_ends; [exact IH|apply IH|..]; unfold unsafe_scope_push, scopes_weight in *; simpl in *; try lia.
    intros e st1 Hst1. destruct e; [apply ends_here; unfold scopes_weight; lia|].
    eapply ends_mono; [|apply IH]; unfold scopes_weight; lia.
  - unfold checked. case_match; [apply ends_here; unfold scopes_weight; simpl; lia|].
    eapply leave_scope_ends; [exact IH|apply IH|..]; unfold unsafe_scope_push, scopes_weight in *; simpl in *; try lia.
    intros e st1 Hst1. destruct e; (eapply ends_mono; [|apply IH]; unfold scopes_weight; lia).
  - unfold checked. case_match; [apply ends_here; unfold scopes_weight; simpl; lia|].
    assert (weight f ≤ 2 ^ weight f * weight f) by (assert (2 ^ weight f ≠ 0) by (apply Nat.pow_nonzero; lia); nia).
    eapply (leave_root_ends _ _ IH (weight f)); [| lia | lia |].
    + destruct (IH f (init_new_coro_or_fiber_scope st)) as (st1 & o & E & Hst1);
        unfold scopes_weight in *; simpl in *; [lia|].
      exists st1, o. split; [done|]. pose proof (root_handlers_length st1). unfold scopes_weight in *. lia.
    + intros e st1 _. destruct e;
        (eapply ends_mono; [|apply IH]); unfold scopes_weight in *; simpl in *; lia.
Qed.

(** The function of a fiber, and then its root scope. *)
Lemma fiber_function_ends fuel p st :
  weight p ≤ fuel →
  ∃ st' o, run fuel p (init_new_coro_or_fiber_scope st) = Some (st', o) ∧
    length (root_handlers st') ≤ weight p ∧ scopes_weight st' ≤ weight p.
Proof.
  intros Hf. destruct (run_ends fuel p (init_new_coro_or_fiber_scope st)) as (st1 & o & E & Hst1);
    unfold scopes_weight in *; simpl in *; [lia|].
  exists st1, o. split; [done|]. pose proof (root_handlers_length st1). unfold scopes_weight in *. lia.
Qed.

(** A program that leaves the counter to the scopes. *)
Fixpoint plain (p : prog) : bool :=
  match p with
  | Return | Raise _ => true
  | DisableInterruption _ | RestoreInterruption _ => false
  | Emit _ k | Suspend _ k | CleanupPush None k | CleanupPop _ k => plain k
  | CleanupPush (Some f) k | Scope f k => plain f && plain k
  | Pcall f k_ok k_err | Coroutine f k_ok k_err => plain f && plain k_ok && plain k_err
  end.
Definition plain_handler (h : handler) : Prop := plain h.2.
Definition plain_scopes (st : state) : Prop := Forall (Forall plain_handler) (scopes st).

(** How many handlers are running, as the events tell it; nothing is
    interrupted while one is. *)
Fixpoint quiet (depth : nat) (ev : list event) : option nat :=
  match ev with
  | [] => Some depth
  | Began _ :: ev => quiet (S depth) ev
  | Ended _ :: ev => if depth is S depth then quiet depth ev else None
  | Interrupted :: ev => if depth is 0 then quiet 0 ev else None
  | _ :: ev => quiet depth ev
  end.
Fixpoint coroutines_ended (ev : list event) : Z :=
  match ev with
  | [] => 0
  | CoroutineEnded :: ev => 1 + coroutines_ended ev
  | _ :: ev => coroutines_ended ev
  end.

Lemma quiet_app d ev1 ev2 : quiet d (ev1 ++ ev2) = quiet d ev1 ≫= λ d, quiet d ev2.
Proof. revert d. induction ev1 as [|[] ev1 IH]; intros d; simpl; try done; by destruct d. Qed.
Lemma coroutines_ended_app ev1 ev2 :
  (coroutines_ended (ev1 ++ ev2) = coroutines_ended ev1 + coroutines_ended ev2)%Z.
Proof. induction ev1 as [|[] ev1 IH]; simpl; lia. Qed.
Lemma coroutines_ended_nonneg ev : (0 <= coroutines_ended ev)%Z.
Proof. induction ev as [|[] ev IH]; simpl; lia. Qed.

(** The counter is [n], at least [m], and more if a handler is running. *)
Definition at_depth (m : Z) (st : state) (n : Z) (d : nat) : Prop :=
  counter st = DNumber n ∧ (m <= n)%Z ∧ (0 < d → m < n)%Z.

(** What a computation from [st] does to the counter: [c] is added to it, and
    the coroutines that ended. *)
Definition keeps (m c : Z) (st : state) (r : result) : Prop :=
  ∀ st' o, r = Some (st', o) → plain_scopes st →
  ∃ ev, trace st' = trace st ++ ev ∧ (o ≠ VmTerminated → plain_scopes st') ∧
    ∀ n d, at_depth m st n d →
      match o with
      | VmTerminated => is_Some (quiet d ev)
      | _ => quiet d ev = Some d ∧ counter st' = DNumber (n + c + coroutines_ended ev)
      end.

Lemma keeps_here m st o : keeps m 0 st (Some (st, o)).
Proof.
  intros st' o' [= <- <-] Hst. exists []. split; [by rewrite app_nil_r|]. split; [done|].
  intros n d (Hn & _). simpl. rewrite !Z.add_0_r. destruct o; eauto.
Qed.

(** Events that neither interrupt nor end a coroutine, changes of the counter. *)
Lemma keeps_from m m1 c c1 st st1 r ev1 :
  (plain_scopes st → plain_scopes st1) → trace st1 = trace st ++ ev1 →
  (∀ n d, at_depth m st n d →
    quiet d ev1 = Some d ∧ coroutines_ended ev1 = 0%Z ∧ at_depth m1 st1 (n + c1) d) →
  keeps m1 (c - c1) st1 r → keeps m c st r.
Proof.
  intros Hs Ht Hev Hr st' o E Hst. destruct (Hr st' o E (Hs Hst)) as (ev & Ht' & Hp & Ho).
  exists (ev1 ++ ev). split; [by rewrite Ht', Ht, app_assoc|]. split; [done|].
  intros n d Hd. destruct (Hev n d Hd) as (Hq & Hc & Hd1). specialize (Ho _ _ Hd1).
  rewrite quiet_app, Hq, coroutines_ended_app, Hc. cbn [mbind option_bind]. rewrite Z.add_0_l.
  replace (n + c + coroutines_ended ev)%Z with (n + c1 + (c - c1) + coroutines_ended ev)%Z by lia.
  by destruct o.
Qed.

Lemma keeps_same m c st st1 r ev1 :
  (plain_scopes st → plain_scopes st1) → trace st1 = trace st ++ ev1 → counter st1 = counter st →
  (∀ d, quiet d ev1 = Some d) → coroutines_ended ev1 = 0%Z → keeps m c st1 r → keeps m c st r.
Proof.
  intros Hs Ht Hc Hq He Hr. eapply (keeps_from m m c 0 st st1); [done|exact Ht| |by rewrite Z.sub_0_r].
  intros n d (Hn & ? & ?). split; [done|]. split; [done|]. rewrite Z.add_0_r.
  split; [congruence|done].
Qed.

Section handlers.
Context (run : prog → state → result).
Context (Hrun : ∀ p st, plain p → keeps 0 0 st (run p st)).

Lemma call_handler_ended h st st' e : call_handler run h st ≠ Some (st', Raised e).
Proof. unfold call_handler. by destruct (run _ _) as [[? []]|]. Qed.

(** Handlers run while the counter is positive. *)
Definition keeps_disabled_only (c : Z) (st : state) (r : result) : Prop :=
  ∀ st' o, r = Some (st', o) → plain_scopes st →
  ∃ ev, trace st' = trace st ++ ev ∧ (o = VmTerminated ∨ o = Done ∧ plain_scopes st') ∧
    ∀ n d, counter st = DNumber n → (0 < n)%Z →
      match o with
      | VmTerminated => is_Some (quiet d ev)
      | _ => quiet d ev = Some d ∧ counter st' = DNumber (n + c + coroutines_ended ev)
      end.

Lemma call_handler_keeps h st :
  plain_handler h → keeps_disabled_only 0 st (call_handler run h st).
Proof using Hrun.
  intros Hh st' o. unfold call_handler.
  destruct (run h.2 (log (Began h.1) st)) as [[st1 o1]|] eqn:E; [|done]. intros Ho Hst.
  destruct (Hrun h.2 (log (Began h.1) st) Hh st1 o1 E Hst) as (ev & Ht & Hp & Hq). simpl in Ht.
  assert (∀ n d, counter st = DNumber n → (0 < n)%Z → at_depth 0 (log (Began h.1) st) n (S d)) as Hd
    by (intros n d Hn ?; split; [done|lia]).
  destruct o1; simplify_eq.
  - exists (Began h.1 :: ev ++ [Ended h.1]). simpl. split; [by rewrite Ht, <- !app_assoc|].
    split; [right; split; [done|by apply Hp]|]. intros n d Hn Hpos.
    destruct (Hq n (S d) (Hd n d Hn Hpos)) as [Hq1 Hc1]. rewrite quiet_app, Hq1, coroutines_ended_app.
    simpl. split; [done|]. rewrite Hc1. f_equal. lia.
  - exists (Began h.1 :: ev). split; [by rewrite Ht, <- app_assoc|]. split; [by left|].
    intros n d Hn Hpos. destruct (Hq n (S d) (Hd n d Hn Hpos)) as [Hq1 _]. simpl. by eexists.
  - exists (Began h.1 :: ev). split; [by rewrite Ht, <- app_assoc|]. split; [by left|].
    intros n d Hn Hpos. apply (Hq n (S d) (Hd n d Hn Hpos)).
Qed.

Lemma disabled_then st r k :
  keeps_disabled_only 0 st r → (∀ st1, keeps_disabled_only 0 st1 (k st1)) →
  keeps_disabled_only 0 st (then_ r k).
Proof.
  intros Hr Hk st' o E Hst. destruct r as [[st1 o1]|]; [|done].
  destruct (Hr st1 o1 eq_refl Hst) as (ev1 & Ht1 & [->|[-> Hp1]] & H1); simpl in E.
  - simplify_eq. exists ev1. split; [done|]. split; [by left|]. done.
  - destruct (Hk st1 st' o E Hp1) as (ev2 & Ht2 & Ho2 & H2).
    exists (ev1 ++ ev2). split; [by rewrite Ht2, Ht1, app_assoc|]. split; [done|].
    intros n d Hn Hpos. destruct (H1 n d Hn Hpos) as [Hq1 Hc1].
    pose proof (coroutines_ended_nonneg ev1). specialize (H2 _ d Hc1 ltac:(lia)).
    rewrite quiet_app, Hq1, coroutines_ended_app. simpl.
    replace (n + 0 + (coroutines_ended ev1 + coroutines_ended ev2))%Z
      with (n + 0 + coroutines_ended ev1 + 0 + coroutines_ended ev2)%Z by lia.
    by destruct o.
Qed.

Lemma run_handlers_keeps hs st :
  Forall plain_handler hs → keeps_disabled_only 0 st (run_handlers run hs st).
Proof using Hrun.
  intros Hhs. revert st. induction Hhs as [|h hs Hh Hhs IH]; intros st; simpl.
  - intros st' o [= <- <-] Hst. exists []. rewrite app_nil_r. split; [done|]. split; [by right|].
    intros n d Hn _. simpl. by rewrite !Z.add_0_r.
  - apply disabled_then; [by apply call_handler_keeps|done].
Qed.

Lemma run_root_handlers_keeps i st : keeps_disabled_only 0 st (run_root_handlers run i st).
Proof using Hrun.
  revert st. induction i as [|i IH]; intros st; simpl.
  - intros st' o [= <- <-] Hst. exists []. rewrite app_nil_r. split; [done|]. split; [by right|].
    intros n d Hn _. simpl. by rewrite !Z.add_0_r.
  - intros st' o E Hst. destruct (reverse (root_handlers st) !! i) as [h|] eqn:Eh.
    + assert (plain_handler h) as Hh.
      { apply list_elem_of_lookup_2 in Eh. rewrite elem_of_reverse in Eh. unfold root_handlers in Eh.
        destruct (last (scopes st)) as [hs|] eqn:El; [|by apply elem_of_nil in Eh].
        apply last_Some in El as [l El]. unfold plain_scopes in Hst. rewrite El, Forall_app, Forall_singleton in Hst.
        destruct Hst as [_ Hst]. rewrite Forall_forall in Hst. exact (Hst h Eh). }
      exact (disabled_then _ _ _ (call_handler_keeps h st Hh) IH st' o E Hst).
    + simplify_eq. exists []. rewrite app_nil_r. split; [done|]. split; [by left|]. by eexists.
Qed.

(** Handlers between [disable_interruption] and [k]. *)
Lemma disabled_keeps c st r k :
  keeps_disabled_only 0 (disable_interruption st) r →
  (∀ st1, keeps 1 c st1 (k st1)) → keeps 0 (1 + c) st (then_ r k).
Proof.
  intros Hr Hk. intros st' o E Hst. destruct r as [[st1 o1]|]; [|done].
  destruct (Hr st1 o1 eq_refl Hst) as (ev1 & Ht1 & Ho1 & H1). simpl in Ht1.
  assert (∀ n d, at_depth 0 st n d → counter (disable_interruption st) = DNumber (n + 1) ∧ (0 < n + 1)%Z) as Hd
    by (intros n d (Hn & ? & ?); simpl; unfold count; rewrite Hn; split; [done|lia]).
  destruct Ho1 as [->|[-> Hp1]]; simpl in E.
  - simplify_eq. exists ev1. split; [done|]. split; [done|]. intros n d Hn.
    destruct (Hd n d Hn) as [Hc Hpos]. by apply (H1 (n + 1)%Z d).
  - destruct (Hk st1 st' o E Hp1) as (ev2 & Ht2 & Hp2 & H2).
    exists (ev1 ++ ev2). split; [by rewrite Ht2, Ht1, app_assoc|]. split; [done|].
    intros n d Hn. destruct (Hd n d Hn) as [Hc Hpos]. destruct (H1 (n + 1)%Z d Hc Hpos) as [Hq1 Hc1].
    pose proof (coroutines_ended_nonneg ev1).
    specialize (H2 _ d ltac:(split; [exact Hc1|destruct Hn; lia])).
    rewrite quiet_app, Hq1, coroutines_ended_app. simpl.
    replace (n + (1 + c) + (coroutines_ended ev1 + coroutines_ended ev2))%Z
      with (n + 1 + 0 + coroutines_ended ev1 + c + coroutines_ended ev2)%Z by lia.
    by destruct o.
Qed.

Lemma restored_keeps c st k :
  (∀ st1, keeps 0 c st1 (k st1)) → keeps 1 (c - 1) st (restored st k).
Proof.
  intros Hk. unfold restored, restore_interruption. case_decide as Hc.
  - eapply (keeps_from _ 0 _ (-1) st (with_counter (DNumber (count st - 1)) st) _ []);
      [done|by rewrite app_nil_r| |by replace (c - 1 - -1)%Z with c by lia].
    intros n d (Hn & ? & ?). split; [done|]. split; [done|].
    split; [|lia]. simpl. unfold count. by rewrite Hn.
  - intros st' o [= <- <-] Hst. exists []. rewrite app_nil_r. split; [done|]. split; [done|].
    intros n d (Hn & ? & _). exfalso. apply Hc. unfold count. rewrite Hn. lia.
Qed.

Lemma keeps_above c st r : keeps 0 c st r → keeps 1 c st r.
Proof.
  intros Hr st' o E Hst. destruct (Hr st' o E Hst) as (ev & Ht & Hp & Ho).
  exists ev. split; [done|]. split; [done|]. intros n d (Hn & ? & ?). apply Ho.
  split; [done|lia].
Qed.

(** A function that is left, however it ends. *)
Lemma left_keeps c s st r (leave : option lua_error → state → result) :
  keeps 0 0 (with_scopes s st) r → (plain_scopes st → Forall (Forall plain_handler) s) →
  (∀ e st1, keeps 0 c st1 (leave e st1)) →
  keeps 0 c st match r with
               | Some (st, Done) => leave None st
               | Some (st, Raised e) => leave (Some e) st
               | _ => r
               end.
Proof.
  intros Hr Hs Hl st' o E Hst. destruct r as [[st1 o1]|]; [|done].
  destruct (Hr st1 o1 eq_refl (Hs Hst)) as (ev1 & Ht1 & Hp1 & H1). simpl in Ht1.
  assert (o1 = VmTerminated ∨ o1 ≠ VmTerminated) as [->|Hne] by (destruct o1; auto).
  { simplify_eq. exists ev1. split; [done|]. split; [done|]. intros n d Hd. by apply (H1 n d). }
  assert (∃ e, leave e st1 = Some (st', o)) as [e E1] by (destruct o1; [by eexists..|done]).
  destruct (Hl e st1 st' o E1 (Hp1 Hne)) as (ev2 & Ht2 & Hp2 & H2).
  exists (ev1 ++ ev2). split; [by rewrite Ht2, Ht1, app_assoc|]. split; [done|].
  intros n d Hd. assert (quiet d ev1 = Some d ∧ counter st1 = DNumber (n + 0 + coroutines_ended ev1)) as [Hq1 Hc1]
    by (specialize (H1 n d Hd); by destruct o1).
  pose proof (coroutines_ended_nonneg ev1). destruct Hd as (Hn & ? & ?).
  specialize (H2 _ d ltac:(split; [exact Hc1|lia])).
  rewrite quiet_app, Hq1, coroutines_ended_app. simpl.
  replace (n + c + (coroutines_ended ev1 + coroutines_ended ev2))%Z
    with (n + 0 + coroutines_ended ev1 + c + coroutines_ended ev2)%Z by lia.
  by destruct o.
Qed.

Lemma leave_scope_keeps s st r k :
  keeps 0 0 (with_scopes s st) r → (plain_scopes st → Forall (Forall plain_handler) s) →
  (∀ e st1, keeps 0 0 st1 (k e st1)) → keeps 0 0 st (leave_scope run r k).
Proof using Hrun.
  intros Hr Hs Hk. apply (left_keeps 0 s); [done..|]. intros e st1 st' o E Hst.
  set (hs := default [] (head (scopes st1))). set (rest := tail (scopes st1)).
  assert (Forall plain_handler hs ∧ Forall (Forall plain_handler) rest) as [Hhs Hrest].
  { unfold plain_scopes in Hst. subst hs rest. destruct (scopes st1); [done|]. by inversion Hst. }
  assert (keeps 0 (1 + (0 - 1)) (with_scopes rest st1)
    (then_ (run_handlers run hs (disable_interruption (with_scopes rest st1)))
       (λ st, restored st (k e)))) as Hl.
  { apply disabled_keeps; [by apply run_handlers_keeps|]. intros st2. apply restored_keeps, Hk. }
  exact (Hl st' o E Hrest).
Qed.

Lemma leave_root_keeps c s st r k :
  keeps 0 0 (with_scopes s st) r → (plain_scopes st → Forall (Forall plain_handler) s) →
  (∀ e st1, keeps 0 c st1 (k e st1)) → keeps 0 (1 + c) st (leave_root run r k).
Proof using Hrun.
  intros Hr Hs Hk. apply (left_keeps (1 + c) s); [done..|]. intros e st1.
  apply disabled_keeps; [apply run_root_handlers_keeps|]. intros st2. apply keeps_above, Hk.
Qed.

(** A coroutine that ends leaves the counter one higher. *)
Lemma coroutine_keeps k st r :
  keeps 0 0 (init_new_coro_or_fiber_scope st) r → (∀ e st1, keeps 0 0 st1 (k e st1)) →
  keeps 0 0 st
    (leave_root run r (λ e st', k e (log CoroutineEnded (with_scopes (scopes st) st')))).
Proof using Hrun.
  intros Hr Hk st' o E Hst.
  refine (leave_root_keeps (-1) [[]] st r _ Hr _ _ st' o E Hst); [by repeat constructor|].
  intros e st1 st2 o2 E2 _.
  destruct (Hk e _ st2 o2 E2 Hst) as (ev & Ht & Hp & Ho). simpl in Ht.
  exists (CoroutineEnded :: ev). split; [by rewrite Ht, <- app_assoc|]. split; [done|].
  intros n d Hd. specialize (Ho n d Hd). simpl.
  replace (n + -1 + (1 + coroutines_ended ev))%Z with (n + 0 + coroutines_ended ev)%Z by lia. done.
Qed.
End handlers.

Lemma checked_keeps st r : keeps 0 0 st r → keeps 0 0 st (checked st r).
Proof.
  intros Hr. unfold checked, check_not_interrupted. destruct (is_disabled (counter st)) eqn:Ed; [done|].
  destruct (was_interrupted st); [|done]. intros st' o [= <- <-] Hst.
  exists [Interrupted]. split; [done|]. split; [done|]. intros n d (Hn & ? & Hd).
  rewrite Hn in Ed. apply bool_decide_eq_false in Ed. assert (d = 0) as -> by lia. simpl.
  split; [done|]. rewrite Hn. f_equal. lia.
Qed.

Lemma branch_keeps fuel k_ok k_err (e : option lua_error) st :
  (∀ p st, plain p → keeps 0 0 st (run fuel p st)) → plain k_ok → plain k_err →
  keeps 0 0 st (run fuel (if e is Some _ then k_err else k_ok) st).
Proof. intros IH ? ?. destruct e; by apply IH. Qed.

Lemma run_keeps fuel p st : plain p → keeps 0 0 st (run fuel p st).
Proof.
  revert p st. induction fuel as [|fuel IH]; intros p st Hp; [by intros st' o|].
  destruct p as [|e|n k|arrives k|k|k|h k|execute k|f k|f k_ok k_err|f k_ok k_err];
    simpl in Hp; try done; cbn [run].
  - apply keeps_here.
  - apply keeps_here.
  - by apply (keeps_same _ _ _ (log (Emitted n) st) _ [Emitted n]), IH.
  - apply (keeps_same _ _ _ (arrive arrives st) _ []); try done; [by rewrite app_nil_r|].
    apply checked_keeps. by apply (IH k (arrive arrives st)).
  - destruct h as [body|]; [|apply keeps_here]. apply andb_True in Hp as [Hb Hk]. simpl.
    match goal with |- keeps _ _ _ (run _ _ ?st1) =>
      apply (keeps_same _ _ _ st1 _ [Pushed (registered st)]); try done; [|by apply IH]
    end.
    unfold plain_scopes. simpl. destruct (scopes st) as [|hs rest]; [done|].
    rewrite !Forall_cons. naive_solver.
  - unfold scope_cleanup_pop.
    destruct (scopes st) as [|[|h hs] rest] eqn:Hs; [apply keeps_here..|].
    assert (∀ r, (plain_handler h → keeps 0 0 (with_scopes (hs :: rest) st) r) → keeps 0 0 st r) as Hpop.
    { intros r Hr st' o E Hst. assert (plain_handler h ∧ plain_scopes (with_scopes (hs :: rest) st)) as [Hh Hst1].
      { unfold plain_scopes in Hst. rewrite Hs in Hst. unfold plain_scopes. simpl.
        rewrite !Forall_cons in Hst. rewrite Forall_cons. naive_solver. }
      exact (Hr Hh st' o E Hst1). }
    apply Hpop. intros Hh. destruct execute.
    + apply (disabled_keeps (0 - 1)); [by apply call_handler_keeps|].
      intros st1. apply restored_keeps. intros st2. by apply IH.
    + apply (disabled_keeps (0 - 1) (with_scopes (hs :: rest) st)
        (Some (log (Dropped h.1) (disable_interruption (with_scopes (hs :: rest) st)), Done))
        (λ st, restored st (run fuel k))).
      * intros st' o [= <- <-] Hst. exists [Dropped h.1]. split; [done|]. split; [by right|].
        intros n d Hn _. simpl. by rewrite !Z.add_0_r.
      * intros st1. apply restored_keeps. intros st2. by apply IH.
  - apply andb_True in Hp as [Hf Hk].
    apply (leave_scope_keeps _ IH ([] :: scopes st)); [by apply IH|by constructor|].
    intros e st1. destruct e; [apply keeps_here|by apply IH].
  - apply andb_True in Hp as [[Hf Hok]%andb_True Herr]. apply checked_keeps.
    apply (leave_scope_keeps _ IH ([] :: scopes st)); [by apply IH|by constructor|].
    intros e st1. by apply branch_keeps.
  - apply andb_True in Hp as [[Hf Hok]%andb_True Herr]. apply checked_keeps.
    apply (coroutine_keeps _ IH (λ e st, run fuel (if e is Some _ then k_err else k_ok) st));
      [by apply IH|]. intros e st1. by apply branch_keeps.
Qed.
