(* ===== verification/ScopePromises.v ===== *)
(** The promises of the [scope] family: the order in which cleanup handlers are
    called, the promises for a whole fiber, and what modelling it showed. *)
From S2P Require Import Prelude Errors Lua Vm Scope ScopeSpec.

(** * Settling handlers

    The handlers that wait, newest first, as the events of a program tell it:
    only the newest is called or dropped. *)
Fixpoint settle (waiting : list nat) (ev : list event) : option (list nat) :=
  match ev with
  | [] => Some waiting
  | Pushed id :: ev => settle (id :: waiting) ev
  | Began id :: ev | Dropped id :: ev =>
      match waiting with
      | id' :: waiting => if decide (id = id') then settle waiting ev else None
      | [] => None
      end
  | _ :: ev => settle waiting ev
  end.

Lemma settle_app waiting ev1 ev2 :
  settle waiting (ev1 ++ ev2) = settle waiting ev1 ≫= λ w, settle w ev2.
Proof.
  revert waiting. induction ev1 as [|e ev1 IH]; intros w; [done|].
  destruct e; simpl; try apply IH; destruct w; try done; case_decide; [apply IH|done|apply IH|done].
Qed.

(** A program that leaves the handlers of the scope it is called in alone, and
    one that only registers such handlers. *)
Fixpoint flat (p : prog) : bool :=
  match p with
  | Return | Raise _ => true
  | Emit _ k | Suspend _ k | DisableInterruption k | RestoreInterruption k | Scope _ k => flat k
  | CleanupPush _ _ | CleanupPop _ _ => false
  | Pcall _ k_ok k_err | Coroutine _ k_ok k_err => flat k_ok && flat k_err
  end.
Fixpoint tidy (p : prog) : bool :=
  match p with
  | Return | Raise _ => true
  | Emit _ k | Suspend _ k | DisableInterruption k | RestoreInterruption k
  | CleanupPush None k | CleanupPop _ k => tidy k
  | CleanupPush (Some h) k => flat h && tidy h && tidy k
  | Scope f k => tidy f && tidy k
  | Pcall f k_ok k_err | Coroutine f k_ok k_err => tidy f && tidy k_ok && tidy k_err
  end.

Definition tidy_handler (h : handler) : Prop := flat h.2 ∧ tidy h.2.
Definition wf (st : state) : Prop :=
  scopes st ≠ [] ∧ Forall (Forall tidy_handler) (scopes st).
Definition ids (hs : list handler) : list nat := hs.*1.

(** What a computation from [st] does to the handlers that wait: those of the
    current scope and of the scopes around it, or any ([fl]) when it leaves
    them alone. *)
Definition settles (fl : bool) (st : state) (r : result) : Prop :=
  ∀ st' o, r = Some (st', o) →
  ∃ ev, trace st' = trace st ++ ev ∧ (o ≠ VmTerminated → wf st') ∧
    ∀ top rest base, scopes st = top :: rest →
      let waiting hs := if fl then base else ids hs ++ base in
      match o with
      | VmTerminated => is_Some (settle (waiting top) ev)
      | _ => ∃ top', scopes st' = top' :: rest ∧ (fl → top' = top) ∧
               settle (waiting top) ev = Some (waiting top')
      end.

Lemma settles_here fl st o : wf st → settles fl st (Some (st, o)).
Proof.
  intros Hst st' o' [= <- <-]. exists []. split; [by rewrite app_nil_r|]. split; [done|].
  intros top rest base Hs. destruct o; simpl; eauto.
Qed.

(** An event that is no handler's. *)
Definition silent (e : event) : Prop := ∀ w, settle w [e] = Some w.

(** From a state that differs in what has no part in it. *)
Lemma settles_from fl st st1 r ev1 :
  scopes st1 = scopes st → trace st1 = trace st ++ ev1 → (∀ w, settle w ev1 = Some w) →
  settles fl st1 r → settles fl st r.
Proof.
  intros Hs Ht Hev Hr st' o E. destruct (Hr st' o E) as (ev & Hev' & Hwf & Ho).
  exists (ev1 ++ ev). split; [by rewrite Hev', Ht, app_assoc|]. split; [done|].
  intros top rest base Htop waiting. rewrite settle_app, Hev. simpl. apply Ho. by rewrite Hs.
Qed.

Lemma settles_then fl st r k :
  wf st → settles fl st r → (∀ st1, wf st1 → settles fl st1 (k st1)) → settles fl st (then_ r k).
Proof.
  intros Hwf Hr Hk st' o. destruct r as [[st1 o1]|]; [|done].
  destruct o1; cbn [then_]; [|apply Hr..].
  intros E. destruct (Hr st1 Done eq_refl) as (ev1 & Ht1 & Hwf1 & H1).
  specialize (Hwf1 ltac:(done)). destruct (Hk st1 Hwf1 st' o E) as (ev2 & Ht2 & Hwf2 & H2).
  exists (ev1 ++ ev2). split; [by rewrite Ht2, Ht1, app_assoc|]. split; [done|].
  intros top rest base Hs. destruct (H1 top rest base Hs) as (top1 & Hs1 & Hfl1 & Hw1).
  specialize (H2 top1 rest base Hs1). rewrite settle_app, Hw1. cbn [mbind option_bind].
  destruct o; [|..|done]; destruct H2 as (top2 & Hs2 & Hfl2 & Hw2); exists top2; (split; [done|]);
    (split; [|done]); intros; rewrite Hfl2, Hfl1; done.
Qed.

Lemma settles_any fl st r : settles true st r → settles fl st r.
Proof.
  intros Hr st' o E. destruct (Hr st' o E) as (ev & Ht & Hwf & Ho). exists ev.
  split; [done|]. split; [done|]. intros top rest base Hs.
  destruct fl; [by apply Ho|]. specialize (Ho top rest (ids top ++ base) Hs). simpl in *.
  destruct o; [|..|done]; destruct Ho as (top' & Hs' & Heq & Hset); exists top';
    (split; [done|]); (split; [done|]); by rewrite (Heq I).
Qed.

Lemma settles_weaken fl st r : settles fl st r → settles false st r.
Proof. destruct fl; [apply settles_any|done]. Qed.

Section handlers.
Context (run : prog → state → result).
Context (Hrun : ∀ p st, tidy p → wf st → settles (flat p) st (run p st)).

(** A handler that is called: it is the newest of those that wait. *)
Lemma call_handler_settles h st st' o :
  tidy_handler h → wf st → call_handler run h st = Some (st', o) →
  ∃ ev, trace st' = trace st ++ ev ∧ (o = VmTerminated ∨ o = Done ∧ wf st' ∧ scopes st' = scopes st) ∧
    ∀ w, match o with
         | VmTerminated => is_Some (settle (h.1 :: w) ev)
         | _ => settle (h.1 :: w) ev = Some w
         end.
Proof using Hrun.
  intros [Hf Ht] Hst. unfold call_handler.
  destruct (run h.2 (log (Began h.1) st)) as [[st1 o1]|] eqn:E; [|done].
  destruct (Hrun h.2 (log (Began h.1) st) Ht Hst st1 o1 E) as (ev & Htr & Hwf & Ho).
  destruct (scopes st) as [|top rest] eqn:Hs; [by destruct Hst|].
  apply Is_true_true in Hf. rewrite Hf in Ho. simpl in Htr.
  pose proof (λ w, Ho top rest w Hs) as Hw. clear Ho. simpl in Hw.
  intros Hr. destruct o1; simplify_eq.
  - exists (Began h.1 :: ev ++ [Ended h.1]). simpl. split.
    { rewrite Htr, <- !app_assoc. done. }
    split; [right; split_and!; [done|by apply Hwf|]|].
    + destruct (Hw []) as (top' & Hs' & Heq & _). simpl. rewrite Hs', (Heq I). done.
    + intros w. rewrite decide_True, settle_app by done.
      destruct (Hw w) as (top' & _ & _ & ->). done.
  - exists (Began h.1 :: ev). split; [by rewrite Htr, <- app_assoc|]. split; [by left|].
    intros w. simpl. rewrite decide_True by done. destruct (Hw w) as (top' & _ & _ & ->). by eexists.
  - exists (Began h.1 :: ev). split; [by rewrite Htr, <- app_assoc|]. split; [by left|].
    intros w. simpl. rewrite decide_True by done. apply Hw.
Qed.

Lemma run_handlers_settles hs st st' o :
  Forall tidy_handler hs → wf st → run_handlers run hs st = Some (st', o) →
  ∃ ev, trace st' = trace st ++ ev ∧ (o = VmTerminated ∨ o = Done ∧ wf st' ∧ scopes st' = scopes st) ∧
    ∀ w, match o with
         | VmTerminated => is_Some (settle (ids hs ++ w) ev)
         | _ => settle (ids hs ++ w) ev = Some w
         end.
Proof using Hrun.
  intros Hhs. revert st. induction Hhs as [|h hs Hh Hhs IH]; intros st Hst; simpl.
  { intros [= <- <-]. exists []. rewrite app_nil_r. split; [done|]. split; [by right|done]. }
  unfold then_. destruct (call_handler run h st) as [[st1 o1]|] eqn:E; [|done].
  destruct (call_handler_settles h st st1 o1 Hh Hst E) as (ev1 & Ht1 & [->|(-> & Hwf1 & Hs1)] & Hw1).
  - intros [= <- <-]. exists ev1. split; [done|]. split; [by left|]. intros w. apply Hw1.
  - intros Hr. destruct (IH st1 Hwf1 Hr) as (ev2 & Ht2 & Ho & Hw2).
    exists (ev1 ++ ev2). split; [by rewrite Ht2, Ht1, app_assoc|]. split.
    + destruct Ho as [|(-> & ? & ?)]; [by left|right]. split_and!; [done..|congruence].
    + intros w. rewrite settle_app, Hw1. simpl. apply Hw2.
Qed.

(** A computation of the scope's function, run in a scope of its own. *)
Definition body_settles (st : state) (rest : list (list handler)) (r : result) : Prop :=
  ∀ st' o, r = Some (st', o) →
  ∃ ev, trace st' = trace st ++ ev ∧
    ∀ base, match o with
            | VmTerminated => is_Some (settle base ev)
            | _ => ∃ hs, scopes st' = hs :: rest ∧ Forall tidy_handler hs ∧
                     settle base ev = Some (ids hs ++ base)
            end.

Lemma body_settled f st rest :
  tidy f → Forall (Forall tidy_handler) rest →
  body_settles st rest (run f (with_scopes ([] :: rest) st)).
Proof using Hrun.
  intros Hf Hst st' o E.
  assert (wf (with_scopes ([] :: rest) st)) as Hwf by (split; [done|by constructor]).
  destruct (settles_weaken _ _ _ (Hrun f _ Hf Hwf) st' o E) as (ev & Ht & Hwf' & Ho).
  exists ev. split; [done|]. intros base. specialize (Ho [] rest base eq_refl). simpl in Ho.
  destruct o; [..|done]; destruct Ho as (hs & Hs & _ & Hset); exists hs; (split; [done|]);
    (split; [|done]); destruct Hwf' as [_ Hall]; try done; rewrite Hs in Hall; by inversion Hall.
Qed.

Lemma restored_settles fl st k :
  wf st → (∀ st1, wf st1 → settles fl st1 (k st1)) → settles fl st (restored st k).
Proof.
  intros Hst Hk. unfold restored, restore_interruption. case_decide; [|by apply settles_here].
  apply (settles_from _ _ (with_counter (DNumber (count st - 1)) st) _ []);
    [done|by rewrite app_nil_r|done|]. by apply Hk.
Qed.

Lemma leave_scope_settles fl st r k :
  wf st → body_settles st (scopes st) r →
  (∀ e st1, wf st1 → settles fl st1 (k e st1)) → settles fl st (leave_scope run r k).
Proof using Hrun.
  intros Hst Hr Hk st' o. unfold leave_scope. destruct r as [[st1 o1]|]; [|done].
  destruct (Hr st1 o1 eq_refl) as (ev1 & Ht1 & Hw1).
  assert (o1 = VmTerminated ∨ ∃ hs e, scopes st1 = hs :: scopes st ∧ Forall tidy_handler hs ∧
    (∀ base, settle base ev1 = Some (ids hs ++ base)) ∧
    match o1 with
    | Done => e = None | Raised e' => e = Some e' | VmTerminated => False end) as [->|Hb].
  { destruct o1; [right..|by left].
    1: destruct (Hw1 []) as (hs & Hs & Hhs & _); exists hs, None.
    2: destruct (Hw1 []) as (hs & Hs & Hhs & _); exists hs, (Some e).
    all: split_and!; [done..| |done]; intros base; destruct (Hw1 base) as (hs' & Hs' & _ & ?); rewrite Hs in Hs'; by simplify_eq. }
  { intros [= <- <-]. exists ev1. split; [done|]. split; [done|]. intros top rest base _. apply Hw1. }
  destruct Hb as (hs & e & Hs & Hhs & Hset & He).
  intros E. assert (then_ (run_handlers run hs (with_scopes (scopes st) (disable_interruption st1)))
    (λ st, restored st (k e)) = Some (st', o)) as Hl.
  { destruct o1; subst; [..|done]; unfold unsafe_scope_pop in E; by rewrite Hs in E. }
  clear E Hr Hw1 He. unfold then_ in Hl.
  destruct (run_handlers run hs _) as [[st2 o2]|] eqn:E2; [|done].
  apply run_handlers_settles in E2 as (ev2 & Ht2 & Ho2 & Hw2); [|done|exact Hst].
  destruct Ho2 as [->|(-> & Hwf2 & Hs2)].
  - simplify_eq. exists (ev1 ++ ev2). simpl in Ht2. split; [by rewrite Ht2, Ht1, app_assoc|].
    split; [done|]. intros top rest base _. rewrite settle_app, Hset. simpl. apply Hw2.
  - destruct (restored_settles fl st2 (k e) Hwf2 (Hk e) st' o Hl) as (ev3 & Ht3 & Hwf3 & Hw3).
    exists (ev1 ++ ev2 ++ ev3). simpl in Ht2. split; [by rewrite Ht3, Ht2, Ht1, !app_assoc|].
    split; [done|]. intros top rest base Htop. rewrite !settle_app, Hset. simpl.
    rewrite settle_app, Hw2. simpl. apply Hw3. by rewrite Hs2.
Qed.

(** Leaving the root scope is leaving a scope whose handlers leave it alone. *)
Lemma run_root_handlers_flat hs i st :
  Forall tidy_handler hs → scopes st = [hs] → i ≤ length hs →
  run_root_handlers run i st = run_handlers run (drop (length hs - i) hs) st.
Proof using Hrun.
  intros Hhs. revert st. induction i as [|i IH]; intros st Hs Hi; simpl.
  { by rewrite Nat.sub_0_r, drop_all. }
  unfold root_handlers. rewrite Hs. simpl.
  destruct (hs !! (length hs - S i)) as [h|] eqn:Eh; [|apply lookup_ge_None in Eh; lia].
  assert (reverse hs !! i = Some h) as ->.
  { rewrite <- Eh, reverse_lookup by lia. do 2 f_equal; lia. }
  erewrite drop_S by exact Eh. cbn [run_handlers]. unfold then_.
  destruct (call_handler run h st) as [[st1 o1]|] eqn:E; [|done].
  assert (tidy_handler h) as Hh by (rewrite Forall_lookup in Hhs; by eapply Hhs).
  assert (wf st) as Hst by (split; [by rewrite Hs|by rewrite Hs; repeat constructor]).
  destruct (call_handler_settles _ _ _ _ Hh Hst E) as (ev & _ & [->|(-> & _ & Hs1)] & _); [done|].
  replace (S (length hs - S i)) with (length hs - i) by lia. apply IH; [congruence|lia].
Qed.

Lemma leave_root_settles st r k :
  body_settles st [] r →
  ∀ st' o, leave_root run r k = Some (st', o) →
  ∃ ev st1, trace st1 = trace st ++ ev ∧
    (o = VmTerminated ∧ st' = st1 ∧ (∀ w, is_Some (settle w ev)) ∨
     (∀ w, settle w ev = Some w) ∧ ∃ e, k e st1 = Some (st', o)).
Proof using Hrun.
  intros Hr st' o. unfold leave_root. destruct r as [[st1 o1]|]; [|done].
  destruct (Hr st1 o1 eq_refl) as (ev1 & Ht1 & Hw1).
  assert (∀ e, o1 ≠ VmTerminated →
    then_ (run_root_handlers run (length (root_handlers (root_scope st1))) (root_scope st1)) (k e) = Some (st', o) →
    ∃ ev st2, trace st2 = trace st ++ ev ∧
    (o = VmTerminated ∧ st' = st2 ∧ (∀ w, is_Some (settle w ev)) ∨
     (∀ w, settle w ev = Some w) ∧ ∃ e, k e st2 = Some (st', o))) as Hleave.
  { intros e Ho1 E. assert (∃ hs, scopes st1 = [hs] ∧ Forall tidy_handler hs ∧
      ∀ base, settle base ev1 = Some (ids hs ++ base)) as (hs & Hs & Hhs & Hset).
    { destruct o1; [..|done]; destruct (Hw1 []) as (hs & Hs & Hhs & _); exists hs;
        (split; [done|]); (split; [done|]); intros base; destruct (Hw1 base) as (hs' & Hs' & _ & ?);
        rewrite Hs in Hs'; by simplify_eq. }
    assert (root_handlers (root_scope st1) = hs) as Hrt by (unfold root_handlers; simpl; by rewrite Hs).
    rewrite Hrt, (run_root_handlers_flat hs), Nat.sub_diag, drop_0 in E by done.
    unfold then_ in E. destruct (run_handlers run hs _) as [[st2 o2]|] eqn:E2; [|done].
    apply run_handlers_settles in E2 as (ev2 & Ht2 & Ho2 & Hw2);
      [|done|split; simpl; rewrite Hs; [done|by repeat constructor]].
    exists (ev1 ++ ev2), st2. simpl in Ht2. split; [by rewrite Ht2, Ht1, app_assoc|].
    destruct Ho2 as [->|(-> & _ & _)].
    - simplify_eq. left. split_and!; [done..|]. intros w. rewrite settle_app, Hset. apply Hw2.
    - right. split; [|by exists e]. intros w. rewrite settle_app, Hset. apply Hw2. }
  destruct o1; [by apply Hleave|by apply Hleave|].
  intros [= <- <-]. exists ev1, st1. split; [done|]. left. split_and!; [done..|]. apply Hw1.
Qed.
End handlers.

(** Registering a handler, and removing the newest. *)
Lemma push_settles body st r k :
  tidy_handler (registered st, body) → wf st → scope_cleanup_push (Some body) st = inr k →
  (wf k → settles false k r) → settles false st r.
Proof.
  intros Hh [Hne Hall]. unfold scope_cleanup_push.
  destruct (scopes st) as [|top rest] eqn:Hs; [done|]. intros [= <-] Hk st' o E.
  inversion_clear Hall as [|? ? Htop Hrest].
  destruct (Hk ltac:(split; simpl; [done|by constructor; [constructor|]]) st' o E) as (ev & Ht & Hwf & Ho).
  exists (Pushed (registered st) :: ev). split; [simpl in Ht; by rewrite Ht, <- app_assoc|]. split; [done|].
  intros top' rest' base Hs'. rewrite Hs in Hs'. injection Hs' as <- <-.
  specialize (Ho _ rest base eq_refl).
  destruct o; [..|exact Ho]; destruct Ho as (top' & ? & _ & ?); by exists top'.
Qed.

Lemma pop_scopes st h st' :
  wf st → scope_cleanup_pop st = inr (h, st') →
  tidy_handler h ∧ wf st' ∧ trace st' = trace st ∧
  ∃ hs rest, scopes st = (h :: hs) :: rest ∧ scopes st' = hs :: rest.
Proof.
  intros [Hne Hall]. unfold scope_cleanup_pop.
  destruct (scopes st) as [|[|h' hs] rest] eqn:Hs; try done. intros [= <- <-].
  inversion_clear Hall as [|? ? Htop Hrest]. inversion_clear Htop.
  split_and!; [done| |done|by exists hs, rest]. split; [done|by constructor].
Qed.

(** The newest handler leaves, with the events [ev1]. *)
Lemma pop_settles h hs rest st st1 ev1 r :
  scopes st = (h :: hs) :: rest → scopes st1 = hs :: rest → trace st1 = trace st ++ ev1 →
  (∀ w, settle (h.1 :: w) ev1 = Some w) → settles false st1 r → settles false st r.
Proof.
  intros Hs Hs1 Ht1 Hev Hr st' o E. destruct (Hr st' o E) as (ev & Ht & Hwf & Ho).
  exists (ev1 ++ ev). split; [by rewrite Ht, Ht1, app_assoc|]. split; [done|].
  intros top rest' base Htop. rewrite Hs in Htop. simplify_eq. specialize (Ho hs rest' base Hs1).
  simpl in *. rewrite settle_app, Hev. cbn [mbind option_bind].
  destruct o; [..|exact Ho]; destruct Ho as (top' & ? & _ & ?); by exists top'.
Qed.

Lemma checked_settles fl st r : wf st → settles fl st r → settles fl st (checked st r).
Proof.
  intros Hst Hr. unfold checked. case_match; [|done].
  apply (settles_from _ _ (log Interrupted st) _ [Interrupted]); [done..|]. by apply settles_here.
Qed.

(** One of two ways to go on. *)
Lemma branch_settles fuel k_ok k_err (e : option lua_error) st :
  (∀ p st, tidy p → wf st → settles (flat p) st (run fuel p st)) → tidy k_ok → tidy k_err → wf st →
  settles (flat k_ok && flat k_err) st (run fuel (if e is Some _ then k_err else k_ok) st).
Proof.
  intros IH Hok Herr Hst. assert (settles (flat (if e is Some _ then k_err else k_ok)) st
    (run fuel (if e is Some _ then k_err else k_ok) st)) as Hr by (destruct e; by apply IH).
  destruct (flat k_ok && flat k_err) eqn:E; [|by eapply settles_weaken].
  apply andb_true_iff in E as [E1 E2]. by destruct e; rewrite ?E1, ?E2 in Hr.
Qed.

Lemma coroutine_settles fuel fl f st k :
  (∀ p st, tidy p → wf st → settles (flat p) st (run fuel p st)) → tidy f → wf st →
  (∀ e st1, wf st1 → settles fl st1 (k e st1)) →
  settles fl st
    (leave_root (run fuel) (run fuel f (init_new_coro_or_fiber_scope st))
       (λ e st', k e (log CoroutineEnded (with_scopes (scopes st) st')))).
Proof.
  intros IH Hf Hst Hk st' o E.
  apply (leave_root_settles _ IH st) in E as (ev & st1 & Ht1 & [(-> & -> & Hw)|[Hw [e E]]]);
    [| |by apply body_settled].
  - exists ev. split; [done|]. split; [done|]. intros top rest base _. apply Hw.
  - revert st' o E.
    apply (settles_from fl st (log CoroutineEnded (with_scopes (scopes st) st1)) _ (ev ++ [CoroutineEnded]));
      [done|simpl; by rewrite Ht1, app_assoc| |by apply Hk].
    intros w. by rewrite settle_app, Hw.
Qed.

Lemma run_settles fuel p st : tidy p → wf st → settles (flat p) st (run fuel p st).
Proof.
  revert p st. induction fuel as [|fuel IH]; intros p st Hp Hst; [by intros st' o|].
  destruct p as [|e|n k|arrives k|k|k|h k|execute k|f k|f k_ok k_err|f k_ok k_err]; simpl in Hp |- *.
  - by apply settles_here.
  - by apply settles_here.
  - by apply (settles_from _ _ (log (Emitted n) st) _ [Emitted n]), IH.
  - apply (settles_from _ _ (arrive arrives st) _ []); [done|by rewrite app_nil_r|done|].
    apply checked_settles; [done|]. by apply (IH k (arrive arrives st)).
  - apply (settles_from _ _ (disable_interruption st) _ []); [done|by rewrite app_nil_r|done|]. by apply IH.
  - unfold may_raise, restore_interruption. case_decide; [|by apply settles_here].
    apply (settles_from _ _ (with_counter (DNumber (count st - 1)) st) _ []);
      [done|by rewrite app_nil_r|done|]. by apply IH.
  - destruct h as [body|]; [|by apply settles_here].
    apply andb_True in Hp as [[Hf Ht]%andb_True Hk].
    simpl. eapply push_settles; [done|done|done|]. intros Hwf. eapply settles_weaken. by apply IH.
  - destruct (scope_cleanup_pop st) as [e|[h st1]] eqn:E; [by apply settles_here|].
    destruct (pop_scopes _ _ _ Hst E) as (Hh & Hwf1 & Ht1 & hs & rest & Hs & Hs1). destruct execute.
    + unfold then_. destruct (call_handler (run fuel) h st1) as [[st2 o2]|] eqn:E2; [|by intros st' o].
      destruct (call_handler_settles _ IH _ _ _ _ Hh Hwf1 E2) as (ev & Ht2 & Ho2 & Hw).
      destruct Ho2 as [->|(-> & Hwf2 & Hs2)].
      * intros st' o [= <- <-]. exists ev. split; [by rewrite Ht2, Ht1|]. split; [done|].
        intros top rest' base Htop. rewrite Hs in Htop. simplify_eq. apply Hw.
      * eapply (pop_settles h hs rest st st2 ev); [done|congruence|by rewrite Ht2, Ht1|done|].
        apply restored_settles; [done|]. intros st3 Hwf3. eapply settles_weaken. by apply IH.
    + eapply (pop_settles h hs rest st (log (Dropped h.1) st1) [Dropped h.1]); [done|done|simpl; by rewrite Ht1| |].
      { intros w. simpl. by rewrite decide_True. }
      apply restored_settles; [done|]. intros st3 Hwf3. eapply settles_weaken. by apply IH.
  - apply andb_True in Hp as [Hf Hk]. apply leave_scope_settles; [exact IH|done| |].
    + apply body_settled; [exact IH|done|apply Hst].
    + intros e st1 Hst1. destruct e; [by apply settles_here|by apply IH].
  - apply andb_True in Hp as [[Hf Hok]%andb_True Herr]. apply checked_settles; [done|].
    apply leave_scope_settles; [exact IH|done| |].
    + apply body_settled; [exact IH|done|apply Hst].
    + intros e st1 Hst1. by apply branch_settles.
  - apply andb_True in Hp as [[Hf Hok]%andb_True Herr]. apply checked_settles; [done|].
    apply (coroutine_settles fuel _ f st (λ e st, run fuel (if e is Some _ then k_err else k_ok) st));
      [exact IH|done|done|]. intros e st1 Hst1. by apply branch_settles.
Qed.

(** A fiber ends: whatever its function and its cleanup handlers do with the
    [scope] family, with fuel that the program gives, the fiber returns, raises
    or terminates the VM. *)
Theorem fiber_ends p st :
  ∃ st' o, spawn_start_fn (2 ^ weight p * weight p) p st = Some (st', o).
Proof.
  assert (weight p ≤ 2 ^ weight p * weight p) as Hw
    by (assert (2 ^ weight p ≠ 0) by (apply Nat.pow_nonzero; lia); nia).
  set (fuel := 2 ^ weight p * weight p).
  edestruct (leave_root_ends (run fuel) fuel (run_ends fuel) (weight p) fuel)
    as (st' & o & E & _); [by apply (fiber_function_ends fuel p st)|done|done| |by exists st', o].
  intros e st1 Hst1. by apply ends_here.
Qed.

Lemma root_handlers_raise run i st st' e : run_root_handlers run i st ≠ Some (st', Raised e).
Proof.
  revert st. induction i as [|i IH]; intros st; simpl; [done|]. destruct (_ !! i) as [h|]; [|done].
  unfold then_, call_handler. destruct (run _ _) as [[? []]|]; [apply IH|done..].
Qed.

(** The function's end is the fiber's, or the VM was terminated. *)
Lemma fiber_ended run r st' o :
  leave_root run r end_fiber = Some (st', o) → o = VmTerminated ∨ ∃ st1, r = Some (st1, o).
Proof.
  destruct r as [[st1 o1]|]; [|done]. unfold leave_root, then_, end_fiber. intros E.
  destruct o1; [..|by right; exists st1; simplify_eq];
    destruct (run_root_handlers _ _ _) as [[st2 [|e'|]]|] eqn:Er; simplify_eq;
    try (by left); try (by right; exists st1); by apply root_handlers_raise in Er.
Qed.

(** C11 A fiber that is started by [spawn], whose function is [tidy] (its cleanup
    handlers register and remove none in the scope they are called in, only in
    scopes of their own), ends: the fuel that its program gives is enough.  With
    this or any fuel that is enough, its handlers are called or dropped exactly
    once, always the newest that waits first, before the fiber ends, be it with a
    value or an error, and it ends the way its function did; unless the VM is
    terminated by then: in that case too no handler was called twice or before a
    newer one. *)
Theorem handlers_settle p st :
  tidy p →
  (∃ st' o, spawn_start_fn (2 ^ weight p * weight p) p st = Some (st', o)) ∧
  ∀ fuel st' o, spawn_start_fn fuel p st = Some (st', o) →
  ∃ ev, trace st' = trace st ++ ev ∧
    match o with
    | VmTerminated => is_Some (settle [] ev)
    | _ => settle [] ev = Some [] ∧
           ∃ st1, run fuel p (init_new_coro_or_fiber_scope st) = Some (st1, o)
    end.
Proof.
  intros Hp. split; [apply fiber_ends|]. intros fuel st' o E.
  pose proof (λ p st, run_settles fuel p st) as IH.
  pose proof (body_settled _ IH p st [] Hp ltac:(done)) as Hb.
  destruct (leave_root_settles _ IH st _ _ Hb st' o E) as (ev & st1 & Ht & Ho).
  destruct Ho as [(-> & -> & Hw)|[Hw (e & E1)]]; [by exists ev|].
  apply fiber_ended in E. unfold end_fiber in E1. simplify_eq. exists ev. split; [done|].
  destruct E as [E|E]; [by destruct e|]. by destruct e.
Qed.

(** A program that leaves the counter to the scopes: nothing is interrupted
    while a cleanup handler runs, and afterwards, however the program ended,
    interruption is disabled as often as before, but for one more time per
    coroutine that ended. *)
Theorem interruption_restored fuel p st st' o n :
  plain p → plain_scopes st → counter st = DNumber n → (0 <= n)%Z →
  run fuel p st = Some (st', o) →
  ∃ ev, trace st' = trace st ++ ev ∧
    match o with
    | VmTerminated => is_Some (quiet 0 ev)
    | _ => quiet 0 ev = Some 0 ∧ counter st' = DNumber (n + coroutines_ended ev)
    end.
Proof.
  intros Hp Hst Hc Hn E. destruct (run_keeps fuel p st Hp st' o E Hst) as (ev & Ht & _ & Ho).
  exists ev. split; [done|]. specialize (Ho n 0 ltac:(split; [done|lia])).
  rewrite Z.add_0_r in Ho. by destruct o.
Qed.

(** * Programs that show it *)
Module Examples.
Definition start : state := State [] (DNumber 0) false 0 [].
Definition emits (n : nat) : prog := Emit n Return.

(** Two handlers, one of them with a scope of its own that fails under
    [pcall], and an interruption that ends the function. *)
Definition tidy_program : prog :=
  CleanupPush (Some (Scope (CleanupPush (Some (emits 1)) (Suspend false Return)) (emits 2)))
    (CleanupPush (Some (Pcall (CleanupPush (Some (emits 3)) (Raise (EString "no"))) Return (emits 4)))
       (Scope (CleanupPush (Some (emits 5)) (CleanupPush (Some (emits 6)) (CleanupPop false Return)))
          (Suspend true (emits 7)))).

Lemma handlers_settle_witness :
  (∃ st' o, spawn_start_fn (2 ^ weight tidy_program * weight tidy_program) tidy_program start =
      Some (st', o)) ∧
  ∃ st', spawn_start_fn 100 tidy_program start =
      Some (st', Raised (ECode Core.interrupted None)) ∧
    ∃ ev, trace st' = [] ++ ev ∧ settle [] ev = Some [] ∧
      ∃ st1, run 100 tidy_program (init_new_coro_or_fiber_scope start) =
        Some (st1, Raised (ECode Core.interrupted None)).
Proof.
  destruct (handlers_settle tidy_program start) as [Hends Hsettle]; [vm_compute; exact I|].
  split; [exact Hends|]. eexists. split; [vm_compute; reflexivity|].
  apply (Hsettle 100 _ (Raised (ECode Core.interrupted None))). vm_compute. reflexivity.
Defined.

Lemma interruption_restored_witness :
  ∃ st', run 100 tidy_program (init_new_coro_or_fiber_scope start) =
      Some (st', Raised (ECode Core.interrupted None)) ∧
    ∃ ev, trace st' = [] ++ ev ∧ quiet 0 ev = Some 0 ∧
      counter st' = DNumber (0 + coroutines_ended ev).
Proof.
  eexists. split; [vm_compute; reflexivity|].
  apply (interruption_restored 100 tidy_program (init_new_coro_or_fiber_scope start) _
    (Raised (ECode Core.interrupted None)) 0).
  - vm_compute. exact I.
  - repeat constructor.
  - reflexivity.
  - lia.
  - vm_compute. reflexivity.
Defined.

(** A fiber that ran a coroutine to its end cannot be interrupted any more. *)
Lemma coroutine_disables_interruption :
  run 10 (Suspend true (emits 1)) (init_new_coro_or_fiber_scope start) =
    Some (State [[]] (DNumber 0) true 0 [Interrupted], Raised (ECode Core.interrupted None)) ∧
  run 10 (Coroutine Return (Suspend true (emits 1)) Return) (init_new_coro_or_fiber_scope start) =
    Some (State [[]] (DNumber 1) true 0 [CoroutineEnded; Emitted 1], Done).
Proof. split; vm_compute; reflexivity. Qed.

(** A main fiber that fails does not call its cleanup handlers, others do. *)
Lemma main_fiber_skips_handlers e :
  let p := CleanupPush (Some (emits 1)) (Raise e) in
  (∃ st, start_fn 10 p start = Some (st, Raised e) ∧ trace st = [Pushed 0]) ∧
  (∃ st, spawn_start_fn 10 p start = Some (st, Raised e) ∧
     trace st = [Pushed 0; Began 0; Emitted 1; Ended 0]).
Proof. split; (eexists; split; [vm_compute; reflexivity|reflexivity]). Qed.

(** The root scope's handlers stay registered while they run: one that calls
    [scope_cleanup_pop] is called again by itself, and the VM is terminated. *)
Lemma root_handler_called_again :
  ∃ st, spawn_start_fn 10 (CleanupPush (Some (emits 1)) (CleanupPush (Some (CleanupPop true Return)) Return))
      start = Some (st, VmTerminated) ∧
    trace st = [Pushed 0; Pushed 1; Began 1; Began 1; Began 0; Emitted 1; Ended 0; Ended 1; Ended 1].
Proof. eexists. split; [vm_compute; reflexivity|reflexivity]. Qed.

(** One that registers a handler registers it in vain. *)
Lemma root_handler_lost :
  ∃ st, spawn_start_fn 10 (CleanupPush (Some (CleanupPush (Some (emits 1)) Return)) Return)
      start = Some (st, Done) ∧
    trace st = [Pushed 0; Began 0; Pushed 1; Ended 0].
Proof. eexists. split; [vm_compute; reflexivity|reflexivity]. Qed.

(** A fiber whose field is the boolean [true] can be interrupted after it left
    a scope. *)
Lemma scope_overwrites_boolean :
  run 10 (Scope Return (Suspend true Return)) (State [[]] (DBoolean true) false 0 []) =
    Some (State [[]] (DNumber 0) true 0 [Interrupted], Raised (ECode Core.interrupted None)).
Proof. reflexivity. Qed.
End Examples.
