(* ===== verification/Shim.v ===== *)
(** Coroutines over fibers ([src/src/lua_shim.cpp],
    [src/bytecode/coroutine_create.lua], [src/bytecode/coroutine_resume.lua],
    [src/bytecode/coroutine_wrap.lua]).

    Fibers are Lua coroutines themselves, which the VM resumes; what suspends
    one is a [lua_yield].  [coroutine.resume] tells such a yield from one of
    [coroutine.yield] by a flag of the VM, passes it on, and marks the coroutine
    busy until the values for it come back. *)
From S2P Require Import Prelude Errors Lua.

(** * Coroutines *)

Abbreviation values := (list lua_value) (only parsing).

(** What Lua code does: a tree of its calls.  [Suspend] is a call of the VM
    that suspends the fiber. *)
Inductive act : Type :=
| Finish (vs : values)
| Fail (e : lua_error)
| Yield (vs : values) (k : values → act)
| Suspend (k : values → act)
| Resume (co : loc) (args : values) (k : lua_error + values → act)
| Status (co : loc) (k : bytes → act)
| Running (k : option loc → act)
| Create (f : values → act) (handlers : list act) (k : loc → act)
| Spawn (start_fn : act) (handlers : list act) (k : loc → act).

(** A coroutine runs its function, and then the cleanup handlers of its root
    scope, with what the function returned or raised. *)
Inductive phase : Type :=
| InBody (handlers : list act)
| InCleanup (handlers : list act) (ret : lua_error + values).

(** A Lua thread that yielded: in a call of its own, or in the loop of
    [coroutine.resume], at the [yield] that passes on one of [child]. *)
Inductive thread : Type :=
| At (k : values → act) (p : phase)
| InLoop (child : loc) (k : lua_error + values → act) (p : phase).

(** One that resumed [child]. *)
Record resumer : Type := Resumer {
  child : loc;
  result_to : lua_error + values → act;
  resumer_phase : phase;
}.

(** The fiber that runs, the code of its innermost coroutine, and those that
    wait for one they resumed, innermost first. *)
Record running : Type := Run {
  fiber : loc;
  code : act;
  code_phase : phase;
  stack : list resumer;
}.

(** The coroutines [lua_resume] takes, those at [busy_coroutines_key], the flag
    at [yield_reason_is_native_key], the fibers that are suspended. *)
Record shim : Type := Shim {
  coroutines : gmap loc thread;
  busy : gset loc;
  is_yield_native : bool;
  waiting : gmap loc thread;
  next_loc : loc;
}.

(** What runs next: code, nothing but the strand, or nothing any more. *)
Inductive next : Type :=
| Runs (r : running)
| Suspended
| FiberEnds (fiber : loc) (ret : lua_error + values)
| VmTerminates
| Stuck.

Definition set_busy (co : loc) (s : shim) : shim :=
  Shim (coroutines s) ({[co]} ∪ busy s) (is_yield_native s) (waiting s) (next_loc s).
Definition clear_busy (co : loc) (s : shim) : shim :=
  Shim (coroutines s) (busy s ∖ {[co]}) (is_yield_native s) (waiting s) (next_loc s).
Definition mark_yield (native : bool) (s : shim) : shim :=
  Shim (coroutines s) (busy s) native (waiting s) (next_loc s).
Definition with_coroutines (f : gmap loc thread → gmap loc thread) (s : shim) : shim :=
  Shim (f (coroutines s)) (busy s) (is_yield_native s) (waiting s) (next_loc s).
Definition with_waiting (f : gmap loc thread → gmap loc thread) (s : shim) : shim :=
  Shim (coroutines s) (busy s) (is_yield_native s) (f (waiting s)) (next_loc s).

Definition cannot_resume : lua_error := EString "cannot resume dead coroutine".

(** * Yielding *)

(** [resume] gave [ret] to the loop of [r]'s resumer: an error, or values that
    are returned or passed on. *)
Definition loop_returns (f : loc) (r : resumer) (rest : list resumer)
    (ret : lua_error + values) (s : shim) : shim * next :=
  (mark_yield true s, Runs (Run f (result_to r ret) (resumer_phase r) rest)).

(** The loops that [resume] returned [true] to, with the values of a yield. *)
Fixpoint pass_on (f : loc) (stack : list resumer) (vs : values) (s : shim) : shim * next :=
  match stack with
  | [] => (s, Suspended)                                     (* not reached *)
  | r :: rest =>
      if is_yield_native s then
        let s := set_busy (child r) s in
        let t := InLoop (child r) (result_to r) (resumer_phase r) in
        match rest with
        | [] => (with_waiting (<[f := t]>) s, Suspended)
        | r' :: _ => pass_on f rest vs (with_coroutines (<[child r' := t]>) s)
        end
      else loop_returns f r rest (inr vs) s
  end.

(** [lua_yield] of the thread that runs. *)
Definition raw_yield (f : loc) (stack : list resumer) (t : thread) (vs : values) (s : shim) :
    shim * next :=
  match stack with
  | [] => (with_waiting (<[f := t]>) s, Suspended)
  | r :: _ => pass_on f stack vs (with_coroutines (<[child r := t]>) s)
  end.

(** * Ending *)

(** The thread that runs is dead. *)
Definition thread_ends (f : loc) (stack : list resumer) (ret : lua_error + values) (s : shim) :
    shim * next :=
  match stack, ret with
  | [], _ => (s, FiberEnds f ret)
  | r :: rest, inl e => loop_returns f r rest (inl e) s
  | _, inr vs => pass_on f stack vs s
  end.

(** [while i > 0 do .. end] of [coroutine_create]. *)
Definition next_handler (f : loc) (stack : list resumer) (handlers : list act)
    (ret : lua_error + values) (s : shim) : shim * next :=
  match handlers with
  | [] => thread_ends f stack ret s
  | h :: handlers => (s, Runs (Run f h (InCleanup handlers ret) stack))
  end.

Definition finish (r : running) (vs : values) (s : shim) : shim * next :=
  match code_phase r with
  | InBody handlers =>
      (* [mark_yield_as_non_native] is of [coroutine_create] only *)
      let s := match stack r with [] => s | _ => mark_yield false s end in
      next_handler (fiber r) (stack r) handlers (inr vs) s
  | InCleanup handlers ret => next_handler (fiber r) (stack r) handlers ret s
  end.
Definition fail (r : running) (e : lua_error) (s : shim) : shim * next :=
  match code_phase r with
  | InBody handlers => next_handler (fiber r) (stack r) handlers (inl e) s
  | InCleanup _ _ => (s, VmTerminates)
  end.

(** * Resuming *)

(** [lua_resume] of the thread [t], which is in no table any more: a loop goes
    on with [clear_busy] and [resume] of its own coroutine.  There are not more
    loops than coroutines. *)
Fixpoint wake (fuel : nat) (f : loc) (t : thread) (vs : values) (stack : list resumer) (s : shim) :
    shim * next :=
  match t with
  | At k p => (s, Runs (Run f (k vs) p stack))
  | InLoop co k p =>
      let s := clear_busy co s in
      match fuel, coroutines s !! co with
      | S fuel, Some t =>
          wake fuel f t vs (Resumer co k p :: stack) (with_coroutines (delete co) s)
      | _, None => loop_returns f (Resumer co k p) stack (inl cannot_resume) s
      | 0, Some _ => (s, Stuck)                              (* not reached *)
      end
  end.

(** [vm_context::fiber_resume]. *)
Definition fiber_resume (f : loc) (vs : values) (s : shim) : shim * next :=
  match waiting s !! f with
  | None => (s, Stuck)
  | Some t => wake (size (coroutines s)) f t vs [] (with_waiting (delete f) s)
  end.

(** [coroutine.create], and [spawn], whose fiber is resumed later. *)
Definition coroutine_create (f : values → act) (handlers : list act) (s : shim) : shim * loc :=
  let co := next_loc s in
  (Shim (<[co := At f (InBody handlers)]> (coroutines s)) (busy s) (is_yield_native s) (waiting s)
     (S co), co).
Definition spawn (start_fn : act) (handlers : list act) (s : shim) : shim * loc :=
  let f := next_loc s in
  (Shim (coroutines s) (busy s) (is_yield_native s)
     (<[f := At (λ _, start_fn) (InBody handlers)]> (waiting s)) (S f), f).

(** A VM whose main fiber is about to start. *)
Definition make_vm (start_fn : act) (handlers : list act) : shim :=
  (spawn start_fn handlers (Shim ∅ ∅ true ∅ 0)).1.

Section step.
(** What a fiber that was interrupted raises. *)
Context (check_not_interrupted : loc → option lua_error).

(** [coroutine_resume]. *)
Definition coroutine_resume (r : running) (co : loc) (args : values)
    (k : lua_error + values → act) (s : shim) : shim * next :=
  let raise e := (s, Runs (Run (fiber r) (Fail e) (code_phase r) (stack r))) in
  match check_not_interrupted (fiber r) with
  | Some e => raise e
  | None =>
      if decide (co ∈ busy s) then raise (ECode operation_not_permitted None)
      else
        let resumer := Resumer co k (code_phase r) in
        match coroutines s !! co with
        | None => loop_returns (fiber r) resumer (stack r) (inl cannot_resume) s
        | Some t =>
            wake (size (coroutines s)) (fiber r) t args (resumer :: stack r)
              (with_coroutines (delete co) s)
        end
  end.

(** [coroutine_yield]: a fiber is no coroutine. *)
Definition coroutine_yield (r : running) (vs : values) (k : values → act) (s : shim) : shim * next :=
  match stack r with
  | [] => (s, Runs (Run (fiber r) (Fail (ECode Core.bad_coroutine None)) (code_phase r) []))
  | _ => raw_yield (fiber r) (stack r) (At k (code_phase r)) vs (mark_yield false s)
  end.

(** [coroutine_status], where the original one tells the running, those that
    wait for another, the suspended and the dead. *)
Definition coroutine_status (r : running) (co : loc) (s : shim) : bytes :=
  if decide (co ∈ busy s) then lit "normal"
  else
    match stack r with
    | top :: rest =>
        if decide (co = child top) then lit "running"
        else if decide (co ∈ child <$> rest) then lit "normal"
        else if coroutines s !! co is Some _ then lit "suspended" else lit "dead"
    | [] => if coroutines s !! co is Some _ then lit "suspended" else lit "dead"
    end.

Definition coroutine_running (r : running) : option loc := child <$> head (stack r).

(** The code that runs makes its next call. *)
Definition step (r : running) (s : shim) : shim * next :=
  let go a s := (s, Runs (Run (fiber r) a (code_phase r) (stack r))) in
  match code r with
  | Finish vs => finish r vs s
  | Fail e => fail r e s
  | Yield vs k => coroutine_yield r vs k s
  | Suspend k => raw_yield (fiber r) (stack r) (At k (code_phase r)) [] s
  | Resume co args k => coroutine_resume r co args k s
  | Status co k => go (k (coroutine_status r co s)) s
  | Running k => go (k (coroutine_running r)) s
  | Create f handlers k => let '(s, co) := coroutine_create f handlers s in go (k co) s
  | Spawn f handlers k => let '(s, co) := spawn f handlers s in go (k co) s
  end.

(** The VM: the code that runs goes on, or the strand resumes a fiber. *)
Inductive vm_step : shim * next → shim * next → Prop :=
| vm_runs s r : vm_step (s, Runs r) (step r s)
| vm_resumes s n f vs t :
    (if n is Suspended then True else if n is FiberEnds _ _ then True else False) →
    waiting s !! f = Some t → vm_step (s, n) (fiber_resume f vs s).
End step.

(** [coroutine.wrap]: errors are raised again. *)
Definition coroutine_wrap (co : loc) (args : values) (k : values → act) : act :=
  Resume co args (λ ret, match ret with inl e => Fail e | inr vs => k vs end).
