(* ===== verification/ShimSpec.v ===== *)
(** What the coroutine shim promises: a fiber that is suspended inside of
    coroutines goes on where it was, whatever the other fibers do with
    coroutines meanwhile. *)
From S2P Require Import Prelude Errors Lua Shim.

(** * Who waits for whom *)

(** The thread of a fiber that is suspended, or of a coroutine. *)
Definition thread_of (s : shim) (o : loc + loc) : option thread :=
  match o with inl f => waiting s !! f | inr co => coroutines s !! co end.
Definition link (s : shim) (o : loc + loc) (c : loc) : Prop :=
  ∃ k p, thread_of s o = Some (InLoop c k p).

(** A coroutine that passes on a yield is passed on itself, and what one passes
    on is busy; only one does.  [exempt] is a coroutine that is about to. *)
Record links_ok (exempt : option loc) (s : shim) : Prop := {
  link_busy : ∀ o c, link s o c → c ∈ busy s;
  link_unique : ∀ o o' c, link s o c → link s o' c → o = o';
  link_owner : ∀ co c, link s (inr co) c → Some co ≠ exempt → co ∈ busy s;
  coroutine_old : ∀ co, is_Some (coroutines s !! co) → co < next_loc s;
  busy_old : ∀ co, co ∈ busy s → co < next_loc s;
  waiting_old : ∀ f, is_Some (waiting s !! f) → f < next_loc s;
}.

(** The coroutines of the fiber that runs. *)
Definition children (stack : list resumer) : list loc := child <$> stack.
Record stack_ok (s : shim) (f : loc) (stack : list resumer) : Prop := {
  stack_NoDup : NoDup (children stack);
  stack_not_busy : ∀ c, c ∈ children stack → c ∉ busy s;
  stack_old : ∀ c, c ∈ children stack → c < next_loc s;
  fiber_running : waiting s !! f = None;
  fiber_old : f < next_loc s;
}.
Definition resumable (s : shim) (stack : list resumer) : Prop :=
  ∃ c, c ∈ children stack ∧ is_Some (coroutines s !! c).

Definition inv (sn : shim * next) : Prop :=
  links_ok None sn.1 ∧
  match sn.2 with
  | Runs r => stack_ok sn.1 (fiber r) (stack r) ∧ ¬ resumable sn.1 (stack r)
  | Stuck => False
  | _ => True
  end.

Lemma link_inl s f c : link s (inl f) c ↔ ∃ k p, waiting s !! f = Some (InLoop c k p).
Proof. done. Qed.

(** ** Changes that keep it *)

(** Only the threads, the busy coroutines and [next_loc] matter. *)
Lemma links_ok_mark e b s : links_ok e s → links_ok e (mark_yield b s).
Proof. intros []. by split. Qed.
Lemma stack_ok_mark b s f st : stack_ok s f st → stack_ok (mark_yield b s) f st.
Proof. intros []. by split. Qed.

Lemma links_ok_set_busy co s :
  links_ok (Some co) s → co < next_loc s → links_ok None (set_busy co s).
Proof.
  intros [H1 H2 H3 H4 H5 H6] Hco. split; simpl; try done.
  - intros o c Hl. apply elem_of_union_r, (H1 o c Hl).
  - intros co' c Hl _. destruct (decide (co' = co)) as [->|Hne]; [set_solver|].
    apply elem_of_union_r, (H3 co' c Hl). congruence.
  - set_solver.
Qed.

(** A thread is stored where there was none. *)
Definition put (o : loc + loc) (t : thread) (s : shim) : shim :=
  match o with
  | inl f => with_waiting (<[f := t]>) s
  | inr co => with_coroutines (<[co := t]>) s
  end.
Definition owner_old (o : loc + loc) (s : shim) : Prop :=
  match o with inl f => f < next_loc s | inr co => co < next_loc s end.

Lemma thread_of_put o t s o' :
  thread_of (put o t s) o' = if decide (o' = o) then Some t else thread_of s o'.
Proof.
  destruct o as [f|co], o' as [f'|co']; simpl; try done.
  - rewrite lookup_insert. repeat case_decide; by simplify_eq.
  - rewrite lookup_insert. repeat case_decide; by simplify_eq.
Qed.

Lemma links_ok_put_at o k p s :
  links_ok None s → owner_old o s → links_ok None (put o (At k p) s).
Proof.
  intros [H1 H2 H3 H4 H5 H6] Ho.
  assert (∀ o' c, link (put o (At k p) s) o' c → link s o' c) as Hl.
  { intros o' c (k' & p' & Hl). rewrite thread_of_put in Hl. case_decide; [done|].
    by exists k', p'. }
  split.
  - intros o' c Hc. destruct o; by apply (H1 o' c), Hl.
  - intros o1 o2 c Hc1 Hc2. apply (H2 o1 o2 c); by apply Hl.
  - intros co c Hc. destruct o; by apply (H3 co c), Hl.
  - destruct o; [done|]. simpl. intros co. rewrite lookup_insert. case_decide; [by intros; subst|apply H4].
  - by destruct o.
  - destruct o; [|done]. simpl. intros f. rewrite lookup_insert. case_decide; [by intros; subst|apply H6].
Qed.

(** A loop that passes on a yield of [c], which is busy since now. *)
Lemma links_ok_put_loop o c k p s :
  links_ok None s → owner_old o s → c ∈ busy s → (∀ o', ¬ link s o' c) →
  links_ok (match o with inl _ => None | inr co => Some co end) (put o (InLoop c k p) s).
Proof.
  intros [H1 H2 H3 H4 H5 H6] Ho Hc Hfree.
  assert (∀ o' c', link (put o (InLoop c k p) s) o' c' → (o' = o ∧ c' = c) ∨ (o' ≠ o ∧ link s o' c')) as Hl.
  { intros o' c' (k' & p' & Hl). rewrite thread_of_put in Hl. case_decide; [left; by simplify_eq|].
    right. split; [done|]. by exists k', p'. }
  assert (busy (put o (InLoop c k p) s) = busy s ∧ next_loc (put o (InLoop c k p) s) = next_loc s)
    as [Hb Hn] by (by destruct o).
  split; rewrite ?Hb, ?Hn.
  - intros o' c' [[-> ->]|[_ Hc']]%Hl; [done|by apply (H1 o' c')].
  - intros o1 o2 c' [[-> ->]|[_ Hc1]]%Hl [[-> ?]|[_ Hc2]]%Hl; subst; try done.
    + by destruct (Hfree o2).
    + by destruct (Hfree o1).
    + by apply (H2 o1 o2 c').
  - intros co c' [[<- ->]|[_ Hc']]%Hl Hne; [done|]. apply (H3 co c' Hc'). done.
  - destruct o; [done|]. simpl. intros co. rewrite lookup_insert. case_decide; [by intros; subst|apply H4].
  - done.
  - destruct o; [|done]. simpl. intros f. rewrite lookup_insert. case_decide; [by intros; subst|apply H6].
Qed.

(** ** Where a suspended thread goes on *)

(** [t], resumed on top of [acc], goes on with [k] on top of the stack [st]. *)
Inductive saved (s : shim) : thread → list resumer → (values → act) → phase → list resumer → Prop :=
| saved_at k p acc : saved s (At k p) acc k p acc
| saved_loop c k' p' t acc k p st :
    coroutines s !! c = Some t → saved s t (Resumer c k' p' :: acc) k p st →
    saved s (InLoop c k' p') acc k p st.

Lemma saved_more s s' t acc k p st :
  (∀ c t, coroutines s !! c = Some t → coroutines s' !! c = Some t) →
  saved s t acc k p st → saved s' t acc k p st.
Proof. intros Hs. induction 1; [constructor|]. econstructor; [by apply Hs|done]. Qed.

(** * Passing on a native yield *)
Lemma pass_on_native f r rest vs s :
  is_yield_native s = true → links_ok (Some (child r)) s → stack_ok s f (r :: rest) →
  (∀ c, c ∈ children rest → coroutines s !! c = None) →
  ∃ s', pass_on f (r :: rest) vs s = (s', Suspended) ∧ links_ok None s' ∧
    (∀ f', f' ≠ f → waiting s' !! f' = waiting s !! f') ∧
    (∀ c, c ∉ children rest → coroutines s' !! c = coroutines s !! c) ∧
    ∀ t k p st, coroutines s !! child r = Some t → saved s t (r :: rest) k p st →
      ∃ t', waiting s' !! f = Some t' ∧ saved s' t' [] k p st.
Proof.
  revert r s. induction rest as [|r' rest IH]; intros r s Hn Hl [Hnd Hnb Hold Hf Hfo] Hc.
  - simpl. rewrite Hn.
    set (s1 := set_busy (child r) s).
    assert (links_ok None s1) as Hl1 by (apply links_ok_set_busy; [done|apply Hold; set_solver]).
    assert (∀ o, ¬ link s1 o (child r)) as Hfree.
    { intros o Ho. apply (Hnb (child r)); [set_solver|]. by apply (link_busy _ _ Hl o). }
    exists (put (inl f) (InLoop (child r) (result_to r) (resumer_phase r)) s1).
    split; [done|]. split; [apply (links_ok_put_loop (inl f)); [done|done|simpl; set_solver|done]|].
    split; [intros f' Hf'; simpl; by rewrite lookup_insert_ne|]. split; [done|].
    intros t k p st Ht Hs. eexists. split; [apply lookup_insert_eq|].
    econstructor; [exact Ht|]. destruct r as [c k' p']. by eapply saved_more; [|exact Hs].
  - cbn [pass_on]. rewrite Hn.
    set (s1 := set_busy (child r) s).
    assert (links_ok None s1) as Hl1 by (apply links_ok_set_busy; [done|apply Hold; set_solver]).
    assert (∀ o, ¬ link s1 o (child r)) as Hfree.
    { intros o Ho. apply (Hnb (child r)); [set_solver|]. by apply (link_busy _ _ Hl o). }
    set (t' := InLoop (child r) (result_to r) (resumer_phase r)).
    set (s2 := put (inr (child r')) t' s1).
    unfold children in Hnd, Hnb, Hold, Hc. rewrite !fmap_cons in Hnd, Hnb, Hold, Hc.
    apply NoDup_cons in Hnd as [Hr Hnd].
    destruct (IH r' s2) as (s' & Hp & Hl' & Hw' & Hc' & Hs').
    + done.
    + apply (links_ok_put_loop (inr (child r'))); [done|apply Hold; set_solver|simpl; set_solver|done].
    + split; [done| |..|done|done].
      * intros c Hin. simpl. apply not_elem_of_union. split; [set_solver|]. apply Hnb. set_solver.
      * intros c Hin. apply Hold. set_solver.
    + intros c Hin. simpl. rewrite lookup_insert_ne; [apply Hc; set_solver|].
      apply NoDup_cons in Hnd as [Hr' _]. intros Heq. subst c. done.
    + exists s'. split; [exact Hp|]. split; [done|]. split; [intros f' ?; by rewrite Hw'|]. split.
      * intros c Hin. unfold children in Hin. rewrite fmap_cons in Hin.
        rewrite Hc' by set_solver. simpl. apply lookup_insert_ne. set_solver.
      * intros t k p st Ht Hs. apply (Hs' t'); [apply lookup_insert_eq|].
        assert (∀ c t, coroutines s !! c = Some t → coroutines s2 !! c = Some t) as Hmore.
        { intros c t0 Ht0. simpl. rewrite lookup_insert_ne; [done|]. intros <-.
          rewrite Hc in Ht0; [done|set_solver]. }
        econstructor; [by apply Hmore|]. destruct r as [c k' p']. by eapply saved_more; [|exact Hs].
Qed.

(** * Handing a result over *)
Lemma loop_returns_inv f r rest ret s :
  links_ok None s → stack_ok s f (r :: rest) → ¬ resumable s rest →
  inv (loop_returns f r rest ret s).
Proof.
  intros Hl [Hnd Hnb Hold Hf Hfo] Hr. split; simpl; [by apply links_ok_mark|].
  unfold children in *. rewrite !fmap_cons in *. apply NoDup_cons in Hnd as [_ Hnd].
  split; [|done]. split; try done; intros c Hc; [apply Hnb|apply Hold]; set_solver.
Qed.

(** * Going on *)

(** What a thread that is resumed needs: its loop's coroutine is passed on by
    no other. *)
Definition wakes (s : shim) (t : thread) : Prop :=
  match t with At _ _ => True | InLoop c _ _ => c ∈ busy s ∧ ∀ o, ¬ link s o c end.

(** The coroutines of the loops a thread leads to. *)
Inductive leads_to (s : shim) : thread → loc → Prop :=
| leads_here c k p : leads_to s (InLoop c k p) c
| leads_on c k p t c' : coroutines s !! c = Some t → leads_to s t c' → leads_to s (InLoop c k p) c'.

Lemma stack_ok_push s f c k p acc :
  stack_ok s f acc → c ∈ busy s → links_ok None s →
  stack_ok (clear_busy c s) f (Resumer c k p :: acc).
Proof.
  intros [Hnd Hnb Hold Hw Hfo] Hbusy Hl.
  assert (c ∉ children acc) as Hc by (intros Hin; by apply (Hnb c Hin)).
  split; unfold children in *; rewrite ?fmap_cons; simpl; [by apply NoDup_cons|set_solver| |done|done].
  intros c' [->|Hin]%elem_of_cons; [by apply (busy_old _ _ Hl)|by apply Hold].
Qed.

Lemma links_ok_clear_busy c s :
  links_ok None s → (∀ o, ¬ link s o c) → links_ok (Some c) (clear_busy c s).
Proof.
  intros [H1 H2 H3 H4 H5 H6] Hfree. split; simpl; try done.
  - intros o c' Hc'. apply elem_of_difference. split; [by apply (H1 o c')|].
    intros ->%elem_of_singleton. by destruct (Hfree o).
  - intros co c' Hc' Hne. apply elem_of_difference. split; [by apply (H3 co c')|].
    intros ->%elem_of_singleton. done.
  - set_solver.
Qed.

(** The coroutine of a loop is resumed. *)
Lemma wake_step s f c k p t acc :
  links_ok None s → wakes s (InLoop c k p) → stack_ok s f acc → ¬ resumable s acc →
  coroutines s !! c = Some t →
  let s1 := with_coroutines (delete c) (clear_busy c s) in
  links_ok None s1 ∧ wakes s1 t ∧ stack_ok s1 f (Resumer c k p :: acc) ∧
  ¬ resumable s1 (Resumer c k p :: acc) ∧ size (coroutines s1) < size (coroutines s).
Proof.
  intros Hl [Hbusy Hfree] Hst Hacc Ec s1.
  pose proof (stack_ok_push s f c k p acc Hst Hbusy Hl) as Hst1.
  assert (∀ o c', link s1 o c' → link s o c' ∧ o ≠ inr c) as Hlk.
  { intros [f'|co] c' (k' & p' & Hc'); simpl in Hc'; [split; [by exists k', p'|done]|].
    apply lookup_delete_Some in Hc' as [Hne Hc']. split; [by exists k', p'|congruence]. }
  split_and!.
  - destruct (links_ok_clear_busy c s Hl Hfree) as [H1 H2 H3 H4 H5 H6]. split; simpl; try done.
    + intros o c' [Hlo _]%Hlk. by apply (H1 o c').
    + intros o o' c' [Ho _]%Hlk [Ho' _]%Hlk. by apply (H2 o o' c').
    + intros co c' [Ho Hne]%Hlk _. apply (H3 co c' Ho). congruence.
    + intros co [t0 [_ Ht0]%lookup_delete_Some]. by apply H4.
  - destruct t as [|c' k' p']; [done|].
    assert (link s (inr c) c') as Hcc by (by exists k', p'). split.
    + apply elem_of_difference. split; [by apply (link_busy _ _ Hl (inr c))|].
      intros ->%elem_of_singleton. by apply (Hfree (inr c)).
    + intros o [Hlo Hne]%Hlk. by apply Hne, (link_unique _ _ Hl _ _ c').
  - destruct Hst1 as [H1 H2 H3 H4 H5]. by split.
  - intros (c' & Hin & [t0 Ht0]). simpl in Ht0. apply lookup_delete_Some in Ht0 as [Hne Ht0].
    apply elem_of_cons in Hin as [->|Hin]; [done|]. apply Hacc. by exists c'.
  - simpl. rewrite map_size_delete_Some by (by eexists).
    assert (size (coroutines s) ≠ 0); [|lia]. apply map_size_ne_0_lookup. by exists c, t.
Qed.

Lemma leads_to_more s s' t c :
  (∀ c t, coroutines s !! c = Some t → coroutines s' !! c = Some t) → leads_to s t c → leads_to s' t c.
Proof. intros Hs. induction 1; [constructor|]. eapply leads_on; [by apply Hs|done]. Qed.

Lemma wake_inv fuel f t vs acc s :
  size (coroutines s) ≤ fuel → links_ok None s → wakes s t → stack_ok s f acc → ¬ resumable s acc →
  let '(s', n) := wake fuel f t vs acc s in
  inv (s', n) ∧ (∃ r, n = Runs r ∧ fiber r = f) ∧ waiting s' = waiting s ∧
  (∀ c, ¬ leads_to s t c → coroutines s' !! c = coroutines s !! c).
Proof.
  revert t acc s. induction fuel as [|fuel IH]; intros t acc s Hf Hl Ht Hst Hacc.
  all: destruct t as [k p|c k p]; simpl; [by split_and!; [..|eauto|done|done]|].
  all: destruct (coroutines s !! c) as [t|] eqn:Ec.
  1: { pose proof (wake_step s f c k p t acc Hl Ht Hst Hacc Ec) as (_ & _ & _ & _ & ?). lia. }
  1,3: destruct Ht as [Hbusy Hfree]; split_and!; [|by eexists|done|done]; apply loop_returns_inv;
    [|by apply stack_ok_push|done];
    (destruct (links_ok_clear_busy c s Hl Hfree) as [H1 H2 H3 H4 H5 H6]; split; try done;
     intros co c' Hc' _; apply (H3 co c' Hc'); intros [= ->]; destruct Hc' as (? & ? & Hc');
     simpl in Hc'; congruence).
  destruct (wake_step s f c k p t acc Hl Ht Hst Hacc Ec) as (Hl1 & Ht1 & Hst1 & Hacc1 & Hf1).
  set (s1 := with_coroutines (delete c) (clear_busy c s)) in *.
  specialize (IH t (Resumer c k p :: acc) s1 ltac:(lia) Hl1 Ht1 Hst1 Hacc1).
  destruct (wake fuel f t vs (Resumer c k p :: acc) s1) as [s' n]. destruct IH as (Hi & Hr & Hws & Hcs).
  split; [done|]. split; [done|]. split; [done|]. intros c' Hno.
  rewrite Hcs.
  - simpl. apply lookup_delete_ne. intros <-. apply Hno. constructor.
  - intros Hld. apply Hno. eapply leads_on; [exact Ec|]. eapply leads_to_more; [|exact Hld].
    intros c1 t1. simpl. by intros [_ ?]%lookup_delete_Some.
Qed.

(** It goes on where it was. *)
Lemma leads_link s t c :
  leads_to s t c → (∃ k p, t = InLoop c k p) ∨ ∃ co, link s (inr co) c.
Proof.
  induction 1 as [c k p|c k p t c' Ht _ IH]; [by left; eauto|]. right.
  destruct IH as [(k' & p' & ->)|[co Hco]]; [by exists c, k', p'|by exists co].
Qed.

Lemma saved_frame s s' t acc k p st :
  saved s t acc k p st → (∀ c, leads_to s t c → coroutines s' !! c = coroutines s !! c) →
  saved s' t acc k p st.
Proof.
  induction 1 as [|c k' p' t acc k p st Ht _ IH]; intros Hs; [constructor|].
  econstructor; [rewrite Hs; [exact Ht|constructor]|]. apply IH. intros c' Hc'. apply Hs.
  by eapply leads_on.
Qed.

Lemma wake_saved fuel f t vs acc s k p st :
  size (coroutines s) ≤ fuel → links_ok None s → wakes s t → stack_ok s f acc → ¬ resumable s acc →
  saved s t acc k p st → ∃ s', wake fuel f t vs acc s = (s', Runs (Run f (k vs) p st)).
Proof.
  revert s t acc k p st.
  induction fuel as [|fuel IH]; intros s t acc k p st Hf Hl Ht Hst Hacc Hs.
  all: destruct Hs as [k p acc|c k' p' t acc k p st Ec Hs]; [by eexists|].
  all: destruct (wake_step s f c k' p' t acc Hl Ht Hst Hacc Ec) as (Hl1 & Ht1 & Hst1 & Hacc1 & Hf1).
  { lia. }
  simpl. rewrite Ec. apply IH; [lia|done..|]. eapply saved_frame; [exact Hs|].
  intros c' Hc'. simpl. apply lookup_delete_ne. intros ->. destruct Ht as [_ Hfree].
  apply leads_link in Hc' as [(k1 & p1 & ->)|[co Hco]]; [|by apply (Hfree (inr co))].
  apply (Hfree (inr c')). by exists k1, p1.
Qed.

(** * Steps *)

(** What code that runs leaves of the fibers that wait: the threads of the
    fibers and of the busy coroutines. *)
Definition frame (f : loc) (s : shim) (sn : shim * next) : Prop :=
  inv sn ∧ sn.2 ≠ Stuck ∧
  (∀ f', f' ≠ f → is_Some (waiting s !! f') → waiting sn.1 !! f' = waiting s !! f') ∧
  (∀ c, c ∈ busy s → coroutines sn.1 !! c = coroutines s !! c).

Lemma links_ok_weaken e s : links_ok None s → links_ok e s.
Proof. intros []. split; eauto. Qed.

Lemma not_resumable_lookup s stack c :
  ¬ resumable s stack → c ∈ children stack → coroutines s !! c = None.
Proof. intros Hr Hc. apply eq_None_not_Some. intros Hs. apply Hr. by exists c. Qed.
Lemma resumable_tail s r rest : ¬ resumable s (r :: rest) → ¬ resumable s rest.
Proof. intros Hr (c & Hin & Hc). apply Hr. exists c. split; [|done]. unfold children in *. set_solver. Qed.

Lemma loop_returns_frame f r rest ret s :
  links_ok None s → stack_ok s f (r :: rest) → ¬ resumable s rest →
  frame f s (loop_returns f r rest ret s).
Proof. intros. split; [by apply loop_returns_inv|done]. Qed.

(** [s1] is [s] with the thread that yields. *)
Lemma pass_on_frame f r rest vs s s1 :
  links_ok None s1 → stack_ok s f (r :: rest) → stack_ok s1 f (r :: rest) → ¬ resumable s1 rest →
  waiting s1 = waiting s → (∀ c, c ∈ busy s → coroutines s1 !! c = coroutines s !! c) →
  frame f s (pass_on f (r :: rest) vs s1).
Proof.
  intros Hl Hst0 Hst Hr Hw Hc. destruct (is_yield_native s1) eqn:Hn.
  - destruct (pass_on_native f r rest vs s1) as (s' & -> & Hl' & Hw' & Hc' & _);
      [done|by apply links_ok_weaken|done|intros; by eapply not_resumable_lookup|].
    split; [done|]. split; [done|]. simpl. split.
    + intros f' Hf' _. by rewrite Hw', Hw.
    + intros c Hb. rewrite Hc', Hc; [done|done|]. intros Hin.
      apply (stack_not_busy _ _ _ Hst0 c); [|done]. unfold children in *. set_solver.
  - simpl. rewrite Hn. destruct (loop_returns_frame f r rest (inr vs) s1) as (Hi & _); [done..|].
    split; [done|]. split; [done|]. simpl. rewrite Hw. split; [done|apply Hc].
Qed.

Lemma raw_yield_frame f stack k p vs s :
  links_ok None s → stack_ok s f stack → ¬ resumable s stack →
  frame f s (raw_yield f stack (At k p) vs s).
Proof.
  intros Hl Hst Hr. destruct stack as [|r rest]; cbn [raw_yield].
  - split; [split; [|done]|].
    { apply (links_ok_put_at (inl f)); [done|exact (fiber_old _ _ _ Hst)]. }
    split; [done|]. split; [|done]. intros f' Hne _. simpl. by apply lookup_insert_ne.
  - destruct Hst as [Hnd Hnb Hold Hf Hfo].
    assert (child r ∈ children (r :: rest)) as Hin by (unfold children; set_solver).
    apply pass_on_frame; [|by split|by split| |done|].
    + exact (links_ok_put_at (inr (child r)) k p s Hl (Hold _ Hin)).
    + intros (c & Hc & Hs). simpl in Hs. unfold children in Hnd. rewrite fmap_cons in Hnd.
      apply NoDup_cons in Hnd as [Hnr _]. rewrite lookup_insert_ne in Hs by (intros Heq; subst c; done).
      apply Hr. exists c. split; [unfold children in *; set_solver|done].
    + intros c Hb. simpl. apply lookup_insert_ne. intros <-. by apply (Hnb (child r)).
Qed.

Lemma thread_ends_frame f stack ret s :
  links_ok None s → stack_ok s f stack → ¬ resumable s stack → frame f s (thread_ends f stack ret s).
Proof.
  intros Hl Hst Hr. destruct stack as [|r rest]; [by split_and!|]. pose proof (resumable_tail _ _ _ Hr).
  destruct ret as [e|vs]; cbn [thread_ends]; [by apply loop_returns_frame|by apply pass_on_frame].
Qed.

Lemma runs_frame f a p stack s :
  links_ok None s → stack_ok s f stack → ¬ resumable s stack → frame f s (s, Runs (Run f a p stack)).
Proof. intros. by split_and!. Qed.

Lemma next_handler_frame f stack handlers ret s :
  links_ok None s → stack_ok s f stack → ¬ resumable s stack →
  frame f s (next_handler f stack handlers ret s).
Proof.
  intros. destruct handlers; [by apply thread_ends_frame|by apply runs_frame].
Qed.

Lemma frame_mark f b s sn : frame f (mark_yield b s) sn → frame f s sn.
Proof. done. Qed.

Lemma wake_at fuel f k p vs stack s : wake fuel f (At k p) vs stack s = (s, Runs (Run f (k vs) p stack)).
Proof. by destruct fuel. Qed.

Lemma coroutine_resume_frame interrupts r co args k s :
  links_ok None s → stack_ok s (fiber r) (stack r) → ¬ resumable s (stack r) →
  frame (fiber r) s (coroutine_resume interrupts r co args k s).
Proof.
  intros Hl [Hnd Hnb Hold Hf Hfo] Hr. unfold coroutine_resume.
  destruct (interrupts _); [by apply runs_frame|].
  case_decide as Hb; [by apply runs_frame|]. destruct (coroutines s !! co) as [t|] eqn:Eco.
  - assert (co ∉ children (stack r)) as Hco by (intros Hin; apply Hr; by exists co).
    destruct t as [k' p'|c k' p'];
      [|by destruct Hb; apply (link_owner _ _ Hl co c); [exists k', p'|]].
    rewrite wake_at. split; [split|split; [done|split; [done|]]]; simpl.
    + destruct Hl as [H1 H2 H3 H4 H5 H6].
      assert (∀ o c, link (with_coroutines (delete co) s) o c → link s o c) as Hlk.
      { intros [f'|co'] c (k1 & p1 & Hc); simpl in Hc; [by exists k1, p1|].
        apply lookup_delete_Some in Hc as [_ Hc]. by exists k1, p1. }
      split; simpl; try done.
      * intros o c Hc. by apply (H1 o c), Hlk.
      * intros o o' c Hc Hc'. by apply (H2 o o' c); apply Hlk.
      * intros co' c Hc. by apply (H3 co' c), Hlk.
      * intros co' [t [_ Ht]%lookup_delete_Some]. by apply H4.
    + split.
      * unfold children in *. split; rewrite ?fmap_cons; simpl; try done.
        -- by apply NoDup_cons.
        -- intros c [->|Hin]%elem_of_cons; [done|by apply Hnb].
        -- intros c [->|Hin]%elem_of_cons; [by apply (coroutine_old _ _ Hl)|by apply Hold].
      * intros (c & Hin & [t Ht]). simpl in Ht. apply lookup_delete_Some in Ht as [Hne Ht].
        apply elem_of_cons in Hin as [->|Hin]; [done|]. apply Hr. by exists c.
    + intros c Hc. apply lookup_delete_ne. by intros <-.
  - split; [|done]. split; simpl; [by apply links_ok_mark|]. by split.
Qed.

Lemma create_frame f a p stack g hs s :
  links_ok None s → stack_ok s f stack → ¬ resumable s stack →
  frame f s ((coroutine_create g hs s).1, Runs (Run f a p stack)).
Proof.
  intros [H1 H2 H3 H4 H5 H6] [Hnd Hnb Hold Hf Hfo] Hr.
  assert (∀ o c, link (coroutine_create g hs s).1 o c → link s o c) as Hlk.
  { intros [f'|co] c (k & p' & Hc); simpl in Hc; [by exists k, p'|].
    rewrite lookup_insert in Hc. case_decide; [done|]. by exists k, p'. }
  split; [split; [|split]|split; [done|split; [done|]]]; simpl.
  - split; simpl.
    + intros o c Hc. by apply (H1 o c), Hlk.
    + intros o o' c Hc Hc'. by apply (H2 o o' c); apply Hlk.
    + intros co c Hc. by apply (H3 co c), Hlk.
    + intros co. rewrite lookup_insert. case_decide; [lia|]. intros Hco%H4. lia.
    + intros co Hco%H5. lia.
    + intros f' Hf'%H6. lia.
  - split; simpl; try done; [intros c Hc%Hold|]; lia.
  - intros (c & Hin & Hc). simpl in Hc. rewrite lookup_insert_ne in Hc by (apply Hold in Hin; lia).
    apply Hr. by exists c.
  - intros c Hc%H5. apply lookup_insert_ne. lia.
Qed.

Lemma spawn_frame f a p stack g hs s :
  links_ok None s → stack_ok s f stack → ¬ resumable s stack →
  frame f s ((spawn g hs s).1, Runs (Run f a p stack)).
Proof.
  intros [H1 H2 H3 H4 H5 H6] [Hnd Hnb Hold Hf Hfo] Hr.
  assert (∀ o c, link (spawn g hs s).1 o c → link s o c) as Hlk.
  { intros [f'|co] c (k & p' & Hc); simpl in Hc; [|by exists k, p'].
    rewrite lookup_insert in Hc. case_decide; [done|]. by exists k, p'. }
  split; [split; [|split; [|done]]|split; [done|split; [|done]]]; simpl.
  - split; simpl.
    + intros o c Hc. by apply (H1 o c), Hlk.
    + intros o o' c Hc Hc'. by apply (H2 o o' c); apply Hlk.
    + intros co c Hc. by apply (H3 co c), Hlk.
    + intros co Hco%H4. lia.
    + intros co Hco%H5. lia.
    + intros f'. rewrite lookup_insert. case_decide; [lia|]. intros Hf'%H6. lia.
  - split; simpl; try done; [intros c Hc%Hold; lia| |lia].
    rewrite lookup_insert_ne by lia. done.
  - intros f' _ Hf'%H6. apply lookup_insert_ne. lia.
Qed.

Lemma step_frame interrupts r s : inv (s, Runs r) → frame (fiber r) s (step interrupts r s).
Proof.
  intros [Hl [Hst Hr]]. simpl in *. unfold step, finish, fail, coroutine_yield. destruct (code r).
  - destruct (code_phase r); [|by apply next_handler_frame].
    destruct (stack r) eqn:Es; [by apply next_handler_frame|].
    eapply frame_mark, next_handler_frame; [by apply links_ok_mark|by apply stack_ok_mark|done].
  - destruct (code_phase r); [by apply next_handler_frame|by split_and!].
  - destruct (stack r) eqn:Es; [by apply runs_frame|].
    eapply frame_mark, raw_yield_frame; [by apply links_ok_mark|by apply stack_ok_mark|done].
  - by apply raw_yield_frame.
  - by apply coroutine_resume_frame.
  - by apply runs_frame.
  - by apply runs_frame.
  - by apply create_frame.
  - by apply spawn_frame.
Qed.

(** * The coroutines a suspended fiber is in *)
Inductive held (s : shim) (f : loc) : loc → Prop :=
| held_first c : link s (inl f) c → held s f c
| held_next co c : held s f co → link s (inr co) c → held s f c.

Lemma held_busy e s f c : links_ok e s → held s f c → c ∈ busy s.
Proof. intros Hl [c' Hc|co c' _ Hc]; by eapply (link_busy _ _ Hl). Qed.

Lemma held_disjoint e s f f' c : links_ok e s → held s f c → held s f' c → f = f'.
Proof.
  intros Hl Hc. induction Hc as [c Hc|co c _ IH Hc]; intros Hc'.
  - destruct Hc' as [c' Hc'|co' c' _ Hc']; pose proof (link_unique _ _ Hl _ _ _ Hc Hc'); by simplify_eq.
  - destruct Hc' as [c' Hc'|co' c' Hco' Hc']; pose proof (link_unique _ _ Hl _ _ _ Hc Hc'); simplify_eq.
    by apply IH.
Qed.

Lemma leads_held s f t c : waiting s !! f = Some t → leads_to s t c → held s f c.
Proof.
  intros Hf Hld. assert (∀ c k p, t = InLoop c k p → held s f c) as Ht.
  { intros c' k p ->. apply held_first. by exists k, p. }
  clear Hf. induction Hld as [c k p|c k p t c' Et _ IH]; [by eapply Ht|].
  apply IH. intros c1 k1 p1 ->. eapply held_next; [by eapply Ht|]. by exists k1, p1.
Qed.

(** What another step leaves of a fiber that waits. *)
Definition kept (f : loc) (s s' : shim) : Prop :=
  waiting s' !! f = waiting s !! f ∧ ∀ c, held s f c → coroutines s' !! c = coroutines s !! c.

(** The VM resumes a fiber. *)
Lemma fiber_resume_inv s f vs t :
  links_ok None s → waiting s !! f = Some t →
  inv (fiber_resume f vs s) ∧ (∃ r, (fiber_resume f vs s).2 = Runs r ∧ fiber r = f) ∧
  (∀ f', f' ≠ f → kept f' s (fiber_resume f vs s).1) ∧
  ∀ k p st, saved s t [] k p st → ∃ s', fiber_resume f vs s = (s', Runs (Run f (k vs) p st)).
Proof.
  intros Hl Hf. unfold fiber_resume. rewrite Hf. set (s1 := with_waiting (delete f) s).
  assert (∀ o c, link s1 o c → link s o c ∧ o ≠ inl f) as Hlk.
  { intros [f'|co] c (k & p & Hc); simpl in Hc; [|split; [by exists k, p|done]].
    apply lookup_delete_Some in Hc as [Hne Hc]. split; [by exists k, p|congruence]. }
  pose proof Hl as [H1 H2 H3 H4 H5 H6].
  assert (links_ok None s1) as Hl1.
  { split; simpl; try done.
    - intros o c [Ho _]%Hlk. by apply (H1 o c).
    - intros o o' c [Ho _]%Hlk [Ho' _]%Hlk. by apply (H2 o o' c).
    - intros f' [t' [_ Ht']%lookup_delete_Some]. by apply H6. }
  assert (wakes s1 t) as Ht1.
  { destruct t as [|c k p]; [done|]. assert (link s (inl f) c) as Hc by (by exists k, p).
    split; [by apply (H1 (inl f))|]. intros o [Ho Hne]%Hlk. by apply Hne, (H2 _ _ c). }
  assert (stack_ok s1 f []) as Hst1.
  { split; simpl; [constructor|set_solver|set_solver|by apply lookup_delete_eq|by apply H6]. }
  assert (¬ resumable s1 []) as Hr1 by (intros (c & Hc & _); set_solver).
  split_and!.
  - pose proof (wake_inv _ f t vs [] s1 (le_n _) Hl1 Ht1 Hst1 Hr1) as Hw.
    change (size (coroutines s1)) with (size (coroutines s)) in Hw.
    destruct (wake _ _ _ _ _ _). apply Hw.
  - pose proof (wake_inv _ f t vs [] s1 (le_n _) Hl1 Ht1 Hst1 Hr1) as Hw.
    change (size (coroutines s1)) with (size (coroutines s)) in Hw.
    destruct (wake _ _ _ _ _ _). apply Hw.
  - intros f' Hne. pose proof (wake_inv _ f t vs [] s1 (le_n _) Hl1 Ht1 Hst1 Hr1) as Hw.
    change (size (coroutines s1)) with (size (coroutines s)) in Hw.
    destruct (wake _ _ _ _ _ _) as [s' n]. destruct Hw as (_ & _ & Hws & Hcs). split; simpl.
    + rewrite Hws. simpl. by apply lookup_delete_ne.
    + intros c Hc. rewrite Hcs; [done|]. intros Hld. apply Hne.
      eapply (held_disjoint None s _ _ c); [done|done|].
      eapply leads_held; [exact Hf|]. eapply leads_to_more; [|exact Hld]. done.
  - intros k p st Hs. apply (wake_saved (size (coroutines s)) f t vs [] s1); try done.
    by eapply saved_more; [|exact Hs].
Qed.

Section runs.
Context (interrupts : loc → option lua_error).
Abbreviation vm_step := (vm_step interrupts).

Lemma vm_step_inv sn sn' : inv sn → vm_step sn sn' → inv sn'.
Proof.
  intros Hi Hs. destruct Hs as [s r|s n f vs t Hn Hf].
  - by apply step_frame.
  - by eapply fiber_resume_inv; [apply Hi|].
Qed.

Lemma vm_steps_inv sn sn' : inv sn → rtc vm_step sn sn' → inv sn'.
Proof. intros Hi. induction 1; [done|]. by eauto using vm_step_inv. Qed.

Lemma inv_init start_fn handlers : inv (make_vm start_fn handlers, Suspended).
Proof.
  split; [|done]. unfold make_vm. simpl. split; simpl.
  - intros [f|co] c (k & p & Hc); simpl in Hc; [|by rewrite lookup_empty in Hc].
    rewrite lookup_insert in Hc. case_decide; [done|]. by rewrite lookup_empty in Hc.
  - intros [f|co] o c (k & p & Hc); simpl in Hc; [|by rewrite lookup_empty in Hc].
    rewrite lookup_insert in Hc. case_decide; [done|]. by rewrite lookup_empty in Hc.
  - intros co c (k & p & Hc). simpl in Hc. by rewrite lookup_empty in Hc.
  - intros co. rewrite lookup_empty. by intros [? ?].
  - set_solver.
  - intros f. rewrite lookup_insert. case_decide; [lia|]. rewrite lookup_empty. by intros [? ?].
Qed.

(** A step after which [f] still waits. *)
Definition while_waiting (f : loc) (sn sn' : shim * next) : Prop :=
  vm_step sn sn' ∧ is_Some (waiting sn'.1 !! f).

Lemma others_keep f sn sn' :
  inv sn → is_Some (waiting sn.1 !! f) → while_waiting f sn sn' → kept f sn.1 sn'.1.
Proof.
  intros Hi Ht [Hs Hr']. destruct Hs as [s r|s n f' vs t' Hn Hf'].
  - destruct (step_frame interrupts r s Hi) as (_ & _ & Hw & Hc). split.
    + apply Hw; [|done]. intros ->. destruct Hi as (_ & [_ _ _ Hf _] & _). simpl in *.
      rewrite Hf in Ht. by destruct Ht.
    + intros c Hh. apply Hc. by eapply held_busy; [apply Hi|].
  - destruct (fiber_resume_inv s f' vs t' (proj1 Hi) Hf') as (Hi' & (r & Er & Hr) & Hk & _).
    apply Hk. intros <-. destruct Hi' as [_ Hi']. rewrite Er in Hi'.
    destruct Hi' as [[_ _ _ Hf _] _]. rewrite Hr in Hf. rewrite Hf in Hr'. by destruct Hr'.
Qed.

Lemma saved_while_waiting f t k p st sn sn' :
  inv sn → waiting sn.1 !! f = Some t → saved sn.1 t [] k p st → rtc (while_waiting f) sn sn' →
  inv sn' ∧ waiting sn'.1 !! f = Some t ∧ saved sn'.1 t [] k p st.
Proof.
  intros Hi Hf Hs Hr. induction Hr as [sn|sn1 sn2 sn3 Hstep _ IH]; [done|].
  destruct (others_keep f sn1 sn2 Hi ltac:(by eexists) Hstep) as [Hw Hc]. apply IH.
  - eapply vm_step_inv; [done|apply Hstep].
  - by rewrite Hw.
  - eapply saved_frame; [exact Hs|]. intros c Hld. apply Hc. by eapply leads_held.
Qed.

Lemma suspend_saved r k s :
  inv (s, Runs r) → code r = Suspend k → is_yield_native s = true →
  ∃ s1 t, step interrupts r s = (s1, Suspended) ∧ waiting s1 !! fiber r = Some t ∧
    saved s1 t [] k (code_phase r) (stack r).
Proof.
  intros [Hl [[Hnd Hnb Hold Hf Hfo] Hr]] Hc Hn. simpl in *. unfold step. rewrite Hc. unfold raw_yield.
  destruct (stack r) as [|r0 rest] eqn:Es.
  { eexists _, _. split; [done|]. split; [apply lookup_insert_eq|constructor]. }
  assert (child r0 ∈ children (r0 :: rest)) as Hin by (unfold children; set_solver).
  set (s1 := with_coroutines (<[child r0 := At k (code_phase r)]>) s).
  destruct (pass_on_native (fiber r) r0 rest [] s1) as (s' & Hp & _ & _ & _ & Hs).
  - done.
  - apply links_ok_weaken. exact (links_ok_put_at (inr (child r0)) k _ s Hl (Hold _ Hin)).
  - by split.
  - intros c Hc'. simpl. unfold children in Hnd. rewrite fmap_cons in Hnd.
    apply NoDup_cons in Hnd as [Hnr _]. rewrite lookup_insert_ne by (intros Heq; subst c; done).
    eapply not_resumable_lookup; [done|]. unfold children in *. set_solver.
  - destruct (Hs (At k (code_phase r)) k (code_phase r) (r0 :: rest)) as (t' & Hw & Hs');
      [apply lookup_insert_eq|constructor|]. by exists s', t'.
Qed.
End runs.
