(* ===== verification/ShimPromises.v ===== *)
(** The flag that tells the yields apart, and what the shim promises with it. *)
From S2P Require Import Prelude Errors Lua Shim ShimSpec.

(** * Cleanup handlers that neither suspend, yield nor resume *)
Inductive quiet : act → Prop :=
| quiet_finish vs : quiet (Finish vs)
| quiet_fail e : quiet (Fail e)
| quiet_status co k : (∀ st, quiet (k st)) → quiet (Status co k)
| quiet_running k : (∀ co, quiet (k co)) → quiet (Running k).

(** Code whose coroutines and fibers have such handlers only. *)
Inductive disciplined : act → Prop :=
| disciplined_finish vs : disciplined (Finish vs)
| disciplined_fail e : disciplined (Fail e)
| disciplined_yield vs k : (∀ vs, disciplined (k vs)) → disciplined (Yield vs k)
| disciplined_suspend k : (∀ vs, disciplined (k vs)) → disciplined (Suspend k)
| disciplined_resume co args k : (∀ ret, disciplined (k ret)) → disciplined (Resume co args k)
| disciplined_status co k : (∀ st, disciplined (k st)) → disciplined (Status co k)
| disciplined_running k : (∀ co, disciplined (k co)) → disciplined (Running k)
| disciplined_create f handlers k :
    (∀ vs, disciplined (f vs)) → Forall quiet handlers → (∀ co, disciplined (k co)) →
    disciplined (Create f handlers k)
| disciplined_spawn f handlers k :
    disciplined f → Forall quiet handlers → (∀ co, disciplined (k co)) →
    disciplined (Spawn f handlers k).

Definition in_body (p : phase) : Prop := ∃ handlers, p = InBody handlers ∧ Forall quiet handlers.
Definition thread_ok (t : thread) : Prop :=
  match t with
  | At k p => in_body p ∧ ∀ vs, disciplined (k vs)
  | InLoop _ k p => in_body p ∧ ∀ ret, disciplined (k ret)
  end.
Definition resumer_ok (r : resumer) : Prop :=
  in_body (resumer_phase r) ∧ ∀ ret, disciplined (result_to r ret).
Definition threads_ok (s : shim) : Prop :=
  map_Forall (λ _, thread_ok) (coroutines s) ∧ map_Forall (λ _, thread_ok) (waiting s).

(** The flag is down only while the handlers of a coroutine run that returned. *)
Definition flag (r : running) : bool :=
  match code_phase r, stack r with InCleanup _ (inr _), _ :: _ => false | _, _ => true end.
Definition code_ok (r : running) : Prop :=
  match code_phase r with
  | InBody handlers => disciplined (code r) ∧ Forall quiet handlers
  | InCleanup handlers _ => quiet (code r) ∧ Forall quiet handlers
  end.
Definition flag_ok (sn : shim * next) : Prop :=
  threads_ok sn.1 ∧
  match sn.2 with
  | Runs r => code_ok r ∧ Forall resumer_ok (stack r) ∧ is_yield_native sn.1 = flag r
  | Suspended | FiberEnds _ _ => is_yield_native sn.1 = true
  | _ => True
  end.

Lemma threads_ok_coroutine s co t :
  threads_ok s → thread_ok t → threads_ok (with_coroutines (<[co := t]>) s).
Proof. intros [Hc Hw] Ht. split; [|done]. by apply map_Forall_insert_2. Qed.
Lemma threads_ok_waiting s f t :
  threads_ok s → thread_ok t → threads_ok (with_waiting (<[f := t]>) s).
Proof. intros [Hc Hw] Ht. split; [done|]. by apply map_Forall_insert_2. Qed.
Lemma threads_ok_delete s co :
  threads_ok s → threads_ok (with_coroutines (delete co) s).
Proof. intros [Hc Hw]. split; [|done]. by apply map_Forall_delete. Qed.

Lemma resumer_loop r : resumer_ok r → thread_ok (InLoop (child r) (result_to r) (resumer_phase r)).
Proof. done. Qed.

Lemma in_body_flag f a p stack : in_body p → flag (Run f a p stack) = true.
Proof. by intros (hs & -> & _). Qed.

Lemma loop_returns_flag f r rest ret s :
  threads_ok s → resumer_ok r → Forall resumer_ok rest → flag_ok (loop_returns f r rest ret s).
Proof.
  intros Ht [(hs & Hp & Hhs) Hk] Hrest. split; [done|]. simpl. unfold code_ok, flag. simpl.
  rewrite Hp. split_and!; [apply Hk|done..].
Qed.

(** With the flag up a yield reaches the fiber. *)
Lemma pass_on_flag f stack vs s :
  threads_ok s → Forall resumer_ok stack → stack ≠ [] → flag_ok (pass_on f stack vs s).
Proof.
  intros Ht Hst Hne. revert s Ht. induction Hst as [|r rest Hr Hrest IH]; intros s Ht; [done|].
  simpl. destruct (is_yield_native s) eqn:En; [|by apply loop_returns_flag].
  destruct rest as [|r' rest].
  - split; [by apply threads_ok_waiting|done].
  - apply IH; [done|]. by apply threads_ok_coroutine.
Qed.

Lemma raw_yield_flag f stack t vs s :
  threads_ok s → thread_ok t → Forall resumer_ok stack → (stack = [] → is_yield_native s = true) →
  flag_ok (raw_yield f stack t vs s).
Proof.
  intros Hs Ht Hst Hn. destruct stack as [|r rest]; cbn [raw_yield].
  - split; [by apply threads_ok_waiting|by apply Hn].
  - apply pass_on_flag; [by apply threads_ok_coroutine|done|done].
Qed.

Lemma next_handler_flag f stack handlers ret s :
  threads_ok s → Forall resumer_ok stack → Forall quiet handlers →
  is_yield_native s = (match ret, stack with inr _, _ :: _ => false | _, _ => true end) →
  flag_ok (next_handler f stack handlers ret s).
Proof.
  intros Ht Hst Hq Hn. destruct handlers as [|h handlers]; cbn [next_handler].
  - destruct stack as [|r rest]; cbn [thread_ends]; [by destruct ret|].
    inversion_clear Hst. destruct ret as [e|vs]; [by apply loop_returns_flag|].
    cbn [pass_on]. rewrite Hn. by apply loop_returns_flag.
  - inversion_clear Hq. split; [done|]. simpl. unfold code_ok, flag. simpl. split_and!; [done..|].
    rewrite Hn. by destruct ret, stack.
Qed.

Lemma wake_flag fuel f t vs acc s :
  threads_ok s → thread_ok t → Forall resumer_ok acc → is_yield_native s = true →
  flag_ok (wake fuel f t vs acc s).
Proof.
  revert t acc s. induction fuel as [|fuel IH]; intros t acc s Hs Ht Hacc Hn.
  all: destruct t as [k p|c k p]; simpl.
  1,3: destruct Ht as [(hs & -> & Hhs) Hk]; split; [done|]; simpl; unfold code_ok, flag; simpl; by auto.
  all: destruct (coroutines s !! c) as [t|] eqn:Ec; [|by apply loop_returns_flag].
  - by split.
  - apply IH; [by apply threads_ok_delete|by apply (proj1 Hs c)|by constructor|done].
Qed.

Section runs.
Context (interrupts : loc → option lua_error).

Lemma step_flag r s : flag_ok (s, Runs r) → flag_ok (step interrupts r s).
Proof.
  intros (Hs & Hc & Hst & Hn). simpl in *. unfold step, code_ok, flag in *.
  destruct (code_phase r) as [hs|hs ret] eqn:Ep; destruct Hc as [Hc Hhs].
  - assert (in_body (code_phase r)) as Hb by (by exists hs).
    assert (∀ a, disciplined a → ∀ s', threads_ok s' → is_yield_native s' = true →
      flag_ok (s', Runs (Run (fiber r) a (InBody hs) (stack r)))) as Hgo.
    { intros a Ha s' Hs' Hn'. by split. }
    destruct (code r) as [vs|e|vs k|k|co args k|co k|k|g gs k|g gs k]; inversion Hc; subst.
    + unfold finish. rewrite Ep. apply next_handler_flag; [by destruct (stack r)|done|done|].
      by destruct (stack r).
    + unfold fail. rewrite Ep. by apply next_handler_flag.
    + unfold coroutine_yield. rewrite Ep. destruct (stack r) eqn:Es; [apply Hgo; [constructor|done..]|].
      apply raw_yield_flag; [done|split; [by exists hs|done]|done|done].
    + apply raw_yield_flag; [done|split; [by exists hs|done]|done|done].
    + unfold coroutine_resume. rewrite Ep. destruct (interrupts _); [apply Hgo; [constructor|done..]|].
      case_decide; [apply Hgo; [constructor|done..]|].
      assert (resumer_ok (Resumer co k (InBody hs))) by (split; [by exists hs|done]).
      destruct (coroutines s !! co) as [t|] eqn:Eco; [|by apply loop_returns_flag].
      apply wake_flag; [by apply threads_ok_delete|by apply (proj1 Hs co)|by constructor|done].
    + by apply Hgo.
    + by apply Hgo.
    + apply Hgo; [done| |done]. destruct Hs as [Hs1 Hs2]. split; [|done].
      apply map_Forall_insert_2; [split; [by exists gs|done]|done].
    + apply Hgo; [done| |done]. destruct Hs as [Hs1 Hs2]. split; [done|].
      apply map_Forall_insert_2; [split; [by exists gs|done]|done].
  - destruct (code r) as [vs|e|vs k|k|co args k|co k|k|g gs k|g gs k]; inversion Hc; subst.
    + unfold finish. rewrite Ep. by apply next_handler_flag.
    + unfold fail. rewrite Ep. by split.
    + split; [done|]. simpl. unfold code_ok, flag. simpl. by split_and!.
    + split; [done|]. simpl. unfold code_ok, flag. simpl. by split_and!.
Qed.

Lemma vm_step_flag sn sn' : flag_ok sn → vm_step interrupts sn sn' → flag_ok sn'.
Proof.
  intros Hf Hs. destruct Hs as [s r|s n f vs t Hn Ht]; [by apply step_flag|].
  assert (threads_ok s ∧ is_yield_native s = true) as [Hs Hnat] by (destruct Hf, n; done).
  unfold fiber_resume. rewrite Ht. destruct Hs as [Hc Hw]. apply wake_flag; [|by apply (Hw f)|done|done].
  split; [done|]. by apply map_Forall_delete.
Qed.

Lemma init_flag start_fn handlers :
  disciplined start_fn → Forall quiet handlers →
  flag_ok (make_vm start_fn handlers, Suspended).
Proof.
  intros. split; [|done]. split; simpl; [apply map_Forall_empty|].
  apply map_Forall_insert_2; [|apply map_Forall_empty]. split; [by exists handlers|done].
Qed.

Definition reachable (start_fn : act) (handlers : list act) : shim * next → Prop :=
  rtc (vm_step interrupts) (make_vm start_fn handlers, Suspended).

Lemma reachable_flag start_fn handlers sn :
  disciplined start_fn → Forall quiet handlers → reachable start_fn handlers sn → flag_ok sn.
Proof.
  intros Hs Hh Hr. pose proof (init_flag _ _ Hs Hh) as Hi.
  induction Hr; [done|]. by eauto using vm_step_flag.
Qed.

(** C12 For programs in which no cleanup handler of a fiber or coroutine suspends,
    yields, resumes, or makes a coroutine or a fiber ([disciplined], [quiet];
    [Examples.handler_suspension_not_passed_on] and [Examples.handler_resume_hangs]
    are what the others come to): when a fiber suspends, inside of however many coroutines, and is resumed
    later, the innermost coroutine goes on with the values, on the same stack of
    coroutines, whatever the other fibers did in the meantime. *)
Theorem suspension_transparent start_fn handlers s r k sn vs :
  disciplined start_fn → Forall quiet handlers →
  reachable start_fn handlers (s, Runs r) → code r = Suspend k →
  rtc (while_waiting interrupts (fiber r)) (step interrupts r s) sn →
  (step interrupts r s).2 = Suspended ∧
  ∃ s', fiber_resume (fiber r) vs sn.1 = (s', Runs (Run (fiber r) (k vs) (code_phase r) (stack r))).
Proof.
  intros Hd Hq Hr Hc Hw.
  pose proof (vm_steps_inv interrupts _ _ (inv_init start_fn handlers) Hr) as Hi.
  destruct (reachable_flag _ _ _ Hd Hq Hr) as (_ & Hcode & _ & Hn). simpl in *.
  assert (flag r = true) as Hflag.
  { unfold flag, code_ok in *. destruct (code_phase r); [done|]. rewrite Hc in Hcode.
    destruct Hcode as [Hcode _]. inversion Hcode. }
  destruct (suspend_saved interrupts r k s Hi Hc) as (s1 & t & Hs1 & Ht & Hsaved); [congruence|].
  rewrite Hs1 in *. split; [done|].
  assert (inv (s1, Suspended)) as Hi1 by (rewrite <- Hs1; by apply step_frame).
  destruct (saved_while_waiting interrupts (fiber r) t k (code_phase r) (stack r) _ _ Hi1 Ht Hsaved Hw)
    as (Hi2 & Ht2 & Hs2).
  by apply (fiber_resume_inv _ (fiber r) vs t (proj1 Hi2) Ht2).
Qed.

(** Whatever the program: the shim is never stuck, a coroutine is passed on
    by one [coroutine.resume] at most and is busy then, and those of the fiber
    that runs can be resumed by nobody. *)
Theorem shim_invariant start_fn handlers s n :
  reachable start_fn handlers (s, n) →
  n ≠ Stuck ∧
  (∀ o o' c, link s o c → link s o' c → o = o' ∧ c ∈ busy s) ∧
  ∀ r c, n = Runs r → c ∈ children (stack r) → c ∉ busy s ∧ coroutines s !! c = None.
Proof.
  intros Hr. pose proof (vm_steps_inv interrupts _ _ (inv_init start_fn handlers) Hr) as [Hl Hn].
  simpl in *. split; [by destruct n|]. split.
  - intros o o' c Ho Ho'. split; [by eapply (link_unique _ _ Hl)|by eapply (link_busy _ _ Hl)].
  - intros r c -> Hc. destruct Hn as [Hst Hres]. split; [by apply (stack_not_busy _ _ _ Hst)|].
    by eapply not_resumable_lookup.
Qed.
End runs.

(** * Executions *)
Module Examples.
Inductive choice : Type := Go | Wake (f : loc) (vs : list lua_value).
Definition never (_ : loc) : option lua_error := None.
Definition choose (c : choice) (sn : shim * next) : option (shim * next) :=
  match c, sn.2 with
  | Go, Runs r => Some (step never r sn.1)
  | Wake f vs, (Suspended | FiberEnds _ _) =>
      if waiting sn.1 !! f is Some _ then Some (fiber_resume f vs sn.1) else None
  | _, _ => None
  end.
Fixpoint execute (cs : list choice) (sn : shim * next) : option (shim * next) :=
  match cs with [] => Some sn | c :: cs => choose c sn ≫= execute cs end.

Lemma choose_step c sn sn' : choose c sn = Some sn' → vm_step never sn sn'.
Proof.
  destruct sn as [s n], c as [|f vs], n; simpl; try done; [intros [= <-]; constructor|..];
    (destruct (waiting s !! f) eqn:E; [|done]; intros [= <-]; by eapply vm_resumes).
Qed.
Lemma execute_steps cs sn sn' : execute cs sn = Some sn' → rtc (vm_step never) sn sn'.
Proof.
  revert sn. induction cs as [|c cs IH]; intros sn; simpl; [by intros [= ->]|].
  intros (sn1 & Hc & Hr)%bind_Some. eapply rtc_l; [by eapply choose_step|by apply IH].
Qed.

(** The same while [f] waits. *)
Fixpoint execute_waiting (f : loc) (cs : list choice) (sn : shim * next) : option (shim * next) :=
  match cs with
  | [] => Some sn
  | c :: cs =>
      choose c sn ≫= λ sn, if waiting sn.1 !! f is Some _ then execute_waiting f cs sn else None
  end.
Lemma execute_waiting_steps f cs sn sn' :
  execute_waiting f cs sn = Some sn' → rtc (while_waiting never f) sn sn'.
Proof.
  revert sn. induction cs as [|c cs IH]; intros sn; simpl; [by intros [= ->]|].
  intros (sn1 & Hc & Hr)%bind_Some. destruct (waiting sn1.1 !! f) eqn:E; [|done].
  eapply rtc_l; [split; [by eapply choose_step|by eexists]|by apply IH].
Qed.

Definition done_with (ret : lua_error + list lua_value) : act :=
  match ret with inl e => Fail e | inr vs => Finish vs end.
Definition passes_on (vs : list lua_value) : act := Finish vs.

(** The main fiber suspends inside of two coroutines, while another fiber
    runs a coroutine of its own. *)
Definition inner (_ : list lua_value) : act := Suspend passes_on.
Definition outer (_ : list lua_value) : act := Create inner [Finish []] (λ co, Resume co [] done_with).
Definition other : act :=
  Create (λ _, Yield [] passes_on) [] (λ co, Resume co [] (λ _, Suspend passes_on)).
Definition main : act :=
  Spawn other [] (λ _, Create outer [Finish []] (λ co, Resume co [] done_with)).

Lemma passes_on_disciplined vs : disciplined (passes_on vs).
Proof. constructor. Qed.
Lemma done_with_disciplined ret : disciplined (done_with ret).
Proof. destruct ret; constructor. Qed.
Lemma main_disciplined : disciplined main.
Proof.
  repeat constructor; auto using passes_on_disciplined, done_with_disciplined;
    intros; repeat constructor; auto using passes_on_disciplined, done_with_disciplined;
    intros; repeat constructor; auto using passes_on_disciplined, done_with_disciplined.
Qed.

Lemma suspension_transparent_witness :
  ∃ s r sn, execute [Wake 0 []; Go; Go; Go; Go; Go] (make_vm main [], Suspended) = Some (s, Runs r) ∧
    execute_waiting 0 [Wake 1 []; Go; Go; Go; Go] (step never r s) = Some sn ∧ length (stack r) = 2 ∧
    (step never r s).2 = Suspended ∧
    ∃ s', fiber_resume 0 [LBoolean true] sn.1 =
      (s', Runs (Run 0 (passes_on [LBoolean true]) (code_phase r) (stack r))).
Proof.
  eexists _, _, _. split; [vm_compute; reflexivity|]. split; [vm_compute; reflexivity|].
  split; [reflexivity|].
  lazymatch goal with
  | |- (step never ?r ?s).2 = _ ∧ ∃ s', fiber_resume _ _ ?sn.1 = _ =>
      apply (suspension_transparent never main [] s r passes_on sn [LBoolean true])
  end.
  - apply main_disciplined.
  - constructor.
  - apply (execute_steps [Wake 0 []; Go; Go; Go; Go; Go]). vm_compute. reflexivity.
  - reflexivity.
  - apply (execute_waiting_steps 0 [Wake 1 []; Go; Go; Go; Go]). vm_compute. reflexivity.
Defined.

Lemma shim_invariant_witness :
  ∃ s n, execute [Wake 0 []; Go; Go; Go; Go; Go; Go] (make_vm main [], Suspended) = Some (s, n) ∧
    n ≠ Stuck ∧ (∀ o o' c, link s o c → link s o' c → o = o' ∧ c ∈ busy s) ∧
    ∀ r c, n = Runs r → c ∈ children (stack r) → c ∉ busy s ∧ coroutines s !! c = None.
Proof.
  eexists _, _. split; [vm_compute; reflexivity|].
  apply (shim_invariant never main []).
  apply (execute_steps [Wake 0 []; Go; Go; Go; Go; Go; Go]). vm_compute. reflexivity.
Defined.

(** The flag goes down before the handlers of a coroutine that returned: when
    one suspends the fiber, [coroutine.resume] returns to its caller, which
    runs on although the VM will resume the fiber. *)
Lemma handler_suspension_not_passed_on :
  let main := Create passes_on [Suspend passes_on] (λ co, Resume co [] (λ _, Running (λ _, Finish []))) in
  ∃ s r, execute [Wake 0 []; Go; Go; Go; Go] (make_vm main [], Suspended) = Some (s, Runs r) ∧
    stack r = [] ∧ code r = Running (λ _, Finish []) ∧ waiting s = ∅.
Proof. eexists _, _. split; [vm_compute; reflexivity|]. split_and!; reflexivity. Qed.

(** When a handler resumes a coroutine the flag is up again: the end of the
    coroutine is taken for a suspension, and the fiber waits for nothing. *)
Lemma handler_resume_hangs :
  let main := Create passes_on [] (λ co,
    Create passes_on [Resume co [] done_with] (λ co', Resume co' [] done_with)) in
  ∃ s, execute [Wake 0 []; Go; Go; Go; Go; Go; Go; Go] (make_vm main [], Suspended) =
      Some (s, Suspended) ∧
    (∃ t, waiting s !! 0 = Some t) ∧ coroutines s = ∅.
Proof. eexists _. split; [vm_compute; reflexivity|]. split; [by eexists|reflexivity]. Qed.
End Examples.
