(* ===== verification/Double.v ===== *)
(** [lua_Number]: the doubles behind Lua's numbers, with the operations the
    durations of [src/src/time.cpp] need of the C++ language: conversion from
    and to [std::int64_t], product and quotient with a constant, difference
    and order.  All round to nearest, ties to even.

    Every finite double is a whole multiple of 2^-1074, the smallest subnormal
    number: [Finite k] is k·2^-1074.  The two zeros are one value here: no
    operation below tells them apart.  [decode] reads the 64-bit pattern of
    [Lua.v]'s numbers, [encode] writes it. *)
From S2P Require Import Prelude Lua.
#[local] Open Scope Z_scope.

Module Double.
(** * Rounding *)

(** The integer nearest to n/d, the even one of two as near. *)
Definition half_even (n d : Z) : Z :=
  let q := n `div` d in
  match Z.compare (2 * (n `mod` d)) d with
  | Lt => q
  | Gt => q + 1
  | Eq => if Z.even q then q else q + 1
  end.

(** The exponent of the last of 53 binary digits of n/d, never below 2^0. *)
Definition last_digit (n d : Z) : Z := Z.max 0 (Z.log2 (n `div` d) - 52).

(** n/d rounded to 53 binary digits. *)
Definition round_pos (n d : Z) : Z :=
  let e := last_digit n d in half_even n (d * 2 ^ e) * 2 ^ e.

Definition round (n d : Z) : Z :=
  if decide (n < 0) then - round_pos (- n) d else round_pos n d.

(** * Values *)
Inductive double : Set :=
| NaN
| Inf (negative : bool)
| Finite (k : Z).

#[global] Instance double_eq_dec : EqDecision double.
Proof. solve_decision. Defined.

Definition unit : Z := 2 ^ 1074.

(** What has been rounded, too large values made infinite. *)
Definition of_units (k : Z) : double :=
  if decide (2 ^ 2098 ≤ Z.abs k) then Inf (bool_decide (k < 0)) else Finite k.

(** [static_cast<double>(z)]. *)
Definition of_Z (z : Z) : double := of_units (round (z * unit) 1).

(** [static_cast<std::int64_t>(x)], undefined when the truncated value does not
    fit. *)
Definition to_int64 (x : double) : option Z :=
  match x with
  | Finite k => let z := k `quot` unit in if decide (in_int64 z) then Some z else None
  | _ => None
  end.

(** [x * c] and [x / c] for a constant c > 0 that a double holds exactly. *)
Definition times (x : double) (c : Z) : double :=
  match x with Finite k => of_units (round (k * c) 1) | _ => x end.
Definition divided_by (x : double) (c : Z) : double :=
  match x with Finite k => of_units (round k c) | _ => x end.

(** [x - y]. *)
Definition minus (x y : double) : double :=
  match x, y with
  | Finite a, Finite b => of_units (round (a - b) 1)
  | Inf s, Inf t => if eqb s t then NaN else Inf s
  | Inf s, Finite _ => Inf s
  | Finite _, Inf t => Inf (negb t)
  | NaN, _ | _, NaN => NaN
  end.

(** [x < y] and [x == y]. *)
Definition lt (x y : double) : bool :=
  match x, y with
  | Finite a, Finite b => bool_decide (a < b)
  | Inf s, Inf t => s && negb t
  | Inf s, Finite _ => s
  | Finite _, Inf t => negb t
  | NaN, _ | _, NaN => false
  end.
Definition eq (x y : double) : bool :=
  match x, y with
  | Finite a, Finite b => bool_decide (a = b)
  | Inf s, Inf t => eqb s t
  | _, _ => false
  end.

Definition isnan (x : double) : bool := match x with NaN => true | _ => false end.
Definition isinf (x : double) : bool := match x with Inf _ => true | _ => false end.

(** * 64-bit patterns *)
Definition magnitude (bits : Z) : Z :=
  let e := Ieee754.exponent bits in
  if decide (e = 0) then Ieee754.mantissa bits
  else (2 ^ 52 + Ieee754.mantissa bits) * 2 ^ (e - 1).

Definition decode (bits : lua_Number) : double :=
  if decide (Ieee754.exponent bits = 2047) then
    if decide (Ieee754.mantissa bits = 0) then Inf (Ieee754.negative bits) else NaN
  else Finite (if Ieee754.negative bits then - magnitude bits else magnitude bits).

(** The pattern of a sign, an exponent and a mantissa. *)
Definition pattern (s : bool) (E M : Z) : lua_Number :=
  (if s then 2 ^ 63 else 0) + E * 2 ^ 52 + M.

Definition encode (x : double) : lua_Number :=
  match x with
  | NaN => pattern false 2047 (2 ^ 51)
  | Inf s => pattern s 2047 0
  | Finite k =>
      let a := Z.abs k in
      let s := bool_decide (k < 0) in
      if decide (a < 2 ^ 52) then pattern s 0 a
      else let e := Z.log2 a - 52 in pattern s (e + 1) (a `div` 2 ^ e - 2 ^ 52)
  end.

(** * What doubles can hold *)

(** At most 53 binary digits before the zeros. *)
Definition representable (k : Z) : Prop :=
  ∃ m e, 0 ≤ e ∧ Z.abs m ≤ 2 ^ 53 ∧ k = m * 2 ^ e.

Definition fits (x : double) : Prop :=
  match x with Finite k => representable k ∧ Z.abs k < 2 ^ 2098 | _ => True end.

(** * Rounding to an integer *)
Lemma half_even_near n d : 0 < d → 2 * Z.abs (half_even n d * d - n) ≤ d.
Proof.
  intros Hd. unfold half_even.
  pose proof (Z.div_mod n d ltac:(lia)) as Hn. pose proof (Z.mod_pos_bound n d Hd).
  set (q := n `div` d) in *. set (r := n `mod` d) in *.
  destruct (Z.compare_spec (2 * r) d); [destruct (Z.even q)|..]; nia.
Qed.

Lemma half_even_le n d z : 0 < d → n ≤ z * d → half_even n d ≤ z.
Proof.
  intros Hd Hz. pose proof (half_even_near n d Hd). nia.
Qed.

Lemma half_even_ge n d z : 0 < d → z * d ≤ n → z ≤ half_even n d.
Proof.
  intros Hd Hz. pose proof (half_even_near n d Hd). nia.
Qed.

(** What [half_even] is: one of the nearest, and even when there are two. *)
Lemma half_even_unique n d z :
  0 < d → 2 * Z.abs (z * d - n) ≤ d →
  (2 * Z.abs (z * d - n) = d → Z.even z = true) → half_even n d = z.
Proof.
  intros Hd Hz He. unfold half_even.
  pose proof (Z.div_mod n d ltac:(lia)) as Hn. pose proof (Z.mod_pos_bound n d Hd).
  set (q := n `div` d) in *. set (r := n `mod` d) in *.
  assert (z = q ∨ z = q + 1) as [-> | ->] by nia.
  - replace (q * d - n) with (- r) in * by lia.
    destruct (Z.compare_spec (2 * r) d); [rewrite He by lia| |]; lia.
  - replace ((q + 1) * d - n) with (d - r) in * by lia.
    destruct (Z.compare_spec (2 * r) d); [|lia|lia].
    rewrite Z.add_1_r, Z.even_succ, <- Z.negb_even in He.
    destruct (Z.even q); [|lia]. specialize (He ltac:(lia)). discriminate.
Qed.

(** * Rounding to 53 digits *)
Lemma pow2_pos e : 0 ≤ e → 0 < 2 ^ e.
Proof. intros. apply Z.pow_pos_nonneg; lia. Qed.
#[local] Hint Resolve pow2_pos : core.

Lemma pow2_split a b : 0 ≤ a ≤ b → 2 ^ b = 2 ^ a * 2 ^ (b - a).
Proof. intros. rewrite <- Z.pow_add_r by lia. f_equal. lia. Qed.

Lemma last_digit_nonneg n d : 0 ≤ last_digit n d.
Proof. unfold last_digit. lia. Qed.

(** n/d has at most 53 digits above the last one, and 53 when that is not the
    unit. *)
Lemma last_digit_spec n d :
  0 ≤ n → 0 < d → let e := last_digit n d in
  n < d * 2 ^ (53 + e) ∧ (e = 0 ∨ d * 2 ^ (52 + e) ≤ n).
Proof.
  intros Hn Hd. unfold last_digit. cbn zeta.
  pose proof (Z.div_mod n d ltac:(lia)). pose proof (Z.mod_pos_bound n d Hd).
  assert (0 ≤ n `div` d) as Hq by (apply Z.div_pos; lia).
  set (q := n `div` d) in *.
  destruct (decide (q = 0)) as [Hq0|Hq0].
  { rewrite Hq0 in *. change (Z.log2 0) with 0. rewrite Z.max_l by lia. split; [|by left].
    change (2 ^ (53 + 0)) with (2 ^ 53). nia. }
  destruct (Z.log2_spec q ltac:(lia)) as [Hl Hu].
  destruct (decide (Z.log2 q ≤ 52)) as [Hs|Hs].
  - rewrite Z.max_l by lia. split; [|by left].
    assert (2 ^ Z.succ (Z.log2 q) ≤ 2 ^ (53 + 0)) by (apply Z.pow_le_mono_r; lia). nia.
  - rewrite Z.max_r by lia.
    replace (53 + (Z.log2 q - 52)) with (Z.succ (Z.log2 q)) by lia.
    replace (52 + (Z.log2 q - 52)) with (Z.log2 q) by lia. split; [nia|right; nia].
Qed.

Lemma round_pos_nonneg n d : 0 ≤ n → 0 < d → 0 ≤ round_pos n d.
Proof.
  intros Hn Hd. unfold round_pos. pose proof (last_digit_nonneg n d) as He.
  apply Z.mul_nonneg_nonneg; [|by apply Z.lt_le_incl, pow2_pos].
  pose proof (pow2_pos _ He). apply half_even_ge; nia.
Qed.

(** Rounding never crosses a number that is representable. *)
Lemma round_pos_le n d r :
  0 ≤ n → 0 < d → representable r → n ≤ r * d → round_pos n d ≤ r.
Proof.
  intros Hn Hd (m & e' & He' & Hm & ->) Hle.
  destruct (last_digit_spec n d Hn Hd) as [Hlt Hge].
  unfold round_pos. pose proof (last_digit_nonneg n d) as He.
  set (e := last_digit n d) in *.
  pose proof (pow2_pos _ He) as Pe. pose proof (pow2_pos _ He') as Pe'.
  destruct (decide (e ≤ e')) as [Hee|Hee].
  - rewrite (pow2_split e e') in * by lia.
    enough (half_even n (d * 2 ^ e) ≤ m * 2 ^ (e' - e)) by nia.
    apply half_even_le; nia.
  - destruct Hge as [Hge|Hge]; [lia|].
    assert (2 ^ 53 * 2 ^ e' ≤ 2 ^ (52 + e)) as Hb
      by (rewrite <- Z.pow_add_r by lia; apply Z.pow_le_mono_r; lia).
    rewrite Z.pow_add_r in Hge, Hb by lia.
    assert (m * 2 ^ e' ≤ 2 ^ 53 * 2 ^ e') as Hm' by (apply Z.mul_le_mono_nonneg_r; lia).
    assert (m * 2 ^ e' * d ≤ 2 ^ 52 * 2 ^ e * d) by (apply Z.mul_le_mono_nonneg_r; lia).
    assert (m * 2 ^ e' = 2 ^ 52 * 2 ^ e) as Heq by nia.
    rewrite Heq. apply Z.mul_le_mono_nonneg_r; [lia|]. apply half_even_le; nia.
Qed.

Lemma round_pos_ge n d r :
  0 ≤ n → 0 < d → representable r → r * d ≤ n → r ≤ round_pos n d.
Proof.
  intros Hn Hd (m & e' & He' & Hm & ->) Hle.
  destruct (last_digit_spec n d Hn Hd) as [Hlt Hge].
  unfold round_pos. pose proof (last_digit_nonneg n d) as He.
  set (e := last_digit n d) in *.
  pose proof (pow2_pos _ He) as Pe. pose proof (pow2_pos _ He') as Pe'.
  destruct (decide (e ≤ e')) as [Hee|Hee].
  - rewrite (pow2_split e e') in * by lia.
    enough (m * 2 ^ (e' - e) ≤ half_even n (d * 2 ^ e)) by nia.
    apply half_even_ge; nia.
  - destruct Hge as [Hge|Hge]; [lia|].
    assert (2 ^ 53 * 2 ^ e' ≤ 2 ^ (52 + e)) as Hb
      by (rewrite <- Z.pow_add_r by lia; apply Z.pow_le_mono_r; lia).
    rewrite Z.pow_add_r in Hge, Hb by lia.
    assert (m * 2 ^ e' ≤ 2 ^ 53 * 2 ^ e') as Hm' by (apply Z.mul_le_mono_nonneg_r; lia).
    enough (2 ^ 52 ≤ half_even n (d * 2 ^ e)) by nia. apply half_even_ge; nia.
Qed.

Lemma representable_opp k : representable k → representable (- k).
Proof. intros (m & e & ? & ? & ->). exists (- m), e. split_and!; lia. Qed.

Lemma representable_small k : Z.abs k ≤ 2 ^ 53 → representable k.
Proof. intros. exists k, 0. split_and!; lia. Qed.

Lemma representable_shift k e : 0 ≤ e → representable k → representable (k * 2 ^ e).
Proof.
  intros ? (m & e' & ? & ? & ->). exists m, (e' + e). split_and!; [lia..|].
  rewrite Z.pow_add_r by lia. lia.
Qed.

Lemma round_le n d r : 0 < d → representable r → n ≤ r * d → round n d ≤ r.
Proof.
  intros Hd Hr Hle. unfold round. destruct (decide (n < 0)).
  - enough (- r ≤ round_pos (- n) d) by lia.
    apply round_pos_ge; [lia..|by apply representable_opp|lia].
  - apply round_pos_le; auto; lia.
Qed.

Lemma round_ge n d r : 0 < d → representable r → r * d ≤ n → r ≤ round n d.
Proof.
  intros Hd Hr Hle. unfold round. destruct (decide (n < 0)).
  - enough (round_pos (- n) d ≤ - r) by lia.
    apply round_pos_le; [lia..|by apply representable_opp|lia].
  - apply round_pos_ge; auto; lia.
Qed.

Lemma round_exact r : representable r → round r 1 = r.
Proof.
  intros Hr. pose proof (round_le r 1 r ltac:(lia) Hr ltac:(lia)).
  pose proof (round_ge r 1 r ltac:(lia) Hr ltac:(lia)). lia.
Qed.

Lemma round_pos_representable n d :
  0 ≤ n → 0 < d → representable (round_pos n d).
Proof.
  intros Hn Hd. destruct (last_digit_spec n d Hn Hd) as [Hlt _].
  pose proof (last_digit_nonneg n d) as He. pose proof (pow2_pos _ He).
  unfold round_pos. set (e := last_digit n d) in *.
  exists (half_even n (d * 2 ^ e)), e. split_and!; [done| |done].
  rewrite Z.pow_add_r in Hlt by lia.
  assert (0 ≤ half_even n (d * 2 ^ e)) by (apply half_even_ge; nia).
  assert (half_even n (d * 2 ^ e) ≤ 2 ^ 53) by (apply half_even_le; nia). lia.
Qed.

Lemma round_representable n d : 0 < d → representable (round n d).
Proof.
  intros Hd. unfold round. destruct (decide (n < 0)).
  - apply representable_opp, round_pos_representable; lia.
  - apply round_pos_representable; lia.
Qed.

(** The relative error of a rounding to a normal number is at most 2^-53. *)
Lemma round_error n d :
  0 < d → 2 ^ 52 * d ≤ Z.abs n → 2 ^ 53 * Z.abs (round n d * d - n) ≤ Z.abs n.
Proof.
  assert (∀ n, 0 < d → 2 ^ 52 * d ≤ n → 2 ^ 53 * Z.abs (round_pos n d * d - n) ≤ n) as H.
  { clear n. intros n Hd Hn. destruct (last_digit_spec n d ltac:(lia) Hd) as [_ Hge].
    pose proof (last_digit_nonneg n d) as He. pose proof (pow2_pos _ He).
    unfold round_pos. set (e := last_digit n d) in *.
    pose proof (half_even_near n (d * 2 ^ e) ltac:(nia)) as Hnear.
    replace (half_even n (d * 2 ^ e) * 2 ^ e * d - n)
      with (half_even n (d * 2 ^ e) * (d * 2 ^ e) - n) by lia.
    assert (2 ^ 52 * (d * 2 ^ e) ≤ n); [|lia].
    destruct Hge as [->|Hge]; [lia|]. rewrite Z.pow_add_r in Hge by lia. lia. }
  intros Hd Hn. unfold round. destruct (decide (n < 0)).
  - specialize (H (- n) Hd ltac:(lia)). lia.
  - specialize (H n Hd ltac:(lia)). lia.
Qed.

(** * The operations *)
Lemma of_units_fits k : representable k → fits (of_units k).
Proof. intros. unfold of_units. case_decide; [done|]. split; [done|lia]. Qed.

Lemma of_units_finite k : Z.abs k < 2 ^ 2098 → of_units k = Finite k.
Proof. intros. unfold of_units. by rewrite decide_False by lia. Qed.

Lemma of_Z_exact z :
  representable z → Z.abs z < 2 ^ 1024 → of_Z z = Finite (z * unit).
Proof.
  intros Hr Hz. unfold of_Z.
  rewrite round_exact by (by apply (representable_shift _ 1074)).
  apply of_units_finite. unfold unit. rewrite Z.abs_mul.
  change (2 ^ 2098) with (2 ^ 1024 * 2 ^ 1074). rewrite (Z.abs_eq (2 ^ 1074)) by done.
  by apply Z.mul_lt_mono_pos_r.
Qed.

Lemma of_Z_fits z : fits (of_Z z).
Proof. by apply of_units_fits, round_representable. Qed.

Lemma times_fits x c : fits (times x c).
Proof.
  destruct x; simpl; [done..|]. by apply of_units_fits, round_representable.
Qed.

Lemma divided_by_fits x c : 0 < c → fits (divided_by x c).
Proof.
  intros. destruct x; simpl; [done..|]. by apply of_units_fits, round_representable.
Qed.

Lemma unit_pos : 0 < unit.
Proof. done. Qed.

(** The last digit of a number of 53 digits or more. *)
Lemma representable_multiple k e :
  0 ≤ e → representable k → 2 ^ (52 + e) ≤ Z.abs k → ∃ z, k = z * 2 ^ e.
Proof.
  intros He (m & e' & He' & Hm & ->) Hk. pose proof (pow2_pos e' He').
  rewrite Z.abs_mul, (Z.abs_eq (2 ^ e')) in Hk by lia.
  destruct (decide (e ≤ e')) as [Hee|Hee].
  - exists (m * 2 ^ (e' - e)). rewrite (pow2_split e e') by lia. lia.
  - assert (2 ^ (53 + e') ≤ 2 ^ (52 + e)) by (apply Z.pow_le_mono_r; lia).
    rewrite !Z.pow_add_r in * by lia.
    assert (Z.abs m * 2 ^ e' ≤ 2 ^ 53 * 2 ^ e') by (apply Z.mul_le_mono_nonneg_r; lia).
    destruct (Z.abs_spec m) as [[? Ha]|[? Ha]]; rewrite Ha in *;
      [exists (2 ^ 52) | exists (- 2 ^ 52)]; lia.
Qed.

(** What is left of a double when a multiple of a power of two is taken away,
    as long as the sign stays, is again one. *)
Lemma representable_mod k e : 0 ≤ e → 0 ≤ k → representable k → representable (k `mod` 2 ^ e).
Proof.
  intros He Hk (m & e' & He' & Hm & ->). pose proof (pow2_pos e' He').
  destruct (decide (e ≤ e')) as [Hee|Hee].
  - rewrite (pow2_split e e') by lia.
    replace (m * (2 ^ e * 2 ^ (e' - e))) with (m * 2 ^ (e' - e) * 2 ^ e) by lia.
    rewrite Z.mod_mul by (pose proof (pow2_pos e He); lia). by apply representable_small.
  - rewrite (pow2_split e' e), (Z.mul_comm m), Z.mul_mod_distr_l
      by (try lia; pose proof (pow2_pos (e - e')); lia).
    rewrite Z.mul_comm. apply representable_shift; [done|]. apply representable_small.
    assert (0 ≤ m) by nia. pose proof (pow2_pos (e - e') ltac:(lia)).
    pose proof (Z.mod_pos_bound m (2 ^ (e - e')) ltac:(lia)).
    pose proof (Z.mod_le m (2 ^ (e - e')) ltac:(lia) ltac:(lia)). lia.
Qed.
(** * Patterns *)
Lemma decode_pattern s E M :
  0 ≤ E < 2047 → 0 ≤ M < 2 ^ 52 →
  decode (pattern s E M) =
    Finite ((if s then -1 else 1) * (if decide (E = 0) then M else (2 ^ 52 + M) * 2 ^ (E - 1))).
Proof.
  intros HE HM. destruct (Ieee754.fields s E M ltac:(lia) HM) as (He & Hm & Hs).
  fold (pattern s E M) in *. unfold decode, magnitude. rewrite He, Hm, Hs.
  rewrite decide_False by lia. f_equal. destruct s; lia.
Qed.

Lemma decode_special s M :
  0 ≤ M < 2 ^ 52 → decode (pattern s 2047 M) = if decide (M = 0) then Inf s else NaN.
Proof.
  intros HM. destruct (Ieee754.fields s 2047 M ltac:(lia) HM) as (He & Hm & Hs).
  fold (pattern s 2047 M) in *. unfold decode. rewrite He, Hm, Hs. done.
Qed.

Lemma decode_encode x : fits x → decode (encode x) = x.
Proof.
  destruct x as [|s|k]; intros Hx.
  - cbn [encode]. by rewrite decode_special by lia.
  - cbn [encode]. by rewrite decode_special by lia.
  - destruct Hx as [Hr Hlt]. unfold encode. case_decide as Hs.
    + rewrite decode_pattern by lia. f_equal. rewrite decide_True by done.
      case_bool_decide; lia.
    + destruct (Z.log2_spec (Z.abs k) ltac:(lia)) as [Hl Hu].
      assert (52 ≤ Z.log2 (Z.abs k)) by (by apply Z.log2_le_pow2; lia).
      assert (Z.log2 (Z.abs k) < 2098) by (apply Z.log2_lt_pow2; lia).
      set (e := Z.log2 (Z.abs k) - 52) in *.
      replace (Z.log2 (Z.abs k)) with (52 + e) in * by lia.
      destruct (representable_multiple k e ltac:(lia) Hr ltac:(lia)) as [z Hz].
      pose proof (pow2_pos e ltac:(lia)).
      assert (Z.abs k = Z.abs z * 2 ^ e) as Ha by (rewrite Hz, Z.abs_mul; lia).
      replace (Z.succ (52 + e)) with (53 + e) in Hu by lia.
      rewrite !Z.pow_add_r in * by lia.
      rewrite Ha, Z.div_mul by lia.
      rewrite decode_pattern by nia. f_equal. rewrite decide_False by lia.
      replace (e + 1 - 1) with e by lia. case_bool_decide; nia.
Qed.

(** Every pattern is a double. *)
Lemma decode_fits bits : fits (decode bits).
Proof.
  unfold decode, magnitude.
  assert (0 ≤ Ieee754.exponent bits < 2048) as HE by (by apply Z.mod_pos_bound).
  assert (0 ≤ Ieee754.mantissa bits < 2 ^ 52) as HM by (by apply Z.mod_pos_bound).
  case_decide as H1; [by case_decide|]. case_decide as H2.
  - destruct (Ieee754.negative bits); (split; [apply representable_small; lia|]);
      (enough (2 ^ 52 < 2 ^ 2098) by lia; done).
  - set (E := Ieee754.exponent bits) in *. set (M := Ieee754.mantissa bits) in *.
    assert (2 ^ (E - 1) ≤ 2 ^ 2045) by (apply Z.pow_le_mono_r; lia).
    pose proof (pow2_pos (E - 1) ltac:(lia)).
    assert ((2 ^ 52 + M) * 2 ^ (E - 1) < 2 ^ 53 * 2 ^ 2045) by nia.
    change (2 ^ 2098) with (2 ^ 53 * 2 ^ 2045).
    destruct (Ieee754.negative bits); (split; [|lia]);
      [apply representable_opp|]; exists (2 ^ 52 + M), (E - 1); split_and!; lia.
Qed.
End Double.
