(* ===== verification/Clock.v ===== *)
(** Clocks and time points: [src/src/time.cpp].  [Chrono] translates what the
    handlers use of [<chrono>]: durations of a double number of seconds
    ([lua_Seconds]) converted to whole nanoseconds, the period of all three
    clocks, with [ceil], [floor] and [round] as the library computes them.
    [TimePoint] is written once for the three clocks, whose functions repeat
    each other; each clock's functions are its instances.  What they promise:
    [ceil] and [round] are the least and the nearest whole number of
    nanoseconds, time points are ordered as their counts, a difference added
    to the subtrahend gives the minuend. *)
From S2P Require Import Prelude Errors Lua Double.
#[local] Open Scope Z_scope.

Module Chrono.
Import Double.

Definition nano : Z := 1000000000.

(** The conversion of a [lua_Seconds] to the common type of seconds and
    nanoseconds, nanoseconds counted by a double. *)
Definition in_nanos (secs : double) : double := times secs nano.

(** [dur > duration::max()] and [dur < duration::min()]. *)
Definition above_max (secs : double) : bool := lt (of_Z int64_max) (in_nanos secs).
Definition below_min (secs : double) : bool := lt (in_nanos secs) (of_Z int64_min).

(** [chrono::duration_cast<nanoseconds>]: undefined out of range. *)
Definition duration_cast (secs : double) : option Z := to_int64 (in_nanos secs).

(** An addition of two 64-bit counts, undefined when it overflows. *)
Definition add64 (a b : Z) : option Z :=
  if decide (in_int64 (a + b)) then Some (a + b) else None.
Definition sub64 (a b : Z) : option Z :=
  if decide (in_int64 (a - b)) then Some (a - b) else None.

(** [chrono::ceil<nanoseconds>]. *)
Definition ceil (secs : double) : option Z :=
  to ← duration_cast secs;
  if lt (of_Z to) (in_nanos secs) then add64 to 1 else Some to.

(** [chrono::floor<nanoseconds>]. *)
Definition floor (secs : double) : option Z :=
  to ← duration_cast secs;
  if lt (in_nanos secs) (of_Z to) then sub64 to 1 else Some to.

(** [chrono::round<nanoseconds>]. *)
Definition round (secs : double) : option Z :=
  t0 ← floor secs;
  t1 ← add64 t0 1;
  let diff0 := minus (in_nanos secs) (of_Z t0) in
  let diff1 := minus (of_Z t1) (in_nanos secs) in
  if eq diff0 diff1 then Some (if Z.odd t0 then t1 else t0)
  else if lt diff0 diff1 then Some t0
  else Some t1.

(** [lua_Seconds{d}.count()] for a count of nanoseconds. *)
Definition seconds (count : Z) : double := divided_by (of_Z count) nano.
End Chrono.

(** * The state *)

Inductive clock : Set := steady_clock | system_clock | high_resolution_clock.
#[export] Instance clock_eq_dec : EqDecision clock.
Proof. solve_decision. Defined.

(** The userdata that are time points: the clock is the metatable, the count
    the nanoseconds since the clock's epoch. *)
Record clock_heap : Set := ClockHeap {
  points : gmap loc (clock * Z);
  next_point : loc;
}.

Definition set_point (u : loc) (c : clock) (tp : Z) (h : clock_heap) : clock_heap :=
  ClockHeap (<[u := (c, tp)]> (points h)) (next_point h).

(** [lua_newuserdata], [setmetatable] and the placement [new]. *)
Definition new_point (c : clock) (tp : Z) (h : clock_heap) : clock_heap * outcome :=
  (ClockHeap (<[next_point h := (c, tp)]> (points h)) (S (next_point h)),
   Returns [LUserdata (next_point h)]).

(** LuaJIT's conversion of strings to numbers and the message of
    [luaL_checknumber]. *)
Class LuaNumbers := {
  lua_str2number : bytes → option lua_Number;
  bad_number : lua_args → nat → string;
}.

(** The functions [__index] gives. *)
Inductive point_method : Set := add | sub.

Module TimePoint.
Section handlers.
Context `{LuaApi} `{LuaNumbers}.
Variable clk : clock.

(** The check of [lua_touserdata], [lua_getmetatable] and [lua_rawequal]. *)
Definition check_point (L : lua_args) (i : nat) (h : clock_heap) : early (loc * Z) :=
  match arg L i with
  | Some (LUserdata u) =>
      match points h !! u with
      | Some (c, tp) =>
          if decide (c = clk) then inr (u, tp) else inl (raise_arg invalid_argument i)
      | None => inl (raise_arg invalid_argument i)
      end
  | _ => inl (raise_arg invalid_argument i)
  end.

(** The unchecked cast of [lua_touserdata(L, i)]. *)
Definition cast_point (L : lua_args) (i : nat) (h : clock_heap) : early Z :=
  match arg L i with
  | Some (LUserdata u) =>
      match points h !! u with
      | Some (c, tp) => if decide (c = clk) then inr tp else inl Undefined
      | None => inl Undefined
      end
  | _ => inl Undefined
  end.

(** [luaL_checknumber]. *)
Definition checknumber (L : lua_args) (i : nat) : early lua_Number :=
  match arg L i with
  | Some (LNumber n) => inr n
  | Some (LString s) =>
      match lua_str2number s with
      | Some n => inr n
      | None => inl (Raises (EString (bad_number L i)))
      end
  | _ => inl (Raises (EString (bad_number L i)))
  end.

(** The guards on a number of seconds that is added or subtracted. *)
Definition check_seconds (n : lua_Number) : early Double.double :=
  let secs := Double.decode n in
  if Double.isnan secs || Double.isinf secs then
    inl (raise_arg argument_out_of_domain 2)
  else if Chrono.above_max secs || Chrono.below_min secs then
    inl (raise value_too_large)
  else inr secs.

(** A value the language leaves undefined. *)
Definition defined {A} (x : option A) : early A :=
  match x with Some a => inr a | None => inl Undefined end.

Definition point_add (L : lua_args) (h : clock_heap) : clock_heap * outcome :=
  let L := settop 2 L in
  check (u, tp) := check_point L 1 h in h;
  check n := checknumber L 2 in h;
  check secs := check_seconds n in h;
  check d := defined (Chrono.round secs) in h;
  check tp := defined (Chrono.add64 tp d) in h;
  (set_point u clk tp h, Returns []).

Definition point_sub (L : lua_args) (h : clock_heap) : clock_heap * outcome :=
  let L := settop 2 L in
  check (u, tp) := check_point L 1 h in h;
  check n := checknumber L 2 in h;
  check secs := check_seconds n in h;
  check d := defined (Chrono.round secs) in h;
  check tp := defined (Chrono.sub64 tp d) in h;
  (set_point u clk tp h, Returns []).

Definition seconds_since_epoch (L : lua_args) (h : clock_heap) : clock_heap * outcome :=
  check tp := cast_point L 1 h in h;
  (h, Returns [LNumber (Double.encode (Chrono.seconds tp))]).

(** [__index]: a method, or the answer. *)
Definition mt_index (methods : list (bytes * point_method)) (L : lua_args)
    (h : clock_heap) : clock_heap * (point_method + outcome) :=
  let key := tostringview (arg L 2) in
  match gperf methods key with
  | Some m => (h, inl m)
  | None =>
      if decide (key = lit "seconds_since_epoch")
      then (λ r, (r.1, inr r.2)) (seconds_since_epoch L h)
      else (h, inr raise_bad_index)
  end.

Definition mt_eq (L : lua_args) (h : clock_heap) : clock_heap * outcome :=
  check tp1 := cast_point L 1 h in h;
  check tp2 := cast_point L 2 h in h;
  (h, Returns [LBoolean (bool_decide (tp1 = tp2))]).

Definition mt_lt (L : lua_args) (h : clock_heap) : clock_heap * outcome :=
  check (_, tp1) := check_point L 1 h in h;
  check (_, tp2) := check_point L 2 h in h;
  (h, Returns [LBoolean (bool_decide (tp1 < tp2))]).

Definition mt_le (L : lua_args) (h : clock_heap) : clock_heap * outcome :=
  check (_, tp1) := check_point L 1 h in h;
  check (_, tp2) := check_point L 2 h in h;
  (h, Returns [LBoolean (bool_decide (tp1 ≤ tp2))]).

Definition mt_add (L : lua_args) (h : clock_heap) : clock_heap * outcome :=
  check (_, tp) := check_point L 1 h in h;
  check n := checknumber L 2 in h;
  check secs := check_seconds n in h;
  check d := defined (Chrono.round secs) in h;
  check ret := defined (Chrono.add64 tp d) in h;
  new_point clk ret h.

(** The difference of two time points, in seconds. *)
Definition difference (L : lua_args) (tp : Z) (h : clock_heap) : clock_heap * outcome :=
  check (_, tp2) := check_point L 2 h in h;
  check d := defined (Chrono.sub64 tp tp2) in h;
  (h, Returns [LNumber (Double.encode (Chrono.seconds d))]).

Definition mt_sub (L : lua_args) (h : clock_heap) : clock_heap * outcome :=
  check (_, tp) := check_point L 1 h in h;
  match arg L 2 with
  | Some (LNumber n) =>
      check secs := check_seconds n in h;
      check d := defined (Chrono.round secs) in h;
      check ret := defined (Chrono.sub64 tp d) in h;
      new_point clk ret h
  | Some (LUserdata _) => difference L tp h
  | _ => (h, raise_arg invalid_argument 2)
  end.

(** [high_resolution_clock] has no arithmetic but this. *)
Definition mt_sub_points (L : lua_args) (h : clock_heap) : clock_heap * outcome :=
  check (_, tp) := check_point L 1 h in h;
  difference L tp h.

Definition epoch (h : clock_heap) : clock_heap * outcome := new_point clk 0 h.

(** [now] with the reading of the clock. *)
Definition now (reading : Z) (h : clock_heap) : clock_heap * outcome :=
  new_point clk reading h.
End handlers.
End TimePoint.

(** * The functions of each clock *)
Section clocks.
Context `{LuaApi} `{LuaNumbers}.
Import TimePoint.

Definition steady_clock_time_point_add := point_add steady_clock.
Definition steady_clock_time_point_sub := point_sub steady_clock.
Definition steady_clock_time_point_seconds_since_epoch :=
  seconds_since_epoch steady_clock.
Definition steady_clock_time_point_mt_index :=
  mt_index steady_clock [(lit "add", add); (lit "sub", sub)].
Definition steady_clock_time_point_mt_eq := mt_eq steady_clock.
Definition steady_clock_time_point_mt_lt := mt_lt steady_clock.
Definition steady_clock_time_point_mt_le := mt_le steady_clock.
Definition steady_clock_time_point_mt_add := mt_add steady_clock.
Definition steady_clock_time_point_mt_sub := mt_sub steady_clock.
Definition steady_clock_epoch := epoch steady_clock.
Definition steady_clock_now := now steady_clock.

Definition system_clock_time_point_add := point_add system_clock.
Definition system_clock_time_point_sub := point_sub system_clock.
Definition system_clock_time_point_seconds_since_epoch :=
  seconds_since_epoch system_clock.
Definition system_clock_time_point_mt_index :=
  mt_index system_clock [(lit "add", add); (lit "sub", sub)].
Definition system_clock_time_point_mt_eq := mt_eq system_clock.
Definition system_clock_time_point_mt_lt := mt_lt system_clock.
Definition system_clock_time_point_mt_le := mt_le system_clock.
Definition system_clock_time_point_mt_add := mt_add system_clock.
Definition system_clock_time_point_mt_sub := mt_sub system_clock.
Definition system_clock_epoch := epoch system_clock.
Definition system_clock_now := now system_clock.

Definition high_resolution_clock_time_point_seconds_since_epoch :=
  seconds_since_epoch high_resolution_clock.
Definition high_resolution_clock_time_point_mt_index :=
  mt_index high_resolution_clock [].
Definition high_resolution_clock_time_point_mt_eq := mt_eq high_resolution_clock.
Definition high_resolution_clock_time_point_mt_lt := mt_lt high_resolution_clock.
Definition high_resolution_clock_time_point_mt_le := mt_le high_resolution_clock.
Definition high_resolution_clock_time_point_mt_sub := mt_sub_points high_resolution_clock.
Definition high_resolution_clock_epoch := epoch high_resolution_clock.
Definition high_resolution_clock_now := now high_resolution_clock.

(** What indexing a time point with a method's name gives is called later with
    the arguments of the program. *)
Definition steady_clock_method (m : point_method) :=
  match m with add => steady_clock_time_point_add | sub => steady_clock_time_point_sub end.
Definition system_clock_method (m : point_method) :=
  match m with add => system_clock_time_point_add | sub => system_clock_time_point_sub end.
End clocks.

(** * Durations *)
Module ChronoFacts.
Import Double Chrono.

(** The doubles of nanoseconds the guards let pass. *)
Definition in_range (k : Z) : Prop := Z.abs k ≤ 2 ^ 63 * unit.

#[export] Instance in_range_dec k : Decision (in_range k).
Proof. unfold in_range. apply _. Defined.

Lemma in_nanos_fits secs : fits (in_nanos secs).
Proof. apply times_fits. Qed.

Lemma representable_pow e : 0 ≤ e → representable (2 ^ e).
Proof. intros. exists 1, e. split_and!; lia. Qed.

Lemma of_Z_max : of_Z int64_max = Finite (2 ^ 63 * unit).
Proof. vm_compute. reflexivity. Qed.

Lemma of_Z_min : of_Z int64_min = Finite (- 2 ^ 63 * unit).
Proof. vm_compute. reflexivity. Qed.

(** The guards, as bounds on the nanoseconds: 2^63 itself passes. *)
Lemma guards_range secs k :
  in_nanos secs = Finite k →
  above_max secs || below_min secs = false ↔ in_range k.
Proof.
  intros Hk. unfold above_max, below_min, in_range. rewrite of_Z_max, of_Z_min, Hk.
  unfold lt. rewrite orb_false_iff, !bool_decide_eq_false. lia.
Qed.

Lemma guards_special secs :
  isnan secs = false → (∀ k, in_nanos secs ≠ Finite k) →
  above_max secs || below_min secs = true.
Proof.
  intros Hn Hk. unfold above_max, below_min. rewrite of_Z_max, of_Z_min.
  destruct (in_nanos secs) as [|[]|k] eqn:E; [|done..|by destruct (Hk k)].
  destruct secs; try done. unfold in_nanos, times, of_units in E. by case_decide.
Qed.

(** Below 2^52 every integer is a double; from there on every double is an
    integer. *)
Lemma representable_unshift z e : 0 ≤ e → representable (z * 2 ^ e) → representable z.
Proof.
  intros He (m & e' & He' & Hm & Heq). pose proof (pow2_pos e He). pose proof (pow2_pos e' He').
  destruct (decide (e ≤ e')) as [Hee|Hee].
  - exists m, (e' - e). split_and!; [lia|done|].
    rewrite (pow2_split e e') in Heq by lia. nia.
  - apply representable_small. rewrite (pow2_split e' e) in Heq by lia.
    pose proof (pow2_pos (e - e') ltac:(lia)).
    assert (m = z * 2 ^ (e - e')) as -> by nia. rewrite Z.abs_mul in Hm. nia.
Qed.

Lemma small_or_whole k :
  representable k → Z.abs k < 2 ^ 52 * unit ∨ ∃ z, k = z * unit ∧ representable z.
Proof.
  intros Hr. destruct (decide (Z.abs k < 2 ^ 52 * unit)) as [|Hk]; [by left|right].
  destruct (representable_multiple k 1074 ltac:(lia) Hr) as [z ->].
  { unfold unit in Hk. rewrite Z.pow_add_r by lia. lia. }
  exists z. split; [done|]. by apply (representable_unshift z 1074).
Qed.

Lemma quot_unit k :
  representable k → in_range k →
  representable (k `quot` unit) ∧ Z.abs (k `quot` unit) ≤ 2 ^ 63.
Proof.
  intros Hr Hk. unfold in_range in Hk.
  pose proof unit_pos. pose proof (Z.quot_rem' k unit).
  pose proof (Z.rem_bound_abs k unit ltac:(lia)).
  split; [|nia].
  destruct (small_or_whole k Hr) as [Hs|(z & -> & Hz)].
  - apply representable_small. nia.
  - by rewrite Z.quot_mul by lia.
Qed.

Lemma of_Z_small z : representable z → Z.abs z ≤ 2 ^ 63 → of_Z z = Finite (z * unit).
Proof.
  intros Hr Hz. apply of_Z_exact; [done|]. enough (2 ^ 63 < 2 ^ 1024) by lia. done.
Qed.

(** The one double in range whose conversion is undefined. *)
Definition limit : Z := 2 ^ 63 * unit.

Section conversions.
Variables (secs : double) (k : Z).
Hypothesis Hnanos : in_nanos secs = Finite k.
Hypothesis Hrange : in_range k.

Lemma k_representable : representable k.
Proof. pose proof (in_nanos_fits secs) as H. rewrite Hnanos in H. apply H. Qed.
#[local] Hint Resolve k_representable : core.

Lemma duration_cast_limit : k = limit → duration_cast secs = None.
Proof. intros ->. unfold duration_cast. rewrite Hnanos. vm_compute. done. Qed.

Lemma duration_cast_spec :
  k ≠ limit → duration_cast secs = Some (k `quot` unit) ∧ in_int64 (k `quot` unit).
Proof.
  intros Hk. unfold duration_cast, to_int64. rewrite Hnanos.
  enough (in_int64 (k `quot` unit)) by (by rewrite decide_True).
  unfold limit, in_range in *. pose proof unit_pos. pose proof (Z.quot_rem' k unit).
  pose proof (Z.rem_bound_abs k unit ltac:(lia)).
  set (q := k `quot` unit) in *.
  assert (-1 - 2 ^ 63 < q < 2 ^ 63); [|width].
  destruct (decide (0 ≤ k)).
  - pose proof (Z.rem_nonneg k unit ltac:(lia) ltac:(lia)).
    split; apply (Z.mul_lt_mono_pos_r unit); lia.
  - pose proof (Z.rem_nonpos k unit ltac:(lia) ltac:(lia)).
    split; apply (Z.mul_lt_mono_pos_r unit); lia.
Qed.

(** What is truncated away is nothing from 2^52 on. *)
Lemma truncated_small :
  k ≠ k `quot` unit * unit → Z.abs k < 2 ^ 52 * unit ∧ Z.abs (k `quot` unit) < 2 ^ 52.
Proof.
  intros Hne. pose proof unit_pos.
  destruct (small_or_whole k k_representable) as [Hs|(z & -> & _)].
  - split; [done|]. rewrite <- Z.quot_abs by lia.
    apply Z.quot_lt_upper_bound; lia.
  - by rewrite Z.quot_mul in Hne by lia.
Qed.

Lemma ceil_limit : k = limit → ceil secs = None.
Proof. intros. unfold ceil. by rewrite duration_cast_limit. Qed.

Lemma ceil_spec :
  k ≠ limit →
  ∃ z, ceil secs = Some z ∧ (z - 1) * unit < k ≤ z * unit ∧ in_int64 z.
Proof.
  intros Hk. destruct (duration_cast_spec Hk) as [Hc Hz].
  destruct (quot_unit k k_representable Hrange) as [Hr Habs].
  unfold ceil. rewrite Hc. cbn [mbind option_bind]. rewrite of_Z_small by done.
  rewrite Hnanos. cbn [lt]. pose proof unit_pos. pose proof (Z.quot_rem' k unit).
  pose proof (Z.rem_bound_abs k unit ltac:(lia)).
  pose proof truncated_small as Ht. set (q := k `quot` unit) in *.
  case_bool_decide as Hlt.
  - destruct (Ht ltac:(lia)) as [_ Hq].
    unfold add64. rewrite decide_True by width. exists (q + 1). split_and!; [done|nia|nia|width].
  - exists q. split_and!; [done|nia|lia|done].
Qed.

Lemma floor_limit : k = limit → floor secs = None.
Proof. intros. unfold floor. by rewrite duration_cast_limit. Qed.

Lemma floor_spec :
  k ≠ limit → floor secs = Some (k `div` unit) ∧ in_int64 (k `div` unit + 1).
Proof.
  intros Hk. destruct (duration_cast_spec Hk) as [Hc Hz].
  destruct (quot_unit k k_representable Hrange) as [Hr Habs].
  unfold floor. rewrite Hc. cbn [mbind option_bind]. rewrite of_Z_small by done.
  rewrite Hnanos. cbn [lt]. pose proof unit_pos. pose proof (Z.quot_rem' k unit).
  pose proof (Z.rem_bound_abs k unit ltac:(lia)).
  pose proof truncated_small as Ht. pose proof (small_or_whole k k_representable) as Hsw.
  set (q := k `quot` unit) in *.
  assert (∀ z, z * unit ≤ k < (z + 1) * unit → k `div` unit = z) as Hdiv.
  { intros z Hz'. symmetry. apply (Z.div_unique k unit z (k - z * unit)); lia. }
  case_bool_decide as Hlt.
  - destruct (Ht ltac:(lia)) as [_ Hq]. rewrite (Hdiv (q - 1)) by nia.
    unfold sub64. rewrite decide_True by width. split; [done|width].
  - rewrite (Hdiv q) by nia. split; [done|]. destruct Hsw as [Hs|(z & Hkz & Hzr)].
    + enough (Z.abs q ≤ 2 ^ 52) by width. nia.
    + unfold in_int64 in *. assert (q = z) as -> by (unfold q; rewrite Hkz, Z.quot_mul; lia).
      enough (z ≠ int64_max) by width. intros ->.
      unfold int64_max in Hzr. destruct (representable_multiple _ 1 ltac:(lia) Hzr) as [w Hw]; lia.
Qed.
Lemma round_limit : k = limit → Chrono.round secs = None.
Proof. intros. unfold Chrono.round. by rewrite floor_limit. Qed.

(** The differences below are finite. *)
Lemma minus_finite a b :
  Z.abs (a - b) ≤ 2 ^ 65 * unit → minus (Finite a) (Finite b) = Finite (Double.round (a - b) 1).
Proof.
  intros Hab. unfold minus. apply of_units_finite.
  assert (representable (2 ^ 65 * unit)) as Hr by (by apply (representable_pow 1139)).
  pose proof (round_le (a - b) 1 (2 ^ 65 * unit) ltac:(lia) Hr ltac:(lia)).
  pose proof (round_ge (a - b) 1 (- (2 ^ 65 * unit)) ltac:(lia)
                (representable_opp _ Hr) ltac:(lia)).
  enough (2 ^ 65 * unit < 2 ^ 2098) by lia. done.
Qed.

(** The comparison of the rounded differences is that of the exact ones: one
    of them is exact, and half a nanosecond is a double. *)
Lemma differences_compare :
  let a := k `mod` unit in let b := unit - a in
  Z.compare (Double.round a 1) (Double.round b 1) = Z.compare (2 * a) unit.
Proof.
  intros a b. pose proof (Z.mod_pos_bound k unit unit_pos) as Ha. fold a in Ha.
  assert (representable (2 ^ 1073)) as Hh by (by apply representable_pow).
  assert (unit = 2 * 2 ^ 1073) as Hu by done.
  pose proof (λ H, round_le a 1 (2 ^ 1073) ltac:(lia) Hh H) as L1.
  pose proof (λ H, round_ge a 1 (2 ^ 1073) ltac:(lia) Hh H) as L2.
  pose proof (λ H, round_le b 1 (2 ^ 1073) ltac:(lia) Hh H) as L3.
  pose proof (λ H, round_ge b 1 (2 ^ 1073) ltac:(lia) Hh H) as L4.
  assert (Double.round a 1 = a ∨ Double.round b 1 = b) as Hex.
  { destruct (decide (0 ≤ k)) as [Hk|Hk]; [left|right]; apply round_exact.
    - by apply (representable_mod k 1074).
    - destruct (decide (a = 0)) as [Ha0|Ha0].
      { unfold b. rewrite Ha0, Z.sub_0_r. by apply (representable_pow 1074). }
      replace b with ((- k) `mod` unit) by (by apply Z_mod_nz_opp_full).
      apply (representable_mod (- k) 1074); [lia|lia|].
      by apply representable_opp. }
  clearbody a. subst b. set (h := 2 ^ 1073) in *. clearbody h.
  destruct (Z.compare_spec (2 * a) unit) as [Hc|Hc|Hc].
  - apply Z.compare_eq_iff. lia.
  - apply Z.compare_lt_iff. lia.
  - apply Z.compare_gt_iff. lia.
Qed.
(** The choice [Chrono.round] makes, from the comparison of the differences. *)
Lemma choose_spec t0 t1 d0 d1 :
  (if eq (Finite d0) (Finite d1) then Some (if Z.odd t0 then t1 else t0)
   else if lt (Finite d0) (Finite d1) then Some t0 else Some t1) =
  Some (match Z.compare d0 d1 with
        | Lt => t0 | Gt => t1 | Eq => if Z.even t0 then t0 else t1 end).
Proof.
  cbn [eq lt]. rewrite <- Z.negb_even.
  destruct (Z.compare_spec d0 d1) as [Hc|Hc|Hc].
  - rewrite bool_decide_true by done. by destruct (Z.even t0).
  - rewrite bool_decide_false by lia. by rewrite bool_decide_true by done.
  - rewrite bool_decide_false by lia. by rewrite bool_decide_false by lia.
Qed.

Lemma round_small :
  Z.abs k < 2 ^ 52 * unit → Chrono.round secs = Some (half_even k unit).
Proof.
  intros Hs. pose proof unit_pos.
  assert (k ≠ limit) as Hl by (unfold limit; lia).
  destruct (floor_spec Hl) as [Hf Hin].
  pose proof (Z.div_mod k unit ltac:(lia)) as Hk. pose proof (Z.mod_pos_bound k unit unit_pos).
  pose proof differences_compare as Hcmp. cbn zeta in Hcmp.
  assert (- 2 ^ 52 ≤ k `div` unit < 2 ^ 52) as Hq by (split;
    [apply Z.div_le_lower_bound | apply Z.div_lt_upper_bound]; lia).
  unfold Chrono.round, half_even. rewrite Hf. cbn [mbind option_bind].
  unfold add64. rewrite decide_True by done. cbn [mbind option_bind].
  set (q := k `div` unit) in *. set (r := k `mod` unit) in *.
  rewrite Hnanos, !of_Z_small by (try apply representable_small; lia).
  rewrite !minus_finite by lia.
  replace (k - q * unit) with r by lia. replace ((q + 1) * unit - k) with (unit - r) by lia.
  rewrite choose_spec, Hcmp. done.
Qed.

Lemma half_even_whole z : half_even (z * unit) unit = z.
Proof. pose proof unit_pos. apply half_even_unique; lia. Qed.

Lemma round_whole z :
  k = z * unit → representable z → k ≠ limit → Chrono.round secs = Some z.
Proof.
  intros Hk Hz Hl. pose proof unit_pos.
  assert (Z.abs z ≤ 2 ^ 63).
  { unfold in_range in Hrange. rewrite Hk, Z.abs_mul in Hrange.
    apply (Z.mul_le_mono_pos_r _ _ unit); [done|]. by rewrite (Z.abs_eq unit) in Hrange. }
  destruct (floor_spec Hl) as [Hf Hin]. unfold Chrono.round.
  rewrite Hf. cbn [mbind option_bind]. unfold add64. rewrite decide_True by done.
  cbn [mbind option_bind]. rewrite Hk, Z.div_mul in Hin |- * by lia.
  rewrite Hnanos, Hk, (of_Z_small z) by done.
  rewrite minus_finite by lia. rewrite Z.sub_diag. change (Double.round 0 1) with 0.
  destruct (decide (Z.abs z < 2 ^ 53)) as [Hs|Hs].
  - rewrite (of_Z_small (z + 1)), minus_finite by (try apply representable_small; lia).
    rewrite choose_spec. replace ((z + 1) * unit - z * unit) with unit by lia. done.
  - unfold of_Z. assert (representable (2 ^ 64 * unit)) as Hr by (by apply (representable_pow 1138)).
    assert ((z + 1) * unit ≤ 2 ^ 64 * unit) as Hz1 by (apply Z.mul_le_mono_nonneg_r; lia).
    assert (- 2 ^ 63 * unit ≤ z * unit) as Hz0 by (apply Z.mul_le_mono_nonneg_r; lia).
    pose proof (round_le ((z + 1) * unit) 1 _ ltac:(lia) Hr ltac:(lia)) as Hu1.
    assert (representable (z * unit)) as Hr' by (by apply (representable_shift z 1074)).
    pose proof (round_ge ((z + 1) * unit) 1 _ ltac:(lia) Hr' ltac:(lia)) as Hl1.
    set (w := Double.round ((z + 1) * unit) 1) in *. rewrite of_units_finite.
    2: { enough (2 ^ 64 * unit < 2 ^ 2098) by lia. done. }
    rewrite minus_finite by lia. rewrite choose_spec.
    pose proof (round_ge (w - z * unit) 1 0 ltac:(lia) ltac:(by apply representable_small) ltac:(lia)).
    destruct (representable_multiple z 1 ltac:(lia) Hz ltac:(lia)) as [v ->].
    replace (Z.even (v * 2 ^ 1)) with true by (rewrite Z.even_mul; by destruct (Z.even v)).
    destruct (Z.compare_spec 0 (Double.round (w - v * 2 ^ 1 * unit) 1)); [done|done|lia].
Qed.

(** [chrono::round] is rounding to nearest, ties to even. *)
Lemma round_spec : k ≠ limit → Chrono.round secs = Some (half_even k unit).
Proof.
  intros Hl. destruct (small_or_whole k k_representable) as [Hs|(z & Hk & Hz)].
  - by apply round_small.
  - rewrite (round_whole z Hk Hz Hl), Hk. by rewrite half_even_whole.
Qed.
End conversions.
End ChronoFacts.

(** * Seconds there and back *)
Module RoundTrip.
Import Double Chrono ChronoFacts.

(** Two roundings of a number of nanoseconds below 2^51 lose less than half a
    nanosecond. *)
Lemma two_roundings c :
  Z.abs c < 2 ^ 51 →
  let s := Double.round (c * unit) nano in
  let k := Double.round (s * nano) 1 in
  2 * Z.abs (k - c * unit) < unit ∧ Z.abs k ≤ 2 ^ 52 * unit ∧ Z.abs s ≤ 2 ^ 52 * unit.
Proof.
  intros Hc. cbn zeta. destruct (decide (c = 0)) as [->|Hc0]; [by vm_compute|].
  assert (2 ^ 53 * nano ≤ unit) as Hbig by done.
  assert (Z.abs (c * unit) = Z.abs c * unit) as Habs by (by rewrite Z.abs_mul).
  assert (unit ≤ Z.abs c * unit ≤ (2 ^ 51 - 1) * unit) as Hv.
  { pose proof unit_pos. split; [nia|]. apply Z.mul_le_mono_nonneg_r; lia. }
  pose proof (round_error (c * unit) nano ltac:(done) ltac:(unfold nano in *; lia)) as E1.
  set (s := Double.round (c * unit) nano) in *.
  pose proof (round_error (s * nano) 1 ltac:(done) ltac:(unfold nano in *; lia)) as E2.
  set (k := Double.round (s * nano) 1) in *. rewrite Z.mul_1_r in E2.
  assert (Z.abs s ≤ Z.abs (s * nano)) by (rewrite Z.abs_mul; unfold nano; lia).
  set (V := c * unit) in *. clearbody V s k. unfold nano in *. lia.
Qed.

Lemma seconds_round c : Z.abs c < 2 ^ 51 → Chrono.round (seconds c) = Some c.
Proof.
  intros Hc. destruct (two_roundings c Hc) as (Hk & Hkb & Hs). cbn zeta in *.
  set (s := Double.round (c * unit) nano) in *.
  assert (in_nanos (seconds c) = Finite (Double.round (s * nano) 1)) as Hn.
  { unfold seconds. rewrite of_Z_small by (try apply representable_small; lia).
    cbn [divided_by]. fold s. assert (2 ^ 52 * unit < 2 ^ 2098) by done.
    rewrite of_units_finite by lia. cbn [in_nanos times].
    unfold in_nanos, times. apply of_units_finite. lia. }
  set (k := Double.round (s * nano) 1) in *. pose proof unit_pos.
  rewrite (round_spec _ k Hn); unfold in_range, limit; [|lia|lia].
  f_equal. apply half_even_unique; lia.
Qed.

(** The guards let such a number of seconds pass. *)
Lemma seconds_guards c :
  Z.abs c < 2 ^ 51 →
  let secs := seconds c in
  isnan secs || isinf secs = false ∧ above_max secs || below_min secs = false.
Proof.
  intros Hc. destruct (two_roundings c Hc) as (Hk & Hkb & Hs). cbn zeta in *.
  set (s := Double.round (c * unit) nano) in *.
  assert (seconds c = Finite s) as Hsec.
  { unfold seconds. rewrite of_Z_small by (try apply representable_small; lia).
    cbn [divided_by]. fold s. apply of_units_finite.
    assert (2 ^ 52 * unit < 2 ^ 2098) by done. lia. }
  rewrite Hsec. split; [done|].
  assert (in_nanos (Finite s) = Finite (Double.round (s * nano) 1)) as Hn.
  { unfold in_nanos, times. apply of_units_finite.
    assert (2 ^ 52 * unit < 2 ^ 2098) by done. lia. }
  rewrite (guards_range _ _ Hn). pose proof unit_pos. unfold in_range. lia.
Qed.
End RoundTrip.
