(* ===== verification/Timer.v ===== *)
(** Timers: [sleep_for], [steady_timer] and [system_timer] of
    [src/src/time.cpp].  A timer's wait suspends the fiber; its completion is a
    lambda posted to the VM's strand that resumes the fiber with the error code
    of the wait.  [asio::basic_waitable_timer] is not in the sources: the class
    [WaitableTimer] states what Asio documents of it. *)
From S2P Require Import Prelude Errors Lua Double Clock Vm FiberOps.
#[local] Open Scope Z_scope.

(** * The timer of Asio *)

(** The completion handler given to [async_wait], with the cancellation slot
    bound to it: the fiber it resumes and how. *)
Record waiter : Set := Waiter {
  waiter_fiber : loc;
  waiter_slot : option loc;
  waiter_fast : bool;         (* [fast_auto_detect_interrupt] *)
}.

(** What has been asked of a timer: its expiry and the operations waiting for
    it.  Setting the expiry cancels the operations that wait, [cancel] as well;
    the handlers of cancelled operations are called with [operation_aborted].
    The two functions may throw. *)
Class WaitableTimer := {
  timer : Type;
  fresh_timer : timer;
  expiry : timer → Z;
  waiters : timer → list waiter;
  async_wait : waiter → timer → timer;
  expires_at : Z → timer → error_code + (timer * list waiter);
  expires_after : Z → Z → timer → error_code + (timer * list waiter);  (* now, duration *)
  cancel : timer → error_code + (timer * list waiter);
  cancel_slot : loc → timer → timer * list waiter;    (* a signal is emitted *)
  elapse : Z → timer → timer * list waiter;           (* the reactor, at a time *)

  fresh_waiters : waiters fresh_timer = [];
  async_wait_expiry w t : expiry (async_wait w t) = expiry t;
  async_wait_waiters w t : waiters (async_wait w t) = waiters t ++ [w];
  expires_at_expiry tp t t' ws : expires_at tp t = inr (t', ws) → expiry t' = tp;
  expires_at_waiters tp t t' ws :
    expires_at tp t = inr (t', ws) → waiters t' = [] ∧ ws = waiters t;
  expires_after_expiry now d t t' ws :
    expires_after now d t = inr (t', ws) → in_int64 (now + d) → expiry t' = now + d;
  expires_after_waiters now d t t' ws :
    expires_after now d t = inr (t', ws) → waiters t' = [] ∧ ws = waiters t;
  cancel_expiry t t' ws : cancel t = inr (t', ws) → expiry t' = expiry t;
  cancel_waiters t t' ws : cancel t = inr (t', ws) → waiters t' = [] ∧ ws = waiters t;
  cancel_slot_expiry s t : expiry (cancel_slot s t).1 = expiry t;
  cancel_slot_waiters s t :
    waiters (cancel_slot s t).1 = filter (λ w, waiter_slot w ≠ Some s) (waiters t) ∧
    (cancel_slot s t).2 = filter (λ w, waiter_slot w = Some s) (waiters t);
  elapse_expiry now t : expiry (elapse now t).1 = expiry t;
  elapse_early now t : now < expiry t → elapse now t = (t, []);
  elapse_late now t :
    expiry t ≤ now → waiters (elapse now t).1 = [] ∧ (elapse now t).2 = waiters t;
}.

(** * The state *)
Section handlers.
Context `{LuaApi} `{LuaNumbers} `{WaitableTimer}.

(** [handles] are the userdata of timers, [sleeps] the operations of
    [sleep_for] with the fiber their lambda captures, which are what the VM's
    [pending_operations] holds here. *)
Record timer_state : Type := TimerState {
  vm : vm_context;
  clocks : clock_heap;
  handles : gmap loc (clock * timer);
  sleeps : gmap loc (loc * timer);
}.

Definition with_vm (f : vm_context → vm_context) (st : timer_state) : timer_state :=
  TimerState (f (vm st)) (clocks st) (handles st) (sleeps st).
Definition with_handles (f : gmap loc (clock * timer) → gmap loc (clock * timer))
    (st : timer_state) : timer_state :=
  TimerState (vm st) (clocks st) (f (handles st)) (sleeps st).
Definition with_sleeps (f : gmap loc (loc * timer) → gmap loc (loc * timer)) (st : timer_state) :
    timer_state :=
  TimerState (vm st) (clocks st) (handles st) (f (sleeps st)).

(** The lambda given to [async_wait], called with an error code or, when the
    timer expired, with none. *)
Definition completion (ec : option error_code) (w : waiter) : task :=
  FiberResume (waiter_fiber w)
    (Options false (negb (waiter_fast w)) (waiter_fast w)
       [match ec with Some ec => AError ec | None => ANil end]).

Definition aborted : error_code := Basic_code Asio.basic_errors.operation_aborted.

(** The handlers of these operations go to the strand. *)
Definition complete (ec : option error_code) (ws : list waiter) (st : timer_state) :
    timer_state :=
  with_vm (with_strand (λ q, q ++ (completion ec <$> ws))) st.

(** The answer of a handler that stopped early. *)
Definition answer_of (o : outcome) : answer :=
  match o with
  | Returns vs => Return (RV <$> vs)
  | Raises (ECode ec info) => Error (RE ec) info
  | Raises (EString s) => ErrorString s
  | Raises (EValue v) => Error (RV v) None
  | Yields => Yield
  | Undefined => Stuck
  end.
Definition early_answer {A} (e : early A) (st : timer_state)
    (k : A → timer_state * answer) : timer_state * answer :=
  match e with inl o => (st, answer_of o) | inr a => k a end.
Notation "'try' x ':=' e 'in' s ';' k" := (early_answer e s (λ x, k))
  (at level 10, x pattern, e at level 200, s at level 0, k at level 200).

(** The guards on a number of seconds to wait for, and its [ceil]. *)
Definition check_wait (n : lua_Number) (i : Z) : early Z :=
  let secs := Double.decode n in
  if Double.isnan secs || Double.isinf secs || Double.lt secs (Double.Finite 0) then
    inl (raise_arg argument_out_of_domain i)
  else if Chrono.above_max secs then inl (raise value_too_large)
  else TimePoint.defined (Chrono.ceil secs).

(** * [sleep_for] *)
Definition sleep_for (now : Z) (L : lua_args) (st : timer_state) :
    timer_state * answer :=
  try n := TimePoint.checknumber L 1 in st;
  try dur2 := check_wait n 1 in st;
  match unsafe_can_suspend (vm st) with
  | Some e => (st, e)
  | None =>
      match expires_after now dur2 fresh_timer with
      | inl _ => (st, ErrorString "C++ exception")
      | inr (t, ws) =>
          let current_fiber := current_fiber_ (vm st) in
          let handle := next_loc (vm st) in
          let vm' := set_interrupter (Some (ITimer handle)) (with_next_loc S (vm st)) in
          let t := async_wait (Waiter current_fiber None true) t in
          (with_sleeps <[handle := (current_fiber, t)]> (with_vm (λ _, vm') st), Yield)
      end
  end.

(** Its interrupter, and [sleep_for_operation::cancel]. *)
Definition sleep_cancel (handle : loc) (st : timer_state) : timer_state :=
  match sleeps st !! handle with
  | Some (f, t) =>
      match cancel t with
      | inr (t, ws) => complete (Some aborted) ws (with_sleeps <[handle := (f, t)]> st)
      | inl _ => st
      end
  | None => st
  end.

(** * Timers *)
Definition check_timer (clk : clock) (L : lua_args) (st : timer_state) :
    early (loc * timer) :=
  match arg L 1 with
  | Some (LUserdata u) =>
      match handles st !! u with
      | Some (c, t) =>
          if decide (c = clk) then inr (u, t) else inl (raise_arg invalid_argument 1)
      | None => inl (raise_arg invalid_argument 1)
      end
  | _ => inl (raise_arg invalid_argument 1)
  end.

Definition set_timer (u : loc) (clk : clock) (t : timer) : timer_state → timer_state :=
  with_handles <[u := (clk, t)]>.

Definition timer_wait (clk : clock) (L : lua_args) (st : timer_state) :
    timer_state * answer :=
  match unsafe_can_suspend (vm st) with
  | Some e => (st, e)
  | None =>
      try (u, t) := check_timer clk L st in st;
      let '(vm', cancel_slot) := set_default_interrupter (vm st) in
      let w := Waiter (current_fiber_ (vm st)) cancel_slot false in
      (set_timer u clk (async_wait w t) (with_vm (λ _, vm') st), Yield)
  end.

(** What the three functions that cancel operations answer: how many. *)
Definition answer_cancelled (u : loc) (clk : clock) (st : timer_state)
    (r : error_code + (timer * list waiter)) : timer_state * answer :=
  match r with
  | inr (t, ws) =>
      (complete (Some aborted) ws (set_timer u clk t st),
       Return [RV (LNumber (lua_pushinteger (length ws)))])
  | inl ec => (st, error ec)
  end.

Definition timer_expires_at (clk : clock) (L : lua_args) (st : timer_state) :
    timer_state * answer :=
  try (u, t) := check_timer clk L st in st;
  try (_, tp) := TimePoint.check_point clk L 2 (clocks st) in st;
  answer_cancelled u clk st (expires_at tp t).

Definition timer_expires_after (clk : clock) (now : Z) (L : lua_args)
    (st : timer_state) : timer_state * answer :=
  try (u, t) := check_timer clk L st in st;
  try n := TimePoint.checknumber L 2 in st;
  try dur2 := check_wait n 2 in st;
  answer_cancelled u clk st (expires_after now dur2 t).

Definition timer_cancel (clk : clock) (L : lua_args) (st : timer_state) :
    timer_state * answer :=
  try (u, t) := check_timer clk L st in st;
  answer_cancelled u clk st (cancel t).

(** Userdata of both heaps come from one supply of addresses. *)
Definition on_clocks (f : clock_heap → clock_heap * outcome) (st : timer_state) :
    timer_state * answer :=
  let '(h, o) := f (ClockHeap (points (clocks st)) (next_loc (vm st))) in
  (TimerState (with_next_loc (λ _, next_point h) (vm st)) h (handles st) (sleeps st),
   answer_of o).

Definition timer_expiry (clk : clock) (L : lua_args) (st : timer_state) :
    timer_state * answer :=
  match check_timer clk L st with
  | inr (_, t) => on_clocks (new_point clk (expiry t)) st
  | inl _ => (st, Stuck)         (* the argument is not checked *)
  end.

Definition timer_new (clk : clock) (st : timer_state) : timer_state * answer :=
  let u := next_loc (vm st) in
  (set_timer u clk fresh_timer (with_vm (with_next_loc S) st), Return [RV (LUserdata u)]).

Inductive timer_method : Set := MWait | MExpiresAt | MExpiresAfter | MCancel.

Definition timer_mt_index (clk : clock) (methods : list (bytes * timer_method))
    (L : lua_args) (st : timer_state) : timer_method + (timer_state * answer) :=
  let key := tostringview (arg L 2) in
  match gperf methods key with
  | Some m => inl m
  | None =>
      inr (if decide (key = lit "expiry") then timer_expiry clk L st else (st, error_index))
  end.

(** The finalizer: operations still waiting are cancelled. *)
Definition timer_gc (u : loc) (st : timer_state) : timer_state :=
  match handles st !! u with
  | Some (_, t) =>
      complete (Some aborted) (waiters t) (with_handles (delete u) st)
  | None => st
  end.

(** * What happens outside of the handlers *)

(** The reactor finds that a timer's time has come. *)
Definition timer_elapse (u : loc) (now : Z) (st : timer_state) : timer_state :=
  match handles st !! u with
  | Some (clk, t) =>
      let '(t, ws) := elapse now t in complete None ws (set_timer u clk t st)
  | None => st
  end.
Definition sleep_elapse (handle : loc) (now : Z) (st : timer_state) : timer_state :=
  match sleeps st !! handle with
  | Some (f, t) =>
      let '(t, ws) := elapse now t in
      complete None ws (with_sleeps <[handle := (f, t)]> st)
  | None => st
  end.

(** The lambda of [DEFAULT_EMIT_SIGNAL_INTERRUPTER]: the operation bound to the
    signal, on whichever timer it waits. *)
Definition emit_timer (s : loc) (u : loc) (st : timer_state) : timer_state :=
  match handles st !! u with
  | Some (clk, t) =>
      let '(t, ws) := cancel_slot s t in
      complete (Some aborted) ws (set_timer u clk t st)
  | None => st
  end.
Definition emit_signal (s : loc) (st : timer_state) : timer_state :=
  foldr (emit_timer s) st (elements (dom (handles st))).

(** [fib:interrupt()] with what its interrupter does to timers. *)
Definition interrupt (L : lua_args) (st : timer_state) : timer_state * answer :=
  let '(vm', a) := fiber_interrupt L (vm st) in
  let st' := with_vm (λ _, vm') st in
  match called_interrupter L (vm st) with
  | Some (ITimer handle) => (sleep_cancel handle st', a)
  | Some (IEmitSignal s) => (emit_signal s st', a)
  | _ => (st', a)
  end.

(** The next task of the strand.  The lambda of [sleep_for] takes its operation
    off the list before it resumes the fiber. *)
Definition forget_sleep (f : loc) (opts : options) (st : timer_state) : timer_state :=
  if valid_ (vm st) && fast_auto_detect_interrupt opts
  then with_sleeps (filter (λ x, x.2.1 ≠ f)) st else st.

Definition run_task (st : timer_state) : option (loc * timer_state) :=
  match strand (vm st) with
  | [] => None
  | FiberResume f opts :: q =>
      let st := forget_sleep f opts (with_vm (with_strand (λ _, q)) st) in
      vm' ← fiber_resume f opts (vm st);
      Some (f, with_vm (λ _, vm') st)
  end.

(** [vm_context::close] cancels the pending operations first. *)
Definition close_operations (st : timer_state) : timer_state :=
  let st := foldr sleep_cancel st (elements (dom (sleeps st))) in
  with_vm close (with_sleeps (λ _, ∅) st).

(** * The functions of each clock *)
Definition steady_timer_wait := timer_wait steady_clock.
Definition steady_timer_expires_at := timer_expires_at steady_clock.
Definition steady_timer_expires_after := timer_expires_after steady_clock.
Definition steady_timer_cancel := timer_cancel steady_clock.
Definition steady_timer_expiry := timer_expiry steady_clock.
Definition steady_timer_mt_index :=
  timer_mt_index steady_clock
    [(lit "wait", MWait); (lit "expires_at", MExpiresAt);
     (lit "expires_after", MExpiresAfter); (lit "cancel", MCancel)].
Definition steady_timer_new := timer_new steady_clock.

Definition system_timer_wait := timer_wait system_clock.
Definition system_timer_expires_at := timer_expires_at system_clock.
Definition system_timer_cancel := timer_cancel system_clock.
Definition system_timer_expiry := timer_expiry system_clock.
Definition system_timer_mt_index :=
  timer_mt_index system_clock
    [(lit "wait", MWait); (lit "expires_at", MExpiresAt); (lit "cancel", MCancel)].
Definition system_timer_new := timer_new system_clock.

(** * Steps *)

(** A call of the running fiber about timers, at a reading of the clock. *)
Inductive timer_call : Set :=
| CallSleep | CallNew (clk : clock) | CallWait (clk : clock)
| CallExpiresAt (clk : clock) | CallExpiresAfter | CallCancel (clk : clock)
| CallExpiry (clk : clock).

Definition call (c : timer_call) (now : Z) (L : lua_args) (st : timer_state) :
    timer_state * answer :=
  match c with
  | CallSleep => sleep_for now L st
  | CallNew clk => timer_new clk st
  | CallWait clk => timer_wait clk L st
  | CallExpiresAt clk => timer_expires_at clk L st
  | CallExpiresAfter => timer_expires_after steady_clock now L st
  | CallCancel clk => timer_cancel clk L st
  | CallExpiry clk => timer_expiry clk L st
  end.

(** The interruptions are those of fibers that wait for a timer or for
    nothing: what the other interrupters do is in [FiberOps]. *)
Definition about_timers (i : option interrupter_t) : Prop :=
  match i with Some (ITimer _) | Some (IEmitSignal _) | None => True | _ => False end.

(** [lua_yield] leaves the fiber suspended. *)
Definition suspended (a : answer) (f : loc) : list loc :=
  match a with Yield => [f] | _ => [] end.
Definition suspend (a : answer) (st : timer_state) : timer_state :=
  match a with
  | Yield => with_vm (λ vm, set_thread (current_fiber_ vm) CoSuspended vm) st
  | _ => st
  end.

(** Steps, with the fibers that start to wait and those taken from the queue. *)
Inductive timer_step : timer_state → list loc → list loc → timer_state → Prop :=
| step_call c now L st st' a :
    running (vm st) (current_fiber_ (vm st)) → call c now L st = (st', a) →
    timer_step st (suspended a (current_fiber_ (vm st))) [] (suspend a st')
| step_leave s st :        (* the fiber ends or waits for something else *)
    (∀ args, s ≠ CoRunning args) →
    timer_step st [] [] (with_vm (λ vm, set_thread (current_fiber_ vm) s vm) st)
| step_elapse u now st : timer_step st [] [] (timer_elapse u now st)
| step_sleep_elapse h now st : timer_step st [] [] (sleep_elapse h now st)
| step_interrupt L st st' a :
    about_timers (called_interrupter L (vm st)) →
    interrupt L st = (st', a) → timer_step st [] [] st'
| step_gc u st : timer_step st [] [] (timer_gc u st)
| step_run st f st' :
    (∀ g, ¬ running (vm st) g) → run_task st = Some (f, st') → timer_step st [] [f] st'.

Inductive timer_steps : timer_state → list loc → list loc → timer_state → Prop :=
| steps_refl st : timer_steps st [] [] st
| steps_step st1 started1 resumed1 st2 started2 resumed2 st3 :
    timer_step st1 started1 resumed1 st2 → timer_steps st2 started2 resumed2 st3 →
    timer_steps st1 (started1 ++ started2) (resumed1 ++ resumed2) st3.

(** The fibers that wait for a timer, and those whose completion is queued. *)
Definition fibers (ws : list waiter) : list loc := waiter_fiber <$> ws.
Definition all_fibers {A} (m : gmap loc (A * timer)) : list loc :=
  map_to_list m ≫= λ x, fibers (waiters x.2.2).
Definition waiting_fibers (st : timer_state) : list loc :=
  all_fibers (handles st) ++ all_fibers (sleeps st).
Definition queued_fibers (st : timer_state) : list loc :=
  task_fiber <$> strand (vm st).
End handlers.
