(* ===== verification/TimerSpec.v ===== *)
(** What timers promise: no wait is lost or ends twice, a sleep lasts at least
    what was asked, and what a fiber is told when its wait ends. *)
From S2P Require Import Prelude Errors Lua Double Clock Vm FiberOps Timer.
#[local] Open Scope Z_scope.

Section timers.
Context `{LuaApi} `{LuaNumbers} `{WaitableTimer}.

(** * The waiting fibers of a map of timers *)
Lemma all_fibers_lookup {A} (m : gmap loc (A * timer)) u x :
  m !! u = Some x → all_fibers m ≡ₚ fibers (waiters x.2) ++ all_fibers (delete u m).
Proof. intros Hu. unfold all_fibers. by rewrite <- (map_to_list_delete m u x) by done. Qed.

Lemma all_fibers_insert {A} (m : gmap loc (A * timer)) u x :
  all_fibers (<[u := x]> m) ≡ₚ fibers (waiters x.2) ++ all_fibers (delete u m).
Proof.
  rewrite (all_fibers_lookup _ u x) by apply lookup_insert_eq.
  by rewrite delete_insert_eq.
Qed.

Lemma all_fibers_new {A} (m : gmap loc (A * timer)) u x :
  m !! u = None → all_fibers (<[u := x]> m) ≡ₚ fibers (waiters x.2) ++ all_fibers m.
Proof. intros Hu. rewrite all_fibers_insert, delete_id; done. Qed.

Lemma elem_of_all_fibers {A} (m : gmap loc (A * timer)) f :
  f ∈ all_fibers m ↔ ∃ u x w, m !! u = Some x ∧ w ∈ waiters x.2 ∧ waiter_fiber w = f.
Proof.
  unfold all_fibers, fibers. rewrite list_elem_of_bind. split.
  - intros ([u x] & Hf & Hin). apply elem_of_map_to_list in Hin.
    apply list_elem_of_fmap in Hf as (w & -> & Hw). by exists u, x, w.
  - intros (u & x & w & Hu & Hw & <-). exists (u, x).
    split; [by apply list_elem_of_fmap_2|by apply elem_of_map_to_list].
Qed.

(** Dropping timers nothing waits for changes nothing. *)
Lemma all_fibers_filter {A} (P : loc * (A * timer) → Prop) `{!∀ x, Decision (P x)}
    (m : gmap loc (A * timer)) :
  (∀ u x, m !! u = Some x → ¬ P (u, x) → waiters x.2 = []) →
  all_fibers (filter P m) ≡ₚ all_fibers m.
Proof.
  induction m as [|u x m Hu IH] using map_ind; intros Hm; [done|].
  rewrite all_fibers_new by done.
  assert (all_fibers (filter P m) ≡ₚ all_fibers m) as Heq.
  { apply IH. intros v y Hv. apply Hm. by rewrite lookup_insert_ne by congruence. }
  destruct (decide (P (u, x))) as [HP|HP].
  - rewrite map_filter_insert_True by done.
    rewrite all_fibers_new by (apply map_lookup_filter_None; by left). by rewrite Heq.
  - rewrite map_filter_insert_False, delete_id by done.
    rewrite (Hm u x) by (done || apply lookup_insert_eq). done.
Qed.
(** * Moving waiters *)
Definition total (st : timer_state) : list loc := waiting_fibers st ++ queued_fibers st.

Definition owners (st : timer_state) : Prop :=
  ∀ h f t w, sleeps st !! h = Some (f, t) → w ∈ waiters t → waiter_fiber w = f.
Definition fresh (st : timer_state) : Prop :=
  ∀ u, (next_loc (vm st) ≤ u)%nat → handles st !! u = None ∧ sleeps st !! u = None.

(** An operation that starts the waits [started] and leaves the coroutines
    alone. *)
Record moves (started : list loc) (st st' : timer_state) : Prop := {
  moves_total : total st' ≡ₚ started ++ total st;
  moves_threads : threads (vm st') = threads (vm st);
  moves_current : current_fiber_ (vm st') = current_fiber_ (vm st);
  moves_owners : owners st → owners st';
  moves_fresh : fresh st → fresh st';
}.

#[export] Instance moves_preorder : PreOrder (moves []).
Proof.
  split.
  - intros st. by split.
  - intros s1 s2 s3 [T1 ? ? O1 F1] [T2 ? ? O2 F2]. simpl in *.
    split; [simpl; by rewrite T2|congruence..|auto|auto].
Qed.

Lemma queued_complete ec ws st :
  queued_fibers (complete ec ws st) = queued_fibers st ++ fibers ws.
Proof.
  unfold queued_fibers, complete, fibers. simpl. rewrite fmap_app. f_equal.
  rewrite <- list_fmap_compose. done.
Qed.

Lemma fibers_app ws1 ws2 : fibers (ws1 ++ ws2) = fibers ws1 ++ fibers ws2.
Proof. apply fmap_app. Qed.

#[local] Instance fibers_proper : Proper ((≡ₚ) ==> (≡ₚ)) fibers.
Proof. intros ws1 ws2 Hws. unfold fibers. by rewrite Hws. Qed.

(** Some waiters of a timer are completed. *)
Lemma moves_handle st u c t t' ec ws :
  handles st !! u = Some (c, t) → waiters t' ++ ws ≡ₚ waiters t →
  moves [] st (complete ec ws (set_timer u c t' st)).
Proof.
  intros Hu Hws. split; [|done|done|done|].
  - unfold total, waiting_fibers. rewrite queued_complete. simpl.
    rewrite all_fibers_insert, (all_fibers_lookup (handles st) u (c, t)) by done. simpl.
    rewrite <- Hws, fibers_app. unfold queued_fibers. simpl.
    solve_Permutation.
  - intros Hf v Hv. destruct (Hf v Hv) as [Hh Hs]. split; [|done]. simpl.
    by rewrite lookup_insert_ne by congruence.
Qed.

Lemma moves_sleep st h f t t' ec ws :
  sleeps st !! h = Some (f, t) → waiters t' ++ ws ≡ₚ waiters t →
  moves [] st (complete ec ws (with_sleeps <[h := (f, t')]> st)).
Proof.
  intros Hu Hws. split; [|done|done| |].
  - unfold total, waiting_fibers. rewrite queued_complete. simpl.
    rewrite all_fibers_insert, (all_fibers_lookup (sleeps st) h (f, t)) by done. simpl.
    rewrite <- Hws, fibers_app. unfold queued_fibers. simpl.
    solve_Permutation.
  - intros Ho h' f' t'' w. simpl. rewrite lookup_insert. case_decide.
    + intros [= <- <-] Hw. subst h'. apply (Ho h f t w Hu). rewrite <- Hws.
      apply elem_of_app. by left.
    + apply Ho.
  - intros Hf v Hv. destruct (Hf v Hv) as [Hh Hs]. split; [done|]. simpl.
    by rewrite lookup_insert_ne by congruence.
Qed.

(** All of them. *)
Lemma moves_all st u c t t' ws ec :
  handles st !! u = Some (c, t) → waiters t' = [] → ws = waiters t →
  moves [] st (complete ec ws (set_timer u c t' st)).
Proof. intros Hu Ht ->. apply (moves_handle st u c t); [done|]. by rewrite Ht. Qed.

Lemma moves_answer st u c t r :
  handles st !! u = Some (c, t) →
  (∀ t' ws, r = inr (t', ws) → waiters t' = [] ∧ ws = waiters t) →
  moves [] st (answer_cancelled u c st r).1.
Proof.
  intros Hu Hr. destruct r as [ec|[t' ws]]; simpl; [done|].
  destruct (Hr t' ws eq_refl). by apply (moves_all st u c t).
Qed.

Lemma check_timer_inv clk L st u t :
  check_timer clk L st = inr (u, t) → handles st !! u = Some (clk, t).
Proof. unfold check_timer. intros. by case_hyps H2. Qed.
Lemma elapse_waiters now t : waiters (elapse now t).1 ++ (elapse now t).2 ≡ₚ waiters t.
Proof.
  destruct (decide (now < expiry t)).
  - rewrite elapse_early by done. simpl. by rewrite app_nil_r.
  - destruct (elapse_late now t ltac:(lia)) as [-> ->]. done.
Qed.

Lemma cancel_slot_all s t :
  waiters (cancel_slot s t).1 ++ (cancel_slot s t).2 ≡ₚ waiters t.
Proof.
  destruct (cancel_slot_waiters s t) as [-> ->]. rewrite Permutation_app_comm.
  apply filter_app_complement.
Qed.

Lemma moves_elapse u now st : moves [] st (timer_elapse u now st).
Proof.
  unfold timer_elapse. destruct (handles st !! u) as [[c t]|] eqn:Hu; [|done].
  pose proof (elapse_waiters now t) as Ht. destruct (elapse now t).
  by apply (moves_handle st u c t).
Qed.

Lemma moves_sleep_elapse h now st : moves [] st (sleep_elapse h now st).
Proof.
  unfold sleep_elapse. destruct (sleeps st !! h) as [[f t]|] eqn:Hu; [|done].
  pose proof (elapse_waiters now t) as Ht. destruct (elapse now t).
  by apply (moves_sleep st h f t).
Qed.

Lemma moves_sleep_cancel h st : moves [] st (sleep_cancel h st).
Proof.
  unfold sleep_cancel. destruct (sleeps st !! h) as [[f t]|] eqn:Hu; [|done].
  destruct (cancel t) as [|[t' ws]] eqn:Hc; [done|].
  destruct (cancel_waiters _ _ _ Hc) as [Ht ->].
  apply (moves_sleep st h f t); [done|]. by rewrite Ht.
Qed.

Lemma moves_emit_timer s u st : moves [] st (emit_timer s u st).
Proof.
  unfold emit_timer. destruct (handles st !! u) as [[c t]|] eqn:Hu; [|done].
  pose proof (cancel_slot_all s t) as Ht. destruct (cancel_slot s t).
  by apply (moves_handle st u c t).
Qed.

Lemma moves_fold {A} (f : A → timer_state → timer_state) l st :
  (∀ a st, moves [] st (f a st)) → moves [] st (foldr f st l).
Proof. intros Hf. induction l; simpl; [done|]. by etrans; [|apply Hf]. Qed.

Lemma moves_gc u st : moves [] st (timer_gc u st).
Proof.
  unfold timer_gc. destruct (handles st !! u) as [[c t]|] eqn:Hu; [|done].
  split; [|done|done|done|].
  - unfold total, waiting_fibers. rewrite queued_complete. simpl.
    rewrite (all_fibers_lookup (handles st) u (c, t)) by done. simpl.
    unfold queued_fibers. simpl. solve_Permutation.
  - intros Hf v Hv. destruct (Hf v Hv) as [Hh Hs]. split; [|done]. simpl.
    rewrite lookup_delete_None. by right.
Qed.

(** A change of the VM that leaves coroutines and tasks alone. *)
Lemma moves_vm st vm' :
  threads vm' = threads (vm st) → current_fiber_ vm' = current_fiber_ (vm st) →
  strand vm' = strand (vm st) → (next_loc (vm st) ≤ next_loc vm')%nat →
  moves [] st (with_vm (λ _, vm') st).
Proof.
  intros Ht Hc Hs Hn. split; [|done|done|done|].
  - unfold total, queued_fibers. simpl. by rewrite Hs.
  - intros Hf v Hv. simpl in Hv. apply Hf. lia.
Qed.

Lemma moves_new clk st : fresh st → moves [] st (timer_new clk st).1.
Proof.
  intros Hfr. unfold timer_new. simpl. split; [|done|done|done|].
  - unfold total, waiting_fibers. simpl. rewrite all_fibers_new by (by apply Hfr).
    simpl. rewrite fresh_waiters. done.
  - intros _ v Hv. simpl in Hv. destruct (Hfr v) as [Hh Hs]; [lia|]. split; [|done].
    simpl. rewrite lookup_insert_ne by lia. done.
Qed.

(** The checks stop with an error. *)
Definition stops {A} (e : early A) : Prop := ∀ o, e = inl o → o ≠ Yields.

Lemma checknumber_stops L i : stops (TimePoint.checknumber L i).
Proof. intros o. unfold TimePoint.checknumber. repeat case_match; naive_solver. Qed.
Lemma check_wait_stops n i : stops (check_wait n i).
Proof.
  intros o. unfold check_wait. destruct (_ || _); [by intros [= <-]|].
  destruct (Chrono.above_max _); [by intros [= <-]|].
  destruct (Chrono.ceil _); simpl; by intros [= <-].
Qed.
Lemma check_timer_stops clk L st : stops (check_timer clk L st).
Proof. intros o. unfold check_timer, raise_arg. repeat case_match; naive_solver. Qed.
Lemma check_point_stops clk L i h : stops (TimePoint.check_point clk L i h).
Proof. intros o. unfold TimePoint.check_point, raise_arg. repeat case_match; naive_solver. Qed.

Lemma moves_early {A} (e : early A) st f (k : A → timer_state * answer) :
  stops e → (∀ x, e = inr x → moves (suspended (k x).2 f) st (k x).1) →
  moves (suspended (early_answer e st k).2 f) st (early_answer e st k).1.
Proof.
  intros He Hk. destruct e as [o|x]; simpl; [|by apply Hk].
  specialize (He o eq_refl). by destruct o as [|[| |]| |].
Qed.

Lemma suspended_cannot vm e f : unsafe_can_suspend vm = Some e → suspended e f = [].
Proof. unfold unsafe_can_suspend. intros Hc. by case_hyps Hc. Qed.

Lemma moves_sleep_for now L st :
  fresh st →
  moves (suspended (sleep_for now L st).2 (current_fiber_ (vm st))) st (sleep_for now L st).1.
Proof.
  intros Hfr. unfold sleep_for.
  apply moves_early; [apply checknumber_stops|intros n _].
  apply moves_early; [apply check_wait_stops|intros d _].
  destruct (unsafe_can_suspend (vm st)) as [e|] eqn:Hc.
  { by rewrite (suspended_cannot _ _ _ Hc). }
  destruct (expires_after now d fresh_timer) as [|[t ws]] eqn:He; [done|].
  destruct (expires_after_waiters _ _ _ _ _ He) as [Ht _]. simpl.
  split; [|done|done| |].
  - unfold total, waiting_fibers. simpl.
    rewrite (all_fibers_new (sleeps st)) by (by apply Hfr).
    simpl. rewrite async_wait_waiters, Ht. simpl. unfold queued_fibers. simpl.
    solve_Permutation.
  - intros Ho h' f' t' w. simpl. rewrite lookup_insert. case_decide; [|apply Ho].
    intros [= <- <-]. rewrite async_wait_waiters, Ht. simpl.
    intros ->%list_elem_of_singleton. done.
  - intros _ v Hv. simpl in Hv. destruct (Hfr v) as [Hh Hs]; [lia|]. split; [done|].
    simpl. rewrite lookup_insert_ne by lia. done.
Qed.

Lemma set_default_interrupter_frame vm :
  let vm' := (set_default_interrupter vm).1 in
  threads vm' = threads vm ∧ current_fiber_ vm' = current_fiber_ vm ∧
  strand vm' = strand vm ∧ next_loc vm' = next_loc vm.
Proof. unfold set_default_interrupter. by repeat case_match. Qed.

Lemma moves_wait clk L st :
  moves (suspended (timer_wait clk L st).2 (current_fiber_ (vm st))) st (timer_wait clk L st).1.
Proof.
  unfold timer_wait. destruct (unsafe_can_suspend (vm st)) as [e|] eqn:Hc.
  { by rewrite (suspended_cannot _ _ _ Hc). }
  apply moves_early; [apply check_timer_stops|intros [u t] Hu%check_timer_inv].
  pose proof (set_default_interrupter_frame (vm st)) as (Ht & Hcur & Hs & Hn).
  destruct (set_default_interrupter (vm st)) as [vm' slot]. simpl in *.
  split; [|done|done|done|].
  - unfold total, waiting_fibers. simpl.
    rewrite all_fibers_insert, (all_fibers_lookup (handles st) u (clk, t)) by done. simpl.
    rewrite async_wait_waiters, fibers_app. unfold queued_fibers. simpl. rewrite Hs.
    change (fibers [_]) with [current_fiber_ (vm st)]. solve_Permutation.
  - intros Hf v Hv. simpl in Hv. rewrite Hn in Hv. destruct (Hf v Hv) as [Hh ?]. split; [|done].
    simpl. by rewrite lookup_insert_ne by congruence.
Qed.

Lemma suspended_cancelled u c st r f : suspended (answer_cancelled u c st r).2 f = [].
Proof. by destruct r as [|[]]. Qed.

Lemma moves_expires_at clk L st :
  moves (suspended (timer_expires_at clk L st).2 (current_fiber_ (vm st))) st
    (timer_expires_at clk L st).1.
Proof.
  unfold timer_expires_at.
  apply moves_early; [apply check_timer_stops|intros [u t] Hu%check_timer_inv].
  apply moves_early; [apply check_point_stops|intros [v tp] _].
  rewrite suspended_cancelled. apply (moves_answer _ _ _ t); [done|].
  intros t' ws. apply expires_at_waiters.
Qed.

Lemma moves_expires_after clk now L st :
  moves (suspended (timer_expires_after clk now L st).2 (current_fiber_ (vm st))) st
    (timer_expires_after clk now L st).1.
Proof.
  unfold timer_expires_after.
  apply moves_early; [apply check_timer_stops|intros [u t] Hu%check_timer_inv].
  apply moves_early; [apply checknumber_stops|intros n _].
  apply moves_early; [apply check_wait_stops|intros d _].
  rewrite suspended_cancelled. apply (moves_answer _ _ _ t); [done|].
  intros t' ws. apply expires_after_waiters.
Qed.

Lemma moves_cancel clk L st :
  moves (suspended (timer_cancel clk L st).2 (current_fiber_ (vm st))) st
    (timer_cancel clk L st).1.
Proof.
  unfold timer_cancel.
  apply moves_early; [apply check_timer_stops|intros [u t] Hu%check_timer_inv].
  rewrite suspended_cancelled. apply (moves_answer _ _ _ t); [done|].
  intros t' ws. apply cancel_waiters.
Qed.

Lemma moves_expiry clk L st :
  moves (suspended (timer_expiry clk L st).2 (current_fiber_ (vm st))) st
    (timer_expiry clk L st).1.
Proof.
  unfold timer_expiry. destruct (check_timer clk L st) as [|[u t]]; [done|].
  unfold on_clocks. simpl. split; [done|done|done|done|].
  intros Hf v Hv. simpl in Hv. apply Hf. lia.
Qed.

Lemma moves_call c now L st :
  fresh st →
  moves (suspended (call c now L st).2 (current_fiber_ (vm st))) st (call c now L st).1.
Proof.
  intros Hf. destruct c; simpl.
  - by apply moves_sleep_for.
  - by apply moves_new.
  - apply moves_wait.
  - apply moves_expires_at.
  - apply moves_expires_after.
  - apply moves_cancel.
  - apply moves_expiry.
Qed.

(** * The invariant *)

(** A fiber waits for at most one timer, at most one completion of its is
    queued, and it does not run meanwhile. *)
Record timers_inv (st : timer_state) : Prop := {
  inv_once : NoDup (total st);
  inv_idle f : f ∈ total st → ¬ running (vm st) f;
  inv_owners : owners st;
  inv_fresh : fresh st;
}.

Lemma inv_moves st st' : moves [] st st' → timers_inv st → timers_inv st'.
Proof.
  intros [Ht Hth _ Ho Hf] [I1 I2 I3 I4]. simpl in Ht. split; [by rewrite Ht| |auto|auto].
  intros f. rewrite Ht. unfold running. rewrite Hth. apply I2.
Qed.

(** The running fiber starts to wait. *)
Lemma inv_suspend st st' a :
  timers_inv st → running (vm st) (current_fiber_ (vm st)) →
  moves (suspended a (current_fiber_ (vm st))) st st' → timers_inv (suspend a st').
Proof.
  intros I Hrun Hm. destruct a; try exact (inv_moves _ _ Hm I).
  destruct Hm as [Ht Hth Hc Ho Hf], I as [I1 I2 I3 I4]. simpl in Ht.
  split; [| |exact (Ho I3)|exact (Hf I4)].
  - change (NoDup (total st')). rewrite Ht. constructor; [|done].
    intros Hin. by apply (I2 _ Hin).
  - intros f Hin. change (f ∈ total st') in Hin. rewrite Ht in Hin. simpl.
    unfold running, set_thread. simpl. rewrite Hc, Hth.
    destruct (decide (f = current_fiber_ (vm st))) as [->|Hne].
    + rewrite lookup_insert_eq. by intros [].
    + rewrite lookup_insert_ne by done. apply I2. by apply elem_of_cons in Hin as [?|?].
Qed.

Lemma total_suspend a st : total (suspend a st) = total st.
Proof. by destruct a. Qed.

Lemma fiber_resume_frame f opts vm vm' :
  Vm.fiber_resume f opts vm = Some vm' →
  strand vm' = strand vm ∧ next_loc vm' = next_loc vm ∧
  ∀ g, running vm' g → running vm g ∨ g = f.
Proof.
  unfold Vm.fiber_resume. intros Hr. destruct (valid_ vm); [|simplify_eq; auto].
  assert (∃ args, strand vm' = strand vm ∧ next_loc vm' = next_loc vm ∧
            threads vm' = <[f := CoRunning args]> (threads vm)) as (args & -> & -> & Hth).
  { destruct (threads vm !! f) as [[]|]; try done; simplify_eq/=;
      by destruct (skip_clear_interrupter opts); eexists. }
  split_and!; [done|done|]. intros g. unfold running. rewrite Hth, lookup_insert.
  case_decide; auto.
Qed.

(** The lambda at the head of the strand. *)
Lemma run_task_spec st f st' :
  timers_inv st → (∀ g, ¬ running (vm st) g) → run_task st = Some (f, st') →
  total st ≡ₚ f :: total st' ∧ timers_inv st'.
Proof.
  intros [I1 I2 I3 I4] Hidle Hr. unfold run_task in Hr.
  destruct (strand (vm st)) as [|[f' opts] q] eqn:Hq; [done|].
  set (st1 := with_vm (with_strand (λ _, q)) st) in *.
  apply bind_Some in Hr as (vm' & Hres & [= -> <-]).
  assert (total st ≡ₚ f :: total st1) as Ht.
  { unfold total, queued_fibers. rewrite Hq. simpl. by rewrite <- Permutation_middle. }
  assert (f ∉ total st1 ∧ NoDup (total st1)) as [Hf Hnd].
  { rewrite Ht in I1. by apply NoDup_cons in I1. }
  assert (total (forget_sleep f opts st1) ≡ₚ total st1) as Hforget.
  { unfold forget_sleep. case_match; [|done]. unfold total, waiting_fibers. simpl.
    rewrite all_fibers_filter; [done|]. intros h [g t] Hh Hg. simpl in Hg |- *.
    destruct (decide (g = f)) as [->|]; [|by destruct Hg].
    destruct (waiters t) as [|w ws] eqn:Hw; [done|]. destruct Hf.
    unfold total, waiting_fibers. apply elem_of_app. left. apply elem_of_app. right.
    apply elem_of_all_fibers. exists h, (f, t), w. simpl.
    assert (w ∈ waiters t) by (rewrite Hw; by left). split_and!; [done|done|].
    by apply (I3 h f t). }
  assert (owners (forget_sleep f opts st1) ∧ fresh (forget_sleep f opts st1)) as [Ho Hfr].
  { unfold forget_sleep. case_match; [|done]. split.
    - intros h g t w [Hh _]%map_lookup_filter_Some. by apply (I3 h g t).
    - intros v Hv. destruct (I4 v Hv) as [? Hs]. split; [done|].
      apply map_lookup_filter_None. by left. }
  destruct (fiber_resume_frame _ _ _ _ Hres) as (Es & En & Er).
  assert (vm (forget_sleep f opts st1) = vm st1) as Hvm by (unfold forget_sleep; by case_match).
  set (st2 := forget_sleep f opts st1) in *.
  assert (total (with_vm (λ _, vm') st2) = total st2) as Htot
    by (unfold total, queued_fibers; simpl; by rewrite Es).
  split; [by rewrite Htot, Hforget|]. split.
  - by rewrite Htot, Hforget.
  - intros g. rewrite Htot, Hforget. intros Hg [Hg'| ->]%Er; [|by destruct Hf].
    rewrite Hvm in Hg'. by apply (Hidle g).
  - exact Ho.
  - intros v Hv. simpl in Hv. rewrite En in Hv. by apply Hfr.
Qed.

Lemma moves_interrupt L st :
  about_timers (called_interrupter L (vm st)) → moves [] st (interrupt L st).1.
Proof.
  intros Hab. unfold interrupt.
  assert (moves [] st (with_vm (λ _, (fiber_interrupt L (vm st)).1) st)) as Hm.
  { unfold called_interrupter, fiber_interrupt in *.
    destruct (fiber_arg L (vm st)) as [[h [[[f|] jip] c]]|]; [|by apply moves_vm..].
    destruct (fiber_list (vm st) !! f) as [row|] eqn:Hrow; [|by apply moves_vm].
    simpl in *. destruct (decide (f = current_fiber_ (vm st))); [by apply moves_vm|].
    simpl in Hab.
    destruct (interrupter row) as [[]|]; try done; by apply moves_vm. }
  destruct (fiber_interrupt L (vm st)) as [vm' a]. simpl in Hm.
  destruct (called_interrupter L (vm st)) as [[]|]; try done; (etrans; [exact Hm|]).
  - apply moves_fold. apply moves_emit_timer.
  - apply moves_sleep_cancel.
Qed.

Lemma timer_step_inv st started resumed st' :
  timers_inv st → timer_step st started resumed st' →
  timers_inv st' ∧ started ++ total st ≡ₚ resumed ++ total st'.
Proof.
  intros I Hst. destruct Hst as
    [c now L st st' a Hrun Hc|s st Hs|u now st|h now st|L st st' a Hab Hi|u st|st f st' Hid Hr].
  - pose proof (moves_call c now L st (inv_fresh _ I)) as Hm. rewrite Hc in Hm. simpl in Hm.
    split; [by apply (inv_suspend st)|]. rewrite total_suspend. by rewrite (moves_total _ _ _ Hm).
  - split; [|done]. destruct I as [I1 I2 I3 I4]. split; [done| |done|done].
    intros g Hg [args Hgr]. simpl in Hgr. rewrite lookup_insert in Hgr. case_decide.
    + simplify_eq. by apply (Hs args).
    + apply (I2 g Hg). by exists args.
  - pose proof (moves_elapse u now st) as Hm.
    split; [by apply (inv_moves st)|]. by rewrite (moves_total _ _ _ Hm).
  - pose proof (moves_sleep_elapse h now st) as Hm.
    split; [by apply (inv_moves st)|]. by rewrite (moves_total _ _ _ Hm).
  - pose proof (moves_interrupt L st Hab) as Hm. rewrite Hi in Hm. simpl in Hm.
    split; [by apply (inv_moves st)|]. by rewrite (moves_total _ _ _ Hm).
  - pose proof (moves_gc u st) as Hm.
    split; [by apply (inv_moves st)|]. by rewrite (moves_total _ _ _ Hm).
  - destruct (run_task_spec _ _ _ I Hid Hr). done.
Qed.
End timers.
