(* ===== verification/TimePromises.v ===== *)
(** What time points and timers promise to programs, on concrete inputs as
    well ([Examples]). *)
From S2P Require Import Prelude Errors Lua Double Clock Vm FiberOps Timer TimerSpec.
#[local] Open Scope Z_scope.

(** * Time points *)
Section points.
Context `{LuaApi} `{LuaNumbers}.
Import TimePoint.

(** A number of seconds added to a count of nanoseconds, or taken from it: the
    nearest nanosecond, the even one of two. *)
Definition shift (op : Z → Z → Z) (secs : Double.double) (tp : Z) : outcome + Z :=
  if Double.isnan secs || Double.isinf secs then inl (raise_arg argument_out_of_domain 2)
  else
    match Chrono.in_nanos secs with
    | Double.Finite k =>
        if decide (ChronoFacts.in_range k) then
          let tp' := op tp (Double.half_even k Double.unit) in
          if decide (k ≠ ChronoFacts.limit ∧ in_int64 tp') then inr tp' else inl Undefined
        else inl (raise value_too_large)
    | _ => inl (raise value_too_large)
    end.

(** The guards and the rounding of the handlers, with what follows. *)
Lemma guarded_shift {S} (s : S) n tp op64 op (k : Z → S * outcome) :
  (∀ a b, op64 a b = if decide (in_int64 (op a b)) then Some (op a b) else None) →
  early_bind (check_seconds n) s (λ secs,
    early_bind (defined (Chrono.round secs)) s (λ d,
      early_bind (defined (op64 tp d)) s k)) =
  match shift op (Double.decode n) tp with inl o => (s, o) | inr tp' => k tp' end.
Proof.
  intros Hop. unfold check_seconds, shift.
  destruct (Double.isnan (Double.decode n) || Double.isinf (Double.decode n)) eqn:Hsp; [done|].
  apply orb_false_iff in Hsp as [Hnan _].
  destruct (Chrono.in_nanos (Double.decode n)) as [|b|x] eqn:Hx.
  - by rewrite ChronoFacts.guards_special by (done || congruence).
  - by rewrite ChronoFacts.guards_special by (done || congruence).
  - pose proof (ChronoFacts.guards_range _ _ Hx) as Hg.
    destruct (Chrono.above_max _ || Chrono.below_min _).
    { rewrite decide_False by (intros Hr; by apply Hg in Hr). done. }
    assert (ChronoFacts.in_range x) as Hr by (by apply Hg). rewrite decide_True by done.
    cbn [early_bind]. destruct (decide (x = ChronoFacts.limit)) as [Hl|Hl].
    + rewrite (ChronoFacts.round_limit _ _ Hx Hr Hl).
      by rewrite decide_False by (by intros [? _]).
    + rewrite (ChronoFacts.round_spec _ _ Hx Hr Hl). cbn [defined early_bind]. rewrite Hop.
      destruct (decide (in_int64 (op tp (Double.half_even x Double.unit)))) as [Hi|Hi].
      * by rewrite decide_True by done.
      * by rewrite decide_False by (by intros [_ ?]).
Qed.

(** The result is within half a nanosecond of the exact sum, and a relative
    error of 2^-53 of the seconds. *)
Lemma shift_accuracy op a tp tp' :
  shift op (Double.Finite a) tp = inr tp' →
  ∃ d, tp' = op tp d ∧
    2 ^ 54 * Z.abs (d * Double.unit - a * Chrono.nano) ≤
      2 ^ 53 * Double.unit + 2 * Z.abs (a * Chrono.nano).
Proof.
  unfold shift. simpl. unfold Double.of_units. case_decide; [done|].
  set (k := Double.round (a * Chrono.nano) 1). case_decide; [|done]. case_decide; [|done].
  intros [= <-]. exists (Double.half_even k Double.unit). split; [done|].
  pose proof (Double.half_even_near k Double.unit Double.unit_pos) as Hn.
  assert (2 ^ 53 * Z.abs (k - a * Chrono.nano) ≤ Z.abs (a * Chrono.nano)) as Hk; [|lia].
  destruct (decide (Z.abs (a * Chrono.nano) ≤ 2 ^ 53)) as [Hs|Hs].
  - unfold k. rewrite Double.round_exact by (by apply Double.representable_small). lia.
  - pose proof (Double.round_error (a * Chrono.nano) 1 ltac:(lia) ltac:(lia)) as He.
    fold k in He. lia.
Qed.

(** Adding seconds to a time point, or taking them away, moves it by the
    number of nanoseconds nearest to them, in place for the methods and into a
    new time point for the operators.  A number that is not finite or moves by
    more than 2^63 nanoseconds is refused; when it moves by 2^63 exactly or the
    sum does not fit 64 bits the code has undefined behaviour. *)
Theorem seconds_shift clk h u tp n :
  points h !! u = Some (clk, tp) →
  let L := [LUserdata u; LNumber n] in
  let in_place r := match r with
    | inl o => (h, o) | inr tp' => (set_point u clk tp' h, Returns []) end in
  let fresh_point r := match r with
    | inl o => (h, o) | inr tp' => new_point clk tp' h end in
  let plus := shift Z.add (Double.decode n) tp in
  let less := shift Z.sub (Double.decode n) tp in
  point_add clk L h = in_place plus ∧ point_sub clk L h = in_place less ∧
  mt_add clk L h = fresh_point plus ∧ mt_sub clk L h = fresh_point less ∧
  ∀ a tp', Double.decode n = Double.Finite a → plus = inr tp' →
    2 ^ 54 * Z.abs ((tp' - tp) * Double.unit - a * Chrono.nano) ≤
      2 ^ 53 * Double.unit + 2 * Z.abs (a * Chrono.nano).
Proof.
  intros Hu L in_place fresh_point plus less.
  assert (check_point clk L 1 h = inr (u, tp)) as Hc
    by (unfold check_point; simpl; by rewrite Hu, decide_True).
  unfold point_add, point_sub, mt_add, mt_sub. change (settop 2 L) with L.
  rewrite Hc. change (checknumber L 2) with (@inr outcome lua_Number n).
  change (arg L 2) with (Some (LNumber n)). cbn [early_bind]. split_and!.
  - by apply guarded_shift.
  - by apply guarded_shift.
  - by apply guarded_shift.
  - by apply guarded_shift.
  - intros a tp' Ha Hp. unfold plus in Hp. rewrite Ha in Hp.
    destruct (shift_accuracy _ _ _ _ Hp) as (d & -> & Hd).
    by replace (tp + d - tp) with d by lia.
Qed.
Lemma check_point_at clk L i h u tp :
  arg L i = Some (LUserdata u) → points h !! u = Some (clk, tp) →
  check_point clk L i h = inr (u, tp).
Proof. intros Ha Hu. unfold check_point. by rewrite Ha, Hu, decide_True. Qed.

Lemma seconds_shift_back op c tp :
  Z.abs c < 2 ^ 51 → in_int64 (op tp c) → shift op (Chrono.seconds c) tp = inr (op tp c).
Proof.
  intros Hc Hi. destruct (RoundTrip.seconds_guards c Hc) as [Hs Hg].
  unfold shift. rewrite Hs. pose proof (RoundTrip.seconds_round c Hc) as Hr.
  destruct (Chrono.in_nanos (Chrono.seconds c)) as [|b|k] eqn:Hk.
  - rewrite ChronoFacts.guards_special in Hg; [done| |congruence].
    by apply orb_false_iff in Hs as [? _].
  - rewrite ChronoFacts.guards_special in Hg; [done| |congruence].
    by apply orb_false_iff in Hs as [? _].
  - apply (ChronoFacts.guards_range _ _ Hk) in Hg. rewrite decide_True by done.
    destruct (decide (k = ChronoFacts.limit)) as [Hl|Hl].
    { by rewrite (ChronoFacts.round_limit _ _ Hk Hg Hl) in Hr. }
    rewrite (ChronoFacts.round_spec _ _ Hk Hg Hl) in Hr. injection Hr as ->.
    by rewrite decide_True by done.
Qed.

(** The difference of two time points that are less than 2^51 nanoseconds
    (26 days) apart, added to the second, gives the first to the nanosecond,
    and taken from the first gives the second, although it is a number of
    seconds rounded to a double. *)
Theorem difference_added_back clk h u1 u2 t1 t2 :
  points h !! u1 = Some (clk, t1) → points h !! u2 = Some (clk, t2) →
  in_int64 t1 → in_int64 t2 → Z.abs (t1 - t2) < 2 ^ 51 →
  ∃ n, mt_sub clk [LUserdata u1; LUserdata u2] h = (h, Returns [LNumber n]) ∧
    mt_add clk [LUserdata u2; LNumber n] h = new_point clk t1 h ∧
    mt_sub clk [LUserdata u1; LNumber n] h = new_point clk t2 h.
Proof.
  intros H1 H2 I1 I2 Hd. set (c := t1 - t2) in *.
  exists (Double.encode (Chrono.seconds c)).
  assert (Double.decode (Double.encode (Chrono.seconds c)) = Chrono.seconds c) as Hdec
    by (by apply Double.decode_encode, Double.divided_by_fits).
  set (n := Double.encode _) in *.
  unfold mt_sub, mt_add, difference.
  rewrite !(check_point_at clk [LUserdata u1; _] 1 h u1 t1) by done.
  rewrite (check_point_at clk [LUserdata u2; _] 1 h u2 t2) by done.
  rewrite (check_point_at clk [_; LUserdata u2] 2 h u2 t2) by done.
  change (checknumber _ 2) with (@inr outcome lua_Number n).
  change (arg [LUserdata u1; LNumber n] 2) with (Some (LNumber n)).
  change (arg [LUserdata u1; LUserdata u2] 2) with (Some (LUserdata u2)).
  cbn [early_bind]. split_and!.
  - unfold Chrono.sub64. rewrite decide_True by (fold c; width). done.
  - rewrite (guarded_shift h n t2 Chrono.add64 Z.add) by done. rewrite Hdec.
    rewrite seconds_shift_back; [|done|]; by replace (t2 + c) with t1 by lia.
  - rewrite (guarded_shift h n t1 Chrono.sub64 Z.sub) by done. rewrite Hdec.
    rewrite seconds_shift_back; [|done|]; by replace (t1 - c) with t2 by lia.
Qed.

(** A comparison or a difference answers for two time points of the clock. *)
Definition both_points clk L h (R : Z → Z → Prop) : Prop :=
  ∃ u1 u2 t1 t2, arg L 1 = Some (LUserdata u1) ∧ arg L 2 = Some (LUserdata u2) ∧
    points h !! u1 = Some (clk, t1) ∧ points h !! u2 = Some (clk, t2) ∧ R t1 t2.

Lemma check_point_inv clk L i h u tp :
  check_point clk L i h = inr (u, tp) →
  arg L i = Some (LUserdata u) ∧ points h !! u = Some (clk, tp).
Proof. unfold check_point. intros Hc. by case_hyps Hc. Qed.

(** What a handler of two time points does with anything else. *)
Lemma two_points clk L h :
  (∃ u1 u2 t1 t2, check_point clk L 1 h = inr (u1, t1) ∧ check_point clk L 2 h = inr (u2, t2) ∧
     ∀ R, both_points clk L h R ↔ R t1 t2) ∨
  ((∀ R, ¬ both_points clk L h R) ∧ ∃ i, (i = 1 ∨ i = 2) ∧ ∀ k : Z → Z → clock_heap * outcome,
     early_bind (check_point clk L 1 h) h (λ '(_, t1),
       early_bind (check_point clk L 2 h) h (λ '(_, t2), k t1 t2)) =
     (h, raise_arg invalid_argument i)).
Proof.
  assert (∀ i, (∃ u t, check_point clk L i h = inr (u, t)) ∨
            check_point clk L i h = inl (raise_arg invalid_argument i)) as Hc.
  { intros i. unfold check_point. repeat case_match; eauto. }
  destruct (Hc 1%nat) as [(u1 & t1 & C1)|C1].
  - destruct (Hc 2%nat) as [(u2 & t2 & C2)|C2].
    + left. exists u1, u2, t1, t2. split_and!; [done|done|]. intros R.
      apply check_point_inv in C1 as [A1 P1]. apply check_point_inv in C2 as [A2 P2]. split.
      * intros (? & ? & ? & ? & ? & ? & ? & ? & ?). by simplify_eq.
      * intros HR. by exists u1, u2, t1, t2.
    + right. split; [|exists 2; rewrite C1, C2; auto].
      intros R (? & ? & ? & ? & _ & A2 & _ & P2 & _).
      by rewrite (check_point_at _ _ _ _ _ _ A2 P2) in C2.
  - right. split; [|exists 1; rewrite C1; auto].
    intros R (? & ? & ? & ? & A1 & _ & P1 & _).
    by rewrite (check_point_at _ _ _ _ _ _ A1 P1) in C1.
Qed.

(** Time points of one clock are ordered as the instants they stand for, and
    nothing else is compared or subtracted: a call with anything but two time
    points of the clock raises [invalid_argument] and changes nothing. *)
Theorem comparisons_typed clk L h (b : bool) :
  (mt_lt clk L h = (h, Returns [LBoolean b]) ↔
     both_points clk L h (λ t1 t2, b = bool_decide (t1 < t2))) ∧
  (mt_le clk L h = (h, Returns [LBoolean b]) ↔
     both_points clk L h (λ t1 t2, b = bool_decide (t1 ≤ t2))) ∧
  (∀ n, mt_sub_points clk L h = (h, Returns [LNumber n]) ↔
     both_points clk L h (λ t1 t2, in_int64 (t1 - t2) ∧
       n = Double.encode (Chrono.seconds (t1 - t2)))) ∧
  (¬ both_points clk L h (λ _ _, True) → ∃ i, (i = 1 ∨ i = 2) ∧
     mt_lt clk L h = (h, raise_arg invalid_argument i) ∧
     mt_le clk L h = (h, raise_arg invalid_argument i) ∧
     mt_sub_points clk L h = (h, raise_arg invalid_argument i)).
Proof.
  unfold mt_lt, mt_le, mt_sub_points, difference.
  destruct (two_points clk L h) as [(u1 & u2 & t1 & t2 & C1 & C2 & HR)|(HR & i & Hi & Hk)].
  - rewrite C1, C2, !HR. cbn [early_bind]. split_and!; [naive_solver..| |by intros []].
    intros n. rewrite HR. unfold Chrono.sub64.
    destruct (decide (in_int64 (t1 - t2))); cbn [defined early_bind]; naive_solver.
  - split_and!; [| | |by intros _; exists i; rewrite !Hk].
    + rewrite Hk. split; [done|]. by intros ?%HR.
    + rewrite Hk. split; [done|]. by intros ?%HR.
    + intros n. rewrite Hk. split; [done|]. by intros ?%HR.
Qed.
End points.

(** * Timers *)
Section timers.
Context `{LuaApi} `{LuaNumbers} `{WaitableTimer}.

Lemma steps_conserve st started resumed st' :
  timers_inv st → timer_steps st started resumed st' →
  timers_inv st' ∧ started ++ total st ≡ₚ resumed ++ total st'.
Proof.
  intros I Hst. revert I.
  induction Hst as [|st1 s1 r1 st2 s2 r2 st3 H12 _ IH]; intros I; [done|].
  destruct (timer_step_inv _ _ _ _ I H12) as [I2 P1]. destruct (IH I2) as [I3 P2].
  split; [done|]. rewrite <- !app_assoc, <- P2.
  trans (s2 ++ (s1 ++ total st1)); [solve_Permutation|]. rewrite P1. solve_Permutation.
Qed.

(** All the timers, at a time when all have expired. *)
Definition elapse_all (now : Z) (st : timer_state) : timer_state :=
  let st := foldr (λ u, timer_elapse u now) st (elements (dom (handles st))) in
  foldr (λ h, sleep_elapse h now) st (elements (dom (sleeps st))).

Definition all_expired (now : Z) (st : timer_state) : Prop :=
  (∀ u c t, handles st !! u = Some (c, t) → expiry t ≤ now) ∧
  (∀ h f t, sleeps st !! h = Some (f, t) → expiry t ≤ now).

Lemma all_fibers_nil {A} (m : gmap loc (A * timer)) :
  (∀ u x, m !! u = Some x → waiters x.2 = []) → all_fibers m = [].
Proof.
  intros Hm. destruct (all_fibers m) as [|f l] eqn:Hl; [done|].
  assert (f ∈ all_fibers m) as Hf by (rewrite Hl; by left).
  apply elem_of_all_fibers in Hf as (u & x & w & Hu & Hw & _).
  rewrite (Hm u x Hu) in Hw. by apply elem_of_nil in Hw.
Qed.

(** After the elapsing of the timers [l], the others are as they were. *)
Lemma elapse_handles now st l :
  NoDup l →
  let st' := foldr (λ u, timer_elapse u now) st l in
  sleeps st' = sleeps st ∧
  ∀ u, handles st' !! u =
    if decide (u ∈ l) then (λ x, (x.1, (elapse now x.2).1)) <$> handles st !! u
    else handles st !! u.
Proof.
  induction l as [|v l IH]; intros Hnd; simpl; [done|].
  apply NoDup_cons in Hnd as [Hv Hnd]. destruct (IH Hnd) as [Es Eh].
  set (st' := foldr _ st l) in *. unfold timer_elapse.
  pose proof (Eh v) as Ev. rewrite decide_False in Ev by done.
  destruct (handles st' !! v) as [[c t]|] eqn:Hst'.
  - destruct (elapse now t) as [t' ws] eqn:Ht. simpl. split; [done|]. intros u.
    rewrite lookup_insert. destruct (decide (v = u)) as [<-|Hne].
    + rewrite decide_True by (by left). rewrite <- Ev. simpl. by rewrite Ht.
    + rewrite Eh. by destruct (decide (u ∈ l)), (decide (u ∈ v :: l)); set_solver.
  - split; [done|]. intros u. rewrite Eh. destruct (decide (u = v)) as [->|Hne].
    + rewrite decide_False by done. rewrite decide_True by (by left). by rewrite <- Ev.
    + by destruct (decide (u ∈ l)), (decide (u ∈ v :: l)); set_solver.
Qed.

Lemma elapse_sleeps now st l :
  NoDup l →
  let st' := foldr (λ h, sleep_elapse h now) st l in
  handles st' = handles st ∧
  ∀ h, sleeps st' !! h =
    if decide (h ∈ l) then (λ x, (x.1, (elapse now x.2).1)) <$> sleeps st !! h
    else sleeps st !! h.
Proof.
  induction l as [|v l IH]; intros Hnd; simpl; [done|].
  apply NoDup_cons in Hnd as [Hv Hnd]. destruct (IH Hnd) as [Es Eh].
  set (st' := foldr _ st l) in *. unfold sleep_elapse.
  pose proof (Eh v) as Ev. rewrite decide_False in Ev by done.
  destruct (sleeps st' !! v) as [[f t]|] eqn:Hst'.
  - destruct (elapse now t) as [t' ws] eqn:Ht. simpl. split; [done|]. intros u.
    rewrite lookup_insert. destruct (decide (v = u)) as [<-|Hne].
    + rewrite decide_True by (by left). rewrite <- Ev. simpl. by rewrite Ht.
    + rewrite Eh. by destruct (decide (u ∈ l)), (decide (u ∈ v :: l)); set_solver.
  - split; [done|]. intros u. rewrite Eh. destruct (decide (u = v)) as [->|Hne].
    + rewrite decide_False by done. rewrite decide_True by (by left). by rewrite <- Ev.
    + by destruct (decide (u ∈ l)), (decide (u ∈ v :: l)); set_solver.
Qed.

Lemma elapse_all_waiting now st : all_expired now st → waiting_fibers (elapse_all now st) = [].
Proof.
  intros [Hh Hs]. unfold elapse_all, waiting_fibers. cbn zeta.
  pose proof (elapse_handles now st _ (NoDup_elements (dom (handles st)))) as [Es1 Eh1].
  set (st1 := foldr (λ u, timer_elapse u now) st _) in *.
  pose proof (elapse_sleeps now st1 _ (NoDup_elements (dom (sleeps st1)))) as [Eh2 Es2].
  set (st2 := foldr _ st1 _) in *. rewrite Eh2.
  rewrite !all_fibers_nil; [done| |].
  - intros h [f t]. rewrite Es2, Es1. case_decide as Hin.
    + destruct (sleeps st !! h) as [[f' t']|] eqn:Ht; [|done]. intros [= <- <-]. simpl.
      apply elapse_late. by apply (Hs h f').
    + intros Ht. destruct Hin. apply elem_of_elements, elem_of_dom. by eexists.
  - intros u [c t]. rewrite Eh1. case_decide as Hin.
    + destruct (handles st !! u) as [[c' t']|] eqn:Ht; [|done]. intros [= <- <-]. simpl.
      apply elapse_late. by apply (Hh u c').
    + intros Ht. destruct Hin. apply elem_of_elements, elem_of_dom. by eexists.
Qed.

Lemma moves_elapse_all now st : moves [] st (elapse_all now st).
Proof.
  unfold elapse_all. cbn zeta. etrans.
  - apply (moves_fold (λ u, timer_elapse u now)). intros. apply moves_elapse.
  - apply (moves_fold (λ h, sleep_elapse h now)). intros. apply moves_sleep_elapse.
Qed.

(** C26 No wake-up is lost or given twice: at any time the fibers that started to
    wait for a timer are, each once, those that have been resumed, those that
    still wait and those whose completion is queued; a fiber that waits or is
    queued does not run, and waits for one timer only.  Once all the timers
    have expired no fiber waits: all are queued. *)
Theorem every_wait_ends_once st started resumed st' :
  timers_inv st → timer_steps st started resumed st' →
  started ++ waiting_fibers st ++ queued_fibers st ≡ₚ
    resumed ++ waiting_fibers st' ++ queued_fibers st' ∧
  NoDup (waiting_fibers st' ++ queued_fibers st') ∧
  (∀ f, f ∈ waiting_fibers st' ++ queued_fibers st' → ¬ running (vm st') f) ∧
  ∀ now, all_expired now st' →
    waiting_fibers (elapse_all now st') = [] ∧
    queued_fibers (elapse_all now st') ≡ₚ waiting_fibers st' ++ queued_fibers st'.
Proof.
  intros I Hst. destruct (steps_conserve _ _ _ _ I Hst) as [I' P].
  split_and!; [exact P|apply I'|apply I'|]. intros now Hex.
  pose proof (elapse_all_waiting now st' Hex) as Hw. split; [done|].
  pose proof (moves_total _ _ _ (moves_elapse_all now st')) as Ht.
  unfold total in Ht. by rewrite Hw in Ht.
Qed.

(** * Sleeping *)
Lemma check_wait_spec n i d :
  check_wait n i = inr d →
  ∃ a k, Double.decode n = Double.Finite a ∧ 0 ≤ a ∧
    Chrono.in_nanos (Double.Finite a) = Double.Finite k ∧ k < ChronoFacts.limit ∧
    (d - 1) * Double.unit < k ≤ d * Double.unit ∧ in_int64 d.
Proof.
  unfold check_wait. destruct (Double.decode n) as [|s|a] eqn:Ha; [done|by destruct s|].
  destruct (_ || _) eqn:Hg; [done|]. apply orb_false_iff in Hg as [_ Hneg].
  cbn [Double.lt] in Hneg. apply bool_decide_eq_false in Hneg.
  destruct (Chrono.above_max _) eqn:Hmax; [done|].
  destruct (Chrono.in_nanos (Double.Finite a)) as [|s|k] eqn:Hk.
  - unfold Chrono.in_nanos, Double.times, Double.of_units in Hk. by case_decide.
  - unfold Chrono.ceil, Chrono.duration_cast. rewrite Hk. done.
  - assert (0 ≤ k) as Hk0.
    { unfold Chrono.in_nanos, Double.times, Double.of_units in Hk. case_decide; [done|].
      injection Hk as <-. apply Double.round_ge; [lia| |unfold Chrono.nano; lia].
      by apply Double.representable_small. }
    assert (ChronoFacts.in_range k) as Hr.
    { apply (ChronoFacts.guards_range _ _ Hk). rewrite Hmax. unfold Chrono.below_min.
      rewrite ChronoFacts.of_Z_min, Hk. cbn [Double.lt orb].
      apply bool_decide_eq_false. pose proof Double.unit_pos. lia. }
    destruct (decide (k = ChronoFacts.limit)) as [Hl|Hl].
    { by rewrite (ChronoFacts.ceil_limit _ _ Hk Hr Hl). }
    destruct (ChronoFacts.ceil_spec _ _ Hk Hr Hl) as (z & -> & Hz & Hi).
    intros [= <-]. exists a, k.
    split_and!; [exact eq_refl|lia|exact Hk| |apply Hz|apply Hz|exact Hi].
    unfold ChronoFacts.in_range in Hr. unfold ChronoFacts.limit in *. lia.
Qed.

Lemma answer_stops o : o ≠ Yields → answer_of o ≠ Yield.
Proof. by destruct o as [|[| |]| |]. Qed.

(** C27 A sleep lasts what was asked for, rounded up: the fiber that calls
    [sleep] at an instant waits alone for a new timer, nothing happens to it
    before the seconds, as nanoseconds, have passed, and it is queued at the
    first whole nanosecond when they have.  Negative, infinite and undefined
    numbers are refused. *)
Theorem sleep_lasts now n st :
  (∀ st', sleep_for now [LNumber n] st = (st', Yield) →
     ∃ h t d a k, let f := current_fiber_ (vm st) in
       Double.decode n = Double.Finite a ∧ 0 ≤ a ∧
       Chrono.in_nanos (Double.Finite a) = Double.Finite k ∧
       (d - 1) * Double.unit < k ≤ d * Double.unit ∧
       sleeps st' = <[h := (f, t)]> (sleeps st) ∧ fibers (waiters t) = [f] ∧
       (in_int64 (now + d) →
          (∀ now', now' < now + d → sleep_elapse h now' st' = st') ∧
          (∀ now', now + d ≤ now' →
             queued_fibers (sleep_elapse h now' st') = queued_fibers st ++ [f]))) ∧
  ((∀ a, Double.decode n = Double.Finite a → a < 0) →
     sleep_for now [LNumber n] st = (st, error_arg argument_out_of_domain 1)).
Proof.
  split.
  - intros st'. unfold sleep_for. change (TimePoint.checknumber _ 1) with (@inr outcome lua_Number n).
    cbn [early_answer]. destruct (check_wait n 1) as [o|d] eqn:Hd.
    { intros Hy. destruct (answer_stops o (check_wait_stops n 1 o Hd) (f_equal snd Hy)). }
    destruct (check_wait_spec _ _ _ Hd) as (a & k & Ha & Ha0 & Hk & Hlim & Hz & Hi).
    cbn [early_answer]. destruct (unsafe_can_suspend (vm st)) as [e|] eqn:Hc.
    { intros Hy. pose proof (suspended_cannot _ _ 0%nat Hc) as Hs.
      apply (f_equal snd) in Hy. cbn [snd] in Hy. subst e. discriminate Hs. }
    destruct (expires_after now d fresh_timer) as [|[t ws]] eqn:He; [done|].
    intros [= <-]. destruct (expires_after_waiters _ _ _ _ _ He) as [Hw _].
    set (f := current_fiber_ (vm st)). set (w := Waiter f None true).
    exists (next_loc (vm st)), (async_wait w t), d, a, k. cbn zeta.
    assert (fibers (waiters (async_wait w t)) = [f]) as Hf by (by rewrite async_wait_waiters, Hw).
    split_and!; [done|done|done|lia|lia|done|done|].
    intros Hnow. pose proof (expires_after_expiry _ _ _ _ _ He Hnow) as Hex.
    assert (expiry (async_wait w t) = now + d) as Hex' by (by rewrite async_wait_expiry).
    unfold sleep_elapse. cbn [sleeps with_sleeps with_vm]. rewrite lookup_insert_eq. split.
    + intros now' Hlt. rewrite elapse_early by lia. unfold complete. simpl.
      unfold with_sleeps, with_vm. simpl. rewrite insert_insert_eq. f_equal.
      unfold with_strand. simpl. rewrite app_nil_r. done.
    + intros now' Hge. destruct (elapse_late now' (async_wait w t) ltac:(lia)) as [_ Hws].
      destruct (elapse now' (async_wait w t)) as [t' ws']. simpl in Hws. subst ws'.
      rewrite queued_complete, Hf. done.
  - intros Hneg. unfold sleep_for. change (TimePoint.checknumber _ 1) with (@inr outcome lua_Number n).
    cbn [early_answer]. unfold check_wait.
    destruct (Double.decode n) as [|s|a] eqn:Ha; [done|done|].
    cbn [Double.isnan Double.isinf Double.lt orb]. by rewrite bool_decide_true by (by apply Hneg).
Qed.

(** * Interruption *)

(** The fiber waits for a timer with this interrupter. *)
Definition waits_with (st : timer_state) (f : loc) (i : interrupter_t) : Prop :=
  match i with
  | ITimer h => ∃ t t' ws, sleeps st !! h = Some (f, t) ∧
      Waiter f None true ∈ waiters t ∧ cancel t = inr (t', ws)
  | IEmitSignal s => ∃ u c t, handles st !! u = Some (c, t) ∧
      Waiter f (Some s) false ∈ waiters t
  | _ => False
  end.

Lemma in_strand_complete ec ws st x :
  x ∈ strand (vm (complete ec ws st)) ↔ x ∈ strand (vm st) ∨ x ∈ completion ec <$> ws.
Proof. unfold complete. simpl. apply elem_of_app. Qed.

Lemma emit_timer_strand s u st x :
  x ∈ strand (vm st) → x ∈ strand (vm (emit_timer s u st)).
Proof.
  intros Hx. unfold emit_timer. repeat case_match; [|done].
  apply in_strand_complete. by left.
Qed.

Lemma emit_timer_rows s u st : fiber_list (vm (emit_timer s u st)) = fiber_list (vm st).
Proof. unfold emit_timer. by repeat case_match. Qed.

Lemma emit_timer_other s u v st : u ≠ v → handles (emit_timer s u st) !! v = handles st !! v.
Proof.
  intros Hne. unfold emit_timer. repeat case_match; [|done]. simpl. by rewrite lookup_insert_ne.
Qed.

Lemma emit_fold s l st :
  let st' := foldr (emit_timer s) st l in
  fiber_list (vm st') = fiber_list (vm st) ∧
  (∀ x, x ∈ strand (vm st) → x ∈ strand (vm st')) ∧
  (∀ v, v ∉ l → handles st' !! v = handles st !! v).
Proof.
  induction l as [|u l (IH1 & IH2 & IH3)]; simpl; [done|]. split_and!.
  - by rewrite emit_timer_rows.
  - intros x Hx. by apply emit_timer_strand, IH2.
  - intros v [Hv Hl]%not_elem_of_cons. rewrite emit_timer_other by done. by apply IH3.
Qed.

Lemma emit_signal_wakes st s u c t w :
  handles st !! u = Some (c, t) → w ∈ waiters t → waiter_slot w = Some s →
  completion (Some aborted) w ∈ strand (vm (emit_signal s st)).
Proof.
  intros Hu Hw Hs. unfold emit_signal.
  assert (u ∈ elements (dom (handles st))) as Hin
    by (apply elem_of_elements, elem_of_dom; by eexists).
  pose proof (NoDup_elements (dom (handles st))) as Hnd.
  apply list_elem_of_split in Hin as (l1 & l2 & Hl). rewrite Hl in Hnd |- *.
  apply NoDup_app in Hnd as (_ & _ & [Hu2 _]%NoDup_cons).
  rewrite foldr_app. simpl.
  apply (proj1 (proj2 (emit_fold s l1 _))). unfold emit_timer at 1.
  rewrite (proj2 (proj2 (emit_fold s l2 st)) u Hu2), Hu.
  pose proof (cancel_slot_waiters s t) as [_ Hws]. destruct (cancel_slot s t) as [t' ws].
  simpl in Hws. apply in_strand_complete. right. apply list_elem_of_fmap_2.
  rewrite Hws. by apply list_elem_of_filter.
Qed.

(** An interruption ends a wait: when the fiber that is interrupted waits for
    a timer and can be interrupted there, its wait is cancelled, its completion
    goes to the strand and gives the fiber the error [interrupted]; its
    interrupter is gone. *)
Theorem interrupt_ends_wait L st h f jip c row i :
  fiber_arg L (vm st) = Some (h, (Some f, jip, c)) → f ≠ current_fiber_ (vm st) →
  fiber_list (vm st) !! f = Some row → interrupter row = Some i → waits_with st f i →
  let '(st', a) := interrupt L st in
  a = Return [] ∧
  (∃ opts arg, FiberResume f opts ∈ strand (vm st') ∧ arguments opts = [arg] ∧
     push_argument f opts (vm st') arg = RE Core.interrupted) ∧
  (∃ row', fiber_list (vm st') !! f = Some row' ∧ interrupted row' = true ∧
     interrupter row' = None).
Proof.
  intros Harg Hne Hrow Hi Hw. unfold interrupt, called_interrupter, fiber_interrupt.
  rewrite Harg, Hrow, decide_False by done. simpl. rewrite Hi.
  rewrite decide_False by done.
  set (row' := with_interrupter (λ _, None) (with_interrupted (λ _, true) row)).
  assert (alter (with_interrupter (λ _, None)) f
            (alter (with_interrupted (λ _, true)) f (fiber_list (vm st))) !! f = Some row') as Hrow'
    by (by rewrite !lookup_alter_eq, Hrow).
  destruct i as [| | |s|hh| |]; try done; simpl in Hw |- *.
  - destruct Hw as (u & clk & t & Hu & Hin).
    set (st1 := with_vm _ st). pose proof (emit_signal_wakes st1 s u clk t _ Hu Hin eq_refl) as Hq.
    pose proof (emit_fold s (elements (dom (handles st1))) st1) as (Er & _).
    fold (emit_signal s st1) in Er.
    assert (fiber_list (vm (emit_signal s st1)) !! f = Some row') as Hf by (by rewrite Er).
    split_and!; [done| |by exists row'].
    eexists _, _. split; [exact Hq|]. split; [done|]. cbn. by rewrite Hf.
  - destruct Hw as (t & t' & ws & Hs & Hin & Hcan). unfold sleep_cancel. simpl.
    rewrite Hs, Hcan. destruct (cancel_waiters _ _ _ Hcan) as [_ ->].
    split_and!; [done| |exists row'; split_and!; [exact Hrow'|done|done]].
    exists (task_options (completion (Some aborted) (Waiter f None true))), (AError aborted).
    split_and!; [|done|done]. apply in_strand_complete. right.
    apply (list_elem_of_fmap_2 (completion (Some aborted)) _ _ Hin).
Qed.
End timers.

(** * Examples *)
Module Examples.
#[local] Existing Instance Ieee754.api.

(** No string is a number. *)
#[local] Instance numbers : LuaNumbers :=
  {| lua_str2number := λ _, None; bad_number := λ _ _, "number expected" |}.

(** A timer that keeps its expiry and its waiters. *)
Record simple_timer : Set := SimpleTimer { its_expiry : Z; its_waiters : list waiter }.

#[local] Instance simple_timers : WaitableTimer.
Proof.
  refine {|
    timer := simple_timer;
    fresh_timer := SimpleTimer 0 [];
    expiry := its_expiry;
    waiters := its_waiters;
    async_wait := λ w t, SimpleTimer (its_expiry t) (its_waiters t ++ [w]);
    expires_at := λ tp t, inr (SimpleTimer tp [], its_waiters t);
    expires_after := λ now d t, inr (SimpleTimer (now + d) [], its_waiters t);
    cancel := λ t, inr (SimpleTimer (its_expiry t) [], its_waiters t);
    cancel_slot := λ s t,
      (SimpleTimer (its_expiry t) (filter (λ w, waiter_slot w ≠ Some s) (its_waiters t)),
       filter (λ w, waiter_slot w = Some s) (its_waiters t));
    elapse := λ now t,
      if decide (now < its_expiry t) then (t, [])
      else (SimpleTimer (its_expiry t) [], its_waiters t)
  |}; simpl; intros; simplify_eq; try done.
  - by case_decide.
  - by rewrite decide_True.
  - by rewrite decide_False by lia.
Defined.

Definition seconds_of (n d : Z) : lua_Number :=
  Double.encode (Double.divided_by (Double.of_Z n) d).

(** ** Time points *)
Definition two_points_heap : clock_heap :=
  ClockHeap {[0%nat := (steady_clock, 5000000000); 1%nat := (steady_clock, 2700000001)]} 2.

Lemma seconds_shift_witness :
  TimePoint.point_add steady_clock [LUserdata 0; LNumber (seconds_of 3 2)] two_points_heap =
  (set_point 0 steady_clock 6500000000 two_points_heap, Returns []).
Proof.
  refine (eq_trans (proj1 (seconds_shift steady_clock two_points_heap 0 5000000000
    (seconds_of 3 2) eq_refl)) _).
  vm_compute. reflexivity.
Defined.

Lemma difference_added_back_witness :
  ∃ n, TimePoint.mt_sub steady_clock [LUserdata 0; LUserdata 1] two_points_heap =
      (two_points_heap, Returns [LNumber n]) ∧
    TimePoint.mt_add steady_clock [LUserdata 1; LNumber n] two_points_heap =
      new_point steady_clock 5000000000 two_points_heap ∧
    TimePoint.mt_sub steady_clock [LUserdata 0; LNumber n] two_points_heap =
      new_point steady_clock 2700000001 two_points_heap.
Proof.
  apply (difference_added_back steady_clock two_points_heap 0 1 5000000000 2700000001);
    [reflexivity|reflexivity|width|width|lia].
Defined.

(** 2^63 nanoseconds pass the guards, which compare doubles, and so does a sum
    that does not fit. *)
Lemma add_overflows :
  TimePoint.point_add steady_clock [LUserdata 0; LNumber (seconds_of 9223372036854775807 1000000000)]
    two_points_heap = (two_points_heap, Undefined) ∧
  TimePoint.point_add steady_clock [LUserdata 0; LNumber (seconds_of 9223372036 1)]
    two_points_heap = (two_points_heap, Undefined).
Proof. split; vm_compute; reflexivity. Qed.

(** ** Timers *)

(** The main fiber 0 and the fiber 3, whose handle is 4 and whose signal 5;
    [d] counts how often it disabled interruption. *)
Definition row (d : Z) (i : option interrupter_t) (signal : option loc) : fiber_data :=
  FiberData JNone None 0 None (DNumber d) false i signal (Some 4%nat) true.
Definition two_fibers (runs : loc) (d : Z) : vm_context :=
  Vm true 0 runs 1 false false None false [] [] true false
    {[0%nat := if decide (runs = 0%nat) then CoRunning [] else CoSuspended;
      3%nat := if decide (runs = 3%nat) then CoRunning [] else CoSuspended]}
    {[0%nat := row 0 None None; 3%nat := row d None (Some 5%nat)]}
    {[4%nat := Fiber (Some 3%nat) false None]} [] ∅ 10.
Definition start (d : Z) : timer_state := TimerState (two_fibers 3 d) (ClockHeap ∅ 0) ∅ ∅.

(** The other fiber's turn. *)
Definition main_again (st : timer_state) : timer_state :=
  with_vm (λ vm, set_thread 0 (CoRunning []) (with_current_fiber (λ _, 0%nat) vm)) st.

Definition asleep : timer_state := (sleep_for 100 [LNumber (seconds_of 1 2)] (start 0)).1.
Definition timer_made (d : Z) : timer_state := (timer_new steady_clock (start d)).1.
Definition timer_waits (d : Z) : timer_state :=
  main_again (suspend Yield (timer_wait steady_clock [LUserdata 10] (timer_made d)).1).

Lemma start_inv : timers_inv (start 0).
Proof.
  split; [constructor|by intros f ?%elem_of_nil|done|done].
Qed.

Lemma every_wait_ends_once_witness :
  [3%nat] ++ waiting_fibers (start 0) ++ queued_fibers (start 0) ≡ₚ
    [] ++ waiting_fibers (suspend Yield asleep) ++ queued_fibers (suspend Yield asleep).
Proof.
  refine (proj1 (every_wait_ends_once (start 0) ([3%nat] ++ []) ([] ++ []) (suspend Yield asleep)
    start_inv _)).
  eapply steps_step; [|apply steps_refl].
  apply (step_call CallSleep 100 [LNumber (seconds_of 1 2)] (start 0) asleep Yield).
  - by exists [].
  - vm_compute. reflexivity.
Defined.

Lemma interrupt_ends_wait_witness :
  let '(st', a) := interrupt [LUserdata 4] (timer_waits 0) in
  a = Return [] ∧
  (∃ opts arg, FiberResume 3 opts ∈ strand (vm st') ∧ arguments opts = [arg] ∧
     push_argument 3 opts (vm st') arg = RE Core.interrupted) ∧
  (∃ row', fiber_list (vm st') !! 3%nat = Some row' ∧ interrupted row' = true ∧
     interrupter row' = None).
Proof.
  refine (interrupt_ends_wait [LUserdata 4] (timer_waits 0) 4 3 false None
    (row 0 (Some (IEmitSignal 5)) (Some 5%nat)) (IEmitSignal 5) _ _ _ _ _);
    [reflexivity|done|reflexivity|reflexivity|].
  exists 10%nat, steady_clock, (SimpleTimer 0 [Waiter 3 (Some 5%nat) false]).
  split; [vm_compute; reflexivity|by left].
Defined.

(** A fiber that disabled interruption waits for a timer; it is interrupted,
    which only takes note of it; then the timer is cancelled by another fiber:
    the wait ends with [interrupted], not with [operation_aborted]. *)
Lemma disabled_yet_interrupted :
  let st := (interrupt [LUserdata 4] (timer_waits 1)).1 in
  strand (vm st) = [] ∧
  let st' := (timer_cancel steady_clock [LUserdata 10] st).1 in
  let st'' := (run_task (suspend Yield st')) in
  (λ x, threads (vm x.2) !! 3%nat) <$> st'' = Some (Some (CoRunning [RE Core.interrupted])) ∧
  (λ row, is_disabled (interruption_disabled row)) <$> fiber_list (vm st') !! 3%nat = Some true.
Proof. split; [|split]; vm_compute; reflexivity. Qed.
End Examples.
