(* ===== verification/SpawnArgs.v ===== *)
(** The named parameters of [system.spawn]: the first part of [system_spawn],
    [src/src/linux/system/spawn.cpp] and [src/src/freebsd/system/spawn.cpp],
    which reads the fields of a Lua table one after the other, checks them
    against each other and gives the [spawn_arguments_t] the child works with.

    Both files repeat each other but for a few fields; what differs depends on
    [os].  The definitions follow the order of the code, one per field, so that
    the first fault of a table is the one that is raised. *)
From S2P Require Import Prelude Errors Lua LuaTable.
#[local] Open Scope Z_scope.

Inductive os : Set := Linux | FreeBSD.
#[export] Instance os_eq_dec : EqDecision os.
Proof. solve_decision. Defined.

(** * What the call sees of Lua *)

(** The userdata the fields may hold, by their metatables. *)
Inductive spawn_userdata : Set :=
| HandleOf (fd : option Z)    (* [file_descriptor_mt_key]; none when busy *)
| PathOf (p : bytes)          (* [filesystem_path_mt_key] *)
| WithMetatable               (* another metatable *)
| WithoutMetatable.

(** The answers of [lua_getfield], which may run Lua code, and the tables and
    userdata the fields refer to. *)
Record lua_view : Type := LuaView {
  getfield : lua_value → string → lua_value;
  table_at : loc → table;
  userdata_at : loc → spawn_userdata;
}.

(** The constants of Linux; of FreeBSD's only that they differ matters. *)
Definition SCHED_OTHER : Z := 0.
Definition SCHED_FIFO : Z := 1.
Definition SCHED_RR : Z := 2.
Definition SCHED_BATCH : Z := 3.
Definition SCHED_IDLE : Z := 5.
Definition SCHED_RESET_ON_FORK : Z := 2 ^ 30.
Definition SIGTERM : Z := 15.

(** [sched_get_priority_min] and [sched_get_priority_max]. *)
Class SchedulerLimits := {
  priority_min : Z → Z;
  priority_max : Z → Z;
}.

(** Conversions of a [lua_Integer] to narrower types. *)
Definition to_int32 (z : Z) : Z := (z + 2 ^ 31) `mod` 2 ^ 32 - 2 ^ 31.
Definition to_uint16 (z : Z) : Z := z `mod` 2 ^ 16.
Definition to_uint32 (z : Z) : Z := z `mod` 2 ^ 32.
Definition to_uint64 (z : Z) : Z := z `mod` 2 ^ 64.

(** [uid_t(-1)], which stands for an identity that stays as it is. *)
Definition no_id : Z := 2 ^ 32 - 1.

(** * [spawn_arguments_t] *)
Inductive program_t : Set :=
| ByName (name : bytes)        (* searched in [PATH] *)
| ByPath (path : bytes)
| ByDescriptor (fd : Z).

Record spawn_arguments : Type := SpawnArguments {
  program : program_t;
  signal_on_gcreaper : Z;
  argv : list bytes;
  envp : list bytes;
  proc_stdin : Z;
  proc_stdout : Z;
  proc_stderr : Z;
  extra_fds : list (Z * Z);
  scheduler_policy : option Z;
  scheduler_priority : option Z;
  start_new_session : bool;
  set_ctty : Z;
  process_group : option Z;
  foreground : Z;
  ruid : Z;
  euid : Z;
  rgid : Z;
  egid : Z;
  extra_groups : option (list Z);
  umask : option Z;
  working_directory : option bytes;
  working_directoryfd : Z;
  pdeathsig : option Z;
  nsenter : list (string * Z);     (* [nsenter_user], ... in order *)
  pd_daemon : bool;
}.

(** * Reading a field *)
Definition bad_field {A} (name : string) : early A :=
  inl (Raises (ECode invalid_argument (Some (ArgName name)))).
Definition busy_field {A} (name : string) : early A :=
  inl (Raises (ECode device_or_resource_busy (Some (ArgName name)))).
Definition unsupported {A} (name : string) : early A :=
  inl (Raises (ECode not_supported (Some (ArgName name)))).

Notation "'let!' x ':=' e 'in' k" :=
  (match e with inl o => inl o | inr x => k end)
  (at level 10, x pattern, e at level 200, k at level 200,
   format "'[v' 'let!'  x  ':='  e  'in' '/' k ']'").

Section fields.
Context `{LuaApi} `{SchedulerLimits}.
Variables (view : lua_view) (opts : lua_value).

Definition field (name : string) : lua_value := getfield view opts name.

(** The checks on a userdata that must be a file descriptor. *)
Definition handle_fd (u : loc) (name : string) : early Z :=
  match userdata_at view u with
  | HandleOf (Some fd) => inr fd
  | HandleOf None => busy_field name
  | PathOf _ | WithMetatable | WithoutMetatable => bad_field name
  end.

Definition optional_fd (name : string) : early Z :=
  match field name with
  | LNil => inr (-1)
  | LUserdata u => handle_fd u name
  | _ => bad_field name
  end.

Definition optional_integer (name : string) : early (option Z) :=
  match field name with
  | LNil => inr None
  | LNumber n => inr (Some (lua_tointeger n))
  | _ => bad_field name
  end.

(** ** The program *)
Definition read_program : early program_t :=
  match field "program" with
  | LString s => inr (ByName s)
  | LUserdata u =>
      match userdata_at view u with
      | HandleOf (Some fd) => inr (ByDescriptor fd)
      | HandleOf None => busy_field "program"
      | PathOf p => inr (ByPath p)
      | WithMetatable | WithoutMetatable => bad_field "program"
      end
  | _ => bad_field "program"
  end.

Definition read_signal_on_gcreaper : early Z :=
  let! n := optional_integer "signal_on_gcreaper" in
  inr (match n with Some n => to_int32 n | None => SIGTERM end).

(** ** Strings *)

(** The loop over the elements 1, 2, ... of a table up to the first [nil]. *)
Fixpoint read_elements {A} (name : string) (read : lua_value → option A) (tb : table)
    (fuel : nat) (i : Z) : early (list A) :=
  match fuel with
  | O => inr []
  | S fuel =>
      match rawgeti tb i with
      | LNil => inr []
      | v =>
          match read v with
          | None => bad_field name
          | Some a => let! l := read_elements name read tb fuel (i + 1) in inr (a :: l)
          end
      end
  end.

(** A table of [n] slots has a [nil] among the first [n + 1] elements. *)
Definition read_list {A} (name : string) (read : lua_value → option A) (t : loc) :
    early (list A) :=
  let tb := table_at view t in
  read_elements name read tb (S (length (slots tb))) 1.

Definition a_string (v : lua_value) : option bytes :=
  match v with LString s => Some s | _ => None end.

Definition read_arguments : early (list bytes) :=
  match field "arguments" with
  | LNil => inr []
  | LTable t => read_list "arguments" a_string t
  | _ => bad_field "arguments"
  end.

(** The loop over all the slots of a table, in the order of [lua_next]. *)
Fixpoint read_pairs (l : list (lua_value * lua_value)) : early (list bytes) :=
  match l with
  | [] => inr []
  | (LString k, LString v) :: l =>
      let! rest := read_pairs l in inr ((k ++ lit "=" ++ v) :: rest)
  | _ => bad_field "environment"
  end.

Definition read_environment : early (list bytes) :=
  match field "environment" with
  | LNil => inr []
  | LTable t => read_pairs (slots (table_at view t))
  | _ => bad_field "environment"
  end.

(** ** Descriptors *)
Definition read_stdio (name : string) (fileno : Z) : early Z :=
  match field name with
  | LNil => inr (-1)
  | LString s => if decide (s = lit "share") then inr fileno else bad_field name
  | LUserdata u => handle_fd u name
  | _ => bad_field name
  end.
Definition read_stdin : early Z := read_stdio "stdin" 0.
Definition read_stdout : early Z := read_stdio "stdout" 1.
Definition read_stderr : early Z := read_stdio "stderr" 2.

Fixpoint read_fds (tb : table) (dsts : list Z) : early (list (Z * Z)) :=
  match dsts with
  | [] => inr []
  | i :: dsts =>
      match rawgeti tb i with
      | LNil => read_fds tb dsts
      | LUserdata u =>
          let! fd := handle_fd u "extra_fds" in
          let! rest := read_fds tb dsts in
          inr ((i, fd) :: rest)
      | _ => bad_field "extra_fds"
      end
  end.

Definition read_extra_fds : early (list (Z * Z)) :=
  match field "extra_fds" with
  | LNil => inr []
  | LTable t => read_fds (table_at view t) [3; 4; 5; 6; 7; 8; 9]
  | _ => bad_field "extra_fds"
  end.

(** ** Scheduling *)
Definition policy_of (system : os) (s : bytes) : early Z :=
  if decide (s = lit "other") then inr SCHED_OTHER
  else if decide (s = lit "batch") then
    match system with Linux => inr SCHED_BATCH | FreeBSD => unsupported "scheduler.policy" end
  else if decide (s = lit "idle") then
    match system with Linux => inr SCHED_IDLE | FreeBSD => unsupported "scheduler.policy" end
  else if decide (s = lit "fifo") then inr SCHED_FIFO
  else if decide (s = lit "rr") then inr SCHED_RR
  else bad_field "scheduler.policy".

Definition read_policy (system : os) (t : lua_value) : early (option Z) :=
  match getfield view t "policy" with
  | LNil => inr None
  | LString s => let! p := policy_of system s in inr (Some p)
  | _ => bad_field "scheduler.policy"
  end.

Definition read_reset_on_fork (system : os) (t : lua_value) (policy : option Z) :
    early (option Z) :=
  match getfield view t "reset_on_fork" with
  | LNil => inr policy
  | LBoolean b =>
      match policy with
      | None => bad_field "scheduler.reset_on_fork"
      | Some p =>
          match system with
          | Linux => inr (Some (if b then Z.lor p SCHED_RESET_ON_FORK else p))
          | FreeBSD => unsupported "scheduler.reset_on_fork"
          end
      end
  | _ => bad_field "scheduler.reset_on_fork"
  end.

Definition read_priority (t : lua_value) : early (option Z) :=
  match getfield view t "priority" with
  | LNil => inr None
  | LNumber n => inr (Some (to_int32 (lua_tointeger n)))
  | _ => bad_field "scheduler.priority"
  end.

Definition read_scheduler (system : os) : early (option Z * option Z) :=
  match field "scheduler" with
  | LNil => inr (None, None)
  | LTable t =>
      let! policy := read_policy system (LTable t) in
      let! policy := read_reset_on_fork system (LTable t) policy in
      let! priority := read_priority (LTable t) in
      inr (policy, priority)
  | _ => bad_field "scheduler"
  end.

(** The policy and the priority must fit. *)
Definition check_scheduler (policy priority : option Z) : early (option Z) :=
  match policy with
  | None => inr priority
  | Some p =>
      let p := Z.ldiff p SCHED_RESET_ON_FORK in
      if decide (p = SCHED_OTHER ∨ p = SCHED_BATCH ∨ p = SCHED_IDLE) then
        match priority with
        | Some n => if decide (n ≠ 0) then bad_field "scheduler.priority" else inr (Some 0)
        | None => inr (Some 0)
        end
      else if decide (p = SCHED_FIFO ∨ p = SCHED_RR) then
        match priority with
        | None => bad_field "scheduler.priority"
        | Some n =>
            if decide (n < priority_min p ∨ n > priority_max p)
            then bad_field "scheduler.priority" else inr (Some n)
        end
      else inr priority
  end.

(** ** Session and terminal *)
Definition read_start_new_session : early bool :=
  match field "start_new_session" with
  | LNil => inr false
  | LBoolean b => inr b
  | _ => bad_field "start_new_session"
  end.

Definition read_set_ctty (start_new_session : bool) : early Z :=
  match field "set_ctty" with
  | LNil => inr (-1)
  | LUserdata u => if start_new_session then handle_fd u "set_ctty" else bad_field "set_ctty"
  | _ => bad_field "set_ctty"
  end.

Definition read_process_group : early (option Z) :=
  let! n := optional_integer "process_group" in inr (to_int32 <$> n).

Definition read_foreground (process_group : option Z) (stdin stdout stderr : Z) : early Z :=
  match field "foreground" with
  | LNil => inr (-1)
  | LString s =>
      match process_group with
      | None => bad_field "foreground"
      | Some _ =>
          if decide (s = lit "stdin") then
            if decide (stdin ≠ 0) then bad_field "foreground" else inr 0
          else if decide (s = lit "stdout") then
            if decide (stdout ≠ 1) then bad_field "foreground" else inr 1
          else if decide (s = lit "stderr") then
            if decide (stderr ≠ 2) then bad_field "foreground" else inr 2
          else bad_field "foreground"
      end
  | LUserdata u =>
      match process_group with
      | None => bad_field "foreground"
      | Some _ => handle_fd u "foreground"
      end
  | _ => bad_field "foreground"
  end.

Definition check_terminal (set_ctty foreground : Z) : early () :=
  if decide (set_ctty ≠ -1 ∧ foreground ≠ -1) then bad_field "set_ctty/foreground" else inr ().

(** ** Identity *)
Definition read_id (name : string) : early Z :=
  let! n := optional_integer name in
  inr (match n with Some n => to_uint32 n | None => no_id end).
Definition read_ruid : early Z := read_id "ruid".
Definition read_euid : early Z := read_id "euid".
Definition read_rgid : early Z := read_id "rgid".
Definition read_egid : early Z := read_id "egid".

Definition a_gid (v : lua_value) : option Z :=
  match v with LNumber n => Some (to_uint32 (lua_tointeger n)) | _ => None end.

Definition read_extra_groups : early (option (list Z)) :=
  match field "extra_groups" with
  | LNil => inr None
  | LTable t => let! l := read_list "extra_groups" a_gid t in inr (Some l)
  | _ => bad_field "extra_groups"
  end.

Definition read_umask (system : os) : early (option Z) :=
  let! n := optional_integer "umask" in
  inr (match system with Linux => to_uint32 | FreeBSD => to_uint16 end <$> n).

(** ** Directory and the rest *)
Definition read_working_directory : early (option bytes * Z) :=
  match field "working_directory" with
  | LNil => inr (None, -1)
  | LUserdata u =>
      match userdata_at view u with
      | HandleOf (Some fd) => inr (None, fd)
      | HandleOf None => busy_field "working_directory"
      | PathOf p => inr (Some p, -1)
      | WithMetatable | WithoutMetatable => bad_field "working_directory"
      end
  | _ => bad_field "working_directory"
  end.

Definition read_pdeathsig (system : os) : early (option Z) :=
  let! n := optional_integer "pdeathsig" in
  inr (match system with Linux => to_uint64 | FreeBSD => to_int32 end <$> n).

Fixpoint read_nsenter (names : list string) : early (list (string * Z)) :=
  match names with
  | [] => inr []
  | name :: names =>
      let! fd := optional_fd name in
      let! rest := read_nsenter names in
      inr ((name, fd) :: rest)
  end.

Definition namespaces : list string :=
  ["nsenter_user"; "nsenter_mount"; "nsenter_uts"; "nsenter_ipc"; "nsenter_net"].

Definition read_pd_daemon (cap_sandboxed : bool) : early bool :=
  match field "pd_daemon" with
  | LNil => inr (negb cap_sandboxed)
  | LBoolean b => inr b
  | _ => bad_field "pd_daemon"
  end.

(** * The whole table *)
Definition read_spawn_arguments (system : os) (cap_sandboxed : bool) :
    early spawn_arguments :=
  let! program := read_program in
  let! signal := match system with
                 | Linux => read_signal_on_gcreaper | FreeBSD => inr 0 end in
  let! arguments := read_arguments in
  let! environment := read_environment in
  let! proc_stdin := read_stdin in
  let! proc_stdout := read_stdout in
  let! proc_stderr := read_stderr in
  let! extra_fds := read_extra_fds in
  let! (policy, priority) := read_scheduler system in
  let! priority := check_scheduler policy priority in
  let! start_new_session := read_start_new_session in
  let! set_ctty := read_set_ctty start_new_session in
  let! process_group := read_process_group in
  let! foreground := read_foreground process_group proc_stdin proc_stdout proc_stderr in
  let! _ := check_terminal set_ctty foreground in
  let! ruid := read_ruid in
  let! euid := read_euid in
  let! rgid := read_rgid in
  let! egid := read_egid in
  let! extra_groups := read_extra_groups in
  let! umask := read_umask system in
  let! (working_directory, working_directoryfd) := read_working_directory in
  let! pdeathsig := read_pdeathsig system in
  let! nsenter := match system with
                  | Linux => read_nsenter namespaces | FreeBSD => inr [] end in
  let! pd_daemon := match system with
                    | Linux => inr false | FreeBSD => read_pd_daemon cap_sandboxed end in
  inr (SpawnArguments program signal arguments environment proc_stdin proc_stdout
         proc_stderr extra_fds policy priority start_new_session set_ctty process_group
         foreground ruid euid rgid egid extra_groups umask working_directory
         working_directoryfd pdeathsig nsenter pd_daemon).
End fields.
