(* ===== verification/SpawnChild.v ===== *)
(** The child of [system.spawn]: [system_spawn_child_main] of
    [src/src/linux/system/spawn.cpp] and [src/src/freebsd/system/spawn.cpp],
    from the copy of the parent's process to [exec].

    A process is its table of file descriptors with the calls it has made.
    What POSIX says of [dup2], [pipe], [close], [fcntl], [close_range] and
    [exec] on that table is written out; whether a call is refused for reasons
    outside of the table (permissions, limits, ...) is up to the kernel, the
    class [Kernel]. *)
From S2P Require Import Prelude Errors Lua SpawnArgs.
#[local] Open Scope Z_scope.

(** * Processes *)

(** An open descriptor: the file it refers to and [FD_CLOEXEC]. *)
Record descriptor : Set := Descriptor { file : nat; cloexec : bool }.

Inductive call : Type :=
| ResetSignals
| SchedSetscheduler (policy priority : Z)
| SchedSetparam (priority : Z)
| Setsid
| Setpgid (group : Z)
| Setgroups (groups : list Z)
| Setresgid (rgid egid sgid : Z)
| Setresuid (ruid euid suid : Z)
| Umask (mask : Z)
| Pdeathsig (signal : Z)
| Chdir (path : bytes)
| Fchdir (fd : Z)
| SetControllingTerminal (fd : Z)
| BlockTtou
| Tcsetpgrp (fd group : Z)
| UnblockTtou
| Setns (fd : Z) (name : string)
| Pipe
| Dup2 (src dst : Z)
| Close (fd : Z)
| SetCloexec (fd : Z)
| CloseRange (first : Z)
| Exec (p : program_t) (argv envp : list bytes).

Record process : Type := Process {
  fds : gmap Z descriptor;
  next_file : nat;               (* the file the next pipe makes *)
  calls : list call;             (* those that succeeded, in order *)
}.

Class Kernel := {
  refusal : call → process → option Z;      (* [errno] *)
  egid_of : process → Z;                    (* [getresgid], [getresuid] *)
  euid_of : process → Z;
  getpgrp : process → Z;
}.

Definition EBADF : Z := 9.

(** The lowest descriptor that is not in use. *)
Definition lowest (m : gmap Z descriptor) : Z :=
  match list_find (λ n, m !! n = None) (seqZ 0 (Z.of_nat (S (size m)))) with
  | Some (_, n) => n
  | None => 0
  end.

Definition with_fds (f : gmap Z descriptor → gmap Z descriptor) (p : process) : process :=
  Process (f (fds p)) (next_file p) (calls p).
Definition logged (c : call) (p : process) : process :=
  Process (fds p) (next_file p) (calls p ++ [c]).

(** The two ends a call of [pipe] would give. *)
Definition pipe_ends (p : process) : Z * Z :=
  let r := lowest (fds p) in
  (r, lowest (<[r := Descriptor (next_file p) false]> (fds p))).

(** What a call does to the table. *)
Definition effect (c : call) (p : process) : Z + process :=
  match c with
  | Fchdir fd | SetControllingTerminal fd | Tcsetpgrp fd _ | Setns fd _
  | Exec (ByDescriptor fd) _ _ =>
      if decide (is_Some (fds p !! fd)) then inr p else inl EBADF
  | Pipe =>
      let '(r, w) := pipe_ends p in
      inr (Process (<[w := Descriptor (S (next_file p)) false]>
                     (<[r := Descriptor (next_file p) false]> (fds p)))
             (S (S (next_file p))) (calls p))
  | Dup2 src dst =>
      match fds p !! src with
      | None => inl EBADF
      | Some d =>
          inr (if decide (src = dst) then p
               else with_fds <[dst := Descriptor (file d) false]> p)
      end
  | Close fd => inr (with_fds (delete fd) p)
  | SetCloexec fd =>
      match fds p !! fd with
      | None => inl EBADF
      | Some d => inr (with_fds <[fd := Descriptor (file d) true]> p)
      end
  | CloseRange first => inr (with_fds (filter (λ x, x.1 < first)) p)
  | _ => inr p
  end.

Section child.
Context `{Kernel}.

Definition perform (c : call) (p : process) : Z + process :=
  match refusal c p with
  | Some e => inl e
  | None =>
      match effect c p with
      | inl e => inl e
      | inr p => inr (logged c p)
      end
  end.

(** * The child's state *)
Record child : Type := Child {
  proc : process;
  args : spawn_arguments;
  closeonexecpipe : Z;
  programfd : Z;
  sources : list (Z * Z);        (* [extra_fds], destination first *)
  idx : Z;                       (* of [nextfd] *)
}.

Definition with_proc (p : process) (st : child) : child :=
  Child p (args st) (closeonexecpipe st) (programfd st) (sources st) (idx st).
Definition with_pipe (fd : Z) (st : child) : child :=
  Child (proc st) (args st) fd (programfd st) (sources st) (idx st).
Definition with_programfd (fd : Z) (st : child) : child :=
  Child (proc st) (args st) (closeonexecpipe st) fd (sources st) (idx st).
Definition with_sources (l : list (Z * Z)) (st : child) : child :=
  Child (proc st) (args st) (closeonexecpipe st) (programfd st) l (idx st).
Definition with_idx (i : Z) (st : child) : child :=
  Child (proc st) (args st) (closeonexecpipe st) (programfd st) (sources st) i.

(** How the child ends: as the program, with the file a descriptor named, or
    with an [errno] written to the descriptor of the pipe, if that is open. *)
Inductive ending : Type :=
| Image (program_file : option nat) (inherited : gmap Z nat)
| Reported (written_to : option nat) (errno : Z)
| Broken.                         (* a failed [assert], an empty [optional] *)

(** A part of the function: it ends the child or goes on. *)
Definition phase : Type := child → (process * ending) + child.
Definition then_do (a b : phase) : phase :=
  λ st, match a st with inl e => inl e | inr st => b st end.
Notation "a ;; b" := (then_do a b) (at level 100, right associativity).
Definition skip : phase := inr.

Definition report (fd errno : Z) (st : child) : process * ending :=
  (proc st, Reported (file <$> fds (proc st) !! fd) errno).

(** [if (call == -1) { reply.code = errno; write(fd, ...); return 1; }] *)
Definition call_or_report (fd : child → Z) (c : call) : phase := λ st,
  match perform c (proc st) with
  | inl e => inl (report (fd st) e st)
  | inr p => inr (with_proc p st)
  end.
Definition attempt : call → phase := call_or_report closeonexecpipe.
Definition attempt10 : call → phase := call_or_report (λ _, 10).

(** A call whose result is ignored. *)
Definition ignoring (c : call) : phase := λ st,
  match perform c (proc st) with
  | inl _ => inr st
  | inr p => inr (with_proc p st)
  end.

(** [close], whose result is ignored: both systems release the descriptor
    whatever the call returns. *)
Definition close_fd (fd : Z) : phase := λ st,
  inr (with_proc (logged (Close fd) (with_fds (delete fd) (proc st))) st).

Definition whenever (b : bool) (a : phase) : phase := if b then a else skip.
Definition given {A} (x : option A) (a : A → phase) : phase :=
  match x with Some x => a x | None => skip end.

(** * Calls that leave the table alone *)
Definition set_scheduling : phase := λ st,
  match scheduler_policy (args st), scheduler_priority (args st) with
  | Some policy, Some priority => attempt (SchedSetscheduler policy priority) st
  | Some policy, None => inl (proc st, Broken)
  | None, Some priority => attempt (SchedSetparam priority) st
  | None, None => skip st
  end.

Definition set_session : phase := λ st,
  (whenever (start_new_session (args st)) (attempt Setsid);;
   given (process_group (args st)) (λ g, attempt (Setpgid g));;
   given (extra_groups (args st)) (λ l, attempt (Setgroups l))) st.

Definition set_gids : phase := λ st,
  let a := args st in
  if decide (rgid a ≠ no_id ∨ egid a ≠ no_id) then
    let e := if decide (egid a = no_id) then egid_of (proc st) else egid a in
    attempt (Setresgid (rgid a) e e) st
  else skip st.

Definition set_uids : phase := λ st,
  let a := args st in
  if decide (ruid a ≠ no_id ∨ euid a ≠ no_id) then
    let e := if decide (euid a = no_id) then euid_of (proc st) else euid a in
    attempt (Setresuid (ruid a) e e) st
  else skip st.

Definition set_surroundings : phase := λ st,
  (given (umask (args st)) (λ m, ignoring (Umask m));;
   given (pdeathsig (args st)) (λ s, attempt (Pdeathsig s));;
   given (working_directory (args st)) (λ d, attempt (Chdir d));;
   whenever (bool_decide (working_directoryfd (args st) ≠ -1))
     (attempt (Fchdir (working_directoryfd (args st))))) st.

Definition set_terminal : phase := λ st,
  let a := args st in
  if decide (set_ctty a ≠ -1) then attempt (SetControllingTerminal (set_ctty a)) st
  else if decide (foreground a ≠ -1) then
    match process_group a with
    | None => inl (proc st, Broken)          (* [assert(args->process_group)] *)
    | Some g =>
        let pgrp := if decide (g ≠ 0) then g else getpgrp (proc st) in
        (ignoring BlockTtou;; attempt (Tcsetpgrp (foreground a) pgrp);;
         ignoring UnblockTtou) st
    end
  else skip st.

Fixpoint enter_namespaces (l : list (string * Z)) : phase :=
  match l with
  | [] => skip
  | (name, fd) :: l =>
      (whenever (bool_decide (fd ≠ -1)) (attempt (Setns fd name));; enter_namespaces l)
  end.

(** * Standard descriptors *)

(** [-1] makes a closed pipe: of its ends the child keeps one. *)
Definition standard (end_of : Z * Z → Z) (source fileno : Z) : phase := λ st,
  if decide (source = -1) then
    let ends := pipe_ends (proc st) in
    (attempt Pipe;; attempt (Dup2 (end_of ends) fileno)) st
  else if decide (source = fileno) then skip st
  else attempt (Dup2 source fileno) st.

Definition standard_input : phase := λ st, standard fst (proc_stdin (args st)) 0 st.
Definition standard_output : phase := λ st, standard snd (proc_stdout (args st)) 1 st.
Definition standard_error : phase := λ st, standard snd (proc_stderr (args st)) 2 st.

(** * Descriptors 3 to 9 *)

(** [nextfd]: the next number from 10 on that no source has. *)
Fixpoint nextfd_from (fuel : nat) (i : Z) (st : child) : option Z :=
  match fuel with
  | O => None
  | S fuel =>
      if decide (i = closeonexecpipe st) then nextfd_from fuel (i + 1) st
      else if decide (i = programfd st) then nextfd_from fuel (i + 1) st
      else if decide (i ∈ (sources st).*2) then nextfd_from fuel (i + 1) st
      else Some i
  end.
Definition nextfd (k : Z → phase) : phase := λ st,
  match nextfd_from (length (sources st) + 3) (idx st) st with
  | None => inl (proc st, Broken)
  | Some i => k i (with_idx (i + 1) st)
  end.

Definition relocate_pipe : phase := λ st,
  if decide (closeonexecpipe st < 10) then
    nextfd (λ dst, attempt (Dup2 (closeonexecpipe st) dst);; λ st, inr (with_pipe dst st)) st
  else skip st.

Definition relocate_program : phase := λ st,
  if decide (programfd st ≠ -1 ∧ programfd st < 10) then
    nextfd (λ dst, attempt (Dup2 (programfd st) dst);; λ st, inr (with_programfd dst st)) st
  else skip st.

(** The loop over [extra_fds]; [seen] is what it has passed. *)
Fixpoint relocate_sources (seen todo : list (Z * Z)) : phase :=
  match todo with
  | [] => skip
  | (dst, src) :: todo =>
      if decide (src > 9) then relocate_sources (seen ++ [(dst, src)]) todo
      else
        nextfd (λ src2, attempt (Dup2 src src2);;
          (λ st, inr (with_sources (seen ++ (dst, src2) :: todo) st));;
          relocate_sources (seen ++ [(dst, src2)]) todo)
  end.

Definition source_of (dst : Z) (l : list (Z * Z)) : option Z :=
  snd <$> (snd <$> list_find (λ x, x.1 = dst) l).

Fixpoint place_sources (dsts : list Z) : phase :=
  match dsts with
  | [] => skip
  | i :: dsts =>
      ((λ st, match source_of i (sources st) with
              | Some src => attempt (Dup2 src i) st
              | None => close_fd i st
              end);;
       place_sources dsts)
  end.

(** * Descriptors from 10 on, and [exec] *)
Definition settle_pipe : phase := λ st,
  (whenever (bool_decide (closeonexecpipe st ≠ 10)) (attempt (Dup2 (closeonexecpipe st) 10));;
   attempt10 (SetCloexec 10)) st.

Definition settle_program : phase := λ st,
  if decide (programfd st ≠ -1) then
    (whenever (bool_decide (programfd st ≠ 11)) (attempt10 (Dup2 (programfd st) 11));;
     attempt10 (SetCloexec 11)) st
  else skip st.

Definition close_others : phase := λ st,
  attempt10 (CloseRange (if decide (programfd st = -1) then 11 else 12)) st.

(** [fexecve(args->programfd, ..)], [execvpe] or [execve]. *)
Definition image_of (st : child) : program_t :=
  if decide (programfd st ≠ -1) then ByDescriptor (programfd st) else program (args st).
Definition execute (st : child) : process * ending :=
  let p := image_of st in
  match perform (Exec p (argv (args st)) (envp (args st))) (proc st) with
  | inl e => report 10 e st
  | inr proc' =>
      (proc', Image (match p with ByDescriptor fd => file <$> fds proc' !! fd | _ => None end)
                (file <$> filter (λ x, cloexec x.2 = false) (fds proc')))
  end.

Definition preparation : phase := λ st,
  (ignoring ResetSignals;; set_scheduling;; set_session;; set_gids;; set_uids;;
   set_surroundings;; set_terminal;; enter_namespaces (nsenter (args st))) st.

Definition rearrangement : phase := λ st,
  (standard_input;; standard_output;; standard_error;;
   relocate_pipe;; relocate_program;; relocate_sources [] (sources st)) st.

Definition settlement : phase :=
  (place_sources [3; 4; 5; 6; 7; 8; 9];; settle_pipe;; settle_program;; close_others).

Definition system_spawn_child_main (st : child) : process * ending :=
  match (preparation;; rearrangement;; settlement) st with
  | inl e => e
  | inr st => execute st
  end.

(** The child of a process: it has a copy of the parent's table. *)
Definition new_child (a : spawn_arguments) (pipe : Z) (parent : process) : child :=
  Child parent a pipe (match program a with ByDescriptor fd => fd | _ => -1 end)
    (extra_fds a) 10.
End child.

(** FreeBSD's child has the same parts; a process descriptor stands for a pidfd,
    and the list of namespaces is empty there. *)
Module FreeBSD.
Section child.
Context `{Kernel}.
Definition preparation : phase := SpawnChild.preparation.
Definition rearrangement : phase := SpawnChild.rearrangement.
Definition settlement : phase := SpawnChild.settlement.
Definition execute : child → process * ending := SpawnChild.execute.
End child.
End FreeBSD.
