(* ===== verification/SpawnSpec.v ===== *)
(** The child of [system.spawn], phase by phase: a triple says that a phase
    either goes on with what its postcondition states or ends the child with a
    report that reaches the pipe of the parent. *)
From S2P Require Import Prelude Errors Lua SpawnArgs SpawnChild.
#[local] Open Scope Z_scope.

Lemma find_some {A} (P : A → Prop) `{∀ x, Decision (P x)} l i x :
  list_find P l = Some (i, x) → x ∈ l ∧ P x.
Proof.
  intros Hf. apply list_find_Some in Hf as (Hx & HP & _).
  split; [by eapply list_elem_of_lookup_2|done].
Qed.

(** * The lowest free descriptor *)
Lemma lowest_free (m : gmap Z descriptor) : m !! lowest m = None ∧ 0 ≤ lowest m.
Proof.
  unfold lowest. destruct (list_find _ _) as [[i n]|] eqn:Hf.
  - apply find_some in Hf as [Hin Hn]. split; [done|].
    apply elem_of_seqZ in Hin. lia.
  - exfalso. rewrite list_find_None, Forall_forall in Hf.
    assert (list_to_set (seqZ 0 (Z.of_nat (S (size m)))) ⊆ dom m) as Hsub.
    { intros n Hn. rewrite elem_of_list_to_set in Hn. apply elem_of_dom.
      destruct (m !! n) eqn:E; [by eexists|]. by destruct (Hf n Hn). }
    apply subseteq_size in Hsub. rewrite size_dom in Hsub.
    rewrite size_list_to_set in Hsub by apply NoDup_seqZ.
    rewrite length_seqZ in Hsub. lia.
Qed.

(** The arguments the child may count on. *)
Record args_ok (a : spawn_arguments) : Prop := {
  policy_with_priority : is_Some (scheduler_policy a) → is_Some (scheduler_priority a);
  foreground_with_group : foreground a ≠ -1 → is_Some (process_group a);
}.

Create HintDb quiet.

Section spec.
Context `{Kernel}.

(** * Triples *)
Section triples.
Variable pipe_file : nat.

Definition reported (e : process * ending) : Prop := ∃ n, e.2 = Reported (Some pipe_file) n.

Definition triple (P : child → Prop) (a : phase) (Q : child → Prop) : Prop :=
  ∀ st, P st → match a st with inl e => reported e | inr st' => Q st' end.

Lemma triple_seq P Q R a b : triple P a Q → triple Q b R → triple P (then_do a b) R.
Proof.
  intros Ha Hb st HP. specialize (Ha st HP). unfold then_do.
  destruct (a st) as [e|st']; [done|]. by apply Hb.
Qed.

Lemma triple_skip P : triple P skip P.
Proof. by intros st HP. Qed.

Lemma triple_weaken (P P' Q Q' : child → Prop) a :
  triple P' a Q' → (∀ st, P st → P' st) → (∀ st, Q' st → Q st) → triple P a Q.
Proof.
  intros Ha HP HQ st Hst. specialize (Ha st (HP st Hst)). destruct (a st); auto.
Qed.

Lemma triple_whenever (b : bool) P Q a :
  (b = true → triple P a Q) → (b = false → ∀ st, P st → Q st) →
  triple P (whenever b a) Q.
Proof.
  intros Ha Hs. destruct b; simpl; [by apply Ha|]. intros st HP. by apply Hs.
Qed.

Lemma triple_given {A} (x : option A) P Q a :
  (∀ y, x = Some y → triple P (a y) Q) → (x = None → ∀ st, P st → Q st) →
  triple P (given x a) Q.
Proof.
  intros Ha Hs. destruct x; simpl; [by apply Ha|]. intros st HP. by apply Hs.
Qed.

(** ** Calls *)
(** The pipe is open at a descriptor. *)
Definition pipe_at (fd : Z) (st : child) : Prop :=
  file <$> fds (proc st) !! fd = Some pipe_file.

Lemma triple_call P Q fd c :
  (∀ st, P st → pipe_at (fd st) st) →
  (∀ st p, P st → effect c (proc st) = inr p → Q (with_proc (logged c p) st)) →
  triple P (call_or_report fd c) Q.
Proof.
  intros Hp Hq st HP. unfold call_or_report, perform, report.
  destruct (refusal c (proc st)); [exists z; cbn; by rewrite (Hp st HP)|].
  destruct (effect c (proc st)) as [z|p] eqn:He; [exists z; cbn; by rewrite (Hp st HP)|].
  by apply (Hq st p).
Qed.

Lemma triple_ignoring P Q c :
  (∀ st, P st → Q st) →
  (∀ st p, P st → effect c (proc st) = inr p → Q (with_proc (logged c p) st)) →
  triple P (ignoring c) Q.
Proof.
  intros Hs Hq st HP. unfold ignoring, perform.
  destruct (refusal c (proc st)); [by apply Hs|].
  destruct (effect c (proc st)) as [z|p] eqn:He; [by apply Hs|]. by apply (Hq st p).
Qed.
End triples.

(** * Calls that leave the table alone *)

(** What the phases before the rearrangement keep: all but the log. *)
Record untouched (st0 st : child) : Prop := {
  untouched_fds : fds (proc st) = fds (proc st0);
  untouched_next : next_file (proc st) = next_file (proc st0);
  untouched_args : args st = args st0;
  untouched_pipe : closeonexecpipe st = closeonexecpipe st0;
  untouched_program : programfd st = programfd st0;
  untouched_sources : sources st = sources st0;
  untouched_idx : idx st = idx st0;
}.

(** The calls that do. *)
Definition quiet (c : call) : Prop :=
  match c with
  | Pipe | Dup2 _ _ | Close _ | SetCloexec _ | CloseRange _ => False
  | _ => True
  end.

Lemma quiet_effect c p p' : quiet c → effect c p = inr p' → p' = p.
Proof.
  intros Hq He. destruct c as [| | | | | | | | | | | | | | | | | | | | | |[]]; try done; simpl in He;
    repeat case_decide; congruence.
Qed.

Section quiet.
Variables (pipe_file : nat) (st0 : child).
Hypothesis Hpipe : pipe_at pipe_file (closeonexecpipe st0) st0.

#[local] Abbreviation kept := (untouched st0).
#[local] Abbreviation quietly a := (triple pipe_file kept a kept).

Lemma kept_logged c st : kept st → kept (with_proc (logged c (proc st)) st).
Proof. by intros [? ? ? ? ? ? ?]. Qed.

Lemma kept_pipe st : kept st → pipe_at pipe_file (closeonexecpipe st) st.
Proof. intros K. unfold pipe_at. by rewrite (untouched_fds _ _ K), (untouched_pipe _ _ K). Qed.

Lemma quiet_attempt c : quiet c → quietly (attempt c).
Proof.
  intros Hq. apply triple_call; [apply kept_pipe|].
  intros st p K He. rewrite (quiet_effect _ _ _ Hq He). by apply kept_logged.
Qed.

Lemma quiet_ignoring c : quiet c → quietly (ignoring c).
Proof.
  intros Hq. apply triple_ignoring; [done|].
  intros st p K He. rewrite (quiet_effect _ _ _ Hq He). by apply kept_logged.
Qed.

Lemma quiet_whenever b a : quietly a → quietly (whenever b a).
Proof. intros Ha. by apply triple_whenever. Qed.
Lemma quiet_given {A} (x : option A) a : (∀ y, quietly (a y)) → quietly (given x a).
Proof. intros Ha. by apply triple_given. Qed.
Lemma quiet_seq a b : quietly a → quietly b → quietly (then_do a b).
Proof. apply triple_seq. Qed.

Lemma quiet_at (a : phase) st :
  quietly a → kept st → match a st with inl e => reported pipe_file e | inr st' => kept st' end.
Proof. intros Ha K. by apply Ha. Qed.

#[local] Hint Resolve quiet_attempt quiet_ignoring quiet_whenever quiet_given quiet_seq
  triple_skip : quiet.
#[local] Hint Extern 1 (quiet _) => exact I : quiet.

Ltac quiet := intros; repeat apply quiet_seq; eauto with quiet.

Lemma quiet_scheduling : args_ok (args st0) → quietly set_scheduling.
Proof.
  intros Hok st K. unfold set_scheduling. rewrite (untouched_args _ _ K).
  pose proof (policy_with_priority _ Hok) as Hp.
  destruct (scheduler_policy (args st0)), (scheduler_priority (args st0));
    try (apply quiet_attempt; done); [|done].
  destruct (Hp ltac:(by eexists)) as [? [=]].
Qed.

Lemma quiet_session : quietly set_session.
Proof. intros st K. unfold set_session. apply quiet_at; by quiet. Qed.

Lemma quiet_ids : quietly set_gids ∧ quietly set_uids.
Proof.
  split; intros st K; [unfold set_gids|unfold set_uids]; cbn zeta; case_decide; try done;
    by apply quiet_attempt.
Qed.

Lemma quiet_surroundings : quietly set_surroundings.
Proof. intros st K. unfold set_surroundings. apply quiet_at; by quiet. Qed.

Lemma quiet_terminal : args_ok (args st0) → quietly set_terminal.
Proof.
  intros Hok st K. unfold set_terminal. rewrite (untouched_args _ _ K). cbn zeta.
  case_decide; [by apply quiet_attempt|]. case_decide as Hf; [|done].
  destruct (foreground_with_group _ Hok Hf) as [g ->].
  assert (∀ pgrp, quietly (then_do (ignoring BlockTtou)
    (then_do (attempt (Tcsetpgrp (foreground (args st0)) pgrp)) (ignoring UnblockTtou)))) as Hq
    by quiet.
  by apply Hq.
Qed.

Lemma quiet_namespaces l : quietly (enter_namespaces l).
Proof. induction l as [|[name fd] l IH]; simpl; by quiet. Qed.

Lemma preparation_spec : args_ok (args st0) → quietly preparation.
Proof.
  intros Hok. destruct quiet_ids.
  pose proof (quiet_scheduling Hok). pose proof (quiet_terminal Hok).
  pose proof quiet_session. pose proof quiet_surroundings.
  intros st K. unfold preparation. pose proof (quiet_namespaces (nsenter (args st))).
  apply quiet_at; [|done]. repeat apply quiet_seq; auto. by quiet.
Qed.
End quiet.

(** * [nextfd] *)

(** The numbers [nextfd] avoids. *)
Definition blocked (st : child) : list Z :=
  closeonexecpipe st :: programfd st :: (sources st).*2.

Lemma nextfd_from_spec fuel i st j :
  nextfd_from fuel i st = Some j → i ≤ j ∧ j ∉ blocked st.
Proof.
  revert i. induction fuel as [|fuel IH]; intros i; simpl; [done|].
  repeat case_decide; try (intros Hj; destruct (IH _ Hj); split; [lia|done]).
  intros [= <-]. split; [lia|]. unfold blocked. set_solver.
Qed.

Lemma nextfd_from_none fuel i st :
  nextfd_from fuel i st = None → ∀ j, i ≤ j < i + Z.of_nat fuel → j ∈ blocked st.
Proof.
  revert i. induction fuel as [|fuel IH]; intros i; simpl; [lia|].
  intros Hn j Hj. destruct (decide (j = i)) as [->|Hne].
  - unfold blocked. repeat case_decide; subst; try done; set_solver.
  - repeat case_decide; try done; apply (IH _ Hn j); lia.
Qed.

(** [nextfd] ends: there are more numbers than sources. *)
Lemma nextfd_total st :
  ∃ j, nextfd_from (length (sources st) + 3) (idx st) st = Some j ∧
    idx st ≤ j ∧ j ∉ blocked st.
Proof.
  destruct (nextfd_from _ _ st) as [j|] eqn:E.
  { exists j. split; [done|]. by eapply nextfd_from_spec. }
  pose proof (nextfd_from_none _ _ _ E) as Hall. exfalso.
  assert (seqZ (idx st) (Z.of_nat (length (sources st) + 3)) ⊆+ blocked st) as Hsub.
  { apply NoDup_submseteq; [apply NoDup_seqZ|]. intros j Hj%elem_of_seqZ. apply Hall. lia. }
  apply submseteq_length in Hsub. rewrite length_seqZ in Hsub. unfold blocked in Hsub.
  simpl in Hsub. rewrite length_fmap in Hsub. lia.
Qed.

(** * What the child starts from *)

(** A descriptor given for a standard one: none, the same, or another. *)
Definition source_ok (T : gmap Z descriptor) (source fileno : Z) : Prop :=
  source = -1 ∨ source = fileno ∨ (3 ≤ source ∧ is_Some (T !! source)).

(** The parent has its standard descriptors, the handles given are open, and the
    pipe is none of the standard descriptors. *)
Record ready (pipe_file : nat) (a : spawn_arguments) (pipe : Z) (T : gmap Z descriptor) :
    Prop := {
  ready_nonneg n : is_Some (T !! n) → 0 ≤ n;
  ready_standard n : 0 ≤ n < 3 → ∃ f, T !! n = Some (Descriptor f false);
  ready_pipe : 3 ≤ pipe ∧ file <$> T !! pipe = Some pipe_file;
  ready_stdin : source_ok T (proc_stdin a) 0;
  ready_stdout : source_ok T (proc_stdout a) 1;
  ready_stderr : source_ok T (proc_stderr a) 2;
  ready_extra dst src : (dst, src) ∈ extra_fds a → 3 ≤ src ∧ is_Some (T !! src);
  ready_program fd : program a = ByDescriptor fd → 3 ≤ fd ∧ is_Some (T !! fd);
}.

(** The file a standard descriptor will refer to, and the files made so far. *)
Definition standard_file (end_of : nat * nat → nat) (T : gmap Z descriptor)
    (source : Z) (nf : nat) : option nat * nat :=
  if decide (source = -1) then (Some (end_of (nf, S nf)), S (S nf))
  else (file <$> T !! source, nf).

Section rearrangement.
Variables (pipe_file : nat) (a : spawn_arguments) (pipe : Z) (parent : process).
#[local] Abbreviation T := (fds parent).
Hypothesis Hready : ready pipe_file a pipe T.

#[local] Abbreviation prog := (programfd (new_child a pipe parent)).

Record stage (don : list (option nat)) (nf : nat) (st : child) : Prop := {
  stage_args : args st = a;
  stage_pipe : closeonexecpipe st = pipe;
  stage_program : programfd st = prog;
  stage_sources : sources st = extra_fds a;
  stage_idx : idx st = 10;
  stage_high n d : 3 ≤ n → T !! n = Some d → fds (proc st) !! n = Some d;
  stage_nonneg n : is_Some (fds (proc st) !! n) → 0 ≤ n;
  stage_low n : 0 ≤ n < 3 → ∃ f, fds (proc st) !! n = Some (Descriptor f false);
  stage_next : next_file (proc st) = nf;
  stage_done (i : nat) f : don !! i = Some f → file <$> fds (proc st) !! Z.of_nat i = f;
  stage_todo n : length don ≤ n < 3 → fds (proc st) !! n = T !! n;
  stage_length : (length don ≤ 3)%nat;
}.

Lemma stage_start : stage [] (next_file parent) (new_child a pipe parent).
Proof.
  split; simpl; try done.
  - apply (ready_nonneg _ _ _ _ Hready).
  - apply (ready_standard _ _ _ _ Hready).
  - lia.
Qed.

Lemma stage_kept st : untouched (new_child a pipe parent) st → stage [] (next_file parent) st.
Proof.
  intros [E1 E2 E3 E4 E5 E6 E7]. pose proof stage_start as [].
  split; try congruence; intros; rewrite ?E1 in *; auto.
Qed.

Lemma stage_pipe_at don nf st : stage don nf st → pipe_at pipe_file (closeonexecpipe st) st.
Proof.
  intros S. destruct (ready_pipe _ _ _ _ Hready) as [H3 Hf]. unfold pipe_at.
  rewrite (stage_pipe _ _ _ S). destruct (T !! pipe) as [d|] eqn:E; [|done].
  by rewrite (stage_high _ _ _ S pipe d H3 E).
Qed.

(** The ends of a pipe are new, and not standard descriptors. *)
Lemma pipe_ends_new don nf st :
  stage don nf st →
  let '(r, w) := pipe_ends (proc st) in
  3 ≤ r ∧ 3 ≤ w ∧ r ≠ w ∧ fds (proc st) !! r = None ∧ fds (proc st) !! w = None.
Proof.
  intros S. unfold pipe_ends. set (r := lowest (fds (proc st))).
  set (m := <[r := _]> (fds (proc st))).
  destruct (lowest_free (fds (proc st))) as [Hr Hr0]. fold r in Hr, Hr0.
  destruct (lowest_free m) as [Hw Hw0]. set (w := lowest m) in *.
  assert (w ≠ r) as Hne by (intros ->; unfold m in Hw; by rewrite lookup_insert_eq in Hw).
  unfold m in Hw. rewrite lookup_insert_ne in Hw by done.
  assert (∀ n, 0 ≤ n → fds (proc st) !! n = None → 3 ≤ n) as Hhigh.
  { intros n Hn0 Hn. destruct (decide (n < 3)); [|lia].
    destruct (stage_low _ _ _ S n ltac:(lia)) as [f Hf]. congruence. }
  split_and!; auto.
Qed.

(** A standard descriptor is set. *)
Lemma stage_insert don nf st d src :
  stage don nf st → (length don < 3)%nat → fds (proc st) !! src = Some d →
  src ≠ Z.of_nat (length don) →
  ∀ c p, effect (Dup2 src (Z.of_nat (length don))) (proc st) = inr p →
  stage (don ++ [Some (file d)]) nf (with_proc (logged c p) st).
Proof.
  intros S Hlen Hsrc Hne c p He. simpl in He. rewrite Hsrc, decide_False in He by done.
  injection He as <-. destruct S as [S1 S2 S3 S4 S5 S6 S7 S8 S9 S10 S11 S12].
  split; simpl; try done.
  - intros n d' Hn Hd. rewrite lookup_insert_ne by lia. by apply S6.
  - intros n. rewrite lookup_insert. case_decide; [lia|]. apply S7.
  - intros n Hn. rewrite lookup_insert. case_decide; [by eexists|]. by apply S8.
  - intros i f Hi. apply lookup_app_Some in Hi as [Hi|[Hi Hf]].
    + pose proof (lookup_lt_Some _ _ _ Hi). rewrite lookup_insert_ne by lia. by apply S10.
    + pose proof (lookup_lt_Some _ _ _ Hf) as Hlt. simpl in Hlt.
      replace (i - length don)%nat with 0%nat in Hf by lia. simplify_eq/=.
      replace i with (length don) by lia. by rewrite lookup_insert_eq.
  - intros n Hn. rewrite length_app in Hn. simpl in Hn.
    rewrite lookup_insert_ne by lia. apply S11. lia.
  - rewrite length_app. simpl. lia.
Qed.
(** After [pipe]. *)
Lemma stage_piped don nf st p :
  stage don nf st → effect Pipe (proc st) = inr p →
  let st' := with_proc (logged Pipe p) st in let '(r, w) := pipe_ends (proc st) in
  stage don (S (S nf)) st' ∧ 3 ≤ r ∧ 3 ≤ w ∧
  fds (proc st') !! r = Some (Descriptor nf false) ∧
  fds (proc st') !! w = Some (Descriptor (S nf) false).
Proof.
  intros S He. pose proof (pipe_ends_new _ _ _ S) as Hends. cbn [effect] in He.
  destruct (pipe_ends (proc st)) as [r w]. destruct Hends as (Hr & Hw & Hne & Hr' & Hw').
  injection He as <-. rewrite (stage_next _ _ _ S).
  destruct S as [S1 S2 S3 S4 S5 S6 S7 S8 S9 S10 S11 S12]. simpl.
  assert (∀ n, 0 ≤ n < 3 → <[w := Descriptor (Datatypes.S nf) false]>
    (<[r := Descriptor nf false]> (fds (proc st))) !! n = fds (proc st) !! n) as Hlow
    by (intros; by rewrite !lookup_insert_ne by lia).
  split_and!; try done; simpl.
  - split; simpl; try done.
    + intros n d Hn Hd. specialize (S6 n d Hn Hd).
      rewrite !lookup_insert_ne; [done|intros ->; by rewrite Hr' in S6|intros ->; by rewrite Hw' in S6].
    + intros n. rewrite !lookup_insert. repeat case_decide; [lia|lia|apply S7].
    + intros n Hn. rewrite Hlow by done. by apply S8.
    + intros i f Hi. pose proof (lookup_lt_Some _ _ _ Hi).
      rewrite Hlow by lia. by apply S10.
    + intros n Hn. rewrite Hlow by lia. by apply S11.
  - by rewrite lookup_insert_ne, lookup_insert_eq by done.
  - by rewrite lookup_insert_eq.
Qed.

Lemma standard_spec (write : bool) don nf source :
  (length don < 3)%nat → source_ok T source (Z.of_nat (length don)) →
  triple pipe_file (stage don nf)
    (standard (if write then snd else fst) source (Z.of_nat (length don)))
    (let '(f, nf') := standard_file (if write then snd else fst) T source nf in
     stage (don ++ [f]) nf').
Proof.
  intros Hlen Hok st S. unfold standard, standard_file. case_decide as Hs.
  - set (ends := pipe_ends (proc st)).
    apply (triple_seq pipe_file (λ s, s = st)
      (λ s, stage don (Datatypes.S (Datatypes.S nf)) s ∧
         3 ≤ (if write then snd else fst) ends ∧
         fds (proc s) !! (if write then snd else fst) ends =
           Some (Descriptor ((if write then snd else fst) (nf, Datatypes.S nf)) false)));
      [| |done].
    + apply triple_call; [intros ? ->; by eapply stage_pipe_at|].
      intros s p -> He. pose proof (stage_piped _ _ _ _ S He) as Hp. fold ends in Hp.
      destruct ends as [r w]. destruct Hp as (? & ? & ? & ? & ?). by destruct write.
    + apply triple_call; [intros ? [? _]; by eapply stage_pipe_at|].
      intros s p (S' & Hge & Hd) He.
      pose proof (stage_insert _ _ _ _ _ S' Hlen Hd ltac:(lia)
        (Dup2 ((if write then snd else fst) ends) (Z.of_nat (length don))) p He) as Hi.
      exact Hi.
  - destruct Hok as [?|[Hsame|[Hge [d Hd]]]]; [done| |].
    + rewrite decide_True by done. simpl.
      destruct S as [S1 S2 S3 S4 S5 S6 S7 S8 S9 S10 S11 S12]. split; try done.
      * intros i f Hi. apply lookup_app_Some in Hi as [Hi|[Hi Hf]]; [by apply S10|].
        pose proof (lookup_lt_Some _ _ _ Hf) as Hlt. simpl in Hlt.
        replace (i - length don)%nat with 0%nat in Hf by lia. simplify_eq/=.
        replace i with (length don) by lia. by rewrite S11 by lia.
      * intros n Hn. rewrite length_app in Hn. apply S11. simpl in Hn. lia.
      * rewrite length_app. simpl. lia.
    + rewrite decide_False by lia.
      assert (triple pipe_file (λ s, s = st) (attempt (Dup2 source (Z.of_nat (length don))))
        (stage (don ++ [file <$> T !! source]) nf)) as Ht; [|by apply Ht].
      apply triple_call; [intros ? ->; by eapply stage_pipe_at|].
      intros s p -> He. rewrite Hd.
      apply (stage_insert don nf st d source S Hlen
        (stage_high _ _ _ S _ _ Hge Hd) ltac:(lia) _ _ He).
Qed.
(** ** Sources out of the way *)

(** The standard descriptors are set; the pipe, the program and the sources
    refer to the files they referred to in the parent, whatever their numbers
    are now. *)
Definition same_file (m : gmap Z descriptor) (fd fd0 : Z) : Prop :=
  is_Some (m !! fd) ∧ file <$> m !! fd = file <$> T !! fd0.

Record moved (files : list (option nat)) (st : child) : Prop := {
  moved_args : args st = a;
  moved_nonneg n : is_Some (fds (proc st) !! n) → 0 ≤ n;
  moved_low n : 0 ≤ n < 3 → ∃ f, fds (proc st) !! n = Some (Descriptor f false);
  moved_files (i : nat) f : files !! i = Some f → file <$> fds (proc st) !! Z.of_nat i = f;
  moved_length : length files = 3%nat;
  moved_pipe : 3 ≤ closeonexecpipe st ∧ pipe_at pipe_file (closeonexecpipe st) st;
  moved_program :
    (programfd st = -1 ∧ prog = -1) ∨
    (3 ≤ programfd st ∧ 3 ≤ prog ∧ same_file (fds (proc st)) (programfd st) prog ∧
       (programfd st = prog ∨ prog < 10));
  moved_sources :
    Forall2 (λ x y, x.1 = y.1 ∧ 3 ≤ y.2 ∧ same_file (fds (proc st)) y.2 x.2)
      (extra_fds a) (sources st);
  moved_idx : 10 ≤ idx st;
}.

Lemma moved_start f0 f1 f2 nf st : stage [f0; f1; f2] nf st → moved [f0; f1; f2] st.
Proof.
  intros S. pose proof (stage_pipe_at _ _ _ S).
  assert (∀ fd, 3 ≤ fd → is_Some (T !! fd) → same_file (fds (proc st)) fd fd) as Hsame.
  { intros fd H3 [d Hd]. unfold same_file. rewrite (stage_high _ _ _ S fd d H3 Hd), Hd. by split. }
  split.
  - apply S.
  - apply S.
  - apply S.
  - apply S.
  - done.
  - split; [rewrite (stage_pipe _ _ _ S); apply Hready|done].
  - rewrite (stage_program _ _ _ S). simpl. destruct (program a) eqn:Ep; [by left..|right].
    destruct (ready_program _ _ _ _ Hready _ Ep). split_and!; auto.
  - rewrite (stage_sources _ _ _ S). apply Forall_Forall2_diag, Forall_forall.
    intros [dst src] Hin. destruct (ready_extra _ _ _ _ Hready _ _ Hin). simpl. auto.
  - by rewrite (stage_idx _ _ _ S).
Qed.

(** A copy at a number that no source has. *)
Lemma moved_insert files st j d :
  moved files st → 10 ≤ j → j ∉ blocked st →
  let m := <[j := Descriptor (file d) false]> (fds (proc st)) in
  ∀ p, fds p = m → moved files (with_proc p st).
Proof.
  intros M Hj Hb m p Hp. unfold blocked in Hb.
  apply not_elem_of_cons in Hb as [Hb1 Hb]. apply not_elem_of_cons in Hb as [Hb2 Hb3].
  destruct M as [M1 M2 M3 M4 M5 M6 M7 M8 M9].
  assert (∀ fd, fd ≠ j → m !! fd = fds (proc st) !! fd) as Hm
    by (intros; unfold m; by rewrite lookup_insert_ne by congruence).
  split; simpl; rewrite ?Hp; try done.
  - intros n. destruct (decide (n = j)) as [->|]; [lia|]. rewrite Hm by done. apply M2.
  - intros n Hn. rewrite Hm by lia. by apply M3.
  - intros i f Hi. pose proof (lookup_lt_Some _ _ _ Hi). rewrite Hm by lia. by apply M4.
  - unfold pipe_at in *. simpl. rewrite Hp, Hm by congruence. done.
  - unfold same_file in *. rewrite Hm by congruence. done.
  - apply Forall2_same_length_lookup in M8 as [Hlen M8].
    apply Forall2_same_length_lookup. split; [done|].
    intros i x y Hx Hy. destruct (M8 i x y Hx Hy) as (? & ? & ?). unfold same_file in *.
    rewrite Hm; [done|]. intros <-. apply Hb3.
    apply (list_elem_of_fmap_2 snd). by eapply list_elem_of_lookup_2.
Qed.

Lemma moved_pipe_at files st : moved files st → pipe_at pipe_file (closeonexecpipe st) st.
Proof. by intros M; destruct (moved_pipe _ _ M). Qed.

Lemma moved_with_idx files st i : moved files st → idx st ≤ i → moved files (with_idx i st).
Proof. intros [] Hi. split; try done. simpl. lia. Qed.

Lemma moved_with_pipe files st j :
  moved files st → 10 ≤ j → pipe_at pipe_file j st → moved files (with_pipe j st).
Proof. intros [] Hj Hp. split; try done. simpl. split; [lia|done]. Qed.

Lemma moved_with_program files st j :
  moved files st → programfd st ≠ -1 → programfd st < 10 → 10 ≤ j →
  is_Some (fds (proc st) !! j) →
  file <$> fds (proc st) !! j = file <$> fds (proc st) !! programfd st →
  moved files (with_programfd j st).
Proof.
  intros [M1 M2 M3 M4 M5 M6 M7 M8 M9] Hne Hlt Hj Hs Hf. split; try done. right. simpl in *.
  destruct M7 as [[]|(? & ? & [? Hp] & ?)]; [done|].
  split_and!; [lia|done| |right; lia]. split; [done|]. by rewrite Hf.
Qed.

Lemma moved_with_source files st seen dst src todo j :
  moved files st → sources st = seen ++ (dst, src) :: todo → 10 ≤ j →
  is_Some (fds (proc st) !! j) →
  file <$> fds (proc st) !! j = file <$> fds (proc st) !! src →
  moved files (with_sources (seen ++ (dst, j) :: todo) st).
Proof.
  intros [M1 M2 M3 M4 M5 M6 M7 M8 M9] Hs Hj Hd Hf. split; try done. simpl.
  rewrite Hs in M8. apply Forall2_app_inv_r in M8 as (l1 & l2 & Hl1 & Hl2 & ->).
  apply Forall2_cons_inv_r in Hl2 as (x & l2' & (? & ? & [? Hx]) & Hl2 & ->).
  apply Forall2_app; [done|]. constructor; [|done]. simpl in *.
  split_and!; [done|lia|]. split; [done|]. by rewrite Hf.
Qed.
End rearrangement.
End spec.
