(* ===== verification/SpawnMoves.v ===== *)
(** The child of [system.spawn], continued: every source is moved to a number
    from 10 on, then the numbers 3 to 9 are filled, then the two descriptors
    that [exec] closes are put at 10 and 11 and the rest is closed. *)
From S2P Require Import Prelude Errors Lua SpawnArgs SpawnChild SpawnSpec.
#[local] Open Scope Z_scope.

Section moves.
Context `{Kernel}.
Variables (pipe_file : nat) (a : spawn_arguments) (pipe : Z) (parent : process).
#[local] Abbreviation T := (fds parent).
Hypothesis Hready : ready pipe_file a pipe T.
Variable files : list (option nat).

#[local] Abbreviation prog := (programfd (new_child a pipe parent)).
#[local] Abbreviation moved := (moved pipe_file a pipe parent files).
#[local] Abbreviation triple := (triple pipe_file).

(** ** Where the program's descriptor ends up *)

(** It is moved to 10 from below, where the pipe is to be, or was there from the
    beginning. *)
Definition displaced : Prop :=
  prog = 10 ∨ (prog ≠ -1 ∧ prog < 10 ∧ 10 < pipe ∧ 10 ∉ (extra_fds a).*2).

Definition ends_at (n : Z) : Prop := (prog = -1 → n = -1) ∧ (n = 10 ↔ displaced).

(** What [nextfd] has given before the program's turn. *)
Definition before_program (st : child) : Prop :=
  programfd st = prog ∧
  ((pipe < 10 ∧ 10 < idx st) ∨ (10 ≤ pipe ∧ closeonexecpipe st = pipe ∧ idx st = 10)).

(** * Moving the sources *)
Lemma triple_nextfd (P Q : child → Prop) (k : Z → phase) :
  (∀ st j, P st → 10 ≤ idx st → idx st ≤ j → j ∉ blocked st →
     nextfd_from (length (sources st) + 3) (idx st) st = Some j →
     match k j (with_idx (j + 1) st) with inl e => reported pipe_file e | inr st' => Q st' end) →
  (∀ st, P st → 10 ≤ idx st) →
  triple P (nextfd k) Q.
Proof.
  intros Hk Hi st HP. unfold nextfd. destruct (nextfd_total st) as (j & Ej & ? & ?).
  rewrite Ej. apply Hk; auto.
Qed.

(** A copy of [src] at [j], then an update of the state that knows of it. *)
Lemma moved_copy (Q : child → Prop) src j st (k : phase) :
  moved st → 10 ≤ j → j ∉ blocked st →
  (∀ st', moved st' → sources st' = sources st → programfd st' = programfd st →
     closeonexecpipe st' = closeonexecpipe st → idx st' = idx st →
     is_Some (fds (proc st') !! j) →
     file <$> fds (proc st') !! j = file <$> fds (proc st') !! src →
     match k st' with inl e => reported pipe_file e | inr st'' => Q st'' end) →
  src ≠ j →
  match (then_do (attempt (Dup2 src j)) k) st with
  | inl e => reported pipe_file e | inr st'' => Q st'' end.
Proof.
  intros M Hj Hb Hk Hne.
  apply (triple_seq pipe_file (λ s, s = st) (λ st', moved st' ∧ sources st' = sources st ∧
    programfd st' = programfd st ∧ closeonexecpipe st' = closeonexecpipe st ∧
    idx st' = idx st ∧ is_Some (fds (proc st') !! j) ∧
    file <$> fds (proc st') !! j = file <$> fds (proc st') !! src) Q); [| |done].
  - apply triple_call; [intros ? ->; by eapply moved_pipe_at|].
    intros s p -> He. simpl in He. destruct (fds (proc st) !! src) as [d|] eqn:Hd; [|done].
    rewrite decide_False in He by done. injection He as <-.
    split_and!; try done; simpl; rewrite ?lookup_insert_eq; [|by eexists|].
    + by eapply (moved_insert pipe_file a pipe parent files st j d).
    + by rewrite lookup_insert_ne, Hd by done.
  - intros s (? & ? & ? & ? & ? & ? & ?). by apply Hk.
Qed.

Lemma relocate_pipe_spec l :
  triple (λ st, moved st ∧ sources st = l ∧ programfd st = prog ∧ closeonexecpipe st = pipe ∧
      idx st = 10) relocate_pipe
    (λ st, moved st ∧ sources st = l ∧ 10 ≤ closeonexecpipe st ∧ before_program st).
Proof.
  intros st (M & Hl & Eg & Ep & Ei). unfold relocate_pipe, before_program.
  case_decide as Hlt; [|split_and!; [done|done|lia|done|right; split_and!; [lia|done..]]].
  apply (triple_nextfd (λ s, s = st)); [|intros ? ->; apply M|done].
  intros ? j -> Hi Hj Hb _. pose proof (moved_with_idx _ _ _ _ _ _ (j + 1) M ltac:(lia)) as M'.
  apply moved_copy; [done|lia|done| |simpl; lia].
  intros st' M'' Es Eg' E Ei' _ Hf. simpl in *.
  split_and!; [|congruence|lia|congruence|left; lia].
  apply moved_with_pipe; [done|lia|]. unfold pipe_at. rewrite Hf, <- E.
  by eapply moved_pipe_at.
Qed.

(** The number that [nextfd] gives for the program. *)
Lemma next_ends_at st l j :
  sources st = l → l.*2 = (extra_fds a).*2 → before_program st →
  programfd st ≠ -1 ∧ programfd st < 10 →
  nextfd_from (length (sources st) + 3) (idx st) st = Some j → ends_at j.
Proof.
  intros Hl El [Eg Hbefore] Hlt En. unfold ends_at, displaced.
  pose proof (nextfd_from_spec _ _ _ _ En) as [Hj Hb]. unfold blocked in Hb.
  rewrite Hl, El in Hb. split; [lia|]. split.
  - intros ->. right. destruct Hbefore as [[? ?]|(? & Ep & _)]; [lia|].
    rewrite !not_elem_of_cons, Ep in Hb. destruct Hb as (? & _ & ?). split_and!; [lia..|done].
  - intros [?|(_ & _ & ? & Hn)]; [lia|]. destruct Hbefore as [[? ?]|(_ & Ep & Ei)]; [lia|].
    rewrite Ei, Nat.add_comm in En. simpl in En. rewrite Hl, El in En.
    rewrite !decide_False in En by (done || lia). by injection En.
Qed.

Lemma relocate_program_spec l :
  l.*2 = (extra_fds a).*2 →
  triple (λ st, moved st ∧ sources st = l ∧ 10 ≤ closeonexecpipe st ∧ before_program st)
    relocate_program
    (λ st, moved st ∧ sources st = l ∧ 10 ≤ closeonexecpipe st ∧
       (programfd st = -1 ∨ 10 ≤ programfd st) ∧ ends_at (programfd st)).
Proof.
  intros El st (M & Hl & Hp & Hbefore). unfold relocate_program. case_decide as Hlt.
  2: { destruct Hbefore as [Eg _]. split_and!; try done.
    - destruct (decide (programfd st = -1)); [by left|right; lia].
    - rewrite Eg. unfold ends_at, displaced. split; [done|]. split; [by left|].
      intros [?|(? & ? & _)]; [done|lia]. }
  apply (triple_nextfd (λ s, s = st)); [|intros ? ->; apply M|done].
  intros ? j -> Hi Hj Hb En. pose proof (next_ends_at st l j Hl El Hbefore Hlt En) as Hends. pose proof (moved_with_idx _ _ _ _ _ _ (j + 1) M ltac:(lia)) as M'.
  apply moved_copy; [done|lia|done| |simpl; lia].
  intros st' M'' Es Ep E _ ? Hf. simpl in *. rewrite E.
  split_and!; [|congruence|done|lia|done].
  eapply moved_with_program; try done; rewrite ?Ep; try done; lia.
Qed.

(** What stays of a state through the loop over the sources. *)
Definition same_pipe_and_program (st0 st : child) : Prop :=
  closeonexecpipe st = closeonexecpipe st0 ∧ programfd st = programfd st0.

Lemma relocate_sources_spec st0 todo seen :
  Forall (λ x, 10 ≤ x.2) seen →
  triple (λ st, moved st ∧ sources st = seen ++ todo ∧ same_pipe_and_program st0 st)
    (relocate_sources seen todo)
    (λ st, moved st ∧ Forall (λ x, 10 ≤ x.2) (sources st) ∧ same_pipe_and_program st0 st).
Proof.
  revert seen. induction todo as [|[dst src] todo IH]; intros seen Hseen; simpl.
  { intros st (M & Hs & E). rewrite app_nil_r in Hs. split_and!; [done| |done]. by rewrite Hs. }
  case_decide as Hsrc.
  { eapply triple_weaken; [apply (IH (seen ++ [(dst, src)]))| |done].
    - apply Forall_app. split; [done|]. repeat constructor. simpl. lia.
    - intros st (M & Hs & E). by rewrite <- app_assoc. }
  intros st (M & Hs & E). apply (triple_nextfd (λ s, s = st)); [|intros ? ->; apply M|done].
  intros ? j -> Hi Hj Hb _. pose proof (moved_with_idx _ _ _ _ _ _ (j + 1) M ltac:(lia)) as M'.
  apply moved_copy; [done|lia|done| |lia].
  intros st' M'' Es Ep E' _ ? Hf. unfold then_do at 1.
  apply (IH (seen ++ [(dst, j)])).
  - apply Forall_app. split; [done|]. repeat constructor. simpl. lia.
  - split_and!; simpl.
    + simpl in Es. rewrite Hs in Es. eapply moved_with_source; try done. lia.
    + by rewrite <- app_assoc.
    + destruct E. split; simpl in *; congruence.
Qed.

(** ** Out of the way: every source is at 10 or more. *)
Record apart (st : child) : Prop := {
  apart_moved : moved st;
  apart_pipe : 10 ≤ closeonexecpipe st;
  apart_program : programfd st = -1 ∨ 10 ≤ programfd st;
  apart_sources : Forall (λ x, 10 ≤ x.2) (sources st);
  apart_ends : ends_at (programfd st);
}.

Lemma relocation_spec l :
  l.*2 = (extra_fds a).*2 →
  triple (λ st, moved st ∧ sources st = l ∧ programfd st = prog ∧ closeonexecpipe st = pipe ∧
      idx st = 10)
    (then_do relocate_pipe (then_do relocate_program (relocate_sources [] l))) apart.
Proof.
  intros El. eapply triple_seq; [apply relocate_pipe_spec|].
  eapply triple_seq; [by apply relocate_program_spec|].
  intros st (M & Hl & Hp & Hg & Hends).
  assert (Forall (λ x : Z * Z, 10 ≤ x.2) []) as Hnil by constructor.
  pose proof (relocate_sources_spec st l [] Hnil st
    (conj M (conj Hl (conj eq_refl eq_refl)))) as Ht.
  destruct (relocate_sources _ _ _) as [e|st']; [done|].
  destruct Ht as (M' & Hs & E1 & E2). split; [done|lia|by rewrite E2|done|by rewrite E2].
Qed.
(** * The numbers 3 to 9 *)

(** The file that is asked for at a number from 3 to 9. *)
Definition extra_file (n : Z) : option nat :=
  source_of n (extra_fds a) ≫= λ src, file <$> T !! src.
#[local] Abbreviation inherit f := (Descriptor f false).

Lemma source_of_related (R : Z → Z → Prop) n l l' :
  Forall2 (λ x y : Z * Z, x.1 = y.1 ∧ R x.2 y.2) l l' →
  option_relation R (λ _, False) (λ _, False) (source_of n l) (source_of n l').
Proof.
  unfold source_of. induction 1 as [|[d0 s0] [d1 s1] l l' [E HR] Hl IH]; [done|].
  simpl in *. subst d1. destruct (decide (d0 = n)); [done|].
  destruct (list_find _ l) as [[? [? ?]]|], (list_find _ l') as [[? [? ?]]|]; done.
Qed.

(** The numbers below [k] have been filled. *)
Record placed (k : Z) (st : child) : Prop := {
  placed_args : args st = a;
  placed_nonneg n : is_Some (fds (proc st) !! n) → 0 ≤ n;
  placed_low n : 0 ≤ n < 3 → ∃ f, fds (proc st) !! n = Some (inherit f);
  placed_files (i : nat) f : files !! i = Some f → file <$> fds (proc st) !! Z.of_nat i = f;
  placed_pipe : 10 ≤ closeonexecpipe st ∧ pipe_at pipe_file (closeonexecpipe st) st;
  placed_program :
    (programfd st = -1 ∧ prog = -1) ∨
    (10 ≤ programfd st ∧ same_file parent (fds (proc st)) (programfd st) prog ∧
       (programfd st = prog ∨ prog < 10));
  placed_sources :
    Forall2 (λ x y, x.1 = y.1 ∧ 10 ≤ y.2 ∧ same_file parent (fds (proc st)) y.2 x.2)
      (extra_fds a) (sources st);
  placed_extra n :
    3 ≤ n < k → fds (proc st) !! n = (λ f, inherit f) <$> extra_file n;
  placed_ends : ends_at (programfd st);
}.

Lemma placed_start st : apart st → placed 3 st.
Proof.
  intros [[M1 M2 M3 M4 M5 M6 M7 M8 M9] Hp Hg Hs He]. split; try done.
  - by destruct M6.
  - destruct M7 as [?|(? & ? & ? & ?)]; [by left|right]. split_and!; try done. lia.
  - apply Forall2_same_length_lookup in M8 as [Hlen M8].
    apply Forall2_same_length_lookup. split; [done|]. intros i x y Hx Hy.
    destruct (M8 i x y Hx Hy) as (? & ? & ?). split_and!; try done.
    by apply (Forall_lookup_1 _ _ _ _ Hs Hy).
  - lia.
Qed.

Lemma placed_step k st p :
  length files = 3%nat → 3 ≤ k < 10 → placed k st →
  (∀ n, n ≠ k → fds p !! n = fds (proc st) !! n) →
  fds p !! k = (λ f, inherit f) <$> extra_file k →
  placed (k + 1) (with_proc p st).
Proof.
  intros Hlen Hk [P1 P2 P3 P4 P5 P6 P7 P8 P9] Hn Hp.
  assert (∀ n, 10 ≤ n → fds p !! n = fds (proc st) !! n) as Hhigh by (intros; apply Hn; lia).
  assert (∀ fd fd0, 10 ≤ fd → same_file parent (fds (proc st)) fd fd0 →
    same_file parent (fds p) fd fd0) as Hsame
    by (intros fd fd0 Hfd; unfold same_file; by rewrite Hhigh).
  split; simpl; try done.
  - intros n. destruct (decide (n = k)) as [->|]; [lia|]. rewrite Hn by done. apply P2.
  - intros n Hlt. rewrite Hn by lia. by apply P3.
  - intros i f Hi. pose proof (lookup_lt_Some _ _ _ Hi). rewrite Hn by lia. by apply P4.
  - destruct P5 as [? P5]. split; [done|]. unfold pipe_at in *. simpl. by rewrite Hhigh.
  - destruct P6 as [?|(? & ? & ?)]; [by left|right]. auto.
  - eapply Forall2_impl; [done|]. intros x y (? & ? & ?). auto.
  - intros n Hlt. destruct (decide (n = k)) as [->|]; [done|]. rewrite Hn by done.
    apply P8. lia.
Qed.

Lemma place_spec k dsts Q :
  length files = 3%nat → 3 ≤ k < 10 →
  triple (placed (k + 1)) (place_sources dsts) Q →
  triple (placed k) (place_sources (k :: dsts)) Q.
Proof.
  intros Hlen Hk Hrest. simpl. eapply triple_seq; [|done].
  intros st P. pose proof (placed_sources _ _ P) as Hs.
  pose proof (source_of_related (λ src0 src, 10 ≤ src ∧ same_file parent (fds (proc st)) src src0)
    k _ _ Hs) as Hrel.
  destruct (source_of k (extra_fds a)) as [src0|] eqn:E0,
    (source_of k (sources st)) as [src|] eqn:E1; try done; simpl in Hrel.
  - destruct Hrel as (Hge & [d Hd] & Hsame).
    apply (triple_call pipe_file (λ s, s = st)); [intros ? ->; apply P| |done].
    intros s p -> He. simpl in He. rewrite Hd, decide_False in He by lia. injection He as <-.
    apply placed_step; try done; simpl.
    + intros n Hn. by rewrite lookup_insert_ne by done.
    + rewrite lookup_insert_eq. unfold extra_file. rewrite E0. simpl.
      by rewrite <- Hsame, Hd.
  - apply placed_step; try done; simpl.
    + intros n Hn. by rewrite lookup_delete_ne by done.
    + rewrite lookup_delete_eq. unfold extra_file. by rewrite E0.
Qed.

Lemma place_sources_spec :
  length files = 3%nat → triple (placed 3) (place_sources [3; 4; 5; 6; 7; 8; 9]) (placed 10).
Proof. intros Hlen. do 7 (apply place_spec; [done|lia|]). apply triple_skip. Qed.

(** * 10, 11 and the rest *)

(** The file at a number below 10. *)
Definition inherited_at (n : Z) : option nat :=
  if decide (0 ≤ n < 3) then mjoin (files !! Z.to_nat n)
  else if decide (3 ≤ n < 10) then extra_file n
  else None.

(** What is known of the program's descriptor when it may still be used. *)
Definition program_at (st : child) : Prop :=
  (programfd st = -1 ∧ prog = -1) ∨
  (10 ≤ programfd st ∧ (programfd st = prog ∨ prog < 10) ∧
     is_Some (fds (proc st) !! programfd st) ∧
     (programfd st ≠ 10 → file <$> fds (proc st) !! programfd st = file <$> T !! prog)).

Record piped (st : child) : Prop := {
  piped_args : args st = a;
  piped_inherited n : n < 10 → fds (proc st) !! n = (λ f, inherit f) <$> inherited_at n;
  piped_pipe : fds (proc st) !! 10 = Some (Descriptor pipe_file true);
  piped_program : program_at st;
  piped_ends : ends_at (programfd st);
}.

Lemma placed_inherited st n :
  length files = 3%nat → placed 10 st → n < 10 →
  fds (proc st) !! n = (λ f, inherit f) <$> inherited_at n.
Proof.
  intros Hlen [P1 P2 P3 P4 P5 P6 P7 P8 P9] Hn. unfold inherited_at. case_decide as H3.
  - destruct (P3 n H3) as [f Hf]. rewrite Hf.
    destruct (lookup_lt_is_Some_2 files (Z.to_nat n)) as [g Hg]; [lia|]. rewrite Hg. simpl.
    specialize (P4 _ _ Hg). rewrite Z2Nat.id, Hf in P4 by lia. by subst g.
  - case_decide as H9; [by apply P8|]. destruct (fds (proc st) !! n) eqn:E; [|done].
    specialize (P2 n ltac:(by eexists)). lia.
Qed.

(** A change at one number from 10 on. *)
Lemma program_at_insert st j d p :
  program_at st → fds p = <[j := d]> (fds (proc st)) →
  (programfd st = j → programfd st ≠ 10 → Some (file d) = file <$> fds (proc st) !! j) →
  program_at (with_proc p st).
Proof.
  intros [?|(Hge & Hor & Hs & Hf)] Hp Hd; [by left|right]. simpl. rewrite Hp.
  split_and!; try done.
  - rewrite lookup_insert_is_Some. destruct (decide (j = programfd st)); auto.
  - intros Hne. rewrite lookup_insert. case_decide as Hj; [|by apply Hf].
    etransitivity; [|exact (Hf Hne)]. subst j. by apply Hd.
Qed.

Lemma settle_pipe_spec :
  length files = 3%nat → triple (placed 10) settle_pipe piped.
Proof.
  intros Hlen st P. unfold settle_pipe.
  pose proof (placed_pipe _ _ P) as [Hge Hpipe]. unfold pipe_at in Hpipe.
  apply (triple_seq pipe_file (λ s, s = st) (λ s, args s = a ∧
    (∀ n, n < 10 → fds (proc s) !! n = (λ f, inherit f) <$> inherited_at n) ∧
    pipe_at pipe_file 10 s ∧ program_at s ∧ ends_at (programfd s)) piped); [| |done].
  - assert (∀ n, n < 10 → fds (proc st) !! n = (λ f, inherit f) <$> inherited_at n) as Hlow
      by (intros; by apply placed_inherited).
    assert (program_at st) as Hprog.
    { destruct (placed_program _ _ P) as [?|(? & [? ?] & ?)]; [by left|right].
      split_and!; try done; lia. }
    apply triple_whenever; rewrite ?bool_decide_eq_true, ?bool_decide_eq_false.
    + intros Hne. apply triple_call; [intros ? ->; apply P|].
      intros s p -> He. simpl in He.
      destruct (fds (proc st) !! closeonexecpipe st) as [d|] eqn:Hd; [|done].
      rewrite decide_False in He by done. injection He as <-. simpl. split_and!.
      * apply P.
      * intros n Hn. rewrite lookup_insert_ne by lia. by apply Hlow.
      * unfold pipe_at. simpl. rewrite lookup_insert_eq. by simpl in *.
      * eapply program_at_insert; [done|done|]. intros ->. lia.
      * apply P.
    + intros Heq s ->. split_and!; try done; [apply P| |apply P]. unfold pipe_at.
      apply dec_stable in Heq. by rewrite Heq in Hpipe.
  - apply triple_call; [by intros s (_ & _ & ? & _)|].
    intros s p (Ha & Hlow & H10 & Hprog & Hends) He. simpl in He. unfold pipe_at in H10.
    destruct (fds (proc s) !! 10) as [d|] eqn:Hd; [|done]. injection He as <-.
    simpl in H10. injection H10 as H10. split; simpl; try done.
    + intros n Hn. rewrite lookup_insert_ne by lia. by apply Hlow.
    + by rewrite lookup_insert_eq, H10.
    + eapply program_at_insert; [done|done|]. intros ->. lia.
Qed.

(** 11 is the program's, closed on [exec], when there is one. *)
Definition eleven (st : child) : Prop :=
  programfd st = -1 ∨ ∃ f, fds (proc st) !! 11 = Some (Descriptor f true).

Lemma piped_at st : piped st → pipe_at pipe_file 10 st.
Proof. intros S. unfold pipe_at. by rewrite (piped_pipe _ S). Qed.

Lemma piped_eleven st p d :
  piped st → fds p = <[11 := d]> (fds (proc st)) →
  (programfd st = 11 → Some (file d) = file <$> fds (proc st) !! 11) →
  piped (with_proc p st).
Proof.
  intros [S1 S2 S3 S4 S5] Hp Hd. split; simpl; rewrite ?Hp; try done.
  - intros n Hn. rewrite lookup_insert_ne by lia. by apply S2.
  - by rewrite lookup_insert_ne by lia.
  - eapply program_at_insert; [done|done|auto].
Qed.

Lemma settle_program_spec : triple piped settle_program (λ st, piped st ∧ eleven st).
Proof.
  intros st S. unfold settle_program. case_decide as Hne; [|split; [done|left; lia]].
  apply (triple_seq pipe_file (λ s, s = st)
    (λ s, piped s ∧ programfd s = programfd st) _); [| |done].
  - apply triple_whenever; [|by intros _ s ->].
    intros Hb%bool_decide_eq_true. apply triple_call; [intros ? ->; by apply piped_at|].
    intros s p -> He. simpl in He.
    destruct (fds (proc st) !! programfd st) as [d|] eqn:Hd; [|done].
    rewrite decide_False in He by done. injection He as <-. split; [|done].
    by eapply piped_eleven.
  - apply triple_call; [intros s []; by apply piped_at|].
    intros s p [S' E] He. simpl in He.
    destruct (fds (proc s) !! 11) as [d|] eqn:Hd; [|done]. injection He as <-. split.
    + eapply piped_eleven; [done|done|]. intros _. by rewrite Hd.
    + right. exists (file d). simpl. by rewrite lookup_insert_eq.
Qed.

(** ** Before [exec] *)
Record settled (st : child) : Prop := {
  settled_args : args st = a;
  settled_inherited n : n < 10 → fds (proc st) !! n = (λ f, inherit f) <$> inherited_at n;
  settled_pipe : fds (proc st) !! 10 = Some (Descriptor pipe_file true);
  settled_rest n d :
    10 < n → fds (proc st) !! n = Some d → n = 11 ∧ cloexec d = true ∧ programfd st ≠ -1;
  settled_program :
    (programfd st = -1 ∧ prog = -1) ∨
    (10 ≤ programfd st ∧ (programfd st = prog ∨ prog < 10) ∧
     (programfd st = 11 → file <$> fds (proc st) !! 11 = file <$> T !! prog));
  settled_ends : ends_at (programfd st);
}.

Lemma close_others_spec : triple (λ st, piped st ∧ eleven st) close_others settled.
Proof.
  intros st [S He]. unfold close_others.
  apply (triple_call pipe_file (λ s, s = st)); [intros ? ->; by apply piped_at| |done].
  intros s p -> Hc. simpl in Hc. injection Hc as <-.
  destruct S as [S1 S2 S3 S4 S5]. set (limit := if decide (programfd st = -1) then 11 else 12).
  assert (10 < limit) as Hlim by (unfold limit; case_decide; lia).
  assert (∀ n, n < limit → filter (λ x : Z * descriptor, x.1 < limit) (fds (proc st)) !! n =
    fds (proc st) !! n) as Hkeep.
  { intros n Hn. destruct (fds (proc st) !! n) eqn:E.
    - apply map_lookup_filter_Some. by split.
    - apply map_lookup_filter_None. by left. }
  split; simpl; try done; fold limit.
  - intros n Hn. rewrite Hkeep by lia. by apply S2.
  - by rewrite Hkeep by lia.
  - intros n d Hn (Hd & Hlt)%map_lookup_filter_Some. simpl in Hlt.
    unfold limit in *. case_decide as Hp; [lia|]. assert (n = 11) as -> by lia.
    destruct He as [?|[f Hf]]; [done|]. rewrite Hf in Hd. by injection Hd as <-.
  - destruct S4 as [?|(? & ? & ? & Hf)]; [by left|right]. split_and!; try done.
    intros E. rewrite Hkeep by (unfold limit; case_decide; lia). rewrite <- E. apply Hf. lia.
Qed.

Lemma settlement_spec : length files = 3%nat → triple (placed 3) settlement settled.
Proof.
  intros Hlen. unfold settlement. eapply triple_seq; [by apply place_sources_spec|].
  eapply triple_seq; [by apply settle_pipe_spec|].
  eapply triple_seq; [apply settle_program_spec|]. apply close_others_spec.
Qed.
End moves.
