(* ===== verification/SpawnPromises.v ===== *)
(** What [system.spawn] promises: the arguments it accepts are the ones the
    child counts on; the child becomes the program with the descriptors that
    were asked for and no other, or tells the parent why not; and what a program
    that is named by a descriptor comes to. *)
From S2P Require Import Prelude Errors Lua LuaTable SpawnArgs SpawnChild SpawnSpec SpawnMoves.
#[local] Open Scope Z_scope.

(** * The arguments *)
Section arguments.
Context `{LuaApi} `{SchedulerLimits}.
Variables (view : lua_view) (opts : lua_value).

Ltac step :=
  match goal with
  | E : match ?e with inl _ => inl _ | inr _ => _ end = inr _ |- _ =>
      let F := fresh "F" in destruct e as [?|?] eqn:F; [discriminate|]
  end.

Lemma fds_in_range tb dsts l :
  read_fds view tb dsts = inr l → l.*1 `sublist_of` dsts.
Proof.
  revert l. induction dsts as [|i dsts IH]; intros l; simpl; [by intros [= <-]|].
  destruct (rawgeti tb i); try done; [intros E; by apply sublist_cons, IH|].
  intros E. repeat step. simplify_eq. simpl. apply sublist_skip. by apply IH.
Qed.

Lemma extra_fds_in_range l :
  read_extra_fds view opts = inr l → l.*1 `sublist_of` [3; 4; 5; 6; 7; 8; 9].
Proof.
  unfold read_extra_fds, bad_field. destruct (field _ _ _); try done;
    [intros [= <-]; apply sublist_nil_l|apply fds_in_range].
Qed.

(** The priority a policy allows. *)
Definition priority_allowed (policy priority : option Z) : Prop :=
  ∀ p, policy = Some p → let p := Z.ldiff p SCHED_RESET_ON_FORK in
  ((p = SCHED_OTHER ∨ p = SCHED_BATCH ∨ p = SCHED_IDLE) → priority = Some 0) ∧
  ((p = SCHED_FIFO ∨ p = SCHED_RR) →
     ∃ n, priority = Some n ∧ priority_min p ≤ n ≤ priority_max p).

Lemma scheduler_checked policy priority priority' :
  check_scheduler policy priority = inr priority' → priority_allowed policy priority'.
Proof.
  intros E p ->. cbn zeta in *. unfold check_scheduler, bad_field in E. cbn zeta in E.
  repeat case_decide; split; intros Hp; try (unfold SCHED_OTHER, SCHED_BATCH, SCHED_IDLE,
    SCHED_FIFO, SCHED_RR in *; lia); destruct priority; repeat case_decide; simplify_eq;
    try done; try (by f_equal; lia).
  eexists. split; [done|lia].
Qed.

(** The policies [read_scheduler] gives. *)
Definition known_policy (p : Z) : Prop :=
  let p := Z.ldiff p SCHED_RESET_ON_FORK in
  p = SCHED_OTHER ∨ p = SCHED_BATCH ∨ p = SCHED_IDLE ∨ p = SCHED_FIFO ∨ p = SCHED_RR.

Lemma policy_known system policy priority :
  read_scheduler view opts system = inr (policy, priority) →
  ∀ p, policy = Some p → known_policy p.
Proof.
  assert (∀ s p, policy_of system s = inr p →
    known_policy p ∧ known_policy (Z.lor p SCHED_RESET_ON_FORK)) as Hof.
  { intros s p. unfold policy_of, unsupported, bad_field.
    repeat case_decide; destruct system; intros [= <-]; split; vm_compute; tauto. }
  unfold read_scheduler. destruct (field _ _ _); try done; [by intros [= <- <-]|].
  intros E p ->. repeat step. simplify_eq.
  unfold read_policy in F. unfold read_reset_on_fork, bad_field, unsupported in F0.
  assert (∀ q, o = Some q → known_policy q ∧ known_policy (Z.lor q SCHED_RESET_ON_FORK)) as Ho.
  { intros q ->. destruct (getfield view _ "policy"); try done.
    step. simplify_eq. by eapply Hof. }
  repeat case_match; simplify_eq; by destruct (Ho _ eq_refl).
Qed.
Lemma foreground_checked g i o e fd :
  read_foreground view opts g i o e = inr fd → fd ≠ -1 → is_Some g.
Proof.
  unfold read_foreground, bad_field. destruct (field _ _ _); try done; [by intros [= <-]| |];
    destruct g; done.
Qed.

Lemma set_ctty_checked session fd :
  read_set_ctty view opts session = inr fd → fd ≠ -1 → session = true.
Proof.
  unfold read_set_ctty, bad_field. destruct (field _ _ _); try done; [by intros [= <-]|].
  by destruct session.
Qed.

(** What holds of every table that is accepted. *)
Record accepted (a : spawn_arguments) : Prop := {
  accepted_policy p : scheduler_policy a = Some p → known_policy p;
  accepted_priority : priority_allowed (scheduler_policy a) (scheduler_priority a);
  accepted_extra_fds : (extra_fds a).*1 `sublist_of` [3; 4; 5; 6; 7; 8; 9];
  accepted_ctty : set_ctty a ≠ -1 → start_new_session a = true ∧ foreground a = -1;
  accepted_foreground : foreground a ≠ -1 → is_Some (process_group a);
}.

(** The checks of [system_spawn], one after the other. *)
Lemma checks_passed system cap_sandboxed a :
  read_spawn_arguments view opts system cap_sandboxed = inr a → accepted a.
Proof.
  unfold read_spawn_arguments. intros E. do 8 step.
  destruct (read_scheduler view opts system) as [?|[policy priority]] eqn:F7; [discriminate|].
  do 12 step.
  destruct (read_working_directory view opts) as [?|[dir dirfd]] eqn:F20; [discriminate|].
  repeat step. simplify_eq. split; simpl.
  - intros ? ->. by eapply policy_known.
  - by eapply scheduler_checked.
  - by eapply extra_fds_in_range.
  - intros Hne. split; [by eapply set_ctty_checked|].
    match goal with C : check_terminal _ _ = _ |- _ => unfold check_terminal, bad_field in C end.
    case_decide; [done|]. lia.
  - intros Hne. by eapply foreground_checked.
Qed.

(** C32: [system.spawn] goes on only with arguments that fit together: a known
    scheduling policy with a priority in its range (0 for the policies that
    have none), extra descriptors each at its own number from 3 to 9, a
    controlling terminal only in a new session and not with a foreground group,
    and a foreground group only where the group of the process is set. *)
Theorem accepted_arguments system cap_sandboxed a :
  read_spawn_arguments view opts system cap_sandboxed = inr a → accepted a.
Proof. apply checks_passed. Qed.
End arguments.

Lemma accepted_args_ok `{SchedulerLimits} a : accepted a → args_ok a.
Proof.
  intros [Hk Hp _ _ Hf]. split; [|done]. intros [p E]. destruct (Hp p E) as [H0 H1].
  cbn zeta in *. destruct (Hk p E) as [?|[?|[?|[?|?]]]].
  1-3: rewrite H0 by tauto; by eexists.
  1-2: destruct H1 as (n & -> & _); [tauto|by eexists].
Qed.

(** * The child *)
Section child.
Context `{Kernel}.
Variables (pipe_file : nat) (a : spawn_arguments) (pipe : Z) (parent : process).
#[local] Abbreviation T := (fds parent).

(** The files of the standard descriptors. *)
Definition standard_files : list (option nat) :=
  let '(f0, n) := standard_file fst T (proc_stdin a) (next_file parent) in
  let '(f1, n) := standard_file snd T (proc_stdout a) n in
  let '(f2, _) := standard_file snd T (proc_stderr a) n in
  [f0; f1; f2].

(** The file the program finds at each number. *)
Definition inherited_file (n : Z) : option nat := inherited_at a parent standard_files n.

Section ready.
Hypothesis Hready : ready pipe_file a pipe T.
Hypothesis Hargs : args_ok a.

Lemma rearrangement_spec :
  triple pipe_file (stage a pipe parent [] (next_file parent)) rearrangement
    (placed pipe_file a pipe parent standard_files 3).
Proof.
  intros st S. unfold rearrangement, standard_files.
  pose proof (standard_spec pipe_file a pipe parent Hready false [] (next_file parent)
    (proc_stdin a) ltac:(simpl; lia) (ready_stdin _ _ _ _ Hready)) as H0.
  destruct (standard_file _ _ (proc_stdin a) _) as [f0 n0].
  pose proof (standard_spec pipe_file a pipe parent Hready true [f0] n0
    (proc_stdout a) ltac:(simpl; lia) (ready_stdout _ _ _ _ Hready)) as H1.
  destruct (standard_file _ _ (proc_stdout a) _) as [f1 n1].
  pose proof (standard_spec pipe_file a pipe parent Hready true [f0; f1] n1
    (proc_stderr a) ltac:(simpl; lia) (ready_stderr _ _ _ _ Hready)) as H2.
  destruct (standard_file _ _ (proc_stderr a) _) as [f2 n2]. simpl in *.
  apply (triple_seq pipe_file (stage a pipe parent [] (next_file parent))
    (stage a pipe parent [f0] n0)); [| |done].
  { intros s Hs. unfold standard_input. rewrite (stage_args _ _ _ _ _ _ Hs). by apply H0. }
  apply (triple_seq pipe_file _ (stage a pipe parent [f0; f1] n1)).
  { intros s Hs. unfold standard_output. rewrite (stage_args _ _ _ _ _ _ Hs). by apply H1. }
  apply (triple_seq pipe_file _ (stage a pipe parent [f0; f1; f2] n2)).
  { intros s Hs. unfold standard_error. rewrite (stage_args _ _ _ _ _ _ Hs). by apply H2. }
  eapply triple_weaken; [apply (relocation_spec pipe_file a pipe parent [f0; f1; f2] (sources st))| |].
  - by rewrite (stage_sources _ _ _ _ _ _ S).
  - intros s Hs. split; [by eapply moved_start|]. destruct Hs as [? ? ? Es ? ? ? ? ? ? ? ?].
    split_and!; [by rewrite Es, (stage_sources _ _ _ _ _ _ S)|done..].
  - intros s Hs. by eapply placed_start.
Qed.

Lemma standard_files_length : length standard_files = 3%nat.
Proof. unfold standard_files. by repeat case_match. Qed.

Lemma before_exec :
  match (then_do preparation (then_do rearrangement settlement)) (new_child a pipe parent) with
  | inl e => reported pipe_file e
  | inr st => settled pipe_file a pipe parent standard_files st
  end.
Proof.
  apply (triple_seq pipe_file (untouched (new_child a pipe parent))
    (stage a pipe parent [] (next_file parent))).
  - eapply triple_weaken; [apply preparation_spec| |]; try done.
    + destruct (ready_pipe _ _ _ _ Hready) as [_ Hf]. done.
    + exact Hargs.
    + intros st. by apply (stage_kept pipe_file).
  - eapply triple_seq; [apply rearrangement_spec|]. apply settlement_spec, standard_files_length.
  - by split.
Qed.

(** The calls before [exec] and [exec] itself. *)
Lemma child_end :
  let e := system_spawn_child_main (new_child a pipe parent) in
  reported pipe_file e ∨
  ∃ st, settled pipe_file a pipe parent standard_files st ∧
    (∀ fd, image_of st = ByDescriptor fd → is_Some (fds (proc st) !! fd)) ∧
    calls e.1 = calls (proc st) ++ [Exec (image_of st) (argv a) (envp a)] ∧
    e.2 = Image (match image_of st with
                 | ByDescriptor fd => file <$> fds (proc st) !! fd | _ => None end)
            (file <$> filter (λ x, cloexec x.2 = false) (fds (proc st))).
Proof.
  intros e. unfold e, system_spawn_child_main. pose proof before_exec as Hb.
  destruct (then_do _ _ _) as [e'|st]; [by left|].
  pose proof (settled_pipe _ _ _ _ _ _ Hb) as H10.
  pose proof (settled_args _ _ _ _ _ _ Hb) as Ha.
  unfold execute, perform, report. destruct (refusal _ _) as [n|]; [left; exists n; by rewrite H10|].
  destruct (effect _ _) as [n|p] eqn:E; [left; exists n; simpl; by rewrite H10|]. right.
  exists st. split; [done|].
  assert (p = proc st) as -> by (eapply quiet_effect; [|exact E]; exact I). rewrite Ha.
  split_and!; [|done..].
  intros fd Hfd. rewrite Hfd in E. simpl in E. by case_decide.
Qed.

(** What [exec] keeps of a settled table. *)
Lemma settled_kept st n :
  settled pipe_file a pipe parent standard_files st →
  (file <$> filter (λ x, cloexec x.2 = false) (fds (proc st))) !! n = inherited_file n.
Proof.
  intros S. rewrite lookup_fmap. unfold inherited_file.
  destruct (decide (n < 10)) as [Hlt|Hge].
  - pose proof (settled_inherited _ _ _ _ _ _ S n Hlt) as Hn.
    destruct (inherited_at a parent standard_files n) as [f|]; simpl in Hn.
    + rewrite (proj2 (map_lookup_filter_Some _ _ n (Descriptor f false))); by split.
    + rewrite (proj2 (map_lookup_filter_None _ _ n)); [done|by left].
  - unfold inherited_at. rewrite !decide_False by lia.
    rewrite (proj2 (map_lookup_filter_None _ _ n)); [done|]. right. intros d Hd Hc. simpl in Hc.
    destruct (decide (n = 10)) as [->|]; [by rewrite (settled_pipe _ _ _ _ _ _ S) in Hd; simplify_eq|].
    destruct (settled_rest _ _ _ _ _ _ S n d ltac:(lia) Hd) as (_ & ? & _). congruence.
Qed.
End ready.

(** The table of a child that has become a program. *)
Lemma image_inherited program_file inherited :
  ready pipe_file a pipe T → args_ok a →
  (system_spawn_child_main (new_child a pipe parent)).2 = Image program_file inherited →
  ∀ n, inherited !! n = inherited_file n.
Proof.
  intros Hready Hargs E n. destruct (child_end Hready Hargs) as [[e He]|(st & S & _ & _ & He)];
    [congruence|]. rewrite E in He. injection He as _ ->. by apply settled_kept.
Qed.

(** C29: a program that [system.spawn] starts finds exactly the descriptors that
    were asked for: at 0, 1 and 2 the parent's own, the given handle's file or
    its end of a new closed pipe; at 3 to 9 the file of the handle that
    [extra_fds] names for the number, nothing at the others; and no other
    descriptor of the parent, whatever the numbers of the handles, of the
    program's descriptor and of the pipe to the parent are. *)
Theorem child_inherits p program_file inherited :
  ready pipe_file a pipe T → args_ok a →
  system_spawn_child_main (new_child a pipe parent) = (p, Image program_file inherited) →
  ∀ n, inherited !! n = inherited_file n.
Proof.
  intros Hready Hargs E. apply (image_inherited program_file); [done|done|]. by rewrite E.
Qed.

(** The file that a program named by a descriptor is taken from: the one of the
    descriptor, or the pipe when it is displaced. *)
Definition program_file (fd : Z) (f : option nat) : Prop :=
  (displaced a pipe parent → f = Some pipe_file) ∧
  (¬ displaced a pipe parent → f = file <$> T !! fd).

(** The child has become the program that the arguments name: the last of its
    calls is the [exec] of that program, with its arguments and environment. *)
Definition became (e : process * ending) : Prop :=
  ∃ image f inherited earlier,
    e.2 = Image f inherited ∧ calls e.1 = earlier ++ [Exec image (argv a) (envp a)] ∧
    match program a with
    | ByDescriptor fd => (∃ n, image = ByDescriptor n) ∧ fd < 12 ∧ program_file fd f
    | named => image = named ∧ f = None
    end.

(** The number [exec] is given, and what is there. *)
Lemma settled_image fd st :
  ready pipe_file a pipe T → program a = ByDescriptor fd →
  settled pipe_file a pipe parent standard_files st →
  (∀ fd', image_of st = ByDescriptor fd' → is_Some (fds (proc st) !! fd')) →
  image_of st = ByDescriptor (programfd st) ∧ fd < 12 ∧
  program_file fd (file <$> fds (proc st) !! programfd st).
Proof.
  intros Hready Ep S Hopen.
  assert (programfd (new_child a pipe parent) = fd) as E0 by (simpl; by rewrite Ep).
  destruct (ready_program _ _ _ _ Hready fd Ep) as [H3 _].
  pose proof (settled_program _ _ _ _ _ _ S) as Hp. rewrite E0 in Hp.
  destruct Hp as [[? ?]|(Hge & Hor & Hf)]; [lia|].
  assert (image_of st = ByDescriptor (programfd st)) as Hi
    by (unfold image_of; by rewrite decide_True by lia).
  destruct (Hopen _ Hi) as [d Hd].
  destruct (settled_ends _ _ _ _ _ _ S) as [_ H10].
  assert (programfd st = 10 ∨ programfd st = 11) as Hcase.
  { destruct (decide (programfd st = 10)); [by left|right].
    by destruct (settled_rest _ _ _ _ _ _ S (programfd st) d ltac:(lia) Hd). }
  split_and!; [done|lia|]. unfold program_file. destruct Hcase as [E|E].
  - split; [|tauto]. by rewrite E, (settled_pipe _ _ _ _ _ _ S).
  - split; [intros Hd'; apply H10 in Hd'; lia|]. intros _. rewrite E. by apply Hf.
Qed.

(** Every child becomes the program or reports. *)
Lemma child_became :
  ready pipe_file a pipe T → args_ok a →
  let e := system_spawn_child_main (new_child a pipe parent) in
  reported pipe_file e ∨ became e.
Proof.
  intros Hready Hargs e. destruct (child_end Hready Hargs) as [?|(st & S & Hopen & Hc & He)];
    [by left|right].
  exists (image_of st), (match image_of st with
    | ByDescriptor fd => file <$> fds (proc st) !! fd | _ => None end),
    (file <$> filter (λ x, cloexec x.2 = false) (fds (proc st))), (calls (proc st)).
  split_and!; [exact He|exact Hc|].
  assert ((∀ fd, program a ≠ ByDescriptor fd) → image_of st = program a) as Hnamed.
  { intros Hn. destruct (settled_ends _ _ _ _ _ _ S) as [Hnone _].
    unfold image_of. rewrite Hnone by (simpl; destruct (program a); done || by edestruct Hn).
    by rewrite decide_False, (settled_args _ _ _ _ _ _ S) by tauto. }
  destruct (program a) as [?|?|fd] eqn:Ep; [by rewrite Hnamed by done..|].
  destruct (settled_image fd st Hready Ep S Hopen) as (-> & ? & ?).
  split_and!; [by eexists|done|done].
Qed.

(** A program named by a descriptor of number 12 or more never starts,
    whatever the kernel allows: [close_range] has closed the descriptor before
    [fexecve] uses it, and the parent is told so. *)
Theorem high_program_descriptor_fails fd :
  ready pipe_file a pipe T → args_ok a → program a = ByDescriptor fd → 12 ≤ fd →
  ∃ e, (system_spawn_child_main (new_child a pipe parent)).2 = Reported (Some pipe_file) e.
Proof.
  intros Hready Hargs Ep Hfd.
  destruct (child_became Hready Hargs) as [?|(? & ? & ? & ? & _ & _ & Hp)]; [done|].
  rewrite Ep in Hp. lia.
Qed.
End child.

(** C30: with arguments that [system.spawn] has accepted, their handles open, and
    the parent's three standard descriptors open ([ready]), the child always ends
    in one of two ways: as the program that the arguments name, executed last and
    with the arguments and the environment they give, or with the [errno] of the
    call that failed written to the pipe the parent reads; no [assert] fails, no
    empty [optional] is read, and the pipe is never lost on the way.  A program
    that is named by a descriptor is the file of that descriptor, which is below
    12, except when the descriptor is 10, or is below 10 and moved to 10
    ([displaced]): then what is executed is the pipe. *)
Theorem child_starts_or_reports `{LuaApi} `{SchedulerLimits} `{Kernel}
    view opts system cap_sandboxed a pipe_file pipe parent :
  read_spawn_arguments view opts system cap_sandboxed = inr a →
  ready pipe_file a pipe (fds parent) →
  let e := system_spawn_child_main (new_child a pipe parent) in
  match e.2 with
  | Image _ _ => became pipe_file a pipe parent e
  | ending => ∃ errno, ending = Reported (Some pipe_file) errno
  end.
Proof.
  intros E Hready e. apply checks_passed, accepted_args_ok in E.
  destruct (child_became pipe_file a pipe parent Hready E) as [[n He]|Hb].
  - unfold e. rewrite He. by exists n.
  - pose proof Hb as (? & f & inherited & ? & He & _). unfold e. rewrite He. exact Hb.
Qed.

Module Examples.
Import Ieee754.
#[local] Open Scope Z_scope.

(** A kernel that refuses nothing. *)
#[local] Instance permissive : Kernel := {|
  refusal _ _ := None; egid_of _ := 0; euid_of _ := 0; getpgrp _ := 1 |}.
#[local] Instance limits : SchedulerLimits := {|
  priority_min _ := 1; priority_max _ := 99 |}.

(** Two handles, 3 and 4, which the program is to find the other way round; its
    errors go to 3 as well. *)
Definition view : lua_view := {|
  getfield v name :=
    if decide (name = "program") then LString (lit "sh")
    else if decide (name = "stdout") then LString (lit "share")
    else if decide (name = "stderr") then LUserdata 3%nat
    else if decide (name = "extra_fds") then LTable 2%nat
    else LNil;
  table_at _ := Table [(LNumber (lua_pushinteger 3), LUserdata 4%nat);
                       (LNumber (lua_pushinteger 4), LUserdata 3%nat)] None;
  userdata_at u := HandleOf (Some (Z.of_nat u)) |}.

Definition swapped : spawn_arguments :=
  SpawnArguments (ByName (lit "sh")) SIGTERM [] [] (-1) 1 3 [(3, 4); (4, 3)] None None
    false (-1) None (-1) no_id no_id no_id no_id None None None (-1) None
    ((λ name, (name, -1)) <$> namespaces) false.

Lemma swapped_accepted : read_spawn_arguments view (LTable 1%nat) Linux false = inr swapped.
Proof. vm_compute. reflexivity. Qed.

(** Besides the handles, a descriptor without [FD_CLOEXEC] and the pipe, 6. *)
Definition parent : process :=
  Process {[0 := Descriptor 20%nat false; 1 := Descriptor 21%nat false; 2 := Descriptor 22%nat false;
            3 := Descriptor 23%nat true; 4 := Descriptor 24%nat true; 5 := Descriptor 25%nat false;
            6 := Descriptor 26%nat true; 12 := Descriptor 32%nat true]} 100%nat [].

Lemma parent_nonneg n : is_Some (fds parent !! n) → 0 ≤ n.
Proof.
  intros [d Hd]. revert n d Hd. apply (map_Forall_lookup (λ n (_ : descriptor), 0 ≤ n)).
  apply (bool_decide_unpack _). vm_compute. exact I.
Qed.

Lemma parent_standard n : 0 ≤ n < 3 → ∃ f, fds parent !! n = Some (Descriptor f false).
Proof.
  intros Hn. assert (n = 0 ∨ n = 1 ∨ n = 2) as [-> | [-> | ->]] by lia; by eexists.
Qed.

Lemma swapped_ready : ready 26%nat swapped 6 (fds parent).
Proof.
  split; [apply parent_nonneg|apply parent_standard|done|by left|by right; left| | |done].
  - right; right. split; [done|by eexists].
  - intros dst src [[= -> ->]|[[= -> ->]|[]%elem_of_nil]%elem_of_cons]%elem_of_cons;
      (split; [done|by eexists]).
Qed.

Lemma accepted_arguments_witness : accepted swapped.
Proof.
  refine (accepted_arguments view (LTable 1%nat) Linux false swapped _). vm_compute. reflexivity.
Defined.

(** What the program finds: its input is the read end of a new pipe. *)
Definition found : gmap Z nat :=
  {[0 := 100%nat; 1 := 21%nat; 2 := 23%nat; 3 := 24%nat; 4 := 23%nat]}.

Lemma found_spec : (system_spawn_child_main (new_child swapped 6 parent)).2 = Image None found.
Proof. vm_compute. reflexivity. Qed.

Lemma child_starts_or_reports_witness :
  became 26%nat swapped 6 parent (system_spawn_child_main (new_child swapped 6 parent)).
Proof.
  pose proof (child_starts_or_reports view (LTable 1%nat) Linux false swapped 26%nat 6 parent
    swapped_accepted swapped_ready) as Hends.
  cbv zeta in Hends. rewrite found_spec in Hends. exact Hends.
Defined.

Lemma child_inherits_witness :
  found !! 4 = inherited_file swapped parent 4 ∧ found !! 4 = Some 23%nat.
Proof.
  split; [|reflexivity].
  refine (child_inherits 26%nat swapped 6 parent
    (system_spawn_child_main (new_child swapped 6 parent)).1 None found swapped_ready _ _ 4).
  - by split.
  - vm_compute. reflexivity.
Defined.

(** The same with a program that is named by a descriptor. *)
Definition by_descriptor (fd : Z) : spawn_arguments :=
  SpawnArguments (ByDescriptor fd) SIGTERM [] [] 0 1 2 [] None None
    false (-1) None (-1) no_id no_id no_id no_id None None None (-1) None [] false.

Lemma by_descriptor_ready fd :
  3 ≤ fd → is_Some (fds parent !! fd) → ready 26%nat (by_descriptor fd) 6 (fds parent).
Proof.
  intros H3 Hfd.
  split; [apply parent_nonneg|apply parent_standard|done|by right; left..| |].
  - by intros ? ? ?%elem_of_nil.
  - by intros ? [= <-].
Qed.

Lemma high_program_descriptor_fails_witness :
  ∃ e, (system_spawn_child_main (new_child (by_descriptor 12) 6 parent)).2 =
    Reported (Some 26%nat) e.
Proof.
  refine (high_program_descriptor_fails 26%nat (by_descriptor 12) 6 parent 12 _ _ _ _);
    [apply by_descriptor_ready; [done|by eexists]|by split|reflexivity|done].
Defined.

(** A descriptor of a low number may fare no better: 3 is moved to 11, as the pipe was moved to
    10 before; but when the pipe is at 10 or more already, 3 is moved to 10,
    where the pipe takes its place, and the child tries to execute the pipe. *)
Lemma low_program_descriptor :
  (system_spawn_child_main (new_child (by_descriptor 3) 6 parent)).2 =
    Image (Some 23%nat) {[0 := 20%nat; 1 := 21%nat; 2 := 22%nat]} ∧
  let parent' := with_fds (λ m, <[20 := Descriptor 26%nat true]> (delete 6 m)) parent in
  (system_spawn_child_main (new_child (by_descriptor 3) 20 parent')).2 =
    Image (Some 26%nat) {[0 := 20%nat; 1 := 21%nat; 2 := 22%nat]}.
Proof. split; vm_compute; reflexivity. Qed.

Lemma low_program_displaced :
  displaced (by_descriptor 3) 20 parent ∧ ¬ displaced (by_descriptor 3) 6 parent.
Proof.
  split; [right; split_and!; [done..|by intros ?%elem_of_nil]|].
  by intros [?|(_ & _ & ? & _)].
Qed.
End Examples.
