(* ===== verification/SpawnParent.v ===== *)
(** The parent's side of [system.spawn], the end of [system_spawn] in
    [src/src/linux/system/spawn.cpp] and [src/src/freebsd/system/spawn.cpp]: a
    pipe, a child that has a copy of the table of descriptors, and what is read
    from the pipe tells whether [exec] succeeded. *)
From S2P Require Import Prelude Errors Lua SpawnArgs SpawnChild SpawnSpec SpawnMoves SpawnPromises.
#[local] Open Scope Z_scope.

(** [clone] and [pdfork] may fail. *)
Class Cloning := { clone_refused : process → option Z }.

(** What [read] finds in a pipe whose write end only the child has.  A child
    that does not become the program ends, so that the pipe is closed. *)
Inductive reading : Set := Reply (errno : Z) | EndOfFile | Blocks.

Definition read_reply (write_file : nat) (e : ending) : reading :=
  match e with
  | Reported (Some f) errno => if decide (f = write_file) then Reply errno else EndOfFile
  | Reported None _ | Broken => EndOfFile
  | Image _ inherited =>
      if decide (map_Exists (λ _ f, f = write_file) inherited) then Blocks else EndOfFile
  end.

Inductive spawned : Type :=
| Failed (errno : Z)
| Spawned (pidfd : Z) (child : process * ending)
| Blocked.

Definition close_in (fd : Z) (p : process) : process := with_fds (delete fd) p.

(** [CLONE_PIDFD]: a descriptor of the child, closed on [exec]. *)
Definition open_pidfd (p : process) : Z * process :=
  let fd := lowest (fds p) in
  (fd, Process (<[fd := Descriptor (next_file p) true]> (fds p)) (S (next_file p)) (calls p)).

Section parent.
Context `{Kernel} `{Cloning}.

Definition spawn_process (a : spawn_arguments) (parent : process) : process * spawned :=
  match perform Pipe parent with
  | inl e => (parent, Failed e)
  | inr p =>
      let '(r, w) := pipe_ends parent in
      let write_file := S (next_file parent) in
      match clone_refused p with
      | Some e => (close_in w (close_in r p), Failed e)
      | None =>
          let child := system_spawn_child_main (new_child a w p) in
          let '(pidfd, p) := open_pidfd p in
          let p := close_in w p in
          match read_reply write_file child.2 with
          | Reply e => (close_in r (close_in pidfd p), Failed e)
          | EndOfFile => (close_in r p, Spawned pidfd child)
          | Blocks => (p, Blocked)
          end
      end
  end.

(** * What the parent can count on *)

(** The parent has its standard descriptors, and the handles in the arguments
    are open. *)
Record opened (a : spawn_arguments) (T : gmap Z descriptor) : Prop := {
  opened_nonneg n : is_Some (T !! n) → 0 ≤ n;
  opened_standard n : 0 ≤ n < 3 → ∃ f, T !! n = Some (Descriptor f false);
  opened_stdin : source_ok T (proc_stdin a) 0;
  opened_stdout : source_ok T (proc_stdout a) 1;
  opened_stderr : source_ok T (proc_stderr a) 2;
  opened_extra dst src : (dst, src) ∈ extra_fds a → 3 ≤ src ∧ is_Some (T !! src);
  opened_program fd : program a = ByDescriptor fd → 3 ≤ fd ∧ is_Some (T !! fd);
}.

(** Files are numbered as they are opened. *)
Definition numbered (p : process) : Prop :=
  map_Forall (λ _ d, (file d < next_file p)%nat) (fds p).

Section pipe.
Variables (a : spawn_arguments) (parent : process).
Hypothesis Hopen : opened a (fds parent).
#[local] Abbreviation r := (pipe_ends parent).1.
#[local] Abbreviation w := (pipe_ends parent).2.
#[local] Abbreviation nf := (next_file parent).

Lemma pipe_ends_fresh : fds parent !! r = None ∧ fds parent !! w = None ∧ r ≠ w ∧ 3 ≤ r ∧ 3 ≤ w.
Proof.
  unfold pipe_ends. simpl. set (rd := lowest (fds parent)).
  set (m := <[rd := _]> (fds parent)).
  destruct (lowest_free (fds parent)) as [Hr Hr0]. fold rd in Hr, Hr0.
  destruct (lowest_free m) as [Hw Hw0]. set (wr := lowest m) in *.
  assert (wr ≠ rd) as Hne by (intros E; unfold m in Hw; by rewrite E, lookup_insert_eq in Hw).
  unfold m in Hw. rewrite lookup_insert_ne in Hw by done.
  assert (∀ n, 0 ≤ n → fds parent !! n = None → 3 ≤ n) as Hhigh.
  { intros n Hn0 Hn. destruct (decide (n < 3)); [|lia].
    destruct (opened_standard _ _ Hopen n ltac:(lia)) as [f Hf]. congruence. }
  split_and!; auto.
Qed.

(** The parent once it has made the pipe. *)
Definition piped_parent : process :=
  logged Pipe
    (Process (<[w := Descriptor (S nf) false]> (<[r := Descriptor nf false]> (fds parent)))
       (S (S nf)) (calls parent)).

Lemma perform_pipe : refusal Pipe parent = None → perform Pipe parent = inr piped_parent.
Proof.
  intros Hr. unfold perform, piped_parent. rewrite Hr. simpl.
  by destruct (pipe_ends parent).
Qed.

Lemma fds_piped :
  fds piped_parent = <[w := Descriptor (S nf) false]> (<[r := Descriptor nf false]> (fds parent)).
Proof. done. Qed.

Lemma piped_lookup n :
  n ≠ r → n ≠ w → fds piped_parent !! n = fds parent !! n.
Proof. intros. rewrite fds_piped, !lookup_insert_ne by congruence. done. Qed.

Lemma piped_keeps n d : fds parent !! n = Some d → fds piped_parent !! n = Some d.
Proof.
  intros Hn. destruct pipe_ends_fresh as (Hr & Hw & _).
  rewrite piped_lookup; [done|intros ->; congruence|intros ->; congruence].
Qed.

Lemma piped_ready : ready (S nf) a w (fds piped_parent).
Proof.
  destruct pipe_ends_fresh as (Hr & Hw & Hne & Hr3 & Hw3).
  assert (∀ n, is_Some (fds parent !! n) → is_Some (fds piped_parent !! n)) as Hs
    by (intros n [d Hd]; exists d; by apply piped_keeps).
  assert (∀ src n, source_ok (fds parent) src n → source_ok (fds piped_parent) src n) as Hsrc
    by (intros src n [?|[?|[? ?]]]; [by left|by right; left|right; right; auto]).
  split.
  - intros n. destruct (decide (n = r)) as [->|]; [lia|].
    destruct (decide (n = w)) as [->|]; [lia|]. rewrite piped_lookup by done.
    apply (opened_nonneg _ _ Hopen).
  - intros n Hn. destruct (opened_standard _ _ Hopen n Hn) as [f Hf].
    exists f. by apply piped_keeps.
  - split; [done|]. by rewrite fds_piped, lookup_insert_eq.
  - apply Hsrc, Hopen.
  - apply Hsrc, Hopen.
  - apply Hsrc, Hopen.
  - intros dst src Hin. destruct (opened_extra _ _ Hopen _ _ Hin). auto.
  - intros fd Hp. destruct (opened_program _ _ Hopen _ Hp). auto.
Qed.

(** Undoing it. *)
Lemma unpipe m' : delete r (delete w (<[w := m']> (<[r := Descriptor nf false]> (fds parent)))) =
  fds parent.
Proof.
  destruct pipe_ends_fresh as (Hr & Hw & Hne & _).
  rewrite delete_insert_id, delete_insert_id; [done|done|].
  by rewrite lookup_insert_ne by congruence.
Qed.

(** ** The program does not get the pipe *)
Hypothesis Hnum : numbered parent.

Lemma old_file src f :
  is_Some (fds parent !! src) → file <$> fds piped_parent !! src = Some f → (f < nf)%nat.
Proof.
  intros [d Hd]. rewrite (piped_keeps _ _ Hd). intros [= <-].
  exact (map_Forall_lookup_1 _ _ _ _ Hnum Hd).
Qed.

Lemma standard_file_new (write : bool) src fileno k f n :
  source_ok (fds parent) src fileno → 0 ≤ fileno < 3 → (S nf < k)%nat →
  standard_file (if write then snd else fst) (fds piped_parent) src k = (f, n) →
  f ≠ Some (S nf) ∧ (S nf < n)%nat.
Proof.
  intros Hs Hn Hk. unfold standard_file. case_decide as Hm.
  - intros [= <- <-]. destruct write; simpl; split; (intros [=]; lia) || lia.
  - intros [= <- <-]. split; [|done]. intros E. apply old_file in E; [lia|].
    destruct Hs as [?|[->|[_ ?]]]; [done| |done].
    destruct (opened_standard _ _ Hopen _ Hn) as [g Hg]. by eexists.
Qed.

Lemma standard_files_new : Some (S nf) ∉ standard_files a piped_parent.
Proof.
  unfold standard_files.
  destruct (standard_file fst _ (proc_stdin a) _) as [f0 n0] eqn:E0.
  apply (standard_file_new false _ 0) in E0 as [Hf0 Hn0]; [|apply Hopen|lia|simpl; lia].
  destruct (standard_file snd _ (proc_stdout a) n0) as [f1 n1] eqn:E1.
  apply (standard_file_new true _ 1) in E1 as [Hf1 Hn1]; [|apply Hopen|lia|done].
  destruct (standard_file snd _ (proc_stderr a) n1) as [f2 n2] eqn:E2.
  apply (standard_file_new true _ 2) in E2 as [Hf2 _]; [|apply Hopen|lia|done].
  rewrite !not_elem_of_cons. split_and!; try congruence. apply not_elem_of_nil.
Qed.

Lemma source_of_elem n l src : source_of n l = Some src → (n, src) ∈ l.
Proof.
  unfold source_of. destruct (list_find _ l) as [[i [d s]]|] eqn:E; [|done].
  intros [= <-]. apply find_some in E as [Hin <-]. done.
Qed.

Lemma inherited_new n : inherited_file a piped_parent n ≠ Some (S nf).
Proof.
  unfold inherited_file, inherited_at. case_decide.
  - intros E. apply standard_files_new.
    destruct (standard_files a piped_parent !! Z.to_nat n) as [f|] eqn:El; [|done].
    simpl in E. subst f. by eapply list_elem_of_lookup_2.
  - case_decide; [|done]. unfold extra_file.
    destruct (source_of n (extra_fds a)) as [src|] eqn:Es; [|done]. simpl. intros E.
    apply source_of_elem in Es. destruct (opened_extra _ _ Hopen _ _ Es) as [_ Hs].
    apply old_file in E; [lia|done].
Qed.

(** What the parent reads. *)
Lemma reply_spec :
  args_ok a →
  let e := system_spawn_child_main (new_child a w piped_parent) in
  (∃ errno, e.2 = Reported (Some (S nf)) errno ∧ read_reply (S nf) e.2 = Reply errno) ∨
  (became (S nf) a w piped_parent e ∧ read_reply (S nf) e.2 = EndOfFile).
Proof.
  intros Hargs e. pose proof piped_ready as Hready.
  destruct (child_became _ _ _ _ Hready Hargs) as [[n He]|Hb].
  { left. exists n. split; [done|]. unfold e. rewrite He. simpl. by rewrite decide_True. }
  right. split; [done|]. destruct Hb as (? & f & inherited & ? & He & _).
  pose proof (image_inherited _ _ _ _ f inherited Hready Hargs He) as Hn.
  unfold e. rewrite He. simpl. rewrite decide_False; [done|]. intros (n & g & Hg & ->).
  rewrite Hn in Hg. by apply (inherited_new n).
Qed.
End pipe.

Section outcome.
Variables (a : spawn_arguments) (parent : process).
#[local] Abbreviation r := (pipe_ends parent).1.
#[local] Abbreviation w := (pipe_ends parent).2.
#[local] Abbreviation nf := (next_file parent).
#[local] Abbreviation piped_parent := (piped_parent parent).


(** The parent's table after the other ways out. *)
Lemma without_child m d :
  opened a (fds parent) → fds piped_parent !! m = None →
  delete r (delete m (delete w (<[m := d]> (fds piped_parent)))) = fds parent ∧
  delete r (delete w (<[m := d]> (fds piped_parent))) = <[m := d]> (fds parent).
Proof.
  intros Hopen Hm. pose proof (unpipe a parent Hopen (Descriptor (S nf) false)) as Hu.
  rewrite <- fds_piped in Hu. split.
  - by rewrite (delete_delete _ m w), delete_insert_id by done.
  - assert (m ≠ r ∧ m ≠ w) as [? ?].
    { rewrite fds_piped in Hm. split; intros ->; rewrite ?lookup_insert_eq in Hm; try done.
      rewrite lookup_insert in Hm. case_decide; [done|]. by rewrite lookup_insert_eq in Hm. }
    by rewrite !delete_insert_ne, Hu by congruence.
Qed.

(** C31: with accepted arguments, their handles and the three standard descriptors
    open ([opened]), [system.spawn] never blocks, leaks no descriptor and misses no
    failure: when the pipe, the process or any call of the child up to [exec] fails,
    the caller gets that [errno] and its descriptors are what they were; otherwise
    the child has become the program that the arguments name ([became]: a program
    named by a descriptor that is displaced is the pipe), and the only new
    descriptor is the one of the child, which is closed on [exec]. *)
Theorem spawn_process_outcome :
  opened a (fds parent) → numbered parent → args_ok a →
  let child := system_spawn_child_main (new_child a w piped_parent) in
  let '(p, o) := spawn_process a parent in
  match o with
  | Failed e =>
      fds p = fds parent ∧
      (refusal Pipe parent = Some e ∨ clone_refused piped_parent = Some e ∨
       child.2 = Reported (Some (S nf)) e)
  | Spawned pidfd c =>
      c = child ∧ became (S nf) a w piped_parent c ∧ fds parent !! pidfd = None ∧
      ∃ file, fds p = <[pidfd := Descriptor file true]> (fds parent)
  | Blocked => False
  end.
Proof.
  intros Hopen Hnum Hargs child. unfold spawn_process.
  destruct (refusal Pipe parent) as [e|] eqn:Er; [unfold perform; rewrite Er; auto|].
  rewrite perform_pipe by done.
  pose proof (reply_spec a parent Hopen Hnum Hargs) as Hreply. fold child in Hreply.
  pose proof (lowest_free (fds piped_parent)) as [Hfree _].
  pose proof (without_child (lowest (fds piped_parent))
    (Descriptor (next_file piped_parent) true) Hopen Hfree) as [Hgone Hkept].
  pose proof (unpipe a parent Hopen (Descriptor (S nf) false)) as Hu. rewrite <- fds_piped in Hu.
  rewrite (surjective_pairing (pipe_ends parent)). cbv zeta beta iota.
  destruct (clone_refused piped_parent) as [e|] eqn:Ec.
  { split; [|by right; left]. unfold close_in, with_fds. cbn [fds]. by rewrite delete_delete. }
  unfold open_pidfd. fold child.
  destruct Hreply as [(e & He & ->)|(Hb & ->)]; unfold close_in, with_fds;
    cbn [fds].
  - split; [exact Hgone|]. by right; right.
  - split_and!; [done|done| |by eexists].
    destruct (fds parent !! lowest (fds piped_parent)) eqn:E; [|done].
    by rewrite (piped_keeps a parent Hopen _ _ E) in Hfree.
Qed.
End outcome.
End parent.

Module Examples.
#[local] Instance permissive : Kernel := {|
  refusal _ _ := None; egid_of _ := 0; euid_of _ := 0; getpgrp _ := 1 |}.
#[local] Instance clones : Cloning := {| clone_refused _ := None |}.

Definition parent : process :=
  Process {[0 := Descriptor 20 false; 1 := Descriptor 21 false; 2 := Descriptor 22 false;
            3 := Descriptor 23 true; 5 := Descriptor 25 false]} 100 [].

(** A program with the handle 3 as its descriptor 7. *)
Definition with_handle : spawn_arguments :=
  SpawnArguments (ByName (lit "sh")) SIGTERM [] [] (-1) 1 2 [(7, 3)] None None
    false (-1) None (-1) no_id no_id no_id no_id None None None (-1) None [] false.

Lemma with_handle_opened : opened with_handle (fds parent).
Proof.
  split.
  - intros n [d Hd]. revert n d Hd. apply (map_Forall_lookup (λ n (_ : descriptor), 0 ≤ n)).
    apply (bool_decide_unpack _). vm_compute. exact I.
  - intros n Hn. assert (n = 0 ∨ n = 1 ∨ n = 2) as [-> | [-> | ->]] by lia; by eexists.
  - by left.
  - by right; left.
  - by right; left.
  - intros dst src [[= -> ->]|[]%elem_of_nil]%elem_of_cons. split; [done|by eexists].
  - done.
Qed.

Lemma parent_numbered : numbered parent.
Proof. apply (bool_decide_unpack _). vm_compute. exact I. Qed.

Lemma spawn_process_outcome_witness :
  let '(p, o) := spawn_process with_handle parent in
  match o with
  | Failed e => fds p = fds parent
  | Spawned pidfd c =>
      became 101%nat with_handle 6 (piped_parent parent) c ∧ fds parent !! pidfd = None
  | Blocked => False
  end.
Proof.
  pose proof (spawn_process_outcome with_handle parent with_handle_opened parent_numbered
    ltac:(by split)) as Hout. cbv zeta in Hout.
  destruct (spawn_process with_handle parent) as [p [e|pidfd c|]];
    [exact (proj1 Hout)|exact (conj (proj1 (proj2 Hout)) (proj1 (proj2 (proj2 Hout))))|exact Hout].
Defined.

(** The program runs, and the parent has one descriptor more, 7: the pipe was 4
    and 6. *)
Lemma with_handle_runs :
  let '(p, o) := spawn_process with_handle parent in
  match o with
  | Spawned pidfd c =>
      pidfd = 7 ∧ c.2 = Image None {[0 := 102%nat; 1 := 21%nat; 2 := 22%nat; 7 := 23%nat]}
  | _ => False
  end.
Proof. vm_compute. split; reflexivity. Qed.
End Examples.
