(* ===== verification/Subprocess.v ===== *)
(** Subprocesses on Linux: the parent's side of [system.spawn] and the
    [subprocess] userdata, [src/src/linux/system/spawn.cpp].

    A process has an identity, which a pidfd refers to, and a pid, which the
    system gives to another process once the first has been waited for: by this
    program, or, while SIGCHLD is ignored, by the system itself as soon as the
    process ends. *)
From S2P Require Import Prelude Errors Lua Vm FiberOps SpawnArgs SpawnChild.
#[local] Open Scope Z_scope.

(** * Processes *)
Inductive si_code_t : Set := CLD_EXITED | CLD_KILLED | CLD_DUMPED | CLD_OTHER.
Record siginfo : Set := Siginfo { si_code : si_code_t; si_status : Z }.

(** A process that has not been waited for. *)
Inductive life : Set := Alive | Ended (i : siginfo).
Record running_process : Set := RunningProcess { pid : Z; life_of : life }.

(** What the kernel may refuse to the owner of a pid, and to [sigaction], which
    only asks or also sets; [unwritten] is what is in a [siginfo_t] that [waitid]
    did not write, an uninitialized object. *)
Class ProcessRights := {
  kill_refused : nat → Z → option Z;
  cap_get_refused : nat → option Z;
  sigaction_refused : Z → bool → option Z;
  unwritten : nat → siginfo;
}.

(** What a signal does: the default, nothing, or a handler of Asio. *)
Inductive disposition : Set := SIG_DFL | SIG_IGN | SIG_HANDLER.
#[export] Instance disposition_eq_dec : EqDecision disposition.
Proof. solve_decision. Defined.
Definition sigchld : Z := 17.

Definition ESRCH : Z := 3.

(** * The userdata *)
Record spawn_reaper : Set := SpawnReaper {
  waiter : nat;                  (* the process its pidfd refers to *)
  childpid : Z;
  reaper_signal : Z;             (* [signal_on_gcreaper] *)
}.

Record subprocess : Set := Subprocess {
  reaper : option spawn_reaper;
  wait_in_progress : bool;
  info : option siginfo;
}.

(** The operation [async_wait] starts: pending, or with its handler posted to
    the strand, either because the pidfd is readable or cancelled. *)
Inductive progress : Set := Pending | Completed (aborted : bool).
Record wait_op : Set := WaitOp {
  wait_on : loc;                 (* [p] *)
  wait_process : nat;            (* [waiter] *)
  wait_progress : progress;
}.

(** [waits] has the operations of the fibers that wait, [reaps] those that
    destroyed subprocesses have left. *)
Record spawn_state : Type := SpawnState {
  vm : vm_context;
  subprocesses : gmap loc subprocess;
  processes : gmap nat running_process;
  waits : gmap loc wait_op;
  reaps : list nat;
  signals : list (nat * Z);      (* who got which signal from the VM *)
  dispositions : gmap Z disposition;
}.

Definition with_vm (f : vm_context → vm_context) (st : spawn_state) : spawn_state :=
  SpawnState (f (vm st)) (subprocesses st) (processes st) (waits st) (reaps st) (signals st)
    (dispositions st).
Definition with_subprocesses (f : gmap loc subprocess → gmap loc subprocess)
    (st : spawn_state) : spawn_state :=
  SpawnState (vm st) (f (subprocesses st)) (processes st) (waits st) (reaps st) (signals st)
    (dispositions st).
Definition with_processes (f : gmap nat running_process → gmap nat running_process)
    (st : spawn_state) : spawn_state :=
  SpawnState (vm st) (subprocesses st) (f (processes st)) (waits st) (reaps st) (signals st)
    (dispositions st).
Definition with_waits (f : gmap loc wait_op → gmap loc wait_op) (st : spawn_state) :
    spawn_state :=
  SpawnState (vm st) (subprocesses st) (processes st) (f (waits st)) (reaps st) (signals st)
    (dispositions st).
Definition with_reaps (f : list nat → list nat) (st : spawn_state) : spawn_state :=
  SpawnState (vm st) (subprocesses st) (processes st) (waits st) (f (reaps st)) (signals st)
    (dispositions st).
Definition with_signals (f : list (nat * Z) → list (nat * Z)) (st : spawn_state) :
    spawn_state :=
  SpawnState (vm st) (subprocesses st) (processes st) (waits st) (reaps st) (f (signals st))
    (dispositions st).

Definition with_dispositions (f : gmap Z disposition → gmap Z disposition)
    (st : spawn_state) : spawn_state :=
  SpawnState (vm st) (subprocesses st) (processes st) (waits st) (reaps st) (signals st)
    (f (dispositions st)).

Definition set_subprocess (u : loc) (p : subprocess) : spawn_state → spawn_state :=
  with_subprocesses <[u := p]>.

(** The process that has a pid. *)
Definition process_of (n : Z) (m : gmap nat running_process) : option nat :=
  fst <$> (snd <$> list_find (λ x, pid x.2 = n) (map_to_list m)).

(** [waitid(P_PIDFD, .., WEXITED)]: it blocks while the child runs; a child that
    the system has waited for is no child any more (ECHILD, the structure stays as
    it is). *)
Inductive wait_result : Type := Blocks | NoChild | Waited (i : siginfo) (st : spawn_state).
Definition waitid (id : nat) (st : spawn_state) : wait_result :=
  match processes st !! id with
  | Some (RunningProcess _ (Ended i)) => Waited i (with_processes (delete id) st)
  | Some (RunningProcess _ Alive) => Blocks
  | None => NoChild
  end.

(** The system itself waits for the children of the program. *)
Definition ignores_children (st : spawn_state) : Prop :=
  dispositions st !! sigchld = Some SIG_IGN.
#[export] Instance ignores_children_dec st : Decision (ignores_children st).
Proof. unfold ignores_children. apply _. Defined.

Section handlers.
Context `{LuaApi} `{ProcessRights}.

Definition kill (n sig : Z) (st : spawn_state) : Z + spawn_state :=
  match process_of n (processes st) with
  | None => inl ESRCH
  | Some id =>
      match kill_refused id sig with
      | Some e => inl e
      | None => inr (with_signals (λ l, l ++ [(id, sig)]) st)
      end
  end.

(** [~subprocess]: a last signal, and the wait is left to the reactor. *)
Definition subprocess_gc (u : loc) (st : spawn_state) : spawn_state :=
  match subprocesses st !! u with
  | Some (Subprocess (Some r) _ _) =>
      let st := if decide (reaper_signal r ≠ 0) then
                  match kill (childpid r) (reaper_signal r) st with
                  | inl _ => st | inr st => st end
                else st in
      with_reaps (λ l, l ++ [waiter r]) (with_subprocesses (delete u) st)
  | Some (Subprocess None _ _) => with_subprocesses (delete u) st
  | None => st
  end.

(** * Methods *)
Definition system_error (errno : Z) : answer := error (System_code errno).

Definition check_subprocess (L : lua_args) (st : spawn_state) : option (loc * subprocess) :=
  match arg L 1 with
  | Some (LUserdata u) => (λ p, (u, p)) <$> subprocesses st !! u
  | _ => None
  end.

Definition subprocess_wait (L : lua_args) (st : spawn_state) : spawn_state * answer :=
  match unsafe_can_suspend (vm st) with
  | Some e => (st, e)
  | None =>
      match check_subprocess L st with
      | None => (st, error_arg invalid_argument 1)
      | Some (u, p) =>
          match reaper p with
          | None => (st, error no_child_process)
          | Some r =>
              if wait_in_progress p then (st, error device_or_resource_busy)
              else
                let current_fiber := current_fiber_ (vm st) in
                let st := set_subprocess u (Subprocess (reaper p) true (info p)) st in
                let st := with_vm (set_interrupter (Some (ISubprocess u))) st in
                (with_waits <[current_fiber := WaitOp u (waiter r) Pending]> st, Yield)
          end
      end
  end.

(** The interrupter: [p->reaper->waiter->cancel()].  Handlers of operations
    that are still pending go to the strand. *)
Definition wait_aborted : options :=
  Options false false true [AError (Basic_code Asio.basic_errors.operation_aborted)].

Definition cancel_one (id : nat) (f : loc) (st : spawn_state) : spawn_state :=
  match waits st !! f with
  | Some (WaitOp u w Pending) =>
      if decide (w = id) then
        with_vm (post f wait_aborted)
          (with_waits <[f := WaitOp u w (Completed true)]> st)
      else st
  | _ => st
  end.
Definition cancel_waits (id : nat) (st : spawn_state) : spawn_state :=
  foldr (cancel_one id) st (elements (dom (waits st))).

Definition wait_interrupter (u : loc) (st : spawn_state) : option spawn_state :=
  match subprocesses st !! u with
  | Some (Subprocess (Some r) _ _) => Some (cancel_waits (waiter r) st)
  | _ => None                     (* no descriptor to cancel *)
  end.

(** The handler of the wait. *)
Definition on_wait (f : loc) (op : wait_op) (aborted : bool) (opts : options)
    (st : spawn_state) : option spawn_state :=
  let u := wait_on op in
  let st := if valid_ (vm st) then
              with_subprocesses (alter (λ p, Subprocess (reaper p) false (info p)) u) st
            else st in
  if aborted then
    vm' ← Vm.fiber_resume f opts (vm st); Some (with_vm (λ _, vm') st)
  else if negb (valid_ (vm st)) then Some st
  else
    '(i, st) ←
      match waitid (wait_process op) st with
      | Blocks => None
      | NoChild => Some (unwritten (wait_process op), st)
      | Waited i st => Some (i, st)
      end;
    let st := with_subprocesses (alter (λ p, Subprocess None (wait_in_progress p) (Some i)) u) st in
    vm' ← Vm.fiber_resume f opts (vm st); Some (with_vm (λ _, vm') st).

Definition subprocess_kill (L : lua_args) (st : spawn_state) : spawn_state * answer :=
  match arg L 2 with
  | Some (LNumber n) =>
      match check_subprocess L st with
      | None => (st, error_arg invalid_argument 1)
      | Some (u, p) =>
          match reaper p with
          | None => (st, error no_such_process)
          | Some r =>
              match kill (childpid r) (to_int32 (lua_tointeger n)) st with
              | inl e => (st, system_error e)
              | inr st => (st, Return [])
              end
          end
      end
  | _ => (st, ErrorString "bad argument #2 (number expected)")
  end.

Definition subprocess_cap_get (L : lua_args) (st : spawn_state) : spawn_state * answer :=
  match check_subprocess L st with
  | None => (st, error_arg invalid_argument 1)
  | Some (u, p) =>
      match reaper p with
      | None => (st, error no_such_process)
      | Some r =>
          match process_of (childpid r) (processes st) with
          | None => (st, system_error ESRCH)
          | Some id =>
              match cap_get_refused id with
              | Some e => (st, system_error e)
              | None =>
                  let caps := next_loc (vm st) in
                  (with_vm (with_next_loc S) st, Return [RV (LUserdata caps)])
              end
          end
      end
  end.

Definition push_integer (z : Z) : answer := Return [RV (LNumber (lua_pushinteger z))].

Definition subprocess_exit_code (p : subprocess) : answer :=
  match info p with
  | None => error invalid_argument
  | Some i =>
      match si_code i with
      | CLD_EXITED => push_integer (si_status i)
      | CLD_KILLED | CLD_DUMPED => push_integer (128 + si_status i)
      | CLD_OTHER => Stuck                     (* [assert(false)] *)
      end
  end.

Definition subprocess_exit_signal (p : subprocess) : answer :=
  match info p with
  | None => error invalid_argument
  | Some i =>
      match si_code i with
      | CLD_KILLED | CLD_DUMPED => push_integer (si_status i)
      | CLD_EXITED | CLD_OTHER => Return [RV LNil]
      end
  end.

Definition subprocess_pid (p : subprocess) : answer :=
  match reaper p with
  | None => error no_child_process
  | Some r => push_integer (childpid r)
  end.

(** [__index] gives a method, or a property of the first argument. *)
Inductive subprocess_method : Set := MWait | MKill | MCapGet.
Definition subprocess_methods : list (bytes * subprocess_method) :=
  [(lit "wait", MWait); (lit "kill", MKill); (lit "cap_get", MCapGet)].
Definition subprocess_properties : list (bytes * (subprocess → answer)) :=
  [(lit "exit_code", subprocess_exit_code); (lit "exit_signal", subprocess_exit_signal);
   (lit "pid", subprocess_pid)].
Definition subprocess_mt_index (p : subprocess) (L : lua_args) :
    subprocess_method + answer :=
  let key := tostringview (arg L 2) in
  match gperf subprocess_methods key with
  | Some m => inl m
  | None =>
      inr match gperf subprocess_properties key with
          | Some f => f p
          | None => error_index
          end
  end.

(** ** A new subprocess: [exec] succeeded, and the process has a pid of its own. *)
Definition new_subprocess (id : nat) (n sig : Z) (st : spawn_state) : spawn_state * answer :=
  let u := next_loc (vm st) in
  (with_processes <[id := RunningProcess n Alive]>
     (set_subprocess u (Subprocess (Some (SpawnReaper id n sig)) false None)
        (with_vm (with_next_loc S) st)),
   Return [RV (LUserdata u)]).

(** ** Interruption, as in [fiber_interrupt] *)
Definition interrupt (L : lua_args) (st : spawn_state) : option (spawn_state * answer) :=
  let '(vm', a) := fiber_interrupt L (vm st) in
  let st' := with_vm (λ _, vm') st in
  match called_interrupter L (vm st) with
  | Some (ISubprocess u) => st' ← wait_interrupter u st'; Some (st', a)
  | _ => Some (st', a)
  end.

(** ** The reactor *)

(** The pidfd of a process that has ended is readable, waited for or not. *)
Definition wait_ready (f : loc) (st : spawn_state) : spawn_state :=
  match waits st !! f with
  | Some (WaitOp u id Pending) =>
      match processes st !! id with
      | Some (RunningProcess _ Alive) => st
      | Some (RunningProcess _ (Ended _)) | None =>
          with_vm (post f no_options) (with_waits <[f := WaitOp u id (Completed false)]> st)
      end
  | _ => st
  end.

(** The handler a destroyed subprocess has left. *)
Definition reap (id : nat) (st : spawn_state) : option spawn_state :=
  let done := with_reaps (filter (λ x, x ≠ id)) in
  match waitid id st with
  | Blocks => None
  | NoChild => Some (done st)
  | Waited _ st => Some (done st)
  end.

(** ** Signals: [system_signal_ignore] and [system_signal_default] of
    [src/src/system.cpp], once the number is read *)
Definition set_disposition (d : disposition) (is_master : bool) (signo : Z) (st : spawn_state) :
    spawn_state * answer :=
  if negb is_master then (st, error operation_not_permitted)
  else
    match sigaction_refused signo false with
    | Some e => (st, system_error e)
    | None =>
        if decide (dispositions st !! signo = Some SIG_HANDLER)
        then (st, error operation_not_permitted)
        else
          match sigaction_refused signo true with
          | Some e => (st, system_error e)
          | None => (with_dispositions <[signo := d]> st, Return [])
          end
    end.
Definition system_signal_ignore : bool → Z → spawn_state → spawn_state * answer :=
  set_disposition SIG_IGN.
Definition system_signal_default : bool → Z → spawn_state → spawn_state * answer :=
  set_disposition SIG_DFL.

(** The next task of the strand. *)
Definition run_task (st : spawn_state) : option spawn_state :=
  match strand (vm st) with
  | [] => None
  | FiberResume f opts :: q =>
      let st := with_vm (with_strand (λ _, q)) st in
      match waits st !! f with
      | Some (WaitOp u id (Completed aborted)) =>
          on_wait f (WaitOp u id (Completed aborted)) aborted opts
            (with_waits (delete f) st)
      | _ => vm' ← Vm.fiber_resume f opts (vm st); Some (with_vm (λ _, vm') st)
      end
  end.

(** [vm_context::close] destroys every userdata. *)
Definition close_vm (st : spawn_state) : spawn_state :=
  let st := with_vm close st in
  foldr subprocess_gc st (elements (dom (subprocesses st))).
End handlers.

(** * Steps *)
Inductive subprocess_call : Set := CallWait | CallKill | CallCapGet.

Definition call `{LuaApi} `{ProcessRights} (c : subprocess_call) (L : lua_args)
    (st : spawn_state) : spawn_state * answer :=
  match c with
  | CallWait => subprocess_wait L st
  | CallKill => subprocess_kill L st
  | CallCapGet => subprocess_cap_get L st
  end.

(** [lua_yield] leaves the fiber suspended. *)
Definition suspend (a : answer) (st : spawn_state) : spawn_state :=
  match a with
  | Yield => with_vm (λ vm, set_thread (current_fiber_ vm) CoSuspended vm) st
  | _ => st
  end.

(** The processes the VM has to wait for: those of its userdata, and those that
    were left to the reactor. *)
Definition has_child (st : spawn_state) (u : loc) (r : spawn_reaper) : Prop :=
  ∃ p, subprocesses st !! u = Some p ∧ reaper p = Some r.
Definition owns (st : spawn_state) (id : nat) : Prop :=
  (∃ u r, has_child st u r ∧ waiter r = id) ∨ id ∈ reaps st.

(** The interruptions are those of fibers that wait for a subprocess, or for
    something that leaves the VM alone. *)
Definition about_subprocesses (i : option interrupter_t) : Prop :=
  match i with
  | Some (ISubprocess _) | Some (ITimer _) | Some (IEmitSignal _) | Some (ICancel _) | None => True
  | Some (ICond _ _) | Some (IFuture _ _) | Some (IJoin _ _ _) => False
  end.

Section steps.
Context `{LuaApi} `{ProcessRights}.

(** Besides the calls of the running fiber and the handlers: processes end, and
    those that are children of the program are gone then if it ignores SIGCHLD;
    other programs' processes come and go and may get any pid that is free; any
    master VM of the program ignores signals and handles them; and the garbage
    collector finalizes a userdata that no waiting fiber refers to. *)
Inductive subprocess_step : spawn_state → spawn_state → Prop :=
| step_call c L st st' a :
    valid_ (vm st) = true → running (vm st) (current_fiber_ (vm st)) →
    call c L st = (st', a) → subprocess_step st (suspend a st')
| step_spawn id n sig st st' a :
    valid_ (vm st) = true → processes st !! id = None → process_of n (processes st) = None →
    new_subprocess id n sig st = (st', a) → subprocess_step st st'
| step_leave s st :
    running (vm st) (current_fiber_ (vm st)) → (∀ args, s ≠ CoRunning args) →
    subprocess_step st (with_vm (λ vm, set_thread (current_fiber_ vm) s vm) st)
| step_row g st :              (* the fiber disables interruption, ... *)
    running (vm st) (current_fiber_ (vm st)) →
    (∀ row, interrupter (g row) = interrupter row) →
    subprocess_step st (with_vm (λ vm, set_row (current_fiber_ vm) g vm) st)
| step_interrupt L st st' a :
    valid_ (vm st) = true → about_subprocesses (called_interrupter L (vm st)) →
    interrupt L st = Some (st', a) → subprocess_step st st'
| step_ready f st : subprocess_step st (wait_ready f st)
| step_reap id st st' : id ∈ reaps st → reap id st = Some st' → subprocess_step st st'
| step_run st st' :
    (∀ g, ¬ running (vm st) g) → run_task st = Some st' → subprocess_step st st'
| step_gc u st :
    (∀ f op, waits st !! f = Some op → wait_on op ≠ u) → subprocess_step st (subprocess_gc u st)
| step_close st :
    (∀ g, ¬ running (vm st) g) → subprocess_step st (close_vm st)
| step_exit id n i st :
    processes st !! id = Some (RunningProcess n Alive) → ¬ ignores_children st ∨ ¬ owns st id →
    subprocess_step st (with_processes <[id := RunningProcess n (Ended i)]> st)
| step_exit_unwaited id n st :
    processes st !! id = Some (RunningProcess n Alive) → ignores_children st → owns st id →
    subprocess_step st (with_processes (delete id) st)
| step_ignore is_master signo st st' a :
    system_signal_ignore is_master signo st = (st', a) → subprocess_step st st'
| step_default is_master signo st st' a :
    system_signal_default is_master signo st = (st', a) → subprocess_step st st'
| step_handler signo d st :          (* a set of signals of Asio *)
    d ≠ SIG_IGN → subprocess_step st (with_dispositions <[signo := d]> st)
| step_stranger id n st :
    processes st !! id = None → process_of n (processes st) = None →
    subprocess_step st (with_processes <[id := RunningProcess n Alive]> st)
| step_stranger_gone id st :
    ¬ owns st id → subprocess_step st (with_processes (delete id) st).

(** The runs in which the program does not ignore SIGCHLD. *)
Definition waitable_step (st st' : spawn_state) : Prop :=
  ¬ ignores_children st ∧ subprocess_step st st'.
Definition reachable : spawn_state → spawn_state → Prop := rtc waitable_step.
End steps.
