(* ===== verification/SubprocessSpec.v ===== *)
(** What subprocesses promise: a pid is used only while it is the child's, a
    child is waited for exactly once, and the handlers neither block nor touch
    what is gone. *)
From S2P Require Import Prelude Errors Lua Vm FiberOps SpawnArgs SpawnChild Subprocess.
#[local] Open Scope Z_scope.

(** * Pids *)
Lemma process_of_some n m id :
  process_of n m = Some id → ∃ l, m !! id = Some (RunningProcess n l).
Proof.
  unfold process_of. destruct (list_find _ _) as [[i [id' [n' l]]]|] eqn:E; [|done].
  intros [= <-]. apply list_find_Some in E as (Hin & Hp & _). simpl in Hp. subst n'.
  exists l. apply elem_of_map_to_list. by eapply list_elem_of_lookup_2.
Qed.

Lemma process_of_none n m id l :
  process_of n m = None → m !! id ≠ Some (RunningProcess n l).
Proof.
  unfold process_of. destruct (list_find _ _) as [[i x]|] eqn:E; [done|].
  intros _ Hm. rewrite list_find_None, Forall_forall in E.
  apply (E (id, RunningProcess n l)); [|done]. by apply elem_of_map_to_list.
Qed.

Section spec.
Context `{LuaApi} `{ProcessRights}.

(** * Ownership *)
Record owning (st : spawn_state) : Prop := {
  own_object u v r r' :
    has_child st u r → has_child st v r' → waiter r = waiter r' → u = v;
  own_left u r : has_child st u r → waiter r ∉ reaps st;
  own_once : NoDup (reaps st);
  own_pid u r :
    has_child st u r → ∃ l, processes st !! waiter r = Some (RunningProcess (childpid r) l);
  own_reaps id : id ∈ reaps st → is_Some (processes st !! id);
  own_pids id id' n l l' :
    processes st !! id = Some (RunningProcess n l) →
    processes st !! id' = Some (RunningProcess n l') → id = id';
}.

(** The pid of a child is its own. *)
Lemma own_process_of st u r :
  owning st → has_child st u r → process_of (childpid r) (processes st) = Some (waiter r).
Proof.
  intros O Hr. destruct (own_pid _ O u r Hr) as [l Hl].
  destruct (process_of (childpid r) (processes st)) as [id|] eqn:E.
  - apply process_of_some in E as [l' Hl']. f_equal. by eapply own_pids.
  - by apply (process_of_none _ _ _ _ E) in Hl.
Qed.

(** Ownership does not depend on the VM, the operations and the log. *)
Lemma owning_ext st st' :
  (∀ u r, has_child st' u r ↔ has_child st u r) → processes st' = processes st →
  reaps st' = reaps st → owning st → owning st'.
Proof.
  intros Hc Hp Hr [O1 O2 O3 O4 O5 O6].
  split; rewrite ?Hp, ?Hr; try setoid_rewrite Hc; done.
Qed.

Lemma has_child_insert st u p v r :
  has_child (set_subprocess u p st) v r ↔
  if decide (u = v) then reaper p = Some r else has_child st v r.
Proof.
  unfold has_child. simpl. setoid_rewrite lookup_insert. case_decide; [|done]. naive_solver.
Qed.

(** A change of a userdata that keeps its child. *)
Lemma owning_set st u p p' :
  subprocesses st !! u = Some p → reaper p' = reaper p → owning st →
  owning (set_subprocess u p' st).
Proof.
  intros Hu Hr. apply owning_ext; [|done|done]. intros v r.
  rewrite has_child_insert. case_decide; [|done]. subst v. unfold has_child. rewrite Hr. naive_solver.
Qed.

(** ** Each change of ownership *)
Lemma owning_gc u st : owning st → owning (subprocess_gc u st).
Proof.
  intros O. unfold subprocess_gc.
  destruct (subprocesses st !! u) as [[[r|] w i]|] eqn:Hu; [| |done].
  - set (st1 := if decide _ then _ else _).
    assert (subprocesses st1 = subprocesses st ∧ processes st1 = processes st ∧
      reaps st1 = reaps st) as (E1 & E2 & E3).
    { unfold st1, kill. repeat case_match; by simplify_eq/=. }
    assert (has_child st u r) as Hr by (by eexists).
    destruct O as [O1 O2 O3 O4 O5 O6].
    assert (∀ v q, has_child (with_reaps (λ l, l ++ [waiter r])
      (with_subprocesses (delete u) st1)) v q ↔ v ≠ u ∧ has_child st v q) as Hc.
    { intros v q. unfold has_child. simpl. rewrite E1. setoid_rewrite lookup_delete_Some. naive_solver. }
    split; simpl; rewrite ?E2, ?E3; try done.
    + intros v v' q q' [_ Hq]%Hc [_ Hq']%Hc. by apply O1.
    + intros v q [Hne Hq]%Hc. rewrite elem_of_app, list_elem_of_singleton.
      intros [Hin|Heq]; [by apply (O2 v q)|]. by apply Hne, (O1 v u q r).
    + apply NoDup_app. split_and!; [done| |apply NoDup_singleton].
      intros id Hid ->%list_elem_of_singleton. by apply (O2 u r).
    + intros v q [_ Hq]%Hc. by apply O4 in Hq.
    + intros id. rewrite elem_of_app, list_elem_of_singleton. intros [Hin| ->]; [auto|].
      destruct (O4 u r Hr) as [l ->]. by eexists.
  - revert O. apply owning_ext; [|done|done]. intros v q. unfold has_child. simpl.
    setoid_rewrite lookup_delete_Some. naive_solver.
Qed.

Lemma owning_spawn id n sig st :
  owning st → (∀ u, (next_loc (vm st) ≤ u)%nat → subprocesses st !! u = None) →
  processes st !! id = None → process_of n (processes st) = None →
  owning (new_subprocess id n sig st).1.
Proof.
  intros [O1 O2 O3 O4 O5 O6] Hfr Hid Hn. set (u := next_loc (vm st)).
  assert (∀ v r, has_child (new_subprocess id n sig st).1 v r ↔
    if decide (u = v) then r = SpawnReaper id n sig else has_child st v r) as Hc.
  { intros v r. unfold new_subprocess, has_child. simpl. setoid_rewrite lookup_insert. fold u.
    case_decide; [|done]. naive_solver. }
  assert (∀ v r, has_child st v r → waiter r ≠ id) as Hne.
  { intros v r Hr <-. destruct (O4 v r Hr) as [l Hl]. congruence. }
  split; simpl.
  - intros v v' r r' Hr%Hc Hr'%Hc E.
    destruct (decide (u = v)) as [<-|], (decide (u = v')) as [<-|]; [done| | |by eapply O1].
    + subst r. by destruct (Hne v' r').
    + subst r'. by destruct (Hne v r).
  - intros v r Hr%Hc. case_decide; [subst; simpl|by apply (O2 v r)].
    intros Hin%O5. rewrite Hid in Hin. by destruct Hin.
  - done.
  - intros v r Hr%Hc. case_decide; subst; simpl; [rewrite lookup_insert_eq; by eexists|].
    rewrite lookup_insert_ne by (intros E; by apply (Hne v r)). by apply (O4 v).
  - intros id' Hin. rewrite lookup_insert_is_Some. destruct (decide (id = id')); auto.
  - intros id1 id2 n' l l'. rewrite !lookup_insert. repeat case_decide; subst; try done.
    + intros [= <- <-] E. by apply process_of_none in E.
    + intros E [= <- <-]. by apply process_of_none in E.
    + apply O6.
Qed.

(** ** Changes of the kernel's table *)
Definition distinct_pids (m : gmap nat running_process) : Prop :=
  ∀ id id' n l l', m !! id = Some (RunningProcess n l) → m !! id' = Some (RunningProcess n l') →
    id = id'.

Lemma owning_processes f st :
  owning st → distinct_pids (f (processes st)) →
  (∀ id n l, owns st id → processes st !! id = Some (RunningProcess n l) →
     ∃ l', f (processes st) !! id = Some (RunningProcess n l')) →
  owning (with_processes f st).
Proof.
  intros [O1 O2 O3 O4 O5 O6] Hd Hkeep. split; simpl; try done.
  - intros u r Hr. destruct (O4 u r Hr) as [l Hl]. apply (Hkeep _ _ l); [|done].
    left. by exists u, r.
  - intros id Hin. destruct (O5 id Hin) as [[n l] Hl].
    destruct (Hkeep id n l) as [l' ->]; [by right|done|by eexists].
Qed.

Lemma distinct_delete id m : distinct_pids m → distinct_pids (delete id m).
Proof.
  intros Hd i j n l l' [_ Hi]%lookup_delete_Some [_ Hj]%lookup_delete_Some. by eapply Hd.
Qed.

Lemma distinct_insert id n l m :
  distinct_pids m →
  (∀ id' l', id' ≠ id → m !! id' ≠ Some (RunningProcess n l')) →
  distinct_pids (<[id := RunningProcess n l]> m).
Proof.
  intros Hd Hn i j n' k k'. rewrite !lookup_insert. repeat case_decide; subst; try done.
  - intros [= <- <-] E. by destruct (Hn j k').
  - intros E [= <- <-]. by destruct (Hn i k).
  - apply Hd.
Qed.

Lemma owning_exit id n i st :
  owning st → processes st !! id = Some (RunningProcess n Alive) →
  owning (with_processes <[id := RunningProcess n (Ended i)]> st).
Proof.
  intros O Hid. apply owning_processes; [done| |].
  - apply distinct_insert; [exact (own_pids _ O)|]. intros id' l' Hne E. apply Hne.
    by eapply (own_pids _ O).
  - intros id' n' l _ Hl. rewrite lookup_insert. case_decide; [|by eexists].
    subst. rewrite Hid in Hl. simplify_eq. by eexists.
Qed.

Lemma owning_stranger id n st :
  owning st → processes st !! id = None → process_of n (processes st) = None →
  owning (with_processes <[id := RunningProcess n Alive]> st).
Proof.
  intros O Hid Hn. apply owning_processes; [done| |].
  - apply distinct_insert; [exact (own_pids _ O)|]. intros id' l' _. by apply process_of_none.
  - intros id' n' l _ Hl. rewrite lookup_insert_ne by congruence. by eexists.
Qed.

Lemma owning_gone id st :
  owning st → ¬ owns st id → owning (with_processes (delete id) st).
Proof.
  intros O Hid. apply owning_processes; [done|apply distinct_delete; exact (own_pids _ O)|].
  intros id' n l Ho Hl. rewrite lookup_delete_ne by (intros <-; done). by eexists.
Qed.

(** The owner waits for its child. *)
Lemma owning_reap id st :
  owning st → id ∈ reaps st →
  owning (with_reaps (filter (λ x, x ≠ id)) (with_processes (delete id) st)).
Proof.
  intros [O1 O2 O3 O4 O5 O6] Hid. split; simpl.
  - exact O1.
  - intros u r Hr [_ Hin]%list_elem_of_filter. by apply (O2 u r).
  - by apply NoDup_filter.
  - intros u r Hr. destruct (O4 u r Hr) as [l Hl]. exists l.
    rewrite lookup_delete_ne; [done|]. intros ->. by apply (O2 u r).
  - intros id' [Hne Hin]%list_elem_of_filter. rewrite lookup_delete_ne by congruence. auto.
  - by apply distinct_delete.
Qed.

Lemma owning_waited u r w i st :
  owning st → has_child st u r →
  owning (with_processes (delete (waiter r)) (set_subprocess u (Subprocess None w i) st)).
Proof.
  intros [O1 O2 O3 O4 O5 O6] Hu.
  assert (∀ v q, has_child (with_processes (delete (waiter r))
    (set_subprocess u (Subprocess None w i) st)) v q → v ≠ u ∧ has_child st v q) as Hc.
  { intros v q Hq. unfold has_child in Hq. simpl in Hq. setoid_rewrite lookup_insert in Hq.
    destruct (decide (u = v)); destruct Hq as (p & Hp & Hq); [by simplify_eq|].
    split; [congruence|]. by exists p. }
  split; simpl.
  - intros v v' q q' [_ Hq]%Hc [_ Hq']%Hc. by apply O1.
  - intros v q [_ Hq]%Hc. by apply (O2 v q).
  - done.
  - intros v q [Hne Hq]%Hc. destruct (O4 v q Hq) as [l Hl]. exists l.
    rewrite lookup_delete_ne; [done|]. intros E. by apply Hne, (O1 v u q r).
  - intros id Hin. rewrite lookup_delete_ne; [auto|]. intros <-. by apply (O2 u r).
  - by apply distinct_delete.
Qed.

(** * Waiting *)
Definition tasks_of (b : bool) : options := if b then wait_aborted else no_options.

Record waiting (st : spawn_state) : Prop := {
  wait_child f u id pr :
    waits st !! f = Some (WaitOp u id pr) →
    ∃ r i, subprocesses st !! u = Some (Subprocess (Some r) true i) ∧ waiter r = id;
  wait_unique f g op op' :
    waits st !! f = Some op → waits st !! g = Some op' → wait_on op = wait_on op' → f = g;
  wait_flag u p :
    subprocesses st !! u = Some p → wait_in_progress p = true →
    ∃ f op, waits st !! f = Some op ∧ wait_on op = u;
  wait_ended f u id :
    waits st !! f = Some (WaitOp u id (Completed false)) →
    ∃ n i, processes st !! id = Some (RunningProcess n (Ended i));
  wait_suspended f op : waits st !! f = Some op → threads (vm st) !! f = Some CoSuspended;
  wait_interrupters f row u :
    fiber_list (vm st) !! f = Some row → interrupter row = Some (ISubprocess u) →
    is_disabled (interruption_disabled row) = false ∧
    ∃ op, waits st !! f = Some op ∧ wait_on op = u;
  task_once : NoDup (task_fiber <$> strand (vm st));
  task_idle f : f ∈ task_fiber <$> strand (vm st) → ¬ running (vm st) f;
  task_wait f opts op :
    FiberResume f opts ∈ strand (vm st) → waits st !! f = Some op →
    ∃ b, wait_progress op = Completed b ∧ opts = tasks_of b;
  wait_task f u id b :
    waits st !! f = Some (WaitOp u id (Completed b)) → f ∈ task_fiber <$> strand (vm st);
}.

Record inv (st : spawn_state) : Prop := {
  inv_own : owning st;
  inv_fresh u : (next_loc (vm st) ≤ u)%nat → subprocesses st !! u = None;
  inv_waiting : valid_ (vm st) = true → waiting st;
}.

(** A change of the VM that leaves coroutines and tasks alone. *)
Lemma waiting_vm st f :
  threads (f (vm st)) = threads (vm st) → strand (f (vm st)) = strand (vm st) →
  (∀ g row u, fiber_list (f (vm st)) !! g = Some row → interrupter row = Some (ISubprocess u) →
     ∃ row', fiber_list (vm st) !! g = Some row' ∧ interrupter row' = Some (ISubprocess u) ∧
       (¬ running (vm st) g → interruption_disabled row' = interruption_disabled row)) →
  waiting st → waiting (with_vm f st).
Proof.
  intros Ht Hs Hi [W1 W2 W3 W4 W5 W6 S1 S2 S3 S4].
  split; simpl; rewrite ?Hs; try done.
  - intros g op Hg. rewrite Ht. by eapply W5.
  - intros g row u Hrow Hu. destruct (Hi g row u Hrow Hu) as (row' & Hrow' & Hu' & Hd).
    destruct (W6 g row' u Hrow' Hu') as (Hdis & op & Hop & E). rewrite <- Hd; [by split; eauto|].
    intros [args Hr]. by rewrite (W5 g op Hop) in Hr.
  - intros g Hg. unfold running. rewrite Ht. by apply S2.
Qed.

(** The parts of [waiting] do not read the other fields. *)
Lemma waiting_ext st st' :
  vm st' = vm st → subprocesses st' = subprocesses st → waits st' = waits st →
  (∀ id n i, (∃ f u pr, waits st !! f = Some (WaitOp u id pr)) →
     processes st !! id = Some (RunningProcess n (Ended i)) →
     processes st' !! id = Some (RunningProcess n (Ended i))) →
  waiting st → waiting st'.
Proof.
  intros Ev Es Ew Hp [W1 W2 W3 W4 W5 W6 S1 S2 S3 S4].
  split; rewrite ?Ev, ?Es, ?Ew; try done.
  intros f u id Hf. destruct (W4 f u id Hf) as (n & i & Hi). exists n, i.
  apply Hp; [|done]. by eexists _, _, _.
Qed.

(** ** An operation completes *)
Lemma waiting_complete f u id b st :
  waits st !! f = Some (WaitOp u id Pending) →
  (b = false → ∃ n i, processes st !! id = Some (RunningProcess n (Ended i))) →
  waiting st →
  waiting (with_vm (post f (tasks_of b)) (with_waits <[f := WaitOp u id (Completed b)]> st)).
Proof.
  intros Hf Hb [W1 W2 W3 W4 W5 W6 S1 S2 S3 S4].
  assert (f ∉ task_fiber <$> strand (vm st)) as Hnew.
  { intros ([g opts] & -> & Hin)%list_elem_of_fmap. simpl in Hf.
    destruct (S3 _ _ _ Hin Hf) as (b' & ? & _). done. }
  split; simpl.
  - intros g v id' pr. rewrite lookup_insert. case_decide; [intros [= <- <- <-]|]; by eapply W1.
  - intros g g' op op'. rewrite !lookup_insert. repeat case_decide; subst; try done.
    + intros [= <-] Hg' E. by eapply (W2 _ _ _ _ Hf Hg').
    + intros Hg [= <-] E. by eapply (W2 _ _ _ _ Hg Hf).
    + apply W2.
  - intros v p Hv Hp. destruct (W3 v p Hv Hp) as (g & op & Hg & E).
    destruct (decide (g = f)) as [->|]; [|exists g, op; by rewrite lookup_insert_ne by done].
    exists f, (WaitOp u id (Completed b)). rewrite lookup_insert_eq. split; [done|].
    rewrite Hf in Hg. by injection Hg as <-.
  - intros g v id'. rewrite lookup_insert. case_decide; [|apply W4].
    intros [= <- <- ->]. by apply Hb.
  - intros g op. rewrite lookup_insert. case_decide; [subst; intros _; by eapply W5|apply W5].
  - intros g row v Hrow Hv. destruct (W6 g row v Hrow Hv) as (? & op & Hop & E). split; [done|].
    rewrite lookup_insert. case_decide; [|by eexists]. subst g.
    eexists. split; [done|]. rewrite Hf in Hop. by injection Hop as <-.
  - rewrite fmap_app. apply NoDup_app. split_and!; [done| |apply NoDup_singleton].
    simpl. intros g Hg ->%list_elem_of_singleton. done.
  - rewrite fmap_app. intros g [Hg|Hg]%elem_of_app; [by apply S2|].
    apply list_elem_of_singleton in Hg as ->. intros [args Hr]. simpl in Hr.
    by rewrite (W5 f _ Hf) in Hr.
  - intros g opts op [Hin|Hin]%elem_of_app.
    + rewrite lookup_insert. case_decide; [|by apply S3]. subst g.
      destruct Hnew. apply list_elem_of_fmap. by exists (FiberResume f opts).
    + apply list_elem_of_singleton in Hin as [= -> ->]. rewrite lookup_insert_eq.
      intros [= <-]. by exists b.
  - intros g v id' b'. rewrite fmap_app, elem_of_app, lookup_insert. case_decide.
    + subst. intros _. right. by left.
    + intros Hg. left. by eapply S4.
Qed.

(** ** A wait starts *)
Lemma waiting_start u r i st :
  running (vm st) (current_fiber_ (vm st)) →
  subprocesses st !! u = Some (Subprocess (Some r) false i) →
  waiting st →
  waiting (suspend Yield
    (with_waits <[current_fiber_ (vm st) := WaitOp u (waiter r) Pending]>
      (with_vm (set_interrupter (Some (ISubprocess u)))
        (set_subprocess u (Subprocess (Some r) true i) st)))).
Proof.
  intros [args Hrun] Hu [W1 W2 W3 W4 W5 W6 S1 S2 S3 S4]. set (f := current_fiber_ (vm st)) in *.
  assert (waits st !! f = None) as Hf.
  { destruct (waits st !! f) as [op|] eqn:E; [|done]. rewrite (W5 f op E) in Hrun. done. }
  assert (∀ g v id pr, waits st !! g = Some (WaitOp v id pr) → v ≠ u) as Hother.
  { intros g v id pr Hg ->. destruct (W1 _ _ _ _ Hg) as (r' & i' & Hu' & _). congruence. }
  assert (f ∉ task_fiber <$> strand (vm st)) as Hq by (intros Hin; by apply (S2 f Hin); exists args).
  split; simpl; try done; fold f.
  - intros g v id pr. rewrite !lookup_insert. case_decide; [intros [= <- <- _]; by case_decide; eauto|].
    intros Hg. rewrite decide_False by (intros <-; by eapply Hother). by eapply W1.
  - intros g g' op op'. rewrite !lookup_insert. repeat case_decide; subst; try done.
    + intros [= <-] Hg' E. destruct op' as [v id pr]. simpl in E. by destruct (Hother _ _ _ _ Hg').
    + intros Hg [= <-] E. destruct op as [v id pr]. simpl in E. by destruct (Hother _ _ _ _ Hg).
    + apply W2.
  - intros v p. rewrite lookup_insert. case_decide as Hv.
    + intros _ _. subst v. eexists f, _. by rewrite lookup_insert_eq.
    + intros Hp Hw. destruct (W3 v p Hp Hw) as (g & op & Hg & E). exists g, op.
      rewrite lookup_insert_ne; [done|]. congruence.
  - intros g v id. rewrite lookup_insert. case_decide; [done|apply W4].
  - intros g op. rewrite !lookup_insert. case_decide; [done|]. apply W5.
  - intros g row v. rewrite lookup_alter, lookup_insert. case_decide as Hg.
    + subst g. destruct (fiber_list (vm st) !! f) as [row0|] eqn:Hrow; [|done].
      intros [= <-]. case_match; [|simpl; intros [= <-]; split; [done|by eexists]].
      intros Hi. destruct (W6 f row0 v Hrow Hi) as (_ & op & Hop & _). congruence.
    + apply W6.
  - intros g Hg [args' Hr]. simpl in Hr. rewrite lookup_insert in Hr. case_decide; [done|].
    apply (S2 g Hg). by exists args'.
  - intros g opts op Hin. rewrite lookup_insert. case_decide; [|by apply S3]. subst g.
    destruct Hq. apply list_elem_of_fmap. by exists (FiberResume f opts).
  - intros g v id b. rewrite lookup_insert. case_decide; [done|]. apply S4.
Qed.

(** ** A fiber goes on *)
Lemma fiber_resume_valid f opts v v' :
  Vm.fiber_resume f opts v = Some v' → valid_ v = true →
  strand v' = strand v ∧ next_loc v' = next_loc v ∧ valid_ v' = true ∧
  (∃ args, threads v' = <[f := CoRunning args]> (threads v)) ∧
  (∀ g row u, fiber_list v' !! g = Some row → interrupter row = Some (ISubprocess u) →
     fiber_list v !! g = Some row ∧
     (g = f → skip_clear_interrupter opts = false →
        is_disabled (interruption_disabled row) = true)).
Proof.
  intros Hr Hv. unfold Vm.fiber_resume in Hr. rewrite Hv in Hr.
  assert (∃ args, v' = set_thread f (CoRunning args)
    (if skip_clear_interrupter opts then with_current_fiber (λ _, f) v
     else set_interrupter None (with_current_fiber (λ _, f) v))) as [args ->].
  { destruct (threads v !! f) as [[]|]; try done; simplify_eq; by eexists. }
  destruct (skip_clear_interrupter opts); simpl; split_and!; try done; try by eexists.
  intros g row u. rewrite lookup_alter. case_decide as Hg; [|intros; split; [done|congruence]].
  subst g. destruct (fiber_list v !! f) as [row0|]; [|done]. intros [= <-].
  destruct (is_disabled _) eqn:Hd; [|done]. by intros _.
Qed.

(** The next task resumes its fiber, whose wait is over if it waited. *)
Lemma waiting_resumed f opts q v st st' :
  owning st → waiting st → valid_ (vm st) = true → strand (vm st) = FiberResume f opts :: q →
  (is_Some (waits st !! f) → skip_clear_interrupter opts = false) →
  Vm.fiber_resume f opts (with_strand (λ _, q) (vm st)) = Some v → vm st' = v →
  waits st' = delete f (waits st) →
  (∀ g op, g ≠ f → waits st !! g = Some op →
     subprocesses st' !! wait_on op = subprocesses st !! wait_on op ∧
     processes st' !! wait_process op = processes st !! wait_process op) →
  (∀ u p, subprocesses st' !! u = Some p → wait_in_progress p = true →
     subprocesses st !! u = Some p ∧ ∀ op, waits st !! f = Some op → wait_on op ≠ u) →
  waiting st'.
Proof.
  intros O [W1 W2 W3 W4 W5 W6 S1 S2 S3 S4] Hv Hq Hskip Hres Ev Ew Hkeep Hflag.
  destruct (fiber_resume_valid _ _ _ _ Hres Hv) as (Es & _ & _ & [args Eth] & Hrows).
  simpl in Es, Eth, Hrows. rewrite Hq in S1, S2, S3, S4. simpl in S1.
  apply NoDup_cons in S1 as [Hf S1].
  assert (∀ g op, waits st' !! g = Some op → g ≠ f ∧ waits st !! g = Some op) as Hw.
  { intros g op. rewrite Ew, lookup_delete_Some. intros [? ?]. split; [congruence|done]. }
  split; rewrite ?Ev, ?Es, ?Eth.
  - intros g u id pr [Hne Hg]%Hw. destruct (Hkeep g _ Hne Hg) as [E _]. simpl in E.
    rewrite E. by eapply W1.
  - intros g g' op op' [_ Hg]%Hw [_ Hg']%Hw. by eapply W2.
  - intros u p Hu Hp. destruct (Hflag u p Hu Hp) as [Hu' Hnot].
    destruct (W3 u p Hu' Hp) as (g & op & Hg & E). exists g, op. split; [|done].
    rewrite Ew, lookup_delete_ne; [done|]. intros <-. by apply (Hnot op).
  - intros g u id [Hne Hg]%Hw. destruct (Hkeep g _ Hne Hg) as [_ Hp]. simpl in Hp.
    destruct (W4 g u id Hg) as (n & i & Hi). exists n, i. by rewrite Hp.
  - intros g op [Hne Hg]%Hw. rewrite lookup_insert_ne by congruence. by eapply W5.
  - intros g row u Hrow Hu. destruct (Hrows g row u Hrow Hu) as [Hrow' Hdis].
    destruct (W6 g row u Hrow' Hu) as (Hd & op & Hop & E). split; [done|].
    exists op. split; [|done]. rewrite Ew, lookup_delete_ne; [done|]. intros <-.
    rewrite Hdis in Hd; [done|done|]. apply Hskip. by eexists.
  - exact S1.
  - intros g Hg [args' Hr]. rewrite Eth, lookup_insert in Hr. case_decide; [by subst|].
    apply (S2 g); [by right|by exists args'].
  - intros g opts' op Hin [Hne Hg]%Hw. apply (S3 g opts' op); [by right|done].
  - intros g u id b [Hne Hg]%Hw. apply S4 in Hg. by apply elem_of_cons in Hg as [?|?].
Qed.

(** ** The handler of a wait *)
Lemma run_wait_spec f opts q u id b st :
  owning st → waiting st → valid_ (vm st) = true → strand (vm st) = FiberResume f opts :: q →
  waits st !! f = Some (WaitOp u id (Completed b)) →
  ∃ r i0 v,
    subprocesses st !! u = Some (Subprocess (Some r) true i0) ∧ waiter r = id ∧
    opts = tasks_of b ∧
    Vm.fiber_resume f opts (with_strand (λ _, q) (vm st)) = Some v ∧
    if b then
      run_task st = Some (with_vm (λ _, v) (with_waits (delete f)
        (set_subprocess u (Subprocess (Some r) false i0) st)))
    else
      ∃ n i, processes st !! id = Some (RunningProcess n (Ended i)) ∧
        run_task st = Some (with_vm (λ _, v) (with_waits (delete f)
          (with_processes (delete id) (set_subprocess u (Subprocess None false (Some i)) st)))).
Proof.
  intros O W Hv Hq Hf. destruct (wait_child _ W _ _ _ _ Hf) as (r & i0 & Hu & Hr).
  destruct (task_wait _ W f opts _ ltac:(rewrite Hq; by left) Hf) as (b' & Hb & ->).
  simpl in Hb. injection Hb as <-.
  assert (∃ v, Vm.fiber_resume f (tasks_of b) (with_strand (λ _, q) (vm st)) = Some v) as [v Hres].
  { unfold Vm.fiber_resume. simpl. rewrite Hv, (wait_suspended _ W _ _ Hf). by eexists. }
  exists r, i0, v. split_and!; try done.
  assert (∀ p, alter (λ p, Subprocess (reaper p) false (info p)) u (<[u := p]> (subprocesses st)) =
    <[u := Subprocess (reaper p) false (info p)]> (subprocesses st)) as Halt.
  { intros p. rewrite alter_insert_eq. done. }
  assert (alter (λ p, Subprocess (reaper p) false (info p)) u (subprocesses st) =
    <[u := Subprocess (Some r) false i0]> (subprocesses st)) as Ealt.
  { rewrite <- (insert_id (subprocesses st) u _ Hu) at 1. apply Halt. }
  unfold run_task, on_wait. rewrite Hq. simpl. rewrite Hf. simpl. rewrite Hv. simpl.
  destruct b; simpl in Hres |- *.
  - rewrite Hres. simpl. unfold with_subprocesses. simpl. by rewrite Ealt.
  - destruct (wait_ended _ W _ _ _ Hf) as (n & i & Hi). exists n, i. split; [done|].
    unfold waitid. simpl. rewrite Hi. simpl. rewrite Hres. simpl.
    unfold with_subprocesses, with_processes, with_waits, with_vm, set_subprocess. simpl.
    by rewrite Ealt, alter_insert_eq, Hv.
Qed.

(** ** A task of the strand *)
Lemma run_task_inv st st' :
  inv st → (∀ g, ¬ running (vm st) g) → run_task st = Some st' → inv st'.
Proof.
  intros [O F W] Hidle Hr. destruct (valid_ (vm st)) eqn:Hv.
  2: { (* a closed VM runs nothing *)
    assert (subprocesses st' = subprocesses st ∧ processes st' = processes st ∧
      reaps st' = reaps st ∧ next_loc (vm st') = next_loc (vm st) ∧ valid_ (vm st') = false)
      as (E1 & E2 & E3 & E4 & E5).
    { unfold run_task, on_wait, Vm.fiber_resume in Hr.
      destruct (strand (vm st)) as [|[f opts] q]; [done|]. simpl in Hr. rewrite Hv in Hr.
      repeat case_match; simplify_eq/=; rewrite ?Hv in *; simplify_eq/=; done. }
    split; [|by rewrite E4, E1|congruence].
    revert O. apply owning_ext; [|done|done]. intros u r. unfold has_child. by rewrite E1. }
  specialize (W eq_refl). destruct (strand (vm st)) as [|[f opts] q] eqn:Hq;
    [by unfold run_task in Hr; rewrite Hq in Hr|].
  destruct (waits st !! f) as [[u id pr]|] eqn:Hf.
  - assert (∃ b, pr = Completed b) as [b ->].
    { destruct (task_wait _ W f opts _ ltac:(rewrite Hq; by left) Hf) as (b & ? & _). by exists b. }
    destruct (run_wait_spec f opts q u id b st O W Hv Hq Hf)
      as (r & i0 & v & Hu & Hid & Hopts & Hres & Hrun).
    assert (is_Some (waits st !! f) → skip_clear_interrupter opts = false) as Hskip
      by (intros _; rewrite Hopts; by destruct b).
    destruct (fiber_resume_valid _ _ _ _ Hres Hv) as (_ & En & _).
    assert (∀ g op, g ≠ f → waits st !! g = Some op → wait_on op ≠ u ∧ wait_process op ≠ id) as Hdiff.
    { intros g [u' id' pr'] Hne Hg. simpl.
      destruct (wait_child _ W _ _ _ _ Hg) as (r' & i' & Hu' & Hr').
      assert (u' ≠ u) as Hnu by (intros ->; by apply Hne, (wait_unique _ W _ _ _ _ Hg Hf)).
      split; [done|]. intros ->. apply Hnu, (own_object _ O u' u r' r);
        [by eexists|by eexists|congruence]. }
    destruct b.
    + rewrite Hrun in Hr. injection Hr as <-. split.
      * refine (owning_ext _ _ _ _ _ (owning_set st u _ (Subprocess (Some r) false i0) Hu _ O));
          done.
      * simpl. rewrite En. intros w Hw. rewrite lookup_insert_ne; [by apply F|].
        intros ->. simpl in Hw. by rewrite F in Hu.
      * intros _. eapply (waiting_resumed f opts q v st); try done.
        -- intros g op Hne Hg. destruct (Hdiff g op Hne Hg). simpl.
           by rewrite lookup_insert_ne by done.
        -- intros w p. simpl. rewrite lookup_insert. case_decide; [intros [= <-]; done|].
           intros. split; [done|]. rewrite Hf. by intros op [= <-].
    + destruct Hrun as (n & i & Hi & Hrun). rewrite Hrun in Hr. injection Hr as <-. split.
      * rewrite <- Hid.
        refine (owning_ext _ _ _ _ _ (owning_waited u r false (Some i) st O _)); try done.
        by eexists.
      * simpl. rewrite En. intros w Hw. rewrite lookup_insert_ne; [by apply F|].
        intros ->. simpl in Hw. by rewrite F in Hu.
      * intros _. eapply (waiting_resumed f opts q v st); try done.
        -- intros g op Hne Hg. destruct (Hdiff g op Hne Hg). simpl.
           by rewrite lookup_insert_ne, lookup_delete_ne by done.
        -- intros w p. simpl. rewrite lookup_insert. case_decide; [intros [= <-]; done|].
           intros. split; [done|]. rewrite Hf. by intros op [= <-].
  - unfold run_task in Hr. rewrite Hq in Hr. simpl in Hr. rewrite Hf in Hr.
    apply bind_Some in Hr as (v & Hres & [= <-]).
    destruct (fiber_resume_valid _ _ _ _ Hres Hv) as (_ & En & _). simpl in En. split.
    + revert O. by apply owning_ext.
    + simpl. by rewrite En.
    + intros _. eapply (waiting_resumed f opts q v st); try done.
      * rewrite Hf. by intros [].
      * simpl. by rewrite delete_id.
      * intros w p Hw _. split; [done|]. by rewrite Hf.
Qed.

(** ** What only changes the VM *)
Lemma inv_vm st f :
  threads (f (vm st)) = threads (vm st) → strand (f (vm st)) = strand (vm st) →
  (next_loc (vm st) ≤ next_loc (f (vm st)))%nat → valid_ (f (vm st)) = valid_ (vm st) →
  (∀ g row u, fiber_list (f (vm st)) !! g = Some row → interrupter row = Some (ISubprocess u) →
     ∃ row', fiber_list (vm st) !! g = Some row' ∧ interrupter row' = Some (ISubprocess u) ∧
       (¬ running (vm st) g → interruption_disabled row' = interruption_disabled row)) →
  inv st → inv (with_vm f st).
Proof.
  intros Ht Hs Hn Hv Hi [O F W]. split.
  - revert O. by apply owning_ext.
  - intros u Hu. apply F. simpl in Hu. lia.
  - simpl. rewrite Hv. intros HV. by apply waiting_vm; auto.
Qed.

(** The log of signals and what does not change are no part of it. *)
Lemma inv_signals st l : inv st → inv (with_signals l st).
Proof.
  intros [O F W]. split; [by revert O; apply owning_ext|done|].
  intros Hv. by apply (waiting_ext st); auto.
Qed.

Lemma kill_inv n sig st st' : kill n sig st = inr st' → inv st → inv st'.
Proof.
  unfold kill. destruct (process_of _ _) as [id|]; [|done].
  destruct (kill_refused _ _); [done|]. intros [= <-]. apply inv_signals.
Qed.

(** ** Interruption *)
Lemma cancel_one_waiting id f st : waiting st → waiting (cancel_one id f st).
Proof.
  intros W. unfold cancel_one.
  destruct (waits st !! f) as [[u w [|]]|] eqn:Hf; [|done|done]. case_decide; [|done].
  by apply (waiting_complete f u w true).
Qed.

Lemma cancel_one_inv id f st : inv st → inv (cancel_one id f st).
Proof.
  intros [O F W]. pose proof (cancel_one_waiting id f st) as Hc. unfold cancel_one in *.
  destruct (waits st !! f) as [[u w [|]]|] eqn:Hf; [|done|done]. case_decide; [|done].
  split; [by revert O; apply owning_ext|done|auto].
Qed.

Lemma cancel_waits_inv id st : inv st → inv (cancel_waits id st).
Proof.
  unfold cancel_waits. generalize (elements (dom (waits st))) as l.
  induction l as [|f l IH]; simpl; [done|]. intros I. by apply cancel_one_inv, IH.
Qed.

(** What [fiber_interrupt] does before it calls the interrupter, and after. *)
Lemma fiber_interrupt_inv L st :
  about_subprocesses (called_interrupter L (vm st)) → inv st →
  inv (with_vm (λ _, (fiber_interrupt L (vm st)).1) st).
Proof.
  intros Hab I. unfold called_interrupter, fiber_interrupt in *.
  assert (inv (with_vm (λ _, vm st) st)) as Hid by (by destruct st).
  destruct (fiber_arg L (vm st)) as [[h [[[f|] jip] c]]|]; [|done|done].
  destruct (fiber_list (vm st) !! f) as [row|] eqn:Hrow; [|done].
  assert (∀ g h row' u, alter (h ∘ with_interrupted (λ _, true)) f (fiber_list (vm st)) !! g =
      Some row' → (∀ r, interrupter (h r) = Some (ISubprocess u) →
        interrupter r = Some (ISubprocess u)) →
      (∀ r, interruption_disabled (h r) = interruption_disabled r) →
      interrupter row' = Some (ISubprocess u) →
      ∃ row0, fiber_list (vm st) !! g = Some row0 ∧ interrupter row0 = Some (ISubprocess u) ∧
        (¬ running (vm st) g → interruption_disabled row0 = interruption_disabled row')) as Hrows.
  { intros g k row' u. rewrite lookup_alter.
    destruct (decide (f = g)) as [<-|]; [|intros; exists row'; by split_and!].
    rewrite Hrow. simpl. intros [= <-] Hk Hd Hu. apply Hk in Hu. exists row.
    rewrite Hd. done. }
  simpl in *. destruct (decide (f = current_fiber_ (vm st))).
  { apply (inv_vm st (λ _, set_row f (with_interrupted (λ _, true)) (vm st))); try done.
    intros g row' u Hg Hu.
    exact (Hrows g (λ r, r) row' u Hg (λ _ E, E) (λ _, eq_refl) Hu). }
  simpl in Hab. destruct (interrupter row) as [i|] eqn:Hi.
  2: { apply (inv_vm st (λ _, set_row f (with_interrupted (λ _, true)) (vm st))); try done.
    intros g row' u Hg Hu.
    exact (Hrows g (λ r, r) row' u Hg (λ _ E, E) (λ _, eq_refl) Hu). }
  assert (call_interrupter i (set_row f (with_interrupted (λ _, true)) (vm st)) =
    set_row f (with_interrupted (λ _, true)) (vm st)) as -> by (by destruct i).
  apply (inv_vm st (λ _, set_row f (with_interrupter (λ _, None))
    (set_row f (with_interrupted (λ _, true)) (vm st)))); try done.
  intros g row' u Hg Hu. simpl in Hg. rewrite alter_alter_eq in Hg.
  exact (Hrows g (with_interrupter (λ _, None)) row' u Hg ltac:(done) (λ _, eq_refl) Hu).
Qed.

(** The interrupter finds the descriptor it cancels. *)
Lemma interrupt_total L st :
  inv st → valid_ (vm st) = true → about_subprocesses (called_interrupter L (vm st)) →
  ∃ st' a, interrupt L st = Some (st', a) ∧ inv st'.
Proof.
  intros I Hv Hab. pose proof (fiber_interrupt_inv L st Hab I) as I'. unfold interrupt.
  destruct (fiber_interrupt L (vm st)) as [v a]. simpl in I'.
  destruct (called_interrupter L (vm st)) as [[| | | | |u|]|] eqn:Hc; try (eexists _, _; split; [reflexivity|exact I']).
  unfold called_interrupter in Hc.
  destruct (fiber_arg L (vm st)) as [[h [[[f|] jip] c]]|]; [|done|done].
  case_decide; [done|]. apply bind_Some in Hc as (row & Hrow & Hi).
  destruct (wait_interrupters _ (inv_waiting _ I Hv) f row u Hrow Hi) as (_ & [u' id pr] & Hf & Hu).
  simpl in Hu. subst u'.
  destruct (wait_child _ (inv_waiting _ I Hv) f u id pr Hf) as (r & i & Hp & _).
  unfold wait_interrupter. simpl. rewrite Hp. simpl.
  eexists _, _. split; [done|]. by apply cancel_waits_inv.
Qed.

(** ** Calls *)
Lemma check_subprocess_inv L st u p :
  check_subprocess L st = Some (u, p) → subprocesses st !! u = Some p.
Proof.
  unfold check_subprocess. destruct (arg L 1) as [[]|]; try done.
  destruct (subprocesses st !! _) eqn:E; [|done]. intros [= <- <-]. exact E.
Qed.

Lemma suspend_other a st : a ≠ Yield → suspend a st = st.
Proof. by destruct a. Qed.

Lemma wait_inv L st st' a :
  inv st → valid_ (vm st) = true → running (vm st) (current_fiber_ (vm st)) →
  subprocess_wait L st = (st', a) → inv (suspend a st').
Proof.
  intros I Hv Hrun E. unfold subprocess_wait in E.
  destruct (unsafe_can_suspend (vm st)) as [e|] eqn:Hc.
  { simplify_eq. rewrite suspend_other; [done|].
    unfold unsafe_can_suspend in Hc. by case_hyps Hc. }
  destruct (check_subprocess L st) as [[u [[r|] [|] i]]|] eqn:Hp; simplify_eq/=; try done.
  apply check_subprocess_inv in Hp. destruct I as [O F W]. split.
  - refine (owning_ext _ _ _ _ _ (owning_set st u _ (Subprocess (Some r) true i) Hp _ O)); done.
  - simpl. intros v Hw. rewrite lookup_insert_ne; [by apply F|]. intros ->. by rewrite F in Hp.
  - intros _. by apply waiting_start; auto.
Qed.

Lemma call_inv c L st st' a :
  inv st → valid_ (vm st) = true → running (vm st) (current_fiber_ (vm st)) →
  call c L st = (st', a) → inv (suspend a st').
Proof.
  intros I Hv Hrun E. destruct c; simpl in E.
  - by eapply wait_inv.
  - unfold subprocess_kill in E.
    destruct (arg L 2) as [[]|]; try (simplify_eq; done).
    destruct (check_subprocess L st) as [[u [[r|] w i]]|]; simplify_eq/=; try done.
    destruct (kill _ _ _) as [e|st1] eqn:Hk; simplify_eq/=; [done|]. by eapply kill_inv.
  - unfold subprocess_cap_get in E.
    destruct (check_subprocess L st) as [[u [[r|] w i]]|]; simplify_eq/=; try done.
    repeat case_match; simplify_eq/=; try done.
    apply (inv_vm st (with_next_loc S)); try done; [simpl; lia|].
    intros g row v Hg Hi. by exists row.
Qed.

Lemma subprocess_gc_frame u st :
  vm (subprocess_gc u st) = vm st ∧ waits (subprocess_gc u st) = waits st ∧
  processes (subprocess_gc u st) = processes st ∧
  subprocesses (subprocess_gc u st) = delete u (subprocesses st).
Proof.
  unfold subprocess_gc. destruct (subprocesses st !! u) as [[[r|] w i]|] eqn:Hu.
  - set (st1 := if decide _ then _ else _).
    assert (vm st1 = vm st ∧ waits st1 = waits st ∧ processes st1 = processes st ∧
      subprocesses st1 = subprocesses st) as (E1 & E2 & E3 & E4).
    { unfold st1, kill. repeat case_match; by simplify_eq/=. }
    simpl. by rewrite E1, E2, E3, E4.
  - done.
  - by rewrite delete_id.
Qed.

Lemma gc_fresh u st :
  (∀ v, (next_loc (vm st) ≤ v)%nat → subprocesses st !! v = None) →
  ∀ v, (next_loc (vm (subprocess_gc u st)) ≤ v)%nat →
  subprocesses (subprocess_gc u st) !! v = None.
Proof.
  destruct (subprocess_gc_frame u st) as (-> & _ & _ & ->). intros F v Hv.
  apply lookup_delete_None. auto.
Qed.

Lemma gc_inv u st :
  inv st → (∀ f op, waits st !! f = Some op → wait_on op ≠ u) → inv (subprocess_gc u st).
Proof.
  intros [O F W] Hno. split; [by apply owning_gc|by apply gc_fresh|].
  destruct (subprocess_gc_frame u st) as (E1 & E2 & E3 & E4). rewrite E1. intros Hv.
  destruct (W Hv) as [W1 W2 W3 W4 W5 W6 S1 S2 S3 S4].
  split; rewrite ?E1, ?E2, ?E3, ?E4; try done.
  - intros f v id pr Hf. rewrite lookup_delete_ne by (intros ->; by apply (Hno _ _ Hf)).
    by eapply W1.
  - intros v p [_ Hp]%lookup_delete_Some. by apply W3.
Qed.

Lemma close_vm_inv st : inv st → inv (close_vm st).
Proof.
  intros [O F _]. unfold close_vm. generalize (elements (dom (subprocesses (with_vm close st)))).
  assert (owning (with_vm close st)) as O' by (revert O; by apply owning_ext).
  assert (valid_ (vm (with_vm close st)) = false) as Hv by done.
  assert (∀ v, (next_loc (vm (with_vm close st)) ≤ v)%nat →
    subprocesses (with_vm close st) !! v = None) as F' by exact F.
  revert O' Hv F'. generalize (with_vm close st) as s. intros s O' Hv F' l.
  cut (owning (foldr subprocess_gc s l) ∧ vm (foldr subprocess_gc s l) = vm s ∧
    ∀ v, (next_loc (vm s) ≤ v)%nat → subprocesses (foldr subprocess_gc s l) !! v = None).
  { intros (? & E & ?). split; [done|by rewrite E|rewrite E; congruence]. }
  induction l as [|u l (IH1 & IH2 & IH3)]; simpl; [done|].
  pose proof (subprocess_gc_frame u (foldr subprocess_gc s l)) as (E1 & _ & _ & E4).
  split_and!; [by apply owning_gc|congruence|]. intros v Hw. rewrite E4.
  apply lookup_delete_None. auto.
Qed.

(** ** Processes *)
Lemma op_owned st f u id pr :
  waiting st → waits st !! f = Some (WaitOp u id pr) → ∃ r, has_child st u r ∧ waiter r = id.
Proof.
  intros W Hf. destruct (wait_child _ W _ _ _ _ Hf) as (r & i & Hu & Hr).
  exists r. split; [|done]. by eexists.
Qed.

Lemma inv_processes f st :
  owning (with_processes f st) →
  (∀ id n i, owns st id → processes st !! id = Some (RunningProcess n (Ended i)) →
     f (processes st) !! id = Some (RunningProcess n (Ended i))) →
  inv st → inv (with_processes f st).
Proof.
  intros O' Hf [O F W]. split; [done|done|]. intros Hv. specialize (W Hv).
  apply (waiting_ext st); try done. intros id n i (g & u & pr & Hg). apply Hf.
  left. destruct (op_owned _ _ _ _ _ W Hg) as (r & ? & ?). by exists u, r.
Qed.

Lemma reap_inv id st st' : inv st → id ∈ reaps st → reap id st = Some st' → inv st'.
Proof.
  intros [O F W] Hid Hr. unfold reap, waitid in Hr.
  destruct (own_reaps _ O id Hid) as [[n [|i]] Ep]; rewrite Ep in Hr; [done|]. simplify_eq/=.
  split; [by apply owning_reap|done|]. intros Hv. specialize (W Hv).
  apply (waiting_ext st); try done. intros id' n' i' (g & u & pr & Hg) Hp. simpl.
  rewrite lookup_delete_ne; [done|]. intros <-.
  destruct (op_owned _ _ _ _ _ W Hg) as (r & Hc & <-). by apply (own_left _ O u r).
Qed.

Lemma spawn_inv id n sig st :
  inv st → processes st !! id = None → process_of n (processes st) = None →
  inv (new_subprocess id n sig st).1.
Proof.
  intros [O F W] Hid Hn. pose proof (owning_spawn id n sig st O F Hid Hn) as O'. split; [done| |].
  - simpl. intros v Hv. rewrite lookup_insert_ne by lia. apply F. lia.
  - intros Hv. specialize (W Hv).
    assert (∀ f u id' pr, waits st !! f = Some (WaitOp u id' pr) → u ≠ next_loc (vm st)) as Hne.
    { intros f u id' pr Hf ->. destruct (wait_child _ W _ _ _ _ Hf) as (r & i & Hu & _).
      by rewrite F in Hu. }
    destruct W as [W1 W2 W3 W4 W5 W6 S1 S2 S3 S4]. split; simpl; try done.
    + intros f u id' pr Hf. rewrite lookup_insert_ne by (intros E; by apply (Hne _ _ _ _ Hf)).
      by eapply W1.
    + intros u p. rewrite lookup_insert. case_decide; [by intros [= <-]|]. apply W3.
    + intros f u id' Hf. destruct (W4 f u id' Hf) as (n' & i & Hi). exists n', i.
      rewrite lookup_insert_ne; [done|congruence].
Qed.

Lemma leave_inv s st :
  inv st → running (vm st) (current_fiber_ (vm st)) → (∀ args, s ≠ CoRunning args) →
  inv (with_vm (λ vm, set_thread (current_fiber_ vm) s vm) st).
Proof.
  intros [O F W] [args Hrun] Hs. split; [by revert O; apply owning_ext|done|].
  intros Hv. specialize (W Hv). destruct W as [W1 W2 W3 W4 W5 W6 S1 S2 S3 S4].
  split; simpl; try done.
  - intros f op Hf. rewrite lookup_insert_ne; [by eapply W5|]. intros <-.
    by rewrite (W5 _ _ Hf) in Hrun.
  - intros f Hf [args' Hr]. simpl in Hr. rewrite lookup_insert in Hr. case_decide.
    + simplify_eq. by destruct (Hs args').
    + apply (S2 f Hf). by exists args'.
Qed.

Lemma inv_dispositions f st : inv st → inv (with_dispositions f st).
Proof.
  intros [O F W]. split; [by revert O; apply owning_ext|done|].
  intros Hv. by apply (waiting_ext st); auto.
Qed.
Lemma disposition_inv d is_master signo st st' a :
  set_disposition d is_master signo st = (st', a) → inv st → inv st'.
Proof.
  unfold set_disposition. intros E I. repeat case_match; simplify_eq/=; try done.
  by apply inv_dispositions.
Qed.

(** Every step keeps the invariant, while SIGCHLD is not ignored. *)
Lemma subprocess_step_inv st st' : waitable_step st st' → inv st → inv st'.
Proof.
  intros [Hign Hst] I. destruct Hst as
    [c L st st' a Hv Hr Hc|id n sig st st' a Hv Hid Hn Hs|s st Hr Hs|g st Hr Hg|L st st' a Hv Hab Hi
    |f st|id st st' Hid Hr|st st' Hid Hr|u st Hno|st Hid|id n i st Hid Hno|id n st Hid Hig
    |m signo st st' a Hd|m signo st st' a Hd|signo d st Hd|id n st Hid Hn|id st Hid].
  - by eapply call_inv.
  - replace st' with (new_subprocess id n sig st).1 by (by rewrite Hs). by apply spawn_inv.
  - by apply leave_inv.
  - apply inv_vm; try done. intros f row u. simpl. rewrite lookup_alter. case_decide; subst.
    + destruct (fiber_list (vm st) !! _) as [row0|]; [|done]. intros [= <-]. rewrite Hg.
      intros Hi. exists row0. split_and!; [done|done|]. by intros [].
    + intros. exists row. by split_and!.
  - destruct (interrupt_total L st I Hv Hab) as (st1 & a1 & E & I'). rewrite E in Hi. by simplify_eq.
  - unfold wait_ready. destruct (waits st !! f) as [[u id [|]]|] eqn:Hf; [|done|done].
    destruct I as [O F W]. destruct (processes st !! id) as [[n [|i]]|] eqn:Hp; [done|..];
      (split; [by revert O; apply owning_ext|done|]); intros Hv.
    + apply (waiting_complete f u id false); [done| |auto]. intros _. by exists n, i.
    + destruct (op_owned _ _ _ _ _ (W Hv) Hf) as (r & Hc & E).
      destruct (own_pid _ O u r Hc) as [l Hl]. rewrite E in Hl. congruence.
  - by eapply reap_inv.
  - by eapply run_task_inv.
  - by apply gc_inv.
  - by apply close_vm_inv.
  - apply inv_processes; [by apply owning_exit, Hid; apply I| |done].
    intros id' n' i' _ Hp. rewrite lookup_insert_ne; [done|]. intros <-. congruence.
  - done.
  - by eapply disposition_inv.
  - by eapply disposition_inv.
  - by apply inv_dispositions.
  - apply inv_processes; [by apply owning_stranger; [apply I|..]| |done].
    intros id' n' i' _ Hp. rewrite lookup_insert_ne; [done|]. intros <-. congruence.
  - apply inv_processes; [by apply owning_gone; [apply I|]| |done].
    intros id' n' i' Ho Hp. rewrite lookup_delete_ne; [done|]. by intros <-.
Qed.

Lemma reachable_inv st st' : reachable st st' → inv st → inv st'.
Proof. induction 1; eauto using subprocess_step_inv. Qed.
End spec.
