(* ===== verification/SubprocessPromises.v ===== *)
(** The theorems about subprocesses, over every run of a VM that spawns, waits,
    kills, interrupts, collects and closes while processes end and pids are used
    again. *)
From S2P Require Import Prelude Errors Lua Vm FiberOps SpawnArgs SpawnChild Subprocess SubprocessSpec.
#[local] Open Scope Z_scope.

Section promises.
Context `{LuaApi} `{ProcessRights}.

(** * Signals *)

(** The signals a step adds go to processes of these owners. *)
Definition signals_to (owner : nat → Prop) (st st' : spawn_state) : Prop :=
  ∃ l, signals st' = signals st ++ l ∧ ∀ id sig, (id, sig) ∈ l → owner id.

Lemma no_signals owner st st' : signals st' = signals st → signals_to owner st st'.
Proof.
  intros E. exists []. rewrite app_nil_r. split; [done|]. by intros ? ? ?%elem_of_nil.
Qed.

Lemma signals_trans owner s1 s2 s3 :
  signals_to owner s1 s2 → signals_to owner s2 s3 → signals_to owner s1 s3.
Proof.
  intros (l & E & Hl) (l' & E' & Hl'). exists (l ++ l'). split; [by rewrite E', E, app_assoc|].
  intros id sig [?|?]%elem_of_app; eauto.
Qed.

Lemma kill_signals u r sig st st' :
  owning st → has_child st u r → kill (childpid r) sig st = inr st' →
  signals_to (λ id, id = waiter r) st st'.
Proof.
  intros O Hr. unfold kill. rewrite (own_process_of _ _ _ O Hr).
  destruct (kill_refused _ _); [done|]. intros [= <-]. exists [(waiter r, sig)]. split; [done|].
  by intros id sig' [= -> ->]%list_elem_of_singleton.
Qed.

Lemma signals_weaken (P Q : nat → Prop) st st' :
  (∀ id, P id → Q id) → signals_to P st st' → signals_to Q st st'.
Proof. intros HPQ (l & E & Hl). exists l. eauto. Qed.

Lemma gc_signals u st : owning st → signals_to (owns st) st (subprocess_gc u st).
Proof.
  intros O. unfold subprocess_gc.
  destruct (subprocesses st !! u) as [[[r|] w i]|] eqn:Hu; [|by apply no_signals..].
  assert (has_child st u r) as Hr by (by eexists).
  case_decide; [|by apply no_signals].
  destruct (kill (childpid r) (reaper_signal r) st) as [e|st1] eqn:Hk; [by apply no_signals|].
  destruct (kill_signals u r _ st st1 O Hr Hk) as (l & E & Hl). exists l. split; [exact E|].
  intros id sig Hin%Hl. left. by exists u, r.
Qed.

Lemma gc_children u v r st : has_child (subprocess_gc u st) v r → has_child st v r.
Proof.
  unfold has_child. destruct (subprocess_gc_frame u st) as (_ & _ & _ & ->).
  setoid_rewrite lookup_delete_Some. naive_solver.
Qed.

Lemma close_signals st : owning st → signals_to (owns st) st (close_vm st).
Proof.
  intros O. unfold close_vm.
  assert (owning (with_vm close st)) as O' by (revert O; by apply owning_ext).
  generalize (elements (dom (subprocesses (with_vm close st)))). intros l.
  cut (owning (foldr subprocess_gc (with_vm close st) l) ∧
    (∀ u r, has_child (foldr subprocess_gc (with_vm close st) l) u r → has_child st u r) ∧
    signals_to (λ id, ∃ u r, has_child st u r ∧ waiter r = id) st
      (foldr subprocess_gc (with_vm close st) l)).
  { intros (_ & _ & Hs). revert Hs. apply signals_weaken. intros id Hid. by left. }
  induction l as [|u l (IO & IC & IS)]; simpl; [split_and!; [done|done|by apply no_signals]|].
  split_and!; [by apply owning_gc| |].
  - intros v r Hv%gc_children. by apply IC.
  - eapply signals_trans; [exact IS|]. unfold subprocess_gc.
    destruct (subprocesses (foldr _ _ _) !! u) as [[[r|] w i]|] eqn:Hu; [|by apply no_signals..].
    assert (has_child (foldr subprocess_gc (with_vm close st) l) u r) as Hr by (by eexists).
    case_decide; [|by apply no_signals].
    destruct (kill _ _ _) as [e|st1] eqn:Hk; [by apply no_signals|].
    destruct (kill_signals u r _ _ st1 IO Hr Hk) as (l' & E & Hl'). exists l'. split; [exact E|].
    intros id sig Hin%Hl'. exists u, r. auto.
Qed.

Lemma cancel_signals id st : signals (cancel_waits id st) = signals st.
Proof.
  unfold cancel_waits. generalize (elements (dom (waits st))) as l.
  induction l as [|f l IH]; simpl; [done|]. rewrite <- IH. unfold cancel_one.
  by repeat case_match.
Qed.

Lemma call_signals c L st st' a :
  owning st → call c L st = (st', a) → signals_to (owns st) st (suspend a st').
Proof.
  intros O E. assert (signals (suspend a st') = signals st') as Es by (by destruct a).
  cut (signals_to (owns st) st st'); [intros (l & E' & Hl); exists l; by rewrite Es|].
  destruct c; simpl in E.
  - apply no_signals. unfold subprocess_wait in E. repeat case_match; by simplify_eq/=.
  - unfold subprocess_kill in E.
    destruct (arg L 2) as [[]|]; try (simplify_eq; by apply no_signals).
    destruct (check_subprocess L st) as [[u [[r|] w i]]|] eqn:Hp; simplify_eq/=;
      try (by apply no_signals).
    apply check_subprocess_inv in Hp.
    destruct (kill _ _ _) as [e|st1] eqn:Hk; simplify_eq/=; [by apply no_signals|].
    assert (has_child st u r) as Hr by (by eexists).
    generalize (kill_signals u r _ st st' O Hr Hk). apply signals_weaken.
    intros id ->. left. by exists u, r.
  - apply no_signals. unfold subprocess_cap_get in E. repeat case_match; by simplify_eq/=.
Qed.

Lemma run_task_signals st st' : run_task st = Some st' → signals st' = signals st.
Proof.
  unfold run_task, on_wait, waitid. intros E.
  destruct (strand (vm st)) as [|[f opts] q]; [done|].
  destruct (waits _ !! f) as [[u id [|b]]|].
  1, 3: by apply bind_Some in E as (v & _ & [= <-]).
  destruct b; simpl in E.
  - apply bind_Some in E as (v & _ & [= <-]). by destruct (valid_ (vm st)).
  - destruct (valid_ (vm st)) eqn:Hv; simpl in E; rewrite Hv in E; simpl in E; [|by simplify_eq].
    destruct (processes st !! id) as [[n [|i]]|]; try done; simpl in E;
      by apply bind_Some in E as (v & _ & [= <-]).
Qed.

Lemma disposition_frame d m signo st st' a :
  set_disposition d m signo st = (st', a) →
  signals st' = signals st ∧ subprocesses st' = subprocesses st ∧ reaps st' = reaps st.
Proof. unfold set_disposition. intros E. repeat case_match; by simplify_eq/=. Qed.

(** C28 In a run in which the program does not ignore SIGCHLD ([reachable]), no
    signal reaches a stranger: whoever got the pid of a child that is gone, a
    signal that kill, the finalizer or the end of the VM sends goes to a process
    that [system.spawn] made and that has not been waited for.  A program that
    ignores SIGCHLD loses this: [Examples.ignored_child_is_stranger]. *)
Theorem signals_reach_own_children st0 st st' :
  inv st0 → reachable st0 st → subprocess_step st st' →
  signals_to (λ id, owns st id ∧ is_Some (processes st !! id)) st st'.
Proof.
  intros I0 Hr Hst. assert (owning st) as O by (by eapply inv_own, reachable_inv).
  assert (∀ id, owns st id → is_Some (processes st !! id)) as Halive.
  { intros id [(u & r & Hc & <-)|Hin]; [|by apply (own_reaps _ O)].
    destruct (own_pid _ O u r Hc) as [l ->]. by eexists. }
  apply (signals_weaken (owns st)); [by auto|].
  destruct Hst as
    [c L st st' a Hv Hrun Hc|id n sig st st' a Hv Hid Hn Hs|s st Hrun Hs|g st Hrun Hg
    |L st st' a Hv Hab Hi|f st|id st st' Hid Hre|st st' Hid Hre|u st Hno|st Hid
    |id n i st Hid Hno|id n st Hid Hig|m signo st st' a Hd|m signo st st' a Hd|signo d st Hd
    |id n st Hid Hn|id st Hid]; try (by apply no_signals).
  - by eapply call_signals.
  - apply no_signals. unfold new_subprocess in Hs. by simplify_eq.
  - apply no_signals. unfold interrupt, wait_interrupter in Hi.
    destruct (fiber_interrupt L (vm st)) as [v a'].
    destruct (called_interrupter L (vm st)) as [[| | | | |u|]|]; simplify_eq/=; try done.
    destruct (subprocesses st !! u) as [[[r|] w i]|]; simplify_eq/=.
    by rewrite cancel_signals.
  - apply no_signals. unfold wait_ready. by repeat case_match.
  - apply no_signals. unfold reap, waitid in Hre. repeat case_match; by simplify_eq/=.
  - by apply no_signals, run_task_signals.
  - by apply gc_signals.
  - by apply close_signals.
  - apply no_signals. by eapply disposition_frame.
  - apply no_signals. by eapply disposition_frame.
Qed.

(** * Children *)

Definition keeps (st st' : spawn_state) : Prop := ∀ id, owns st id → owns st' id.

#[local] Instance keeps_preorder : PreOrder keeps.
Proof. split; [by intros st id|intros s1 s2 s3 H12 H23 id ?; auto]. Qed.

Lemma keeps_children st st' :
  (∀ u r, has_child st u r → has_child st' u r) → reaps st' = reaps st → keeps st st'.
Proof.
  intros Hc Hr id [(u & r & Hu & E)|Hin]; [left; exists u, r; auto|right; by rewrite Hr].
Qed.

Lemma keeps_fields st st' :
  subprocesses st' = subprocesses st → reaps st' = reaps st → keeps st st'.
Proof. intros E. apply keeps_children. intros u r. unfold has_child. by rewrite E. Qed.

Lemma keeps_set st u p p' st' :
  subprocesses st !! u = Some p → reaper p' = reaper p →
  subprocesses st' = <[u := p']> (subprocesses st) → reaps st' = reaps st → keeps st st'.
Proof.
  intros Hu Hp E. apply keeps_children. intros v r (q & Hq & Hr). unfold has_child. rewrite E.
  setoid_rewrite lookup_insert. case_decide; [|by exists q]. subst v. exists p'.
  split; [done|]. congruence.
Qed.

Lemma gc_keeps u st : keeps st (subprocess_gc u st).
Proof.
  intros id Ho. unfold owns, has_child in *.
  destruct (subprocess_gc_frame u st) as (_ & _ & _ & ->).
  unfold subprocess_gc. destruct (subprocesses st !! u) as [[[r|] w i]|] eqn:Hu.
  - set (st1 := if decide _ then _ else _).
    assert (reaps st1 = reaps st) as E by (unfold st1, kill; repeat case_match; by simplify_eq/=).
    simpl. rewrite E, elem_of_app, list_elem_of_singleton.
    destruct Ho as [(v & q & (p & Hp & Hq) & <-)|?]; [|auto].
    destruct (decide (v = u)) as [->|]; [simplify_eq/=; auto|].
    left. exists v, q. split; [|done]. exists p. by rewrite lookup_delete_ne by congruence.
  - destruct Ho as [(v & q & (p & Hp & Hq) & <-)|?]; [|auto]. left. exists v, q.
    split; [|done]. exists p. rewrite lookup_delete_ne; [done|]. intros ->. by simplify_eq/=.
  - by rewrite delete_id.
Qed.

Lemma cancel_keeps id st : keeps st (cancel_waits id st).
Proof.
  unfold cancel_waits. generalize (elements (dom (waits st))) as l.
  induction l as [|f l IH]; simpl; [done|]. etrans; [exact IH|].
  apply keeps_fields; unfold cancel_one; by repeat case_match.
Qed.

Lemma call_keeps c L st st' a : call c L st = (st', a) → keeps st (suspend a st').
Proof.
  intros E. transitivity st'; [|by apply keeps_fields; destruct a]. destruct c; simpl in E.
  - unfold subprocess_wait in E. destruct (unsafe_can_suspend (vm st)); [by simplify_eq|].
    destruct (check_subprocess L st) as [[u [[r|] [|] i]]|] eqn:Hp; simplify_eq/=; try done.
    apply check_subprocess_inv in Hp.
    by apply (keeps_set st u _ (Subprocess (Some r) true i) _ Hp).
  - unfold subprocess_kill, kill in E. apply keeps_fields; repeat case_match; by simplify_eq/=.
  - unfold subprocess_cap_get in E. apply keeps_fields; repeat case_match; by simplify_eq/=.
Qed.

Lemma run_task_keeps st st' :
  inv st → run_task st = Some st' →
  ∀ id, owns st id → owns st' id ∨
    ∃ n i, processes st !! id = Some (RunningProcess n (Ended i)) ∧ processes st' !! id = None.
Proof.
  intros I E. destruct (strand (vm st)) as [|[f opts] q] eqn:Hq;
    [by unfold run_task in E; rewrite Hq in E|].
  assert (keeps st st' → ∀ id, owns st id → owns st' id ∨ ∃ n i,
    processes st !! id = Some (RunningProcess n (Ended i)) ∧ processes st' !! id = None) as Hk
    by (intros Hk id Ho; left; by apply Hk).
  destruct (waits st !! f) as [[u id0 [|b]]|] eqn:Hf.
  1, 3: unfold run_task in E; rewrite Hq in E; simpl in E; rewrite Hf in E;
    apply bind_Some in E as (v & _ & [= <-]); apply Hk, keeps_fields; done.
  destruct (valid_ (vm st)) eqn:Hv.
  - destruct (run_wait_spec f opts q u id0 b st (inv_own _ I) (inv_waiting _ I Hv) Hv Hq Hf)
      as (r & i0 & v & Hu & Hid & _ & _ & Hrun).
    destruct b.
    + rewrite Hrun in E. simplify_eq. apply Hk.
      by apply (keeps_set st u _ (Subprocess (Some r) false i0) _ Hu).
    + destruct Hrun as (n & i & Hi & Hrun). rewrite Hrun in E. simplify_eq.
      intros id [(w & s & (p & Hp & Hs) & <-)|Hin]; [|left; by right].
      destruct (decide (w = u)) as [->|Hne].
      * right. exists n, i. simplify_eq/=. split; [done|]. apply lookup_delete_eq.
      * left. left. exists w, s. split; [|done]. exists p. simpl.
        by rewrite lookup_insert_ne by congruence.
  - apply Hk. unfold run_task, on_wait in E. rewrite Hq in E. simpl in E. rewrite Hf in E.
    simpl in E. rewrite Hv in E. destruct b; simpl in E.
    + by apply bind_Some in E as (v & _ & [= <-]); apply keeps_fields.
    + rewrite Hv in E. simpl in E. simplify_eq. by apply keeps_fields.
Qed.

Lemma close_keeps st : keeps st (close_vm st).
Proof.
  unfold close_vm. transitivity (with_vm close st); [by apply keeps_fields|].
  generalize (elements (dom (subprocesses (with_vm close st)))). intros l.
  induction l as [|u l IH]; simpl; [done|]. etrans; [exact IH|apply gc_keeps].
Qed.

Lemma interrupt_keeps L st st' a : interrupt L st = Some (st', a) → keeps st st'.
Proof.
  unfold interrupt, wait_interrupter. destruct (fiber_interrupt L (vm st)) as [v a'].
  destruct (called_interrupter L (vm st)) as [[| | | | |u|]|]; intros; simplify_eq/=;
    try (by apply keeps_fields).
  destruct (subprocesses st !! u) as [[[r|] w i]|]; simplify_eq/=.
  etrans; [|apply cancel_keeps]. by apply keeps_fields.
Qed.

(** Every child of a VM has one owner, which waits for it once: a [subprocess]
    userdata, or, when that was destroyed, the reactor.  The child stays a process
    of the system, if only as a zombie, as long as it has an owner, and it loses
    its owner only when it has ended and is waited for.  This is as long as the
    program does not ignore SIGCHLD. *)
Theorem child_waited_once st0 st st' :
  inv st0 → reachable st0 st → waitable_step st st' →
  (∀ u v r r', has_child st u r → has_child st v r' → waiter r = waiter r' → u = v) ∧
  (∀ u r, has_child st u r → waiter r ∉ reaps st) ∧ NoDup (reaps st) ∧
  (∀ id, owns st id → is_Some (processes st !! id)) ∧
  (∀ id, owns st id → owns st' id ∨
     ∃ n i, processes st !! id = Some (RunningProcess n (Ended i)) ∧ processes st' !! id = None).
Proof.
  intros I0 Hr [Hign Hst]. assert (inv st) as I by (by eapply reachable_inv).
  pose proof (inv_own _ I) as O. split_and!.
  - apply (own_object _ O).
  - apply (own_left _ O).
  - apply (own_once _ O).
  - intros id [(u & r & Hc & <-)|Hin]; [|by apply (own_reaps _ O)].
    destruct (own_pid _ O u r Hc) as [l ->]. by eexists.
  - assert (keeps st st' → ∀ id, owns st id → owns st' id ∨ ∃ n i,
      processes st !! id = Some (RunningProcess n (Ended i)) ∧ processes st' !! id = None) as Hk
      by (intros Hk id Ho; left; by apply Hk).
    destruct Hst as
      [c L st st' a Hv Hrun Hc|id n sig st st' a Hv Hid Hn Hs|s st Hrun Hs|g st Hrun Hg
      |L st st' a Hv Hab Hi|f st|id st st' Hid Hre|st st' Hid Hre|u st Hno|st Hid
      |id n i st Hid Hno|id n st Hid Hig|m signo st st' a Hd|m signo st st' a Hd|signo d st Hd
      |id n st Hid Hn|id st Hid]; try (apply Hk; by apply keeps_fields).
    + apply Hk. by eapply call_keeps.
    + apply Hk. unfold new_subprocess in Hs. simplify_eq. apply keeps_children; [|done].
      intros u r (p & Hp & Hr'). exists p. simpl. rewrite lookup_insert_ne; [done|].
      intros <-. by rewrite (inv_fresh _ I) in Hp.
    + apply Hk. by eapply interrupt_keeps.
    + apply Hk, keeps_fields; unfold wait_ready; by repeat case_match.
    + unfold reap, waitid in Hre. destruct (own_reaps _ O id Hid) as [[n [|i]] Hp];
        rewrite Hp in Hre; [done|].
      simplify_eq/=. intros id' [(u & r & Hc & E)|Hin]; [left; left; by exists u, r|].
      destruct (decide (id' = id)) as [->|].
      * right. exists n, i. split; [done|]. simpl. apply lookup_delete_eq.
      * left. right. simpl. by apply list_elem_of_filter.
    + by apply run_task_keeps.
    + apply Hk, gc_keeps.
    + apply Hk, close_keeps.
    + apply disposition_frame in Hd as (_ & ? & ?). apply Hk. by apply keeps_fields.
    + apply disposition_frame in Hd as (_ & ? & ?). apply Hk. by apply keeps_fields.
Qed.

(** * Waiting *)

(** A fiber that waits for a child goes on without an error once the child
    has ended, and only it has waited for the process: the userdata then tells
    how the child ended, the exit code or 128 and the signal that killed it, and
    refers to no process any more.  (For a program that ignores SIGCHLD it tells
    what [waitid] did not write.) *)
Theorem wait_reports_exit st0 st f opts q u id :
  inv st0 → reachable st0 st → valid_ (vm st) = true →
  strand (vm st) = FiberResume f opts :: q →
  waits st !! f = Some (WaitOp u id (Completed false)) →
  ∃ st' n i,
    run_task st = Some st' ∧
    processes st !! id = Some (RunningProcess n (Ended i)) ∧
    processes st' = delete id (processes st) ∧
    threads (vm st') !! f = Some (CoRunning []) ∧
    ∃ p, subprocesses st' !! u = Some p ∧
      subprocess_exit_code p =
        match si_code i with
        | CLD_EXITED => push_integer (si_status i)
        | CLD_KILLED | CLD_DUMPED => push_integer (128 + si_status i)
        | CLD_OTHER => Stuck
        end ∧
      subprocess_pid p = error no_child_process ∧
      (∀ sig L, subprocess_kill (LUserdata u :: LNumber sig :: L) st' =
        (st', error no_such_process)).
Proof.
  intros I0 Hr Hv Hq Hf. assert (inv st) as I by (by eapply reachable_inv).
  destruct (run_wait_spec f opts q u id false st (inv_own _ I) (inv_waiting _ I Hv) Hv Hq Hf)
    as (r & i0 & v & Hu & Hid & -> & Hres & n & i & Hi & Hrun).
  eexists _, n, i. split_and!; [exact Hrun|done|done| |].
  - simpl. unfold Vm.fiber_resume in Hres. simpl in Hres.
    rewrite Hv, (wait_suspended _ (inv_waiting _ I Hv) _ _ Hf) in Hres. simplify_eq/=.
    by rewrite lookup_insert_eq.
  - exists (Subprocess None false (Some i)). simpl. rewrite lookup_insert_eq.
    split_and!; [done|by unfold subprocess_exit_code; simpl; destruct (si_code i)|done|].
    intros sig L. unfold subprocess_kill, check_subprocess. simpl. by rewrite lookup_insert_eq.
Qed.

(** Cancelling queues every fiber that waits on the descriptor. *)
Lemma cancel_one_strand id g f st :
  f ∈ task_fiber <$> strand (vm st) → f ∈ task_fiber <$> strand (vm (cancel_one id g st)).
Proof.
  intros Hf. unfold cancel_one. repeat case_match; try done. simpl. rewrite fmap_app.
  apply elem_of_app. by left.
Qed.

Lemma cancel_one_other id g f st :
  g ≠ f → waits (cancel_one id g st) !! f = waits st !! f.
Proof.
  intros Hne. unfold cancel_one. repeat case_match; try done. simpl.
  by rewrite lookup_insert_ne by congruence.
Qed.

Lemma cancel_one_hit id f st u :
  waits st !! f = Some (WaitOp u id Pending) →
  f ∈ task_fiber <$> strand (vm (cancel_one id f st)).
Proof.
  intros Hf. unfold cancel_one. rewrite Hf, decide_True by done. simpl. rewrite fmap_app.
  apply elem_of_app. right. by left.
Qed.

Lemma cancel_waits_strand id f st u :
  waits st !! f = Some (WaitOp u id Pending) →
  f ∈ task_fiber <$> strand (vm (cancel_waits id st)).
Proof.
  intros Hf. unfold cancel_waits.
  assert (f ∈ elements (dom (waits st))) as Hin by (apply elem_of_elements, elem_of_dom; by eexists).
  revert Hin. generalize (elements (dom (waits st))) as l. intros l.
  cut ((f ∈ l ∨ waits (foldr (cancel_one id) st l) !! f = Some (WaitOp u id Pending)) →
    f ∈ task_fiber <$> strand (vm (foldr (cancel_one id) st l)) ∨
    waits (foldr (cancel_one id) st l) !! f = Some (WaitOp u id Pending) ∧ f ∉ l).
  { intros Hcut Hin. destruct Hcut as [?|[_ ?]]; [by left|done|done]. }
  induction l as [|g l IH]; simpl; [intros _; right; split; [done|apply not_elem_of_nil]|].
  intros _. destruct (decide (f ∈ l)) as [Hl|Hl].
  { left. apply cancel_one_strand. destruct IH as [?|[_ ?]]; [by left|done|done]. }
  assert (waits (foldr (cancel_one id) st l) !! f = Some (WaitOp u id Pending)) as Hw.
  { clear IH. induction l as [|g' l IH']; simpl; [done|].
    apply not_elem_of_cons in Hl as [Hne Hl]. rewrite cancel_one_other by congruence. auto. }
  destruct (decide (g = f)) as [->|Hne]; [left; by eapply cancel_one_hit|].
  right. split; [|by apply not_elem_of_cons]. by rewrite cancel_one_other.
Qed.

Lemma cancel_strand id f st :
  f ∈ task_fiber <$> strand (vm st) → f ∈ task_fiber <$> strand (vm (cancel_waits id st)).
Proof.
  unfold cancel_waits. intros Hf. induction (elements (dom (waits st))); simpl; [done|].
  by apply cancel_one_strand.
Qed.

Lemma fiber_interrupt_strand L v :
  about_subprocesses (called_interrupter L v) → strand (fiber_interrupt L v).1 = strand v.
Proof.
  unfold called_interrupter, fiber_interrupt. intros Hab.
  destruct (fiber_arg L v) as [[h [[[f|] jip] c]]|]; [|done|done].
  destruct (fiber_list v !! f) as [row|] eqn:Hrow; [|done]. simpl in *.
  destruct (decide (f = current_fiber_ v)); [done|]. simpl in Hab.
  by destruct (interrupter row) as [[]|].
Qed.

(** A fiber that waits for a child always gets an answer: it stays suspended
    while the child runs; when the child has ended, the reactor queues it; its turn
    in the strand resumes it and ends the wait, without blocking the strand; and
    an interruption queues it too, as the interrupter always finds the descriptor
    it cancels. *)
Theorem wait_ends st0 st f op :
  inv st0 → reachable st0 st → valid_ (vm st) = true → waits st !! f = Some op →
  threads (vm st) !! f = Some CoSuspended ∧
  (∀ n i, processes st !! wait_process op = Some (RunningProcess n (Ended i)) →
     f ∈ task_fiber <$> strand (vm (wait_ready f st))) ∧
  (∀ opts q, strand (vm st) = FiberResume f opts :: q →
     ∃ st', run_task st = Some st' ∧ running (vm st') f ∧ waits st' !! f = None) ∧
  (∀ L row, called_interrupter L (vm st) = Some (ISubprocess (wait_on op)) →
     fiber_list (vm st) !! f = Some row → interrupter row = Some (ISubprocess (wait_on op)) →
     ∃ st' a, interrupt L st = Some (st', a) ∧ f ∈ task_fiber <$> strand (vm st')).
Proof.
  intros I0 Hr Hv Hf. assert (inv st) as I by (by eapply reachable_inv).
  pose proof (inv_waiting _ I Hv) as W. destruct op as [u id pr]. split_and!.
  - by eapply wait_suspended.
  - simpl. intros n i Hi. unfold wait_ready. rewrite Hf. destruct pr as [|b].
    + rewrite Hi. simpl. rewrite fmap_app. apply elem_of_app. right. by left.
    + by eapply wait_task.
  - intros opts q Hq.
    destruct (task_wait _ W f opts _ ltac:(rewrite Hq; by left) Hf) as (b & Hb & _).
    simpl in Hb. subst pr.
    destruct (run_wait_spec f opts q u id b st (inv_own _ I) W Hv Hq Hf)
      as (r & i0 & v & _ & _ & _ & Hres & Hrun).
    destruct (fiber_resume_valid _ _ _ _ Hres Hv) as (_ & _ & _ & [args Eth] & _).
    assert (running v f) as Hrv by (exists args; rewrite Eth; apply lookup_insert_eq).
    destruct b; [|destruct Hrun as (n & i & _ & Hrun)]; eexists;
      (split; [exact Hrun|split; [exact Hrv|apply lookup_delete_eq]]).
  - intros L row Hc Hrow Hi. simpl in Hc.
    assert (about_subprocesses (called_interrupter L (vm st))) as Hab by (by rewrite Hc).
    pose proof (fiber_interrupt_strand L (vm st) Hab) as Hs.
    destruct (wait_child _ W f u id pr Hf) as (r & i & Hp & Hid).
    unfold interrupt, wait_interrupter. rewrite Hc.
    destruct (fiber_interrupt L (vm st)) as [v a]. simpl in Hs |- *. rewrite Hp. simpl.
    eexists _, _. split; [done|]. rewrite Hid. destruct pr as [|b].
    + by eapply cancel_waits_strand.
    + apply cancel_strand. simpl. rewrite Hs. by eapply wait_task.
Qed.
End promises.

(** * Examples *)
Module Examples.
#[local] Existing Instance Ieee754.api.
#[local] Instance rights : ProcessRights :=
  {| kill_refused _ _ := None; cap_get_refused _ := None; sigaction_refused _ _ := None;
     unwritten _ := Siginfo CLD_OTHER 0 |}.

Definition row : fiber_data :=
  FiberData JNone None 0 None (DNumber 0) false None None None false.

(** The main fiber, 0, runs; another one, 3, is suspended. *)
Definition start : spawn_state :=
  SpawnState
    (Vm true 0 0 1 false false None false [] [] true false
       {[0%nat := CoRunning []; 3%nat := CoSuspended]} {[0%nat := row; 3%nat := row]}
       ∅ [] ∅ 10)
    ∅ {[7%nat := RunningProcess 500 Alive]} ∅ [] [] ∅.

(** A child is spawned, the main fiber waits, the child exits with 3, the
    reactor notices. *)
Definition spawned : spawn_state := (new_subprocess 1 100 SIGTERM start).1.
Definition waits_for_it : spawn_state :=
  suspend Yield (subprocess_wait [LUserdata 10] spawned).1.
Definition exited : spawn_state :=
  with_processes <[1%nat := RunningProcess 100 (Ended (Siginfo CLD_EXITED 3))]> waits_for_it.
Definition noticed : spawn_state := wait_ready 0 exited.

Lemma first_inv : inv start.
Proof.
  split.
  - split; try (by intros ? ? (p & Hp & _)); try (by intros ? ? ? ? (p & Hp & _)).
    + constructor.
    + by intros id ?%elem_of_nil.
    + intros id id' n l l'. simpl. rewrite !lookup_singleton. by repeat case_decide; subst.
  - done.
  - intros _. split; simpl; try done.
    + intros g r u. rewrite lookup_insert, lookup_singleton.
      repeat case_decide; intros Hr Hi; by simplify_eq/=.
    + constructor.
    + by intros g ?%elem_of_nil.
Qed.

Lemma reaches_spawned : reachable start spawned.
Proof.
  apply rtc_once. split; [done|].
  by apply (step_spawn 1 100 SIGTERM start spawned (Return [RV (LUserdata 10)])).
Qed.

Lemma reaches_noticed : reachable start noticed.
Proof.
  etrans; [exact reaches_spawned|].
  eapply rtc_l; [split; [done|]; eapply (step_call CallWait [LUserdata 10] spawned);
    [done|by exists []|done]|].
  eapply rtc_l; [split; [done|]; eapply (step_exit 1 100 (Siginfo CLD_EXITED 3) waits_for_it);
    [done|by left]|].
  apply rtc_once. split; [done|]. apply (step_ready 0).
Qed.

Lemma noticed_run :
  waits noticed !! 0%nat = Some (WaitOp 10 1 (Completed false)) ∧
  strand (vm noticed) = [FiberResume 0 no_options].
Proof. split; vm_compute; reflexivity. Qed.

Lemma signals_reach_own_children_witness :
  signals_to (λ id, owns spawned id ∧ is_Some (processes spawned !! id)) spawned
    (subprocess_gc 10 spawned) ∧
  signals (subprocess_gc 10 spawned) = [(1%nat, SIGTERM)].
Proof.
  split; [|vm_compute; reflexivity].
  apply (signals_reach_own_children start spawned (subprocess_gc 10 spawned) first_inv
    reaches_spawned).
  apply step_gc. intros f op. vm_compute. discriminate.
Defined.

Lemma spawned_owns : owns spawned 1.
Proof. left. exists 10%nat, (SpawnReaper 1 100 SIGTERM). split; [by eexists|done]. Qed.

Lemma child_waited_once_witness :
  owns (subprocess_gc 10 spawned) 1 ∨
  ∃ n i, processes spawned !! 1%nat = Some (RunningProcess n (Ended i)) ∧
    processes (subprocess_gc 10 spawned) !! 1%nat = None.
Proof.
  refine (proj2 (proj2 (proj2 (proj2 (child_waited_once start spawned
    (subprocess_gc 10 spawned) first_inv reaches_spawned _)))) 1%nat spawned_owns).
  split; [done|]. apply step_gc. intros f op. vm_compute. discriminate.
Defined.

Lemma wait_reports_exit_witness :
  ∃ st', run_task noticed = Some st' ∧ threads (vm st') !! 0%nat = Some (CoRunning []).
Proof.
  destruct (wait_reports_exit start noticed 0 no_options [] 10 1 first_inv reaches_noticed)
    as (st' & n & i & Hrun & _ & _ & Hth & _); [reflexivity|apply noticed_run|apply noticed_run|].
  exact (ex_intro _ st' (conj Hrun Hth)).
Defined.

Lemma wait_ends_witness :
  ∃ st', run_task noticed = Some st' ∧ running (vm st') 0 ∧ waits st' !! 0%nat = None.
Proof.
  destruct (wait_ends start noticed 0 (WaitOp 10 1 (Completed false)) first_inv reaches_noticed)
    as (_ & _ & Hrun & _); [reflexivity|apply noticed_run|].
  apply (Hrun no_options []). apply noticed_run.
Defined.

(** A program that ignores SIGCHLD: the child ends, the system waits for it, and
    its pid goes to another program, which gets the signals of kill and of the
    finalizer. *)
Definition sigchld_ignored : spawn_state := (system_signal_ignore true sigchld spawned).1.
Definition unwaited : spawn_state := with_processes (delete 1%nat) sigchld_ignored.
Definition used_again : spawn_state :=
  with_processes <[9%nat := RunningProcess 100 Alive]> unwaited.

Lemma ignored_child_is_stranger :
  rtc subprocess_step start used_again ∧
  ¬ owns used_again 9 ∧
  signals (subprocess_kill [LUserdata 10; LNumber (lua_pushinteger 9)] used_again).1 = [(9%nat, 9)] ∧
  signals (subprocess_gc 10 used_again) = [(9%nat, SIGTERM)].
Proof.
  split_and!; [|intros [(u & r & (p & Hp & Hr) & E)|Hin]| |].
  - eapply rtc_l.
    { by apply (step_spawn 1 100 SIGTERM start spawned (Return [RV (LUserdata 10)])). }
    eapply rtc_l; [by eapply (step_ignore true sigchld spawned sigchld_ignored (Return []))|].
    eapply rtc_l; [eapply (step_exit_unwaited 1 100 sigchld_ignored); [done|done|]|].
    { left. exists 10%nat, (SpawnReaper 1 100 SIGTERM). split; [by eexists|done]. }
    apply rtc_once. by apply (step_stranger 9 100 unwaited).
  - change (({[10%nat := Subprocess (Some (SpawnReaper 1 100 SIGTERM)) false None]} :
      gmap loc subprocess) !! u = Some p) in Hp.
    apply lookup_singleton_Some in Hp as [<- <-]. simplify_eq/=.
  - by apply elem_of_nil in Hin.
  - by vm_compute.
  - by vm_compute.
Qed.

(** The child exits and is waited for; its pid goes to another program: a kill
    finds no process, and the stranger gets no signal from the finalizer. *)
Lemma pid_used_again :
  let st := match run_task noticed with Some st => st | None => noticed end in
  let st := with_processes <[9%nat := RunningProcess 100 Alive]> st in
  subprocess_kill [LUserdata 10; LNumber (lua_pushinteger 9)] st = (st, error no_such_process) ∧
  signals (subprocess_gc 10 st) = [] ∧ process_of 100 (processes st) = Some 9%nat.
Proof. vm_compute. split_and!; reflexivity. Qed.
End Examples.
