(* ===== verification/Io.v ===== *)
(** What the I/O modules share: the table of file descriptors, the
    [file_descriptor] userdata ([src/include/emilua/file_descriptor.hpp]), the
    objects of Asio the other userdata hold ([src/include/emilua/socket_base.hpp],
    [ip.hpp], [unix.hpp], [pipe.hpp], ...), and the operations fibers wait for.

    Asio and the kernel are not in the sources.  A function that calls them
    takes their answer as an argument; what is documented of the answers are the
    [.._allowed] predicates, and what of their effects the few definitions here:
    the descriptor an object holds, the operations that are cancelled, the
    descriptors that are closed.  The reactor completes a pending operation at
    any time ([reactor]). *)
From S2P Require Import Prelude Errors Lua LuaTable ByteSpan Vm FiberOps SpawnArgs.
#[local] Open Scope Z_scope.

(** * Data *)

Definition INVALID_FILE_DESCRIPTOR : Z := -1.

(** A [file_descriptor] userdata.  [close] and the functions that hand the
    descriptor to an object set its metatable to [nil]. *)
Record file_descriptor_handle : Set := FileDescriptor {
  value : Z;
  has_metatable : bool;
}.

(** The userdata that hold an object of Asio. *)
Inductive io_class : Set :=
| tcp_socket | tcp_acceptor | udp_socket
| unix_datagram_socket | unix_stream_socket | unix_seqpacket_socket
| unix_stream_acceptor | unix_seqpacket_acceptor
| readable_pipe | writable_pipe | serial_port
| stream_file | random_access_file.

#[export] Instance io_class_eq_dec : EqDecision io_class.
Proof. solve_decision. Defined.

(** [template<class T> struct Socket] has [nbusy]; the others are plain objects
    of Asio. *)
Definition is_socket (c : io_class) : bool :=
  match c with
  | tcp_socket | udp_socket
  | unix_datagram_socket | unix_stream_socket | unix_seqpacket_socket => true
  | _ => false
  end.

Record io_object : Set := IoObject {
  class : io_class;
  native_handle : Z;            (* [INVALID_FILE_DESCRIPTOR] when it is not open *)
  nbusy : Z;
}.
Definition is_open (o : io_object) : bool :=
  bool_decide (native_handle o ≠ INVALID_FILE_DESCRIPTOR).

(** An address of IP; [scope_id] is that of a version 6 address. *)
Inductive ip_address : Set := V4 (a : Z) | V6 (a scope_id : Z).

(** The values of the userdata that do not hold descriptors. *)
Inductive value_userdata : Set :=
| UIpAddress (a : ip_address)
| UPath (p : bytes)
| UCapabilities.                (* [linux_capabilities_mt_key] *)

(** [send_with_fds_op::file_descriptor_lock]. *)
Record file_descriptor_lock : Set := Lock {
  reference : loc;
  lock_value : Z;
}.

(** What an operation does, with the fields its handler uses: a transfer gives
    the number of octets, and who sent them if [from]; [eof] is set where no
    octets are the end of a stream. *)
Inductive action : Set :=
| Connect
| Wait
| Accept (peer : io_class)
| Transfer (reading from eof : bool)
| ReceiveWithFds (maxfds : Z) (skip_eof_detection is_receive_from : bool)
| SendWithFds (fds : list file_descriptor_lock) (remote_endpoint : bytes).

(** Who sent a datagram. *)
Inductive endpoint : Set :=
| IpEndpoint (a : ip_address) (port : Z)
| LocalEndpoint (path : bytes).

(** What a handler is called with: an error, or nothing, the number of octets,
    the sender, the peer that was accepted. *)
Record completion : Set := Completion {
  completion_ec : option error_code;
  bytes_transferred : Z;
  remote_sender : option endpoint;
  peer : Z;
}.
Definition operation_aborted : error_code :=
  Basic_code Asio.basic_errors.operation_aborted.

Inductive progress : Set := Pending | Completed (c : completion).

(** An operation in flight, by the fiber that waits for it: the object and its
    class, whose handler it has, the range of a buffer its [shared_ptr] keeps, the
    cancellation slot. *)
Record io_op : Set := IoOp {
  op_object : loc;
  op_class : io_class;
  op_action : action;
  op_buffer : option (loc * Z);
  op_size : Z;
  op_slot : option loc;
  op_progress : progress;
}.
Definition set_progress (p : progress) (op : io_op) : io_op :=
  IoOp (op_object op) (op_class op) (op_action op) (op_buffer op) (op_size op) (op_slot op) p.
(** The handler is called with an error; a sender it was not told is the value
    endpoints are made with. *)
Definition no_sender (op : io_op) : option endpoint :=
  match op_action op with
  | Transfer _ true _ =>
      Some (if decide (op_class op = udp_socket) then IpEndpoint (V4 0) 0
            else LocalEndpoint [])
  | _ => None
  end.
Definition failed (op : io_op) (ec : error_code) : completion :=
  Completion (Some ec) 0 (no_sender op) INVALID_FILE_DESCRIPTOR.
Definition is_pending (op : io_op) : bool :=
  match op_progress op with Pending => true | Completed _ => false end.

(** What objects ask of the kernel, besides opening and closing. *)
Inductive request : Set :=
| RBind (ep : endpoint)
| RListen (backlog : option Z)             (* none: [max_listen_connections] *)
| RShutdown (what : nat)
| RDisconnect
| RConnect (ep : endpoint)
| RSendTo (ep : endpoint)
| RCapSet
| RWrite (data : bytes)
| RSendmsg (data : bytes) (files : list (option nat)) (remote_endpoint : bytes).

(** The state: a VM, its byte spans, tables and userdata; the operations; the
    table of descriptors of the process, which gives the open file of each; what
    was asked of the kernel, and on which descriptor. *)
Record io_state : Set := IoState {
  vm : vm_context;
  memory : ByteSpan.store;
  lua_tables : gmap loc table;
  values : gmap loc value_userdata;
  handles : gmap loc file_descriptor_handle;
  io_objects : gmap loc io_object;
  ops : gmap loc io_op;
  descriptors : gmap Z nat;
  requests : list (Z * request);
}.

Definition with_vm (f : vm_context → vm_context) (st : io_state) : io_state :=
  IoState (f (vm st)) (memory st) (lua_tables st) (values st) (handles st) (io_objects st)
    (ops st) (descriptors st) (requests st).
Definition with_memory (f : ByteSpan.store → ByteSpan.store) (st : io_state) : io_state :=
  IoState (vm st) (f (memory st)) (lua_tables st) (values st) (handles st) (io_objects st)
    (ops st) (descriptors st) (requests st).
Definition with_tables (f : gmap loc table → gmap loc table) (st : io_state) : io_state :=
  IoState (vm st) (memory st) (f (lua_tables st)) (values st) (handles st) (io_objects st)
    (ops st) (descriptors st) (requests st).
Definition with_values (f : gmap loc value_userdata → gmap loc value_userdata)
    (st : io_state) : io_state :=
  IoState (vm st) (memory st) (lua_tables st) (f (values st)) (handles st) (io_objects st)
    (ops st) (descriptors st) (requests st).
Definition with_handles (f : gmap loc file_descriptor_handle → gmap loc file_descriptor_handle)
    (st : io_state) : io_state :=
  IoState (vm st) (memory st) (lua_tables st) (values st) (f (handles st)) (io_objects st)
    (ops st) (descriptors st) (requests st).
Definition with_objects (f : gmap loc io_object → gmap loc io_object) (st : io_state) :
    io_state :=
  IoState (vm st) (memory st) (lua_tables st) (values st) (handles st) (f (io_objects st))
    (ops st) (descriptors st) (requests st).
Definition with_ops (f : gmap loc io_op → gmap loc io_op) (st : io_state) : io_state :=
  IoState (vm st) (memory st) (lua_tables st) (values st) (handles st) (io_objects st)
    (f (ops st)) (descriptors st) (requests st).
Definition with_descriptors (f : gmap Z nat → gmap Z nat) (st : io_state) : io_state :=
  IoState (vm st) (memory st) (lua_tables st) (values st) (handles st) (io_objects st)
    (ops st) (f (descriptors st)) (requests st).
Definition with_requests (f : list (Z * request) → list (Z * request)) (st : io_state) :
    io_state :=
  IoState (vm st) (memory st) (lua_tables st) (values st) (handles st) (io_objects st)
    (ops st) (descriptors st) (f (requests st)).

Definition set_handle (h : loc) (x : file_descriptor_handle) : io_state → io_state :=
  with_handles <[h := x]>.
Definition set_io_object (u : loc) (o : io_object) : io_state → io_state :=
  with_objects <[u := o]>.
Definition set_native (n : Z) (o : io_object) : io_object :=
  IoObject (class o) n (nbusy o).
Definition set_busy (n : Z) (o : io_object) : io_object :=
  IoObject (class o) (native_handle o) n.

(** [lua_newuserdata], for the three kinds of userdata. *)
Definition new_loc (st : io_state) : io_state * loc :=
  (with_vm (with_next_loc S) st, next_loc (vm st)).
Definition new_handle (n : Z) (st : io_state) : io_state * loc :=
  let '(st, h) := new_loc st in (set_handle h (FileDescriptor n true) st, h).
Definition new_io_object (c : io_class) (n : Z) (st : io_state) : io_state * loc :=
  let '(st, u) := new_loc st in (set_io_object u (IoObject c n 0) st, u).
Definition new_value (v : value_userdata) (st : io_state) : io_state * loc :=
  let '(st, u) := new_loc st in (with_values <[u := v]> st, u).

(** * Descriptors *)

(** [close(2)]; nobody looks at its result. *)
Definition sys_close (n : Z) (st : io_state) : io_state := with_descriptors (delete n) st.

(** The kernel gives a descriptor. *)
Definition install (fd : Z * nat) (st : io_state) : io_state :=
  with_descriptors <[fd.1 := fd.2]> st.
Definition install_allowed (fd : Z * nat) (st : io_state) : Prop :=
  0 ≤ fd.1 ∧ descriptors st !! fd.1 = None.

(** * Operations in flight *)

(** The handler of a pending operation goes to the strand. *)
Definition complete (f : loc) (c : completion) (st : io_state) : io_state :=
  match ops st !! f with
  | Some op =>
      with_vm (post f no_options) (with_ops <[f := set_progress (Completed c) op]> st)
  | None => st
  end.

(** Cancel the pending operations a predicate selects. *)
Definition abort_one (P : io_op → bool) (f : loc) (st : io_state) : io_state :=
  match ops st !! f with
  | Some op => if is_pending op && P op then complete f (failed op operation_aborted) st else st
  | None => st
  end.
Definition abort_ops (P : io_op → bool) (st : io_state) : io_state :=
  foldr (abort_one P) st (elements (dom (ops st))).

Definition on_object (u : loc) (op : io_op) : bool := bool_decide (op_object op = u).
Definition on_slot (s : loc) (op : io_op) : bool := bool_decide (op_slot op = Some s).

(** * The functions of Asio's objects

    [open] and [assign] answer with an error when the object is open already;
    [release] when it is not.  [close] gives the descriptor back even when it
    reports an error. *)
Definition asio_open (u : loc) (o : io_object) (r : error_code + Z * nat) (st : io_state) :
    option error_code * io_state :=
  match r with
  | inl ec => (Some ec, st)
  | inr fd => (None, set_io_object u (set_native fd.1 o) (install fd st))
  end.
Definition open_allowed (u : loc) (r : error_code + Z * nat) (st : io_state) : Prop :=
  match r with
  | inl _ => True
  | inr fd =>
      install_allowed fd st ∧ ∀ o, io_objects st !! u = Some o → is_open o = false
  end.

Definition asio_assign (u : loc) (o : io_object) (n : Z) (r : option error_code)
    (st : io_state) : option error_code * io_state :=
  match r with
  | Some ec => (Some ec, st)
  | None => (None, set_io_object u (set_native n o) st)
  end.
Definition assign_allowed (u : loc) (r : option error_code) (st : io_state) : Prop :=
  r = None → ∀ o, io_objects st !! u = Some o → is_open o = false.

Definition asio_close (u : loc) (o : io_object) (r : option error_code) (st : io_state) :
    option error_code * io_state :=
  if is_open o then
    (r, set_io_object u (set_native INVALID_FILE_DESCRIPTOR o)
          (sys_close (native_handle o) (abort_ops (on_object u) st)))
  else (None, st).

Definition asio_cancel (u : loc) (r : option error_code) (st : io_state) :
    option error_code * io_state :=
  match r with
  | Some ec => (Some ec, st)
  | None => (None, abort_ops (on_object u) st)
  end.

Definition asio_release (u : loc) (o : io_object) (r : option error_code) (st : io_state) :
    option error_code * Z * io_state :=
  match r with
  | Some ec => (Some ec, INVALID_FILE_DESCRIPTOR, st)
  | None =>
      (None, native_handle o,
       set_io_object u (set_native INVALID_FILE_DESCRIPTOR o) (abort_ops (on_object u) st))
  end.
Definition release_allowed (u : loc) (r : option error_code) (st : io_state) : Prop :=
  r = None → ∀ o, io_objects st !! u = Some o → is_open o = true.

(** The destructor. *)
Definition asio_destroy (u : loc) (st : io_state) : io_state :=
  match io_objects st !! u with
  | Some o =>
      let st := abort_ops (on_object u) st in
      with_objects (delete u) (if is_open o then sys_close (native_handle o) st else st)
  | None => st
  end.

(** * Arguments *)

(** [lua_touserdata] and the comparison of the metatable. *)
Definition check_object (c : io_class) (L : lua_args) (i : nat) (st : io_state) :
    answer + (loc * io_object) :=
  match arg L i with
  | Some (LUserdata u) =>
      match io_objects st !! u with
      | Some o => if decide (class o = c) then inr (u, o) else inl (error_arg invalid_argument i)
      | None => inl (error_arg invalid_argument i)
      end
  | _ => inl (error_arg invalid_argument i)
  end.

(** The same for a [file_descriptor], which must not be in use. *)
Definition check_file_descriptor (L : lua_args) (i : nat) (st : io_state) :
    answer + (loc * Z) :=
  match arg L i with
  | Some (LUserdata h) =>
      match handles st !! h with
      | Some (FileDescriptor n true) =>
          if decide (n = INVALID_FILE_DESCRIPTOR) then inl (error device_or_resource_busy)
          else inr (h, n)
      | _ => inl (error_arg invalid_argument i)
      end
  | _ => inl (error_arg invalid_argument i)
  end.

Definition check_span (L : lua_args) (i : nat) (st : io_state) : answer + byte_span_handle :=
  match span_of (memory st) (arg L i) with
  | Some bs => inr bs
  | None => inl (error_arg invalid_argument i)
  end.

Definition check_address (L : lua_args) (i : nat) (st : io_state) : answer + ip_address :=
  match arg L i with
  | Some (LUserdata u) =>
      match values st !! u with
      | Some (UIpAddress a) => inr a
      | _ => inl (error_arg invalid_argument i)
      end
  | _ => inl (error_arg invalid_argument i)
  end.

Definition check_path (L : lua_args) (i : nat) (st : io_state) : answer + bytes :=
  match arg L i with
  | Some (LUserdata u) =>
      match values st !! u with
      | Some (UPath p) => inr p
      | _ => inl (error_arg invalid_argument i)
      end
  | _ => inl (error_arg invalid_argument i)
  end.

(** [luaL_checktype], whose message tells the position. *)
Definition bad_argument : answer := ErrorString "bad argument".
Definition check_number (L : lua_args) (i : nat) : answer + lua_Number :=
  match arg L i with Some (LNumber n) => inr n | _ => inl bad_argument end.
Definition check_string (L : lua_args) (i : nat) : answer + bytes :=
  match arg L i with Some (LString s) => inr s | _ => inl bad_argument end.
Definition check_boolean (L : lua_args) (i : nat) : answer + bool :=
  match arg L i with Some (LBoolean b) => inr b | _ => inl bad_argument end.
Definition check_table (L : lua_args) (i : nat) : answer + loc :=
  match arg L i with Some (LTable t) => inr t | _ => inl bad_argument end.

Definition may_suspend (st : io_state) : answer + unit :=
  match unsafe_can_suspend (vm st) with Some e => inl e | None => inr tt end.

Definition or_answer {A} (e : answer + A) (st : io_state) (k : A → io_state * answer) :
    io_state * answer :=
  match e with inl a => (st, a) | inr x => k x end.
Notation "'try' x ':=' e 'in' s ';' k" := (or_answer e s (λ x, k))
  (at level 10, x pattern, e at level 200, s at level 0, k at level 200).

(** The constructor of a local endpoint throws when the path does not fit into
    [sun_path]; a C++ exception that goes through Lua becomes an error there. *)
Class LocalPaths := { path_fits : bytes → bool }.
Definition exception : answer := ErrorString "C++ exception".

(** [if (ec) { push(L, ec); return lua_error(L); }]. *)
Definition answer_ec (ec : option error_code) (vs : list rvalue) : answer :=
  match ec with Some ec => error ec | None => Return vs end.

(** A pusher leaves [nil] for an [error_code] without an error. *)
Definition push_ec (ec : option error_code) : argument :=
  match ec with Some ec => AError ec | None => ANil end.
