(* ===== verification/IoObjects.v ===== *)
(** The [file_descriptor] userdata ([src/src/file_descriptor.cpp], on Linux), and the
    methods of sockets, acceptors, pipes, serial ports and files that do not
    suspend: [src/src/ip.cpp], [unix.cpp], [pipe.cpp], [serial_port.cpp],
    [file.cpp].  The sources repeat the same functions for each class; here each
    is one function of the class, and the names of the sources are its
    instances. *)
From stdpp Require Import pretty.
From S2P Require Import Prelude Errors Lua ByteSpan Vm FiberOps LuaTable SpawnArgs Io.
#[local] Open Scope Z_scope.

Section file_descriptor.
Context `{LuaApi}.

(** The metatable goes first, so that the finalizer does not close again. *)
Definition forget_handle (h : loc) (n : Z) : io_state → io_state :=
  set_handle h (FileDescriptor n false).

Definition file_descriptor_close (L : lua_args) (st : io_state) : io_state * answer :=
  try (h, n) := check_file_descriptor L 1 st in st;
  (sys_close n (forget_handle h n st), Return []).

(** [dup] answers with an [errno] or a new descriptor. *)
Definition file_descriptor_dup (newfd : Z + Z) (L : lua_args) (st : io_state) :
    io_state * answer :=
  try (h, n) := check_file_descriptor L 1 st in st;
  match newfd with
  | inl errno => (st, error (System_code errno))
  | inr newfd =>
      match descriptors st !! n with
      | Some file =>
          let '(st, h') := new_handle newfd (install (newfd, file) st) in
          (st, Return [RV (LUserdata h')])
      | None => (st, Stuck)          (* the kernel does not copy what is not open *)
      end
  end.
Definition dup_allowed (newfd : Z + Z) (st : io_state) : Prop :=
  ∀ n, newfd = inr n → install_allowed (n, 0%nat) st.

Definition file_descriptor_cap_get (r : option Z) (L : lua_args) (st : io_state) :
    io_state * answer :=
  try (h, n) := check_file_descriptor L 1 st in st;
  match r with
  | Some errno => (st, error (System_code errno))
  | None =>
      let '(st, caps) := new_value UCapabilities st in (st, Return [RV (LUserdata caps)])
  end.

Definition file_descriptor_cap_set (r : option Z) (L : lua_args) (st : io_state) :
    io_state * answer :=
  try (h, n) := check_file_descriptor L 1 st in st;
  match arg L 2 with
  | Some (LUserdata u) =>
      match values st !! u with
      | Some UCapabilities =>
          (with_requests (λ l, l ++ [(n, RCapSet)]) st,
           match r with Some errno => error (System_code errno) | None => Return [] end)
      | _ => (st, error_arg invalid_argument 2)
      end
  | _ => (st, error_arg invalid_argument 2)
  end.

(** [__index]. *)
Inductive fd_method : Set := MClose | MDup | MCapGet | MCapSet | MNotSupported.
Definition file_descriptor_methods : list (bytes * fd_method) :=
  [(lit "close", MClose); (lit "dup", MDup); (lit "cap_get", MCapGet);
   (lit "cap_set", MCapSet); (lit "cap_rights_limit", MNotSupported);
   (lit "cap_ioctls_limit", MNotSupported); (lit "cap_fcntls_limit", MNotSupported)].
Definition file_descriptor_mt_index (L : lua_args) : fd_method + answer :=
  match gperf file_descriptor_methods (tostringview (arg L 2)) with
  | Some m => inl m
  | None => inr error_index
  end.

(** [__tostring]: the digits go into an array whose size the [while_] of hana
    computes from the greatest [int]. *)
Definition int_max : Z := 2 ^ 31 - 1.
Fixpoint count_digits (fuel : nat) (i max_digits : Z) : Z :=
  match fuel with
  | O => max_digits
  | S fuel => if decide (i > 0) then count_digits fuel (i `div` 10) (max_digits + 1)
              else max_digits
  end.
Definition max_digits : Z := count_digits 32 int_max 0.
Definition prefix : bytes := lit "/dev/fd/".

(** [std::to_chars] writes nothing when the digits do not fit. *)
Definition to_chars (room n : Z) : option bytes :=
  let digits := lit (pretty n) in
  if decide (length digits ≤ room) then Some digits else None.

Definition file_descriptor_mt_tostring (h : loc) (st : io_state) : answer :=
  match handles st !! h with
  | Some (FileDescriptor n _) =>
      if decide (n = INVALID_FILE_DESCRIPTOR) then error device_or_resource_busy
      else if decide (n < 0) then Return [RV (LString (prefix ++ lit (pretty n)))]
      else
        match to_chars max_digits n with
        | Some digits => Return [RV (LString (prefix ++ digits))]
        | None => Stuck
        end
  | None => Stuck
  end.

(** [__gc]: nothing is run for a userdata without a metatable. *)
Definition file_descriptor_mt_gc (h : loc) (st : io_state) : io_state :=
  match handles st !! h with
  | Some (FileDescriptor n mt) =>
      let st := with_handles (delete h) st in
      if mt then if decide (n = INVALID_FILE_DESCRIPTOR) then st else sys_close n st
      else st
  | None => st
  end.
End file_descriptor.

(** [asio::ip::make_address], given a C string. *)
Class MakeAddress := { make_address : bytes → error_code + ip_address }.

(** What C functions see of a string. *)
Fixpoint c_str (s : bytes) : bytes :=
  match s with
  | [] => []
  | c :: s => if decide (c = 0) then [] else c :: c_str s
  end.

Inductive ip_version : Set := v4 | v6.
Definition version (a : ip_address) : ip_version :=
  match a with V4 _ => v4 | V6 _ _ => v6 end.

Section methods.
Context `{LuaApi} `{MakeAddress} `{LocalPaths}.

(** * Descriptors of objects *)
Definition object_new (c : io_class) (st : io_state) : io_state * answer :=
  let '(st, u) := new_io_object c INVALID_FILE_DESCRIPTOR st in (st, Return [RV (LUserdata u)]).

(** Hand the descriptor of a [file_descriptor] to an object: the userdata loses
    its metatable before [assign] is called, whose error is only asserted. *)
Definition hand_over (h : loc) (n : Z) (u : loc) (o : io_object) (r : option error_code)
    (vs : list rvalue) (st : io_state) : io_state * answer :=
  let '(ec, st) := asio_assign u o n r (forget_handle h n st) in
  (st, match ec with Some _ => Stuck | None => Return vs end).

Definition object_assign (c : io_class) (i : nat) (r : option error_code) (L : lua_args)
    (st : io_state) : io_state * answer :=
  try (u, o) := check_object c L 1 st in st;
  try (h, n) := check_file_descriptor L i st in st;
  hand_over h n u o r [] st.

Definition object_new_from (c : io_class) (r : option error_code) (L : lua_args)
    (st : io_state) : io_state * answer :=
  if decide (length L = 0)%nat then object_new c st
  else
    try (h, n) := check_file_descriptor L 1 st in st;
    let '(st, u) := new_io_object c INVALID_FILE_DESCRIPTOR st in
    hand_over h n u (IoObject c INVALID_FILE_DESCRIPTOR 0) r [RV (LUserdata u)] st.

(** [connect_pair] and [connect_pipe]: two descriptors, or none. *)
Definition object_pair (c1 c2 : io_class) (r : error_code + (Z * nat) * (Z * nat))
    (st : io_state) : io_state * answer :=
  let '(st, u1) := new_io_object c1 INVALID_FILE_DESCRIPTOR st in
  let '(st, u2) := new_io_object c2 INVALID_FILE_DESCRIPTOR st in
  match r with
  | inl ec => (st, error ec)
  | inr (fd1, fd2) =>
      let st := install fd2 (install fd1 st) in
      (set_io_object u2 (IoObject c2 fd2.1 0) (set_io_object u1 (IoObject c1 fd1.1 0) st),
       Return [RV (LUserdata u1); RV (LUserdata u2)])
  end.

Definition object_open (c : io_class) (r : error_code + Z * nat) (L : lua_args)
    (st : io_state) : io_state * answer :=
  try (u, o) := check_object c L 1 st in st;
  let '(ec, st) := asio_open u o r st in (st, answer_ec ec []).

(** The protocol of a socket of IP: that of an address, or its name. *)
Definition protocol_arg (L : lua_args) (i : nat) (st : io_state) : answer + ip_version :=
  match arg L i with
  | Some (LUserdata _) =>
      match check_address L i st with inl e => inl e | inr a => inr (version a) end
  | Some (LString key) =>
      match gperf [(lit "v4", v4); (lit "v6", v6)] key with
      | Some p => inr p
      | None => inl (error_arg invalid_argument i)
      end
  | _ => inl (error_arg invalid_argument i)
  end.

Definition ip_open (c : io_class) (r : ip_version → error_code + Z * nat) (L : lua_args)
    (st : io_state) : io_state * answer :=
  try (u, o) := check_object c L 1 st in st;
  try p := protocol_arg L 2 st in st;
  let '(ec, st) := asio_open u o (r p) st in (st, answer_ec ec []).

Definition ip_assign (c : io_class) (r : option error_code) (L : lua_args) (st : io_state) :
    io_state * answer :=
  try (u, o) := check_object c L 1 st in st;
  try (h, n) := check_file_descriptor L 3 st in st;
  try _ := protocol_arg L 2 st in st;
  hand_over h n u o r [] st.

Definition object_close (c : io_class) (r : option error_code) (L : lua_args)
    (st : io_state) : io_state * answer :=
  try (u, o) := check_object c L 1 st in st;
  let '(ec, st) := asio_close u o r st in (st, answer_ec ec []).

Definition object_cancel (c : io_class) (r : option error_code) (L : lua_args)
    (st : io_state) : io_state * answer :=
  try (u, o) := check_object c L 1 st in st;
  let '(ec, st) := asio_cancel u r st in (st, answer_ec ec []).

(** The guard that [tcp_socket] and [udp_socket] do without. *)
Definition object_release (c : io_class) (checked : bool) (r : option error_code)
    (L : lua_args) (st : io_state) : io_state * answer :=
  try (u, o) := check_object c L 1 st in st;
  if checked && bool_decide (native_handle o = INVALID_FILE_DESCRIPTOR) then
    (st, error bad_file_descriptor)
  else
    let '(ec, rawfd, st) := asio_release u o r st in
    match ec with
    | Some ec =>
        (if decide (rawfd = INVALID_FILE_DESCRIPTOR) then st else sys_close rawfd st, error ec)
    | None => let '(st, h) := new_handle rawfd st in (st, Return [RV (LUserdata h)])
    end.

Definition object_is_open (L : lua_args) (st : io_state) : answer :=
  match arg L 1 with
  | Some (LUserdata u) =>
      match io_objects st !! u with
      | Some o => Return [RV (LBoolean (is_open o))]
      | None => Stuck              (* the argument is not checked *)
      end
  | _ => Stuck
  end.

(** * Requests *)

(** Asio asks the kernel only when the object is open. *)
Definition ask (o : io_object) (q : request) (st : io_state) : io_state :=
  if is_open o then with_requests (λ l, l ++ [(native_handle o, q)]) st else st.

Definition ip_bind (c : io_class) (r : option error_code) (L : lua_args) (st : io_state) :
    io_state * answer :=
  try port := check_number L 3 in st;
  try (u, o) := check_object c L 1 st in st;
  let bind a :=
    (ask o (RBind (IpEndpoint a (to_uint16 (lua_tointeger port)))) st, answer_ec r []) in
  match arg L 2 with
  | Some (LUserdata _) => try a := check_address L 2 st in st; bind a
  | Some (LString s) =>
      match make_address (c_str s) with
      | inl ec => (st, error ec)
      | inr a => bind a
      end
  | _ => (st, error_arg invalid_argument 2)
  end.

Definition path_bind (c : io_class) (r : option error_code) (L : lua_args) (st : io_state) :
    io_state * answer :=
  try (u, o) := check_object c L 1 st in st;
  try path := check_path L 2 st in st;
  if path_fits path then (ask o (RBind (LocalEndpoint path)) st, answer_ec r [])
  else (st, exception).

Definition object_listen (c : io_class) (r : option error_code) (L : lua_args)
    (st : io_state) : io_state * answer :=
  let L := settop 2 L in
  try (u, o) := check_object c L 1 st in st;
  match arg L 2 with
  | Some LNil => (ask o (RListen None) st, answer_ec r [])
  | Some (LNumber n) => (ask o (RListen (Some (to_int32 (lua_tointeger n)))) st, answer_ec r [])
  | _ => (st, error_arg invalid_argument 2)
  end.

Definition shutdown_types : list (bytes * nat) :=
  [(lit "receive", 0); (lit "send", 1); (lit "both", 2)]%nat.
Definition object_shutdown (c : io_class) (r : option error_code) (L : lua_args)
    (st : io_state) : io_state * answer :=
  (* the datagram socket takes numbers as well, whose texts are no keys *)
  let checked : answer + unit :=
    if decide (c = unix_datagram_socket) then inr tt
    else match check_string L 2 with inl e => inl e | inr _ => inr tt end in
  try _ := checked in st;
  try (u, o) := check_object c L 1 st in st;
  match gperf shutdown_types (tostringview (arg L 2)) with
  | None => (st, error_arg invalid_argument 2)
  | Some what => (ask o (RShutdown what) st, answer_ec r [])
  end.

(** [connect(2)] is called whether the socket is open or not. *)
Definition object_disconnect (c : io_class) (r : option Z) (L : lua_args) (st : io_state) :
    io_state * answer :=
  try (u, o) := check_object c L 1 st in st;
  (with_requests (λ l, l ++ [(native_handle o, RDisconnect)]) st,
   match r with Some errno => error (System_code errno) | None => Return [] end).

(** [io_control], whose only command reads a number. *)
Definition object_io_control (c : io_class) (r : error_code + Z) (L : lua_args)
    (st : io_state) : io_state * answer :=
  try key := check_string L 2 in st;
  try (u, o) := check_object c L 1 st in st;
  if decide (key = lit "bytes_readable") then
    (st, match r with
         | inl ec => error ec
         | inr n => Return [RV (LNumber (lua_pushinteger n))]
         end)
  else (st, error not_supported).

(** The endpoints of a socket. *)
Definition push_endpoint_address (r : error_code + endpoint) (st : io_state) :
    io_state * answer :=
  match r with
  | inl ec => (st, error ec)
  | inr (IpEndpoint a _) =>
      let '(st, u) := new_value (UIpAddress a) st in (st, Return [RV (LUserdata u)])
  | inr (LocalEndpoint p) =>
      let '(st, u) := new_value (UPath p) st in (st, Return [RV (LUserdata u)])
  end.
Definition push_endpoint_port (r : error_code + endpoint) (st : io_state) :
    io_state * answer :=
  (st, match r with
       | inl ec => error ec
       | inr (IpEndpoint _ port) => Return [RV (LNumber (lua_pushinteger port))]
       | inr (LocalEndpoint _) => Stuck
       end).
End methods.

(** * The functions of the sources *)
Section instances.
Context `{LuaApi} `{MakeAddress} `{LocalPaths}.

Definition tcp_socket_new := object_new tcp_socket.
Definition tcp_socket_open := ip_open tcp_socket.
Definition tcp_socket_bind := ip_bind tcp_socket.
Definition tcp_socket_close := object_close tcp_socket.
Definition tcp_socket_cancel := object_cancel tcp_socket.
Definition tcp_socket_assign := ip_assign tcp_socket.
Definition tcp_socket_release := object_release tcp_socket false.
Definition tcp_socket_io_control := object_io_control tcp_socket.
Definition tcp_socket_shutdown := object_shutdown tcp_socket.
Definition tcp_socket_disconnect := object_disconnect tcp_socket.

Definition tcp_acceptor_new := object_new tcp_acceptor.
Definition tcp_acceptor_open := ip_open tcp_acceptor.
Definition tcp_acceptor_bind := ip_bind tcp_acceptor.
Definition tcp_acceptor_listen := object_listen tcp_acceptor.
Definition tcp_acceptor_close := object_close tcp_acceptor.
Definition tcp_acceptor_cancel := object_cancel tcp_acceptor.
Definition tcp_acceptor_assign := ip_assign tcp_acceptor.
Definition tcp_acceptor_release := object_release tcp_acceptor true.

Definition udp_socket_new := object_new udp_socket.
Definition udp_socket_open := ip_open udp_socket.
Definition udp_socket_bind := ip_bind udp_socket.
Definition udp_socket_close := object_close udp_socket.
Definition udp_socket_cancel := object_cancel udp_socket.
Definition udp_socket_assign := ip_assign udp_socket.
Definition udp_socket_release := object_release udp_socket false.
Definition udp_socket_io_control := object_io_control udp_socket.
Definition udp_socket_shutdown := object_shutdown udp_socket.
Definition udp_socket_disconnect := object_disconnect udp_socket.

Definition unix_datagram_socket_new := object_new_from unix_datagram_socket.
Definition unix_datagram_socket_pair := object_pair unix_datagram_socket unix_datagram_socket.
Definition unix_datagram_socket_open := object_open unix_datagram_socket.
Definition unix_datagram_socket_bind := path_bind unix_datagram_socket.
Definition unix_datagram_socket_close := object_close unix_datagram_socket.
Definition unix_datagram_socket_cancel := object_cancel unix_datagram_socket.
Definition unix_datagram_socket_assign := object_assign unix_datagram_socket 2.
Definition unix_datagram_socket_release := object_release unix_datagram_socket true.
Definition unix_datagram_socket_io_control := object_io_control unix_datagram_socket.
Definition unix_datagram_socket_shutdown := object_shutdown unix_datagram_socket.
Definition unix_datagram_socket_disconnect := object_disconnect unix_datagram_socket.

Definition unix_stream_socket_new := object_new_from unix_stream_socket.
Definition unix_stream_socket_pair := object_pair unix_stream_socket unix_stream_socket.
Definition unix_stream_socket_open := object_open unix_stream_socket.
Definition unix_stream_socket_bind := path_bind unix_stream_socket.
Definition unix_stream_socket_close := object_close unix_stream_socket.
Definition unix_stream_socket_cancel := object_cancel unix_stream_socket.
Definition unix_stream_socket_assign := object_assign unix_stream_socket 2.
Definition unix_stream_socket_release := object_release unix_stream_socket true.
Definition unix_stream_socket_io_control := object_io_control unix_stream_socket.
Definition unix_stream_socket_shutdown := object_shutdown unix_stream_socket.
Definition unix_stream_socket_disconnect := object_disconnect unix_stream_socket.

Definition unix_seqpacket_socket_new := object_new_from unix_seqpacket_socket.
Definition unix_seqpacket_socket_pair := object_pair unix_seqpacket_socket unix_seqpacket_socket.
Definition unix_seqpacket_socket_open := object_open unix_seqpacket_socket.
Definition unix_seqpacket_socket_bind := path_bind unix_seqpacket_socket.
Definition unix_seqpacket_socket_close := object_close unix_seqpacket_socket.
Definition unix_seqpacket_socket_cancel := object_cancel unix_seqpacket_socket.
Definition unix_seqpacket_socket_assign := object_assign unix_seqpacket_socket 2.
Definition unix_seqpacket_socket_release := object_release unix_seqpacket_socket true.
Definition unix_seqpacket_socket_io_control := object_io_control unix_seqpacket_socket.
Definition unix_seqpacket_socket_shutdown := object_shutdown unix_seqpacket_socket.
Definition unix_seqpacket_socket_disconnect := object_disconnect unix_seqpacket_socket.

Definition unix_stream_acceptor_new := object_new_from unix_stream_acceptor.
Definition unix_stream_acceptor_open := object_open unix_stream_acceptor.
Definition unix_stream_acceptor_bind := path_bind unix_stream_acceptor.
Definition unix_stream_acceptor_listen := object_listen unix_stream_acceptor.
Definition unix_stream_acceptor_close := object_close unix_stream_acceptor.
Definition unix_stream_acceptor_cancel := object_cancel unix_stream_acceptor.
Definition unix_stream_acceptor_assign := object_assign unix_stream_acceptor 2.
Definition unix_stream_acceptor_release := object_release unix_stream_acceptor true.

Definition unix_seqpacket_acceptor_new := object_new_from unix_seqpacket_acceptor.
Definition unix_seqpacket_acceptor_open := object_open unix_seqpacket_acceptor.
Definition unix_seqpacket_acceptor_bind := path_bind unix_seqpacket_acceptor.
Definition unix_seqpacket_acceptor_listen := object_listen unix_seqpacket_acceptor.
Definition unix_seqpacket_acceptor_close := object_close unix_seqpacket_acceptor.
Definition unix_seqpacket_acceptor_cancel := object_cancel unix_seqpacket_acceptor.
Definition unix_seqpacket_acceptor_assign := object_assign unix_seqpacket_acceptor 2.
Definition unix_seqpacket_acceptor_release := object_release unix_seqpacket_acceptor true.

Definition readable_pipe_new := object_new_from readable_pipe.
Definition readable_pipe_close := object_close readable_pipe.
Definition readable_pipe_cancel := object_cancel readable_pipe.
Definition readable_pipe_assign := object_assign readable_pipe 2.
Definition readable_pipe_release := object_release readable_pipe true.

Definition writable_pipe_new := object_new_from writable_pipe.
Definition writable_pipe_close := object_close writable_pipe.
Definition writable_pipe_cancel := object_cancel writable_pipe.
Definition writable_pipe_assign := object_assign writable_pipe 2.
Definition writable_pipe_release := object_release writable_pipe true.
Definition pipe_pair := object_pair readable_pipe writable_pipe.

Definition stream_new := object_new_from stream_file.
Definition stream_close := object_close stream_file.
Definition stream_cancel := object_cancel stream_file.
Definition stream_assign := object_assign stream_file 2.
Definition stream_release := object_release stream_file true.

Definition random_access_new := object_new_from random_access_file.
Definition random_access_close := object_close random_access_file.
Definition random_access_cancel := object_cancel random_access_file.
Definition random_access_assign := object_assign random_access_file 2.
Definition random_access_release := object_release random_access_file true.

(** The properties of sockets and acceptors. *)
Definition tcp_socket_is_open := object_is_open.
Definition tcp_socket_local_address := push_endpoint_address.
Definition tcp_socket_local_port := push_endpoint_port.
Definition tcp_socket_remote_address := push_endpoint_address.
Definition tcp_socket_remote_port := push_endpoint_port.
Definition tcp_acceptor_is_open := object_is_open.
Definition tcp_acceptor_local_address := push_endpoint_address.
Definition tcp_acceptor_local_port := push_endpoint_port.
Definition udp_socket_is_open := object_is_open.
Definition udp_socket_local_address := push_endpoint_address.
Definition udp_socket_local_port := push_endpoint_port.
Definition udp_socket_remote_address := push_endpoint_address.
Definition udp_socket_remote_port := push_endpoint_port.
Definition unix_datagram_socket_is_open := object_is_open.
Definition unix_datagram_socket_local_path := push_endpoint_address.
Definition unix_datagram_socket_remote_path := push_endpoint_address.
Definition unix_stream_socket_is_open := object_is_open.
Definition unix_stream_socket_local_path := push_endpoint_address.
Definition unix_stream_socket_remote_path := push_endpoint_address.
Definition unix_seqpacket_socket_is_open := object_is_open.
Definition unix_seqpacket_socket_local_path := push_endpoint_address.
Definition unix_seqpacket_socket_remote_path := push_endpoint_address.
Definition unix_stream_acceptor_is_open := object_is_open.
Definition unix_stream_acceptor_local_path := push_endpoint_address.
Definition unix_seqpacket_acceptor_is_open := object_is_open.
Definition unix_seqpacket_acceptor_local_path := push_endpoint_address.
Definition readable_pipe_is_open := object_is_open.
Definition writable_pipe_is_open := object_is_open.
Definition serial_port_is_open := object_is_open.
Definition stream_is_open := object_is_open.
Definition random_access_is_open := object_is_open.

(** Files open paths, with flags. *)
Definition file_open (c : io_class) (r : bytes → Z → error_code + Z * nat) (L : lua_args)
    (st : io_state) : io_state * answer :=
  try flags := check_number L 3 in st;
  try (u, o) := check_object c L 1 st in st;
  try path := check_path L 2 st in st;
  let '(ec, st) := asio_open u o (r path (lua_tointeger flags)) st in (st, answer_ec ec []).
Definition stream_open := file_open stream_file.
Definition random_access_open := file_open random_access_file.

Definition serial_port_new := object_new_from serial_port.
Definition serial_port_close := object_close serial_port.
Definition serial_port_cancel := object_cancel serial_port.
Definition serial_port_assign := object_assign serial_port 2.

(** The port is opened by hand, and assigned; that fails if it is open already. *)
Definition serial_port_open (fd : bytes → Z + Z * nat) (r : option error_code) (L : lua_args)
    (st : io_state) : io_state * answer :=
  try path := check_string L 2 in st;
  try (u, o) := check_object serial_port L 1 st in st;
  match fd (c_str path) with
  | inl errno => (st, error (System_code errno))
  | inr fd =>
      let '(ec, st) := asio_assign u o fd.1 r (install fd st) in
      (st, match ec with Some _ => Stuck | None => Return [] end)
  end.

(** [release] of a serial port copies the descriptor and closes the port. *)
Definition serial_port_release (newfd : Z + Z) (r : option error_code) (L : lua_args)
    (st : io_state) : io_state * answer :=
  try (u, o) := check_object serial_port L 1 st in st;
  if decide (native_handle o = INVALID_FILE_DESCRIPTOR) then (st, error bad_file_descriptor)
  else
    match newfd with
    | inl errno => (st, error (System_code errno))
    | inr newfd =>
        match descriptors st !! native_handle o with
        | Some file =>
            let '(_, st) := asio_close u o r (install (newfd, file) st) in
            let '(st, h) := new_handle newfd st in (st, Return [RV (LUserdata h)])
        | None => (st, Stuck)
        end
    end.

(** [ptypair]: the master becomes an object, the slave a [file_descriptor];
    what was opened is closed again when a later call fails. *)
Definition serial_ptypair (master : Z + Z * nat) (grant unlock name : option Z)
    (slave : Z + Z * nat) (r : option error_code) (st : io_state) : io_state * answer :=
  match master with
  | inl errno => (st, error (System_code errno))
  | inr master =>
      let st := install master st in
      let fails errno := (sys_close master.1 st, error (System_code errno)) in
      match grant with
      | Some errno => fails errno
      | None =>
          match unlock with
          | Some errno => fails errno
          | None =>
              match name with
              | Some errno => fails errno
              | None =>
                  match slave with
                  | inl errno => fails errno
                  | inr slave =>
                      let st := install slave st in
                      let '(st, u) := new_io_object serial_port INVALID_FILE_DESCRIPTOR st in
                      let o := IoObject serial_port INVALID_FILE_DESCRIPTOR 0 in
                      let '(ec, st) := asio_assign u o master.1 r st in
                      match ec with
                      | Some _ => (st, Stuck)
                      | None =>
                          let '(st, h) := new_handle slave.1 st in
                          (st, Return [RV (LUserdata u); RV (LUserdata h)])
                      end
                  end
              end
          end
      end
  end.
End instances.
