(* ===== verification/IoOperations.v ===== *)
(** The operations fibers wait for: [connect], [accept], [wait], transfers, and
    the messages that carry file descriptors ([receive_with_fds_op],
    [send_with_fds_op] of [src/src/unix.cpp]).  A function checks its arguments,
    starts the operation and suspends the fiber; a handler, run by the strand,
    ends it.  As for [IoObjects], one function of the class stands for the copies
    in the sources. *)
From S2P Require Import Prelude Errors Lua LuaTable ByteSpan Vm FiberOps SpawnArgs Io.
From S2P Require Import IoObjects.
#[local] Open Scope Z_scope.

Section operations.
Context `{LuaApi} `{LocalPaths}.

(** * Start *)

(** [++s->nbusy]. *)
Definition more_busy (u : loc) : io_state → io_state :=
  with_objects (alter (λ o, set_busy (nbusy o + 1) o) u).
Definition start_op (op : io_op) (st : io_state) : io_state :=
  let st := if is_socket (op_class op) then more_busy (op_object op) st else st in
  with_ops <[current_fiber_ (vm st) := op]> st.

(** [set_default_interrupter], then the operation with its slot. *)
Definition default_interrupter (st : io_state) : io_state * option loc :=
  let '(vm', slot) := set_default_interrupter (vm st) in (with_vm (λ _, vm') st, slot).

Definition start (u : loc) (c : io_class) (a : action) (buffer : option (loc * Z)) (size : Z)
    (st : io_state) : io_state * answer :=
  let '(st, slot) := default_interrupter st in
  (start_op (IoOp u c a buffer size slot Pending) st, Yield).

Definition start_transfer (u : loc) (c : io_class) (reading from eof : bool)
    (bs : byte_span_handle) : io_state → io_state * answer :=
  start u c (Transfer reading from eof) (data bs) (size bs).

(** [read_some], [write_some] of sockets, serial ports and files. *)
Definition object_some (c : io_class) (reading : bool) (L : lua_args) (st : io_state) :
    io_state * answer :=
  try _ := may_suspend st in st;
  try (u, o) := check_object c L 1 st in st;
  try bs := check_span L 2 st in st;
  start_transfer u c reading false false bs st.

(** Those of pipes, whose interrupter cancels all operations of the pipe. *)
Definition pipe_some (c : io_class) (reading : bool) (L : lua_args) (st : io_state) :
    io_state * answer :=
  try _ := may_suspend st in st;
  try (u, o) := check_object c L 1 st in st;
  try bs := check_span L 2 st in st;
  let st := with_vm (set_interrupter (Some (ICancel u))) st in
  (start_op (IoOp u c (Transfer reading false false) (data bs) (size bs) None Pending) st, Yield).

(** [read_some_at], [write_some_at]: the offset is the second argument. *)
Definition object_some_at (c : io_class) (reading : bool) (L : lua_args) (st : io_state) :
    io_state * answer :=
  try _ := check_number L 2 in st;
  try _ := may_suspend st in st;
  try (u, o) := check_object c L 1 st in st;
  try bs := check_span L 3 st in st;
  start_transfer u c reading false false bs st.

(** [receive], [send]: the flags are a number, which [tcp_socket] wants to be
    there.  A packet of no octets is the end for [unix_seqpacket_socket]. *)
Definition flags_arg (L : lua_args) (i : nat) : answer + Z :=
  match arg L i with
  | Some LNil | None => inr 0
  | Some (LNumber n) => inr (to_int32 (lua_tointeger n))
  | _ => inl (error_arg invalid_argument i)
  end.
Definition tcp_transfer (reading : bool) (L : lua_args) (st : io_state) : io_state * answer :=
  try _ := check_number L 3 in st;
  try _ := may_suspend st in st;
  try (u, o) := check_object tcp_socket L 1 st in st;
  try bs := check_span L 2 st in st;
  start_transfer u tcp_socket reading false false bs st.
Definition packet_transfer (c : io_class) (reading from : bool) (L : lua_args)
    (st : io_state) : io_state * answer :=
  try _ := may_suspend st in st;
  try (u, o) := check_object c L 1 st in st;
  try bs := check_span L 2 st in st;
  try _ := flags_arg L 3 in st;
  start_transfer u c reading from (reading && bool_decide (c = unix_seqpacket_socket)) bs st.

(** [send_to] names who shall receive. *)
Definition udp_send_to (L : lua_args) (st : io_state) : io_state * answer :=
  try _ := may_suspend st in st;
  try (u, o) := check_object udp_socket L 1 st in st;
  try bs := check_span L 2 st in st;
  try addr := check_address L 3 st in st;
  let port := match arg L 4 with
              | Some (LNumber n) => inr n
              | _ => inl (error_arg invalid_argument 4)
              end in
  try port := port in st;
  try _ := flags_arg L 5 in st;
  start_transfer u udp_socket false false false bs
    (ask o (RSendTo (IpEndpoint addr (to_uint16 (lua_tointeger port)))) st).

(** A local endpoint may throw, after the object was marked busy. *)
Definition throw_busy (u : loc) (st : io_state) : io_state * answer :=
  let '(st, _) := default_interrupter st in
  (more_busy u st, exception).
Definition unix_send_to (L : lua_args) (st : io_state) : io_state * answer :=
  try _ := may_suspend st in st;
  try (u, o) := check_object unix_datagram_socket L 1 st in st;
  try bs := check_span L 2 st in st;
  try path := check_path L 3 st in st;
  try _ := flags_arg L 4 in st;
  if path_fits path then
    start_transfer u unix_datagram_socket false false false bs (ask o (RSendTo (LocalEndpoint path)) st)
  else throw_busy u st.

(** ** Connections

    [async_connect] opens a socket that is not open; it completes with the error
    when that fails. *)
Definition auto_open (u : loc) (o : io_object) (r : error_code + Z * nat) (st : io_state) :
    io_object * io_state :=
  if is_open o then (o, st)
  else
    match r with
    | inl _ => (o, st)
    | inr fd => let o := set_native fd.1 o in (o, set_io_object u o (install fd st))
    end.
Definition connect_to (u : loc) (o : io_object) (c : io_class) (ep : endpoint)
    (r : error_code + Z * nat) (st : io_state) : io_state * answer :=
  let '(o, st) := auto_open u o r st in start u c Connect None 0 (ask o (RConnect ep) st).

Definition ip_connect (c : io_class) (r : error_code + Z * nat) (L : lua_args)
    (st : io_state) : io_state * answer :=
  try port := check_number L 3 in st;
  try _ := may_suspend st in st;
  try (u, o) := check_object c L 1 st in st;
  try a := check_address L 2 st in st;
  connect_to u o c (IpEndpoint a (to_uint16 (lua_tointeger port))) r st.

Definition path_connect (c : io_class) (r : error_code + Z * nat) (L : lua_args)
    (st : io_state) : io_state * answer :=
  try _ := may_suspend st in st;
  try (u, o) := check_object c L 1 st in st;
  try path := check_path L 2 st in st;
  if path_fits path then connect_to u o c (LocalEndpoint path) r st else throw_busy u st.

Definition object_accept (c peer_class : io_class) (L : lua_args) (st : io_state) :
    io_state * answer :=
  try _ := may_suspend st in st;
  try (u, o) := check_object c L 1 st in st;
  start u c (Accept peer_class) None 0 st.

Definition wait_types : list (bytes * nat) :=
  [(lit "read", 0); (lit "write", 1); (lit "error", 2)]%nat.
Definition tcp_wait (L : lua_args) (st : io_state) : io_state * answer :=
  try key := check_string L 2 in st;
  try _ := may_suspend st in st;
  try (u, o) := check_object tcp_socket L 1 st in st;
  match gperf wait_types key with
  | None => (st, error_arg invalid_argument 2)
  | Some _ => start u tcp_socket Wait None 0 st
  end.

(** ** Messages with descriptors *)
Definition SCM_MAX_FD : Z := 255.

Definition receive_with_fds (c : io_class) (skip_eof_detection is_receive_from : bool)
    (L : lua_args) (st : io_state) : io_state * answer :=
  try n := check_number L 3 in st;
  try _ := may_suspend st in st;
  try (u, o) := check_object c L 1 st in st;
  try bs := check_span L 2 st in st;
  let maxfds := lua_tointeger n in
  if decide (maxfds < 1) then (st, error_arg invalid_argument 3)
  else
    let maxfds := Z.min maxfds SCM_MAX_FD in
    start u c (ReceiveWithFds maxfds skip_eof_detection is_receive_from) (data bs) (size bs) st.

(** The elements of the table at index [i], up to the first [nil]: handles that
    are not in use, each locked once. *)
Definition locked_by (h : loc) (fds : list file_descriptor_lock) : Prop :=
  h ∈ reference <$> fds.
#[export] Instance locked_by_dec h fds : Decision (locked_by h fds).
Proof. unfold locked_by. apply _. Defined.

Fixpoint collect_locks (i : nat) (st : io_state) (vs : list lua_value)
    (fds : list file_descriptor_lock) : answer + list file_descriptor_lock :=
  match vs with
  | [] => inr fds
  | LUserdata h :: vs =>
      match handles st !! h with
      | Some (FileDescriptor _ false) => inl (error_arg invalid_argument i)
      | Some (FileDescriptor n true) =>
          if decide (n = INVALID_FILE_DESCRIPTOR) then inl (error device_or_resource_busy)
          else collect_locks i st vs
                 (if decide (locked_by h fds) then fds else fds ++ [Lock h n])
      | None => inl (error_arg invalid_argument 1)    (* another metatable *)
      end
  | _ => inl (error_arg invalid_argument i)
  end.

(** The descriptors leave the handles for the time of the operation. *)
Definition set_value (n : Z) (x : file_descriptor_handle) : file_descriptor_handle :=
  FileDescriptor n (has_metatable x).
Definition lock_handles (fds : list file_descriptor_lock) (st : io_state) : io_state :=
  with_handles (λ m,
    foldr (λ l, alter (set_value INVALID_FILE_DESCRIPTOR) (reference l)) m fds) st.

Definition table_elements (t : loc) (st : io_state) : list lua_value :=
  match lua_tables st !! t with Some tb => ipairs tb | None => [] end.

(** The interrupter is set before the table is read. *)
Definition send_locked (u : loc) (c : io_class) (bs : byte_span_handle) (i : nat) (t : loc)
    (remote_endpoint : bytes) (st : io_state) : io_state * answer :=
  let '(st, slot) := default_interrupter st in
  try fds := collect_locks i st (table_elements t st) [] in st;
  let op := IoOp u c (SendWithFds fds remote_endpoint) (data bs) (size bs) slot Pending in
  (lock_handles fds (start_op op st), Yield).

Definition send_with_fds (c : io_class) (L : lua_args) (st : io_state) : io_state * answer :=
  try t := check_table L 3 in st;
  try _ := may_suspend st in st;
  try (u, o) := check_object c L 1 st in st;
  try bs := check_span L 2 st in st;
  send_locked u c bs 3 t [] st.

Definition send_to_with_fds (L : lua_args) (st : io_state) : io_state * answer :=
  try t := check_table L 4 in st;
  try _ := may_suspend st in st;
  try (u, o) := check_object unix_datagram_socket L 1 st in st;
  try bs := check_span L 2 st in st;
  try path := check_path L 3 st in st;
  send_locked u unix_datagram_socket bs 4 t path st.

(** * Handlers *)

(** [fiber_resume] with [auto_detect_interrupt]. *)
Definition resume (f : loc) (args : list argument) (st : io_state) : option io_state :=
  vm' ← Vm.fiber_resume f (Options false true false args) (vm st);
  Some (with_vm (λ _, vm') st).

(** [--s->nbusy]: the object must be there. *)
Definition not_busy (u : loc) (st : io_state) : option io_state :=
  o ← io_objects st !! u;
  Some (set_io_object u (set_busy (nbusy o - 1) o) st).

Definition push_number (n : Z) : argument := AValue (LNumber (lua_pushinteger n)).

(** The pushers of the sender. *)
Definition push_sender (s : option endpoint) (st : io_state) : io_state * list argument :=
  match s with
  | Some (IpEndpoint a port) =>
      let '(st, u) := new_value (UIpAddress a) st in
      (st, [AValue (LUserdata u); push_number port])
  | Some (LocalEndpoint p) =>
      let '(st, u) := new_value (UPath p) st in (st, [AValue (LUserdata u)])
  | None => (st, [])
  end.

(** The handlers of sockets look whether the VM is alive first, as they
    decrement [nbusy]; the others leave that to [fiber_resume]. *)
Definition on_socket (op : io_op) (k : io_state → option io_state) (st : io_state) :
    option io_state :=
  if is_socket (op_class op) then
    if valid_ (vm st) then not_busy (op_object op) st ≫= k else Some st
  else k st.

Definition on_transfer (f : loc) (op : io_op) (eof : bool) (c : completion)
    (st : io_state) : option io_state :=
  let ec := completion_ec c in
  let ec := if eof && bool_decide (ec = None) && bool_decide (bytes_transferred c = 0)
            then Some (Misc_code Asio.misc_errors.eof) else ec in
  on_socket op (λ st,
    let '(st, sender) := push_sender (remote_sender c) st in
    resume f (push_ec ec :: push_number (bytes_transferred c) :: sender) st) st.

Definition on_connect (f : loc) (op : io_op) (c : completion) (st : io_state) :
    option io_state :=
  on_socket op (resume f [push_ec (completion_ec c)]) st.

(** The peer becomes an object of the VM, or is closed when there is none. *)
Definition on_accept (f : loc) (peer_class : io_class) (c : completion) (st : io_state) :
    option io_state :=
  if valid_ (vm st) then
    match completion_ec c with
    | Some ec => resume f [AError ec; ANil] st
    | None =>
        let '(st, u) := new_io_object peer_class (peer c) st in
        resume f [ANil; AValue (LUserdata u)] st
    end
  else
    Some (if decide (peer c = INVALID_FILE_DESCRIPTOR) then st else sys_close (peer c) st).

(** ** [receive_with_fds_op::on_wait] *)

(** The answer of [recvmsg]: the control messages give descriptors that the
    kernel opened, or something else. *)
Inductive control_message : Set :=
| ScmRights (fds : list Z)
| OtherControl.
Inductive recvmsg_answer : Set :=
| RecvWouldBlock
| RecvError (errno : Z)
| Received (data : bytes) (namelen : Z) (is_unix : bool) (sun_path : bytes)
    (control : list control_message) (opened : list (Z * nat)).

Definition rights (m : control_message) : list Z :=
  match m with
  | ScmRights fds => filter (λ fd, fd ≠ -1) fds
  | OtherControl => []
  end.

(** The sender's path: without the zero that ends it, unless it is abstract. *)
Definition sun_path_offset : Z := 2.
Definition received_path (namelen : Z) (is_unix : bool) (sun_path : bytes) : option bytes :=
  if decide (namelen ≤ sun_path_offset) then None
  else if negb is_unix then None
  else
    let len := namelen - sun_path_offset in
    let len := match sun_path with
               | c :: _ => if decide (c = 0) then len else len - 1
               | [] => len
               end in
    Some (take (Z.to_nat len) sun_path).

Definition close_all (fds : list Z) (st : io_state) : io_state := foldr sys_close st fds.

(** [fds_pusher]: a table of new handles. *)
Fixpoint push_handles (fds : list Z) (i : Z) (tb : table) (st : io_state) :
    io_state * table :=
  match fds with
  | [] => (st, tb)
  | fd :: fds =>
      let '(st, h) := new_handle fd st in
      push_handles fds (i + 1) (rawseti (i + 1) (LUserdata h) tb) st
  end.
Definition push_fds (fds : list Z) (st : io_state) : io_state * argument :=
  let '(st, t) := new_loc st in
  let '(st, tb) := push_handles fds 0 empty_table st in
  (with_tables <[t := tb]> st, AValue (LTable t)).

Definition push_path (p : option bytes) (st : io_state) : io_state * argument :=
  match p with
  | Some p => let '(st, u) := new_value (UPath p) st in (st, AValue (LUserdata u))
  | None => (st, ANil)
  end.

(** [do_wait] again, with the slot of the first time. *)
Definition wait_again (f : loc) (op : io_op) (st : io_state) : io_state :=
  with_ops <[f := set_progress Pending op]> st.

Definition write_buffer (op : io_op) (data : bytes) (st : io_state) : option io_state :=
  match op_buffer op with
  | Some (b, off) =>
      m ← ByteSpan.write (memory st) b off data; Some (with_memory (λ _, m) st)
  | None => if decide (data = []) then Some st else None
  end.

Definition on_receive_with_fds (f : loc) (op : io_op) (maxfds : Z)
    (skip_eof_detection is_receive_from : bool) (c : completion) (r : recvmsg_answer)
    (st : io_state) : option io_state :=
  if negb (valid_ (vm st)) then Some st
  else
    match completion_ec c with
    | Some ec => st ← not_busy (op_object op) st; resume f [AError ec] st
    | None =>
        match r with
        | RecvWouldBlock => Some (wait_again f op st)
        | RecvError errno =>
            st ← not_busy (op_object op) st; resume f [AError (System_code errno)] st
        | Received data namelen is_unix sun_path control opened =>
            st ← write_buffer op data (foldr install st opened);
            let fds := control ≫= rights in
            st ← not_busy (op_object op) st;
            if negb skip_eof_detection && bool_decide (data = []) then
              st ← resume f [AError (Misc_code Asio.misc_errors.eof)] st;
              Some (close_all fds st)
            else
              let '(st, sender) :=
                if is_receive_from then
                  let '(st, p) := push_path (received_path namelen is_unix sun_path) st in
                  (st, [p])
                else (st, []) in
              let '(st, table) := push_fds (take (Z.to_nat maxfds) fds) st in
              st ← resume f (ANil :: push_number (length data) :: sender ++ [table]) st;
              Some (close_all (drop (Z.to_nat maxfds) fds) st)
        end
    end.

(** ** [send_with_fds_op::on_wait] *)
Inductive sendmsg_answer : Set :=
| SendWouldBlock
| SendError (errno : Z)
| Sent (n : Z).

(** [*fdlock.reference = fdlock.value], wherever that points to. *)
Fixpoint unlock_handles (fds : list file_descriptor_lock) (st : io_state) :
    option io_state :=
  match fds with
  | [] => Some st
  | Lock h n :: fds =>
      x ← handles st !! h;
      unlock_handles fds (set_handle h (set_value n x) st)
  end.

Definition read_buffer (op : io_op) (st : io_state) : option bytes :=
  match op_buffer op with
  | Some (b, off) => load (memory st) (Region b off (op_size op))
  | None => Some []
  end.

(** The message the kernel is given, on the descriptor of the socket. *)
Definition sendmsg (o : io_object) (fds : list file_descriptor_lock) (data : bytes)
    (remote_endpoint : bytes) (st : io_state) : io_state :=
  with_requests (λ l, l ++ [(native_handle o,
    RSendmsg data ((λ l, descriptors st !! lock_value l) <$> fds) remote_endpoint)]) st.

Definition on_send_with_fds (f : loc) (op : io_op) (fds : list file_descriptor_lock)
    (remote_endpoint : bytes) (c : completion) (r : sendmsg_answer) (st : io_state) :
    option io_state :=
  if negb (valid_ (vm st)) then Some (close_all (lock_value <$> fds) st)
  else
    match completion_ec c with
    | Some ec =>
        st ← not_busy (op_object op) st;
        st ← unlock_handles fds st; resume f [AError ec] st
    | None =>
        (* the endpoint is made from the path here *)
        if path_fits remote_endpoint then
          o ← io_objects st !! op_object op;
          data ← read_buffer op st;
          match r with
          | SendWouldBlock => Some (wait_again f op st)
          | SendError errno =>
              st ← not_busy (op_object op) st;
              st ← unlock_handles fds st; resume f [AError (System_code errno)] st
          | Sent n =>
              let st := sendmsg o fds data remote_endpoint st in
              st ← not_busy (op_object op) st;
              st ← unlock_handles fds st; resume f [ANil; push_number n] st
          end
        else None                    (* nobody catches the exception *)
    end.

(** ** Any handler *)
Record kernel_answer : Set := KernelAnswer {
  recvmsg_result : recvmsg_answer;
  sendmsg_result : sendmsg_answer;
}.

Definition on_completion (f : loc) (op : io_op) (c : completion) (k : kernel_answer)
    (st : io_state) : option io_state :=
  match op_action op with
  | Connect | Wait => on_connect f op c st
  | Transfer _ _ eof => on_transfer f op eof c st
  | Accept peer_class => on_accept f peer_class c st
  | ReceiveWithFds maxfds skip from =>
      on_receive_with_fds f op maxfds skip from c (recvmsg_result k) st
  | SendWithFds fds ep => on_send_with_fds f op fds ep c (sendmsg_result k) st
  end.
End operations.

(** * The functions of the sources *)
Section instances.
Context `{LuaApi} `{LocalPaths}.

Definition tcp_socket_connect := ip_connect tcp_socket.
Definition tcp_socket_read_some := object_some tcp_socket true.
Definition tcp_socket_write_some := object_some tcp_socket false.
Definition tcp_socket_receive := tcp_transfer true.
Definition tcp_socket_send := tcp_transfer false.
Definition tcp_socket_wait := tcp_wait.
Definition tcp_acceptor_accept := object_accept tcp_acceptor tcp_socket.

Definition udp_socket_connect := ip_connect udp_socket.
Definition udp_socket_receive := packet_transfer udp_socket true false.
Definition udp_socket_receive_from := packet_transfer udp_socket true true.
Definition udp_socket_send := packet_transfer udp_socket false false.
Definition udp_socket_send_to := udp_send_to.

Definition unix_datagram_socket_connect := path_connect unix_datagram_socket.
Definition unix_datagram_socket_receive := packet_transfer unix_datagram_socket true false.
Definition unix_datagram_socket_receive_from := packet_transfer unix_datagram_socket true true.
Definition unix_datagram_socket_send := packet_transfer unix_datagram_socket false false.
Definition unix_datagram_socket_send_to := unix_send_to.
Definition unix_datagram_socket_receive_with_fds :=
  receive_with_fds unix_datagram_socket true false.
Definition unix_datagram_socket_receive_from_with_fds :=
  receive_with_fds unix_datagram_socket true true.
Definition unix_datagram_socket_send_with_fds := send_with_fds unix_datagram_socket.
Definition unix_datagram_socket_send_to_with_fds := send_to_with_fds.

Definition unix_stream_socket_connect := path_connect unix_stream_socket.
Definition unix_stream_socket_read_some := object_some unix_stream_socket true.
Definition unix_stream_socket_write_some := object_some unix_stream_socket false.
Definition unix_stream_socket_receive_with_fds :=
  receive_with_fds unix_stream_socket false false.
Definition unix_stream_socket_send_with_fds := send_with_fds unix_stream_socket.
Definition unix_stream_acceptor_accept :=
  object_accept unix_stream_acceptor unix_stream_socket.

Definition unix_seqpacket_socket_connect := path_connect unix_seqpacket_socket.
Definition unix_seqpacket_socket_receive := packet_transfer unix_seqpacket_socket true false.
Definition unix_seqpacket_socket_send := packet_transfer unix_seqpacket_socket false false.
Definition unix_seqpacket_socket_receive_with_fds :=
  receive_with_fds unix_seqpacket_socket false false.
Definition unix_seqpacket_socket_send_with_fds := send_with_fds unix_seqpacket_socket.
Definition unix_seqpacket_acceptor_accept :=
  object_accept unix_seqpacket_acceptor unix_seqpacket_socket.

Definition readable_pipe_read_some := pipe_some readable_pipe true.
Definition writable_pipe_write_some := pipe_some writable_pipe false.
Definition serial_port_read_some := object_some serial_port true.
Definition serial_port_write_some := object_some serial_port false.
Definition stream_read_some := object_some stream_file true.
Definition stream_write_some := object_some stream_file false.
Definition random_access_read_some_at := object_some_at random_access_file true.
Definition random_access_write_some_at := object_some_at random_access_file false.
End instances.
