(* ===== verification/IoSteps.v ===== *)
(** The steps of a VM that does I/O: calls of the running fiber, the reactor, the
    tasks of the strand, interruptions, finalizers, the end of the VM, and what
    the rest of the process does to its table of descriptors. *)
From S2P Require Import Prelude Errors Lua LuaTable ByteSpan ByteSpanFacts Vm FiberOps.
From S2P Require Import SpawnArgs Io IoObjects IoOperations.
#[local] Open Scope Z_scope.

(** * Calls *)
Inductive io_call : Type :=
| CallFdClose
| CallFdDup (newfd : Z + Z)
| CallFdCapGet (r : option Z)
| CallFdCapSet (r : option Z)
| CallNew (c : io_class)
| CallNewFrom (c : io_class) (r : option error_code)
| CallPair (c1 c2 : io_class) (r : error_code + (Z * nat) * (Z * nat))
| CallOpen (c : io_class) (r : error_code + Z * nat)
| CallIpOpen (c : io_class) (r : ip_version → error_code + Z * nat)
| CallFileOpen (c : io_class) (r : bytes → Z → error_code + Z * nat)
| CallSerialOpen (fd : bytes → Z + Z * nat) (r : option error_code)
| CallAssign (c : io_class) (r : option error_code)
| CallIpAssign (c : io_class) (r : option error_code)
| CallClose (c : io_class) (r : option error_code)
| CallCancel (c : io_class) (r : option error_code)
| CallRelease (c : io_class) (checked : bool) (r : option error_code)
| CallSerialRelease (newfd : Z + Z) (r : option error_code)
| CallPtyPair (master : Z + Z * nat) (grant unlock name : option Z) (slave : Z + Z * nat)
    (r : option error_code)
| CallIpBind (c : io_class) (r : option error_code)
| CallPathBind (c : io_class) (r : option error_code)
| CallListen (c : io_class) (r : option error_code)
| CallShutdown (c : io_class) (r : option error_code)
| CallDisconnect (c : io_class) (r : option Z)
| CallIoControl (c : io_class) (r : error_code + Z)
| CallIsOpen
| CallEndpointAddress (r : error_code + endpoint)
| CallEndpointPort (r : error_code + endpoint)
| CallSome (c : io_class) (reading : bool)
| CallPipeSome (c : io_class) (reading : bool)
| CallSomeAt (c : io_class) (reading : bool)
| CallTcpTransfer (reading : bool)
| CallPacket (c : io_class) (reading from : bool)
| CallUdpSendTo
| CallUnixSendTo
| CallIpConnect (c : io_class) (r : error_code + Z * nat)
| CallPathConnect (c : io_class) (r : error_code + Z * nat)
| CallAccept (c peer : io_class)
| CallTcpWait
| CallReceiveWithFds (c : io_class) (skip_eof is_from : bool)
| CallSendWithFds (c : io_class)
| CallSendToWithFds.

Section steps.
Context `{LuaApi} `{MakeAddress} `{LocalPaths}.

Definition call (c : io_call) (L : lua_args) (st : io_state) : io_state * answer :=
  match c with
  | CallFdClose => file_descriptor_close L st
  | CallFdDup newfd => file_descriptor_dup newfd L st
  | CallFdCapGet r => file_descriptor_cap_get r L st
  | CallFdCapSet r => file_descriptor_cap_set r L st
  | CallNew c => object_new c st
  | CallNewFrom c r => object_new_from c r L st
  | CallPair c1 c2 r => object_pair c1 c2 r st
  | CallOpen c r => object_open c r L st
  | CallIpOpen c r => ip_open c r L st
  | CallFileOpen c r => file_open c r L st
  | CallSerialOpen fd r => serial_port_open fd r L st
  | CallAssign c r => object_assign c 2 r L st
  | CallIpAssign c r => ip_assign c r L st
  | CallClose c r => object_close c r L st
  | CallCancel c r => object_cancel c r L st
  | CallRelease c checked r => object_release c checked r L st
  | CallSerialRelease newfd r => serial_port_release newfd r L st
  | CallPtyPair master grant unlock name slave r =>
      serial_ptypair master grant unlock name slave r st
  | CallIpBind c r => ip_bind c r L st
  | CallPathBind c r => path_bind c r L st
  | CallListen c r => object_listen c r L st
  | CallShutdown c r => object_shutdown c r L st
  | CallDisconnect c r => object_disconnect c r L st
  | CallIoControl c r => object_io_control c r L st
  | CallIsOpen => (st, object_is_open L st)
  | CallEndpointAddress r => push_endpoint_address r st
  | CallEndpointPort r => push_endpoint_port r st
  | CallSome c reading => object_some c reading L st
  | CallPipeSome c reading => pipe_some c reading L st
  | CallSomeAt c reading => object_some_at c reading L st
  | CallTcpTransfer reading => tcp_transfer reading L st
  | CallPacket c reading from => packet_transfer c reading from L st
  | CallUdpSendTo => udp_send_to L st
  | CallUnixSendTo => unix_send_to L st
  | CallIpConnect c r => ip_connect c r L st
  | CallPathConnect c r => path_connect c r L st
  | CallAccept c peer => object_accept c peer L st
  | CallTcpWait => tcp_wait L st
  | CallReceiveWithFds c skip_eof is_from => receive_with_fds c skip_eof is_from L st
  | CallSendWithFds c => send_with_fds c L st
  | CallSendToWithFds => send_to_with_fds L st
  end.

(** What is documented of the answers a call gets: a descriptor that the kernel
    gives is new; an object that is open does not get another one; one that is
    not open has none to release. *)
Definition target (L : lua_args) : loc :=
  match arg L 1 with Some (LUserdata u) => u | _ => 0%nat end.
Definition fd_allowed (r : Z + Z * nat) (st : io_state) : Prop :=
  match r with inl _ => True | inr fd => install_allowed fd st end.

Definition call_allowed (c : io_call) (L : lua_args) (st : io_state) : Prop :=
  match c with
  | CallFdDup newfd => dup_allowed newfd st
  | CallPair _ _ (inr (fd1, fd2)) =>
      install_allowed fd1 st ∧ install_allowed fd2 st ∧ fd1.1 ≠ fd2.1
  | CallOpen _ r => open_allowed (target L) r st
  | CallIpOpen _ r => ∀ p, open_allowed (target L) (r p) st
  | CallFileOpen _ r => ∀ p flags, open_allowed (target L) (r p flags) st
  | CallSerialOpen fd r =>
      (∀ p, fd_allowed (fd p) st) ∧ assign_allowed (target L) r st
  | CallAssign _ r | CallIpAssign _ r => assign_allowed (target L) r st
  | CallRelease _ _ r => release_allowed (target L) r st
  | CallSerialRelease newfd _ => dup_allowed newfd st
  | CallPtyPair master _ _ _ slave _ =>
      fd_allowed master st ∧ fd_allowed slave st ∧
      ∀ m s, master = inr m → slave = inr s → m.1 ≠ s.1
  | CallIpConnect _ r | CallPathConnect _ r => ∀ fd, r = inr fd → install_allowed fd st
  | CallReceiveWithFds c _ _ | CallSendWithFds c => is_socket c = true
  | _ => True
  end.

(** [lua_yield] leaves the fiber suspended. *)
Definition suspend (a : answer) (st : io_state) : io_state :=
  match a with
  | Yield => with_vm (λ vm, set_thread (current_fiber_ vm) CoSuspended vm) st
  | _ => st
  end.

(** * The reactor *)
Inductive reactor_answer : Set :=
| RFailed (ec : error_code)
| RReady
| RRead (data : bytes) (sender : option endpoint)
| RWritten (n : Z)
| RAccepted (fd : Z * nat).

Definition succeeded (n : Z) (s : option endpoint) (peer : Z) : completion :=
  Completion None n s peer.

(** A pending operation completes. *)
Definition reactor (f : loc) (a : reactor_answer) (st : io_state) : option io_state :=
  op ← ops st !! f;
  if is_pending op then
    match op_action op, a with
    | _, RFailed ec => Some (complete f (failed op ec) st)
    | (Connect | Wait | ReceiveWithFds _ _ _ | SendWithFds _ _), RReady =>
        Some (complete f (succeeded 0 None INVALID_FILE_DESCRIPTOR) st)
    | Transfer true _ _, RRead data sender =>
        st ← write_buffer op data st;
        Some (complete f (succeeded (length data) sender INVALID_FILE_DESCRIPTOR) st)
    | Transfer false _ _, RWritten n =>
        data ← read_buffer op st;
        o ← io_objects st !! op_object op;
        Some (complete f (succeeded n None INVALID_FILE_DESCRIPTOR)
          (with_requests (λ l, l ++ [(native_handle o, RWrite (take (Z.to_nat n) data))]) st))
    | Accept _, RAccepted fd =>
        Some (complete f (succeeded 0 None fd.1) (install fd st))
    | _, _ => None
    end
  else None.

Definition reactor_allowed (f : loc) (a : reactor_answer) (st : io_state) : Prop :=
  match a with
  | RRead data _ =>
      Forall is_byte data ∧ ∀ op, ops st !! f = Some op → length data ≤ op_size op
  | RWritten n => ∀ op, ops st !! f = Some op → 0 ≤ n ≤ op_size op
  | RAccepted fd => install_allowed fd st
  | _ => True
  end.

(** * Tasks *)
Definition run_task (k : kernel_answer) (st : io_state) : option io_state :=
  match strand (vm st) with
  | [] => None
  | FiberResume f opts :: q =>
      let st := with_vm (with_strand (λ _, q)) st in
      match ops st !! f with
      | Some op =>
          match op_progress op with
          | Completed c => on_completion f op c k (with_ops (delete f) st)
          | Pending => None
          end
      | None => vm' ← Vm.fiber_resume f opts (vm st); Some (with_vm (λ _, vm') st)
      end
  end.

(** [recvmsg] writes at most the buffer's size and opens the descriptors its
    control messages name. *)
Definition kernel_allowed (k : kernel_answer) (st : io_state) : Prop :=
  match recvmsg_result k with
  | Received data _ _ _ control opened =>
      Forall is_byte data ∧
      (∀ f opts q op, strand (vm st) = FiberResume f opts :: q → ops st !! f = Some op →
         length data ≤ op_size op) ∧
      (control ≫= rights) = opened.*1 ∧ NoDup opened.*1 ∧
      Forall (λ fd, install_allowed fd st) opened
  | _ => True
  end.

(** * Interruption *)
Definition interrupt (L : lua_args) (st : io_state) : io_state * answer :=
  let '(vm', a) := fiber_interrupt L (vm st) in
  let st' := with_vm (λ _, vm') st in
  match called_interrupter L (vm st) with
  | Some (IEmitSignal s) => (abort_ops (on_slot s) st', a)
  | Some (ICancel u) => (abort_ops (on_object u) st', a)
  | _ => (st', a)
  end.
Definition about_io (i : option interrupter_t) : Prop :=
  match i with
  | Some (IEmitSignal _) | Some (ICancel _) | Some (ITimer _) | Some (ISubprocess _) | None => True
  | Some (ICond _ _) | Some (IFuture _ _) | Some (IJoin _ _ _) => False
  end.

(** * The end of the VM: every userdata is destroyed. *)
Definition close_vm (st : io_state) : io_state :=
  let st := with_vm close st in
  let st := foldr file_descriptor_mt_gc st (elements (dom (handles st))) in
  foldr asio_destroy st (elements (dom (io_objects st))).

(** * Who owns which descriptor *)

(** What a map's values hold, all together. *)
Definition all_of {A} (g : A → list Z) (m : gmap loc A) : list Z :=
  map_to_list m ≫= λ x, g x.2.

Definition valid_fd (n : Z) : list Z :=
  if decide (n = INVALID_FILE_DESCRIPTOR) then [] else [n].
Definition handle_fds (x : file_descriptor_handle) : list Z :=
  if has_metatable x then valid_fd (value x) else [].
Definition object_fds (o : io_object) : list Z := valid_fd (native_handle o).
Definition locked_fds (op : io_op) : list Z :=
  match op_action op with SendWithFds fds _ => lock_value <$> fds | _ => [] end.
Definition peer_fds (op : io_op) : list Z :=
  match op_progress op with Completed c => valid_fd (peer c) | Pending => [] end.

(** The descriptors of the VM: of its handles, its objects, the messages it is
    sending, the connections it is accepting. *)
Definition owned (st : io_state) : list Z :=
  all_of handle_fds (handles st) ++ all_of object_fds (io_objects st) ++
  all_of locked_fds (ops st) ++ all_of peer_fds (ops st).

(** Those of the rest of the process. *)
Definition unowned (st : io_state) (n : Z) (file : nat) : Prop :=
  descriptors st !! n = Some file ∧ n ∉ owned st.

(** * Steps *)
Definition locked (h : loc) (st : io_state) : Prop :=
  ∃ f op fds ep, ops st !! f = Some op ∧ op_action op = SendWithFds fds ep ∧ locked_by h fds.

(** What the other modules do to the VM: they spawn and end fibers, suspend the
    running one, set rows of the table of fibers, post tasks; fibers that wait for
    an operation are left to it. *)
Definition other_modules (st : io_state) (v : vm_context) : Prop :=
  valid_ (vm st) = true ∧ valid_ v = true ∧ (next_loc (vm st) ≤ next_loc v)%nat ∧
  (∀ f, is_Some (ops st !! f) → threads v !! f = threads (vm st) !! f) ∧
  (∃ q, strand v = strand (vm st) ++ q ∧ ∀ t, t ∈ q → ops st !! task_fiber t = None) ∧
  NoDup (task_fiber <$> strand v) ∧ (∀ f, f ∈ task_fiber <$> strand v → ¬ running v f).

(** When [pinned], the program keeps a reference to the handles of a message as
    long as it is being sent.  A collected userdata is not that of an operation in
    flight, which the stack of the waiting fiber refers to. *)
Inductive io_step (pinned : bool) : io_state → io_state → Prop :=
| step_call c L st st' a :
    valid_ (vm st) = true → running (vm st) (current_fiber_ (vm st)) →
    call_allowed c L st → call c L st = (st', a) → a ≠ Stuck →
    io_step pinned st (suspend a st')
| step_other v st : other_modules st v → io_step pinned st (with_vm (λ _, v) st)
| step_memory m st :           (* the fiber uses byte spans, or tables *)
    wf m → grows (memory st) m → io_step pinned st (with_memory (λ _, m) st)
| step_tables t st : io_step pinned st (with_tables (λ _, t) st)
| step_interrupt L st st' a :
    valid_ (vm st) = true → about_io (called_interrupter L (vm st)) →
    interrupt L st = (st', a) → io_step pinned st st'
| step_reactor f a st st' :
    reactor_allowed f a st → reactor f a st = Some st' → io_step pinned st st'
| step_run k st st' :
    (∀ g, ¬ running (vm st) g) → kernel_allowed k st → run_task k st = Some st' →
    io_step pinned st st'
| step_gc_handle h st :
    (pinned = true → ¬ locked h st) → io_step pinned st (file_descriptor_mt_gc h st)
| step_gc_object u st :
    (∀ f op, ops st !! f = Some op → op_object op ≠ u) →
    io_step pinned st (asio_destroy u st)
| step_close st :
    (∀ g, ¬ running (vm st) g) → valid_ (vm st) = true → io_step pinned st (close_vm st).

(** The rest of the process opens and closes descriptors of its own. *)
Inductive stranger_step : io_state → io_state → Prop :=
| stranger_open fd st : install_allowed fd st → stranger_step st (install fd st)
| stranger_close n st : n ∉ owned st → stranger_step st (sys_close n st).

Definition any_step (pinned : bool) (st st' : io_state) : Prop :=
  io_step pinned st st' ∨ stranger_step st st'.
Definition reachable (pinned : bool) : io_state → io_state → Prop := rtc (any_step pinned).
End steps.
