(* ===== verification/IoSpec.v ===== *)
(** What keeps descriptors and operations in order: the invariant of a VM that
    does I/O, one lemma for each thing a step is made of. *)
From S2P Require Import Prelude Errors Lua LuaTable ByteSpan ByteSpanFacts Vm FiberOps.
From S2P Require Import SpawnArgs Io IoObjects IoOperations IoSteps.
#[local] Open Scope Z_scope.

(** * What the values of a map hold *)
Section all_of.
Context {A : Type} (g : A → list Z).
Implicit Types (m : gmap loc A).

Lemma all_of_empty : all_of g ∅ = [].
Proof. unfold all_of. by rewrite map_to_list_empty. Qed.

Lemma all_of_delete m u x : m !! u = Some x → all_of g m ≡ₚ g x ++ all_of g (delete u m).
Proof. intros Hu. unfold all_of. by rewrite <- (map_to_list_delete m u x) by done. Qed.

Lemma all_of_insert m u x : all_of g (<[u := x]> m) ≡ₚ g x ++ all_of g (delete u m).
Proof. rewrite (all_of_delete _ u x) by apply lookup_insert_eq. by rewrite delete_insert_eq. Qed.

Lemma all_of_new m u x : m !! u = None → all_of g (<[u := x]> m) ≡ₚ g x ++ all_of g m.
Proof. intros Hu. rewrite all_of_insert, delete_id; done. Qed.

(** A value that holds the same. *)
Lemma all_of_same m u x y : m !! u = Some x → g y = g x → all_of g (<[u := y]> m) ≡ₚ all_of g m.
Proof. intros Hu E. rewrite all_of_insert, (all_of_delete m u x) by done. by rewrite E. Qed.

Lemma elem_of_all_of m n : n ∈ all_of g m ↔ ∃ u x, m !! u = Some x ∧ n ∈ g x.
Proof.
  unfold all_of. rewrite list_elem_of_bind. split.
  - intros ([u x] & Hn & Hin). apply elem_of_map_to_list in Hin. by exists u, x.
  - intros (u & x & Hu & Hn). exists (u, x). split; [done|by apply elem_of_map_to_list].
Qed.

Lemma all_of_alter m u (f : A → A) :
  (∀ x, m !! u = Some x → g (f x) = g x) → all_of g (alter f u m) ≡ₚ all_of g m.
Proof.
  intros Hf. destruct (m !! u) as [x|] eqn:Hu.
  - assert (alter f u m = <[u := f x]> m) as ->.
    { apply map_eq. intros v. rewrite lookup_alter, lookup_insert.
      case_decide; [subst; by rewrite Hu|done]. }
    by apply (all_of_same m u x); [|apply Hf].
  - assert (alter f u m = m) as ->; [|done].
    apply map_eq. intros v. rewrite lookup_alter. case_decide; [subst; by rewrite Hu|done].
Qed.
End all_of.

(** * Descriptors *)

(** Every descriptor of the VM is open, and has one owner. *)
Record owning (st : io_state) : Prop := {
  own_once : NoDup (owned st);
  own_open n : n ∈ owned st → is_Some (descriptors st !! n);
  own_nonneg n : is_Some (descriptors st !! n) → 0 ≤ n;
}.

(** A change that keeps this, opens and closes descriptors of the VM only, and
    lets go of none that is open. *)
Record transfer (st st' : io_state) : Prop := {
  transfer_own : owning st → owning st';
  transfer_unowned : owning st → ∀ n file, unowned st' n file ↔ unowned st n file;
}.

#[export] Instance transfer_preorder : PreOrder transfer.
Proof.
  split.
  - intros st. by split.
  - intros s1 s2 s3 [O12 U12] [O23 U23]. split; [auto|]. intros O n file.
    rewrite U23 by auto. by apply U12.
Qed.

(** The general change: [D] was opened; [K] of it and [R] of what was owned are
    owned now, the rest, and [C], were closed. *)
Lemma transfer_general st st' (D : list (Z * nat)) (K C R : list Z) :
  Forall (λ fd, install_allowed fd st) D → NoDup K → K ⊆ D.*1 →
  owned st ≡ₚ C ++ R → owned st' ≡ₚ K ++ R →
  (∀ n, n ∈ K → is_Some (descriptors st' !! n)) →
  (∀ n, n ∉ K → descriptors st' !! n = if decide (n ∈ C) then None else descriptors st !! n) →
  transfer st st'.
Proof.
  intros HD HK HKD E E' Hnew Hold. rewrite Forall_forall in HD.
  assert (∀ n, n ∈ D.*1 → 0 ≤ n ∧ descriptors st !! n = None) as Hfresh.
  { intros n ([m file] & -> & Hin)%list_elem_of_fmap. exact (HD (m, file) Hin). }
  assert (owning st → ∀ n, n ∈ K → n ∉ owned st) as HKo.
  { intros O n Hn Hin. destruct (own_open _ O n Hin) as [x Hx].
    destruct (Hfresh n) as [_ Hx']; [by apply HKD|]. congruence. }
  split.
  - intros O. pose proof (own_once _ O) as Hnd. rewrite E in Hnd.
    apply NoDup_app in Hnd as (_ & HCR & HR). split.
    + rewrite E'. apply NoDup_app. split_and!; [done| |done].
      intros n Hn Hin. apply (HKo O n Hn). rewrite E. apply elem_of_app. by right.
    + intros n. rewrite E', elem_of_app. intros [Hn|Hn]; [by apply Hnew|].
      destruct (decide (n ∈ K)); [by apply Hnew|]. rewrite Hold by done.
      rewrite decide_False; [|intros HC; by apply (HCR n)].
      apply (own_open _ O). rewrite E. apply elem_of_app. by right.
    + intros n Hn. destruct (decide (n ∈ K)) as [HnK|HnK].
      * by apply Hfresh, HKD.
      * rewrite Hold in Hn by done. case_decide; [by destruct Hn|]. by apply (own_nonneg _ O).
  - intros O n file. unfold unowned. rewrite E', E, !elem_of_app.
    destruct (decide (n ∈ K)) as [HnK|HnK].
    + split; [intros [_ Hn]; destruct Hn; by left|].
      intros [Hn _]. destruct (Hfresh n) as [_ Hx]; [by apply HKD|]. congruence.
    + rewrite Hold by done. split.
      * case_decide; [by intros []|]. naive_solver.
      * intros [Hn Hno]. rewrite decide_False by naive_solver. naive_solver.
Qed.

(** Nothing opened or closed: descriptors change hands. *)
Lemma transfer_moves st st' :
  owned st' ≡ₚ owned st → descriptors st' = descriptors st → transfer st st'.
Proof.
  intros E Ed. apply (transfer_general _ _ [] [] [] (owned st)); try done; try constructor.
  - set_solver.
  - intros n _. by rewrite Ed.
Qed.

Lemma transfer_opens st st' fd :
  install_allowed fd st → owned st' ≡ₚ fd.1 :: owned st →
  descriptors st' = <[fd.1 := fd.2]> (descriptors st) → transfer st st'.
Proof.
  intros Hfd E Ed. apply (transfer_general _ _ [fd] [fd.1] [] (owned st));
    [by constructor|apply NoDup_singleton|done|done|done|..]; rewrite Ed.
  - intros n Hn. apply list_elem_of_singleton in Hn as ->. rewrite lookup_insert_eq. by eexists.
  - intros n Hn. rewrite lookup_insert_ne; [done|]. intros <-. by apply Hn; left.
Qed.

Lemma transfer_closes st st' n :
  owned st ≡ₚ n :: owned st' → descriptors st' = delete n (descriptors st) → transfer st st'.
Proof.
  intros E Ed. apply (transfer_general _ _ [] [] [n] (owned st'));
    [constructor|constructor|set_solver|done|done|set_solver|]; rewrite Ed.
  intros m _. case_decide as Hm.
  - apply list_elem_of_singleton in Hm as ->. apply lookup_delete_eq.
  - rewrite lookup_delete_ne; [done|]. intros ->. by apply Hm; left.
Qed.

(** * Operations *)

(** The operations of sockets that an object counts. *)
Definition counted (u : loc) (x : loc * io_op) : Prop :=
  op_object x.2 = u ∧ is_socket (op_class x.2) = true.
#[export] Instance counted_dec u x : Decision (counted u x).
Proof. unfold counted. apply _. Defined.
Definition busy_ops (u : loc) (m : gmap loc io_op) : nat := base.size (filter (counted u) m).

(** The messages in flight lock different handles, which show it. *)
Definition locks_of (op : io_op) : list file_descriptor_lock :=
  match op_action op with SendWithFds fds _ => fds | _ => [] end.
Definition carries_fds (a : action) : bool :=
  match a with ReceiveWithFds _ _ _ | SendWithFds _ _ => true | _ => false end.
Definition busy_handle : file_descriptor_handle := FileDescriptor INVALID_FILE_DESCRIPTOR true.

Record waiting (st : io_state) : Prop := {
  wait_object f op : ops st !! f = Some op → is_Some (io_objects st !! op_object op);
  wait_busy u o : io_objects st !! u = Some o → Z.of_nat (busy_ops u (ops st)) ≤ nbusy o;
  wait_suspended f op : ops st !! f = Some op → threads (vm st) !! f = Some CoSuspended;
  wait_once : NoDup (task_fiber <$> strand (vm st));
  wait_idle f : f ∈ task_fiber <$> strand (vm st) → ¬ running (vm st) f;
  wait_queued f op :
    ops st !! f = Some op → is_pending op = false ↔ f ∈ task_fiber <$> strand (vm st);
  wait_class f op : ops st !! f = Some op → carries_fds (op_action op) = true →
    is_socket (op_class op) = true;
  wait_locks f op l :
    ops st !! f = Some op → l ∈ locks_of op → handles st !! reference l = Some busy_handle;
  wait_locked_once f g op op' l l' :
    ops st !! f = Some op → ops st !! g = Some op' → l ∈ locks_of op → l' ∈ locks_of op' →
    reference l = reference l' → f = g;
  wait_references f op : ops st !! f = Some op → NoDup (reference <$> locks_of op);
}.

(** After the end of the VM, the handlers are all in the strand. *)
Record ended (st : io_state) : Prop := {
  end_handles : handles st = ∅;
  end_objects : io_objects st = ∅;
  end_queued f op :
    ops st !! f = Some op → is_pending op = false ∧ f ∈ task_fiber <$> strand (vm st);
}.

(** Operations use memory that is there. *)
Definition region_ok (bufs : list bytes) (op : io_op) : Prop :=
  match op_buffer op with
  | None => op_size op = 0
  | Some (b, off) =>
      0 ≤ off ∧ 0 ≤ op_size op ∧ ∃ buf, bufs !! b = Some buf ∧ off + op_size op ≤ length buf
  end.

(** Addresses that were not given yet. *)
Definition fresh (st : io_state) : Prop :=
  ∀ u, (next_loc (vm st) ≤ u)%nat → handles st !! u = None ∧ io_objects st !! u = None.

(** Only connections that were accepted are kept in an operation. *)
Definition peer_ok (op : io_op) : Prop :=
  ∀ c, op_progress op = Completed c →
    (completion_ec c = None ∧ ∃ p, op_action op = Accept p) ∨ peer c = INVALID_FILE_DESCRIPTOR.

Record good (st : io_state) : Prop := {
  good_fresh : fresh st;
  good_memory : wf (memory st);
  good_regions f op : ops st !! f = Some op → region_ok (buffers (memory st)) op;
  good_peers f op : ops st !! f = Some op → peer_ok op;
  good_ops : if valid_ (vm st) then waiting st else ended st;
}.

Record inv (st : io_state) : Prop := {
  inv_own : owning st;
  inv_good : good st;
}.

Lemma good_waiting st : good st → valid_ (vm st) = true → waiting st.
Proof. intros G Hv. pose proof (good_ops _ G) as W. by rewrite Hv in W. Qed.
Lemma good_ended st : good st → valid_ (vm st) = false → ended st.
Proof. intros G Hv. pose proof (good_ops _ G) as W. by rewrite Hv in W. Qed.

Lemma good_ops_same st st' :
  ops st' = ops st → handles st' = handles st → io_objects st' = io_objects st →
  valid_ (vm st') = valid_ (vm st) → threads (vm st') = threads (vm st) →
  strand (vm st') = strand (vm st) → good st →
  if valid_ (vm st') then waiting st' else ended st'.
Proof.
  intros Eo Eh Ei Ev Et Es G. pose proof (good_ops _ G) as W. rewrite Ev.
  destruct (valid_ (vm st)).
  - destruct W as [W1 W2 W3 W4 W5 W6 W7 W8 W9 W10].
    split; unfold running in *; rewrite ?Eo, ?Eh, ?Ei, ?Et, ?Es; done.
  - destruct W as [W1 W2 W3]. split; rewrite ?Eo, ?Eh, ?Ei, ?Es; done.
Qed.

(** ** Counting *)
Lemma busy_none u m : (∀ f op, m !! f = Some op → op_object op ≠ u) → busy_ops u m = 0%nat.
Proof.
  intros Hm. unfold busy_ops. rewrite map_empty_filter_2; [apply map_size_empty|].
  intros f op Hf [E _]. by apply (Hm f op).
Qed.

Lemma busy_insert_new u f op m :
  m !! f = None →
  busy_ops u (<[f := op]> m) =
    ((if decide (counted u (f, op)) then 1 else 0) + busy_ops u m)%nat.
Proof.
  intros Hf. unfold busy_ops. case_decide.
  - rewrite map_filter_insert_True by done. rewrite map_size_insert_None; [done|].
    apply map_lookup_filter_None. by left.
  - rewrite map_filter_insert_False by done. by rewrite delete_id.
Qed.

Lemma busy_delete u f op m :
  m !! f = Some op →
  busy_ops u m = ((if decide (counted u (f, op)) then 1 else 0) + busy_ops u (delete f m))%nat.
Proof.
  intros Hf. rewrite <- busy_insert_new by apply lookup_delete_eq.
  by rewrite insert_delete_id.
Qed.

(** What an operation becomes does not matter. *)
Lemma busy_same u f op op' m :
  m !! f = Some op → op_object op' = op_object op → op_class op' = op_class op →
  busy_ops u (<[f := op']> m) = busy_ops u m.
Proof.
  intros Hf Eo Ec. rewrite <- insert_delete_eq, busy_insert_new by apply lookup_delete_eq.
  rewrite (busy_delete u f op m Hf). f_equal. apply decide_ext. unfold counted. simpl. by rewrite Eo, Ec.
Qed.

(** ** Frames *)

(** A change that leaves operations, coroutines and memory alone. *)
Record frame (st st' : io_state) : Prop := {
  frame_valid : valid_ (vm st') = valid_ (vm st);
  frame_threads : threads (vm st') = threads (vm st);
  frame_strand : strand (vm st') = strand (vm st);
  frame_current : current_fiber_ (vm st') = current_fiber_ (vm st);
  frame_memory : memory st' = memory st;
  frame_ops : ops st' = ops st;
  frame_fresh : fresh st → fresh st';
  frame_objects u o : fresh st →
    io_objects st !! u = Some o → ∃ o', io_objects st' !! u = Some o' ∧ nbusy o ≤ nbusy o';
  frame_new u o' : fresh st →
    io_objects st' !! u = Some o' → 0 ≤ nbusy o' ∨ is_Some (io_objects st !! u);
  frame_handles u : fresh st →
    handles st !! u = Some busy_handle → handles st' !! u = Some busy_handle;
}.

#[export] Instance frame_preorder : PreOrder frame.
Proof.
  split.
  - intros st. split; try done; naive_solver.
  - intros s1 s2 s3 [A1 A2 A3 A4 A5 A6 A7 A8 A9 A10] [B1 B2 B3 B4 B5 B6 B7 B8 B9 B10].
    split; try congruence; auto.
    + intros u o Hf Ho. destruct (A8 u o Hf Ho) as (o2 & Ho2 & ?).
      destruct (B8 u o2 (A7 Hf) Ho2) as (o3 & ? & ?). exists o3. split; [done|lia].
    + intros u o' Hf Ho'. destruct (B9 u o' (A7 Hf) Ho') as [?|[o2 Ho2]]; [by left|].
      destruct (A9 u o2 Hf Ho2) as [?|?]; [|by right].
      destruct (B8 u o2 (A7 Hf) Ho2) as (o3 & ? & ?). left. simplify_eq. lia.
Qed.

Lemma waiting_frame st st' : frame st st' → fresh st → waiting st → waiting st'.
Proof.
  intros [Ev Et Es Ec Em Eo Hf Ho Hn Hh] Hfr [W1 W2 W3 W4 W5 W6 W7 W8 W9 W10].
  split; rewrite ?Eo, ?Es; try done.
  - intros f op Hop. destruct (W1 f op Hop) as [o Hx].
    destruct (Ho _ _ Hfr Hx) as (o' & ? & _). eauto.
  - intros u o' Hu. destruct (io_objects st !! u) as [o|] eqn:Hou.
    + destruct (Ho u o Hfr Hou) as (o2 & ? & ?). simplify_eq. specialize (W2 u o Hou). lia.
    + rewrite busy_none; [destruct (Hn u o' Hfr Hu) as [?|[x Hx]]; [done|congruence]|].
      intros f op Hop <-. destruct (W1 f op Hop) as [x Hx]. congruence.
  - rewrite Et. exact W3.
  - intros f Hf'. unfold running. rewrite Et. by apply W5.
  - intros f op l Hop Hl. apply Hh; [done|]. by eapply W8.
Qed.

Lemma good_frame st st' : frame st st' → valid_ (vm st) = true → good st → good st'.
Proof.
  intros F Hv G. pose proof (good_fresh _ G) as Hfr. split.
  - by apply (frame_fresh _ _ F).
  - rewrite (frame_memory _ _ F). apply G.
  - rewrite (frame_memory _ _ F), (frame_ops _ _ F). apply G.
  - rewrite (frame_ops _ _ F). apply G.
  - rewrite (frame_valid _ _ F), Hv. apply (waiting_frame st), good_waiting; done.
Qed.

(** What is not of the I/O state: values, requests, descriptors, the fibers'
    rows. *)
Lemma frame_plain st st' :
  valid_ (vm st') = valid_ (vm st) → threads (vm st') = threads (vm st) →
  strand (vm st') = strand (vm st) → current_fiber_ (vm st') = current_fiber_ (vm st) →
  (next_loc (vm st) ≤ next_loc (vm st'))%nat → memory st' = memory st →
  ops st' = ops st → handles st' = handles st → io_objects st' = io_objects st →
  frame st st'.
Proof.
  intros ????? ?? Eh Eo. split; try done; unfold fresh; rewrite ?Eh, ?Eo; try done.
  - intros Hf u Hu. apply Hf. lia.
  - intros u o _ Hu. by exists o.
  - intros u o _ Hu. right. by exists o.
Qed.

Lemma frame_object st u o o' :
  io_objects st !! u = Some o → nbusy o ≤ nbusy o' → frame st (set_io_object u o' st).
Proof.
  intros Hu Hn. split; try done; simpl.
  - intros Hf v Hv. destruct (Hf v Hv) as [? Hn2]. split; [done|]. simpl.
    rewrite lookup_insert_ne; [done|]. intros ->. congruence.
  - intros v x _ Hx. destruct (decide (v = u)) as [->|Hvu].
    + rewrite lookup_insert_eq. exists o'. simplify_eq. done.
    + rewrite lookup_insert_ne by done. by exists x.
  - intros v x _ Hx. right. destruct (decide (v = u)) as [->|Hvu]; [by exists o|].
    rewrite lookup_insert_ne in Hx by done. by exists x.
Qed.

Lemma frame_handle st h x x' :
  handles st !! h = Some x → x ≠ busy_handle → frame st (set_handle h x' st).
Proof.
  intros Hh Hb. split; try done; simpl.
  - intros Hf v Hv. destruct (Hf v Hv) as [Hn2 ?]. split; [|done]. simpl.
    rewrite lookup_insert_ne; [done|]. intros ->. congruence.
  - intros u o _ Hu. by exists o.
  - intros u o _ Hu. right. by exists o.
  - intros u _ Hu. rewrite lookup_insert_ne; [done|]. intros ->. congruence.
Qed.

Lemma frame_new_handle n st : frame st (new_handle n st).1.
Proof.
  split; try done; simpl.
  - intros Hf v Hv. simpl in *. destruct (Hf v) as [? ?]; [lia|].
    rewrite lookup_insert_ne by lia. done.
  - intros u o _ Hu. by exists o.
  - intros u o _ Hu. right. by exists o.
  - intros u Hf Hu. rewrite lookup_insert_ne; [done|]. intros <-.
    destruct (Hf (next_loc (vm st))) as [? _]; [lia|]. congruence.
Qed.

Lemma frame_new_object c n st : frame st (new_io_object c n st).1.
Proof.
  split; try done; simpl.
  - intros Hf v Hv. simpl in *. destruct (Hf v) as [? ?]; [lia|].
    rewrite lookup_insert_ne by lia. done.
  - intros u o Hf Hu. exists o. rewrite lookup_insert_ne; [done|]. intros <-.
    destruct (Hf (next_loc (vm st))) as [_ ?]; [lia|]. congruence.
  - intros u o Hf Hu. destruct (decide (u = next_loc (vm st))) as [->|Hne].
    + rewrite lookup_insert_eq in Hu. simplify_eq. by left.
    + rewrite lookup_insert_ne in Hu by done. right. by exists o.
Qed.

(** Changes of a part that no one owns. *)
Lemma transfer_plain st st' :
  handles st' = handles st → io_objects st' = io_objects st → ops st' = ops st →
  descriptors st' = descriptors st → transfer st st'.
Proof. intros Eh Eo Ep Ed. apply transfer_moves; [|done]. unfold owned. by rewrite Eh, Eo, Ep. Qed.

(** ** Parts of what is owned *)
Definition op_fds (op : io_op) : list Z := locked_fds op ++ peer_fds op.

Lemma owned_handle st h x :
  handles st !! h = Some x →
  owned st ≡ₚ handle_fds x ++ owned (with_handles (delete h) st).
Proof. intros Hh. unfold owned. simpl. rewrite (all_of_delete _ _ h x) by done. solve_Permutation. Qed.

Lemma owned_set_handle st h x :
  owned (set_handle h x st) ≡ₚ handle_fds x ++ owned (with_handles (delete h) st).
Proof. unfold owned. simpl. rewrite all_of_insert. solve_Permutation. Qed.

Lemma owned_object st u o :
  io_objects st !! u = Some o →
  owned st ≡ₚ object_fds o ++ owned (Io.with_objects (delete u) st).
Proof. intros Hu. unfold owned. simpl. rewrite (all_of_delete _ _ u o) by done. solve_Permutation. Qed.

Lemma owned_set_object st u o :
  owned (set_io_object u o st) ≡ₚ object_fds o ++ owned (Io.with_objects (delete u) st).
Proof. unfold owned. simpl. rewrite all_of_insert. solve_Permutation. Qed.

Lemma owned_op st f op :
  ops st !! f = Some op → owned st ≡ₚ op_fds op ++ owned (with_ops (delete f) st).
Proof.
  intros Hf. unfold owned, op_fds. simpl.
  rewrite (all_of_delete locked_fds _ f op), (all_of_delete peer_fds _ f op) by done.
  solve_Permutation.
Qed.

Lemma owned_set_op st f op :
  owned (with_ops <[f := op]> st) ≡ₚ op_fds op ++ owned (with_ops (delete f) st).
Proof. unfold owned, op_fds. simpl. rewrite !all_of_insert. solve_Permutation. Qed.

Lemma without_handle st h : handles st !! h = None → with_handles (delete h) st = st.
Proof. intros Hh. unfold with_handles. rewrite delete_id by done. by destruct st. Qed.
Lemma without_object st u : io_objects st !! u = None → Io.with_objects (delete u) st = st.
Proof. intros Hu. unfold Io.with_objects. rewrite delete_id by done. by destruct st. Qed.
Lemma without_op st f : ops st !! f = None → with_ops (delete f) st = st.
Proof. intros Hf. unfold with_ops. rewrite delete_id by done. by destruct st. Qed.

(** Everything else does not count. *)
Lemma owned_plain st st' :
  handles st' = handles st → io_objects st' = io_objects st → ops st' = ops st →
  owned st' = owned st.
Proof. intros Eh Eo Ep. unfold owned. by rewrite Eh, Eo, Ep. Qed.

Lemma owned_new_handle st n :
  fresh st → owned (new_handle n st).1 ≡ₚ valid_fd n ++ owned st.
Proof.
  intros Hf. destruct (Hf (next_loc (vm st))) as [Hh _]; [lia|]. unfold new_handle. simpl.
  rewrite owned_set_handle. rewrite without_handle by done. by rewrite (owned_plain st).
Qed.

Lemma owned_new_object st c n :
  fresh st → owned (new_io_object c n st).1 ≡ₚ valid_fd n ++ owned st.
Proof.
  intros Hf. destruct (Hf (next_loc (vm st))) as [_ Hu]; [lia|]. unfold new_io_object. simpl.
  rewrite owned_set_object. rewrite without_object by done. by rewrite (owned_plain st).
Qed.

Lemma valid_fd_valid n : n ≠ INVALID_FILE_DESCRIPTOR → valid_fd n = [n].
Proof. intros Hn. unfold valid_fd. by rewrite decide_False. Qed.
Lemma valid_fd_nonneg n : 0 ≤ n → valid_fd n = [n].
Proof. intros Hn. apply valid_fd_valid. unfold INVALID_FILE_DESCRIPTOR. lia. Qed.

Lemma object_fds_open o : is_open o = true → object_fds o = [native_handle o].
Proof. intros Ho%bool_decide_eq_true. by apply valid_fd_valid. Qed.
Lemma object_fds_closed o : is_open o = false → object_fds o = [].
Proof.
  intros Ho%bool_decide_eq_false. unfold object_fds, valid_fd. rewrite decide_True; [done|].
  by apply dec_stable.
Qed.

(** ** Cancelling operations *)

Definition moved (st st' : io_state) : Prop :=
  handles st' = handles st ∧ io_objects st' = io_objects st ∧ memory st' = memory st ∧
  descriptors st' = descriptors st ∧ next_loc (vm st') = next_loc (vm st) ∧
  valid_ (vm st') = valid_ (vm st) ∧ threads (vm st') = threads (vm st) ∧
  current_fiber_ (vm st') = current_fiber_ (vm st) ∧ fiber_list (vm st') = fiber_list (vm st).
#[export] Instance moved_preorder : PreOrder moved.
Proof. split; [by intros st|]. unfold moved. intros s1 s2 s3. naive_solver congruence. Qed.

Lemma complete_moved f c st : moved st (complete f c st).
Proof. unfold complete. by destruct (ops st !! f). Qed.

Lemma complete_owned f c st op :
  ops st !! f = Some op → is_pending op = true →
  owned (complete f c st) ≡ₚ valid_fd (peer c) ++ owned st.
Proof.
  intros Hf Hp. unfold complete. rewrite Hf.
  rewrite (owned_plain (with_ops <[f := set_progress (Completed c) op]> st)) by done.
  rewrite owned_set_op, (owned_op st f op Hf). unfold op_fds, peer_fds, is_pending in *.
  destruct (op_progress op); [|done]. simpl. rewrite app_nil_r.
  change (locked_fds (set_progress (Completed c) op)) with (locked_fds op). solve_Permutation.
Qed.

Lemma abort_moved P st : moved st (abort_ops P st).
Proof.
  unfold abort_ops. induction (elements _) as [|f l IH]; simpl; [done|].
  transitivity (foldr (abort_one P) st l); [done|]. unfold abort_one.
  destruct (ops _ !! f); [|done]. case_match; [|done]. apply complete_moved.
Qed.

Lemma abort_owned P st : owned (abort_ops P st) ≡ₚ owned st.
Proof.
  unfold abort_ops. induction (elements _) as [|f l IH]; simpl; [done|].
  rewrite <- IH. unfold abort_one. destruct (ops _ !! f) as [op|] eqn:Hf; [|done].
  destruct (is_pending op && P op) eqn:E; [|done]. apply andb_true_iff in E as [Hp _].
  by rewrite (complete_owned f _ _ op).
Qed.

Lemma abort_transfer P st : transfer st (abort_ops P st).
Proof. apply transfer_moves; [apply abort_owned|apply abort_moved]. Qed.

Lemma io_waiting_complete f c st op :
  ops st !! f = Some op → is_pending op = true → waiting st → waiting (complete f c st).
Proof.
  intros Hf Hp [W1 W2 W3 W4 W5 W6 W7 W8 W9 W10]. unfold complete. rewrite Hf.
  set (op' := set_progress (Completed c) op).
  assert (∀ g x, <[f := op']> (ops st) !! g = Some x →
    ∃ y, ops st !! g = Some y ∧ op_object x = op_object y ∧ op_class x = op_class y ∧
      op_action x = op_action y ∧ (g ≠ f → is_pending x = is_pending y)) as Hsame.
  { intros g x [[<- <-]|[Hne Hg]]%lookup_insert_Some; [|by exists x].
    exists op. by split_and!. }
  assert (∀ g x l, <[f := op']> (ops st) !! g = Some x → l ∈ locks_of x →
    ∃ y, ops st !! g = Some y ∧ l ∈ locks_of y) as Hlocks.
  { intros g x l Hx. destruct (Hsame g x Hx) as (y & Hy & _ & _ & E & _). unfold locks_of.
    rewrite E. by exists y. }
  assert (f ∉ task_fiber <$> strand (vm st)) as Hnq.
  { intros Hin. apply (W6 f op Hf) in Hin. congruence. }
  split; simpl; rewrite ?fmap_app; simpl.
  - intros g x Hx. destruct (Hsame g x Hx) as (y & Hy & -> & _). by eapply W1.
  - intros u o Hu. rewrite (busy_same u f op) by done. by apply W2.
  - intros g x Hx. destruct (Hsame g x Hx) as (y & Hy & _). by eapply W3.
  - apply NoDup_app. split_and!; [done| |apply NoDup_singleton]. intros g Hg.
    rewrite list_elem_of_singleton. by intros ->.
  - intros g. rewrite elem_of_app, list_elem_of_singleton. intros [Hg| ->]; [by apply W5|].
    intros [args Ha]. specialize (W3 f op Hf). simpl in *. congruence.
  - intros g x Hx. destruct (Hsame g x Hx) as (y & Hy & _ & _ & _ & E).
    rewrite elem_of_app, list_elem_of_singleton. destruct (decide (g = f)) as [->|Hne].
    + rewrite lookup_insert_eq in Hx. simplify_eq. simpl. tauto.
    + rewrite E by done. rewrite (W6 g y Hy). tauto.
  - intros g x Hx. destruct (Hsame g x Hx) as (y & Hy & _ & -> & -> & _). by eapply W7.
  - intros g x l Hx Hl. destruct (Hlocks g x l Hx Hl) as (y & Hy & ?). by eapply W8.
  - intros g g' x x' l l' Hx Hx' Hl Hl'.
    destruct (Hlocks g x l Hx Hl) as (y & ? & ?), (Hlocks g' x' l' Hx' Hl') as (y' & ? & ?).
    by eapply W9.
  - intros g x Hx. destruct (Hsame g x Hx) as (y & Hy & _ & _ & E & _). unfold locks_of.
    rewrite E. by eapply W10.
Qed.

Lemma complete_ops f c st g x :
  ops (complete f c st) !! g = Some x →
  ∃ y, ops st !! g = Some y ∧
    (x = y ∨ g = f ∧ x = set_progress (Completed c) y).
Proof.
  unfold complete. destruct (ops st !! f) as [op|] eqn:Hf; [|by eauto]. simpl.
  intros [[<- <-]|[Hne Hg]]%lookup_insert_Some; eauto.
Qed.

(** What the completion of an operation may be. *)
Lemma good_complete f c st op :
  ops st !! f = Some op → is_pending op = true → peer_ok (set_progress (Completed c) op) →
  good st → good (complete f c st).
Proof.
  intros Hf Hp Hok G. pose proof (complete_moved f c st) as (Eh & Eo & Em & _ & El & Ev & _).
  split.
  - unfold fresh. rewrite Eh, Eo, El. apply G.
  - rewrite Em. apply G.
  - intros g x Hx. rewrite Em. destruct (complete_ops _ _ _ _ _ Hx) as (y & Hy & [E|[_ E]]); subst x;
      by apply (good_regions _ G g y).
  - intros g x Hx. destruct (complete_ops _ _ _ _ _ Hx) as (y & Hy & [E|[-> E]]); subst x;
      [by apply (good_peers _ G g)|by simplify_eq].
  - rewrite Ev. destruct (valid_ (vm st)) eqn:Hv.
    + apply (io_waiting_complete f c st op); try done. by apply good_waiting.
    + destruct (end_queued _ (good_ended _ G Hv) f op Hf). congruence.
Qed.

Lemma failed_ok op ec : peer_ok (set_progress (Completed (failed op ec)) op).
Proof. intros c [= <-]. by right. Qed.

Lemma good_abort P st : good st → good (abort_ops P st).
Proof.
  intros G. unfold abort_ops. induction (elements _) as [|f l IH]; simpl; [done|].
  unfold abort_one. destruct (ops _ !! f) as [op|] eqn:Hf; [|done].
  destruct (is_pending op && P op) eqn:E; [|done]. apply andb_true_iff in E as [Hp _].
  apply (good_complete f _ _ op); try done. apply failed_ok.
Qed.

(** What [abort_ops] makes of an operation, and that its handler is queued. *)
Definition aborted (P : io_op → bool) (op : io_op) : io_op :=
  if is_pending op && P op
  then set_progress (Completed (failed op operation_aborted)) op else op.

Lemma abort_fold P st l :
  NoDup l →
  let st' := foldr (abort_one P) st l in
  (∀ f, ops st' !! f = if decide (f ∈ l) then aborted P <$> ops st !! f else ops st !! f) ∧
  ∃ q, strand (vm st') = strand (vm st) ++ q ∧
    ∀ f op, ops st !! f = Some op → is_pending op && P op = true →
      f ∈ l ↔ FiberResume f no_options ∈ q.
Proof.
  induction l as [|f l IH]; intros Hnd; simpl.
  - split; [done|]. exists []. rewrite app_nil_r. split; [done|]. intros f op _ _.
    by rewrite !elem_of_nil.
  - apply NoDup_cons in Hnd as [Hnot Hnd]. destruct (IH Hnd) as [Ho (q & Eq & Hq)].
    set (st' := foldr (abort_one P) st l) in *. clear IH.
    assert (ops st' !! f = ops st !! f) as Ef by (by rewrite Ho, decide_False).
    unfold abort_one. rewrite Ef. destruct (ops st !! f) as [op|] eqn:Hf.
    + destruct (is_pending op && P op) eqn:Ep.
      * unfold complete. rewrite Ef. simpl. split.
        -- intros g. destruct (decide (g = f)) as [->|Hne].
           ++ rewrite lookup_insert_eq, decide_True by set_solver. rewrite Hf. simpl.
              unfold aborted. by rewrite Ep.
           ++ rewrite lookup_insert_ne, Ho by done. apply decide_ext. set_solver.
        -- exists (q ++ [FiberResume f no_options]). rewrite Eq, app_assoc. split; [done|].
           intros g x Hg Hx. rewrite elem_of_cons, elem_of_app, list_elem_of_singleton.
           rewrite (Hq g x Hg Hx). split; [intros [->|?]; auto|intros [?|[= ->]]; auto].
      * split; [|exists q; split; [done|]].
        -- intros g. rewrite Ho. destruct (decide (g = f)) as [->|Hne].
           ++ rewrite decide_False, decide_True by set_solver. rewrite Hf. simpl.
              unfold aborted. by rewrite Ep.
           ++ apply decide_ext. set_solver.
        -- intros g x Hg Hx. rewrite elem_of_cons, (Hq g x Hg Hx).
           split; [intros [->|?]; [congruence|done]|by right].
    + split; [|exists q; split; [done|]].
      * intros g. rewrite Ho. destruct (decide (g = f)) as [->|Hne].
        -- rewrite decide_False, decide_True by set_solver. by rewrite Hf.
        -- apply decide_ext. set_solver.
      * intros g x Hg Hx. rewrite elem_of_cons, (Hq g x Hg Hx).
        split; [intros [->|?]; [congruence|done]|by right].
Qed.

Lemma abort_lookup P st f : ops (abort_ops P st) !! f = aborted P <$> ops st !! f.
Proof.
  unfold abort_ops. destruct (abort_fold P st (elements (dom (ops st)))) as [Ho _].
  { apply NoDup_elements. }
  rewrite Ho. case_decide as Hf; [done|]. rewrite elem_of_elements, not_elem_of_dom in Hf. by rewrite Hf.
Qed.

Lemma abort_strand P st :
  ∃ q, strand (vm (abort_ops P st)) = strand (vm st) ++ q ∧
    ∀ f op, ops st !! f = Some op → is_pending op = true → P op = true →
      FiberResume f no_options ∈ q.
Proof.
  unfold abort_ops. destruct (abort_fold P st (elements (dom (ops st)))) as [_ (q & Eq & Hq)].
  { apply NoDup_elements. }
  exists q. split; [done|]. intros f op Hf Hp HP. apply (Hq f op Hf); [by rewrite Hp, HP|].
  apply elem_of_elements, elem_of_dom. by exists op.
Qed.

(** ** Starting an operation *)

Lemma lock_lookup fds (m : gmap loc file_descriptor_handle) h :
  foldr (λ l, alter (set_value INVALID_FILE_DESCRIPTOR) (reference l)) m fds !! h =
    if decide (locked_by h fds) then set_value INVALID_FILE_DESCRIPTOR <$> m !! h else m !! h.
Proof.
  unfold locked_by. induction fds as [|l fds IH]; [done|]. cbn [foldr fmap list_fmap].
  destruct (decide (h = reference l)) as [->|Hne].
  - rewrite lookup_alter_eq, IH, (decide_True (P := _ ∈ _ :: _)) by set_solver.
    case_decide; [|done]. by destruct (m !! _).
  - rewrite lookup_alter_ne, IH by done. apply decide_ext. set_solver.
Qed.

Lemma lock_owned fds (m : gmap loc file_descriptor_handle) :
  Forall (λ l, m !! reference l = Some (FileDescriptor (lock_value l) true) ∧
    lock_value l ≠ INVALID_FILE_DESCRIPTOR) fds →
  NoDup (reference <$> fds) →
  (lock_value <$> fds) ++ all_of handle_fds
    (foldr (λ l, alter (set_value INVALID_FILE_DESCRIPTOR) (reference l)) m fds) ≡ₚ
  all_of handle_fds m.
Proof.
  induction fds as [|l fds IH]; [done|]. cbn [foldr fmap list_fmap].
  intros [[Hl Hn] Hfds]%Forall_cons [Hnot Hnd]%NoDup_cons. rewrite <- (IH Hfds Hnd). clear IH.
  set (m' := foldr _ m fds).
  assert (m' !! reference l = Some (FileDescriptor (lock_value l) true)) as Hl'.
  { unfold m'. by rewrite lock_lookup, decide_False. }
  assert (alter (set_value INVALID_FILE_DESCRIPTOR) (reference l) m' =
    <[reference l := busy_handle]> m') as ->.
  { apply map_eq. intros h. rewrite lookup_alter, lookup_insert. case_decide; [subst|done].
    by rewrite Hl'. }
  rewrite all_of_insert, (all_of_delete _ m' _ _ Hl'). unfold handle_fds at 1 3. simpl.
  rewrite (valid_fd_valid (lock_value l)) by done. cbn. solve_Permutation.
Qed.

(** What a call checked before it starts an operation. *)
Record startable (st : io_state) (op : io_op) : Prop := {
  start_pending : op_progress op = Pending;
  start_object : is_Some (io_objects st !! op_object op);
  start_region : region_ok (buffers (memory st)) op;
  start_class : carries_fds (op_action op) = true → is_socket (op_class op) = true;
  start_handles : Forall (λ l,
    handles st !! reference l = Some (FileDescriptor (lock_value l) true) ∧
    lock_value l ≠ INVALID_FILE_DESCRIPTOR) (locks_of op);
  start_once : NoDup (reference <$> locks_of op);
}.
Definition started (op : io_op) (st : io_state) : io_state :=
  suspend Yield (lock_handles (locks_of op) (start_op op st)).

Lemma not_waiting st f : waiting st → running (vm st) f → ops st !! f = None.
Proof.
  intros W [args Hr]. destruct (ops st !! f) as [op|] eqn:Hf; [|done].
  pose proof (wait_suspended _ W f op Hf). congruence.
Qed.

Lemma started_transfer st op :
  startable st op → ops st !! current_fiber_ (vm st) = None → transfer st (started op st).
Proof.
  intros [Sp [o So] _ _ Sh S1] Hno. apply transfer_moves.
  2: { unfold started, start_op. by destruct (is_socket (op_class op)). }
  unfold started, start_op, lock_handles, suspend, owned. simpl.
  assert (all_of object_fds (io_objects
    (if is_socket (op_class op) then more_busy (op_object op) st else st)) ≡ₚ
    all_of object_fds (io_objects st)) as Eo.
  { destruct (is_socket (op_class op)); [|done]. simpl. by apply all_of_alter. }
  assert (handles (if is_socket (op_class op) then more_busy (op_object op) st else st) =
    handles st) as -> by (by destruct (is_socket _)).
  assert (ops (if is_socket (op_class op) then more_busy (op_object op) st else st) =
    ops st) as -> by (by destruct (is_socket _)).
  assert (current_fiber_ (vm (if is_socket (op_class op) then more_busy (op_object op) st else st)) =
    current_fiber_ (vm st)) as -> by (by destruct (is_socket _)).
  rewrite Eo, !all_of_new by done.
  assert (peer_fds op = []) as -> by (unfold peer_fds; by rewrite Sp).
  assert (locked_fds op = lock_value <$> locks_of op) as ->.
  { unfold locked_fds, locks_of. by destruct (op_action op). }
  rewrite <- (lock_owned (locks_of op) (handles st)) by done. solve_Permutation.
Qed.

Lemma started_objects op st :
  io_objects (started op st) =
    if is_socket (op_class op) then alter (λ o, set_busy (nbusy o + 1) o) (op_object op) (io_objects st)
    else io_objects st.
Proof. unfold started, start_op. by destruct (is_socket (op_class op)). Qed.
Lemma started_handles op st :
  handles (started op st) =
    foldr (λ l, alter (set_value INVALID_FILE_DESCRIPTOR) (reference l)) (handles st) (locks_of op).
Proof. unfold started, start_op. by destruct (is_socket (op_class op)). Qed.
Lemma started_ops op st : ops (started op st) = <[current_fiber_ (vm st) := op]> (ops st).
Proof. unfold started, start_op. by destruct (is_socket (op_class op)). Qed.
Lemma started_vm op st :
  vm (started op st) = set_thread (current_fiber_ (vm st)) CoSuspended (vm st).
Proof. unfold started, start_op. by destruct (is_socket (op_class op)). Qed.
Lemma started_memory op st : memory (started op st) = memory st.
Proof. unfold started, start_op. by destruct (is_socket (op_class op)). Qed.

Lemma started_waiting st op :
  startable st op → running (vm st) (current_fiber_ (vm st)) → waiting st →
  waiting (started op st).
Proof.
  intros [Sp So Sr Sc Sh S1] Hrun W. pose proof (not_waiting _ _ W Hrun) as Hno.
  destruct W as [W1 W2 W3 W4 W5 W6 W7 W8 W9 W10]. set (f := current_fiber_ (vm st)) in *.
  assert (∀ u o', io_objects (started op st) !! u = Some o' → ∃ o, io_objects st !! u = Some o ∧
    nbusy o' = nbusy o + if decide (counted u (f, op)) then 1 else 0) as Hobj.
  { intros u o'. rewrite started_objects. destruct (is_socket (op_class op)) eqn:Es.
    - rewrite lookup_alter. intros Hu. case_decide as E.
      + rewrite decide_True by done. apply fmap_Some in Hu as (o & Ho & ->). exists o.
        subst u. split; [exact Ho|simpl; lia].
      + rewrite decide_False by (by intros []). exists o'. split; [done|lia].
    - intros Hu. rewrite decide_False by (intros [_ E]; simpl in E; congruence).
      exists o'. split; [done|lia]. }
  assert (∀ u, is_Some (io_objects st !! u) → is_Some (io_objects (started op st) !! u)) as Hsome.
  { intros u Hu. rewrite started_objects. destruct (is_socket _); [|done].
    by apply lookup_alter_is_Some. }
  assert (f ∉ task_fiber <$> strand (vm st)) as Hnq.
  { intros Hin. by apply (W5 f Hin). }
  assert (∀ g x l, ops st !! g = Some x → l ∈ locks_of x → ¬ locked_by (reference l) (locks_of op))
    as Hdisj.
  { intros g x l Hx Hl (l' & E & Hl')%list_elem_of_fmap. specialize (W8 g x l Hx Hl).
    rewrite Forall_forall in Sh. destruct (Sh l' Hl') as [Hv Hn]. rewrite <- E, W8 in Hv.
    unfold busy_handle in Hv. congruence. }
  split; rewrite ?started_ops, ?started_handles, ?started_vm; simpl; fold f.
  - intros g x [[<- <-]|[_ Hx]]%lookup_insert_Some; [by apply Hsome|]. eauto.
  - intros u o' Hu. destruct (Hobj u o' Hu) as (o & Ho & ->). rewrite busy_insert_new by done.
    specialize (W2 u o Ho). case_decide; lia.
  - intros g x [[<- <-]|[Hne Hx]]%lookup_insert_Some; [by rewrite lookup_insert_eq|].
    rewrite lookup_insert_ne by done. eauto.
  - done.
  - intros g Hg [args Ha]. simpl in Ha. apply lookup_insert_Some in Ha as [[_ ?]|[_ Ha]]; [done|].
    apply (W5 g Hg). by exists args.
  - intros g x [[<- <-]|[Hne Hx]]%lookup_insert_Some; [|by apply W6].
    unfold is_pending. rewrite Sp. naive_solver.
  - intros g x [[<- <-]|[Hne Hx]]%lookup_insert_Some; eauto.
  - intros g x l [[<- <-]|[Hne Hx]]%lookup_insert_Some Hl; rewrite lock_lookup.
    + rewrite decide_True by (by apply list_elem_of_fmap_2). rewrite Forall_forall in Sh.
      destruct (Sh l Hl) as [-> _]. done.
    + rewrite decide_False by (by eapply Hdisj). by eapply W8.
  - intros g g' x x' l l' [[<- <-]|[Hne Hx]]%lookup_insert_Some
      [[<- <-]|[Hne' Hx']]%lookup_insert_Some Hl Hl' E; [done| | |by eapply W9].
    + destruct (Hdisj g' x' l' Hx' Hl'). rewrite <- E. by apply list_elem_of_fmap_2.
    + destruct (Hdisj g x l Hx Hl). rewrite E. by apply list_elem_of_fmap_2.
  - intros g x [[<- <-]|[Hne Hx]]%lookup_insert_Some; eauto.
Qed.

Lemma started_good st op :
  startable st op → valid_ (vm st) = true → running (vm st) (current_fiber_ (vm st)) →
  good st → good (started op st).
Proof.
  intros S Hv Hrun G. pose proof S as [Sp So Sr Sc Sh S1]. split.
  - intros u. rewrite started_vm, started_handles, started_objects. simpl. intros Hu.
    destruct (good_fresh _ G u Hu) as [Eh Eo]. split.
    + rewrite lock_lookup, Eh. by case_decide.
    + destruct (is_socket _); [|done]. rewrite lookup_alter. case_decide; subst; by rewrite ?Eo.
  - rewrite started_memory. apply G.
  - intros g x. rewrite started_ops, started_memory.
    intros [[<- <-]|[_ Hx]]%lookup_insert_Some; [done|]. by apply (good_regions _ G g).
  - intros g x. rewrite started_ops. intros [[<- <-]|[_ Hx]]%lookup_insert_Some.
    + intros c. congruence.
    + by apply (good_peers _ G g).
  - rewrite started_vm. simpl. rewrite Hv. apply started_waiting; [done..|].
    by apply good_waiting.
Qed.
