(* ===== verification/IoCalls.v ===== *)
(** Every call of the I/O modules keeps the invariant. *)
From S2P Require Import Prelude Errors Lua LuaTable ByteSpan ByteSpanFacts Vm FiberOps.
From S2P Require Import SpawnArgs Io IoObjects IoOperations IoSteps IoSpec.
#[local] Open Scope Z_scope.

(** * Checks *)

Lemma check_object_inr c L i st u o :
  check_object c L i st = inr (u, o) →
  arg L i = Some (LUserdata u) ∧ io_objects st !! u = Some o ∧ class o = c.
Proof.
  unfold check_object. intros E. repeat (case_match; simplify_eq); naive_solver.
Qed.
Lemma check_fd_inr L i st h n :
  check_file_descriptor L i st = inr (h, n) →
  handles st !! h = Some (FileDescriptor n true) ∧ n ≠ INVALID_FILE_DESCRIPTOR.
Proof.
  unfold check_file_descriptor. intros E. repeat (case_match; simplify_eq); naive_solver.
Qed.
Lemma check_span_inr L i st bs :
  wf (memory st) → check_span L i st = inr bs → handle_wf (buffers (memory st)) bs.
Proof.
  unfold check_span, span_of. intros W E. repeat (case_match; simplify_eq).
  by eapply wf_spans.
Qed.

(** No check answers [Yield]. *)
Definition quiet {A} (e : answer + A) : Prop := ∀ a, e = inl a → a ≠ Yield.
#[local] Ltac quiet := intros ? ?; repeat (case_match; simplify_eq); done.

Lemma quiet_object c L i st : quiet (check_object c L i st).
Proof. unfold check_object. quiet. Qed.
Lemma quiet_fd L i st : quiet (check_file_descriptor L i st).
Proof. unfold check_file_descriptor. quiet. Qed.
Lemma quiet_span L i st : quiet (check_span L i st).
Proof. unfold check_span. quiet. Qed.
Lemma quiet_address L i st : quiet (check_address L i st).
Proof. unfold check_address. quiet. Qed.
Lemma quiet_path L i st : quiet (check_path L i st).
Proof. unfold check_path. quiet. Qed.
Lemma quiet_number L i : quiet (check_number L i).
Proof. unfold check_number, bad_argument. quiet. Qed.
Lemma quiet_string L i : quiet (check_string L i).
Proof. unfold check_string, bad_argument. quiet. Qed.
Lemma quiet_table L i : quiet (check_table L i).
Proof. unfold check_table, bad_argument. quiet. Qed.
Lemma quiet_suspend st : quiet (may_suspend st).
Proof. unfold may_suspend, unsafe_can_suspend. quiet. Qed.
Lemma quiet_flags `{LuaApi} L i : quiet (flags_arg L i).
Proof. unfold flags_arg. quiet. Qed.
Lemma quiet_protocol L i st : quiet (protocol_arg L i st).
Proof. unfold protocol_arg, check_address. quiet. Qed.
Lemma quiet_locks i st vs fds : quiet (collect_locks i st vs fds).
Proof.
  revert fds. induction vs as [|v vs IH]; intros fds a E; simpl in E; [done|].
  repeat (case_match; simplify_eq); try done; by eapply IH.
Qed.
Lemma quiet_inr {A} (x : A) : quiet (inr x).
Proof. by intros a. Qed.
#[local] Hint Resolve quiet_object quiet_fd quiet_span quiet_address quiet_path quiet_number
  quiet_string quiet_table quiet_suspend quiet_flags quiet_protocol quiet_locks quiet_inr : core.

Lemma answer_ec_quiet ec vs : answer_ec ec vs ≠ Yield.
Proof. by destruct ec. Qed.
#[local] Hint Resolve answer_ec_quiet : core.

(** * Calls *)
Section calls.
Context `{LuaApi} `{MakeAddress} `{LocalPaths}.
Context (st : io_state) (G : good st) (Hv : valid_ (vm st) = true).
Context (Hrun : running (vm st) (current_fiber_ (vm st))).

(** A call that does not crash keeps things in order, and leaves a fiber that
    waits suspended. *)
Definition fine (r : io_state * answer) : Prop :=
  r.2 ≠ Stuck → transfer st (suspend r.2 r.1) ∧ good (suspend r.2 r.1).

Lemma fine_done st' a : a ≠ Yield → transfer st st' → frame st st' → fine (st', a).
Proof.
  intros Ha T F _. assert (suspend a st' = st') as E by (by destruct a). simpl. rewrite E.
  split; [done|]. by apply (good_frame st).
Qed.
Lemma fine_same a : a ≠ Yield → fine (st, a).
Proof. intros Ha. by apply fine_done. Qed.
Lemma fine_stuck st' : fine (st', Stuck).
Proof. by intros []. Qed.

Lemma fine_try {A} (e : answer + A) k :
  quiet e → (∀ x, e = inr x → fine (k x)) → fine (or_answer e st k).
Proof. intros Hq Hk. destruct e as [a|x]; [apply fine_same; by apply Hq|by apply Hk]. Qed.

Lemma fine_start st1 op :
  transfer st st1 → frame st st1 → startable st1 op →
  fine (lock_handles (locks_of op) (start_op op st1), Yield).
Proof.
  intros T F S _. fold (started op st1).
  assert (current_fiber_ (vm st1) = current_fiber_ (vm st)) as Ec by apply F.
  assert (running (vm st1) (current_fiber_ (vm st1))) as Hrun1.
  { unfold running. by rewrite (frame_threads _ _ F), Ec. }
  assert (valid_ (vm st1) = true) as Hv1 by (by rewrite (frame_valid _ _ F)).
  assert (good st1) as G1 by (by apply (good_frame st)).
  split; [|by apply started_good]. transitivity st1; [done|]. apply started_transfer; [done|].
  apply not_waiting; [by apply good_waiting|done].
Qed.

Lemma lock_nothing st1 : lock_handles [] st1 = st1.
Proof. by destruct st1. Qed.

Lemma fine_start_op st1 op :
  transfer st st1 → frame st st1 → startable st1 op → locks_of op = [] →
  fine (start_op op st1, Yield).
Proof. intros T F S E. pose proof (fine_start st1 op T F S) as Hf. by rewrite E, lock_nothing in Hf. Qed.

(** ** Requests *)
Definition smooth (st1 st2 : io_state) : Prop := transfer st1 st2 ∧ frame st1 st2.

Lemma smooth_trans st1 st2 st3 : smooth st1 st2 → smooth st2 st3 → smooth st1 st3.
Proof. intros [] []. split; by etransitivity. Qed.

(** Requests, values and the fibers' rows do not count. *)
Lemma smooth_plain st1 st2 :
  handles st2 = handles st1 → io_objects st2 = io_objects st1 → ops st2 = ops st1 →
  descriptors st2 = descriptors st1 → memory st2 = memory st1 →
  valid_ (vm st2) = valid_ (vm st1) → threads (vm st2) = threads (vm st1) →
  strand (vm st2) = strand (vm st1) → current_fiber_ (vm st2) = current_fiber_ (vm st1) →
  (next_loc (vm st1) ≤ next_loc (vm st2))%nat → smooth st1 st2.
Proof. intros. split; [by apply transfer_plain|by apply frame_plain]. Qed.

Lemma smooth_requests g st1 : smooth st1 (with_requests g st1).
Proof. by apply smooth_plain. Qed.
Lemma smooth_ask o q st1 : smooth st1 (ask o q st1).
Proof. unfold ask. destruct (is_open o); by apply smooth_plain. Qed.
Lemma smooth_interrupter st1 : smooth st1 (default_interrupter st1).1.
Proof.
  unfold default_interrupter, set_default_interrupter.
  destruct (fiber_list _ !! _) as [row|];
    [destruct (is_disabled (interruption_disabled row))|]; apply smooth_plain; simpl; try done; lia.
Qed.
Lemma smooth_value v st1 : smooth st1 (new_value v st1).1.
Proof. apply smooth_plain; try done. simpl. lia. Qed.
Lemma fine_smooth st' a : a ≠ Yield → smooth st st' → fine (st', a).
Proof. intros Ha [T F]. by apply fine_done. Qed.
#[local] Hint Resolve smooth_requests smooth_ask smooth_interrupter smooth_value fine_same
  fine_stuck : core.

(** Take the checks of a function away. *)
Ltac checks :=
  repeat first
    [ apply fine_try; [by auto|]; let E := fresh "E" in intros [? ?] E
    | apply fine_try; [by auto|]; let E := fresh "E" in intros ? E
    | match goal with
      | E : check_object _ _ _ _ = inr _ |- _ => apply check_object_inr in E as (?Ha & ?Hu & ?Hc)
      | E : check_file_descriptor _ _ _ = inr _ |- _ => apply check_fd_inr in E as (?Hh & ?Hn)
      | E : check_span _ _ _ = inr _ |- _ => apply check_span_inr in E; [|apply G]
      end ].

Lemma fine_ip_bind c r L : fine (ip_bind c r L st).
Proof.
  unfold ip_bind. checks. repeat case_match; checks; auto using fine_smooth.
Qed.
Lemma fine_path_bind c r L : fine (path_bind c r L st).
Proof. unfold path_bind. checks. repeat case_match; auto using fine_smooth. Qed.
Lemma fine_listen c r L : fine (object_listen c r L st).
Proof. unfold object_listen. checks. repeat case_match; auto using fine_smooth; by apply fine_same. Qed.
Lemma fine_shutdown c r L : fine (object_shutdown c r L st).
Proof.
  unfold object_shutdown. apply fine_try; [|intros _ _].
  - intros a Ha. repeat (case_match; simplify_eq). by eapply quiet_string.
  - checks. repeat case_match; auto using fine_smooth; by apply fine_same.
Qed.
Lemma fine_disconnect c r L : fine (object_disconnect c r L st).
Proof. unfold object_disconnect. checks. apply fine_smooth; [by destruct r|auto]. Qed.
Lemma fine_io_control c r L : fine (object_io_control c r L st).
Proof. unfold object_io_control. checks. case_decide; [destruct r|]; by apply fine_same. Qed.
Lemma fine_cap_get r L : fine (file_descriptor_cap_get r L st).
Proof.
  unfold file_descriptor_cap_get. checks. destruct r; [by apply fine_same|].
  apply fine_smooth; [done|apply (smooth_value UCapabilities)].
Qed.
Lemma fine_cap_set r L : fine (file_descriptor_cap_set r L st).
Proof.
  unfold file_descriptor_cap_set. checks. repeat case_match; try (by apply fine_same);
    apply fine_smooth; auto.
Qed.

Lemma fine_is_open L : fine (st, object_is_open L st).
Proof. apply fine_same. unfold object_is_open. by repeat case_match. Qed.
Lemma fine_endpoint_address r : fine (push_endpoint_address r st).
Proof.
  unfold push_endpoint_address. destruct r as [ec|[a port|p]]; [by apply fine_same|..].
  - apply fine_smooth; [done|apply (smooth_value (UIpAddress a))].
  - apply fine_smooth; [done|apply (smooth_value (UPath p))].
Qed.
Lemma fine_endpoint_port r : fine (push_endpoint_port r st).
Proof. apply fine_same. by destruct r as [|[]]. Qed.

(** ** Operations *)

(** The memory an operation uses. *)
Definition fits (buffer : option (loc * Z)) (n : Z) : Prop :=
  region_ok (buffers (memory st)) (IoOp 0 tcp_socket Wait buffer n None Pending).
Lemma fits_nothing : fits None 0.
Proof. done. Qed.
Lemma fits_span bs : handle_wf (buffers (memory st)) bs → fits (data bs) (size bs).
Proof.
  unfold handle_wf, fits, region_ok. simpl. destruct (data bs) as [[b off]|]; [|by intros []].
  intros ((? & ? & ?) & buf & ? & ?). split_and!; [lia..|]. exists buf. split; [done|lia].
Qed.

Lemma fine_begin st1 u c a buffer n slot :
  smooth st st1 → is_Some (io_objects st !! u) → fits buffer n →
  (carries_fds a = true → is_socket c = true) → (∀ fds ep, a ≠ SendWithFds fds ep) →
  fine (start_op (IoOp u c a buffer n slot Pending) st1, Yield).
Proof.
  intros [T F] [o Hu] Hfit Hc Ha.
  assert (locks_of (IoOp u c a buffer n slot Pending) = []) as El.
  { unfold locks_of. simpl. destruct a; try done. by destruct (Ha fds remote_endpoint). }
  apply fine_start_op; [done..| |done]. split; rewrite ?El; try done; [| |constructor].
  - destruct (frame_objects _ _ F u o (good_fresh _ G) Hu) as (o' & Ho' & _). by exists o'.
  - rewrite (frame_memory _ _ F). exact Hfit.
Qed.

Lemma fine_begin_slot st1 u c a buffer n :
  smooth st st1 → is_Some (io_objects st !! u) → fits buffer n →
  (carries_fds a = true → is_socket c = true) → (∀ fds ep, a ≠ SendWithFds fds ep) →
  fine (start u c a buffer n st1).
Proof.
  intros S ????. unfold start. pose proof (smooth_interrupter st1) as S1.
  destruct (default_interrupter st1) as [st2 slot]. apply fine_begin; try done.
  by apply (smooth_trans _ st1).
Qed.

Lemma smooth_refl st1 : smooth st1 st1.
Proof. by apply smooth_plain. Qed.
#[local] Hint Resolve smooth_refl fits_nothing fits_span : core.

Ltac begins :=
  checks; (apply fine_begin_slot || apply fine_begin);
  [auto|by eexists|auto|by auto|done].

Lemma fine_some c reading L : fine (object_some c reading L st).
Proof. unfold object_some, start_transfer. begins. Qed.
Lemma fine_some_at c reading L : fine (object_some_at c reading L st).
Proof. unfold object_some_at, start_transfer. begins. Qed.
Lemma fine_pipe_some c reading L : fine (pipe_some c reading L st).
Proof. unfold pipe_some. checks. apply fine_begin; [by apply smooth_plain|by eexists|auto|done|done]. Qed.
Lemma fine_tcp_transfer reading L : fine (tcp_transfer reading L st).
Proof. unfold tcp_transfer, start_transfer. begins. Qed.
Lemma fine_packet c reading from L : fine (packet_transfer c reading from L st).
Proof. unfold packet_transfer, start_transfer. begins. Qed.
Lemma fine_accept c peer L : fine (object_accept c peer L st).
Proof. unfold object_accept. begins. Qed.
Lemma fine_receive_with_fds c skip from L :
  is_socket c = true → fine (receive_with_fds c skip from L st).
Proof.
  intros Hs. unfold receive_with_fds. checks. case_decide; [by apply fine_same|]. begins.
Qed.
Lemma fine_tcp_wait L : fine (tcp_wait L st).
Proof. unfold tcp_wait. checks. case_match; [begins|by apply fine_same]. Qed.
Lemma fine_udp_send_to L : fine (udp_send_to L st).
Proof.
  unfold udp_send_to, start_transfer. checks. apply fine_try.
  - intros ? ?. repeat (case_match; simplify_eq); done.
  - intros port _. begins.
Qed.

(** A path too long leaves the object busy. *)
Lemma fine_throw_busy u o : io_objects st !! u = Some o → fine (throw_busy u st).
Proof.
  intros Hu. unfold throw_busy. pose proof (smooth_interrupter st) as S.
  destruct (default_interrupter st) as [st1 slot]. destruct S as [T F]. simpl in *.
  apply fine_smooth; [done|]. apply (smooth_trans _ st1); [done|].
  destruct (frame_objects _ _ F u o (good_fresh _ G) Hu) as (o' & Ho' & _).
  assert (more_busy u st1 = set_io_object u (set_busy (nbusy o' + 1) o') st1) as ->.
  { unfold more_busy, set_io_object, Io.with_objects. f_equal. apply map_eq. intros v.
    rewrite lookup_alter, lookup_insert. case_decide; [subst; by rewrite Ho'|done]. }
  split.
  - apply transfer_moves; [|done].
    by rewrite owned_set_object, (owned_object st1 u o' Ho').
  - apply (frame_object _ _ o'); [done|simpl; lia].
Qed.
Lemma fine_unix_send_to L : fine (unix_send_to L st).
Proof.
  unfold unix_send_to, start_transfer. checks. case_match; [begins|by eapply fine_throw_busy].
Qed.

(** *** Messages with descriptors *)
Definition lockable (l : file_descriptor_lock) : Prop :=
  handles st !! reference l = Some (FileDescriptor (lock_value l) true) ∧
  lock_value l ≠ INVALID_FILE_DESCRIPTOR.

Lemma collect_locks_ok st1 i vs fds fds' :
  handles st1 = handles st → collect_locks i st1 vs fds = inr fds' →
  Forall lockable fds → NoDup (reference <$> fds) →
  Forall lockable fds' ∧ NoDup (reference <$> fds').
Proof.
  intros Eh. revert fds. induction vs as [|v vs IH]; intros fds E Hf Hn; simpl in E.
  - by simplify_eq.
  - rewrite Eh in E. destruct v; try done. destruct (handles st !! u) as [[n mt]|] eqn:Hh; [|done].
    destruct mt; [|done]. case_decide as Hb; [done|]. apply (IH _ E); case_decide; try done.
    + apply Forall_app. split; [done|]. apply Forall_singleton. by split.
    + rewrite fmap_app. apply NoDup_app. split_and!; [done| |apply NoDup_singleton].
      intros h Hin. cbn; rewrite list_elem_of_singleton. by intros ->.
Qed.

Lemma fine_send_locked u c bs i t ep o :
  io_objects st !! u = Some o → fits (data bs) (size bs) → is_socket c = true →
  fine (send_locked u c bs i t ep st).
Proof.
  intros Hu Hfit Hs. unfold send_locked. pose proof (smooth_interrupter st) as S.
  assert (handles (default_interrupter st).1 = handles st) as Eh.
  { unfold default_interrupter. by destruct (set_default_interrupter _). }
  destruct (default_interrupter st) as [st1 slot]. simpl in S, Eh.
  destruct (collect_locks _ _ _ _) as [a|fds] eqn:E.
  - apply fine_smooth; [by eapply quiet_locks|done].
  - destruct S as [T F]. destruct (collect_locks_ok st1 i _ [] fds Eh E) as [Hl Hn]; [done|constructor|].
    apply (fine_start st1 (IoOp u c (SendWithFds fds ep) (data bs) (size bs) slot Pending));
      [done..|]. split; try done.
    + destruct (frame_objects _ _ F u o (good_fresh _ G) Hu) as (o' & Ho' & _). by exists o'.
    + rewrite (frame_memory _ _ F). exact Hfit.
    + by rewrite Eh.
Qed.
Lemma fine_send_with_fds c L : is_socket c = true → fine (send_with_fds c L st).
Proof. intros Hs. unfold send_with_fds. checks. eapply fine_send_locked; eauto. Qed.
Lemma fine_send_to_with_fds L : fine (send_to_with_fds L st).
Proof. unfold send_to_with_fds. checks. eapply fine_send_locked; eauto. Qed.

(** ** Descriptors change hands *)

Lemma fine_from st1 st2 a :
  a ≠ Yield → transfer st st1 → good st1 → valid_ (vm st1) = true → smooth st1 st2 →
  fine (st2, a).
Proof.
  intros Ha T G1 Hv1 [T2 F2] _. assert (suspend a st2 = st2) as E by (by destruct a).
  simpl. rewrite E. split; [by transitivity st1|]. by apply (good_frame st1).
Qed.

Lemma fresh_smooth st1 : smooth st st1 → fresh st1.
Proof. intros [_ F]. apply (frame_fresh _ _ F), G. Qed.

Lemma smooth_new_object c st1 :
  fresh st1 → smooth st1 (new_io_object c INVALID_FILE_DESCRIPTOR st1).1.
Proof.
  intros Hf. split; [|apply frame_new_object]. apply transfer_moves; [|done].
  by rewrite owned_new_object.
Qed.

(** An object gets a descriptor, or loses it. *)
Lemma owned_native st1 u o n :
  io_objects st1 !! u = Some o →
  object_fds o ++ owned (set_io_object u (set_native n o) st1) ≡ₚ valid_fd n ++ owned st1.
Proof.
  intros Hu. rewrite owned_set_object, (owned_object st1 u o Hu).
  change (object_fds (set_native n o)) with (valid_fd n). solve_Permutation.
Qed.

Lemma frame_native st1 u o n :
  io_objects st1 !! u = Some o → frame st1 (set_io_object u (set_native n o) st1).
Proof. intros Hu. by apply (frame_object _ _ o). Qed.

Lemma owned_forget st1 h n :
  handles st1 !! h = Some (FileDescriptor n true) →
  owned st1 ≡ₚ valid_fd n ++ owned (forget_handle h n st1).
Proof.
  intros Hh. unfold forget_handle. by rewrite owned_set_handle, (owned_handle st1 h _ Hh).
Qed.
Lemma frame_forget st1 h n :
  handles st1 !! h = Some (FileDescriptor n true) → n ≠ INVALID_FILE_DESCRIPTOR →
  frame st1 (forget_handle h n st1).
Proof. intros Hh Hn. apply (frame_handle _ _ _ _ Hh). unfold busy_handle. congruence. Qed.

Lemma fine_hand_over st1 h n u o r vs :
  smooth st st1 → handles st1 !! h = Some (FileDescriptor n true) →
  n ≠ INVALID_FILE_DESCRIPTOR → io_objects st1 !! u = Some o →
  (r = None → is_open o = false) → fine (hand_over h n u o r vs st1).
Proof.
  intros S Hh Hn Hu Ho. unfold hand_over, asio_assign. destruct r as [ec|]; [apply fine_stuck|].
  apply fine_smooth; [done|]. apply (smooth_trans _ st1); [done|]. split.
  - apply transfer_moves; [|done]. rewrite (owned_forget st1 h n Hh).
    pose proof (owned_native (forget_handle h n st1) u o n Hu) as E.
    by rewrite object_fds_closed in E by auto.
  - transitivity (forget_handle h n st1); [by apply frame_forget|by apply frame_native].
Qed.

Lemma target_arg L u : arg L 1 = Some (LUserdata u) → target L = u.
Proof. intros Ha. unfold target. by rewrite Ha. Qed.

Lemma fine_assign c i r L : assign_allowed (target L) r st → fine (object_assign c i r L st).
Proof.
  intros Hr. unfold object_assign. checks. rewrite (target_arg _ _ Ha) in Hr.
  apply fine_hand_over; try done. intros ->. by apply Hr.
Qed.
Lemma fine_ip_assign c r L : assign_allowed (target L) r st → fine (ip_assign c r L st).
Proof.
  intros Hr. unfold ip_assign. checks. rewrite (target_arg _ _ Ha) in Hr.
  apply fine_hand_over; try done. intros ->. by apply Hr.
Qed.

Lemma fine_new c : fine (object_new c st).
Proof. apply fine_smooth; [done|]. apply smooth_new_object, G. Qed.
Lemma fine_new_from c r L : fine (object_new_from c r L st).
Proof.
  unfold object_new_from. case_decide; [apply fine_new|]. checks.
  apply fine_hand_over; try done; first [apply smooth_new_object, G|apply lookup_insert_eq].
Qed.

Lemma fine_close L : fine (file_descriptor_close L st).
Proof.
  unfold file_descriptor_close. checks. apply fine_smooth; [done|]. split.
  - eapply (transfer_closes _ _ _); [|done].
    rewrite (owned_forget st _ _ Hh), valid_fd_valid by done. by apply perm_skip.
  - etransitivity; [by eapply frame_forget|]. by apply frame_plain.
Qed.

Lemma fine_dup newfd L : dup_allowed newfd st → fine (file_descriptor_dup newfd L st).
Proof.
  intros Hr. unfold file_descriptor_dup. checks. destruct newfd as [|newfd]; [by apply fine_same|].
  destruct (descriptors st !! _) as [file|]; [|apply fine_stuck].
  destruct (Hr newfd eq_refl) as [Hp Hno]. apply fine_smooth; [done|]. split.
  - eapply (transfer_opens _ _ (newfd, file)); [done| |done].
    etransitivity; [apply (owned_new_handle (install (newfd, file) st)), G|].
    by rewrite valid_fd_nonneg.
  - transitivity (install (newfd, file) st); [by apply frame_plain|].
    apply (frame_new_handle newfd (install (newfd, file) st)).
Qed.

Lemma smooth_open u o fd :
  io_objects st !! u = Some o → install_allowed fd st → is_open o = false →
  smooth st (set_io_object u (set_native fd.1 o) (install fd st)).
Proof.
  intros Hu Hfd Hcl. split.
  - apply (transfer_opens _ _ fd); [done| |done].
    pose proof (owned_native (install fd st) u o fd.1 Hu) as E.
    rewrite object_fds_closed, valid_fd_nonneg in E by (apply Hfd || done). exact E.
  - transitivity (install fd st); [by apply frame_plain|by apply frame_native].
Qed.

Lemma fine_asio_open u o r vs :
  io_objects st !! u = Some o → open_allowed u r st →
  fine (let '(ec, st) := asio_open u o r st in (st, answer_ec ec vs)).
Proof.
  intros Hu Hr. unfold asio_open. destruct r as [ec|fd]; [by apply fine_same|].
  destruct Hr as [Hfd Hcl]. apply fine_smooth; [done|]. apply smooth_open; [done|done|by apply Hcl].
Qed.

Lemma fine_connect_to u o c ep r :
  io_objects st !! u = Some o → (∀ fd, r = inr fd → install_allowed fd st) →
  fine (connect_to u o c ep r st).
Proof.
  intros Hu Hr. unfold connect_to.
  assert (smooth st (auto_open u o r st).2) as Sm.
  { unfold auto_open. destruct (is_open o) eqn:Ho; [apply smooth_refl|].
    destruct r as [ec|fd]; [apply smooth_refl|]. apply smooth_open; [done|by apply Hr|done]. }
  destruct (auto_open u o r st) as [o' st1]. simpl in Sm.
  apply fine_begin_slot; [|by eexists|apply fits_nothing|done|done].
  apply (smooth_trans _ st1); [done|apply smooth_ask].
Qed.
Lemma fine_ip_connect c r L :
  (∀ fd, r = inr fd → install_allowed fd st) → fine (ip_connect c r L st).
Proof. intros Hr. unfold ip_connect. checks. by apply fine_connect_to. Qed.
Lemma fine_path_connect c r L :
  (∀ fd, r = inr fd → install_allowed fd st) → fine (path_connect c r L st).
Proof.
  intros Hr. unfold path_connect. checks. case_match; [by apply fine_connect_to|by eapply fine_throw_busy].
Qed.
Lemma fine_open c r L : open_allowed (target L) r st → fine (object_open c r L st).
Proof.
  intros Hr. unfold object_open. checks. rewrite (target_arg _ _ Ha) in Hr. by apply fine_asio_open.
Qed.
Lemma fine_ip_open c r L :
  (∀ p, open_allowed (target L) (r p) st) → fine (ip_open c r L st).
Proof.
  intros Hr. unfold ip_open. checks. rewrite (target_arg _ _ Ha) in Hr. by apply fine_asio_open.
Qed.
Lemma fine_file_open c r L :
  (∀ p flags, open_allowed (target L) (r p flags) st) → fine (file_open c r L st).
Proof.
  intros Hr. unfold file_open. checks. rewrite (target_arg _ _ Ha) in Hr. by apply fine_asio_open.
Qed.

Lemma fine_serial_open fd r L :
  (∀ p, fd_allowed (fd p) st) → assign_allowed (target L) r st → fine (serial_port_open fd r L st).
Proof.
  intros Hfd Hr. unfold serial_port_open. checks. rewrite (target_arg _ _ Ha) in Hr.
  specialize (Hfd (c_str x)). destruct (fd (c_str x)) as [|fd']; [by apply fine_same|].
  destruct r as [ec|]; [apply fine_stuck|]. pose proof (fine_asio_open _ _ (inr fd') [] Hu) as Hf.
  apply Hf. split; [done|]. by apply Hr.
Qed.

(** ** Closing *)
Lemma smooth_close st1 u o :
  io_objects st1 !! u = Some o → is_open o = true →
  smooth st1 (set_io_object u (set_native INVALID_FILE_DESCRIPTOR o)
    (sys_close (native_handle o) st1)).
Proof.
  intros Hu Ho. split.
  - apply (transfer_closes _ _ (native_handle o)); [|done].
    pose proof (owned_native (sys_close (native_handle o) st1) u o INVALID_FILE_DESCRIPTOR Hu) as E.
    rewrite object_fds_open in E by done. symmetry. exact E.
  - transitivity (sys_close (native_handle o) st1); [by apply frame_plain|by apply frame_native].
Qed.

Lemma fine_object_close c r L : fine (object_close c r L st).
Proof.
  unfold object_close. checks. unfold asio_close. destruct (is_open _) eqn:Ho; [|by apply fine_same].
  pose proof (abort_moved (on_object n) st) as (_ & Eo & _ & _ & _ & Ev & _).
  apply (fine_from (abort_ops (on_object n) st)); [done|apply abort_transfer|by apply good_abort| |].
  - by rewrite Ev.
  - apply smooth_close; [by rewrite Eo|done].
Qed.

Lemma fine_object_cancel c r L : fine (object_cancel c r L st).
Proof.
  unfold object_cancel. checks. unfold asio_cancel. destruct r; [by apply fine_same|].
  pose proof (abort_moved (on_object n) st) as (_ & Eo & _ & _ & _ & Ev & _).
  apply (fine_from (abort_ops (on_object n) st)); [done|apply abort_transfer|by apply good_abort| |].
  - by rewrite Ev.
  - apply smooth_refl.
Qed.

Lemma fine_object_release c checked r L :
  release_allowed (target L) r st → fine (object_release c checked r L st).
Proof.
  intros Hr. unfold object_release. checks. rewrite (target_arg _ _ Ha) in Hr.
  case_match; [by apply fine_same|]. unfold asio_release.
  destruct r as [ec|]; [by apply fine_same|]. specialize (Hr eq_refl _ Hu).
  pose proof (abort_moved (on_object n) st) as (Eh & Eo & _ & _ & El & Ev & _).
  apply (fine_from (abort_ops (on_object n) st)); [done|apply abort_transfer|by apply good_abort| |].
  - by rewrite Ev.
  - set (st1 := abort_ops (on_object n) st) in *. rewrite <- Eo in Hu.
    set (st2 := set_io_object n (set_native INVALID_FILE_DESCRIPTOR i) st1).
    assert (frame st1 st2) as F by by apply frame_native.
    assert (fresh st2) as Hf by apply (frame_fresh _ _ F), good_abort, G. split.
    + apply transfer_moves; [|done].
      etransitivity; [by apply (owned_new_handle st2)|].
      pose proof (owned_native st1 n i INVALID_FILE_DESCRIPTOR Hu) as E. exact E.
    + transitivity st2; [done|]. apply (frame_new_handle (native_handle i) st2).
Qed.

(** ** Two descriptors *)

Lemma smooth_opens2 st1 st2 fd1 fd2 :
  install_allowed fd1 st1 → install_allowed fd2 st1 → fd1.1 ≠ fd2.1 →
  owned st2 ≡ₚ fd1.1 :: fd2.1 :: owned st1 →
  descriptors st2 = <[fd2.1 := fd2.2]> (<[fd1.1 := fd1.2]> (descriptors st1)) →
  frame st1 st2 → smooth st1 st2.
Proof.
  intros A1 A2 Hne E Ed F. split; [|done].
  apply (transfer_general _ _ [fd1; fd2] [fd1.1; fd2.1] [] (owned st1)); rewrite ?Ed; try done.
  - repeat constructor; apply A1 || apply A2.
  - apply NoDup_cons. split; [by rewrite list_elem_of_singleton|apply NoDup_singleton].
  - intros n Hn. apply lookup_insert_is_Some'. destruct (decide (fd2.1 = n)); [by left|right].
    apply lookup_insert_is_Some'. left. set_solver.
  - intros n Hn. rewrite !lookup_insert_ne by set_solver. done.
Qed.

Lemma fine_pair c1 c2 r :
  call_allowed (CallPair c1 c2 r) [] st → fine (object_pair c1 c2 r st).
Proof.
  intros Hr. unfold object_pair.
  pose proof (smooth_new_object c1 st (good_fresh _ G)) as S1.
  pose proof (fresh_smooth _ S1) as Hf1.
  pose proof (smooth_new_object c2 _ Hf1) as S2.
  set (st1 := (new_io_object c1 INVALID_FILE_DESCRIPTOR st).1) in *.
  set (st2 := (new_io_object c2 INVALID_FILE_DESCRIPTOR st1).1) in *.
  assert (smooth st st2) as Sm by (by apply (smooth_trans _ st1)).
  change (new_io_object c1 INVALID_FILE_DESCRIPTOR st) with (st1, next_loc (vm st)).
  cbv beta iota.
  change (new_io_object c2 INVALID_FILE_DESCRIPTOR st1) with (st2, S (next_loc (vm st))).
  cbv beta iota. destruct r as [ec|[fd1 fd2]]; [by apply fine_smooth|].
  destruct Hr as ([? Hn1] & [? Hn2] & Hne).
  set (u1 := next_loc (vm st)). set (u2 := S u1).
  set (o1 := IoObject c1 INVALID_FILE_DESCRIPTOR 0). set (o2 := IoObject c2 INVALID_FILE_DESCRIPTOR 0).
  set (st3 := install fd2 (install fd1 st2)).
  assert (io_objects st3 !! u1 = Some o1) as Hu1.
  { simpl. rewrite lookup_insert_ne by (unfold u2; lia). apply lookup_insert_eq. }
  change (IoObject c1 fd1.1 0) with (set_native fd1.1 o1).
  change (IoObject c2 fd2.1 0) with (set_native fd2.1 o2).
  set (st4 := set_io_object u1 _ st3).
  assert (io_objects st4 !! u2 = Some o2) as Hu2.
  { unfold st4. simpl. rewrite lookup_insert_ne by (unfold u2; lia). apply lookup_insert_eq. }
  apply fine_smooth; [done|]. apply (smooth_trans _ st2); [done|].
  apply (smooth_opens2 _ _ fd1 fd2); try done.
  - pose proof (owned_native st4 u2 o2 fd2.1 Hu2) as E2.
    pose proof (owned_native st3 u1 o1 fd1.1 Hu1) as E1. fold st4 in E1.
    rewrite (object_fds_closed o1) in E1 by done. rewrite (object_fds_closed o2) in E2 by done.
    rewrite valid_fd_nonneg in E1, E2 by done. simpl in E1, E2. rewrite E2, E1.
    rewrite (owned_plain st2 st3) by done. by apply perm_swap.
  - transitivity st3; [by apply frame_plain|]. transitivity st4; by apply frame_native.
Qed.

Lemma fine_serial_release newfd r L :
  dup_allowed newfd st → fine (serial_port_release newfd r L st).
Proof.
  intros Hd. unfold serial_port_release. checks. case_decide as Ho; [by apply fine_same|].
  destruct newfd as [|newfd]; [by apply fine_same|].
  destruct (descriptors st !! native_handle i) as [file|] eqn:Hfile; [|apply fine_stuck].
  destruct (Hd newfd eq_refl) as [Hp Hno]. simpl in Hp, Hno.
  assert (is_open i = true) as Hop by by apply bool_decide_true. unfold asio_close. rewrite Hop.
  set (st1 := install (newfd, file) st). set (st2 := abort_ops (on_object n) st1).
  pose proof (abort_moved (on_object n) st1) as (Eh & Eo & _ & Ed & El & Ev & _). fold st2 in Eh, Eo, Ed, El, Ev.
  set (st3 := set_io_object n _ _).
  assert (frame st2 st3) as F3.
  { transitivity (sys_close (native_handle i) st2); [by apply frame_plain|].
    apply frame_native. simpl. by rewrite Eo. }
  assert (good st1) as G1 by (apply (good_frame st); [by apply frame_plain|done|done]).
  assert (good st2) as G2 by by apply good_abort.
  assert (good st3) as G3 by (apply (good_frame st2); [done|by rewrite Ev|done]).
  intros _. simpl. split.
  2: { apply (good_frame st3); [apply (frame_new_handle newfd st3)| |done].
       rewrite (frame_valid _ _ F3). by rewrite Ev. }
  assert (newfd ≠ native_handle i) as Hne by congruence.
  pose proof (owned_native (sys_close (native_handle i) st2) n i INVALID_FILE_DESCRIPTOR) as E.
  fold st3 in E. rewrite (object_fds_open i Hop) in E.
  specialize (E ltac:(simpl; by rewrite Eo)). simpl in E.
  rewrite (owned_plain st2 (sys_close _ st2)) in E by done. unfold st2 in E at 1. rewrite abort_owned in E.
  rewrite (owned_plain st st1) in E by done.
  apply (transfer_general _ _ [(newfd, file)] [newfd] [native_handle i] (owned st3)).
  - by repeat constructor.
  - apply NoDup_singleton.
  - done.
  - symmetry. exact E.
  - etransitivity; [apply (owned_new_handle st3), G3|]. by rewrite valid_fd_nonneg.
  - intros m ->%list_elem_of_singleton. simpl. rewrite Ed. simpl.
    rewrite lookup_delete_ne, lookup_insert_eq by done. by eexists.
  - intros m Hm. simpl. rewrite Ed. simpl. case_decide as Hin.
    + apply list_elem_of_singleton in Hin as ->. apply lookup_delete_eq.
    + rewrite lookup_delete_ne, lookup_insert_ne by set_solver. done.
Qed.

Lemma fine_ptypair master grant unlock name slave r :
  call_allowed (CallPtyPair master grant unlock name slave r) [] st →
  fine (serial_ptypair master grant unlock name slave r st).
Proof.
  intros (Hm & Hs & Hne). unfold serial_ptypair. destruct master as [|master]; [by apply fine_same|].
  assert (∀ errno : Z, fine (sys_close master.1 (install master st), error (System_code errno)))
    as Hfails.
  { intros errno. apply fine_smooth; [done|]. apply smooth_plain; try done. simpl.
    apply delete_insert_id, Hm. }
  destruct grant; [done|]. destruct unlock; [done|]. destruct name; [done|].
  destruct slave as [|slave]; [done|]. destruct r as [ec|]; [apply fine_stuck|]. cbn -[fine].
  set (st1 := install slave (install master st)).
  set (st2 := (new_io_object serial_port INVALID_FILE_DESCRIPTOR st1).1).
  set (o := IoObject serial_port INVALID_FILE_DESCRIPTOR 0).
  set (st3 := set_io_object (next_loc (vm st)) (set_native master.1 o) st2).
  change (fine ((new_handle slave.1 st3).1, Return [RV (LUserdata (next_loc (vm st)));
    RV (LUserdata (next_loc (vm st3)))])).
  assert (io_objects st2 !! next_loc (vm st) = Some o) as Hu by apply lookup_insert_eq.
  assert (frame st st3) as F.
  { transitivity st1; [by apply frame_plain|].
    transitivity st2; [apply frame_new_object|by apply frame_native]. }
  assert (fresh st3) as Hf by apply (frame_fresh _ _ F), G.
  apply fine_smooth; [done|].
  apply (smooth_opens2 _ _ master slave); [done|done|by apply Hne| |done|].
  - etransitivity; [by apply (owned_new_handle st3)|].
    pose proof (owned_native st2 _ o master.1 Hu) as E. fold st3 in E.
    rewrite (object_fds_closed o) in E by done. simpl in E. rewrite E.
    unfold st2. rewrite owned_new_object by apply G.
    rewrite (owned_plain st st1) by done. rewrite !valid_fd_nonneg by (apply Hs || apply Hm).
    simpl. apply perm_swap.
  - transitivity st3; [done|]. apply frame_new_handle.
Qed.

Theorem call_fine c L : call_allowed c L st → fine (call c L st).
Proof.
  destruct c; simpl call; intros Hc.
  - apply fine_close.
  - by apply fine_dup.
  - apply fine_cap_get.
  - apply fine_cap_set.
  - apply fine_new.
  - apply fine_new_from.
  - by apply fine_pair.
  - by apply fine_open.
  - by apply fine_ip_open.
  - by apply fine_file_open.
  - by apply fine_serial_open; apply Hc.
  - by apply fine_assign.
  - by apply fine_ip_assign.
  - apply fine_object_close.
  - apply fine_object_cancel.
  - by apply fine_object_release.
  - by apply fine_serial_release.
  - by apply fine_ptypair.
  - apply fine_ip_bind.
  - apply fine_path_bind.
  - apply fine_listen.
  - apply fine_shutdown.
  - apply fine_disconnect.
  - apply fine_io_control.
  - apply fine_is_open.
  - apply fine_endpoint_address.
  - apply fine_endpoint_port.
  - apply fine_some.
  - apply fine_pipe_some.
  - apply fine_some_at.
  - apply fine_tcp_transfer.
  - apply fine_packet.
  - apply fine_udp_send_to.
  - apply fine_unix_send_to.
  - by apply fine_ip_connect.
  - by apply fine_path_connect.
  - apply fine_accept.
  - apply fine_tcp_wait.
  - by apply fine_receive_with_fds.
  - by apply fine_send_with_fds.
  - apply fine_send_to_with_fds.
Qed.
End calls.
