(* ===== verification/IoHandlers.v ===== *)
(** Every handler ends its operation, or waits again, and keeps the invariant. *)
From S2P Require Import Prelude Errors Lua LuaTable ByteSpan ByteSpanFacts Vm FiberOps.
From S2P Require Import SpawnArgs Io IoObjects IoOperations IoSteps IoSpec.
#[local] Open Scope Z_scope.

(** * Changes handlers make *)

Lemma good_memory_change st m :
  wf m → grows (memory st) m → good st → good (with_memory (λ _, m) st).
Proof.
  intros W Gr G. split; [apply G|done| |apply G|by apply (good_ops_same st)].
  intros f op Hf. pose proof (good_regions _ G f op Hf) as R. unfold region_ok in *. simpl.
  destruct (op_buffer op) as [[b off]|]; [|done]. destruct R as (? & ? & buf & Hb & ?).
  split_and!; [done..|]. destruct (grows_buffer _ _ _ _ Gr Hb) as (buf' & ? & E).
  exists buf'. by rewrite E.
Qed.

Lemma good_handles st m :
  valid_ (vm st) = true → good st → (∀ u, (next_loc (vm st) ≤ u)%nat → m !! u = None) →
  (∀ f op l, ops st !! f = Some op → l ∈ locks_of op →
     m !! reference l = handles st !! reference l) →
  good (with_handles (λ _, m) st).
Proof.
  intros Hv G Hf Hm. split; [|apply G|apply G|apply G|].
  - intros u Hu. split; [by apply Hf|]. by apply (good_fresh _ G).
  - simpl. rewrite Hv. destruct (good_waiting _ G Hv) as [W1 W2 W3 W4 W5 W6 W7 W8 W9 W10].
    split; try done. simpl. intros f op l Hop Hl. rewrite (Hm f op l) by done. by eapply W8.
Qed.

Lemma not_busy_ok st u o :
  valid_ (vm st) = true → good st → io_objects st !! u = Some o →
  Z.of_nat (busy_ops u (ops st)) + 1 ≤ nbusy o →
  ∃ st', not_busy u st = Some st' ∧ good st' ∧ owned st' ≡ₚ owned st ∧
    st' = set_io_object u (set_busy (nbusy o - 1) o) st.
Proof.
  intros Hv G Hu Hb. unfold not_busy. rewrite Hu. eexists. split; [done|]. split_and!; [| |done].
  - split; [|apply G|apply G|apply G|].
    + intros v Hn. destruct (good_fresh _ G v Hn) as [? Hno]. split; [done|]. simpl.
      rewrite lookup_insert_ne; [done|]. intros ->. congruence.
    + simpl. rewrite Hv. destruct (good_waiting _ G Hv) as [W1 W2 W3 W4 W5 W6 W7 W8 W9 W10].
      split; try done; simpl.
      * intros f op Hop. apply lookup_insert_is_Some'. right. by eapply W1.
      * intros v o' [[<- <-]|[_ Ho]]%lookup_insert_Some; [simpl; lia|by apply W2].
  - by rewrite owned_set_object, (owned_object st u o Hu).
Qed.

Lemma resume_ok st f args :
  valid_ (vm st) = true → good st → ops st !! f = None →
  f ∉ task_fiber <$> strand (vm st) → threads (vm st) !! f = Some CoSuspended →
  ∃ st', resume f args st = Some st' ∧ good st' ∧ running (vm st') f ∧
    handles st' = handles st ∧ io_objects st' = io_objects st ∧ ops st' = ops st ∧
    descriptors st' = descriptors st ∧ valid_ (vm st') = true.
Proof.
  intros Hv G Hf Hq Ht. unfold resume, Vm.fiber_resume. rewrite Hv, Ht. simpl.
  eexists. split; [done|]. split_and!; try done.
  - split; [apply G|apply G|apply G|apply G|]. simpl. rewrite Hv.
    destruct (good_waiting _ G Hv) as [W1 W2 W3 W4 W5 W6 W7 W8 W9 W10]. split; try done; simpl.
    + intros g op Hop. rewrite lookup_insert_ne by congruence. by eapply W3.
    + intros g Hg [x Hx]. simpl in Hx. apply lookup_insert_Some in Hx as [[<- _]|[_ Hx]]; [done|].
      apply (W5 g Hg). by exists x.
  - eexists. apply lookup_insert_eq.
Qed.

(** ** Buffers *)
Lemma write_buffer_ok op data st :
  good st → region_ok (buffers (memory st)) op → length data ≤ op_size op → Forall is_byte data →
  ∃ m, write_buffer op data st = Some (with_memory (λ _, m) st) ∧ wf m ∧ grows (memory st) m.
Proof.
  intros G R Hl Hb. unfold write_buffer, region_ok in *.
  destruct (op_buffer op) as [[b off]|].
  - destruct R as (? & ? & buf & Hbuf & ?).
    destruct (write_ok (memory st) b off data buf) as (m & E & W & Gr & _);
      [apply G|done|split_and!; lia|done|]. exists m. by rewrite E.
  - assert (data = []) as -> by (destruct data; [done|]; simpl in Hl; lia).
    rewrite decide_True by done. exists (memory st). split_and!; [by destruct st|apply G|done].
Qed.

Lemma read_buffer_ok op st :
  good st → region_ok (buffers (memory st)) op → ∃ data, read_buffer op st = Some data ∧
    Z.of_nat (length data) = op_size op ∧ Forall is_byte data.
Proof.
  intros G R. unfold read_buffer, region_ok in *. destruct (op_buffer op) as [[b off]|].
  - destruct R as (? & ? & buf & Hbuf & ?). apply (load_ok (memory st) (Region b off (op_size op))).
    + apply (good_memory _ G).
    + exists buf. split; [done|]. split_and!; lia.
  - exists []. rewrite R. split_and!; try done.
Qed.

(** ** Unlocking *)
Fixpoint unlocked (fds : list file_descriptor_lock) (m : gmap loc file_descriptor_handle) :
    gmap loc file_descriptor_handle :=
  match fds with
  | [] => m
  | l :: fds => unlocked fds (<[reference l := FileDescriptor (lock_value l) true]> m)
  end.

Lemma unlocked_lookup fds m h : h ∉ reference <$> fds → unlocked fds m !! h = m !! h.
Proof.
  revert m. induction fds as [|l fds IH]; intros m Hn; [done|]. cbn in *.
  rewrite IH by set_solver. apply lookup_insert_ne. set_solver.
Qed.

Lemma unlocked_in fds m l :
  NoDup (reference <$> fds) → l ∈ fds →
  unlocked fds m !! reference l = Some (FileDescriptor (lock_value l) true).
Proof.
  revert m. induction fds as [|l' fds IH]; intros m Hn Hl; [by apply elem_of_nil in Hl|].
  cbn in *. apply NoDup_cons in Hn as [Hnot Hn]. apply elem_of_cons in Hl as [->|Hl]; [|by apply IH].
  rewrite unlocked_lookup by done. apply lookup_insert_eq.
Qed.

Lemma unlock_ok fds st :
  Forall (λ l, handles st !! reference l = Some busy_handle) fds → NoDup (reference <$> fds) →
  unlock_handles fds st = Some (with_handles (λ _, unlocked fds (handles st)) st).
Proof.
  revert st. induction fds as [|[h n] fds IH]; intros st Hl Hn; simpl; [by destruct st|].
  apply Forall_cons in Hl as [Hh Hl]. cbn in Hn. apply NoDup_cons in Hn as [Hnot Hn].
  simpl in Hh. rewrite Hh. simpl. rewrite IH; [done| |done].
  rewrite Forall_forall in *. intros l Hin. simpl. rewrite lookup_insert_ne; [by apply Hl|].
  intros ->. apply Hnot. by apply list_elem_of_fmap_2.
Qed.

Lemma unlocked_owned fds m :
  Forall (λ l, m !! reference l = Some busy_handle) fds → NoDup (reference <$> fds) →
  all_of handle_fds (unlocked fds m) ≡ₚ ((lock_value <$> fds) ≫= valid_fd) ++ all_of handle_fds m.
Proof.
  revert m. induction fds as [|l fds IH]; intros m Hl Hn; [done|]. cbn in *.
  apply Forall_cons in Hl as [Hh Hl]. apply NoDup_cons in Hn as [Hnot Hn]. rewrite IH; [|clear IH..|done].
  - rewrite all_of_insert, (all_of_delete _ m _ _ Hh). cbn. solve_Permutation.
  - rewrite Forall_forall in *. intros l' Hin. rewrite lookup_insert_ne; [by apply Hl|].
    intros E. apply Hnot. rewrite E. by apply list_elem_of_fmap_2.
Qed.

Lemma valid_fds l : Forall (λ n, 0 ≤ n) l → l ≫= valid_fd = l.
Proof.
  induction 1 as [|n l Hn Hl IH]; [done|]. cbn. rewrite IH. by rewrite valid_fd_nonneg.
Qed.

Section handlers.
Context `{LuaApi} `{LocalPaths}.

(** ** New handles *)
Lemma push_handles_ok fds i tb st :
  fresh st → Forall (λ n, 0 ≤ n) fds →
  owned (push_handles fds i tb st).1 ≡ₚ fds ++ owned st ∧ frame st (push_handles fds i tb st).1 ∧
  descriptors (push_handles fds i tb st).1 = descriptors st.
Proof.
  revert i tb st. induction fds as [|n fds IH]; intros i tb st Hf Hn; simpl; [done|].
  apply Forall_cons in Hn as [Hn Hfds].
  change (let '(st0, h) := new_handle n st in push_handles fds (i + 1) (rawseti (i + 1) (LUserdata h) tb) st0)
    with (push_handles fds (i + 1) (rawseti (i + 1) (LUserdata (next_loc (vm st))) tb) (new_handle n st).1).
  pose proof (frame_new_handle n st) as F.
  destruct (IH (i + 1) (rawseti (i + 1) (LUserdata (next_loc (vm st))) tb) _ (frame_fresh _ _ F Hf) Hfds)
    as (E & F' & Ed).
  split_and!.
  - rewrite E, (owned_new_handle st n Hf), valid_fd_nonneg by done. solve_Permutation.
  - by transitivity (new_handle n st).1.
  - exact Ed.
Qed.

Lemma push_fds_plain fds st :
  memory (push_fds fds st).1 = memory st ∧ descriptors (push_fds fds st).1 = descriptors st ∧
  valid_ (vm (push_fds fds st).1) = valid_ (vm st).
Proof.
  assert (∀ fds i tb s, memory (push_handles fds i tb s).1 = memory s ∧
    descriptors (push_handles fds i tb s).1 = descriptors s ∧
    valid_ (vm (push_handles fds i tb s).1) = valid_ (vm s)) as Hp.
  { clear. induction fds as [|n fds IH]; intros i tb s; [done|]. exact (IH (i + 1) _ (new_handle n s).1). }
  unfold push_fds. simpl. specialize (Hp fds 0 empty_table (with_vm (with_next_loc S) st)).
  by destruct (push_handles _ _ _ _).
Qed.

(** The table they are put in. *)
Lemma push_handles_table fds (i : nat) tb st :
  table_wf tb → (slots tb).*1 = index_keys i → (i + length fds < 2 ^ 53) →
  let r := push_handles fds i tb st in
  ∃ hs, Forall2 (λ h n, handles r.1 !! h = Some (FileDescriptor n true)) hs fds ∧
    table_wf r.2 ∧ (slots r.2).*1 = index_keys (i + length fds) ∧
    (∀ j, (j < i)%nat → rawgeti r.2 (Z.of_nat (Datatypes.S j)) = rawgeti tb (Z.of_nat (Datatypes.S j))) ∧
    (∀ j h, hs !! j = Some h →
       rawgeti r.2 (Z.of_nat (Datatypes.S (i + j))) = LUserdata h) ∧
    (∀ h, (h < next_loc (vm st))%nat → handles r.1 !! h = handles st !! h) ∧
    lua_tables r.1 = lua_tables st.
Proof.
  revert i tb st. induction fds as [|n fds IH]; intros i tb st Hwf Hk Hl; cbn [length] in Hl.
  - exists []. simpl. rewrite Nat.add_0_r. split_and!; try done.
  - destruct (rawseti_append tb i (LUserdata (next_loc (vm st))) Hwf Hk) as (Hwf' & Hk' & Hnth & Hsame);
      [done|lia|]. set (tb' := rawseti (Z.of_nat (Datatypes.S i)) (LUserdata (next_loc (vm st))) tb) in *.
    specialize (IH (Datatypes.S i) tb' (new_handle n st).1 Hwf' Hk').
    assert (push_handles (n :: fds) i tb st = push_handles fds (Z.of_nat (Datatypes.S i)) tb' (new_handle n st).1)
      as ->.
    { unfold tb'. replace (Z.of_nat (Datatypes.S i)) with (Z.of_nat i + 1) by lia. done. }
    destruct IH as (hs & Hhs & W & K & Hold & Hnew & Hh & Et); [lia|]. clear Hwf Hk.
    set (r := push_handles fds _ tb' _) in *. exists (next_loc (vm st) :: hs). split_and!.
    + constructor; [|done]. rewrite Hh by (simpl; lia). apply lookup_insert_eq.
    + done.
    + rewrite K. f_equal. simpl. lia.
    + intros j Hj. rewrite Hold by lia. by apply Hsame.
    + intros [|j] h Hj; simpl in Hj.
      * simplify_eq. rewrite Nat.add_0_r, Hold by lia. exact Hnth.
      * replace (i + Datatypes.S j)%nat with (Datatypes.S i + j)%nat by lia. by apply Hnew.
    + intros h Hlt. rewrite Hh by (simpl; lia). simpl. apply lookup_insert_ne. lia.
    + done.
Qed.

Lemma push_fds_table fds st :
  (length fds < 2 ^ 53) →
  let r := push_fds fds st in
  ∃ t tb hs, r.2 = AValue (LTable t) ∧ lua_tables r.1 !! t = Some tb ∧
    ipairs tb = LUserdata <$> hs ∧
    Forall2 (λ h n, handles r.1 !! h = Some (FileDescriptor n true)) hs fds.
Proof.
  intros Hl. unfold push_fds. simpl. set (st1 := with_vm (with_next_loc Datatypes.S) st).
  assert (table_wf empty_table) as Hwf.
  { split_and!; [constructor|constructor|done]. }
  destruct (push_handles_table fds 0 empty_table st1 Hwf eq_refl) as (hs & Hhs & W & K & _ & Hnew & _ & _);
    [simpl; lia|].
  simpl in *. change (Z.of_nat 0) with 0 in *. destruct (push_handles fds 0 empty_table st1) as [st2 tb]. simpl in *.
  eexists _, tb, hs. split_and!; [done|apply lookup_insert_eq| |exact Hhs].
  assert (length (slots tb) = length fds) as Elen by (by apply (index_keys_length _ _ K)).
  pose proof (Forall2_length _ _ _ Hhs) as Eh.
  rewrite elements_plain; [|done|].
  - apply list_eq. intros j. rewrite !list_lookup_fmap.
    destruct (hs !! j) as [h|] eqn:Hj; simpl.
    + rewrite lookup_seq_lt by (apply lookup_lt_Some in Hj; lia). simpl. f_equal. by apply Hnew.
    + rewrite lookup_seq_ge; [done|]. apply lookup_ge_None in Hj. lia.
  - intros j Hj. destruct (hs !! j) as [h|] eqn:Hjh; [by rewrite (Hnew j h Hjh)|].
    apply lookup_ge_None in Hjh. lia.
Qed.

Lemma push_fds_ok fds st :
  fresh st → Forall (λ n, 0 ≤ n) fds →
  owned (push_fds fds st).1 ≡ₚ fds ++ owned st ∧ frame st (push_fds fds st).1 ∧
  descriptors (push_fds fds st).1 = descriptors st.
Proof.
  intros Hf Hn. unfold push_fds. simpl. set (st1 := with_vm (with_next_loc S) st).
  assert (frame st st1) as F1 by (apply frame_plain; try done; simpl; lia).
  pose proof (push_handles_ok fds 0 empty_table st1 (frame_fresh _ _ F1 Hf) Hn) as (E & F & Ed).
  destruct (push_handles fds 0 empty_table st1) as [st2 tb]. simpl in *. split_and!.
  - rewrite (owned_plain st2) by done. rewrite E. by rewrite (owned_plain st st1).
  - transitivity st1; [done|]. transitivity st2; [done|]. by apply frame_plain.
  - done.
Qed.

(** ** Descriptors that come and go *)
Lemma close_all_lookup fds st n :
  descriptors (close_all fds st) !! n = if decide (n ∈ fds) then None else descriptors st !! n.
Proof.
  induction fds as [|m fds IH]; [done|].
  change (descriptors (close_all (m :: fds) st)) with (delete m (descriptors (close_all fds st))).
  destruct (decide (n = m)) as [->|Hne].
  - rewrite lookup_delete_eq, decide_True by set_solver. done.
  - rewrite lookup_delete_ne, IH by done. apply decide_ext. set_solver.
Qed.

Lemma install_all_lookup opened st n :
  n ∉ opened.*1 → descriptors (foldr install st opened) !! n = descriptors st !! n.
Proof.
  induction opened as [|fd l IH]; [done|]. cbn. intros Hn.
  rewrite lookup_insert_ne by set_solver. apply IH. set_solver.
Qed.
Lemma install_all_some opened st n :
  n ∈ opened.*1 → is_Some (descriptors (foldr install st opened) !! n).
Proof.
  induction opened as [|fd l IH]; cbn; [by intros ?%elem_of_nil|].
  intros [->|Hn]%elem_of_cons; apply lookup_insert_is_Some'; [by left|right; by apply IH].
Qed.

Lemma install_all_value opened st fd :
  NoDup opened.*1 → fd ∈ opened → descriptors (foldr install st opened) !! fd.1 = Some fd.2.
Proof.
  induction opened as [|fd' l IH]; cbn; [by intros _ ?%elem_of_nil|].
  intros [Hnot Hnd]%NoDup_cons [->|Hin]%elem_of_cons; [apply lookup_insert_eq|].
  rewrite lookup_insert_ne; [by apply IH|]. intros E. apply Hnot. rewrite E.
  by apply list_elem_of_fmap_2.
Qed.

(** Nothing but the table of descriptors changes. *)
Definition rest (st : io_state) : io_state := with_descriptors (λ _, ∅) st.
Lemma install_all_rest opened st : rest (foldr install st opened) = rest st.
Proof. induction opened as [|fd l IH]; [done|]. simpl. by rewrite <- IH. Qed.
Lemma close_all_rest fds st : rest (close_all fds st) = rest st.
Proof. unfold close_all. induction fds as [|fd l IH]; [done|]. simpl. by rewrite <- IH. Qed.

Lemma rest_owned st st' : rest st' = rest st → owned st' = owned st.
Proof.
  intros E. exact (owned_plain _ _ (f_equal handles E) (f_equal io_objects E) (f_equal ops E)).
Qed.
Lemma rest_good st st' : rest st' = rest st → good st → good st'.
Proof.
  intros E G. destruct st, st'. unfold rest, with_descriptors in E. simpl in E. injection E as -> -> -> -> -> -> -> ->.
  split; [exact (good_fresh _ G)|exact (good_memory _ G)|exact (good_regions _ G)|
    exact (good_peers _ G)|eapply good_ops_same; [..|exact G]; reflexivity].
Qed.

(** * The task of an operation *)
Section run.
Context (st : io_state) (G : good st) (O : owning st) (Hv : valid_ (vm st) = true).
Context (f : loc) (opts : options) (q : list task) (op : io_op) (c : completion).
Context (Hq : strand (vm st) = FiberResume f opts :: q).
Context (Hop : ops st !! f = Some op) (Hdone : op_progress op = Completed c).

Definition popped : io_state := with_ops (delete f) (with_vm (with_strand (λ _, q)) st).

(** The operation is gone, and its fiber runs; or it waits again, when the kernel
    is not ready ([again]). *)
Context (again : Prop).
Record handled (st' : io_state) : Prop := {
  handled_transfer : transfer st st';
  handled_good : good st';
  handled_end :
    (ops st' = delete f (ops st) ∧ running (vm st') f) ∨
    (again ∧ ops st' = <[f := set_progress Pending op]> (ops st));
}.

(** What holds until the fiber is resumed. *)
Record ready (st1 : io_state) : Prop := {
  ready_good : good st1;
  ready_valid : valid_ (vm st1) = true;
  ready_ops : ops st1 = delete f (ops st);
  ready_strand : strand (vm st1) = q;
  ready_threads : threads (vm st1) = threads (vm st);
}.

Lemma once_queued : f ∉ task_fiber <$> q.
Proof.
  pose proof (wait_once _ (good_waiting _ G Hv)) as N. rewrite Hq in N. cbn in N.
  by apply NoDup_cons in N as [].
Qed.

Lemma popped_locks g x l :
  delete f (ops st) !! g = Some x → l ∈ locks_of x → ¬ locked_by (reference l) (locks_of op).
Proof.
  intros [Hne Hx]%lookup_delete_Some Hl (l' & E & Hl')%list_elem_of_fmap. apply Hne.
  by apply (wait_locked_once _ (good_waiting _ G Hv) f g op x l' l).
Qed.

Lemma popped_ready : ready popped.
Proof.
  split; try done. split; [exact (good_fresh _ G)|exact (good_memory _ G)| | |].
  - intros g x Hx. change (delete f (ops st) !! g = Some x) in Hx.
    apply lookup_delete_Some in Hx as [_ Hx]. by apply (good_regions _ G g).
  - intros g x Hx. change (delete f (ops st) !! g = Some x) in Hx.
    apply lookup_delete_Some in Hx as [_ Hx]. by apply (good_peers _ G g).
  - simpl. rewrite Hv. destruct (good_waiting _ G Hv) as [W1 W2 W3 W4 W5 W6 W7 W8 W9 W10].
    pose proof once_queued as Hnq. rewrite Hq in W4, W5, W6. cbn in W4, W5, W6.
    split; simpl.
    + intros g x [_ Hx]%lookup_delete_Some. by eapply W1.
    + intros u o Hu. specialize (W2 u o Hu). rewrite (busy_delete u f op) in W2 by done. lia.
    + intros g x [_ Hx]%lookup_delete_Some. by eapply W3.
    + by apply NoDup_cons in W4 as [].
    + intros g Hg. apply W5. by right.
    + intros g x [Hne Hx]%lookup_delete_Some. rewrite (W6 g x Hx), elem_of_cons. naive_solver.
    + intros g x [_ Hx]%lookup_delete_Some. by eapply W7.
    + intros g x l [_ Hx]%lookup_delete_Some. by eapply W8.
    + intros g g' x x' l l' [_ Hx]%lookup_delete_Some [_ Hx']%lookup_delete_Some. by eapply W9.
    + intros g x [_ Hx]%lookup_delete_Some. by eapply W10.
Qed.

Lemma ready_frame st1 st2 : frame st1 st2 → ready st1 → ready st2.
Proof.
  intros F [A1 A2 A3 A4 A5]. split.
  - by apply (good_frame st1).
  - by rewrite (frame_valid _ _ F).
  - by rewrite (frame_ops _ _ F).
  - by rewrite (frame_strand _ _ F).
  - by rewrite (frame_threads _ _ F).
Qed.

Lemma ready_rest st1 st2 : rest st2 = rest st1 → ready st1 → ready st2.
Proof.
  intros E [A1 A2 A3 A4 A5]. assert (vm st2 = vm st1 ∧ ops st2 = ops st1) as [Ev Eo]
    by exact (conj (f_equal vm E) (f_equal ops E)).
  split; rewrite ?Ev, ?Eo; try done. by apply (rest_good st1).
Qed.

(** [not_busy], of the operation's object. *)
Lemma ready_not_busy st1 :
  is_socket (op_class op) = true → ready st1 → io_objects st1 = io_objects st →
  ∃ st2, not_busy (op_object op) st1 = Some st2 ∧ ready st2 ∧ owned st2 ≡ₚ owned st1 ∧
    descriptors st2 = descriptors st1 ∧ handles st2 = handles st1 ∧ memory st2 = memory st1.
Proof.
  intros Hs R Eo. pose proof R as [A1 A2 A3 A4 A5].
  pose proof (good_waiting _ G Hv) as W. destruct (wait_object _ W f op Hop) as [o Ho].
  pose proof (wait_busy _ W _ _ Ho) as Hb. rewrite (busy_delete _ f op) in Hb by done.
  rewrite decide_True in Hb by done.
  destruct (not_busy_ok st1 (op_object op) o) as (st2 & E & G2 & Eown & E2); [done|done|by rewrite Eo| |].
  - rewrite A3. lia.
  - exists st2. subst st2. split_and!; try done.
Qed.

Lemma ready_socket k :
  ∃ st1, on_socket op k popped = k st1 ∧ ready st1 ∧ owned st1 ≡ₚ owned popped ∧
    descriptors st1 = descriptors st.
Proof.
  unfold on_socket. destruct (is_socket (op_class op)) eqn:Hs.
  - simpl. rewrite Hv. destruct (ready_not_busy popped) as (st1 & E & R & Eo & Ed & _); [done|apply popped_ready|done|].
    exists st1. by rewrite E.
  - exists popped. split_and!; try done. apply popped_ready.
Qed.

(** The fiber is resumed. *)
Lemma ready_resume args st1 :
  ready st1 →
  ∃ st2, resume f args st1 = Some st2 ∧ good st2 ∧ ops st2 = delete f (ops st) ∧
    running (vm st2) f ∧ owned st2 = owned st1 ∧ descriptors st2 = descriptors st1.
Proof.
  intros [A1 A2 A3 A4 A5]. destruct (resume_ok st1 f args) as (st2 & E & G2 & Hr & Eh & Ei & Eo & Ed & _).
  - done.
  - done.
  - rewrite A3. apply lookup_delete_eq.
  - rewrite A4. apply once_queued.
  - rewrite A5. by apply (wait_suspended _ (good_waiting _ G Hv) f op).
  - exists st2. split_and!; try done; [by rewrite Eo|by apply owned_plain].
Qed.

Lemma handled_resume args st1 :
  ready st1 → transfer st st1 →
  ∃ st', resume f args st1 = Some st' ∧ handled st'.
Proof.
  intros R T. destruct (ready_resume args st1 R) as (st2 & E & G2 & Eo & Hr & Eown & Ed).
  exists st2. split; [done|]. split; [|done|by left]. transitivity st1; [done|].
  apply transfer_moves; [by rewrite Eown|done].
Qed.

Lemma owned_popped : owned st ≡ₚ op_fds op ++ owned popped.
Proof. rewrite (owned_op st f op Hop). by rewrite (owned_plain (with_ops (delete f) st) popped). Qed.

Lemma peer_none : (∀ p, op_action op ≠ Accept p) → peer_fds op = [].
Proof.
  intros Ha. unfold peer_fds. rewrite Hdone.
  destruct (good_peers _ G f op Hop c Hdone) as [[_ [p Hp]]| ->]; [by destruct (Ha p)|done].
Qed.

(** Nothing of the operation is owned. *)
Lemma transfer_popped st1 :
  op_fds op = [] → owned st1 ≡ₚ owned popped → descriptors st1 = descriptors st → transfer st st1.
Proof. intros E Eo Ed. apply transfer_moves; [|done]. by rewrite owned_popped, E, Eo. Qed.

Lemma push_sender_ok s st1 :
  frame st1 (push_sender s st1).1 ∧ owned (push_sender s st1).1 = owned st1 ∧
  descriptors (push_sender s st1).1 = descriptors st1.
Proof.
  destruct s as [[a port|p]|]; simpl; [| |done];
    (split_and!; [apply frame_plain; try done; simpl; lia|by apply owned_plain|done]).
Qed.

Lemma handled_transfer_op reading from eof :
  op_action op = Transfer reading from eof →
  ∃ st', on_transfer f op eof c popped = Some st' ∧ handled st'.
Proof.
  intros Ha. unfold on_transfer. set (ec := if _ && _ then _ else _). clearbody ec.
  destruct (ready_socket (λ st, let '(st, sender) := push_sender (remote_sender c) st in
    resume f (push_ec ec :: push_number (bytes_transferred c) :: sender) st))
    as (st1 & -> & R & Eo & Ed).
  destruct (push_sender_ok (remote_sender c) st1) as (F & Eo2 & Ed2).
  destruct (push_sender (remote_sender c) st1) as [st2 sender]. simpl in *.
  apply handled_resume; [by apply (ready_frame st1)|]. apply transfer_popped.
  - unfold op_fds, locked_fds. by rewrite peer_none, Ha by (by rewrite Ha).
  - by rewrite Eo2.
  - by rewrite Ed2.
Qed.

Lemma handled_connect :
  op_action op = Connect ∨ op_action op = Wait →
  ∃ st', on_connect f op c popped = Some st' ∧ handled st'.
Proof.
  intros Ha. unfold on_connect.
  destruct (ready_socket (resume f [push_ec (completion_ec c)])) as (st1 & -> & R & Eo & Ed).
  apply handled_resume; [done|]. apply transfer_popped; [|done|done].
  unfold op_fds, locked_fds. rewrite peer_none by (by destruct Ha as [-> | ->]).
  by destruct Ha as [-> | ->].
Qed.

Lemma handled_accept p :
  op_action op = Accept p → ∃ st', on_accept f p c popped = Some st' ∧ handled st'.
Proof.
  intros Ha. unfold on_accept. simpl. rewrite Hv.
  assert (op_fds op = valid_fd (peer c)) as Ef.
  { unfold op_fds, locked_fds, peer_fds. by rewrite Ha, Hdone. }
  destruct (completion_ec c) as [ec|] eqn:Hec.
  - apply handled_resume; [apply popped_ready|]. apply transfer_popped; [|done|done].
    destruct (good_peers _ G f op Hop c Hdone) as [[? _]|E]; [congruence|]. by rewrite Ef, E.
  - set (st1 := (new_io_object p (peer c) popped).1).
    change (new_io_object p (peer c) popped) with (st1, next_loc (vm st)). cbv beta iota.
    apply handled_resume; [apply (ready_frame popped); [exact (frame_new_object p (peer c) popped)|apply popped_ready]|].
    apply transfer_moves; [|done]. unfold st1. rewrite owned_popped, Ef.
    apply (owned_new_object popped), (ready_good _ popped_ready).
Qed.

(** ** Messages with descriptors *)
Lemma ready_memory st1 m :
  wf m → grows (memory st1) m → ready st1 → ready (with_memory (λ _, m) st1).
Proof. intros W Gr [A1 A2 A3 A4 A5]. split; try done. by apply good_memory_change. Qed.

Lemma op_socket : carries_fds (op_action op) = true → is_socket (op_class op) = true.
Proof. by apply (wait_class _ (good_waiting _ G Hv) f). Qed.

Lemma handled_again :
  again → carries_fds (op_action op) = true → handled (wait_again f op popped).
Proof.
  intros Hagain Ha.
  assert (ops (wait_again f op popped) = <[f := set_progress Pending op]> (ops st)) as Eo.
  { unfold wait_again. simpl. by rewrite insert_delete_eq. }
  assert (owned (wait_again f op popped) ≡ₚ owned st) as Eown.
  { unfold wait_again. rewrite owned_set_op, owned_popped. unfold op_fds. simpl.
    rewrite peer_none by (intros p Hp; by rewrite Hp in Ha).
    change (locked_fds (set_progress Pending op)) with (locked_fds op).
    rewrite (owned_plain popped (with_ops (delete f) popped)); [done..|]. simpl.
    by rewrite delete_delete_eq. }
  split; [by apply transfer_moves| |by right].
  destruct popped_ready as [P1 P2 P3 P4 P5]. pose proof once_queued as Hnq.
  split; [exact (good_fresh _ G)|exact (good_memory _ G)| | |]; unfold wait_again.
  - intros g x Hx. simpl in Hx. apply lookup_insert_Some in Hx as [[<- <-]|[_ Hx]].
    + exact (good_regions _ G f op Hop).
    + by apply (good_regions _ P1 g).
  - intros g x Hx. simpl in Hx. apply lookup_insert_Some in Hx as [[<- <-]|[_ Hx]]; [by intros c'|].
    by apply (good_peers _ P1 g).
  - simpl. rewrite Hv. pose proof (good_waiting _ G Hv) as W0.
    destruct (good_waiting _ P1 P2) as [W1 W2 W3 W4 W5 W6 W7 W8 W9 W10].
    split; try done; simpl.
    + intros g x [[<- <-]|[_ Hx]]%lookup_insert_Some; [by apply (wait_object _ W0 f op)|by eapply W1].
    + intros u o Hu. rewrite insert_delete_eq, (busy_same u f op) by done. by apply (wait_busy _ W0).
    + intros g x [[<- <-]|[_ Hx]]%lookup_insert_Some; [by apply (wait_suspended _ W0 f op)|by eapply W3].
    + intros g x [[<- <-]|[_ Hx]]%lookup_insert_Some; [|by apply W6]. by split.
    + intros g x [[<- <-]|[_ Hx]]%lookup_insert_Some; [by apply (wait_class _ W0 f op)|by eapply W7].
    + intros g x l [[<- <-]|[_ Hx]]%lookup_insert_Some; [by apply (wait_locks _ W0 f op)|by eapply W8].
    + intros g g' x x' l l' Hx Hx' Hl Hl' E.
      assert (∀ g x l, <[f := set_progress Pending op]> (delete f (ops st)) !! g = Some x →
        l ∈ locks_of x → ∃ y, ops st !! g = Some y ∧ l ∈ locks_of y) as Hsame.
      { clear - Hop. intros g x l [[<- <-]|[_ Hx]]%lookup_insert_Some Hl; [by exists op|].
        apply lookup_delete_Some in Hx as [_ Hx]. by exists x. }
      destruct (Hsame g x l Hx Hl) as (y & ? & ?), (Hsame g' x' l' Hx' Hl') as (y' & ? & ?).
      by apply (wait_locked_once _ W0 g g' y y' l l').
    + intros g x [[<- <-]|[_ Hx]]%lookup_insert_Some;
        [by apply (wait_references _ W0 f op)|by eapply W10].
Qed.

(** An error, or the end of the stream. *)
Lemma handled_error args :
  carries_fds (op_action op) = true → op_fds op = [] →
  ∃ st', (st ← not_busy (op_object op) popped; resume f args st) = Some st' ∧ handled st'.
Proof.
  intros Ha E. destruct (ready_not_busy popped) as (st1 & -> & R & Eo & Ed & _);
    [by apply op_socket|apply popped_ready|done|].
  apply handled_resume; [done|]. by apply transfer_popped.
Qed.

(** Close what is left. *)
Lemma handled_close st2 fds st' :
  good st2 → ops st2 = delete f (ops st) → running (vm st2) f → st' = close_all fds st2 →
  transfer st st' → handled st'.
Proof.
  intros G2 Eo Hr -> T. pose proof (close_all_rest fds st2) as E.
  assert (vm (close_all fds st2) = vm st2 ∧ ops (close_all fds st2) = ops st2) as [E1 E2]
    by exact (conj (f_equal vm E) (f_equal ops E)).
  split; [done|by apply (rest_good st2)|]. left. by rewrite E1, E2.
Qed.

(** What [recvmsg] may answer. *)
Definition recvmsg_allowed (r : recvmsg_answer) : Prop :=
  match r with
  | Received data _ _ _ control opened =>
      Forall is_byte data ∧ length data ≤ op_size op ∧
      (control ≫= rights) = opened.*1 ∧ NoDup opened.*1 ∧
      Forall (λ fd, install_allowed fd st) opened
  | _ => True
  end.

(** The descriptors it opened: [K] were kept, the rest closed. *)
Lemma transfer_received opened K E st1 st' :
  Forall (λ fd, install_allowed fd st) opened → NoDup opened.*1 → opened.*1 = K ++ E →
  descriptors st1 = descriptors (foldr install popped opened) → op_fds op = [] →
  owned st' ≡ₚ K ++ owned popped → descriptors st' = descriptors (close_all E st1) →
  transfer st st'.
Proof.
  intros Hop' Hnd EK E1 Ef Eown Ed. rewrite EK in Hnd. apply NoDup_app in Hnd as (HK & HKE & _).
  apply (transfer_general _ _ opened K [] (owned st)); try done.
  - rewrite EK. set_solver.
  - by rewrite Eown, owned_popped, Ef.
  - intros n Hn. rewrite Ed, close_all_lookup, decide_False by (by apply HKE). rewrite E1.
    apply install_all_some. rewrite EK. set_solver.
  - intros n Hn. rewrite Ed, close_all_lookup. rewrite (decide_False (P := n ∈ [])) by apply not_elem_of_nil.
    case_decide as HE.
    + rewrite Forall_forall in Hop'. assert (n ∈ opened.*1) as Hin by (rewrite EK; set_solver).
      apply list_elem_of_fmap in Hin as (fd & -> & Hin). symmetry. by apply Hop'.
    + rewrite E1, install_all_lookup; [done|]. rewrite EK. set_solver.
Qed.

Lemma push_path_ok p st1 :
  frame st1 (push_path p st1).1 ∧ owned (push_path p st1).1 = owned st1 ∧
  descriptors (push_path p st1).1 = descriptors st1.
Proof.
  destruct p as [p|]; simpl; [|done].
  split_and!; [apply frame_plain; try done; simpl; lia|by apply owned_plain|done].
Qed.

Lemma handled_receive maxfds skip from r :
  op_action op = ReceiveWithFds maxfds skip from → recvmsg_allowed r →
  (r = RecvWouldBlock → again) →
  ∃ st', on_receive_with_fds f op maxfds skip from c r popped = Some st' ∧ handled st'.
Proof.
  intros Ha Hr Hagain. unfold on_receive_with_fds. change (valid_ (vm popped)) with (valid_ (vm st)).
  rewrite Hv. simpl negb. cbv iota.
  assert (carries_fds (op_action op) = true) as Hc by (by rewrite Ha).
  assert (op_fds op = []) as Ef.
  { unfold op_fds, locked_fds. by rewrite peer_none, Ha by (by rewrite Ha). }
  destruct (completion_ec c) as [ec|]; [by apply handled_error|].
  destruct r as [|errno|data namelen is_unix sun_path control opened].
  - eexists. split; [done|]. by apply handled_again; [apply Hagain|].
  - by apply handled_error.
  - destruct Hr as (Hb & Hl & Ectl & Hnd & Hopen). rewrite Ectl.
    set (st1 := foldr install popped opened).
    assert (rest st1 = rest popped) as Er1 by apply install_all_rest.
    assert (ready st1) as R1 by (apply (ready_rest popped); [done|apply popped_ready]).
    assert (memory st1 = memory st ∧ io_objects st1 = io_objects st) as [Em1 Ei1]
      by exact (conj (f_equal memory Er1) (f_equal io_objects Er1)).
    destruct (write_buffer_ok op data st1) as (m & -> & W & Gr); [apply R1| |done|done|].
    { rewrite Em1. by apply (good_regions _ G f). }
    simpl. destruct (ready_not_busy (with_memory (λ _, m) st1)) as (st2 & -> & R2 & Eo2 & Ed2 & _);
      [by apply op_socket|by apply ready_memory|done|]. simpl.
    assert (owned st2 ≡ₚ owned popped) as Eown2.
    { rewrite Eo2, (owned_plain st1) by done. by rewrite (rest_owned _ _ Er1). }
    destruct (negb skip && bool_decide (data = [])).
    + destruct (ready_resume [AError (Misc_code Asio.misc_errors.eof)] st2 R2)
        as (st3 & -> & G3 & Eo3 & Hr3 & Eown3 & Ed3). simpl.
      eexists. split; [done|]. apply (handled_close st3 opened.*1); try done.
      apply (transfer_received opened [] opened.*1 st3); try done.
      * by rewrite Ed3, Ed2.
      * rewrite (rest_owned _ _ (close_all_rest _ _)). by rewrite Eown3, Eown2.
    + set (K := take (Z.to_nat maxfds) opened.*1). set (E := drop (Z.to_nat maxfds) opened.*1).
      assert (opened.*1 = K ++ E) as EK by (unfold K, E; by rewrite take_drop).
      assert (Forall (λ n, 0 ≤ n) K) as HK.
      { apply Forall_take, Forall_fmap. eapply Forall_impl; [exact Hopen|]. by intros fd []. }
      set (sent := if from then _ else _).
      assert (frame st2 sent.1 ∧ owned sent.1 = owned st2 ∧ descriptors sent.1 = descriptors st2)
        as (F3 & Eown3 & Ed3).
      { unfold sent. destruct from; [|done].
        pose proof (push_path_ok (received_path namelen is_unix sun_path) st2) as X.
        by destruct (push_path _ st2). }
      destruct sent as [st3 sender]. simpl in F3, Eown3, Ed3.
      pose proof (ready_frame _ _ F3 R2) as R3.
      destruct (push_fds_ok K st3) as (Eown4 & F4 & Ed4); [apply R3|done|].
      destruct (push_fds K st3) as [st4 tb]. simpl in F4, Eown4, Ed4.
      pose proof (ready_frame _ _ F4 R3) as R4.
      destruct (ready_resume (ANil :: push_number (length data) :: sender ++ [tb]) st4 R4)
        as (st5 & -> & G5 & Eo5 & Hr5 & Eown5 & Ed5). simpl.
      eexists. split; [done|]. apply (handled_close st5 E); try done.
      apply (transfer_received opened K E st5); try done.
      * by rewrite Ed5, Ed4, Ed3, Ed2.
      * rewrite (rest_owned _ _ (close_all_rest _ _)).
        by rewrite Eown5, Eown4, Eown3, Eown2.
Qed.

(** The handles get their descriptors back. *)
Lemma ready_unlock fds ep st1 :
  op_action op = SendWithFds fds ep → ready st1 → handles st1 = handles st →
  owned st1 ≡ₚ owned popped →
  ∃ st2, unlock_handles fds st1 = Some st2 ∧ ready st2 ∧ owned st2 ≡ₚ owned st ∧
    descriptors st2 = descriptors st1.
Proof.
  intros Ha R Eh Eown. pose proof (good_waiting _ G Hv) as W. pose proof R as [A1 A2 A3 A4 A5].
  assert (locks_of op = fds) as El by (unfold locks_of; by rewrite Ha).
  assert (Forall (λ l, handles st1 !! reference l = Some busy_handle) fds) as Hb.
  { rewrite Forall_forall. intros l Hl. rewrite Eh. apply (wait_locks _ W f op); [done|by rewrite El]. }
  assert (NoDup (reference <$> fds)) as Hn by (rewrite <- El; by apply (wait_references _ W f op)).
  eexists. split; [by apply unlock_ok|]. split_and!; [|clear R A1 A2 A3 A4 A5|done].
  - split; try done. apply good_handles; [done|done| |].
    + intros u Hu. destruct (good_fresh _ A1 u Hu) as [Hno _]. rewrite unlocked_lookup; [done|].
      intros (l & -> & Hl)%list_elem_of_fmap. rewrite Forall_forall in Hb.
      specialize (Hb l Hl). simpl in Hb. congruence.
    + intros g x l Hx Hl. apply unlocked_lookup. rewrite A3 in Hx. rewrite <- El.
      by apply (popped_locks g x l).
  - rewrite owned_popped. unfold op_fds. rewrite peer_none by (by rewrite Ha).
    assert (locked_fds op = lock_value <$> fds) as -> by (unfold locked_fds; by rewrite Ha).
    rewrite app_nil_r, <- Eown. unfold owned at 1. simpl. rewrite unlocked_owned by done.
    rewrite valid_fds; [unfold owned; solve_Permutation|].
    rewrite Forall_forall. intros n Hin. apply (own_nonneg _ O), (own_open _ O).
    rewrite owned_popped. unfold op_fds, locked_fds. rewrite Ha. set_solver.
Qed.

Lemma handled_unlock fds ep args st0 :
  op_action op = SendWithFds fds ep → ready st0 → handles st0 = handles st →
  io_objects st0 = io_objects st → owned st0 ≡ₚ owned popped → descriptors st0 = descriptors st →
  ∃ st', (st ← not_busy (op_object op) st0; st ← unlock_handles fds st; resume f args st) = Some st' ∧
    handled st'.
Proof.
  intros Ha R Eh Ei Eown Ed.
  destruct (ready_not_busy st0) as (st1 & -> & R1 & Eo1 & Ed1 & Eh1 & _);
    [apply op_socket; by rewrite Ha|done|done|]. simpl.
  destruct (ready_unlock fds ep st1) as (st2 & -> & R2 & Eo2 & Ed2); [done|done|by rewrite Eh1| |].
  { by rewrite Eo1. }
  simpl. apply handled_resume; [done|]. apply transfer_moves; [done|]. by rewrite Ed2, Ed1.
Qed.

Lemma handled_send fds ep r :
  op_action op = SendWithFds fds ep → (completion_ec c = None → path_fits ep = true) →
  (r = SendWouldBlock → again) →
  ∃ st', on_send_with_fds f op fds ep c r popped = Some st' ∧ handled st'.
Proof.
  intros Ha Hfit Hagain. unfold on_send_with_fds. change (valid_ (vm popped)) with (valid_ (vm st)).
  rewrite Hv. simpl negb. cbv iota. destruct (completion_ec c) as [ec|].
  { by apply (handled_unlock fds ep); [|apply popped_ready|..]. }
  rewrite Hfit by done. change (io_objects popped) with (io_objects st).
  destruct (wait_object _ (good_waiting _ G Hv) f op Hop) as [o ->]. simpl.
  destruct (read_buffer_ok op popped) as (data & -> & _); [apply popped_ready|exact (good_regions _ G f op Hop)|].
  simpl. destruct r as [|errno|n].
  - eexists. split; [done|]. apply handled_again; [by apply Hagain|]. by rewrite Ha.
  - by apply (handled_unlock fds ep); [|apply popped_ready|..].
  - apply (handled_unlock fds ep); try done.
    apply (ready_frame popped); [by apply frame_plain|apply popped_ready].
Qed.
End run.
End handlers.
