(* ===== verification/IoInvariant.v ===== *)
(** Every step keeps the invariant, and every descriptor that is not the VM's. *)
From S2P Require Import Prelude Errors Lua LuaTable ByteSpan ByteSpanFacts Vm FiberOps.
From S2P Require Import SpawnArgs Io IoObjects IoOperations IoSteps IoSpec.
From S2P Require Import IoCalls IoHandlers.
#[local] Open Scope Z_scope.

Section steps.
Context `{LuaApi} `{MakeAddress} `{LocalPaths}.

(** What a step promises. *)
Definition keeps (st st' : io_state) : Prop := transfer st st' ∧ good st'.

(** * Tasks *)

Lemma transfer_closes_all st st' fds :
  owned st ≡ₚ fds ++ owned st' → (∀ n, descriptors st' !! n = descriptors (close_all fds st) !! n) →
  transfer st st'.
Proof.
  intros E Ed. apply (transfer_general _ _ [] [] fds (owned st')); try done.
  - constructor.
  - set_solver.
  - intros n _. by rewrite Ed, close_all_lookup.
Qed.

Lemma ended_resume f opts v : valid_ v = false → Vm.fiber_resume f opts v = Some v.
Proof. intros Hv. unfold Vm.fiber_resume. by rewrite Hv. Qed.

(** After the end of the VM a handler only lets go of what its operation holds. *)
Lemma ended_popped st f opts q :
  good st → valid_ (vm st) = false → strand (vm st) = FiberResume f opts :: q →
  good (popped st f q).
Proof.
  intros G Hv Hq. split; [exact (good_fresh _ G)|exact (good_memory _ G)| | |].
  - intros g x Hx. simpl in Hx. apply lookup_delete_Some in Hx as [_ Hx]. by apply (good_regions _ G g).
  - intros g x Hx. simpl in Hx. apply lookup_delete_Some in Hx as [_ Hx]. by apply (good_peers _ G g).
  - simpl. rewrite Hv. destruct (good_ended _ G Hv) as [W1 W2 W3]. split; [done|done|].
    intros g x Hx. simpl in Hx. apply lookup_delete_Some in Hx as [Hne Hx].
    destruct (W3 g x Hx) as [Hp Hin]. split; [done|]. rewrite Hq in Hin. cbn in Hin. set_solver.
Qed.

Lemma ended_handler st f opts q op c k st' :
  good st → valid_ (vm st) = false → strand (vm st) = FiberResume f opts :: q →
  ops st !! f = Some op → op_progress op = Completed c →
  on_completion f op c k (popped st f q) = Some st' → keeps st st'.
Proof.
  intros G Hv Hq Hop Hc E. pose proof (ended_popped st f opts q G Hv Hq) as G1.
  pose proof (owned_popped st f q op Hop) as Eo.
  assert (valid_ (vm (popped st f q)) = false) as Hv1 by done.
  assert ((∀ p, op_action op ≠ Accept p) → peer_fds op = []) as Hp
    by (by apply (peer_none st G f op c Hop Hc)).
  assert (∀ args, resume f args (popped st f q) = Some (popped st f q)) as Hr.
  { intros args. unfold resume, Vm.fiber_resume. by rewrite Hv1. }
  assert (op_fds op = [] → st' = popped st f q → keeps st st') as Hsame.
  { intros Ef ->. split; [|done]. apply transfer_moves; [|done]. by rewrite Eo, Ef. }
  unfold on_completion in E.
  destruct (op_action op) as [| |pc|rd frm eof|maxfds skip frm|fds ep] eqn:Ha.
  1, 2: apply Hsame; [unfold op_fds, locked_fds; by rewrite Ha, Hp|];
    unfold on_connect, on_socket in E; rewrite Hv1, Hr in E; destruct (is_socket _); by simplify_eq.
  - assert (op_fds op = valid_fd (peer c)) as Ef.
    { unfold op_fds, locked_fds, peer_fds. by rewrite Ha, Hc. }
    unfold on_accept in E. rewrite Hv1 in E. simplify_eq.
    case_decide as Hpe.
    + apply Hsame; [|done]. rewrite Ef. unfold valid_fd. by rewrite decide_True.
    + split; [|by apply (rest_good (popped st f q))]. apply (transfer_closes_all _ _ [peer c]); [|done].
      rewrite Eo, Ef, valid_fd_valid by done. by rewrite (owned_plain (popped st f q) (sys_close (peer c) (popped st f q))).
  - unfold on_transfer, on_socket in E. rewrite Hv1 in E.
    assert (op_fds op = []) as Ef by (unfold op_fds, locked_fds; by rewrite Ha, Hp).
    destruct (is_socket _); [apply Hsame; by simplify_eq|].
    destruct (push_sender_ok (remote_sender c) (popped st f q)) as (F & Eo2 & Ed2).
    assert (ops (push_sender (remote_sender c) (popped st f q)).1 = delete f (ops st) ∧
      handles (push_sender (remote_sender c) (popped st f q)).1 = handles st ∧
      io_objects (push_sender (remote_sender c) (popped st f q)).1 = io_objects st) as (E1 & E2 & E3).
    { by destruct (remote_sender c) as [[]|]. }
    destruct (push_sender _ _) as [st1 sender]. simpl in F, Eo2, Ed2, E1, E2, E3, E. unfold resume, Vm.fiber_resume in E.
    rewrite (frame_valid _ _ F), Hv1 in E. simpl in E. assert (st' = st1) as ->.
    { injection E as <-. by destruct st1. }
    split.
    + apply transfer_moves; [|by rewrite Ed2]. by rewrite Eo, Ef, Eo2.
    + split.
      * by apply (frame_fresh _ _ F), G1.
      * rewrite (frame_memory _ _ F). apply G1.
      * rewrite (frame_memory _ _ F), (frame_ops _ _ F). apply G1.
      * rewrite (frame_ops _ _ F). apply G1.
      * apply (good_ops_same (popped st f q)); try done; apply F.
  - unfold on_receive_with_fds in E. rewrite Hv1 in E. simpl in E. apply Hsame; [|by simplify_eq].
    unfold op_fds, locked_fds. by rewrite Ha, Hp.
  - unfold on_send_with_fds in E. rewrite Hv1 in E. simpl in E. simplify_eq.
    assert (op_fds op = lock_value <$> fds) as Ef.
    { unfold op_fds, locked_fds. by rewrite Ha, Hp, app_nil_r. }
    split; [|by apply (rest_good (popped st f q)); [apply close_all_rest|]].
    apply (transfer_closes_all _ _ (lock_value <$> fds)).
    + by rewrite Eo, Ef, (rest_owned _ _ (close_all_rest _ _)).
    + intros n. by rewrite !close_all_lookup.
Qed.

(** It does not crash, and nothing is queued. *)
Lemma ended_progress st f opts q op c k :
  valid_ (vm st) = false → strand (vm st) = FiberResume f opts :: q →
  ∃ st', on_completion f op c k (popped st f q) = Some st' ∧ strand (vm st') = q ∧
    valid_ (vm st') = false ∧ ops st' = delete f (ops st).
Proof.
  intros Hv Hq. assert (valid_ (vm (popped st f q)) = false) as Hv1 by done.
  assert (∀ args v g, valid_ v = false → resume f args (with_vm (λ _, v) g) = Some (with_vm (λ _, v) g))
    as Hr.
  { intros args v g E. unfold resume. simpl. by rewrite ended_resume. }
  unfold on_completion, on_connect, on_transfer, on_accept, on_receive_with_fds, on_send_with_fds, on_socket.
  rewrite Hv1. destruct (op_action op) as [| |pc|rd frm eof|maxfds skip frm|fds ep]; simpl negb; cbv iota.
  1, 2: destruct (is_socket _);
    [by eexists|eexists; split; [by apply (Hr _ (vm (popped st f q)) (popped st f q))|done]].
  - eexists. split; [done|]. by case_decide.
  - destruct (is_socket _); [by eexists|].
    destruct (remote_sender c) as [[a port|p]|]; simpl; unfold resume; simpl;
      rewrite ended_resume by done; simpl; by eexists.
  - by eexists.
  - eexists. split; [done|].
    pose proof (close_all_rest (lock_value <$> fds) (popped st f q)) as E.
    pose proof (f_equal vm E) as E1. pose proof (f_equal ops E) as E2. simpl in E1, E2.
    by rewrite E1, E2.
Qed.

(** The kernel has no message, or no room for one, after all. *)
Definition would_block (k : kernel_answer) : Prop :=
  recvmsg_result k = RecvWouldBlock ∨ sendmsg_result k = SendWouldBlock.

Lemma run_handler st f opts q op c k :
  good st → owning st → valid_ (vm st) = true → strand (vm st) = FiberResume f opts :: q →
  ops st !! f = Some op → op_progress op = Completed c → kernel_allowed k st →
  (∀ fds ep, op_action op = SendWithFds fds ep → completion_ec c = None → path_fits ep = true) →
  ∃ st', on_completion f op c k (popped st f q) = Some st' ∧ handled st f op (would_block k) st'.
Proof.
  intros G O Hv Hq Hop Hc Hk Hfit. unfold on_completion, would_block. destruct (op_action op) eqn:Ha.
  - eapply handled_connect; eauto.
  - eapply handled_connect; eauto.
  - eapply handled_accept; eauto.
  - eapply handled_transfer_op; eauto.
  - eapply handled_receive; eauto. unfold kernel_allowed, recvmsg_allowed in *.
    destruct (recvmsg_result k); try done. destruct Hk as (? & Hl & ?). split_and!; try tauto.
    by apply (Hl f opts q).
  - eapply handled_send; eauto.
Qed.

Lemma on_completion_some st f opts q op c k st' :
  good st → owning st → valid_ (vm st) = true → strand (vm st) = FiberResume f opts :: q →
  ops st !! f = Some op → op_progress op = Completed c → kernel_allowed k st →
  on_completion f op c k (popped st f q) = Some st' → handled st f op (would_block k) st'.
Proof.
  intros G O Hv Hq Hop Hc Hk E.
  destruct (run_handler st f opts q op c k) as (st2 & E2 & Hh); try done; [|by simplify_eq].
  intros fds ep Ha Hec. unfold on_completion, on_send_with_fds in E. rewrite Ha in E.
  change (valid_ (vm (popped st f q))) with (valid_ (vm st)) in E. rewrite Hv, Hec in E.
  simpl in E. by destruct (path_fits ep).
Qed.

(** A task of another module: a fiber that does not wait for an operation. *)
Lemma run_other st f opts q vm' :
  good st → valid_ (vm st) = true → strand (vm st) = FiberResume f opts :: q →
  ops st !! f = None → Vm.fiber_resume f opts (with_strand (λ _, q) (vm st)) = Some vm' →
  keeps st (with_vm (λ _, vm') st).
Proof.
  intros G Hv Hq Hf E. unfold Vm.fiber_resume in E. simpl in E. rewrite Hv in E.
  assert (∃ args, threads vm' = <[f := CoRunning args]> (threads (vm st)) ∧ strand vm' = q ∧
    valid_ vm' = true ∧ next_loc vm' = next_loc (vm st)) as (args & Et & Es & Ev & El).
  { destruct (threads (vm st) !! f) as [[]|]; try done; destruct (skip_clear_interrupter opts);
      simplify_eq; by eexists. }
  split; [by apply transfer_plain|]. split; simpl.
  - intros u Hu. simpl in Hu. rewrite El in Hu. by apply (good_fresh _ G).
  - apply G.
  - apply G.
  - apply G.
  - rewrite Ev. destruct (good_waiting _ G Hv) as [W1 W2 W3 W4 W5 W6 W7 W8 W9 W10].
    rewrite Hq in W4, W5, W6. cbn in W4, W5, W6. apply NoDup_cons in W4 as [Hnot W4].
    split; simpl; rewrite ?Es, ?Et; try done.
    + intros g op Hop. rewrite lookup_insert_ne by congruence. by eapply W3.
    + intros g Hg [a Ha]. rewrite Et in Ha.
      apply lookup_insert_Some in Ha as [[-> _]|[_ Ha]]; [done|]. apply (W5 g); [by right|]. by exists a.
    + intros g op Hop. rewrite (W6 g op Hop), elem_of_cons. split; [|by right].
      intros [->|Hg]; [congruence|done].
Qed.

Lemma ended_other st f opts q :
  good st → valid_ (vm st) = false → strand (vm st) = FiberResume f opts :: q →
  ops st !! f = None → keeps st (with_vm (with_strand (λ _, q)) st).
Proof.
  intros G Hv Hq Hop. split; [by apply transfer_plain|].
  split; [exact (good_fresh _ G)|exact (good_memory _ G)|exact (good_regions _ G)|exact (good_peers _ G)|].
  simpl. rewrite Hv. destruct (good_ended _ G Hv) as [W1 W2 W3]. split; [done|done|].
  simpl. intros g op Hg. destruct (W3 g op Hg) as [? Hin]. split; [done|].
  rewrite Hq in Hin. cbn in Hin. apply elem_of_cons in Hin as [->|Hin]; [congruence|done].
Qed.

Lemma io_run_task_keeps k st st' :
  owning st → good st → kernel_allowed k st → run_task k st = Some st' → keeps st st'.
Proof.
  intros O G Hk E. unfold run_task in E. destruct (strand (vm st)) as [|[f opts] q] eqn:Hq; [done|].
  change (ops (with_vm (with_strand (λ _, q)) st)) with (ops st) in E.
  destruct (ops st !! f) as [op|] eqn:Hop.
  - destruct (op_progress op) as [|c] eqn:Hc; [done|].
    change (with_ops _ _) with (popped st f q) in E. destruct (valid_ (vm st)) eqn:Hv.
    + destruct (on_completion_some st f opts q op c k st') as [T G' _]; done.
    + by eapply ended_handler.
  - destruct (valid_ (vm st)) eqn:Hv.
    + destruct (Vm.fiber_resume _ _ _) as [vm'|] eqn:Er; [|done]. simpl in E. simplify_eq.
      by eapply (run_other st f opts q).
    + rewrite ended_resume in E by done. simpl in E.
      simplify_eq. by apply (ended_other st f opts q).
Qed.

(** * The reactor *)
Lemma complete_keeps f c st st0 op :
  good st → transfer st0 st → ops st !! f = Some op → is_pending op = true →
  peer c = INVALID_FILE_DESCRIPTOR → keeps st0 (complete f c st).
Proof.
  intros G T Hf Hp Hpe. split.
  - transitivity st; [done|]. apply transfer_moves.
    + rewrite (complete_owned f c st op) by done. by rewrite Hpe.
    + apply complete_moved.
  - apply (good_complete f c st op); try done. intros c' [= <-]. by right.
Qed.

Lemma reactor_keeps f a st st' :
  good st → reactor_allowed f a st → reactor f a st = Some st' → keeps st st'.
Proof.
  intros G Ha E. unfold reactor in E. destruct (ops st !! f) as [op|] eqn:Hf; [|done]. simpl in E.
  destruct (is_pending op) eqn:Hp; [|done].
  assert (∀ c, peer c = INVALID_FILE_DESCRIPTOR → keeps st (complete f c st)) as Hsame.
  { intros c Hc. apply (complete_keeps f c st st op); done. }
  destruct a as [ec| |data s|n|fd].
  - assert (st' = complete f (failed op ec) st) as -> by (destruct (op_action op) as [| | |[]| |]; by simplify_eq).
    by apply Hsame.
  - destruct (op_action op) as [| | |[]| |]; simplify_eq; by apply Hsame.
  - destruct (op_action op) as [| | |[]| |]; try done. destruct Ha as [Hb Hl].
    destruct (write_buffer_ok op data st G (good_regions _ G f op Hf) (Hl op Hf) Hb)
      as (m & Em & W & Gr). rewrite Em in E. simpl in E. simplify_eq.
    apply (complete_keeps f _ _ st op); try done; [by apply good_memory_change|by apply transfer_plain].
  - destruct (op_action op) as [| | |[]| |]; try done.
    destruct (read_buffer op st) as [data|]; [|done]. simpl in E.
    destruct (io_objects st !! op_object op) as [o|]; [|done]. simpl in E. simplify_eq.
    apply (complete_keeps f _ _ st op); try done; [|by apply transfer_plain].
    split; [exact (good_fresh _ G)|exact (good_memory _ G)|exact (good_regions _ G)|
      exact (good_peers _ G)|by apply (good_ops_same st)].
  - destruct (op_action op) as [| |p|[]| |] eqn:Hact; try done. simplify_eq.
    assert (good (install fd st)) as G1 by (by apply (rest_good st)). split.
    + apply (transfer_opens _ _ fd); [done| |].
      * rewrite (complete_owned f _ _ op) by done. simpl. rewrite valid_fd_nonneg by apply Ha.
        by rewrite (owned_plain st (install fd st)).
      * by rewrite (proj1 (proj2 (proj2 (proj2 (complete_moved f _ (install fd st)))))).
    + apply (good_complete f _ _ op); try done. intros c' [= <-]. left. split; [done|].
      by exists p.
Qed.

(** * Interruption *)
Lemma interrupt_vm L st vm' a :
  about_io (called_interrupter L (vm st)) → fiber_interrupt L (vm st) = (vm', a) →
  ∃ rows, vm' = with_fiber_list rows (vm st).
Proof.
  unfold about_io, called_interrupter, fiber_interrupt. intros Hab E.
  assert (vm st = with_fiber_list (λ m, m) (vm st)) as Eid by by destruct (vm st).
  destruct (fiber_arg L (vm st)) as [[h [[[f|] jip] caught]]|]; [|by simplify_eq; eexists..].
  destruct (fiber_list (vm st) !! f) as [row|] eqn:Hrow; [|by simplify_eq; eexists].
  case_decide as Hcur; [by simplify_eq; eexists|]. rewrite decide_False in Hab by done. simpl in Hab.
  destruct (interrupter row) as [i|]; [|by simplify_eq; eexists].
  destruct i; try done; simpl in E; simplify_eq;
    by exists (λ m, alter (with_interrupter (λ _, None)) f (alter (with_interrupted (λ _, true)) f m)).
Qed.

Lemma io_interrupt_keeps L st st' a :
  good st → valid_ (vm st) = true → about_io (called_interrupter L (vm st)) →
  interrupt L st = (st', a) → keeps st st'.
Proof.
  intros G Hv Hab E. unfold interrupt in E.
  destruct (fiber_interrupt L (vm st)) as [vm' a'] eqn:Ei.
  destruct (interrupt_vm L st vm' a' Hab Ei) as [rows ->].
  set (st1 := with_vm (λ _, with_fiber_list rows (vm st)) st) in *.
  assert (keeps st st1) as [T G1].
  { split; [by apply transfer_plain|]. apply (good_frame st); [by apply frame_plain|done|done]. }
  assert (∀ P, keeps st (abort_ops P st1)) as Habort.
  { intros P. split; [transitivity st1; [done|apply abort_transfer]|by apply good_abort]. }
  destruct (called_interrupter L (vm st)) as [[]|]; simplify_eq; done || apply Habort.
Qed.

(** * Finalizers *)
Lemma mt_gc_transfer h st : transfer st (file_descriptor_mt_gc h st).
Proof.
  unfold file_descriptor_mt_gc. destruct (handles st !! h) as [[n mt]|] eqn:Hh; [|done].
  pose proof (owned_handle st h _ Hh) as E. unfold handle_fds in E. simpl in E.
  destruct mt; [|by apply transfer_moves]. unfold valid_fd in E. case_decide; [by apply transfer_moves|].
  apply (transfer_closes _ _ n); [|done]. rewrite E.
  by rewrite (owned_plain (with_handles (delete h) st) (sys_close n _)).
Qed.

Lemma gc_handle_good h st :
  good st → ¬ locked h st → good (file_descriptor_mt_gc h st).
Proof.
  intros G Hl. unfold file_descriptor_mt_gc.
  destruct (handles st !! h) as [[n mt]|] eqn:Hh; [|done].
  destruct (valid_ (vm st)) eqn:Hv; [|by rewrite (end_handles _ (good_ended _ G Hv)) in Hh].
  assert (good (with_handles (delete h) st)) as G1.
  { change (with_handles (delete h) st) with (with_handles (λ _, delete h (handles st)) st).
    apply good_handles; [done|done| |].
    - intros u Hu. apply lookup_delete_None. right. by apply (good_fresh _ G).
    - intros f op l Hop Hin. apply lookup_delete_ne. intros ->. apply Hl. exists f, op.
      unfold locks_of in Hin. destruct (op_action op) as [| | | | |fds ep] eqn:Ha; try by apply elem_of_nil in Hin.
      exists fds, ep. split_and!; [done|done|]. by apply list_elem_of_fmap_2. }
  destruct mt; [|done]. case_decide; [done|]. by apply (rest_good (with_handles (delete h) st)).
Qed.

Lemma destroy_transfer u st : transfer st (asio_destroy u st).
Proof.
  unfold asio_destroy. destruct (io_objects st !! u) as [o|] eqn:Hu; [|done].
  pose proof (abort_moved (on_object u) st) as (_ & Eo & _ & Ed & _).
  transitivity (abort_ops (on_object u) st); [apply abort_transfer|]. rewrite <- Eo in Hu.
  set (st1 := abort_ops (on_object u) st) in *. pose proof (owned_object st1 u o Hu) as E.
  destruct (is_open o) eqn:Ho.
  - apply (transfer_closes _ _ (native_handle o)); [|done]. rewrite E, object_fds_open by done. done.
  - apply transfer_moves; [|done]. by rewrite E, object_fds_closed by done.
Qed.

Lemma gc_object_good u st :
  good st → (∀ f op, ops st !! f = Some op → op_object op ≠ u) → good (asio_destroy u st).
Proof.
  intros G Hno. unfold asio_destroy. destruct (io_objects st !! u) as [o|] eqn:Hu; [|done].
  destruct (valid_ (vm st)) eqn:Hv; [|by rewrite (end_objects _ (good_ended _ G Hv)) in Hu].
  assert (abort_ops (on_object u) st = st) as ->.
  { unfold abort_ops. induction (elements _) as [|f l IH]; [done|]. simpl. rewrite IH.
    unfold abort_one. destruct (ops st !! f) as [op|] eqn:Hf; [|done].
    unfold on_object. rewrite (bool_decide_false _ (Hno f op Hf)). by rewrite andb_false_r. }
  assert (good (Io.with_objects (delete u) st)) as G1.
  { split; [|exact (good_memory _ G)|exact (good_regions _ G)|exact (good_peers _ G)|].
    - intros v Hn. destruct (good_fresh _ G v Hn) as [? ?]. split; [done|].
      apply lookup_delete_None. by right.
    - simpl. rewrite Hv. destruct (good_waiting _ G Hv) as [W1 W2 W3 W4 W5 W6 W7 W8 W9 W10].
      split; try done; simpl.
      + intros f op Hop. rewrite lookup_delete_ne by (intros ->; by apply (Hno f op)). by eapply W1.
      + intros v o' [_ Ho]%lookup_delete_Some. by apply W2. }
  destruct (is_open o); [|done]. by apply (rest_good (Io.with_objects (delete u) st)).
Qed.

(** * The end of the VM *)

(** While userdata are destroyed: who waits, waits for an object still there. *)
Record closing (st : io_state) : Prop := {
  close_valid : valid_ (vm st) = false;
  close_fresh : fresh st;
  close_memory : wf (memory st);
  close_regions f op : ops st !! f = Some op → region_ok (buffers (memory st)) op;
  close_peers f op : ops st !! f = Some op → peer_ok op;
  close_ops f op : ops st !! f = Some op →
    if is_pending op then is_Some (io_objects st !! op_object op)
    else f ∈ task_fiber <$> strand (vm st);
}.

Lemma closing_start st :
  good st → valid_ (vm st) = true → closing (with_vm close st).
Proof.
  intros G Hv. pose proof (good_waiting _ G Hv) as W.
  split; [done|exact (good_fresh _ G)|exact (good_memory _ G)|exact (good_regions _ G)|
    exact (good_peers _ G)|].
  intros f op Hop. simpl. destruct (is_pending op) eqn:Hp; [by apply (wait_object _ W f)|].
  by apply (wait_queued _ W f op).
Qed.

Lemma closing_gc h st : closing st → closing (file_descriptor_mt_gc h st).
Proof.
  intros [C1 C2 C3 C4 C5 C6]. unfold file_descriptor_mt_gc.
  destruct (handles st !! h) as [[n mt]|]; [|done].
  assert (∀ u, (next_loc (vm st) ≤ u)%nat →
    delete h (handles st) !! u = None ∧ io_objects st !! u = None) as Hf.
  { intros u Hu. destruct (C2 u Hu). split; [|done]. apply lookup_delete_None. by right. }
  destruct mt; [case_decide|]; by split.
Qed.

Lemma closing_destroy u st : closing st → closing (asio_destroy u st).
Proof.
  intros [C1 C2 C3 C4 C5 C6]. unfold asio_destroy. destruct (io_objects st !! u) as [o|]; [|done].
  pose proof (abort_moved (on_object u) st) as (Eh & Eo & Em & _ & El & Ev & _).
  destruct (abort_strand (on_object u) st) as (q & Eq & Hq).
  set (st1 := abort_ops (on_object u) st) in *.
  assert (∀ f x, ops st1 !! f = Some x → ∃ op, ops st !! f = Some op ∧ x = aborted (on_object u) op)
    as Hops.
  { intros f x. unfold st1. rewrite abort_lookup. intros (op & Hop & ->)%fmap_Some. by exists op. }
  assert (closing (Io.with_objects (delete u) st1)) as C.
  { split; simpl.
    - by rewrite Ev.
    - intros v Hn. simpl in *. rewrite El in Hn. rewrite Eh, Eo. destruct (C2 v Hn).
      split; [done|]. apply lookup_delete_None. by right.
    - by rewrite Em.
    - intros f x Hx. rewrite Em. destruct (Hops f x Hx) as (op & Hop & ->).
      unfold aborted. case_match; by apply (C4 f op).
    - intros f x Hx. destruct (Hops f x Hx) as (op & Hop & ->). unfold aborted.
      case_match; [apply failed_ok|by apply (C5 f)].
    - intros f x Hx. destruct (Hops f x Hx) as (op & Hop & ->).
      specialize (C6 f op Hop). specialize (Hq f op Hop). rewrite Eo, Eq, fmap_app.
      unfold aborted. destruct (is_pending op) eqn:Hp; simpl;
        [|rewrite Hp; apply elem_of_app; by left].
      destruct (on_object u op) eqn:Hon; simpl.
      + apply elem_of_app. right. apply (list_elem_of_fmap_2 task_fiber _ _ (Hq eq_refl eq_refl)).
      + rewrite Hp. apply bool_decide_eq_false in Hon. by rewrite lookup_delete_ne. }
  destruct (is_open o); [|done]. destruct C as [D1 D2 D3 D4 D5 D6]. by split.
Qed.

Lemma gc_all_handles l st :
  handles (foldr file_descriptor_mt_gc st l) = foldr delete (handles st) l.
Proof.
  induction l as [|h l IH]; [done|]. simpl. rewrite <- IH. unfold file_descriptor_mt_gc.
  destruct (handles (foldr _ _ _) !! h) as [[n mt]|] eqn:Hh; [|by rewrite delete_id].
  destruct mt; [case_decide|]; done.
Qed.
Lemma destroy_all_objects l st :
  io_objects (foldr asio_destroy st l) = foldr delete (io_objects st) l.
Proof.
  induction l as [|u l IH]; [done|]. simpl. rewrite <- IH. unfold asio_destroy.
  destruct (io_objects (foldr _ _ _) !! u) as [o|] eqn:Hu; [|by rewrite delete_id].
  pose proof (abort_moved (on_object u) (foldr asio_destroy st l)) as (_ & Eo & _).
  destruct (is_open o); exact (f_equal (delete u) Eo).
Qed.
Lemma delete_all {A} (m : gmap loc A) : foldr delete m (elements (dom m)) = ∅.
Proof.
  apply map_empty. intros u. destruct (decide (u ∈ dom m)) as [Hu|Hu].
  - rewrite lookup_foldr_delete; [done|]. by apply elem_of_elements.
  - rewrite lookup_foldr_delete_not_elem_of; [by apply not_elem_of_dom|]. by rewrite elem_of_elements.
Qed.
Lemma destroy_handles u st : handles (asio_destroy u st) = handles st.
Proof.
  unfold asio_destroy. destruct (io_objects st !! u) as [o|]; [|done].
  pose proof (abort_moved (on_object u) st) as (Eh & _). by destruct (is_open o).
Qed.

Lemma fold_keeps (g : loc → io_state → io_state) (P : io_state → Prop) l st :
  (∀ u s, P s → P (g u s)) → P st → P (foldr g st l).
Proof. intros Hg Hst. induction l; simpl; auto. Qed.
Lemma fold_transfer (g : loc → io_state → io_state) l st :
  (∀ u s, transfer s (g u s)) → transfer st (foldr g st l).
Proof.
  intros Hg. apply (fold_keeps g (transfer st)); [|done]. intros u s T. by transitivity s.
Qed.

Lemma io_close_keeps st : good st → valid_ (vm st) = true → keeps st (close_vm st).
Proof.
  intros G Hv. unfold close_vm. set (st0 := with_vm close st).
  set (st1 := foldr file_descriptor_mt_gc st0 (elements (dom (handles st0)))).
  set (st2 := foldr asio_destroy st1 (elements (dom (io_objects st1)))).
  assert (transfer st0 st1) as T1 by apply fold_transfer, mt_gc_transfer.
  assert (transfer st1 st2) as T2 by apply fold_transfer, destroy_transfer.
  assert (closing st1) as C1 by (apply fold_keeps; [apply closing_gc|by apply closing_start]).
  assert (closing st2) as [D1 D2 D3 D4 D5 D6] by (apply fold_keeps; [apply closing_destroy|done]).
  assert (handles st2 = ∅) as Eh.
  { transitivity (handles st1); [|unfold st1; rewrite gc_all_handles; apply delete_all].
    apply (fold_keeps asio_destroy (λ s, handles s = handles st1)); [|done].
    intros u s <-. apply destroy_handles. }
  assert (io_objects st2 = ∅) as Eo by (unfold st2; rewrite destroy_all_objects; apply delete_all).
  split; [transitivity st0; [by apply transfer_plain|by transitivity st1]|].
  split; try done. rewrite D1. split; [done|done|]. intros f op Hop. specialize (D6 f op Hop).
  destruct (is_pending op); [|done]. rewrite Eo in D6. by destruct D6.
Qed.

(** * Every step *)
Lemma other_keeps v st : good st → other_modules st v → keeps st (with_vm (λ _, v) st).
Proof.
  intros G (Hv & Hv' & Hl & Ht & (q & Eq & Hq) & Hnd & Hidle). split; [by apply transfer_plain|].
  split; [|exact (good_memory _ G)|exact (good_regions _ G)|exact (good_peers _ G)|].
  - intros u Hu. apply (good_fresh _ G). simpl in Hu. lia.
  - simpl. rewrite Hv'. destruct (good_waiting _ G Hv) as [W1 W2 W3 W4 W5 W6 W7 W8 W9 W10].
    split; try done; simpl.
    + intros f op Hop. rewrite Ht by (by exists op). by eapply W3.
    + intros f op Hop. rewrite Eq, fmap_app, elem_of_app, (W6 f op Hop). split; [by left|].
      intros [?|(t & -> & Hin)%list_elem_of_fmap]; [done|]. specialize (Hq t Hin). congruence.
Qed.

Theorem step_keeps st st' : owning st → good st → io_step true st st' → keeps st st'.
Proof.
  intros O G Hs. destruct Hs as [c L st st' a Hv Hr Hc E Ha|v st Hoth|m st W Gr|t st|
    L st st' a Hv Hab E|f a st st' Ha E|k st st' _ Hk E|h st Hl|u st Hno|st Hr Hv].
  - pose proof (call_fine st G Hv Hr c L Hc) as F. rewrite E in F. exact (F Ha).
  - by apply other_keeps.
  - split; [by apply transfer_plain|by apply good_memory_change].
  - split; [by apply transfer_plain|].
    split; [exact (good_fresh _ G)|exact (good_memory _ G)|exact (good_regions _ G)|
      exact (good_peers _ G)|by apply (good_ops_same st)].
  - by eapply io_interrupt_keeps.
  - by eapply reactor_keeps.
  - by eapply io_run_task_keeps.
  - split; [apply mt_gc_transfer|by apply gc_handle_good; [|apply Hl]].
  - split; [apply destroy_transfer|by apply gc_object_good].
  - by apply io_close_keeps.
Qed.

Lemma stranger_keeps st st' : inv st → stranger_step st st' → inv st'.
Proof.
  intros [O G] Hs. destruct Hs as [fd st [Hp Hno]|n st Hn]; (split; [|by apply (rest_good st)]).
  - destruct O as [O1 O2 O3]. split; simpl.
    + by rewrite (owned_plain st).
    + intros m. rewrite (owned_plain st) by done. intros Hm. apply lookup_insert_is_Some'.
      right. by apply O2.
    + intros m. simpl. rewrite lookup_insert_is_Some'. intros [<-|Hm]; [done|by apply O3].
  - destruct O as [O1 O2 O3]. split; simpl.
    + by rewrite (owned_plain st).
    + intros m. rewrite (owned_plain st) by done. intros Hm.
      rewrite lookup_delete_ne by (intros ->; done). by apply O2.
    + intros m. simpl. rewrite lookup_delete_is_Some. intros [_ Hm]. by apply O3.
Qed.

Lemma any_step_inv st st' : inv st → any_step true st st' → inv st'.
Proof.
  intros I [Hs|Hs]; [|by eapply stranger_keeps]. destruct I as [O G].
  destruct (step_keeps st st' O G Hs) as [T G']. split; [by apply T|done].
Qed.
Lemma io_reachable_inv st st' : inv st → reachable true st st' → inv st'.
Proof. intros I R. induction R; eauto using any_step_inv. Qed.
End steps.
