(* ===== verification/IoPromises.v ===== *)
(** What the I/O modules promise: descriptors have one owner, operations end
    once, messages carry the files they should. *)
From stdpp Require Import pretty.
From S2P Require Import Prelude Errors Lua LuaTable ByteSpan ByteSpanFacts Vm FiberOps.
From S2P Require Import SpawnArgs Io IoObjects IoOperations IoSteps IoSpec.
From S2P Require Import IoCalls IoHandlers IoInvariant.
#[local] Open Scope Z_scope.

(** A VM without userdata and operations, whatever else the process has open. *)
Record program_starts (st : io_state) : Prop := {
  start_no_handles : handles st = ∅;
  start_no_objects : io_objects st = ∅;
  start_no_ops : ops st = ∅;
  start_memory : wf (memory st);
  start_valid : valid_ (vm st) = true;
  start_queue : NoDup (task_fiber <$> strand (vm st));
  start_idle f : f ∈ task_fiber <$> strand (vm st) → ¬ running (vm st) f;
  start_descriptors n : is_Some (descriptors st !! n) → 0 ≤ n;
}.

Lemma starts_inv st : program_starts st → inv st.
Proof.
  intros [S1 S2 S3 S4 S5 S6 S7 S8]. split; split; try done.
  - unfold owned. rewrite S1, S2, S3. rewrite !all_of_empty. constructor.
  - unfold owned. rewrite S1, S2, S3, !all_of_empty. by intros n ?%elem_of_nil.
  - intros u _. by rewrite S1, S2.
  - intros f op. by rewrite S3.
  - intros f op. by rewrite S3.
  - rewrite S5. split; rewrite ?S1, ?S2, ?S3; try done.
Qed.

Section promises.
Context `{LuaApi} `{MakeAddress} `{LocalPaths}.

Lemma starts_reachable st0 st : program_starts st0 → reachable true st0 st → owning st ∧ good st.
Proof. intros S R. destruct (io_reachable_inv st0 st (starts_inv _ S) R). done. Qed.

(** C4 In every run in which the program keeps a reference to the handles of a
    message while it is being sent, and makes no call whose behaviour is undefined
    or that fails an [assert] (to give an open object a descriptor is one): every
    descriptor of the VM is open and has one owner, a handle, an object, a message
    being sent or a connection being accepted; and no such step closes a descriptor
    that is not the VM's, nor lets go of one without closing it.  What a handle that
    is collected while its message is being sent comes to is
    [Examples.collected_handle_dangles]. *)
Theorem descriptors_accounted st0 st :
  program_starts st0 → reachable true st0 st →
  NoDup (owned st) ∧ (∀ n, n ∈ owned st → is_Some (descriptors st !! n)) ∧
  ∀ st', io_step true st st' → ∀ n file, unowned st' n file ↔ unowned st n file.
Proof.
  intros S R. destruct (starts_reachable _ _ S R) as [O G].
  split_and!; [apply O|apply O|]. intros st' Hs. by apply (step_keeps st st' O G Hs).
Qed.

(** A fiber that waits for an operation is suspended, the object is there,
    and its handler is queued, once, exactly when the operation is no longer
    pending. *)
Theorem operations_accounted st0 st f op :
  program_starts st0 → reachable true st0 st → valid_ (vm st) = true → ops st !! f = Some op →
  threads (vm st) !! f = Some CoSuspended ∧
  (∃ o, io_objects st !! op_object op = Some o ∧
     (is_socket (op_class op) = true → 0 < nbusy o)) ∧
  NoDup (task_fiber <$> strand (vm st)) ∧
  (is_pending op = false ↔ f ∈ task_fiber <$> strand (vm st)).
Proof.
  intros S R Hv Hop. destruct (starts_reachable _ _ S R) as [O G].
  pose proof (good_waiting _ G Hv) as W. split_and!; [by eapply wait_suspended| |apply W|by apply W].
  destruct (wait_object _ W f op Hop) as [o Ho]. exists o. split; [done|]. intros Hs.
  pose proof (wait_busy _ W _ o Ho) as Hb. rewrite (busy_delete _ f op) in Hb by done.
  rewrite decide_True in Hb by done. lia.
Qed.

(** ** Completions *)

(** The answers the reactor may have for an operation. *)
Definition answers (a : action) (r : reactor_answer) : bool :=
  match a, r with
  | _, RFailed _ => true
  | (Connect | Wait | ReceiveWithFds _ _ _ | SendWithFds _ _), RReady => true
  | Transfer true _ _, RRead _ _ => true
  | Transfer false _ _, RWritten _ => true
  | Accept _, RAccepted _ => true
  | _, _ => false
  end.

Lemma complete_queues f c st op :
  ops st !! f = Some op →
  ops (complete f c st) !! f = Some (set_progress (Completed c) op) ∧
  strand (vm (complete f c st)) = strand (vm st) ++ [FiberResume f no_options].
Proof. intros Hf. unfold complete. rewrite Hf. simpl. by rewrite lookup_insert_eq. Qed.

(** Whatever the reactor answers to a pending operation, the memory it uses
    is there, only that memory is written, and its handler is queued behind the
    other tasks. *)
Theorem reactor_completes st0 st f op r :
  program_starts st0 → reachable true st0 st → ops st !! f = Some op → is_pending op = true →
  reactor_allowed f r st → answers (op_action op) r = true →
  ∃ st' c, reactor f r st = Some st' ∧
    ops st' !! f = Some (set_progress (Completed c) op) ∧
    strand (vm st') = strand (vm st) ++ [FiberResume f no_options] ∧
    (match r with
     | RRead data _ =>
         bytes_transferred c = length data ∧
         match op_buffer op with
         | Some (b, off) => ByteSpan.write (memory st) b off data = Some (memory st')
         | None => memory st' = memory st
         end
     | RWritten n =>
         bytes_transferred c = n ∧ memory st' = memory st ∧
         ∃ o data, io_objects st !! op_object op = Some o ∧ read_buffer op st = Some data ∧
           op_size op = length data ∧
           requests st' = requests st ++ [(native_handle o, RWrite (take (Z.to_nat n) data))]
     | RFailed ec => completion_ec c = Some ec ∧ memory st' = memory st
     | _ => memory st' = memory st
     end).
Proof.
  intros S R Hop Hp Ha Han. destruct (starts_reachable _ _ S R) as [O G].
  assert (∀ c s, ops s = ops st → vm s = vm st →
    ops (complete f c s) !! f = Some (set_progress (Completed c) op) ∧
    strand (vm (complete f c s)) = strand (vm st) ++ [FiberResume f no_options]) as Hq.
  { intros c s Eo Ev. rewrite <- Ev. apply complete_queues. by rewrite Eo. }
  assert (∀ c s, memory (complete f c s) = memory s) as Hm by (intros c s; apply complete_moved).
  unfold reactor. rewrite Hop. simpl. rewrite Hp.
  destruct r as [ec| |data s|n|fd].
  - exists (complete f (failed op ec) st), (failed op ec).
    destruct (Hq (failed op ec) st eq_refl eq_refl) as [E1 E2].
    split_and!; try done; first [by destruct (op_action op) as [| | |[]| |]|apply Hm].
  - destruct (op_action op) as [| | |[]| |]; try done;
      (eexists _, _; split_and!; [done|by apply Hq|by apply Hq|apply Hm]).
  - destruct (op_action op) as [| | |[]| |]; try done. destruct Ha as [Hb Hl].
    destruct (write_buffer_ok op data st G (good_regions _ G f op Hop) (Hl op Hop) Hb)
      as (m & Em & _ & _). rewrite Em. simpl.
    eexists _, _. split_and!; [done|by apply Hq|by apply Hq|done|]. rewrite Hm. simpl.
    unfold write_buffer in Em. destruct (op_buffer op) as [[b off]|].
    + destruct (ByteSpan.write (memory st) b off data) as [m'|]; [|done]. simpl in Em.
      exact (f_equal (option_map memory) Em).
    + case_decide; [|done]. pose proof (f_equal (option_map memory) Em) as E. simpl in E. congruence.
  - destruct (op_action op) as [| | |[]| |]; try done.
    assert (∃ o, io_objects st !! op_object op = Some o) as [o Ho].
    { destruct (valid_ (vm st)) eqn:Hv; [by apply (wait_object _ (good_waiting _ G Hv) f)|].
      destruct (end_queued _ (good_ended _ G Hv) f op Hop). congruence. }
    destruct (read_buffer_ok op st G (good_regions _ G f op Hop)) as (data & Ed & El & _).
    rewrite Ed, Ho. simpl. eexists _, _.
    split_and!; [done|by apply Hq|by apply Hq|done|by rewrite Hm|]. exists o, data.
    split_and!; [done|done|done|]. unfold complete. simpl. by rewrite Hop.
  - destruct (op_action op) as [| | |[]| |]; try done.
    eexists _, _. split_and!; [done|by apply Hq|by apply Hq|by rewrite Hm].
Qed.

(** C5 In the runs of C4, and for a message whose path fits into an address: when
    its handler runs, an operation is over and its fiber goes on, or it waits again
    because the kernel turns out not to be ready; after the end of the VM it is over
    and nothing else happens.  The handler always has a result, so that in these
    runs it does not meet an object, a buffer or a handle that is gone
    ([Examples.collected_handle_dangles] and [Examples.long_path_terminates] are
    the other runs). *)
Theorem operation_ends st0 st f opts q op k :
  program_starts st0 → reachable true st0 st → strand (vm st) = FiberResume f opts :: q →
  ops st !! f = Some op → kernel_allowed k st →
  (∀ fds ep, op_action op = SendWithFds fds ep → path_fits ep = true) →
  ∃ st', run_task k st = Some st' ∧
    if valid_ (vm st) then
      (ops st' = delete f (ops st) ∧ running (vm st') f) ∨
      (would_block k ∧ ops st' = <[f := set_progress Pending op]> (ops st))
    else ops st' = delete f (ops st) ∧ strand (vm st') = q.
Proof.
  intros S R Hq Hop Hk Hfit. destruct (starts_reachable _ _ S R) as [O G].
  assert (is_pending op = false) as Hp.
  { destruct (valid_ (vm st)) eqn:Hv.
    - apply (wait_queued _ (good_waiting _ G Hv) f op Hop). rewrite Hq. by left.
    - by apply (end_queued _ (good_ended _ G Hv) f). }
  unfold is_pending in Hp. destruct (op_progress op) as [|c] eqn:Hc; [done|].
  assert (run_task k st = on_completion f op c k (popped st f q)) as ->.
  { unfold run_task. rewrite Hq. simpl. by rewrite Hop, Hc. }
  destruct (valid_ (vm st)) eqn:Hv.
  - destruct (run_handler st f opts q op c k) as (st' & -> & [_ _ He]); try done.
    { intros fds ep Ha _. by eapply Hfit. }
    by exists st'.
  - destruct (ended_progress st f opts q op c k Hv Hq) as (st' & -> & ? & _ & ?). by exists st'.
Qed.

(** ** The end of the VM *)
Fixpoint drain (ks : list kernel_answer) (st : io_state) : option io_state :=
  match ks with
  | [] => Some st
  | k :: ks => st ← run_task k st; drain ks st
  end.

Lemma ended_run k st t q :
  good st → valid_ (vm st) = false → strand (vm st) = t :: q →
  ∃ st', run_task k st = Some st' ∧ keeps st st' ∧ strand (vm st') = q ∧ valid_ (vm st') = false.
Proof.
  intros G Hv Hq. destruct t as [f opts]. unfold run_task. rewrite Hq.
  change (ops (with_vm (with_strand (λ _, q)) st)) with (ops st).
  destruct (ops st !! f) as [op|] eqn:Hop.
  - destruct (end_queued _ (good_ended _ G Hv) f op Hop) as [Hp _]. unfold is_pending in Hp.
    destruct (op_progress op) as [|c] eqn:Hc; [done|]. change (with_ops _ _) with (popped st f q).
    destruct (ended_progress st f opts q op c k Hv Hq) as (st' & E & Es & Ev & _).
    exists st'. split_and!; [done|by eapply ended_handler|done|done].
  - rewrite ended_resume by done. simpl. eexists. split_and!; [done|by apply (ended_other st f opts q)|done|done].
Qed.

Lemma ended_drain ks st :
  good st → valid_ (vm st) = false → length ks = length (strand (vm st)) →
  ∃ st', drain ks st = Some st' ∧ keeps st st' ∧ strand (vm st') = [] ∧ valid_ (vm st') = false.
Proof.
  revert st. induction ks as [|k ks IH]; intros st G Hv Hl; simpl.
  - exists st. destruct (strand (vm st)) eqn:Hq; [|done]. by split_and!.
  - destruct (strand (vm st)) as [|t q] eqn:Hq; [done|].
    destruct (ended_run k st t q G Hv Hq) as (st1 & -> & [T1 G1] & Es & Ev). simpl.
    destruct (IH st1 G1 Ev) as (st' & E & [T G'] & ? & ?); [rewrite Es; simpl in Hl; lia|].
    exists st'. split_and!; try done. split; [by transitivity st1|done].
Qed.

(** C34 After the end of the VM, once the handlers that were queued have run,
    nothing of it is left and every descriptor that is still open was not its
    own; that many tasks are enough, whatever the kernel answers. *)
Theorem end_releases_all st0 st ks :
  program_starts st0 → reachable true st0 st → valid_ (vm st) = false →
  length ks = length (strand (vm st)) →
  ∃ st', drain ks st = Some st' ∧ strand (vm st') = [] ∧
    handles st' = ∅ ∧ io_objects st' = ∅ ∧ ops st' = ∅ ∧
    ∀ n file, descriptors st' !! n = Some file ↔ unowned st n file.
Proof.
  intros S R Hv Hl. destruct (starts_reachable _ _ S R) as [O G].
  destruct (ended_drain ks st G Hv Hl) as (st' & E & [T G'] & Es & Ev).
  destruct (good_ended _ G' Ev) as [Eh Eo Eq].
  assert (ops st' = ∅) as Ep.
  { apply map_empty. intros f. destruct (ops st' !! f) as [op|] eqn:Hf; [|done].
    destruct (Eq f op Hf) as [_ Hin]. rewrite Es in Hin. by apply elem_of_nil in Hin. }
  exists st'. split_and!; try done. intros n file. rewrite <- (transfer_unowned _ _ T O n file).
  unfold unowned, owned. rewrite Eh, Eo, Ep, !all_of_empty. split; [|by intros []].
  intros Hn. split; [done|]. by intros ?%elem_of_nil.
Qed.

(** ** Interruption and cancellation *)

(** The interrupter an operation is waited for with. *)
Definition interrupts (i : interrupter_t) (op : io_op) : bool :=
  match i with
  | IEmitSignal s => on_slot s op
  | ICancel u => on_object u op
  | _ => false
  end.

(** Interrupting a fiber that waits for an operation ends it: its handler is
    queued with operation_aborted, which the fiber sees as the error
    interrupted. *)
Theorem interrupted_operation L st h f jip caught row i op :
  fiber_arg L (vm st) = Some (h, (Some f, jip, caught)) → f ≠ current_fiber_ (vm st) →
  fiber_list (vm st) !! f = Some row → interrupter row = Some i →
  ops st !! f = Some op → is_pending op = true → interrupts i op = true →
  let st' := (interrupt L st).1 in
  (interrupt L st).2 = Return [] ∧
  ops st' !! f = Some (set_progress (Completed (failed op operation_aborted)) op) ∧
  (∃ q, strand (vm st') = strand (vm st) ++ q ∧ FiberResume f no_options ∈ q) ∧
  push_argument f (Options false true false []) (vm st') (push_ec (Some operation_aborted)) =
    RE Errors.Core.interrupted.
Proof.
  intros Harg Hne Hrow Hi Hop Hp Hint. unfold interrupt, called_interrupter, fiber_interrupt.
  rewrite Harg, Hrow, decide_False by done. simpl. rewrite Hi, decide_False by done.
  set (vm' := set_row f _ _).
  assert (∃ row', fiber_list vm' !! f = Some row' ∧ interrupted row' = true ∧ strand vm' = strand (vm st))
    as (row' & Hrow' & Hir & Es).
  { unfold vm'. destruct i; try done; simpl; rewrite !lookup_alter_eq, Hrow; by eexists. }
  assert (∀ P, P op = true → let st' := abort_ops P (with_vm (λ _, vm') st) in
    ops st' !! f = Some (set_progress (Completed (failed op operation_aborted)) op) ∧
    (∃ q, strand (vm st') = strand (vm st) ++ q ∧ FiberResume f no_options ∈ q) ∧
    fiber_list (vm st') !! f = Some row') as Habort.
  { intros P HP. set (st1 := with_vm (λ _, vm') st). simpl. split_and!.
    - rewrite abort_lookup. simpl. rewrite Hop. simpl. unfold aborted. by rewrite Hp, HP.
    - destruct (abort_strand P st1) as (q & Eq & Hq). exists q.
      split; [etransitivity; [exact Eq|exact (f_equal (λ l, l ++ q) Es)]|by apply (Hq f op)].
    - by rewrite (proj2 (proj2 (proj2 (proj2 (proj2 (proj2 (proj2 (proj2 (abort_moved P st1))))))))). }
  destruct i; try done; simpl in Hint; destruct (Habort _ Hint) as (E1 & E2 & E3); simpl;
    (split_and!; [done|exact E1|exact E2|]); rewrite E3, Hir; done.
Qed.

(** close and cancel end every operation of the object with
    operation_aborted, queue their handlers and touch no other operation. *)
Theorem close_ends_operations c (r : option error_code) (cancels : bool) L st u o :
  arg L 1 = Some (LUserdata u) → io_objects st !! u = Some o → class o = c →
  (if cancels then r = None else is_open o = true) →
  let st' := (if cancels then object_cancel c r L st else object_close c r L st).1 in
  (∀ f op, ops st !! f = Some op →
     ops st' !! f = Some
       (if is_pending op && on_object u op
        then set_progress (Completed (failed op operation_aborted)) op else op)) ∧
  (∃ q, strand (vm st') = strand (vm st) ++ q ∧
     ∀ f op, ops st !! f = Some op → is_pending op = true → op_object op = u →
       FiberResume f no_options ∈ q) ∧
  (if cancels then descriptors st' = descriptors st
   else descriptors st' = delete (native_handle o) (descriptors st)).
Proof.
  intros Harg Hu Hc Hr.
  assert (check_object c L 1 st = inr (u, o)) as Echeck.
  { unfold check_object. by rewrite Harg, Hu, decide_True. }
  pose proof (abort_moved (on_object u) st) as (_ & _ & _ & Ed & _).
  assert ((∀ f op, ops st !! f = Some op → ops (abort_ops (on_object u) st) !! f =
      Some (aborted (on_object u) op)) ∧
    ∃ q, strand (vm (abort_ops (on_object u) st)) = strand (vm st) ++ q ∧
      ∀ f op, ops st !! f = Some op → is_pending op = true → op_object op = u →
        FiberResume f no_options ∈ q) as [E1 E2].
  { split.
    - intros f op Hf. by rewrite abort_lookup, Hf.
    - destruct (abort_strand (on_object u) st) as (q & Eq & Hq). exists q. split; [done|].
      intros f op Hf Hp Ho. apply (Hq f op Hf Hp). by apply bool_decide_eq_true. }
  destruct cancels; unfold object_cancel, object_close; rewrite Echeck; cbn [or_answer].
  - subst r. unfold asio_cancel. simpl. split_and!; [exact E1|exact E2|exact Ed].
  - unfold asio_close. rewrite Hr. simpl. split_and!; [exact E1|exact E2|by rewrite Ed].
Qed.

(** ** Messages with descriptors *)

(** The elements of a list, without those seen before. *)
Definition see (seen : list loc) (h : loc) : list loc :=
  if decide (h ∈ seen) then seen else seen ++ [h].
Definition firsts : list loc → list loc := foldl see [].

Lemma see_incl hs seen h : h ∈ seen ∨ h ∈ hs → h ∈ foldl see seen hs.
Proof.
  revert seen. induction hs as [|h' hs IH]; intros seen Hin; simpl; [set_solver|].
  apply IH. unfold see. case_decide; set_solver.
Qed.

Lemma collect_firsts i st vs fds fds' :
  collect_locks i st vs fds = inr fds' →
  ∃ hs, vs = LUserdata <$> hs ∧ reference <$> fds' = foldl see (reference <$> fds) hs.
Proof.
  revert fds. induction vs as [|v vs IH]; intros fds E; simpl in E; [by simplify_eq; exists []|].
  destruct v as [| | | | | |h| |]; try done.
  destruct (handles st !! h) as [[n []]|]; try done. case_decide; [done|].
  destruct (IH _ E) as (hs & -> & Eh). exists (h :: hs). split; [done|]. rewrite Eh. simpl.
  f_equal.
  unfold see. destruct (decide (locked_by h fds)) as [Hin|Hin].
  - by rewrite decide_True by exact Hin.
  - rewrite decide_False by exact Hin. by rewrite fmap_app.
Qed.

(** The calls that send descriptors, and where their table is. *)
Inductive sends : io_call → nat → Prop :=
| sends_with c : sends (CallSendWithFds c) 3
| sends_to : sends CallSendToWithFds 4.

Lemma try_yield {A} (e : answer + A) k st st' :
  quiet e → or_answer e st k = (st', Yield) → ∃ x, e = inr x ∧ k x = (st', Yield).
Proof. intros Hq E. destruct e as [a|x]; [|by eauto]. injection E as <- Ha. by destruct (Hq a). Qed.

Lemma send_checked c i L st st' :
  sends c i → call c L st = (st', Yield) →
  ∃ u cl bs t ep, arg L i = Some (LTable t) ∧ send_locked u cl bs i t ep st = (st', Yield).
Proof.
  intros Hs E. destruct Hs as [cl|]; simpl in E; unfold send_with_fds, send_to_with_fds in E;
    apply try_yield in E as (t & Et & E); try apply quiet_table;
    apply try_yield in E as (? & _ & E); try apply quiet_suspend;
    apply try_yield in E as ([u o] & _ & E); try apply quiet_object;
    apply try_yield in E as (bs & _ & E); try apply quiet_span.
  2: apply try_yield in E as (path & _ & E); [|apply quiet_path].
  all: eexists _, _, _, _, _; split; [|exact E]; unfold check_table in Et;
    by repeat (case_match; simplify_eq).
Qed.

(** A message with descriptors takes those of the handles in the table, each
    once, in the order they first appear; until it is sent the handles refuse to
    be used with EBUSY. *)
Theorem handles_lent c i L st st' :
  sends c i → call c L st = (st', Yield) →
  ∃ t hs op fds ep,
    arg L i = Some (LTable t) ∧ table_elements t st = LUserdata <$> hs ∧
    ops st' !! current_fiber_ (vm st) = Some op ∧ op_action op = SendWithFds fds ep ∧
    reference <$> fds = firsts hs ∧ Forall (lockable st) fds ∧
    ∀ h L' i', h ∈ hs → arg L' i' = Some (LUserdata h) →
      check_file_descriptor L' i' st' = inl (error device_or_resource_busy).
Proof.
  intros Hs E. destruct (send_checked c i L st st' Hs E) as (u & cl & bs & t & ep & Harg & E').
  clear E. unfold send_locked in E'.
  assert (handles (default_interrupter st).1 = handles st ∧
    lua_tables (default_interrupter st).1 = lua_tables st ∧
    current_fiber_ (vm (default_interrupter st).1) = current_fiber_ (vm st)) as (Eh & Et & Ec).
  { unfold default_interrupter, set_default_interrupter. repeat case_match; simplify_eq/=; done. }
  destruct (default_interrupter st) as [st1 slot]. simpl in Eh, Et, Ec.
  apply try_yield in E' as (fds & El & E'); [|apply quiet_locks]. injection E' as <-.
  destruct (collect_firsts _ _ _ _ _ El) as (hs & Ehs & Er).
  destruct (collect_locks_ok st st1 i _ [] fds Eh El) as [Hl _]; [done|constructor|].
  exists t, hs, (IoOp u cl (SendWithFds fds ep) (data bs) (size bs) slot Pending), fds, ep.
  split_and!; [done| | |done|exact Er|exact Hl|].
  - rewrite <- Ehs. unfold table_elements. by rewrite Et.
  - unfold start_op. simpl. destruct (is_socket cl); simpl; rewrite Ec; by rewrite lookup_insert_eq.
  - intros h L' i' Hin Ha. unfold check_file_descriptor. rewrite Ha.
    assert (h ∈ reference <$> fds) as Hr by (rewrite Er; apply see_incl; by right).
    pose proof Hr as (l & -> & Hin')%list_elem_of_fmap. rewrite Forall_forall in Hl.
    destruct (Hl l Hin') as [Hh _].
    assert (handles (lock_handles fds (start_op (IoOp u cl (SendWithFds fds ep) (data bs) (size bs)
      slot Pending) st1)) !! reference l = Some busy_handle) as ->.
    { unfold lock_handles, start_op. simpl. rewrite lock_lookup, decide_True by done.
      assert (∀ s : io_state, handles s = handles (if is_socket cl then more_busy u s else s)) as <-
        by (intros s; by destruct (is_socket cl)).
      by rewrite Eh, Hh. }
    done.
Qed.

(** What the handler of a message leaves. *)
Lemma Forall2_with {A B} (P : A → B → Prop) (Q : B → Prop) l k :
  Forall2 P l k → (∀ y, y ∈ k → Q y) → Forall2 (λ x y, P x y ∧ Q y) l k.
Proof. induction 1; intros Hq; constructor; set_solver. Qed.

Lemma resume_running f args st st' :
  resume f args st = Some st' → valid_ (vm st) = true →
  ∃ v, st' = with_vm (λ _, v) st ∧
    threads v !! f = Some (CoRunning (push_argument f (Options false true false args)
      (with_current_fiber (λ _, f) (vm st)) <$> args)).
Proof.
  intros E Hv. unfold resume, Vm.fiber_resume in E. rewrite Hv in E.
  destruct (threads (vm st) !! f) as [[]|]; try done; simpl in E; injection E as <-; eexists;
    (split; [done|]); apply lookup_insert_eq.
Qed.

Lemma resume_rest f args st st' :
  resume f args st = Some st' → handles st' = handles st ∧ requests st' = requests st.
Proof. unfold resume. destruct (Vm.fiber_resume _ _ _); simpl; [|done]. by intros [= <-]. Qed.

(** The message the kernel is given carries the files of the handles that
    were passed, in order, and the octets of the span; when the operation is
    over, whether it failed or not, every handle has its descriptor back. *)
Theorem message_carries_handles st0 st f opts q op c fds ep k st' :
  program_starts st0 → reachable true st0 st → valid_ (vm st) = true →
  strand (vm st) = FiberResume f opts :: q → ops st !! f = Some op →
  op_progress op = Completed c → op_action op = SendWithFds fds ep → kernel_allowed k st →
  run_task k st = Some st' → ops st' !! f = None →
  (∀ l, l ∈ fds → handles st' !! reference l = Some (FileDescriptor (lock_value l) true)) ∧
  match completion_ec c, sendmsg_result k with
  | None, Sent n =>
      ∃ o data files, io_objects st !! op_object op = Some o ∧ read_buffer op st = Some data ∧
        op_size op = length data ∧
        Forall2 (λ l file, descriptors st !! lock_value l = Some file) fds files ∧
        requests st' =
          requests st ++ [(native_handle o, RSendmsg data (Some <$> files) ep)]
  | _, _ => requests st' = requests st
  end.
Proof.
  intros S R Hv Hq Hop Hc Ha Hk E Hno. destruct (starts_reachable _ _ S R) as [O G].
  pose proof (good_waiting _ G Hv) as W.
  assert (locks_of op = fds) as El by (unfold locks_of; by rewrite Ha).
  assert (Forall (λ l, handles st !! reference l = Some busy_handle) fds) as Hb.
  { rewrite Forall_forall. intros l Hl. apply (wait_locks _ W f op); [done|by rewrite El]. }
  assert (NoDup (reference <$> fds)) as Hn by (rewrite <- El; by apply (wait_references _ W f op)).
  assert (∀ l, l ∈ fds → ∃ file, descriptors st !! lock_value l = Some file) as Hfile.
  { intros l Hl. apply (own_open _ O). rewrite (owned_op st f op Hop). unfold op_fds, locked_fds.
    rewrite Ha. apply elem_of_app. left. apply elem_of_app. left. by apply list_elem_of_fmap_2. }
  assert (∀ args s, handles s = handles st →
    (st ← not_busy (op_object op) s; st ← unlock_handles fds st; resume f args st) = Some st' →
    (∀ l, l ∈ fds → handles st' !! reference l = Some (FileDescriptor (lock_value l) true)) ∧
    requests st' = requests s) as Hback.
  { intros args s Es Er. unfold not_busy in Er. destruct (io_objects s !! _) as [o|]; [|done].
    simpl in Er. rewrite unlock_ok in Er; [|by simpl; rewrite Es|done]. simpl in Er.
    destruct (resume_rest _ _ _ _ Er) as [-> ->]. split; [|done]. intros l Hl. simpl.
    by apply unlocked_in. }
  assert (on_send_with_fds f op fds ep c (sendmsg_result k) (popped st f q) = Some st') as Es.
  { unfold run_task in E. rewrite Hq in E. simpl in E. rewrite Hop, Hc in E.
    unfold on_completion in E. by rewrite Ha in E. }
  clear E. unfold on_send_with_fds in Es. change (valid_ (vm (popped st f q))) with (valid_ (vm st)) in Es.
  rewrite Hv in Es. simpl negb in Es. cbv iota in Es.
  destruct (completion_ec c) as [ec|]; [by apply Hback in Es|].
  destruct (path_fits ep); [|done]. change (io_objects (popped st f q)) with (io_objects st) in Es.
  destruct (wait_object _ W f op Hop) as [o Ho]. rewrite Ho in Es. simpl in Es.
  destruct (read_buffer_ok op st G (good_regions _ G f op Hop)) as (data & Ed & Elen & _).
  change (read_buffer op (popped st f q)) with (read_buffer op st) in Es. rewrite Ed in Es. simpl in Es.
  destruct (sendmsg_result k) as [|errno|n].
  - simplify_eq. simpl in Hno. by rewrite lookup_insert_eq in Hno.
  - by apply Hback in Es.
  - apply Hback in Es as [Hl Hreq]; [|done]. split; [done|].
    assert (∃ files, Forall2 (λ l file, descriptors st !! lock_value l = Some file) fds files) as [files Hf].
    { clear - Hfile. induction fds as [|l fds IH]; [by exists []|].
      destruct (Hfile l) as [file Hl]; [by left|]. destruct IH as [files Hf]; [intros; apply Hfile; by right|].
      exists (file :: files). by constructor. }
    exists o, data, files. split_and!; try done. rewrite Hreq. simpl. do 4 f_equal.
    clear - Hf. induction Hf as [|l file fds files Hl Hf IH]; [done|]. cbn. by rewrite Hl, IH.
Qed.

(** What is written to the buffer of an operation. *)
Lemma written_memory op data st st' : write_buffer op data st = Some st' →
  ∃ m, st' = with_memory (λ _, m) st ∧
    match op_buffer op with
    | Some (b, off) => ByteSpan.write (memory st) b off data = Some m
    | None => m = memory st
    end.
Proof.
  unfold write_buffer. destruct (op_buffer op) as [[b off]|].
  - destruct (ByteSpan.write _ b off data) as [m|]; [|done]. simpl. intros [= <-]. by exists m.
  - case_decide; [|done]. intros [= <-]. exists (memory st). split; [by destruct st|done].
Qed.

(** The descriptors that were opened become handles of a table, or are closed. *)
Lemma descriptors_delivered f pre opened maxfds st st' :
  NoDup opened.*1 → maxfds ≤ SCM_MAX_FD → valid_ (vm st) = true →
  (∀ fd, fd ∈ opened → descriptors st !! fd.1 = Some fd.2) →
  (let '(st, table) := push_fds (take (Z.to_nat maxfds) opened.*1) st in
   st ← resume f (pre ++ [table]) st; Some (close_all (drop (Z.to_nat maxfds) opened.*1) st)) = Some st' →
  memory st' = memory st ∧ ∃ args t tb hs,
    threads (vm st') !! f = Some (CoRunning (args ++ [RV (LTable t)])) ∧
    lua_tables st' !! t = Some tb ∧ ipairs tb = LUserdata <$> hs ∧
    Forall2 (λ h fd, handles st' !! h = Some (FileDescriptor fd.1 true) ∧
      descriptors st' !! fd.1 = Some fd.2) hs (take (Z.to_nat maxfds) opened) ∧
    ∀ fd, fd ∈ drop (Z.to_nat maxfds) opened → descriptors st' !! fd.1 = None.
Proof.
  intros Hnd Hmax Hv Hopen. set (K := take (Z.to_nat maxfds) opened.*1). set (D := drop (Z.to_nat maxfds) opened.*1).
  assert (length K ≤ SCM_MAX_FD) as HK.
  { unfold K. rewrite length_take. unfold SCM_MAX_FD in *. lia. }
  destruct (push_fds_table K st) as (t & tb & hs & Et & Htb & Hhs & Hnew); [unfold SCM_MAX_FD in HK; lia|].
  destruct (push_fds_plain K st) as (Em & Ed & Ev).
  destruct (push_fds K st) as [st1 table]. simpl in Et, Htb, Hnew, Em, Ed, Ev. subst table.
  destruct (resume f _ st1) as [st2|] eqn:Es; [|done]. simpl. intros [= <-].
  destruct (resume_running _ _ _ _ Es) as (v & -> & Ht); [congruence|].
  pose proof (close_all_rest D (with_vm (λ _, v) st1)) as Er.
  split; [by rewrite (f_equal memory Er : memory (close_all _ _) = memory st1), Em|].
  rewrite (f_equal vm Er : vm (close_all _ _) = v), Ht.
  rewrite (f_equal lua_tables Er : lua_tables (close_all _ _) = lua_tables st1).
  rewrite (f_equal handles Er : handles (close_all _ _) = handles st1).
  rewrite fmap_app. eexists _, t, tb, hs. split_and!; [done|done|done| |].
  - unfold K in Hnew. rewrite <- fmap_take in Hnew. apply Forall2_fmap_r in Hnew.
    apply Forall2_with; [exact Hnew|]. intros fd Hfd. rewrite close_all_lookup, decide_False.
    + change (descriptors (with_vm (λ _, v) st1)) with (descriptors st1). rewrite Ed.
      apply Hopen. by apply (subseteq_take (Z.to_nat maxfds)).
    + unfold D. rewrite <- (take_drop (Z.to_nat maxfds) opened.*1) in Hnd.
      apply NoDup_app in Hnd as (_ & Hdisj & _). apply Hdisj. rewrite <- fmap_take.
      by apply list_elem_of_fmap_2.
  - intros fd Hin. rewrite close_all_lookup, decide_True; [done|]. unfold D.
    rewrite <- fmap_drop. by apply list_elem_of_fmap_2.
Qed.

(** C33 The octets and the descriptors of a message arrive: the octets in the
    span, the first descriptors as new handles of a table, in order, each of the
    file that was sent; those the program did not ask for are closed.  At the end
    of the stream nothing is left open. *)
Theorem received_handles st0 st f opts q op c maxfds skip from k st'
    data namelen is_unix sun_path control opened :
  program_starts st0 → reachable true st0 st → valid_ (vm st) = true →
  strand (vm st) = FiberResume f opts :: q → ops st !! f = Some op →
  op_progress op = Completed c → completion_ec c = None →
  op_action op = ReceiveWithFds maxfds skip from → maxfds ≤ SCM_MAX_FD →
  recvmsg_result k = Received data namelen is_unix sun_path control opened →
  kernel_allowed k st → run_task k st = Some st' →
  match op_buffer op with
  | Some (b, off) => ByteSpan.write (memory st) b off data = Some (memory st')
  | None => memory st' = memory st
  end ∧
  if negb skip && bool_decide (data = []) then
    threads (vm st') !! f = Some (CoRunning [RE (Misc_code Asio.misc_errors.eof)]) ∧
    handles st' = handles st ∧ ∀ n, descriptors st' !! n = descriptors st !! n
  else
    ∃ args t tb hs,
      threads (vm st') !! f = Some (CoRunning (args ++ [RV (LTable t)])) ∧
      lua_tables st' !! t = Some tb ∧ ipairs tb = LUserdata <$> hs ∧
      Forall2 (λ h fd, handles st' !! h = Some (FileDescriptor fd.1 true) ∧
        descriptors st' !! fd.1 = Some fd.2) hs (take (Z.to_nat maxfds) opened) ∧
      ∀ fd, fd ∈ drop (Z.to_nat maxfds) opened → descriptors st' !! fd.1 = None.
Proof.
  intros S R Hv Hq Hop Hc Hec Ha Hmax Hr Hk E. destruct (starts_reachable _ _ S R) as [O G].
  pose proof (good_waiting _ G Hv) as W.
  unfold kernel_allowed in Hk. rewrite Hr in Hk. destruct Hk as (Hb & Hl & Ectl & Hnd & Hopen).
  specialize (Hl f opts q op Hq Hop).
  unfold run_task in E. rewrite Hq in E. simpl in E. rewrite Hop, Hc in E.
  change (with_ops _ _) with (popped st f q) in E. unfold on_completion in E. rewrite Ha, Hr in E.
  unfold on_receive_with_fds in E. change (valid_ (vm (popped st f q))) with (valid_ (vm st)) in E.
  rewrite Hv, Hec, Ectl in E. simpl negb in E. cbv iota in E.
  set (st1 := foldr install (popped st f q) opened) in *.
  assert (rest st1 = rest (popped st f q)) as Er1 by apply install_all_rest.
  destruct (write_buffer op data st1) as [st1'|] eqn:Ew; [|done]. simpl in E.
  apply written_memory in Ew as (m & -> & Hm).
  rewrite (f_equal memory Er1 : memory st1 = memory st) in Hm.
  unfold not_busy in E. simpl in E.
  rewrite (f_equal io_objects Er1 : io_objects st1 = io_objects st) in E.
  destruct (wait_object _ W f op Hop) as [o Ho]. rewrite Ho in E. simpl in E.
  set (st2 := set_io_object _ _ _) in E.
  assert (vm st2 = vm (popped st f q)) as Ev2 by exact (f_equal vm Er1).
  assert (handles st2 = handles st) as Eh2 by exact (f_equal handles Er1).
  assert (∀ n, n ∉ opened.*1 → descriptors st2 !! n = descriptors st !! n) as Hout.
  { intros n Hn. exact (install_all_lookup opened (popped st f q) n Hn). }
  destruct (negb skip && bool_decide (data = [])).
  - destruct (resume f _ st2) as [st3|] eqn:Es; [|done]. simpl in E. injection E as <-.
    destruct (resume_running _ _ _ _ Es) as (v & -> & Ht); [by rewrite Ev2|].
    pose proof (close_all_rest opened.*1 (with_vm (λ _, v) st2)) as Er.
    split; [by rewrite (f_equal memory Er : memory (close_all _ _) = m)|].
    split_and!.
    + rewrite (f_equal vm Er : vm (close_all _ _) = v). rewrite Ht. simpl.
      reflexivity.
    + by rewrite (f_equal handles Er : handles (close_all _ _) = handles st2).
    + intros n. rewrite close_all_lookup. case_decide as Hn; [|by apply Hout].
      apply list_elem_of_fmap in Hn as (fd & -> & Hin). rewrite Forall_forall in Hopen.
      symmetry. by apply Hopen.
  - set (sent := if from then _ else _) in E.
    assert (handles sent.1 = handles st2 ∧ descriptors sent.1 = descriptors st2 ∧
      memory sent.1 = m ∧ valid_ (vm sent.1) = true) as (Eh3 & Ed3 & Em3 & Ev3).
    { assert (valid_ (vm st2) = true) as Hv2 by (by rewrite Ev2).
      unfold sent. destruct from; [|done].
      by destruct (received_path namelen is_unix sun_path). }
    destruct sent as [st3 sender]. simpl in Eh3, Ed3, Em3, Ev3.
    change (ANil :: _ :: sender ++ ?l) with ((ANil :: push_number (length data) :: sender) ++ l) in E.
    apply descriptors_delivered in E as [Em' R']; [|done..|].
    { split; [by rewrite Em', Em3|done]. }
    intros fd Hin. rewrite Ed3. by apply (install_all_value opened (popped st f q)).
Qed.
End promises.

(** ** The name of a descriptor *)
Lemma pretty_go_length (d : nat) x s :
  (x < 10 ^ N.of_nat d)%N → (String.length (pretty_N_go x s) ≤ d + String.length s)%nat.
Proof.
  revert x s. induction d as [|d IH]; intros x s Hx.
  - assert (x = 0%N) as -> by (simpl in Hx; lia). by rewrite pretty_N_go_0.
  - destruct (decide (x = 0%N)) as [->|Hne]; [rewrite pretty_N_go_0; lia|].
    rewrite pretty_N_go_step by lia. etransitivity; [apply IH|simpl; lia].
    apply N.Div0.div_lt_upper_bound. rewrite Nat2N.inj_succ, N.pow_succ_r' in Hx. exact Hx.
Qed.

Lemma length_lit s : length (lit s) = String.length s.
Proof. unfold lit. rewrite length_map. induction s; simpl; congruence. Qed.

Lemma pretty_length (d : nat) (n : Z) :
  (0 < d)%nat → 0 ≤ n < 10 ^ Z.of_nat d → (length (lit (pretty n)) ≤ d)%nat.
Proof.
  intros Hd [Hn Hlt]. rewrite length_lit. destruct n as [|p|p]; [exact Hd| |lia].
  change (String.length (pretty (N.pos p)) ≤ d)%nat. unfold pretty, pretty_N. case_decide; [done|].
  pose proof (pretty_go_length d (N.pos p) "") as Hl. simpl String.length in Hl.
  rewrite Nat.add_0_r in Hl. apply Hl. lia.
Qed.

(** The array a handle's name is written to is large enough for every
    descriptor: the text is the prefix and all the digits. *)
Theorem tostring_fits h n mt st :
  handles st !! h = Some (FileDescriptor n mt) → 0 ≤ n ≤ int_max →
  file_descriptor_mt_tostring h st = Return [RV (LString (prefix ++ lit (pretty n)))].
Proof.
  intros Hh Hn. unfold file_descriptor_mt_tostring. rewrite Hh.
  rewrite !decide_False by (unfold INVALID_FILE_DESCRIPTOR; lia).
  unfold to_chars. rewrite decide_True; [done|].
  change max_digits with 10. assert (length (lit (pretty n)) ≤ 10)%nat; [|lia].
  apply pretty_length; [lia|]. unfold int_max in Hn. change (10 ^ Z.of_nat 10) with 10000000000. lia.
Qed.

(** * Examples *)
Module Examples.
#[local] Existing Instance Ieee754.api.
#[local] Instance addresses : MakeAddress := {| make_address _ := inl (System_code 22) |}.
#[local] Instance paths : LocalPaths := {| path_fits p := bool_decide (length p < 108)%nat |}.

Definition row : fiber_data :=
  FiberData JDetached None 0 None (DNumber 0) false None (Some 2%nat) None true.

(** The main fiber, 1, runs; another one, 3, is suspended. There is a span of
    four octets. *)
Definition first : io_state :=
  IoState
    (Vm true 1 1 0 false false None false [] [] true false
       {[1%nat := CoRunning []; 3%nat := CoSuspended]} {[1%nat := row; 3%nat := row]}
       {[5%nat := Fiber (Some 1%nat) false None]} [] ∅ 10)
    (Store [[104; 101; 108; 108; 111; 0; 0; 0]] [Span (Handle (Some (0%nat, 0)) 4 8)])
    ∅ ∅ ∅ ∅ ∅ {[0 := 0%nat; 1 := 1%nat; 2 := 2%nat]} [].
Definition span : lua_value := LUserdata 0.
Definition number (z : Z) : lua_value := LNumber (lua_pushinteger z).

Definition do (c : io_call) (L : lua_args) (st : io_state) : io_state :=
  suspend (call c L st).2 (call c L st).1.

(** A pair of sockets, 10 and 11; a pipe whose ends are released, 14 and 15. *)
Definition sockets : io_state :=
  do (CallPair unix_stream_socket unix_stream_socket (inr ((3, 30%nat), (4, 40%nat)))) [] first.
Definition piped : io_state :=
  do (CallPair readable_pipe writable_pipe (inr ((5, 50%nat), (6, 60%nat)))) [] sockets.
Definition released1 : io_state := do (CallRelease readable_pipe true None) [LUserdata 12] piped.
Definition released : io_state := do (CallRelease writable_pipe true None) [LUserdata 13] released1.
(** Both are sent, one of them twice in the table. *)
Definition with_table : io_state :=
  Io.with_tables (λ _, {[20%nat :=
    rawseti 3 (LUserdata 15) (rawseti 2 (LUserdata 14) (rawseti 1 (LUserdata 15) empty_table))]}) released.
Definition sending : io_state :=
  do (CallSendWithFds unix_stream_socket) [LUserdata 10; span; LTable 20] with_table.
Definition ready_to_send : io_state := default sending (reactor 1 RReady sending).
Definition answered : kernel_answer :=
  KernelAnswer (Received [1; 2; 3] 0 false [] [ScmRights [7; -1; 8]; OtherControl]
    [(7, 60%nat); (8, 50%nat)]) (Sent 4).
Definition sent : io_state := default ready_to_send (run_task answered ready_to_send).
(** One descriptor is asked for. *)
Definition receiving : io_state :=
  do (CallReceiveWithFds unix_stream_socket false false) [LUserdata 11; span; number 1] sent.
Definition ready_to_receive : io_state := default receiving (reactor 1 RReady receiving).
Definition received : io_state := default ready_to_receive (run_task answered ready_to_receive).

Lemma first_starts : program_starts first.
Proof.
  split; try done.
  - split.
    + intros u bs. destruct u as [|u]; [|done]. intros [= <-]. unfold handle_wf, int64_max. simpl.
      split; [lia|]. eexists. split; [reflexivity|simpl; lia].
    + repeat constructor; unfold is_byte; lia.
  - constructor.
  - by intros f ?%elem_of_nil.
  - intros n. simpl. intros [x Hx]. rewrite !lookup_insert_Some in Hx.
    destruct Hx as [[<- _]|[_ [[<- _]|[_ Hx]]]]; [lia|lia|].
    apply lookup_singleton_Some in Hx as [<- _]. lia.
Qed.

Lemma does c L st args :
  reachable true first st → valid_ (vm st) = true →
  threads (vm st) !! current_fiber_ (vm st) = Some (CoRunning args) → call_allowed c L st →
  (call c L st).2 ≠ Stuck → reachable true first (do c L st).
Proof.
  intros R Hv Hr Hc Ha. eapply rtc_r; [exact R|]. left.
  eapply (step_call true c L st); [done|by exists args|done|by destruct (call c L st)|done].
Qed.
Lemma reacts f a st st' :
  reachable true first st → reactor_allowed f a st → reactor f a st = Some st' →
  reachable true first st'.
Proof. intros R Ha E. eapply rtc_r; [exact R|]. left. by eapply step_reactor. Qed.

Lemma nobody_runs st :
  forallb (λ x, match x.2 with CoRunning _ => false | _ => true end)
    (map_to_list (threads (vm st))) = true →
  ∀ g, ¬ running (vm st) g.
Proof.
  rewrite forallb_forall. intros Hf g [args Hg].
  apply elem_of_map_to_list, list_elem_of_In in Hg. by specialize (Hf _ Hg).
Qed.

Lemma reach_released : reachable true first released.
Proof.
  unfold released. eapply does; [|vm_compute; reflexivity..| |by vm_compute].
  2: { intros _ o. vm_compute. by intros [= <-]. }
  unfold released1. eapply does; [|vm_compute; reflexivity..| |by vm_compute].
  2: { intros _ o. vm_compute. by intros [= <-]. }
  unfold piped. eapply does; [|vm_compute; reflexivity..| |by vm_compute].
  2: { repeat split; vm_compute; done. }
  unfold sockets. eapply does; [reflexivity|vm_compute; reflexivity..| |by vm_compute].
  repeat split; vm_compute; done.
Qed.

Lemma reach_sending : reachable true first sending.
Proof.
  unfold sending. eapply does; [|vm_compute; reflexivity..|done|by vm_compute].
  eapply rtc_r; [exact reach_released|]. left. apply step_tables.
Qed.
Lemma reach_ready_to_send : reachable true first ready_to_send.
Proof. eapply (reacts 1 RReady); [exact reach_sending|done|vm_compute; reflexivity]. Qed.

Lemma allowed_to_send : kernel_allowed answered ready_to_send.
Proof.
  split_and!.
  - repeat constructor; unfold is_byte; lia.
  - intros f opts q op. vm_compute. intros [= <- _ _] [= <-]. done.
  - reflexivity.
  - apply NoDup_cons. split; [|apply NoDup_singleton]. by intros ?%list_elem_of_singleton.
  - repeat constructor; vm_compute; done.
Qed.
Lemma reach_sent : reachable true first sent.
Proof.
  eapply rtc_r; [exact reach_ready_to_send|]. left.
  eapply (step_run true answered); [|exact allowed_to_send|vm_compute; reflexivity].
  apply nobody_runs. vm_compute. reflexivity.
Qed.
Lemma reach_ready_to_receive : reachable true first ready_to_receive.
Proof.
  eapply (reacts 1 RReady receiving); [|done|vm_compute; reflexivity]. unfold receiving.
  eapply does; [exact reach_sent|vm_compute; reflexivity..|done|by vm_compute].
Qed.
Lemma allowed_to_receive : kernel_allowed answered ready_to_receive.
Proof.
  split_and!.
  - repeat constructor; unfold is_byte; lia.
  - intros f opts q op. vm_compute. intros [= <- _ _] [= <-]. done.
  - reflexivity.
  - apply NoDup_cons. split; [|apply NoDup_singleton]. by intros ?%list_elem_of_singleton.
  - repeat constructor; vm_compute; done.
Qed.
Lemma reach_received : reachable true first received.
Proof.
  eapply rtc_r; [exact reach_ready_to_receive|]. left.
  eapply (step_run true answered); [|exact allowed_to_receive|vm_compute; reflexivity].
  apply nobody_runs. vm_compute. reflexivity.
Qed.

Lemma run_received : io_step true ready_to_receive received.
Proof.
  eapply (step_run true answered); [|exact allowed_to_receive|vm_compute; reflexivity].
  apply nobody_runs. vm_compute. reflexivity.
Qed.

(** The fourth descriptor of the process is a socket of the VM; the first is
    nobody's, and stays as it is. *)
Lemma descriptors_accounted_witness :
  NoDup (owned ready_to_receive) ∧ 4 ∈ owned ready_to_receive ∧
  (unowned received 0 0 ↔ unowned ready_to_receive 0 0).
Proof.
  destruct (descriptors_accounted first ready_to_receive first_starts reach_ready_to_receive)
    as (Hnd & _ & Hstep).
  split_and!; [exact Hnd| |exact (Hstep received run_received 0 0%nat)].
  apply (bool_decide_unpack (4 ∈ owned ready_to_receive)). vm_compute. exact I.
Defined.

Definition sending_op : io_op :=
  IoOp 10 unix_stream_socket (SendWithFds [Lock 15 6; Lock 14 5] []) (Some (0%nat, 0)) 4
    (Some 2%nat) Pending.
Definition receiving_op : io_op :=
  IoOp 11 unix_stream_socket (ReceiveWithFds 1 false false) (Some (0%nat, 0)) 4
    (Some 2%nat) Pending.
Definition is_ready : completion := succeeded 0 None INVALID_FILE_DESCRIPTOR.

Lemma operations_accounted_witness :
  threads (vm sending) !! 1%nat = Some CoSuspended ∧ NoDup (task_fiber <$> strand (vm sending)).
Proof.
  destruct (operations_accounted first sending 1 sending_op first_starts reach_sending)
    as (Ht & _ & Hn & _); [vm_compute; reflexivity..|].
  exact (conj Ht Hn).
Defined.

Lemma reactor_completes_witness :
  ∃ st', reactor 1 (RFailed (System_code 104)) sending = Some st' ∧
    strand (vm st') = [FiberResume 1 no_options].
Proof.
  destruct (reactor_completes first sending 1 sending_op (RFailed (System_code 104)) first_starts
    reach_sending) as (st' & c & E & _ & Hq & _); [vm_compute; reflexivity..|done|reflexivity|].
  exists st'. split; [exact E|]. rewrite Hq. vm_compute. reflexivity.
Defined.

Lemma operation_ends_witness :
  ∃ st', run_task answered ready_to_send = Some st' ∧ running (vm st') 1.
Proof.
  destruct (operation_ends first ready_to_send 1 no_options [] (set_progress (Completed is_ready) sending_op)
    answered first_starts reach_ready_to_send) as (st' & E & Hend);
    [vm_compute; reflexivity..|exact allowed_to_send|by intros fds ep [= _ <-]|].
  exists st'. split; [exact E|]. change (valid_ (vm ready_to_send)) with true in Hend.
  destruct Hend as [[_ Hr]|[[Hb|Hb] _]]; [exact Hr|discriminate Hb..].
Defined.

(** The VM ends while a message is being sent: its two descriptors are closed. *)
Definition ended_sending : io_state := close_vm sending.
Lemma reach_ended : reachable true first ended_sending.
Proof.
  eapply rtc_r; [exact reach_sending|]. left. apply step_close; [|reflexivity].
  apply nobody_runs. vm_compute. reflexivity.
Qed.
Lemma end_releases_all_witness :
  ∃ st', drain [answered] ended_sending = Some st' ∧ handles st' = ∅ ∧ ops st' = ∅ ∧
    descriptors st' !! 6 = None.
Proof.
  destruct (end_releases_all first ended_sending [answered] first_starts reach_ended)
    as (st' & E & _ & Eh & _ & Eo & Hd); [vm_compute; reflexivity..|].
  exists st'. split_and!; [exact E|exact Eh|exact Eo|].
  destruct (descriptors st' !! 6) as [file|] eqn:Hf; [|reflexivity].
  destruct (proj1 (Hd 6 file) Hf) as [_ Hn]. exfalso. apply Hn.
  apply (bool_decide_unpack (6 ∈ owned ended_sending)). vm_compute. exact I.
Defined.

(** Another fiber, 3, runs and interrupts the one that sends. *)
Definition third_runs (st : io_state) : io_state :=
  with_vm (λ vm, with_current_fiber (λ _, 3%nat) (set_thread 3 (CoRunning []) vm)) st.
Lemma interrupted_operation_witness :
  let st := third_runs sending in
  ops (interrupt [LUserdata 5] st).1 !! 1%nat =
    Some (set_progress (Completed (failed sending_op operation_aborted)) sending_op).
Proof.
  destruct (interrupted_operation [LUserdata 5] (third_runs sending) 5 1 false None
    (Vm.with_interrupter (λ _, Some (IEmitSignal 2%nat)) row) (IEmitSignal 2%nat) sending_op)
    as (_ & Hop & _); [vm_compute; reflexivity|by vm_compute|vm_compute; reflexivity..|exact Hop].
Defined.

Lemma close_ends_operations_witness :
  ops (object_close unix_stream_socket None [LUserdata 10] (third_runs sending)).1 !! 1%nat =
    Some (set_progress (Completed (failed sending_op operation_aborted)) sending_op) ∧
  descriptors (object_close unix_stream_socket None [LUserdata 10] (third_runs sending)).1 !! 3 = None.
Proof.
  destruct (close_ends_operations unix_stream_socket None false [LUserdata 10] (third_runs sending)
    10 (IoObject unix_stream_socket 3 1)) as (Hops & _ & Hd); [vm_compute; reflexivity..|].
  split.
  - exact (Hops 1%nat sending_op ltac:(vm_compute; reflexivity)).
  - rewrite Hd. apply lookup_delete_eq.
Defined.

Lemma handles_lent_witness :
  ∃ fds, reference <$> fds = [15%nat; 14%nat] ∧
    ∃ op, ops sending !! 1%nat = Some op ∧ op_action op = SendWithFds fds [].
Proof.
  destruct (handles_lent (CallSendWithFds unix_stream_socket) 3 [LUserdata 10; span; LTable 20]
    with_table (call (CallSendWithFds unix_stream_socket) [LUserdata 10; span; LTable 20] with_table).1)
    as (t & hs & op & fds & ep & Harg & Hel & Hop & Hact & Hrefs & _); [constructor|vm_compute; reflexivity|].
  injection Harg as <-. vm_compute in Hel. vm_compute in Hop. injection Hop as <-.
  injection Hact as <- <-. eexists. split; [|eexists; split; [vm_compute; reflexivity|reflexivity]].
  reflexivity.
Defined.

Lemma message_carries_handles_witness :
  handles sent !! 15%nat = Some (FileDescriptor 6 true) ∧
  ∃ o data files, requests sent = [] ++ [(native_handle o, RSendmsg data (Some <$> files) [])].
Proof.
  destruct (message_carries_handles first ready_to_send 1 no_options []
    (set_progress (Completed is_ready) sending_op) is_ready [Lock 15 6; Lock 14 5] [] answered sent
    first_starts reach_ready_to_send) as (Hback & Hsent);
    [vm_compute; reflexivity..|exact allowed_to_send|vm_compute; reflexivity|vm_compute; reflexivity|].
  split; [exact (Hback (Lock 15 6) ltac:(left))|].
  destruct Hsent as (o & data & files & _ & _ & _ & _ & Hr). exists o, data, files. exact Hr.
Defined.

Lemma received_handles_witness :
  ∃ t tb hs, lua_tables received !! t = Some tb ∧ ipairs tb = LUserdata <$> hs ∧
    length hs = 1%nat ∧ descriptors received !! 8 = None.
Proof.
  destruct (received_handles first ready_to_receive 1 no_options []
    (set_progress (Completed is_ready) receiving_op) is_ready 1 false false answered received
    [1; 2; 3] 0 false [] [ScmRights [7; -1; 8]; OtherControl] [(7, 60%nat); (8, 50%nat)]
    first_starts reach_ready_to_receive) as (_ & Hend);
    [vm_compute; reflexivity..|unfold SCM_MAX_FD; lia|reflexivity|exact allowed_to_receive|
     vm_compute; reflexivity|].
  destruct Hend as (args & t & tb & hs & _ & Htb & Hhs & Hl & Hd). exists t, tb, hs.
  split_and!; [exact Htb|exact Hhs|exact (Forall2_length _ _ _ Hl)|exact (Hd (8, 50%nat) ltac:(left))].
Defined.

(** ** What goes wrong *)

(** A handle that is only referred to by a message being sent is collected: the
    handler writes to it. *)
Lemma collected_handle_dangles :
  locked 15 ready_to_send ∧
  io_step false ready_to_send (file_descriptor_mt_gc 15 ready_to_send) ∧
  run_task answered (file_descriptor_mt_gc 15 ready_to_send) = None.
Proof.
  split_and!; [|by apply step_gc_handle|vm_compute; reflexivity].
  exists 1%nat, (set_progress (Completed is_ready) sending_op), [Lock 15 6; Lock 14 5], [].
  split_and!; [vm_compute; reflexivity|reflexivity|left].
Qed.

(** A path that does not fit: [send_to_with_fds] accepts it, and the exception
    its handler throws is not caught. *)
Definition long_path : bytes := repeat 97 200.
Definition datagram : io_state :=
  let st := do (CallNew unix_datagram_socket) [] with_table in
  with_values <[30%nat := UPath long_path]> st.
Definition sending_to : io_state :=
  do CallSendToWithFds [LUserdata 16; span; LUserdata 30; LTable 20] datagram.
Lemma long_path_terminates :
  is_Some (ops sending_to !! 1%nat) ∧
  (st ← reactor 1 RReady sending_to; run_task answered st) = None.
Proof. split; [by eexists|vm_compute; reflexivity]. Qed.

(** [send_to] throws after the socket was marked busy, which it stays. *)
Lemma long_path_stays_busy :
  (call CallUnixSendTo [LUserdata 16; span; LUserdata 30] datagram).2 = exception ∧
  nbusy <$> io_objects (do CallUnixSendTo [LUserdata 16; span; LUserdata 30] datagram) !! 16%nat
    = Some 1 ∧
  ops (do CallUnixSendTo [LUserdata 16; span; LUserdata 30] datagram) = ∅.
Proof. vm_compute. split_and!; reflexivity. Qed.

(** The fiber is interrupted while its handler is queued, and the kernel turns
    out not to be ready: it waits again, and nothing will interrupt it. *)
Lemma interruption_lost :
  let st := (interrupt [LUserdata 5] (third_runs ready_to_receive)).1 in
  let k := KernelAnswer RecvWouldBlock SendWouldBlock in
  ∃ st', run_task k st = Some st' ∧ ops st' !! 1%nat = Some receiving_op ∧
    ∃ row', fiber_list (vm st') !! 1%nat = Some row' ∧ interrupted row' = true ∧
      interrupter row' = None.
Proof. eexists. split_and!; [vm_compute; reflexivity|reflexivity|]. eexists. split_and!; reflexivity. Qed.

(** Two fibers read from a pipe; the interruption of one ends the read of the
    other, which gets operation_aborted. *)
Definition two_readers : io_state :=
  let st := do (CallPipeSome readable_pipe true) [LUserdata 12; span] piped in
  do (CallPipeSome readable_pipe true) [LUserdata 12; span] (third_runs st).
Definition again_first (st : io_state) : io_state :=
  with_vm (λ vm, with_current_fiber (λ _, 4%nat) (set_thread 4 (CoRunning []) vm)) st.
Lemma other_reader_aborted :
  (λ op, op_progress op) <$>
    ops (interrupt [LUserdata 5] (again_first two_readers)).1 !! 3%nat =
  Some (Completed (Completion (Some operation_aborted) 0 None INVALID_FILE_DESCRIPTOR)).
Proof. vm_compute. reflexivity. Qed.
End Examples.
