(* ===== verification/Path.v ===== *)
(** [std::filesystem::path] on POSIX systems: the members the sources use, on
    native strings.

    A path is its string; what identifies a file's name is the sequence of its
    elements, [path_key]: [operator==] and the hash of the maps only see that.
    A trailing separator is an element of its own, the empty one. *)
From S2P Require Import Prelude.

Definition separator : Z := 47.                          (* '/' *)
Abbreviation path := bytes (only parsing).

(** * Elements *)

(** The names between separators; [cur] is the one being read. *)
Fixpoint names (s cur : bytes) : list bytes :=
  match s with
  | [] => if decide (cur = []) then [] else [cur]
  | c :: s =>
      if decide (c = separator) then
        if decide (cur = []) then names s [] else cur :: names s []
      else names s (cur ++ [c])
  end.
Definition has_root_directory (p : path) : bool := bool_decide (head p = Some separator).
Definition is_absolute : path → bool := has_root_directory.
Definition ends_with_separator (p : path) : bool := bool_decide (last p = Some separator).

(** The elements but the root directory: a separator at the end of a name gives
    an empty one. *)
Definition elements_of (p : path) : list bytes :=
  names p [] ++ (if ends_with_separator p && negb (bool_decide (names p [] = []))
                 then [[]] else []).
Definition path_key (p : path) : bool * list bytes := (has_root_directory p, elements_of p).
Definition path_eq (p q : path) : bool := bool_decide (path_key p = path_key q).

(** * Members *)

Definition has_filename (p : path) : bool :=
  negb (bool_decide (p = [])) && negb (ends_with_separator p).
(** [operator/] *)
Definition append (p q : path) : path :=
  if is_absolute q then q
  else if has_filename p then p ++ [separator] ++ q
  else p ++ q.
Declare Scope path_scope.
Infix "//" := append (at level 40, left associativity) : path_scope.
#[local] Open Scope path_scope.

(** What is left of a string when its last characters with [f] are dropped. *)
Fixpoint strip (f : Z → bool) (s : bytes) : bytes :=
  match s with
  | [] => []
  | c :: s =>
      match strip f s with
      | [] => if f c then [] else [c]
      | s' => c :: s'
      end
  end.
Definition is_separator (c : Z) : bool := bool_decide (c = separator).

(** [parent_path]: a path without names is its own parent. *)
Definition parent_path (p : path) : path :=
  if decide (names p [] = []) then p
  else
    match strip is_separator (strip (negb ∘ is_separator) p) with
    | [] => if has_root_directory p then [separator] else []
    | d => d
    end.
Definition has_parent_path (p : path) : bool := negb (bool_decide (parent_path p = [])).
Definition filename (p : path) : bytes := default [] (last (elements_of p)).

(** [std::filesystem::absolute], given the current directory. *)
Definition absolute (cwd p : path) : path := if is_absolute p then p else cwd // p.

(** * Lemmas *)

(** A name that can be an element of a path. *)
Definition simple (n : bytes) : Prop := n ≠ [] ∧ separator ∉ n.

Lemma names_plain n s cur :
  separator ∉ n → names (n ++ s) cur = names s (cur ++ n).
Proof.
  revert cur. induction n as [|c n IH]; intros cur Hn; simpl; [by rewrite app_nil_r|].
  apply not_elem_of_cons in Hn as [Hc Hn]. rewrite decide_False by done.
  by rewrite IH, <- app_assoc.
Qed.

Lemma names_split s t cur :
  names (s ++ separator :: t) cur = names s cur ++ names t [].
Proof.
  revert cur. induction s as [|c s IH]; intros cur; simpl.
  - by repeat case_decide.
  - repeat case_decide; simplify_eq/=; by rewrite ?IH.
Qed.

Lemma names_simple n : simple n → names n [] = [n].
Proof.
  intros [Hn Hs]. rewrite <- (app_nil_r n) at 1. rewrite names_plain by done. simpl.
  by rewrite decide_False.
Qed.

Lemma names_separators s : Forall (λ c, c = separator) s → names s [] = [].
Proof. induction 1 as [|c s -> _ IH]; simpl; [done|]. exact IH. Qed.

(** A string is what [strip] leaves and characters with [f]. *)
Lemma strip_spec f s :
  ∃ t, s = strip f s ++ t ∧ Forall (λ c, f c = true) t ∧
    match last (strip f s) with Some c => f c = false | None => True end.
Proof.
  induction s as [|c s (t & E & Ht & Hl)]; simpl; [by exists []|].
  destruct (strip f s) as [|d s'] eqn:Es.
  - destruct (f c) eqn:Hc.
    + exists (c :: t). split_and!; [by rewrite E|by constructor|done].
    + exists t. split_and!; [by rewrite E|done|done].
  - exists t. split_and!; [by rewrite E|done|]. by rewrite last_cons_cons.
Qed.

Lemma names_strip s : names (strip is_separator s) [] = names s [].
Proof.
  destruct (strip_spec is_separator s) as (t & E & Ht & _). rewrite E at 2.
  destruct t as [|c t]; [by rewrite app_nil_r|].
  apply Forall_cons in Ht as [Hc Ht]. apply bool_decide_eq_true in Hc as ->.
  rewrite names_split, (names_separators t); [by rewrite app_nil_r|].
  eapply Forall_impl; [done|]. intros c Hc. by apply bool_decide_eq_true in Hc.
Qed.

Lemma last_separator p :
  ends_with_separator p = true → names p [] ≠ [] →
  elements_of p = names p [] ++ [[]].
Proof. intros E Hn. unfold elements_of. rewrite E, bool_decide_false by done. done. Qed.
Lemma elements_of_names p : ends_with_separator p = false → elements_of p = names p [].
Proof. intros E. unfold elements_of. rewrite E. simpl. by rewrite app_nil_r. Qed.

Lemma simple_no_root n : simple n → has_root_directory n = false.
Proof.
  intros [Hn Hs]. apply bool_decide_eq_false. destruct n as [|c n]; [done|].
  intros [= ->]. apply Hs. by left.
Qed.
Lemma simple_end p n : simple n → ends_with_separator (p ++ n) = false.
Proof.
  intros [Hn Hs]. apply bool_decide_eq_false. rewrite last_app.
  destruct (last n) as [c|] eqn:E; [|by apply last_None in E].
  intros [= ->]. apply Hs. apply last_Some in E as [l ->]. set_solver.
Qed.

(** Adding a name to a path adds an element. *)
Lemma key_append p n :
  simple n → path_key (p // n) = (has_root_directory p, names p [] ++ [n]).
Proof.
  intros Hs. unfold append, is_absolute. rewrite simple_no_root by done.
  unfold path_key, has_filename.
  destruct (bool_decide_reflect (p = [])) as [->|Hp]; simpl.
  { rewrite simple_no_root, elements_of_names, names_simple by (done || by apply (simple_end [])).
    done. }
  assert (∀ q, has_root_directory (p ++ q) = has_root_directory p) as Hroot.
  { intros q. by destruct p. }
  destruct (ends_with_separator p) eqn:E; simpl; rewrite Hroot, elements_of_names.
  - pose proof E as E'. apply bool_decide_eq_true, last_Some in E' as [l ->].
    rewrite <- app_assoc. simpl. rewrite !names_split. simpl.
    by rewrite (names_simple n), app_nil_r.
  - by apply simple_end.
  - by rewrite names_split, (names_simple n).
  - change (p ++ separator :: n) with (p ++ [separator] ++ n). rewrite app_assoc.
    by apply simple_end.
Qed.

Lemma names_append p n : simple n → names (p // n) [] = names p [] ++ [n].
Proof.
  intros Hs. pose proof (key_append p n Hs) as [= _ E].
  destruct (ends_with_separator (p // n)) eqn:He; [|by rewrite elements_of_names in E].
  exfalso. unfold append, is_absolute in He. rewrite simple_no_root in He by done.
  destruct (has_filename p).
  - rewrite app_assoc in He. by rewrite simple_end in He.
  - by rewrite simple_end in He.
Qed.

(** Its parent has one element less. *)
Lemma key_parent p :
  names p [] ≠ [] →
  path_key (parent_path p) = (has_root_directory p, take (length (elements_of p) - 1) (elements_of p)).
Proof.
  intros Hn. unfold parent_path. rewrite decide_False by done.
  destruct (strip_spec (negb ∘ is_separator) p) as (f & Ep & Hf & Hl).
  set (d := strip (negb ∘ is_separator) p) in *.
  assert (separator ∉ f) as Hsep.
  { intros Hin. rewrite Forall_forall in Hf. apply Hf in Hin. by compute in Hin. }
  assert (names p [] = names d [] ++ (if decide (f = []) then [] else [f])) as En.
  { rewrite Ep. destruct (decide (f = [])) as [->|Hfn]; [by rewrite !app_nil_r|].
    destruct (last d) as [c|] eqn:Ed.
    - apply last_Some in Ed as [l El]. rewrite El. simpl in Hl.
      assert (c = separator) as ->.
      { unfold is_separator in Hl. by destruct (bool_decide_reflect (c = separator)). }
      rewrite <- app_assoc. simpl. rewrite !names_split. simpl.
      by rewrite app_nil_r, (names_simple f).
    - apply last_None in Ed. rewrite Ed. simpl. by rewrite names_simple. }
  assert (take (length (elements_of p) - 1) (elements_of p) = names d []) as ->.
  { destruct (ends_with_separator p) eqn:E.
    - rewrite last_separator, length_app, Nat.add_sub, take_app_length by done.
      rewrite En. destruct (decide (f = [])); [by rewrite app_nil_r|].
      rewrite Ep in E. by rewrite simple_end in E.
    - rewrite elements_of_names, En by done. destruct (decide (f = [])) as [->|Hfn].
      + exfalso. rewrite app_nil_r in Ep, En.
        destruct (last d) as [c|] eqn:Ed; [|apply last_None in Ed; by rewrite En, Ed in Hn].
        apply bool_decide_eq_false in E. rewrite Ep, Ed in E. simpl in Hl.
        unfold is_separator in Hl. by destruct (bool_decide_reflect (c = separator)) as [->|].
      + by rewrite length_app, Nat.add_sub, take_app_length. }
  destruct (strip_spec is_separator d) as (t & Ed & Ht & Hlast).
  destruct (strip is_separator d) as [|c s] eqn:Es.
  - rewrite <- (names_strip d), Es. destruct (has_root_directory p) eqn:Hr; by unfold path_key; rewrite ?Hr.
  - unfold path_key. rewrite elements_of_names.
    + rewrite <- Es, names_strip. f_equal. rewrite Es, Ep, Ed. done.
    + apply bool_decide_eq_false. intros Hsome. rewrite Hsome in Hlast. by compute in Hlast.
Qed.
