(* ===== verification/RdfCategory.v ===== *)
(** Error categories written in Turtle: [load_rdf_error_category] of
    [src/src/state.ypp].

    The reader of Turtle and the store of its statements are the library Sord,
    which is not in the sources: the class [Sord] is what the function asks of
    it.  A model is the list of its statements; [find] gives those that match, in
    the order of the list. *)
From S2P Require Import Prelude Errors Lua StringView CoreErrors ErrorModules.

(** * Nodes and statements *)
Inductive node : Set :=
| Uri (u : bytes)
| Blank (id : bytes)
| Literal (text : bytes) (datatype : option bytes) (language : option bytes).
#[export] Instance node_eq_dec : EqDecision node.
Proof. solve_decision. Defined.

Record statement : Set := Statement { subject : node; predicate : node; object : node }.

Class Sord := {
  load_string : bytes → bytes → list statement;     (* base URI, contents *)
  is_int : node → bool;
  to_int : node → Z;
}.

Definition find_objects (model : list statement) (s p : node) : list node :=
  object <$> filter (λ st, subject st = s ∧ predicate st = p) model.

Definition uri (s : string) : node := Uri (lit s).
Definition module_node : node := uri "about:emilua-module".
Definition category_schema : node := uri "https://schema.emilua.org/error_category/0/".
Definition type_property : node := uri "http://www.w3.org/1999/02/22-rdf-syntax-ns#type".
Definition error_property : node := uri "https://schema.emilua.org/error_category/0/#error".
Definition code_property : node := uri "https://schema.emilua.org/error_category/0/#code".
Definition alias_property : node := uri "https://schema.emilua.org/error_category/0/#alias".
Definition message_property : node := uri "https://schema.emilua.org/error_category/0/#message".
Definition generic_error_property : node :=
  uri "https://schema.emilua.org/error_category/0/#generic_error".

(** * The category that is built *)
Record category : Set := Category {
  name_ : bytes;
  messages : gmap Z (list (bytes * bytes));       (* by locale, in order *)
  aliases : gmap bytes Z;
  generic_errors : gmap Z std_errc;
}.
(** Its part that gives messages. *)
Definition error_category (c : category) : Rdf.rdf_error_category :=
  Rdf.Category (name_ c) (messages c) (generic_errors c).

(** [std::string]'s order: of the octets. *)
Fixpoint string_lt (s t : bytes) : bool :=
  match s, t with
  | _, [] => false
  | [], _ :: _ => true
  | a :: s, b :: t => bool_decide (a < b)%Z || bool_decide (a = b)%Z && string_lt s t
  end.
(** [emplace] of a [std::map]; [None] when the key is there. *)
Fixpoint insert_sorted (k v : bytes) (l : list (bytes * bytes)) : list (bytes * bytes) :=
  match l with
  | [] => [(k, v)]
  | (k', v') :: l' => if string_lt k k' then (k, v) :: l else (k', v') :: insert_sorted k v l'
  end.
Definition emplace (k v : bytes) (l : list (bytes * bytes)) : option (list (bytes * bytes)) :=
  if decide (k ∈ l.*1) then None else Some (insert_sorted k v l).

Definition bad_category : error_code := Core.bad_rdf_error_category.

(** A literal without datatype. *)
Definition plain_literal (n : node) : option (bytes * option bytes) :=
  match n with Literal text None lang => Some (text, lang) | _ => None end.

(** Each loop over the objects of a property ends with an error or goes on. *)
Fixpoint each {A} (f : node → A → error_code + A) (l : list node) (a : A) : error_code + A :=
  match l with
  | [] => inr a
  | n :: l => match f n a with inl e => inl e | inr a => each f l a end
  end.

Definition add_alias (code : Z) (n : node) (c : category) : error_code + category :=
  match plain_literal n with
  | Some (text, _) =>
      match aliases c !! text with
      | Some _ => inl bad_category
      | None => inr (Category (name_ c) (messages c) (<[text := code]> (aliases c)) (generic_errors c))
      end
  | None => inl bad_category
  end.

(** The first hyphen of a language tag becomes an underscore. *)
Fixpoint locale_of (lang : bytes) : bytes :=
  match lang with
  | [] => []
  | c :: l => if decide (c = 45)%Z then 95%Z :: l else c :: locale_of l
  end.
Definition messages_of (code : Z) (c : category) : list (bytes * bytes) :=
  default [] (messages c !! code).
Definition set_messages (code : Z) (ms : list (bytes * bytes)) (c : category) : category :=
  Category (name_ c) (<[code := ms]> (messages c)) (aliases c) (generic_errors c).
Definition add_message (code : Z) (n : node) (c : category) : error_code + category :=
  match plain_literal n with
  | Some (text, lang) =>
      let locale := match lang with Some l => locale_of l | None => [] end in
      match emplace locale text (messages_of code c) with
      | Some ms => inr (set_messages code ms c)
      | None => inl bad_category
      end
  | None => inl bad_category
  end.

(** [messages[code]] makes an entry when there is none. *)
Definition check_default_message (code : Z) (c : category) : error_code + category :=
  let ms := messages_of code c in
  let c := set_messages code ms c in
  if decide ([] ∈ ms.*1) then inr c else inl bad_category.

Definition add_generic_error (code : Z) (n : node) (c : category) : error_code + category :=
  match plain_literal n with
  | Some (text, _) =>
      match Generic.posix_errno_code_from_name text with
      | Some ge =>
          match generic_errors c !! code with
          | Some _ => inl bad_category
          | None => inr (Category (name_ c) (messages c) (aliases c) (<[code := ge]> (generic_errors c)))
          end
      | None => inl bad_category
      end
  | None => inl bad_category
  end.

Section load.
Context `{Sord}.

Definition add_error (model : list statement) (n : node) (c : category) : error_code + category :=
  match find_objects model n code_property with
  | [] => inl bad_category
  | code :: _ =>
      if is_int code then
        let code := to_int code in
        match each (add_alias code) (find_objects model n alias_property) c with
        | inl e => inl e
        | inr c =>
            match each (add_message code) (find_objects model n message_property) c with
            | inl e => inl e
            | inr c =>
                match check_default_message code c with
                | inl e => inl e
                | inr c =>
                    each (add_generic_error code) (find_objects model n generic_error_property) c
                end
            end
        end
      else inl bad_category
  end.

(** The one type of the module, a URI. *)
Fixpoint module_type (l : list node) (type : option node) : error_code + option node :=
  match l with
  | [] => inr type
  | n :: l =>
      match type, n with
      | None, Uri _ => module_type l (Some n)
      | _, _ => inl (Core.bad_rdf_module : error_code)
      end
  end.

(** What the function does once the file is read. *)
Definition make_category (module_path contents : bytes) : error_code + category :=
  let base_uri := lit "file://" ++ module_path in
  let model := load_string base_uri contents in
  if decide (model = []) then inl (Core.bad_rdf : error_code)
  else
    match module_type (find_objects model module_node type_property) None with
    | inl e => inl e
    | inr None => inl (Core.bad_rdf_module : error_code)
    | inr (Some type) =>
        if decide (type ≠ category_schema) then inl bad_category
        else
          each (add_error model) (find_objects model module_node error_property)
            (Category base_uri ∅ ∅ ∅)
    end.

End load.

(** * Promises *)

Lemma insert_sorted_perm k v l : insert_sorted k v l ≡ₚ (k, v) :: l.
Proof.
  induction l as [|[k' v'] l IH]; simpl; [done|].
  destruct (string_lt k k'); [done|]. rewrite IH. constructor.
Qed.

(** What a category under construction keeps: locales are different, and aliases
    and generic errors are of codes with messages or of the code [n] that is
    being read. *)
Record sane (n : Z → Prop) (c : category) : Prop := {
  sane_locales : ∀ code ms, messages c !! code = Some ms → NoDup ms.*1;
  sane_default : ∀ code ms, messages c !! code = Some ms → [] ∈ ms.*1 ∨ n code;
  sane_aliases : ∀ a code, aliases c !! a = Some code → is_Some (messages c !! code) ∨ n code;
  sane_generic : ∀ code e, generic_errors c !! code = Some e → is_Some (messages c !! code);
}.

(** It only grows. *)
Record grown (c c' : category) : Prop := {
  grown_messages : ∀ code ms m, messages c !! code = Some ms → m ∈ ms →
    ∃ ms', messages c' !! code = Some ms' ∧ m ∈ ms';
  grown_codes code : is_Some (messages c !! code) → is_Some (messages c' !! code);
  grown_aliases : aliases c ⊆ aliases c';
  grown_generic : generic_errors c ⊆ generic_errors c';
}.
#[export] Instance grown_preorder : PreOrder grown.
Proof.
  split; [split; eauto|]. intros c1 c2 c3 [M1 C1 A1 G1] [M2 C2 A2 G2].
  split; [|by eauto|by trans (aliases c2)|by trans (generic_errors c2)].
  intros code ms m H1 H2. destruct (M1 _ _ _ H1 H2) as (ms' & ? & ?). eauto.
Qed.

(** A loop that succeeds did so for every node, and keeps what each does. *)
Lemma each_spec (P : category → Prop) (Q : node → category → Prop) f l c c' :
  (∀ n c c', n ∈ l → P c → f n c = inr c' → P c' ∧ grown c c' ∧ Q n c') →
  (∀ n c c', grown c c' → Q n c → Q n c') →
  P c → each f l c = inr c' → P c' ∧ grown c c' ∧ ∀ n, n ∈ l → Q n c'.
Proof.
  intros Hf HQ. revert c. induction l as [|n l IH]; intros c HP E; simpl in E.
  { simplify_eq/=. split_and!; [done|done|]. intros n []%elem_of_nil. }
  destruct (f n c) as [|c1] eqn:E1; [done|].
  destruct (Hf n c c1) as (HP1 & G1 & Q1); [by left|done..|].
  destruct (IH (λ m c2 c3 Hm, Hf m c2 c3 (list_elem_of_further _ _ _ Hm)) c1 HP1 E) as (HP2 & G2 & Q2).
  split_and!; [done|by trans c1|]. intros m [->|Hm]%elem_of_cons; eauto.
Qed.

(** What each statement of a category says of the result. *)
Definition alias_read (code : Z) (n : node) (c : category) : Prop :=
  ∃ text lang, n = Literal text None lang ∧ aliases c !! text = Some code.
Definition message_read (code : Z) (n : node) (c : category) : Prop :=
  ∃ text lang ms, n = Literal text None lang ∧ messages c !! code = Some ms ∧
    (from_option locale_of [] lang, text) ∈ ms.
Definition generic_read (code : Z) (n : node) (c : category) : Prop :=
  ∃ text lang e, n = Literal text None lang ∧
    Generic.posix_errno_code_from_name text = Some e ∧ generic_errors c !! code = Some e.

Lemma plain_literal_Some n text lang :
  plain_literal n = Some (text, lang) → n = Literal text None lang.
Proof. destruct n as [| |text' [] lang']; simpl; congruence. Qed.

Lemma add_alias_spec code n c c' :
  sane (eq code) c → add_alias code n c = inr c' →
  sane (eq code) c' ∧ grown c c' ∧ alias_read code n c'.
Proof.
  intros [L D A G] E. unfold add_alias in E.
  destruct (plain_literal n) as [[text lang]|] eqn:En; [|done].
  destruct (aliases c !! text) eqn:Ea; simplify_eq/=. split_and!.
  - split; simpl; try done. intros a code'. rewrite lookup_insert_Some.
    intros [[<- <-]|[_ Hs]]; eauto.
  - split; simpl; [eauto|done| |done]. by apply insert_subseteq.
  - exists text, lang. split; [by apply plain_literal_Some|]. simpl. by rewrite lookup_insert_eq.
Qed.

Lemma messages_of_NoDup code c n : sane n c → NoDup (messages_of code c).*1.
Proof.
  intros [L _ _ _]. unfold messages_of. destruct (messages c !! code) eqn:E; simpl; [eauto|constructor].
Qed.

(** A code gets more messages. *)
Lemma set_messages_sane code ms c :
  sane (eq code) c → NoDup ms.*1 → (∀ m, m ∈ messages_of code c → m ∈ ms) →
  sane (eq code) (set_messages code ms c) ∧ grown c (set_messages code ms c).
Proof.
  intros [L D A G] Hnd Hsub. assert (∀ k, is_Some (messages c !! k) →
    is_Some (<[code := ms]> (messages c) !! k)) as Hmore.
  { intros k Hk. destruct (decide (code = k)) as [<-|]; [by rewrite lookup_insert_eq|].
    by rewrite lookup_insert_ne. }
  split; split; simpl; try done.
  - intros k ms'. rewrite lookup_insert_Some. intros [[<- <-]|[_ ?]]; eauto.
  - intros k ms'. rewrite lookup_insert_Some. intros [[<- <-]|[_ ?]]; eauto.
  - intros a k Hk. destruct (A a k Hk); eauto.
  - eauto.
  - intros k ms' m Hk Hm. destruct (decide (code = k)) as [<-|].
    + rewrite lookup_insert_eq. eexists; split; [done|]. apply Hsub. unfold messages_of.
      by rewrite Hk.
    + rewrite lookup_insert_ne by done. eauto.
Qed.

Lemma add_message_spec code n c c' :
  sane (eq code) c → add_message code n c = inr c' →
  sane (eq code) c' ∧ grown c c' ∧ message_read code n c'.
Proof.
  intros S E. unfold add_message in E.
  destruct (plain_literal n) as [[text lang]|] eqn:En; [|done].
  unfold emplace in E. case_decide as Hk; simplify_eq/=.
  set (locale := match lang with Some l => locale_of l | None => [] end) in *.
  set (ms := messages_of code c) in *. pose proof (insert_sorted_perm locale text ms) as Hp.
  destruct (set_messages_sane code (insert_sorted locale text ms) c S) as [S' G'].
  - rewrite Hp. simpl. constructor; [done|by eapply messages_of_NoDup].
  - intros m Hm. rewrite Hp. by right.
  - split_and!; [done|done|]. exists text, lang, (insert_sorted locale text ms). split_and!.
    + by apply plain_literal_Some.
    + simpl. by rewrite lookup_insert_eq.
    + rewrite Hp. destruct lang; by left.
Qed.

Lemma check_default_message_spec code c c' :
  sane (eq code) c → check_default_message code c = inr c' →
  sane (λ _, False) c' ∧ grown c c' ∧ is_Some (messages c' !! code).
Proof.
  intros S E. unfold check_default_message in E. case_decide as Hd; simplify_eq/=.
  destruct (set_messages_sane code (messages_of code c) c S) as [[L D A G] G']; [|done|].
  { by eapply messages_of_NoDup. }
  assert (is_Some (messages (set_messages code (messages_of code c) c) !! code)) as Hs.
  { simpl. by rewrite lookup_insert_eq. }
  split_and!; [|done|done]. split; [done| | |done].
  - intros k ms Hk. left. simpl in Hk. apply lookup_insert_Some in Hk as [[<- <-]|[Hne Hk]]; [done|].
    destruct (D k ms) as [|<-]; [by simpl; rewrite lookup_insert_ne|done|done].
  - intros a k Hk. left. by destruct (A a k Hk) as [|<-].
Qed.

Lemma add_generic_error_spec code n c c' :
  sane (λ _, False) c ∧ is_Some (messages c !! code) → add_generic_error code n c = inr c' →
  (sane (λ _, False) c' ∧ is_Some (messages c' !! code)) ∧ grown c c' ∧ generic_read code n c'.
Proof.
  intros [[L D A G] Hc] E. unfold add_generic_error in E.
  destruct (plain_literal n) as [[text lang]|] eqn:En; [|done].
  destruct (Generic.posix_errno_code_from_name text) as [e|] eqn:Ee; [|done].
  destruct (generic_errors c !! code) eqn:Eg; simplify_eq/=. split_and!; [|done| |].
  - split; simpl; try done. intros k e'. rewrite lookup_insert_Some. intros [[<- _]|[_ ?]]; eauto.
  - split; simpl; [eauto|done|done|]. by apply insert_subseteq.
  - exists text, lang, e. split_and!; [by apply plain_literal_Some|done|]. simpl.
    by rewrite lookup_insert_eq.
Qed.

Section promises.
Context `{Sord}.

(** An error of the module, as the category has it. *)
Definition error_read (model : list statement) (n : node) (c : category) : Prop :=
  ∃ code_node, head (find_objects model n code_property) = Some code_node ∧
    is_int code_node = true ∧ let code := to_int code_node in
    is_Some (messages c !! code) ∧
    (∀ m, m ∈ find_objects model n alias_property → alias_read code m c) ∧
    (∀ m, m ∈ find_objects model n message_property → message_read code m c) ∧
    (∀ m, m ∈ find_objects model n generic_error_property → generic_read code m c).

Lemma reads_grow code n c c' : grown c c' →
  (alias_read code n c → alias_read code n c') ∧
  (message_read code n c → message_read code n c') ∧
  (generic_read code n c → generic_read code n c').
Proof.
  intros [M _ A G]. split_and!.
  - intros (t & l & -> & E). exists t, l. split; [done|]. by eapply lookup_weaken.
  - intros (t & l & ms & -> & E & Hm). destruct (M _ _ _ E Hm) as (ms' & ? & ?). by exists t, l, ms'.
  - intros (t & l & e & -> & En & E). exists t, l, e. split_and!; [done|done|]. by eapply lookup_weaken.
Qed.

Lemma error_read_grows model n c c' : grown c c' → error_read model n c → error_read model n c'.
Proof.
  intros G (cn & Hc & Hi & Hs & HA & HM & HG). exists cn.
  simpl. split_and!; [done|done|by apply (grown_codes _ _ G)|..]; intros m Hm.
  - by eapply reads_grow; [|apply HA].
  - by eapply reads_grow; [|apply HM].
  - by eapply reads_grow; [|apply HG].
Qed.

Lemma add_error_spec model n c c' :
  sane (λ _, False) c → add_error model n c = inr c' →
  sane (λ _, False) c' ∧ grown c c' ∧ error_read model n c'.
Proof.
  intros S E. unfold add_error in E.
  destruct (find_objects model n code_property) as [|cn rest] eqn:Ec; [done|].
  destruct (is_int cn) eqn:Ei; [|done]. set (code := to_int cn) in *.
  assert (sane (eq code) c) as S0.
  { destruct S as [L D A G]. split; [done| | |done]; [intros k ms Hk|intros a k Hk]; left.
    - by destruct (D k ms Hk). - by destruct (A a k Hk). }
  destruct (each (add_alias code) _ c) as [|c1] eqn:E1; [done|].
  destruct (each (add_message code) _ c1) as [|c2] eqn:E2; [done|].
  destruct (check_default_message code c2) as [|c3] eqn:E3; [done|].
  apply (each_spec (sane (eq code)) (alias_read code)) in E1 as (S1 & G1 & R1);
    [|intros; by eapply add_alias_spec|intros ???? ; by eapply reads_grow|done].
  apply (each_spec (sane (eq code)) (message_read code)) in E2 as (S2 & G2 & R2);
    [|intros; by eapply add_message_spec|intros ????; by eapply reads_grow|done].
  apply check_default_message_spec in E3 as (S3 & G3 & Hs); [|done].
  apply (each_spec (λ c, sane (λ _, False) c ∧ is_Some (messages c !! code)) (generic_read code))
    in E as ([S4 Hs4] & G4 & R4);
    [|intros; by eapply add_generic_error_spec|intros ????; by eapply reads_grow|done].
  assert (grown c1 c') by (etrans; [done|]; by trans c3).
  assert (grown c2 c') by (by trans c3).
  split_and!; [done|by trans c1|]. exists cn. rewrite Ec. simpl.
  split_and!; [done|done|done| | |done]; intros m Hm.
  - eapply reads_grow; [|by apply R1]. done.
  - eapply reads_grow; [|by apply R2]. done.
Qed.

(** C17 When a module is accepted as an error category, everything its errors
    declare is in the category: aliases, messages by locale and generic errors
    are under their codes, no locale has two messages, and every code has a
    default message, so that asking for a message never throws. *)
Theorem category_complete module_path contents c :
  make_category module_path contents = inr c →
  (∀ n, n ∈ find_objects (load_string (lit "file://" ++ module_path) contents)
          module_node error_property →
     error_read (load_string (lit "file://" ++ module_path) contents) n c) ∧
  (∀ code ms, messages c !! code = Some ms → NoDup ms.*1 ∧ [] ∈ ms.*1) ∧
  (∀ a code, aliases c !! a = Some code → is_Some (messages c !! code)) ∧
  (∀ locale value, is_Some (Rdf.message (error_category c) locale value)).
Proof.
  unfold make_category. intros E. set (model := load_string _ _) in *. case_decide; [done|].
  destruct (module_type _ None) as [|[type|]] eqn:Et; [done| |done]. case_decide; [done|].
  apply (each_spec (sane (λ _, False)) (error_read model)) in E as ([L D A G] & _ & R).
  - split_and!; [exact R| | |].
    + intros code ms Hc. split; [eauto|]. by destruct (D _ _ Hc).
    + intros a code Ha. by destruct (A _ _ Ha).
    + intros locale value. edestruct (Rdf.message_defined (error_category c)) as (m & -> & _); [|by eexists].
      intros v ms Hv. by destruct (D _ _ Hv).
  - intros; by eapply add_error_spec.
  - intros ???. by apply error_read_grows.
  - by split.
Qed.
End promises.

(** * Examples *)
Module Examples.
Definition xsd_integer : bytes := lit "http://www.w3.org/2001/XMLSchema#integer".

(** A reader that knows one document: an error 1 with an alias, a default
    message, one in Portuguese, and the generic error EAGAIN. *)
Definition document : list statement :=
  [Statement module_node type_property category_schema;
   Statement module_node error_property (Blank (lit "e"));
   Statement (Blank (lit "e")) code_property (Literal (lit "1") (Some xsd_integer) None);
   Statement (Blank (lit "e")) alias_property (Literal (lit "EBROKEN") None None);
   Statement (Blank (lit "e")) message_property (Literal (lit "broken") None None);
   Statement (Blank (lit "e")) message_property (Literal (lit "quebrado") None (Some (lit "pt-BR")));
   Statement (Blank (lit "e")) generic_error_property (Literal (lit "EAGAIN") None None)].
#[local] Instance sord : Sord := {|
  load_string _ contents := if decide (contents = []) then [] else document;
  is_int n := match n with Literal _ (Some t) _ => bool_decide (t = xsd_integer) | _ => false end;
  to_int n := match n with Literal s _ _ => default 0%Z (Log.from_chars s) | _ => 0%Z end;
|}.
Definition loaded : error_code + category := make_category (lit "/m/e.ttl") (lit "x").

Example empty_refused : make_category (lit "/m/e.ttl") [] = inl (Core.bad_rdf : error_code).
Proof. reflexivity. Qed.
Example localised :
  match loaded with
  | inr c => Rdf.message (error_category c) (lit "LC_MESSAGES=pt_BR.UTF-8") 1 = Some (lit "quebrado")
  | inl _ => False
  end.
Proof. vm_compute. reflexivity. Qed.

Lemma category_complete_witness :
  ∃ c, loaded = inr c ∧
  (∀ n, n ∈ find_objects document module_node error_property → error_read document n c) ∧
  (∀ code ms, messages c !! code = Some ms → NoDup ms.*1 ∧ [] ∈ ms.*1) ∧
  (∀ a code, aliases c !! a = Some code → is_Some (messages c !! code)) ∧
  (∀ locale value, is_Some (Rdf.message (error_category c) locale value)).
Proof.
  destruct loaded as [e|c] eqn:E; [by vm_compute in E|]. exists c. split; [done|].
  exact (category_complete (lit "/m/e.ttl") (lit "x") c E).
Defined.
End Examples.
