(* ===== verification/Modules.v ===== *)
(** The module system: [src/src/state.ypp] ([require], [on_external_package],
    [start_module_fiber], [load_module_source], [load_native_module],
    [mark_module_as_loaded], what [make_vm] records of the entry point) and
    [src/bytecode/require.lua], [module_start_fn.lua].

    A module is a file that is run once, by a fiber of its own; the fiber that
    imports it waits for it, and gets the globals it left.  Paths are those of
    [Path]; the maps of the sources are keyed by the elements of a path.  What
    the VM does with fibers is [Vm].

    Files are what they are when a function looks: every function takes them as
    an argument.  The compiler of Lua, the tables of the built-in modules and
    the plugins are parameters. *)
From S2P Require Import Prelude Errors Lua Vm Path RdfCategory.
#[local] Open Scope path_scope.

(** * Names of modules: [src/include/emilua/modules.re] *)

Definition is_letter (c : Z) : bool :=
  bool_decide (65 ≤ c ≤ 90)%Z || bool_decide (97 ≤ c ≤ 122)%Z || bool_decide (c = 95)%Z.
Definition is_word_char (c : Z) : bool := is_letter c || bool_decide (48 ≤ c ≤ 57)%Z.

(** The longest prefix of word characters, and what follows. *)
Fixpoint word_prefix (s : bytes) : bytes * bytes :=
  match s with
  | c :: s' => if is_word_char c then let '(w, r) := word_prefix s' in (c :: w, r) else ([], s)
  | [] => ([], [])
  end.
(** [emilua_modnamepat] *)
Definition modnamepat (s : bytes) : option (bytes * bytes) :=
  match s with
  | c :: s' => if is_letter c then let '(w, r) := word_prefix s' in Some (c :: w, r) else None
  | [] => None
  end.
(** [*YYCURSOR == '\0']: a string is followed by a zero. *)
Definition at_zero (s : bytes) : bool :=
  match s with [] => true | c :: _ => bool_decide (c = 0)%Z end.

(** [loop_parse_dot]: the number of [../] and the name. *)
Fixpoint parse_dot (s : bytes) (nparents : nat) : option (nat * bytes) :=
  let name :=
    match modnamepat s with
    | Some (n, rest) => if at_zero rest then Some (nparents, n) else None
    | None => None
    end in
  match s with
  | a :: s1 =>
      match s1 with
      | b :: s2 =>
          match s2 with
          | c :: s3 =>
              if decide (a = 46 ∧ b = 46 ∧ c = 47)%Z then parse_dot s3 (S nparents) else name
          | [] => name
          end
      | [] => name
      end
  | [] => name
  end.

(** [loop_parse_slash]: the directories and the name.  [cur] is the component
    that is being read, [None] where a separator has to come. *)
Fixpoint parse_slash (s : bytes) (cur : option bytes) : option (list bytes * bytes) :=
  match s, cur with
  | [], Some (c :: n) => Some ([], c :: n)
  | [], _ => None
  | c :: s, None => if decide (c = separator) then parse_slash s (Some []) else None
  | c :: s, Some [] => if is_letter c then parse_slash s (Some [c]) else None
  | c :: s, Some n =>
      if is_word_char c then parse_slash s (Some (n ++ [c]))
      else if decide (c = 0)%Z then Some ([], n)
      else if decide (c = separator) then
        match parse_slash s (Some []) with
        | Some (dirs, name) => Some (n :: dirs, name)
        | None => None
        end
      else None
  end.

(** * Files *)
Inductive file : Set :=
| Regular (contents : bytes)
| Directory
| Unreachable (ec : error_code).        (* [stat] fails, but not with ENOENT *)
Record filesystem : Type := Filesystem {
  files : gmap (bool * list bytes) file;
  cwd : path;
}.

(** System calls take strings up to the first zero. *)
Fixpoint c_str (s : bytes) : bytes :=
  match s with
  | [] => []
  | c :: s => if decide (c = 0)%Z then [] else c :: c_str s
  end.
Definition fs_lookup (fs : filesystem) (p : path) : option file :=
  files fs !! path_key (absolute (cwd fs) (c_str p)).

(** What is thrown: an [std::system_error], or another [std::exception]. *)
Inductive exn : Set :=
| SystemError (ec : error_code)
| StdException (what : string).

Definition fs_exists (fs : filesystem) (p : path) : exn + bool :=
  match fs_lookup fs p with
  | Some (Unreachable ec) => inl (SystemError ec)
  | Some _ => inr true
  | None => inr false
  end.
(** The streams throw for what cannot be read and for what is empty. *)
Definition read_contents (fs : filesystem) (p : path) : exn + bytes :=
  match fs_lookup fs p with
  | Some (Regular []) => inl (SystemError Iostream_code)
  | Some (Regular contents) => inr contents
  | _ => inl (SystemError Iostream_code)
  end.

(** * State *)
Inductive ContextType : Set := regular_context | error_category_context | main | test | worker.
#[export] Instance context_eq_dec : EqDecision ContextType.
Proof. solve_decision. Defined.

Record import_data : Set := ImportData {
  is_leaf : bool;
  context : ContextType;
  import_root : path;
}.

(** What the VMs of a process share.  Keys are the elements of paths; a source is
    kept with its path as it was written. *)
Record app_context : Type := App {
  emilua_path : list path;
  modules_cache_registry : gmap (bool * list bytes) (path * bytes);
  rdf_ec_cache_registry : gmap (bool * list bytes) category;
  native_modules_cache_registry : gset bytes;
  visited_native_modules : gset bytes;
}.

(** A VM and its modules.  [module_paths] is the field [MODULE_PATH] of the fibers
    and [environments] their globals. *)
Record module_vm : Type := ModuleVm {
  vm : vm_context;
  app : app_context;
  import_tree : gmap (bool * list bytes) import_data;
  visited_external_packages : gset bytes;
  loaded_modules : gmap bytes lua_value;
  module_paths : gmap loc path;
  environments : gmap loc loc;
  categories : gmap loc category;
}.

Definition with_vm (f : vm_context → vm_context) (st : module_vm) : module_vm :=
  ModuleVm (f (vm st)) (app st) (import_tree st) (visited_external_packages st)
    (loaded_modules st) (module_paths st) (environments st) (categories st).
Definition with_app (f : app_context → app_context) (st : module_vm) : module_vm :=
  ModuleVm (vm st) (f (app st)) (import_tree st) (visited_external_packages st)
    (loaded_modules st) (module_paths st) (environments st) (categories st).
Definition with_import_tree (f : gmap (bool * list bytes) import_data → gmap (bool * list
    bytes) import_data) (st : module_vm) : module_vm :=
  ModuleVm (vm st) (app st) (f (import_tree st)) (visited_external_packages st)
    (loaded_modules st) (module_paths st) (environments st) (categories st).
Definition with_visited (f : gset bytes → gset bytes) (st : module_vm) : module_vm :=
  ModuleVm (vm st) (app st) (import_tree st) (f (visited_external_packages st))
    (loaded_modules st) (module_paths st) (environments st) (categories st).
Definition with_loaded_modules (f : gmap bytes lua_value → gmap bytes lua_value) (st :
    module_vm) : module_vm :=
  ModuleVm (vm st) (app st) (import_tree st) (visited_external_packages st) (f
    (loaded_modules st)) (module_paths st) (environments st) (categories st).
Definition with_module_paths (f : gmap loc path → gmap loc path) (st : module_vm) : module_vm :=
  ModuleVm (vm st) (app st) (import_tree st) (visited_external_packages st) (loaded_modules
    st) (f (module_paths st)) (environments st) (categories st).
Definition with_environments (f : gmap loc loc → gmap loc loc) (st : module_vm) : module_vm :=
  ModuleVm (vm st) (app st) (import_tree st) (visited_external_packages st) (loaded_modules
    st) (module_paths st) (f (environments st)) (categories st).
Definition with_categories (f : gmap loc category → gmap loc category) (st : module_vm) :
    module_vm :=
  ModuleVm (vm st) (app st) (import_tree st) (visited_external_packages st) (loaded_modules
    st) (module_paths st) (environments st) (f (categories st)).
Definition with_modules (f : gmap (bool * list bytes) (path * bytes) → gmap (bool * list
    bytes) (path * bytes)) (a : app_context) : app_context :=
  App (emilua_path a) (f (modules_cache_registry a)) (rdf_ec_cache_registry a)
    (native_modules_cache_registry a) (visited_native_modules a).
Definition with_rdf (f : gmap (bool * list bytes) category → gmap (bool * list bytes)
    category) (a : app_context) : app_context :=
  App (emilua_path a) (modules_cache_registry a) (f (rdf_ec_cache_registry a))
    (native_modules_cache_registry a) (visited_native_modules a).
Definition with_native (f : gset bytes → gset bytes) (a : app_context) : app_context :=
  App (emilua_path a) (modules_cache_registry a) (rdf_ec_cache_registry a) (f
    (native_modules_cache_registry a)) (visited_native_modules a).
Definition with_visited_native (f : gset bytes → gset bytes) (a : app_context) : app_context :=
  App (emilua_path a) (modules_cache_registry a) (rdf_ec_cache_registry a)
    (native_modules_cache_registry a) (f (visited_native_modules a)).

(** * What is not in the sources *)

(** [luaL_loadbuffer]: what it raises for a source it does not accept. *)
Class LuaCompiler := { luaL_loadbuffer : bytes → option rvalue }.

(** The plugins: whether the library and its symbol are there, and what their
    entry points do. *)
Class Plugins := {
  import_symbol : path → option exn;
  init_appctx : bytes → app_context → app_context;
  init_ioctx_services : bytes → option error_code;
  init_lua_module : bytes → error_code + lua_value;
}.

(** The tables the [init_..] functions put in the registry, and the options the
    program is built with. *)
Class Builtins := {
  module_table : string → lua_value;
  enable_plugins : bool;
  enable_file_io : bool;
}.

Section modules.
Context `{Sord} `{LuaCompiler} `{Plugins} `{Builtins}.

(** * The caches *)

Definition cached_source (p : path) (a : app_context) : option (path * bytes) :=
  modules_cache_registry a !! path_key p.

Definition load_module_source (fs : filesystem) (p : path) (a : app_context) :
    app_context * (exn + bytes) :=
  match cached_source p a with
  | Some (_, contents) => (a, inr contents)
  | None =>
      match read_contents fs p with
      | inl e => (a, inl e)
      | inr contents => (with_modules <[path_key p := (p, contents)]> a, inr contents)
      end
  end.

Definition load_rdf_error_category (fs : filesystem) (p : path) (a : app_context) :
    app_context * (exn + category) :=
  match rdf_ec_cache_registry a !! path_key p with
  | Some c => (a, inr c)
  | None =>
      match read_contents fs p with
      | inl e => (a, inl e)
      | inr contents =>
          match make_category p contents with
          | inl ec => (a, inl (SystemError ec))
          | inr c => (with_rdf <[path_key p := c]> a, inr c)
          end
      end
  end.

(** * Native modules *)

(** [std::getline] until the end of the file. *)
Fixpoint getlines (s cur : bytes) : list bytes :=
  match s with
  | [] => if decide (cur = []) then [] else [cur]
  | c :: s => if decide (c = 10)%Z then cur :: getlines s [] else getlines s (cur ++ [c])
  end.
Definition deps_path (pluginsdir : path) (id : bytes) : path := pluginsdir // (id ++ lit ".deps").
Definition read_deps (fs : filesystem) (pluginsdir : path) (id : bytes) : exn + list bytes :=
  let p := deps_path pluginsdir id in
  match fs_exists fs p with
  | inl e => inl e
  | inr false => inr []
  | inr true =>
      match fs_lookup fs p with
      | Some (Regular contents) => inr (getlines contents [])
      | _ => inl (SystemError Iostream_code)
      end
  end.

(** Each dependency in turn, until one throws. *)
Fixpoint load_deps (load : bytes → app_context → option (app_context * option exn))
    (deps : list bytes) (a : app_context) : option (app_context * option exn) :=
  match deps with
  | [] => Some (a, None)
  | id :: deps =>
      match load id a with
      | Some (a, None) => load_deps load deps a
      | r => r
      end
  end.

(** [fuel] bounds the depth of the recursion; [None] when it is not enough. *)
Fixpoint load_native_module (fuel : nat) (fs : filesystem) (pluginsdir : path) (id : bytes)
    (a : app_context) : option (app_context * option exn) :=
  match fuel with
  | O => None
  | S fuel =>
      if decide (id ∈ native_modules_cache_registry a) then Some (a, None)
      else if decide (id ∈ visited_native_modules a) then
        Some (a, Some (SystemError Core.cyclic_import))
      else
        let a := with_visited_native ({[id]} ∪.) a in
        match read_deps fs pluginsdir id with
        | inl e => Some (a, Some e)
        | inr deps =>
            match load_deps (load_native_module fuel fs pluginsdir) deps a with
            | Some (a, None) =>
                match import_symbol (pluginsdir // id) with
                | Some e => Some (a, Some e)
                | None => Some (init_appctx id (with_native ({[id]} ∪.) a), None)
                end
            | r => r
            end
        end
  end.

(** Only the modules with a file of dependencies lead to others. *)
Definition native_fuel (fs : filesystem) : nat := size (files fs) + 2.

(** * Where modules are *)

Definition leaf_path (dir : path) (id : bytes) : path := dir // (id ++ lit ".lua").
Definition tree_path (dir : path) (id : bytes) : path := dir // id // lit "init.lua".
Definition category_path (dir : path) (id : bytes) : path := dir // (id ++ lit ".ttl").

(** [fs::exists], its exceptions passed on. *)
Definition if_exists {A} (fs : filesystem) (p : path) (yes : A) (no : exn + A) : exn + A :=
  match fs_exists fs p with
  | inl e => inl e
  | inr true => inr yes
  | inr false => no
  end.
Definition not_found {A} : exn + A := inl (SystemError Core.module_not_found).

(** A module next to the importer, and whether it is a leaf. *)
Definition find_relative (fs : filesystem) (a : app_context) (dir : path) (id : bytes) :
    exn + (path * bool) :=
  let leaf := (leaf_path dir id, true) in
  let tree := (tree_path dir id, false) in
  if decide (is_Some (cached_source (leaf_path dir id) a)) then inr leaf
  else if decide (is_Some (cached_source (tree_path dir id) a)) then inr tree
  else if_exists fs (leaf_path dir id) leaf
        (if_exists fs (tree_path dir id) tree not_found).

(** What a name stands for. *)
Inductive found : Type :=
| FoundModule (p : path) (leaf : bool)
| FoundCategory (c : category)
| FoundNative.
Definition found_category (r : exn + category) : exn + found :=
  match r with inl e => inl e | inr c => inr (FoundCategory c) end.

(** [push(L, e.code(), ..); return lua_error(L);], or the text of the exception. *)
Definition raise_exn (info : option err_info) (e : exn) : answer :=
  match e with
  | SystemError ec => Error (RE ec) info
  | StdException what => ErrorString what
  end.
Definition error_module (ec : error_code) (id : bytes) : answer :=
  Error (RE ec) (Some (ModuleId id)).

(** A module of the project, or an error category of it.  [id] is the whole name,
    which errors carry unless they come from the category itself. *)
Definition find_rooted (fs : filesystem) (a : app_context) (dir : path) (name id : bytes) :
    app_context * (answer + found) :=
  let leaf := FoundModule (leaf_path dir name) true in
  let tree := FoundModule (tree_path dir name) false in
  let ttl := category_path dir name in
  let fails e := inl (raise_exn (Some (ModuleId id)) e) in
  if decide (is_Some (cached_source (leaf_path dir name) a)) then (a, inr leaf)
  else if decide (is_Some (cached_source (tree_path dir name) a)) then (a, inr tree)
  else
    match rdf_ec_cache_registry a !! path_key ttl with
    | Some c => (a, inr (FoundCategory c))
    | None =>
        match fs_exists fs (leaf_path dir name) with
        | inl e => (a, fails e)
        | inr true => (a, inr leaf)
        | inr false =>
            match fs_exists fs (tree_path dir name) with
            | inl e => (a, fails e)
            | inr true => (a, inr tree)
            | inr false =>
                match fs_exists fs ttl with
                | inl e => (a, fails e)
                | inr false => (a, fails (SystemError Core.module_not_found))
                | inr true =>
                    let '(a, r) := load_rdf_error_category fs (absolute (cwd fs) ttl) a in
                    (a, match r with
                        | inl e => inl (raise_exn None e)
                        | inr c => inr (FoundCategory c)
                        end)
                end
            end
        end
    end.

(** A package under [p]; whatever is thrown sends the search to the next place. *)
Definition find_external (fs : filesystem) (a : app_context) (p : path) (id : bytes) :
    option (app_context * (exn + found)) :=
  let absolute := absolute (cwd fs) in
  match cached_source (absolute (leaf_path p id)) a with
  | Some (path, _) => Some (a, inr (FoundModule path true))
  | None =>
      match cached_source (absolute (tree_path p id)) a with
      | Some (path, _) => Some (a, inr (FoundModule path false))
      | None =>
          match rdf_ec_cache_registry a !! path_key (absolute (category_path p id)) with
          | Some c => Some (a, inr (FoundCategory c))
          | None =>
              match fs_exists fs (leaf_path p id) with
              | inl e => Some (a, inl e)
              | inr true => Some (a, inr (FoundModule (absolute (leaf_path p id)) true))
              | inr false =>
                  match fs_exists fs (tree_path p id) with
                  | inl e => Some (a, inl e)
                  | inr true => Some (a, inr (FoundModule (absolute (tree_path p id)) false))
                  | inr false =>
                      match fs_exists fs (category_path p id) with
                      | inl e => Some (a, inl e)
                      | inr true =>
                          let '(a, r) :=
                            load_rdf_error_category fs (absolute (category_path p id)) a in
                          Some (a, found_category r)
                      | inr false =>
                          if enable_plugins then
                            match load_native_module (native_fuel fs) fs p id a with
                            | Some (a, None) => Some (a, inr FoundNative)
                            | Some (a, Some e) => Some (a, inl e)
                            | None => None
                            end
                          else Some (a, not_found)
                      end
                  end
              end
          end
      end
  end.

(** * Importing *)

(** The fiber of a module: its row, its globals, and the importer that waits. *)
Definition start_module_fiber (lua_context : ContextType) (p : path) (source : bytes)
    (leaf : bool) (root : path) (st : module_vm) : module_vm * answer :=
  match luaL_loadbuffer source with
  | Some e => (st, Error e None)
  | None =>
      let current := current_fiber_ (vm st) in
      let fiber := next_loc (vm st) in
      let env := S fiber in
      let storage := fiber_list (vm st) !! current ≫= local_storage in
      let row := FiberData (JThread current) None 0 storage (DBoolean true) false None None None true in
      let start v :=
        post fiber skip_clear (set_thread fiber CoReady
          (with_fiber_list <[fiber := row]> (with_next_loc (λ _, S env) v))) in
      (with_vm start
         (with_import_tree <[path_key p := ImportData leaf lua_context root]>
            (with_module_paths <[fiber := p]> (with_environments <[fiber := env]> st))),
       Yield)
  end.

(** The values [require] of C++ returns to [require.lua]. *)
Definition imported (v : lua_value) : answer := Return [RV (LBoolean true); RV v].
Definition new_category (c : category) (st : module_vm) : module_vm * answer :=
  let u := next_loc (vm st) in
  (with_categories <[u := c]> (with_vm (with_next_loc S) st), imported (LUserdata u)).

(** The source of a module, from the cache or the file. *)
Definition with_source (fs : filesystem) (p : path) (info : option err_info) (st : module_vm)
    (k : bytes → module_vm → module_vm * answer) : module_vm * answer :=
  let '(a, r) := load_module_source fs p (app st) in
  let st := with_app (λ _, a) st in
  match r with
  | inl e => (st, raise_exn info e)
  | inr source => k source st
  end.

(** [plugin::init_ioctx_services] and [init_lua_module], once for a VM. *)
Definition import_native (id : bytes) (st : module_vm) : module_vm * answer :=
  match init_ioctx_services id with
  | Some ec => (st, error_module ec id)
  | None =>
      match init_lua_module id with
      | inl ec => (st, error_module ec id)
      | inr v => (with_loaded_modules <[id := v]> st, imported v)
      end
  end.

(** The package was visited by this call: unless its fiber starts, it is not. *)
Definition forget_package (already_loaded : bool) (id : bytes) (st : module_vm) : module_vm :=
  if already_loaded then st else with_visited (.∖ {[id]}) st.
Definition leave_package (already_loaded : bool) (id : bytes) (r : module_vm * answer) :
    module_vm * answer :=
  match r.2 with
  | Yield => r
  | _ => (forget_package already_loaded id r.1, r.2)
  end.

Definition on_external_module (fs : filesystem) (lua_context : ContextType) (id : bytes)
    (root : path) (already_loaded : bool) (p : path) (leaf : bool) (st : module_vm) :
    module_vm * answer :=
  match loaded_modules st !! p with
  | Some v => (st, if already_loaded then imported v else Stuck)      (* assert *)
  | None =>
      if already_loaded then (st, error_module Core.cyclic_import id)
      else
        with_source fs p (Some (ModuleId id)) st (λ source,
          start_module_fiber lua_context p source leaf root)
  end.

Fixpoint on_external_package (fs : filesystem) (lua_context : ContextType) (id : bytes)
    (places : list path) (st : module_vm) : module_vm * answer :=
  match places with
  | [] => (st, error_module Core.module_not_found id)
  | p :: places =>
      let already_loaded := bool_decide (id ∈ visited_external_packages st) in
      let st := with_visited ({[id]} ∪.) st in
      match find_external fs (app st) p id with
      | None => (st, Stuck)
      | Some (a, r) =>
          let st := with_app (λ _, a) st in
          match r with
          | inl _ =>
              on_external_package fs lua_context id places
                (forget_package already_loaded id st)
          | inr FoundNative =>
              if already_loaded then (st, Stuck)
              else leave_package already_loaded id (import_native id st)
          | inr (FoundCategory c) =>
              if already_loaded then (st, Stuck)
              else leave_package already_loaded id (new_category c st)
          | inr (FoundModule path leaf) =>
              leave_package already_loaded id
                (on_external_module fs lua_context id p already_loaded path leaf st)
          end
      end
  end.

(** The dispatch on the names of the built-in modules. *)
Definition builtin_modules : list string :=
  ["ffi"; "generic_error"; "asio_error"; "mutex"; "recursive_mutex"; "condition_variable";
   "future"; "inbox"; "json"; "time"; "filesystem"; "pipe"; "ip"; "file"; "unix"; "stream";
   "regex"; "serial_port"; "tls"; "system"]%string.
Definition builtin (id : bytes) : option string :=
  snd <$> list_find (λ name, lit name = id) builtin_modules.
Definition import_builtin (name : string) (st : module_vm) : module_vm * answer :=
  if decide (name = "file"%string ∧ enable_file_io = false) then
    (st, error function_not_supported)
  else
    let st :=
      if decide (name = "inbox"%string) then
        with_vm (λ v, Vm (valid_ v) (L_ v) (current_fiber_ v) (async_event_thread_ v)
          (lua_errmem v) (exit_request v) (failed_cleanup_handler_coro v)
          (suppress_tail_errors v) (deadlock_errors v) (panics v) (inbox_open v) true
          (threads v) (fiber_list v) (objects v) (strand v) (registry v) (next_loc v)) st
      else st in
    (st, imported (module_table name)).

(** [_FILE] of the function that calls [require]. *)
Inductive caller : Set :=
| TailCall                      (* there is no function to ask *)
| NoFile                        (* [_FILE] is not a path *)
| File (p : path).

(** Up [n] directories, but not beyond the root of the import. *)
Fixpoint go_up (n : nat) (root p : path) : option path :=
  match n with
  | O => Some p
  | S n =>
      if negb (has_parent_path p) || path_eq p root then None
      else go_up n root (parent_path p)
  end.

Definition import_relative (fs : filesystem) (lua_context : ContextType) (id : bytes)
    (importer : path) (data : import_data) (st : module_vm) : module_vm * answer :=
  let stripped := if decide (take 2 id = lit "./") then drop 2 id else id in
  match parse_dot stripped 0 with
  | None => (st, error_module Core.invalid_module_name id)
  | Some (nparents, name) =>
      if bool_decide (nparents = 0%nat) && is_leaf data then
        (st, error Core.leaf_cannot_import_child)
      else
        match go_up (nparents - (if is_leaf data then 1 else 0)) (import_root data)
                (parent_path importer) with
        | None => (st, error Core.root_cannot_import_parent)
        | Some dir =>
            match find_relative fs (app st) dir name with
            | inl e => (st, raise_exn (Some (ModuleId id)) e)
            | inr (p, leaf) =>
                match loaded_modules st !! p with
                | Some v => (st, imported v)
                | None =>
                    if decide (is_Some (import_tree st !! path_key p)) then
                      (st, error Core.cyclic_import)
                    else
                      with_source fs p None st (λ source,
                        start_module_fiber lua_context p source leaf (import_root data))
                end
            end
        end
  end.

Definition import_rooted (fs : filesystem) (lua_context : ContextType) (id : bytes)
    (data : import_data) (st : module_vm) : module_vm * answer :=
  match parse_slash id None with
  | None => (st, error_module Core.invalid_module_name id)
  | Some (dirs, name) =>
      let dir := fold_left append dirs (import_root data) in
      if decide (is_Some (import_tree st !! path_key dir)) then (st, error Core.cyclic_import)
      else
        let '(a, r) := find_rooted fs (app st) dir name id in
        let st := with_app (λ _, a) st in
        match r with
        | inl e => (st, e)
        | inr FoundNative => (st, Stuck)
        | inr (FoundCategory c) => new_category c st
        | inr (FoundModule p leaf) =>
            match loaded_modules st !! p with
            | Some v => (st, imported v)
            | None =>
                with_source fs p None st (λ source,
                  start_module_fiber lua_context p source leaf (import_root data))
            end
        end
  end.

(** The context of a module that is imported. *)
Definition context_of (importer : ContextType) (id : bytes) : ContextType :=
  match importer with
  | test => if decide (head id = Some 46%Z) then test else regular_context
  | _ => regular_context
  end.

Definition require (fs : filesystem) (from : caller) (L : lua_args) (st : module_vm) :
    module_vm * answer :=
  match arg L 1 with
  | Some (LString id) =>
      match from with
      | TailCall => (st, ErrorString "no function environment for tail call")
      | NoFile => (st, error Core.current_module_not_known)
      | File importer =>
          match import_tree st !! path_key importer with
          | None => (st, error Core.current_module_not_known)
          | Some data =>
              match fiber_list (vm st) !! current_fiber_ (vm st) with
              | None => (st, Stuck)
              | Some row =>
                  if negb (module_path row) then (st, error Core.only_main_fiber_may_import)
                  else
                    let lua_context := context_of (context data) id in
                    if decide (head id = Some 46%Z) then
                      import_relative fs lua_context id importer data st
                    else if decide (head id = Some separator) then
                      import_rooted fs lua_context id data st
                    else
                      match modnamepat id with
                      | Some (_, rest) =>
                          if at_zero rest then
                            match builtin id with
                            | Some name => import_builtin name st
                            | None =>
                                match (if enable_plugins then loaded_modules st !! id else None) with
                                | Some v => (st, imported v)
                                | None =>
                                    on_external_package fs lua_context id
                                      (emilua_path (app st)) st
                                end
                            end
                          else (st, error_module Core.invalid_module_name id)
                      | None => (st, error_module Core.invalid_module_name id)
                      end
              end
          end
      end
  | _ => (st, ErrorString "bad argument #1 to 'require' (string expected)")
  end.

(** [require.lua], with what [require] returned or the fiber was resumed with. *)
Definition require_lua (vals : list rvalue) : rvalue + rvalue :=
  match vals with
  | RV (LBoolean true) :: v :: _ => inr v
  | RV (LBoolean true) :: [] => inr (RV LNil)
  | _ :: e :: _ => inl e
  | _ => inl (RV LNil)
  end.

(** * The end of a module: [module_start_fn.lua] *)

(** [mark_module_as_loaded], whose result the fiber ends with. *)
Definition mark_module_as_loaded (st : module_vm) : option (module_vm * lua_value) :=
  let f := current_fiber_ (vm st) in
  p ← module_paths st !! f; env ← environments st !! f;
  Some (with_loaded_modules <[p := LTable env]> st, LTable env).
Definition module_returns (st : module_vm) : option module_vm :=
  '(st, v) ← mark_module_as_loaded st; Some (with_vm (fiber_epilogue (Finished [RV v])) st).
Definition module_raises (e : rvalue) (st : module_vm) : module_vm :=
  with_vm (fiber_epilogue (Failed e)) st.

(** * The entry point: what [make_vm] does with its path *)
Definition entry_module (fs : filesystem) (lua_context : ContextType) (entry_point root : path) :
    error_code + (path * import_data) :=
  match lua_context with
  | regular_context | error_category_context => inl (Core.bad_root_context : error_code)
  | main | test | worker =>
      let entry_point := absolute (cwd fs) entry_point in
      if decide (root = []) then
        inr (entry_point, ImportData false lua_context (parent_path entry_point))
      else
        inr (entry_point,
          ImportData (negb (bool_decide (filename entry_point = lit "init.lua"))) lua_context root)
  end.

(** * Steps *)

Definition suspend_current (a : answer) (st : module_vm) : module_vm :=
  match a with
  | Yield => with_vm (λ v, epilogue_yield (set_thread (current_fiber_ v) CoSuspended v)) st
  | _ => st
  end.

(** Where a module came from. *)
Inductive origin : Type :=
| Relative (p : path)
| Rooted (p : path)
| External (id : bytes) (p : path).
Definition origin_of (id : bytes) (p : path) : origin :=
  if decide (head id = Some 46%Z) then Relative p
  else if decide (head id = Some separator) then Rooted p
  else External id p.
(** The module whose fiber a call started. *)
Definition started (id : bytes) (st : module_vm) (r : module_vm * answer) : option origin :=
  match r.2 with
  | Yield => origin_of id <$> module_paths r.1 !! next_loc (vm st)
  | _ => None
  end.

(** Fibers that wait for a module. *)
Definition waits_for_module (st : module_vm) (f : loc) : Prop :=
  ∃ m row, fiber_list (vm st) !! m = Some row ∧ is_Some (module_paths st !! m) ∧
    joiner row = JThread f ∧ status row = None.

(** The strand has a task of a fiber at most, which does not run. *)
Definition queue_ok (v : vm_context) : Prop :=
  NoDup (task_fiber <$> strand v) ∧
  ∀ f, f ∈ task_fiber <$> strand v → f < next_loc v ∧ ¬ running v f.

(** What is not the module system: the other calls of fibers and the other VMs of
    the process, which only add to the caches.  Nothing but the end of its module
    wakes up a fiber that waits for it, and only the fibers of modules have a path. *)
Record other_step (st st' : module_vm) : Prop := {
  other_tree : import_tree st' = import_tree st;
  other_visited : visited_external_packages st' = visited_external_packages st;
  other_loaded : loaded_modules st' = loaded_modules st;
  other_paths : module_paths st' = module_paths st;
  other_environments : environments st' = environments st;
  other_places : emilua_path (app st') = emilua_path (app st);
  other_modules : ∀ k x, modules_cache_registry (app st) !! k = Some x →
    modules_cache_registry (app st') !! k = Some x;
  other_sources : ∀ k p c, modules_cache_registry (app st') !! k = Some (p, c) → path_key p = k;
  other_valid : valid_ (vm st') = valid_ (vm st);
  other_main : L_ (vm st') = L_ (vm st);
  other_next : (next_loc (vm st) ≤ next_loc (vm st'))%nat;
  other_rows : ∀ f row', fiber_list (vm st') !! f = Some row' → module_path row' = true →
    ∃ row, fiber_list (vm st) !! f = Some row ∧ module_path row = true;
  other_module_rows : ∀ f row, fiber_list (vm st) !! f = Some row → module_path row = true →
    ∃ row', fiber_list (vm st') !! f = Some row' ∧ module_path row' = true ∧
      joiner row' = joiner row ∧ status row' = status row ∧ user_handle row' = user_handle row;
  other_waiting : ∀ f, waits_for_module st f →
    threads (vm st') !! f = threads (vm st) !! f ∧
    (f ∈ task_fiber <$> strand (vm st') → f ∈ task_fiber <$> strand (vm st));
  other_alive : ∀ f row, fiber_list (vm st) !! f = Some row → module_path row = true →
    status row = None → ∀ r, threads (vm st') !! f ≠ Some (CoDead r);
  other_queue : queue_ok (vm st) → queue_ok (vm st');
  other_fresh : ∀ f, is_Some (fiber_list (vm st') !! f) → f < next_loc (vm st');
  other_dead : ∀ f r, threads (vm st) !! f = Some (CoDead r) → threads (vm st') !! f = Some (CoDead r);
}.

(** [label] is the module that starts.  Names are Lua strings without zeros: what
    the sources do with the others is shown by example. *)
Inductive module_step (st : module_vm) : option origin → module_vm → Prop :=
| step_require fs from id rest :
    valid_ (vm st) = true → running (vm st) (current_fiber_ (vm st)) →
    0%Z ∉ id → let r := require fs from (LString id :: rest) st in r.2 ≠ Stuck →
    module_step st (started id st r) (suspend_current r.2 r.1)
| step_return st' :
    valid_ (vm st) = true → running (vm st) (current_fiber_ (vm st)) →
    module_returns st = Some st' → module_step st None st'
| step_raise e :
    valid_ (vm st) = true → running (vm st) (current_fiber_ (vm st)) →
    is_Some (module_paths st !! current_fiber_ (vm st)) → module_step st None (module_raises e st)
| step_main_ends r :
    valid_ (vm st) = true → running (vm st) (current_fiber_ (vm st)) →
    current_fiber_ (vm st) = L_ (vm st) →
    module_step st None (with_vm (fiber_epilogue r) st)
| step_run f opts q v :
    (∀ g, ¬ running (vm st) g) → strand (vm st) = FiberResume f opts :: q →
    fiber_resume f opts (with_strand (λ _, q) (vm st)) = Some v →
    module_step st None (with_vm (λ _, v) st)
| step_other st' : other_step st st' → module_step st None st'.

(** Steps, with the modules that started, the last one first. *)
Inductive module_steps (st : module_vm) : list origin → module_vm → Prop :=
| steps_refl : module_steps st [] st
| steps_step l o st' st'' :
    module_steps st l st' → module_step st' o st'' →
    module_steps st (option_list o ++ l) st''.
End modules.
