(* ===== verification/ModulesSpec.v ===== *)
(** What names of modules stand for: the languages the parsers of [Modules] accept,
    and where the files they lead to are.  What [require] does to a VM: it either
    leaves the modules alone, or starts the fiber of one module, which was found
    where its name says. *)
From S2P Require Import Prelude Errors Lua StringView Vm Path RdfCategory Modules.
#[local] Open Scope path_scope.

(** * Names *)

(** [a-zA-Z_][a-zA-Z0-9_]* *)
Definition word (n : bytes) : Prop :=
  match n with c :: w => is_letter c = true ∧ Forall (λ c, is_word_char c = true) w | [] => False end.

Lemma word_char_plain c : is_word_char c = true → c ≠ 0%Z ∧ c ≠ 46%Z ∧ c ≠ separator.
Proof.
  unfold is_word_char, is_letter, separator. rewrite !orb_true_iff, !bool_decide_eq_true. lia.
Qed.
Lemma letter_word_char c : is_letter c = true → is_word_char c = true.
Proof. unfold is_word_char. by intros ->. Qed.
Lemma word_chars n : word n → Forall (λ c, is_word_char c = true) n.
Proof. destruct n as [|c n]; [done|]. intros [Hc Hn]. constructor; [by apply letter_word_char|done]. Qed.
Lemma word_without n c : word n → c ∈ n → c ≠ 0%Z ∧ c ≠ 46%Z ∧ c ≠ separator.
Proof. intros Hw%word_chars Hc. rewrite Forall_forall in Hw. by apply word_char_plain, Hw. Qed.

Lemma word_prefix_spec s :
  ∃ w r, word_prefix s = (w, r) ∧ s = w ++ r ∧ Forall (λ c, is_word_char c = true) w ∧
    match head r with Some c => is_word_char c = false | None => True end.
Proof.
  induction s as [|c s (w & r & E & -> & Hw & Hr)]; simpl; [by exists [], []|].
  destruct (is_word_char c) eqn:Hc.
  - rewrite E. exists (c :: w), r. split_and!; [done|done|by constructor|done].
  - exists [], (c :: w ++ r). by split_and!.
Qed.
Lemma word_prefix_word w r :
  Forall (λ c, is_word_char c = true) w →
  match head r with Some c => is_word_char c = false | None => True end →
  word_prefix (w ++ r) = (w, r).
Proof.
  induction 1 as [|c w Hc _ IH]; simpl; intros Hr.
  - destruct r as [|c r]; simpl in *; [done|]. by rewrite Hr.
  - by rewrite Hc, IH.
Qed.

(** The pattern matches a word as long as possible. *)
Lemma modnamepat_spec s n r :
  modnamepat s = Some (n, r) ↔
  s = n ++ r ∧ word n ∧ match head r with Some c => is_word_char c = false | None => True end.
Proof.
  unfold modnamepat. destruct s as [|c s]; split; try done.
  - intros (E & Hw & _). symmetry in E. apply app_eq_nil in E as [-> _]. done.
  - destruct (is_letter c) eqn:Hc; [|done].
    destruct (word_prefix_spec s) as (w & r' & -> & -> & Hw & Hr). intros [= <- <-].
    by split_and!.
  - intros (E & Hw & Hr). destruct n as [|c' n]; [done|]. simplify_eq/=. destruct Hw as [-> Hw].
    by rewrite word_prefix_word.
Qed.

Lemma at_zero_spec r : 0%Z ∉ r → at_zero r = true ↔ r = [].
Proof.
  destruct r as [|c r]; [done|]. intros Hz. simpl. rewrite bool_decide_eq_true.
  split; [|done]. intros ->. exfalso. apply Hz. by left.
Qed.

(** ** Names with dots *)
Definition parents (n : nat) : bytes := concat (replicate n (lit "../")).

Lemma parse_dot_step s n : parse_dot (lit "../" ++ s) n = parse_dot s (S n).
Proof. reflexivity. Qed.
Lemma parse_dot_parents m s n : parse_dot (parents m ++ s) n = parse_dot s (m + n).
Proof.
  revert n. induction m as [|m IH]; intros n; [done|].
  change (parents (S m)) with (lit "../" ++ parents m). rewrite <- app_assoc, parse_dot_step, IH.
  f_equal. lia.
Qed.
Lemma parse_dot_name s n :
  take 3 s ≠ lit "../" →
  parse_dot s n =
    match modnamepat s with
    | Some (w, rest) => if at_zero rest then Some (n, w) else None
    | None => None
    end.
Proof.
  intros Hs. destruct s as [|a [|b [|c s]]]; try done. simpl. rewrite decide_False; [done|].
  intros (-> & -> & ->). by apply Hs.
Qed.

(** The names that lead up are [../], any number of times, and a word. *)
Lemma parse_dot_spec s n m w :
  0%Z ∉ s → parse_dot s n = Some (m, w) ↔ n ≤ m ∧ s = parents (m - n) ++ w ∧ word w.
Proof.
  intros Hz. split.
  - remember (length s) as k eqn:Hk. revert s n Hk Hz. induction (lt_wf k) as [k _ IH].
    intros s n -> Hz E. destruct (decide (take 3 s = lit "../")) as [Ht|Ht].
    + assert (length (take 3 s) = 3) as Hl by (by rewrite Ht). rewrite length_take in Hl.
      assert (s = lit "../" ++ drop 3 s) as Es by (rewrite <- Ht; by rewrite take_drop).
      rewrite Es, parse_dot_step in E.
      apply (IH (length (drop 3 s))) in E as (Hle & Ed & Hw); [|rewrite length_drop; lia|done|].
      * split_and!; [lia| |done]. rewrite Es, Ed. replace (m - n) with (S (m - S n)) by lia.
        change (parents (S (m - S n))) with (lit "../" ++ parents (m - S n)). by rewrite app_assoc.
      * intros Hin. apply Hz. rewrite Es. apply elem_of_app. by right.
    + rewrite parse_dot_name in E by done. destruct (modnamepat s) as [[w' r]|] eqn:Em; [|done].
      apply modnamepat_spec in Em as (Es & Hw & _). destruct (at_zero r) eqn:Hr; simplify_eq/=.
      apply at_zero_spec in Hr as ->; [|set_solver]. rewrite app_nil_r, Nat.sub_diag. by split_and!.
  - intros (Hle & -> & Hw). rewrite parse_dot_parents, parse_dot_name.
    + destruct (modnamepat w) as [[w' r]|] eqn:Em.
      * pose proof (proj2 (modnamepat_spec w w [])) as Ew. rewrite Ew in Em; [|by rewrite app_nil_r].
        simplify_eq/=. repeat f_equal. lia.
      * pose proof (proj2 (modnamepat_spec w w [])) as Ew. rewrite Ew in Em; [done|by rewrite app_nil_r].
    + intros Ht. destruct w as [|c w]; [done|]. destruct Hw as [Hc _].
      simpl in Ht. injection Ht as -> _. by vm_compute in Hc.
Qed.

(** ** Names from the root *)
Definition slashed (dirs : list bytes) (n : bytes) : bytes :=
  concat (map (cons separator) (dirs ++ [n])).

Lemma parse_slash_word w r n :
  n ≠ [] → Forall (λ c, is_word_char c = true) w →
  parse_slash (w ++ r) (Some n) = parse_slash r (Some (n ++ w)).
Proof.
  intros Hn Hw. revert n Hn. induction Hw as [|c w Hc _ IH]; intros n Hn; simpl.
  - by rewrite app_nil_r.
  - destruct n as [|d n]; [done|]. rewrite Hc, IH by done. by rewrite <- app_assoc.
Qed.
Lemma parse_slash_component w r :
  word w → parse_slash (separator :: w ++ r) None = parse_slash r (Some w).
Proof.
  destruct w as [|c w]; [done|]. intros [Hc Hw]. simpl. rewrite Hc. by rewrite parse_slash_word.
Qed.

(** A component is a word; after it the name ends or a separator comes. *)
Lemma parse_slash_inv s n dirs w :
  0%Z ∉ s → match n with [] => True | _ => word n end →
  parse_slash s (Some n) = Some (dirs, w) →
  ∃ n' r, n ++ s = n' ++ r ∧ word n' ∧
    ((r = [] ∧ dirs = [] ∧ w = n') ∨
     ∃ s' dirs', r = separator :: s' ∧ dirs = n' :: dirs' ∧ parse_slash s' (Some []) = Some (dirs', w)).
Proof.
  revert n. induction s as [|c s IH]; intros n Hz Hn E; simpl in E.
  - destruct n as [|d n]; simplify_eq/=. exists (d :: n), []. split_and!; [done|done|by left].
  - apply not_elem_of_cons in Hz as [Hc0 Hz]. destruct n as [|d n].
    + destruct (is_letter c) eqn:Hc; [|done]. by apply (IH [c]) in E; [|done|by split].
    + destruct (is_word_char c) eqn:Hc.
      * apply (IH ((d :: n) ++ [c])) in E; [|done|].
        { destruct E as (n' & r & En & ? & ?). exists n', r. by rewrite <- En, <- app_assoc. }
        destruct Hn as [Hd Hn]. simpl. split; [done|]. apply Forall_app. by split; [|repeat constructor].
      * rewrite decide_False in E by done. case_decide as Hs; [|done]. subst c.
        destruct (parse_slash s (Some [])) as [[dirs' w']|] eqn:Es; simplify_eq/=.
        exists (d :: n), (separator :: s). split_and!; [done|done|]. right. by exists s, dirs'.
Qed.

(** The names from the root are words, each after a separator. *)
Lemma parse_slash_spec s dirs w :
  0%Z ∉ s → parse_slash s None = Some (dirs, w) ↔ s = slashed dirs w ∧ Forall word dirs ∧ word w.
Proof.
  intros Hz. split.
  - revert dirs. remember (length s) as k eqn:Hk. revert s Hk Hz.
    induction (lt_wf k) as [k _ IH]. intros s -> Hz dirs E. destruct s as [|c s]; [done|].
    simpl in E. case_decide as Hc; [|done]. subst c. apply not_elem_of_cons in Hz as [_ Hz].
    apply parse_slash_inv in E as (n & r & En & Hn & Hr); [|done|done]. simpl in En. subst s.
    destruct Hr as [(-> & -> & ->)|(s' & dirs' & -> & -> & E)].
    + unfold slashed. simpl. by rewrite !app_nil_r.
    + destruct (IH (length (separator :: s'))) with (s := separator :: s') (dirs := dirs')
        as (Es & Hd & Hw); [simpl; rewrite length_app; simpl; lia|done|set_solver|done|].
      split_and!; [|by constructor|done]. unfold slashed in *. simpl. by rewrite Es.
  - intros (-> & Hd & Hw). clear Hz. unfold slashed. induction Hd as [|d dirs Hd _ IH].
    + change (parse_slash (separator :: w ++ []) None = Some ([], w)).
      rewrite parse_slash_component by done. by destruct w.
    + assert (∃ t, concat (map (cons separator) (dirs ++ [w])) = separator :: t) as [t Et].
      { destruct dirs; simpl; by eexists. }
      change (parse_slash (separator :: d ++ concat (map (cons separator) (dirs ++ [w]))) None =
        Some (d :: dirs, w)).
      rewrite Et in IH |- *. rewrite parse_slash_component by done. simpl in IH |- *.
      destruct d as [|c d]; [done|]. by rewrite IH.
Qed.

(** * Places *)

(** A name that stays where it is. *)
Definition plain_name (n : bytes) : Prop := simple n ∧ n ≠ lit "." ∧ n ≠ lit "..".

(** A directory imports can be confined to: absolute, without a separator at its
    end. *)
Definition proper (root : path) : Prop :=
  has_root_directory root = true ∧ ends_with_separator root && negb (bool_decide (names root [] = [])) = false.

(** A file somewhere in the directory. *)
Definition below (root : path) (k : bool * list bytes) : Prop :=
  ∃ dirs file, k = (true, names root [] ++ dirs ++ [file]) ∧
    Forall plain_name dirs ∧ plain_name file.

Lemma word_plain n : word n → plain_name n.
Proof.
  intros Hw. assert (∀ c, c ∈ n → c ≠ 46%Z ∧ c ≠ separator) as H.
  { intros c Hc. by apply (word_without n c Hw) in Hc as (_ & ? & ?). }
  split_and!.
  - split; [by destruct n|]. intros Hs. by apply H in Hs as [_ ?].
  - intros ->. by destruct (H 46%Z) as [? _]; [left|].
  - intros ->. by destruct (H 46%Z) as [? _]; [left|].
Qed.
Lemma word_file n (ext : string) :
  word n → (separator ∉ lit ext) → 2 ≤ length (lit ext) → plain_name (n ++ lit ext).
Proof.
  intros Hw Hs Hl. destruct (word_plain n Hw) as [[Hn Hns] _].
  assert (3 ≤ length (n ++ lit ext)).
  { rewrite length_app. destruct n; [done|]. simpl. lia. }
  split_and!; [split; [by destruct n|set_solver]| |]; intros E; rewrite E in H; simpl in H; lia.
Qed.
Lemma init_plain : plain_name (lit "init.lua").
Proof. split_and!; [split; [done|]|done|done]. apply (bool_decide_unpack (separator ∉ lit "init.lua")). by vm_compute. Qed.

Lemma names_nonempty s cur : Forall (λ n, n ≠ []) (names s cur).
Proof.
  revert cur. induction s as [|c s IH]; intros cur; simpl; repeat case_decide; auto.
Qed.
Lemma plain_nonempty l : Forall plain_name l → Forall (λ n, n ≠ []) l.
Proof. intros H. eapply Forall_impl; [done|]. by intros n [[? _] _]. Qed.

Lemma names_of_key p l b : path_key p = (b, l) → Forall (λ n, n ≠ []) l → names p [] = l.
Proof.
  unfold path_key, elements_of. intros [= <- <-] Hl.
  destruct (ends_with_separator p && _); [|by rewrite app_nil_r].
  exfalso. apply Forall_app in Hl as [_ Hl]. by inversion Hl.
Qed.
Lemma key_names p b l : path_key p = (b, l) → has_root_directory p = b.
Proof. by intros [= <- _]. Qed.

Lemma proper_key root : proper root → path_key root = (true, names root []).
Proof.
  intros [Hr He]. unfold path_key, elements_of. by rewrite Hr, He, app_nil_r.
Qed.

Lemma parent_key p l x :
  path_key p = (true, l ++ [x]) → Forall (λ n, n ≠ []) (l ++ [x]) →
  path_key (parent_path p) = (true, l).
Proof.
  intros E Hl. pose proof (names_of_key p _ _ E Hl) as En.
  rewrite key_parent; [|rewrite En; by destruct l]. injection E as -> ->.
  by rewrite length_app, Nat.add_sub, take_app_length.
Qed.
Lemma has_parent p l : path_key p = (true, l) → has_parent_path p = true.
Proof.
  intros E. apply key_names in E as Hr. unfold has_parent_path.
  rewrite bool_decide_false; [done|]. unfold parent_path. case_decide.
  - intros ->. by vm_compute in Hr.
  - rewrite Hr. by destruct (strip _ _).
Qed.

(** Going up stays in the directory, and goes as far as asked. *)
Lemma go_up_spec n root dir dirs :
  proper root → path_key dir = (true, names root [] ++ dirs) → Forall plain_name dirs →
  (n ≤ length dirs → ∃ d, go_up n root dir = Some d ∧
     path_key d = (true, names root [] ++ take (length dirs - n) dirs)) ∧
  (length dirs < n → go_up n root dir = None).
Proof.
  intros Hp. revert dir dirs. induction n as [|n IH]; intros dir dirs E Hd; simpl.
  { split; [|lia]. intros _. exists dir. by rewrite Nat.sub_0_r, take_ge. }
  rewrite (has_parent dir _ E). simpl. unfold path_eq. rewrite E, (proper_key root Hp).
  destruct dirs as [|x dirs _] using rev_ind.
  - rewrite app_nil_r, bool_decide_true by done. simpl. split; [lia|done].
  - rewrite bool_decide_false.
    2: { intros [= Hn]. rewrite <- (app_nil_r (names root [])) in Hn at 2.
         apply app_inv_head, app_eq_nil in Hn as [_ Hn]. done. }
    simpl. apply Forall_app in Hd as [Hd Hx].
    assert (path_key (parent_path dir) = (true, names root [] ++ dirs)) as E'.
    { rewrite app_assoc in E. eapply parent_key; [done|]. rewrite <- app_assoc.
      apply Forall_app; split; [apply names_nonempty|]. apply Forall_app.
      split; by apply plain_nonempty. }
    destruct (IH (parent_path dir) dirs E' Hd) as [IH1 IH2]. rewrite length_app. simpl. split.
    + intros Hle. destruct IH1 as (d & Ed & Hk); [lia|]. exists d. split; [done|]. rewrite Hk.
      replace (length dirs + 1 - S n) with (length dirs - n) by lia. by rewrite take_app_le by lia.
    + intros Hlt. apply IH2. lia.
Qed.

Lemma key_below root dir dirs :
  path_key dir = (true, names root [] ++ dirs) → Forall plain_name dirs →
  names dir [] = names root [] ++ dirs ∧ has_root_directory dir = true.
Proof.
  intros E Hd. split; [|by eapply key_names]. eapply names_of_key; [done|].
  apply Forall_app. split; [apply names_nonempty|by apply plain_nonempty].
Qed.

(** The files a word stands for in a directory. *)
Lemma below_leaf root dir dirs n (ext : string) :
  path_key dir = (true, names root [] ++ dirs) → Forall plain_name dirs → word n →
  separator ∉ lit ext → 2 ≤ length (lit ext) → below root (path_key (dir // (n ++ lit ext))).
Proof.
  intros E Hd Hw Hs Hl. destruct (key_below _ _ _ E Hd) as [En Er].
  pose proof (word_file n ext Hw Hs Hl) as Hf.
  exists dirs, (n ++ lit ext). rewrite key_append, En, Er, app_assoc by apply Hf. done.
Qed.
Lemma below_tree root dir dirs n :
  path_key dir = (true, names root [] ++ dirs) → Forall plain_name dirs → word n →
  below root (path_key (tree_path dir n)).
Proof.
  intros E Hd Hw. destruct (key_below _ _ _ E Hd) as [En Er].
  pose proof (word_plain n Hw) as Hp. pose proof init_plain as Hi. unfold tree_path.
  exists (dirs ++ [n]), (lit "init.lua").
  rewrite key_append by apply Hi. rewrite names_append, En by apply Hp.
  split_and!; [|by apply Forall_app; split; [|repeat constructor; apply Hp]|done].
  apply pair_equal_spec. split; [|by rewrite <- !app_assoc].
  pose proof (key_append dir n (proj1 Hp)) as Ek. apply key_names in Ek. by rewrite Ek.
Qed.

Lemma leaf_extension : separator ∉ lit ".lua" ∧ 2 ≤ length (lit ".lua").
Proof.
  split; [|simpl; lia]. apply (bool_decide_unpack (separator ∉ lit ".lua")). by vm_compute.
Qed.

(** A module that is found next to another one, or under the root, is below the
    root. *)
Lemma find_relative_below fs a root dir dirs n p leaf :
  path_key dir = (true, names root [] ++ dirs) → Forall plain_name dirs → word n →
  find_relative fs a dir n = inr (p, leaf) → below root (path_key p).
Proof.
  intros E Hd Hw Ef. destruct leaf_extension.
  assert (p = leaf_path dir n ∨ p = tree_path dir n) as [->| ->].
  { unfold find_relative, if_exists, not_found in Ef. repeat case_decide; simplify_eq; eauto.
    repeat case_match; simplify_eq; eauto. }
  - by eapply below_leaf.
  - by eapply below_tree.
Qed.

Lemma fold_append_key dirs root : proper root → Forall word dirs →
  path_key (fold_left append dirs root) = (true, names root [] ++ dirs).
Proof.
  intros Hp Hd. induction dirs as [|d dirs IH] using rev_ind; simpl.
  { rewrite app_nil_r. by apply proper_key. }
  apply Forall_app in Hd as [Hd Hw]. inversion Hw as [|? ? Hw' _]; subst.
  rewrite fold_left_app. simpl. pose proof (IH Hd) as E.
  destruct (key_below root _ dirs E) as [En Er].
  { eapply Forall_impl; [done|]. apply word_plain. }
  by rewrite key_append, En, Er, app_assoc by apply (word_plain d Hw').
Qed.

(** * What the caches keep *)

(** A source is kept under its own path. *)
Definition keyed (a : app_context) : Prop :=
  ∀ k p c, modules_cache_registry a !! k = Some (p, c) → path_key p = k.

Record app_grows (a a' : app_context) : Prop := {
  grows_places : emilua_path a' = emilua_path a;
  grows_keyed : keyed a → keyed a';
  grows_sources : ∀ k x, modules_cache_registry a !! k = Some x →
    modules_cache_registry a' !! k = Some x;
}.
#[export] Instance app_grows_preorder : PreOrder app_grows.
Proof.
  split; [by split|]. intros a b c [P1 K1 S1] [P2 K2 S2]. split; [congruence|eauto|eauto].
Qed.

(** Nothing of the modules and fibers of a VM changes. *)
Record quiet (st st' : module_vm) : Prop := {
  quiet_tree : import_tree st' = import_tree st;
  quiet_paths : module_paths st' = module_paths st;
  quiet_environments : environments st' = environments st;
  quiet_threads : threads (vm st') = threads (vm st);
  quiet_rows : fiber_list (vm st') = fiber_list (vm st);
  quiet_strand : strand (vm st') = strand (vm st);
  quiet_valid : valid_ (vm st') = valid_ (vm st);
  quiet_main : L_ (vm st') = L_ (vm st);
  quiet_current : current_fiber_ (vm st') = current_fiber_ (vm st);
  quiet_next : next_loc (vm st) ≤ next_loc (vm st');
  quiet_app : app_grows (app st) (app st');
}.
#[export] Instance quiet_preorder : PreOrder quiet.
Proof.
  split; [by split|]. intros a b c [] []. split; try congruence; [lia|by trans (app b)].
Qed.

(** [init_appctx] of a plugin may add to the caches. *)
Class PluginsGrow `{Plugins} := init_appctx_grows : ∀ id a, app_grows a (init_appctx id a).

Section spec.
Context `{Sord} `{LuaCompiler} `{PluginsGrow} `{Builtins}.

Lemma load_module_source_grows fs p a : app_grows a (load_module_source fs p a).1.
Proof.
  unfold load_module_source, cached_source.
  destruct (modules_cache_registry a !! path_key p) as [[]|] eqn:E; [done|].
  destruct (read_contents fs p) as [|c]; [done|]. split; [done| |].
  - intros K k p' c'. simpl. rewrite lookup_insert_Some. intros [[<- [= <- _]]|[_ Hk]]; [done|eauto].
  - intros k x Hk. simpl. rewrite lookup_insert_ne; [done|]. congruence.
Qed.

Lemma load_rdf_grows fs p a : app_grows a (load_rdf_error_category fs p a).1.
Proof. unfold load_rdf_error_category. repeat case_match; done. Qed.

Lemma load_deps_grows load deps a r :
  (∀ id a r, load id a = Some r → app_grows a r.1) →
  load_deps load deps a = Some r → app_grows a r.1.
Proof.
  intros Hl. revert a. induction deps as [|id deps IH]; intros a E; simpl in E; [by simplify_eq|].
  destruct (load id a) as [[a1 [e|]]|] eqn:E1; simplify_eq; [by apply Hl in E1|].
  apply Hl in E1. trans a1; [done|]. by apply IH.
Qed.
Lemma load_native_grows fuel fs dir id a r :
  load_native_module fuel fs dir id a = Some r → app_grows a r.1.
Proof.
  revert id a r. induction fuel as [|fuel IH]; intros id a r E; simpl in E; [done|].
  case_decide; simplify_eq; [done|]. case_decide; simplify_eq; [done|].
  assert (app_grows a (with_visited_native ({[id]} ∪.) a)) as G by (by split).
  destruct (read_deps fs dir id) as [e|deps]; simplify_eq; [done|].
  destruct (load_deps _ deps _) as [[a1 [e|]]|] eqn:E1; simplify_eq.
  - trans (with_visited_native ({[id]} ∪.) a); [done|]. by eapply load_deps_grows in E1.
  - trans (with_visited_native ({[id]} ∪.) a); [done|]. eapply load_deps_grows in E1; [|done].
    destruct (import_symbol _); simplify_eq/=; [done|]. trans a1; [done|].
    trans (with_native ({[id]} ∪.) a1); [by split|apply init_appctx_grows].
Qed.

Lemma find_rooted_grows fs a dir n id : app_grows a (find_rooted fs a dir n id).1.
Proof.
  unfold find_rooted. repeat case_decide; try done. case_match; [done|].
  repeat (case_match; [done|]). repeat case_match; simplify_eq/=; try done;
  match goal with E : load_rdf_error_category ?f ?p _ = _ |- _ =>
    pose proof (load_rdf_grows f p a) as G; rewrite E in G; exact G end.
Qed.
Lemma find_external_grows fs a p id r : find_external fs a p id = Some r → app_grows a r.1.
Proof.
  unfold find_external. intros E. repeat case_match; simplify_eq/=; try done;
  first [ match goal with E : load_rdf_error_category ?f ?p _ = _ |- _ =>
            pose proof (load_rdf_grows f p a) as G; rewrite E in G; exact G end
        | match goal with E : load_native_module _ _ _ _ _ = _ |- _ =>
            by apply load_native_grows in E end ].
Qed.

(** * What a call does *)

(** The fiber of a module starts, in a state where nothing else happened. *)
Definition starts (st st' : module_vm) (ctx : ContextType) (p root : path) (leaf : bool) : Prop :=
  ∃ st1 source, quiet st st1 ∧ vm st1 = vm st ∧ start_module_fiber ctx p source leaf root st1 = (st', Yield).

Definition refuses (st : module_vm) (r : module_vm * answer) : Prop :=
  r.2 ≠ Yield ∧ quiet st r.1 ∧ visited_external_packages r.1 = visited_external_packages st.

Lemma quiet_same st st' : 
  vm st' = vm st → import_tree st' = import_tree st → module_paths st' = module_paths st →
  environments st' = environments st → app_grows (app st) (app st') → quiet st st'.
Proof. intros Hv ????. by split; rewrite ?Hv. Qed.

Lemma refuses_answer st a : a ≠ Yield → refuses st (st, a).
Proof. by repeat split. Qed.

(** A module whose source is there starts; otherwise the call fails. *)
Lemma with_source_cases fs p info st ctx leaf root :
  let r := with_source fs p info st (λ source, start_module_fiber ctx p source leaf root) in
  refuses st r ∨ (r.2 = Yield ∧ starts st r.1 ctx p root leaf ∧
    visited_external_packages r.1 = visited_external_packages st).
Proof.
  intros r. unfold r, with_source. pose proof (load_module_source_grows fs p (app st)) as G.
  destruct (load_module_source fs p (app st)) as [a [e|source]]; simpl in *.
  { left. split_and!; [by destruct e|by apply quiet_same|done]. }
  unfold start_module_fiber at 1 2 3 4. destruct (luaL_loadbuffer source) eqn:El.
  - left. split_and!; [done|by apply quiet_same|done].
  - right. split_and!; [done| |done]. exists (with_app (λ _, a) st), source.
    split_and!; [by apply quiet_same|done|]. unfold start_module_fiber. by rewrite El.
Qed.

(** ** Where the module is found *)
Definition strip_dot (id : bytes) : bytes := if decide (take 2 id = lit "./") then drop 2 id else id.

Definition found_relative (fs : filesystem) (st : module_vm) (id : bytes) (importer : path)
    (data : import_data) (p : path) (leaf : bool) : Prop :=
  ∃ n name dir, parse_dot (strip_dot id) 0 = Some (n, name) ∧
    go_up (n - (if is_leaf data then 1 else 0)) (import_root data) (parent_path importer) = Some dir ∧
    find_relative fs (app st) dir name = inr (p, leaf) ∧
    import_tree st !! path_key p = None ∧ loaded_modules st !! p = None.
Definition found_rooted (fs : filesystem) (st : module_vm) (id : bytes) (data : import_data)
    (p : path) (leaf : bool) : Prop :=
  ∃ dirs name a, parse_slash id None = Some (dirs, name) ∧
    find_rooted fs (app st) (fold_left append dirs (import_root data)) name id =
      (a, inr (FoundModule p leaf)).
Definition found_external (fs : filesystem) (st : module_vm) (id : bytes) (root p : path)
    (leaf : bool) : Prop :=
  ∃ a a', app_grows (app st) a ∧ find_external fs a root id = Some (a', inr (FoundModule p leaf)).

(** Where the module [p] that [id] stands for is; [root] confines what it imports
    in turn. *)
Inductive located (fs : filesystem) (st st' : module_vm) (id : bytes) (p root : path) (leaf : bool) :
    Prop :=
| LocatedRelative importer data :
    head id = Some 46%Z → import_tree st !! path_key importer = Some data →
    root = import_root data → found_relative fs st id importer data p leaf →
    visited_external_packages st' = visited_external_packages st →
    located fs st st' id p root leaf
| LocatedRooted importer data :
    head id = Some separator → import_tree st !! path_key importer = Some data →
    root = import_root data → found_rooted fs st id data p leaf →
    visited_external_packages st' = visited_external_packages st →
    located fs st st' id p root leaf
| LocatedExternal w rest :
    head id ≠ Some 46%Z → head id ≠ Some separator →
    modnamepat id = Some (w, rest) → at_zero rest = true → root ∈ emilua_path (app st) →
    found_external fs st id root p leaf → id ∉ visited_external_packages st →
    visited_external_packages st' = {[id]} ∪ visited_external_packages st →
    located fs st st' id p root leaf.

Lemma new_category_refuses c st : refuses st (new_category c st).
Proof. split_and!; [done| |done]. split; simpl; try done. lia. Qed.
Lemma import_native_refuses id st : refuses st (import_native id st).
Proof.
  unfold import_native. repeat case_match; by split_and!.
Qed.
Lemma import_builtin_refuses name st : refuses st (import_builtin name st).
Proof.
  unfold import_builtin. case_decide; [by split_and!|].
  case_decide; split_and!; try done; by split.
Qed.
Lemma refuses_trans st st1 r :
  quiet st st1 → visited_external_packages st1 = visited_external_packages st →
  refuses st1 r → refuses st r.
Proof. intros Q V (A & Q' & V'). split_and!; [done|by trans st1|congruence]. Qed.
Lemma starts_trans st st1 st' ctx p root leaf :
  quiet st st1 → vm st1 = vm st → starts st1 st' ctx p root leaf → starts st st' ctx p root leaf.
Proof.
  intros Q V (st2 & source & Q2 & V2 & E). exists st2, source.
  split_and!; [by trans st1|congruence|done].
Qed.
Lemma with_app_quiet st a : app_grows (app st) a → quiet st (with_app (λ _, a) st).
Proof. intros. by apply quiet_same. Qed.
Lemma raise_exn_answer info e : raise_exn info e ≠ Yield.
Proof. by destruct e. Qed.

Lemma import_relative_cases fs ctx id importer data st :
  let r := import_relative fs ctx id importer data st in
  refuses st r ∨ (r.2 = Yield ∧ ∃ p leaf, starts st r.1 ctx p (import_root data) leaf ∧
    found_relative fs st id importer data p leaf ∧
    visited_external_packages r.1 = visited_external_packages st).
Proof.
  intros r. unfold r, import_relative. change (if decide _ then drop 2 id else id) with (strip_dot id).
  destruct (parse_dot (strip_dot id) 0) as [[n name]|] eqn:Ep; [|by left; apply refuses_answer].
  destruct (bool_decide (n = 0) && is_leaf data); [by left; apply refuses_answer|].
  destruct (go_up _ _ _) as [dir|] eqn:Eg; [|by left; apply refuses_answer].
  destruct (find_relative fs (app st) dir name) as [e|[p leaf]] eqn:Ef;
    [left; apply refuses_answer, raise_exn_answer|].
  destruct (loaded_modules st !! p) eqn:El; [by left; apply refuses_answer|].
  case_decide as Ht; [by left; apply refuses_answer|]. apply eq_None_not_Some in Ht.
  destruct (with_source_cases fs p None st ctx leaf (import_root data)) as [Hr|(Hy & Hs & Hv)];
    [by left|right]. split; [done|]. exists p, leaf. split_and!; [done| |done].
  by exists n, name, dir.
Qed.

Lemma find_rooted_answer fs a dir n id a' e :
  find_rooted fs a dir n id = (a', inl e) → e ≠ Yield.
Proof.
  unfold find_rooted. intros E. repeat case_match; simplify_eq; try apply raise_exn_answer; done.
Qed.

Lemma import_rooted_cases fs ctx id data st :
  let r := import_rooted fs ctx id data st in r.2 ≠ Stuck →
  refuses st r ∨ (r.2 = Yield ∧ ∃ p leaf, starts st r.1 ctx p (import_root data) leaf ∧
    found_rooted fs st id data p leaf ∧
    visited_external_packages r.1 = visited_external_packages st).
Proof.
  intros r. unfold r, import_rooted.
  destruct (parse_slash id None) as [[dirs name]|] eqn:Ep; [|by left; apply refuses_answer].
  case_decide; [by left; apply refuses_answer|].
  set (dir := fold_left append dirs (import_root data)).
  pose proof (find_rooted_grows fs (app st) dir name id) as G.
  destruct (find_rooted fs (app st) dir name id) as [a r'] eqn:Ef. simpl in G.
  pose proof (with_app_quiet st a G) as Q. destruct r' as [e|[p leaf|c|]]; intros Hst; [| | |done].
  - left. split_and!; [by eapply find_rooted_answer|done|done].
  - cbn zeta. destruct (loaded_modules (with_app (λ _, a) st) !! p) eqn:El.
    { left. by split_and!. }
    destruct (with_source_cases fs p None (with_app (λ _, a) st) ctx leaf (import_root data))
      as [Hr|(Hy & Hs & Hv)].
    + left. by eapply refuses_trans.
    + right. split; [done|]. exists p, leaf. split_and!; [by eapply starts_trans| |done].
      by exists dirs, name, a.
  - left. eapply refuses_trans; [done|done|apply new_category_refuses].
Qed.

(** A package is visited only while its module runs or has run. *)
Definition enter_package (id : bytes) (a : app_context) (st : module_vm) : module_vm :=
  with_app (λ _, a) (with_visited ({[id]} ∪.) st).
Lemma enter_quiet id a st : app_grows (app st) a → quiet st (enter_package id a st).
Proof. intros. by apply quiet_same. Qed.
Lemma forget_entered id a st st1 :
  visited_external_packages st1 = visited_external_packages (enter_package id a st) →
  visited_external_packages (forget_package (bool_decide (id ∈ visited_external_packages st)) id st1)
    = visited_external_packages st.
Proof.
  intros E. unfold forget_package. case_bool_decide as Hv; simpl; rewrite E; simpl; set_solver.
Qed.
Lemma forget_quiet already id st : quiet st (forget_package already id st).
Proof. unfold forget_package. destruct already; [done|]. by apply quiet_same. Qed.

Lemma leave_refuses id a st r :
  app_grows (app st) a → refuses (enter_package id a st) r →
  refuses st (leave_package (bool_decide (id ∈ visited_external_packages st)) id r).
Proof.
  intros G (A & Q & V). unfold leave_package.
  assert (refuses st (forget_package (bool_decide (id ∈ visited_external_packages st)) id r.1, r.2)) as R.
  { split_and!; [done| |by eapply forget_entered].
    trans (enter_package id a st); [by apply enter_quiet|]. trans r.1; [done|apply forget_quiet]. }
  destruct r as [st1 []]; simpl in *; done.
Qed.

Lemma on_external_module_cases fs ctx id root already p leaf st :
  let r := on_external_module fs ctx id root already p leaf st in r.2 ≠ Stuck →
  refuses st r ∨ (r.2 = Yield ∧ already = false ∧ starts st r.1 ctx p root leaf ∧
    visited_external_packages r.1 = visited_external_packages st).
Proof.
  intros r. unfold r, on_external_module.
  destruct (loaded_modules st !! p).
  { destruct already; [|done]. left. by apply refuses_answer. }
  destruct already; [left; by apply refuses_answer|]. intros _.
  destruct (with_source_cases fs p (Some (ModuleId id)) st ctx leaf root) as [Hr|(Hy & Hs & Hv)];
    [by left|right]. by split_and!.
Qed.

Lemma leave_stuck already id r : (leave_package already id r).2 = r.2.
Proof. unfold leave_package. by destruct r as [? []]. Qed.

Lemma on_external_cases fs ctx id places st :
  let r := on_external_package fs ctx id places st in r.2 ≠ Stuck →
  refuses st r ∨ (r.2 = Yield ∧ ∃ root p leaf, root ∈ places ∧ starts st r.1 ctx p root leaf ∧
    found_external fs st id root p leaf ∧ id ∉ visited_external_packages st ∧
    visited_external_packages r.1 = {[id]} ∪ visited_external_packages st).
Proof.
  revert st. induction places as [|p places IH]; intros st r; unfold r; simpl.
  { intros _. left. by apply refuses_answer. }
  set (already := bool_decide (id ∈ visited_external_packages st)).
  destruct (find_external fs (app st) p id) as [[a r']|] eqn:Ef; [|done].
  pose proof (find_external_grows _ _ _ _ _ Ef) as G. simpl in G.
  change (with_app _ (with_visited _ st)) with (enter_package id a st).
  destruct r' as [e|[q leaf|c|]].
  - set (st1 := forget_package already id (enter_package id a st)). intros Hst.
    assert (quiet st st1) as Q.
    { trans (enter_package id a st); [by apply enter_quiet|apply forget_quiet]. }
    assert (visited_external_packages st1 = visited_external_packages st) as V.
    { by eapply forget_entered. }
    destruct (IH st1 Hst) as [Hr|(Hy & root & q & leaf & Hin & Hs & Hf & Hn & Hv)].
    + left. by eapply refuses_trans.
    + right. split; [done|]. exists root, q, leaf. rewrite V in Hn, Hv. split_and!; try done.
      * by right.
      * eapply starts_trans; [done| |done]. unfold st1, forget_package. by destruct already.
      * destruct Hf as (b & b' & Gb & Hf). exists b, b'. split; [|done].
        trans (app st1); [apply Q|done].
  - intros Hst. rewrite leave_stuck in Hst.
    destruct (on_external_module_cases fs ctx id p already q leaf (enter_package id a st) Hst)
      as [Hr|(Hy & Hal & Hs & Hv)].
    + left. by eapply leave_refuses.
    + right. rewrite leave_stuck. split; [done|]. exists p, q, leaf.
      assert (leave_package already id (on_external_module fs ctx id p already q leaf
        (enter_package id a st)) = on_external_module fs ctx id p already q leaf
        (enter_package id a st)) as ->.
      { unfold leave_package. by rewrite Hy. }
      split_and!; [by left| | |by apply bool_decide_eq_false in Hal|done].
      * eapply starts_trans; [by apply (enter_quiet id a)|done|done].
      * by exists (app st), a.
  - destruct already eqn:Ea; [done|]. intros _. left. rewrite <- Ea.
    eapply leave_refuses; [done|apply new_category_refuses].
  - destruct already eqn:Ea; [done|]. intros _. left. rewrite <- Ea.
    eapply leave_refuses; [done|apply import_native_refuses].
Qed.

(** A call of [require] refuses, gives what is there, or starts one module. *)
Lemma require_cases fs from id rest st :
  let r := require fs from (LString id :: rest) st in r.2 ≠ Stuck →
  refuses st r ∨
  (r.2 = Yield ∧ (∃ row, fiber_list (vm st) !! current_fiber_ (vm st) = Some row ∧
     module_path row = true) ∧
   ∃ ctx p root leaf, starts st r.1 ctx p root leaf ∧ located fs st r.1 id p root leaf).
Proof.
  intros r. unfold r, require. cbn [arg Nat.sub lookup list_lookup].
  destruct from as [| |importer]; [by left; apply refuses_answer..|].
  destruct (import_tree st !! path_key importer) as [data|] eqn:Et;
    [|by left; apply refuses_answer].
  destruct (fiber_list (vm st) !! current_fiber_ (vm st)) as [row|] eqn:Er; [|done].
  destruct (module_path row) eqn:Em; simpl; [|by left; apply refuses_answer].
  case_decide as H46.
  { intros _. destruct (import_relative_cases fs (context_of (context data) id) id importer data st)
      as [Hr|(Hy & p & leaf & Hs & Hf & Hv)]; [by left|right].
    split_and!; [done|by eexists|]. exists (context_of (context data) id), p, (import_root data), leaf.
    split; [done|]. by eapply LocatedRelative. }
  case_decide as H47.
  { intros Hst. destruct (import_rooted_cases fs (context_of (context data) id) id data st Hst)
      as [Hr|(Hy & p & leaf & Hs & Hf & Hv)]; [by left|right].
    split_and!; [done|by eexists|]. exists (context_of (context data) id), p, (import_root data), leaf.
    split; [done|]. by eapply LocatedRooted. }
  destruct (modnamepat id) as [[w r']|] eqn:Ew; [|by left; apply refuses_answer].
  destruct (at_zero r') eqn:Ez; [|by left; apply refuses_answer].
  destruct (builtin id); [intros _; left; apply import_builtin_refuses|].
  destruct (if enable_plugins then _ else _); [by left; apply refuses_answer|].
  intros Hst. destruct (on_external_cases fs (context_of (context data) id) id _ st Hst)
    as [Hr|(Hy & root & p & leaf & Hin & Hs & Hf & Hn & Hv)]; [by left|right].
  split_and!; [done|by eexists|]. exists (context_of (context data) id), p, root, leaf.
  split; [done|]. by eapply LocatedExternal.
Qed.
End spec.
