(* ===== verification/ModulePromises.v ===== *)
(** What the module system promises: imports stay below their root, no module is
    run twice, and fibers that import wait for each other like calls. *)
From S2P Require Import Prelude Errors Lua StringView Vm Path RdfCategory Modules ModulesSpec.
From S2P Require Import ModulesSpec.
#[local] Open Scope path_scope.

(** A VM whose entry point is about to run. *)
Record modules_start (st : module_vm) (entry : path) (data : import_data) : Prop := {
  start_tree : import_tree st = {[path_key entry := data]};
  start_proper : proper (import_root data);
  start_below : below (import_root data) (path_key entry);
  start_visited : visited_external_packages st = ∅;
  start_loaded : loaded_modules st = ∅;
  start_paths : module_paths st = ∅;
  start_keyed : keyed (app st);
  start_places : Forall proper (emilua_path (app st));
  start_valid : valid_ (vm st) = true;
  start_running : threads (vm st) = {[L_ (vm st) := CoRunning []]};
  start_rows : ∃ row, fiber_list (vm st) = {[L_ (vm st) := row]} ∧ module_path row = true ∧
    status row = None ∧ joiner row = JDetached;
  start_strand : strand (vm st) = [];
  start_next : L_ (vm st) < next_loc (vm st);
}.

Section promises.
Context `{Sord} `{LuaCompiler} `{PluginsGrow} `{Builtins}.

(** * What starts *)

(** The tree of imports after a step. *)
Lemma start_effect ctx p source leaf root st st' :
  start_module_fiber ctx p source leaf root st = (st', Yield) →
  import_tree st' = <[path_key p := ImportData leaf ctx root]> (import_tree st) ∧
  module_paths st' = <[next_loc (vm st) := p]> (module_paths st) ∧ app st' = app st ∧
  visited_external_packages st' = visited_external_packages st.
Proof. unfold start_module_fiber. case_match; [done|]. by intros [= <-]. Qed.

Lemma starts_effect st st' ctx p root leaf :
  starts st st' ctx p root leaf →
  import_tree st' = <[path_key p := ImportData leaf ctx root]> (import_tree st) ∧
  module_paths st' = <[next_loc (vm st) := p]> (module_paths st) ∧ app_grows (app st) (app st').
Proof.
  intros (st1 & source & Q & V & E). apply start_effect in E as (-> & -> & -> & _).
  rewrite (quiet_tree _ _ Q), (quiet_paths _ _ Q), V. split_and!; [done|done|apply Q].
Qed.
Lemma started_label id st r ctx p root leaf :
  r.2 = Yield → starts st r.1 ctx p root leaf → started id st r = Some (origin_of id p).
Proof.
  intros Hy (_ & Hp & _)%starts_effect. unfold started. by rewrite Hy, Hp, lookup_insert_eq.
Qed.

(** What a step does to the tree, the packages and the caches: nothing, or a module
    that was found is added. *)
Lemma step_effect st o st' :
  module_step st o st' → valid_ (vm st) = true →
  (o = None ∧ import_tree st' = import_tree st ∧
     visited_external_packages st' = visited_external_packages st ∧
     emilua_path (app st') = emilua_path (app st) ∧ (keyed (app st) → keyed (app st'))) ∨
  (∃ fs id p root leaf st1, 0%Z ∉ id ∧ o = Some (origin_of id p) ∧ located fs st st1 id p root leaf ∧
     (∃ ctx, import_tree st' = <[path_key p := ImportData leaf ctx root]> (import_tree st)) ∧
     visited_external_packages st' = visited_external_packages st1 ∧
     emilua_path (app st') = emilua_path (app st) ∧ (keyed (app st) → keyed (app st'))).
Proof.
  intros Hs Hv. destruct Hs as [fs from id rest _ _ Hz r Hst|st1 _ _ E|e _ _ _|r _ _ _|f opts q v _ _ _|st1 []].
  - pose proof (require_cases fs from id rest st Hst) as C. fold r in C. clearbody r.
    destruct r as [st1 a]. simpl in C.
    destruct C as [(Hy & Q & V)|(-> & _ & ctx & p & root & leaf & Hs & Hl)]; simpl in *.
    + left. destruct (quiet_app _ _ Q) as [G K _]. pose proof (quiet_tree _ _ Q).
      unfold started. destruct a; try done; by split_and!.
    + right. pose proof (starts_effect _ _ _ _ _ _ Hs) as (T & P & [G K _]).
      exists fs, id, p, root, leaf, st1. split_and!; try done.
      all: first [by exists ctx|by eapply (started_label id st (st1, Yield))].
  - left. unfold module_returns, mark_module_as_loaded in E.
    destruct (module_paths st !! _); [|done]. simpl in E. destruct (environments st !! _); [|done].
    simpl in E. by simplify_eq.
  - by left.
  - by left.
  - by left.
  - left. by split_and!.
Qed.

(** * Confinement *)

(** Every module that was found is below the directory its imports are confined
    to, the one of the entry point or a place for packages. *)
Record confined (entry_root : path) (places : list path) (st : module_vm) : Prop := {
  confined_tree : ∀ k d, import_tree st !! k = Some d →
    proper (import_root d) ∧ below (import_root d) k ∧
    (import_root d = entry_root ∨ import_root d ∈ places);
  confined_keyed : keyed (app st);
  confined_places : emilua_path (app st) = places;
}.

(** The directory a module is in. *)
Lemma importer_directory root importer :
  below root (path_key importer) →
  ∃ dirs, path_key (parent_path importer) = (true, names root [] ++ dirs) ∧ Forall plain_name dirs.
Proof.
  intros (dirs & file & Ek & Hd & Hf). exists dirs. split; [|done].
  rewrite app_assoc in Ek. eapply parent_key; [done|]. rewrite <- app_assoc.
  apply Forall_app; split; [apply names_nonempty|].
  apply plain_nonempty, Forall_app. by split; [|constructor].
Qed.

Lemma located_below entry_root places fs st st' id p root leaf :
  confined entry_root places st → Forall proper places → 0%Z ∉ id →
  located fs st st' id p root leaf →
  proper root ∧ below root (path_key p) ∧ (root = entry_root ∨ root ∈ places).
Proof.
  intros C HP Hz [importer data _ Ht -> (n & w & dir & Ep & Eg & Ef & _) _
    |importer data _ Ht -> (dirs & w & a & Ep & Ef) _|w rest H46 H47 Ew Ez Hin (a & a' & G & Ef) _ _].
  - destruct (confined_tree _ _ _ C _ _ Ht) as (Hp & Hb & Hr). split_and!; [done| |done].
    destruct (importer_directory _ _ Hb) as (dirs & Ek & Hd).
    destruct (go_up_spec (n - (if is_leaf data then 1 else 0)) _ _ _ Hp Ek Hd) as [G1 G2].
    destruct (decide (n - (if is_leaf data then 1 else 0) ≤ length dirs)) as [Hle|];
      [|rewrite G2 in Eg by lia; done].
    destruct (G1 Hle) as (d & Ed & Edk). rewrite Ed in Eg. injection Eg as ->.
    apply parse_dot_spec in Ep as (_ & _ & Hw).
    + eapply find_relative_below; [done| |done|done]. by apply Forall_take.
    + unfold strip_dot. case_decide; [|done]. intros Hin. apply Hz. rewrite <- (take_drop 2 id).
      apply elem_of_app. by right.
  - destruct (confined_tree _ _ _ C _ _ Ht) as (Hp & Hb & Hr). split_and!; [done| |done].
    apply parse_slash_spec in Ep as (_ & Hd & Hw); [|done].
    pose proof (fold_append_key dirs _ Hp Hd) as Ek.
    assert (Forall plain_name dirs) as Hd' by (eapply Forall_impl; [done|apply word_plain]).
    destruct leaf_extension.
    assert (p = leaf_path (fold_left append dirs (import_root data)) w ∨
            p = tree_path (fold_left append dirs (import_root data)) w) as [->| ->].
    { clear -Ef. unfold find_rooted in Ef. repeat case_match; simplify_eq; eauto. }
    + by eapply below_leaf.
    + by eapply below_tree.
  - rewrite (confined_places _ _ _ C) in Hin. rewrite Forall_forall in HP.
    pose proof (HP _ Hin) as Hp. split_and!; [done| |by right].
    apply modnamepat_spec in Ew as (-> & Hw & _).
    assert (rest = []) as ->. { apply at_zero_spec; [set_solver|done]. } rewrite app_nil_r in *.
    assert (path_key root = (true, names root [] ++ [])) as Ek by (by rewrite app_nil_r, proper_key).
    assert (∀ q, has_root_directory q = true → absolute (cwd fs) q = q) as Habs.
    { intros q Hq. unfold absolute, is_absolute. by rewrite Hq. }
    destruct leaf_extension as [L1 L2].
    assert (below root (path_key (leaf_path root w))) as B1 by (by eapply (below_leaf root root [])).
    assert (below root (path_key (tree_path root w))) as B2 by (by eapply (below_tree root root [])).
    assert (∀ q, below root (path_key q) → has_root_directory q = true) as Hroot.
    { intros q (? & ? & Eq & _). by eapply key_names. }
    pose proof (grows_keyed _ _ G (confined_keyed _ _ _ C)) as K. unfold find_external in Ef.
    rewrite !Habs in Ef by (by apply Hroot). unfold cached_source in Ef.
    destruct (modules_cache_registry a !! path_key (leaf_path root w)) as [[q ?]|] eqn:E1.
    { simplify_eq. by rewrite (K _ _ _ E1). }
    destruct (modules_cache_registry a !! path_key (tree_path root w)) as [[q ?]|] eqn:E2.
    { simplify_eq. by rewrite (K _ _ _ E2). }
    unfold found_category in Ef. repeat case_match; simplify_eq/=; done.
Qed.

Lemma start_confined st0 entry data :
  modules_start st0 entry data → confined (import_root data) (emilua_path (app st0)) st0.
Proof.
  intros S. split; [|apply S|done]. intros k d. rewrite (start_tree _ _ _ S), lookup_singleton_Some.
  intros [<- <-]. split_and!; [apply S|apply S|by left].
Qed.

(** A VM that is closed does nothing more. *)
Lemma closed_steps st : valid_ (vm st) = false → ∀ o st', module_step st o st' →
  import_tree st' = import_tree st ∧ valid_ (vm st') = false ∧ o = None ∧
  visited_external_packages st' = visited_external_packages st ∧
  emilua_path (app st') = emilua_path (app st) ∧ (keyed (app st) → keyed (app st')).
Proof.
  intros Hv o st' Hs. destruct Hs as [|st1 Hv'|e Hv'|r Hv'|f opts q v _ _ E|st1 []]; try congruence.
  - unfold fiber_resume in E. simpl in E. rewrite Hv in E. by simplify_eq.
  - split_and!; try done; congruence.
Qed.

Lemma step_confined root places st o st' :
  confined root places st → Forall proper places → module_step st o st' → confined root places st'.
Proof.
  intros C HP Hs. destruct (valid_ (vm st)) eqn:Hv.
  - destruct (step_effect st o st' Hs Hv) as [(_ & T & _ & P & K)|
      (fs & id & p & r & leaf & st1 & Hz & _ & Hl & [ctx T] & _ & P & K)].
    + split; [rewrite T; apply C|apply K, C|rewrite P; apply C].
    + split; [|apply K, C|rewrite P; apply C]. rewrite T. intros k d.
      rewrite lookup_insert_Some. intros [[<- <-]|[_ Hk]]; [|by apply C].
      simpl. by eapply located_below.
  - destruct (closed_steps st Hv o st' Hs) as (T & _ & _ & _ & P & K).
    split; [rewrite T; apply C|apply K, C|rewrite P; apply C].
Qed.

(** C14 When the root of the imports and the places for packages are absolute and
    end in no separator ([proper]), the entry point is below its root, and no name
    has a zero octet: however modules import each other, as long as no [assert] of
    [require] fails, each file that is run as a module is below the directory its
    imports are confined to: that of the entry point, or one of the places for
    packages.  Going up with [../] stops there.  A place that ends in a separator
    confines nothing ([ModuleStack.Examples.places_leak]). *)
Theorem imports_confined st0 entry data l st k d :
  modules_start st0 entry data → module_steps st0 l st → import_tree st !! k = Some d →
  below (import_root d) k ∧
  (import_root d = import_root data ∨ import_root d ∈ emilua_path (app st0)).
Proof.
  intros S Hs Hk.
  assert (confined (import_root data) (emilua_path (app st0)) st) as C.
  { clear Hk. induction Hs as [|l o st st' _ IH Hs]; [by eapply start_confined|].
    eapply step_confined; [done|by eapply start_places|done]. }
  destruct (confined_tree _ _ _ C k d Hk) as (_ & ? & ?). done.
Qed.

(** * Modules start once *)

Definition path_of (o : origin) : path :=
  match o with Relative p | Rooted p | External _ p => p end.
Lemma path_of_origin id p : path_of (origin_of id p) = p.
Proof. unfold origin_of. by repeat case_decide. Qed.
(** What is not started twice: a file, for a relative import; a package. *)
Definition identity (o : origin) : option ((bool * list bytes) + bytes) :=
  match o with
  | Relative p => Some (inl (path_key p))
  | External id _ => Some (inr id)
  | Rooted _ => None
  end.

Record recorded (l : list origin) (st : module_vm) : Prop := {
  recorded_tree : ∀ o, o ∈ l → is_Some (import_tree st !! path_key (path_of o));
  recorded_visited : ∀ id p, External id p ∈ l → id ∈ visited_external_packages st;
  recorded_once : NoDup (omap identity l);
  recorded_relative : ∀ l1 p l2, l = l1 ++ Relative p :: l2 →
    ∀ o, o ∈ l2 → path_key (path_of o) ≠ path_key p;
}.

Lemma recorded_add o l st st' :
  recorded l st →
  (∀ k, is_Some (import_tree st !! k) → is_Some (import_tree st' !! k)) →
  is_Some (import_tree st' !! path_key (path_of o)) →
  visited_external_packages st ⊆ visited_external_packages st' →
  match o with
  | Relative p => import_tree st !! path_key p = None
  | External id _ => id ∉ visited_external_packages st ∧ id ∈ visited_external_packages st'
  | Rooted _ => True
  end →
  recorded (o :: l) st'.
Proof.
  intros [T V N R] HT Hp HV Ho. split.
  - intros o' [->|Hin]%elem_of_cons; [done|]. by apply HT, T.
  - intros id p [<-|Hin]%elem_of_cons; [apply Ho|]. by eapply HV, V.
  - simpl. destruct (identity o) as [i|] eqn:Ei; [|done]. constructor; [|done].
    intros (o' & Hin & Ei')%list_elem_of_omap.
    destruct o as [p|p|id p], o' as [q|q|id' q]; simpl in Ei, Ei'; try congruence.
    + assert (path_key p = path_key q) as E by congruence. apply T in Hin. simpl in Hin.
      rewrite <- E, Ho in Hin. by destruct Hin.
    + assert (id = id') as -> by congruence. by apply Ho, (V _ _ Hin).
  - intros [|o1 l1] p l2 El o' Hin; simplify_eq/=; [|by eapply R].
    intros E. apply T in Hin. rewrite E, Ho in Hin. by destruct Hin.
Qed.

Lemma recorded_quiet l st st' :
  recorded l st → import_tree st' = import_tree st →
  visited_external_packages st' = visited_external_packages st → recorded l st'.
Proof.
  intros [T V N R] ET EV. split; [by rewrite ET|by rewrite EV|done|done].
Qed.

(** C15 A relative import starts no file that was started before, in any way, and
    an import by name starts each package at most once: only so many modules are
    run as there are files and packages. *)
Theorem modules_start_once st0 entry data l st :
  modules_start st0 entry data → module_steps st0 l st →
  NoDup (omap identity l) ∧
  (∀ l1 p l2, l = l1 ++ Relative p :: l2 →
     path_key p ≠ path_key entry ∧ ∀ o, o ∈ l2 → path_key (path_of o) ≠ path_key p).
Proof.
  intros S Hs.
  assert (recorded l st ∧ is_Some (import_tree st !! path_key entry) ∧
    ∀ p, Relative p ∈ l → path_key p ≠ path_key entry) as (R & _ & He).
  2: { split; [by apply recorded_once with st|]. intros l1 p l2 El. split.
       - apply He. rewrite El. set_solver.
       - by eapply recorded_relative. }
  induction Hs as [|l o st st' _ IH Hs].
  { split_and!; [split|rewrite (start_tree _ _ _ S); eexists; by
      rewrite lookup_singleton_eq|by intros ? ?%elem_of_nil].
    - by intros o ?%elem_of_nil.
    - by intros id p ?%elem_of_nil.
    - constructor.
    - by intros [] ? ?. }
  destruct IH as (R & He & Hne). destruct (valid_ (vm st)) eqn:Hv.
  - destruct (step_effect st o st' Hs Hv) as [(-> & T & V & _)|
      (fs & id & p & r & leaf & st1 & Hz & -> & Hl & [ctx T] & V & _)].
    { simpl. rewrite T. split_and!; [by eapply recorded_quiet|done|done]. }
    simpl.
    assert (∀ k, is_Some (import_tree st !! k) → is_Some (import_tree st' !! k)) as HT.
    { intros k Hk. rewrite T. destruct (decide (k = path_key p)) as [->|];
        [rewrite lookup_insert_eq; by eexists|by rewrite lookup_insert_ne]. }
    assert (match origin_of id p with
      | Relative p => import_tree st !! path_key p = None
      | External id _ => id ∉ visited_external_packages st ∧ id ∈ visited_external_packages st'
      | Rooted _ => True end ∧ visited_external_packages st ⊆ visited_external_packages st') as [Ho HV].
    { rewrite V. destruct Hl as [importer d H46 _ _ (n & w & dir & _ & _ & _ & Hn & _) ->
        |importer d H47 _ _ _ ->|w rest H46 H47 _ _ _ _ Hid ->]; unfold origin_of.
      - by rewrite decide_True.
      - rewrite decide_False by (rewrite H47; done). by rewrite decide_True.
      - rewrite !decide_False by done. set_solver. }
    split_and!.
    + eapply recorded_add; [done|done| |done|done]. rewrite path_of_origin, T, lookup_insert_eq. by eexists.
    + by apply HT.
    + intros q [Eq|Hin]%elem_of_cons; [|by apply Hne].
      rewrite <- Eq in Ho. intros E. rewrite <- E, Ho in He. by destruct He.
  - destruct (closed_steps st Hv o st' Hs) as (T & _ & -> & V & _). simpl.
    rewrite T. split_and!; [by eapply recorded_quiet|done|done].
Qed.
End promises.

(** * Examples *)
Module Examples.
#[export] Instance no_documents : Sord := {|
  load_string _ _ := []; is_int _ := false; to_int _ := 0%Z |}.
#[export] Instance compiler : LuaCompiler := {|
  luaL_loadbuffer s := if decide (s = lit "!") then Some (RV (LString s)) else None |}.
#[export] Instance no_plugins : Plugins := {|
  import_symbol _ := Some (StdException "no such library"); init_appctx _ a := a;
  init_ioctx_services _ := None; init_lua_module _ := inl (Core.module_not_found : error_code) |}.
#[export] Instance no_plugins_grow : PluginsGrow.
Proof. intros id a. done. Qed.
#[export] Instance builtins : Builtins := {|
  module_table _ := LNil; enable_plugins := true; enable_file_io := true |}.

(** A program, the modules next to it, and a package. *)
Definition disk : filesystem :=
  Filesystem
    {[path_key (lit "/app/main.lua") := Regular (lit "m");
      path_key (lit "/app/a.lua") := Regular (lit "a");
      path_key (lit "/app/b.lua") := Regular (lit "b");
      path_key (lit "/app/broken.lua") := Regular (lit "!");
      path_key (lit "/app/empty.lua") := Regular [];
      path_key (lit "/secret.lua") := Regular (lit "s");
      path_key (lit "/lib/raw") := Regular (lit "r");
      path_key (lit "/lib/p/init.lua") := Regular (lit "p");
      path_key (lit "/lib/q/init.lua") := Regular (lit "q")]} (lit "/").
Definition entry_path : path := lit "/app/main.lua".
Definition entry_data : import_data := ImportData false main (lit "/app").
Definition main_row : fiber_data := FiberData JDetached None 0 None (DBoolean false) false None None None true.
Definition boot (places : list path) : module_vm :=
  ModuleVm
    (Vm true 0 0 1 false false None false [] [] true false
      {[0%nat := CoRunning []]} {[0%nat := main_row]} ∅ [] ∅ 10)
    (App places ∅ ∅ ∅ ∅) {[path_key entry_path := entry_data]} ∅ ∅ ∅ ∅ ∅.
Definition start : module_vm := boot [lit "/lib"].

Example entry_is_boot : entry_module disk main (lit "app/main.lua") [] = inr (entry_path, entry_data).
Proof. by vm_compute. Qed.

Lemma start_ok : modules_start start entry_path entry_data.
Proof.
  split; try done.
  - exists [], (lit "main.lua"). split_and!; [by vm_compute|constructor|].
    split_and!; [split; [done|]|done|done]. intros Hin%list_elem_of_In. by repeat destruct Hin as [Hin|Hin].
  - by repeat constructor.
  - by exists main_row.
  - simpl. lia.
Qed.

(** A call of [require] by the module [p], then the module that starts runs. *)
Definition call (p : path) (id : bytes) (st : module_vm) : module_vm :=
  let r := require disk (File p) [LString id] st in suspend_current r.2 r.1.
Definition next (st : module_vm) : module_vm :=
  match strand (vm st) with
  | FiberResume f opts :: q =>
      match fiber_resume f opts (with_strand (λ _, q) (vm st)) with
      | Some v => with_vm (λ _, v) st
      | None => st
      end
  | _ => st
  end.
Definition enter (p : path) (id : bytes) (st : module_vm) : module_vm := next (call p id st).
Definition answer_to (p : path) (id : bytes) (st : module_vm) : answer :=
  (require disk (File p) [LString id] st).2.

(** The main module imports [a], which imports [b]. *)
Definition in_a : module_vm := enter entry_path (lit "./a") start.
Definition in_b : module_vm := enter (lit "/app/a.lua") (lit "../b") in_a.

Lemma call_step p id st o :
  valid_ (vm st) = true → threads (vm st) !! current_fiber_ (vm st) = Some (CoRunning []) →
  (forallb (λ c, negb (bool_decide (c = 0%Z))) id) = true → answer_to p id st ≠ Stuck →
  started id st (require disk (File p) [LString id] st) = o → module_step st o (call p id st).
Proof.
  intros Hv Hr Hz Hst <-. apply (step_require st disk (File p) id []); [done|by eexists| |done].
  intros Hin%list_elem_of_In. rewrite forallb_forall in Hz. by apply Hz in Hin.
Qed.
Definition no_running (v : vm_context) : bool :=
  forallb (λ x, match x.2 with CoRunning _ => false | _ => true end) (map_to_list (threads v)).
Lemma next_step st f opts q v :
  no_running (vm st) = true → strand (vm st) = FiberResume f opts :: q →
  fiber_resume f opts (with_strand (λ _, q) (vm st)) = Some v → module_step st None (next st).
Proof.
  intros Hi Hq E. unfold next. rewrite Hq, E. eapply step_run; [|done|done].
  intros g [args Hg]. unfold no_running in Hi. rewrite forallb_forall in Hi.
  apply elem_of_map_to_list in Hg. apply list_elem_of_In, Hi in Hg. done.
Qed.
(** Both, for states that compute. *)
Ltac runs := eapply next_step; [by vm_compute|vm_compute; reflexivity|vm_compute; reflexivity].
Ltac calls := apply call_step; [by vm_compute..|by vm_compute|vm_compute; reflexivity].

Lemma steps_in_b :
  module_steps start [Relative (lit "/app/b.lua"); Relative (lit "/app/a.lua")] in_b.
Proof.
  apply (steps_step start [Relative (lit "/app/b.lua"); Relative (lit "/app/a.lua")] None
    (call (lit "/app/a.lua") (lit "../b") in_a)); [|runs].
  apply (steps_step start [Relative (lit "/app/a.lua")] (Some (Relative (lit "/app/b.lua"))) in_a); [|calls].
  apply (steps_step start [Relative (lit "/app/a.lua")] None (call entry_path (lit "./a") start)); [|runs].
  apply (steps_step start [] (Some (Relative (lit "/app/a.lua"))) start); [constructor|calls].
Qed.

Lemma imports_confined_witness :
  below (lit "/app") (path_key (lit "/app/b.lua")) ∧
  (lit "/app" = import_root entry_data ∨ lit "/app" ∈ emilua_path (app start)).
Proof.
  apply (imports_confined start entry_path entry_data _ in_b (path_key (lit "/app/b.lua"))
    (ImportData true regular_context (lit "/app")) start_ok steps_in_b).
  vm_compute. reflexivity.
Defined.

Lemma modules_start_once_witness :
  NoDup (omap identity [Relative (lit "/app/b.lua"); Relative (lit "/app/a.lua")]) ∧
  (∀ l1 p l2, [Relative (lit "/app/b.lua"); Relative (lit "/app/a.lua")] = l1 ++ Relative p :: l2 →
     path_key p ≠ path_key entry_path ∧ ∀ o, o ∈ l2 → path_key (path_of o) ≠ path_key p).
Proof. exact (modules_start_once start entry_path entry_data _ in_b start_ok steps_in_b). Defined.

(** Imports do not leave the directory of the program, and cycles are errors. *)
Example root_confines : answer_to entry_path (lit "../secret") start = error Core.root_cannot_import_parent.
Proof. by vm_compute. Qed.
Example cycles_fail : answer_to (lit "/app/b.lua") (lit "../a") in_b = error Core.cyclic_import.
Proof. by vm_compute. Qed.
End Examples.
