(* ===== verification/ModuleStack.v ===== *)
(** Fibers that import modules wait for each other like calls: the modules that
    are being run form a stack, from the main fiber to the one that may run. *)
From S2P Require Import Prelude Errors Lua StringView Vm Path RdfCategory Modules ModulesSpec.
From S2P Require Import ModulesSpec ModulePromises.

(** * The stack *)

(** Each fiber runs a module for the next one; the last one is the main fiber. *)
Fixpoint chain (st : module_vm) (S : list loc) : Prop :=
  match S with
  | [] => True
  | m :: S' =>
      match S' with
      | [] => m = L_ (vm st) ∧
          ∃ row, fiber_list (vm st) !! m = Some row ∧ joiner row = JDetached
      | f :: _ =>
          (∃ row, fiber_list (vm st) !! m = Some row ∧ joiner row = JThread f ∧
             user_handle row = None) ∧ is_Some (module_paths st !! m)
      end ∧ chain st S'
  end.

(** The fibers of modules that are not over are on the stack; those below the top
    wait, and nothing is queued that would wake them up. *)
Record import_stack (st : module_vm) (S : list loc) : Prop := {
  stack_rows : ∀ f row, fiber_list (vm st) !! f = Some row → module_path row = true →
    status row = None → f ∈ S;
  stack_live : ∀ f, f ∈ S → (∃ row, fiber_list (vm st) !! f = Some row ∧ module_path row = true ∧
    status row = None) ∧ ∀ r, threads (vm st) !! f ≠ Some (CoDead r);
  stack_chain : chain st S;
  stack_waits : ∀ f, f ∈ tail S → threads (vm st) !! f = Some CoSuspended ∧
    f ∉ task_fiber <$> strand (vm st);
  stack_done : ∀ f row, fiber_list (vm st) !! f = Some row → module_path row = true →
    is_Some (status row) → ∃ r, threads (vm st) !! f = Some (CoDead r);
  stack_paths : ∀ f, is_Some (module_paths st !! f) → f ≠ L_ (vm st) ∧
    is_Some (environments st !! f) ∧
    ∃ row, fiber_list (vm st) !! f = Some row ∧ module_path row = true;
  stack_nodup : NoDup S;
  stack_queue : queue_ok (vm st);
  stack_main : L_ (vm st) < next_loc (vm st);
  stack_fresh : ∀ f, is_Some (fiber_list (vm st) !! f) → f < next_loc (vm st);
  stack_over : L_ (vm st) ∉ S → ∃ r, threads (vm st) !! L_ (vm st) = Some (CoDead r);
}.

Lemma start_stack st entry data : modules_start st entry data → import_stack st [L_ (vm st)].
Proof.
  intros S. destruct (start_rows _ _ _ S) as (row & Er & Hm & Hs & Hj). split.
  - intros f row'. rewrite Er, lookup_singleton_Some. intros [<- _]. by left.
  - intros f ->%list_elem_of_singleton. rewrite Er, (start_running _ _ _ S), !lookup_singleton_eq.
    split; [by exists row|done].
  - simpl. rewrite Er, lookup_singleton_eq. split_and!; [done|by exists row|done].
  - simpl. intros f []%elem_of_nil.
  - intros f row'. rewrite Er, lookup_singleton_Some. intros [_ <-]. rewrite Hs. by intros _ [].
  - rewrite (start_paths _ _ _ S). intros f. rewrite lookup_empty. by intros [].
  - apply NoDup_singleton.
  - unfold queue_ok. rewrite (start_strand _ _ _ S). split; [constructor|]. intros f []%elem_of_nil.
  - apply S.
  - intros f. rewrite Er. intros [row' [<- _]%lookup_singleton_Some]. apply S.
  - intros []. by left.
Qed.

(** A fiber of a module that runs is on top of the stack. *)
Lemma running_top st S f :
  import_stack st S → running (vm st) f →
  (∃ row, fiber_list (vm st) !! f = Some row ∧ module_path row = true) →
  ∃ R, S = f :: R.
Proof.
  intros I [args Hr] (row & Er & Hm).
  destruct (status row) as [s|] eqn:Es.
  { destruct (stack_done _ _ I f row Er Hm) as [r Hd]; [by rewrite Es|congruence]. }
  pose proof (stack_rows _ _ I f row Er Hm Es) as Hin. destruct S as [|m R]; [by apply elem_of_nil in Hin|].
  apply elem_of_cons in Hin as [->|Hin]; [by exists R|].
  destruct (stack_waits _ _ I f Hin) as [Hw _]. congruence.
Qed.

Lemma chain_waits st m S : chain st (m :: S) → ∀ f, f ∈ S →
  ∃ m', m' ∈ m :: S ∧ (∃ row, fiber_list (vm st) !! m' = Some row ∧ joiner row = JThread f) ∧
    is_Some (module_paths st !! m').
Proof.
  revert m. induction S as [|g S IH]; intros m C f Hin; [by apply elem_of_nil in Hin|].
  destruct C as [[(row & Er & Hj & _) Hp] C]. apply elem_of_cons in Hin as [->|Hin].
  - exists m. split_and!; [by left|by exists row|done].
  - destruct (IH g C f Hin) as (m' & Hm & Hr & Hp'). exists m'. split_and!; [by right|done|done].
Qed.
Lemma stack_waiting st S f : import_stack st S → f ∈ tail S → waits_for_module st f.
Proof.
  intros I Hin. destruct S as [|m S]; [by apply elem_of_nil in Hin|].
  destruct (chain_waits st m S (stack_chain _ _ I) f Hin) as (m' & Hm & (row & Er & Hj) & Hp).
  destruct (stack_live _ _ I m' Hm) as [(row' & Er' & _ & Hs) _]. exists m', row'.
  split_and!; [done|done|congruence|done].
Qed.

(** * Steps that leave the stack alone *)

Lemma chain_same st st' S :
  L_ (vm st') = L_ (vm st) →
  (∀ f row, f ∈ S → fiber_list (vm st) !! f = Some row →
     ∃ row', fiber_list (vm st') !! f = Some row' ∧ joiner row' = joiner row ∧
       user_handle row' = user_handle row) →
  (∀ f, is_Some (module_paths st !! f) → is_Some (module_paths st' !! f)) →
  chain st S → chain st' S.
Proof.
  intros EL HR HP. induction S as [|m S IH]; [done|]. intros [Hm C]. split.
  - destruct S as [|g S].
    + destruct Hm as [-> (row & Er & Hj)]. split; [by rewrite EL|].
      destruct (HR _ row (list_elem_of_here _ _) Er) as (row' & ? & ? & _). exists row'.
      split; [done|congruence].
    + destruct Hm as [(row & Er & Hj & Hu) Hp].
      destruct (HR _ row (list_elem_of_here _ _) Er) as (row' & ? & ? & ?). split; [|by apply HP].
      exists row'. split_and!; [done|congruence|congruence].
  - apply IH; [|done]. intros f row Hf. apply HR. by right.
Qed.

Lemma quiet_stack st st' S : import_stack st S → quiet st st' → import_stack st' S.
Proof.
  intros I [_ EP EE ET ER ES _ EL _ EN _]. destruct I. split; rewrite ?EP, ?EE, ?ET, ?ER, ?ES, ?EL; try done.
  - eapply chain_same; [done| | |done]; rewrite ?ER, ?EP; [|done]. intros f row _ Hr. by exists row.
  - unfold queue_ok, running in *. rewrite ES, ET. destruct stack_queue0 as [N Q]. split; [done|].
    intros f Hf. destruct (Q f Hf). split; [lia|done].
  - lia.
  - intros f Hf. apply stack_fresh0 in Hf. lia.
Qed.

Lemma other_stack st st' S :
  import_stack st S → other_step st st' → import_stack st' S.
Proof.
  intros I O. destruct I, O. split.
  - intros f row' Hr' Hm' Hs'. destruct (other_rows _ _ Hr' Hm') as (row & Hr & Hm).
    destruct (other_module_rows _ _ Hr Hm) as (row'' & Hr'' & _ & _ & Hs & _).
    eapply stack_rows0; [done|done|]. congruence.
  - intros f Hf. destruct (stack_live0 f Hf) as [(row & Hr & Hm & Hs) Hd].
    destruct (other_module_rows _ _ Hr Hm) as (row' & Hr' & Hm' & _ & Hs' & _). split.
    + exists row'. split_and!; [done|done|congruence].
    + intros r. by eapply other_alive.
  - eapply chain_same; [done| |by rewrite other_paths|done]. intros f row Hf Hr.
    destruct (stack_live0 f Hf) as [(row1 & Hr1 & Hm & _) _].
    destruct (other_module_rows _ _ Hr1 Hm) as (row' & Hr' & _ & Hj & _ & Hu). exists row'.
    split_and!; [done|congruence|congruence].
  - intros f Hf. destruct (stack_waits0 f Hf) as [Hw Hq].
    destruct (other_waiting f) as [Ht Hq']; [by eapply stack_waiting|]. split; [congruence|auto].
  - intros f row' Hr' Hm' Hs'. destruct (other_rows _ _ Hr' Hm') as (row & Hr & Hm).
    destruct (other_module_rows _ _ Hr Hm) as (row'' & Hr'' & _ & _ & Hs & _).
    destruct (stack_done0 f row Hr Hm) as [r Hd]; [congruence|]. exists r. by apply other_dead.
  - rewrite other_paths, other_environments, other_main. intros f Hf.
    destruct (stack_paths0 f Hf) as (? & ? & row & Hr & Hm).
    destruct (other_module_rows _ _ Hr Hm) as (row' & Hr' & Hm' & _). split_and!; [done|done|by exists row'].
  - done.
  - auto.
  - rewrite other_main. lia.
  - done.
  - rewrite other_main. intros Hn. destruct (stack_over0 Hn) as [r Hd]. exists r. by apply other_dead.
Qed.

(** [set_interrupter] on the current fiber, and resumption. *)
Lemma set_interrupter_rows i v f row' :
  fiber_list (set_interrupter i v) !! f = Some row' → ∃ row, fiber_list v !! f = Some row ∧
    module_path row' = module_path row ∧ joiner row' = joiner row ∧ status row' = status row ∧
    user_handle row' = user_handle row.
Proof.
  unfold set_interrupter, set_row. simpl. rewrite lookup_alter_Some.
  intros [(Ef & row & Hr & ->)|[_ Hr]]; [|by exists row']. subst f. exists row. split; [done|].
  by destruct (is_disabled _).
Qed.
Lemma set_interrupter_rows_2 i v f row :
  fiber_list v !! f = Some row → ∃ row', fiber_list (set_interrupter i v) !! f = Some row' ∧
    module_path row' = module_path row ∧ joiner row' = joiner row ∧ status row' = status row ∧
    user_handle row' = user_handle row.
Proof.
  intros Hr. unfold set_interrupter, set_row. simpl. destruct (decide (current_fiber_ v = f)) as [<-|Hne].
  - rewrite lookup_alter_eq, Hr. simpl. eexists. split; [done|]. by destruct (is_disabled _).
  - rewrite lookup_alter_ne by done. by exists row.
Qed.

(** A task runs: nobody else does, and no fiber that waits is queued. *)
Lemma run_stack st S f opts q v :
  import_stack st S → valid_ (vm st) = true → (∀ g, ¬ running (vm st) g) →
  strand (vm st) = FiberResume f opts :: q →
  fiber_resume f opts (with_strand (λ _, q) (vm st)) = Some v →
  import_stack (with_vm (λ _, v) st) S.
Proof.
  intros I Hv Hidle Hq E. destruct (stack_queue _ _ I) as [Hn Hlt]. rewrite Hq in Hn, Hlt.
  simpl in Hn, Hlt. apply NoDup_cons in Hn as [Hf Hn].
  unfold fiber_resume in E. simpl in E. rewrite Hv in E.
  assert (∃ v0 args, v = set_thread f (CoRunning args) v0 ∧
    (∃ s, threads (vm st) !! f = Some s ∧ ∀ r, s ≠ CoDead r) ∧
    threads v0 = threads (vm st) ∧ strand v0 = q ∧ L_ v0 = L_ (vm st) ∧ next_loc v0 = next_loc (vm st) ∧
    (v0 = with_current_fiber (λ _, f) (with_strand (λ _, q) (vm st)) ∨
     v0 = set_interrupter None (with_current_fiber (λ _, f) (with_strand (λ _, q) (vm st)))))
    as (v0 & args & -> & (s & Hs & Hnd) & ET & ES & EL & EN & Ev).
  { destruct (threads (vm st) !! f) as [[]|] eqn:Et; try done; injection E as <-;
    destruct (skip_clear_interrupter opts); eexists _, _; (split_and!; [done| |done..|]); eauto. }
  assert (∀ g row', fiber_list v0 !! g = Some row' → ∃ row, fiber_list (vm st) !! g = Some row ∧
    module_path row' = module_path row ∧ joiner row' = joiner row ∧ status row' = status row ∧
    user_handle row' = user_handle row) as R1.
  { destruct Ev as [->| ->]; [by intros g row'; exists row'|]. intros g row' Hr.
    by apply set_interrupter_rows in Hr. }
  assert (∀ g row, fiber_list (vm st) !! g = Some row → ∃ row', fiber_list v0 !! g = Some row' ∧
    module_path row' = module_path row ∧ joiner row' = joiner row ∧ status row' = status row ∧
    user_handle row' = user_handle row) as R2.
  { destruct Ev as [->| ->]; [by intros g row'; exists row'|]. intros g row Hr.
    by apply (set_interrupter_rows_2 None (with_current_fiber (λ _, f) (with_strand (λ _, q) (vm st)))). }
  assert (f ∉ tail S) as Hft.
  { intros Hin. apply (stack_waits _ _ I) in Hin as [_ Hin]. apply Hin. rewrite Hq. by left. }
  destruct I. split; simpl; rewrite ?ET, ?ES, ?EL, ?EN.
  - intros g row' Hr Hm Hst. destruct (R1 _ _ Hr) as (row & Hr0 & ? & ? & ? & ?).
    eapply stack_rows0; [done|congruence..].
  - intros g Hg. destruct (stack_live0 g Hg) as [(row & Hr & Hm & Hst) Hd]. split.
    + destruct (R2 _ _ Hr) as (row' & ? & ? & ? & ? & ?). exists row'. split_and!; congruence.
    + intros r. destruct (decide (f = g)) as [<-|]; [by rewrite lookup_insert_eq|].
      by rewrite lookup_insert_ne.
  - eapply chain_same; [done| |done|done]. intros g row _ Hr.
    destruct (R2 _ _ Hr) as (row' & ? & ? & ? & ? & ?). by exists row'.
  - intros g Hg. destruct (stack_waits0 g Hg) as [Hw Hnq]. rewrite lookup_insert_ne by congruence.
    split; [done|]. intros Hin. apply Hnq. rewrite Hq. by right.
  - intros g row' Hr Hm Hst. destruct (R1 _ _ Hr) as (row & Hr0 & ? & ? & ? & ?).
    destruct (stack_done0 g row) as [r Hd]; [done|congruence|congruence|]. exists r.
    rewrite lookup_insert_ne; [done|]. intros <-. rewrite Hs in Hd. injection Hd as ->. by eapply Hnd.
  - intros g Hg. destruct (stack_paths0 g Hg) as (? & ? & row & Hr & Hm).
    destruct (R2 _ _ Hr) as (row' & ? & ? & ?). split_and!; [done|done|]. exists row'. split; congruence.
  - done.
  - split; simpl; rewrite ?ES; [done|]. intros g Hg. rewrite EN. destruct (Hlt g) as [? Hr]; [by right|].
    split; [done|]. intros [args' Hr']. simpl in Hr'. rewrite ET in Hr'.
    rewrite lookup_insert_ne in Hr' by (intros ->; done). by eapply Hidle; eexists.
  - done.
  - intros g [row' Hr]. destruct (R1 _ _ Hr) as (row & Hr0 & _). apply stack_fresh0. by eexists.
  - intros Hov. destruct (stack_over0 Hov) as [r Hd]. exists r. rewrite lookup_insert_ne; [done|].
    intros Ef. rewrite <- Ef, Hs in Hd. injection Hd as ->. by eapply Hnd.
Qed.

(** * A call: the module that starts goes on top *)

Definition module_row (c : loc) (storage : option loc) : fiber_data :=
  FiberData (JThread c) None 0 storage (DBoolean true) false None None None true.

Section steps.
Context `{Sord} `{LuaCompiler} `{PluginsGrow} `{Builtins}.

Lemma start_vm ctx p source leaf root st st' :
  start_module_fiber ctx p source leaf root st = (st', Yield) →
  let c := current_fiber_ (vm st) in let m := next_loc (vm st) in
  ∃ storage, vm st' =
    post m skip_clear (set_thread m CoReady
      (with_fiber_list <[m := module_row c storage]> (with_next_loc (λ _, S (S m)) (vm st)))) ∧
    module_paths st' = <[m := p]> (module_paths st) ∧
    environments st' = <[m := S m]> (environments st).
Proof. unfold start_module_fiber. case_match; [done|]. intros [= <-]. by eexists. Qed.

(** The VM once a module was started and its importer waits. *)
Lemma starts_vm st st1 ctx p root leaf :
  starts st st1 ctx p root leaf → let st' := suspend_current Yield st1 in
  valid_ (vm st') = true → let c := current_fiber_ (vm st) in let m := next_loc (vm st) in
  ∃ storage,
    threads (vm st') = <[c := CoSuspended]> (<[m := CoReady]> (threads (vm st))) ∧
    fiber_list (vm st') = <[m := module_row c storage]> (fiber_list (vm st)) ∧
    strand (vm st') = strand (vm st) ++ [FiberResume m skip_clear] ∧
    L_ (vm st') = L_ (vm st) ∧ next_loc (vm st') = S (S m) ∧
    module_paths st' = <[m := p]> (module_paths st) ∧
    environments st' = <[m := S m]> (environments st).
Proof.
  intros (st0 & source & Q & EV & E) st' Hv' c m.
  apply start_vm in E as (storage & E1 & E2 & E3). cbn zeta in E1, E2, E3. rewrite EV in E1, E2, E3.
  rewrite (quiet_paths _ _ Q) in E2. rewrite (quiet_environments _ _ Q) in E3. exists storage.
  assert (vm st' = set_thread c CoSuspended (vm st1)) as ->.
  { unfold st', suspend_current in Hv' |- *. simpl in *. rewrite E1 in Hv' |- *.
    unfold epilogue_yield in *. simpl in *. by destruct (is_closing _). }
  rewrite E1. by split_and!.
Qed.

Lemma starts_stack st st1 stack ctx p root leaf :
  import_stack st stack →
  (∃ row, fiber_list (vm st) !! current_fiber_ (vm st) = Some row ∧ module_path row = true) →
  running (vm st) (current_fiber_ (vm st)) → starts st st1 ctx p root leaf →
  let st' := suspend_current Yield st1 in valid_ (vm st') = true →
  let c := current_fiber_ (vm st) in let m := next_loc (vm st) in
  (∃ R, stack = c :: R) ∧ import_stack st' (m :: stack) ∧ threads (vm st') !! c = Some CoSuspended ∧
  m ∈ task_fiber <$> strand (vm st') ∧ module_paths st' !! m = Some p.
Proof.
  intros I Hrow Hrun Hs st' Hv' c m.
  destruct (running_top st stack c I Hrun Hrow) as [R ->]. destruct Hrow as (row & Hr & Hm).
  destruct (starts_vm _ _ _ _ _ _ Hs Hv') as (storage & ET & ER & ES & EL & EN & EP & EE).
  fold c m st' in ET, ER, ES, EL, EN, EP, EE. clear Hs Hv'. clearbody st'.
  assert (c < m) as Hcm by (apply (stack_fresh _ _ I); by eexists).
  assert (fiber_list (vm st) !! m = None) as Hmf.
  { apply eq_None_not_Some. intros Hs. apply (stack_fresh _ _ I) in Hs. unfold m in Hs. lia. }
  assert (m ∉ task_fiber <$> strand (vm st)) as Hmq.
  { intros Hin. apply (stack_queue _ _ I) in Hin as [Hlt _]. unfold m in Hlt. lia. }
  assert (c ∉ task_fiber <$> strand (vm st)) as Hcq.
  { intros Hin. by apply (stack_queue _ _ I) in Hin as [_ Hn]. }
  assert (∀ f, f ∈ c :: R → f ≠ m) as Hfm.
  { intros f Hf ->. destruct (stack_live _ _ I m Hf) as [(row' & E & _) _]. congruence. }
  split_and!; [by exists R| | | |].
  2: { rewrite ET. by rewrite lookup_insert_eq. }
  2: { rewrite ES, fmap_app. apply elem_of_app. right. by left. }
  2: { rewrite EP. by rewrite lookup_insert_eq. }
  destruct I. split; rewrite ?ET, ?ER, ?ES, ?EL, ?EP, ?EE.
  - intros f row'. rewrite lookup_insert_Some. intros [[<- _]|[_ Hf]]; [by left|].
    intros ??. right. by eapply stack_rows0.
  - intros f [->|Hf]%elem_of_cons.
    + rewrite lookup_insert_eq. split; [by eexists|]. intros r.
      rewrite lookup_insert_ne by lia. by rewrite lookup_insert_eq.
    + rewrite lookup_insert_ne by (apply not_eq_sym; auto).
      destruct (stack_live0 f Hf) as [? Hd]. split; [done|]. intros r.
      destruct (decide (c = f)) as [<-|]; [by rewrite lookup_insert_eq|].
      rewrite !lookup_insert_ne by (done || apply not_eq_sym; auto). apply Hd.
  - split.
    + rewrite ER, lookup_insert_eq, EP, lookup_insert_eq. split; [by eexists|by eexists].
    + eapply chain_same; [done| | |done].
      * intros f row' Hf Hr'. exists row'. by rewrite ER, lookup_insert_ne by (apply not_eq_sym; auto).
      * intros f Hf. rewrite EP. destruct (decide (m = f)) as [<-|];
          [rewrite lookup_insert_eq; by eexists|by rewrite lookup_insert_ne].
  - simpl. intros f Hf. pose proof (Hfm f Hf) as Hne.
    rewrite fmap_app, elem_of_app. split.
    + destruct (decide (c = f)) as [<-|]; [by rewrite lookup_insert_eq|].
      apply elem_of_cons in Hf as [->|Hf]; [done|].
      rewrite !lookup_insert_ne by done. by apply stack_waits0.
    + intros [Hin|Hin%list_elem_of_singleton]; [|done].
      apply elem_of_cons in Hf as [->|Hf]; [done|]. by apply (stack_waits0 f Hf).
  - intros f row'. rewrite lookup_insert_Some. intros [[<- <-]|[Hne Hf]]; [by intros _ []|].
    intros Hm' Hs'. destruct (stack_done0 f row' Hf Hm' Hs') as [r Hd]. exists r.
    rewrite lookup_insert_ne; [by rewrite lookup_insert_ne|]. intros <-.
    destruct Hrun as [args Hrun]. unfold c in Hd. congruence.
  - intros f. destruct (decide (m = f)) as [<-|].
    + intros _. rewrite !lookup_insert_eq. split_and!; [|by eexists|by eexists].
      unfold m. lia.
    + rewrite !lookup_insert_ne by done. intros Hf. by apply stack_paths0.
  - constructor; [|done]. intros Hin. by eapply Hfm.
  - destruct stack_queue0 as [Hn Hq]. split; rewrite ?ES, ?EN, fmap_app.
    + apply NoDup_app. split_and!; [done| |apply NoDup_singleton].
      intros f Hf ->%list_elem_of_singleton. done.
    + intros f [Hf|Hf%list_elem_of_singleton]%elem_of_app.
      * destruct (Hq f Hf) as [Hlt Hnr]. split; [unfold m; lia|]. intros [args Hrf]. rewrite ET in Hrf.
        rewrite !lookup_insert_ne in Hrf by congruence. apply Hnr. by exists args.
      * simpl in Hf. subst f. split; [unfold m; lia|]. intros [args Hrf]. rewrite ET in Hrf.
        rewrite lookup_insert_ne, lookup_insert_eq in Hrf by lia. done.
  - rewrite EN. unfold m. lia.
  - intros f. rewrite EN. destruct (decide (m = f)) as [<-|]; [lia|].
    rewrite lookup_insert_ne by done. intros Hf. apply stack_fresh0 in Hf. unfold m. lia.
  - intros [_ Hn]%not_elem_of_cons. destruct (stack_over0 Hn) as [r Hd]. exists r.
    rewrite !lookup_insert_ne; [done|unfold m; lia|]. intros E. apply Hn. rewrite <- E. by left.
Qed.
End steps.

(** * A return: the importer goes on *)

(** The end of a fiber that is joined by [j]. *)
Lemma epilogue_vm r vm c j row :
  current_fiber_ vm = c → fiber_list vm !! c = Some row → joiner row = JThread j →
  user_handle row = None → valid_ (fiber_epilogue r vm) = true →
  ∃ v0, fiber_epilogue r vm = set_thread j (CoRunning (join_values r)) (set_interrupter None v0) ∧
    threads v0 = <[c := CoDead r]> (threads vm) ∧
    fiber_list v0 = alter (with_status (λ _, Some (status_of r))) c (fiber_list vm) ∧
    strand v0 = strand vm ∧ L_ v0 = L_ vm ∧ next_loc v0 = next_loc vm ∧ current_fiber_ v0 = j.
Proof.
  intros Ec Er Ej Eu. unfold fiber_epilogue. destruct (is_closing vm); [done|]. cbn zeta.
  rewrite Ec. simpl. rewrite Er, Ej, Eu. intros _. by eexists.
Qed.

Section returns.
Context (st st' : module_vm) (c f : loc) (R : list loc) (r : result).
Hypothesis (I : import_stack st (c :: f :: R)) (Ec : current_fiber_ (vm st) = c).
Hypothesis (EV : vm st' = fiber_epilogue r (vm st)) (Hv : valid_ (vm st') = true).
Hypothesis (EP : module_paths st' = module_paths st) (EE : environments st' = environments st).

(** What the rows of fibers keep. *)
Definition same_row (row row' : fiber_data) : Prop :=
  module_path row' = module_path row ∧ joiner row' = joiner row ∧ user_handle row' = user_handle row.

Lemma returns_vm :
  threads (vm st') = <[f := CoRunning (join_values r)]> (<[c := CoDead r]> (threads (vm st))) ∧
  strand (vm st') = strand (vm st) ∧ L_ (vm st') = L_ (vm st) ∧ next_loc (vm st') = next_loc (vm st) ∧
  current_fiber_ (vm st') = f ∧
  (∀ g row', fiber_list (vm st') !! g = Some row' → ∃ row, fiber_list (vm st) !! g = Some row ∧
     same_row row row' ∧ (g ≠ c → status row' = status row) ∧ (g = c → is_Some (status row'))) ∧
  (∀ g row, fiber_list (vm st) !! g = Some row → ∃ row', fiber_list (vm st') !! g = Some row' ∧
     same_row row row' ∧ (g ≠ c → status row' = status row)).
Proof.
  pose proof (stack_chain _ _ I) as [[(row & Er & Ej & Eu) _] _].
  rewrite EV in Hv |- *.
  destruct (epilogue_vm r (vm st) c f row Ec Er Ej Eu Hv) as (v0 & -> & ET & EF & ES & EL & EN & Ecur).
  split_and!; simpl; try done; [by rewrite ET| |].
  - intros g row' Hg. apply set_interrupter_rows in Hg as (row0 & Hg & M & J & ST & U).
    rewrite EF, lookup_alter_Some in Hg. destruct Hg as [(<- & row1 & Hg & ->)|[Hne Hg]].
    + exists row1. split_and!; [done|by split_and!|done|]. intros _. rewrite ST. by eexists.
    + exists row0. by split_and!.
  - intros g row0 Hg.
    assert (∃ row1, fiber_list v0 !! g = Some row1 ∧ same_row row0 row1 ∧ (g ≠ c → status row1 = status row0))
      as (row1 & Hg1 & (M1 & J1 & U1) & ST1).
    { rewrite EF. destruct (decide (c = g)) as [<-|Hne].
      - rewrite lookup_alter_eq, Hg. simpl. by eexists.
      - rewrite lookup_alter_ne by done. by exists row0. }
    destruct (set_interrupter_rows_2 None v0 g row1 Hg1) as (row' & Hg' & M & J & ST & U).
    exists row'. split_and!; [done|split_and!; congruence|]. intros Hne. rewrite ST. auto.
Qed.

Lemma returns_stack :
  import_stack st' (f :: R) ∧ current_fiber_ (vm st') = f ∧
  threads (vm st') !! f = Some (CoRunning (join_values r)).
Proof.
  destruct returns_vm as (ET & ES & EL & EN & Ecur & R1 & R2).
  split_and!; [|done|by rewrite ET, lookup_insert_eq].
  pose proof (stack_nodup _ _ I) as Hnd. apply NoDup_cons in Hnd as [Hcf Hnd].
  assert (∀ g, g ∈ f :: R → g ≠ c) as Hne by (by intros g Hg ->).
  assert (f ∉ R) as HfR by (by apply NoDup_cons in Hnd as [? _]).
  destruct I. split; rewrite ?ET, ?ES, ?EL, ?EN, ?EP, ?EE.
  - intros g row' Hg Hm Hs. destruct (R1 g row' Hg) as (row & Hg0 & (M & _) & S1 & S2).
    destruct (decide (g = c)) as [->|Hgc]; [by destruct S2; [|congruence]|].
    assert (g ∈ c :: f :: R) as Hin by (eapply stack_rows0; [done|congruence|by rewrite <- S1]).
    by apply elem_of_cons in Hin as [->|].
  - intros g Hg. destruct (stack_live0 g) as [(row & Hr & Hm & Hs) Hd]; [by right|]. split.
    + destruct (R2 g row Hr) as (row' & Hr' & (M & _) & S1). exists row'.
      split_and!; [done|congruence|rewrite S1; auto].
    + intros r'. destruct (decide (f = g)) as [<-|]; [by rewrite lookup_insert_eq|].
      rewrite !lookup_insert_ne by (done || apply not_eq_sym; auto). apply Hd.
  - eapply chain_same; [done| |by rewrite EP|by destruct stack_chain0].
    intros g row _ Hg. destruct (R2 g row Hg) as (row' & ? & (? & ? & ?) & _). by exists row'.
  - simpl. intros g Hg. destruct (stack_waits0 g) as [Hw Hq]; [by right|].
    rewrite !lookup_insert_ne; [done| |by intros ->]. apply not_eq_sym, Hne. by right.
  - intros g row' Hg Hm Hs. destruct (R1 g row' Hg) as (row & Hg0 & (M & _) & S1 & _).
    destruct (decide (g = c)) as [->|Hgc].
    { exists r. rewrite lookup_insert_ne, lookup_insert_eq by (apply Hne; by left). done. }
    destruct (stack_done0 g row) as [r' Hd]; [done|congruence|by rewrite <- S1|]. exists r'.
    rewrite !lookup_insert_ne; [done|done|]. intros <-.
    destruct (stack_live0 f) as [_ Hl]; [by right; left|]. by eapply Hl.
  - intros g Hg. destruct (stack_paths0 g Hg) as (? & ? & row & Hr & Hm).
    destruct (R2 g row Hr) as (row' & Hr' & (M & _) & _). split_and!; [done|done|]. exists row'.
    split; congruence.
  - done.
  - destruct stack_queue0 as [N Q]. split; rewrite ?ES; [done|]. intros g Hg. rewrite EN.
    destruct (Q g Hg) as [Hlt Hnr]. split; [done|]. intros [args Hrg]. rewrite ET in Hrg.
    destruct (decide (f = g)) as [<-|].
    { destruct (stack_waits0 f) as [_ Hq]; [by left|done]. }
    rewrite lookup_insert_ne in Hrg by done.
    destruct (decide (c = g)) as [<-|]; [by rewrite lookup_insert_eq in Hrg|].
    rewrite lookup_insert_ne in Hrg by done. apply Hnr. by exists args.
  - done.
  - intros g [row' Hg]. destruct (R1 g row' Hg) as (row & Hg0 & _). apply stack_fresh0. by eexists.
  - intros Hn. destruct (stack_chain0) as [[_ Hp] _]. destruct (stack_paths0 _ Hp) as [Hc _].
    destruct stack_over0 as [r' Hd]; [by apply not_elem_of_cons|]. exists r'.
    rewrite !lookup_insert_ne; [done|done|]. intros E. apply Hn. rewrite <- E. by left.
Qed.
End returns.

(** * The end of the main fiber *)
Lemma ends_stack st r S :
  import_stack st S → running (vm st) (current_fiber_ (vm st)) →
  current_fiber_ (vm st) = L_ (vm st) → let st' := with_vm (fiber_epilogue r) st in
  valid_ (vm st') = true → S = [L_ (vm st)] ∧ import_stack st' [].
Proof.
  intros I Hrun EL st' Hv.
  assert (L_ (vm st) ∈ S) as Hin.
  { destruct (decide (L_ (vm st) ∈ S)) as [|Hn]; [done|].
    destruct (stack_over _ _ I Hn) as [d Hd]. destruct Hrun as [args Hr]. congruence. }
  destruct (stack_live _ _ I _ Hin) as [(row & Er & Hm & Hs) _].
  destruct (running_top st S (L_ (vm st)) I) as [R ->]; [congruence|by eexists|].
  pose proof (stack_chain _ _ I) as C. destruct R as [|f R].
  2: { destruct C as [[_ Hp] _]. by destruct (stack_paths _ _ I _ Hp). }
  split; [done|]. destruct C as [[_ (row' & Er' & Ej)] _].
  assert (threads (vm st') = <[L_ (vm st) := CoDead r]> (threads (vm st)) ∧
    fiber_list (vm st') = delete (L_ (vm st)) (fiber_list (vm st)) ∧ strand (vm st') = strand (vm st) ∧
    L_ (vm st') = L_ (vm st) ∧ next_loc (vm st') = next_loc (vm st)) as (ET & EF & ES & EL' & EN).
  { unfold st' in *. simpl in *. unfold fiber_epilogue in *. destruct (is_closing _); [done|].
    cbn zeta in *. rewrite EL in *. simpl in *. rewrite Er', Ej in *. rewrite bool_decide_true in * by done.
    simpl in *. destruct r; [|done]. simpl in *. by destruct (negb _). }
  destruct I. split; rewrite ?ET, ?EF, ?ES, ?EL', ?EN.
  - intros f row1 [Hne Hf]%lookup_delete_Some Hm1 Hs1.
    assert (f ∈ [L_ (vm st)]) as ->%list_elem_of_singleton by (by eapply stack_rows0). done.
  - intros f []%elem_of_nil.
  - done.
  - intros f []%elem_of_nil.
  - intros f row1 [Hne Hf]%lookup_delete_Some Hm1 Hs1.
    rewrite lookup_insert_ne by done. by eapply stack_done0.
  - intros f Hf. destruct (stack_paths0 f Hf) as (? & ? & row1 & ? & ?). split_and!; [done|done|].
    exists row1. by rewrite lookup_delete_ne by congruence.
  - constructor.
  - unfold queue_ok, running in *. rewrite ES, EN, ET. destruct stack_queue0 as [N Q]. split; [done|].
    intros f Hf. destruct (Q f Hf) as [Hlt Hn]. split; [done|]. intros [args Ha].
    apply lookup_insert_Some in Ha as [[_ ?]|[_ Ha]]; [done|]. by apply Hn; exists args.
  - done.
  - intros f [row1 [_ Hf]%lookup_delete_Some]. apply stack_fresh0. by eexists.
  - intros _. exists r. by rewrite lookup_insert_eq.
Qed.


(** * Nesting *)

(** What a step does to the stack; [o] is the module it starts. *)
Inductive nesting (st st' : module_vm) : list loc → list loc → option origin → Prop :=
| nest_same S : nesting st st' S S None
| nest_call m R o :
    threads (vm st') !! current_fiber_ (vm st) = Some CoSuspended →
    m ∈ task_fiber <$> strand (vm st') → module_paths st' !! m = Some (path_of o) →
    nesting st st' (current_fiber_ (vm st) :: R) (m :: current_fiber_ (vm st) :: R) (Some o)
| nest_return f R p env :
    module_paths st !! current_fiber_ (vm st) = Some p →
    loaded_modules st' = <[p := LTable env]> (loaded_modules st) →
    current_fiber_ (vm st') = f →
    threads (vm st') !! f = Some (CoRunning [RV (LBoolean true); RV (LTable env)]) →
    nesting st st' (current_fiber_ (vm st) :: f :: R) (f :: R) None
| nest_raise f R e :
    loaded_modules st' = loaded_modules st → current_fiber_ (vm st') = f →
    threads (vm st') !! f = Some (CoRunning (join_values (Failed e))) →
    nesting st st' (current_fiber_ (vm st) :: f :: R) (f :: R) None
| nest_end : nesting st st' [L_ (vm st)] [] None.

Section promises.
Context `{Sord} `{LuaCompiler} `{PluginsGrow} `{Builtins}.

(** A fiber with a path that runs is on top, and another one is below it. *)
Lemma module_top st S :
  import_stack st S → running (vm st) (current_fiber_ (vm st)) →
  is_Some (module_paths st !! current_fiber_ (vm st)) →
  ∃ f R, S = current_fiber_ (vm st) :: f :: R.
Proof.
  intros I Hrun Hp. destruct (stack_paths _ _ I _ Hp) as (Hne & _ & row & Er & Hm).
  destruct (running_top st S _ I Hrun) as [[|f R] ->]; [by eexists| |by eexists _, _].
  by destruct (stack_chain _ _ I) as [[? _] _].
Qed.

Lemma step_stack st S o st' :
  import_stack st S → module_step st o st' → valid_ (vm st') = true →
  ∃ S', import_stack st' S' ∧ nesting st st' S S' o.
Proof.
  intros I Hs Hv'. destruct Hs as [fs from id rest Hv Hrun Hz r Hst|st1 Hv Hrun E|e Hv Hrun Hp
    |r Hv Hrun EL|f opts q v Hidle Hq E|st1 O].
  - pose proof (require_cases fs from id rest st Hst) as C. fold r in C. clearbody r.
    destruct r as [st1 a]. simpl in C, Hv' |- *.
    destruct C as [(Hy & Q & _)|(-> & Hrow & ctx & p & root & leaf & Hs & _)].
    { simpl in *. assert (suspend_current a st1 = st1) as -> by (by destruct a).
      assert (started id st (st1, a) = None) as -> by (by destruct a).
      exists S. split; [by eapply quiet_stack|constructor]. }
    rewrite (started_label id st (st1, Yield) _ _ _ _ eq_refl Hs).
    destruct (starts_stack _ _ _ _ _ _ _ I Hrow Hrun Hs Hv') as ([R ->] & I' & Hc & Hm & Hp).
    eexists. split; [done|]. constructor; [done|done|]. by rewrite path_of_origin.
  - unfold module_returns, mark_module_as_loaded in E.
    destruct (module_paths st !! _) as [p|] eqn:Ep; [|done]. simpl in E.
    destruct (environments st !! _) as [env|] eqn:Ee; [|done]. simpl in E. injection E as <-.
    destruct (module_top st S I Hrun) as (f & R & ->); [by eexists|].
    match type of Hv' with valid_ (vm ?x) = true =>
      destruct (returns_stack st x _ f R (Finished [RV (LTable env)]) I eq_refl eq_refl Hv' eq_refl eq_refl)
      as (I' & Ec & Ht) end. exists (f :: R). split; [done|]. by eapply nest_return.
  - destruct (module_top st S I Hrun Hp) as (f & R & ->).
    destruct (returns_stack st (module_raises e st) _ f R (Failed e) I eq_refl eq_refl Hv' eq_refl eq_refl)
      as (I' & Ec & Ht). exists (f :: R). split; [done|]. by eapply nest_raise.
  - destruct (ends_stack st r S I Hrun EL Hv') as [-> I']. exists []. split; [done|constructor].
  - assert (valid_ (vm st) = true) as Hv.
    { unfold fiber_resume in E. simpl in E. destruct (valid_ (vm st)) eqn:Ev; [done|].
      injection E as <-. simpl in Hv'. congruence. }
    exists S. split; [by eapply run_stack|constructor].
  - exists S. split; [by eapply other_stack|constructor].
Qed.

(** C13 Modules run like calls: in every state of a VM the modules that are being
    run form a stack, of which all but the top are suspended and out of the queue.
    A call of [require] that finds a module puts it on top of its importer, which
    stops; the end of a module takes it away, and its importer, the next one, goes
    on at once: with the globals of the module, from then on loaded, or with its error. *)
Theorem imports_nest st0 entry data l st :
  modules_start st0 entry data → module_steps st0 l st → valid_ (vm st) = true →
  ∃ S, import_stack st S ∧
    ∀ o st', module_step st o st' → valid_ (vm st') = true →
      ∃ S', import_stack st' S' ∧ nesting st st' S S' o.
Proof.
  intros Hst Hs Hv. assert (∃ S, import_stack st S) as [S I].
  { clear -Hst Hs Hv H H0 H1 H2 H3. induction Hs as [|l o st st' _ IH Hs].
    - eexists. by eapply start_stack.
    - destruct (valid_ (vm st)) eqn:Ev.
      + destruct (IH eq_refl) as [S I]. destruct (step_stack st S o st' I Hs Hv) as (S' & I' & _).
        by exists S'.
      + destruct (closed_steps st Ev o st' Hs) as (_ & ? & _). congruence. }
  exists S. split; [done|]. intros o st' Ho Hv'. by eapply step_stack.
Qed.
End promises.

(** * Examples *)
Module Examples.
Import ModulePromises.Examples.

(** [main] imports [a], which imports [b], which runs. *)
Lemma imports_nest_witness :
  ∃ S, import_stack in_b S ∧
    ∀ o st', module_step in_b o st' → valid_ (vm st') = true →
      ∃ S', import_stack st' S' ∧ nesting in_b st' S S' o.
Proof.
  apply (imports_nest start entry_path entry_data _ in_b start_ok steps_in_b). by vm_compute.
Defined.

(** Then [b] ends, and [a] goes on with its globals. *)
Example a_goes_on :
  (λ st, (threads (vm st) !! 10%nat, loaded_modules st !! lit "/app/b.lua")) <$> module_returns in_b =
  Some (Some (CoRunning [RV (LBoolean true); RV (LTable 13)]), Some (LTable 13)).
Proof. by vm_compute. Qed.
Example main_fails :
  threads (vm (module_raises (RV LNil) in_a)) !! 0%nat =
  Some (CoRunning [RV (LBoolean false); RV LNil]).
Proof. by vm_compute. Qed.

(** A module that failed is taken for one that is being loaded. *)
Example failed_is_cyclic :
  answer_to entry_path (lit "./a") (module_raises (RV LNil) in_a) = error Core.cyclic_import.
Proof. by vm_compute. Qed.

(** Through a name that starts with a slash a module imports itself, again and
    again: the test for cycles looks for its directory. *)
Definition in_a_again : module_vm := enter (lit "/app/a.lua") (lit "/a") in_a.
Example rooted_cycles_go_on :
  answer_to (lit "/app/a.lua") (lit "/a") in_a = Yield ∧
  answer_to (lit "/app/a.lua") (lit "/a") in_a_again = Yield.
Proof. by vm_compute. Qed.

(** A package that was run as a module of another place is not expected by name. *)
Definition q_by_path : module_vm :=
  default start (module_returns (enter (lit "/lib/p/init.lua") (lit "../q") (enter entry_path (lit "p") start))).
Example package_known_by_path : answer_to (lit "/lib/p/init.lua") (lit "q") q_by_path = Stuck.
Proof. by vm_compute. Qed.

(** A place for packages that ends in a slash, or is relative, does not stop [../]. *)
Example places_leak :
  answer_to (lit "/lib/p/init.lua") (lit "../secret") (enter entry_path (lit "p") (boot [lit "/lib"]))
    = error_module Core.module_not_found (lit "../secret") ∧
  answer_to (lit "/lib/p/init.lua") (lit "../../secret") (enter entry_path (lit "p") (boot [lit "/lib"]))
    = error Core.root_cannot_import_parent ∧
  answer_to (lit "/lib/p/init.lua") (lit "../../secret") (enter entry_path (lit "p") (boot [lit "/lib/"]))
    = Yield.
Proof. by vm_compute. Qed.

(** A name with a zero in it passes the test of its form, and means a file without
    the extension of modules. *)
Example zero_in_name :
  answer_to entry_path (lit "raw" ++ [0%Z; 33%Z]) start = Yield ∧
  answer_to entry_path (lit "raw") start = error_module Core.module_not_found (lit "raw").
Proof. by vm_compute. Qed.

Example empty_module_fails : answer_to entry_path (lit "./empty") start = error Iostream_code.
Proof. by vm_compute. Qed.
End Examples.
