(* ===== verification/Regex.v ===== *)
(** Regular expressions: [src/src/regex.cpp].

    The state is the heap of [ByteSpan], whose spans may be searched and whose
    buffers the results share, the regular expressions the userdata hold and the
    tables the functions take and make.  The engine is the one of the standard
    library: the class [StdRegex] has its functions, which may throw, [RegexLaws]
    what the standard says of their results for the flags it knows.  The iterators
    over matches are its loops, written out. *)
From S2P Require Import Prelude Errors Lua StringView ByteSpan.

(** * Flags *)

Inductive grammar_t : Set := ECMAScript | basic | extended.
Record syntax_flags : Set := SyntaxFlags {
  grammar : grammar_t;
  icase : bool;
  nosubs : bool;
  optimize : bool;
}.

(** The bits of [std::regex_constants::match_flag_type]. *)
Definition match_default : Z := 0.
Definition match_not_bol : Z := 1.
Definition match_not_eol : Z := 2.
Definition match_not_bow : Z := 4.
Definition match_not_eow : Z := 8.
Definition match_any : Z := 16.
Definition match_not_null : Z := 32.
Definition match_continuous : Z := 64.
Definition match_prev_avail : Z := 128.
Definition has_flag (flags flag : Z) : bool := bool_decide (Z.land flags flag ≠ 0)%Z.
(** A combination of these; [match_prev_avail] promises that there is a character
    before the text. *)
Definition valid_flags (flags : Z) (before : bytes) : Prop :=
  (0 ≤ flags < 256)%Z ∧ (has_flag flags match_prev_avail = true → before ≠ []).

(** * The engine *)

(** What the engine throws: an [std::regex_error], an [std::system_error], another
    exception. *)
Inductive regex_exn : Set :=
| RegexError (code : Z)
| RegexSystemError (ec : error_code)
| RegexException (what : string).

(** [std::cmatch]: where the whole match and the groups start and end; a group may
    take no part in the match. *)
Record match_results : Set := MatchResults {
  whole : nat * nat;
  groups : list (option (nat * nat));
}.

(** [search r flags before s] looks at [s], which comes after [before], and
    [full_match] likewise; both may throw ([error_complexity], [error_stack]).  An
    exception that leaves a function of a module becomes an error of Lua:
    [cpp_exception] is what LuaJIT makes of it. *)
Class StdRegex := {
  std_regex : Type;
  assign : bytes → syntax_flags → regex_exn + std_regex;
  mark_count : std_regex → nat;
  regex_flags : std_regex → syntax_flags;
  search : std_regex → Z → bytes → bytes → regex_exn + option match_results;
  full_match : std_regex → Z → bytes → bytes → regex_exn + option match_results;
  cpp_exception : regex_exn → lua_error;
}.

Definition in_text (s : bytes) (m : nat * nat) : Prop := m.1 ≤ m.2 ≤ length s.
Record results_in `{StdRegex} (r : std_regex) (s : bytes) (m : match_results) : Prop := {
  results_whole : in_text s (whole m);
  results_groups : Forall (λ g, match g with Some g => in_text s g | None => True end) (groups m);
  results_count : length (groups m) = mark_count r;
}.
Class RegexLaws `{StdRegex} := {
  assign_flags : ∀ pattern flags r, assign pattern flags = inr r → regex_flags r = flags;
  search_results : ∀ r flags before s m, valid_flags flags before →
    search r flags before s = inr (Some m) → results_in r s m;
  search_not_null : ∀ r flags before s m, valid_flags flags before →
    search r flags before s = inr (Some m) →
    has_flag flags match_not_null = true → (whole m).1 < (whole m).2;
  search_continuous : ∀ r flags before s m, valid_flags flags before →
    search r flags before s = inr (Some m) →
    has_flag flags match_continuous = true → (whole m).1 = 0;
  full_match_results : ∀ r flags before s m, valid_flags flags before →
    full_match r flags before s = inr (Some m) → results_in r s m ∧ whole m = (0, length s);
}.

(** * State *)
Abbreviation lua_key := (Z + bytes)%type (only parsing).
Definition str (s : string) : lua_key := inr (lit s).
Abbreviation lua_table := (gmap lua_key lua_value) (only parsing).

Record regex_state `{StdRegex} : Type := RegexState {
  spans : store;
  regexes : gmap loc std_regex;       (* the userdata with [regex_mt_key] *)
  tables : list lua_table;
}.
Arguments RegexState {_}.

Section regex.
Context `{LuaApi} `{StdRegex}.

Definition with_spans (f : store → store) (st : regex_state) : regex_state :=
  RegexState (f (spans st)) (regexes st) (tables st).
Definition new_table (t : lua_table) (st : regex_state) : regex_state * lua_value :=
  (RegexState (spans st) (regexes st) (tables st ++ [t]), LTable (length (tables st))).
Definition new_span (bs : byte_span_handle) (st : regex_state) : regex_state * lua_value :=
  (with_spans (λ s, Store (buffers s) (userdata s ++ [Span bs])) st,
   LUserdata (length (userdata (spans st)))).
Definition new_regex (r : std_regex) (st : regex_state) : regex_state * lua_value :=
  let u := length (userdata (spans st)) in
  (RegexState (Store (buffers (spans st)) (userdata (spans st) ++ [OtherUserdata]))
     (<[u := r]> (regexes st)) (tables st),
   LUserdata u).
(** The userdata of a regular expression that was refused. *)
Definition dead_regex (st : regex_state) : regex_state :=
  with_spans (λ s, Store (buffers s) (userdata s ++ [OtherUserdata])) st.

(** * Construction *)
Definition getfield (t : lua_table) (name : string) : lua_value := default LNil (t !! str name).
Definition string_field (t : lua_table) (name : string) : early bytes :=
  match getfield t name with
  | LString s => inr s
  | _ => inl (Raises (EString "bad argument"))
  end.
Definition raise_name (name : string) : outcome :=
  Raises (ECode invalid_argument (Some (ArgName name))).
Definition flag_field (t : lua_table) (name : string) : early bool :=
  match getfield t name with
  | LNil => inr false
  | LBoolean b => inr b
  | _ => inl (raise_name name)
  end.
Definition grammar_of (name : bytes) : early grammar_t :=
  if decide (name = lit "ecma") then inr ECMAScript
  else if decide (name = lit "basic") then inr basic
  else if decide (name = lit "extended") then inr extended
  else inl (raise_name "grammar").

Definition regex_new (L : lua_args) (st : regex_state) : regex_state * outcome :=
  check t :=
    match arg L 1 with
    | Some (LTable t) => inr (default ∅ (tables st !! t))
    | _ => inl (Raises (EString "bad argument #1 to 'new' (table expected)"))
    end in st;
  check pattern := string_field t "pattern" in st;
  check grammar := string_field t "grammar" in st;
  check grammar := grammar_of grammar in st;
  check ignore_case := flag_field t "ignore_case" in st;
  check nosubs := flag_field t "nosubs" in st;
  check optimize := flag_field t "optimize" in st;
  match assign pattern (SyntaxFlags grammar ignore_case nosubs optimize) with
  | inr r => let '(st, v) := new_regex r st in (st, Returns [v])
  | inl (RegexError code) => (dead_regex st, raise (Regex_code code))
  | inl (RegexSystemError ec) => (dead_regex st, raise ec)
  | inl (RegexException what) => (dead_regex st, Raises (EString what))
  end.

(** * Arguments *)
Definition regex_arg (L : lua_args) (st : regex_state) : early std_regex :=
  match arg L 1 with
  | Some (LUserdata u) =>
      match regexes st !! u with
      | Some r => inr r
      | None => inl (raise_arg invalid_argument 1)
      end
  | _ => inl (raise_arg invalid_argument 1)
  end.
(** The text, and the span it is of. *)
Definition source_arg (L : lua_args) (st : regex_state) : early (option byte_span_handle * bytes) :=
  match text_arg L 2 (spans st) with
  | inl e => inl e
  | inr view =>
      match read (spans st) view with
      | inl e => inl e
      | inr s => inr (span_of (spans st) (arg L 2), s)
      end
  end.
Definition flags_arg (L : lua_args) : early Z :=
  match arg L 3 with
  | Some LNil | None => inr match_default
  | Some (LNumber n) => inr (lua_tointeger n)
  | _ => inl (raise_arg invalid_argument 3)
  end.

(** What comes before the text: the rest of the buffer of a span.  The flag
    [match_prev_avail], which the engine takes from the program unchecked, makes it
    read the character before; [None] if there is none. *)
Definition before_of (src_bs : option byte_span_handle) (st : store) : bytes :=
  match src_bs with
  | Some bs =>
      match data bs with
      | Some (b, off) => take (Z.to_nat off) (default [] (buffers st !! b))
      | None => []
      end
  | None => []
  end.
Definition available (flags : Z) (src_bs : option byte_span_handle) (st : store) : option bytes :=
  if has_flag flags match_prev_avail then
    match before_of src_bs st with [] => None | before => Some before end
  else Some [].

(** A part of the text: a string, or a span of the same buffer. *)
Definition part_span (bs : byte_span_handle) (m : nat * nat) : byte_span_handle :=
  Handle ((λ '(b, off), (b, (off + m.1)%Z)) <$> data bs) (m.2 - m.1)%nat (capacity bs - m.1).
Definition part_text (s : bytes) (m : nat * nat) : bytes := window m.1 (m.2 - m.1) s.
Definition push_part (src_bs : option byte_span_handle) (s : bytes) (m : nat * nat)
    (st : regex_state) : regex_state * lua_value :=
  match src_bs with
  | Some bs => new_span (part_span bs m) st
  | None => (st, LString (part_text s m))
  end.
Fixpoint push_parts (src_bs : option byte_span_handle) (s : bytes) (ms : list (nat * nat))
    (st : regex_state) : regex_state * list lua_value :=
  match ms with
  | [] => (st, [])
  | m :: ms =>
      let '(st, v) := push_part src_bs s m st in
      let '(st, vs) := push_parts src_bs s ms st in
      (st, v :: vs)
  end.

(** * Matching *)

(** A group that took no part is an empty string or an empty span. *)
Fixpoint push_groups (src_bs : option byte_span_handle) (s : bytes)
    (ms : list (option (nat * nat))) (st : regex_state) : regex_state * list lua_value :=
  match ms with
  | [] => (st, [])
  | m :: ms =>
      let '(st, v) :=
        match m, src_bs with
        | Some m, _ => push_part src_bs s m st
        | None, Some _ => new_span null_handle st
        | None, None => (st, LString [])
        end in
      let '(st, vs) := push_groups src_bs s ms st in
      (st, v :: vs)
  end.

Definition regex_match (L : lua_args) (st : regex_state) : regex_state * outcome :=
  let L := settop 3 L in
  check regex := regex_arg L st in st;
  check (src_bs, s) := source_arg L st in st;
  check flags := flags_arg L in st;
  match available flags src_bs (spans st) with
  | None => (st, Undefined)
  | Some before =>
  match full_match regex flags before s with
  | inl e => (st, Raises (cpp_exception e))
  | inr None => (st, Returns [LNil])
  | inr (Some results) =>
      if decide (mark_count regex = 0) then (st, Returns (option_list (arg L 2)))
      else
        let '(st, vs) := push_groups src_bs s (groups results) st in
        (st, Returns vs)
  end
  end.

(** Positions count from 1, and the last character is in. *)
Definition position_table (m : nat * nat) : lua_table :=
  {[str "start" := LNumber (lua_pushinteger (1 + m.1)); str "end_" := LNumber (lua_pushinteger m.2)]}.
Fixpoint set_positions (i : nat) (ms : list (option (nat * nat))) (t : lua_table) (st : regex_state) :
    regex_state * lua_table :=
  match ms with
  | [] => (st, t)
  | None :: ms => set_positions (S i) ms t st
  | Some m :: ms =>
      let '(st, v) := new_table (position_table m) st in
      set_positions (S i) ms (<[inl (Z.of_nat i) := v]> t) st
  end.

Definition regex_search (L : lua_args) (st : regex_state) : regex_state * outcome :=
  let L := settop 3 L in
  check regex := regex_arg L st in st;
  check (src_bs, s) := source_arg L st in st;
  check flags := flags_arg L in st;
  match available flags src_bs (spans st) with
  | None => (st, Undefined)
  | Some before =>
  match search regex flags before s with
  | inl e => (st, Raises (cpp_exception e))
  | inr results =>
  let t := {[str "empty" := LBoolean (bool_decide (results = None))]} in
  let '(st, t) :=
    match results with
    | None => (st, t)
    | Some m => set_positions 0 (Some (whole m) :: groups m) t st
    end in
  let '(st, v) := new_table t st in
  (st, Returns [v])
  end
  end.

(** * Splitting *)

(** A search that starts at [it]; positions are those of the whole text. *)
Definition search_from (regex : std_regex) (flags : Z) (s : bytes) (it : nat) :
    regex_exn + option (nat * nat) :=
  match search regex flags (take it s) (drop it s) with
  | inl e => inl e
  | inr (Some m) => inr (Some (it + (whole m).1, it + (whole m).2))
  | inr None => inr None
  end.

(** The match [m] before what a loop gives. *)
Definition and_then (m : nat * nat) (r : option (regex_exn + list (nat * nat))) :
    option (regex_exn + list (nat * nat)) :=
  match r with
  | Some (inr ms) => Some (inr (m :: ms))
  | r => r
  end.

(** [std::cregex_iterator]: the match [m], and those after it. *)
Fixpoint matches_from (fuel : nat) (regex : std_regex) (flags : Z) (s : bytes)
    (m : nat * nat) : option (regex_exn + list (nat * nat)) :=
  match fuel with
  | O => None
  | S fuel =>
      let next flags m' := and_then m (matches_from fuel regex flags s m') in
      let last it :=
        let flags := Z.lor flags match_prev_avail in
        match search_from regex flags s it with
        | inl e => Some (inl e)
        | inr (Some m') => next flags m'
        | inr None => Some (inr [m])
        end in
      if decide (m.1 = m.2) then
        if decide (m.2 = length s) then Some (inr [m])
        else
          match search_from regex (Z.lor (Z.lor flags match_not_null) match_continuous) s m.2 with
          | inl e => Some (inl e)
          | inr (Some m') => next flags m'
          | inr None => last (S m.2)
          end
      else last m.2
  end.
Definition regex_iterator (regex : std_regex) (flags : Z) (s : bytes) :
    option (regex_exn + list (nat * nat)) :=
  match search_from regex flags s 0 with
  | inl e => Some (inl e)
  | inr (Some m) => matches_from (S (S (length s))) regex flags s m
  | inr None => Some (inr [])
  end.

(** [std::cregex_token_iterator] for the field -1: what is before each match, and
    at last what is after all of them, unless it is empty. *)
Fixpoint prefixes (prev : nat) (ms : list (nat * nat)) (s : bytes) : list (nat * nat) :=
  match ms with
  | [] => if decide (prev = length s) then [] else [(prev, length s)]
  | m :: ms => (prev, m.1) :: prefixes m.2 ms s
  end.
Definition token_iterator (ms : list (nat * nat)) (s : bytes) : list (nat * nat) :=
  match ms with
  | [] => [(0, length s)]
  | ms => prefixes 0 ms s
  end.

(** [{[1] = v1, [2] = v2, ..}] *)
Fixpoint array (i : Z) (vs : list lua_value) : lua_table :=
  match vs with [] => ∅ | v :: vs => <[inl i := v]> (array (i + 1) vs) end.

Definition push_array (src_bs : option byte_span_handle) (s : bytes) (ms : list (nat * nat))
    (st : regex_state) : regex_state * outcome :=
  let '(st, vs) := push_parts src_bs s ms st in
  let '(st, t) := new_table (array 1 vs) st in
  (st, Returns [t]).

(** What [split] makes of the text, once the arguments are known.  The loop ends:
    [None], without fuel, does not occur.  The table and the spans made before the
    engine throws are garbage and left out. *)
Definition split_source (regex : std_regex) (src_bs : option byte_span_handle) (s : bytes)
    (st : regex_state) : regex_state * outcome :=
  if decide (mark_count regex = 0) then
    match regex_iterator regex match_not_null s with
    | Some (inl e) => (st, Raises (cpp_exception e))
    | Some (inr ms) => push_array src_bs s (token_iterator ms s) st
    | None => (st, Undefined)
    end
  else (st, raise not_supported).
Definition regex_split (L : lua_args) (st : regex_state) : regex_state * outcome :=
  let L := settop 2 L in
  check regex := regex_arg L st in st;
  check (src_bs, s) := source_arg L st in st;
  split_source regex src_bs s st.

(** The loop of [patsplit] from the match [m]. *)
Fixpoint patsplit_from (fuel : nat) (regex : std_regex) (flags : Z) (s : bytes) (m : nat * nat) :
    option (regex_exn + list (nat * nat)) :=
  match fuel with
  | O => None
  | S fuel =>
      let next flags m' := and_then m (patsplit_from fuel regex flags s m') in
      let it := m.2 in
      if decide (it = length s) then Some (inr [m])
      else
        let continues :=
          if decide (m.1 = m.2) then
            search_from regex (Z.lor (Z.lor flags match_not_null) match_continuous) s it
          else inr None in
        match continues with
        | inl e => Some (inl e)
        | inr (Some m') => next flags m'
        | inr None =>
            let it := S it in
            let flags := Z.lor flags match_prev_avail in
            match search_from regex flags s it with
            | inl e => Some (inl e)
            | inr (Some m') => next flags m'
            | inr None => Some (inr [m])
            end
        end
  end.

Definition patsplit_source (regex : std_regex) (src_bs : option byte_span_handle) (s : bytes)
    (st : regex_state) : regex_state * outcome :=
  match search_from regex match_default s 0 with
  | inl e => (st, Raises (cpp_exception e))
  | inr matched =>
      if decide (mark_count regex = 0) then
        let ms :=
          match matched with
          | Some m => patsplit_from (S (S (length s))) regex match_default s m
          | None => Some (inr [])
          end in
        match ms with
        | Some (inl e) => (st, Raises (cpp_exception e))
        | Some (inr ms) => push_array src_bs s ms st
        | None => (st, Undefined)
        end
      else (st, raise not_supported)
  end.
Definition regex_patsplit (L : lua_args) (st : regex_state) : regex_state * outcome :=
  let L := settop 2 L in
  check regex := regex_arg L st in st;
  check (src_bs, s) := source_arg L st in st;
  patsplit_source regex src_bs s st.

(** * Properties *)
Definition regex_mark_count (r : std_regex) : lua_value := LNumber (lua_pushinteger (mark_count r)).
Definition regex_grammar (r : std_regex) : lua_value :=
  LString (match grammar (regex_flags r) with
    | ECMAScript => lit "ecma" | basic => lit "basic" | extended => lit "extended" end).
Definition regex_ignore_case (r : std_regex) : lua_value := LBoolean (icase (regex_flags r)).
Definition regex_nosubs (r : std_regex) : lua_value := LBoolean (nosubs (regex_flags r)).
Definition regex_optimized (r : std_regex) : lua_value := LBoolean (optimize (regex_flags r)).

Definition regex_mt_index (L : lua_args) (st : regex_state) : regex_state * outcome :=
  let key := tostringview (arg L 2) in
  let property f :=
    match arg L 1 with
    | Some (LUserdata u) =>
        match regexes st !! u with
        | Some r => (st, Returns [f r])
        | None => (st, Undefined)
        end
    | _ => (st, Undefined)
    end in
  if decide (key = lit "mark_count") then property regex_mark_count
  else if decide (key = lit "grammar") then property regex_grammar
  else if decide (key = lit "ignore_case") then property regex_ignore_case
  else if decide (key = lit "nosubs") then property regex_nosubs
  else if decide (key = lit "optimized") then property regex_optimized
  else (st, raise_bad_index).
End regex.
