(* ===== verification/RegexSpec.v ===== *)
(** What the functions on regular expressions promise: the loops end, results stay
    inside of the text, splitting loses nothing. *)
From S2P Require Import Prelude Errors Lua StringView ByteSpan ByteSpanFacts ByteSpanSafety Regex.

Section spec.
Context `{LuaApi} `{RegexLaws}.

(** * Searching *)

Lemma has_flag_lor f g flag : has_flag f flag = true → has_flag (Z.lor f g) flag = true.
Proof.
  unfold has_flag. rewrite !bool_decide_eq_true, Z.land_lor_distr_l. intros Hf.
  by intros [? _]%Z.lor_eq_0_iff.
Qed.

Lemma valid_lor flags g before :
  valid_flags flags before → (0 ≤ g < 256)%Z →
  (has_flag g match_prev_avail = true → before ≠ []) → valid_flags (Z.lor flags g) before.
Proof.
  intros [[F1 F2] Fp] [G1 G2] Gp. split.
  - split; [by apply Z.lor_nonneg|].
    destruct (decide (Z.lor flags g = 0)%Z) as [->|]; [lia|].
    apply Z.log2_lt_cancel. rewrite Z.log2_lor by done. change (Z.log2 256) with 8%Z.
    assert (∀ z, (0 ≤ z < 256)%Z → (Z.log2 z < 8)%Z) as Hlog.
    { intros z [Hz1 Hz2]. destruct (decide (z = 0)%Z) as [->|]; [done|].
      apply Z.log2_lt_pow2; lia. }
    pose proof (Hlog flags). pose proof (Hlog g). lia.
  - intros Hg. destruct (has_flag flags match_prev_avail) eqn:E1; [by apply Fp|].
    destruct (has_flag g match_prev_avail) eqn:E2; [by apply Gp|].
    unfold has_flag in *. rewrite bool_decide_eq_true in Hg. rewrite bool_decide_eq_false in E1, E2.
    rewrite Z.land_lor_distr_l in Hg. apply dec_stable in E1, E2. by rewrite E1, E2 in Hg.
Qed.

(** The flags of a search that starts at [it]. *)
Definition flags_at (flags : Z) (s : bytes) (it : nat) : Prop := valid_flags flags (take it s).
Lemma flags_at_later flags s it it' : flags_at flags s it → it ≤ it' → flags_at flags s it'.
Proof.
  intros [? Hp] Hle. split; [done|]. intros E%Hp E'. apply E.
  replace it with (it `min` it') by lia. by rewrite <- take_take, E', take_nil.
Qed.
Lemma flags_at_prev_avail flags s it :
  flags_at flags s it → 0 < it ≤ length s → flags_at (Z.lor flags match_prev_avail) s it.
Proof.
  intros F Hit. apply valid_lor; [done|by unfold match_prev_avail|]. intros _ E.
  apply (f_equal length) in E. rewrite length_take in E. simpl in E. lia.
Qed.
Lemma flags_at_continuous flags s it :
  flags_at flags s it →
  flags_at (Z.lor (Z.lor flags match_not_null) match_continuous) s it.
Proof. intros F. apply valid_lor; [apply valid_lor; [done|..]|..]; done. Qed.

Lemma search_from_in r flags s it m :
  flags_at flags s it → it ≤ length s → search_from r flags s it = inr (Some m) →
  it ≤ m.1 ∧ m.1 ≤ m.2 ≤ length s ∧
  (has_flag flags match_not_null = true → m.1 < m.2) ∧
  (has_flag flags match_continuous = true → m.1 = it).
Proof.
  intros F Hit. unfold search_from. destruct (search _ _ _ _) as [|[res|]] eqn:E; [done| |done].
  intros [= <-].
  simpl. destruct (results_whole _ _ _ (search_results _ _ _ _ _ F E)) as [Ha Hb].
  rewrite length_drop in Hb. split_and!; [lia..| |].
  - intros Hf. pose proof (search_not_null _ _ _ _ _ F E Hf). lia.
  - intros Hf. pose proof (search_continuous _ _ _ _ _ F E Hf). lia.
Qed.

(** * The loops end *)

(** The engine throws in a search of the text. *)
Definition engine_throws (r : std_regex) (s : bytes) (e : regex_exn) : Prop :=
  ∃ flags it, it ≤ length s ∧ flags_at flags s it ∧ search_from r flags s it = inl e.

(** The matches of an iterator that skips empty ones, one after the other. *)
Fixpoint separators (r : std_regex) (flags : Z) (s : bytes) (it : nat) (ms : list (nat * nat)) : Prop :=
  match ms with
  | [] => search_from r flags s it = inr None
  | m :: ms =>
      search_from r flags s it = inr (Some m) ∧
      separators r (Z.lor flags match_prev_avail) s m.2 ms
  end.

Lemma matches_from_total fuel r flags s it m :
  has_flag flags match_not_null = true → flags_at flags s it → it ≤ length s →
  search_from r flags s it = inr (Some m) → length s < fuel + m.2 →
  (∃ ms, matches_from fuel r flags s m = Some (inr ms) ∧ separators r flags s it ms) ∨
  ∃ e, matches_from fuel r flags s m = Some (inl e) ∧ engine_throws r s e.
Proof.
  revert flags it m. induction fuel as [|fuel IH]; intros flags it m Hf F Hit Em Hfuel;
    destruct (search_from_in _ _ _ _ _ F Hit Em) as (Ha & Hb & Hc & _); [lia|].
  specialize (Hc Hf). simpl. rewrite decide_False by lia.
  assert (flags_at (Z.lor flags match_prev_avail) s m.2) as F'.
  { apply flags_at_prev_avail; [|lia]. eapply flags_at_later; [done|lia]. }
  destruct (search_from r (Z.lor flags match_prev_avail) s m.2) as [e|[m'|]] eqn:Em'.
  - right. exists e. split; [done|]. exists (Z.lor flags match_prev_avail), m.2.
    split_and!; [lia|done..].
  - pose proof (has_flag_lor _ match_prev_avail _ Hf) as Hf'.
    destruct (search_from_in _ _ _ _ _ F' (proj2 Hb) Em') as (? & ? & Hc' & _).
    destruct (IH _ _ _ Hf' F' (proj2 Hb) Em') as [(ms & -> & Hms)|(e & -> & He)];
      [specialize (Hc' Hf'); lia|left|right; by exists e].
    exists (m :: ms). by split_and!.
  - left. exists [m]. by split_and!.
Qed.
Lemma not_null_at s : flags_at match_not_null s 0.
Proof. split; [done|]. intros E. by vm_compute in E. Qed.
Lemma default_at s : flags_at match_default s 0.
Proof. split; [done|]. intros E. by vm_compute in E. Qed.
Lemma iterator_total r s :
  (∃ ms, regex_iterator r match_not_null s = Some (inr ms) ∧ separators r match_not_null s 0 ms) ∨
  ∃ e, regex_iterator r match_not_null s = Some (inl e) ∧ engine_throws r s e.
Proof.
  pose proof (not_null_at s) as F. unfold regex_iterator.
  destruct (search_from r match_not_null s 0) as [e|[m|]] eqn:E.
  - right. exists e. split; [done|]. exists match_not_null, 0. split_and!; [lia|done..].
  - destruct (search_from_in _ _ _ _ _ F (Nat.le_0_l _) E) as (? & ? & _).
    eapply matches_from_total; [done|done| |done|]; lia.
  - left. by exists [].
Qed.

(** Each round goes on in the text. *)
Lemma patsplit_total fuel r flags s m :
  in_text s m → flags_at flags s m.2 → length s < fuel + m.2 →
  (∃ ms, patsplit_from fuel r flags s m = Some (inr ms) ∧ Forall (in_text s) ms ∧
     head ms = Some m) ∨
  ∃ e, patsplit_from fuel r flags s m = Some (inl e).
Proof.
  revert flags m. induction fuel as [|fuel IH]; intros flags m [Hm1 Hm2] F Hfuel; [lia|]. simpl.
  assert (∀ flags m', in_text s m' → m.2 < m'.2 → flags_at flags s m'.2 →
    (∃ ms, and_then m (patsplit_from fuel r flags s m') = Some (inr ms) ∧ Forall (in_text s) ms ∧
      head ms = Some m) ∨
    ∃ e, and_then m (patsplit_from fuel r flags s m') = Some (inl e)) as next.
  { intros flags' m' Hm' Hlt F'.
    destruct (IH flags' m' Hm' F') as [(ms & -> & Hms & _)|[e ->]]; [lia| |right; by eexists].
    left. exists (m :: ms). by split_and!; [|constructor|]. }
  case_decide as Hend; [left; exists [m]; by split_and!; [|repeat constructor|]|].
  pose proof (flags_at_continuous _ _ _ F) as Fc.
  destruct (if decide _ then search_from _ _ _ _ else inr None) as [e|[m'|]] eqn:E;
    [right; by eexists|..].
  { case_decide; [|done]. apply search_from_in in E as (? & ? & Hc & _); [|done|lia].
    apply next; [unfold in_text; lia| |eapply flags_at_later; [done|lia]].
    assert (m'.1 < m'.2); [|lia]. apply Hc, has_flag_lor. rewrite Z.lor_comm. by apply has_flag_lor. }
  assert (flags_at (Z.lor flags match_prev_avail) s (S m.2)) as Fp.
  { apply flags_at_prev_avail; [|lia]. eapply flags_at_later; [done|lia]. }
  destruct (search_from r _ s (S m.2)) as [e|[m'|]] eqn:E'; [right; by eexists|..].
  - apply search_from_in in E' as (? & ? & _); [|done|lia].
    apply next; [unfold in_text; lia|lia|]. eapply flags_at_later; [done|lia].
  - left. exists [m]. by split_and!; [|repeat constructor|].
Qed.

(** * Parts of the text *)

(** The text of a result. *)
Definition value_text (st : regex_state) (v : lua_value) : option bytes :=
  match v with
  | LString s => Some s
  | LUserdata u =>
      match userdata (spans st) !! u with
      | Some (Span bs) => load (spans st) (as_string_view bs)
      | _ => None
      end
  | _ => None
  end.

(** Results are added; no octet changes. *)
Record adds (st st' : regex_state) : Prop := {
  adds_wf : wf (spans st) → wf (spans st');
  adds_buffers : buffers (spans st') = buffers (spans st);
  adds_userdata : userdata (spans st) `prefix_of` userdata (spans st');
  adds_regexes : ∀ u r, regexes st !! u = Some r → regexes st' !! u = Some r;
  adds_tables : tables st `prefix_of` tables st';
}.
#[export] Instance adds_preorder : PreOrder adds.
Proof.
  split; [by intros st; split|]. intros a b c [] []. split; eauto; try congruence; by etrans.
Qed.

Lemma adds_grows st st' : adds st st' → grows (spans st) (spans st').
Proof. intros [_ E P _ _]. split; [exists []; by rewrite E, app_nil_r|done]. Qed.
Lemma load_same st st' v : buffers st' = buffers st → load st' v = load st v.
Proof. destruct v; simpl; [done|]. by intros ->. Qed.
Lemma adds_text st st' v t : adds st st' → value_text st v = Some t → value_text st' v = Some t.
Proof.
  intros [_ E P _ _]. destruct v; simpl; try done.
  destruct (userdata (spans st) !! u) as [[bs|]|] eqn:Eu; try done.
  by rewrite (prefix_lookup_Some _ _ _ _ Eu P), (load_same _ _ _ E).
Qed.

Lemma adds_span bs st : (wf (spans st) → handle_wf (buffers (spans st)) bs) → adds st (new_span bs st).1.
Proof.
  intros Hbs. split; simpl; try done; [|by eexists].
  intros W. by apply push_span_ok; [|apply Hbs].
Qed.
Lemma adds_table t st : adds st (new_table t st).1.
Proof. split; simpl; try done. by eexists. Qed.

(** The text that is searched: that of the span, if it is one. *)
Definition source_ok (st : store) (src : option byte_span_handle) (s : bytes) : Prop :=
  match src with
  | Some bs => handle_wf (buffers st) bs ∧ load st (as_string_view bs) = Some s
  | None => True
  end.
Lemma source_ok_adds st st' src s :
  adds st st' → source_ok (spans st) src s → source_ok (spans st') src s.
Proof.
  intros A. destruct src as [bs|]; [|done]. intros [W L]. split.
  - by rewrite (adds_buffers _ _ A).
  - by rewrite (load_same _ _ _ (adds_buffers _ _ A)).
Qed.

Lemma part_span_ok st bs s m :
  source_ok st (Some bs) s → in_text s m →
  handle_wf (buffers st) (part_span bs m) ∧
  load st (as_string_view (part_span bs m)) = Some (part_text s m).
Proof.
  intros [W L] [Hm1 Hm2]. unfold handle_wf, as_string_view, part_span in *. simpl in *.
  destruct (data bs) as [[b off]|]; simpl in *.
  - destruct W as ((Ho & Hs & Hcap) & buf & Eb & Hb). rewrite Eb in L |- *. simpl in L |- *.
    case_decide as Hin; [|done]. injection L as <-. destruct Hin as (? & ? & ?).
    rewrite length_window in Hm2 by lia.
    split; [split; [lia|]; exists buf; split; [done|lia]|].
    rewrite decide_True by (unfold in_bounds; lia). unfold part_text.
    rewrite window_window by lia. do 2 f_equal; lia.
  - destruct W as [? ?]. injection L as <-. simpl in Hm2.
    assert (m.1 = 0 ∧ m.2 = 0) as [E1 E2] by lia.
    split; [rewrite E1, E2; split; [done|lia]|]. unfold part_text. by rewrite E1, E2.
Qed.

(** A part of a text is a string; a part of a span is a span of its own: the same
    buffer, from where the part starts, with the rest of the capacity. *)
Definition part_value (st : regex_state) (src : option byte_span_handle) (s : bytes)
    (m : nat * nat) (v : lua_value) : Prop :=
  match src with
  | None => v = LString (part_text s m)
  | Some bs => ∃ u h, v = LUserdata u ∧ userdata (spans st) !! u = Some (Span h) ∧
      data h = (λ '(b, off), (b, (off + Z.of_nat m.1)%Z)) <$> data bs ∧
      size h = (Z.of_nat m.2 - Z.of_nat m.1)%Z ∧
      capacity h = (capacity bs - Z.of_nat m.1)%Z ∧
      load (spans st) (as_string_view h) = Some (part_text s m)
  end.
Lemma part_value_adds st st' src s m v :
  adds st st' → part_value st src s m v → part_value st' src s m v.
Proof.
  intros [_ E P _ _]. destruct src as [bs|]; [|done].
  intros (u & h & -> & Eu & Hd & Hs & Hc & Hl). exists u, h. split_and!; try done.
  - by eapply prefix_lookup_Some.
  - by rewrite (load_same _ _ _ E).
Qed.

Lemma push_part_ok st src s m st' v :
  source_ok (spans st) src s → in_text s m → push_part src s m st = (st', v) →
  adds st st' ∧ value_text st' v = Some (part_text s m) ∧ part_value st' src s m v.
Proof.
  intros Hs Hm. unfold push_part. destruct src as [bs|]; [|by intros [= <- <-]].
  destruct (part_span_ok _ _ _ _ Hs Hm) as [W L]. intros E.
  assert (st' = (new_span (part_span bs m) st).1) as -> by (by rewrite E).
  split; [by apply adds_span|]. unfold new_span in E. injection E as <-. simpl.
  assert ((userdata (spans st) ++ [Span (part_span bs m)]) !! length (userdata (spans st))
    = Some (Span (part_span bs m))) as Eu by by rewrite lookup_app_r, Nat.sub_diag.
  rewrite Eu. split; [done|]. destruct Hm. eexists _, (part_span bs m).
  split_and!; [done|exact Eu|done|simpl; lia|done|done].
Qed.
Lemma push_parts_ok src s ms st st' vs :
  source_ok (spans st) src s → Forall (in_text s) ms → push_parts src s ms st = (st', vs) →
  adds st st' ∧ Forall2 (λ v m, part_value st' src s m v) vs ms.
Proof.
  revert st vs. induction ms as [|m ms IH]; simpl; intros st vs Hs Hms E.
  { injection E as <- <-. by split. }
  apply Forall_cons in Hms as [Hm Hms].
  destruct (push_part src s m st) as [st1 v] eqn:E1.
  destruct (push_parts src s ms st1) as [st2 vs2] eqn:E2. injection E as <- <-.
  destruct (push_part_ok _ _ _ _ _ _ Hs Hm E1) as (A1 & _ & T1).
  destruct (IH st1 vs2) as [A2 T2]; [by eapply source_ok_adds|done|done|].
  split; [by trans st1|]. constructor; [by eapply part_value_adds|done].
Qed.
Lemma push_groups_ok src s gs st st' vs :
  source_ok (spans st) src s →
  Forall (λ g, match g with Some g => in_text s g | None => True end) gs →
  push_groups src s gs st = (st', vs) →
  adds st st' ∧
  Forall2 (λ v g, value_text st' v = Some (match g with Some m => part_text s m | None => [] end)) vs gs.
Proof.
  revert st vs. induction gs as [|g gs IH]; simpl; intros st vs Hs Hgs E.
  { injection E as <- <-. by split. }
  apply Forall_cons in Hgs as [Hg Hgs].
  destruct (match g with Some _ => _ | None => _ end) as [st1 v] eqn:E1.
  destruct (push_groups src s gs st1) as [st2 vs2] eqn:E2. injection E as <- <-.
  assert (adds st st1 ∧
    value_text st1 v = Some (match g with Some m => part_text s m | None => [] end)) as [A1 T1].
  { destruct g as [m|].
    { by destruct (push_part_ok _ _ _ _ _ _ Hs Hg E1) as (? & ? & _). }
    destruct src as [bs|].
    - assert (st1 = (new_span null_handle st).1) as -> by (by rewrite E1).
      split; [by apply adds_span|]. unfold new_span in E1. injection E1 as <-. simpl.
      by rewrite lookup_app_r, Nat.sub_diag by done.
    - by injection E1 as <- <-. }
  destruct (IH st1 vs2) as [A2 T2]; [by eapply source_ok_adds|done|done|].
  split; [by trans st1|]. constructor; [by eapply adds_text|done].
Qed.

Lemma source_arg_ok L st src s :
  wf (spans st) → source_arg L st = inr (src, s) → source_ok (spans st) src s.
Proof.
  intros W. unfold source_arg, read. intros E. case_hyps E.
  destruct (span_of (spans st) (arg L 2)) as [bs|] eqn:Es; [|done].
  split; [by eapply span_of_wf|].
  unfold text_arg in *. rewrite Es in *. unfold span_of in Es. case_hyps Es. by simplify_eq.
Qed.

(** * Tables *)
Lemma array_lookup vs i n : array i vs !! inl (i + Z.of_nat n)%Z = vs !! n.
Proof.
  revert i n. induction vs as [|v vs IH]; intros i n; simpl; [by rewrite lookup_empty|].
  destruct n as [|n].
  - rewrite Z.add_0_r. by rewrite lookup_insert_eq.
  - rewrite lookup_insert_ne by (intros [=]; lia). simpl. rewrite <- (IH (i + 1)%Z). do 2 f_equal. lia.
Qed.

(** The entries of a table, from 1 on, are these parts of the text, and no more. *)
Definition holds (st : regex_state) (t : loc) (src : option byte_span_handle) (s : bytes)
    (parts : list (nat * nat)) : Prop :=
  ∃ tb, tables st !! t = Some tb ∧
    ∀ i : nat, match parts !! i with
      | Some m => ∃ v, tb !! inl (1 + Z.of_nat i)%Z = Some v ∧ part_value st src s m v
      | None => tb !! inl (1 + Z.of_nat i)%Z = None
      end.

Lemma push_array_ok src s ms st :
  source_ok (spans st) src s → Forall (in_text s) ms →
  ∃ st' t, push_array src s ms st = (st', Returns [LTable t]) ∧ adds st st' ∧
    holds st' t src s ms.
Proof.
  intros Hs Hms. unfold push_array. destruct (push_parts src s ms st) as [st1 vs] eqn:E.
  destruct (push_parts_ok _ _ _ _ _ _ Hs Hms E) as [A T].
  eexists _, _. split; [done|]. pose proof (adds_table (array 1 vs) st1) as A1.
  split; [by etrans|]. exists (array 1 vs). simpl.
  rewrite lookup_app_r, Nat.sub_diag by done. split; [done|]. intros i.
  rewrite array_lookup. destruct (ms !! i) as [m|] eqn:Em.
  - destruct (Forall2_lookup_r _ _ _ _ _ T Em) as (v & -> & Hv).
    exists v. split; [done|]. by apply (part_value_adds _ _ _ _ _ _ A1).
  - apply lookup_ge_None in Em. apply lookup_ge_None. by rewrite (Forall2_length _ _ _ T).
Qed.
(** * Splitting *)

Lemma separators_in r flags s it ms :
  has_flag flags match_not_null = true → flags_at flags s it → it ≤ length s →
  separators r flags s it ms →
  Forall (in_text s) ms ∧ Forall (λ m, m.1 < m.2) ms ∧ Forall (in_text s) (prefixes it ms s).
Proof.
  revert flags it. induction ms as [|m ms IH]; intros flags it Hf F Hit; simpl.
  { intros _. split_and!; [done..|]. case_decide; [done|]. repeat constructor; simpl; lia. }
  intros [Em Hms]. destruct (search_from_in _ _ _ _ _ F Hit Em) as (Ha & Hb & Hc & _).
  specialize (Hc Hf). assert (flags_at (Z.lor flags match_prev_avail) s m.2) as F'.
  { apply flags_at_prev_avail; [|lia]. eapply flags_at_later; [done|lia]. }
  destruct (IH _ m.2 (has_flag_lor _ _ _ Hf) F' (proj2 Hb) Hms) as (I1 & I2 & I3).
  split_and!; constructor; try done; unfold in_text; simpl; lia.
Qed.

(** Fields, with separators between them; a separator at the end has no field
    after it. *)
Fixpoint interleave (fields seps : list bytes) : bytes :=
  match fields, seps with
  | f :: fields, m :: seps => f ++ m ++ interleave fields seps
  | fields, [] => concat fields
  | [], seps => concat seps
  end.
Lemma part_text_app s a b c :
  a ≤ b → b ≤ c → part_text s (a, b) ++ part_text s (b, c) = part_text s (a, c).
Proof.
  intros. unfold part_text, window. simpl.
  replace (c - a) with ((b - a) + (c - b)) by lia.
  rewrite <- (take_take_drop (drop a s)), drop_drop. do 3 f_equal. lia.
Qed.
Lemma part_text_all s it : it ≤ length s → part_text s (it, length s) = drop it s.
Proof. intros. unfold part_text, window. simpl. rewrite take_ge; [done|]. rewrite length_drop. lia. Qed.

Lemma prefixes_join s it ms :
  Forall (in_text s) ms → Forall (in_text s) (prefixes it ms s) → it ≤ length s →
  interleave (part_text s <$> prefixes it ms s) (part_text s <$> ms) = drop it s.
Proof.
  revert it. induction ms as [|m ms IH]; intros it.
  { intros _ _ ?. simpl. case_decide as E; simpl.
    - by rewrite E, drop_all.
    - by rewrite app_nil_r, part_text_all. }
  intros [[? ?] Hms]%Forall_cons [[Hle _] Hp]%Forall_cons Hit. simpl in Hle.
  cbn [prefixes]. rewrite !fmap_cons. cbn [interleave].
  rewrite (IH m.2), <- part_text_all by (done || lia).
  rewrite (surjective_pairing m) at 2. rewrite !part_text_app by lia. by apply part_text_all.
Qed.

Lemma length_prefixes it ms s :
  length (prefixes it ms s) =
  length ms + (if decide (default it (snd <$> last ms) = length s) then 0 else 1).
Proof.
  revert it. induction ms as [|m ms IH]; intros it; simpl; [by case_decide|].
  rewrite IH. do 2 f_equal. destruct ms as [|m' ms]; [done|]. rewrite last_cons_cons.
  destruct (last (m' :: ms)) eqn:El; [done|]. by apply last_None in El.
Qed.

(** C20 Splitting loses nothing.  For an expression without groups, unless the
    engine throws, whose exception is passed on, split returns an array of the
    parts of the text before, between and after the separators, which are the
    leftmost matches that are not empty, one after the other; with the separators
    between them the parts are the text again.  What is after a separator at the
    end is left out.  The parts of a string are strings; those of a span are spans
    of its buffer, each at the offset of its part ([part_value]). *)
Theorem split_joins L st r src s :
  wf (spans st) → regex_arg (settop 2 L) st = inr r → source_arg (settop 2 L) st = inr (src, s) →
  mark_count r = 0 →
  (∃ st' t ms parts, regex_split L st = (st', Returns [LTable t]) ∧
    holds st' t src s parts ∧
    separators r match_not_null s 0 ms ∧ Forall (λ m, m.1 < m.2) ms ∧
    interleave (part_text s <$> parts) (part_text s <$> ms) = s ∧
    length parts = length ms + (if decide (snd <$> last ms = Some (length s)) then 0 else 1)) ∨
  ∃ e, engine_throws r s e ∧ regex_split L st = (st, Raises (cpp_exception e)).
Proof.
  intros W Er Es Hm. pose proof (source_arg_ok _ _ _ _ W Es) as Hs.
  unfold regex_split. rewrite Er, Es. simpl. unfold split_source. rewrite decide_True by done.
  destruct (iterator_total r s) as [(ms & -> & Hms)|(e & -> & He)]; [left|right; by exists e].
  destruct (separators_in r match_not_null s 0 ms eq_refl (not_null_at s) (Nat.le_0_l _) Hms)
    as (Hin & Hne & Hp).
  assert (Forall (in_text s) (token_iterator ms s)) as Ht.
  { destruct ms; [|done]. repeat constructor; simpl; lia. }
  destruct (push_array_ok src s _ st Hs Ht) as (st' & t & -> & _ & Hh).
  exists st', t, ms, (token_iterator ms s). split_and!; try done.
  - destruct ms as [|m ms]; [|exact (prefixes_join s 0 (m :: ms) Hin Hp (Nat.le_0_l _))].
    simpl. rewrite app_nil_r, part_text_all by lia. done.
  - destruct ms as [|m ms]; [done|].
    unfold token_iterator. rewrite length_prefixes.
    destruct (last (m :: ms)) as [m'|] eqn:El; [|by apply last_None in El]. simpl.
    f_equal. repeat case_decide; congruence.
Qed.

(** * Safety *)

(** The functions of the module, and the properties of its userdata. *)
Inductive operation : Set := New | Match | Search | Split | Patsplit | Property.
Definition perform (op : operation) : lua_args → regex_state → regex_state * outcome :=
  match op with
  | New => regex_new | Match => regex_match | Search => regex_search
  | Split => regex_split | Patsplit => regex_patsplit | Property => regex_mt_index
  end.
(** A metamethod is called on a regular expression. *)
Definition callable (op : operation) (L : lua_args) (st : regex_state) : Prop :=
  match op with
  | Property => ∃ u, arg L 1 = Some (LUserdata u) ∧ is_Some (regexes st !! u)
  | _ => True
  end.
(** Userdata that hold a regular expression are no spans. *)
Definition typed (st : regex_state) : Prop :=
  ∀ u, is_Some (regexes st !! u) → userdata (spans st) !! u = Some OtherUserdata.

(** A call is defined, makes only new spans, all of them inside of buffers that are
    there, and changes none. *)
Record kept (st : regex_state) (r : regex_state * outcome) : Prop := {
  kept_adds : adds st r.1;
  kept_typed : typed r.1;
  kept_defined : r.2 ≠ Undefined;
}.
Lemma typed_adds st st' :
  typed st → regexes st' = regexes st → adds st st' → typed st'.
Proof.
  intros T E [_ _ P _ _] u. rewrite E. intros Hu. eapply prefix_lookup_Some; [|done]. by apply T.
Qed.
Lemma kept_same st o : typed st → o ≠ Undefined → kept st (st, o).
Proof. by split. Qed.
Lemma kept_early {A} (P : A → Prop) (e : early A) st k :
  typed st → match e with inl o => raises o | inr a => P a end → (∀ a, P a → kept st (k a)) →
  kept st (early_bind e st k).
Proof.
  intros T He Hk. destruct e as [o|a]; simpl; [|by apply Hk]. destruct He as [? ->]. by apply kept_same.
Qed.

(** The flags of a call of [match] or [search] are a combination of those of the
    standard. *)
Definition known_flags (op : operation) (L : lua_args) : Prop :=
  match op with
  | Match | Search => ∀ flags, flags_arg (settop 3 L) = inr flags → (0 ≤ flags < 256)%Z
  | _ => True
  end.
(** They say that there is a character before a text that has none. *)
Definition reads_before (op : operation) (L : lua_args) (st : regex_state) : Prop :=
  (op = Match ∨ op = Search) ∧ ∃ flags src s,
    flags_arg (settop 3 L) = inr flags ∧ has_flag flags match_prev_avail = true ∧
    source_arg (settop 3 L) st = inr (src, s) ∧ before_of src (spans st) = [].
Lemma available_valid flags src st before :
  (0 ≤ flags < 256)%Z → available flags src st = Some before → valid_flags flags before.
Proof.
  intros Hf. unfold available. destruct (has_flag flags match_prev_avail) eqn:E.
  - destruct (before_of src st) eqn:Eb; [done|]. intros [= <-]. by split.
  - intros [= <-]. split; [done|]. by rewrite E.
Qed.
Lemma available_none flags src st :
  available flags src st = None →
  has_flag flags match_prev_avail = true ∧ before_of src st = [].
Proof.
  unfold available. destruct (has_flag flags match_prev_avail); [|done].
  by destruct (before_of src st).
Qed.
Lemma kept_returns st st' vs :
  typed st → adds st st' → regexes st' = regexes st → kept st (st', Returns vs).
Proof. intros T A E. split; [done|by eapply typed_adds|done]. Qed.

Lemma source_arg_inv L st :
  wf (spans st) → args_ok L → match source_arg L st with
    | inl o => raises o
    | inr (src, s) => source_ok (spans st) src s
    end.
Proof.
  intros W HL. destruct (source_arg L st) as [o|[src s]] eqn:E; [|by eapply source_arg_ok].
  unfold source_arg in E. pose proof (text_arg_inv L 2 (spans st) W HL) as T.
  destruct (text_arg L 2 (spans st)) as [o'|v]; [by simplify_eq|].
  destruct (read_inv _ _ W T) as (s & E' & _). by rewrite E' in E.
Qed.
Lemma regex_arg_inv L st : match regex_arg L st with inl o => raises o | inr _ => True end.
Proof. unfold regex_arg. repeat case_match; simplify_eq; try done; by eexists. Qed.
Lemma flags_arg_inv L : match flags_arg L with inl o => raises o | inr _ => True end.
Proof. unfold flags_arg. repeat case_match; simplify_eq; try done; by eexists. Qed.

Lemma push_parts_regexes src s ms st : regexes (push_parts src s ms st).1 = regexes st.
Proof.
  revert st. induction ms as [|m ms IH]; intros st; simpl; [done|].
  destruct (push_part src s m st) as [st1 v] eqn:E1. pose proof (IH st1) as E2.
  destruct (push_parts src s ms st1). simpl in *. rewrite E2.
  unfold push_part, new_span in E1. by destruct src; simplify_eq.
Qed.
Lemma push_groups_regexes src s ms st : regexes (push_groups src s ms st).1 = regexes st.
Proof.
  revert st. induction ms as [|m ms IH]; intros st; simpl; [done|].
  destruct (match m with Some _ => _ | None => _ end) as [st1 v] eqn:E1. pose proof (IH st1) as E2.
  destruct (push_groups src s ms st1). simpl in *. rewrite E2.
  unfold push_part, new_span in E1. by repeat case_match; simplify_eq.
Qed.
Lemma set_positions_ok i ms t st :
  adds st (set_positions i ms t st).1 ∧ regexes (set_positions i ms t st).1 = regexes st.
Proof.
  revert i t st. induction ms as [|[m|] ms IH]; intros i t st; simpl; [done| |apply IH].
  destruct (IH (S i) (<[inl (Z.of_nat i) := LTable (length (tables st))]> t)
    (new_table (position_table m) st).1) as [A E].
  split; [|exact E]. etrans; [apply (adds_table (position_table m))|exact A].
Qed.

Lemma array_kept src s ms st :
  typed st → source_ok (spans st) src s → Forall (in_text s) ms → kept st (push_array src s ms st).
Proof.
  intros T Hs Hms. destruct (push_array_ok src s ms st Hs Hms) as (st' & t & E & A & _).
  pose proof (push_parts_regexes src s ms st) as R. rewrite E. apply kept_returns; [done..|].
  unfold push_array in E. destruct (push_parts src s ms st) as [st1 vs]. by simplify_eq/=.
Qed.

Lemma split_kept r src s st :
  typed st → source_ok (spans st) src s → kept st (split_source r src s st).
Proof.
  intros T Hs. unfold split_source. case_decide; [|by apply kept_same].
  destruct (iterator_total r s) as [(ms & -> & Hms)|(e & -> & _)]; [|by apply kept_same].
  apply array_kept; [done..|].
  destruct (separators_in r match_not_null s 0 ms eq_refl (not_null_at s) (Nat.le_0_l _) Hms)
    as (_ & _ & Hp).
  destruct ms; [|done]. repeat constructor; simpl; lia.
Qed.
Lemma patsplit_kept r src s st :
  typed st → source_ok (spans st) src s → kept st (patsplit_source r src s st).
Proof.
  intros T Hs. pose proof (default_at s) as F. unfold patsplit_source. cbn zeta.
  destruct (search_from r match_default s 0) as [e|[m|]] eqn:Em; [by apply kept_same|..];
    (case_decide; [|by apply kept_same]); [|by apply array_kept].
  destruct (search_from_in _ _ _ _ _ F (Nat.le_0_l _) Em) as (? & ? & _).
  destruct (patsplit_total (S (S (length s))) r match_default s m) as [(ms & -> & Hms & _)|[e ->]];
    [done|eapply flags_at_later; [done|lia]|lia|by apply array_kept|by apply kept_same].
Qed.

Lemma dead_kept st o : typed st → o ≠ Undefined → kept st (dead_regex st, o).
Proof.
  intros T Ho. assert (adds st (dead_regex st)) as A.
  { split; simpl; try done; [|by eexists]. intros [W B]. split; [|done]. intros u bs. simpl.
    rewrite lookup_app_Some. intros [?|[_ E]]; [by eapply W|].
    by apply list_lookup_singleton_Some in E as [_ ?]. }
  split; [done|by eapply typed_adds|done].
Qed.
Lemma new_kept r st : typed st → kept st ((new_regex r st).1, Returns [(new_regex r st).2]).
Proof.
  intros T. destruct (dead_kept st (Returns []) T) as [[A1 A2 A3 _ A5] _ _]; [done|].
  assert (regexes st !! length (userdata (spans st)) = None) as Hn.
  { apply eq_None_not_Some. intros Hu%T. apply lookup_lt_Some in Hu. lia. }
  split; simpl; [|intros u; simpl|done].
  - split; try done. intros u x Hx. simpl. rewrite lookup_insert_ne; [done|]. congruence.
  - destruct (decide (u = length (userdata (spans st)))) as [->|].
    + intros _. by rewrite lookup_app_r, Nat.sub_diag.
    + rewrite lookup_insert_ne by done. intros Hu%T. by apply lookup_app_l_Some.
Qed.

Lemma field_inv t name : match string_field t name with inl o => raises o | inr _ => True end.
Proof. unfold string_field. destruct (getfield t name); first [done|by eexists]. Qed.
Lemma flag_inv t name : match flag_field t name with inl o => raises o | inr _ => True end.
Proof. unfold flag_field. destruct (getfield t name); first [done|by eexists]. Qed.
Lemma grammar_inv n : match grammar_of n with inl o => raises o | inr _ => True end.
Proof. unfold grammar_of. repeat case_decide; first [done|by eexists]. Qed.

Lemma match_kept r src s flags before st L :
  typed st → source_ok (spans st) src s → valid_flags flags before →
  kept st match full_match r flags before s with
    | inl e => (st, Raises (cpp_exception e))
    | inr None => (st, Returns [LNil])
    | inr (Some results) =>
        if decide (mark_count r = 0) then (st, Returns (option_list (arg L 2)))
        else let '(st, vs) := push_groups src s (groups results) st in (st, Returns vs)
    end.
Proof.
  intros T Hs F. destruct (full_match r flags before s) as [e|[m|]] eqn:Em; [by apply kept_same| |by apply kept_same].
  case_decide; [by apply kept_same|].
  destruct (full_match_results _ _ _ _ _ F Em) as [[_ Hg _] _].
  pose proof (push_groups_regexes src s (groups m) st) as R.
  destruct (push_groups src s (groups m) st) as [st' vs] eqn:E.
  destruct (push_groups_ok _ _ _ _ _ _ Hs Hg E) as [A _]. by apply kept_returns.
Qed.
Lemma positions_kept (res : option match_results) t st :
  typed st →
  kept st (let '(st, t) :=
      match res with None => (st, t) | Some m => set_positions 0 (Some (whole m) :: groups m) t st end in
    let '(st, v) := new_table t st in (st, Returns [v])).
Proof.
  intros T. destruct res as [m|].
  - destruct (set_positions_ok 0 (Some (whole m) :: groups m) t st) as [A R].
    destruct (set_positions 0 (Some (whole m) :: groups m) t st) as [st' t'].
    apply (kept_returns _ (new_table t' st').1); [done| |done]. etrans; [exact A|apply (adds_table t')].
  - apply (kept_returns _ (new_table t st).1); [done|apply adds_table|done].
Qed.

(** The functions that take flags. *)
Lemma flagged_safe op L st (k : std_regex → option byte_span_handle → bytes → Z → bytes →
    regex_state * outcome) :
  wf (spans st) → typed st → args_ok L → known_flags op L → (op = Match ∨ op = Search) →
  (∀ r src s flags before, source_ok (spans st) src s → valid_flags flags before →
     kept st (k r src s flags before)) →
  let res :=
    early_bind (regex_arg (settop 3 L) st) st (λ r,
    early_bind (source_arg (settop 3 L) st) st (λ '(src, s),
    early_bind (flags_arg (settop 3 L)) st (λ flags,
    match available flags src (spans st) with
    | None => (st, Undefined)
    | Some before => k r src s flags before
    end))) in
  kept st res ∨ res = (st, Undefined) ∧ reads_before op L st.
Proof.
  intros W T HL Hk Hop Hres. pose proof (regex_arg_inv (settop 3 L) st) as Hr.
  destruct (regex_arg _ st) as [o|r]; simpl; [destruct Hr as [? ->]; left; by apply kept_same|].
  pose proof (source_arg_inv (settop 3 L) st W (settop_ok 3 L HL)) as Hs.
  destruct (source_arg _ st) as [o|[src s]] eqn:Es; simpl;
    [destruct Hs as [? ->]; left; by apply kept_same|].
  pose proof (flags_arg_inv (settop 3 L)) as Hf.
  assert (∀ flags, flags_arg (settop 3 L) = inr flags → (0 ≤ flags < 256)%Z) as Hknown
    by (by destruct Hop as [-> | ->]).
  destruct (flags_arg _) as [o|flags] eqn:Ef; simpl;
    [destruct Hf as [? ->]; left; by apply kept_same|].
  destruct (available flags src (spans st)) as [before|] eqn:Ea.
  - left. apply Hres; [done|]. eapply available_valid; [by apply Hknown|done].
  - right. split; [done|]. apply available_none in Ea as [? ?]. split; [done|].
    by exists flags, src, s.
Qed.

(** C21 The functions of the module end and read and make spans inside of their
    buffers only, and change no octet, whatever the arguments are, as long as the
    flags of match and search are a combination of those of the standard.  An
    exception of the engine becomes an error.  The one call that is undefined is
    match or search with match_prev_avail, which the code hands on unchecked, for
    a text that has no character before it ([Examples.character_before]). *)
Theorem regex_safe op L st :
  wf (spans st) → typed st → args_ok L → callable op L st → known_flags op L →
  kept st (perform op L st) ∨
  perform op L st = (st, Undefined) ∧ reads_before op L st.
Proof.
  intros W T HL Hc Hk.
  assert (∀ n k, (∀ r, kept st (k r)) → kept st (early_bind (regex_arg (settop n L) st) st k)) as with_regex.
  { intros n k Hn. by apply (kept_early (λ _, True)); [|apply regex_arg_inv|]. }
  assert (∀ n k, (∀ src s, source_ok (spans st) src s → kept st (k (src, s))) →
    kept st (early_bind (source_arg (settop n L) st) st k)) as with_source.
  { intros n k Hn. apply (kept_early (λ x, source_ok (spans st) x.1 x.2)); [done| |].
    - pose proof (source_arg_inv (settop n L) st W (settop_ok n L HL)) as Hs.
      by destruct (source_arg _ _) as [|[]].
    - intros [src s]. apply Hn. }
  destruct op; simpl.
  - left. unfold regex_new. apply (kept_early (λ _, True)); [done|by destruct (arg L 1) as [[]|]; try eexists|].
    intros t _. do 2 (apply (kept_early (λ _, True)); [done|apply field_inv|]; intros ? _).
    apply (kept_early (λ _, True)); [done|apply grammar_inv|]. intros g _.
    do 3 (apply (kept_early (λ _, True)); [done|apply flag_inv|]; intros ? _).
    destruct (assign _ _) as [[]|r]; [by apply dead_kept..|by apply (new_kept r)].
  - eapply (flagged_safe Match); [done..|by left|]. intros. by apply match_kept.
  - eapply (flagged_safe Search); [done..|by right|]. intros r src s flags before _ _.
    destruct (search r flags before s) as [e|res]; [by apply kept_same|by apply positions_kept].
  - left. apply with_regex. intros r. apply with_source. intros src s Hs. by apply split_kept.
  - left. apply with_regex. intros r. apply with_source. intros src s Hs. by apply patsplit_kept.
  - left. destruct Hc as (u & Ea & r & Er). unfold regex_mt_index. rewrite Ea, Er.
    repeat case_decide; by apply kept_same.
Qed.
End spec.

(** * Examples *)
Module Examples.
(** Expressions for one character of a set, or, with [ignore_case], as many as there
    are. *)
Fixpoint scan (set s : bytes) : nat :=
  match s with c :: s => if decide (c ∈ set) then S (scan set s) else 0 | [] => 0 end.
Fixpoint find_set (set s : bytes) (many : bool) : option (nat * nat) :=
  match s with
  | [] => None
  | c :: s' =>
      if decide (c ∈ set) then Some (0, if many then scan set s else 1)
      else (λ m, (S m.1, S m.2)) <$> find_set set s' many
  end.
Lemma scan_le set s : scan set s ≤ length s.
Proof. induction s as [|c s IH]; simpl; [lia|]. case_decide; lia. Qed.
Lemma find_set_in set s many m : find_set set s many = Some m → m.1 < m.2 ≤ length s.
Proof.
  revert m. induction s as [|c s IH]; intros m; simpl; [done|]. case_decide.
  - intros [= <-]. pose proof (scan_le set s). destruct many; simpl; [|lia].
    destruct (decide (c ∈ set)); [lia|done].
  - destruct (find_set set s many) as [m'|] eqn:E; [|done]. intros [= <-]. simpl.
    specialize (IH m' eq_refl). lia.
Qed.
Definition find_flags (set : bytes) (many : bool) (flags : Z) (s : bytes) : option match_results :=
  match find_set set s many with
  | Some m => if has_flag flags match_continuous && negb (bool_decide (m.1 = 0)) then None
              else Some (MatchResults m [])
  | None => None
  end.
(** It gives up on long texts. *)
Definition error_complexity : Z := 11.
#[export] Instance sets : StdRegex := {|
  std_regex := bytes * syntax_flags;
  assign pattern flags := inr (pattern, flags);
  mark_count _ := 0;
  regex_flags := snd;
  search r flags _ s :=
    if decide (20 < length s) then inl (RegexError error_complexity)
    else inr (find_flags r.1 (icase r.2) flags s);
  full_match r _ _ s :=
    match s with
    | [c] => inr (if decide (c ∈ r.1) then Some (MatchResults (0, 1) []) else None)
    | _ => inr None
    end;
  cpp_exception _ := EString "C++ exception";
|}.
#[export] Instance sets_laws : RegexLaws.
Proof.
  assert (∀ r flags s m, find_flags r.1 (icase r.2) flags s = Some m →
    results_in (r : std_regex) s m ∧ (whole m).1 < (whole m).2 ∧
    (has_flag flags match_continuous = true → (whole m).1 = 0)) as F.
  { intros r flags s m. unfold find_flags. destruct (find_set _ _ _) as [p|] eqn:E; [|done].
    apply find_set_in in E. destruct (has_flag flags match_continuous) eqn:Hf; simpl.
    - case_bool_decide; [|done]. intros [= <-]. split_and!; [split; [|constructor|done]|..]; simpl;
        unfold in_text; simpl; by try lia.
    - intros [= <-]. split_and!; [split; [|constructor|done]|..]; simpl; unfold in_text; simpl; by try lia. }
  split.
  - by intros pattern flags r [= <-].
  - intros r flags before s m _. simpl. case_decide; [done|]. intros [= E].
    by apply F in E as (? & _).
  - intros r flags before s m _. simpl. case_decide; [done|]. intros [= E] _.
    by apply F in E as (_ & ? & _).
  - intros r flags before s m _. simpl. case_decide; [done|]. intros [= E].
    by apply F in E as (_ & _ & ?).
  - intros r flags before [|c [|d s]] m _; simpl; try done. case_decide; [|done]. intros [= <-].
    split; [split|]; simpl; [unfold in_text; simpl; lia|constructor|done|done].
Qed.
#[export] Instance api : LuaApi := Ieee754.api.

(** One letter, and commas. *)
Definition letter : std_regex := ([97; 98; 99]%Z, SyntaxFlags extended false true false).
Definition commas : std_regex := ([44]%Z, SyntaxFlags extended true true false).
Definition start : regex_state :=
  RegexState
    (Store [lit "a,,b,--"] [OtherUserdata; OtherUserdata; Span (Handle (Some (0, 0%Z)) 5 7)])
    {[0 := letter; 1 := commas]} [].

Lemma start_wf : wf (spans start).
Proof.
  split.
  - intros [|[|[|u]]] bs; try done. intros [= <-]. unfold handle_wf, int64_max. simpl.
    split; [lia|]. eexists. split; [done|]. by vm_compute.
  - repeat constructor; by vm_compute.
Qed.
Lemma start_typed : typed start.
Proof.
  intros u [r Hr]. change ((<[0 := letter]> {[1 := commas]} : gmap nat std_regex) !! u = Some r) in Hr.
  apply lookup_insert_Some in Hr as [[<- _]|[_ [<- _]%lookup_singleton_Some]]; done.
Qed.

Lemma split_joins_witness :
  (∃ st' t ms parts, regex_split [LUserdata 1; LUserdata 2] start = (st', Returns [LTable t]) ∧
    holds st' t (Some (Handle (Some (0, 0%Z)) 5 7)) (lit "a,,b,") parts ∧
    separators commas match_not_null (lit "a,,b,") 0 ms ∧ Forall (λ m, m.1 < m.2) ms ∧
    interleave (part_text (lit "a,,b,") <$> parts) (part_text (lit "a,,b,") <$> ms) =
      lit "a,,b," ∧
    length parts =
      length ms + (if decide (snd <$> last ms = Some (length (lit "a,,b,"))) then 0 else 1)) ∨
  ∃ e, engine_throws commas (lit "a,,b,") e ∧
    regex_split [LUserdata 1; LUserdata 2] start = (start, Raises (cpp_exception e)).
Proof.
  apply (split_joins [LUserdata 1; LUserdata 2] start commas (Some (Handle (Some (0, 0%Z)) 5 7)) (lit "a,,b,"));
    [apply start_wf|by vm_compute..].
Defined.

Lemma regex_safe_witness :
  kept start (perform Search [LUserdata 1; LUserdata 2; LNil] start) ∨
  perform Search [LUserdata 1; LUserdata 2; LNil] start = (start, Undefined) ∧
    reads_before Search [LUserdata 1; LUserdata 2; LNil] start.
Proof.
  apply (regex_safe Search [LUserdata 1; LUserdata 2; LNil] start start_wf start_typed);
    [by repeat constructor|done|]. intros flags [= <-]. done.
Defined.

(** The strings of a result. *)
Definition strings (r : regex_state * outcome) : list (option bytes) :=
  match r.2 with
  | Returns [LTable t] =>
      (λ i, (tables r.1 !! t) ≫= (λ tb, tb !! inl (Z.of_nat i) ≫= value_text r.1)) <$> [1; 2; 3]
  | _ => []
  end.

Example fields_of_string : strings (regex_split [LUserdata 1; LString (lit "a,,b,")] start) =
  [Some (lit "a"); Some (lit "b"); None].
Proof. by vm_compute. Qed.

(** The flag match_prev_avail makes the engine read the character before a string;
    for a slice that is not at the start of its buffer there is one. *)
Definition prev_avail : lua_value := LNumber (lua_pushinteger match_prev_avail).
Example character_before :
  (regex_search [LUserdata 1; LString (lit "a,b"); prev_avail] start).2 = Undefined ∧
  (regex_search [LUserdata 1; LUserdata 2; prev_avail] start).2 = Undefined ∧
  (regex_search [LUserdata 1; LUserdata 3; prev_avail]
     (new_span (Handle (Some (0, 1%Z)) 4 6) start).1).2 = Returns [LTable 1].
Proof. by vm_compute. Qed.

(** An exception of the engine. *)
Example engine_gives_up :
  regex_split [LUserdata 1; LString (lit "one, two, three, four, five")] start =
  (start, Raises (EString "C++ exception")).
Proof. by vm_compute. Qed.

(** The occurrences of a letter in abc: patsplit goes on one character after the
    end of a match and misses b. *)
Example patsplit_skips : strings (regex_patsplit [LUserdata 0; LString (lit "abc")] start) =
  [Some (lit "a"); Some (lit "c"); None].
Proof. by vm_compute. Qed.
End Examples.
