(* ===== verification/ErrorObjects.v ===== *)
(** The metatables of error objects, which [make_vm] of [src/src/state.ypp] makes:
    comparison, text and conversion of the tables that [push] of [core.cpp] gives,
    and the userdata of a category that a document describes. *)
From S2P Require Import Prelude Errors Lua CoreErrors RdfCategory.
Import ErrObj.

(** A category of the library is its address; what its members give. *)
Class Categories := {
  category_name : loc → bytes;
  category_message : loc → Z → bytes;
  condition : loc → Z → code_value;       (* [default_error_condition] *)
}.

Section objects.
Context `{LuaApi} `{Categories}.

(** [lua_rawequal] of two fields that are no categories. *)
Context (raw_equal : field → field → bool).

(** [error_category_mt]: [__eq] reads its first argument twice and returns the
    number of its results, so that the second argument is the result: a userdata,
    which is true. *)
Definition error_category_mt_eq (cat1 cat2 : loc) : lua_value :=
  if decide (cat1 = cat1) then LUserdata cat2 else LNil.
Definition is_true (v : lua_value) : bool :=
  match v with LNil | LBoolean false => false | _ => true end.
Definition error_category_mt_tostring (cat : loc) : bytes := category_name cat.
(** The key [message] gives a function of a number. *)
Definition error_category_mt_index (cat : loc) (key : bytes) : outcome + (lua_args → outcome) :=
  if decide (key = lit "message") then
    inr (λ L, match arg L 1 with
      | Some (LNumber n) => Returns [LString (category_message cat (to_int (lua_tointeger n)))]
      | _ => Raises (EString "bad argument #1 (number expected)")
      end)
  else inl raise_bad_index.

(** [lua_equal]: the metamethod is asked about two userdata of the metatable. *)
Definition lua_equal (f g : field) : bool :=
  match f, g with
  | FCategory c, FCategory d => is_true (error_category_mt_eq c d)
  | _, _ => raw_equal f g
  end.

(** [error_code_mt] *)
Definition rawequal (f g : field) : bool :=
  match f, g with
  | FNumber n, FNumber m => bool_decide (n = m)
  | _, _ => raw_equal f g
  end.
Definition error_code_mt_eq (t u : table) : bool :=
  if rawequal (code t) (code u) then lua_equal (category t) (category u) else false.
Definition error_code_mt_tostring (t : table) : outcome :=
  match code t with
  | FNumber n =>
      match category t with
      | FCategory c => Returns [LString (category_message c (to_int (lua_tointeger n)))]
      | _ => raise invalid_argument
      end
  | _ => raise invalid_argument
  end.
Definition error_code_togeneric (t : table) : outcome + object :=
  match code t with
  | FNumber n =>
      match category t with
      | FCategory c => inr (push (condition c (to_int (lua_tointeger n))))
      | _ => inl (raise_arg invalid_argument 1)
      end
  | _ => inl (Raises (EString "number expected"))
  end.

(** [rdf_error_category_module_mt]: an index is a code, or a name of one. *)
Definition rdf_module_index (address : loc) (cat : RdfCategory.category) (key : option lua_value) :
    outcome + object :=
  match key with
  | Some (LNumber n) => inr (push (CodeValue (to_int (lua_tointeger n)) address))
  | Some (LString s) =>
      match aliases cat !! s with
      | Some c => inr (push (CodeValue c address))
      | None => inl raise_bad_index
      end
  | _ => inl raise_bad_index
  end.

(** Objects are compared by their codes alone. *)
Lemma error_code_mt_eq_spec c d m n :
  error_code_mt_eq (Table (FNumber m) (FCategory c)) (Table (FNumber n) (FCategory d)) =
  bool_decide (m = n).
Proof.
  unfold error_code_mt_eq. simpl. case_bool_decide; [|done].
  unfold error_category_mt_eq. by rewrite decide_True.
Qed.

(** An alias of a category gives the object of its error. *)
Lemma rdf_module_index_spec address cat alias c :
  aliases cat !! alias = Some c → (- 2 ^ 31 ≤ c < 2 ^ 31)%Z → c ≠ 0%Z →
  ∃ t, rdf_module_index address cat (Some (LString alias)) = inr (OTable t) ∧
    inspect_errobj (OTable t) = inr (CodeValue c address) ∧
    error_code_mt_tostring t = Returns [LString (category_message address c)].
Proof.
  intros Ha Hc H0'. unfold rdf_module_index. rewrite Ha. unfold push. simpl.
  rewrite decide_False by done. eexists. split; [done|]. simpl. unfold error_code_mt_tostring. simpl.
  by rewrite lua_pushinteger_exact, to_int_id by lia.
Qed.
End objects.
