(* ===== verification/Stream.v ===== *)
(** Streams: [src/src/stream.cpp] and the functions of [src/bytecode/] it loads:
    [read_all], [write_all] and their kin, and the scanner, which reads records.

    They are Lua code over the byte spans of [ByteSpan] and the functions of
    [Regex].  A call of a method is the function of the handles it works on, below;
    the lemmas of [TransferSpec] tie each to the function of [byte_span].  What a
    stream answers, read after read, is an argument: a call that has used up all of
    the answers waits, the outcome [Yields]. *)
From S2P Require Import Prelude Errors Lua StringView ByteSpan CoreErrors ErrorObjects Regex.

(** * Methods of byte spans *)
Section methods.
Context `{Allocator}.

(** [bs:slice(start, end_)] *)
Definition slice_of (bs : byte_span_handle) (start end_ : Z) : early byte_span_handle :=
  if decide (start < 1 ∨ start - 1 > end_ ∨ end_ > capacity bs)%Z then inl (raise result_out_of_range)
  else
    let new_capacity := (capacity bs - start + 1)%Z in
    if decide (new_capacity = 0)%Z then inr null_handle
    else
      match data bs with
      | None => inl Undefined
      | Some (b, off) => inr (Handle (Some (b, off + start - 1)%Z) (end_ - start + 1) new_capacity)
      end.
(** [bs:slice(start)] *)
Definition slice_from (bs : byte_span_handle) (start : Z) : early byte_span_handle :=
  slice_of bs start (size bs).
(** [bs:copy(src)] *)
Definition copy_of (bs : byte_span_handle) (src : string_view) (st : store) : early (store * Z) :=
  let count := Z.min (sv_size src) (size bs) in
  if decide (count = 0)%Z then inr (st, count)
  else
    match memmove st (data bs) src count with
    | Some st => inr (st, count)
    | None => inl Undefined
    end.
(** [bs:find(pat)] *)
Definition find_of (bs : byte_span_handle) (pat : bytes) (st : store) : early (option nat) :=
  if decide (1 > size bs)%Z then inr None
  else
    match read st (as_string_view bs) with
    | inl e => inl e
    | inr self => inr (find self pat 0)
    end.
(** [bs:trimmed(lws)] *)
Definition trimmed_of (bs : byte_span_handle) (lws : string_view) (st : store) : early byte_span_handle :=
  match read st (as_string_view bs), read st lws with
  | inl e, _ | inr _, inl e => inl e
  | inr self, inr lws =>
      match find_first_not_of self lws 0 with
      | None => inr null_handle
      | Some start =>
          match find_last_not_of self lws (length self), data bs with
          | Some end_, Some (b, off) =>
              inr (Handle (Some (b, off + start)%Z) (end_ - start + 1) (capacity bs - start))
          | _, _ => inl Undefined
          end
      end
  end.
(** [byte_span.new(n)] *)
Definition new_of (n : Z) (st : store) : early (store * byte_span_handle) :=
  if decide (n < 0)%Z then inl (raise invalid_argument)
  else if decide (n = 0)%Z then inr (st, null_handle)
  else inr (new_handle n n st).

(** * Reading and writing all *)

(** What a call of [read_some] does: octets, or an error. *)
Inductive read_answer : Set :=
| ReadSome (bs : bytes)
| ReadFails (e : lua_error).
(** The octets that fit are written to the span. *)
Definition read_some (a : read_answer) (buffer : byte_span_handle) (st : store) : early (store * Z) :=
  match a with
  | ReadSome bs => copy_of buffer (Chars bs) st
  | ReadFails e => inl (Raises e)
  end.
(** [write_some] takes some of the octets. *)
Inductive write_answer : Set :=
| WriteSome (n : nat)
| WriteFails (e : lua_error).

(** The octets written and read, with the offset in the file. *)
Abbreviation transfers := (list (Z * bytes)) (only parsing).

(** The loops of [write_all], [write_at_least] and the versions with an offset:
    while [more], what the stream takes is cut from the buffer. *)
Fixpoint write_loop (more : Z → byte_span_handle → bool) (answers : list write_answer) (offset total : Z)
    (buffer : byte_span_handle) (st : store) (out : transfers) : transfers * (outcome + Z) :=
  if more total buffer then
    match answers with
    | [] => (out, inl Yields)
    | WriteFails e :: _ => (out, inl (Raises e))
    | WriteSome n :: answers =>
        match read st (as_string_view buffer) with
        | inl e => (out, inl e)
        | inr s =>
            let taken := take n s in
            let out := out ++ [(offset, taken)] in
            match slice_from buffer (1 + length taken) with
            | inl e => (out, inl e)
            | inr buffer =>
                write_loop more answers (offset + length taken) (total + length taken) buffer st out
            end
        end
    end
  else (out, inr total).

Fixpoint read_loop (more : Z → byte_span_handle → bool) (answers : list read_answer) (offset total : Z)
    (buffer : byte_span_handle) (st : store) (log : list Z) : store * list Z * (outcome + Z) :=
  if more total buffer then
    match answers with
    | [] => (st, log, inl Yields)
    | a :: answers =>
        match read_some a buffer st with
        | inl e => (st, log ++ [offset], inl e)
        | inr (st, nread) =>
            match slice_from buffer (1 + nread) with
            | inl e => (st, log ++ [offset], inl e)
            | inr buffer =>
                read_loop more answers (offset + nread) (total + nread) buffer st (log ++ [offset])
            end
        end
    end
  else (st, log, inr total).

Definition not_empty (_ : Z) (buffer : byte_span_handle) : bool := bool_decide (size buffer > 0)%Z.
Definition below (minimum total : Z) (_ : byte_span_handle) : bool := bool_decide (total < minimum)%Z.
(** A minimum above the size is the size. *)
Definition at_least (minimum : Z) (buffer : byte_span_handle) : Z :=
  if decide (minimum > size buffer)%Z then size buffer else minimum.

(** The functions of all octets give the size of the buffer, the others what was
    transferred. *)
Definition write_all_at (answers : list write_answer) (offset : Z) (buffer : byte_span_handle)
    (st : store) : transfers * (outcome + Z) :=
  match write_loop not_empty answers offset 0 buffer st [] with
  | (out, inr _) => (out, inr (size buffer))
  | r => r
  end.
Definition write_at_least_at (answers : list write_answer) (offset : Z) (buffer : byte_span_handle)
    (minimum : Z) (st : store) : transfers * (outcome + Z) :=
  write_loop (below (at_least minimum buffer)) answers offset 0 buffer st [].
Definition read_all_at (answers : list read_answer) (offset : Z) (buffer : byte_span_handle)
    (st : store) : store * list Z * (outcome + Z) :=
  match read_loop not_empty answers offset 0 buffer st [] with
  | (r, inr _) => (r, inr (size buffer))
  | r => r
  end.
Definition read_at_least_at (answers : list read_answer) (offset : Z) (buffer : byte_span_handle)
    (minimum : Z) (st : store) : store * list Z * (outcome + Z) :=
  read_loop (below (at_least minimum buffer)) answers offset 0 buffer st [].

(** Streams have no offset.  A string is copied to a span first. *)
Definition written (r : transfers * (outcome + Z)) : bytes * (outcome + Z) := (concat r.1.*2, r.2).
Definition write_all (answers : list write_answer) (buffer : byte_span_handle) (st : store) :
    bytes * (outcome + Z) := written (write_all_at answers 0 buffer st).
Definition write_at_least (answers : list write_answer) (buffer : byte_span_handle) (minimum : Z)
    (st : store) : bytes * (outcome + Z) := written (write_at_least_at answers 0 buffer minimum st).
Definition read_all (answers : list read_answer) (buffer : byte_span_handle) (st : store) :
    store * (outcome + Z) :=
  let '(st, _, r) := read_all_at answers 0 buffer st in (st, r).
Definition read_at_least (answers : list read_answer) (buffer : byte_span_handle) (minimum : Z)
    (st : store) : store * (outcome + Z) :=
  let '(st, _, r) := read_at_least_at answers 0 buffer minimum st in (st, r).
Definition string_buffer (s : bytes) (st : store) : early (store * byte_span_handle) :=
  if decide (s = []) then inr (st, null_handle)
  else
    let '(st, bs) := new_handle (length s) (length s) st in
    match copy_of bs (Chars s) st with
    | inl e => inl e
    | inr (st, _) => inr (st, bs)
    end.
End methods.

(** * The scanner *)

(** The numbers of the platform, and the addresses of the categories. *)
Class ErrorNumbers := { object_of : error_code → ErrObj.table }.
(** Functions of the program. *)
Class UserCode `{StdRegex} := { call_user : loc → lua_args → regex_state → regex_state * outcome }.

Inductive separator `{StdRegex} : Type := SepString (s : bytes) | SepRegex (r : std_regex).
Inductive field_separator_t `{StdRegex} : Type :=
| NoSeparator | FieldString (s : bytes) | FieldRegex (r : std_regex) | FieldFunction (f : loc).
(** [record_terminator]: what separated the last record. *)
Inductive terminator : Set := TerminatorString (s : bytes) | TerminatorSpan (bs : byte_span_handle).
Definition terminator_size (t : terminator) : Z :=
  match t with TerminatorString s => length s | TerminatorSpan bs => size bs end.

Record scanner `{StdRegex} : Type := Scanner {
  buffer_ : byte_span_handle;
  buffer_used : Z;
  record_size : Z;
  record_number : Z;
  record_terminator : option terminator;
  record_separator : separator;
  trim_record : option string_view;      (* what is trimmed *)
  field_separator : field_separator_t;
  field_pattern : option std_regex;
  max_record_size : Z;
}.
Arguments Scanner {_}.

(** [incoming] is what the stream will give: octets that arrive, of which a read
    takes those that fit, and errors. *)
Record scan_state `{StdRegex} : Type := ScanState {
  lua : regex_state;
  self : scanner;
  incoming : list read_answer;
}.
Arguments ScanState {_}.

(** [re_search_flags] *)
Definition re_search_flags : Z :=
  Z.lor match_not_bol (Z.lor match_not_eol (Z.lor match_not_bow (Z.lor match_not_eow match_not_null))).

Section scanner.
Context `{LuaApi} `{Allocator} `{UserCode} `{ErrorNumbers}.
Context (raw_equal : ErrObj.field → ErrObj.field → bool).

(** [nread ~= EEOF] *)
Definition is_EEOF (e : lua_error) : bool :=
  match e with
  | ECode ec _ => error_code_mt_eq raw_equal (object_of ec) (object_of (Misc_code Asio.misc_errors.eof))
  | _ => false
  end.

Definition with_used (used record : Z) (s : scanner) : scanner :=
  Scanner (buffer_ s) used record (record_number s) (record_terminator s) (record_separator s)
    (trim_record s) (field_separator s) (field_pattern s) (max_record_size s).
Definition with_buffer (bs : byte_span_handle) (s : scanner) : scanner :=
  Scanner bs (buffer_used s) (record_size s) (record_number s) (record_terminator s)
    (record_separator s) (trim_record s) (field_separator s) (field_pattern s) (max_record_size s).
Definition with_terminator (t : option terminator) (s : scanner) : scanner :=
  Scanner (buffer_ s) (buffer_used s) (record_size s) (record_number s) t (record_separator s)
    (trim_record s) (field_separator s) (field_pattern s) (max_record_size s).
Definition count_record (s : scanner) : scanner :=
  Scanner (buffer_ s) (buffer_used s) (record_size s) (record_number s + 1) (record_terminator s)
    (record_separator s) (trim_record s) (field_separator s) (field_pattern s) (max_record_size s).

Definition with_memory (f : store → store) : scan_state → scan_state :=
  λ st, ScanState (with_spans f (lua st)) (self st) (incoming st).
Definition with_self (f : scanner → scanner) (st : scan_state) : scan_state :=
  ScanState (lua st) (f (self st)) (incoming st).
Definition with_incoming (l : list read_answer) (st : scan_state) : scan_state :=
  ScanState (lua st) (self st) l.
Definition memory (st : scan_state) : store := spans (lua st).

(** ** The fields of a record *)

(** The fields between the occurrences of a string.  [None] without fuel: there
    is enough, unless the string is empty. *)
Fixpoint string_fields (fuel : nat) (sep : bytes) (line : byte_span_handle) (st : store) :
    option (early (list byte_span_handle)) :=
  match fuel with
  | O => None
  | S fuel =>
      match find_of line sep st with
      | inl e => Some (inl e)
      | inr None => Some (inr [line])
      | inr (Some idx) =>
          match slice_of line 1 idx, slice_from line (S idx + length sep) with
          | inl e, _ | inr _, inl e => Some (inl e)
          | inr field, inr line =>
              (λ r, match r with inl e => inl e | inr fs => inr (field :: fs) end)
                <$> string_fields fuel sep line st
          end
      end
  end.
Fixpoint push_handles (hs : list byte_span_handle) (st : regex_state) : regex_state * list lua_value :=
  match hs with
  | [] => (st, [])
  | h :: hs =>
      let '(st, v) := new_span h st in
      let '(st, vs) := push_handles hs st in
      (st, v :: vs)
  end.
Definition push_handle (h : byte_span_handle) (st : regex_state) : regex_state * outcome :=
  let '(st, v) := new_span h st in (st, Returns [v]).

(** What [get_line] returns for a record; at the end of the stream a function is
    not called. *)
Definition deliver (at_eof : bool) (s : scanner) (line : byte_span_handle) (st : regex_state) :
    regex_state * outcome :=
  match field_separator s with
  | FieldString sep =>
      if decide (size line = 0)%Z then let '(st, t) := new_table ∅ st in (st, Returns [t])
      else
        match string_fields (S (Z.to_nat (size line))) sep line (spans st) with
        | None => (st, Undefined)
        | Some (inl e) => (st, e)
        | Some (inr fields) =>
            let '(st, vs) := push_handles fields st in
            let '(st, t) := new_table (array 1 vs) st in
            (st, Returns [t])
        end
  | FieldRegex r =>
      check text := read (spans st) (as_string_view line) in st;
      split_source r (Some line) text st
  | FieldFunction f =>
      if at_eof then (st, raise_arg invalid_argument 1)
      else let '(st, v) := new_span line st in call_user f [v] st
  | NoSeparator =>
      match field_pattern s with
      | Some r =>
          check text := read (spans st) (as_string_view line) in st;
          patsplit_source r (Some line) text st
      | None => push_handle line st
      end
  end.
Definition deliver_in (at_eof : bool) (line : byte_span_handle) (st : scan_state) : scan_state * outcome :=
  let '(l, o) := deliver at_eof (self st) line (lua st) in (ScanState l (self st) (incoming st), o).

Definition trim (s : scanner) (line : byte_span_handle) (st : store) : early byte_span_handle :=
  match trim_record s with
  | Some lws => trimmed_of line lws st
  | None => inr line
  end.

(** ** [scanner_get_line.lua] *)

(** The record in the window: where it ends, and what separates it. *)
Definition find_record (s : scanner) (ready_wnd : byte_span_handle) (st : store) :
    early (option (Z * terminator * Z)) :=
  match record_separator s with
  | SepString sep =>
      match find_of ready_wnd sep st with
      | inl e => inl e
      | inr None => inr None
      | inr (Some idx) => inr (Some (Z.of_nat idx, TerminatorString sep, idx + length sep)%Z)
      end
  | SepRegex r =>
      match read st (as_string_view ready_wnd) with
      | inl e => inl e
      | inr text =>
          match search r re_search_flags [] text with
          | inl e => inl (Raises (cpp_exception e))
          | inr None => inr None
          | inr (Some m) =>
              match slice_of ready_wnd (1 + (whole m).1) (whole m).2 with
              | inl e => inl e
              | inr t => inr (Some (Z.of_nat (whole m).1, TerminatorSpan t, Z.of_nat (whole m).2))
              end
          end
      end
  end.

(** What was returned by the last call is removed from the buffer. *)
Definition shift_buffer (st : scan_state) : early (scan_state * byte_span_handle) :=
  let s := self st in
  match slice_of (buffer_ s) 1 (buffer_used s - record_size s) with
  | inl e => inl e
  | inr ready_wnd =>
      if decide (record_size s > 0)%Z then
        match slice_from (buffer_ s) (1 + record_size s) with
        | inl e => inl e
        | inr rest =>
            match copy_of ready_wnd (as_string_view rest) (memory st) with
            | inl e => inl e
            | inr (m, _) =>
                inr (with_self (with_used (buffer_used s - record_size s) 0) (with_memory (λ _, m) st),
                     ready_wnd)
            end
        end
      else inr (st, ready_wnd)
  end.

(** A full buffer doubles, up to [max_record_size]. *)
Definition grow_buffer (st : scan_state) : early scan_state :=
  let s := self st in
  if decide (size (buffer_ s) = buffer_used s)%Z then
    let new_size :=
      let new_size := (size (buffer_ s) * 2)%Z in
      if decide (new_size > max_record_size s)%Z then max_record_size s else new_size in
    if decide (size (buffer_ s) >= new_size)%Z then inl (raise message_size)
    else
      match new_of new_size (memory st) with
      | inl e => inl e
      | inr (m, new_buffer) =>
          match copy_of new_buffer (as_string_view (buffer_ s)) m with
          | inl e => inl e
          | inr (m, _) => inr (with_self (with_buffer new_buffer) (with_memory (λ _, m) st))
          end
      end
  else inr st.

(** [stream:read_some(buffer)] *)
Definition scanner_read (bs : bytes) (answers : list read_answer) (buffer : byte_span_handle)
    (st : scan_state) : early (scan_state * Z) :=
  match copy_of buffer (Chars bs) (memory st) with
  | inl e => inl e
  | inr (m, nread) =>
      let rest := drop (Z.to_nat nread) bs in
      inr (with_incoming (if decide (rest = []) then answers else ReadSome rest :: answers)
             (with_memory (λ _, m) st), nread)
  end.

(** The record at the end of the stream. *)
Definition last_record (ready_wnd : byte_span_handle) (st : scan_state) : scan_state * outcome :=
  check ready_wnd := trim (self st) ready_wnd (memory st) in st;
  let t :=
    match record_separator (self st) with
    | SepString _ => TerminatorString []
    | SepRegex _ => TerminatorSpan null_handle
    end in
  deliver_in true ready_wnd
    (with_self (λ s, count_record
       (with_used (buffer_used s) (size ready_wnd) (with_terminator (Some t) s))) st).

(** The loop of [get_line].  It ends: each round takes an octet or an answer. *)
Fixpoint get_line_loop (fuel : nat) (ready_wnd : byte_span_handle) (st : scan_state) :
    scan_state * outcome :=
  match fuel with
  | O => (st, Undefined)
  | S fuel =>
      check record := find_record (self st) ready_wnd (memory st) in st;
      match record with
      | Some (end_, t, size) =>
          let st := with_self (λ s, with_used (buffer_used s) size (with_terminator (Some t) s)) st in
          check line := slice_of ready_wnd 1 end_ in st;
          check line := trim (self st) line (memory st) in st;
          deliver_in false line (with_self count_record st)
      | None =>
          check st := grow_buffer st in st;
          check buffer := slice_from (buffer_ (self st)) (1 + buffer_used (self st)) in st;
          match incoming st with
          | [] => (st, Yields)
          | ReadFails e :: answers =>
              let st := with_incoming answers st in
              if negb (is_EEOF e) || bool_decide (size ready_wnd = 0)%Z then (st, Raises e)
              else last_record ready_wnd st
          | ReadSome bs :: answers =>
              check (st, nread) := scanner_read bs answers buffer st in st;
              let st := with_self (λ s, with_used (buffer_used s + nread) (record_size s) s) st in
              check ready_wnd := slice_of (buffer_ (self st)) 1 (buffer_used (self st)) in st;
              get_line_loop fuel ready_wnd st
          end
      end
  end.
Fixpoint weight (l : list read_answer) : nat :=
  match l with
  | [] => 0
  | ReadSome bs :: l => S (length bs + weight l)
  | ReadFails _ :: l => S (weight l)
  end.
Definition get_line (st : scan_state) : scan_state * outcome :=
  check (st', ready_wnd) := shift_buffer st in st;
  get_line_loop (S (weight (incoming st'))) ready_wnd st'.

(** ** The other members *)
Definition scanner_buffer (st : scan_state) : scan_state * outcome :=
  check h := slice_of (buffer_ (self st)) 1 (buffer_used (self st)) in st;
  let '(l, v) := new_span h (lua st) in
  (ScanState l (self st) (incoming st), Returns [v; LNumber (lua_pushinteger 1)]).
Definition scanner_buffered_line (st : scan_state) : scan_state * outcome :=
  match record_terminator (self st) with
  | None => (st, Raises (EString "attempt to get length of field 'record_terminator' (a nil value)"))
  | Some t =>
      check h := slice_of (buffer_ (self st)) 1 (record_size (self st) - terminator_size t) in st;
      let '(l, v) := new_span h (lua st) in (ScanState l (self st) (incoming st), Returns [v])
  end.
Definition scanner_remove_line (st : scan_state) : scan_state * outcome :=
  let s := self st in
  check ready_wnd := slice_of (buffer_ s) 1 (buffer_used s - record_size s) in st;
  check rest := slice_from (buffer_ s) (1 + record_size s) in st;
  check (m, _) := copy_of ready_wnd (as_string_view rest) (memory st) in st;
  (with_self (λ s, with_terminator None (with_used (buffer_used s - record_size s) 0 s))
     (with_memory (λ _, m) st), Returns []).
Definition scanner_set_buffer (buffer : byte_span_handle) (offset : Z) (st : scan_state) :
    scan_state * outcome :=
  check whole := slice_of buffer 1 (capacity buffer) in st;
  let st := with_self (with_buffer whole) st in
  check rest := slice_from buffer offset in st;
  check (m, used) := copy_of buffer (as_string_view rest) (memory st) in st;
  (with_self (λ s, with_terminator None (with_used used 0 s)) (with_memory (λ _, m) st), Returns []).

(** The options of [scanner.new]; those the program leaves out have a default. *)
Record scanner_options : Type := ScannerOptions {
  separator_option : option separator;
  trim_option : option string_view;
  fields_option : field_separator_t;
  pattern_option : option std_regex;
  buffer_size_hint : option Z;
  max_option : option Z;
}.
Definition INITIAL_BUFFER_SIZE : Z := 4096.
Definition MAX_RECORD_SIZE : Z := 64 * 1024.
Definition scanner_new (o : scanner_options) (stream : list read_answer) (st : regex_state) : early scan_state :=
  match new_of (default INITIAL_BUFFER_SIZE (buffer_size_hint o)) (spans st) with
  | inl e => inl e
  | inr (m, bs) =>
      inr (ScanState (with_spans (λ _, m) st)
        (Scanner bs 0 0 0 None (default (SepString [13; 10]%Z) (separator_option o)) (trim_option o)
           (fields_option o) (pattern_option o) (default MAX_RECORD_SIZE (max_option o))) stream)
  end.
(** [FS] is the expression for white space that [regex_new] makes. *)
Definition scanner_with_awk_defaults (FS : std_regex) (stream : list read_answer) (st : regex_state) : early scan_state :=
  match new_of INITIAL_BUFFER_SIZE (spans st) with
  | inl e => inl e
  | inr (m, bs) =>
      inr (ScanState (with_spans (λ _, m) st)
        (Scanner bs 0 0 0 None (SepString [10%Z]) (Some (Chars lws_default)) (FieldRegex FS) None
           MAX_RECORD_SIZE) stream)
  end.
End scanner.
