(* ===== verification/TransferSpec.v ===== *)
(** What [Stream] does to memory: slices are parts of a span, copies change a part
    of it, and the functions of the handles are those of [byte_span].  What
    [read_all], [write_all] and their kin promise: every octet once, in order, and
    no more calls than needed. *)
From S2P Require Import Prelude Errors Lua StringView CoreErrors ByteSpan ByteSpanFacts ByteSpanSafety ByteSpanSpec.
From S2P Require Import Regex RegexSpec ErrorObjects Stream.

(** The characters of a span. *)
Definition chars (st : store) (bs : byte_span_handle) : option bytes := load st (as_string_view bs).

Lemma chars_ok st bs :
  wf st → handle_wf (buffers st) bs →
  ∃ s, chars st bs = Some s ∧ Z.of_nat (length s) = size bs ∧ Forall is_byte s.
Proof.
  intros W Hbs. destruct (load_ok st _ (wf_bytes _ W) (as_string_view_ok _ _ Hbs)) as (s & ? & L & ?).
  rewrite (sv_size_as_string_view (buffers st)) in L by done. by exists s.
Qed.
Lemma chars_size st bs s : chars st bs = Some s → handle_wf (buffers st) bs → Z.of_nat (length s) = size bs.
Proof.
  unfold chars, as_string_view, handle_wf. destruct (data bs) as [[b off]|]; simpl.
  - intros E (Hb & buf & Eb & Hl). rewrite Eb in E. simpl in E. case_decide as Hin; [|done].
    injection E as <-. rewrite length_window; destruct Hin; lia.
  - intros [= <-] [-> _]. done.
Qed.
Lemma read_chars st bs s : chars st bs = Some s → read st (as_string_view bs) = inr s.
Proof. unfold chars, read. by intros ->. Qed.

(** * Parts of a span *)

(** The [n] characters of [bs] from [a] on. *)
Definition part (bs : byte_span_handle) (a n : Z) (bs' : byte_span_handle) : Prop :=
  size bs' = n ∧ (0 ≤ a ∧ 0 ≤ n ∧ a + n ≤ size bs)%Z ∧
  match data bs' with
  | Some (b, off) => ∃ o, data bs = Some (b, o) ∧ off = (o + a)%Z
  | None => n = 0%Z
  end.

Lemma part_chars bs a n bs' st s :
  part bs a n bs' → chars st bs = Some s →
  chars st bs' = Some (window (Z.to_nat a) (Z.to_nat n) s).
Proof.
  intros (Hs & Hr & Hd). unfold chars, as_string_view. destruct (data bs') as [[b off]|].
  - destruct Hd as (o & -> & ->). rewrite Hs. simpl.
    destruct (buffers st !! b) as [buf|]; simpl; [|done]. case_decide as Hin; [|done].
    intros [= <-]. destruct Hin as (? & ? & ?). rewrite decide_True by (unfold in_bounds; lia).
    f_equal. rewrite window_window by lia. f_equal. lia.
  - intros _. simpl. rewrite Hd. unfold window. by rewrite take_0.
Qed.

Lemma slice_part bufs bs a e :
  handle_wf bufs bs → (0 ≤ a ≤ e)%Z → (e ≤ size bs)%Z →
  ∃ bs', slice_of bs (1 + a) e = inr bs' ∧ handle_wf bufs bs' ∧ part bs a (e - a) bs'.
Proof.
  intros Hbs Ha He. unfold handle_wf in Hbs. unfold slice_of.
  destruct (data bs) as [[b off]|] eqn:Ed.
  - destruct Hbs as ((? & ? & ?) & buf & Eb & ?).
    rewrite decide_False by lia. cbn zeta. case_decide as Hc.
    + exists null_handle. split_and!; [done|done|]. split; simpl; [lia|split; [lia|lia]].
    + eexists. split_and!; [done| |].
      * split; simpl; [lia|]. exists buf. split; [done|lia].
      * split; simpl; [lia|]. split; [lia|]. exists off. split; [done|lia].
  - destruct Hbs as [E1 E2]. rewrite decide_False by lia. cbn zeta. rewrite decide_True by lia.
    exists null_handle. split_and!; [done|done|]. split; simpl; [lia|split; [lia|lia]].
Qed.
Lemma slice_from_part bufs bs a :
  handle_wf bufs bs → (0 ≤ a ≤ size bs)%Z →
  ∃ bs', slice_from bs (1 + a) = inr bs' ∧ handle_wf bufs bs' ∧ part bs a (size bs - a) bs'.
Proof. intros. by apply slice_part; [|lia|lia]. Qed.

(** A span whose buffer is not touched keeps its characters. *)
Lemma chars_kept st st' bs s :
  (∀ b buf, fst <$> data bs = Some b → buffers st !! b = Some buf → buffers st' !! b = Some buf) →
  chars st bs = Some s → chars st' bs = Some s.
Proof.
  unfold chars, as_string_view. destruct (data bs) as [[b off]|]; [|done]. simpl. intros Hk.
  destruct (buffers st !! b) as [buf|] eqn:Eb; [|done]. by rewrite (Hk b buf).
Qed.
Lemma window_front {A} n (p q : list A) : length p = n → window 0 n (p ++ q) = p.
Proof. intros <-. unfold window. simpl. apply take_app_length. Qed.

(** * Copies *)

(** No octet outside of the span changes: not in other buffers, and not before or
    after it in its own. *)
Record outside (bs : byte_span_handle) (st st' : store) : Prop := {
  outside_others : ∀ b, fst <$> data bs ≠ Some b → buffers st' !! b = buffers st !! b;
  outside_own : ∀ b off buf, data bs = Some (b, off) → buffers st !! b = Some buf →
    ∃ buf', buffers st' !! b = Some buf' ∧
      take (Z.to_nat off) buf' = take (Z.to_nat off) buf ∧
      drop (Z.to_nat (off + size bs)) buf' = drop (Z.to_nat (off + size bs)) buf;
}.
#[export] Instance outside_preorder bs : PreOrder (outside bs).
Proof.
  split.
  - intros st. split; [done|]. eauto.
  - intros st1 st2 st3 [O1 I1] [O2 I2]. split.
    + intros b Hb. by rewrite O2, O1.
    + intros b off buf Ed Eb. destruct (I1 b off buf Ed Eb) as (buf2 & Eb2 & T2 & D2).
      destruct (I2 b off buf2 Ed Eb2) as (buf3 & Eb3 & T3 & D3).
      exists buf3. split_and!; congruence.
Qed.
Lemma blit_around {A} (pos a b : nat) (u l : list A) :
  a ≤ pos → pos + length u ≤ b → b ≤ length l →
  take a (blit pos u l) = take a l ∧ drop b (blit pos u l) = drop b l.
Proof.
  intros Ha Hb Hl. unfold blit. split.
  - rewrite take_app_le by (rewrite length_take; lia). rewrite take_take. f_equal. lia.
  - rewrite drop_app_ge by (rewrite length_take; lia).
    rewrite drop_app_ge by (rewrite length_take; lia). rewrite drop_drop, length_take. f_equal. lia.
Qed.
Lemma copy_part st bs a n dst src s t :
  wf st → handle_wf (buffers st) bs → part bs a n dst → chars st bs = Some s →
  view_ok (buffers st) src → load st src = Some t →
  let c := min (length t) (Z.to_nat n) in
  ∃ st', copy_of dst src st = inr (st', Z.of_nat c) ∧ wf st' ∧ grows st st' ∧
    userdata st' = userdata st ∧ chars st' bs = Some (blit (Z.to_nat a) (take c t) s) ∧
    outside bs st st'.
Proof.
  intros W Hbs (Hs & Hr & Hd) Ec Hv Et c.
  pose proof (chars_size _ _ _ Ec Hbs) as Hl.
  assert (sv_size src = length t) as Esz.
  { destruct (load_ok _ _ (wf_bytes _ W) Hv) as (t' & Et' & ? & _). by simplify_eq. }
  unfold copy_of. rewrite Esz, Hs. replace (Z.min (length t) n) with (Z.of_nat c) by lia.
  case_decide as Hc0.
  { exists st. split_and!; [done..| |done]. replace c with 0 by lia. rewrite take_0, blit_nil; [done|lia]. }
  destruct (data dst) as [[b off]|]; [|lia]. destruct Hd as (o & Ed & ->).
  unfold handle_wf in Hbs. rewrite Ed in Hbs. destruct Hbs as (Hb & buf & Eb & Hcap).
  destruct (memmove_ok st b (o + a) src (Z.of_nat c) buf) as (u & st' & Eu & Lu & -> & W' & G & EU & EB);
    [done..|lia|done|unfold in_bounds; lia|].
  assert (u = take c t) as ->.
  { destruct src as [x|b' off' len]; simpl in *.
    - injection Eu as <-. injection Et as ->. by rewrite Nat2Z.id.
    - destruct (buffers st !! b') as [buf'|]; [|done]. simpl in *. repeat case_decide; [|done..].
      injection Eu as <-. injection Et as <-. unfold window. rewrite take_take. f_equal.
      destruct H0 as (? & ? & ?). unfold c. rewrite length_window by lia. lia. }
  assert (outside bs st st') as Hout.
  { split.
    - intros b' Hne. rewrite EB, list_lookup_insert_ne; [done|]. intros ->. by rewrite Ed in Hne.
    - intros b' off' buf' Ed' Eb'. rewrite Ed in Ed'.
      injection Ed' as <- <-. rewrite Eb in Eb'. injection Eb' as <-.
      exists (blit (Z.to_nat (o + a)) (take c t) buf). split.
      { by rewrite EB, list_lookup_insert_eq by (by eapply lookup_lt_Some). }
      apply blit_around; rewrite ?length_take; lia. }
  exists st'. split_and!; [done..| |done].
  unfold chars, as_string_view in *. rewrite Ed in *. simpl in *.
  rewrite Eb in Ec. simpl in Ec. case_decide as Hin; [|done]. injection Ec as <-.
  rewrite EB, list_lookup_insert_eq by (by eapply lookup_lt_Some). simpl.
  rewrite decide_True by (unfold in_bounds; rewrite length_blit; lia). f_equal.
  rewrite length_take in Lu.
  apply list_eq. intros i. destruct (decide (i < Z.to_nat (size bs))) as [Hi|Hi].
  - rewrite window_lookup, blit_lookup by (rewrite ?length_take; lia).
    rewrite blit_lookup by (rewrite length_window, length_take by lia; lia).
    rewrite !length_take. rewrite window_lookup by lia.
    repeat case_decide; try lia; [f_equal; lia|done].
  - rewrite !lookup_ge_None_2; [done| |].
    + rewrite length_blit; rewrite length_window by lia; [lia|]. rewrite length_take. lia.
    + rewrite length_window; [lia|]. rewrite length_blit; [|rewrite length_take]; lia.
Qed.

(** * Methods *)
Section methods.
Context `{LuaApi} `{Allocator}.

(** The functions of the handles are what the methods of a span do. *)
Definition method_of {A} (r : early A) (st : store) (k : A → store * outcome) : store * outcome :=
  early_bind r st k.
Lemma self_of st x L bs n :
  span_of st (Some x) = Some bs → self_arg (settop (S n) (x :: L)) st = inr bs.
Proof. intros Es. unfold self_arg. change (arg _ 1) with (Some x). by rewrite Es. Qed.
Lemma slice_method st x bs start end_ :
  span_of st (Some x) = Some bs →
  byte_span_slice [x; LNumber start; LNumber end_] st =
  method_of (slice_of bs (lua_tointeger start) (lua_tointeger end_)) st (λ h, push_span h st).
Proof.
  intros Es. unfold byte_span_slice. rewrite (self_of _ _ _ bs) by done.
  unfold method_of, slice_of. cbn. repeat (case_decide || case_match); simplify_eq; done.
Qed.
Lemma slice_from_method st x bs start :
  span_of st (Some x) = Some bs →
  byte_span_slice [x; LNumber start] st =
  method_of (slice_from bs (lua_tointeger start)) st (λ h, push_span h st).
Proof.
  intros Es. unfold byte_span_slice. rewrite (self_of _ _ _ bs) by done.
  unfold method_of, slice_from, slice_of. cbn. repeat (case_decide || case_match); simplify_eq; done.
Qed.
Lemma copy_method st x v bs src :
  span_of st (Some x) = Some bs → text_arg [x; v] 2 st = inr src →
  byte_span_copy [x; v] st =
  method_of (copy_of bs src st) st (λ '(st, n), (st, push_integer n)).
Proof.
  intros Es Et. unfold byte_span_copy. rewrite (self_of _ _ _ bs) by done.
  change (settop 2 [x; v]) with [x; v]. rewrite Et. unfold method_of, copy_of. simpl. by repeat (case_decide || case_match); simplify_eq.
Qed.
Lemma find_method st x bs pat :
  span_of st (Some x) = Some bs → (0 ≤ size bs)%Z →
  byte_span_find [x; LString pat] st =
  method_of (find_of bs pat st) st (λ r, (st, push_position r)).
Proof.
  intros Es Hs. unfold byte_span_find, search_forward. rewrite (self_of _ _ _ bs) by done.
  unfold method_of, find_of. simpl. rewrite decide_False by lia. case_decide; simpl; [done|].
  unfold read. by destruct (load st (as_string_view bs)).
Qed.
Lemma trimmed_method st x v bs lws :
  span_of st (Some x) = Some bs →
  match v with LNil => lws = Chars lws_default | _ => text_arg [x; v] 2 st = inr lws end →
  byte_span_trimmed [x; v] st = method_of (trimmed_of bs lws st) st (λ h, push_span h st).
Proof.
  intros Es Hv. unfold byte_span_trimmed. rewrite (self_of _ _ _ bs) by done.
  change (settop 2 [x; v]) with [x; v]. cbn [early_bind].
  assert (match arg [x; v] 2 with
    | Some LNil | None => inr (Chars lws_default)
    | _ => text_arg [x; v] 2 st
    end = inr lws) as ->.
  { unfold arg. simpl. destruct v; simplify_eq; done. }
  simpl. unfold trimmed_of. destruct (read st (as_string_view bs)); [done|].
  destruct (read st lws); [done|]. simpl. repeat case_match; simplify_eq; done.
Qed.

Lemma find_chars st bs pat s :
  chars st bs = Some s → handle_wf (buffers st) bs → pat ≠ [] →
  find_of bs pat st = inr (find s pat 0).
Proof.
  intros Es Hbs Hp. unfold find_of. pose proof (chars_size _ _ _ Es Hbs).
  rewrite (read_chars _ _ _ Es). case_decide; [|done].
  destruct s; simpl in *; [|lia]. unfold find, occurs_at. simpl.
  rewrite bool_decide_false; [done|]. unfold window. rewrite drop_nil, take_nil. congruence.
Qed.

Lemma new_ok n st :
  wf st → (0 < n ≤ int64_max)%Z →
  ∃ st' bs u, new_of n st = inr (st', bs) ∧ wf st' ∧ grows st st' ∧ handle_wf (buffers st') bs ∧
    userdata st' = userdata st ∧ size bs = n ∧ chars st' bs = Some u ∧ Z.of_nat (length u) = n ∧
    fst <$> data bs = Some (length (buffers st)) ∧
    ∀ b buf, buffers st !! b = Some buf → buffers st' !! b = Some buf.
Proof.
  intros W Hn. unfold new_of. rewrite !decide_False by lia.
  destruct (new_handle_ok st n n W) as (W' & G & Hbs & EU); [lia..|].
  destruct (chars_ok _ _ W' Hbs) as (u & Hu & Lu & _).
  eexists _, _, u. split_and!; try done; [done..|].
  intros b buf Eb. by apply lookup_app_l_Some.
Qed.
End methods.

(** * Finding a string *)
Lemma find_spec s p i :
  find s p 0 = Some i ↔
  i ≤ length s ∧ window i (length p) s = p ∧ ∀ k, k < i → window k (length p) s ≠ p.
Proof.
  unfold find. rewrite find_up_Some. unfold occurs_at. setoid_rewrite bool_decide_eq_true.
  setoid_rewrite bool_decide_eq_false. split.
  - intros (? & ? & Hk). split_and!; [lia|done|]. intros k Hlt. apply Hk. lia.
  - intros (? & ? & Hk). split_and!; [lia..|done|]. intros k ?. apply Hk. lia.
Qed.
Lemma find_cut s p i :
  find s p 0 = Some i → s = take i s ++ p ++ drop (i + length p) s ∧ i + length p ≤ length s.
Proof.
  intros (Hi & Hw & _)%find_spec.
  assert (i + length p ≤ length s).
  { assert (length (window i (length p) s) = length p) as L by (by rewrite Hw).
    unfold window in L. rewrite length_take, length_drop in L. lia. }
  split; [|done]. rewrite <- Hw at 1. symmetry. apply window_split.
Qed.
(** The first occurrence depends only on what is before its end. *)
Lemma find_app s p t i :
  find s p 0 = Some i → i + length p ≤ length s → find (s ++ t) p 0 = Some i.
Proof.
  rewrite !find_spec. intros (Hi & Hw & Hk) Hl.
  assert (∀ k, k ≤ i → window k (length p) (s ++ t) = window k (length p) s) as E.
  { intros k Hki. unfold window. rewrite drop_app_le, take_app_le; [done| |lia].
    rewrite length_drop. lia. }
  split_and!; [rewrite length_app; lia|by rewrite E|]. intros k Hlt. rewrite E by lia. by apply Hk.
Qed.

Section transfers.
Context `{Allocator}.

(** * Writing *)

(** Each transfer goes on at the offset where the one before it ended. *)
Fixpoint contiguous (offset : Z) (l : list (Z * bytes)) : Prop :=
  match l with
  | [] => True
  | (o, t) :: l => o = offset ∧ contiguous (offset + length t) l
  end.
Definition octets (l : list (Z * bytes)) : bytes := concat l.*2.

Lemma octets_cons o t l : octets ((o, t) :: l) = t ++ octets l.
Proof. done. Qed.

(** A call of the loop that does not return: it waits, or an answer was an error. *)
Definition write_stopped (answers : list write_answer) (o : outcome) : Prop :=
  o = Yields ∨ ∃ e, o = Raises e ∧ WriteFails e ∈ answers.

Lemma write_loop_spec more answers offset total buffer st out s :
  handle_wf (buffers st) buffer → chars st buffer = Some s →
  ∃ new r, write_loop more answers offset total buffer st out = (out ++ new, r) ∧
    contiguous offset new ∧ octets new `prefix_of` s ∧
    match r with
    | inr n => n = (total + length (octets new))%Z ∧
        ∃ rest, more n rest = false ∧ size rest = (size buffer - length (octets new))%Z
    | inl o => write_stopped answers o
    end.
Proof.
  revert offset total buffer out s. induction answers as [|a answers IH];
    intros offset total buffer out s Hb Es; simpl; destruct (more total buffer) eqn:Em.
  - exists [], (inl Yields). rewrite app_nil_r. split_and!; [done|done|apply prefix_nil|by left].
  - exists [], (inr total). rewrite app_nil_r. split_and!; [done|done|apply prefix_nil|simpl; lia|].
    exists buffer. split; [done|simpl; lia].
  - destruct a as [n|e].
    2: { exists [], (inl (Raises e)). rewrite app_nil_r. split_and!; [done|done|apply prefix_nil|].
         right. exists e. split; [done|by left]. }
    rewrite (read_chars _ _ _ Es). pose proof (chars_size _ _ _ Es Hb) as Hl.
    destruct (slice_from_part (buffers st) buffer (length (take n s)) Hb) as (buffer' & -> & Hb' & Hp).
    { rewrite length_take. lia. }
    pose proof (part_chars _ _ _ _ _ _ Hp Es) as Es'.
    destruct (IH (offset + length (take n s))%Z (total + length (take n s))%Z buffer'
      (out ++ [(offset, take n s)]) _ Hb' Es') as (new & r & -> & Hc & Hpre & Hr).
    exists ((offset, take n s) :: new), r. rewrite <- app_assoc. split_and!; [done|done| |].
    + rewrite octets_cons. rewrite Nat2Z.id in Hpre. unfold window in Hpre.
      rewrite take_ge in Hpre.
      2: { rewrite length_drop, length_take. lia. }
      destruct Hpre as [k Hk]. exists k. rewrite <- app_assoc, <- Hk.
      rewrite length_take. destruct (decide (n ≤ length s)).
      * by rewrite Nat.min_l, take_drop.
      * rewrite Nat.min_r, drop_all, take_ge by lia. by rewrite app_nil_r.
    + destruct Hp as (Hs' & _). rewrite octets_cons, length_app. destruct r as [o|m].
      * destruct Hr as [?|(e & ? & ?)]; [by left|]. right. exists e. split; [done|by right].
      * destruct Hr as (-> & rest & Hm & Hsz). split; [lia|]. exists rest. split; [done|].
        rewrite Hsz, Hs'. lia.
  - exists [], (inr total). rewrite app_nil_r. split_and!; [done|done|apply prefix_nil|simpl; lia|].
    exists buffer. split; [done|simpl; lia].
Qed.

(** A stream that takes something each time is done after as many calls as there are
    octets. *)
Lemma write_loop_progress answers offset total buffer st out s :
  handle_wf (buffers st) buffer → chars st buffer = Some s →
  Forall (λ a, ∃ n, a = WriteSome (S n)) answers → length s ≤ length answers →
  ∃ n, (write_loop not_empty answers offset total buffer st out).2 = inr n.
Proof.
  revert offset total buffer out s. induction answers as [|a answers IH];
    intros offset total buffer out s Hb Es Ha Hn; pose proof (chars_size _ _ _ Es Hb) as Hl; simpl;
    unfold not_empty at 1; case_bool_decide as Hsz; try by eexists; simpl in Hn.
  - simpl in *. lia.
  - apply Forall_cons in Ha as [[n ->] Ha]. rewrite (read_chars _ _ _ Es).
    destruct (slice_from_part (buffers st) buffer (length (take (S n) s)) Hb) as (buffer' & -> & Hb' & Hp).
    { rewrite length_take. lia. }
    eapply IH; [done|by eapply part_chars|done|]. simpl in Hn.
    rewrite length_window by (rewrite length_take; lia). rewrite length_take. lia.
Qed.

(** C22 Writing all writes every octet of the buffer, once and in order, each part at
    the offset after the one before; when it ends early a beginning was written.
    It returns the size of the buffer, and does so when the stream takes at least
    an octet each time. *)
Theorem write_all_complete answers offset buffer st s :
  handle_wf (buffers st) buffer → chars st buffer = Some s →
  ∃ new r, write_all_at answers offset buffer st = (new, r) ∧ contiguous offset new ∧
    match r with
    | inr n => octets new = s ∧ n = length s
    | inl o => octets new `prefix_of` s ∧ write_stopped answers o
    end ∧
    (Forall (λ a, ∃ n, a = WriteSome (S n)) answers → length s ≤ length answers → r = inr (Z.of_nat (length s))).
Proof.
  intros Hb Es. pose proof (chars_size _ _ _ Es Hb) as Hl. unfold write_all_at.
  destruct (write_loop_spec not_empty answers offset 0 buffer st [] s Hb Es) as (new & r & E & Hc & Hp & Hr).
  pose proof (write_loop_progress answers offset 0 buffer st [] s Hb Es) as P. rewrite E in P |- *.
  simpl in P |- *. destruct r as [o|n].
  - exists new, (inl o). split_and!; [done..|]. intros Ha Hn. by destruct (P Ha Hn).
  - destruct Hr as (-> & rest & Hm & Hsz). unfold not_empty in Hm. apply bool_decide_eq_false in Hm.
    exists new, (inr (size buffer)). split_and!; [done|done| |by rewrite Hl..].
    destruct Hp as [k ->]. rewrite length_app in Hl. assert (k = []) as ->; [|by rewrite app_nil_r].
    apply length_zero_iff_nil. lia.
Qed.

(** * Reading *)

(** What a buffer of [n] octets receives. *)
Fixpoint received (answers : list read_answer) (n : nat) : bytes :=
  match answers with
  | ReadSome bs :: answers => if decide (n = 0) then [] else take n bs ++ received answers (n - length bs)
  | _ => []
  end.
Definition read_stopped (answers : list read_answer) (o : outcome) : Prop :=
  o = Yields ∨ ∃ e, o = Raises e ∧ ReadFails e ∈ answers.

Lemma view_chars bufs t : Forall is_byte t → view_ok bufs (Chars t).
Proof. done. Qed.

Lemma read_loop_spec answers offset total buffer whole st log s a :
  wf st → handle_wf (buffers st) whole → chars st whole = Some s →
  handle_wf (buffers st) buffer → part whole a (size whole - a) buffer →
  Forall (λ x, match x with ReadSome bs => Forall is_byte bs | _ => True end) answers →
  ∃ st' log' r, read_loop not_empty answers offset total buffer st log = (st', log', r) ∧
    wf st' ∧ grows st st' ∧ userdata st' = userdata st ∧ outside whole st st' ∧
    ∃ s', chars st' whole = Some s' ∧ take (Z.to_nat a) s' = take (Z.to_nat a) s ∧
      match r with
      | inr _ => drop (Z.to_nat a) s' = received answers (Z.to_nat (size buffer)) ∧
                 length (received answers (Z.to_nat (size buffer))) = Z.to_nat (size buffer)
      | inl o => read_stopped answers o
      end.
Proof.
  revert offset total buffer st log s a. induction answers as [|x answers IH];
    intros offset total buffer st log s a W Hw Es Hb Hp Ha; simpl; unfold not_empty at 1;
    pose proof (chars_size _ _ _ Es Hw) as Hl; pose proof Hp as (Hs & Hr & _); case_bool_decide as Hsz.
  - exists st, log, (inl Yields). split_and!; try done. exists s. split_and!; [done..|by left].
  - exists st, log, (inr total). split_and!; try done. exists s. split_and!; [done..| |].
    + rewrite drop_ge; [done|lia].
    + simpl. lia.
  - apply Forall_cons in Ha as [Hx Ha]. destruct x as [bs|e]; simpl.
    2: { exists st, (log ++ [offset]), (inl (Raises e)). split_and!; try done. exists s.
         split_and!; [done..|]. right. exists e. split; [done|by left]. }
    destruct (copy_part st whole a (size buffer) buffer (Chars bs) s bs W Hw) as
      (st1 & -> & W1 & G1 & U1 & Es1 & O1); [by rewrite Hs|done|done|done|].
    set (c := min (length bs) (Z.to_nat (size buffer))) in *.
    assert (handle_wf (buffers st1) buffer) as Hb1 by (by eapply handle_wf_grows).
    destruct (slice_from_part (buffers st1) buffer c Hb1) as (buffer' & -> & Hb' & Hp'); [lia|].
    assert (part whole (a + c) (size whole - (a + c)) buffer') as Hp2.
    { destruct Hp' as (Hs' & Hr' & Hd'). destruct Hp as (_ & _ & Hd). split; [lia|]. split; [lia|].
      destruct (data buffer') as [[b off]|]; [|lia]. destruct Hd' as (o & Eo & ->). rewrite Eo in Hd.
      destruct Hd as (o' & ? & ->). exists o'. split; [done|lia]. }
    destruct (IH (offset + c)%Z (total + c)%Z buffer' st1 (log ++ [offset]) _ (a + c)%Z W1
      (handle_wf_grows _ _ _ G1 Hw) Es1 Hb' Hp2 Ha) as
      (st' & log' & r & -> & W' & G' & U' & O' & s' & Es' & Ht & Hres).
    assert (length (take c bs) = c) as Lc by (rewrite length_take; lia).
    exists st', log', r. split_and!; [done|done|by etrans|congruence|by etrans|]. exists s'. split_and!; [done| |].
    + assert (take (Z.to_nat a) s' = take (Z.to_nat a) (take (Z.to_nat (a + c)) s')) as ->.
      { rewrite take_take. f_equal. lia. }
      rewrite Ht, take_take, Nat.min_l by lia. unfold blit.
      rewrite take_app_le by (rewrite length_take; lia). rewrite take_take. f_equal. lia.
    + destruct r as [o|m].
      { destruct Hres as [?|(e & ? & ?)]; [by left|]. right. exists e. split; [done|by right]. }
      destruct Hres as [Hd Hlen]. rewrite decide_False by lia.
      assert (Z.to_nat (size buffer') = Z.to_nat (size buffer) - length bs) as En.
      { destruct Hp' as (-> & _). lia. }
      rewrite En in Hd, Hlen.
      assert (take (Z.to_nat (size buffer)) bs = take c bs) as Et.
      { unfold c. destruct (decide (length bs ≤ Z.to_nat (size buffer))).
        - rewrite !take_ge by lia. done.
        - f_equal. lia. }
      rewrite Et. split.
      * rewrite <- Hd. rewrite <- (take_drop (Z.to_nat (a + c)) s') at 1. rewrite Ht.
        pose proof (chars_size _ _ _ Es' (handle_wf_grows _ _ _ G' (handle_wf_grows _ _ _ G1 Hw))) as Hl'.
        rewrite drop_app_le.
        2: { rewrite length_take, length_blit; rewrite ?Lc; lia. }
        f_equal. unfold blit. rewrite Lc.
        rewrite app_assoc, take_app_le by (rewrite length_app, length_take, Lc; lia).
        rewrite take_ge by (rewrite length_app, length_take, Lc; lia).
        rewrite drop_app_length'; [done|]. rewrite length_take. lia.
      * rewrite length_app, Lc, Hlen. lia.
  - exists st, log, (inr total). split_and!; try done. exists s. split_and!; [done..| |].
    + replace (Z.to_nat (size buffer)) with 0 by lia. rewrite drop_ge by lia. by destruct x; simpl.
    + replace (Z.to_nat (size buffer)) with 0 by lia. by destruct x.
Qed.

(** C23 Reading all fills the buffer with what the stream gave, in order and without
    gaps; it returns only when the buffer is full.  Whether it returns or is stopped
    by an error or by a stream that gives no more, it makes no userdata and no octet
    outside of the span changes, in its buffer or in others ([outside]). *)
Theorem read_all_fills answers offset buffer st :
  wf st → handle_wf (buffers st) buffer →
  Forall (λ x, match x with ReadSome bs => Forall is_byte bs | _ => True end) answers →
  ∃ st' log r, read_all_at answers offset buffer st = (st', log, r) ∧
    wf st' ∧ grows st st' ∧ userdata st' = userdata st ∧
    outside buffer st st' ∧
    match r with
    | inr n => n = size buffer ∧
        chars st' buffer = Some (received answers (Z.to_nat n)) ∧
        length (received answers (Z.to_nat n)) = Z.to_nat n
    | inl o => read_stopped answers o
    end.
Proof.
  intros W Hb Ha. destruct (chars_ok _ _ W Hb) as (s & Es & Hl & _).
  destruct (read_loop_spec answers offset 0 buffer buffer st [] s 0 W Hb Es Hb) as
    (st' & log & r & E & W' & G & U & O & s' & Es' & _ & Hr); [|done|].
  { split; [lia|]. split; [lia|]. destruct (data buffer) as [[b off]|] eqn:Ed.
    - exists off. split; [done|lia].
    - unfold handle_wf in Hb. rewrite Ed in Hb. lia. }
  unfold read_all_at. rewrite E. destruct r as [o|n].
  - by exists st', log, (inl o).
  - exists st', log, (inr (size buffer)). split_and!; try done; [|apply Hr].
    rewrite Es'. f_equal. apply Hr.
Qed.
End transfers.

(** * Examples *)
Module Examples.
Import FilledAllocator.
(** A buffer of five octets, and a stream that takes or gives some at a time. *)
Definition buffer : byte_span_handle := Handle (Some (0, 0%Z)) 5 5.
Definition st0 : store := Store [lit "hello"] [].
Definition takes : list write_answer := [WriteSome 2; WriteSome 1; WriteSome 9].
Definition gives : list read_answer := [ReadSome (lit "by"); ReadSome []; ReadSome (lit "eb"); ReadSome (lit "ye")].

Example written_in_parts :
  write_all_at takes 10 buffer st0 = ([(10, lit "he"); (12, lit "l"); (13, lit "lo")]%Z, inr 5%Z).
Proof. by vm_compute. Qed.
Example filled_in_parts :
  let '(st, log, r) := read_all_at gives 10 buffer st0 in
  (buffers st, log, r) = ([lit "byeby"], [10; 12; 12; 14]%Z, inr 5%Z).
Proof. by vm_compute. Qed.

Lemma buffer_ok : handle_wf (buffers st0) buffer.
Proof. unfold handle_wf, int64_max. simpl. split; [lia|]. eexists. split; [done|]. by vm_compute. Qed.
Lemma store_ok : wf st0.
Proof. split; [intros u bs Hu; by destruct u|]. repeat constructor; by vm_compute. Qed.

Lemma write_all_complete_witness :
  ∃ new r, write_all_at takes 10 buffer st0 = (new, r) ∧ contiguous 10 new ∧
    match r with
    | inr n => octets new = lit "hello" ∧ n = length (lit "hello")
    | inl o => octets new `prefix_of` lit "hello" ∧ write_stopped takes o
    end ∧
    (Forall (λ a, ∃ n, a = WriteSome (S n)) takes → length (lit "hello") ≤ length takes →
      r = inr (Z.of_nat (length (lit "hello")))).
Proof. apply write_all_complete; [apply buffer_ok|done]. Defined.
Lemma read_all_fills_witness :
  ∃ st' log r, read_all_at gives 10 buffer st0 = (st', log, r) ∧
    wf st' ∧ grows st0 st' ∧ userdata st' = userdata st0 ∧
    outside buffer st0 st' ∧
    match r with
    | inr n => n = size buffer ∧
        chars st' buffer = Some (received gives (Z.to_nat n)) ∧
        length (received gives (Z.to_nat n)) = Z.to_nat n
    | inl o => read_stopped gives o
    end.
Proof. apply read_all_fills; [apply store_ok|apply buffer_ok|]. repeat constructor; by vm_compute. Defined.
End Examples.
