(* ===== verification/ScannerSpec.v ===== *)
(** What the scanner of [Stream] promises: the records of a stream do not depend on
    how its octets arrive, and none is lost. *)
From S2P Require Import Prelude Errors Lua StringView ByteSpan ByteSpanFacts ByteSpanSafety ByteSpanSpec.
From S2P Require Import CoreErrors ErrorObjects Regex RegexSpec Stream TransferSpec.

Section scanner.
Context `{LuaApi} `{Allocator} `{RegexLaws} `{!UserCode} `{ErrorNumbers}.
Context (raw_equal : ErrObj.field → ErrObj.field → bool).

(** * Splitting at a string *)

(** The parts of a text between the occurrences of [sep], looked for from left to
    right. *)
Inductive splits (sep : bytes) : bytes → list bytes → Prop :=
| splits_last l : find l sep 0 = None → splits sep l [l]
| splits_next f rest fs :
    find (f ++ sep ++ rest) sep 0 = Some (length f) → splits sep rest fs →
    splits sep (f ++ sep ++ rest) (f :: fs).

Lemma splits_unique sep l fs fs' : splits sep l fs → splits sep l fs' → fs = fs'.
Proof.
  intros S. revert fs'. induction S as [l Hn|f rest fs Hf S IH]; intros fs' S'.
  - by inversion S'; simplify_eq.
  - remember (f ++ sep ++ rest) as l eqn:El. destruct S' as [l Hn|f' rest' fs2 Hf' S2]; [congruence|].
    assert (length f' = length f) as Hlen by congruence.
    apply app_inj_1 in El as [-> El]; [|done]. apply app_inj_1 in El as [_ ->]; [|done].
    f_equal. by apply IH.
Qed.

(** * Fields *)

(** The entries of a table, from 1 on, have these texts, and there are no more. *)
Definition has_fields (st : regex_state) (t : loc) (ts : list bytes) : Prop :=
  ∃ tb, tables st !! t = Some tb ∧
    ∀ i : nat, (tb !! inl (1 + Z.of_nat i)%Z ≫= value_text st) = ts !! i.

(** What is made of a record: itself, or the table of its fields. *)
Definition delivered (s : scanner) (st : regex_state) (o : outcome) (l : bytes) : Prop :=
  match field_separator s, field_pattern s with
  | NoSeparator, None => ∃ v, o = Returns [v] ∧ value_text st v = Some l
  | FieldString sep, _ =>
      ∃ t fields, o = Returns [LTable t] ∧ has_fields st t fields ∧
        if decide (l = []) then fields = [] else splits sep l fields
  | _, _ => o ≠ Undefined
  end.
(** A function of the program may do anything; the empty string separates without
    end; what is trimmed is given as a string. *)
Definition regular (s : scanner) : Prop :=
  match field_separator s with FieldFunction _ => False | FieldString sep => sep ≠ [] | _ => True end ∧
  match trim_record s with Some (Region _ _ _) => False | _ => True end.

Lemma string_fields_ok fuel sep line st l :
  sep ≠ [] → handle_wf (buffers st) line → chars st line = Some l → length l < fuel →
  ∃ hs fs, string_fields fuel sep line st = Some (inr hs) ∧ splits sep l fs ∧
    Forall2 (λ h f, handle_wf (buffers st) h ∧ chars st h = Some f) hs fs.
Proof.
  intros Hsep. revert line l. induction fuel as [|fuel IH]; intros line l Hw Ec Hf; [lia|]. simpl.
  rewrite (find_chars _ _ _ _ Ec Hw Hsep). destruct (find l sep 0) as [i|] eqn:Ei.
  2: { exists [line], [l]. split_and!; [done|by constructor|]. by repeat constructor. }
  destruct (find_cut _ _ _ Ei) as [El Hi]. pose proof (chars_size _ _ _ Ec Hw) as Hl.
  destruct (slice_part (buffers st) line 0 i Hw) as (h & Eh & Hh & Hp); [lia..|].
  change (1 + 0)%Z with 1%Z in Eh. rewrite Eh.
  destruct (slice_from_part (buffers st) line (i + length sep)%Z Hw) as (rest & Er & Hr & Hp'); [lia|].
  replace (S i + length sep)%Z with (1 + (i + length sep))%Z by lia. rewrite Er.
  pose proof (part_chars _ _ _ _ _ _ Hp Ec) as Ech. pose proof (part_chars _ _ _ _ _ _ Hp' Ec) as Ecr.
  assert (window (Z.to_nat 0) (Z.to_nat (i - 0)) l = take i l) as E1.
  { unfold window. simpl. f_equal. lia. }
  assert (window (Z.to_nat (i + length sep)) (Z.to_nat (size line - (i + length sep))) l =
    drop (i + length sep) l) as E2.
  { unfold window. rewrite take_ge by (rewrite length_drop; lia). f_equal. lia. }
  rewrite E1 in Ech. rewrite E2 in Ecr.
  assert (length sep ≠ 0) by (by destruct sep).
  destruct (IH rest _ Hr Ecr) as (hs & fs & -> & Hs & HF); [rewrite length_drop; lia|].
  exists (h :: hs), (take i l :: fs). split_and!; [done| |by constructor].
  rewrite El at 1. constructor; [|done]. rewrite <- El, Ei. f_equal. rewrite length_take. lia.
Qed.

Lemma push_fields_ok hs fs st st' vs :
  Forall2 (λ h f, handle_wf (buffers (spans st)) h ∧ chars (spans st) h = Some f) hs fs →
  push_handles hs st = (st', vs) →
  adds st st' ∧ regexes st' = regexes st ∧ Forall2 (λ v f, value_text st' v = Some f) vs fs.
Proof.
  revert st fs vs. induction hs as [|h hs IH]; simpl; intros st fs vs HF E.
  { injection E as <- <-. apply Forall2_nil_inv_l in HF as ->. by split_and!. }
  apply Forall2_cons_inv_l in HF as (f & fs' & [Hw Hc] & HF & ->).
  pose proof (adds_span h st (λ _, Hw)) as A. destruct (push_handles hs (new_span h st).1) as [st2 vs2] eqn:E2.
  cbn in E2. unfold new_span in E. simpl in E. rewrite E2 in E. injection E as <- <-.
  destruct (IH (new_span h st).1 fs' vs2) as (A2 & R2 & T2); [by simpl|exact E2|].
  split_and!; [by etrans|done|]. constructor; [|done].
  apply (adds_text _ _ _ _ A2). simpl. by rewrite lookup_app_r, Nat.sub_diag.
Qed.

Lemma deliver_ok at_eof s line st l :
  wf (spans st) → typed st → regular s → handle_wf (buffers (spans st)) line →
  chars (spans st) line = Some l →
  ∃ st' o, deliver at_eof s line st = (st', o) ∧ adds st st' ∧ typed st' ∧ delivered s st' o l.
Proof.
  intros W T [Hreg _] Hw Ec. unfold deliver, delivered in *.
  pose proof (read_chars _ _ _ Ec) as Er. pose proof (chars_size _ _ _ Ec Hw) as Hl.
  destruct (field_separator s) as [|sep|r|f] eqn:Ef; [| | |done].
  - destruct (field_pattern s) as [r|].
    + rewrite Er. simpl. destruct (patsplit_kept r (Some line) l st T (conj Hw Ec)) as [A T' D].
      destruct (patsplit_source r (Some line) l st) as [st' o]. by exists st', o.
    + unfold push_handle. pose proof (adds_span line st (λ _, Hw)) as A.
      eexists _, _. split; [done|]. split_and!; [exact A|by eapply typed_adds|].
      eexists. split; [done|]. simpl. by rewrite lookup_app_r, Nat.sub_diag.
  - case_decide as Hz.
    + pose proof (adds_table ∅ st) as A. eexists _, _. split; [done|].
      split_and!; [exact A|by eapply typed_adds|]. exists (length (tables st)), []. split_and!; [done| |].
      * exists ∅. split; [simpl; by rewrite lookup_app_r, Nat.sub_diag|]. intros i. by rewrite lookup_empty.
      * rewrite decide_True; [done|]. destruct l; simpl in *; [done|lia].
    + destruct (string_fields_ok (S (Z.to_nat (size line))) sep line (spans st) l) as (hs & fs & -> & Hs & HF);
        [done..|lia|].
      destruct (push_handles hs st) as [st1 vs] eqn:E.
      destruct (push_fields_ok _ _ _ _ _ HF E) as (A & R & HT).
      pose proof (adds_table (array 1 vs) st1) as A1. eexists _, _. split; [done|].
      split_and!; [by etrans|eapply typed_adds; [exact T|exact R|by etrans]|].
      exists (length (tables st1)), fs. split_and!; [done| |].
      * exists (array 1 vs). split; [simpl; by rewrite lookup_app_r, Nat.sub_diag|]. intros i.
        rewrite array_lookup. destruct (vs !! i) as [v|] eqn:Ev; simpl.
        -- destruct (Forall2_lookup_l _ _ _ _ _ HT Ev) as (f & -> & Hv). by apply (adds_text _ _ _ _ A1).
        -- symmetry. apply lookup_ge_None. rewrite <- (Forall2_length _ _ _ HT). by apply lookup_ge_None.
      * rewrite decide_False; [done|]. intros ->. simpl in *. lia.
  - rewrite Er. simpl. destruct (split_kept r (Some line) l st T (conj Hw Ec)) as [A T' D].
    destruct (split_source r (Some line) l st) as [st' o]. by exists st', o.
Qed.
(** * Trimming *)
Definition trimmed (s : scanner) (l t : bytes) : Prop :=
  match trim_record s with
  | Some (Chars lws) =>
      ∃ a b, l = a ++ t ++ b ∧ Forall (.∈ lws) a ∧ Forall (.∈ lws) b ∧
        (∀ c, head t = Some c → c ∉ lws) ∧ (∀ c, last t = Some c → c ∉ lws)
  | _ => t = l
  end.
Lemma trim_ok s line st l :
  regular s → handle_wf (buffers st) line → chars st line = Some l →
  ∃ h t, trim s line st = inr h ∧ handle_wf (buffers st) h ∧ chars st h = Some t ∧ trimmed s l t ∧
    (size h ≤ size line)%Z ∧ (trim_record s = None → h = line).
Proof.
  intros [_ Hreg] Hw Ec. unfold trim, trimmed. destruct (trim_record s) as [[lws|]|]; [|done|].
  2: { exists line, l. by split_and!. }
  unfold trimmed_of. rewrite (read_chars _ _ _ Ec). simpl. pose proof (chars_size _ _ _ Ec Hw) as Hl.
  destruct (find_first_not_of l lws 0) as [i|] eqn:Ei.
  2: { exists null_handle, []. split_and!; try done; [|simpl; lia].
       exists l, []. rewrite app_nil_r. split_and!; try done. by apply find_first_not_of_None. }
  destruct (first_last_not_of_split _ _ _ Ei) as (j & Ej & Hij & Hfront & Hback). rewrite Ej.
  pose proof Ei as (Hi & Hpi & _)%find_up_Some. pose proof Ej as (Hj & Hpj & _)%find_down_Some.
  apply not_in_at_true in Hpi as (ci & Hci & Hni). apply not_in_at_true in Hpj as (cj & Hcj & Hnj).
  apply lookup_lt_Some in Hci as Hlti. apply lookup_lt_Some in Hcj as Hltj.
  unfold handle_wf in Hw. destruct (data line) as [[b off]|] eqn:Ed; [|lia].
  destruct Hw as ((? & ? & ?) & buf & Eb & ?).
  set (h := Handle (Some (b, off + i)%Z) (j - i + 1) (capacity line - i)).
  assert (part line i (j - i + 1) h) as Hp.
  { split; simpl; [lia|]. split; [lia|]. exists off. by split. }
  exists h, (window i (j - i + 1) l). split_and!; try done; [| | |simpl; lia].
  - unfold handle_wf. simpl. split; [lia|]. exists buf. split; [done|lia].
  - rewrite (part_chars _ _ _ _ _ _ Hp Ec). do 2 f_equal; lia.
  - exists (take i l), (drop (S j) l). split_and!; [|done|done| |].
    + symmetry. replace (S j) with (i + (j - i + 1)) by lia. apply window_split.
    + intros c. rewrite head_lookup, window_lookup, Nat.add_0_r by lia. rewrite Hci. by intros [= <-].
    + intros c. rewrite last_lookup, length_window by lia. rewrite window_lookup by lia.
      replace (i + pred (j - i + 1)) with j by lia. rewrite Hcj. by intros [= <-].
Qed.

(** * The state of a scanner *)
Record scanner_ok (st : scan_state) : Prop := {
  ok_wf : wf (memory st);
  ok_typed : typed (lua st);
  ok_buffer : handle_wf (buffers (memory st)) (buffer_ (self st));
  ok_sizes : (0 ≤ record_size (self st) ≤ buffer_used (self st))%Z ∧
    (buffer_used (self st) ≤ size (buffer_ (self st)))%Z;
  ok_max : (max_record_size (self st) ≤ int64_max)%Z;
  ok_regular : regular (self st);
  ok_octets : Forall (λ x, match x with ReadSome bs => Forall is_byte bs | _ => True end) (incoming st);
}.

(** The octets that were read and not returned yet, ... *)
Definition pending (st : scan_state) : bytes :=
  match chars (memory st) (buffer_ (self st)) with
  | Some s => window (Z.to_nat (record_size (self st)))
                (Z.to_nat (buffer_used (self st) - record_size (self st))) s
  | None => []
  end.
(** ... and all those that will come before the next error. *)
Fixpoint octets (l : list read_answer) : bytes :=
  match l with ReadSome bs :: l => bs ++ octets l | _ => [] end.
(** The next error of the stream. *)
Fixpoint next_error (l : list read_answer) : option lua_error :=
  match l with ReadSome _ :: l => next_error l | ReadFails e :: _ => Some e | [] => None end.
Definition ahead (st : scan_state) : bytes := pending st ++ octets (incoming st).

(** The options of a scanner. *)
Definition options_of (s : scanner) :=
  (record_separator s, trim_record s, field_separator s, field_pattern s, max_record_size s).

Lemma options_separator s s' : options_of s = options_of s' → record_separator s = record_separator s'.
Proof. by intros [= E _ _ _ _]. Qed.

(** Inside of [get_line]: the window and the buffer hold what is pending. *)
Record reading (st : scan_state) (wnd : byte_span_handle) (p : bytes) : Prop := {
  reading_ok : scanner_ok st;
  reading_zero : record_size (self st) = 0%Z;
  reading_used : buffer_used (self st) = length p;
  reading_wnd : handle_wf (buffers (memory st)) wnd;
  reading_chars : chars (memory st) wnd = Some p;
  reading_text : ∃ s, chars (memory st) (buffer_ (self st)) = Some s ∧ take (length p) s = p;
}.
Lemma reading_pending st wnd p : reading st wnd p → pending st = p.
Proof.
  intros [_ E0 Eu _ _ (s & Es & Ep)]. unfold pending. rewrite Es, E0, Eu. unfold window. simpl.
  replace (Z.to_nat (length p - 0)) with (length p) by lia. done.
Qed.
(** Changes of the memory and of the counters. *)
Lemma scanner_ok_moves st m sc l :
  scanner_ok st → wf m → userdata m = userdata (memory st) → handle_wf (buffers m) (buffer_ sc) →
  (0 ≤ record_size sc ≤ buffer_used sc)%Z → (buffer_used sc ≤ size (buffer_ sc))%Z →
  options_of sc = options_of (self st) →
  Forall (λ x, match x with ReadSome bs => Forall is_byte bs | _ => True end) l →
  scanner_ok (ScanState (with_spans (λ _, m) (lua st)) sc l).
Proof.
  intros [] W U Hb Hr Hu [= Eo1 Eo2 Eo3 Eo4 Eo5] Hl. split; simpl; try done.
  - intros u Hu'. simpl. rewrite U. by apply ok_typed0.
  - by rewrite Eo5.
  - unfold regular in *. by rewrite Eo2, Eo3.
Qed.

(** [shift_buffer] drops what was returned and keeps what is pending. *)
Lemma shift_ok st :
  scanner_ok st →
  ∃ st' wnd, shift_buffer st = inr (st', wnd) ∧ reading st' wnd (pending st) ∧
    incoming st' = incoming st ∧ options_of (self st') = options_of (self st).
Proof.
  intros I. pose proof I as [W T Hb [Hr Hu] Hm Hreg Ho]. unfold shift_buffer.
  destruct (chars_ok _ _ W Hb) as (s & Es & Hl & _).
  set (n := (buffer_used (self st) - record_size (self st))%Z).
  destruct (slice_part (buffers (memory st)) (buffer_ (self st)) 0 n Hb) as (wnd & Ew & Hw & Hp); [lia..|].
  change (1 + 0)%Z with 1%Z in Ew. rewrite Ew. rewrite Z.sub_0_r in Hp.
  assert (pending st = window (Z.to_nat (record_size (self st))) (Z.to_nat n) s) as Ep.
  { unfold pending. by rewrite Es. }
  assert (length (pending st) = Z.to_nat n) as Lp by (rewrite Ep, length_window; lia).
  case_decide as Hrec.
  - destruct (slice_from_part (buffers (memory st)) (buffer_ (self st)) (record_size (self st)) Hb)
      as (rest & -> & Hrest & Hp'); [lia|].
    pose proof (part_chars _ _ _ _ _ _ Hp' Es) as Erest.
    destruct (copy_part (memory st) (buffer_ (self st)) 0 n wnd (as_string_view rest) s _ W Hb Hp Es
      (as_string_view_ok _ _ Hrest) Erest) as (m & -> & W' & G & U & Em & _).
    eexists _, wnd. split; [done|]. split_and!; [|done|done].
    set (t := window _ _ s) in Em. assert (length t = Z.to_nat (size (buffer_ (self st)) - record_size (self st))) as Lt.
    { unfold t. rewrite length_window; lia. }
    assert (take (min (length t) (Z.to_nat n)) t = pending st) as Et.
    { rewrite Ep. unfold t, window. rewrite length_take, length_drop, take_take. f_equal. lia. }
    rewrite Et in Em. unfold blit in Em. simpl in Em.
    split; simpl; try lia.
    + apply (scanner_ok_moves st m (with_used _ _ _)); simpl; try done; [by eapply handle_wf_grows|lia..].
    + by eapply handle_wf_grows.
    + pose proof (part_chars _ _ _ _ _ _ Hp Em) as Ec. unfold memory. simpl. rewrite Ec. f_equal.
      by apply window_front.
    + exists (pending st ++ drop (length (pending st)) s). split; [exact Em|]. by rewrite take_app_length.
  - exists st, wnd. assert (record_size (self st) = 0%Z) as E0 by lia. split_and!; [done| |done..].
    split; try done; [lia| |].
    + rewrite (part_chars _ _ _ _ _ _ Hp Es), Ep, E0. done.
    + exists s. split; [done|]. rewrite Lp, Ep, E0. done.
Qed.

(** [grow_buffer] makes room, or the buffer cannot grow. *)
Lemma grow_ok st wnd p :
  reading st wnd p →
  match grow_buffer st with
  | inl o => o = raise message_size ∧ size (buffer_ (self st)) = length p ∧
      ((max_record_size (self st) ≤ length p)%Z ∨ p = [])
  | inr st' => reading st' wnd p ∧ (buffer_used (self st') < size (buffer_ (self st')))%Z ∧
      incoming st' = incoming st ∧ options_of (self st') = options_of (self st)
  end.
Proof.
  intros R. pose proof R as [I E0 Eu Hw Ec (s & Es & Ep)]. pose proof I as [W T Hb [Hr Hu] Hm Hreg Ho].
  unfold grow_buffer. case_decide as Hfull; [|by split_and!; [|lia| |]]. cbn zeta.
  pose proof (chars_size _ _ _ Es Hb) as Hl.
  set (new_size := if decide (size (buffer_ (self st)) * 2 > max_record_size (self st))%Z then _ else _).
  case_decide as Hge.
  { split_and!; [done|lia|]. unfold new_size in Hge. case_decide; [left; lia|right].
    apply length_zero_iff_nil. lia. }
  assert (0 < new_size ≤ int64_max)%Z as Hn.
  { split; [lia|]. unfold new_size in *. case_decide; lia. }
  destruct (new_ok new_size (memory st) W Hn) as (m & bs & u & -> & W1 & G1 & Hbs & U1 & Esz & Ebs & Lu & Enew & Keep).
  assert (part bs 0 new_size bs) as Hp.
  { split; [done|]. split; [lia|]. destruct (data bs) as [[b off]|] eqn:Ed.
    - exists off. split; [done|lia].
    - unfold handle_wf in Hbs. rewrite Ed in Hbs. lia. }
  destruct (copy_part m bs 0 new_size bs (as_string_view (buffer_ (self st))) u s W1 Hbs Hp Ebs)
    as (m' & -> & W2 & G2 & U2 & Em & [Other _]).
  { apply as_string_view_ok. by eapply handle_wf_grows. }
  { eapply chars_kept; [|exact Es]. intros b buf _. apply Keep. }
  assert (take (min (length s) (Z.to_nat new_size)) s = s) as Et by (apply take_ge; lia).
  rewrite Et in Em. unfold blit in Em. simpl in Em.
  assert (handle_wf (buffers m') bs) as Hbs' by (by eapply handle_wf_grows).
  split_and!; [|simpl; rewrite Esz; lia|done|done]. split; simpl; try done.
  - apply (scanner_ok_moves st m' (with_buffer _ _)); simpl; try done; [by rewrite U2|rewrite Esz; lia].
  - by eapply handle_wf_grows, handle_wf_grows.
  - eapply chars_kept; [|exact Ec]. intros b buf Eb Hb0. simpl. rewrite Other; [by apply Keep|].
    rewrite Enew. intros [= <-]. apply lookup_lt_Some in Hb0. unfold memory in Hb0. lia.
  - exists (s ++ drop (length s) u). split; [done|]. rewrite take_app_le by lia. done.
Qed.

(** A read adds what fits to what is pending, and leaves the rest to come. *)
Lemma read_ok st wnd p bs answers :
  reading st wnd p → (buffer_used (self st) < size (buffer_ (self st)))%Z →
  incoming st = ReadSome bs :: answers →
  ∃ buffer st1 nread wnd' q, slice_from (buffer_ (self st)) (1 + buffer_used (self st)) = inr buffer ∧
    scanner_read bs answers buffer st = inr (st1, nread) ∧
    let st' := with_self (λ s, with_used (buffer_used s + nread) (record_size s) s) st1 in
    slice_of (buffer_ (self st')) 1 (buffer_used (self st')) = inr wnd' ∧ reading st' wnd' (p ++ q) ∧
    q ++ octets (incoming st') = bs ++ octets answers ∧
    next_error (incoming st') = next_error (incoming st) ∧ weight (incoming st') < weight (incoming st) ∧
    options_of (self st') = options_of (self st).
Proof.
  intros R Hroom Ei. pose proof R as [I E0 Eu Hw Ec (s & Es & Ep)]. pose proof I as [W T Hb [Hr Hu] Hm Hreg Ho].
  pose proof (chars_size _ _ _ Es Hb) as Hl. rewrite Ei in Ho. apply Forall_cons in Ho as [Hbs Ho].
  destruct (slice_from_part (buffers (memory st)) (buffer_ (self st)) (buffer_used (self st)) Hb)
    as (buffer & Eb & Hbuf & Hp); [lia|].
  destruct (copy_part (memory st) (buffer_ (self st)) _ _ buffer (Chars bs) s bs W Hb Hp Es Hbs eq_refl)
    as (m & Ecopy & W' & G & U & Em & _).
  set (c := min (length bs) _) in *.
  assert (handle_wf (buffers m) (buffer_ (self st))) as Hb' by (by eapply handle_wf_grows).
  set (used := (buffer_used (self st) + c)%Z).
  destruct (slice_part (buffers m) (buffer_ (self st)) 0 used Hb') as (wnd' & Ew & Hw' & Hp'); [lia|lia|].
  assert (length (take c bs) = c) as Lc by (rewrite length_take; lia).
  assert (window 0 (length p + c) (blit (Z.to_nat (buffer_used (self st))) (take c bs) s) = p ++ take c bs) as Ewin.
  { rewrite Eu, Nat2Z.id. rewrite <- Lc at 1. pose proof (window_blit_after 0 (length p) (take c bs) s) as Wb.
    simpl in Wb. rewrite Wb by lia. f_equal. exact Ep. }
  exists buffer. eexists _, (Z.of_nat c), wnd', (take c bs). split; [done|]. unfold scanner_read. rewrite Ecopy, Nat2Z.id.
  split; [done|]. cbn zeta. simpl. change (1 + 0)%Z with 1%Z in Ew. split; [exact Ew|].
  assert (c ≠ 0 ∨ bs = []) as Hc.
  { destruct (decide (length bs = 0)); [right; by apply length_zero_iff_nil|left; unfold c; lia]. }
  split_and!; [split; simpl| | | |done].
  - apply (scanner_ok_moves st m (with_used _ _ _)); simpl; try done; [lia..|].
    case_decide; [done|]. constructor; [by apply Forall_drop|done].
  - done.
  - rewrite length_app, Lc. unfold used in *. lia.
  - done.
  - unfold memory. simpl. rewrite (part_chars _ _ _ _ _ _ Hp' Em), <- Ewin. f_equal. f_equal.
    unfold used. lia.
  - exists (blit (Z.to_nat (buffer_used (self st))) (take c bs) s). split; [exact Em|].
    unfold window in Ewin. simpl in Ewin. rewrite <- Ewin at 2. f_equal. rewrite length_app. lia.
  - case_decide as Ed; simpl.
    + rewrite <- (take_drop c bs) at 2. by rewrite Ed, app_nil_r.
    + by rewrite app_assoc, take_drop.
  - rewrite Ei. simpl. by case_decide.
  - rewrite Ei. simpl. case_decide; simpl; [lia|]. rewrite length_drop.
    destruct Hc as [?| ->]; [lia|]. by rewrite drop_nil in *.
Qed.

(** * A call *)

(** What a call does to the octets [c] that were ahead. *)
Inductive line_result (sep c : bytes) (st st' : scan_state) (o : outcome) : Prop :=
| got_record l t :
    c = l ++ sep ++ ahead st' → find c sep 0 = Some (length l) →
    record_terminator (self st') = Some (TerminatorString sep) →
    trimmed (self st) l t → delivered (self st) (lua st') o t →
    line_result sep c st st' o
| got_last t e :
    next_error (incoming st) = Some e → is_EEOF raw_equal e = true → c ≠ [] → find c sep 0 = None → record_terminator (self st') = Some (TerminatorString []) →
    (trim_record (self st) = None → pending st' = []) →
    trimmed (self st) c t → delivered (self st) (lua st') o t →
    line_result sep c st st' o
| failed e :
    next_error (incoming st) = Some e → o = Raises e → pending st' = c → find c sep 0 = None → is_EEOF raw_equal e = false ∨ c = [] →
    line_result sep c st st' o
| too_long :
    o = raise message_size → ahead st' = c → find (pending st') sep 0 = None →
    (max_record_size (self st) ≤ length (pending st'))%Z ∨ pending st' = [] →
    line_result sep c st st' o
| waits :
    next_error (incoming st) = None → o = Yields → incoming st' = [] → pending st' = c → find c sep 0 = None →
    line_result sep c st st' o.

(** A record leaves its VM, which only gets new objects. *)
Lemma deliver_in_ok at_eof line st l :
  scanner_ok st → handle_wf (buffers (memory st)) line → chars (memory st) line = Some l →
  ∃ st' o, deliver_in at_eof line st = (st', o) ∧ scanner_ok st' ∧ pending st' = pending st ∧
    incoming st' = incoming st ∧ self st' = self st ∧ delivered (self st) (lua st') o l.
Proof.
  intros [W T Hb Hs Hm Hreg Ho] Hw Ec. unfold deliver_in.
  destruct (deliver_ok at_eof (self st) line (lua st) l W T Hreg Hw Ec) as (l' & o & -> & A & T' & D).
  pose proof (adds_buffers _ _ A) as EB.
  eexists _, o. split; [done|]. split_and!; try done.
  - split; simpl; try done; unfold memory; simpl; [by apply A|by rewrite EB].
  - unfold pending, memory, chars. simpl. by rewrite (load_same _ _ _ EB).
Qed.

Lemma find_record_ok s wnd st sep p :
  record_separator s = SepString sep → sep ≠ [] → handle_wf (buffers st) wnd → chars st wnd = Some p →
  find_record s wnd st =
    inr ((λ i, (Z.of_nat i, TerminatorString sep, (i + length sep)%Z)) <$> find p sep 0).
Proof.
  intros Es Hsep Hw Ec. unfold find_record. rewrite Es, (find_chars _ _ _ _ Ec Hw Hsep).
  by destruct (find p sep 0).
Qed.

(** The record that is found. *)
Lemma record_ok sep st wnd p i :
  reading st wnd p → find p sep 0 = Some i →
  let st1 := with_self (λ s, with_used (buffer_used s) (i + length sep)
               (with_terminator (Some (TerminatorString sep)) s)) st in
  ∃ line h st' o, slice_of wnd 1 i = inr line ∧ trim (self st1) line (memory st1) = inr h ∧
    deliver_in false h (with_self count_record st1) = (st', o) ∧ scanner_ok st' ∧
    options_of (self st') = options_of (self st) ∧
    line_result sep (p ++ octets (incoming st)) st st' o.
Proof.
  intros R Ei st1. destruct (find_cut _ _ _ Ei) as [El Hi].
  pose proof R as [I E0 Eu Hw Ec (s & Es & Ep)]. pose proof I as [W T Hb [Hr Hu] Hm Hreg Ho].
  pose proof (chars_size _ _ _ Ec Hw) as Hl. pose proof (chars_size _ _ _ Es Hb) as Hls.
  destruct (slice_part (buffers (memory st)) wnd 0 i Hw) as (line & Eline & Hline & Hp); [lia..|].
  change (1 + 0)%Z with 1%Z in Eline. pose proof (part_chars _ _ _ _ _ _ Hp Ec) as Ecl.
  assert (window (Z.to_nat 0) (Z.to_nat (i - 0)) p = take i p) as Et.
  { unfold window. simpl. f_equal. lia. }
  rewrite Et in Ecl.
  destruct (trim_ok (self st1) line (memory st) (take i p)) as (h & t & Eh & Hh & Ech & Htrim & _); [done..|].
  assert (scanner_ok (with_self count_record st1)) as I1.
  { split; simpl; try done; lia. }
  assert (pending (with_self count_record st1) = drop (i + length sep) p) as Epend.
  { unfold pending, memory. simpl. unfold memory in Es. rewrite Es, <- Ep. unfold window.
    rewrite skipn_firstn_comm. f_equal; [lia|f_equal; lia]. }
  destruct (deliver_in_ok false h (with_self count_record st1) t I1 Hh Ech) as
    (st' & o & Ed & I' & Ep' & Ei' & Es' & D).
  exists line, h, st', o. split_and!; try done; [by rewrite Es'|].
  apply (got_record _ _ _ _ _ (take i p) t); try done.
  - unfold ahead. rewrite Ep', Epend, Ei'. simpl. by rewrite !app_assoc, <- (app_assoc (take i p)), <- El.
  - rewrite length_take, Nat.min_l by lia. by apply find_app.
  - by rewrite Es'.
Qed.

(** The record without an end. *)
Lemma last_record_ok sep st wnd p e :
  reading st wnd p → record_separator (self st) = SepString sep → p ≠ [] → find p sep 0 = None →
  is_EEOF raw_equal e = true →
  ∃ st' o, last_record wnd st = (st', o) ∧ scanner_ok st' ∧ options_of (self st') = options_of (self st) ∧
    ∀ st0, next_error (incoming st0) = Some e → options_of (self st0) = options_of (self st) → line_result sep p st0 st' o.
Proof.
  intros R Esep Hp Hf He. pose proof R as [I E0 Eu Hw Ec (s & Es & Ep)].
  pose proof I as [W T Hb [Hr Hu] Hm Hreg Ho].
  pose proof (chars_size _ _ _ Ec Hw) as Hl. unfold last_record. rewrite Esep.
  destruct (trim_ok (self st) wnd (memory st) p) as (h & t & -> & Hh & Ech & Htrim & Hsz & Hsame); [done..|].
  simpl. pose proof (chars_size _ _ _ Ech Hh) as Hlt.
  set (st1 := with_self _ st).
  assert (scanner_ok st1) as I1 by (split; simpl; try done; lia).
  destruct (deliver_in_ok true h st1 t I1 Hh Ech) as (st' & o & -> & I' & Ep' & Ei' & Es' & D).
  exists st', o. split_and!; [done|done|by rewrite Es'|].
  intros st0 Hne [= Eo1 Eo2 Eo3 Eo4 Eo5].
  apply (got_last _ _ _ _ _ t e); try done.
  - by rewrite Es'.
  - rewrite Eo2. intros Hn. rewrite Ep'. unfold pending, memory, st1. simpl. unfold memory in Es. rewrite Es.
    rewrite (Hsame Hn), Eu. replace (Z.to_nat (length p - size wnd)) with 0 by lia. done.
  - unfold trimmed in *. by rewrite Eo2.
  - unfold delivered in *. simpl in D. by rewrite Eo3, Eo4.
Qed.

Lemma line_result_options sep c st st0 st' o :
  options_of (self st) = options_of (self st0) →
  next_error (incoming st) = next_error (incoming st0) →
  line_result sep c st st' o → line_result sep c st0 st' o.
Proof.
  intros [= Eo1 Eo2 Eo3 Eo4 Eo5] En R.
  destruct R as [l t ? ? ? Ht D|t e ? ? ? ? ? Hn Ht D|e ? ? ? ? ?|? ? ? ?|? ? ? ? ?].
  - eapply (got_record _ _ _ _ _ l t); try done.
    + unfold trimmed in *. by rewrite <- Eo2.
    + unfold delivered in *. by rewrite <- Eo3, <- Eo4.
  - eapply (got_last _ _ _ _ _ t e); try done; try congruence.
    + by rewrite <- Eo2.
    + unfold trimmed in *. by rewrite <- Eo2.
    + unfold delivered in *. by rewrite <- Eo3, <- Eo4.
  - eapply failed; try done; congruence.
  - apply too_long; try done. by rewrite <- Eo5.
  - apply waits; try done; congruence.
Qed.

(** The stream fails, or ends. *)
Lemma stream_failed_ok sep st wnd p e answers :
  reading st wnd p → record_separator (self st) = SepString sep → find p sep 0 = None →
  incoming st = ReadFails e :: answers →
  ∃ st' o, (let st := with_incoming answers st in
      if negb (is_EEOF raw_equal e) || bool_decide (size wnd = 0)%Z then (st, Raises e)
      else last_record wnd st) = (st', o) ∧ scanner_ok st' ∧
    options_of (self st') = options_of (self st) ∧ line_result sep p st st' o.
Proof.
  intros R Esep Ef Ein. pose proof (reading_pending _ _ _ R) as Epend. pose proof (reading_ok _ _ _ R) as I.
  set (st1 := with_incoming answers st).
  assert (scanner_ok st1) as I1.
  { destruct I as [? ? ? ? ? ? Ho]. split; try done. simpl. rewrite Ein in Ho. by inversion Ho. }
  assert (reading st1 wnd p) as R1 by (destruct R; by split).
  pose proof (chars_size _ _ _ (reading_chars _ _ _ R) (reading_wnd _ _ _ R)) as Hl.
  simpl. destruct (negb _ || _) eqn:Eraise.
  - exists st1, (Raises e). split_and!; [done..|]. apply (failed _ _ _ _ _ e); try done.
    { by rewrite Ein. }
    apply orb_true_iff in Eraise as [?%negb_true_iff|Hz%bool_decide_eq_true]; [by left|right].
    apply length_zero_iff_nil. lia.
  - apply orb_false_iff in Eraise as [He%negb_false_iff Hz%bool_decide_eq_false].
    destruct (last_record_ok sep st1 wnd p e R1 Esep) as (st' & o & E & I' & Eo' & L); [|done..|].
    { intros ->. simpl in Hl. lia. }
    exists st', o. split_and!; [done..|]. apply L; [by rewrite Ein|done].
Qed.

Lemma loop_ok fuel sep st wnd p :
  reading st wnd p → record_separator (self st) = SepString sep → sep ≠ [] →
  weight (incoming st) < fuel →
  ∃ st' o, get_line_loop raw_equal fuel wnd st = (st', o) ∧ scanner_ok st' ∧
    options_of (self st') = options_of (self st) ∧
    line_result sep (p ++ octets (incoming st)) st st' o.
Proof.
  revert st wnd p. induction fuel as [|fuel IH]; intros st wnd p R Esep Hsep Hfuel; [lia|].
  cbn [get_line_loop]. rewrite (find_record_ok _ _ _ _ _ Esep Hsep (reading_wnd _ _ _ R) (reading_chars _ _ _ R)).
  destruct (find p sep 0) as [i|] eqn:Ef; cbn [fmap option_fmap option_map early_bind].
  { destruct (record_ok sep st wnd p i R Ef) as (line & h & st' & o & E1 & E2 & E3 & I' & Eo & L).
    cbn zeta in *. rewrite E1. cbn [early_bind]. rewrite E2. cbn [early_bind]. rewrite E3.
    by exists st', o. }
  pose proof (grow_ok st wnd p R) as G. destruct (grow_buffer st) as [e|st1]; cbn [early_bind].
  { destruct G as (-> & Esz & Hmax). exists st, (raise message_size).
    split_and!; [done|by apply (reading_ok _ _ _ R)|done|].
    pose proof (reading_pending _ _ _ R) as Ep. apply too_long; try done; [|by rewrite Ep..].
    unfold ahead. by rewrite Ep. }
  destruct G as (R1 & Hroom & Ei & Eo).
  assert (record_separator (self st1) = SepString sep) as Esep1 by (by rewrite (options_separator _ _ Eo)).
  rewrite <- Ei. rewrite <- Ei in Hfuel.
  cut (∃ st' o, (check buffer := slice_from (buffer_ (self st1)) (1 + buffer_used (self st1)) in st1;
      match incoming st1 with
      | [] => (st1, Yields)
      | ReadFails e :: answers =>
          let st := with_incoming answers st1 in
          if negb (is_EEOF raw_equal e) || bool_decide (size wnd = 0)%Z then (st, Raises e)
          else last_record wnd st
      | ReadSome bs :: answers =>
          check (st, nread) := scanner_read bs answers buffer st1 in st1;
          let st := with_self (λ s, with_used (buffer_used s + nread) (record_size s) s) st in
          check ready_wnd := slice_of (buffer_ (self st)) 1 (buffer_used (self st)) in st;
          get_line_loop raw_equal fuel ready_wnd st
      end) = (st', o) ∧ scanner_ok st' ∧ options_of (self st') = options_of (self st1) ∧
      line_result sep (p ++ octets (incoming st1)) st1 st' o).
  { intros (st' & o & E & I' & Eo' & L). exists st', o. split_and!; [done|done|congruence|].
    eapply line_result_options; [..|done]; congruence. }
  clear R Esep Ei Eo st. rename st1 into st, R1 into R, Esep1 into Esep.
  pose proof (reading_pending _ _ _ R) as Epend. pose proof (reading_ok _ _ _ R) as I.
  destruct (slice_from_part (buffers (memory st)) (buffer_ (self st)) (buffer_used (self st)))
    as (buffer & Eb & _ & _); [apply I|destruct (ok_sizes _ I); lia|].
  rewrite Eb. cbn [early_bind]. destruct (incoming st) as [|[bs|e] answers] eqn:Ein.
  - exists st, Yields. split_and!; [done..|]. simpl. rewrite app_nil_r. apply waits; try done. by rewrite Ein.
  - destruct (read_ok st wnd p bs answers R Hroom Ein) as
      (buffer' & st1 & nread & wnd' & q & Eb' & Er & Ew & R' & Eq & En & Hlt & Eo).
    rewrite Eb in Eb'. injection Eb' as <-. rewrite Er. cbn [early_bind]. cbn zeta in *. rewrite Ew. cbn [early_bind].
    destruct (IH _ _ _ R') as (st' & o & -> & I' & Eo' & L); [by rewrite (options_separator _ _ Eo)|done| |].
    { rewrite Ein in Hlt. lia. }
    exists st', o. split_and!; [done|done|congruence|].
    eapply line_result_options; [exact Eo|exact En|]. rewrite <- app_assoc, Eq in L. exact L.
  - simpl. rewrite app_nil_r. by apply stream_failed_ok.
Qed.

Lemma get_line_ok sep st :
  scanner_ok st → record_separator (self st) = SepString sep → sep ≠ [] →
  ∃ st' o, get_line raw_equal st = (st', o) ∧ scanner_ok st' ∧
    options_of (self st') = options_of (self st) ∧ line_result sep (ahead st) st st' o.
Proof.
  intros I Esep Hsep. unfold get_line. destruct (shift_ok st I) as (st1 & wnd & -> & R & Ei & Eo).
  cbn [early_bind].
  destruct (loop_ok (S (weight (incoming st1))) sep st1 wnd (pending st) R) as (st' & o & -> & I' & Eo' & L);
    [by rewrite (options_separator _ _ Eo)|done|lia|].
  exists st', o. split_and!; [done|done|congruence|]. unfold ahead. rewrite <- Ei.
  eapply line_result_options; [..|done]; congruence.
Qed.


(** * All the records *)

(** Calls of [get_line] that found their separator, and the records they gave. *)
Inductive calls : scan_state → list bytes → scan_state → Prop :=
| calls_none st : calls st [] st
| calls_more st st' st'' v l ls sep :
    get_line raw_equal st = (st', Returns [v]) → value_text (lua st') v = Some l →
    record_terminator (self st') = Some (TerminatorString sep) → sep ≠ [] →
    calls st' ls st'' → calls st (l :: ls) st''.

(** C25 For a record separator that is a string and not empty, and a scanner that
    neither trims nor splits: the records that calls of [get_line] return, as long
    as each call finds a separator ([calls]), are the parts of the stream between
    its separators, in order, whatever the pieces the octets arrive in and however
    the buffer grows: the parts of what was ahead are these records, then the parts
    of what is still ahead. *)
Theorem records_are_parts sep st ls st' fs :
  scanner_ok st → record_separator (self st) = SepString sep → sep ≠ [] →
  trim_record (self st) = None → field_separator (self st) = NoSeparator → field_pattern (self st) = None →
  calls st ls st' → splits sep (ahead st') fs → splits sep (ahead st) (ls ++ fs).
Proof.
  intros I Esep Hsep Ht Hn Hp C. revert I Esep Ht Hn Hp.
  induction C as [st|st st1 st' v l ls sep' E Ev Et Hsep' C IH]; intros I Esep Ht Hn Hp S; [done|].
  destruct (get_line_ok sep st I Esep Hsep) as (st1' & o & E' & I1 & [= Eo1 Eo2 Eo3 Eo4 _] & L).
  rewrite E in E'. injection E' as <- <-.
  assert (splits sep (ahead st1) (ls ++ fs)) as S1 by (apply IH; congruence).
  destruct L as [l' t Ec Ef Et' Htr D|t e _ _ _ _ Et' _ _ _|e _ ? _ _ _|? _ _ _|_ ? _ _ _]; try done.
  - unfold trimmed in Htr. rewrite Ht in Htr. subst t. unfold delivered in D. rewrite Hn, Hp in D.
    destruct D as (v' & [= ->] & Ev'). assert (l' = l) as -> by congruence.
    rewrite Ec. simpl. constructor; [by rewrite <- Ec|done].
  - rewrite Et' in Et. by injection Et as <-.
Qed.
End scanner.

(** Fields between occurrences of the empty string: the loop never ends. *)
Lemma empty_separator_never_ends fuel line st l :
  handle_wf (buffers st) line → chars st line = Some l → l ≠ [] → string_fields fuel [] line st = None.
Proof.
  revert line l. induction fuel as [|fuel IH]; intros line l Hw Ec Hl; [done|].
  pose proof (chars_size _ _ _ Ec Hw) as Hs. assert (length l ≠ 0) by (by destruct l).
  cbn [string_fields]. unfold find_of. rewrite decide_False, (read_chars _ _ _ Ec) by lia.
  assert (find l [] 0 = Some 0) as ->.
  { apply find_spec. split_and!; [lia|done|]. intros k Hk. lia. }
  destruct (slice_part (buffers st) line 0 0 Hw) as (h & Eh & _ & _); [lia..|].
  change (1 + 0)%Z with 1%Z in Eh. change (Z.of_nat 0) with 0%Z. rewrite Eh.
  destruct (slice_from_part (buffers st) line 0 Hw) as (rest & Er & Hr & Hp); [lia|].
  change (slice_from line (1%nat + length (@nil Z))) with (slice_from line (1 + 0)). rewrite Er.
  rewrite (IH rest l); [done|done| |done].
  rewrite (part_chars _ _ _ _ _ _ Hp Ec). f_equal. unfold window. simpl. apply take_ge. lia.
Qed.

(** * Examples *)
Module Examples.
Import RegexSpec.Examples.
Import FilledAllocator.
#[local] Instance no_code : UserCode := {| call_user _ _ st := (st, Returns []) |}.
(** Codes and categories as on Linux. *)
#[local] Instance numbers : ErrorNumbers := {|
  object_of ec :=
    match ec with
    | Misc_code Asio.misc_errors.eof => ErrObj.Table (ErrObj.FNumber (lua_pushinteger 2)) (ErrObj.FCategory 1)
    | System_code v => ErrObj.Table (ErrObj.FNumber (lua_pushinteger v)) (ErrObj.FCategory 2)
    | _ => ErrObj.Table (ErrObj.FNumber (lua_pushinteger 22)) (ErrObj.FCategory 3)
    end |}.
Definition raw_equal (_ _ : ErrObj.field) : bool := false.

Definition eof : read_answer := ReadFails (ECode (Misc_code Asio.misc_errors.eof) None).
Definition scan_options (trim : option string_view) (fields : field_separator_t) : scanner_options :=
  ScannerOptions (Some (SepString (lit "--"))) trim fields None (Some 2%Z) (Some 8%Z).
Definition empty_vm : regex_state := RegexState (Store [] []) ∅ [].
Definition scan (trim : option string_view) (fields : field_separator_t) (stream : list read_answer) :
    scan_state :=
  match scanner_new (scan_options trim fields) stream empty_vm with
  | inr st => st
  | inl _ => ScanState empty_vm
      (Scanner null_handle 0 0 0 None (SepString []) None NoSeparator None 0) []
  end.
Definition after (n : nat) (st : scan_state) : scan_state := Nat.iter n (λ st, (get_line raw_equal st).1) st.
(** The text of the record of each call. *)
Definition record_of (st : scan_state) : option bytes :=
  match get_line raw_equal st with
  | (st', Returns [v]) => value_text (lua st') v
  | _ => None
  end.
Definition records (n : nat) (st : scan_state) : list (option bytes) :=
  (λ k, record_of (after k st)) <$> seq 0 n.

(** Pieces that cut a separator in two; the buffer of 2 octets grows to 8. *)
Definition pieces : list read_answer :=
  [ReadSome (lit "ab-"); ReadSome (lit "-c"); ReadSome (lit "de--f"); eof; eof].
Definition st0 : scan_state := scan None NoSeparator pieces.

Example records_of_pieces : records 4 st0 = [Some (lit "ab"); Some (lit "cde"); Some (lit "f"); None].
Proof. by vm_compute. Qed.

Lemma scan0_ok : scanner_ok st0.
Proof.
  split.
  - split.
    + intros u bs Hu. by destruct u.
    + repeat constructor; by vm_compute.
  - by intros u [r Hr].
  - unfold handle_wf, int64_max. simpl. split; [lia|]. eexists. split; [done|]. by vm_compute.
  - simpl. lia.
  - simpl. unfold int64_max. lia.
  - by split.
  - repeat constructor; by vm_compute.
Qed.


Lemma two_calls : calls raw_equal st0 [lit "ab"; lit "cde"] (after 2 st0).
Proof.
  eapply (calls_more _ _ (after 1 st0)); [vm_compute; reflexivity|by vm_compute|by vm_compute|done|].
  eapply (calls_more _ _ (after 2 st0)); [vm_compute; reflexivity|by vm_compute|by vm_compute|done|].
  constructor.
Qed.
Lemma records_are_parts_witness :
  splits (lit "--") (ahead st0) ([lit "ab"; lit "cde"] ++ [lit "f"]).
Proof.
  apply (records_are_parts raw_equal (lit "--") st0 [lit "ab"; lit "cde"] (after 2 st0) [lit "f"] scan0_ok);
    try done; [apply two_calls|].
  assert (ahead (after 2 st0) = lit "f") as -> by (by vm_compute). by constructor; vm_compute.
Defined.

(** The last record is trimmed before its size is taken: the white space around it
    stays, and the record comes again. *)
Example last_record_again :
  records 3 (scan (Some (Chars lws_default)) NoSeparator [ReadSome (lit " a "); eof; eof; eof]) =
  [Some (lit "a"); Some (lit "a"); Some []].
Proof. by vm_compute. Qed.
(** A function that splits records is not called for the last one. *)
Example last_record_not_split :
  (get_line raw_equal (scan None (FieldFunction 0) [ReadSome (lit "a"); eof])).2 = raise_arg invalid_argument 1.
Proof. by vm_compute. Qed.
(** Error codes are compared without their categories: ENOENT ends a stream as the
    end of a file does. *)
Example other_errors_end_streams :
  record_of (scan None NoSeparator [ReadSome (lit "a"); ReadFails (ECode (System_code 2) None)]) = Some (lit "a").
Proof. by vm_compute. Qed.
End Examples.
