(* ===== verification/Supervisor.v ===== *)
(** The supervisor: [ipc_actor_service_main] of [src/src/ipc_actor.cpp], the process
    that makes the processes of [spawn_vm], with [child_main], what such a process
    does before it is a VM.  Also the functions of [src/src/system.cpp] and
    [filesystem.cpp] that change the identity of the process and ask the supervisor
    to follow.

    Processes are those of [SpawnChild]: tables of descriptors, with calls the
    kernel may refuse.  A message carries a request and files.  Whether the kernel
    grants a change of identity, and when it refuses to make a process, are
    classes. *)
From S2P Require Import Prelude Errors Lua LuaTable SpawnArgs SpawnChild SpawnSpec SpawnMoves SpawnPromises.
From S2P Require Import SpawnParent MonotonicAllocator.
#[local] Open Scope Z_scope.

(** * Requests *)

Inductive action : Set := CLOSE_FD | SHARE_PARENT | USE_PIPE.
Inductive request_type : Set :=
| CREATE_PROCESS | SETRESUID | SETRESGID | SETGROUPS | CAP_SET_PROC | CAP_DROP_BOUND
| CAP_SET_AMBIENT | CAP_RESET_AMBIENT | CAP_SET_SECBITS | CHDIR | UMASK.
#[export] Instance request_type_eq_dec : EqDecision request_type.
Proof. solve_decision. Defined.

(** [ipc_actor_start_vm_request] *)
Record request : Set := Request {
  type : request_type;
  clone_flags : Z;
  stdin_action : action;
  stdout_action : action;
  stderr_action : action;
  stderr_has_color : bool;
  has_lua_hook : bool;
  resuid : Z * Z * Z;
  resgid : Z * Z * Z;
  setgroups_ngroups : Z;
  cap_value : Z;
  cap_flag_value : bool;
  cap_set_secbits_value : Z;
  umask_mask : Z;
}.
(** [std::memset(&request, 0, sizeof(request))], and the type. *)
Definition empty_request (t : request_type) : request :=
  Request t 0 CLOSE_FD CLOSE_FD CLOSE_FD false false (0, 0, 0) (0, 0, 0) 0 0 false 0 0.

(** The library of capabilities: sets and their text. *)
Class Capabilities := {
  cap_t : Type;
  cap_to_text : cap_t → bytes;
  cap_from_text : bytes → option cap_t;
}.
Class CapabilityLaws `{Capabilities} := {
  cap_from_to_text c : cap_from_text (cap_to_text c) = Some c;
  cap_text_nonzero c : 0 ∉ cap_to_text c;
}.

Section supervisor.
Context `{Capabilities}.

(** A change of the identity of a process, or of what it shares with its children. *)
Inductive identity_change : Type :=
| SetResuid (ids : Z * Z * Z)
| SetResgid (ids : Z * Z * Z)
| SetGroups (groups : list Z)
| CapSetProc (caps : cap_t)
| CapDropBound (cap : Z)
| CapSetAmbient (cap : Z) (value : bool)
| CapResetAmbient
| CapSetSecbits (bits : Z)
| ChangeDirectory (path : bytes)
| SetUmask (mask : Z).

(** What a file of memory holds. *)
Inductive contents : Set := Groups (l : list Z) | Text (s : bytes).

(** What the kernel answers.  [memory_refused]: [memfd_create], [ftruncate];
    [mappable]: [mmap] of the file. *)
Class IdentityKernel := {
  permitted : identity_change → process → bool;
  change_errno : identity_change → process → Z;
  memory_refused : process → option Z;
  mappable : nat → process → bool;
  child_pid : process → Z;
}.
Context `{Kernel} `{Cloning} `{IdentityKernel}.

(** A C string ends at its first zero. *)
Fixpoint until_zero (s : bytes) : bytes :=
  match s with
  | [] => []
  | c :: s => if decide (c = 0) then [] else c :: until_zero s
  end.

(** * The process *)

(** The globals [child_main] reads. *)
Record globals : Set := Globals {
  inboxfd : Z;
  stdin_fd : Z;              (* [proc_stdin] *)
  stdout_fd : Z;
  stderr_fd : Z;
  proc_stderr_has_color : bool;
  lua_hook : bool;           (* [has_lua_hook] *)
}.

(** What the supervisor has done: octets and replies written to files, processes
    made. *)
Inductive deed : Type :=
| Acknowledged (to : nat)
| Replied (to : nat) (childpid error : Z) (pidfd : option nat)
| Created (child : process) (vars : globals) (flags : Z).

Record supervisor : Type := Super {
  self : process;
  vars : globals;
  identity : list identity_change;
  deeds : list deed;
}.
Definition with_self (f : process → process) (st : supervisor) : supervisor :=
  Super (f (self st)) (vars st) (identity st) (deeds st).
Definition with_vars (g : globals) (st : supervisor) : supervisor :=
  Super (self st) g (identity st) (deeds st).
Definition with_change (c : identity_change) (st : supervisor) : supervisor :=
  Super (self st) (vars st) (identity st ++ [c]) (deeds st).
Definition with_deed (d : deed) (st : supervisor) : supervisor :=
  Super (self st) (vars st) (identity st) (deeds st ++ [d]).
Definition close_self (fd : Z) : supervisor → supervisor := with_self (close_in fd).

(** [write(fd, buf, 1)] *)
Definition acknowledge (fd : Z) (st : supervisor) : supervisor :=
  match fds (self st) !! fd with
  | Some d => with_deed (Acknowledged (file d)) st
  | None => st
  end.

(** A request is dealt with, or the supervisor ends, with or without waiting for its
    children, or a failed [assert] or a null pointer ends it. *)
Inductive outcome_of_request : Type :=
| Continues (st : supervisor)
| Exits (st : supervisor) (code : Z) (waited : bool)
| Crashes.

(** [recvmsg] makes descriptors of the files. *)
Fixpoint install (cloexec : bool) (files : list nat) (p : process) : process * list Z :=
  match files with
  | [] => (p, [])
  | f :: files =>
      let fd := lowest (fds p) in
      let '(p, l) := install cloexec files (with_fds <[fd := Descriptor f cloexec]> p) in
      (p, fd :: l)
  end.

(** * Changes of identity *)

(** The supervisor applies the change, or ends. *)
Definition follow (c : identity_change) (pout : Z) (st : supervisor) : outcome_of_request :=
  if permitted c (self st)
  then Continues (close_self pout (acknowledge pout (with_change c st)))
  else Exits (close_self pout st) 1 true.

(** [CMSG_FIRSTHDR], which is taken to be there. *)
Definition follow_pout (c : identity_change) (fds : list Z) (st : supervisor) : outcome_of_request :=
  match fds with
  | [pout] => follow c pout st
  | _ => Crashes
  end.

(** [int fds[2] = { -1, -1 };] and a copy of what came, which has to fit. *)
Definition pair_of (exactly : bool) (fds : list Z) : option (Z * Z) :=
  match fds with
  | [] => Some (-1, -1)
  | [a] => if exactly then None else Some (a, -1)
  | [a; b] => Some (a, b)
  | _ => None
  end.

(** [mmap(.., fds[1], 0); close(fds[1]);].  [memory] is what files hold. *)
Definition mapped (memory : nat → contents) (fd : Z) (p : process) : option contents :=
  match fds p !! fd with
  | Some d => if mappable (file d) p then Some (memory (file d)) else None
  | None => None
  end.
Definition follow_memory (memory : nat → contents) (change : contents → option identity_change)
    (a b : Z) (st : supervisor) : outcome_of_request :=
  let m := mapped memory b (self st) in
  let st := close_self b st in
  match m ≫= change with
  | Some c => follow c a st
  | None => Exits (close_self a st) 1 true
  end.
Definition groups_in (n : Z) (m : contents) : option identity_change :=
  match m with Groups l => Some (SetGroups (take (Z.to_nat n) l)) | Text _ => None end.
Definition caps_in (m : contents) : option identity_change :=
  match m with Text s => CapSetProc <$> cap_from_text (until_zero s) | Groups _ => None end.
Definition directory_in (m : contents) : option identity_change :=
  match m with Text s => Some (ChangeDirectory (until_zero s)) | Groups _ => None end.
(** [umask] does not fail. *)
Definition follow_umask (mask : Z) (fds : list Z) (st : supervisor) : outcome_of_request :=
  match fds with
  | [pout] => Continues (close_self pout (acknowledge pout (with_change (SetUmask mask) st)))
  | _ => Crashes
  end.

(** * A new process *)

(** The first of [fds[1]], .. that was not taken. *)
Fixpoint take_fd (l : list Z) : option (Z * list Z) :=
  match l with
  | [] => None
  | fd :: l =>
      if decide (fd ≠ -1) then Some (fd, -1 :: l)
      else (λ x, (x.1, -1 :: x.2)) <$> take_fd l
  end.
(** One of the switches; [old] is the value of an earlier request. *)
Definition settle (a : action) (fileno old : Z) (l : list Z) : option (Z * list Z) :=
  match a with
  | CLOSE_FD => Some (-1, l)
  | SHARE_PARENT => Some (fileno, l)
  | USE_PIPE =>
      match take_fd l with
      | Some r => Some r
      | None => if decide (old = -1) then None else Some (old, l)
      end
  end.
(** [int fds[4] = {-1, -1, -1, -1};] *)
Definition four (l : list Z) : list Z := take 4 (l ++ [-1; -1; -1; -1]).

Definition read_request (r : request) (l : list Z) (old : globals) : option globals :=
  match four l with
  | inbox :: l =>
      if decide (inbox = -1) then None
      else
        '(i, l) ← settle (stdin_action r) 0 (stdin_fd old) l;
        '(o, l) ← settle (stdout_action r) 1 (stdout_fd old) l;
        '(e, l) ← settle (stderr_action r) 2 (stderr_fd old) l;
        if decide (Forall (λ fd, fd = -1) l) then
          Some (Globals inbox i o e
            (match stderr_action r with
             | SHARE_PARENT => stderr_has_color r
             | _ => proc_stderr_has_color old
             end) (has_lua_hook r))
        else None
  | [] => None
  end.

Definition close_source (source fileno : Z) (st : supervisor) : supervisor :=
  if decide (source = -1 ∨ source = fileno) then st else close_self source st.

(** The supervisor closes what the child has now, and says how it went. *)
Definition reply_and_close (childpid error pidfd : Z) (st : supervisor) : supervisor :=
  let g := vars st in
  let st := close_source (stdin_fd g) 0 st in
  let st := close_source (stdout_fd g) 1 st in
  let st := close_source (stderr_fd g) 2 st in
  let st :=
    match fds (self st) !! inboxfd g with
    | Some d => with_deed (Replied (file d) childpid error (file <$> fds (self st) !! pidfd)) st
    | None => st
    end in
  let st := close_self (inboxfd g) st in
  if decide (pidfd = -1) then st else close_self pidfd st.

(** [request.clone_flags |= CLONE_PIDFD | SIGCHLD] *)
Definition CLONE_PIDFD : Z := 2 ^ 12.
Definition SIGCHLD : Z := 17.
Definition flags_of (r : request) : Z := Z.lor (clone_flags r) (Z.lor CLONE_PIDFD SIGCHLD).

Definition create_process (r : request) (ctrunc : bool) (l : list Z) (st : supervisor) :
    outcome_of_request :=
  if decide (4 < length l)%nat then Crashes
  else if ctrunc then Continues (foldr close_self st l)
  else
    match read_request r l (vars st) with
    | None => Crashes
    | Some g =>
        let st := with_vars g st in
        match clone_refused (self st) with
        | Some e => Continues (reply_and_close (-1) e (-1) st)
        | None =>
            let child := self st in
            let '(pidfd, p) := open_pidfd child in
            let st := with_deed (Created child g (flags_of r)) (with_self (λ _, p) st) in
            Continues (reply_and_close (child_pid child) 0 pidfd st)
        end
    end.

(** * The loop *)

(** What [recvmsg] gives: a request with the files the kernel could make descriptors
    of, and whether there were more. *)
Inductive received : Type :=
| Received (r : request) (files : list nat) (ctrunc : bool)
| HungUp
| ReceiveError.

Definition handle_request (memory : nat → contents) (r : request) (files : list nat) (ctrunc : bool)
    (st : supervisor) : outcome_of_request :=
  let '(p, l) := install false files (self st) in
  let st := with_self (λ _, p) st in
  match type r with
  | CREATE_PROCESS => create_process r ctrunc l st
  | SETRESUID => follow_pout (SetResuid (resuid r)) l st
  | SETRESGID => follow_pout (SetResgid (resgid r)) l st
  | SETGROUPS =>
      match pair_of false l with
      | None => Crashes
      | Some (a, b) =>
          if decide (setgroups_ngroups r = 0) then follow (SetGroups []) a st
          else follow_memory memory (groups_in (setgroups_ngroups r)) a b st
      end
  | CAP_SET_PROC =>
      match pair_of true l with
      | None => Crashes
      | Some (a, b) => follow_memory memory caps_in a b st
      end
  | CAP_DROP_BOUND => follow_pout (CapDropBound (cap_value r)) l st
  | CAP_SET_AMBIENT => follow_pout (CapSetAmbient (cap_value r) (cap_flag_value r)) l st
  | CAP_RESET_AMBIENT => follow_pout CapResetAmbient l st
  | CAP_SET_SECBITS => follow_pout (CapSetSecbits (cap_set_secbits_value r)) l st
  | CHDIR =>
      match pair_of true l with
      | None => Crashes
      | Some (a, b) => follow_memory memory directory_in a b st
      end
  | UMASK => follow_umask (umask_mask r) l st
  end.

Fixpoint serve (memory : nat → contents) (l : list received) (st : supervisor) : outcome_of_request :=
  match l with
  | [] => Continues st
  | ReceiveError :: _ => Exits (close_self 3 st) 1 true
  | HungUp :: _ => Exits (close_self 3 st) 0 true
  | Received r files ctrunc :: l =>
      match handle_request memory r files ctrunc st with
      | Continues st => serve memory l st
      | o => o
      end
  end.

(** Before the loop: regions of memory to wipe, up to a null one; then the supervisor
    keeps its socket, as 3, and what is below. *)
Inductive bzero_region : Set := Wipe (s n : Z) | LastRegion | NoRegion.
Fixpoint wipe_regions (l : list bzero_region) : option (list (Z * Z)) :=
  match l with
  | Wipe s n :: l => cons (s, n) <$> wipe_regions l
  | LastRegion :: _ => Some []
  | NoRegion :: _ | [] => None
  end.
Definition start_service (regions : list bzero_region) (sockfd : Z) (p : process) :
    Z + (list (Z * Z) * process) :=
  match wipe_regions regions with
  | None => inl 1
  | Some wiped =>
      match perform (Dup2 sockfd 3) p with
      | inl _ => inl 1
      | inr p =>
          match perform (CloseRange 4) p with
          | inl _ => inl 1
          | inr p => inr (wiped, p)
          end
      end
  end.
Definition ipc_actor_service_main (memory : nat → contents) (regions : list bzero_region) (sockfd : Z)
    (l : list received) (st : supervisor) : list (Z * Z) * outcome_of_request :=
  match start_service regions sockfd (self st) with
  | inl code => ([], Exits st code false)
  | inr (wiped, p) => (wiped, serve memory l (with_self (λ _, p) st))
  end.

(** * The child, until it is a VM: [child_main] *)

(** [shutdown_refused]: [shutdown(inboxfd, SHUT_WR)]; [run_hook]: the script and the
    descriptor it gets, [None] when it fails; [is_init]: [getpid() == 1]. *)
Class ChildKernel := {
  shutdown_refused : process → bool;
  run_hook : bytes → option Z → process → option process;
  is_init : process → bool;
  fork_refused : process → bool;
  pair_refused : process → bool;
}.
(** The archive of [cereal] with which [spawn_vm] sends what the VM is to run. *)
Class Archive := {
  archive : Z → bytes → list bytes → bytes;
  unarchive : bytes → option (Z * bytes * list bytes);
}.
Class ArchiveLaws `{Archive} := {
  unarchive_archive hint module env : unarchive (archive hint module env) = Some (hint, module, env);
  archive_nonempty hint module env : archive hint module env ≠ [];
}.
Context `{ChildKernel} `{Archive}.
(** [sizeof(ipc_actor_message)] *)
Context (message_size : nat).

(** One of the standard descriptors; [-1] is an end of a pipe without another. *)
Definition child_standard (end_of : Z * Z → Z) (source fileno : Z) (p : process) : option process :=
  let ok (r : Z + process) := match r with inl _ => None | inr p => Some p end in
  if decide (source = -1) then
    p' ← ok (perform Pipe p); ok (perform (Dup2 (end_of (pipe_ends p)) fileno) p')
  else if decide (source = fileno) then Some p
  else ok (perform (Dup2 source fileno) p).
(** Up to [close_range]: [None], the child returns 1. *)
Definition child_descriptors (g : globals) (p : process) : option process :=
  let ok (r : Z + process) := match r with inl _ => None | inr p => Some p end in
  p ← child_standard fst (stdin_fd g) 0 p;
  p ← child_standard snd (stdout_fd g) 1 p;
  p ← child_standard snd (stderr_fd g) 2 p;
  p ← ok (perform (Dup2 (inboxfd g) 3) p);
  p ← ok (perform (SetCloexec 3) p);
  ok (perform (CloseRange 4) p).

(** What the socket, now 3, gives; [truncated]: octets or files did not fit. *)
Inductive child_read : Type :=
| Data (bs : bytes) (files : list nat) (truncated : bool)
| NoData.

(** The script of the hook has to fit into the buffer of its allocator, with a rest. *)
Definition EMILUA_LUA_HOOK_BUFFER_SIZE : Z := 1024 * 1024.
Definition hook_fits (n : nat) : bool :=
  bool_decide (n ≠ 0)%nat && bool_decide (pad 16 n < EMILUA_LUA_HOOK_BUFFER_SIZE).
Definition run_lua_hook (r : child_read) (p : process) : option process :=
  match r with
  | NoData => None
  | Data script files truncated =>
      if negb truncated && hook_fits (length script) then
        let '(p, l) := install true files p in
        p ← run_hook script (head l) p;
        match perform (CloseRange 4) p with inl _ => None | inr p => Some p end
      else None
  end.

(** [socketpair]: the two lowest descriptors. *)
Definition make_pair (p : process) : Z * Z * process :=
  let '(a, b) := pipe_ends p in
  (a, b, Process (<[b := Descriptor (S (next_file p)) false]>
            (<[a := Descriptor (next_file p) false]> (fds p))) (S (S (next_file p))) (calls p)).
(** A supervisor of its own: the socket to it, or -1, and its process. *)
Definition start_supervisor (p : process) : process * Z * option process :=
  if pair_refused p then (p, -1, None)
  else
    let '(a, b, p) := make_pair p in
    if fork_refused p then (close_in b (close_in a p), -1, None)
    else (close_in a p, b, Some (close_in b p)).

(** ** The environment *)

Fixpoint index_of (c : Z) (s : bytes) : option nat :=
  match s with
  | [] => None
  | x :: s => if decide (x = c) then Some 0%nat else S <$> index_of c s
  end.
(** [substr(0, idx)] and [substr(idx + 1)], also when [idx] is [npos]. *)
Definition variable_of (s : bytes) : bytes * bytes :=
  match index_of 61 s with
  | Some i => (take i s, drop (S i) s)
  | None => (s, s)
  end.
(** [emplace] keeps the first. *)
Definition app_env_of (l : list bytes) : gmap bytes bytes :=
  foldl (λ m s, let '(k, v) := variable_of s in if decide (is_Some (m !! k)) then m else <[k := v]> m) ∅ l.

Definition stdout_has_color (env : gmap bytes bytes) (g : globals) : bool :=
  let default := bool_decide (stderr_fd g = 2) && proc_stderr_has_color g in
  match env !! lit "EMILUA_COLORS" with
  | Some v => if decide (v = lit "1") then true else if decide (v = lit "0") then false else default
  | None => default
  end.
(** The parts of a string between colons. *)
Fixpoint colon_parts (cur s : bytes) : list bytes :=
  match s with
  | [] => [cur]
  | c :: s => if decide (c = 58) then cur :: colon_parts [] s else colon_parts (cur ++ [c]) s
  end.
Definition emilua_path_of (env : gmap bytes bytes) : list bytes :=
  match env !! lit "EMILUA_PATH" with Some s => colon_parts [] s | None => [] end.

(** ** The VM *)
Record vm_start : Type := VmStart {
  vm_process : process;
  vm_inbox : Z;
  main_ctx_concurrency_hint : Z;
  entry_point : bytes;
  environ : list bytes;
  app_args : list bytes;
  app_env : gmap bytes bytes;
  search_path : list bytes;
  color : bool;
  ipc_actor_service_sockfd : Z;
  own_supervisor : option process;
}.
Inductive child_end : Type :=
| ChildExits (code : Z)
| Uncaught                      (* an exception of the archive *)
| StartsVm (v : vm_start).

(** The first process of a pid namespace forks and only waits. *)
Definition below_init (p : process) : option process :=
  if is_init p then if fork_refused p then None else Some p else Some p.
Definition child_main (g : globals) (first second : child_read) (p : process) : child_end :=
  match child_descriptors g p with
  | None => ChildExits 1
  | Some p =>
      match first with
      | NoData | Data [] _ _ => ChildExits 1
      | Data bs _ _ =>
          let buffer := take message_size bs in
          if shutdown_refused p then ChildExits 1
          else
            match (if lua_hook g then run_lua_hook second p else Some p) ≫= below_init with
            | None => ChildExits 1
            | Some p =>
                let '(p, sockfd, supervisor) := start_supervisor p in
                match unarchive buffer with
                | None => Uncaught
                | Some (hint, module, env) =>
                    let vars := app_env_of env in
                    StartsVm (VmStart p 3 hint module env [[]; []] vars (emilua_path_of vars)
                      (stdout_has_color vars g) sockfd supervisor)
                end
            end
      end
  end.

(** * Asking the supervisor to follow *)

(** What goes with a request: [None], only the pipe. *)
Definition request_of (c : identity_change) : request * option contents :=
  match c with
  | SetResuid (r, e, s) =>
      (Request SETRESUID 0 CLOSE_FD CLOSE_FD CLOSE_FD false false (r, e, s) (0, 0, 0) 0 0 false 0 0, None)
  | SetResgid (r, e, s) =>
      (Request SETRESGID 0 CLOSE_FD CLOSE_FD CLOSE_FD false false (0, 0, 0) (r, e, s) 0 0 false 0 0, None)
  | SetGroups l =>
      (Request SETGROUPS 0 CLOSE_FD CLOSE_FD CLOSE_FD false false (0, 0, 0) (0, 0, 0) (to_int32 (length l)) 0 false 0 0,
       if decide (l = []) then None else Some (Groups l))
  | CapSetProc caps => (empty_request CAP_SET_PROC, Some (Text (cap_to_text caps ++ [0])))
  | CapDropBound cap =>
      (Request CAP_DROP_BOUND 0 CLOSE_FD CLOSE_FD CLOSE_FD false false (0, 0, 0) (0, 0, 0) 0 cap false 0 0, None)
  | CapSetAmbient cap value =>
      (Request CAP_SET_AMBIENT 0 CLOSE_FD CLOSE_FD CLOSE_FD false false (0, 0, 0) (0, 0, 0) 0 cap value 0 0, None)
  | CapResetAmbient => (empty_request CAP_RESET_AMBIENT, None)
  | CapSetSecbits bits =>
      (Request CAP_SET_SECBITS 0 CLOSE_FD CLOSE_FD CLOSE_FD false false (0, 0, 0) (0, 0, 0) 0 0 false bits 0, None)
  | ChangeDirectory path => (empty_request CHDIR, Some (Text (path ++ [0])))
  | SetUmask mask =>
      (Request UMASK 0 CLOSE_FD CLOSE_FD CLOSE_FD false false (0, 0, 0) (0, 0, 0) 0 0 false 0 mask, None)
  end.

(** How a function of the module ends. *)
Inductive changed : Type :=
| Changed
| NotPermitted
| Refused (by_change : bool) (errno : Z)
| Exited (code : Z).

(** The process that asks: its descriptors and its identity. *)
Record master : Type := Master { own : process; own_identity : list identity_change }.
Definition with_own (f : process → process) (m : master) : master := Master (f (own m)) (own_identity m).

(** [channel] and [mfd], and both files. *)
Definition open_channel (p : process) : Z + (Z * Z * process) :=
  match perform Pipe p with
  | inl e => inl e
  | inr p' => inr (pipe_ends p, p')
  end.
Definition open_memory (m : option contents) (p : process) : Z + (Z * process) :=
  match m with
  | None => inr (-1, p)
  | Some _ =>
      match memory_refused p with
      | Some e => inl e
      | None =>
          let fd := lowest (fds p) in
          inr (fd, Process (<[fd := Descriptor (next_file p) false]> (fds p)) (S (next_file p)) (calls p))
      end
  end.

(** The change itself; [umask] does not fail, and a directory is a C string. *)
Definition own_change (c : identity_change) : identity_change :=
  match c with ChangeDirectory p => ChangeDirectory (until_zero p) | c => c end.
Definition allowed (c : identity_change) (p : process) : bool :=
  match c with SetUmask _ => true | c => permitted c p end.

Definition acknowledged (pout : nat) (l : list deed) : bool :=
  existsb (λ d, match d with Acknowledged to => bool_decide (to = pout) | _ => false end) l.
(** [sendmsg] to the supervisor, and the octet it answers with. *)
Definition ask (delivered : bool) (q : request) (mem : option contents) (pout : nat) (files : list nat)
    (s : supervisor) : option supervisor * bool :=
  if delivered then
    match handle_request (λ _, default (Text []) mem) q files false s with
    | Continues s' => (Some s', acknowledged pout (drop (length (deeds s)) (deeds s')))
    | Exits _ _ _ | Crashes => (None, false)
    end
  else (Some s, false).

(** The functions of the modules, which repeat each other.  [sup] is the supervisor,
    if there is one, and [delivered] whether [sendmsg] succeeds.  The two processes
    do not go on with identities that differ: when there is no answer the process
    exits. *)
Definition change_identity (is_master delivered : bool) (c : identity_change) (st : master)
    (sup : option supervisor) : master * option supervisor * changed :=
  if negb is_master then (st, sup, NotPermitted)
  else
    let '(q, mem) := request_of c in
    let c := own_change c in
    let changed_here st := Master (own st) (own_identity st ++ [c]) in
    match sup with
    | None =>
        if allowed c (own st) then (changed_here st, None, Changed)
        else (st, None, Refused true (change_errno c (own st)))
    | Some s =>
        match open_channel (own st) with
        | inl e => (st, sup, Refused false e)
        | inr (r, w, p) =>
            match open_memory mem p with
            | inl e => (with_own (λ _, close_in r (close_in w p)) st, sup, Refused false e)
            | inr (mfd, p) =>
                let clean := with_own (λ _, close_in r (close_in w (close_in mfd p))) st in
                if negb (allowed c p) then (clean, sup, Refused true (change_errno c p))
                else
                  let file_of fd := default 0%nat (file <$> fds p !! fd) in
                  let files := file_of w :: match mem with Some _ => [file_of mfd] | None => [] end in
                  let '(sup, answered) := ask delivered q mem (file_of w) files s in
                  (changed_here clean, sup, if answered : bool then Changed else Exited 1)
            end
        end
    end.

(** ** The functions *)

(** The text of a number as an integer, the names of capabilities, and the mask the
    process started with. *)
Class IdentityApi := {
  string_integer : bytes → option Z;
  cap_from_name : bytes → option Z;
  initial_umask : Z;
}.
Context `{LuaApi} `{IdentityApi}.

(** Userdata by their metatables. *)
Inductive identity_object : Type :=
| CapsObject (caps : cap_t)            (* [linux_capabilities_mt_key] *)
| PathObject (p : bytes)               (* [filesystem_path_mt_key] *)
| OtherObject.

(** How a function ends.  The error of a directory carries the path. *)
Inductive identity_answer : Type :=
| Answers (o : outcome)
| RaisesPath (ec : error_code) (path1 : lua_value)
| ExitsProcess (code : Z).
Definition answer_of (vals : list lua_value) (r : changed) : identity_answer :=
  match r with
  | Changed => Answers (Returns vals)
  | NotPermitted => Answers (raise operation_not_permitted)
  | Refused _ e => Answers (raise (System_code e))
  | Exited code => ExitsProcess code
  end.

(** What the functions share: only the master VM may; then the arguments are read. *)
Definition identity_function (is_master delivered : bool) (c : outcome + identity_change)
    (end_with : changed → identity_answer) (st : master) (sup : option supervisor) :
    master * option supervisor * identity_answer :=
  if negb is_master then (st, sup, end_with NotPermitted)
  else
    match c with
    | inl o => (st, sup, Answers o)
    | inr c => let '(st, sup, r) := change_identity is_master delivered c st sup in (st, sup, end_with r)
    end.

(** [lua_tointeger], [luaL_checkinteger] and [luaL_checkstring] of an argument. *)
Definition integer_of (v : option lua_value) : option Z :=
  match v with
  | Some (LNumber n) => Some (lua_tointeger n)
  | Some (LString s) => string_integer s
  | _ => None
  end.
Definition id_of (v : option lua_value) : Z := to_uint32 (default 0 (integer_of v)).
Definition bad_argument {A} : outcome + A := inl (Raises (EString "bad argument")).
Definition checkinteger (v : option lua_value) : outcome + Z :=
  match integer_of v with Some n => inr n | None => bad_argument end.
Definition checkstring (v : option lua_value) : outcome + bytes :=
  match v with Some (LString _) | Some (LNumber _) => inr (tostringview v) | _ => bad_argument end.

Section functions.
Variables (is_master delivered : bool) (table_at : loc → table) (object_at : loc → identity_object).

Definition system_setresuid (L : lua_args) : master → option supervisor → master * option supervisor * identity_answer :=
  let L := settop 3 L in
  identity_function is_master delivered
    (inr (SetResuid (id_of (arg L 1), id_of (arg L 2), id_of (arg L 3)))) (answer_of []).
Definition system_setresgid (L : lua_args) : master → option supervisor → master * option supervisor * identity_answer :=
  let L := settop 3 L in
  identity_function is_master delivered
    (inr (SetResgid (id_of (arg L 1), id_of (arg L 2), id_of (arg L 3)))) (answer_of []).

(** The elements 1, 2, ... of the table up to the first [nil]; a table of [n] slots
    has one among [n + 1].  The error names the second argument. *)
Fixpoint read_groups (tb : table) (fuel : nat) (i : Z) : outcome + list Z :=
  match fuel with
  | O => inr []
  | S fuel =>
      match rawgeti tb i with
      | LNil => inr []
      | LNumber n =>
          match read_groups tb fuel (i + 1) with
          | inl o => inl o
          | inr l => inr (to_uint32 (lua_tointeger n) :: l)
          end
      | _ => inl (raise_arg invalid_argument 2)
      end
  end.
Definition system_setgroups (L : lua_args) : master → option supervisor → master * option supervisor * identity_answer :=
  identity_function is_master delivered
    (match arg L 1 with
     | Some (LTable t) =>
         match read_groups (table_at t) (S (length (slots (table_at t)))) 1 with
         | inl o => inl o
         | inr groups => inr (SetGroups groups)
         end
     | _ => bad_argument
     end) (answer_of []).

Definition linux_capabilities_set_proc (L : lua_args) : master → option supervisor → master * option supervisor * identity_answer :=
  identity_function is_master delivered
    (match arg L 1 with
     | Some (LUserdata u) =>
         match object_at u with
         | CapsObject caps => inr (CapSetProc caps)
         | PathObject _ | OtherObject => inl (raise_arg invalid_argument 1)
         end
     | _ => inl (raise_arg invalid_argument 1)
     end) (answer_of []).

Definition capability_of (v : option lua_value) : outcome + Z :=
  match checkstring v with
  | inl o => inl o
  | inr s => match cap_from_name (until_zero s) with Some cap => inr cap | None => inl (raise_arg invalid_argument 1) end
  end.
Definition system_cap_drop_bound (L : lua_args) : master → option supervisor → master * option supervisor * identity_answer :=
  identity_function is_master delivered
    (match capability_of (arg L 1) with inl o => inl o | inr cap => inr (CapDropBound cap) end) (answer_of []).
(** The type of the second argument is checked before all else. *)
Definition system_cap_set_ambient (L : lua_args) (st : master) (sup : option supervisor) :
    master * option supervisor * identity_answer :=
  match arg L 2 with
  | Some (LBoolean value) =>
      identity_function is_master delivered
        (match capability_of (arg L 1) with inl o => inl o | inr cap => inr (CapSetAmbient cap value) end)
        (answer_of []) st sup
  | _ => (st, sup, Answers (Raises (EString "bad argument")))
  end.
Definition system_cap_reset_ambient : master → option supervisor → master * option supervisor * identity_answer :=
  identity_function is_master delivered (inr CapResetAmbient) (answer_of []).
Definition system_cap_set_secbits (L : lua_args) : master → option supervisor → master * option supervisor * identity_answer :=
  identity_function is_master delivered
    (match checkinteger (arg L 1) with inl o => inl o | inr bits => inr (CapSetSecbits (to_uint32 bits)) end)
    (answer_of []).

(** Without an argument the path that is returned is a new object, [new]. *)
Definition current_working_directory (new : lua_value) (L : lua_args) (st : master) (sup : option supervisor) :
    master * option supervisor * identity_answer :=
  match arg (settop 1 L) 1 with
  | Some LNil => (st, sup, Answers (Returns [new]))
  | v =>
      identity_function is_master delivered
        (match v with
         | Some (LUserdata u) =>
             match object_at u with
             | PathObject p => inr (ChangeDirectory p)
             | CapsObject _ | OtherObject => inl (raise_arg invalid_argument 1)
             end
         | _ => inl (raise_arg invalid_argument 1)
         end)
        (λ r, match r with
              | Refused true e => RaisesPath (System_code e) (default LNil v)
              | _ => answer_of [] r
              end) st sup
  end.

(** [umask] gives the mask before. *)
Definition last_umask (l : list identity_change) : Z :=
  foldl (λ m c, match c with SetUmask n => Z.land n 511 | _ => m end) initial_umask l.
Definition filesystem_umask (L : lua_args) (st : master) (sup : option supervisor) :
    master * option supervisor * identity_answer :=
  identity_function is_master delivered
    (match checkinteger (arg L 1) with inl o => inl o | inr mask => inr (SetUmask (to_uint32 mask)) end)
    (answer_of [LNumber (lua_pushinteger (last_umask (own_identity st)))]) st sup.
End functions.
End supervisor.
