(* ===== verification/SupervisorSpec.v ===== *)
(** What the supervisor promises: it keeps its descriptors whatever it is asked, a
    process it makes has those of the request and no other, and the process that
    asks for a change of identity never goes on with one that differs from the
    supervisor's. *)
From S2P Require Import Prelude Errors Lua LuaTable SpawnArgs SpawnChild SpawnSpec SpawnMoves SpawnPromises.
From S2P Require Import SpawnParent MonotonicAllocator Supervisor.
#[local] Open Scope Z_scope.

(** * Tables of descriptors *)

(** Standard descriptors and the socket are open, and survive [exec]. *)
Record resident (T : gmap Z descriptor) : Prop := {
  resident_nonneg n : is_Some (T !! n) → 0 ≤ n;
  resident_low n : 0 ≤ n < 4 → ∃ f, T !! n = Some (Descriptor f false);
}.

Lemma lowest_high T : resident T → 4 ≤ lowest T.
Proof.
  intros R. destruct (lowest_free T) as [Hn H0]. destruct (decide (lowest T < 4)); [|lia].
  destruct (resident_low _ R (lowest T) ltac:(lia)) as [f Hf]. congruence.
Qed.
Lemma resident_insert T n d : resident T → 4 ≤ n → resident (<[n := d]> T).
Proof.
  intros [R1 R2] Hn. split.
  - intros m. rewrite lookup_insert. case_decide; [lia|apply R1].
  - intros m Hm. rewrite lookup_insert_ne by lia. by apply R2.
Qed.

(** Descriptors that are in a table for some files. *)
Definition holds (T : gmap Z descriptor) (cloexec : bool) (l : list Z) (files : list nat) : Prop :=
  Forall2 (λ fd f, T !! fd = Some (Descriptor f cloexec)) l files.

Lemma install_spec cloexec files p p' l :
  resident (fds p) → install cloexec files p = (p', l) →
  holds (fds p') cloexec l files ∧ NoDup l ∧ Forall (λ fd, 4 ≤ fd ∧ fds p !! fd = None) l ∧
  (∀ n, n ∉ l → fds p' !! n = fds p !! n) ∧ resident (fds p') ∧
  next_file p' = next_file p ∧ calls p' = calls p.
Proof.
  revert p p' l. induction files as [|f files IH]; intros p p' l R; simpl.
  { intros [= <- <-]. split_and!; try done; by constructor. }
  destruct (install cloexec files _) as [p1 l1] eqn:E. intros [= <- <-].
  pose proof (lowest_high _ R) as Hh. destruct (lowest_free (fds p)) as [Hf _].
  apply IH in E as (H1 & Hn & Ha & Hk & R1 & En & Ec); [|by apply resident_insert].
  assert (lowest (fds p) ∉ l1) as Hnew.
  { intros Hin. rewrite Forall_forall in Ha. destruct (Ha _ Hin) as [_ Hx]. simpl in Hx.
    by rewrite lookup_insert_eq in Hx. }
  split_and!; try done.
  - constructor; [|done]. rewrite Hk by done. simpl. by rewrite lookup_insert_eq.
  - by constructor.
  - constructor; [done|]. eapply Forall_impl; [exact Ha|]. intros fd [? Hx]. split; [done|].
    simpl in Hx. rewrite lookup_insert in Hx. by case_decide.
  - intros n [Hne Hnl]%not_elem_of_cons. rewrite Hk by done. simpl. by rewrite lookup_insert_ne.
Qed.

(** Closing what was installed gives the table back. *)
Definition without (l : list Z) (T : gmap Z descriptor) : gmap Z descriptor := foldr delete T l.
Lemma lookup_without l T n : without l T !! n = if decide (n ∈ l) then None else T !! n.
Proof.
  induction l as [|fd l IH]; [by case_decide as Hn; [apply elem_of_nil in Hn|]|].
  unfold without in *. cbn [foldr]. rewrite lookup_delete, IH. repeat case_decide; try done; set_solver.
Qed.
Lemma without_install cloexec files p p' l :
  resident (fds p) → install cloexec files p = (p', l) → without l (fds p') = fds p.
Proof.
  intros R E. destruct (install_spec _ _ _ _ _ R E) as (_ & _ & Ha & Hk & _).
  apply map_eq. intros n. rewrite lookup_without. case_decide as Hn.
  - rewrite Forall_forall in Ha. by destruct (Ha _ Hn) as [_ ->].
  - by apply Hk.
Qed.

Section supervisor.
Context `{Capabilities} `{Kernel} `{Cloning} `{!IdentityKernel}.

Lemma fds_close fd st : fds (self (close_self fd st)) = delete fd (fds (self st)).
Proof. done. Qed.
Lemma acknowledge_self fd st : self (acknowledge fd st) = self st.
Proof. unfold acknowledge. by destruct (fds (self st) !! fd). Qed.
Lemma acknowledge_spec fd st f c :
  fds (self st) !! fd = Some (Descriptor f c) → acknowledge fd st = with_deed (Acknowledged f) st.
Proof. unfold acknowledge. by intros ->. Qed.

(** * Requests as they are sent *)

Definition used (a : action) : nat := match a with USE_PIPE => 1 | _ => 0 end.
(** The files a request comes with.  Only a request for a process may have lost some
    of them. *)
Definition proper (m : received) : Prop :=
  match m with
  | Received r files ctrunc =>
      match type r with
      | CREATE_PROCESS =>
          if ctrunc then (length files ≤ 4)%nat
          else length files = (1 + used (stdin_action r) + used (stdout_action r) + used (stderr_action r))%nat
      | SETGROUPS => ctrunc = false ∧ length files = if decide (setgroups_ngroups r = 0) then 1%nat else 2%nat
      | CAP_SET_PROC | CHDIR => ctrunc = false ∧ length files = 2%nat
      | _ => ctrunc = false ∧ length files = 1%nat
      end
  | _ => True
  end.

(** The files a request is sent with, and what arrives of it: all of them, or, when
    the kernel could not make a descriptor of each, fewer. *)
Definition sent_files (r : request) : nat :=
  match type r with
  | CREATE_PROCESS => 1 + used (stdin_action r) + used (stdout_action r) + used (stderr_action r)
  | SETGROUPS => if decide (setgroups_ngroups r = 0) then 1 else 2
  | CAP_SET_PROC | CHDIR => 2
  | _ => 1
  end.
Definition arrives (m : received) : Prop :=
  match m with
  | Received r files ctrunc =>
      if ctrunc then (length files < sent_files r)%nat else length files = sent_files r
  | _ => True
  end.
(** The supervisor reads the files of these without a look at what came: there is no
    header, or one that is too short. *)
Definition fatal (m : received) : bool :=
  match m with
  | Received r files true =>
      match type r with
      | CREATE_PROCESS | SETGROUPS => false
      | CAP_SET_PROC | CHDIR => bool_decide (length files = 1%nat)
      | _ => true
      end
  | _ => false
  end.
Lemma arrives_proper r files : arrives (Received r files false) → proper (Received r files false).
Proof. unfold arrives, sent_files, proper. by destruct (type r). Qed.

(** The change a request asks for. *)
Definition asked (memory : nat → contents) (r : request) (files : list nat) : option identity_change :=
  let mem := memory <$> files !! 1%nat in
  match type r with
  | CREATE_PROCESS => None
  | SETRESUID => Some (SetResuid (resuid r))
  | SETRESGID => Some (SetResgid (resgid r))
  | SETGROUPS => if decide (setgroups_ngroups r = 0) then Some (SetGroups []) else mem ≫= groups_in (setgroups_ngroups r)
  | CAP_SET_PROC => mem ≫= caps_in
  | CAP_DROP_BOUND => Some (CapDropBound (cap_value r))
  | CAP_SET_AMBIENT => Some (CapSetAmbient (cap_value r) (cap_flag_value r))
  | CAP_RESET_AMBIENT => Some CapResetAmbient
  | CAP_SET_SECBITS => Some (CapSetSecbits (cap_set_secbits_value r))
  | CHDIR => mem ≫= directory_in
  | UMASK => Some (SetUmask (umask_mask r))
  end.

(** The kernel refuses the supervisor, or the request makes no sense. *)
Definition withheld (c : option identity_change) : Prop :=
  c = None ∨ (∃ c' p, c = Some c' ∧ permitted c' p = false) ∨ ∃ f p, mappable f p = false.
(** A change is made and acknowledged, or the supervisor ends once its children have. *)
Definition follows (c : option identity_change) (pout : nat) (st : supervisor) (o : outcome_of_request) : Prop :=
  match o with
  | Continues st' => ∃ c', c = Some c' ∧ fds (self st') = fds (self st) ∧
      identity st' = identity st ++ [c'] ∧ deeds st' = deeds st ++ [Acknowledged pout]
  | Exits st' code waited => code = 1 ∧ waited = true ∧ fds (self st') = fds (self st) ∧
      identity st' = identity st ∧ deeds st' = deeds st ∧ withheld c
  | Crashes => False
  end.

Lemma follow_ok c pout f st st0 :
  fds (self st) !! pout = Some (Descriptor f false) → delete pout (fds (self st)) = fds (self st0) →
  identity st = identity st0 → deeds st = deeds st0 → follows (Some c) f st0 (follow c pout st).
Proof.
  intros Hf Ht Ei Ed. unfold follow. case_match; simpl.
  - exists c. rewrite (acknowledge_spec _ _ f false) by done. simpl. by rewrite Ei, Ed.
  - rewrite Ei, Ed. split_and!; try done. right; left. by eexists _, _.
Qed.
Lemma follow_umask_ok m pout f st st0 :
  fds (self st) !! pout = Some (Descriptor f false) → delete pout (fds (self st)) = fds (self st0) →
  identity st = identity st0 → deeds st = deeds st0 →
  follows (Some (SetUmask m)) f st0 (follow_umask m [pout] st).
Proof.
  intros Hf Ht Ei Ed. simpl. eexists. rewrite (acknowledge_spec _ _ f false) by done. simpl.
  by rewrite Ei, Ed.
Qed.
Lemma follow_memory_ok memory change a b f g st st0 :
  a ≠ b → fds (self st) !! a = Some (Descriptor f false) → fds (self st) !! b = Some (Descriptor g false) →
  delete a (delete b (fds (self st))) = fds (self st0) →
  identity st = identity st0 → deeds st = deeds st0 →
  follows (change (memory g)) f st0 (follow_memory memory change a b st).
Proof.
  intros Hab Ha Hb Ht Ei Ed. unfold follow_memory, mapped. rewrite Hb. simpl.
  assert (withheld (change (memory g)) →
    follows (change (memory g)) f st0 (Exits (close_self a (close_self b st)) 1 true)) as HX
    by (intros; simpl; by rewrite Ei, Ed).
  destruct (mappable g (self st)) eqn:Em; simpl; [|by apply HX; right; right; eexists _, _].
  destruct (change (memory g)) as [c|]; simpl; [|by apply HX; left].
  apply follow_ok; try done. simpl. by rewrite lookup_delete_ne.
Qed.

Lemma identity_request memory r files st p l :
  resident (fds (self st)) → type r ≠ CREATE_PROCESS → proper (Received r files false) →
  install false files (self st) = (p, l) →
  ∃ f, head files = Some f ∧ follows (asked memory r files) f st (handle_request memory r files false st).
Proof.
  intros R Hr Hp E. pose proof (without_install _ _ _ _ _ R E) as Hw.
  destruct (install_spec _ _ _ _ _ R E) as (Hh & Hn & _).
  unfold handle_request, asked. rewrite E. set (st1 := with_self (λ _, p) st).
  assert (∀ fd f c, files = [f] → l = [fd] → follows (Some c) f st (follow c fd st1)) as Hfollow.
  { intros fd f c -> ->. apply Forall2_cons in Hh as [Hf _]. by apply follow_ok. }
  assert (∀ fd f m, files = [f] → l = [fd] → follows (Some (SetUmask m)) f st (follow_umask m [fd] st1)) as Hmask.
  { intros fd f m -> ->. apply Forall2_cons in Hh as [Hf _]. by apply follow_umask_ok. }
  assert (∀ a b f g change, files = [f; g] → l = [a; b] →
    follows (change (memory g)) f st (follow_memory memory change a b st1)) as Hmem.
  { intros a b f g change -> ->. apply Forall2_cons in Hh as [Hf [Hg _]%Forall2_cons].
    apply NoDup_cons in Hn as [[Hab _]%not_elem_of_cons _]. by apply follow_memory_ok. }
  pose proof (Forall2_length _ _ _ Hh) as Hl. unfold proper in Hp.
  destruct (type r) eqn:Et; try done;
    repeat case_decide; destruct Hp as [_ Hp]; rewrite Hp in Hl;
    (destruct files as [|f [|g [|]]]; try done); (destruct l as [|a [|b [|]]]; try done);
    exists f; (split; [done|]); first [by apply Hmask|simpl; auto].
Qed.

(** * Processes *)

(** The file of a standard descriptor, the files that are left and the files made:
    a descriptor of the request, that of the supervisor, or the end of a pipe that
    nobody holds the other end of. *)
Definition stream (end_of : nat * nat → nat) (a : action) (inherited : nat) (files : list nat) (nf : nat) :
    nat * list nat * nat :=
  match a with
  | CLOSE_FD => (end_of (nf, S nf), files, S (S nf))
  | SHARE_PARENT => (inherited, files, nf)
  | USE_PIPE => (hd 0%nat files, tl files, nf)
  end.
Definition streams (r : request) (inherited : nat * nat * nat) (files : list nat) (nf : nat) : nat * nat * nat :=
  let '(i, o, e) := inherited in
  let '(f0, files, nf) := stream fst (stdin_action r) i files nf in
  let '(f1, files, nf) := stream snd (stdout_action r) o files nf in
  let '(f2, _, _) := stream snd (stderr_action r) e files nf in
  (f0, f1, f2).

(** ** The globals *)

Definition source_in (a : action) (fileno : Z) (l : list Z) : Z * list Z :=
  match a with
  | CLOSE_FD => (-1, l)
  | SHARE_PARENT => (fileno, l)
  | USE_PIPE => (hd (-1) l, tl l)
  end.
Lemma source_length a fileno l : length (source_in a fileno l).2 = (length l - used a)%nat.
Proof. destruct a; simpl; [lia|lia|]. destruct l; simpl; lia. Qed.
Lemma take_fd_spec k fd l : fd ≠ -1 →
  take_fd (replicate k (-1) ++ fd :: l) = Some (fd, replicate (S k) (-1) ++ l).
Proof.
  intros Hfd. induction k as [|k IH]; simpl; [by rewrite decide_True|].
  rewrite IH. done.
Qed.
(** [k] of the descriptors were taken, [l] are left, and the rest is padding. *)
Lemma settle_spec a fileno old k l n :
  Forall (λ fd, fd ≠ -1) l → used a ≤ length l →
  ∃ k', settle a fileno old (replicate k (-1) ++ l ++ replicate n (-1)) =
    Some ((source_in a fileno l).1, replicate k' (-1) ++ (source_in a fileno l).2 ++ replicate n (-1)) ∧
    Forall (λ fd, fd ≠ -1) (source_in a fileno l).2.
Proof.
  intros Hl Hn. destruct a; simpl in *.
  - by exists k.
  - by exists k.
  - destruct l as [|fd l]; simpl in *; [lia|]. apply Forall_cons in Hl as [Hfd Hl].
    rewrite take_fd_spec by done. by exists (S k).
Qed.
Lemma read_request_spec r l old inbox :
  Forall (λ fd, fd ≠ -1) (inbox :: l) → (length l ≤ 3)%nat →
  length l = (used (stdin_action r) + used (stdout_action r) + used (stderr_action r))%nat →
  let '(i, l0) := source_in (stdin_action r) 0 l in
  let '(o, l1) := source_in (stdout_action r) 1 l0 in
  let '(e, _) := source_in (stderr_action r) 2 l1 in
  ∃ color, read_request r (inbox :: l) old = Some (Globals inbox i o e color (has_lua_hook r)) ∧
    (stderr_action r = SHARE_PARENT → color = stderr_has_color r).
Proof.
  intros [Hi Hl]%Forall_cons Hlen E.
  destruct (settle_spec (stdin_action r) 0 (stdin_fd old) 0 l (3 - length l) Hl ltac:(lia))
    as (k0 & E0 & Hl0). pose proof (source_length (stdin_action r) 0 l) as Hn0.
  destruct (source_in (stdin_action r) 0 l) as [i l0]. simpl in E0, Hl0, Hn0.
  destruct (settle_spec (stdout_action r) 1 (stdout_fd old) k0 l0 (3 - length l) Hl0 ltac:(lia))
    as (k1 & E1 & Hl1). pose proof (source_length (stdout_action r) 1 l0) as Hn1.
  destruct (source_in (stdout_action r) 1 l0) as [o l1]. simpl in E1, Hl1, Hn1.
  destruct (settle_spec (stderr_action r) 2 (stderr_fd old) k1 l1 (3 - length l) Hl1 ltac:(lia))
    as (k2 & E2 & _). pose proof (source_length (stderr_action r) 2 l1) as Hn2.
  destruct (source_in (stderr_action r) 2 l1) as [e l2]. simpl in E2, Hn2.
  unfold read_request, four.
  assert (take 4 ((inbox :: l) ++ [-1; -1; -1; -1]) = inbox :: l ++ replicate (3 - length l) (-1)) as ->.
  { by destruct l as [|? [|? [|? [|]]]]; simpl in *; try lia. }
  rewrite decide_False by done. rewrite E0. simpl. rewrite E1. simpl. rewrite E2. simpl.
  assert (l2 = []) as -> by (apply length_zero_iff_nil; lia).
  rewrite decide_True.
  - eexists. split; [done|]. by intros ->.
  - apply Forall_app. split; [|simpl]; apply Forall_replicate; done.
Qed.

(** ** What the supervisor closes *)

Definition open_sources (source fileno : Z) : list Z :=
  if decide (source = -1 ∨ source = fileno) then [] else [source].
Definition closed_sources (g : globals) : list Z :=
  inboxfd g :: open_sources (stderr_fd g) 2 ++ open_sources (stdout_fd g) 1 ++ open_sources (stdin_fd g) 0.
Lemma close_source_spec source fileno st :
  close_source source fileno st = foldr close_self st (open_sources source fileno).
Proof. unfold close_source, open_sources. by case_decide. Qed.
Lemma foldr_close l st :
  fds (self (foldr close_self st l)) = without l (fds (self st)) ∧
  vars (foldr close_self st l) = vars st ∧ identity (foldr close_self st l) = identity st ∧
  deeds (foldr close_self st l) = deeds st.
Proof.
  induction l as [|fd l (E1 & E2 & E3 & E4)]; simpl; [done|]. by rewrite E1.
Qed.
Lemma without_perm l l' T : l ≡ₚ l' → without l T = without l' T.
Proof.
  intros E. apply map_eq. intros n. rewrite !lookup_without.
  by destruct (decide (n ∈ l)), (decide (n ∈ l')); try done; rewrite E in *.
Qed.
Lemma without_app l l' T : without (l ++ l') T = without l (without l' T).
Proof. unfold without. apply foldr_app. Qed.
Lemma without_new fd d l T :
  T !! fd = None → delete fd (without l (<[fd := d]> T)) = without l T.
Proof.
  intros Hf. apply map_eq. intros n. rewrite lookup_delete, !lookup_without, lookup_insert.
  repeat case_decide; try done; by subst.
Qed.

(** The descriptors of a request are those of its globals. *)
Lemma sources_closed a fileno l : 0 ≤ fileno < 4 → Forall (λ fd, 4 ≤ fd) l → (used a ≤ length l)%nat →
  l = open_sources (source_in a fileno l).1 fileno ++ (source_in a fileno l).2 ∧
  Forall (λ fd, 4 ≤ fd) (source_in a fileno l).2.
Proof.
  intros Hf Hl Hn. unfold open_sources. destruct a; simpl.
  - done.
  - by rewrite decide_True by (by right).
  - destruct l as [|fd l]; simpl in *; [lia|]. apply Forall_cons in Hl as [Hfd Hl].
    by rewrite decide_False by lia.
Qed.
Lemma globals_closed r l inbox old g :
  Forall (λ fd, 4 ≤ fd) (inbox :: l) →
  length l = (used (stdin_action r) + used (stdout_action r) + used (stderr_action r))%nat →
  read_request r (inbox :: l) old = Some g →
  closed_sources g ≡ₚ inbox :: l ∧ lua_hook g = has_lua_hook r ∧
  (stderr_action r = SHARE_PARENT → proc_stderr_has_color g = stderr_has_color r) ∧
  let '(i, l0) := source_in (stdin_action r) 0 l in
  let '(o, l1) := source_in (stdout_action r) 1 l0 in
  let '(e, _) := source_in (stderr_action r) 2 l1 in
  inboxfd g = inbox ∧ stdin_fd g = i ∧ stdout_fd g = o ∧ stderr_fd g = e.
Proof.
  intros Hall Hn E. pose proof Hall as [Hi Hl]%Forall_cons.
  assert (length l ≤ 3)%nat as H3.
  { destruct (stdin_action r), (stdout_action r), (stderr_action r); simpl in Hn; lia. }
  pose proof (read_request_spec r l old inbox) as S.
  destruct (sources_closed (stdin_action r) 0 l ltac:(lia) Hl ltac:(lia)) as [E0 H0'].
  pose proof (source_length (stdin_action r) 0 l) as L0.
  destruct (source_in (stdin_action r) 0 l) as [i l0]. simpl in *.
  destruct (sources_closed (stdout_action r) 1 l0 ltac:(lia) H0' ltac:(lia)) as [E1 H1'].
  pose proof (source_length (stdout_action r) 1 l0) as L1.
  destruct (source_in (stdout_action r) 1 l0) as [o l1]. simpl in *.
  destruct (sources_closed (stderr_action r) 2 l1 ltac:(lia) H1' ltac:(lia)) as [E2 _].
  pose proof (source_length (stderr_action r) 2 l1) as L2.
  destruct (source_in (stderr_action r) 2 l1) as [e l2]. simpl in *.
  assert (l2 = []) as -> by (apply length_zero_iff_nil; lia).
  destruct S as (color & Eg & Hc); [|done|done|].
  { eapply Forall_impl; [exact Hall|]. simpl. lia. }
  rewrite E in Eg. injection Eg as ->. simpl. split_and!; try done.
  unfold closed_sources. simpl. constructor. rewrite E0 at 1. rewrite E1 at 1. rewrite E2 at 1.
  rewrite app_nil_r. solve_Permutation.
Qed.

(** ** The descriptors of the child *)

(** A source stands for a file. *)
Definition stands (T : gmap Z descriptor) (end_of : nat * nat → nat) (source fileno : Z) (nf f nf' : nat) : Prop :=
  (source = -1 ∧ f = end_of (nf, S nf) ∧ nf' = S (S nf)) ∨
  ((source = fileno ∨ 4 ≤ source) ∧ T !! source = Some (Descriptor f false) ∧ nf' = nf).
Lemma stands_stream T end_of a fileno inherited nf l files :
  T !! fileno = Some (Descriptor inherited false) → holds T false l files → Forall (λ fd, 4 ≤ fd) l →
  (used a ≤ length l)%nat →
  let '(source, l') := source_in a fileno l in
  let '(f, files', nf') := stream end_of a inherited files nf in
  stands T end_of source fileno nf f nf' ∧ holds T false l' files' ∧ Forall (λ fd, 4 ≤ fd) l'.
Proof.
  intros Hi Hh Hl Hn. destruct a; simpl in *.
  - split_and!; [by left|done|done].
  - split_and!; [by right; split; [left|]|done|done].
  - destruct Hh as [|fd f l files Hf Hh]; simpl in *; [lia|]. apply Forall_cons in Hl as [Hfd Hl].
    split_and!; [by right; split; [right|]|done|done].
Qed.

(** The first standard descriptors are set; from 4 on nothing is lost. *)
Record prepared (T : gmap Z descriptor) (don : list nat) (nf : nat) (p : process) : Prop := {
  prepared_nonneg n : is_Some (fds p !! n) → 0 ≤ n;
  prepared_high n d : 4 ≤ n → T !! n = Some d → fds p !! n = Some d;
  prepared_done (i : nat) f : don !! i = Some f → fds p !! Z.of_nat i = Some (Descriptor f false);
  prepared_todo n : length don ≤ n < 4 → fds p !! n = T !! n;
  prepared_next : next_file p = nf;
}.
Lemma prepared_resident T don nf p : resident T → (length don ≤ 3)%nat → prepared T don nf p → resident (fds p).
Proof.
  intros [R1 R2] Hn [P1 P2 P3 P4 P5]. split; [done|]. intros n Hr.
  destruct (decide (n < length don)).
  - destruct (lookup_lt_is_Some_2 don (Z.to_nat n)) as [f Hf]; [lia|]. exists f.
    apply P3 in Hf. by rewrite Z2Nat.id in Hf by lia.
  - rewrite P4 by lia. by apply R2.
Qed.
Lemma performed c p p' : perform c p = inr p' → ∃ q, effect c p = inr q ∧ p' = logged c q.
Proof.
  unfold perform. destruct (refusal c p); [done|]. destruct (effect c p) as [|q]; [done|].
  intros [= <-]. by exists q.
Qed.
Lemma prepared_set T don nf p p' source d :
  prepared T don nf p → (length don ≤ 2)%nat → fds p !! source = Some d →
  source ≠ Z.of_nat (length don) →
  perform (Dup2 source (Z.of_nat (length don))) p = inr p' → prepared T (don ++ [file d]) nf p'.
Proof.
  intros [P1 P2 P3 P4 P5] Hn Hd Hne (q & E & ->)%performed. simpl in E. rewrite Hd in E.
  rewrite decide_False in E by done. injection E as <-. split; simpl; try done.
  - intros n. rewrite lookup_insert. case_decide; [lia|apply P1].
  - intros n d' H4 Hd'. rewrite lookup_insert_ne by lia. by apply P2.
  - intros i f [Hi|[Hi Hf]]%lookup_app_Some.
    + pose proof (lookup_lt_Some _ _ _ Hi). rewrite lookup_insert_ne by lia. by apply P3.
    + pose proof (lookup_lt_Some _ _ _ Hf) as Hlt. simpl in Hlt.
      replace (i - length don)%nat with 0%nat in Hf by lia. injection Hf as <-.
      replace i with (length don) by lia. by rewrite lookup_insert_eq.
  - intros n Hr. rewrite length_app in Hr. simpl in Hr. rewrite lookup_insert_ne by lia. apply P4. lia.
Qed.
Lemma prepared_pipe T don nf p p' : resident T →
  prepared T don nf p → (length don ≤ 2)%nat → perform Pipe p = inr p' →
  prepared T don (S (S nf)) p' ∧ 4 ≤ (pipe_ends p).1 ∧ 4 ≤ (pipe_ends p).2 ∧
  fds p' !! (pipe_ends p).1 = Some (Descriptor nf false) ∧
  fds p' !! (pipe_ends p).2 = Some (Descriptor (S nf) false).
Proof.
  intros R P Hn (q & E & ->)%performed. pose proof (prepared_resident T don nf p R ltac:(lia) P) as Rp.
  pose proof (lowest_high _ Rp) as Hr. destruct (lowest_free (fds p)) as [Fr _].
  pose proof (lowest_high _ (resident_insert _ _ (Descriptor (next_file p) false) Rp Hr)) as Hw.
  destruct (lowest_free (<[lowest (fds p) := Descriptor (next_file p) false]> (fds p))) as [Fw _].
  cbn [effect] in E. unfold pipe_ends in *. injection E as <-. cbn [fst snd fds logged].
  set (r := lowest (fds p)) in *. set (w := lowest (<[r := Descriptor (next_file p) false]> (fds p))) in *.
  destruct P as [P1 P2 P3 P4 P5]. subst nf.
  assert (w ≠ r) as Hne by (intros E; by rewrite E, lookup_insert_eq in Fw).
  rewrite lookup_insert_ne in Fw by done.
  split_and!; [|done|done|by rewrite lookup_insert_ne, lookup_insert_eq by done|by rewrite lookup_insert_eq].
  split; simpl; try done.
  - intros n. rewrite !lookup_insert. repeat case_decide; [lia|lia|apply P1].
  - intros n d H4 Hd. specialize (P2 n d H4 Hd). rewrite !lookup_insert_ne; [done|congruence|congruence].
  - intros i f Hi. pose proof (lookup_lt_Some _ _ _ Hi). rewrite !lookup_insert_ne by lia. by apply P3.
  - intros n Hr'. rewrite !lookup_insert_ne by lia. by apply P4.
Qed.
Lemma child_standard_ok T don nf f nf' (write : bool) source p p' :
  resident T → prepared T don nf p → (length don ≤ 2)%nat →
  stands T (if write then snd else fst) source (Z.of_nat (length don)) nf f nf' →
  child_standard (if write then snd else fst) source (Z.of_nat (length don)) p = Some p' →
  prepared T (don ++ [f]) nf' p'.
Proof.
  intros R P Hn S. unfold child_standard. destruct S as [(-> & -> & ->)|(Hs & Hd & ->)].
  - rewrite decide_True by done. destruct (perform Pipe p) as [|p1] eqn:E1; simpl; [done|].
    destruct (prepared_pipe _ _ _ _ _ R P Hn E1) as (P1 & H4r & H4w & Hfr & Hfw).
    destruct (perform (Dup2 _ _) p1) as [|p2] eqn:E2; simpl; [done|]. intros [= <-].
    destruct write; [eapply (prepared_set _ _ _ _ _ _ (Descriptor (Datatypes.S nf) false))|
      eapply (prepared_set _ _ _ _ _ _ (Descriptor nf false))]; eauto; lia.
  - rewrite decide_False by lia. case_decide as Hsame.
    + intros [= <-]. subst source. destruct P as [P1 P2 P3 P4 P5]. split; try done.
      * intros i g [Hi|[Hi Hf]]%lookup_app_Some; [by apply P3|].
        pose proof (lookup_lt_Some _ _ _ Hf) as Hlt. simpl in Hlt.
        replace (i - length don)%nat with 0%nat in Hf by lia. injection Hf as <-.
        replace i with (length don) by lia. rewrite P4 by lia. done.
      * intros n Hr. rewrite length_app in Hr. simpl in Hr. apply P4. lia.
    + destruct Hs as [?|Hs]; [done|].
      destruct (perform (Dup2 _ _) p) as [|p2] eqn:E2; simpl; [done|]. intros [= <-].
      apply (prepared_set T don nf p p2 source (Descriptor f false)); try done.
      by apply (prepared_high _ _ _ _ P).
Qed.

(** What the child has before it reads anything. *)
Definition child_table (streams : nat * nat * nat) (inbox : nat) : gmap Z descriptor :=
  let '(i, o, e) := streams in
  {[0 := Descriptor i false; 1 := Descriptor o false; 2 := Descriptor e false; 3 := Descriptor inbox true]}.
Lemma lookup_child_table i o e inbox n :
  child_table (i, o, e) inbox !! n =
    if decide (n = 0) then Some (Descriptor i false) else if decide (n = 1) then Some (Descriptor o false)
    else if decide (n = 2) then Some (Descriptor e false) else if decide (n = 3) then Some (Descriptor inbox true)
    else None.
Proof.
  unfold child_table. repeat case_decide; subst; try done.
  rewrite !lookup_insert_ne by congruence. by rewrite lookup_singleton_ne by congruence.
Qed.

(** The rest of [child_descriptors], once the standard descriptors are set. *)
Lemma only_these T f0 f1 f2 nf p3 p4 p5 p6 inbox fi :
  prepared T [f0; f1; f2] nf p3 → 4 ≤ inbox → T !! inbox = Some (Descriptor fi false) →
  perform (Dup2 inbox 3) p3 = inr p4 → perform (SetCloexec 3) p4 = inr p5 →
  perform (CloseRange 4) p5 = inr p6 → fds p6 = child_table (f0, f1, f2) fi.
Proof.
  intros P H4 Hi (q4 & E4 & ->)%performed (q5 & E5 & ->)%performed (q6 & E6 & ->)%performed.
  simpl in E4, E5, E6. rewrite (prepared_high _ _ _ _ P _ _ H4 Hi), decide_False in E4 by lia.
  injection E4 as <-. simpl in E5. rewrite lookup_insert_eq in E5. injection E5 as <-. injection E6 as <-.
  apply map_eq. intros n. rewrite lookup_child_table. cbn [fds logged with_fds].
  assert (filter (λ x : Z * descriptor, x.1 < 4)
    (<[3 := Descriptor fi true]> (<[3 := Descriptor fi false]> (fds p3))) !! n =
    if decide (n < 4) then <[3 := Descriptor fi true]> (fds p3) !! n else None) as ->.
  { rewrite map_lookup_filter, insert_insert_eq.
    destruct (<[3 := Descriptor fi true]> (fds p3) !! n); simpl; [|by case_decide].
    destruct (decide (n < 4)) as [Hn|Hn]; [by rewrite option_guard_True|by rewrite option_guard_False]. }
  pose proof (prepared_done _ _ _ _ P) as D. rewrite lookup_insert.
  destruct (decide (n = 0)) as [->|]; [exact (D 0%nat f0 eq_refl)|].
  destruct (decide (n = 1)) as [->|]; [exact (D 1%nat f1 eq_refl)|].
  destruct (decide (n = 2)) as [->|]; [exact (D 2%nat f2 eq_refl)|].
  destruct (decide (n = 3)) as [->|]; [done|]. rewrite (decide_False (P := 3 = n)) by congruence.
  destruct (decide (n < 4)); [|done]. destruct (fds p3 !! n) eqn:E; [|done].
  pose proof (prepared_nonneg _ _ _ _ P n ltac:(by eexists)). lia.
Qed.
Lemma child_descriptors_ok T p p' g fi f0 n0 f1 n1 f2 n2 :
  resident T → fds p = T → T !! inboxfd g = Some (Descriptor fi false) → 4 ≤ inboxfd g →
  stands T fst (stdin_fd g) 0 (next_file p) f0 n0 → stands T snd (stdout_fd g) 1 n0 f1 n1 →
  stands T snd (stderr_fd g) 2 n1 f2 n2 →
  child_descriptors g p = Some p' → fds p' = child_table (f0, f1, f2) fi.
Proof.
  intros R ET Hi H4 S0 S1 S2. unfold child_descriptors.
  assert (prepared T [] (next_file p) p) as P.
  { split; rewrite ?ET; try done. apply R. }
  destruct (child_standard fst _ 0 p) as [p1|] eqn:E1; simpl; [|done].
  apply (child_standard_ok T [] (next_file p) f0 n0 false (stdin_fd g) p p1) in E1; [|done..|simpl; lia|done]. clear P.
  destruct (child_standard snd _ 1 p1) as [p2|] eqn:E2; simpl; [|done].
  apply (child_standard_ok T [f0] n0 f1 n1 true (stdout_fd g) p1 p2) in E2; [|done..|simpl; lia|done].
  destruct (child_standard snd _ 2 p2) as [p3|] eqn:E3; simpl; [|done].
  apply (child_standard_ok T [f0; f1] n1 f2 n2 true (stderr_fd g) p2 p3) in E3; [|done..|simpl; lia|done].
  destruct (perform (Dup2 _ 3) p3) as [|p4] eqn:E4; simpl; [done|].
  destruct (perform (SetCloexec 3) p4) as [|p5] eqn:E5; simpl; [done|].
  destruct (perform (CloseRange 4) p5) as [|p6] eqn:E6; simpl; [done|]. intros [= <-].
  by eapply only_these.
Qed.

(** * The supervisor *)

Definition standard_files (T : gmap Z descriptor) : nat * nat * nat :=
  let f n := default 0%nat (file <$> T !! n) in (f 0, f 1, f 2).
(** The child of a request [r] that came with [files]. *)
Record child_of (r : request) (files : list nat) (st : supervisor) (child : process) (g : globals) : Prop := {
  child_hook : lua_hook g = has_lua_hook r;
  child_color : stderr_action r = SHARE_PARENT → proc_stderr_has_color g = stderr_has_color r;
  child_share : stderr_fd g = 2 ↔ stderr_action r = SHARE_PARENT;
  child_fds p : child_descriptors g child = Some p →
    fds p = child_table (streams r (standard_files (fds (self st))) (tl files) (next_file (self st)))
              (hd 0%nat files);
}.
(** A child was made, or the kernel refused; the answer goes to the inbox. *)
Definition makes (r : request) (files : list nat) (st st' : supervisor) : Prop :=
  fds (self st') = fds (self st) ∧ identity st' = identity st ∧
  ((∃ e, deeds st' = deeds st ++ [Replied (hd 0%nat files) (-1) e None]) ∨
   ∃ child g pid pidfile, deeds st' = deeds st ++ [Created child g (flags_of r); Replied (hd 0%nat files) pid 0 (Some pidfile)] ∧
     child_of r files st child g).

Lemma holds_kept T T' c l files : (∀ n, n ∈ l → T' !! n = T !! n) → holds T c l files → holds T' c l files.
Proof.
  intros Hk Hh. induction Hh as [|fd f l files Hf Hh IH]; constructor.
  - by rewrite Hk by left.
  - apply IH. intros n Hn. apply Hk. by right.
Qed.

(** How the supervisor ends a request for a process. *)
Lemma reply_and_close_spec st pid e pidfd f l :
  closed_sources (vars st) ≡ₚ l → NoDup l → fds (self st) !! inboxfd (vars st) = Some (Descriptor f false) →
  pidfd ∉ l →
  let st' := reply_and_close pid e pidfd st in
  identity st' = identity st ∧
  deeds st' = deeds st ++ [Replied f pid e (file <$> fds (self st) !! pidfd)] ∧
  fds (self st') = if decide (pidfd = -1) then without l (fds (self st))
                   else delete pidfd (without l (fds (self st))).
Proof.
  intros El Hn Hf Hp. unfold reply_and_close. rewrite !close_source_spec, <- !foldr_app, <- app_assoc.
  set (srcs := open_sources (stderr_fd (vars st)) 2 ++ _). cbn zeta.
  destruct (foldr_close srcs st) as (E1 & E2 & E3 & E4).
  rewrite <- El in Hn, Hp. rewrite <- (without_perm _ _ _ El). clear El l.
  unfold closed_sources in *. fold srcs in Hn, Hp |- *.
  apply NoDup_cons in Hn as [Hi Hn]. apply not_elem_of_cons in Hp as [Hpi Hps].
  rewrite E1, lookup_without, (decide_False (P := inboxfd (vars st) ∈ srcs)), Hf by done. cbn [self with_deed].
  rewrite lookup_without, (decide_False (P := pidfd ∈ srcs)) by done.
  case_decide; cbn; by rewrite ?E1, ?E3, ?E4.
Qed.

Lemma standard_file_at T n : resident T → 0 ≤ n < 4 →
  T !! n = Some (Descriptor (default 0%nat (file <$> T !! n)) false).
Proof. intros R Hn. by destruct (resident_low _ R n Hn) as [f ->]. Qed.
Lemma child_ok r st p inbox l fi files old g :
  resident (fds (self st)) → resident (fds p) → next_file p = next_file (self st) →
  (∀ n, 0 ≤ n < 4 → fds p !! n = fds (self st) !! n) →
  holds (fds p) false (inbox :: l) (fi :: files) → Forall (λ fd, 4 ≤ fd) (inbox :: l) →
  length l = (used (stdin_action r) + used (stdout_action r) + used (stderr_action r))%nat →
  read_request r (inbox :: l) old = Some g → child_of r (fi :: files) st p g.
Proof.
  intros R Rp En Hlow [Hi Hh]%Forall2_cons H4 Hn E.
  destruct (globals_closed _ _ _ _ _ H4 Hn E) as (_ & Ehook & Ecolor & G).
  apply Forall_cons in H4 as [Hi4 Hl4].
  assert (∀ n, 0 ≤ n < 4 → fds p !! n = Some (Descriptor (default 0%nat (file <$> fds (self st) !! n)) false)) as Hstd.
  { intros n Hr. rewrite Hlow by done. by apply standard_file_at. }
  pose proof (stands_stream _ fst (stdin_action r) 0 _ (next_file p) l files (Hstd 0 ltac:(lia)) Hh Hl4 ltac:(lia)) as S0.
  pose proof (source_length (stdin_action r) 0 l) as L0.
  destruct (source_in (stdin_action r) 0 l) as [i l0]. simpl in L0.
  destruct (stream fst (stdin_action r) _ files (next_file p)) as [[f0 files0] n0] eqn:F0.
  destruct S0 as (S0 & Hh0 & Hl0).
  pose proof (stands_stream _ snd (stdout_action r) 1 _ n0 l0 files0 (Hstd 1 ltac:(lia)) Hh0 Hl0 ltac:(lia)) as S1.
  pose proof (source_length (stdout_action r) 1 l0) as L1.
  destruct (source_in (stdout_action r) 1 l0) as [o l1]. simpl in L1.
  destruct (stream snd (stdout_action r) _ files0 n0) as [[f1 files1] n1] eqn:F1.
  destruct S1 as (S1 & Hh1 & Hl1).
  pose proof (stands_stream _ snd (stderr_action r) 2 _ n1 l1 files1 (Hstd 2 ltac:(lia)) Hh1 Hl1 ltac:(lia)) as S2.
  destruct (source_in (stderr_action r) 2 l1) as [e l2] eqn:Esrc.
  destruct (stream snd (stderr_action r) _ files1 n1) as [[f2 files2] n2] eqn:F2.
  destruct S2 as (S2 & _ & _), G as (Ei & E0 & E1 & E2).
  split; [done|done| |].
  - rewrite E2. destruct (stderr_action r); simpl in Esrc; injection Esrc as Ee _; split; try done; try lia.
    intros He. destruct l1 as [|x l1]; simpl in *; [lia|]. apply Forall_cons in Hl1 as [? _]. lia.
  - intros p' Hp'. unfold streams, standard_files. cbv beta zeta. cbn [tl hd]. rewrite <- En, F0, F1, F2.
    eapply (child_descriptors_ok (fds p)); subst; eauto.
Qed.

Lemma create_ok r files st p l :
  resident (fds (self st)) → proper (Received r files false) → type r = CREATE_PROCESS →
  install false files (self st) = (p, l) →
  ∃ st', create_process r false l (with_self (λ _, p) st) = Continues st' ∧ makes r files st st'.
Proof.
  intros R Hp Et E. pose proof (without_install _ _ _ _ _ R E) as Hw.
  destruct (install_spec _ _ _ _ _ R E) as (Hh & Hnd & Ha & Hk & R1 & Enf & _).
  simpl in Hp. rewrite Et in Hp. pose proof (Forall2_length _ _ _ Hh) as Hl.
  assert (Forall (λ fd, 4 ≤ fd) l) as H4 by (eapply Forall_impl; [exact Ha|]; by intros ? []).
  destruct l as [|inbox l], files as [|fi files]; simpl in Hp, Hl; try lia.
  assert (length l = used (stdin_action r) + used (stdout_action r) + used (stderr_action r))%nat as Hn by lia.
  assert (length l ≤ 3)%nat as H3.
  { destruct (stdin_action r), (stdout_action r), (stderr_action r); simpl in Hn; lia. }
  set (st1 := with_self (λ _, p) st). unfold create_process. rewrite decide_False by (simpl; lia).
  assert (∃ g, read_request r (inbox :: l) (vars st1) = Some g) as [g Eg].
  { pose proof (read_request_spec r l (vars st1) inbox) as S.
    destruct (source_in (stdin_action r) 0 l) as [? l0], (source_in (stdout_action r) 1 l0) as [? l1],
      (source_in (stderr_action r) 2 l1). destruct S as (? & -> & _); [|done|done|by eexists].
    eapply Forall_impl; [exact H4|]. simpl. lia. }
  rewrite Eg. destruct (globals_closed _ _ _ _ _ H4 Hn Eg) as (Ecl & _ & _ & G).
  assert (inboxfd g = inbox) as Ei.
  { destruct (source_in (stdin_action r) 0 l) as [? l0], (source_in (stdout_action r) 1 l0) as [? l1],
      (source_in (stderr_action r) 2 l1). apply G. }
  pose proof Hh as [Hi _]%Forall2_cons.
  assert (∀ n, n ∈ inbox :: l → is_Some (fds p !! n)) as Hopen.
  { intros n (k & Hn')%list_elem_of_lookup. destruct (Forall2_lookup_l _ _ _ _ _ Hh Hn') as (? & _ & ->). by eexists. }
  cbn [self with_vars with_self st1]. destruct (clone_refused p) as [e|].
  - destruct (reply_and_close_spec (with_vars g st1) (-1) e (-1) fi (inbox :: l)) as (E1 & E2 & E3); simpl; rewrite ?Ei; try done.
    { intros [d Hd]%Hopen. pose proof (resident_nonneg _ R1 (-1) ltac:(by eexists)). lia. }
    eexists. split; [done|]. split_and!; [by rewrite E3|by rewrite E1|]. left. exists e. rewrite E2. simpl.
    destruct (fds p !! -1) eqn:Em; [|done]. pose proof (resident_nonneg _ R1 (-1) ltac:(by eexists)). lia.
  - unfold open_pidfd. destruct (lowest_free (fds p)) as [Hpid Hpid0].
    set (pidfd := lowest (fds p)) in *. set (d := Descriptor (next_file p) true).
    set (st2 := with_deed (Created p g (flags_of r)) (with_self
      (λ _, Process (<[pidfd := d]> (fds p)) (S (next_file p)) (calls p)) (with_vars g st1))).
    assert (pidfd ∉ inbox :: l) as Hnew by (intros [? ?]%Hopen; congruence).
    destruct (reply_and_close_spec st2 (child_pid p) 0 pidfd fi (inbox :: l)) as (E1 & E2 & E3); simpl; rewrite ?Ei; try done.
    { rewrite lookup_insert_ne; [done|]. intros E'. apply Hnew. rewrite E'. by left. }
    eexists. split; [done|]. split_and!; [|by rewrite E1|].
    + rewrite E3, decide_False by lia. change (fds (self st2)) with (<[pidfd := d]> (fds p)).
      rewrite without_new by done. exact Hw.
    + right. exists p, g, (child_pid p), (next_file p). split.
      * rewrite E2. simpl. rewrite lookup_insert_eq. by rewrite <- app_assoc.
      * eapply child_ok; eauto. intros n Hr. apply Hk. intros Hin.
        rewrite Forall_forall in Ha. destruct (Ha _ Hin). lia.
Qed.

Lemma lost_ok r files st p l :
  resident (fds (self st)) → (length files ≤ 4)%nat → install false files (self st) = (p, l) →
  ∃ st', create_process r true l (with_self (λ _, p) st) = Continues st' ∧
    fds (self st') = fds (self st) ∧ identity st' = identity st ∧ deeds st' = deeds st.
Proof.
  intros R Hn E. pose proof (without_install _ _ _ _ _ R E) as Hw.
  destruct (install_spec _ _ _ _ _ R E) as (Hh & _). pose proof (Forall2_length _ _ _ Hh) as Hl.
  unfold create_process. rewrite decide_False by lia. eexists. split; [done|].
  destruct (foldr_close l (with_self (λ _, p) st)) as (-> & _ & -> & ->). done.
Qed.

(** What a request does: the change it asks for, which is acknowledged; a process, or
    the answer that the kernel refuses one; nothing, when the files of a request for a
    process were lost; or a change without acknowledgement, that to no groups, when its
    pipe was. *)
Inductive dealt (memory : nat → contents) : received → supervisor → supervisor → Prop :=
| dealt_change r files f c st st' :
    asked memory r files = Some c → head files = Some f → identity st' = identity st ++ [c] →
    deeds st' = deeds st ++ [Acknowledged f] → dealt memory (Received r files false) st st'
| dealt_process r files st st' :
    type r = CREATE_PROCESS → makes r files st st' → dealt memory (Received r files false) st st'
| dealt_lost r files st st' :
    type r = CREATE_PROCESS → identity st' = identity st → deeds st' = deeds st →
    dealt memory (Received r files true) st st'
| dealt_silently r st st' :
    type r = SETGROUPS → setgroups_ngroups r = 0 → identity st' = identity st ++ [SetGroups []] →
    deeds st' = deeds st → dealt memory (Received r [] true) st st'.
Inductive serves (memory : nat → contents) : list received → supervisor → supervisor → Prop :=
| serves_none st : serves memory [] st st
| serves_more m l st st1 st' :
    dealt memory m st st1 → fds (self st1) = fds (self st) → serves memory l st1 st' → serves memory (m :: l) st st'.

(** What makes the supervisor end, and its status. *)
Definition ends_with (memory : nat → contents) (m : received) (code : Z) : Prop :=
  match m with
  | HungUp => code = 0
  | ReceiveError => code = 1
  | Received r files _ =>
      code = 1 ∧ type r ≠ CREATE_PROCESS ∧ fatal m = false ∧ withheld (asked memory r files)
  end.
(** Dealt with, ended before anything was done, or dead. *)
Definition outcome_ok (memory : nat → contents) (m : received) (st : supervisor) (o : outcome_of_request) : Prop :=
  match o with
  | Continues st' => dealt memory m st st' ∧ fds (self st') = fds (self st)
  | Exits st' code waited =>
      waited = true ∧ identity st' = identity st ∧ deeds st' = deeds st ∧ ends_with memory m code
  | Crashes => fatal m = true
  end.

Lemma lost_memory_ok memory change r files a st st0 :
  type r ≠ CREATE_PROCESS → fatal (Received r files true) = false → asked memory r files = None →
  resident (fds (self st)) → identity st = identity st0 → deeds st = deeds st0 →
  outcome_ok memory (Received r files true) st0 (follow_memory memory change a (-1) st).
Proof.
  intros Et Hf Ea R Ei Ed. unfold follow_memory, mapped.
  destruct (fds (self st) !! -1) eqn:E; [pose proof (resident_nonneg _ R (-1) ltac:(by eexists)); lia|].
  simpl. rewrite Ei, Ed, Ea. split_and!; try done. by left.
Qed.
Lemma lost_groups_ok memory r st :
  type r = SETGROUPS → setgroups_ngroups r = 0 → fds (self st) !! (-1) = None →
  outcome_ok memory (Received r [] true) st (follow (SetGroups []) (-1) st).
Proof.
  intros Et En Hm. unfold follow, acknowledge. destruct (permitted _ _) eqn:Ep; simpl.
  - rewrite Hm. split; [by apply dealt_silently|]. simpl. by rewrite delete_id.
  - rewrite Et. split_and!; try done. right; left. eexists _, _. split; [|exact Ep].
    unfold asked. by rewrite Et, En.
Qed.
(** A request for a change whose files were lost. *)
Lemma lost_change_ok memory r files st p l :
  resident (fds (self st)) → type r ≠ CREATE_PROCESS → (length files < sent_files r)%nat →
  install false files (self st) = (p, l) →
  outcome_ok memory (Received r files true) st (handle_request memory r files true st).
Proof.
  intros R Et Hlt E. destruct (install_spec _ _ _ _ _ R E) as (Hh & _ & _ & _ & R' & _).
  pose proof (Forall2_length _ _ _ Hh) as Hl. unfold handle_request. rewrite E.
  unfold sent_files in Hlt. set (st1 := with_self (λ _, p) st).
  assert (fds (self st) !! (-1) = None) as Hm.
  { destruct (_ !! -1) eqn:Ed; [|done]. pose proof (resident_nonneg _ R (-1) ltac:(by eexists)). lia. }
  destruct files as [|f [|]]; destruct l as [|fd [|]]; simpl in Hl, Hlt; try done;
    [injection E as <-; assert (st1 = st) as -> by by destruct st|..];
    destruct (type r) eqn:Ety; try done; repeat case_decide; try lia; simpl;
    rewrite ?Ety; try done; try (by apply lost_groups_ok);
    apply lost_memory_ok; try done; unfold fatal, asked; rewrite ?Ety, ?decide_False by done; done.
Qed.

Lemma handle_ok memory r files ctrunc st :
  resident (fds (self st)) → arrives (Received r files ctrunc) →
  outcome_ok memory (Received r files ctrunc) st (handle_request memory r files ctrunc st).
Proof.
  intros R Hp. destruct (install false files (self st)) as [p l] eqn:E.
  destruct (decide (type r = CREATE_PROCESS)) as [Et|Et].
  - unfold handle_request. rewrite E, Et. destruct ctrunc.
    + assert (length files ≤ 4)%nat as H4.
      { simpl in Hp. unfold sent_files in Hp. rewrite Et in Hp.
        destruct (stdin_action r), (stdout_action r), (stderr_action r); simpl in Hp; lia. }
      destruct (lost_ok r files st p l R H4 E) as (st' & -> & Ef & Ei & Ed). split; [|done].
      by apply dealt_lost.
    + destruct (create_ok r files st p l R (arrives_proper _ _ Hp) Et E) as (st' & -> & M).
      split; [|apply M]. by apply dealt_process.
  - destruct ctrunc; [by eapply lost_change_ok|].
    destruct (identity_request memory r files st p l R Et (arrives_proper _ _ Hp) E) as (f & Hf & F).
    destruct (handle_request memory r files false st) as [st'|st' code waited|]; simpl in F; [| |done].
    + destruct F as (c & Ec & Efds & Ei & Ed). split; [|done]. by eapply dealt_change.
    + destruct F as (-> & -> & _ & Ei & Ed & Hw). by split_and!.
Qed.

(** C7 The supervisor deals with each request that arrives, in order, and has the
    descriptors it had before: it makes the change that is asked for and acknowledges
    it; it makes the process, or answers that the kernel refuses one; and it ignores a
    request for a process whose files were lost.  When its socket ends or fails, the
    kernel refuses it a change or the memory of one was lost, it ends, after its
    children, with nothing of the request done.  A change of no groups whose pipe was
    lost is made without an acknowledgement.  The supervisor dies, without waiting for
    its children, at a request for another change whose files were lost ([fatal]), and
    at nothing else. *)
Theorem supervisor_serves memory l st :
  resident (fds (self st)) → Forall arrives l →
  match serve memory l st with
  | Continues st' => serves memory l st st' ∧ fds (self st') = fds (self st)
  | Exits st' code waited => waited = true ∧ ∃ don m rest st1, l = don ++ m :: rest ∧
      serves memory don st st1 ∧ identity st' = identity st1 ∧ deeds st' = deeds st1 ∧ ends_with memory m code
  | Crashes => ∃ don m rest st1, l = don ++ m :: rest ∧ serves memory don st st1 ∧ fatal m = true
  end.
Proof.
  revert st. induction l as [|m l IH]; intros st R Hl; [by split; [constructor|]|].
  apply Forall_cons in Hl as [Hm Hl]. destruct m as [r files ctrunc| |].
  2: { split; [done|]. exists [], HungUp, l, st. by split_and!; [|constructor|..]. }
  2: { split; [done|]. exists [], ReceiveError, l, st. by split_and!; [|constructor|..]. }
  cbn [serve]. pose proof (handle_ok memory r files ctrunc st R Hm) as Hh.
  destruct (handle_request memory r files ctrunc st) as [st1|st1 code waited|].
  - destruct Hh as [D Ef]. specialize (IH st1). rewrite Ef in IH. specialize (IH R Hl).
    destruct (serve memory l st1) as [st'|st' code waited|].
    + destruct IH as [S Ef']. split; [|done]. by eapply serves_more.
    + destruct IH as (Hw & don & m & rest & st2 & -> & S & HX). split; [done|].
      exists (Received r files ctrunc :: don), m, rest, st2. split_and!; [done|by eapply serves_more|apply HX..].
    + destruct IH as (don & m & rest & st2 & -> & S & HX).
      exists (Received r files ctrunc :: don), m, rest, st2. split_and!; [done|by eapply serves_more|done].
  - destruct Hh as (-> & Ei & Ed & Hw). split; [done|]. exists [], (Received r files ctrunc), l, st.
    by split_and!; [|constructor|..].
  - exists [], (Received r files ctrunc), l, st. by split_and!; [|constructor|].
Qed.

(** A request for a process gives one, or the reason why not: the answer goes to the
    inbox that came with the request, with a descriptor of the process.  The process
    has the files of the request as its standard descriptors, those of the supervisor
    it is to share or dead pipes, the inbox as 3, closed on [exec], and nothing else;
    the supervisor keeps none of them. *)
Theorem process_has_request memory r files st :
  resident (fds (self st)) → proper (Received r files false) → type r = CREATE_PROCESS →
  ∃ st', handle_request memory r files false st = Continues st' ∧ makes r files st st'.
Proof.
  intros R Hp Et. unfold handle_request. destruct (install false files (self st)) as [p l] eqn:E.
  rewrite Et. by apply create_ok.
Qed.

(** * Changes of identity *)
Context `{!CapabilityLaws}.

Lemma until_zero_end s : until_zero (s ++ [0]) = until_zero s.
Proof. induction s as [|c s IH]; simpl; [done|]. by rewrite IH. Qed.
Lemma until_zero_text s : 0 ∉ s → until_zero s = s.
Proof.
  induction s as [|c s IH]; simpl; [done|]. intros [Hc Hs]%not_elem_of_cons.
  rewrite decide_False by congruence. by rewrite IH.
Qed.

(** The request says what the change is. *)
Definition sendable (c : identity_change) : Prop :=
  match c with SetGroups l => length l < 2 ^ 31 | _ => True end.
Lemma request_asks c f g :
  sendable c → let '(q, mem) := request_of c in
  let files := f :: match mem with Some _ => [g] | None => [] end in
  asked (λ _, default (Text []) mem) q files = Some (own_change c) ∧
  proper (Received q files false) ∧ type q ≠ CREATE_PROCESS.
Proof.
  intros Hc. destruct c as [[[]]|[[]]|l|caps| | | | |path| ]; try done; simpl in Hc |- *.
  - unfold asked, proper. simpl. destruct (decide (l = [])) as [->|Hl]; simpl; [done|].
    assert (0 < length l) by (destruct l; simpl; [done|lia]).
    assert (to_int32 (length l) = length l) as ->.
    { unfold to_int32. rewrite Z.mod_small by lia. lia. }
    rewrite !decide_False by lia. simpl. by rewrite Nat2Z.id, take_ge by lia.
  - unfold asked. simpl. split; [|done]. rewrite until_zero_end, until_zero_text by apply cap_text_nonzero.
    by rewrite cap_from_to_text.
  - unfold asked. simpl. split; [|done]. by rewrite until_zero_end.
Qed.

Lemma acknowledged_spec pout l : acknowledged pout (drop (length l) (l ++ [Acknowledged pout])) = true.
Proof. rewrite drop_app_length. simpl. by rewrite bool_decide_eq_true_2. Qed.
(** The supervisor follows, or there is no answer. *)
Lemma ask_spec delivered q mem f files c s :
  resident (fds (self s)) → type q ≠ CREATE_PROCESS → proper (Received q (f :: files) false) →
  asked (λ _, default (Text []) mem) q (f :: files) = Some c →
  match ask delivered q mem f (f :: files) s with
  | (Some s', true) => identity s' = identity s ++ [c] ∧ fds (self s') = fds (self s)
  | (Some s', false) => s' = s ∧ delivered = false
  | (None, answered) => answered = false ∧ withheld (Some c)
  end.
Proof.
  intros R Hq Hp Ec. unfold ask. destruct delivered; [|done].
  destruct (install false (f :: files) (self s)) as [p l] eqn:E.
  destruct (identity_request (λ _, default (Text []) mem) q (f :: files) s p l R Hq Hp E) as (f' & [= <-] & F).
  destruct (handle_request _ q (f :: files) false s) as [s'|s' code waited|]; [| |done].
  2: { split; [done|]. rewrite <- Ec. apply F. }
  destruct F as (c' & Ec' & Ef & Ei & Ed). rewrite Ed, (acknowledged_spec f (deeds s)). split; [|done].
  congruence.
Qed.

(** The descriptors the process opens for a request are closed again. *)
Lemma opened_pipe p r w p' :
  open_channel p = inr (r, w, p') → delete r (delete w (fds p')) = fds p ∧
  fds p' !! r = Some (Descriptor (next_file p) false) ∧ fds p' !! w = Some (Descriptor (S (next_file p)) false) ∧
  r ≠ w ∧ (∀ n, n ≠ r → n ≠ w → fds p' !! n = fds p !! n) ∧ 0 ≤ r ∧ 0 ≤ w.
Proof.
  unfold open_channel. destruct (perform Pipe p) as [|q0] eqn:E; [done|]. intros [= Er <-].
  apply performed in E as (q & E & ->). cbn [effect] in E. unfold pipe_ends in *. simplify_eq.
  set (r := lowest (fds p)) in *. destruct (lowest_free (fds p)) as [Fr Gr]. fold r in Fr, Gr.
  set (m := <[r := Descriptor (next_file p) false]> (fds p)) in *.
  destruct (lowest_free m) as [Fw Gw]. set (w := lowest m) in *. cbn.
  assert (w ≠ r) as Hne by (intros E; unfold m in Fw; by rewrite E, lookup_insert_eq in Fw).
  unfold m in Fw. rewrite lookup_insert_ne in Fw by done. subst m. split_and!.
  - rewrite delete_insert_id by (by rewrite lookup_insert_ne). by rewrite delete_insert_id.
  - by rewrite lookup_insert_ne, lookup_insert_eq.
  - by rewrite lookup_insert_eq.
  - done.
  - intros n ? ?. by rewrite !lookup_insert_ne.
  - done.
  - done.
Qed.
Lemma opened_memory mem p fd p' :
  open_memory mem p = inr (fd, p') → fds p !! (-1) = None →
  delete fd (fds p') = fds p ∧ fds p !! fd = None ∧ (∀ n, n ≠ fd → fds p' !! n = fds p !! n).
Proof.
  unfold open_memory. intros E Hm. destruct mem.
  - destruct (memory_refused p); [done|]. injection E as <- <-. destruct (lowest_free (fds p)) as [Hf _]. simpl.
    split_and!; [by rewrite delete_insert_id|done|]. intros n ?. by rewrite lookup_insert_ne.
  - injection E as <- <-. by rewrite delete_id.
Qed.

Lemma change_in_step is_master delivered c m s :
  resident (fds (self s)) → fds (own m) !! (-1) = None → sendable c →
  let '(m', sup, o) := change_identity is_master delivered c m (Some s) in
  fds (own m') = fds (own m) ∧
  match o with
  | Changed => own_identity m' = own_identity m ++ [own_change c] ∧
      ∃ s', sup = Some s' ∧ identity s' = identity s ++ [own_change c] ∧ fds (self s') = fds (self s)
  | NotPermitted | Refused _ _ => own_identity m' = own_identity m ∧ sup = Some s
  | Exited code => code = 1 ∧ (delivered = false ∨ withheld (Some (own_change c)))
  end.
Proof.
  intros R Hm Hc. unfold change_identity. destruct is_master; simpl; [|done].
  assert (∀ f g, let '(q, mem) := request_of c in
    asked (λ _, default (Text []) mem) q (f :: match mem with Some _ => [g] | None => [] end) = Some (own_change c) ∧
    proper (Received q (f :: match mem with Some _ => [g] | None => [] end) false) ∧ type q ≠ CREATE_PROCESS) as Hask
    by (intros f g; by apply request_asks).
  destruct (request_of c) as [q mem].
  destruct (open_channel (own m)) as [e|[[r w] p1]] eqn:E1; [done|].
  pose proof (opened_pipe _ _ _ _ E1) as (Ec & Er & Ew & Hrw & Hk & Hr0 & Hw0).
  assert (fds p1 !! (-1) = None) as Hm1.
  { rewrite Hk by lia. done. }
  destruct (open_memory mem p1) as [e|[mfd p2]] eqn:E2; [done|].
  destruct (opened_memory _ _ _ _ E2 Hm1) as (Ed & Hf & Hk2).
  assert (fds (close_in r (close_in w (close_in mfd p2))) = fds (own m)) as Eown by (simpl; by rewrite Ed, Ec).
  destruct (allowed (own_change c) p2) eqn:Ea; simpl; [|done].
  assert (fds p2 !! w = fds p1 !! w) as -> by (apply Hk2; intros ->; congruence).
  destruct (Hask (default 0%nat (file <$> fds p1 !! w)) (default 0%nat (file <$> fds p2 !! mfd))) as (Hq & Hp & Ht).
  pose proof (ask_spec delivered q mem _ _ _ s R Ht Hp Hq) as A.
  destruct (ask delivered q mem _ _ s) as [[s'|] []]; simpl in A |- *; (split; [done|]); destruct A as [A1 A2]; try done.
  - split; [done|]. by exists s'.
  - split; [done|]. by left.
  - split; [done|]. by right.
Qed.

(** C8 A process and its supervisor change their identity together: when a function
    returns both have made the change, when it raises an error neither has, and
    otherwise, when the request does not arrive or the kernel grants the supervisor
    less than the process, the process exits.  No descriptor is left open. *)
Theorem identity_in_step is_master delivered c end_with m s :
  resident (fds (self s)) → fds (own m) !! (-1) = None → (∀ c0, c = inr c0 → sendable c0) →
  let '(m', sup, a) := identity_function is_master delivered c end_with m (Some s) in
  fds (own m') = fds (own m) ∧
  match c with
  | inl o => m' = m ∧ sup = Some s ∧ (is_master = true → a = Answers o)
  | inr c => ∃ r, a = end_with r ∧
      match r with
      | Changed => own_identity m' = own_identity m ++ [own_change c] ∧
          ∃ s', sup = Some s' ∧ identity s' = identity s ++ [own_change c] ∧ fds (self s') = fds (self s)
      | NotPermitted | Refused _ _ => own_identity m' = own_identity m ∧ sup = Some s
      | Exited code => code = 1 ∧ (delivered = false ∨ withheld (Some (own_change c)))
      end
  end.
Proof.
  intros R Hm Hc. unfold identity_function. destruct is_master; simpl.
  - destruct c as [o|c]; [done|].
    pose proof (change_in_step true delivered c m s R Hm (Hc c eq_refl)) as S.
    destruct (change_identity true delivered c m (Some s)) as [[m' sup] r]. destruct S as [S1 S2].
    split; [done|]. by exists r.
  - split; [done|]. destruct c as [o|c]; [done|]. by exists NotPermitted.
Qed.
End supervisor.

(** * Examples *)
Module Examples.
(** A kernel that refuses nothing, and a supervisor with its four descriptors. *)
#[export] Instance permissive : Kernel := {|
  refusal _ _ := None; egid_of _ := 0; euid_of _ := 0; getpgrp _ := 1 |}.
#[export] Instance clones : Cloning := {| clone_refused _ := None |}.
#[export] Instance capabilities : Capabilities := {|
  cap_t := nat; cap_to_text n := replicate n 97; cap_from_text s := Some (length s) |}.
#[export] Instance capability_laws : CapabilityLaws.
Proof.
  split; [intros c; simpl; by rewrite length_replicate|].
  intros c [? _]%elem_of_replicate. done.
Qed.
#[export] Instance identities : IdentityKernel := {|
  permitted _ _ := true; change_errno _ _ := 1; memory_refused _ := None; mappable _ _ := true; child_pid _ := 77 |}.
#[export] Instance child_kernel : ChildKernel := {|
  shutdown_refused _ := false; run_hook _ _ p := Some p; is_init _ := false; fork_refused _ := false;
  pair_refused _ := false |}.
#[export] Instance archives : Archive := {|
  archive hint module env := [Z.pos (encode (hint, module, env))];
  unarchive s := match s with [Z.pos p] => decode p | _ => None end |}.
#[export] Instance archive_laws : ArchiveLaws.
Proof. split; [|done]. intros. simpl. apply decode_encode. Qed.

Definition table : gmap Z descriptor :=
  {[0 := Descriptor 20 false; 1 := Descriptor 21 false; 2 := Descriptor 22 false; 3 := Descriptor 23 false]}.
Definition s0 : supervisor := Super (Process table 100 []) (Globals (-1) (-1) (-1) (-1) false false) [] [].
(** A process without input, whose output goes to a file, with the supervisor's errors. *)
Definition a_process (hook : bool) : request :=
  Request CREATE_PROCESS 0 CLOSE_FD USE_PIPE SHARE_PARENT true hook (0, 0, 0) (0, 0, 0) 0 0 false 0 0.
Definition identity_request : request :=
  Request SETRESUID 0 CLOSE_FD CLOSE_FD CLOSE_FD false false (7, 7, 7) (0, 0, 0) 0 0 false 0 0.
Definition memory (_ : nat) : contents := Text [].

Lemma table_resident : resident table.
Proof.
  split.
  - intros n [d Hd]. revert n d Hd. apply (map_Forall_lookup (λ n (_ : descriptor), 0 ≤ n)).
    apply (bool_decide_unpack _). vm_compute. exact I.
  - intros n Hn. assert (n = 0 ∨ n = 1 ∨ n = 2 ∨ n = 3) as [-> | [-> | [-> | ->]]] by lia; by eexists.
Qed.

Definition messages : list received :=
  [Received identity_request [51%nat] false; Received (a_process false) [50%nat; 60%nat] false; HungUp].
Lemma supervisor_serves_witness :
  match serve memory messages s0 with
  | Continues st' => serves memory messages s0 st' ∧ fds (self st') = fds (self s0)
  | Exits st' code waited => waited = true ∧ ∃ don m rest st1, messages = don ++ m :: rest ∧
      serves memory don s0 st1 ∧ identity st' = identity st1 ∧ deeds st' = deeds st1 ∧ ends_with memory m code
  | Crashes => ∃ don m rest st1, messages = don ++ m :: rest ∧ serves memory don s0 st1 ∧ fatal m = true
  end.
Proof. apply supervisor_serves; [apply table_resident|]. by repeat constructor. Defined.

(** A request for a change whose pipe the kernel could not make a descriptor of kills
    the supervisor: it dereferences the header that is not there, and its children
    are left behind; a process that cannot be made costs it nothing. *)
Example lost_pipe_kills :
  serve memory [Received (a_process false) [50%nat; 60%nat] false;
                Received identity_request [] true; HungUp] s0 = Crashes ∧
  serve memory [Received (a_process false) [50%nat] true; HungUp] s0 =
    Exits (close_self 3 s0) 0 true.
Proof. split; by vm_compute. Qed.

Lemma process_has_request_witness :
  ∃ st', handle_request memory (a_process false) [50%nat; 60%nat] false s0 = Continues st' ∧
    makes (a_process false) [50%nat; 60%nat] s0 st'.
Proof. apply process_has_request; [apply table_resident|done|done]. Defined.

Definition m0 : master := Master (Process {[0 := Descriptor 1 false; 4 := Descriptor 2 false]} 200 []) [].
Lemma identity_in_step_witness :
  let c := inr (SetGroups [5; 6]) in
  let '(m', sup, a) := identity_function true true c (answer_of []) m0 (Some s0) in
  fds (own m') = fds (own m0) ∧
  match c with
  | inl o => m' = m0 ∧ sup = Some s0 ∧ (true = true → a = Answers o)
  | inr c => ∃ r, a = answer_of [] r ∧
      match r with
      | Changed => own_identity m' = own_identity m0 ++ [own_change c] ∧
          ∃ s', sup = Some s' ∧ identity s' = identity s0 ++ [own_change c] ∧ fds (self s') = fds (self s0)
      | NotPermitted | Refused _ _ => own_identity m' = own_identity m0 ∧ sup = Some s0
      | Exited code => code = 1 ∧ (true = false ∨ withheld (Some (own_change c)))
      end
  end.
Proof. apply identity_in_step; [apply table_resident|done|]. by intros c0 [= <-]. Defined.

(** The child of the request, up to its VM: descriptor 5 is the socket of its own
    supervisor. *)
Definition child_of_request (hook : bool) (first second : child_read) : option child_end :=
  match handle_request memory (a_process hook) [50%nat; 60%nat] false s0 with
  | Continues st =>
      match deeds st with
      | Created child g _ :: _ => Some (child_main 1000 g first second child)
      | _ => None
      end
  | _ => None
  end.
Definition body : bytes := archive 1 (lit "main.lua") [lit "A=x=y"; lit "EMILUA_PATH=/a:/b"].
Example child_starts :
  match child_of_request false (Data body [] false) NoData with
  | Some (StartsVm v) => (map_to_list (fds (vm_process v)), entry_point v, search_path v, color v) =
      ([(5, Descriptor 103 false); (3, Descriptor 50 true); (2, Descriptor 22 false); (1, Descriptor 60 false);
        (0, Descriptor 100 false)],
       lit "main.lua", [lit "/a"; lit "/b"], true) ∧ app_env v !! lit "A" = Some (lit "x=y")
  | _ => False
  end.
Proof. by vm_compute. Qed.
(** The arguments of a process are made from its entry point before that is read. *)
Example arguments_lost :
  match child_of_request false (Data body [] false) NoData with
  | Some (StartsVm v) => app_args v = [[]; []] ∧ entry_point v ≠ []
  | _ => False
  end.
Proof. by vm_compute. Qed.
(** A script that is empty is a message the child takes for the end of its socket. *)
Example empty_script_ends_child :
  child_of_request true (Data body [] false) (Data [] [] false) = Some (ChildExits 1).
Proof. by vm_compute. Qed.

(** The functions of the modules. *)
#[export] Existing Instance Ieee754.api.
#[export] Instance identity_api : IdentityApi := {|
  string_integer _ := None; cap_from_name s := if decide (s = lit "cap_kill") then Some 5 else None; initial_umask := 18 |}.
Definition of_caller (r : master * option supervisor * identity_answer) :
    list identity_change * option (list identity_change) * identity_answer :=
  let '(m, s, a) := r in (own_identity m, identity <$> s, a).
Definition a_table (_ : loc) : LuaTable.table :=
  Table [(LNumber (lua_pushinteger 1), LNumber (lua_pushinteger 7)); (LNumber (lua_pushinteger 2), LBoolean true)] None.
Example groups_checked :
  of_caller (system_setgroups true true a_table [LTable 0] m0 (Some s0)) =
    ([], Some [], Answers (raise_arg invalid_argument 2)).
Proof. by vm_compute. Qed.
Example bound_dropped :
  of_caller (system_cap_drop_bound true true [LString (lit "cap_kill")] m0 (Some s0)) =
    ([CapDropBound 5], Some [CapDropBound 5], Answers (Returns [])).
Proof. by vm_compute. Qed.
Example umask_of_both :
  of_caller (filesystem_umask true true [LNumber (lua_pushinteger 63)] m0 (Some s0)) =
    ([SetUmask 63], Some [SetUmask 63], Answers (Returns [LNumber (lua_pushinteger 18)])).
Proof. by vm_compute. Qed.
Example exits_unanswered :
  of_caller (system_setresuid true false [LNumber (lua_pushinteger 9)] m0 (Some s0)) =
    ([SetResuid (9, 0, 0)], Some [], ExitsProcess 1).
Proof. by vm_compute. Qed.
Example others_may_not : of_caller (system_cap_reset_ambient false true m0 (Some s0)) =
    ([], Some [], Answers (raise operation_not_permitted)).
Proof. by vm_compute. Qed.
End Examples.
