(* ===== verification/SpawnModule.v ===== *)
(** [spawn_vm] of [src/src/actor.ypp], the part that makes a VM in the same process:
    which file its name stands for, and what [make_vm] of [src/src/state.ypp] does
    with it.  Names are those of [require], and the directories of [Modules]. *)
From S2P Require Import Prelude Errors Lua Vm Path RdfCategory Modules ModulesSpec ModulePromises.
#[local] Open Scope path_scope.

(** * The file of the new VM *)

Definition raise_module (ec : error_code) (id : bytes) : outcome :=
  Raises (ECode ec (Some (ModuleId id))).
Definition raise_exception (info : option err_info) (e : exn) : outcome :=
  match e with
  | SystemError ec => Raises (ECode ec info)
  | StdException what => Raises (EString what)
  end.

(** The search next to a file and under the root; errors carry the last name. *)
Definition search_module (fs : filesystem) (a : app_context) (dir : path) (name : bytes) :
    outcome + path :=
  match find_relative fs a dir name with
  | inl e => inl (raise_exception (Some (ModuleId name)) e)
  | inr (p, _) => inr p
  end.

(** [module_path = import_root] comes after the directories of a name were added to
    [module_path], so that only its last part counts. *)
Definition resolve_module (fs : filesystem) (a : app_context) (importer : path) (data : import_data)
    (module : bytes) : outcome + path :=
  if decide (module = lit ".") then inr importer
  else if decide (head module = Some 46%Z) then
    let module := if decide (take 2 module = lit "./") then drop 2 module else module in
    match parse_dot module 0 with
    | None => inl (raise_module Core.invalid_module_name module)
    | Some (nparents, name) =>
        if bool_decide (nparents = 0%nat) && is_leaf data then inl (raise Core.leaf_cannot_import_child)
        else
          match go_up (nparents - (if is_leaf data then 1 else 0)) (import_root data)
                  (parent_path importer) with
          | None => inl (raise Core.root_cannot_import_parent)
          | Some dir => search_module fs a dir name
          end
    end
  else if decide (head module = Some separator) then
    match parse_slash module None with
    | None => inl (raise_module Core.invalid_module_name module)
    | Some (_, name) => search_module fs a (import_root data) name
    end
  else inl (raise Core.invalid_module_name).

(** * The VM *)

(** [lua_exception]: the code of the error with which Lua refuses a source. *)
Class LuaExceptions := { lua_exception : bytes → option error_code }.

(** A VM that was made; [own_context], the hint of its own threads. *)
Record new_vm : Type := NewVm {
  vm_entry : path;
  vm_data : import_data;
  vm_source : bytes;
  own_context : option Z;
}.
(** What the VMs of a process share: [appctx].  VMs are numbered as they are made. *)
Record runtime : Type := Runtime {
  shared : app_context;
  vms : list new_vm;
  master_vm : nat;
  extra_threads_count : Z;
}.
(** The named parameters that concern a VM of the process. *)
Record vm_arguments : Set := VmArguments {
  module : bytes;
  inherit_ctx : bool;
  new_master : bool;
  concurrency_hint : Z;
}.

Section spawn.
Context `{LuaExceptions}.

Definition make_worker (fs : filesystem) (p root : path) (a : app_context) :
    app_context * (outcome + (path * import_data * bytes)) :=
  match entry_module fs worker p root with
  | inl ec => (a, inl (raise ec))
  | inr (entry, data) =>
      let '(a, r) := load_module_source fs entry a in
      (a, match r with
          | inl e => inl (raise_exception None e)
          | inr source =>
              match lua_exception source with
              | Some ec => inl (raise ec)
              | None => inr (entry, data, source)
              end
          end)
  end.

(** A new context has a thread, which is counted before the VM is made.  The result
    is the VM of the address. *)
Definition spawn_module (fs : filesystem) (args : vm_arguments) (importer : path) (data : import_data)
    (rt : runtime) : runtime * (outcome + nat) :=
  match resolve_module fs (shared rt) importer data (module args) with
  | inl o => (rt, inl o)
  | inr p =>
      let count := (extra_threads_count rt + (if inherit_ctx args then 0 else 1))%Z in
      let '(a, r) := make_worker fs p (import_root data) (shared rt) in
      match r with
      | inl o => (Runtime a (vms rt) (master_vm rt) count, inl o)
      | inr (entry, d, source) =>
          let n := length (vms rt) in
          let context := if inherit_ctx args then None else Some (concurrency_hint args) in
          (Runtime a (vms rt ++ [NewVm entry d source context])
             (if new_master args then n else master_vm rt) count, inr n)
      end
  end.

(** ** [spawn_context_threads] *)

(** [hint] is that of the context of the VM. *)
Definition spawn_context_threads (hint nthrds : Z) (rt : runtime) : runtime * outcome :=
  if decide (hint = 1)%Z then (rt, raise not_supported)
  else if decide (nthrds ≤ 0)%Z then (rt, Returns [])
  else (Runtime (shared rt) (vms rt) (master_vm rt) (extra_threads_count rt + nthrds), Returns []).

(** * Where a new VM starts *)

Lemma search_module_below fs a root dir dirs n p :
  path_key dir = (true, names root [] ++ dirs) → Forall plain_name dirs → word n →
  search_module fs a dir n = inr p → below root (path_key p).
Proof.
  unfold search_module. intros E Hd Hw Ef. destruct (find_relative fs a dir n) as [|[q leaf]] eqn:Eq; [done|].
  injection Ef as <-. by eapply find_relative_below.
Qed.

Lemma strip_dot_plain id : 0%Z ∉ id → 0%Z ∉ strip_dot id.
Proof.
  unfold strip_dot. intros Hz. case_decide; [|done]. intros Hin. apply Hz.
  rewrite <- (take_drop 2 id). apply elem_of_app. by right.
Qed.
Lemma resolved_below fs a importer data id p :
  proper (import_root data) → below (import_root data) (path_key importer) → 0%Z ∉ id →
  resolve_module fs a importer data id = inr p → below (import_root data) (path_key p).
Proof.
  intros Hp Hb Hz. unfold resolve_module. case_decide; [by intros [= <-]|]. case_decide.
  - change (if decide (take 2 id = lit "./") then drop 2 id else id) with (strip_dot id).
    destruct (parse_dot (strip_dot id) 0) as [[n name]|] eqn:Ep; [|done]. case_match; [done|].
    destruct (go_up _ _ _) as [dir|] eqn:Eg; [|done].
    destruct (importer_directory _ _ Hb) as (dirs & Ek & Hd).
    destruct (go_up_spec (n - (if is_leaf data then 1 else 0)) _ _ _ Hp Ek Hd) as [G1 G2].
    destruct (decide (n - (if is_leaf data then 1 else 0) ≤ length dirs)) as [Hle|];
      [|rewrite G2 in Eg by lia; done].
    destruct (G1 Hle) as (d & Ed & Edk). rewrite Ed in Eg. injection Eg as ->.
    apply parse_dot_spec in Ep as (_ & _ & Hw); [|by apply strip_dot_plain].
    eapply search_module_below; [done| |done]. by apply Forall_take.
  - case_decide; [|done]. destruct (parse_slash id None) as [[dirs name]|] eqn:Ep; [|done].
    apply parse_slash_spec in Ep as (_ & _ & Hw); [|done].
    eapply (search_module_below _ _ _ _ []); [|done|done]. rewrite app_nil_r. by apply proper_key.
Qed.

Lemma below_absolute root p cwd : below root (path_key p) → absolute cwd p = p.
Proof. intros (dirs & file & Ek & _). apply key_names in Ek. unfold absolute, is_absolute. by rewrite Ek. Qed.

Lemma make_worker_spec fs p root a a' e d source :
  proper root → below root (path_key p) → make_worker fs p root a = (a', inr (e, d, source)) →
  e = p ∧ import_root d = root ∧ context d = worker ∧ lua_exception source = None ∧
  is_leaf d = negb (bool_decide (filename p = lit "init.lua")) ∧
  snd <$> cached_source p a' = Some source.
Proof.
  intros Hp Hb. unfold make_worker, entry_module. rewrite (below_absolute _ _ _ Hb), decide_False.
  2: { intros ->. by destruct Hp as [Hr _]. }
  unfold load_module_source. destruct (cached_source p a) as [[q c]|] eqn:Ec.
  - destruct (lua_exception c) eqn:El; [done|]. intros [= <- <- <- <-]. by rewrite Ec.
  - destruct (read_contents fs p) as [|c]; [done|]. destruct (lua_exception c) eqn:El; [done|].
    intros [= <- <- <- <-]. unfold cached_source. simpl. by rewrite lookup_insert_eq.
Qed.

(** What reading the source of a file leaves in the caches all VMs share. *)
Definition source_cached (fs : filesystem) (root : path) (a a' : app_context) : Prop :=
  a' = a ∨ ∃ p contents, below root (path_key p) ∧ read_contents fs p = inr contents ∧
    cached_source p a = None ∧ a' = with_modules <[path_key p := (p, contents)]> a.
Lemma make_worker_caches fs p root a :
  below root (path_key p) → source_cached fs root a (make_worker fs p root a).1.
Proof.
  intros Hb. unfold source_cached, make_worker, entry_module. rewrite (below_absolute _ _ _ Hb).
  unfold load_module_source.
  case_decide; (destruct (cached_source p a) as [[? ?]|] eqn:Ec; [by left|]);
    (destruct (read_contents fs p) eqn:Er; [by left|]); right; by eexists _, _.
Qed.

(** The thread that a new context starts with. *)
Definition own_thread (args : vm_arguments) : Z := if inherit_ctx args then 0 else 1.

(** C16 Under a proper root of imports, for an importer below it and a name without
    zeros: a VM that is spawned in the process runs a file below the directory its
    creator imports from, and imports from the same directory; it is a worker, and the
    master VM only when that is asked for; the thread of a context of its own is
    counted.  When no VM can be made, the VMs and the master VM are those of before;
    what may be left is the source of the file in the cache, and the thread of the new
    context, which is counted until it ends (for a name that stands for no file neither
    is). *)
Theorem spawned_vm_confined fs args importer data rt :
  proper (import_root data) → below (import_root data) (path_key importer) → 0%Z ∉ module args →
  let '(rt', r) := spawn_module fs args importer data rt in
  source_cached fs (import_root data) (shared rt) (shared rt') ∧
  match r with
  | inr n => n = length (vms rt) ∧ ∃ vm, vms rt' = vms rt ++ [vm] ∧
      below (import_root data) (path_key (vm_entry vm)) ∧ import_root (vm_data vm) = import_root data ∧
      context (vm_data vm) = worker ∧ snd <$> cached_source (vm_entry vm) (shared rt') = Some (vm_source vm) ∧
      lua_exception (vm_source vm) = None ∧ (own_context vm = None ↔ inherit_ctx args = true) ∧
      master_vm rt' = (if new_master args then n else master_vm rt) ∧
      extra_threads_count rt' = (extra_threads_count rt + own_thread args)%Z
  | inl o => vms rt' = vms rt ∧ master_vm rt' = master_vm rt ∧
      match resolve_module fs (shared rt) importer data (module args) with
      | inl o' => o = o' ∧ rt' = rt
      | inr _ => extra_threads_count rt' = (extra_threads_count rt + own_thread args)%Z
      end
  end.
Proof.
  intros Hp Hb Hz. unfold spawn_module, own_thread.
  destruct (resolve_module fs (shared rt) importer data (module args)) as [o|p] eqn:Er;
    [by split; [left|split_and!]|].
  apply resolved_below in Er as Hbp; [|done..].
  pose proof (make_worker_caches fs p (import_root data) (shared rt) Hbp) as Hc.
  destruct (make_worker fs p (import_root data) (shared rt)) as [a [o|[[e d] source]]] eqn:Em; [done|].
  split; [exact Hc|].
  apply make_worker_spec in Em as (-> & Eroot & Ectx & El & _ & Es); [|done..].
  split; [done|]. eexists. split_and!; try done. simpl. by destruct (inherit_ctx args).
Qed.
End spawn.

(** * The names of [require] *)
Section names.
Context `{Sord} `{LuaCompiler} `{PluginsGrow} `{Builtins}.

Lemma found_search fs a dir name p leaf :
  find_relative fs a dir name = inr (p, leaf) → search_module fs a dir name = inr p.
Proof. unfold search_module. by intros ->. Qed.
Lemma rooted_search fs a dir name id a' p leaf :
  find_rooted fs a dir name id = (a', inr (FoundModule p leaf)) → search_module fs a dir name = inr p.
Proof.
  unfold find_rooted, search_module, find_relative, if_exists. intros E.
  repeat case_match; simplify_eq/=; done.
Qed.

Lemma import_dot fs ctx id importer data st :
  (import_relative fs ctx id importer data st).2 = Yield → id ≠ lit ".".
Proof. intros Hy ->. unfold import_relative in Hy. simpl in Hy. done. Qed.

(** A name that stands for a module stands for the same file in [require] and in
    [spawn_vm], when it is relative or has no directories. *)
Theorem spawn_resolves_like_require fs importer data id st :
  import_tree st !! path_key importer = Some data →
  head id = Some 46%Z ∨ (∃ name, parse_slash id None = Some ([], name)) →
  let r := require fs (File importer) [LString id] st in
  r.2 = Yield →
  ∃ p, module_paths r.1 !! next_loc (vm st) = Some p ∧ resolve_module fs (app st) importer data id = inr p.
Proof.
  intros Ht Hid r. unfold r, require, resolve_module. cbn [arg Nat.sub lookup list_lookup]. rewrite Ht.
  destruct (fiber_list (vm st) !! current_fiber_ (vm st)) as [row|]; [|done].
  case_match; [done|]. set (ctx := context_of _ _). destruct (decide (head id = Some 46%Z)) as [H46|H46].
  - intros Hy. rewrite decide_False by (intros E; by apply import_dot in Hy).
    destruct (import_relative_cases fs ctx id importer data st) as [[Hr _]|(_ & p & leaf & Hs & Hf & _)]; [done|].
    apply starts_effect in Hs as (_ & -> & _). exists p. rewrite lookup_insert_eq. split; [done|].
    destruct Hf as (n & name & dir & Ep & Eg & Ef & _). unfold strip_dot in Ep. rewrite Ep.
    unfold import_relative in Hy. rewrite Ep in Hy. destruct (bool_decide (n = 0) && is_leaf data); [done|]. rewrite Eg. by eapply found_search.
  - destruct Hid as [?|[name En]]; [done|]. intros Hy.
    assert (head id = Some separator) as H47.
    { destruct id as [|c id]; simpl in En; [done|]. destruct (decide (c = separator)) as [->|]; done. }
    rewrite decide_True in Hy |- * by done. rewrite decide_False by (intros E; rewrite E in H47; done). rewrite En.
    destruct (import_rooted_cases fs ctx id data st) as [[Hr _]|(_ & p & leaf & Hs & Hf & _)].
    { intros E. by rewrite Hy in E. } { done. }
    apply starts_effect in Hs as (_ & -> & _). exists p. rewrite lookup_insert_eq. split; [done|].
    destruct Hf as (dirs & name' & a & Ep & Ef). rewrite En in Ep. injection Ep as <- <-.
    rewrite decide_True by done. by eapply rooted_search.
Qed.
End names.

(** * Examples *)
Module Examples.
Import ModulePromises.Examples.
#[export] Instance accepts : LuaExceptions := {| lua_exception s := if decide (s = lit "!") then Some (System_code 3) else None |}.

Definition disk : filesystem :=
  Filesystem
    {[path_key (lit "/app/main.lua") := Regular (lit "m");
      path_key (lit "/app/a.lua") := Regular (lit "a");
      path_key (lit "/app/x/a.lua") := Regular (lit "xa");
      path_key (lit "/app/broken.lua") := Regular (lit "!")]} (lit "/").
Definition rt0 : runtime := Runtime (App [] ∅ ∅ ∅ ∅) [] 0 0.
Definition of_name (id : bytes) : vm_arguments := VmArguments id true false (-2).
Definition spawned (id : bytes) : outcome + (path * bool) :=
  let '(rt, r) := spawn_module disk (of_name id) entry_path entry_data rt0 in
  match r with
  | inl o => inl o
  | inr n => match vms rt !! n with Some vm => inr (vm_entry vm, is_leaf (vm_data vm)) | None => inl Undefined end
  end.

Lemma spawned_vm_confined_witness :
  let args := VmArguments (lit "./a") false true 1 in
  let '(rt', r) := spawn_module disk args entry_path entry_data rt0 in
  source_cached disk (import_root entry_data) (shared rt0) (shared rt') ∧
  match r with
  | inr n => n = length (vms rt0) ∧ ∃ vm, vms rt' = vms rt0 ++ [vm] ∧
      below (import_root entry_data) (path_key (vm_entry vm)) ∧ import_root (vm_data vm) = import_root entry_data ∧
      context (vm_data vm) = worker ∧ snd <$> cached_source (vm_entry vm) (shared rt') = Some (vm_source vm) ∧
      lua_exception (vm_source vm) = None ∧ (own_context vm = None ↔ inherit_ctx args = true) ∧
      master_vm rt' = (if new_master args then n else master_vm rt0) ∧
      extra_threads_count rt' = (extra_threads_count rt0 + own_thread args)%Z
  | inl o => vms rt' = vms rt0 ∧ master_vm rt' = master_vm rt0 ∧
      match resolve_module disk (shared rt0) entry_path entry_data (module args) with
      | inl o' => o = o' ∧ rt' = rt0
      | inr _ => extra_threads_count rt' = (extra_threads_count rt0 + own_thread args)%Z
      end
  end.
Proof.
  apply (spawned_vm_confined disk (VmArguments (lit "./a") false true 1) entry_path entry_data rt0).
  - by split.
  - apply start_ok.
  - apply (bool_decide_unpack (0%Z ∉ lit "./a")). by vm_compute.
Defined.
Lemma spawn_resolves_like_require_witness :
  let r := require ModulePromises.Examples.disk (File entry_path) [LString (lit "./a")] start in
  r.2 = Yield ∧ ∃ p, module_paths r.1 !! next_loc (vm start) = Some p ∧
    resolve_module ModulePromises.Examples.disk (app start) entry_path entry_data (lit "./a") = inr p.
Proof.
  split; [by vm_compute|].
  apply spawn_resolves_like_require; [by vm_compute|by left|by vm_compute].
Defined.

Example spawned_child : spawned (lit "./a") = inr (lit "/app/a.lua", true).
Proof. by vm_compute. Qed.
Example spawned_broken : spawned (lit "/broken") = inl (raise (System_code 3)).
Proof. by vm_compute. Qed.
(** The directories of a name are dropped: [require] runs the file in them. *)
Example directories_dropped :
  spawned (lit "/x/a") = inr (lit "/app/a.lua", true) ∧
  module_paths (require disk (File entry_path) [LString (lit "/x/a")] start).1 !! 10%nat = Some (lit "/app/x/a.lua").
Proof. by vm_compute. Qed.
(** The file of an entry point is a leaf in the VM it spawns of itself: what it could
    import it cannot any more. *)
Example entry_becomes_leaf :
  is_leaf entry_data = false ∧ spawned (lit ".") = inr (entry_path, true) ∧
  resolve_module disk (shared rt0) entry_path (ImportData true worker (lit "/app")) (lit "./a") =
    inl (raise Core.leaf_cannot_import_child).
Proof. by vm_compute. Qed.
End Examples.
