(* ===== verification/SpawnVm.v ===== *)
(** [spawn_vm] of [src/src/actor.ypp]: its arguments, the process it asks the
    supervisor for, and what that process becomes, with [child_main] and
    [ipc_actor_service_main] of [Supervisor].  The VM in the same process is
    [SpawnModule].

    The calls that may fail are the class [ProcessKernel]; the archive of the message
    with which the VM is told what to run is the class [Archive]. *)
From S2P Require Import Prelude Errors Lua LuaTable Vm Path RdfCategory Modules SpawnModule SpawnArgs SpawnChild.
From S2P Require Import SpawnSpec SpawnMoves SpawnPromises SpawnParent MonotonicAllocator Supervisor SupervisorSpec.
#[local] Open Scope Z_scope.

(** * Arguments *)

Definition CLONE_NEWNS : Z := 2 ^ 17.
Definition CLONE_NEWUTS : Z := 2 ^ 26.
Definition CLONE_NEWIPC : Z := 2 ^ 27.
Definition CLONE_NEWUSER : Z := 2 ^ 28.
Definition CLONE_NEWPID : Z := 2 ^ 29.
Definition CLONE_NEWNET : Z := 2 ^ 30.

(** The table [subprocess]. *)
Record subprocess_arguments : Set := SubprocessArguments {
  namespaces : Z;                (* [request.clone_flags] *)
  sub_stdin : Z;
  sub_stdout : Z;
  sub_stderr : Z;
  newenv : list bytes;
  hook_script : option bytes;    (* [lua_hook] *)
  lua_hook_fd : Z;
}.

(** [BOOST_ASIO_CONCURRENCY_HINT_SAFE], or 1 without threads. *)
Class Threading := { default_hint : Z }.

Section arguments.
Context `{LuaApi} `{Threading}.
Variable view : lua_view.

Definition subprocess_field (name : string) : string := ("subprocess/" ++ name)%string.

Definition read_newns (t : lua_value) (name : string) (flag flags : Z) : early Z :=
  match getfield view t name with
  | LNil => inr flags
  | LBoolean b => inr (if b then Z.lor flags flag else flags)
  | _ => bad_field (subprocess_field name)
  end.
Definition read_namespaces (t : lua_value) : early Z :=
  let! flags := read_newns t "newns_uts" CLONE_NEWUTS 0 in
  let! flags := read_newns t "newns_ipc" CLONE_NEWIPC flags in
  let! flags := read_newns t "newns_pid" CLONE_NEWPID flags in
  let! flags := read_newns t "newns_user" CLONE_NEWUSER flags in
  let! flags := read_newns t "newns_net" CLONE_NEWNET flags in
  read_newns t "newns_mount" CLONE_NEWNS flags.

Definition read_standard (t : lua_value) (name : string) (fileno : Z) : early Z :=
  match getfield view t name with
  | LNil => inr (-1)
  | LString s => if decide (s = lit "share") then inr fileno else bad_field (subprocess_field name)
  | LUserdata u => handle_fd view u (subprocess_field name)
  | _ => bad_field (subprocess_field name)
  end.

Fixpoint variables (l : list (lua_value * lua_value)) : early (list bytes) :=
  match l with
  | [] => inr []
  | (LString k, LString v) :: l => let! rest := variables l in inr ((k ++ lit "=" ++ v) :: rest)
  | _ => bad_field "subprocess/environment"
  end.
Definition read_variables (t : lua_value) : early (list bytes) :=
  match getfield view t "environment" with
  | LNil => inr []
  | LTable e => variables (slots (table_at view e))
  | _ => bad_field "subprocess/environment"
  end.

Definition read_init (t : lua_value) : early (option bytes * Z) :=
  match getfield view t "init" with
  | LNil => inr (None, -1)
  | LTable i =>
      let! fd :=
        match getfield view (LTable i) "arg" with
        | LNil => inr (-1)
        | LUserdata u => handle_fd view u "subprocess/init/arg"
        | _ => bad_field "subprocess/init/arg"
        end in
      match getfield view (LTable i) "script" with
      | LString s => inr (Some s, fd)
      | _ => bad_field "subprocess/init/script"
      end
  | _ => bad_field "subprocess/init"
  end.

Definition read_subprocess (t : lua_value) : early subprocess_arguments :=
  let! flags := read_namespaces t in
  let! i := read_standard t "stdin" 0 in
  let! o := read_standard t "stdout" 1 in
  let! e := read_standard t "stderr" 2 in
  let! env := read_variables t in
  let! hook := read_init t in
  inr (SubprocessArguments flags i o e env hook.1 hook.2).

(** A [subprocess] excludes the two parameters that say where else the VM runs. *)
Definition read_parameters (is_master : bool) (t : lua_value) :
    early (vm_arguments * option subprocess_arguments) :=
  let! module :=
    match getfield view t "module" with
    | LString s => inr s
    | LNil => inr []
    | _ => bad_field "module"
    end in
  let inherit_ctx := match getfield view t "inherit_context" with LBoolean b => Some b | _ => None end in
  let! new_master :=
    match getfield view t "new_master" with
    | LBoolean b => if b && negb is_master then inl (raise operation_not_permitted) else inr (Some b)
    | _ => inr None
    end in
  let hint :=
    match getfield view t "concurrency_hint" with
    | LNumber n => if decide (to_int32 (lua_tointeger n) = 1) then 1 else default_hint
    | _ => default_hint
    end in
  let args := VmArguments module (default true inherit_ctx) (default false new_master) hint in
  match getfield view t "subprocess" with
  | LTable s =>
      if decide (is_Some inherit_ctx ∨ is_Some new_master) then inl (raise_arg invalid_argument 1)
      else let! a := read_subprocess (LTable s) in inr (args, Some a)
  | _ => inr (args, None)
  end.
End arguments.

(** * The process *)

(** What the kernel answers.  [files_lost]: how many of the files the supervisor gets
    when its table is full; [pidfd_lost]: that of the caller is. *)
Class ProcessKernel `{Capabilities} := {
  socketpair_error : process → option Z;
  request_error : process → option Z;
  files_lost : supervisor → option nat;
  reply_error : process → option Z;
  pidfd_lost : process → bool;
  body_error : process → option Z;
  hook_error : process → option Z;
}.

Section subprocess.
Context `{Capabilities} `{Kernel} `{Cloning} `{!IdentityKernel} `{!ProcessKernel} `{Archive}.
(** [sizeof(ipc_actor_message)] *)
Context (capacity : nat).

Definition action_of (fd fileno : Z) : action :=
  if decide (fd = -1) then CLOSE_FD else if decide (fd = fileno) then SHARE_PARENT else USE_PIPE.
(** [has_color]: [emilua::stdout_has_color]. *)
Definition request_for (has_color : bool) (a : subprocess_arguments) : request :=
  let e := action_of (sub_stderr a) 2 in
  Request CREATE_PROCESS (namespaces a) (action_of (sub_stdin a) 0) (action_of (sub_stdout a) 1) e
    (match e with SHARE_PARENT => has_color | _ => false end)
    (bool_decide (is_Some (hook_script a))) (0, 0, 0) (0, 0, 0) 0 0 false 0 0.

(** The descriptors that go with the request, after the socket. *)
Definition passed (fd fileno : Z) : list Z :=
  match action_of fd fileno with USE_PIPE => [fd] | _ => [] end.
Definition passed_fds (a : subprocess_arguments) : list Z :=
  passed (sub_stdin a) 0 ++ passed (sub_stdout a) 1 ++ passed (sub_stderr a) 2.
Fixpoint files_of (p : process) (l : list Z) : option (list nat) :=
  match l with
  | [] => Some []
  | fd :: l => d ← fds p !! fd; files ← files_of p l; Some (file d :: files)
  end.
Definition send_request (socket : Z) (a : subprocess_arguments) (p : process) : Z + list nat :=
  match request_error p with
  | Some e => inl e
  | None => match files_of p (socket :: passed_fds a) with Some files => inr files | None => inl EBADF end
  end.

(** The supervisor deals with the request; its socket is closed when it ends. *)
Definition exchange (r : request) (files : list nat) (s : supervisor) : option supervisor * list deed :=
  let '(files, ctrunc) := match files_lost s with Some n => (take n files, true) | None => (files, false) end in
  match handle_request (λ _, Text []) r files ctrunc s with
  | Continues s' => (Some s', drop (length (deeds s)) (deeds s'))
  | Exits _ _ _ | Crashes => (None, [])
  end.
Fixpoint reply_to (inbox : nat) (l : list deed) : option (Z * Z * option nat) :=
  match l with
  | [] => None
  | Replied to pid e pidfd :: l => if decide (to = inbox) then Some (pid, e, pidfd) else reply_to inbox l
  | _ :: l => reply_to inbox l
  end.

Definition close_if (fd : Z) (p : process) : process := if decide (fd = -1) then p else close_in fd p.

(** The message with the script of the hook. *)
Definition send_hook (a : subprocess_arguments) (p : process) : Z + child_read :=
  match hook_script a with
  | None => inr NoData
  | Some script =>
      match hook_error p with
      | Some e => inl e
      | None =>
          match (if decide (lua_hook_fd a = -1) then Some [] else files_of p [lua_hook_fd a]) with
          | Some files => inr (Data script files (bool_decide (EMILUA_LUA_HOOK_BUFFER_SIZE < length script)))
          | None => inl EBADF
          end
      end
  end.

(** The process and its supervisor afterwards, what the child finds in its socket,
    and the result: the descriptor of the address, that of the reaper and the number
    of the child. *)
Record exchange_result : Type := Attempt {
  at_process : process;
  at_supervisor : option supervisor;
  at_sent : child_read * child_read;
  at_result : outcome + (Z * Z * Z);
}.

Definition spawn_subprocess (hint : Z) (module : bytes) (has_color : bool) (a : subprocess_arguments)
    (p : process) (sup : option supervisor) : exchange_result :=
  let nothing := (NoData, NoData) in
  let error e := inl (raise (System_code e)) in
  match sup with
  | None => Attempt p None nothing (inl (raise no_child_process))
  | Some s =>
      let body := archive hint module (newenv a) in
      if decide (capacity < length body)%nat then Attempt p sup nothing (inl (raise (Generic_code message_size)))
      else
        match socketpair_error p with
        | Some e => Attempt p sup nothing (error e)
        | None =>
            let '(c0, c1, p) := make_pair p in
            match send_request c0 a p with
            | inl e => Attempt (close_in c1 (close_in c0 p)) sup nothing (error e)
            | inr files =>
                let '(sup, news) := exchange (request_for has_color a) files s in
                let p := close_in c0 p in
                match reply_error p with
                | Some e => Attempt (close_in c1 p) sup nothing (error e)
                | None =>
                    match reply_to (hd 0%nat files) news with
                    | None => Attempt (close_in c1 p) sup nothing (inl (raise (Misc_code Asio.misc_errors.eof)))
                    | Some (pid, e, pidfile) =>
                        let '(p, l) := install false (if pidfd_lost p then [] else option_list pidfile) p in
                        let pidfd := hd (-1) l in
                        let closed := close_in c1 (close_if pidfd p) in
                        if decide (e ≠ 0) then Attempt closed sup nothing (error e)
                        else if decide (pidfd = -1) then Attempt closed sup nothing (inl (raise too_many_files_open))
                        else
                          match body_error p with
                          | Some e => Attempt closed sup nothing (error e)
                          | None =>
                              let first := Data body [] false in
                              match send_hook a p with
                              | inl e => Attempt closed sup (first, NoData) (error e)
                              | inr second => Attempt p sup (first, second) (inr (c1, pidfd, pid))
                              end
                          end
                    end
                end
            end
        end
  end.
End subprocess.

(** * The function *)

(** What is returned. *)
Inductive address : Type :=
| VmAddress (vm : nat)                       (* [actor_address] *)
| ProcessAddress (dest : Z) (reaper : Z * Z).  (* [ipc_actor_address] *)

Section spawn_vm.
Context `{LuaApi} `{Threading} `{LuaExceptions} `{Capabilities} `{Kernel} `{Cloning} `{!IdentityKernel}
  `{!ProcessKernel} `{Archive}.
Context (capacity : nat) (has_color : bool).

(** The VM that calls, the process it is in, and the supervisor of that. *)
Record actor : Type := Actor {
  rt : runtime;
  me : nat;
  tree : gmap (bool * list bytes) import_data;
  proc : process;
  service : option supervisor;   (* [ipc_actor_service_sockfd] *)
  reapers : list (Z * Z);        (* among [pending_operations] *)
}.
Definition read_call (view : lua_view) (from : caller) (L : lua_args) (st : actor) :
    early (path * import_data * (vm_arguments * option subprocess_arguments)) :=
  let! first :=
    match arg (settop 1 L) 1 with
    | Some (LString []) => inl (raise Core.invalid_module_name)
    | Some (LString s) => inr (inl s)
    | Some (LTable t) => inr (inr t)
    | _ => inl (raise_arg invalid_argument 1)
    end in
  let! importer :=
    match from with
    | TailCall => inl (Raises (EString "no function environment for tail call"))
    | NoFile => inl (raise Core.current_module_not_known)
    | File p => inr p
    end in
  match tree st !! path_key importer with
  | None => inl (raise Core.current_module_not_known)
  | Some data =>
      let! args :=
        match first with
        | inl s => inr (VmArguments s true false default_hint, None)
        | inr t => read_parameters view (bool_decide (master_vm (rt st) = me st)) (LTable t)
        end in
      inr (importer, data, args)
  end.

Definition spawn_vm (fs : filesystem) (view : lua_view) (from : caller) (L : lua_args) (st : actor) :
    actor * (outcome + address) * (child_read * child_read) :=
  match read_call view from L st with
  | inl o => (st, inl o, (NoData, NoData))
  | inr (importer, data, (args, Some a)) =>
      let x := spawn_subprocess capacity (concurrency_hint args) (module args) has_color a (proc st) (service st) in
      let '(r, reaper) :=
        match at_result x with
        | inl o => (inl o, [])
        | inr (dest, pidfd, pid) => (inr (ProcessAddress dest (pidfd, pid)), [(pidfd, pid)])
        end in
      (Actor (rt st) (me st) (tree st) (at_process x) (at_supervisor x) (reapers st ++ reaper), r, at_sent x)
  | inr (importer, data, (args, None)) =>
      let '(rt', r) := spawn_module fs args importer data (rt st) in
      (Actor rt' (me st) (tree st) (proc st) (service st) (reapers st),
       match r with inl o => inl o | inr n => inr (VmAddress n) end, (NoData, NoData))
  end.
End spawn_vm.

(** * A process and its supervisor *)

Definition nonnegative (T : gmap Z descriptor) : Prop := ∀ n, is_Some (T !! n) → 0 ≤ n.
Lemma nonnegative_insert T n d : nonnegative T → 0 ≤ n → nonnegative (<[n := d]> T).
Proof. intros HT Hn m. rewrite lookup_insert. case_decide; [lia|apply HT]. Qed.
Lemma nonnegative_none T : nonnegative T → T !! (-1) = None.
Proof. intros HT. destruct (T !! (-1)) eqn:E; [|done]. pose proof (HT (-1) ltac:(by eexists)). lia. Qed.

Lemma fds_close_in fd p : fds (close_in fd p) = delete fd (fds p).
Proof. done. Qed.
Lemma make_pair_spec p c0 c1 q : nonnegative (fds p) → make_pair p = (c0, c1, q) →
  c0 ≠ c1 ∧ fds p !! c0 = None ∧ fds p !! c1 = None ∧ 0 ≤ c0 ∧ 0 ≤ c1 ∧
  fds q = <[c1 := Descriptor (S (next_file p)) false]> (<[c0 := Descriptor (next_file p) false]> (fds p)).
Proof.
  intros HT. unfold make_pair, pipe_ends. destruct (lowest_free (fds p)) as [Hf H0].
  set (r := lowest (fds p)) in *. set (m := <[r := _]> (fds p)).
  destruct (lowest_free m) as [Hw Hw0]. set (w := lowest m) in *. intros [= <- <- <-].
  assert (r ≠ w) as Hne by (intros E; unfold m in Hw; by rewrite <- E, lookup_insert_eq in Hw).
  unfold m in Hw. by rewrite lookup_insert_ne in Hw.
Qed.

Section refinement.
Context `{Capabilities} `{Kernel} `{Cloning} `{!IdentityKernel} `{!ProcessKernel} `{Archive}.
Context (capacity : nat).

(** The files the child's standard descriptors are to refer to: the caller's, those
    of the supervisor, or the end of a pipe that the child makes. *)
Definition given (end_of : nat * nat → nat) (fd fileno : Z) (T : gmap Z descriptor) (shared nf : nat) : nat * nat :=
  if decide (fd = -1) then (end_of (nf, S nf), S (S nf))
  else if decide (fd = fileno) then (shared, nf)
  else (default 0%nat (file <$> T !! fd), nf).
Definition child_streams (a : subprocess_arguments) (T : gmap Z descriptor) (shared : nat * nat * nat)
    (nf : nat) : nat * nat * nat :=
  let '(i, o, e) := shared in
  let '(f0, nf) := given fst (sub_stdin a) 0 T i nf in
  let '(f1, nf) := given snd (sub_stdout a) 1 T o nf in
  let '(f2, _) := given snd (sub_stderr a) 2 T e nf in
  (f0, f1, f2).

Lemma files_of_app p l l' files : files_of p (l ++ l') = Some files →
  ∃ f f', files_of p l = Some f ∧ files_of p l' = Some f' ∧ files = f ++ f'.
Proof.
  revert files. induction l as [|fd l IH]; intros files E; simpl in E |- *; [by exists [], files|].
  destruct (fds p !! fd) as [d|]; [|done]. simpl in *.
  destruct (files_of p (l ++ l')) as [fl|]; [|done]. simpl in E. injection E as <-.
  destruct (IH fl eq_refl) as (f & f' & -> & -> & ->). by exists (file d :: f), f'.
Qed.
(** One stream of the request, when its file is the first of those left. *)
Lemma stream_given p end_of fd fileno shared nf f files :
  files_of p (passed fd fileno) = Some f →
  length f = used (action_of fd fileno) ∧
  stream end_of (action_of fd fileno) shared (f ++ files) nf =
    ((given end_of fd fileno (fds p) shared nf).1, files, (given end_of fd fileno (fds p) shared nf).2).
Proof.
  unfold passed, action_of, given. repeat case_decide; simpl; [by intros [= <-]|by intros [= <-]|].
  destruct (fds p !! fd) as [d|]; [|done]. simpl. by intros [= <-].
Qed.

Lemma sent_files socket color a p files : send_request socket a p = inr files →
  ∃ d others, fds p !! socket = Some d ∧ files = file d :: others ∧
    proper (Received (request_for color a) files false) ∧
    ∀ shared nf, streams (request_for color a) shared others nf = child_streams a (fds p) shared nf.
Proof.
  unfold send_request. destruct (request_error p); [done|]. cbn [files_of].
  destruct (fds p !! socket) as [d|]; [|done]. cbn.
  destruct (files_of p (passed_fds a)) as [others|] eqn:E; [|done]. intros [= <-].
  exists d, others. split_and!; [done|done|..]; unfold passed_fds in E.
  all: apply files_of_app in E as (f0 & rest & E0 & E & ->).
  all: apply files_of_app in E as (f1 & f2 & E1 & E2 & ->).
  - simpl. rewrite !length_app.
    destruct (stream_given p fst _ _ 0%nat 0%nat _ [] E0) as [-> _], (stream_given p fst _ _ 0%nat 0%nat _ [] E1) as [-> _],
      (stream_given p fst _ _ 0%nat 0%nat _ [] E2) as [-> _]. lia.
  - intros [[i o] e] nf. unfold streams, child_streams. cbn [stdin_action stdout_action stderr_action request_for].
    destruct (stream_given p fst _ _ i nf _ (f1 ++ f2) E0) as [_ ->].
    destruct (given fst (sub_stdin a) 0 (fds p) i nf) as [g0 n0]. cbn [fst snd].
    destruct (stream_given p snd _ _ o n0 _ f2 E1) as [_ ->].
    destruct (given snd (sub_stdout a) 1 (fds p) o n0) as [g1 n1]. cbn [fst snd].
    rewrite <- (app_nil_r f2). destruct (stream_given p snd _ _ e n1 _ [] E2) as [_ ->].
    by destruct (given snd (sub_stderr a) 2 (fds p) e n1).
Qed.

(** What the supervisor has done: nothing, an error, or a process. *)
Definition answers (r : request) (files : list nat) (s : supervisor) (news : list deed) : Prop :=
  news = [] ∨ (∃ e, news = [Replied (hd 0%nat files) (-1) e None]) ∨
  ∃ child g pid pidfile, child_of r files s child g ∧
    news = [Created child g (flags_of r); Replied (hd 0%nat files) pid 0 (Some pidfile)].
Lemma drop_news {A} (l l' news : list A) : l' = l ++ news → drop (length l) l' = news.
Proof. intros ->. by rewrite drop_app_length. Qed.
Lemma exchange_ok r files s :
  resident (fds (self s)) → proper (Received r files false) → type r = CREATE_PROCESS →
  ∃ s' news, exchange r files s = (Some s', news) ∧ fds (self s') = fds (self s) ∧
    identity s' = identity s ∧ deeds s' = deeds s ++ news ∧ answers r files s news.
Proof.
  intros R Hp Et. unfold exchange. destruct (files_lost s) as [n|].
  - unfold handle_request. destruct (install false (take n files) (self s)) as [p l] eqn:E. rewrite Et.
    destruct (lost_ok r (take n files) s p l R) as (s' & -> & Ef & Ei & Ed); [|done|].
    { rewrite length_take. simpl in Hp. rewrite Et in Hp.
      destruct (stdin_action r), (stdout_action r), (stderr_action r); simpl in Hp; lia. }
    exists s', []. rewrite Ed, drop_all, app_nil_r. split_and!; try done. by left.
  - destruct (process_has_request (λ _, Text []) r files s R Hp Et) as (s' & -> & Ef & Ei & D).
    destruct D as [[e Ed]|(child & g & pid & pf & Ed & C)]; rewrite (drop_news _ _ _ Ed); eexists _, _;
      (split_and!; [done|done|done|done|right]); [left; by eexists|right]. by exists child, g, pid, pf.
Qed.

(** ** The child *)
Context `{ChildKernel}.

Lemma child_without_message g second p : child_main capacity g NoData second p = ChildExits 1.
Proof. unfold child_main. by destruct (child_descriptors g p). Qed.
Lemma child_without_script g bs files tr p :
  lua_hook g = true → child_main capacity g (Data bs files tr) NoData p = ChildExits 1.
Proof.
  intros Hg. unfold child_main. destruct (child_descriptors g p) as [q|]; [|done].
  destruct bs; [done|]. by destruct (shutdown_refused q); rewrite ?Hg.
Qed.
Lemma start_supervisor_fds p q fd own : nonnegative (fds p) →
  start_supervisor p = (q, fd, own) → delete fd (fds q) = fds p.
Proof.
  intros HT. unfold start_supervisor. destruct (pair_refused p).
  { intros [= <- <- _]. by rewrite delete_id by by apply nonnegative_none. }
  destruct (make_pair p) as [[a b] q0] eqn:E. apply make_pair_spec in E as (Hne & Ha & Hb & Ha0 & Hb0 & Eq); [|done].
  assert (delete b (delete a (fds q0)) = fds p) as Ec.
  { rewrite Eq, delete_insert_ne by congruence. rewrite (delete_insert_id (fds p) a) by done. by rewrite delete_insert_id. }
  destruct (fork_refused q0); intros [= <- <- _]; simpl; [|done].
  rewrite Ec. rewrite delete_id; [done|]. by apply nonnegative_none.
Qed.

(** What the VM of the child is given. *)
Definition runs (hint : Z) (module : bytes) (a : subprocess_arguments) (streams : nat * nat * nat)
    (inbox : nat) (child : process) (g : globals) (v : vm_start) : Prop :=
  entry_point v = module ∧ environ v = newenv a ∧ main_ctx_concurrency_hint v = hint ∧ vm_inbox v = 3 ∧
  ∃ p, child_descriptors g child = Some p ∧ fds p = child_table streams inbox ∧
    (hook_script a = None → delete (ipc_actor_service_sockfd v) (fds (vm_process v)) = fds p).
Lemma child_runs `{!ArchiveLaws} hint module a streams inbox child g second v :
  (length (archive hint module (newenv a)) ≤ capacity)%nat →
  lua_hook g = bool_decide (is_Some (hook_script a)) →
  (∀ p, child_descriptors g child = Some p → fds p = child_table streams inbox) →
  child_main capacity g (Data (archive hint module (newenv a)) [] false) second child = StartsVm v →
  runs hint module a streams inbox child g v.
Proof.
  intros Hn Hg Hd. unfold child_main. destruct (child_descriptors g child) as [p|] eqn:Ep; [|done].
  specialize (Hd p eq_refl). pose proof (unarchive_archive hint module (newenv a)) as Eu.
  destruct (archive hint module (newenv a)) as [|c body] eqn:Eb.
  { by destruct (archive_nonempty hint module (newenv a)). }
  rewrite take_ge by done. destruct (shutdown_refused p); [done|].
  destruct ((if lua_hook g then _ else _) ≫= below_init) as [q|] eqn:Eq; [|done].
  destruct (start_supervisor q) as [[q' fd] own] eqn:Es. rewrite Eu. intros [= <-].
  split_and!; try done. exists p. split_and!; [done|done|]. intros Hs. simpl.
  rewrite Hg, Hs, bool_decide_eq_false_2 in Eq by (by intros []). cbn [mbind option_bind] in Eq.
  assert (q = p) as ->.
  { unfold below_init in Eq. destruct (is_init p); [|by injection Eq]. destruct (fork_refused p); [done|by injection Eq]. }
  eapply start_supervisor_fds; [|done]. rewrite Hd. destruct streams as [[i o] e].
  intros n [d Hl]. rewrite lookup_child_table in Hl. repeat case_decide; first [lia|done].
Qed.

(** ** Both together *)

Lemma given_same end_of fd fileno T T' shared nf :
  (∀ n, n ∈ passed fd fileno → T' !! n = T !! n) → given end_of fd fileno T' shared nf = given end_of fd fileno T shared nf.
Proof.
  intros Hs. unfold given, passed, action_of in *. repeat case_decide; try done. by rewrite (Hs fd) by left.
Qed.
Lemma child_streams_same a T T' shared nf :
  (∀ n, n ∈ passed_fds a → T' !! n = T !! n) → child_streams a T' shared nf = child_streams a T shared nf.
Proof.
  intros Hs. unfold passed_fds in Hs. destruct shared as [[i o] e]. unfold child_streams.
  rewrite (given_same fst _ 0 T T') by (intros; apply Hs; set_solver). case_match.
  rewrite (given_same snd _ 1 T T') by (intros; apply Hs; set_solver). case_match.
  by rewrite (given_same snd _ 2 T T') by (intros; apply Hs; set_solver).
Qed.

(** The processes that were made for it. *)
Definition child_made (s : supervisor) (x : exchange_result) (child : process) (g : globals) : Prop :=
  ∃ s' news flags, at_supervisor x = Some s' ∧ deeds s' = deeds s ++ news ∧ Created child g flags ∈ news.
(** The caller has its descriptors again, and a child ends before it is a VM. *)
Definition undone (p : process) (s : supervisor) (x : exchange_result) : Prop :=
  fds (at_process x) = fds p ∧
  ∀ child g, child_made s x child g → child_main capacity g (at_sent x).1 (at_sent x).2 child = ChildExits 1.

Lemma undone_unsent p s q sup o :
  fds q = fds p → undone p s (Attempt q sup (NoData, NoData) o).
Proof. intros Ef. split; [done|]. intros child g _. apply child_without_message. Qed.

(** A hook that was not sent is what the child waits for in vain. *)
Lemma undone_unhooked p s s' q q' body o has_color a files child g pid pidfile e :
  fds q' = fds p → child_of (request_for has_color a) files s child g → send_hook a q = inl e →
  deeds s' = deeds s ++ [Created child g (flags_of (request_for has_color a)); Replied (hd 0%nat files) pid 0 (Some pidfile)] →
  undone p s (Attempt q' (Some s') (Data body [] false, NoData) o).
Proof.
  intros Ef C Eh Ed. split; [done|]. intros child' g' (s1 & news & fl & [= <-] & En & Hin).
  rewrite Ed in En. apply app_inv_head in En as <-.
  apply list_elem_of_In in Hin as [Hin|[Hin|[]]]; [injection Hin as <- <- _|done].
  apply child_without_script. rewrite (child_hook _ _ _ _ _ C). simpl. apply bool_decide_eq_true_2.
  unfold send_hook in Eh. by destruct (hook_script a).
Qed.

Lemma install_pidfd (lost : bool) pidfile p q l : nonnegative (fds p) →
  install false (if lost then [] else option_list pidfile) p = (q, l) →
  (l = [] ∧ q = p) ∨
  ∃ pf, pidfile = Some pf ∧ l = [lowest (fds p)] ∧ fds q = <[lowest (fds p) := Descriptor pf false]> (fds p) ∧
    fds p !! lowest (fds p) = None ∧ 0 ≤ lowest (fds p).
Proof.
  intros HT. destruct lost; [intros [= <- <-]; by left|]. destruct pidfile as [pf|]; simpl; [|intros [= <- <-]; by left].
  intros [= <- <-]. right. exists pf. destruct (lowest_free (fds p)) as [Hf Hl]. by split_and!.
Qed.

(** C6 [spawn_vm] with a [subprocess] and the process it makes agree: when it returns an
    address, a process was made whose VM, when it starts, has the module, environment
    and hint that were asked for, the files that were asked for as its standard
    descriptors, its end of the address as its inbox and no other descriptor; the
    caller has two new descriptors, the address and the one of the process.  When it
    raises an error the caller has the descriptors it had, and a process that was
    made for it ends before it is a VM.  The supervisor keeps its descriptors. *)
Theorem spawned_process_runs `{!ArchiveLaws} hint module has_color a p s :
  resident (fds (self s)) → nonnegative (fds p) → Forall (λ fd, is_Some (fds p !! fd)) (passed_fds a) →
  let x := spawn_subprocess capacity hint module has_color a p (Some s) in
  ∃ s', at_supervisor x = Some s' ∧ fds (self s') = fds (self s) ∧ identity s' = identity s ∧
  match at_result x with
  | inl _ => undone p s x
  | inr (dest, pidfd, pid) =>
      dest ≠ pidfd ∧ fds p !! dest = None ∧ fds p !! pidfd = None ∧ ∃ child g pidfile,
        deeds s' = deeds s ++ [Created child g (flags_of (request_for has_color a));
                               Replied (next_file p) pid 0 (Some pidfile)] ∧
        fds (at_process x) = <[pidfd := Descriptor pidfile false]>
                               (<[dest := Descriptor (S (next_file p)) false]> (fds p)) ∧
        ∀ v, child_main capacity g (at_sent x).1 (at_sent x).2 child = StartsVm v →
          runs hint module a (child_streams a (fds p) (standard_files (fds (self s))) (next_file (self s)))
            (next_file p) child g v
  end.
Proof.
  intros R HT Hopen. unfold spawn_subprocess. cbn zeta.
  destruct (decide (capacity < length (archive hint module (newenv a)))%nat) as [|Hn];
    [by exists s; split_and!; try apply undone_unsent|].
  destruct (socketpair_error p); [by exists s; split_and!; try apply undone_unsent|].
  destruct (make_pair p) as [[c0 c1] q] eqn:Eq. apply make_pair_spec in Eq as (Hne & Hc0 & Hc1 & H00 & H01 & Eq); [|done].
  assert (fds (close_in c0 q) = <[c1 := Descriptor (S (next_file p)) false]> (fds p)) as Eq0.
  { by rewrite fds_close_in, Eq, delete_insert_ne, delete_insert_id by congruence. }
  assert (nonnegative (fds (close_in c0 q))) as HT0 by (rewrite Eq0; by apply nonnegative_insert).
  destruct (send_request c0 a q) as [e|files] eqn:Es.
  { exists s. split_and!; try done. apply undone_unsent. by rewrite fds_close_in, Eq0, delete_insert_id. }
  apply (sent_files _ has_color) in Es as (d & others & Ed & -> & Hp & Hstreams).
  rewrite Eq, lookup_insert_ne, lookup_insert_eq in Ed by done. injection Ed as <-.
  destruct (exchange_ok (request_for has_color a) _ s R Hp eq_refl) as (s' & news & -> & Ef & Ei & Edeeds & A).
  exists s'. set (q0 := close_in c0 q) in *.
  assert (fds (close_in c1 q0) = fds p) as Eback by (by rewrite fds_close_in, Eq0, delete_insert_id).
  cbn [hd file]. destruct (reply_error q0); [by split_and!; try apply undone_unsent|].
  destruct A as [-> |[[e ->]|(child & g & pid & pidfile & C & ->)]]; cbn [reply_to hd];
    [by split_and!; try apply undone_unsent|..]; rewrite decide_True by done.
  all: destruct (install false _ q0) as [q1 l] eqn:Einst.
  { apply install_pidfd in Einst as [[-> ->]|(? & ? & _)]; [|done|done]. cbn [hd]. unfold close_if.
    rewrite !(decide_True (P := -1 = -1)) by done. case_decide; by split_and!; try apply undone_unsent. }
  rewrite decide_False by lia. unfold close_if.
  apply install_pidfd in Einst as [[-> ->]|(pf & [= <-] & -> & Eq1 & Hfree & Hpos)]; [| |done]; cbn [hd].
  { rewrite !(decide_True (P := -1 = -1)) by done. by split_and!; try apply undone_unsent. }
  set (pidfd := lowest (fds q0)) in *. rewrite !(decide_False (P := pidfd = -1)) by lia.
  assert (fds (close_in c1 (close_in pidfd q1)) = fds p) as Eback'.
  { by rewrite !fds_close_in, Eq1, delete_insert_id. }
  destruct (body_error q1); [by split_and!; try apply undone_unsent|].
  destruct (send_hook a q1) as [e|second] eqn:Eh.
  - split_and!; [done..|]. by eapply undone_unhooked.
  - split_and!; [done|done|done|]. rewrite Eq0, lookup_insert in Hfree. case_decide as Hcp; [done|].
    split_and!; [done|done|done|]. exists child, g, pidfile. split_and!; [done|by rewrite <- Eq0|].
    intros v. apply child_runs; [lia|by rewrite (child_hook _ _ _ _ _ C)|]. intros pc Hpc.
    rewrite (child_fds _ _ _ _ _ C pc Hpc). cbn [tl hd file]. rewrite Hstreams. f_equal. apply child_streams_same.
    intros n Hin. rewrite Forall_forall in Hopen. destruct (Hopen _ Hin) as [dn Hdn].
    rewrite Eq, !lookup_insert_ne by congruence. done.
Qed.
End refinement.

(** * Examples *)
Module Examples.
Import SupervisorSpec.Examples.
#[export] Instance safe : Threading := {| default_hint := -2 |}.
#[export] Instance willing : ProcessKernel := {|
  socketpair_error _ := None; request_error _ := None; files_lost _ := None; reply_error _ := None;
  pidfd_lost _ := false; body_error _ := None; hook_error _ := None |}.
#[export] Instance accepts : LuaExceptions := {| lua_exception _ := None |}.
#[export] Existing Instance Ieee754.api.

(** The caller has its own standard descriptors and a file as 5. *)
Definition caller_process : process :=
  Process {[0 := Descriptor 10 false; 1 := Descriptor 11 false; 2 := Descriptor 12 false; 5 := Descriptor 15 true]} 300 [].
Definition wanted (hook : option bytes) : subprocess_arguments :=
  SubprocessArguments CLONE_NEWUSER (-1) 5 2 [lit "A=b"] hook (-1).

Lemma caller_nonnegative : nonnegative (fds caller_process).
Proof.
  intros n [d Hd]. revert n d Hd. apply (map_Forall_lookup (λ n (_ : descriptor), 0 ≤ n)).
  apply (bool_decide_unpack _). vm_compute. exact I.
Qed.
Lemma spawned_process_runs_witness :
  let a := wanted None in let p := caller_process in
  let x := spawn_subprocess 1000 1 (lit "/m") false a p (Some s0) in
  ∃ s', at_supervisor x = Some s' ∧ fds (self s') = fds (self s0) ∧ identity s' = identity s0 ∧
  match at_result x with
  | inl _ => undone 1000 p s0 x
  | inr (dest, pidfd, pid) =>
      dest ≠ pidfd ∧ fds p !! dest = None ∧ fds p !! pidfd = None ∧ ∃ child g pidfile,
        deeds s' = deeds s0 ++ [Created child g (flags_of (request_for false a));
                               Replied (next_file p) pid 0 (Some pidfile)] ∧
        fds (at_process x) = <[pidfd := Descriptor pidfile false]>
                               (<[dest := Descriptor (S (next_file p)) false]> (fds p)) ∧
        ∀ v, child_main 1000 g (at_sent x).1 (at_sent x).2 child = StartsVm v →
          runs 1 (lit "/m") a (child_streams a (fds p) (standard_files (fds (self s0))) (next_file (self s0)))
            (next_file p) child g v
  end.
Proof.
  apply spawned_process_runs; [apply archive_laws|apply table_resident|apply caller_nonnegative|].
  repeat constructor. by eexists.
Defined.

(** A call of [spawn_vm] by the entry point, from the table to the child's VM. *)
Definition the_view : lua_view := {|
  getfield v name :=
    match v with
    | LTable 1%nat =>
        if decide (name = "module"%string) then LString (lit "/m")
        else if decide (name = "subprocess"%string) then LTable 2 else LNil
    | LTable 2%nat =>
        if decide (name = "stdout"%string) then LUserdata 7
        else if decide (name = "stderr"%string) then LString (lit "share")
        else if decide (name = "newns_user"%string) then LBoolean true
        else if decide (name = "environment"%string) then LTable 3 else LNil
    | LTable 4%nat =>
        if decide (name = "new_master"%string) then LBoolean true else LNil
    | LTable 5%nat =>
        if decide (name = "inherit_context"%string) then LBoolean true
        else if decide (name = "subprocess"%string) then LTable 2 else LNil
    | _ => LNil
    end;
  table_at t := match t with 3%nat => Table [(LString (lit "A"), LString (lit "b"))] None | _ => Table [] None end;
  userdata_at u := match u with 7%nat => HandleOf (Some 5) | _ => WithoutMetatable end |}.
Definition entry_path : path := lit "/app/main.lua".
Definition the_actor (me : nat) : actor :=
  Actor (Runtime (App [] ∅ ∅ ∅ ∅) [] 0 0) me {[path_key entry_path := ImportData false main (lit "/app")]}
    caller_process (Some s0) [].
Definition calls_spawn_vm (me : nat) (v : lua_value) : actor * (outcome + address) * (child_read * child_read) :=
  spawn_vm 1000 false (Filesystem ∅ (lit "/")) the_view (File entry_path) [v] (the_actor me).

Example process_from_table :
  let '(st, r, sent) := calls_spawn_vm 0 (LTable 1) in
  r = inr (ProcessAddress 4 (3, 77)) ∧ reapers st = [(3, 77)] ∧
  match deeds <$> service st with
  | Some [Created child g flags; Replied _ _ 0 (Some _)] =>
      flags = Z.lor CLONE_NEWUSER (Z.lor CLONE_PIDFD SIGCHLD) ∧
      match child_main 1000 g sent.1 sent.2 child with
      | StartsVm v => entry_point v = lit "/m" ∧ environ v = [lit "A=b"] ∧
          fds (vm_process v) !! 1 = Some (Descriptor 15 false) ∧ fds (vm_process v) !! 2 = Some (Descriptor 22 false)
      | _ => False
      end
  | _ => False
  end.
Proof. by vm_compute. Qed.
Example only_the_master_gives_up : (calls_spawn_vm 1 (LTable 4)).1.2 = inl (raise operation_not_permitted).
Proof. by vm_compute. Qed.
Example two_places : (calls_spawn_vm 0 (LTable 5)).1.2 = inl (raise_arg invalid_argument 1).
Proof. by vm_compute. Qed.
Example no_name : (calls_spawn_vm 0 (LString [])).1.2 = inl (raise Core.invalid_module_name).
Proof. by vm_compute. Qed.
(** The hook is lost with an empty script, although the call succeeds. *)
Example empty_script_succeeds :
  let x := spawn_subprocess 1000 1 (lit "/m") false (wanted (Some [])) caller_process (Some s0) in
  match at_result x, deeds <$> at_supervisor x with
  | inr _, Some (Created child g _ :: _) => child_main 1000 g (at_sent x).1 (at_sent x).2 child = ChildExits 1
  | _, _ => False
  end.
Proof. by vm_compute. Qed.
End Examples.
